(* ===== verification/_CoqProject ===== *)
-Q . S2P
Prelude.v
Utf.v
Mapi.v
Wire.v
ExtVal.v
ExtValProofs.v
ExtValTotal.v
Globset.v
Idset.v
FastTransfer.v
FastTransferProofs.v
Lzxpress.v
LzxpressProofs.v
Limitbase.v
Httplimit.v
Connlimit.v
Authlimit.v
Netline.v
WbxmlTokens.v
Wbxml.v
WbxmlProofs.v
Ndr.v
Ropbuf.v
Gostr.v
Gotime.v
Recur.v
RecurProofs.v
Tnef.v
TnefProofs.v
Pop3.v
Pop3Proofs.v
Imaplex.v
ImaplexProofs.v
Imapsearch.v
ImapsearchProofs.v
Imapfetch.v
Permission.v
Imapses.v
Imapsync.v
ImapsesProofs.v
Smtp.v
SmtpProofs.v
SmtpBody.v
Mtalimit.v
Mailhdr.v
MailhdrProofs.v
Relay.v
RelayProofs.v
SmtpInv.v
Antispam.v
Mta.v
MtaProofs.v
MtaKept.v
MtaRuns.v
RopTags.v
RopBase.v
RopProps.v
RopMessage.v
RopAttach.v
RopStream.v
RopMsgops.v
RopTable.v
RopFolder.v
RopLogon.v
RopSync.v
RopNotify.v
Rop.v
RopInv.v
RopRules.v
RopSafe.v
RopSafeFolder.v
RopDispatch.v
RopTheorems.v
RopTableProofs.v
RopRuns.v
Rules.v
RulesProofs.v
Spooler.v
SpoolerProofs.v
Mtasts.v
