(* ===== verification/Prelude.v ===== *)
(** * hermEX: a verification development

    hermEX is a mail and groupware server written in Go: an Exchange-compatible store that
    Outlook reaches over MAPI/HTTP and RPC over HTTP, phones over ActiveSync, and mail clients
    over IMAP, POP3 and SMTP.  This library models the parts of it that carry its own logic and
    proves what makes them correct.  Paths below are relative to [src/].

    ** How the parts fit together

    A client's bytes pass a limiter ([internal/connlimit], [internal/httplimit]), a protocol
    server and, for a login, the throttle ([internal/authlimit]) and the directory.  A server
    works on a mailbox store ([internal/objectstore]), a SQL database of folders, messages and
    properties.  The Outlook protocols move batches of remote operations in an Execute buffer
    ([internal/oxmapihttp]) that is obfuscated or compressed ([internal/lzxpress]), framed by
    DCE/RPC over RPC/HTTP ([internal/ndr]), and filled with values of the MAPI property model
    ([internal/mapi]) in their wire form ([internal/ext]); the incremental synchronization of a
    mailbox adds change sets and a property stream ([internal/ics]).

    ** The files

    - Shared: [Prelude] (results, machine integers, byte orders), [Utf] and [Gostr] (what the
      code uses of Go's strings, [unicode/utf16], [strconv], [encoding/base64] and [sort]).
    - The property model and its codecs: [Mapi] ([internal/mapi]), [Wire], [ExtVal] and their
      proofs [ExtValProofs], [ExtValTotal] ([internal/ext]).
    - Synchronization: [Globset], [Idset], [FastTransfer], [FastTransferProofs]
      ([internal/ics]).
    - Transport: [Lzxpress], [LzxpressProofs] ([internal/lzxpress]), [Ropbuf]
      ([internal/oxmapihttp]), [Ndr] ([internal/ndr]), [WbxmlTokens], [Wbxml], [WbxmlProofs]
      ([internal/wbxml]), [Netline] ([internal/netline]).
    - Admission: [Limitbase], [Httplimit], [Connlimit], [Authlimit].
    - POP3: [Pop3], [Pop3Proofs] ([internal/pop3]).
    - IMAP ([internal/imap]): [Imaplex] (parser.go, seqset.go, flags.go, the string writers of
      render.go), [Imapsearch] (mailbox.go, search.go), [Imapfetch] (fetch.go,
      sort.go), [Imapses] (server.go, session.go, store_cmd.go, condstore.go, publicfolder.go,
      acl.go, quota.go); proofs in [ImaplexProofs], [ImapsearchProofs], [Imapsync],
      [ImapsesProofs].
    - SMTP ([internal/smtp]): [Smtp] (server.go, auth.go: the session over a backend class),
      [SmtpProofs] (every session), [SmtpBody] (DATA and BDAT), [SmtpInv] (what a backend keeps
      through a connection).
    - Mail transport: [Mtalimit] (ratelimit.go, outbound.go, greylist.go of [internal/mta]),
      [Mailhdr], [MailhdrProofs] (the byte edits of message headers and the writers of generated
      mail, against [net/mail]'s reader), [Relay], [RelayProofs] ([internal/relay]: the spool and
      the worker's pass, a program of calls that may stop between any two), [Antispam]
      ([internal/antispam]: the verdict from the results of the checks), [Mta] ([internal/mta]
      and [internal/sendas]: the backend of the SMTP server and the sends of the other front
      ends) with [MtaProofs] (relaying, automatic replies, distribution lists), [MtaKept] (what an
      accepted message leaves behind, Junk or inbox) and [MtaRuns] (a concrete server).
    - Scheduled mail: [Spooler], [SpoolerProofs] ([internal/spooler]: the sweep of the Outbox, a
      program of calls that fail and are cut off).  Transport security: [Mtasts]
      ([internal/mtasts]: policies and their cache).
    - Calendars: [Gotime] (what the code uses of Go's [time]), [Recur] ([internal/recurrence]:
      rules, the binary pattern, the appointment's blob), [RecurProofs] (rules through
      patterns, the blob, the absence of panics).
    - Mail formats: [Tnef], [TnefProofs] ([internal/tnef]: winmail.dat streams).
    - Store: [Permission] (the permission table of [internal/objectstore] and the rights
      [internal/rop] serves), [Rules], [RulesProofs] (rules.go, rules_eval.go: the table of
      mailbox rules, their conditions, and their application as a program of calls).
    - The ROP layer ([internal/rop]): [RopTags] (operation numbers and tags), [RopBase] (the
      session, its handles, the heap of objects and byte arrays, the calls to the store, the
      rights of a delegate), [RopProps] (property rows and recipients), [RopMessage] (messages:
      message.go, write.go), [RopAttach] (attachments, embedded messages, copies), [RopStream],
      [RopMsgops], [RopTable], [RopFolder] (folders, search folders, rules, permissions),
      [RopLogon], [RopSync] (ics.go, fastcopy.go), [RopNotify] and [Rop] (the dispatch table and
      the loop over a batch).  [RopInv] states the invariant of a session under a policy,
      [RopRules] what keeps it, [RopSafe] and [RopSafeFolder] that each handler does,
      [RopDispatch] that each request does; [RopTheorems] and [RopTableProofs] (tables and
      streams) have the theorems and [RopRuns] runs on a small store.

    A Go struct is a [Record] with a prefix for its fields, an enumeration an inductive type, a
    method a definition of the method's name, state passed in and out.  Integers are [Z] with
    their wrap-around written out ([u8] .. [u64], [i32] ..) wherever the code lets them wrap.
    Errors are values of [result] or [option]; a panic, where the code can reach one, is an
    error value or the absence of a result, so that its absence is a theorem.  The session
    monad of [Imapses] threads the connection and the stores through a command and is undefined
    exactly where the code would dereference a nil pointer; that of [RopBase] has a heap, since
    handles share objects and a stream shares the array of the value it was opened on.  What lies outside [src/], or is SQL
    or network access, is a class, a record of operations or an argument with its laws as
    hypotheses: the store and the directory of the servers ([Pop3.MailStore],
    [Imapses.ImapStore], [RopBase.Backend]), the replica mapper of [Idset], clocks, [net/mail], [net/textproto],
    the MIME package, TLS and DEFLATE.

    ** What the theorems show

    - Round trips of every codec (property values and restrictions, GLOBSETs, synchronization
      state, FastTransfer, compression, NDR, WBXML, TNEF, the Execute buffer, IMAP command lines, POP3
      dot-stuffing), and on arbitrary input totality, bounds on what is built and the absence of
      panics.
    - Refinements of abstract specifications: IDSETs are finite sets, the permission table is a
      map of grants, the connection limiter counts live connections, the POP3 session is the
      protocol's machine, SEARCH is the meaning RFC 3501 gives its grammar, and a FastTransfer
      producer and parser form a pipe whatever the chunks.
    - Safety of sessions: nobody reaches a mailbox without a password the directory accepted, an
      IMAP session never dereferences a nil pointer, a read-only selection writes nothing, and a
      client that follows the replies of a poll or an EXPUNGE numbers messages as the server
      does.
    - Bounds of the limiters: wrong passwords per window, requests per period, live connections,
      external recipients per account; greylisting admits no stranger at first contact.
    - The mail path: an SMTP session keeps its transactions apart and its messages bounded, a
      delivered copy carries the envelope's Return-Path alone, and the relay neither loses a
      queued recipient nor, while bounces can be delivered and rows are deleted only between
      passes, sends to it again after an exchanger answered that it accepted, wherever a pass
      stops (an attempt that ended in an error is repeated, [RelayProofs.error_sent_again]).  A
      message that was accepted is in every mailbox and in the spool; mail of a client that is
      not logged in leaves only to the members of lists open to its sender and by the rules of
      mailboxes; a list reaches each member once; automatic replies do not answer each other;
      the folder of a copy agrees with its verdict.
    - The ROP layer: whatever requests a session has had and whatever other sessions do to the
      stores, a batch of operations ends and is answered without a panic, and every call that
      changes a store of another mailbox or sends mail was preceded by the calls that gave the
      session the right to it, operations on ids and the emptying of a folder apart; the
      operations of a stream are those of a file, those of a table are a cursor over the rows its
      filter keeps in the order of its keys, and notifications leave in order.  The exceptions
      (permissions and rules tables, names that grow when lower-cased, the release of a logon) are
      runs in [RopRuns].
    - Calendar series: an Outlook pattern keeps its rule through the text other clients read and
      write, a series with its exceptions is read back from what was written when no two of them
      are on one day, and no rule or blob panics.
    - Scheduled mail: a message is never lost, not handed to delivery again after it was accepted (a
      delivery that failed is repeated, [SpoolerProofs.failed_delivery_repeated]), and handed over
      without its Bcc fields; a sweep over a store that works settles what is due.
    - Transport security: a policy is read back as published and none is served beyond its
      lifetime.
    - Mailbox rules: the table is a map of rules that a listing shows in evaluation order, a batch
      of changes is applied as a whole or not at all, and a rule never takes a message out of a
      folder before another one has accepted a copy.

    ** Fuel

    Recursion that is not structural runs on fuel that is a function of the input: the bytes or
    tokens left for decoders, lexers, parsers and session loops, the number of folders for a
    path to the root.  The levels of the value decoder are those of its goroutine's stack:
    [ExtValTotal.decoder_total] bounds them by its two limits and by the rule actions an input can
    name, which are not limited ([ExtValTotal.action_nesting_unbounded]).  Where the result of too
    little fuel could be confused with an answer, a
    theorem shows that the fuel given never runs out ([ExtValTotal.decoder_total],
    [WbxmlProofs.unmarshal_safe], [LzxpressProofs.decompress_total],
    [ImapsearchProofs.search_parser_total], [ImapsesProofs.session_no_panic],
    [Pop3Proofs.session_refines], [RopTheorems.batches_terminate]).  The one recursion of the program that can run forever, the
    path of a folder whose ancestors form a cycle, is [None] in [Imapsearch.pathOf], and
    [ImapsesProofs.acyclic_listings] is the hypothesis that a store lists no such folders.

    ** Not modelled

    Listeners, accept loops, logging and process wiring ([cmd]) keep no state of interest.  The
    SQL of the store, the web and administration interfaces, the directory, DNS, TLS,
    certificates, S/MIME, DKIM, antispam and antivirus clients are calls of other systems.  The
    conversions of mail, calendars and contacts ([internal/oxcmail], [internal/oxcical],
    [internal/oxvcard], [internal/oxews]) and the vocabularies of tags are tables and text
    formats.  Of the modelled servers, writes that fail on a broken link and the renderers of
    the MIME structure are left out.
*)

From stdpp Require Import base list numbers.
From Stdlib Require Import ZArith Lia.

Open Scope Z_scope.

(** ** Results: fallible code returns a value or an error *)

Inductive result (E A : Type) : Type :=
| Ok (a : A)
| Err (e : E).
Arguments Ok {E A} a.
Arguments Err {E A} e.

Definition rbind {E A B} (m : result E A) (k : A -> result E B) : result E B :=
  match m with
  | Ok a => k a
  | Err e => Err e
  end.

Declare Scope go_scope.
Delimit Scope go_scope with go.

Notation "'let?' x ':=' m 'in' k" := (rbind m (fun x => k))
  (at level 10, x pattern, m at level 100, k at level 200,
   format "'let?'  x  ':='  m  'in' '//' k") : go_scope.

Lemma rbind_Ok {E A B} (m : result E A) (k : A -> result E B) b :
  rbind m k = Ok b -> exists a, m = Ok a /\ k a = Ok b.
Proof. destruct m; simpl; eauto; discriminate. Qed.

(** ** Machine integers: [w]-bit values are [Z] with the wrap-around written out *)

Definition byte := Z.
Abbreviation bytes := (list Z).

Definition u8 (x : Z) : Z := x mod 2 ^ 8.
Definition u16 (x : Z) : Z := x mod 2 ^ 16.
Definition u32 (x : Z) : Z := x mod 2 ^ 32.
Definition u64 (x : Z) : Z := x mod 2 ^ 64.

(** The signed view of the same [w] bits, e.g. Go's [int16(v)] of a [uint16]. *)
Definition signed (w x : Z) : Z := if x <? 2 ^ (w - 1) then x else x - 2 ^ w.

Definition inU (w x : Z) : bool := (0 <=? x) && (x <? 2 ^ w).
Definition inS (w x : Z) : bool := (- 2 ^ (w - 1) <=? x) && (x <? 2 ^ (w - 1)).

(** [len] is Go's [len]: a slice length as an integer. *)
Definition len {A} (l : list A) : Z := Z.of_nat (length l).

Lemma inU_spec w x : inU w x = true <-> 0 <= x < 2 ^ w.
Proof. unfold inU. rewrite andb_true_iff, Z.leb_le, Z.ltb_lt. tauto. Qed.

Lemma inS_spec w x : inS w x = true <-> - 2 ^ (w - 1) <= x < 2 ^ (w - 1).
Proof. unfold inS. rewrite andb_true_iff, Z.leb_le, Z.ltb_lt. tauto. Qed.

Lemma pow2_double w : 0 < w -> 2 ^ w = 2 * 2 ^ (w - 1).
Proof. intros. rewrite <- Z.pow_succ_r by lia. f_equal. lia. Qed.

Lemma signed_mod w x : 0 < w -> inS w x = true -> signed w (x mod 2 ^ w) = x.
Proof.
  intros Hw H. apply inS_spec in H. unfold signed.
  pose proof (pow2_double w Hw) as E.
  assert (0 < 2 ^ (w - 1)) by (apply Z.pow_pos_nonneg; lia).
  destruct (Z.le_gt_cases 0 x).
  - rewrite Z.mod_small by lia. destruct (Z.ltb_spec x (2 ^ (w - 1))); lia.
  - replace (x mod 2 ^ w) with (x + 2 ^ w).
    + destruct (Z.ltb_spec (x + 2 ^ w) (2 ^ (w - 1))); lia.
    + apply (Z.mod_unique _ _ (-1)); lia.
Qed.

(** Arithmetic at the width of Go's [int64] and [int32] *)
Definition i64 (x : Z) : Z := signed 64 (x mod 2 ^ 64).
Definition i32 (x : Z) : Z := signed 32 (x mod 2 ^ 32).
Lemma i64_id x : inS 64 x = true -> i64 x = x.
Proof. apply signed_mod. lia. Qed.
Lemma i32_id x : inS 32 x = true -> i32 x = x.
Proof. apply signed_mod. lia. Qed.

Lemma len_nonneg {A} (l : list A) : 0 <= len l.
Proof. unfold len. lia. Qed.

Lemma len_app {A} (l k : list A) : len (l ++ k) = len l + len k.
Proof. unfold len. rewrite length_app. lia. Qed.

Lemma len_cons {A} (x : A) l : len (x :: l) = 1 + len l.
Proof. unfold len. simpl. lia. Qed.

Lemma len_nil {A} : len (@nil A) = 0.
Proof. reflexivity. Qed.

(** ** Little- and big-endian integers ([encoding/binary]) *)

Fixpoint le_bytes (n : nat) (v : Z) : bytes :=
  match n with
  | O => []
  | S n => v mod 256 :: le_bytes n (v / 256)
  end.

Fixpoint le_value (b : bytes) : Z :=
  match b with
  | [] => 0
  | x :: b => x + 256 * le_value b
  end.

Definition be_bytes (n : nat) (v : Z) : bytes := rev (le_bytes n v).
Definition be_value (b : bytes) : Z := le_value (rev b).

Definition is_byte (x : Z) : bool := inU 8 x.
Definition bytes_ok (b : bytes) : bool := forallb is_byte b.

Lemma length_le_bytes n v : length (le_bytes n v) = n.
Proof. revert v; induction n; simpl; auto. Qed.

Lemma pow256 n : 256 ^ Z.of_nat n = 2 ^ (8 * Z.of_nat n).
Proof. rewrite Z.pow_mul_r by lia. reflexivity. Qed.

Lemma le_value_le_bytes n v :
  0 <= v < 2 ^ (8 * Z.of_nat n) -> le_value (le_bytes n v) = v.
Proof.
  rewrite <- pow256. revert v. induction n as [|n IH]; intros v Hv.
  - simpl in *. lia.
  - cbn [le_bytes le_value]. rewrite IH.
    + pose proof (Z.div_mod v 256). lia.
    + rewrite Nat2Z.inj_succ, Z.pow_succ_r in Hv by lia.
      split; [apply Z.div_pos; lia | apply Z.div_lt_upper_bound; lia].
Qed.

(** Bytes above the width are dropped. *)
Lemma le_value_mod n v : le_value (le_bytes n v) = v mod 2 ^ (8 * Z.of_nat n).
Proof.
  rewrite <- pow256. revert v. induction n as [|n IH]; intros v; [by rewrite Z.mod_1_r|].
  cbn [le_bytes le_value]. rewrite IH, Nat2Z.inj_succ, Z.pow_succ_r by lia.
  rewrite Z.rem_mul_r by lia. done.
Qed.

Lemma bytes_ok_Forall b : bytes_ok b = true <-> Forall (fun x => 0 <= x < 256) b.
Proof.
  unfold bytes_ok. induction b as [|x b IH]; simpl.
  - split; auto.
  - rewrite andb_true_iff, IH, List.Forall_cons_iff. unfold is_byte. rewrite inU_spec. tauto.
Qed.

Lemma le_value_bound b :
  bytes_ok b = true -> 0 <= le_value b < 2 ^ (8 * len b).
Proof.
  rewrite bytes_ok_Forall. unfold len. rewrite <- pow256.
  induction 1 as [|x b Hx Hb IH]; [simpl; lia|].
  cbn [le_value length]. rewrite Nat2Z.inj_succ, Z.pow_succ_r by lia. lia.
Qed.

Lemma le_bytes_le_value b :
  bytes_ok b = true -> le_bytes (length b) (le_value b) = b.
Proof.
  rewrite bytes_ok_Forall. induction 1 as [|x b Hx Hb IH]; [done|].
  cbn [le_value length le_bytes].
  replace ((x + 256 * le_value b) mod 256) with x.
  2: { rewrite (Z.mul_comm 256), Z.mod_add, Z.mod_small by lia. done. }
  replace ((x + 256 * le_value b) / 256) with (le_value b).
  2: { rewrite (Z.mul_comm 256), Z.div_add, Z.div_small by lia. lia. }
  by rewrite IH.
Qed.

Lemma le_bytes_ok n v : bytes_ok (le_bytes n v) = true.
Proof.
  revert v; induction n as [|n IH]; intros v; simpl; [done|].
  apply andb_true_iff. split; [|apply IH].
  apply inU_spec. apply Z.mod_pos_bound. lia.
Qed.

Lemma bytes_ok_app a b : bytes_ok (a ++ b) = bytes_ok a && bytes_ok b.
Proof. apply forallb_app. Qed.

Lemma le_value_app a b : le_value (a ++ b) = le_value a + 2 ^ (8 * len a) * le_value b.
Proof.
  unfold len. rewrite <- pow256. induction a as [|x a IH]; [simpl; lia|].
  cbn [app le_value length]. rewrite IH, Nat2Z.inj_succ, Z.pow_succ_r by lia. lia.
Qed.

Lemma le_bytes_app n m v :
  le_bytes (n + m) v = le_bytes n v ++ le_bytes m (v / 2 ^ (8 * Z.of_nat n)).
Proof.
  rewrite <- pow256. revert v. induction n as [|n IH]; intros v.
  - simpl. by rewrite Z.div_1_r.
  - cbn [Nat.add le_bytes app]. rewrite IH, Nat2Z.inj_succ, Z.pow_succ_r by lia.
    rewrite Z.div_div by lia. done.
Qed.

Lemma le_bytes_0 n : le_bytes n 0 = repeat 0 n.
Proof. induction n; cbn [le_bytes repeat]; [done|]. rewrite Z.mod_0_l, Z.div_0_l by lia. by rewrite IHn. Qed.

Lemma be_value_be_bytes n v :
  0 <= v < 2 ^ (8 * Z.of_nat n) -> be_value (be_bytes n v) = v.
Proof. intros H. unfold be_value, be_bytes. rewrite rev_involutive. by apply le_value_le_bytes. Qed.

Lemma bytes_ok_rev b : bytes_ok (rev b) = bytes_ok b.
Proof. induction b; simpl; [done|]. rewrite bytes_ok_app. simpl. rewrite IHb, andb_true_r. apply andb_comm. Qed.

Lemma be_bytes_be_value b :
  bytes_ok b = true -> be_bytes (length b) (be_value b) = b.
Proof.
  intros H. unfold be_value, be_bytes. rewrite <- (length_rev b).
  rewrite le_bytes_le_value by by rewrite bytes_ok_rev. apply rev_involutive.
Qed.

(** ** Bits *)

Lemma land_ones_mod x n : 0 <= n -> Z.land x (2 ^ n - 1) = x mod 2 ^ n.
Proof.
  intros. rewrite <- Z.land_ones by lia. f_equal.
  rewrite Z.ones_equiv. lia.
Qed.

(** An [or] of values with disjoint bits is their sum. *)
Lemma lor_add_disjoint x r n :
  0 <= n -> 0 <= r < 2 ^ n -> Z.lor (x * 2 ^ n) r = x * 2 ^ n + r.
Proof.
  intros Hn Hr. rewrite <- (Z.add_lor_land (x * 2 ^ n) r).
  enough (Z.land (x * 2 ^ n) r = 0) by lia.
  rewrite <- Z.shiftl_mul_pow2 by lia. apply Z.bits_inj'. intros i Hi.
  rewrite Z.land_spec, Z.bits_0. destruct (Z.lt_ge_cases i n).
  - by rewrite Z.shiftl_spec_low by lia.
  - replace r with (r mod 2 ^ n) by (apply Z.mod_small; lia).
    rewrite Z.mod_pow2_bits_high by lia. apply andb_false_r.
Qed.

(** ** Lists *)

(** The first [n] elements and the rest, or [None] when fewer remain. *)
Definition split_at {A} (n : nat) (l : list A) : option (list A * list A) :=
  if (n <=? length l)%nat then Some (take n l, drop n l) else None.

Lemma split_at_app {A} (a b : list A) n :
  n = length a -> split_at n (a ++ b) = Some (a, b).
Proof.
  intros ->. unfold split_at. rewrite length_app.
  destruct (Nat.leb_spec (length a) (length a + length b)); [|lia].
  by rewrite take_app_length, drop_app_length.
Qed.

Lemma split_at_Some {A} n (l a b : list A) :
  split_at n l = Some (a, b) -> l = a ++ b /\ length a = n.
Proof.
  unfold split_at. destruct (Nat.leb_spec n (length l)); [|discriminate].
  intros [= <- <-]. rewrite take_drop, length_take. split; [done|lia].
Qed.

Lemma forallb_impl {A} (f g : A -> bool) l :
  (forall x, f x = true -> g x = true) -> forallb f l = true -> forallb g l = true.
Proof.
  intros H. induction l; simpl; [done|]. rewrite !andb_true_iff. intuition.
Qed.

Lemma forallb_Forall {A} (f : A -> bool) l :
  forallb f l = true <-> Forall (fun x => f x = true) l.
Proof.
  induction l; simpl; [split; auto|]. rewrite andb_true_iff, List.Forall_cons_iff, IHl. tauto.
Qed.

(** ** Automation *)

Create HintDb hx.
#[export] Hint Resolve len_nonneg le_bytes_ok : hx.
Create Rewrite HintDb hxlen.
#[export] Hint Rewrite @len_app @len_cons @len_nil : hxlen.

(** Split a boolean conjunction in the hypotheses into its parts. *)
Ltac bsplit :=
  repeat match goal with
  | H : (_ && _)%bool = true |- _ => apply andb_prop in H; destruct H
  end.

(** Prove a boolean conjunction from its parts in the hypotheses. *)
Ltac bjoin := repeat first [assumption | apply andb_true_intro; split].

(** Turn boolean tests in hypotheses into the facts they decide. *)
Ltac bprop :=
  bsplit;
  repeat match goal with
  | H : (_ =? _)%Z = true |- _ => apply Z.eqb_eq in H
  | H : (_ <=? _)%Z = true |- _ => apply Z.leb_le in H
  | H : (_ <? _)%Z = true |- _ => apply Z.ltb_lt in H
  | H : (_ =? _)%Z = false |- _ => apply Z.eqb_neq in H
  | H : (_ <=? _)%Z = false |- _ => apply Z.leb_gt in H
  | H : (_ <? _)%Z = false |- _ => apply Z.ltb_ge in H
  | H : inU _ _ = true |- _ => apply inU_spec in H
  | H : inS _ _ = true |- _ => apply inS_spec in H
  | H : negb _ = true |- _ => apply negb_true_iff in H
  end.

(** Prove a boolean conjunction of tests by arithmetic. *)
Ltac bsolve :=
  bprop;
  repeat match goal with |- (_ && _)%bool = true => apply andb_true_intro; split end;
  try assumption;
  match goal with
  | |- (_ =? _)%Z = true => apply Z.eqb_eq; lia
  | |- (_ <=? _)%Z = true => apply Z.leb_le; lia
  | |- (_ <? _)%Z = true => apply Z.ltb_lt; lia
  | |- (_ =? _)%Z = false => apply Z.eqb_neq; lia
  | |- (_ <=? _)%Z = false => apply Z.leb_gt; lia
  | |- (_ <? _)%Z = false => apply Z.ltb_ge; lia
  | |- _ => idtac
  end.
