(* ===== verification/Utf.v ===== *)
(** * Strings: the UTF-8 and UTF-16 conversions the codecs call

    A Go string is a byte list.  This file models what the sources use of the
    language and of [unicode/utf16]: the conversion [[]rune(s)], its inverse
    [string(runes)], [utf16.Encode] and [utf16.Decode], with Go's replacement
    of ill-formed input by U+FFFD. *)

From stdpp Require Import base list numbers.
From Stdlib Require Import ZArith Lia.
From S2P Require Import Prelude.
Open Scope Z_scope.

Definition runeError : Z := 0xFFFD.

(** A Unicode scalar value: a code point that is not a surrogate. *)
Definition is_scalar (r : Z) : bool :=
  ((0 <=? r) && (r <? 0xD800)) || ((0xE000 <=? r) && (r <=? 0x10FFFF)).

Definition in_range (lo hi x : Z) : bool := (lo <=? x) && (x <=? hi).

(** The range Go accepts for the second byte after a given leading byte. *)
Definition second_lo (b0 : Z) : Z :=
  if b0 =? 0xE0 then 0xA0 else if b0 =? 0xF0 then 0x90 else 0x80.
Definition second_hi (b0 : Z) : Z :=
  if b0 =? 0xED then 0x9F else if b0 =? 0xF4 then 0x8F else 0xBF.

(** [utf8.DecodeRune]: the first rune of a non-empty string and the bytes after it. *)
Definition decode_rune (b0 : Z) (tl : bytes) : Z * bytes :=
  if b0 <? 0x80 then (b0, tl)
  else if in_range 0xC2 0xDF b0 then
    match tl with
    | b1 :: t =>
        if in_range 0x80 0xBF b1
        then ((b0 - 0xC0) * 64 + (b1 - 0x80), t) else (runeError, tl)
    | _ => (runeError, tl)
    end
  else if in_range 0xE0 0xEF b0 then
    match tl with
    | b1 :: b2 :: t =>
        if in_range (second_lo b0) (second_hi b0) b1 && in_range 0x80 0xBF b2
        then ((b0 - 0xE0) * 4096 + (b1 - 0x80) * 64 + (b2 - 0x80), t) else (runeError, tl)
    | _ => (runeError, tl)
    end
  else if in_range 0xF0 0xF4 b0 then
    match tl with
    | b1 :: b2 :: b3 :: t =>
        if in_range (second_lo b0) (second_hi b0) b1 && in_range 0x80 0xBF b2
           && in_range 0x80 0xBF b3
        then ((b0 - 0xF0) * 262144 + (b1 - 0x80) * 4096 + (b2 - 0x80) * 64 + (b3 - 0x80), t)
        else (runeError, tl)
    | _ => (runeError, tl)
    end
  else (runeError, tl).

(** [[]rune(s)]; every step consumes at least one byte, so [length s] is enough fuel. *)
Fixpoint runes_fuel (fuel : nat) (s : bytes) : list Z :=
  match fuel, s with
  | S fuel, b0 :: tl => let '(r, t) := decode_rune b0 tl in r :: runes_fuel fuel t
  | _, _ => []
  end.
Definition runes (s : bytes) : list Z := runes_fuel (length s) s.

(** [utf8.AppendRune]; a rune that is not a scalar value is written as U+FFFD. *)
Definition encode_rune (r0 : Z) : bytes :=
  let r := if is_scalar r0 then r0 else runeError in
  if r <? 0x80 then [r]
  else if r <? 0x800 then [0xC0 + r / 64; 0x80 + r mod 64]
  else if r <? 0x10000 then [0xE0 + r / 4096; 0x80 + r / 64 mod 64; 0x80 + r mod 64]
  else [0xF0 + r / 262144; 0x80 + r / 4096 mod 64; 0x80 + r / 64 mod 64; 0x80 + r mod 64].

(** [string(rs)] *)
Definition string_of_runes (rs : list Z) : bytes := concat (map encode_rune rs).

(** [utf16.Encode] *)
Definition utf16_units (r : Z) : list Z :=
  if (0 <=? r) && (r <? 0xD800) || (0xE000 <=? r) && (r <? 0x10000) then [r]
  else if (0x10000 <=? r) && (r <=? 0x10FFFF)
       then [0xD800 + (r - 0x10000) / 1024; 0xDC00 + (r - 0x10000) mod 1024]
       else [runeError].
Definition utf16_Encode (rs : list Z) : list Z := concat (map utf16_units rs).

(** [utf16.Decode] *)
Fixpoint utf16_Decode (us : list Z) : list Z :=
  match us with
  | [] => []
  | u :: tl =>
      if (u <? 0xD800) || (0xE000 <=? u) then u :: utf16_Decode tl
      else match tl with
           | v :: tl' =>
               if (u <? 0xDC00) && (0xDC00 <=? v) && (v <? 0xE000)
               then (u - 0xD800) * 1024 + (v - 0xDC00) + 0x10000 :: utf16_Decode tl'
               else runeError :: utf16_Decode tl
           | [] => [runeError]
           end
  end.

(** A well-formed UTF-8 string is one the rune conversion reproduces. *)
Definition valid_utf8 (s : bytes) : bool :=
  bool_decide (string_of_runes (runes s) = s).

Definition no_nul (s : bytes) : bool := forallb (fun x => negb (x =? 0)) s.

(** ** Lemmas *)

Ltac range_facts :=
  unfold in_range, second_lo, second_hi in *; bprop;
  repeat match goal with
  | H : context [if ?c =? ?d then _ else _] |- _ => destruct (Z.eqb_spec c d)
  end.

Lemma is_scalar_intro r :
  0 <= r < 0xD800 \/ 0xE000 <= r <= 0x10FFFF -> is_scalar r = true.
Proof.
  intros H. unfold is_scalar. apply orb_true_iff.
  rewrite !andb_true_iff, !Z.leb_le, Z.ltb_lt. lia.
Qed.

(** What one decoding step yields: the rune is a scalar value, it is NUL only for
    the byte 0, and the rest is a suffix. *)
Lemma decode_rune_spec b0 tl r t :
  0 <= b0 -> decode_rune b0 tl = (r, t) ->
  is_scalar r = true /\ (r = 0 -> b0 = 0) /\ exists p, tl = p ++ t.
Proof.
  intros H0. unfold decode_rune.
  assert (Hbad : (runeError, tl) = (r, t) ->
    is_scalar r = true /\ (r = 0 -> b0 = 0) /\ exists p, tl = p ++ t).
  { intros [= <- <-]. split; [done|]. split; [discriminate|]. by exists []. }
  destruct (Z.ltb_spec b0 0x80).
  { intros [= <- <-]. split; [apply is_scalar_intro; lia|]. split; [lia|]. by exists []. }
  destruct (in_range 0xC2 0xDF b0) eqn:E2.
  { destruct tl as [|b1 tl]; [auto|]. destruct (in_range 0x80 0xBF b1) eqn:F1; [|auto].
    intros [= <- <-]. range_facts.
    split; [apply is_scalar_intro; lia|]. split; [lia|]. by exists [b1]. }
  destruct (in_range 0xE0 0xEF b0) eqn:E3.
  { destruct tl as [|b1 [|b2 tl]]; auto. destruct (_ && _) eqn:F1; [|auto].
    intros [= <- <-]. range_facts;
      (split; [apply is_scalar_intro; lia|]; split; [lia|]; by exists [b1; b2]). }
  destruct (in_range 0xF0 0xF4 b0) eqn:E4; [|auto].
  destruct tl as [|b1 [|b2 [|b3 tl]]]; auto. destruct (_ && _) eqn:F1; [|auto].
  intros [= <- <-]. range_facts;
    (split; [apply is_scalar_intro; lia|]; split; [lia|]; by exists [b1; b2; b3]).
Qed.

Lemma runes_fuel_Forall (P : Z -> Prop) (ok : Z -> Prop) fuel s :
  (forall b0 tl r t, ok b0 -> decode_rune b0 tl = (r, t) -> P r /\ exists p, tl = p ++ t) ->
  Forall ok s -> Forall P (runes_fuel fuel s).
Proof.
  intros Hstep. revert s. induction fuel as [|fuel IH]; intros s Hs; [constructor|].
  destruct s as [|b0 tl]; simpl; [constructor|].
  apply List.Forall_cons_iff in Hs as [Hb Htl].
  destruct (decode_rune b0 tl) as [r t] eqn:E.
  destruct (Hstep _ _ _ _ Hb E) as [Hr [p ->]].
  constructor; [done|]. apply IH. apply Forall_app in Htl. tauto.
Qed.

Lemma runes_scalar s :
  bytes_ok s = true -> Forall (fun r => is_scalar r = true) (runes s).
Proof.
  rewrite bytes_ok_Forall. apply runes_fuel_Forall. intros b0 tl r t H E.
  apply decode_rune_spec in E; [|lia]. tauto.
Qed.

Lemma runes_no_nul s :
  bytes_ok s = true -> no_nul s = true -> Forall (fun r => r <> 0) (runes s).
Proof.
  rewrite bytes_ok_Forall. unfold no_nul. rewrite forallb_Forall. intros H1 H2.
  apply (runes_fuel_Forall _ (fun b => 0 <= b < 256 /\ b <> 0)).
  - intros b0 tl r t [Hb Hn] E. apply decode_rune_spec in E; [|lia]. intuition.
  - rewrite Forall_forall in *. intros x Hx. specialize (H1 x Hx). specialize (H2 x Hx).
    simpl in H2. bprop. lia.
Qed.

(** [utf16.Decode] inverts [utf16.Encode] on scalar values. *)
Lemma utf16_Decode_Encode rs :
  Forall (fun r => is_scalar r = true) rs -> utf16_Decode (utf16_Encode rs) = rs.
Proof.
  induction 1 as [|r rs Hr _ IH]; [done|].
  unfold utf16_Encode in *. cbn [map concat]. unfold utf16_units at 1.
  unfold is_scalar in Hr. apply orb_true_iff in Hr. rewrite !andb_true_iff in Hr.
  rewrite !Z.leb_le, Z.ltb_lt in Hr.
  destruct (_ || _) eqn:E.
  - cbn [app utf16_Decode]. rewrite IH.
    apply orb_true_iff in E. rewrite !andb_true_iff, !Z.leb_le, !Z.ltb_lt in E.
    destruct (_ || _) eqn:E2; [done|].
    apply orb_false_iff in E2. rewrite Z.ltb_ge, Z.leb_gt in E2. lia.
  - apply orb_false_iff in E. rewrite !andb_false_iff, !Z.leb_gt, !Z.ltb_ge in E.
    assert (Hr' : 0x10000 <= r <= 0x10FFFF) by lia.
    rewrite (proj2 (andb_true_iff _ _)) by (rewrite !Z.leb_le; lia).
    cbn [app utf16_Decode]. rewrite IH.
    pose proof (Z.div_mod (r - 0x10000) 1024 ltac:(lia)).
    pose proof (Z.mod_pos_bound (r - 0x10000) 1024 ltac:(lia)).
    assert (0 <= (r - 0x10000) / 1024 < 1024) by lia.
    set (q := (r - 0x10000) / 1024) in *. set (m := (r - 0x10000) mod 1024) in *.
    rewrite (proj2 (orb_false_iff _ _)) by (rewrite Z.ltb_ge, Z.leb_gt; lia).
    rewrite (proj2 (andb_true_iff (_ && _) _))
      by (rewrite andb_true_iff, !Z.ltb_lt, Z.leb_le; lia).
    f_equal. lia.
Qed.

(** The encoder's units are 16-bit and NUL-free when the runes are. *)
Lemma utf16_Encode_units rs :
  Forall (fun r => is_scalar r = true /\ r <> 0) rs ->
  Forall (fun u => 0 < u < 65536) (utf16_Encode rs).
Proof.
  induction 1 as [|r rs [Hr Hn] _ IH]; [constructor|].
  unfold utf16_Encode in *. cbn [map concat]. apply Forall_app. split; [|done].
  unfold utf16_units at 1. unfold is_scalar in Hr. apply orb_true_iff in Hr.
  rewrite !andb_true_iff, !Z.leb_le, Z.ltb_lt in Hr.
  destruct (_ || _) eqn:E.
  { apply orb_true_iff in E. rewrite !andb_true_iff, !Z.leb_le, !Z.ltb_lt in E.
    repeat apply List.Forall_cons; try apply List.Forall_nil; lia. }
  clear E. destruct (_ && _) eqn:E2; [|repeat apply List.Forall_cons; try apply List.Forall_nil; unfold runeError; lia].
  bprop. pose proof (Z.mod_pos_bound (r - 0x10000) 1024 ltac:(lia)).
  pose proof (Z.div_mod (r - 0x10000) 1024 ltac:(lia)).
  assert (0 <= (r - 0x10000) / 1024 < 1024) by lia.
  repeat apply List.Forall_cons; try apply List.Forall_nil; lia.
Qed.

(** The round trip a [PtUnicode] value takes through UTF-16. *)
Lemma utf16_round_trip s :
  bytes_ok s = true -> valid_utf8 s = true ->
  string_of_runes (utf16_Decode (utf16_Encode (runes s))) = s.
Proof.
  intros Hb Hv. rewrite utf16_Decode_Encode by by apply runes_scalar.
  by apply bool_decide_eq_true in Hv.
Qed.
