(* ===== verification/Mapi.v ===== *)
(** * The MAPI property model ([internal/mapi])

    The data every other component carries: GUIDs and entry ids, property tags
    and types, the tagged property values with their dynamically typed payload,
    search restrictions, rule actions, folder rights and NT times.  A Go struct
    is a [Record]; the payload that Go keeps in an [any] is the inductive type
    [any], with one constructor per Go type the sources store there. *)

From stdpp Require Import base list numbers.
From Stdlib Require Import ZArith Lia.
From S2P Require Import Prelude.
Open Scope Z_scope.

(** ** GUIDs, flat uids, global counters and entry ids *)

Record GUID := mkGUID { Data1 : Z; Data2 : Z; Data3 : Z; Data4 : bytes }.

#[export] Instance GUID_eq_dec : EqDecision GUID.
Proof. solve_decision. Defined.

Definition guid_ok (g : GUID) : bool :=
  inU 32 (Data1 g) && inU 16 (Data2 g) && inU 16 (Data3 g)
  && (len (Data4 g) =? 8) && bytes_ok (Data4 g).

(** [GUID.Flat] and [FlatUID.GUID]: a [[16]byte] is a byte list of length 16. *)
Definition GUID_Flat (g : GUID) : bytes :=
  le_bytes 4 (Data1 g) ++ le_bytes 2 (Data2 g) ++ le_bytes 2 (Data3 g) ++ Data4 g.

Definition FlatUID_GUID (f : bytes) : GUID :=
  mkGUID (le_value (take 4 f)) (le_value (take 2 (drop 4 f)))
         (le_value (take 2 (drop 6 f))) (take 8 (drop 8 f)).

Definition hex_digit (n : Z) : Z := if n <? 10 then 48 + n else 55 + n.

(** [%0kX]: at least [k] upper-case hex digits; the fields never need more. *)
Fixpoint hexN (k : nat) (n : Z) : bytes :=
  match k with
  | O => []
  | S k => hexN k (n / 16) ++ [hex_digit (n mod 16)]
  end.

Definition dash : bytes := [45].

Definition GUID_String (g : GUID) : bytes :=
  hexN 8 (Data1 g) ++ dash ++ hexN 4 (Data2 g) ++ dash ++ hexN 4 (Data3 g) ++ dash
  ++ concat (map (hexN 2) (take 2 (Data4 g))) ++ dash
  ++ concat (map (hexN 2) (drop 2 (Data4 g))).

Definition unhex (c : Z) : option Z :=
  if (48 <=? c) && (c <=? 57) then Some (c - 48)
  else if (65 <=? c) && (c <=? 70) then Some (c - 55)
  else if (97 <=? c) && (c <=? 102) then Some (c - 87)
  else None.

(** [hex.DecodeString] *)
Fixpoint hex_decode (s : bytes) : option bytes :=
  match s with
  | [] => Some []
  | a :: b :: tl =>
      match unhex a, unhex b, hex_decode tl with
      | Some x, Some y, Some r => Some (16 * x + y :: r)
      | _, _, _ => None
      end
  | [_] => None
  end.

Definition ParseGUID (s : bytes) : option GUID :=
  let clean := List.filter (fun c => negb (c =? 45)) s in
  if negb (len clean =? 32) then None
  else match hex_decode clean with
       | None => None
       | Some b =>
           Some (mkGUID (be_value (take 4 b)) (be_value (take 2 (drop 4 b)))
                        (be_value (take 2 (drop 6 b))) (take 8 (drop 8 b)))
       end.

Definition gcvMask : Z := 0x0000FFFFFFFFFFFF.

Definition ValueToGC (value : Z) : bytes := take 6 (drop 2 (be_bytes 8 value)).
Definition GCToValue (gc : bytes) : Z := be_value ([0; 0] ++ gc).

(** [bits.ReverseBytes64] *)
Definition ReverseBytes64 (v : Z) : Z := be_value (le_bytes 8 v).

Definition MakeEIDEx (replid value : Z) : Z := Z.lor (ReverseBytes64 value) replid.
Definition MakeEID (replid : Z) (gc : bytes) : Z := MakeEIDEx replid (GCToValue gc).
Definition EID_ReplID (e : Z) : Z := Z.land e 0xFFFF.
Definition EID_GCValue (e : Z) : Z := Z.land (ReverseBytes64 e) gcvMask.
Definition EID_GCArray (e : Z) : bytes := take 6 (drop 2 (le_bytes 8 e)).

Record XID := mkXID { xGUID : GUID; xLocalID : bytes }.

Record LongTermID := mkLongTermID { ltGUID : GUID; ltGC : bytes; ltPadding : Z }.

Record FolderEntryID := mkFolderEntryID {
  feFlags : Z; feProviderUID : bytes; feEIDType : Z;
  feFolderDBGUID : GUID; feFolderGC : bytes; fePad1 : bytes }.

Record StoreEntryID := mkStoreEntryID {
  seFlags : Z; seVersion : Z; seIVFlag : Z; seWrappedFlags : Z;
  seWrappedProviderUID : bytes; seWrappedType : Z;
  seServerName : bytes; seMailboxDN : bytes }.

Record MessageEntryID := mkMessageEntryID {
  meFlags : Z; meProviderUID : bytes; meEIDType : Z;
  meFolderDBGUID : GUID; meFolderGC : bytes; mePad1 : bytes;
  meMessageDBGUID : GUID; meMessageGC : bytes; mePad2 : bytes }.

(** [Bin] distinguishes nil ([None], the long-term form) from a present slice. *)
Record SVREID := mkSVREID {
  svBin : option bytes; svFolderID : Z; svMessageID : Z; svInstance : Z }.

Record SystemTime := mkSystemTime {
  stYear : Z; stMonth : Z; stDayOfWeek : Z; stDay : Z;
  stHour : Z; stMinute : Z; stSecond : Z; stMilliseconds : Z }.

Record RPCHeaderExt := mkRPCHeaderExt {
  rhVersion : Z; rhFlags : Z; rhSize : Z; rhSizeActual : Z }.

Record PropertyProblem := mkProblem { ppIndex : Z; ppPropTag : Z; ppErr : Z }.

(** ** Property types and tags *)

Definition PtUnspecified : Z := 0x0000.
Definition PtNull : Z := 0x0001.
Definition PtShort : Z := 0x0002.
Definition PtLong : Z := 0x0003.
Definition PtFloat : Z := 0x0004.
Definition PtDouble : Z := 0x0005.
Definition PtCurrency : Z := 0x0006.
Definition PtAppTime : Z := 0x0007.
Definition PtError : Z := 0x000A.
Definition PtBoolean : Z := 0x000B.
Definition PtObject : Z := 0x000D.
Definition PtI8 : Z := 0x0014.
Definition PtString8 : Z := 0x001E.
Definition PtUnicode : Z := 0x001F.
Definition PtSysTime : Z := 0x0040.
Definition PtCLSID : Z := 0x0048.
Definition PtSvrEID : Z := 0x00FB.
Definition PtRestriction : Z := 0x00FD.
Definition PtActions : Z := 0x00FE.
Definition PtBinary : Z := 0x0102.
Definition PtMvShort : Z := 0x1002.
Definition PtMvLong : Z := 0x1003.
Definition PtMvFloat : Z := 0x1004.
Definition PtMvDouble : Z := 0x1005.
Definition PtMvCurrency : Z := 0x1006.
Definition PtMvAppTime : Z := 0x1007.
Definition PtMvI8 : Z := 0x1014.
Definition PtMvString8 : Z := 0x101E.
Definition PtMvUnicode : Z := 0x101F.
Definition PtMvSysTime : Z := 0x1040.
Definition PtMvCLSID : Z := 0x1048.
Definition PtMvBinary : Z := 0x1102.

Definition MvFlag : Z := 0x1000.
Definition MvInstance : Z := 0x2000.
Definition MviFlag : Z := Z.lor MvFlag MvInstance.

Definition IsMultivalue (t : Z) : bool := negb (Z.land t MvFlag =? 0).
Definition PropType_Base (t : Z) : Z := Z.ldiff t MvFlag.

Definition MakeTag (id t : Z) : Z := Z.lor (Z.shiftl id 16) t.
Definition PropTag_ID (tag : Z) : Z := u16 (Z.shiftr tag 16).
Definition PropTag_Type (tag : Z) : Z := Z.land tag 0xFFFF.
Definition PropTag_WithType (tag t : Z) : Z := Z.lor (Z.ldiff tag 0xFFFF) t.

Definition MnidID : Z := 0.
Definition MnidString : Z := 1.
Definition KindNone : Z := 0xFF.

Record PropertyName := mkPropertyName {
  pnKind : Z; pnGUID : GUID; pnLID : Z; pnName : bytes }.

(** ** Structures that carry a dynamically typed value

    Each is parametric in the type of that value, so that [any] can nest them. *)

Record TaggedPropVal_ (A : Type) := mkTagged { tpTag : Z; tpValue : A }.
Arguments mkTagged {A}. Arguments tpTag {A}. Arguments tpValue {A}.

Record TypedPropVal_ (A : Type) := mkTyped { tyType : Z; tyValue : A }.
Arguments mkTyped {A}. Arguments tyType {A}. Arguments tyValue {A}.

Record FlaggedPropVal_ (A : Type) := mkFlagged { fpFlag : Z; fpType : Z; fpValue : A }.
Arguments mkFlagged {A}. Arguments fpFlag {A}. Arguments fpType {A}. Arguments fpValue {A}.

Record Restriction_ (A : Type) := mkRes { resType : Z; resValue : A }.
Arguments mkRes {A}. Arguments resType {A}. Arguments resValue {A}.

Record ContentRestriction_ (A : Type) := mkContent {
  crFuzzyLevel : Z; crPropTag : Z; crPropVal : TaggedPropVal_ A }.
Arguments mkContent {A}. Arguments crFuzzyLevel {A}. Arguments crPropTag {A}.
Arguments crPropVal {A}.

Record PropertyRestriction_ (A : Type) := mkProperty {
  prRelop : Z; prPropTag : Z; prPropVal : TaggedPropVal_ A }.
Arguments mkProperty {A}. Arguments prRelop {A}. Arguments prPropTag {A}.
Arguments prPropVal {A}.

Record ComparePropsRestriction := mkCompare { pcRelop : Z; pcPropTag1 : Z; pcPropTag2 : Z }.
Record BitmaskRestriction := mkBitmask { bmRelop : Z; bmPropTag : Z; bmMask : Z }.
Record SizeRestriction := mkSize { szRelop : Z; szPropTag : Z; szSize : Z }.
Record ExistRestriction := mkExist { exPropTag : Z }.

Record SubRestriction_ (A : Type) := mkSub { sbSubObject : Z; sbRes : Restriction_ A }.
Arguments mkSub {A}. Arguments sbSubObject {A}. Arguments sbRes {A}.

Record CommentRestriction_ (A : Type) := mkComment {
  cmPropVals : list (TaggedPropVal_ A); cmRes : option (Restriction_ A) }.
Arguments mkComment {A}. Arguments cmPropVals {A}. Arguments cmRes {A}.

Record CountRestriction_ (A : Type) := mkCount { cnCount : Z; cnSubRes : Restriction_ A }.
Arguments mkCount {A}. Arguments cnCount {A}. Arguments cnSubRes {A}.

Record ActionBlock_ (A : Type) := mkAction {
  abType : Z; abFlavor : Z; abFlags : Z; abData : A }.
Arguments mkAction {A}. Arguments abType {A}. Arguments abFlavor {A}.
Arguments abFlags {A}. Arguments abData {A}.

Record RuleActions_ (A : Type) := mkRuleActions { raBlocks : list (ActionBlock_ A) }.
Arguments mkRuleActions {A}. Arguments raBlocks {A}.

(** [FolderEID] is itself an [any]: an [SVREID] or raw bytes. *)
Record MoveCopyAction_ (A : Type) := mkMoveCopy {
  mcSameStore : bool; mcStoreEID : option StoreEntryID; mcFolderEID : A }.
Arguments mkMoveCopy {A}. Arguments mcSameStore {A}. Arguments mcStoreEID {A}.
Arguments mcFolderEID {A}.

Record ReplyAction := mkReply {
  rpTemplateFolderID : Z; rpTemplateMessageID : Z; rpTemplateGUID : GUID }.

Record RecipientBlock_ (A : Type) := mkRecipient { rbPropVals : list (TaggedPropVal_ A) }.
Arguments mkRecipient {A}. Arguments rbPropVals {A}.

Record ForwardDelegateAction_ (A : Type) := mkForward {
  fdRecipients : list (RecipientBlock_ A) }.
Arguments mkForward {A}. Arguments fdRecipients {A}.

(** The Go values an [any] field holds.  Floats are their IEEE-754 bit patterns
    ([math.Float32bits], [math.Float64bits]), the only view the codecs take. *)
#[local] Unset Elimination Schemes.
Inductive any : Type :=
| ANil
| AInt16 (x : Z) | AInt32 (x : Z) | AUint32 (x : Z) | AInt64 (x : Z) | AUint64 (x : Z)
| AFloat32 (bits : Z) | AFloat64 (bits : Z)
| ABool (b : bool) | AString (s : bytes) | AGUID (g : GUID) | ABytes (b : bytes)
| ASVREID (s : SVREID)
| AInt16s (l : list Z) | AInt32s (l : list Z) | AInt64s (l : list Z) | AUint64s (l : list Z)
| AFloat32s (l : list Z) | AFloat64s (l : list Z)
| AStrings (l : list bytes) | AGUIDs (l : list GUID) | ABytess (l : list bytes)
| ATyped (t : TypedPropVal_ any)
| ATagged (t : TaggedPropVal_ any)
| ARes (r : Restriction_ any)
| ARess (l : list (Restriction_ any))
| AContent (c : ContentRestriction_ any)
| AProperty (p : PropertyRestriction_ any)
| ACompare (c : ComparePropsRestriction)
| ABitmask (b : BitmaskRestriction)
| ASize (s : SizeRestriction)
| AExist (e : ExistRestriction)
| ASub (s : SubRestriction_ any)
| AComment (c : CommentRestriction_ any)
| ACount (c : CountRestriction_ any)
| AActions (r : RuleActions_ any)
| AMoveCopy (m : MoveCopyAction_ any)
| AReply (r : ReplyAction)
| AForward (f : ForwardDelegateAction_ any).
#[local] Set Elimination Schemes.

Abbreviation TaggedPropVal := (TaggedPropVal_ any).
Abbreviation TypedPropVal := (TypedPropVal_ any).
Abbreviation FlaggedPropVal := (FlaggedPropVal_ any).
Abbreviation Restriction := (Restriction_ any).
Abbreviation CommentRestriction := (CommentRestriction_ any).
Abbreviation ActionBlock := (ActionBlock_ any).
Abbreviation RuleActions := (RuleActions_ any).
Abbreviation MoveCopyAction := (MoveCopyAction_ any).
Abbreviation RecipientBlock := (RecipientBlock_ any).
Abbreviation ForwardDelegateAction := (ForwardDelegateAction_ any).
Abbreviation PropertyValues := (list (TaggedPropVal_ any)).

(** The values nested directly inside a value, in the order the codec meets them. *)
Definition children (v : any) : list any :=
  match v with
  | ATyped t => [tyValue t]
  | ATagged t => [tpValue t]
  | ARes r => [resValue r]
  | ARess l => map resValue l
  | AContent c => [tpValue (crPropVal c)]
  | AProperty p => [tpValue (prPropVal p)]
  | ASub s => [resValue (sbRes s)]
  | AComment c =>
      map tpValue (cmPropVals c)
      ++ match cmRes c with Some r => [resValue r] | None => [] end
  | ACount c => [resValue (cnSubRes c)]
  | AActions r => map abData (raBlocks r)
  | AMoveCopy m => [mcFolderEID m]
  | AForward f => concat (map (fun rb => map tpValue (rbPropVals rb)) (fdRecipients f))
  | _ => []
  end.

Section any_ind.
Context (P : any -> Prop) (H : forall v, Forall P (children v) -> P v).

(* Transparent: the termination check of [any_ind'] looks through them. *)
Lemma map_Forall {A} (f : A -> any) (IH : forall a, P (f a)) (l : list A) :
  Forall P (map f l).
Proof. induction l; simpl; constructor; auto. Defined.

Lemma concat_Forall {A} (f : A -> list any) (IH : forall a, Forall P (f a)) (l : list A) :
  Forall P (concat (map f l)).
Proof.
  induction l; simpl; [constructor|]. apply List.Forall_app. auto.
Defined.

(** Induction over values: a property holds of a value when it holds of every
    value nested directly inside it. *)
Lemma any_ind' : forall v, P v.
Proof.
  fix IH 1. intros v. apply H. destruct v; simpl; try apply List.Forall_nil.
  - constructor; [|constructor]. destruct t. apply IH.
  - constructor; [|constructor]. destruct t. apply IH.
  - constructor; [|constructor]. destruct r. apply IH.
  - apply map_Forall. intros [t x]. apply IH.
  - constructor; [|constructor]. destruct c as [? ? [? x]]. apply IH.
  - constructor; [|constructor]. destruct p as [? ? [? x]]. apply IH.
  - constructor; [|constructor]. destruct s as [? [? x]]. apply IH.
  - destruct c as [pvs r]. simpl. apply List.Forall_app. split.
    + apply map_Forall. intros [t x]. apply IH.
    + destruct r as [[t x]|]; constructor; [apply IH | constructor].
  - constructor; [|constructor]. destruct c as [? [? x]]. apply IH.
  - destruct r as [bs]. apply map_Forall. intros [? ? ? x]. apply IH.
  - constructor; [|constructor]. destruct m as [? ? x]. apply IH.
  - destruct f as [rs]. apply concat_Forall. intros [pvs].
    apply map_Forall. intros [t x]. apply IH.
Qed.
End any_ind.

(** ** Property sets ([PropertyValues]) *)

Fixpoint pv_Get (pv : PropertyValues) (tag : Z) : option any :=
  match pv with
  | [] => None
  | tp :: pv => if tpTag tp =? tag then Some (tpValue tp) else pv_Get pv tag
  end.

Definition pv_Has (pv : PropertyValues) (tag : Z) : bool :=
  match pv_Get pv tag with Some _ => true | None => false end.

Definition CharsetSiblingTag (tag : Z) : Z * bool :=
  if PropTag_Type tag =? PtUnicode then (PropTag_WithType tag PtString8, true)
  else if PropTag_Type tag =? PtString8 then (PropTag_WithType tag PtUnicode, true)
  else (tag, false).

Definition pv_GetAnyCharset (pv : PropertyValues) (tag : Z) : option any :=
  match pv_Get pv tag with
  | Some v => Some v
  | None =>
      let '(sibling, isString) := CharsetSiblingTag tag in
      if negb isString then None else pv_Get pv sibling
  end.

Fixpoint pv_Set (pv : PropertyValues) (tag : Z) (val : any) : PropertyValues :=
  match pv with
  | [] => [mkTagged tag val]
  | tp :: pv =>
      if tpTag tp =? tag then mkTagged (tpTag tp) val :: pv else tp :: pv_Set pv tag val
  end.

Fixpoint pv_Remove (pv : PropertyValues) (tag : Z) : PropertyValues :=
  match pv with
  | [] => []
  | tp :: pv => if tpTag tp =? tag then pv else tp :: pv_Remove pv tag
  end.

(** ** Folder rights ([MS-OXCPERM]) *)

Definition FrightsReadAny : Z := 0x0001.
Definition FrightsCreate : Z := 0x0002.
Definition FrightsEditOwned : Z := 0x0008.
Definition FrightsDeleteOwned : Z := 0x0010.
Definition FrightsEditAny : Z := 0x0020.
Definition FrightsDeleteAny : Z := 0x0040.
Definition FrightsCreateSubfolder : Z := 0x0080.
Definition FrightsOwner : Z := 0x0100.
Definition FrightsContact : Z := 0x0200.
Definition FrightsVisible : Z := 0x0400.
Definition FrightsFreeBusySimple : Z := 0x0800.
Definition FrightsFreeBusyDetailed : Z := 0x1000.

Definition RightsAll : Z :=
  fold_left Z.lor [FrightsReadAny; FrightsCreate; FrightsEditOwned; FrightsDeleteOwned;
    FrightsEditAny; FrightsDeleteAny; FrightsCreateSubfolder; FrightsOwner; FrightsVisible] 0.
Definition RightsMaxROP : Z :=
  fold_left Z.lor [FrightsContact; FrightsFreeBusySimple; FrightsFreeBusyDetailed] RightsAll.

Definition has_right (rights bit : Z) : bool := negb (Z.land rights bit =? 0).

Definition NormalizeRights (rights : Z) (adjustFreeBusy : bool) : Z :=
  let r := if has_right rights FrightsReadAny then Z.lor rights FrightsVisible else rights in
  let r := if has_right r FrightsEditAny then Z.lor r FrightsEditOwned else r in
  let r := if has_right r FrightsDeleteAny then Z.lor r FrightsDeleteOwned else r in
  let r := if has_right r FrightsOwner
           then Z.lor r (Z.lor FrightsVisible FrightsContact) else r in
  if adjustFreeBusy then
    let r := Z.lor r FrightsFreeBusySimple in
    if has_right r FrightsReadAny then Z.lor r FrightsFreeBusyDetailed else r
  else r.

(** ** Busy status and NT times *)

Definition BusyStatusOccupies (status : Z) : bool :=
  (status =? 1) || (status =? 2) || (status =? 3).

Definition timeFixupSeconds : Z := 11644473600.

(** A Go [time.Time] as its Unix seconds and nanosecond remainder. *)
Record gotime := mkTime { tUnix : Z; tNanosecond : Z }.

Definition UnixToNTTime (t : gotime) : Z :=
  u64 (u64 (u64 (tUnix t + timeFixupSeconds) * 10000000) + tNanosecond t / 100).

Definition NTTimeToUnix (nt : Z) : gotime :=
  mkTime (signed 64 (u64 (nt / 10000000 - timeFixupSeconds))) (nt mod 10000000 * 100).

(** ** Lemmas *)

Lemma guid_ok_length g : guid_ok g = true -> length (GUID_Flat g) = 16%nat.
Proof.
  unfold guid_ok, GUID_Flat. intros. bprop. unfold len in *.
  rewrite !length_app, !length_le_bytes. lia.
Qed.

Lemma GUID_Flat_ok g : guid_ok g = true -> bytes_ok (GUID_Flat g) = true.
Proof.
  unfold guid_ok, GUID_Flat. intros. bsplit.
  rewrite !bytes_ok_app, !le_bytes_ok. done.
Qed.

Lemma FlatUID_GUID_Flat g : guid_ok g = true -> FlatUID_GUID (GUID_Flat g) = g.
Proof.
  destruct g as [d1 d2 d3 d4]. unfold guid_ok, GUID_Flat, FlatUID_GUID.
  cbn [Data1 Data2 Data3 Data4]. intros H. bprop. unfold len in *.
  pose proof (length_le_bytes 4 d1). pose proof (length_le_bytes 2 d2).
  pose proof (length_le_bytes 2 d3).
  set (f := le_bytes 4 d1 ++ _).
  replace (drop 8 f) with (drop 2 (drop 2 (drop 4 f))) by by rewrite !drop_drop.
  replace (drop 6 f) with (drop 2 (drop 4 f)) by by rewrite drop_drop.
  unfold f. rewrite take_app_length', drop_app_length' by lia.
  rewrite take_app_length', drop_app_length' by lia.
  rewrite take_app_length', drop_app_length' by lia.
  rewrite take_ge by lia. by rewrite !le_value_le_bytes by (simpl; lia).
Qed.

Lemma le_bytes_8_48 v : 0 <= v < 2 ^ 48 -> le_bytes 8 v = le_bytes 6 v ++ [0; 0].
Proof.
  intros. change 8%nat with (6 + 2)%nat. rewrite le_bytes_app.
  rewrite Z.div_small by (simpl; lia). done.
Qed.

Lemma EID_value replid v :
  0 <= replid < 2 ^ 16 -> 0 <= v < 2 ^ 48 ->
  MakeEIDEx replid v = le_value (le_bytes 2 replid ++ rev (le_bytes 6 v)).
Proof.
  intros Hr Hv. unfold MakeEIDEx, ReverseBytes64, be_value.
  rewrite le_bytes_8_48, rev_app_distr by done.
  change (rev [0; 0]) with [0; 0]. rewrite !le_value_app.
  rewrite le_value_le_bytes by (simpl; lia).
  unfold len. rewrite length_le_bytes. change (length [0; 0]) with 2%nat.
  change (le_value [0; 0]) with 0. change (8 * Z.of_nat 2) with 16.
  rewrite Z.add_0_l, Z.mul_comm, lor_add_disjoint by lia. lia.
Qed.

Lemma EID_bytes replid v :
  0 <= replid < 2 ^ 16 -> 0 <= v < 2 ^ 48 ->
  le_bytes 8 (MakeEIDEx replid v) = le_bytes 2 replid ++ rev (le_bytes 6 v).
Proof.
  intros. rewrite EID_value by done.
  set (l := le_bytes 2 replid ++ rev (le_bytes 6 v)).
  assert (E : length l = 8%nat)
    by (unfold l; rewrite length_app, length_rev, !length_le_bytes; lia).
  rewrite <- E. apply le_bytes_le_value. unfold l.
  by rewrite bytes_ok_app, bytes_ok_rev, !le_bytes_ok.
Qed.

Lemma GCToValue_ValueToGC v : 0 <= v < 2 ^ 48 -> GCToValue (ValueToGC v) = v.
Proof.
  intros Hv. unfold GCToValue, ValueToGC, be_bytes.
  rewrite le_bytes_8_48, rev_app_distr by done. change (rev [0; 0]) with [0; 0].
  change (drop 2 ([0; 0] ++ rev (le_bytes 6 v))) with (rev (le_bytes 6 v)).
  rewrite take_ge by (rewrite length_rev, length_le_bytes; lia).
  unfold be_value. rewrite rev_app_distr, rev_involutive, le_value_app.
  rewrite le_value_le_bytes by (simpl; lia). change (le_value (rev [0; 0])) with 0. lia.
Qed.

Lemma length_ValueToGC v : length (ValueToGC v) = 6%nat.
Proof. unfold ValueToGC. rewrite length_take, length_drop. unfold be_bytes.
  rewrite length_rev, length_le_bytes. lia. Qed.

Lemma ValueToGC_be v : 0 <= v < 2 ^ 48 -> ValueToGC v = be_bytes 6 v.
Proof.
  intros. unfold ValueToGC, be_bytes. rewrite le_bytes_8_48, rev_app_distr by done.
  change (rev [0; 0]) with [0; 0].
  change (drop 2 ([0; 0] ++ rev (le_bytes 6 v))) with (rev (le_bytes 6 v)).
  apply take_ge. rewrite length_rev, length_le_bytes. lia.
Qed.

Lemma ValueToGC_ok v : bytes_ok (ValueToGC v) = true.
Proof.
  unfold ValueToGC. apply bytes_ok_Forall, Forall_take, Forall_drop, bytes_ok_Forall.
  unfold be_bytes. rewrite bytes_ok_rev. apply le_bytes_ok.
Qed.

Lemma GCToValue_bound gc :
  length gc = 6%nat -> bytes_ok gc = true -> 0 <= GCToValue gc < 2 ^ 48.
Proof.
  intros Hl Hb. unfold GCToValue, be_value. rewrite rev_app_distr, le_value_app.
  pose proof (le_value_bound (rev gc)) as B. rewrite bytes_ok_rev in B. specialize (B Hb).
  unfold len in *. rewrite length_rev, Hl in *. change (le_value (rev [0; 0])) with 0.
  simpl in *. lia.
Qed.

Lemma ValueToGC_GCToValue gc :
  length gc = 6%nat -> bytes_ok gc = true -> ValueToGC (GCToValue gc) = gc.
Proof.
  intros Hl Hb. rewrite ValueToGC_be by by apply GCToValue_bound.
  unfold GCToValue, be_value, be_bytes. rewrite rev_app_distr.
  rewrite le_value_app. change (le_value (rev [0; 0])) with 0.
  rewrite Z.mul_0_r, Z.add_0_r, <- Hl, <- length_rev.
  rewrite le_bytes_le_value by by rewrite bytes_ok_rev. apply rev_involutive.
Qed.

(** *** Hex *)

Lemma unhex_hex_digit n : 0 <= n < 16 -> unhex (hex_digit n) = Some n.
Proof.
  intros. unfold hex_digit, unhex. destruct (Z.ltb_spec n 10).
  - rewrite (proj2 (andb_true_iff _ _)) by (rewrite !Z.leb_le; lia). f_equal. lia.
  - rewrite (proj2 (andb_false_iff _ _)) by (rewrite !Z.leb_gt; lia).
    rewrite (proj2 (andb_true_iff _ _)) by (rewrite !Z.leb_le; lia). f_equal. lia.
Qed.

Lemma length_hexN k n : length (hexN k n) = k.
Proof. revert n; induction k; intros; simpl; [done|]. rewrite length_app, IHk. simpl. lia. Qed.

Lemma hexN_no_dash k n : List.filter (fun c => negb (c =? 45)) (hexN k n) = hexN k n.
Proof.
  revert n; induction k as [|k IH]; intros n; simpl; [done|].
  rewrite List.filter_app, IH. f_equal. simpl. unfold hex_digit.
  pose proof (Z.mod_pos_bound n 16 ltac:(lia)).
  destruct (Z.ltb_spec (n mod 16) 10).
  - destruct (Z.eqb_spec (48 + n mod 16) 45); [lia | done].
  - destruct (Z.eqb_spec (55 + n mod 16) 45); [lia | done].
Qed.

(** Two hex digits are one byte, and an even run of digits is its bytes in order. *)
Lemma hexN_double k n : hexN (2 * k) n = concat (map (hexN 2) (rev (le_bytes k n))).
Proof.
  revert n; induction k as [|k IH]; intros n; [done|].
  replace (2 * S k)%nat with (S (S (2 * k))) by lia.
  cbn [le_bytes rev]. rewrite map_app, concat_app, <- IH. cbn [hexN map concat app].
  rewrite !Z.div_div by lia. rewrite <- app_assoc. cbn [app].
  replace (n mod 256 / 16 mod 16) with (n / 16 mod 16) by (Z.div_mod_to_equations; lia).
  replace (n mod 256 mod 16) with (n mod 16) by (Z.div_mod_to_equations; lia).
  done.
Qed.

Lemma hex_decode_hexN2 b tl :
  0 <= b < 256 -> hex_decode (hexN 2 b ++ tl) = option_map (cons b) (hex_decode tl).
Proof.
  intros. cbn [hexN app hex_decode]. pose proof (Z.mod_pos_bound b 16 ltac:(lia)).
  pose proof (Z.div_mod b 16 ltac:(lia)).
  rewrite (Z.mod_small (b / 16)) by lia. rewrite !unhex_hex_digit by lia.
  destruct (hex_decode tl); simpl; [do 2 f_equal; lia | done].
Qed.

Lemma hex_decode_bytes bs :
  bytes_ok bs = true -> hex_decode (concat (map (hexN 2) bs)) = Some bs.
Proof.
  rewrite bytes_ok_Forall. induction 1 as [|b bs Hb _ IH]; [done|].
  cbn [map concat]. by rewrite hex_decode_hexN2, IH by lia.
Qed.

Lemma filter_concat_hex bs :
  List.filter (fun c => negb (c =? 45)) (concat (map (hexN 2) bs)) = concat (map (hexN 2) bs).
Proof.
  induction bs; [done|]. cbn [map concat]. by rewrite List.filter_app, hexN_no_dash, IHbs.
Qed.

Lemma length_concat_hex bs : length (concat (map (hexN 2) bs)) = (2 * length bs)%nat.
Proof. induction bs; [done|]. cbn [map concat length]. rewrite length_app, length_hexN. lia. Qed.

(** The digits of a GUID string without the dashes are its big-endian bytes. *)
Lemma GUID_String_clean g :
  List.filter (fun c => negb (c =? 45)) (GUID_String g)
  = concat (map (hexN 2)
      (be_bytes 4 (Data1 g) ++ be_bytes 2 (Data2 g) ++ be_bytes 2 (Data3 g) ++ Data4 g)).
Proof.
  unfold GUID_String, be_bytes. rewrite !List.filter_app, !filter_concat_hex, !hexN_no_dash.
  change (List.filter _ dash) with (@nil Z). cbn [app].
  change 8%nat with (2 * 4)%nat. change (hexN 4) with (hexN (2 * 2)).
  rewrite !hexN_double, !map_app, !concat_app. do 3 f_equal.
  rewrite <- concat_app, <- map_app. by rewrite take_drop.
Qed.

(** *** Byte order of global counters *)

(** Byte-by-byte comparison of two counters. *)
Fixpoint gc_lt (a b : bytes) : bool :=
  match a, b with
  | x :: a, y :: b => (x <? y) || ((x =? y) && gc_lt a b)
  | _, _ => false
  end.

Lemma be_value_cons x l : be_value (x :: l) = be_value l + 2 ^ (8 * len l) * x.
Proof.
  unfold be_value. cbn [rev]. rewrite le_value_app. unfold len. rewrite length_rev.
  cbn [le_value]. lia.
Qed.

Lemma be_value_bound b : bytes_ok b = true -> 0 <= be_value b < 2 ^ (8 * len b).
Proof.
  intros. unfold be_value. rewrite <- (bytes_ok_rev b) in *.
  pose proof (le_value_bound (rev b) H). unfold len in *. by rewrite length_rev in *.
Qed.

Lemma gc_lt_spec a b :
  length a = length b -> bytes_ok a = true -> bytes_ok b = true ->
  gc_lt a b = (be_value a <? be_value b).
Proof.
  revert b. induction a as [|x a IH]; intros [|y b] Hl Ha Hb; try discriminate; [done|].
  simpl in Hl, Ha, Hb. bsplit. unfold is_byte in *. cbn [gc_lt].
  rewrite IH by (try lia; done). rewrite !be_value_cons.
  pose proof (be_value_bound a ltac:(done)). pose proof (be_value_bound b ltac:(done)).
  replace (len b) with (len a) in * by (unfold len; lia). bprop.
  destruct (Z.ltb_spec x y), (Z.eqb_spec x y), (Z.ltb_spec (be_value a) (be_value b));
    cbn [orb andb]; symmetry; (apply Z.ltb_lt || apply Z.ltb_ge); nia.
Qed.

(** *** Rights *)

Lemma has_right_testbit r k : 0 <= k -> has_right r (2 ^ k) = Z.testbit r k.
Proof.
  intros Hk. unfold has_right. destruct (Z.testbit r k) eqn:E.
  - apply negb_true_iff, Z.eqb_neq. intros H.
    apply (f_equal (fun z => Z.testbit z k)) in H.
    rewrite Z.land_spec, E, Z.pow2_bits_true, Z.bits_0 in H by lia. done.
  - apply negb_false_iff, Z.eqb_eq. apply Z.bits_inj'. intros i Hi.
    rewrite Z.land_spec, Z.bits_0. destruct (Z.eq_dec i k) as [->|Hne].
    + by rewrite E.
    + rewrite Z.pow2_bits_false by lia. apply andb_false_r.
Qed.

Lemma if_lor (b : bool) r m : (if b then Z.lor r m else r) = Z.lor r (if b then m else 0).
Proof. destruct b; [done|]. by rewrite Z.lor_0_r. Qed.

Lemma has_right_lor r m k :
  0 <= k -> Z.testbit m k = false -> has_right (Z.lor r m) (2 ^ k) = has_right r (2 ^ k).
Proof.
  intros Hk Hm. rewrite !has_right_testbit, Z.lor_spec, Hm by lia. apply orb_false_r.
Qed.

Lemma has_right_lor_mask r (b : bool) m k :
  0 <= k -> Z.testbit m k = false ->
  has_right (Z.lor r (if b then m else 0)) (2 ^ k) = has_right r (2 ^ k).
Proof. intros. apply has_right_lor; [done|]. by destruct b; [|apply Z.bits_0]. Qed.

(** The bits the normalized mask carries, for any input mask. *)
Definition implied_rights (r : Z) (a : bool) : Z :=
  Z.lor (if has_right r FrightsReadAny then FrightsVisible else 0)
  (Z.lor (if has_right r FrightsEditAny then FrightsEditOwned else 0)
  (Z.lor (if has_right r FrightsDeleteAny then FrightsDeleteOwned else 0)
  (Z.lor (if has_right r FrightsOwner then Z.lor FrightsVisible FrightsContact else 0)
  (Z.lor (if a then FrightsFreeBusySimple else 0)
         (if a && has_right r FrightsReadAny then FrightsFreeBusyDetailed else 0))))).

Lemma NormalizeRights_bits r a : NormalizeRights r a = Z.lor r (implied_rights r a).
Proof.
  unfold NormalizeRights, implied_rights. cbv zeta. rewrite !if_lor.
  change FrightsReadAny with (2 ^ 0). change FrightsEditAny with (2 ^ 5).
  change FrightsDeleteAny with (2 ^ 6). change FrightsOwner with (2 ^ 8).
  rewrite !has_right_lor_mask by done.
  rewrite (has_right_lor _ FrightsFreeBusySimple) by done.
  rewrite !has_right_lor_mask by done.
  destruct a; cbn [andb]; rewrite ?Z.lor_0_r, !Z.lor_assoc; done.
Qed.

Lemma implied_rights_closed r a :
  implied_rights (NormalizeRights r a) a = implied_rights r a.
Proof.
  rewrite NormalizeRights_bits. unfold implied_rights at 1 3.
  change FrightsReadAny with (2 ^ 0). change FrightsEditAny with (2 ^ 5).
  change FrightsDeleteAny with (2 ^ 6). change FrightsOwner with (2 ^ 8).
  assert (forall k, In k [0; 5; 6; 8] -> Z.testbit (implied_rights r a) k = false) as B.
  { unfold implied_rights. intros k Hk. simpl in Hk.
    destruct Hk as [<-|[<-|[<-|[<-|[]]]]];
      repeat case_match; rewrite ?Z.lor_spec, ?Z.bits_0; done. }
  rewrite !has_right_lor by (try lia; apply B; simpl; tauto). done.
Qed.

Lemma implied_rights_max r a : Z.land (implied_rights r a) RightsMaxROP = implied_rights r a.
Proof. unfold implied_rights. repeat case_match; reflexivity. Qed.

(** *** Property sets *)

Lemma pv_Get_Set pv tag v t :
  pv_Get (pv_Set pv tag v) t = if t =? tag then Some v else pv_Get pv t.
Proof.
  induction pv as [|[k x] pv IH]; simpl.
  - rewrite (Z.eqb_sym tag t). done.
  - destruct (Z.eqb_spec k tag) as [->|Hk]; simpl.
    + rewrite (Z.eqb_sym tag t). destruct (Z.eqb_spec t tag); done.
    + rewrite IH. destruct (Z.eqb_spec k t), (Z.eqb_spec t tag); try lia; done.
Qed.

Lemma pv_Get_None pv t : pv_Get pv t = None <-> ~ In t (map tpTag pv).
Proof.
  induction pv as [|[k x] pv IH]; simpl; [tauto|].
  destruct (Z.eqb_spec k t); [split; [discriminate|tauto]|]. rewrite IH. tauto.
Qed.

Lemma pv_Set_tags pv tag v :
  map tpTag (pv_Set pv tag v)
  = if pv_Has pv tag then map tpTag pv else map tpTag pv ++ [tag].
Proof.
  unfold pv_Has. induction pv as [|[k x] pv IH]; simpl; [done|].
  destruct (Z.eqb_spec k tag); simpl; [done|]. rewrite IH. by destruct (pv_Get pv tag).
Qed.

Lemma pv_Get_Remove pv tag t :
  List.NoDup (map tpTag pv) ->
  pv_Get (pv_Remove pv tag) t = if t =? tag then None else pv_Get pv t.
Proof.
  induction pv as [|[k x] pv IH]; simpl; intros Hnd.
  - by destruct (t =? tag).
  - apply List.NoDup_cons_iff in Hnd as [Hni Hnd].
    destruct (Z.eqb_spec k tag) as [Hk|Hk]; simpl.
    + destruct (Z.eqb_spec t tag) as [Ht|].
      * apply pv_Get_None. congruence.
      * destruct (Z.eqb_spec k t); [lia|done].
    + rewrite IH by done. destruct (Z.eqb_spec k t), (Z.eqb_spec t tag); try lia; done.
Qed.

Lemma pv_Remove_NoDup pv tag :
  List.NoDup (map tpTag pv) -> List.NoDup (map tpTag (pv_Remove pv tag)).
Proof.
  induction pv as [|[k x] pv IH]; simpl; [done|]. intros Hnd.
  pose proof Hnd as Hnd0. apply List.NoDup_cons_iff in Hnd as [Hni Hnd].
  destruct (k =? tag); [done|]. simpl. apply List.NoDup_cons_iff. split; [|auto].
  intros Hin. apply Hni. clear - Hin.
  induction pv as [|[k' x'] pv IH]; simpl in *; [done|].
  destruct (k' =? tag); simpl in *; tauto.
Qed.

(** ** Theorems *)

(** An EID built from a 16-bit replica id and a 48-bit counter gives both back, and the
    counter bytes embedded in an entry id ([GCArray], read from the little-endian image)
    are the big-endian counter ([ValueToGC]) although they are computed differently. *)
Theorem eid_parts replid value :
  inU 16 replid = true -> inU 48 value = true ->
  EID_ReplID (MakeEIDEx replid value) = replid
  /\ EID_GCValue (MakeEIDEx replid value) = value
  /\ EID_GCArray (MakeEIDEx replid value) = ValueToGC value
  /\ MakeEID replid (ValueToGC value) = MakeEIDEx replid value.
Proof.
  intros Hr Hv. bprop. split; [|split; [|split]].
  - unfold EID_ReplID. rewrite EID_value, le_value_app, le_value_le_bytes by (simpl; lia).
    change 0xFFFF with (2 ^ 16 - 1). rewrite land_ones_mod by lia. unfold len.
    rewrite length_le_bytes. change (8 * Z.of_nat 2) with 16.
    rewrite Z.mul_comm, Z.mod_add, Z.mod_small by lia. done.
  - unfold EID_GCValue, ReverseBytes64, be_value. rewrite EID_bytes by lia.
    rewrite rev_app_distr, rev_involutive, le_value_app, le_value_le_bytes by (simpl; lia).
    change gcvMask with (2 ^ 48 - 1). rewrite land_ones_mod by lia. unfold len.
    rewrite length_le_bytes. change (8 * Z.of_nat 6) with 48.
    rewrite Z.mul_comm, Z.mod_add, Z.mod_small by lia. done.
  - unfold EID_GCArray. rewrite EID_bytes by lia. rewrite ValueToGC_be by lia.
    rewrite drop_app_length' by (rewrite length_le_bytes; lia).
    unfold be_bytes. apply take_ge. rewrite length_rev, length_le_bytes. lia.
  - unfold MakeEID. by rewrite GCToValue_ValueToGC by lia.
Qed.

Lemma eid_parts_witness :
  EID_ReplID (MakeEIDEx 5 0x0102030405) = 5
  /\ EID_GCValue (MakeEIDEx 5 0x0102030405) = 0x0102030405
  /\ EID_GCArray (MakeEIDEx 5 0x0102030405) = ValueToGC 0x0102030405
  /\ MakeEID 5 (ValueToGC 0x0102030405) = MakeEIDEx 5 0x0102030405.
Proof. apply (eid_parts 5 0x0102030405); reflexivity. Defined.

(** Global counters compare byte by byte as the values they encode, so the byte order of
    two GlobCnts is the chronological order, and the 6-byte codec loses nothing on 48 bits. *)
Theorem globcnt_order v w :
  inU 48 v = true -> inU 48 w = true ->
  gc_lt (ValueToGC v) (ValueToGC w) = (v <? w) /\ GCToValue (ValueToGC v) = v.
Proof.
  intros Hv Hw. bprop. rewrite GCToValue_ValueToGC by lia. split; [|done].
  rewrite gc_lt_spec by (rewrite ?length_ValueToGC; auto using ValueToGC_ok).
  rewrite (ValueToGC_be v), (ValueToGC_be w) by lia.
  rewrite (be_value_be_bytes 6 v), (be_value_be_bytes 6 w) by (simpl; lia). done.
Qed.

Lemma globcnt_order_witness :
  gc_lt (ValueToGC 255) (ValueToGC 256) = (255 <? 256) /\ GCToValue (ValueToGC 255) = 255.
Proof. apply (globcnt_order 255 256); reflexivity. Defined.

(** [ParseGUID] reads back what [GUID.String] prints, and the flat 16-byte form converts
    back to the same GUID. *)
Theorem guid_round_trips g :
  guid_ok g = true ->
  ParseGUID (GUID_String g) = Some g /\ FlatUID_GUID (GUID_Flat g) = g.
Proof.
  intros Hg. split; [|by apply FlatUID_GUID_Flat]. pose proof Hg as Hg'.
  unfold guid_ok in Hg'. bprop. unfold len in *.
  unfold ParseGUID. rewrite GUID_String_clean.
  set (b := be_bytes 4 (Data1 g) ++ _).
  assert (L : length b = 16%nat).
  { unfold b, be_bytes. rewrite !length_app, !length_rev, !length_le_bytes. lia. }
  rewrite hex_decode_bytes.
  2: { unfold b, be_bytes. rewrite !bytes_ok_app, !bytes_ok_rev, !le_bytes_ok. done. }
  unfold len. rewrite length_concat_hex, L. cbn [negb Z.eqb Z.of_nat Nat.mul].
  replace (drop 8 b) with (drop 2 (drop 2 (drop 4 b))) by by rewrite !drop_drop.
  replace (drop 6 b) with (drop 2 (drop 4 b)) by by rewrite drop_drop.
  unfold b, be_bytes. change (Z.pos _ =? 32) with true. cbn [negb].
  rewrite take_app_length', drop_app_length' by (rewrite length_rev, length_le_bytes; lia).
  rewrite take_app_length', drop_app_length' by (rewrite length_rev, length_le_bytes; lia).
  rewrite take_app_length', drop_app_length' by (rewrite length_rev, length_le_bytes; lia).
  rewrite take_ge by lia. unfold be_value. rewrite !rev_involutive.
  rewrite !le_value_le_bytes by (simpl; lia). by destruct g.
Qed.

Lemma guid_round_trips_witness :
  let g := mkGUID 0x00062008 0 0xC000 [0xC0; 0; 0; 0; 0; 0; 0; 0x46] in
  ParseGUID (GUID_String g) = Some g /\ FlatUID_GUID (GUID_Flat g) = g.
Proof. apply guid_round_trips. reflexivity. Defined.

(** A property set is keyed by tag: [Set] stores the value under its tag and touches no
    other, keeps the tags distinct, and [Remove] makes exactly that tag absent. *)
Theorem property_set_laws pv tag v t :
  List.NoDup (map tpTag pv) ->
  pv_Get (pv_Set pv tag v) t = (if t =? tag then Some v else pv_Get pv t)
  /\ pv_Get (pv_Remove pv tag) t = (if t =? tag then None else pv_Get pv t)
  /\ List.NoDup (map tpTag (pv_Set pv tag v))
  /\ List.NoDup (map tpTag (pv_Remove pv tag)).
Proof.
  intros Hnd. repeat split.
  - apply pv_Get_Set.
  - by apply pv_Get_Remove.
  - rewrite pv_Set_tags. unfold pv_Has. destruct (pv_Get pv tag) eqn:E; [done|].
    apply pv_Get_None in E. apply List.NoDup_app; [done| |].
    + repeat constructor. tauto.
    + intros a Ha [<-|[]]. done.
  - by apply pv_Remove_NoDup.
Qed.

Lemma property_set_laws_witness :
  let pv := [mkTagged 0x0037001F ANil; mkTagged 0x1000001F ANil] in
  pv_Get (pv_Set pv 0x1000001F (ABool true)) 0x0037001F
    = (if 0x0037001F =? 0x1000001F then Some (ABool true) else pv_Get pv 0x0037001F)
  /\ pv_Get (pv_Remove pv 0x1000001F) 0x0037001F
    = (if 0x0037001F =? 0x1000001F then None else pv_Get pv 0x0037001F)
  /\ List.NoDup (map tpTag (pv_Set pv 0x1000001F (ABool true)))
  /\ List.NoDup (map tpTag (pv_Remove pv 0x1000001F)).
Proof.
  intros pv. apply (property_set_laws pv 0x1000001F (ABool true) 0x0037001F).
  simpl. repeat constructor; simpl; lia.
Defined.

(** Rights normalization only adds bits, adds none outside the set a client may hold, and
    is idempotent, so normalizing a stored mask again changes nothing. *)
Theorem normalize_rights_closure rights adjustFreeBusy :
  let n := NormalizeRights rights adjustFreeBusy in
  Z.land rights n = rights
  /\ Z.ldiff n RightsMaxROP = Z.ldiff rights RightsMaxROP
  /\ NormalizeRights n adjustFreeBusy = n
  /\ (has_right rights FrightsReadAny = true -> has_right n FrightsVisible = true)
  /\ (has_right rights FrightsOwner = true ->
      has_right n FrightsVisible = true /\ has_right n FrightsContact = true).
Proof.
  intros n. unfold n. split; [|split; [|split]].
  - rewrite NormalizeRights_bits. apply Z.bits_inj'. intros i Hi.
    rewrite Z.land_spec, Z.lor_spec. by destruct (Z.testbit rights i).
  - rewrite NormalizeRights_bits, <- (implied_rights_max rights). apply Z.bits_inj'.
    intros i Hi. rewrite !Z.ldiff_spec, Z.lor_spec, Z.land_spec.
    by destruct (Z.testbit rights i), (Z.testbit RightsMaxROP i),
      (Z.testbit (implied_rights rights adjustFreeBusy) i).
  - rewrite (NormalizeRights_bits (NormalizeRights _ _)), implied_rights_closed.
    rewrite NormalizeRights_bits, <- Z.lor_assoc, Z.lor_diag. done.
  - rewrite NormalizeRights_bits. unfold implied_rights.
    change FrightsVisible with (2 ^ 10). change FrightsContact with (2 ^ 9).
    rewrite !has_right_testbit, !Z.lor_spec by lia.
    split; [intros ->|intros ->; split];
      rewrite ?Z.lor_spec; cbn [orb]; rewrite ?orb_true_r; done.
Qed.

(** An NT FILETIME converts back to the Go time it was made from, at the 100 ns the format
    keeps, for every time between 1601 and the end of the 64-bit tick range. *)
Theorem nttime_round_trip t :
  0 <= tUnix t + timeFixupSeconds < 1844674407370 -> 0 <= tNanosecond t < 1000000000 ->
  NTTimeToUnix (UnixToNTTime t) = mkTime (tUnix t) (tNanosecond t / 100 * 100).
Proof.
  destruct t as [s n]. unfold NTTimeToUnix, UnixToNTTime, u64. cbn [tUnix tNanosecond].
  intros Hs Hn. set (x := s + timeFixupSeconds) in *.
  assert (0 <= n / 100 < 10000000) by (Z.div_mod_to_equations; lia).
  rewrite (Z.mod_small x) by lia. rewrite (Z.mod_small (x * 10000000)) by lia.
  rewrite (Z.mod_small (_ + _)) by lia. f_equal.
  - replace ((x * 10000000 + n / 100) / 10000000) with x
      by (rewrite Z.add_comm, Z.div_add, (Z.div_small (n / 100)) by lia; lia).
    replace (x - timeFixupSeconds) with s by (unfold x; lia).
    apply signed_mod; [lia|]. unfold inS, x, timeFixupSeconds in *.
    apply andb_true_iff. rewrite Z.leb_le, Z.ltb_lt. lia.
  - rewrite Z.add_comm, Z.mod_add, Z.mod_small by lia. done.
Qed.

Lemma nttime_round_trip_witness :
  NTTimeToUnix (UnixToNTTime (mkTime 1700000000 123456789))
  = mkTime 1700000000 (123456789 / 100 * 100).
Proof.
  apply (nttime_round_trip (mkTime 1700000000 123456789)); cbn; unfold timeFixupSeconds; lia.
Defined.
