(* ===== verification/Wire.v ===== *)
(** * The wire primitives ([internal/ext]: ext.go, primitives.go, binary.go,
      entryid.go, pcl.go, rpc.go, propname.go and the fixed-element arrays of
      arrays.go and propval.go)

    A [Push] is the buffer it grows: a writer takes the bytes written so far and
    returns them extended, or an error.  A [Pull] is its unread bytes
    ([buf[off:]]): a reader returns the value and what is left.  After an error
    neither object is used again by the sources, so an error carries no state.
    The encoding flags are an explicit argument. *)

From stdpp Require Import base list numbers.
From Stdlib Require Import ZArith Lia.
From S2P Require Import Prelude Utf Mapi.
Open Scope Z_scope.

(** [OutOfFuel] is no error of the sources: it marks a model run that was cut
    short, and the theorems of [ExtValProofs] show that no read ends there. *)
Inductive error :=
| ErrUnderflow | ErrFormat | errTypedValTooDeep | errRestrictionTooDeep | OutOfFuel.

#[export] Instance error_eq_dec : EqDecision error.
Proof. solve_decision. Defined.

Definition push : Type := bytes -> result error bytes.
Definition pull (A : Type) : Type := bytes -> result error (A * bytes).

Definition push_nop : push := fun buf => Ok buf.
Definition push_err (e : error) : push := fun _ => Err e.
Definition push_seq (w1 w2 : push) : push := fun buf => rbind (w1 buf) w2.
Definition pull_ret {A} (x : A) : pull A := fun b => Ok (x, b).
Definition pull_err {A} (e : error) : pull A := fun _ => Err e.
Definition pull_bind {A B} (r : pull A) (k : A -> pull B) : pull B :=
  fun b => match r b with Ok (x, b') => k x b' | Err e => Err e end.

Declare Scope wire_scope.
Delimit Scope wire_scope with wire.
Notation "w1 >> w2" := (push_seq w1 w2) (at level 62, right associativity) : wire_scope.
Notation "x <- r ;; k" := (pull_bind r (fun x => k))
  (at level 63, r at next level, right associativity) : wire_scope.
Open Scope wire_scope.

(** [for _, x := range xs { if err := write(p, x) ... }] *)
Definition push_each {A} (w : A -> push) : list A -> push :=
  fix go xs := match xs with
               | [] => push_nop
               | x :: xs => w x >> go xs
               end.

(** [for i := range out { if out[i], err = read(p) ... }] over [n] elements *)
Fixpoint pull_times {A} (n : nat) (r : pull A) : pull (list A) :=
  match n with
  | O => pull_ret []
  | S n => x <- r ;; xs <- pull_times n r ;; pull_ret (x :: xs)
  end.

(** ** Flags *)

Definition FlagUTF16 : Z := 1.
Definition FlagWCount : Z := 2.
Definition FlagTBLLMT : Z := 4.
Definition FlagABK : Z := 8.
Definition has_flag (fl f : Z) : bool := negb (Z.land fl f =? 0).

(** ** Integers, floats, booleans, raw bytes *)

Definition push_Raw (b : bytes) : push := fun buf => Ok (buf ++ b).
Definition push_Uint8 (v : Z) : push := push_Raw (le_bytes 1 v).
Definition push_Uint16 (v : Z) : push := push_Raw (le_bytes 2 v).
Definition push_Uint32 (v : Z) : push := push_Raw (le_bytes 4 v).
Definition push_Uint64 (v : Z) : push := push_Raw (le_bytes 8 v).
Definition push_Float32 (bits : Z) : push := push_Uint32 bits.
Definition push_Float64 (bits : Z) : push := push_Uint64 bits.
Definition push_Bool (v : bool) : push := push_Uint8 (if v then 1 else 0).

(** [need] and the read it guards *)
Definition pull_Raw (n : Z) : pull bytes := fun b =>
  if (n <? 0) || (len b <? n) then Err ErrUnderflow
  else Ok (take (Z.to_nat n) b, drop (Z.to_nat n) b).

Definition pull_Uint8 : pull Z := b <- pull_Raw 1 ;; pull_ret (le_value b).
Definition pull_Uint16 : pull Z := b <- pull_Raw 2 ;; pull_ret (le_value b).
Definition pull_Uint32 : pull Z := b <- pull_Raw 4 ;; pull_ret (le_value b).
Definition pull_Uint64 : pull Z := b <- pull_Raw 8 ;; pull_ret (le_value b).
Definition pull_Float32 : pull Z := pull_Uint32.
Definition pull_Float64 : pull Z := pull_Uint64.

Definition pull_Bool : pull bool :=
  v <- pull_Uint8 ;; if 1 <? v then pull_err ErrFormat else pull_ret (v =? 1).

(** [checkCount]: a count the remaining bytes cannot satisfy is refused before it
    becomes an allocation length. *)
Definition pull_checkCount (n : Z) : pull unit := fun b =>
  if len b <? n then Err ErrUnderflow else Ok (tt, b).

(** ** GUIDs and blobs *)

Definition push_GUID (g : GUID) : push :=
  push_Uint32 (Data1 g) >> push_Uint16 (Data2 g) >> push_Uint16 (Data3 g) >> push_Raw (Data4 g).

Definition pull_GUID : pull GUID :=
  d1 <- pull_Uint32 ;; d2 <- pull_Uint16 ;; d3 <- pull_Uint16 ;; d4 <- pull_Raw 8 ;;
  pull_ret (mkGUID d1 d2 d3 d4).

Definition push_Bin (fl : Z) (b : bytes) : push :=
  if has_flag fl FlagWCount then push_Uint32 (len b) >> push_Raw b
  else if 0xFFFF <? len b then push_err ErrFormat
  else push_Uint16 (len b) >> push_Raw b.

Definition pull_Bin (fl : Z) : pull bytes :=
  n <- (if has_flag fl FlagWCount then pull_Uint32 else pull_Uint16) ;; pull_Raw n.

Definition push_BinShort (b : bytes) : push :=
  if 0xFFFF <? len b then push_err ErrFormat else push_Uint16 (len b) >> push_Raw b.
Definition pull_BinShort : pull bytes := n <- pull_Uint16 ;; pull_Raw n.
Definition push_BinEx (b : bytes) : push := push_Uint32 (len b) >> push_Raw b.
Definition pull_BinEx : pull bytes := n <- pull_Uint32 ;; pull_Raw n.
Definition push_Blob (b : bytes) : push := push_Raw b.
Definition pull_Blob : pull bytes := fun b => pull_Raw (len b) b.

(** ** Strings *)

Definition push_String8 (fl : Z) (s : bytes) : push :=
  let b := if has_flag fl FlagTBLLMT && (509 <? len s) then take 509 s else s in
  push_Raw b >> push_Uint8 0.

(** The bytes before the first NUL and those after it. *)
Fixpoint scan_nul (b : bytes) : option (bytes * bytes) :=
  match b with
  | [] => None
  | x :: tl =>
      if x =? 0 then Some ([], tl)
      else match scan_nul tl with Some (s, r) => Some (x :: s, r) | None => None end
  end.

Definition pull_String8 : pull bytes := fun b =>
  match scan_nul b with Some (s, r) => Ok (s, r) | None => Err ErrFormat end.

Definition push_Unicode (fl : Z) (s : bytes) : push :=
  if negb (has_flag fl FlagUTF16) then push_String8 fl s
  else
    let units := utf16_Encode (runes s) in
    let units := if has_flag fl FlagTBLLMT && (510 <? (len units + 1) * 2)
                 then take 254 units else units in
    push_each push_Uint16 units >> push_Uint16 0.

(** The code units before the aligned 00 00 terminator and the bytes after it. *)
Fixpoint scan_units (b : bytes) : option (list Z * bytes) :=
  match b with
  | x :: y :: tl =>
      if (x =? 0) && (y =? 0) then Some ([], tl)
      else match scan_units tl with
           | Some (us, r) => Some (le_value [x; y] :: us, r)
           | None => None
           end
  | _ => None
  end.

Definition pull_Unicode (fl : Z) : pull bytes :=
  if negb (has_flag fl FlagUTF16) then pull_String8
  else fun b =>
    match scan_units b with
    | Some (units, r) => Ok (string_of_runes (utf16_Decode units), r)
    | None => Err ErrFormat
    end.

(** ** SYSTEMTIME and the RPC header extension *)

Definition push_SystemTime (t : SystemTime) : push :=
  push_Uint16 (u16 (stYear t)) >> push_Uint16 (u16 (stMonth t)) >>
  push_Uint16 (u16 (stDayOfWeek t)) >> push_Uint16 (u16 (stDay t)) >>
  push_Uint16 (u16 (stHour t)) >> push_Uint16 (u16 (stMinute t)) >>
  push_Uint16 (u16 (stSecond t)) >> push_Uint16 (u16 (stMilliseconds t)).

Definition pull_Int16 : pull Z := v <- pull_Uint16 ;; pull_ret (signed 16 v).

Definition pull_SystemTime : pull SystemTime :=
  y <- pull_Int16 ;; mo <- pull_Int16 ;; dow <- pull_Int16 ;; d <- pull_Int16 ;;
  h <- pull_Int16 ;; mi <- pull_Int16 ;; s <- pull_Int16 ;; ms <- pull_Int16 ;;
  pull_ret (mkSystemTime y mo dow d h mi s ms).

Definition push_RPCHeaderExt (h : RPCHeaderExt) : push :=
  push_Uint16 (rhVersion h) >> push_Uint16 (rhFlags h) >>
  push_Uint16 (rhSize h) >> push_Uint16 (rhSizeActual h).

Definition pull_RPCHeaderExt : pull RPCHeaderExt :=
  v <- pull_Uint16 ;; f <- pull_Uint16 ;; s <- pull_Uint16 ;; a <- pull_Uint16 ;;
  pull_ret (mkRPCHeaderExt v f s a).

(** ** Entry ids *)

Definition push_FlatUID (f : bytes) : push := push_Raw f.
Definition pull_FlatUID : pull bytes := pull_Raw 16.
Definition push_GlobCnt (gc : bytes) : push := push_Raw gc.
Definition pull_GlobCnt : pull bytes := pull_Raw 6.

Definition push_XID (x : XID) : push :=
  let size := 16 + len (xLocalID x) in
  if (size <? 17) || (24 <? size) then push_err ErrFormat
  else push_GUID (xGUID x) >> push_Raw (xLocalID x).

Definition pull_XID (size : Z) : pull XID :=
  if (size <? 17) || (24 <? size) then pull_err ErrFormat
  else g <- pull_GUID ;; l <- pull_Raw (size - 16) ;; pull_ret (mkXID g l).

Definition push_LongTermID (l : LongTermID) : push :=
  push_GUID (ltGUID l) >> push_GlobCnt (ltGC l) >> push_Uint16 (ltPadding l).

Definition pull_LongTermID : pull LongTermID :=
  g <- pull_GUID ;; c <- pull_GlobCnt ;; p <- pull_Uint16 ;; pull_ret (mkLongTermID g c p).

Definition push_FolderEntryID (f : FolderEntryID) : push :=
  push_Uint32 (feFlags f) >> push_FlatUID (feProviderUID f) >> push_Uint16 (feEIDType f) >>
  push_GUID (feFolderDBGUID f) >> push_GlobCnt (feFolderGC f) >> push_Raw (fePad1 f).

Definition pull_FolderEntryID : pull FolderEntryID :=
  f <- pull_Uint32 ;; u <- pull_FlatUID ;; t <- pull_Uint16 ;; g <- pull_GUID ;;
  c <- pull_GlobCnt ;; p <- pull_Raw 2 ;; pull_ret (mkFolderEntryID f u t g c p).

Definition push_MessageEntryID (m : MessageEntryID) : push :=
  push_Uint32 (meFlags m) >> push_FlatUID (meProviderUID m) >> push_Uint16 (meEIDType m) >>
  push_GUID (meFolderDBGUID m) >> push_GlobCnt (meFolderGC m) >> push_Raw (mePad1 m) >>
  push_GUID (meMessageDBGUID m) >> push_GlobCnt (meMessageGC m) >> push_Raw (mePad2 m).

Definition pull_MessageEntryID : pull MessageEntryID :=
  f <- pull_Uint32 ;; u <- pull_FlatUID ;; t <- pull_Uint16 ;; g <- pull_GUID ;;
  c <- pull_GlobCnt ;; p <- pull_Raw 2 ;; mg <- pull_GUID ;; mc <- pull_GlobCnt ;;
  p2 <- pull_Raw 2 ;; pull_ret (mkMessageEntryID f u t g c p mg mc p2).

(** "emsmdb.dll", NUL-padded to 14 bytes *)
Definition wrappedProviderDLL : bytes :=
  [101; 109; 115; 109; 100; 98; 46; 100; 108; 108; 0; 0; 0; 0].

(** [mapi.MuidStoreWrap] *)
Definition MuidStoreWrap : bytes :=
  [0x38; 0xA1; 0xBB; 0x10; 0x05; 0xE5; 0x10; 0x1A; 0xA1; 0xBB; 0x08; 0x00; 0x2B; 0x2A; 0x56; 0xC2].

Definition push_StoreEntryID (fl : Z) (s : StoreEntryID) : push :=
  push_Uint32 (seFlags s) >> push_FlatUID MuidStoreWrap >> push_Uint8 (seVersion s) >>
  push_Uint8 (seIVFlag s) >> push_Raw wrappedProviderDLL >> push_Uint32 (seWrappedFlags s) >>
  push_FlatUID (seWrappedProviderUID s) >> push_Uint32 (seWrappedType s) >>
  push_String8 fl (seServerName s) >> push_String8 fl (seMailboxDN s).

(** [storeEntryIDWrapper]: the flags, version and inline flag *)
Definition pull_storeEntryIDWrapper : pull (Z * Z * Z) :=
  f <- pull_Uint32 ;; wrap <- pull_FlatUID ;;
  if negb (bool_decide (wrap = MuidStoreWrap)) then pull_err ErrFormat
  else v <- pull_Uint8 ;;
       if negb (v =? 0) then pull_err ErrFormat
       else iv <- pull_Uint8 ;; pull_ret (f, v, iv).

(** [storeEntryIDRecord]: the wrapped record of the inline form *)
Definition pull_storeEntryIDRecord (f v iv : Z) : pull StoreEntryID :=
  _ <- pull_Raw 14 ;; wf <- pull_Uint32 ;; u <- pull_FlatUID ;; wt <- pull_Uint32 ;;
  sn <- pull_String8 ;; dn <- pull_String8 ;; pull_ret (mkStoreEntryID f v iv wf u wt sn dn).

Definition pull_StoreEntryID : pull StoreEntryID :=
  w <- pull_storeEntryIDWrapper ;;
  let '(f, v, iv) := w in
  if iv =? 0 then pull_storeEntryIDRecord f v iv
  else if iv =? 1 then
    u <- pull_FlatUID ;; pull_ret (mkStoreEntryID f v iv 0 u 0 [] [])
  else pull_err ErrFormat.

Definition push_SVREID (s : SVREID) : push :=
  match svBin s with
  | Some b =>
      if 0xFFFF <? len b + 1 then push_err ErrFormat
      else push_Uint16 (len b + 1) >> push_Uint8 0 >> push_Raw b
  | None =>
      push_Uint16 21 >> push_Uint8 1 >> push_Uint64 (svFolderID s) >>
      push_Uint64 (svMessageID s) >> push_Uint32 (svInstance s)
  end.

Definition pull_SVREID : pull SVREID :=
  length <- pull_Uint16 ;; ours <- pull_Uint8 ;;
  if ours =? 0 then
    b <- pull_Raw (if 0 <? length then length - 1 else 0) ;;
    pull_ret (mkSVREID (Some b) 0 0 0)
  else if negb (length =? 21) then pull_err ErrFormat
  else f <- pull_Uint64 ;; m <- pull_Uint64 ;; i <- pull_Uint32 ;;
       pull_ret (mkSVREID None f m i).

(** ** Counted arrays *)

(** A 16-bit count that the length must fit, then the elements. *)
Definition push_counted16 {A} (w : A -> push) (xs : list A) : push :=
  if 0xFFFF <? len xs then push_err ErrFormat
  else push_Uint16 (len xs) >> push_each w xs.

(** A 32-bit count, then the elements. *)
Definition push_counted32 {A} (w : A -> push) (xs : list A) : push :=
  push_Uint32 (len xs) >> push_each w xs.

(** Read [n] elements once [checkCount] has accepted the count. *)
Definition pull_elems {A} (n : Z) (r : pull A) : pull (list A) :=
  _ <- pull_checkCount n ;; pull_times (Z.to_nat n) r.

(** The form with the early [return nil, nil] on an empty array. *)
Definition pull_elems_nil {A} (n : Z) (r : pull A) : pull (list A) :=
  if n =? 0 then pull_ret [] else pull_elems n r.

Definition push_PropTags (tags : list Z) : push := push_counted16 push_Uint32 tags.
Definition pull_PropTags : pull (list Z) := n <- pull_Uint16 ;; pull_elems n pull_Uint32.

Definition push_PropTagsLong (tags : list Z) : push := push_counted32 push_Uint32 tags.
Definition pull_PropTagsLong : pull (list Z) :=
  n <- pull_Uint32 ;; pull_elems_nil n pull_Uint32.

Definition push_PropIDs (ids : list Z) : push := push_counted16 push_Uint16 ids.
Definition pull_PropIDs : pull (list Z) := n <- pull_Uint16 ;; pull_elems n pull_Uint16.

Definition push_Uint64ArrayShort (vs : list Z) : push := push_counted16 push_Uint64 vs.
Definition pull_Uint64ArrayShort : pull (list Z) :=
  n <- pull_Uint16 ;; pull_elems_nil n pull_Uint64.

Definition push_EIDs (ids : list Z) : push := push_counted32 push_Uint64 ids.
Definition pull_EIDs : pull (list Z) := n <- pull_Uint32 ;; pull_elems_nil n pull_Uint64.

Definition push_problem (p : PropertyProblem) : push :=
  push_Uint16 (ppIndex p) >> push_Uint32 (ppPropTag p) >> push_Uint32 (ppErr p).
Definition pull_problem : pull PropertyProblem :=
  i <- pull_Uint16 ;; t <- pull_Uint32 ;; e <- pull_Uint32 ;; pull_ret (mkProblem i t e).
Definition push_ProblemArray (probs : list PropertyProblem) : push :=
  push_counted16 push_problem probs.
Definition pull_ProblemArray : pull (list PropertyProblem) :=
  n <- pull_Uint16 ;; pull_elems_nil n pull_problem.

(** ** Named properties *)

(** [scratch.Unicode(n.Name); scratch.Bytes()] *)
Definition encoded_name (fl : Z) (s : bytes) : result error bytes := push_Unicode fl s [].

Definition push_PropertyName (fl : Z) (n : PropertyName) : push :=
  push_Uint8 (pnKind n) >> push_GUID (pnGUID n) >>
  if pnKind n =? MnidID then push_Uint32 (pnLID n)
  else if pnKind n =? MnidString then
    match encoded_name fl (pnName n) with
    | Err e => push_err e
    | Ok nb =>
        if 0xFF <? len nb then push_err ErrFormat else push_Uint8 (len nb) >> push_Raw nb
    end
  else push_nop.

(** The name inside its declared length: the Unicode read must not pass the
    length, and the cursor moves to exactly that boundary. *)
Definition pull_bracketed_name (fl nameSize : Z) : pull bytes := fun b =>
  if len b <? nameSize then Err ErrUnderflow
  else match pull_Unicode fl b with
       | Err e => Err e
       | Ok (s, r) =>
           if nameSize <? len b - len r then Err ErrFormat
           else Ok (s, drop (Z.to_nat nameSize) b)
       end.

Definition pull_PropertyName (fl : Z) : pull PropertyName :=
  kind <- pull_Uint8 ;; g <- pull_GUID ;;
  if kind =? MnidID then lid <- pull_Uint32 ;; pull_ret (mkPropertyName kind g lid [])
  else if kind =? MnidString then
    nameSize <- pull_Uint8 ;;
    if nameSize <? 1 then pull_err ErrFormat
    else s <- pull_bracketed_name fl nameSize ;; pull_ret (mkPropertyName kind g 0 s)
  else pull_ret (mkPropertyName kind g 0 []).

Definition push_PropertyNames (fl : Z) (names : list PropertyName) : push :=
  push_counted16 (push_PropertyName fl) names.
Definition pull_PropertyNames (fl : Z) : pull (list PropertyName) :=
  n <- pull_Uint16 ;; pull_elems_nil n (pull_PropertyName fl).

(** ** Predecessor change lists: no outer count, read to the end of the buffer *)

Definition push_PCL (xids : list XID) : push :=
  push_each (fun x =>
    let size := 16 + len (xLocalID x) in
    if (size <? 17) || (24 <? size) then push_err ErrFormat
    else push_Uint8 size >> push_XID x) xids.

(** One iteration reads at least a byte, so the buffer length is enough fuel. *)
Fixpoint pull_PCL_loop (fuel : nat) : pull (list XID) := fun b =>
  match b with
  | [] => Ok ([], [])
  | _ =>
      match fuel with
      | O => Err OutOfFuel
      | S fuel =>
          (size <- pull_Uint8 ;;
           if (size <? 17) || (24 <? size) then pull_err ErrFormat
           else x <- pull_XID size ;; xs <- pull_PCL_loop fuel ;; pull_ret (x :: xs)) b
      end
  end.
Definition pull_PCL : pull (list XID) := fun b => pull_PCL_loop (length b) b.

(** ** Codecs

    [codec k w r x]: the writer [w] appends some bytes, at least [k] of them, and the
    reader [r] run on those bytes and anything after them gives [x] back and leaves
    what came after.  The reader may take fuel: more than the bytes it consumes. *)
Definition codec {A} (k : nat) (w : push) (r : nat -> pull A) (x : A) : Prop :=
  exists bs, (k <= length bs)%nat
    /\ (forall buf, w buf = Ok (buf ++ bs))
    /\ (forall n rest, (length bs < n)%nat -> r n (bs ++ rest) = Ok (x, rest)).

Create HintDb codec.

Lemma codec_ret {A} (x : A) : codec 0 push_nop (fun _ => pull_ret x) x.
Proof.
  exists []. repeat split; [simpl; lia | intros; unfold push_nop; by rewrite app_nil_r].
Qed.

Lemma codec_weaken {A} k k' w (r : nat -> pull A) x :
  codec k w r x -> (k' <= k)%nat -> codec k' w r x.
Proof. intros (bs & L & W & R) Hk. exists bs. split; [lia|done]. Qed.

Lemma codec_bind {A B} k1 k2 w1 w2 (r1 : nat -> pull A) (r2 : A -> nat -> pull B) x y :
  codec k1 w1 r1 x -> codec k2 w2 (r2 x) y ->
  codec (k1 + k2) (w1 >> w2) (fun n => a <- r1 n ;; r2 a n) y.
Proof.
  intros (b1 & L1 & W1 & R1) (b2 & L2 & W2 & R2). exists (b1 ++ b2).
  rewrite length_app. split; [lia|]. split.
  - intros buf. unfold push_seq. rewrite W1. simpl. by rewrite W2, app_assoc.
  - intros n rest Hn. unfold pull_bind. rewrite <- app_assoc, R1 by lia. by rewrite R2 by lia.
Qed.

Lemma codec_map {A B} k w (r : nat -> pull A) (f : A -> B) x :
  codec k w r x -> codec k w (fun n => a <- r n ;; pull_ret (f a)) (f x).
Proof.
  intros (bs & L & W & R). exists bs. repeat split; [done..|].
  intros n rest Hn. unfold pull_bind. by rewrite R by lia.
Qed.

(** A read that consumes a byte before it recurses may hand its callee one unit of
    fuel less. *)
Lemma codec_bind_pred {A B} w1 w2 k1 k2 (r1 : pull A) (r2 : A -> nat -> pull B) x y :
  codec (S k1) w1 (fun _ => r1) x -> codec k2 w2 (r2 x) y ->
  codec (S k1 + k2) (w1 >> w2) (fun n => a <- r1 ;; r2 a (pred n)) y.
Proof.
  intros (b1 & L1 & W1 & R1) (b2 & L2 & W2 & R2). exists (b1 ++ b2).
  rewrite length_app. split; [lia|]. split.
  - intros buf. unfold push_seq. rewrite W1. simpl. by rewrite W2, app_assoc.
  - intros n rest Hn. unfold pull_bind.
    rewrite <- app_assoc, (R1 n) by lia. by rewrite R2 by lia.
Qed.

Lemma codec_ext {A} k w (r r' : nat -> pull A) x :
  (forall n b, (0 < n)%nat -> r n b = r' n b) -> codec k w r x -> codec k w r' x.
Proof.
  intros E (bs & L & W & R). exists bs. repeat split; [done..|].
  intros n rest Hn. rewrite <- E by lia. auto.
Qed.

Lemma codec_check {A} k n w (r : nat -> pull A) x :
  n <= Z.of_nat k -> codec k w r x ->
  codec k w (fun m => _ <- pull_checkCount n ;; r m) x.
Proof.
  intros Hn (bs & L & W & R). exists bs. repeat split; [done..|].
  intros m rest Hm. unfold pull_bind, pull_checkCount.
  destruct (Z.ltb_spec (len (bs ++ rest)) n); [|auto].
  rewrite len_app in *. unfold len in *. lia.
Qed.

Lemma codec_raw b m : m = len b -> codec (length b) (push_Raw b) (fun _ => pull_Raw m) b.
Proof.
  intros ->. exists b. repeat split; [lia|]. intros n rest _. unfold pull_Raw.
  rewrite len_app. pose proof (len_nonneg b). pose proof (len_nonneg rest).
  rewrite (proj2 (orb_false_iff _ _)) by (rewrite !Z.ltb_ge; lia).
  unfold len. rewrite Nat2Z.id. by rewrite take_app_length, drop_app_length.
Qed.

Lemma codec_le n v m :
  0 <= v < 2 ^ (8 * Z.of_nat n) -> m = Z.of_nat n ->
  codec n (push_Raw (le_bytes n v)) (fun _ => b <- pull_Raw m ;; pull_ret (le_value b)) v.
Proof.
  intros Hv ->. rewrite <- (le_value_le_bytes n v Hv) at 2.
  apply codec_map. pose proof (codec_raw (le_bytes n v) (Z.of_nat n)) as C.
  unfold len in C. rewrite length_le_bytes in C. by apply C.
Qed.

Lemma codec_u8 v : inU 8 v = true -> codec 1 (push_Uint8 v) (fun _ => pull_Uint8) v.
Proof. intros. bprop. by apply codec_le. Qed.
Lemma codec_u16 v : inU 16 v = true -> codec 2 (push_Uint16 v) (fun _ => pull_Uint16) v.
Proof. intros. bprop. by apply codec_le. Qed.
Lemma codec_u32 v : inU 32 v = true -> codec 4 (push_Uint32 v) (fun _ => pull_Uint32) v.
Proof. intros. bprop. by apply codec_le. Qed.
Lemma codec_u64 v : inU 64 v = true -> codec 8 (push_Uint64 v) (fun _ => pull_Uint64) v.
Proof. intros. bprop. by apply codec_le. Qed.

Lemma codec_bool v : codec 1 (push_Bool v) (fun _ => pull_Bool) v.
Proof.
  unfold pull_Bool, push_Bool.
  destruct (codec_u8 (if v then 1 else 0) ltac:(by destruct v)) as (bs & L & W & R).
  exists bs. repeat split; [done..|]. intros n rest Hn. unfold pull_bind.
  rewrite (R n) by lia. by destruct v.
Qed.

Lemma codec_each {A} k (w : A -> push) (r : nat -> pull A) xs :
  Forall (fun x => codec k (w x) r x) xs ->
  codec (k * length xs) (push_each w xs) (fun n => pull_times (length xs) (r n)) xs.
Proof.
  induction 1 as [|x xs Hx _ IH].
  - eapply codec_weaken; [apply codec_ret|]. simpl. lia.
  - replace (k * length (x :: xs))%nat with (k + k * length xs)%nat by (simpl; lia).
    simpl push_each. simpl pull_times.
    apply codec_bind with (r2 := fun a n => xs0 <- pull_times (length xs) (r n) ;; pull_ret (a :: xs0)) (x := x); [done|].
    by apply codec_map.
Qed.

(** A checked count and its elements, each at least one byte. *)
Lemma codec_elems {A} k (w : A -> push) (r : nat -> pull A) xs :
  Forall (fun x => codec (S k) (w x) r x) xs ->
  codec (length xs) (push_each w xs) (fun n => pull_elems (len xs) (r n)) xs.
Proof.
  intros H. unfold pull_elems, len. rewrite Nat2Z.id.
  apply (codec_check (length xs) (Z.of_nat (length xs)) _
           (fun n => pull_times (length xs) (r n))); [lia|].
  eapply codec_weaken; [by apply codec_each|]. nia.
Qed.

Lemma codec_elems_nil {A} k (w : A -> push) (r : nat -> pull A) xs :
  Forall (fun x => codec (S k) (w x) r x) xs ->
  codec (length xs) (push_each w xs) (fun n => pull_elems_nil (len xs) (r n)) xs.
Proof.
  intros H. unfold pull_elems_nil. destruct xs as [|x xs]; [apply codec_ret|].
  destruct (Z.eqb_spec (len (x :: xs)) 0) as [E|_]; [unfold len in E; simpl in E; lia|].
  by apply (codec_elems k).
Qed.

Lemma codec_map_eq {A B} k w (r : nat -> pull A) (f : A -> B) x y :
  codec k w r x -> f x = y -> codec k w (fun n => a <- r n ;; pull_ret (f a)) y.
Proof. intros H <-. by apply codec_map. Qed.

#[export] Hint Resolve codec_u8 codec_u16 codec_u32 codec_u64 codec_bool codec_ret : codec.

(** Run a sequence of writers against the reads that match them one by one. *)
Ltac codec_leaf := solve [eauto with codec nocore | apply codec_raw; (reflexivity || lia)].
Ltac codec_seq :=
  cbv beta;
  lazymatch goal with
  | |- codec _ (push_seq _ _) _ _ =>
      eapply codec_bind; [codec_leaf | codec_seq]
  | |- codec _ _ (fun _ => pull_bind _ (fun _ => pull_ret _)) _ =>
      first [ eapply codec_map_eq; [codec_leaf | reflexivity] | codec_leaf | idtac ]
  | |- _ => first [codec_leaf | idtac]
  end.
Ltac codec_run := eapply codec_weaken; [codec_seq | simpl; try lia].

(** ** Well-formed data: what the round trips ask of the values written *)

Definition sized (n : Z) (b : bytes) : bool := len b =? n.

Definition string8_ok (fl : Z) (s : bytes) : bool :=
  no_nul s && implb (has_flag fl FlagTBLLMT) (len s <=? 509).

Definition unicode_ok (fl : Z) (s : bytes) : bool :=
  if negb (has_flag fl FlagUTF16) then string8_ok fl s
  else bytes_ok s && valid_utf8 s && no_nul s
       && implb (has_flag fl FlagTBLLMT) ((len (utf16_Encode (runes s)) + 1) * 2 <=? 510).

Definition bin_ok (fl : Z) (b : bytes) : bool :=
  len b <? (if has_flag fl FlagWCount then 2 ^ 32 else 2 ^ 16).

(** A GUID on this wire: the trailing eight bytes are written verbatim. *)
Definition guid_wire_ok (g : GUID) : bool :=
  inU 32 (Data1 g) && inU 16 (Data2 g) && inU 16 (Data3 g) && sized 8 (Data4 g).

Definition xid_ok (x : XID) : bool :=
  guid_wire_ok (xGUID x) && (1 <=? len (xLocalID x)) && (len (xLocalID x) <=? 8).

Definition store_eid_ok (fl : Z) (s : StoreEntryID) : bool :=
  inU 32 (seFlags s) && (seVersion s =? 0) && (seIVFlag s =? 0) && inU 32 (seWrappedFlags s)
  && sized 16 (seWrappedProviderUID s) && inU 32 (seWrappedType s)
  && string8_ok fl (seServerName s) && string8_ok fl (seMailboxDN s).

(** The binary form carries nothing but its bytes. *)
Definition svreid_ok (s : SVREID) : bool :=
  match svBin s with
  | Some b => (len b <? 0xFFFF) && (svFolderID s =? 0) && (svMessageID s =? 0) && (svInstance s =? 0)
  | None => inU 64 (svFolderID s) && inU 64 (svMessageID s) && inU 32 (svInstance s)
  end.

Definition systime_ok (t : SystemTime) : bool :=
  forallb (inS 16) [stYear t; stMonth t; stDayOfWeek t; stDay t;
                    stHour t; stMinute t; stSecond t; stMilliseconds t].

Definition propname_ok (fl : Z) (n : PropertyName) : bool :=
  inU 8 (pnKind n) && guid_wire_ok (pnGUID n)
  && if pnKind n =? MnidID then inU 32 (pnLID n) && bool_decide (pnName n = [])
     else if pnKind n =? MnidString then
       (pnLID n =? 0) && unicode_ok fl (pnName n)
       && match encoded_name fl (pnName n) with Ok nb => len nb <=? 255 | Err _ => false end
     else (pnLID n =? 0) && bool_decide (pnName n = []).

Lemma sized_len n b : sized n b = true -> n = len b.
Proof. unfold sized. intros. bprop. lia. Qed.

Lemma codec_raw_sized n b :
  sized n b = true -> codec (Z.to_nat n) (push_Raw b) (fun _ => pull_Raw n) b.
Proof.
  intros H. apply sized_len in H. subst n. unfold len. rewrite Nat2Z.id. by apply codec_raw.
Qed.
#[export] Hint Resolve codec_raw_sized : codec.

Lemma codec_guid g : guid_wire_ok g = true -> codec 16 (push_GUID g) (fun _ => pull_GUID) g.
Proof.
  destruct g. unfold guid_wire_ok, push_GUID, pull_GUID. cbn. intros. bsplit. codec_run.
Qed.
#[export] Hint Resolve codec_guid : codec.

Lemma guid_ok_wire g : guid_ok g = true -> guid_wire_ok g = true.
Proof. unfold guid_ok, guid_wire_ok, sized. intros. bsplit. 
  repeat match goal with H : _ = true |- _ => rewrite H; clear H end. done.
Qed.

Lemma codec_bin fl b : bin_ok fl b = true -> codec 2 (push_Bin fl b) (fun _ => pull_Bin fl) b.
Proof.
  unfold bin_ok, push_Bin, pull_Bin. intros H. apply Z.ltb_lt in H.
  pose proof (len_nonneg b) as Hl. destruct (has_flag fl FlagWCount).
  - eapply codec_weaken; [eapply codec_bind|].
    + apply codec_u32. apply inU_spec. lia.
    + by apply codec_raw.
    + lia.
  - destruct (Z.ltb_spec 0xFFFF (len b)); [lia|].
    eapply codec_weaken; [eapply codec_bind|].
    + apply codec_u16. apply inU_spec. lia.
    + by apply codec_raw.
    + lia.
Qed.
#[export] Hint Resolve codec_bin : codec.

Lemma scan_nul_app s rest : no_nul s = true -> scan_nul (s ++ 0 :: rest) = Some (s, rest).
Proof.
  induction s as [|x s IH]; intros H; [done|]. simpl in H. bsplit. simpl.
  apply negb_true_iff in H. rewrite H, IH by done. done.
Qed.

Lemma codec_string8 fl s :
  string8_ok fl s = true -> codec 1 (push_String8 fl s) (fun _ => pull_String8) s.
Proof.
  unfold string8_ok, push_String8. intros H. bsplit.
  assert (E : (if has_flag fl FlagTBLLMT && (509 <? len s) then take 509 s else s) = s).
  { destruct (has_flag fl FlagTBLLMT); simpl in *; [|done]. bprop.
    destruct (Z.ltb_spec 509 (len s)); [lia|done]. }
  rewrite E. exists (s ++ [0]). rewrite length_app. simpl. split; [lia|]. split.
  - intros buf. unfold push_seq, push_Raw, push_Uint8. simpl. by rewrite app_assoc.
  - intros n rest _. unfold pull_String8. rewrite <- app_assoc. simpl.
    by rewrite scan_nul_app.
Qed.
#[export] Hint Resolve codec_string8 : codec.

Lemma push_each_units us buf :
  push_each push_Uint16 us buf = Ok (buf ++ concat (map (le_bytes 2) us)).
Proof.
  revert buf. induction us as [|u us IH]; intros buf; simpl.
  - unfold push_nop. by rewrite app_nil_r.
  - unfold push_seq, push_Uint16, push_Raw. simpl rbind. by rewrite IH, <- app_assoc.
Qed.

Lemma scan_units_app us rest :
  Forall (fun u => 0 < u < 65536) us ->
  scan_units (concat (map (le_bytes 2) us) ++ 0 :: 0 :: rest) = Some (us, rest).
Proof.
  induction 1 as [|u us Hu _ IH]; [done|].
  cbn [map concat]. change (le_bytes 2 u) with [u mod 256; u / 256 mod 256].
  cbn [app scan_units].
  pose proof (Z.div_mod u 256 ltac:(lia)) as D.
  rewrite (Z.mod_small (u / 256)) by (split; [apply Z.div_pos | apply Z.div_lt_upper_bound]; lia).
  destruct (Z.eqb_spec (u mod 256) 0), (Z.eqb_spec (u / 256) 0); try lia; cbn [andb];
    rewrite IH; do 2 f_equal; cbn [le_value]; f_equal; lia.
Qed.

Lemma codec_unicode fl s :
  unicode_ok fl s = true -> codec 1 (push_Unicode fl s) (fun _ => pull_Unicode fl) s.
Proof.
  unfold unicode_ok, push_Unicode, pull_Unicode.
  destruct (negb (has_flag fl FlagUTF16)); [apply codec_string8|]. intros H. bsplit.
  set (us := utf16_Encode (runes s)) in *.
  assert (E : (if has_flag fl FlagTBLLMT && (510 <? (len us + 1) * 2) then take 254 us else us) = us).
  { destruct (has_flag fl FlagTBLLMT); simpl in *; [|done]. bprop.
    destruct (Z.ltb_spec 510 ((len us + 1) * 2)); [lia|done]. }
  cbv zeta. rewrite E. exists (concat (map (le_bytes 2) us) ++ [0; 0]). rewrite length_app.
  split; [simpl; lia|]. split.
  - intros buf. unfold push_seq. rewrite push_each_units. simpl. unfold push_Uint16, push_Raw.
    by rewrite <- app_assoc.
  - intros n rest _. rewrite <- app_assoc. simpl app. rewrite scan_units_app.
    + unfold us. by rewrite utf16_round_trip.
    + apply utf16_Encode_units. apply List.Forall_and.
      * by apply runes_scalar.
      * by apply runes_no_nul.
Qed.
#[export] Hint Resolve codec_unicode : codec.

Lemma codec_int16 v : inS 16 v = true -> codec 2 (push_Uint16 (u16 v)) (fun _ => pull_Int16) v.
Proof.
  intros H. unfold pull_Int16, u16. eapply codec_map_eq.
  - apply codec_u16. apply inU_spec. apply Z.mod_pos_bound. lia.
  - by apply signed_mod.
Qed.
#[export] Hint Resolve codec_int16 : codec.

Lemma codec_systime t :
  systime_ok t = true -> codec 16 (push_SystemTime t) (fun _ => pull_SystemTime) t.
Proof.
  destruct t. unfold systime_ok, push_SystemTime, pull_SystemTime. cbn. intros. bsplit. codec_run.
Qed.

Lemma codec_rpc_header h :
  inU 16 (rhVersion h) && inU 16 (rhFlags h) && inU 16 (rhSize h) && inU 16 (rhSizeActual h) = true ->
  codec 8 (push_RPCHeaderExt h) (fun _ => pull_RPCHeaderExt) h.
Proof. destruct h. unfold push_RPCHeaderExt, pull_RPCHeaderExt. cbn. intros. bsplit. codec_run. Qed.

Lemma codec_long_term l :
  guid_wire_ok (ltGUID l) && sized 6 (ltGC l) && inU 16 (ltPadding l) = true ->
  codec 24 (push_LongTermID l) (fun _ => pull_LongTermID) l.
Proof.
  destruct l. unfold push_LongTermID, pull_LongTermID, push_GlobCnt, pull_GlobCnt. cbn.
  intros. bsplit. codec_run.
Qed.

Definition folder_eid_ok (f : FolderEntryID) : bool :=
  inU 32 (feFlags f) && sized 16 (feProviderUID f) && inU 16 (feEIDType f)
  && guid_wire_ok (feFolderDBGUID f) && sized 6 (feFolderGC f) && sized 2 (fePad1 f).

Definition message_eid_ok (m : MessageEntryID) : bool :=
  inU 32 (meFlags m) && sized 16 (meProviderUID m) && inU 16 (meEIDType m)
  && guid_wire_ok (meFolderDBGUID m) && sized 6 (meFolderGC m) && sized 2 (mePad1 m)
  && guid_wire_ok (meMessageDBGUID m) && sized 6 (meMessageGC m) && sized 2 (mePad2 m).

Lemma codec_folder_eid f :
  folder_eid_ok f = true -> codec 46 (push_FolderEntryID f) (fun _ => pull_FolderEntryID) f.
Proof.
  destruct f. unfold folder_eid_ok, push_FolderEntryID, pull_FolderEntryID, push_FlatUID,
    pull_FlatUID, push_GlobCnt, pull_GlobCnt. cbn. intros. bsplit. codec_run.
Qed.

Lemma codec_message_eid m :
  message_eid_ok m = true -> codec 70 (push_MessageEntryID m) (fun _ => pull_MessageEntryID) m.
Proof.
  destruct m. unfold message_eid_ok, push_MessageEntryID, pull_MessageEntryID, push_FlatUID,
    pull_FlatUID, push_GlobCnt, pull_GlobCnt. cbn. intros. bsplit. codec_run.
Qed.

(** A test between two reads of which the value already read decides the outcome. *)
Lemma codec_if {A} k w (c : bool) (r1 r2 : nat -> pull A) x :
  (if c then codec k w r1 x else codec k w r2 x) ->
  codec k w (fun n => if c then r1 n else r2 n) x.
Proof. by destruct c. Qed.

Lemma codec_store_eid fl s :
  store_eid_ok fl s = true ->
  codec 2 (push_StoreEntryID fl s) (fun _ => pull_StoreEntryID) s.
Proof.
  destruct s as [f v iv wf u wt sn dn]. unfold store_eid_ok. cbn. intros. bsplit.
  repeat match goal with H : (_ =? 0) = true |- _ => apply Z.eqb_eq in H; subst end.
  eapply codec_ext with (r := fun _ =>
    f <- pull_Uint32 ;; wrap <- pull_Raw 16 ;;
    if negb (bool_decide (wrap = MuidStoreWrap)) then pull_err ErrFormat else
    v <- pull_Uint8 ;; if negb (v =? 0) then pull_err ErrFormat else
    iv <- pull_Uint8 ;; if iv =? 0 then pull_storeEntryIDRecord f v iv else
      if iv =? 1 then u <- pull_FlatUID ;; pull_ret (mkStoreEntryID f v iv 0 u 0 [] [])
      else pull_err ErrFormat).
  { intros _ b _. unfold pull_StoreEntryID, pull_storeEntryIDWrapper, pull_bind, pull_FlatUID,
      pull_ret, pull_err. by repeat case_match. }
  unfold push_StoreEntryID, push_FlatUID. cbn [seFlags seVersion seIVFlag seWrappedFlags
    seWrappedProviderUID seWrappedType seServerName seMailboxDN].
  eapply codec_weaken.
  2: { instantiate (1 := (4 + (length MuidStoreWrap + (1 + (1 + 0))))%nat). simpl. lia. }
  eapply codec_bind; [codec_leaf|].
  eapply codec_bind; [by apply codec_raw|]. cbv beta.
  rewrite bool_decide_eq_true_2 by done. cbn [negb].
  eapply codec_bind; [by apply codec_u8|]. cbn [negb Z.eqb].
  eapply codec_bind; [by apply codec_u8|]. cbn [Z.eqb].
  unfold pull_storeEntryIDRecord, pull_FlatUID. codec_run.
Qed.
#[export] Hint Resolve codec_store_eid : codec.

Lemma codec_svreid s : svreid_ok s = true -> codec 3 (push_SVREID s) (fun _ => pull_SVREID) s.
Proof.
  destruct s as [[b|] f m i]; unfold svreid_ok, push_SVREID, pull_SVREID; cbn; intros; bprop.
  - subst. pose proof (len_nonneg b).
    destruct (Z.ltb_spec 0xFFFF (len b + 1)); [lia|].
    eapply codec_weaken; [eapply codec_bind; [apply codec_u16, inU_spec; lia|]|].
    + eapply codec_bind; [by apply codec_u8|]. cbn [Z.eqb].
      destruct (Z.ltb_spec 0 (len b + 1)); [|lia].
      eapply codec_map_eq; [apply codec_raw; lia | done].
    + lia.
  - eapply codec_weaken; [eapply codec_bind; [by apply codec_u16|]|].
    + eapply codec_bind; [by apply codec_u8|]. cbn [Z.eqb negb Pos.eqb].
      eapply codec_bind; [by apply codec_u64, inU_spec|].
      eapply codec_bind; [by apply codec_u64, inU_spec|].
      eapply codec_map_eq; [by apply codec_u32, inU_spec | done].
    + lia.
Qed.
#[export] Hint Resolve codec_svreid : codec.

Lemma codec_xid x :
  xid_ok x = true -> codec 17 (push_XID x) (fun _ => pull_XID (16 + len (xLocalID x))) x.
Proof.
  destruct x as [g l]. unfold xid_ok, push_XID, pull_XID. cbn. intros. bprop.
  rewrite (proj2 (orb_false_iff _ _)) by (rewrite !Z.ltb_ge; lia).
  eapply codec_weaken; [eapply codec_bind; [by apply codec_guid|]|].
  - eapply codec_map_eq; [apply codec_raw; lia | done].
  - unfold len in *. lia.
Qed.

Lemma codec_propname fl n :
  propname_ok fl n = true ->
  codec 17 (push_PropertyName fl n) (fun _ => pull_PropertyName fl) n.
Proof.
  destruct n as [k g lid s]. unfold propname_ok, push_PropertyName, pull_PropertyName.
  cbn [pnKind pnGUID pnLID pnName]. intros. bsplit.
  change 17%nat with (1 + (16 + 0))%nat.
  eapply codec_bind; [codec_leaf|]. eapply codec_bind; [codec_leaf|]. cbv beta.
  destruct (k =? MnidID).
  { bsplit. eapply codec_weaken; [eapply codec_map_eq; [codec_leaf|]|lia].
    match goal with H : bool_decide _ = true |- _ => apply bool_decide_eq_true in H end.
    by subst. }
  destruct (k =? MnidString).
  2: { bprop. match goal with H : bool_decide _ = true |- _ => apply bool_decide_eq_true in H end.
       subst. apply codec_ret. }
  bprop. subst lid.
  destruct (codec_unicode fl s ltac:(done)) as (bs & L & W & R).
  unfold encoded_name in *. rewrite W in *. cbn [app] in *. bprop.
  destruct (Z.ltb_spec 0xFF (len bs)); [lia|].
  assert (0 < len bs) by (unfold len; lia).
  eapply codec_weaken; [eapply codec_bind; [apply codec_u8, inU_spec; lia|]|].
  - cbv beta. destruct (Z.ltb_spec (len bs) 1); [lia|].
    eapply codec_map_eq; [|done]. exists bs. split; [done|]. split; [done|].
    intros n rest Hn. unfold pull_bracketed_name. pose proof (len_nonneg rest).
    rewrite len_app. destruct (Z.ltb_spec (len bs + len rest) (len bs)); [lia|].
    rewrite (R n) by done.
    destruct (Z.ltb_spec (len bs) (len bs + len rest - len rest)); [lia|].
    unfold len. rewrite Nat2Z.id. by rewrite drop_app_length.
  - lia.
Qed.
#[export] Hint Resolve codec_propname : codec.

Lemma codec_problem p :
  inU 16 (ppIndex p) && inU 32 (ppPropTag p) && inU 32 (ppErr p) = true ->
  codec 10 (push_problem p) (fun _ => pull_problem) p.
Proof. destruct p. unfold push_problem, pull_problem. cbn. intros. bsplit. codec_run. Qed.

Lemma codec_counted16 {A} k (ok : A -> bool) (w : A -> push) (r : nat -> pull A)
  (elems : forall B, Z -> pull B -> pull (list B)) xs :
  elems = @pull_elems \/ elems = @pull_elems_nil ->
  (forall x, ok x = true -> codec (S k) (w x) r x) ->
  (len xs <? 0x10000) && forallb ok xs = true ->
  codec 2 (push_counted16 w xs) (fun n => c <- pull_Uint16 ;; elems A c (r n)) xs.
Proof.
  intros He Hok H. bprop. unfold push_counted16. pose proof (len_nonneg xs).
  destruct (Z.ltb_spec 0xFFFF (len xs)); [lia|].
  eapply codec_weaken; [eapply codec_bind; [apply codec_u16, inU_spec; lia|]|].
  - cbv beta. assert (Forall (fun x => codec (S k) (w x) r x) xs).
    { eapply List.Forall_impl; [exact Hok | by apply forallb_Forall]. }
    destruct He as [->| ->]; [by eapply codec_elems | by eapply codec_elems_nil].
  - lia.
Qed.

Lemma codec_counted32 {A} k (ok : A -> bool) (w : A -> push) (r : nat -> pull A)
  (elems : forall B, Z -> pull B -> pull (list B)) xs :
  elems = @pull_elems \/ elems = @pull_elems_nil ->
  (forall x, ok x = true -> codec (S k) (w x) r x) ->
  (len xs <? 2 ^ 32) && forallb ok xs = true ->
  codec 4 (push_counted32 w xs) (fun n => c <- pull_Uint32 ;; elems A c (r n)) xs.
Proof.
  intros He Hok H. bprop. unfold push_counted32. pose proof (len_nonneg xs).
  eapply codec_weaken; [eapply codec_bind; [apply codec_u32, inU_spec; lia|]|].
  - cbv beta. assert (Forall (fun x => codec (S k) (w x) r x) xs).
    { eapply List.Forall_impl; [exact Hok | by apply forallb_Forall]. }
    destruct He as [->| ->]; [by eapply codec_elems | by eapply codec_elems_nil].
  - lia.
Qed.

Lemma pull_PCL_loop_app xs :
  forallb xid_ok xs = true ->
  exists bs, (forall buf, push_PCL xs buf = Ok (buf ++ bs))
    /\ forall n, (length bs <= n)%nat -> pull_PCL_loop n bs = Ok (xs, []).
Proof.
  induction xs as [|x xs IH]; intros H; simpl in H.
  - exists []. split; [intros; unfold push_PCL; simpl; unfold push_nop; by rewrite app_nil_r|].
    by intros [|n] _.
  - bsplit. destruct IH as (bs & W & R); [done|].
    pose proof H as Hx. unfold xid_ok in Hx. bprop.
    set (size := 16 + len (xLocalID x)).
    assert (C : codec (1 + 17) (push_Uint8 size >> push_XID x) (fun _ => s <- pull_Uint8 ;;
      if (s <? 17) || (24 <? s) then pull_err ErrFormat else pull_XID s) x).
    { eapply codec_bind; [apply codec_u8, inU_spec; unfold size; lia|]. cbv beta.
      rewrite (proj2 (orb_false_iff _ _)) by (rewrite !Z.ltb_ge; unfold size; lia).
      by apply codec_xid. }
    destruct C as (b1 & L1 & W1 & R1).
    exists (b1 ++ bs). split.
    + intros buf. unfold push_PCL in *. simpl. unfold push_seq at 1.
      rewrite (proj2 (orb_false_iff _ _)) by (rewrite !Z.ltb_ge; lia).
      fold size. rewrite W1. simpl. by rewrite W, app_assoc.
    + intros n Hn. destruct b1 as [|b0 b1]; [simpl in L1; lia|].
      rewrite length_app in Hn. destruct n as [|n]; [simpl in Hn; lia|].
      cbn [pull_PCL_loop app]. specialize (R1 (S (length (b0 :: b1))) bs ltac:(lia)).
      unfold pull_bind in *. cbn [app] in R1.
      destruct (pull_Uint8 (b0 :: b1 ++ bs)) as [[s l]|]; [|done].
      destruct ((s <? 17) || (24 <? s)); [done|]. rewrite R1.
      simpl in Hn. by rewrite R by lia.
Qed.

(** ** Round trips of the fixed structures *)

(** What a writer appends to any buffer, its reader turns back into the value, whatever
    follows, and leaves exactly what follows. *)
Definition round_trip {A} (w : push) (r : pull A) (x : A) : Prop :=
  exists bs, (forall buf, w buf = Ok (buf ++ bs)) /\ (forall rest, r (bs ++ rest) = Ok (x, rest)).

Lemma codec_trip {A} k w (r : pull A) x : codec k w (fun _ => r) x -> round_trip w r x.
Proof.
  intros (bs & _ & W & R). exists bs. split; [done|]. intros. apply (R (S (length bs))). lia.
Qed.

(** Strings and binaries survive the wire: in the 8-bit form, in the form the UTF16
    flag selects (surrogate pairs included), and as counted binaries. *)
Theorem strings_round_trip fl s :
  (string8_ok fl s = true -> round_trip (push_String8 fl s) pull_String8 s)
  /\ (unicode_ok fl s = true -> round_trip (push_Unicode fl s) (pull_Unicode fl) s)
  /\ (bin_ok fl s = true -> round_trip (push_Bin fl s) (pull_Bin fl) s).
Proof.
  repeat split; intros H; eapply codec_trip.
  - by apply codec_string8.
  - by apply codec_unicode.
  - by apply codec_bin.
Qed.

(** A name with a character outside the basic plane, as a surrogate pair. *)
Example strings_witness :
  let s := [0x68; 0xC3; 0xA9; 0xF0; 0x9F; 0x98; 0x80] in
  round_trip (push_Unicode FlagUTF16 s) (pull_Unicode FlagUTF16) s
  /\ round_trip (push_String8 0 s) pull_String8 s /\ round_trip (push_Bin 0 s) (pull_Bin 0) s.
Proof.
  intros s. split; [|split]; [apply (strings_round_trip FlagUTF16 s)|apply (strings_round_trip 0 s)..];
    vm_compute; reflexivity.
Defined.

(** Entry identifiers survive the wire: folder, message and wrapped store entry ids,
    long-term ids and server entry ids in both forms. *)
Theorem entry_ids_round_trip fl f m s l v :
  folder_eid_ok f = true -> message_eid_ok m = true -> store_eid_ok fl s = true ->
  guid_wire_ok (ltGUID l) && sized 6 (ltGC l) && inU 16 (ltPadding l) = true ->
  svreid_ok v = true ->
  round_trip (push_FolderEntryID f) pull_FolderEntryID f
  /\ round_trip (push_MessageEntryID m) pull_MessageEntryID m
  /\ round_trip (push_StoreEntryID fl s) pull_StoreEntryID s
  /\ round_trip (push_LongTermID l) pull_LongTermID l
  /\ round_trip (push_SVREID v) pull_SVREID v.
Proof.
  intros. repeat split; eapply codec_trip.
  - by apply codec_folder_eid.
  - by apply codec_message_eid.
  - by apply codec_store_eid.
  - by apply codec_long_term.
  - by apply codec_svreid.
Qed.

Definition zero_guid : GUID := mkGUID 0 0 0 [0; 0; 0; 0; 0; 0; 0; 0].

Example entry_ids_witness :
  let uid := [1;2;3;4;5;6;7;8;9;10;11;12;13;14;15;16] in
  let f := mkFolderEntryID 0 uid 1 zero_guid [0;0;0;0;1;5] [0;0] in
  let m := mkMessageEntryID 0 uid 7 zero_guid [0;0;0;0;1;5] [0;0] zero_guid [0;0;0;0;9;9] [0;0] in
  let s := mkStoreEntryID 0 0 0 0 uid 6 [115; 118] [47; 111] in
  round_trip (push_FolderEntryID f) pull_FolderEntryID f
  /\ round_trip (push_MessageEntryID m) pull_MessageEntryID m
  /\ round_trip (push_StoreEntryID 0 s) pull_StoreEntryID s
  /\ round_trip (push_LongTermID (mkLongTermID zero_guid [0;0;0;0;1;5] 0)) pull_LongTermID
       (mkLongTermID zero_guid [0;0;0;0;1;5] 0)
  /\ round_trip (push_SVREID (mkSVREID (Some [1; 2]) 0 0 0)) pull_SVREID (mkSVREID (Some [1; 2]) 0 0 0).
Proof. intros uid f m s. apply (entry_ids_round_trip 0 f m s); reflexivity. Defined.

(** Named properties, alone and as a counted list, survive the wire in all three
    kinds: by number, by name (whose encoded length the one-byte size must hold) and none. *)
Theorem propnames_round_trip fl names :
  (len names <? 0x10000) && forallb (propname_ok fl) names = true ->
  round_trip (push_PropertyNames fl names) (pull_PropertyNames fl) names.
Proof.
  intros H. eapply codec_trip.
  apply (codec_counted16 16 (propname_ok fl) _ (fun _ => pull_PropertyName fl) (@pull_elems_nil));
    [tauto| |done]. apply codec_propname.
Qed.

Example propnames_witness :
  let names := [mkPropertyName MnidID zero_guid 0x8502 [];
                mkPropertyName MnidString zero_guid 0 [107; 101; 121]] in
  round_trip (push_PropertyNames FlagUTF16 names) (pull_PropertyNames FlagUTF16) names.
Proof. apply propnames_round_trip. vm_compute. reflexivity. Defined.

(** A predecessor change list written to an empty buffer is read back to its end, and
    reading any buffer to its end terminates within one step per byte. *)
Theorem PCL_round_trip xids :
  forallb xid_ok xids = true ->
  exists bs, push_PCL xids [] = Ok bs /\ pull_PCL bs = Ok (xids, []).
Proof.
  intros H. destruct (pull_PCL_loop_app xids H) as (bs & W & R). exists bs.
  split; [apply W|]. by apply R.
Qed.

Example PCL_witness : exists bs,
  push_PCL [mkXID zero_guid [0; 0; 0; 0; 1; 5]; mkXID zero_guid [9]] [] = Ok bs
  /\ pull_PCL bs = Ok ([mkXID zero_guid [0; 0; 0; 0; 1; 5]; mkXID zero_guid [9]], []).
Proof. apply PCL_round_trip. vm_compute. reflexivity. Defined.

(** A count that the unread bytes cannot hold is refused before any element is read. *)
Lemma checkCount_spec n b :
  pull_checkCount n b = if len b <? n then Err ErrUnderflow else Ok (tt, b).
Proof. done. Qed.

(** A peer's count cannot make the reader allocate more than the buffer holds: a
    counted read that succeeds returns as many elements as were claimed and no more than
    there were unread bytes, and a larger count is refused without reading an element. *)
Theorem counted_read_bounded {A} (n : Z) (r : pull A) b :
  0 <= n ->
  match pull_elems n r b with
  | Ok (xs, _) => len xs = n /\ len xs <= len b
  | Err e => len b < n -> e = ErrUnderflow
  end.
Proof.
  intros Hn. unfold pull_elems, pull_bind. rewrite checkCount_spec.
  destruct (Z.ltb_spec (len b) n); [done|].
  assert (L : forall k b', match pull_times k r b' with Ok (xs, _) => length xs = k | Err _ => True end).
  { induction k as [|k IH]; intros b'; simpl; [done|]. unfold pull_bind.
    destruct (r b') as [[x b'']|]; [|done]. specialize (IH b'').
    destruct (pull_times k r b'') as [[xs b3]|]; [|done]. simpl. lia. }
  specialize (L (Z.to_nat n) b). destruct (pull_times _ r b) as [[xs b']|]; [|lia].
  unfold len in *. lia.
Qed.

Example counted_read_witness :
  pull_elems 2 pull_Uint16 [1; 0; 2; 0; 9] = Ok ([1; 2], [9]) /\ len [1; 2] <= len [1; 0; 2; 0; 9].
Proof.
  split; [vm_compute; reflexivity|].
  pose proof (counted_read_bounded 2 pull_Uint16 [1; 0; 2; 0; 9] ltac:(lia)) as H.
  vm_compute in H. destruct H as [_ H]. vm_compute. exact H.
Defined.
