(* ===== verification/ExtVal.v ===== *)
(** * Property values on the wire ([internal/ext]: propval.go, typedval.go,
      restriction.go, action.go, arrays.go)

    The encoder and decoder of dynamically typed property values.  The vocabulary
    tables the sources fill in ([propWriters], [restrictionWriters],
    [actionWriters] and their readers) are association lists from wire codes to
    kinds, searched the same way; a code absent from the table is refused.  The
    encoder recurses on the value; the decoder recurses on fuel, and every nested
    read consumes at least a byte first, so the unread length is always enough. *)

From stdpp Require Import base list numbers.
From Stdlib Require Import ZArith Lia.
From S2P Require Import Prelude Utf Mapi Wire.
Open Scope Z_scope.
Open Scope wire_scope.

(** ** The vocabularies *)

Inductive prop_kind :=
| KUnspecified | KNull | KShort | KLong | KFloat | KDouble | KInt64 | KError | KBoolean
| KObject | KString8 | KUnicode | KSysTime | KCLSID | KSvrEID | KRestriction | KActions
| KBinary | KMvShort | KMvLong | KMvFloat | KMvDouble | KMvInt64 | KMvString8 | KMvUnicode
| KMvSysTime | KMvCLSID | KMvBinary.

Definition prop_table : list (Z * prop_kind) :=
  [(PtNull, KNull); (PtSvrEID, KSvrEID); (PtShort, KShort); (PtLong, KLong);
   (PtError, KError); (PtFloat, KFloat); (PtDouble, KDouble); (PtAppTime, KDouble);
   (PtCurrency, KInt64); (PtI8, KInt64); (PtSysTime, KSysTime); (PtBoolean, KBoolean);
   (PtString8, KString8); (PtUnicode, KUnicode); (PtCLSID, KCLSID); (PtBinary, KBinary);
   (PtObject, KObject); (PtMvShort, KMvShort); (PtMvLong, KMvLong);
   (PtMvCurrency, KMvInt64); (PtMvI8, KMvInt64); (PtMvDouble, KMvDouble);
   (PtMvAppTime, KMvDouble); (PtMvSysTime, KMvSysTime); (PtMvFloat, KMvFloat);
   (PtMvString8, KMvString8); (PtMvUnicode, KMvUnicode); (PtMvCLSID, KMvCLSID);
   (PtMvBinary, KMvBinary); (PtUnspecified, KUnspecified);
   (PtRestriction, KRestriction); (PtActions, KActions)].

Inductive res_kind :=
| RChildren | RNot | RComment | RContent | RProperty | RPropCompare | RBitmask | RSize
| RExist | RSub | RCount | RNull.

Definition res_table : list (Z * res_kind) :=
  [(0x00, RChildren); (0x01, RChildren); (0x02, RNot); (0x0A, RComment); (0x0C, RComment);
   (0x03, RContent); (0x04, RProperty); (0x05, RPropCompare); (0x06, RBitmask);
   (0x07, RSize); (0x08, RExist); (0x09, RSub); (0x0B, RCount); (0xFF, RNull)].

Inductive act_kind :=
| CMoveCopy | CReply | CForward | CDefer | CBounce | CTag | CNoData.

Definition act_table : list (Z * act_kind) :=
  [(0x01, CMoveCopy); (0x02, CMoveCopy); (0x03, CReply); (0x04, CReply); (0x07, CForward);
   (0x08, CForward); (0x05, CDefer); (0x06, CBounce); (0x09, CTag); (0x0A, CNoData);
   (0x0B, CNoData)].

Fixpoint table_get {K} (t : list (Z * K)) (code : Z) : option K :=
  match t with
  | [] => None
  | (c, k) :: t => if c =? code then Some k else table_get t code
  end.

(** [abkGated] *)
Definition abkGated (typ : Z) : bool :=
  (typ =? PtString8) || (typ =? PtUnicode) || (typ =? PtBinary) || IsMultivalue typ.

(** A multivalue instance is written as a single value of its base type. *)
Definition strip_mvi (typ : Z) : Z :=
  if Z.land typ MviFlag =? MviFlag then Z.ldiff typ MviFlag else typ.

(** ** The encoder *)

(** The address-book value-present prefix, or the instance bits stripped. *)
Definition push_gate (fl typ : Z) (v : any) (bare : Z -> push) : push :=
  if has_flag fl FlagABK && abkGated typ then
    match v with
    | ANil => push_Uint8 0
    | _ => push_Uint8 0xFF >> bare typ
    end
  else bare (strip_mvi typ).

(** [patchU16] *)
Definition patchU16 (offset : nat) (v : Z) (buf : bytes) : bytes :=
  take offset buf ++ le_bytes 2 v ++ drop (offset + 2) buf.

(** Reserve a 16-bit length, write the body, then patch the length in. *)
Definition push_patched (body : push) : push := fun buf =>
  match (push_Uint16 0 >> body) buf with
  | Err e => Err e
  | Ok buf' =>
      let size := len buf' - (len buf + 2) in
      if 0xFFFF <? size then Err ErrFormat else Ok (patchU16 (length buf) size buf')
  end.

Definition push_resCount (fl n : Z) : push :=
  if has_flag fl FlagWCount then push_Uint32 n
  else if 0xFFFF <? n then push_err ErrFormat else push_Uint16 n.

(** The guard of a list that must hold between one and [max] elements. *)
Definition nonempty_upto {A} (max : Z) (xs : list A) : bool :=
  negb (len xs =? 0) && negb (max <? len xs).

Definition push_reply (r : ReplyAction) : push :=
  push_Uint64 (rpTemplateFolderID r) >> push_Uint64 (rpTemplateMessageID r) >>
  push_GUID (rpTemplateGUID r).

(** [moveCopyAction] *)
Definition push_moveCopy (fl : Z) (m : MoveCopyAction) : push :=
  if mcSameStore m then
    push_Uint8 1 >> push_Uint16 1 >> push_Uint8 0 >>
    match mcFolderEID m with ASVREID s => push_SVREID s | _ => push_err ErrFormat end
  else
    push_Uint8 0 >>
    match mcStoreEID m with
    | None => push_err ErrFormat
    | Some se =>
        push_patched (push_StoreEntryID fl se) >>
        match mcFolderEID m with ABytes b => push_Bin fl b | _ => push_err ErrFormat end
    end.

(** [actionBlock] around the payload writer of its type *)
Definition push_actionBlock (b : ActionBlock) (data : push) : push :=
  push_patched (push_Uint8 (abType b) >> push_Uint32 (abFlavor b) >>
                push_Uint32 (abFlags b) >> data).

(** [PropValue] below the gate, [Restriction]'s payload and [actionData]. *)
Fixpoint push_bare (fl typ : Z) (v : any) {struct v} : push :=
  match table_get prop_table typ, v with
  | Some KNull, _ => push_nop
  | Some KSvrEID, ASVREID s => push_SVREID s
  | Some KShort, AInt16 x => push_Uint16 (u16 x)
  | Some KLong, AInt32 x => push_Uint32 (u32 x)
  | Some KError, AUint32 x => push_Uint32 x
  | Some KFloat, AFloat32 x => push_Float32 x
  | Some KDouble, AFloat64 x => push_Float64 x
  | Some KInt64, AInt64 x => push_Uint64 (u64 x)
  | Some KSysTime, AUint64 x => push_Uint64 x
  | Some KBoolean, ABool x => push_Bool x
  | Some KString8, AString s => push_String8 fl s
  | Some KUnicode, AString s => push_Unicode fl s
  | Some KCLSID, AGUID g => push_GUID g
  | Some KBinary, ABytes b => push_Bin fl b
  | Some KObject, v =>
      if has_flag fl FlagABK then push_nop
      else match v with ABytes b => push_Bin fl b | _ => push_err ErrFormat end
  | Some KMvShort, AInt16s l => push_counted32 (fun x => push_Uint16 (u16 x)) l
  | Some KMvLong, AInt32s l => push_counted32 (fun x => push_Uint32 (u32 x)) l
  | Some KMvInt64, AInt64s l => push_counted32 (fun x => push_Uint64 (u64 x)) l
  | Some KMvDouble, AFloat64s l => push_counted32 push_Float64 l
  | Some KMvSysTime, AUint64s l => push_counted32 push_Uint64 l
  | Some KMvFloat, AFloat32s l => push_counted32 push_Float32 l
  | Some KMvString8, AStrings l => push_counted32 (push_String8 fl) l
  | Some KMvUnicode, AStrings l => push_counted32 (push_Unicode fl) l
  | Some KMvCLSID, AGUIDs l => push_counted32 push_GUID l
  | Some KMvBinary, ABytess l => push_counted32 (push_Bin fl) l
  | Some KUnspecified, ATyped (mkTyped t x) =>
      push_Uint16 t >> push_gate fl t x (fun t' => push_bare fl t' x)
  | Some KRestriction, ARes (mkRes rt x) => push_Uint8 rt >> push_res fl rt x
  | Some KActions, AActions (mkRuleActions blocks) =>
      if negb (nonempty_upto 0xFFFF blocks) then push_err ErrFormat
      else push_Uint16 (len blocks) >>
           push_each (fun b => match b with
             | mkAction ty fv fg x =>
                 push_actionBlock (mkAction ty fv fg x) (push_act fl ty x)
             end) blocks
  | _, _ => push_err ErrFormat
  end

with push_res (fl rt : Z) (v : any) {struct v} : push :=
  let tagged tp :=
    match tp with
    | mkTagged tag x =>
        push_Uint32 tag >>
        push_gate fl (PropTag_Type tag) x (fun t => push_bare fl t x)
    end in
  match table_get res_table rt, v with
  | Some RChildren, ARess kids =>
      push_resCount fl (len kids) >>
      push_each (fun r => match r with mkRes t x => push_Uint8 t >> push_res fl t x end) kids
  | Some RNot, ARes (mkRes t x) => push_Uint8 t >> push_res fl t x
  | Some RComment, AComment (mkComment pvs inner) =>
      if negb (nonempty_upto 0xFF pvs) then push_err ErrFormat
      else push_Uint8 (len pvs) >> push_each tagged pvs >>
           match inner with
           | None => push_Uint8 0
           | Some (mkRes t x) => push_Uint8 1 >> push_Uint8 t >> push_res fl t x
           end
  | Some RContent, AContent (mkContent fz tag pv) =>
      push_Uint32 fz >> push_Uint32 tag >> tagged pv
  | Some RProperty, AProperty (mkProperty op tag pv) =>
      push_Uint8 op >> push_Uint32 tag >> tagged pv
  | Some RPropCompare, ACompare c =>
      push_Uint8 (pcRelop c) >> push_Uint32 (pcPropTag1 c) >> push_Uint32 (pcPropTag2 c)
  | Some RBitmask, ABitmask b =>
      push_Uint8 (bmRelop b) >> push_Uint32 (bmPropTag b) >> push_Uint32 (bmMask b)
  | Some RSize, ASize s =>
      push_Uint8 (szRelop s) >> push_Uint32 (szPropTag s) >> push_Uint32 (szSize s)
  | Some RExist, AExist e => push_Uint32 (exPropTag e)
  | Some RSub, ASub (mkSub so (mkRes t x)) =>
      push_Uint32 so >> push_Uint8 t >> push_res fl t x
  | Some RCount, ACount (mkCount c (mkRes t x)) =>
      push_Uint32 c >> push_Uint8 t >> push_res fl t x
  | Some RNull, _ => push_nop
  | _, _ => push_err ErrFormat
  end

with push_act (fl ty : Z) (v : any) {struct v} : push :=
  let tagged tp :=
    match tp with
    | mkTagged tag x =>
        push_Uint32 tag >>
        push_gate fl (PropTag_Type tag) x (fun t => push_bare fl t x)
    end in
  match table_get act_table ty, v with
  | Some CMoveCopy, AMoveCopy m => push_moveCopy fl m
  | Some CReply, AReply r => push_reply r
  | Some CForward, AForward (mkForward rcpts) =>
      if negb (nonempty_upto 0xFFFF rcpts) then push_err ErrFormat
      else push_Uint16 (len rcpts) >>
           push_each (fun rb => match rb with
             | mkRecipient pvs =>
                 if negb (nonempty_upto 0xFFFF pvs) then push_err ErrFormat
                 else push_Uint8 0 >> push_Uint16 (len pvs) >> push_each tagged pvs
             end) rcpts
  | Some CDefer, ABytes b => push_Raw b
  | Some CBounce, AUint32 code => push_Uint32 code
  | Some CTag, ATagged tp => tagged tp
  | Some CNoData, _ => push_nop
  | _, _ => push_err ErrFormat
  end.

(** The entry points of the encoder. *)
Definition push_PropValue (fl typ : Z) (v : any) : push :=
  push_gate fl typ v (fun t => push_bare fl t v).
Definition push_TypedPropVal (fl : Z) (t : TypedPropVal) : push :=
  push_Uint16 (tyType t) >> push_PropValue fl (tyType t) (tyValue t).
Definition push_TaggedPropVal (fl : Z) (tp : TaggedPropVal) : push :=
  push_Uint32 (tpTag tp) >> push_PropValue fl (PropTag_Type (tpTag tp)) (tpValue tp).
Definition push_Restriction (fl : Z) (r : Restriction) : push :=
  push_Uint8 (resType r) >> push_res fl (resType r) (resValue r).
Definition push_RuleActions (fl : Z) (r : RuleActions) : push :=
  push_bare fl PtActions (AActions r).
Definition push_PropertyValues (fl : Z) (pv : PropertyValues) : push :=
  push_counted16 (push_TaggedPropVal fl) pv.
Definition push_PropertyValuesLong (fl : Z) (pv : PropertyValues) : push :=
  push_counted32 (push_TaggedPropVal fl) pv.
Definition push_TArraySet (fl : Z) (rows : list PropertyValues) : push :=
  push_counted32 (push_PropertyValues fl) rows.

Definition FlaggedAvailable : Z := 0x0.
Definition FlaggedUnavailable : Z := 0x1.
Definition FlaggedError : Z := 0xA.

(** The payload after the flag byte, once the type is settled. *)
Definition push_flagged_body (fl typ : Z) (r : FlaggedPropVal) : push :=
  push_Uint8 (fpFlag r) >>
  if fpFlag r =? FlaggedAvailable then push_PropValue fl typ (fpValue r)
  else if fpFlag r =? FlaggedUnavailable then push_nop
  else if fpFlag r =? FlaggedError then
    match fpValue r with AUint32 ec => push_Uint32 ec | _ => push_err ErrFormat end
  else push_err ErrFormat.

Definition push_FlaggedPropVal (fl tag : Z) (r : FlaggedPropVal) : push :=
  let typ := PropTag_Type tag in
  if typ =? PtUnspecified then
    if has_flag fl FlagABK then push_err ErrFormat
    else
      let typ := if fpFlag r =? FlaggedUnavailable then 0
                 else if fpFlag r =? FlaggedError then PtError else fpType r in
      push_Uint16 typ >> push_flagged_body fl typ r
  else push_flagged_body fl typ r.

(** ** The decoder *)

Definition maxTypedValDepth : Z := 100.
Definition maxRestrictionDepth : Z := 100.

Section decoder.
(** The recursive reads, as the tables reach them: a value of a given type and a
    restriction.  [vd] and [rd] are the depth counters [valDepth] and [resDepth],
    restored by the deferred decrement when a read returns. *)
Context (fl : Z).
Context (rv : forall vd rd typ : Z, pull any) (rr : forall vd rd : Z, pull Restriction).

Definition pull_tagged (vd rd : Z) : pull TaggedPropVal :=
  tag <- pull_Uint32 ;; v <- rv vd rd (PropTag_Type tag) ;; pull_ret (mkTagged tag v).

Definition pull_typed (vd rd : Z) : pull TypedPropVal :=
  if maxTypedValDepth <? vd + 1 then pull_err errTypedValTooDeep
  else t <- pull_Uint16 ;; v <- rv (vd + 1) rd t ;; pull_ret (mkTyped t v).

Definition pull_resCount : pull Z :=
  if has_flag fl FlagWCount then pull_Uint32 else pull_Uint16.

Definition pull_relopTagValue : pull (Z * Z * Z) :=
  op <- pull_Uint8 ;; tag <- pull_Uint32 ;; v <- pull_Uint32 ;; pull_ret (op, tag, v).

(** [pullResComment]: the count is a byte, so it is not checked against the rest *)
Definition pull_resComment (vd rd : Z) : pull any :=
  count <- pull_Uint8 ;;
  if count =? 0 then pull_err ErrFormat
  else
    pvs <- pull_times (Z.to_nat count) (pull_tagged vd rd) ;;
    present <- pull_Uint8 ;;
    if present =? 0 then pull_ret (AComment (mkComment pvs None))
    else inner <- rr vd rd ;; pull_ret (AComment (mkComment pvs (Some inner))).

(** [restrictionReaders] *)
Definition pull_resPayload (vd rd rt : Z) : pull any :=
  match table_get res_table rt with
  | Some RChildren =>
      n <- pull_resCount ;; kids <- pull_elems n (rr vd rd) ;; pull_ret (ARess kids)
  | Some RNot => r <- rr vd rd ;; pull_ret (ARes r)
  | Some RComment => pull_resComment vd rd
  | Some RContent =>
      fz <- pull_Uint32 ;; tag <- pull_Uint32 ;; pv <- pull_tagged vd rd ;;
      pull_ret (AContent (mkContent fz tag pv))
  | Some RProperty =>
      op <- pull_Uint8 ;; tag <- pull_Uint32 ;; pv <- pull_tagged vd rd ;;
      pull_ret (AProperty (mkProperty op tag pv))
  | Some RPropCompare =>
      op <- pull_Uint8 ;; t1 <- pull_Uint32 ;; t2 <- pull_Uint32 ;;
      pull_ret (ACompare (mkCompare op t1 t2))
  | Some RBitmask =>
      x <- pull_relopTagValue ;;
      let '(op, tag, mask) := x in pull_ret (ABitmask (mkBitmask op tag mask))
  | Some RSize =>
      x <- pull_relopTagValue ;;
      let '(op, tag, size) := x in pull_ret (ASize (mkSize op tag size))
  | Some RExist => tag <- pull_Uint32 ;; pull_ret (AExist (mkExist tag))
  | Some RSub =>
      so <- pull_Uint32 ;; r <- rr vd rd ;; pull_ret (ASub (mkSub so r))
  | Some RCount =>
      c <- pull_Uint32 ;; r <- rr vd rd ;; pull_ret (ACount (mkCount c r))
  | Some RNull => pull_ret ANil
  | None => pull_err ErrFormat
  end.

(** [Pull.Restriction] *)
Definition pull_resNode (vd rd : Z) : pull Restriction :=
  if maxRestrictionDepth <? rd + 1 then pull_err errRestrictionTooDeep
  else rt <- pull_Uint8 ;; v <- pull_resPayload vd (rd + 1) rt ;; pull_ret (mkRes rt v).

Definition pull_moveCopy : pull MoveCopyAction :=
  ss <- pull_Uint8 ;; eidSize <- pull_Uint16 ;;
  if negb (ss =? 0) then
    _ <- pull_Raw eidSize ;; svr <- pull_SVREID ;;
    pull_ret (mkMoveCopy true None (ASVREID svr))
  else
    se <- pull_StoreEntryID ;; bin <- pull_Bin fl ;;
    pull_ret (mkMoveCopy false (Some se) (ABytes bin)).

Definition pull_reply : pull ReplyAction :=
  f <- pull_Uint64 ;; m <- pull_Uint64 ;; g <- pull_GUID ;; pull_ret (mkReply f m g).

Definition pull_recipientBlock (vd rd : Z) : pull RecipientBlock :=
  _ <- pull_Uint8 ;; count <- pull_Uint16 ;;
  if count =? 0 then pull_err ErrFormat
  else pvs <- pull_elems count (pull_tagged vd rd) ;; pull_ret (mkRecipient pvs).

Definition pull_forwardDelegate (vd rd : Z) : pull ForwardDelegateAction :=
  count <- pull_Uint16 ;;
  if count =? 0 then pull_err ErrFormat
  else rs <- pull_elems count (pull_recipientBlock vd rd) ;; pull_ret (mkForward rs).

(** [actionReaders]; only the deferred action needs the block length *)
Definition pull_actData (vd rd ty length : Z) : pull any :=
  match table_get act_table ty with
  | Some CMoveCopy => m <- pull_moveCopy ;; pull_ret (AMoveCopy m)
  | Some CReply => r <- pull_reply ;; pull_ret (AReply r)
  | Some CForward => f <- pull_forwardDelegate vd rd ;; pull_ret (AForward f)
  | Some CDefer =>
      if length <? 9 then pull_err ErrFormat
      else b <- pull_Raw (length - 9) ;; pull_ret (ABytes b)
  | Some CBounce => c <- pull_Uint32 ;; pull_ret (AUint32 c)
  | Some CTag => t <- pull_tagged vd rd ;; pull_ret (ATagged t)
  | Some CNoData => pull_ret ANil
  | None => pull_err ErrFormat
  end.

Definition pull_actionBlock (vd rd : Z) : pull ActionBlock :=
  length <- pull_Uint16 ;; ty <- pull_Uint8 ;; fv <- pull_Uint32 ;; fg <- pull_Uint32 ;;
  d <- pull_actData vd rd ty length ;; pull_ret (mkAction ty fv fg d).

Definition pull_ruleActions (vd rd : Z) : pull RuleActions :=
  count <- pull_Uint16 ;;
  if count =? 0 then pull_err ErrFormat
  else bs <- pull_elems count (pull_actionBlock vd rd) ;; pull_ret (mkRuleActions bs).

(** [pullMV] *)
Definition pull_mv {A} (r : pull A) (mk : list A -> any) : pull any :=
  n <- pull_Uint32 ;; xs <- pull_elems n r ;; pull_ret (mk xs).

Definition pull_signed (w : Z) (r : pull Z) : pull Z := v <- r ;; pull_ret (signed w v).

(** [propReaders] *)
Definition pull_bare (vd rd typ : Z) : pull any :=
  match table_get prop_table typ with
  | Some KNull => pull_ret ANil
  | Some KSvrEID => s <- pull_SVREID ;; pull_ret (ASVREID s)
  | Some KShort => x <- pull_signed 16 pull_Uint16 ;; pull_ret (AInt16 x)
  | Some KLong => x <- pull_signed 32 pull_Uint32 ;; pull_ret (AInt32 x)
  | Some KError => x <- pull_Uint32 ;; pull_ret (AUint32 x)
  | Some KFloat => x <- pull_Float32 ;; pull_ret (AFloat32 x)
  | Some KDouble => x <- pull_Float64 ;; pull_ret (AFloat64 x)
  | Some KInt64 => x <- pull_signed 64 pull_Uint64 ;; pull_ret (AInt64 x)
  | Some KSysTime => x <- pull_Uint64 ;; pull_ret (AUint64 x)
  | Some KBoolean => x <- pull_Bool ;; pull_ret (ABool x)
  | Some KString8 => s <- pull_String8 ;; pull_ret (AString s)
  | Some KUnicode => s <- pull_Unicode fl ;; pull_ret (AString s)
  | Some KCLSID => g <- pull_GUID ;; pull_ret (AGUID g)
  | Some KBinary => b <- pull_Bin fl ;; pull_ret (ABytes b)
  | Some KObject =>
      if has_flag fl FlagABK then pull_ret ANil else b <- pull_Bin fl ;; pull_ret (ABytes b)
  | Some KMvShort => pull_mv (pull_signed 16 pull_Uint16) AInt16s
  | Some KMvLong => pull_mv (pull_signed 32 pull_Uint32) AInt32s
  | Some KMvInt64 => pull_mv (pull_signed 64 pull_Uint64) AInt64s
  | Some KMvDouble => pull_mv pull_Float64 AFloat64s
  | Some KMvSysTime => pull_mv pull_Uint64 AUint64s
  | Some KMvFloat => pull_mv pull_Float32 AFloat32s
  | Some KMvString8 => pull_mv pull_String8 AStrings
  | Some KMvUnicode => pull_mv (pull_Unicode fl) AStrings
  | Some KMvCLSID => pull_mv pull_GUID AGUIDs
  | Some KMvBinary => pull_mv (pull_Bin fl) ABytess
  | Some KUnspecified => t <- pull_typed vd rd ;; pull_ret (ATyped t)
  | Some KRestriction => r <- pull_resNode vd rd ;; pull_ret (ARes r)
  | Some KActions => r <- pull_ruleActions vd rd ;; pull_ret (AActions r)
  | None => pull_err ErrFormat
  end.

(** [Pull.PropValue] *)
Definition pull_gated (vd rd typ : Z) : pull any :=
  if has_flag fl FlagABK && abkGated typ then
    valueSet <- pull_Uint8 ;;
    if valueSet =? 0 then pull_ret ANil
    else if negb (valueSet =? 0xFF) then pull_err ErrFormat
    else pull_bare vd rd typ
  else pull_bare vd rd (strip_mvi typ).
End decoder.

(** The knot, tied on fuel. *)
Fixpoint pull_value (fuel : nat) (fl vd rd typ : Z) : pull any :=
  match fuel with
  | O => pull_err OutOfFuel
  | S n => pull_gated fl (pull_value n fl) (pull_restriction n fl) vd rd typ
  end
with pull_restriction (fuel : nat) (fl vd rd : Z) : pull Restriction :=
  match fuel with
  | O => pull_err OutOfFuel
  | S n => pull_resNode fl (pull_value n fl) (pull_restriction n fl) vd rd
  end.

(** Entry points: the fuel is one more than the unread bytes. *)
Definition with_fuel {A} (r : nat -> pull A) : pull A := fun b => r (S (length b)) b.

Definition pull_PropValue (fl typ : Z) : pull any :=
  with_fuel (fun n => pull_value n fl 0 0 typ).
Definition pull_Restriction (fl : Z) : pull Restriction :=
  with_fuel (fun n => pull_restriction n fl 0 0).
Definition pull_TypedPropVal (fl : Z) : pull TypedPropVal :=
  with_fuel (fun n => pull_typed (pull_value n fl) 0 0).
Definition pull_TaggedPropVal (fl : Z) : pull TaggedPropVal :=
  with_fuel (fun n => pull_tagged (pull_value n fl) 0 0).
Definition pull_RuleActions (fl : Z) : pull RuleActions :=
  with_fuel (fun n => pull_ruleActions fl (pull_value n fl) 0 0).

Definition pull_propertyValues (fl : Z) (n : nat) : pull PropertyValues :=
  c <- pull_Uint16 ;; pull_elems c (pull_tagged (pull_value n fl) 0 0).
Definition pull_PropertyValues (fl : Z) : pull PropertyValues :=
  with_fuel (pull_propertyValues fl).
Definition pull_PropertyValuesLong (fl : Z) : pull PropertyValues :=
  with_fuel (fun n => c <- pull_Uint32 ;; pull_elems_nil c (pull_tagged (pull_value n fl) 0 0)).
Definition pull_TArraySet (fl : Z) : pull (list PropertyValues) :=
  with_fuel (fun n => c <- pull_Uint32 ;; pull_elems_nil c (pull_propertyValues fl n)).

Definition pull_FlaggedPropVal (fl typ : Z) : pull FlaggedPropVal :=
  with_fuel (fun n =>
    typ' <- (if typ =? PtUnspecified then pull_Uint16 else pull_ret typ) ;;
    let rtype := if typ =? PtUnspecified then typ' else 0 in
    flag <- pull_Uint8 ;;
    if flag =? FlaggedAvailable then
      v <- pull_value n fl 0 0 typ' ;; pull_ret (mkFlagged flag rtype v)
    else if flag =? FlaggedUnavailable then pull_ret (mkFlagged flag rtype ANil)
    else if flag =? FlaggedError then
      ec <- pull_Uint32 ;; pull_ret (mkFlagged flag rtype (AUint32 ec))
    else pull_err ErrFormat).
