(* ===== verification/ExtValProofs.v ===== *)
(** * The property-value codec: round trips, termination, depth and count bounds

    [value_ok] says which values the wire carries without loss; [value_codec] is the
    round trip for all of them, by induction over the value; the reads are total
    because the fuel never runs out; and whatever bytes a peer sends, the depth of a
    decoded value is bounded by the two counters. *)

From stdpp Require Import base list numbers.
From Stdlib Require Import ZArith Lia.
From S2P Require Import Prelude Utf Mapi Wire ExtVal.
Open Scope Z_scope.
Open Scope wire_scope.

(** ** Values the wire carries without loss *)

Definition gate_ok (fl typ : Z) (v : any) (bare : Z -> bool) : bool :=
  if has_flag fl FlagABK && abkGated typ then
    match v with ANil => true | _ => bare typ end
  else bare (strip_mvi typ).

(** The bytes a writer appends, or more than any length field holds when it fails. *)
Definition written (w : push) : Z :=
  match w [] with Ok b => len b | Err _ => 2 ^ 40 end.

Definition is_nil (v : any) : bool := match v with ANil => true | _ => false end.

Definition mv_ok {A} (ok : A -> bool) (l : list A) : bool := (len l <? 2 ^ 32) && forallb ok l.

(** The payload forms that lose a field on the wire are excluded: a same-store move
    carries no store entry id, a wrapped one carries it in the inline form. *)
Definition moveCopy_ok (fl : Z) (m : MoveCopyAction) : bool :=
  if mcSameStore m then
    match mcStoreEID m, mcFolderEID m with
    | None, ASVREID s => svreid_ok s
    | _, _ => false
    end
  else
    match mcStoreEID m, mcFolderEID m with
    | Some se, ABytes b =>
        store_eid_ok fl se && (written (push_StoreEntryID fl se) <=? 0xFFFF) && bin_ok fl b
    | _, _ => false
    end.

Definition reply_ok (r : ReplyAction) : bool :=
  inU 64 (rpTemplateFolderID r) && inU 64 (rpTemplateMessageID r) && guid_wire_ok (rpTemplateGUID r).

Definition rescount_ok (fl n : Z) : bool :=
  n <? (if has_flag fl FlagWCount then 2 ^ 32 else 2 ^ 16).

Fixpoint bare_ok (fl vd rd typ : Z) (v : any) {struct v} : bool :=
  match table_get prop_table typ, v with
  | Some KNull, v => is_nil v
  | Some KSvrEID, ASVREID s => svreid_ok s
  | Some KShort, AInt16 x => inS 16 x
  | Some KLong, AInt32 x => inS 32 x
  | Some KError, AUint32 x => inU 32 x
  | Some KFloat, AFloat32 x => inU 32 x
  | Some KDouble, AFloat64 x => inU 64 x
  | Some KInt64, AInt64 x => inS 64 x
  | Some KSysTime, AUint64 x => inU 64 x
  | Some KBoolean, ABool x => true
  | Some KString8, AString s => string8_ok fl s
  | Some KUnicode, AString s => unicode_ok fl s
  | Some KCLSID, AGUID g => guid_wire_ok g
  | Some KBinary, ABytes b => bin_ok fl b
  | Some KObject, v =>
      if has_flag fl FlagABK then is_nil v
      else match v with ABytes b => bin_ok fl b | _ => false end
  | Some KMvShort, AInt16s l => mv_ok (inS 16) l
  | Some KMvLong, AInt32s l => mv_ok (inS 32) l
  | Some KMvInt64, AInt64s l => mv_ok (inS 64) l
  | Some KMvDouble, AFloat64s l => mv_ok (inU 64) l
  | Some KMvSysTime, AUint64s l => mv_ok (inU 64) l
  | Some KMvFloat, AFloat32s l => mv_ok (inU 32) l
  | Some KMvString8, AStrings l => mv_ok (string8_ok fl) l
  | Some KMvUnicode, AStrings l => mv_ok (unicode_ok fl) l
  | Some KMvCLSID, AGUIDs l => mv_ok guid_wire_ok l
  | Some KMvBinary, ABytess l => mv_ok (bin_ok fl) l
  | Some KUnspecified, ATyped (mkTyped t x) =>
      (vd <? maxTypedValDepth) && inU 16 t
      && gate_ok fl t x (fun t' => bare_ok fl (vd + 1) rd t' x)
  | Some KRestriction, ARes (mkRes rt x) =>
      (rd <? maxRestrictionDepth) && inU 8 rt && res_ok fl vd (rd + 1) rt x
  | Some KActions, AActions (mkRuleActions blocks) =>
      nonempty_upto 0xFFFF blocks
      && forallb (fun b => match b with
           | mkAction ty fv fg x =>
               inU 8 ty && inU 32 fv && inU 32 fg && act_ok fl vd rd ty x
               && (9 + written (push_act fl ty x) <=? 0xFFFF)
           end) blocks
  | _, _ => false
  end

with res_ok (fl vd rd rt : Z) (v : any) {struct v} : bool :=
  let tagged tp :=
    match tp with
    | mkTagged tag x =>
        inU 32 tag && gate_ok fl (PropTag_Type tag) x (fun t => bare_ok fl vd rd t x)
    end in
  let child r :=
    match r with
    | mkRes t x => (rd <? maxRestrictionDepth) && inU 8 t && res_ok fl vd (rd + 1) t x
    end in
  match table_get res_table rt, v with
  | Some RChildren, ARess kids => rescount_ok fl (len kids) && forallb child kids
  | Some RNot, ARes r => child r
  | Some RComment, AComment (mkComment pvs inner) =>
      nonempty_upto 0xFF pvs && forallb tagged pvs
      && match inner with None => true | Some r => child r end
  | Some RContent, AContent (mkContent fz tag pv) => inU 32 fz && inU 32 tag && tagged pv
  | Some RProperty, AProperty (mkProperty op tag pv) => inU 8 op && inU 32 tag && tagged pv
  | Some RPropCompare, ACompare c =>
      inU 8 (pcRelop c) && inU 32 (pcPropTag1 c) && inU 32 (pcPropTag2 c)
  | Some RBitmask, ABitmask b => inU 8 (bmRelop b) && inU 32 (bmPropTag b) && inU 32 (bmMask b)
  | Some RSize, ASize s => inU 8 (szRelop s) && inU 32 (szPropTag s) && inU 32 (szSize s)
  | Some RExist, AExist e => inU 32 (exPropTag e)
  | Some RSub, ASub (mkSub so r) => inU 32 so && child r
  | Some RCount, ACount (mkCount c r) => inU 32 c && child r
  | Some RNull, v => is_nil v
  | _, _ => false
  end

with act_ok (fl vd rd ty : Z) (v : any) {struct v} : bool :=
  let tagged tp :=
    match tp with
    | mkTagged tag x =>
        inU 32 tag && gate_ok fl (PropTag_Type tag) x (fun t => bare_ok fl vd rd t x)
    end in
  match table_get act_table ty, v with
  | Some CMoveCopy, AMoveCopy m => moveCopy_ok fl m
  | Some CReply, AReply r => reply_ok r
  | Some CForward, AForward (mkForward rcpts) =>
      nonempty_upto 0xFFFF rcpts
      && forallb (fun rb => match rb with
           | mkRecipient pvs => nonempty_upto 0xFFFF pvs && forallb tagged pvs
           end) rcpts
  | Some CDefer, ABytes b => true
  | Some CBounce, AUint32 code => inU 32 code
  | Some CTag, ATagged tp => tagged tp
  | Some CNoData, v => is_nil v
  | _, _ => false
  end.

Definition value_ok (fl typ : Z) (v : any) : bool :=
  gate_ok fl typ v (fun t => bare_ok fl 0 0 t v).
Definition tagged_ok (fl : Z) (tp : TaggedPropVal) : bool :=
  inU 32 (tpTag tp) && value_ok fl (PropTag_Type (tpTag tp)) (tpValue tp).
Definition restriction_ok (fl : Z) (r : Restriction) : bool :=
  inU 8 (resType r) && res_ok fl 0 1 (resType r) (resValue r).

(** ** The three codecs and how they nest *)

Definition bare_codec (fl : Z) (v : any) : Prop := forall vd rd typ,
  bare_ok fl vd rd typ v = true ->
  codec 0 (push_bare fl typ v)
    (fun n => pull_bare fl (pull_value (pred n) fl) (pull_restriction (pred n) fl) vd rd typ) v.

Definition res_codec (fl : Z) (v : any) : Prop := forall vd rd rt,
  res_ok fl vd rd rt v = true ->
  codec 0 (push_res fl rt v)
    (fun n => pull_resPayload fl (pull_value n fl) (pull_restriction n fl) vd rd rt) v.

Definition act_codec (fl : Z) (v : any) : Prop := forall vd rd ty length,
  act_ok fl vd rd ty v = true -> 9 + written (push_act fl ty v) = length ->
  codec 0 (push_act fl ty v) (fun n => pull_actData fl (pull_value n fl) vd rd ty length) v.

Definition all_codecs (fl : Z) (v : any) : Prop :=
  bare_codec fl v /\ res_codec fl v /\ act_codec fl v.

Lemma value_codec fl v vd rd typ :
  bare_codec fl v -> gate_ok fl typ v (fun t => bare_ok fl vd rd t v) = true ->
  codec 0 (push_gate fl typ v (fun t => push_bare fl t v))
    (fun n => pull_value n fl vd rd typ) v.
Proof.
  intros Hb Hok.
  apply codec_ext with (r := fun n =>
    pull_gated fl (pull_value (pred n) fl) (pull_restriction (pred n) fl) vd rd typ).
  { by intros [|n] b Hn; [lia|]. }
  unfold push_gate, gate_ok, pull_gated in *.
  destruct (has_flag fl FlagABK && abkGated typ); [|by apply Hb].
  destruct (is_nil v) eqn:En.
  - destruct v; try discriminate. eapply codec_weaken; [|apply Nat.le_0_l].
    replace (push_Uint8 0) with (push_Uint8 0) by done.
    destruct (codec_u8 0 eq_refl) as (bs & L & W & R).
    exists bs. split; [apply L|]. split; [done|]. intros n rest Hn. unfold pull_bind.
    by rewrite (R n).
  - replace (match v with ANil => push_Uint8 0 | _ => push_Uint8 0xFF >> push_bare fl typ v end)
      with (push_Uint8 0xFF >> push_bare fl typ v) by by destruct v.
    assert (Hok' : bare_ok fl vd rd typ v = true) by by destruct v.
    eapply codec_weaken; [eapply codec_bind; [by apply codec_u8|]|apply Nat.le_0_l].
    cbv beta. by apply Hb.
Qed.

Lemma tagged_codec fl vd rd tag x :
  bare_codec fl x ->
  inU 32 tag && gate_ok fl (PropTag_Type tag) x (fun t => bare_ok fl vd rd t x) = true ->
  codec 4 (push_Uint32 tag >> push_gate fl (PropTag_Type tag) x (fun t => push_bare fl t x))
    (fun n => pull_tagged (pull_value n fl) vd rd) (mkTagged tag x).
Proof.
  intros Hx Hok. bsplit. unfold pull_tagged. change 4%nat with (4 + 0)%nat.
  eapply codec_bind; [by apply codec_u32|]. eapply codec_map_eq; [by apply value_codec|done].
Qed.

Lemma node_codec fl vd rd t x :
  res_codec fl x ->
  (rd <? maxRestrictionDepth) && inU 8 t && res_ok fl vd (rd + 1) t x = true ->
  codec 1 (push_Uint8 t >> push_res fl t x)
    (fun n => pull_resNode fl (pull_value (pred n) fl) (pull_restriction (pred n) fl) vd rd)
    (mkRes t x).
Proof.
  intros Hx Hok. bprop. unfold pull_resNode.
  destruct (Z.ltb_spec maxRestrictionDepth (rd + 1)); [lia|].
  change 1%nat with (1 + 0)%nat.
  apply codec_bind_pred with (x := t)
    (r2 := fun rt m => v <- pull_resPayload fl (pull_value m fl) (pull_restriction m fl) vd (rd + 1) rt ;;
                       pull_ret (mkRes rt v)).
  - by apply codec_u8, inU_spec.
  - eapply codec_map_eq; [by apply Hx|done].
Qed.

Lemma child_codec fl vd rd t x :
  res_codec fl x ->
  (rd <? maxRestrictionDepth) && inU 8 t && res_ok fl vd (rd + 1) t x = true ->
  codec 1 (push_Uint8 t >> push_res fl t x) (fun n => pull_restriction n fl vd rd) (mkRes t x).
Proof.
  intros Hx Hok. eapply codec_ext; [|by apply node_codec].
  intros [|n] b Hn; [lia|done].
Qed.

Lemma codec_written {A} k w (r : nat -> pull A) x :
  codec k w r x -> exists bs, (forall buf, w buf = Ok (buf ++ bs)) /\ written w = len bs.
Proof. intros (bs & _ & W & _). exists bs. split; [done|]. unfold written. by rewrite W. Qed.

Lemma codec_patched {A} k w (r : Z -> nat -> pull A) x :
  codec k w (r (written w)) x -> written w <= 0xFFFF ->
  codec (2 + k) (push_patched w) (fun n => l <- pull_Uint16 ;; r l n) x.
Proof.
  intros (bs & L & W & R) Hw. assert (E : written w = len bs) by (unfold written; by rewrite W).
  rewrite E in *. pose proof (len_nonneg bs).
  destruct (codec_u16 (len bs) ltac:(apply inU_spec; lia)) as (b2 & L2 & W2 & R2).
  assert (b2 = le_bytes 2 (len bs)) as -> by (specialize (W2 []); by injection W2).
  exists (le_bytes 2 (len bs) ++ bs). rewrite length_app, length_le_bytes. split; [lia|]. split.
  - intros buf. unfold push_patched, push_seq, push_Uint16, push_Raw. cbn [rbind]. rewrite W.
    assert (len ((buf ++ le_bytes 2 0) ++ bs) - (len buf + 2) = len bs) as ->
      by (unfold len; rewrite !length_app, length_le_bytes; lia).
    cbv zeta.
    destruct (Z.ltb_spec 0xFFFF (len bs)); [lia|]. f_equal. unfold patchU16.
    rewrite (drop_app_length' (buf ++ le_bytes 2 0))
      by (rewrite length_app, length_le_bytes; lia).
    rewrite <- app_assoc. by rewrite take_app_length.
  - intros n rest Hn. unfold pull_bind. rewrite <- app_assoc, (R2 (S n)) by (rewrite length_le_bytes; lia).
    by rewrite R by lia.
Qed.

Lemma Forall_map_inv {A B} (P : B -> Prop) (f : A -> B) l :
  Forall P (map f l) -> Forall (fun a => P (f a)) l.
Proof. by rewrite List.Forall_map. Qed.

(** Elementwise codecs from the induction hypothesis and the boolean check. *)
Lemma Forall_codecs {A} (f : A -> any) (P : any -> Prop) (ok : A -> bool) (Q : A -> Prop) l :
  (forall a, P (f a) -> ok a = true -> Q a) ->
  Forall P (map f l) -> forallb ok l = true -> Forall Q l.
Proof.
  intros H HP Hok. apply Forall_map_inv in HP. apply forallb_Forall in Hok.
  rewrite Forall_forall in *. eauto.
Qed.

Lemma codec_mv {A} k (ok : A -> bool) (w : A -> push) (r : pull A) mk l :
  (forall x, ok x = true -> codec (S k) (w x) (fun _ => r) x) ->
  mv_ok ok l = true ->
  codec 0 (push_counted32 w l) (fun _ => pull_mv r mk) (mk l).
Proof.
  intros Hok H. unfold mv_ok in H. unfold pull_mv, push_counted32. bprop.
  pose proof (len_nonneg l).
  eapply codec_weaken; [eapply codec_bind; [by apply codec_u32, inU_spec|]|apply Nat.le_0_l].
  eapply codec_map_eq; [|done]. apply (codec_elems k w (fun _ => r)).
  eapply List.Forall_impl; [exact Hok | by apply forallb_Forall].
Qed.

Lemma codec_signed w m wr (r : pull Z) k x :
  w = 16 \/ w = 32 \/ w = 64 -> inS w x = true -> m = x mod 2 ^ w ->
  (inU w m = true -> codec k wr (fun _ => r) m) -> codec k wr (fun _ => pull_signed w r) x.
Proof.
  intros Hw Hx -> H. unfold pull_signed. eapply codec_map_eq.
  - apply H. apply inU_spec. apply Z.mod_pos_bound. apply Z.pow_pos_nonneg; lia.
  - apply signed_mod; [lia|done].
Qed.

#[local] Hint Resolve codec_u8 codec_u16 codec_u32 codec_u64 codec_bool codec_string8
  codec_unicode codec_guid codec_bin codec_svreid : core.

Lemma codec_weaken0 {A} k w (r : nat -> pull A) x : codec k w r x -> codec 0 w r x.
Proof. intros. eapply codec_weaken; [done|lia]. Qed.

Lemma codec_int w x (b : nat) :
  w = 8 * Z.of_nat b -> w = 16 \/ w = 32 \/ w = 64 -> inS w x = true ->
  codec b (push_Raw (le_bytes b (x mod 2 ^ w)))
    (fun _ => pull_signed w (y <- pull_Raw (Z.of_nat b) ;; pull_ret (le_value y))) x.
Proof.
  intros Hb Hw Hx. eapply codec_signed; [done..|]. intros Hm. apply inU_spec in Hm.
  apply codec_le; [by rewrite <- Hb|done].
Qed.

Lemma codec_s16 x : inS 16 x = true ->
  codec 2 (push_Uint16 (u16 x)) (fun _ => pull_signed 16 pull_Uint16) x.
Proof. intros. apply (codec_int 16 x 2); auto. Qed.
Lemma codec_s32 x : inS 32 x = true ->
  codec 4 (push_Uint32 (u32 x)) (fun _ => pull_signed 32 pull_Uint32) x.
Proof. intros. apply (codec_int 32 x 4); auto. Qed.
Lemma codec_s64 x : inS 64 x = true ->
  codec 8 (push_Uint64 (u64 x)) (fun _ => pull_signed 64 pull_Uint64) x.
Proof. intros. apply (codec_int 64 x 8); auto. Qed.
#[local] Hint Resolve codec_s16 codec_s32 codec_s64 : core.

(** Solve a scalar or multivalue entry of the property table. *)
Ltac scalar_entry := eapply codec_weaken0, codec_map_eq; [by auto | reflexivity].
Ltac mv_entry := eapply codec_mv; [intros; by eauto | done].

Lemma actions_codec fl vd rd blocks :
  Forall (act_codec fl) (map abData blocks) ->
  nonempty_upto 0xFFFF blocks = true ->
  forallb (fun b => match b with
    | mkAction ty fv fg x =>
        inU 8 ty && inU 32 fv && inU 32 fg && act_ok fl vd rd ty x
        && (9 + written (push_act fl ty x) <=? 0xFFFF) end) blocks = true ->
  codec 13
    (push_Uint16 (len blocks) >> push_each (fun b => match b with
       | mkAction ty fv fg x => push_actionBlock (mkAction ty fv fg x) (push_act fl ty x) end) blocks)
    (fun n => pull_ruleActions fl (pull_value (pred n) fl) vd rd) (mkRuleActions blocks).
Proof.
  intros IH Hne Hok. unfold nonempty_upto in Hne. bprop. unfold pull_ruleActions.
  assert (L : (1 <= length blocks)%nat) by (unfold len in *; lia).
  eapply codec_weaken.
  - apply codec_bind_pred with (x := len blocks) (k1 := 1%nat) (k2 := (11 * length blocks)%nat)
      (r2 := fun c m => if c =? 0 then pull_err ErrFormat else
        bs <- pull_elems c (pull_actionBlock fl (pull_value m fl) vd rd) ;; pull_ret (mkRuleActions bs)).
    + apply codec_u16, inU_spec. pose proof (len_nonneg blocks). lia.
    + destruct (Z.eqb_spec (len blocks) 0); [lia|]. eapply codec_map_eq; [|done].
      unfold pull_elems, len. rewrite Nat2Z.id. apply (codec_check _ (Z.of_nat (length blocks)) _
           (fun m => pull_times (length blocks) (pull_actionBlock fl (pull_value m fl) vd rd))); [lia|].
      apply codec_each.
      eapply Forall_codecs; [|exact IH|exact Hok]. clear. intros [ty fv fg x] Hx Hok. cbn in Hx.
      bprop. unfold push_actionBlock, pull_actionBlock. cbn [abType abFlavor abFlags].
      set (data := push_act fl ty x) in *.
      pose proof (Hx vd rd ty (9 + written data) ltac:(done) eq_refl) as Hd.
      destruct (codec_written _ _ _ _ Hd) as (bs & W & E).
      assert (Ew : written (push_Uint8 ty >> push_Uint32 fv >> push_Uint32 fg >> data)
                   = 9 + written data).
      { unfold written at 1, push_seq, push_Uint8, push_Uint32, push_Raw. cbn [rbind app].
        fold data in W, E. rewrite W, E, !len_app. unfold len. rewrite !length_le_bytes. lia. }
      change 11%nat with (2 + (1 + (4 + (4 + 0))))%nat.
      apply codec_patched with (r := fun l m => ty <- pull_Uint8 ;; fv <- pull_Uint32 ;;
        fg <- pull_Uint32 ;; d <- pull_actData fl (pull_value m fl) vd rd ty l ;;
        pull_ret (mkAction ty fv fg d)); rewrite Ew; [|lia].
      eapply codec_bind; [by apply codec_u8, inU_spec|].
      eapply codec_bind; [by apply codec_u32, inU_spec|].
      eapply codec_bind; [by apply codec_u32, inU_spec|].
      eapply codec_map_eq; [exact Hd|done].
  - lia.
Qed.

Lemma bare_step fl v : Forall (all_codecs fl) (children v) -> bare_codec fl v.
Proof.
  intros IH vd rd typ Hok. unfold pull_bare.
  destruct v; cbn [bare_ok push_bare] in *;
    destruct (table_get prop_table typ) as [[]|] eqn:E; try discriminate;
    try scalar_entry; try mv_entry; try (eapply codec_weaken0, codec_ret);
    try (destruct (has_flag fl FlagABK); try discriminate; first [apply codec_ret | scalar_entry]).
  - destruct t as [t x]. cbn [children] in IH. apply Forall_cons_1 in IH as [[Hx _] _].
    bprop. unfold pull_typed. eapply codec_map_eq; [|done].
    destruct (Z.ltb_spec maxTypedValDepth (vd + 1)); [lia|].
    eapply codec_weaken0. apply codec_bind_pred with (x := t)
      (r2 := fun t m => v <- pull_value m fl (vd + 1) rd t ;; pull_ret (mkTyped t v)).
    + by apply codec_u16, inU_spec.
    + eapply codec_map_eq; [by apply value_codec|done].
  - destruct r as [rt x]. cbn [children] in IH. apply Forall_cons_1 in IH as [(_ & Hx & _) _].
    eapply codec_weaken0, codec_map_eq; [by apply node_codec|done].
  - destruct r as [blocks]. bsplit. rewrite H. cbn [negb].
    eapply codec_weaken0, codec_map_eq; [apply actions_codec|done]; [|done..].
    eapply List.Forall_impl; [|exact IH]. by intros a (_ & _ & ?).
Qed.

Lemma tagged_list_codec fl vd rd pvs :
  Forall (all_codecs fl) (map tpValue pvs) ->
  forallb (fun tp => match tp with mkTagged tag x =>
    inU 32 tag && gate_ok fl (PropTag_Type tag) x (fun t => bare_ok fl vd rd t x) end) pvs = true ->
  Forall (fun tp => codec 4 (match tp with mkTagged tag x =>
      push_Uint32 tag >> push_gate fl (PropTag_Type tag) x (fun t => push_bare fl t x) end)
    (fun n => pull_tagged (pull_value n fl) vd rd) tp) pvs.
Proof.
  intros IH Hok. eapply Forall_codecs; [|exact IH|exact Hok].
  intros [tag x] [Hx _] H. by apply tagged_codec.
Qed.

Lemma child_list_codec fl vd rd kids :
  Forall (all_codecs fl) (map resValue kids) ->
  forallb (fun r => match r with mkRes t x =>
    (rd <? maxRestrictionDepth) && inU 8 t && res_ok fl vd (rd + 1) t x end) kids = true ->
  Forall (fun r => codec 1 (match r with mkRes t x => push_Uint8 t >> push_res fl t x end)
    (fun n => pull_restriction n fl vd rd) r) kids.
Proof.
  intros IH Hok. eapply Forall_codecs; [|exact IH|exact Hok].
  intros [t x] (_ & Hx & _) H. by apply child_codec.
Qed.

Lemma codec_resCount fl n :
  0 <= n -> rescount_ok fl n = true ->
  codec 2 (push_resCount fl n) (fun _ => pull_resCount fl) n.
Proof.
  unfold rescount_ok, push_resCount, pull_resCount. intros Hn H. apply Z.ltb_lt in H.
  destruct (has_flag fl FlagWCount).
  - eapply codec_weaken; [by apply codec_u32, inU_spec|lia].
  - destruct (Z.ltb_spec 0xFFFF n); [lia|]. by apply codec_u16, inU_spec.
Qed.

(** A read followed by a computation that reads nothing. *)
Lemma codec_pure {A B} k w (r : nat -> pull A) (f : A -> nat -> pull B) x y :
  codec k w r x -> (forall n, f x n = pull_ret y) -> codec k w (fun n => a <- r n ;; f a n) y.
Proof.
  intros (bs & L & W & R) E. exists bs. split; [done|]. split; [done|].
  intros n rest Hn. unfold pull_bind. rewrite R by done. by rewrite E.
Qed.

Lemma codec_relop op tag v :
  inU 8 op = true -> inU 32 tag = true -> inU 32 v = true ->
  codec 9 (push_Uint8 op >> push_Uint32 tag >> push_Uint32 v)
    (fun _ => pull_relopTagValue) (op, tag, v).
Proof. intros. unfold pull_relopTagValue. codec_run. Qed.

(** A COMMENT node: the values, then the optional inner restriction. *)
Lemma comment_codec fl vd rd rt pvs inner :
  table_get res_table rt = Some RComment ->
  Forall (all_codecs fl) (children (AComment (mkComment pvs inner))) ->
  res_ok fl vd rd rt (AComment (mkComment pvs inner)) = true ->
  codec 0 (push_res fl rt (AComment (mkComment pvs inner)))
    (fun n => pull_resComment (pull_value n fl) (pull_restriction n fl) vd rd)
    (AComment (mkComment pvs inner)).
Proof.
  intros E. cbn [res_ok push_res children cmPropVals cmRes]. rewrite E.
  intros IH Hok. bsplit. apply Forall_app in IH as [IHp IHi].
  rewrite H. cbn [negb]. unfold nonempty_upto in *. bprop. pose proof (len_nonneg pvs).
  unfold pull_resComment.
  eapply codec_weaken0, codec_bind; [by apply codec_u8, inU_spec; lia|]. cbv beta.
  destruct (Z.eqb_spec (len pvs) 0); [lia|]. unfold len. rewrite Nat2Z.id.
  eapply codec_bind; [by eapply codec_each, tagged_list_codec|]. cbv beta.
  instantiate (1 := 1%nat). destruct inner as [[t x]|].
  - eapply codec_weaken; [eapply codec_bind; [by apply codec_u8|]|apply Nat.le_add_r].
    cbv beta. cbn [Z.eqb]. apply Forall_cons_1 in IHi as [(_ & Hx & _) _].
    eapply codec_map_eq; [by apply child_codec|done].
  - eapply codec_pure; [by apply codec_u8|done].
Qed.

Lemma res_step fl v : Forall (all_codecs fl) (children v) -> res_codec fl v.
Proof.
  intros IH vd rd rt Hok. unfold pull_resPayload.
  destruct v; cbn [res_ok push_res] in *;
    destruct (table_get res_table rt) as [[]|] eqn:E; try discriminate;
    try (eapply codec_weaken0, codec_ret).
  - destruct r as [t x]. apply Forall_cons_1 in IH as [(_ & Hx & _) _].
    eapply codec_weaken0, codec_map_eq; [by apply child_codec|done].
  - bsplit. eapply codec_weaken0, codec_bind; [by apply codec_resCount; auto with hx|].
    cbv beta. eapply codec_map_eq; [|done].
    apply (codec_elems 0 _ (fun n => pull_restriction n fl vd rd)). by apply child_list_codec.
  - destruct c as [fz tag [ptag x]]. bsplit. apply Forall_cons_1 in IH as [[Hx _] _].
    eapply codec_weaken0, codec_bind; [by auto|]. eapply codec_bind; [by auto|].
    eapply codec_map_eq; [by apply tagged_codec; [|apply andb_true_iff]|done].
  - destruct p as [op tag [ptag x]]. bsplit. apply Forall_cons_1 in IH as [[Hx _] _].
    eapply codec_weaken0, codec_bind; [by auto|]. eapply codec_bind; [by auto|].
    eapply codec_map_eq; [by apply tagged_codec; [|apply andb_true_iff]|done].
  - destruct c. cbn in *. bsplit. eapply codec_weaken0. codec_seq.
  - destruct b. cbn in *. bsplit. eapply codec_weaken0, codec_pure; [by apply codec_relop|done].
  - destruct s. cbn in *. bsplit. eapply codec_weaken0, codec_pure; [by apply codec_relop|done].
  - destruct e. eapply codec_weaken0, codec_map_eq; [by apply codec_u32|done].
  - destruct s as [so [t x]]. bsplit. apply Forall_cons_1 in IH as [(_ & Hx & _) _].
    eapply codec_weaken0, codec_bind; [by auto|].
    eapply codec_map_eq; [apply child_codec; [done|]|done].
    by bjoin.
  - destruct c as [pvs inner]. pose proof (comment_codec fl vd rd rt pvs inner E IH) as C.
    cbn [res_ok push_res] in C. rewrite E in C. by apply C.
  - destruct c as [so [t x]]. bsplit. apply Forall_cons_1 in IH as [(_ & Hx & _) _].
    eapply codec_weaken0, codec_bind; [by auto|].
    eapply codec_map_eq; [apply child_codec; [done|]|done].
    by bjoin.
Qed.

Lemma moveCopy_codec fl m :
  moveCopy_ok fl m = true -> codec 0 (push_moveCopy fl m) (fun _ => pull_moveCopy fl) m.
Proof.
  destruct m as [[] st f]; unfold moveCopy_ok, push_moveCopy, pull_moveCopy;
    cbn [mcSameStore mcStoreEID mcFolderEID].
  - destruct st, f; try discriminate. intros Hs.
    eapply codec_weaken0, codec_bind; [by apply codec_u8|].
    eapply codec_bind; [by apply codec_u16|]. cbv beta. cbn [negb Z.eqb].
    eapply codec_bind; [by apply codec_raw|].
    eapply codec_map_eq; [by apply codec_svreid|done].
  - destruct st as [se|], f; try discriminate. intros. bprop.
    eapply codec_weaken0, codec_bind; [by apply codec_u8|]. cbv beta.
    apply codec_ext with (r := fun _ =>
      se' <- (l <- pull_Uint16 ;; pull_StoreEntryID) ;; b' <- pull_Bin fl ;;
      pull_ret (mkMoveCopy false (Some se') (ABytes b'))).
    { intros _ b' _. unfold pull_bind. by destruct (pull_Uint16 b') as [[? ?]|]. }
    eapply codec_bind.
    + apply codec_patched with (r := fun _ _ => pull_StoreEntryID);
        [by apply codec_store_eid|done].
    + eapply codec_map_eq; [by apply codec_bin|done].
Qed.

Lemma recipient_codec fl vd rd pvs :
  Forall (all_codecs fl) (map tpValue pvs) ->
  nonempty_upto 0xFFFF pvs = true ->
  forallb (fun tp => match tp with mkTagged tag x =>
    inU 32 tag && gate_ok fl (PropTag_Type tag) x (fun t => bare_ok fl vd rd t x) end) pvs = true ->
  codec 1 (push_Uint8 0 >> push_Uint16 (len pvs) >>
      push_each (fun tp => match tp with mkTagged tag x => push_Uint32 tag >>
        push_gate fl (PropTag_Type tag) x (fun t => push_bare fl t x) end) pvs)
    (fun n => pull_recipientBlock (pull_value n fl) vd rd) (mkRecipient pvs).
Proof.
  intros IH Hne Hok. unfold nonempty_upto in Hne. bprop. unfold pull_recipientBlock.
  pose proof (len_nonneg pvs).
  eapply codec_weaken; [eapply codec_bind; [by apply codec_u8|]|apply Nat.le_add_r].
  eapply codec_bind; [by apply codec_u16, inU_spec; lia|]. cbv beta.
  destruct (Z.eqb_spec (len pvs) 0); [lia|]. eapply codec_map_eq; [|done].
  apply (codec_elems 3 _ (fun n => pull_tagged (pull_value n fl) vd rd)).
  by apply tagged_list_codec.
Qed.

Lemma forward_codec fl vd rd rcpts :
  Forall (all_codecs fl) (children (AForward (mkForward rcpts))) ->
  nonempty_upto 0xFFFF rcpts = true ->
  forallb (fun rb => match rb with mkRecipient pvs =>
    nonempty_upto 0xFFFF pvs && forallb (fun tp => match tp with mkTagged tag x =>
      inU 32 tag && gate_ok fl (PropTag_Type tag) x (fun t => bare_ok fl vd rd t x) end) pvs end)
    rcpts = true ->
  codec 0 (push_Uint16 (len rcpts) >> push_each (fun rb => match rb with mkRecipient pvs =>
      if negb (nonempty_upto 0xFFFF pvs) then push_err ErrFormat
      else push_Uint8 0 >> push_Uint16 (len pvs) >>
        push_each (fun tp => match tp with mkTagged tag x => push_Uint32 tag >>
          push_gate fl (PropTag_Type tag) x (fun t => push_bare fl t x) end) pvs end) rcpts)
    (fun n => pull_forwardDelegate (pull_value n fl) vd rd) (mkForward rcpts).
Proof.
  intros IH Hne Hok. unfold nonempty_upto in Hne. bprop. unfold pull_forwardDelegate.
  pose proof (len_nonneg rcpts).
  eapply codec_weaken0, codec_bind; [by apply codec_u16, inU_spec; lia|]. cbv beta.
  destruct (Z.eqb_spec (len rcpts) 0); [lia|]. eapply codec_map_eq; [|done].
  apply (codec_elems 0 _ (fun n => pull_recipientBlock (pull_value n fl) vd rd)).
  cbn [children fdRecipients] in IH. clear - IH Hok.
  induction rcpts as [|[pvs] rcpts IHr]; constructor; cbn in IH, Hok; bsplit;
    apply Forall_app in IH as [IHp IHs].
  - rewrite H. cbn [negb]. by apply recipient_codec.
  - by apply IHr.
Qed.

Lemma act_step fl v : Forall (all_codecs fl) (children v) -> act_codec fl v.
Proof.
  intros IH vd rd ty length Hok Hlen. unfold pull_actData.
  destruct v; cbn [act_ok push_act] in *;
    destruct (table_get act_table ty) as [[]|] eqn:E; try discriminate;
    try (eapply codec_weaken0, codec_ret).
  - scalar_entry.
  - subst length. unfold written, push_Raw. cbn [app]. pose proof (len_nonneg b).
    destruct (Z.ltb_spec (9 + len b) 9); [lia|].
    eapply codec_weaken0, codec_map_eq; [apply codec_raw; lia|done].
  - destruct t as [tag x]. apply Forall_cons_1 in IH as [[Hx _] _].
    eapply codec_weaken0, codec_map_eq; [by apply tagged_codec|done].
  - eapply codec_weaken0, codec_map_eq; [by apply moveCopy_codec|done].
  - destruct r as [f m g]. unfold reply_ok, push_reply, pull_reply in *. cbn in *. bsplit.
    eapply codec_weaken0, codec_map_eq; [|done].
    eapply codec_bind; [by auto|]. eapply codec_bind; [by auto|].
    eapply codec_map_eq; [by apply codec_guid|done].
  - destruct f as [rcpts]. bsplit. rewrite H. cbn [negb].
    eapply codec_weaken0, codec_map_eq; [by apply forward_codec|done].
Qed.

Lemma all_codecs_hold fl v : all_codecs fl v.
Proof.
  induction v as [v IH] using any_ind'. split; [|split].
  - by apply bare_step.
  - by apply res_step.
  - by apply act_step.
Qed.

(** A codec gives a round trip of the entry point that supplies the fuel. *)
Lemma codec_round_trip {A} k w (r : nat -> pull A) x :
  codec k w r x -> round_trip w (with_fuel r) x.
Proof.
  intros (bs & _ & W & R). exists bs. split; [done|]. intros rest. unfold with_fuel.
  apply R. rewrite length_app. lia.
Qed.

Lemma tagged_ok_codec fl tp :
  tagged_ok fl tp = true ->
  codec 4 (push_TaggedPropVal fl tp) (fun n => pull_tagged (pull_value n fl) 0 0) tp.
Proof.
  destruct tp as [tag x]. unfold tagged_ok, push_TaggedPropVal, push_PropValue. cbn. intros.
  apply tagged_codec; [apply all_codecs_hold|done].
Qed.

Definition propvals_ok (fl : Z) (pv : PropertyValues) : bool :=
  (len pv <? 0x10000) && forallb (tagged_ok fl) pv.

Lemma propvals_codec fl pv :
  propvals_ok fl pv = true -> codec 2 (push_PropertyValues fl pv) (pull_propertyValues fl) pv.
Proof.
  intros. apply (codec_counted16 3 (tagged_ok fl) _ _ (@pull_elems)); [tauto| |done].
  apply tagged_ok_codec.
Qed.

Definition typed_ok (fl : Z) (t : TypedPropVal) : bool :=
  value_ok fl PtUnspecified (ATyped t).

Definition rows_ok (fl : Z) (rows : list PropertyValues) : bool :=
  (len rows <? 2 ^ 32) && forallb (propvals_ok fl) rows.

(** A flagged cell: an explicit type is written exactly when the column's is unspecified. *)
Definition flagged_ok (fl tag : Z) (r : FlaggedPropVal) : bool :=
  let unspec := PropTag_Type tag =? PtUnspecified in
  implb unspec (negb (has_flag fl FlagABK)) &&
  if fpFlag r =? FlaggedAvailable then
    if unspec then inU 16 (fpType r) && value_ok fl (fpType r) (fpValue r)
    else (fpType r =? 0) && value_ok fl (PropTag_Type tag) (fpValue r)
  else if fpFlag r =? FlaggedUnavailable then (fpType r =? 0) && is_nil (fpValue r)
  else (fpFlag r =? FlaggedError)
       && (fpType r =? (if unspec then PtError else 0))
       && match fpValue r with AUint32 ec => inU 32 ec | _ => false end.

Lemma value_ok_codec fl typ v :
  value_ok fl typ v = true -> codec 0 (push_PropValue fl typ v) (fun n => pull_value n fl 0 0 typ) v.
Proof. intros. apply value_codec; [apply all_codecs_hold|done]. Qed.

Lemma flagged_body_codec fl typ rtype r :
  fpType r = rtype ->
  (if fpFlag r =? FlaggedAvailable then value_ok fl typ (fpValue r)
   else if fpFlag r =? FlaggedUnavailable then is_nil (fpValue r)
   else (fpFlag r =? FlaggedError) && match fpValue r with AUint32 ec => inU 32 ec | _ => false end) = true ->
  codec 1 (push_flagged_body fl typ r) (fun n =>
    flag <- pull_Uint8 ;;
    if flag =? FlaggedAvailable then
      v <- pull_value n fl 0 0 typ ;; pull_ret (mkFlagged flag rtype v)
    else if flag =? FlaggedUnavailable then pull_ret (mkFlagged flag rtype ANil)
    else if flag =? FlaggedError then
      ec <- pull_Uint32 ;; pull_ret (mkFlagged flag rtype (AUint32 ec))
    else pull_err ErrFormat) r.
Proof.
  destruct r as [flag ty v]. cbn [fpFlag fpType fpValue]. intros -> H.
  unfold push_flagged_body. cbn [fpFlag fpValue].
  assert (U : inU 8 flag = true).
  { destruct (Z.eqb_spec flag FlaggedAvailable) as [->|_]; [done|].
    destruct (Z.eqb_spec flag FlaggedUnavailable) as [->|_]; [done|].
    destruct (Z.eqb_spec flag FlaggedError) as [->|_]; done. }
  change 1%nat with (1 + 0)%nat. eapply codec_bind; [by apply codec_u8|]. cbv beta.
  destruct (flag =? FlaggedAvailable).
  { eapply codec_map_eq; [by apply value_ok_codec|done]. }
  destruct (flag =? FlaggedUnavailable).
  { destruct v; try discriminate. apply codec_ret. }
  destruct (flag =? FlaggedError); [|done]. destruct v; try discriminate.
  eapply codec_weaken0, codec_map_eq; [by apply codec_u32|done].
Qed.

Lemma flagged_codec fl tag r :
  flagged_ok fl tag r = true ->
  round_trip (push_FlaggedPropVal fl tag r) (pull_FlaggedPropVal fl (PropTag_Type tag)) r.
Proof.
  unfold flagged_ok, push_FlaggedPropVal, pull_FlaggedPropVal. intros H. bsplit.
  eapply codec_round_trip with (k := 0%nat).
  destruct (PropTag_Type tag =? PtUnspecified) eqn:Eu; cbn [implb] in *.
  - destruct (has_flag fl FlagABK); [done|]. cbv zeta.
    assert (T : inU 16 (if fpFlag r =? FlaggedUnavailable then 0
      else if fpFlag r =? FlaggedError then PtError else fpType r) = true /\
      (if fpFlag r =? FlaggedUnavailable then 0
      else if fpFlag r =? FlaggedError then PtError else fpType r) = fpType r).
    { destruct (Z.eqb_spec (fpFlag r) FlaggedAvailable) as [->|];
        [cbn in *; bsplit; by rewrite ?H0|].
      destruct (Z.eqb_spec (fpFlag r) FlaggedUnavailable); [bprop; by split|].
      destruct (Z.eqb_spec (fpFlag r) FlaggedError); [|done]. bprop. by split. }
    destruct T as [T1 T2]. eapply codec_weaken0, codec_bind; [by apply codec_u16|]. cbv beta zeta.
    apply flagged_body_codec; [done|]. rewrite T2. clear T1 T2.
    destruct (fpFlag r =? FlaggedAvailable); [by bsplit|].
    destruct (fpFlag r =? FlaggedUnavailable); bsplit; bjoin; try done.
  - eapply codec_ext; [|eapply codec_weaken0, flagged_body_codec with (rtype := 0)].
    + intros. reflexivity.
    + destruct (fpFlag r =? FlaggedAvailable); [by bprop|].
      destruct (fpFlag r =? FlaggedUnavailable); by bprop.
    + destruct (fpFlag r =? FlaggedAvailable); [by bsplit|].
      destruct (fpFlag r =? FlaggedUnavailable); bsplit; bjoin; try done.
Qed.

(** ** The round trips *)

(** Every property value the wire can carry survives it: for each of the 32 type codes,
    scalar or multivalue, self-describing, restriction or rule actions, nested as deep as
    the limits allow, with the address-book value-present prefix and the multivalue
    instance bits, the decoder gives back what the encoder wrote and stops where it ended. *)
Theorem prop_value_round_trip fl typ v :
  value_ok fl typ v = true -> round_trip (push_PropValue fl typ v) (pull_PropValue fl typ) v.
Proof. intros H. eapply codec_round_trip. by apply value_ok_codec. Qed.

(** A forward rule to one recipient, guarded values inside, as an address-book client. *)
Example prop_value_witness :
  let rcpt := mkRecipient [mkTagged 0x3001001F (AString [72; 105]); mkTagged 0x00170003 (AInt32 (-2))] in
  let v := AActions (mkRuleActions
    [mkAction 0x07 0 0 (AForward (mkForward [rcpt]));
     mkAction 0x09 0 1 (ATagged (mkTagged 0x66790000 (ATyped (mkTyped PtBoolean (ABool true)))))]) in
  round_trip (push_PropValue FlagABK PtActions v) (pull_PropValue FlagABK PtActions) v.
Proof. intros rcpt v. apply prop_value_round_trip. vm_compute. reflexivity. Defined.

(** Every restriction tree within the depth limit survives the wire: AND/OR with either
    count width, NOT, SUB, COUNT, COMMENT with its values and optional inner restriction,
    and the leaf comparisons. *)
Theorem restriction_round_trip fl r :
  restriction_ok fl r = true -> round_trip (push_Restriction fl r) (pull_Restriction fl) r.
Proof.
  destruct r as [t x]. intros H. eapply codec_round_trip.
  apply child_codec; [apply all_codecs_hold|]. unfold restriction_ok in H. cbn [resType resValue] in H. bsplit. by bjoin.
Qed.

Example restriction_witness :
  let leaf := mkRes 0x04 (AProperty (mkProperty 4 0x0037001F (mkTagged 0x0037001F (AString [97])))) in
  let r := mkRes 0x00 (ARess
    [mkRes 0x02 (ARes leaf); mkRes 0x09 (ASub (mkSub 0x0E12000D leaf));
     mkRes 0x0A (AComment (mkComment [mkTagged 0x60000003 (AInt32 5)] (Some leaf)))]) in
  round_trip (push_Restriction FlagUTF16 r) (pull_Restriction FlagUTF16) r.
Proof. intros leaf r. apply restriction_round_trip. vm_compute. reflexivity. Defined.

(** The collections survive the wire: property lists under a 16-bit and under a 32-bit
    count, and sets of rows. *)
Theorem collections_round_trip fl pv rows :
  propvals_ok fl pv = true -> rows_ok fl rows = true ->
  round_trip (push_PropertyValues fl pv) (pull_PropertyValues fl) pv
  /\ round_trip (push_PropertyValuesLong fl pv) (pull_PropertyValuesLong fl) pv
  /\ round_trip (push_TArraySet fl rows) (pull_TArraySet fl) rows.
Proof.
  intros Hpv Hrows. split; [|split]; eapply codec_round_trip.
  - by apply propvals_codec.
  - apply (codec_counted32 3 (tagged_ok fl) _ _ (@pull_elems_nil)); [tauto|apply tagged_ok_codec|].
    unfold propvals_ok in Hpv. bsplit. apply andb_true_iff. split; [bprop; apply Z.ltb_lt; lia|done].
  - apply (codec_counted32 1 (propvals_ok fl) _ _ (@pull_elems_nil)); [tauto|apply propvals_codec|done].
Qed.

Example collections_witness :
  let pv := [mkTagged 0x0037001F (AString [97; 98]); mkTagged 0x0E080014 (AInt64 12)] in
  round_trip (push_PropertyValues 0 pv) (pull_PropertyValues 0) pv
  /\ round_trip (push_PropertyValuesLong 0 pv) (pull_PropertyValuesLong 0) pv
  /\ round_trip (push_TArraySet 0 [pv; []]) (pull_TArraySet 0) [pv; []].
Proof. intros pv. apply (collections_round_trip 0 pv [pv; []]); vm_compute; reflexivity. Defined.

(** A table cell survives the wire in each of its states: present with its value, absent,
    or failed with its error code, with its type written when the column leaves it open. *)
Theorem flagged_round_trip fl tag r :
  flagged_ok fl tag r = true ->
  round_trip (push_FlaggedPropVal fl tag r) (pull_FlaggedPropVal fl (PropTag_Type tag)) r.
Proof. apply flagged_codec. Qed.

Example flagged_witness :
  let r := mkFlagged FlaggedError PtError (AUint32 0x8004010F) in
  round_trip (push_FlaggedPropVal 0 0x66790000 r) (pull_FlaggedPropVal 0 PtUnspecified) r.
Proof. intros r. apply (flagged_round_trip 0 0x66790000 r). vm_compute. reflexivity. Defined.
