(* ===== verification/ExtValTotal.v ===== *)
(** * The property-value decoder on arbitrary bytes

    Whatever bytes arrive, a read ends without running out of fuel, leaves a suffix
    of what it was given, and builds a value whose self-describing and restriction
    nesting respects the two depth limits.  The nesting of rule actions inside
    property values is not among the things the limits bound. *)

From stdpp Require Import base list numbers.
From Stdlib Require Import ZArith Lia.
From S2P Require Import Prelude Utf Mapi Wire ExtVal.
Open Scope Z_scope.
Open Scope wire_scope.

(** [safe d m P r]: on at most [m] bytes the read [r] does not run out of fuel, and when
    it succeeds it consumes at least [d] bytes from the front and its result satisfies
    [P]. *)
Definition safe {A} (d m : nat) (P : A -> Prop) (r : pull A) : Prop :=
  forall b, (length b <= m)%nat ->
  match r b with
  | Ok (x, b') => P x /\ exists p, b = p ++ b' /\ (d <= length p)%nat
  | Err e => e <> OutOfFuel
  end.

Create HintDb safe.

Lemma total_ret {A} m (P : A -> Prop) x : P x -> safe 0 m P (pull_ret x).
Proof. intros H b _. simpl. split; [done|]. exists []. split; [done|]. simpl. lia. Qed.

Lemma safe_err {A} d m (P : A -> Prop) e : e <> OutOfFuel -> safe d m P (pull_err e).
Proof. by intros H b _. Qed.

Lemma total_weaken {A} d d' m (P Q : A -> Prop) r :
  safe d m P r -> (d' <= d)%nat -> (forall x, P x -> Q x) -> safe d' m Q r.
Proof.
  intros H Hd HPQ b Hb. specialize (H b Hb). destruct (r b) as [[x b']|]; [|done].
  destruct H as [Hx (p & -> & Hp)]. split; [auto|]. exists p. split; [done|lia].
Qed.

Lemma total_bind {A B} d1 d2 m (P : A -> Prop) (Q : B -> Prop) (r : pull A) (k : A -> pull B) :
  safe d1 m P r -> (forall x, (d1 <= m)%nat -> P x -> safe d2 (m - d1) Q (k x)) ->
  safe (d1 + d2) m Q (x <- r ;; k x).
Proof.
  intros Hr Hk b Hb. unfold pull_bind. specialize (Hr b Hb).
  destruct (r b) as [[x b']|]; [|done]. destruct Hr as [Hx (p & -> & Hp)].
  rewrite length_app in Hb. specialize (Hk x ltac:(lia) Hx b' ltac:(lia)).
  destruct (k x b') as [[y b'']|]; [|done]. destruct Hk as [Hy (q & -> & Hq)].
  split; [done|]. exists (p ++ q). rewrite app_assoc, length_app. split; [done|lia].
Qed.

(** The form used most: what the continuation needs is safety on the bytes left. *)
Lemma safe_bind0 {A B} d1 m (P : A -> Prop) (Q : B -> Prop) (r : pull A) (k : A -> pull B) :
  safe d1 m P r -> (forall x, (d1 <= m)%nat -> P x -> safe 0 (m - d1) Q (k x)) ->
  safe d1 m Q (x <- r ;; k x).
Proof. intros H1 H2. rewrite <- (Nat.add_0_r d1). by eapply total_bind. Qed.

Lemma safe_mono {A} d m m' (P : A -> Prop) r : safe d m P r -> (m' <= m)%nat -> safe d m' P r.
Proof. intros H Hm b Hb. apply H. lia. Qed.

Lemma safe_if {A} d m (P : A -> Prop) (c : bool) r1 r2 :
  (c = true -> safe d m P r1) -> (c = false -> safe d m P r2) -> safe d m P (if c then r1 else r2).
Proof. destruct c; auto. Qed.

Definition any_result {A} (x : A) : Prop := True.

Lemma safe_Raw m n : safe (Z.to_nat n) m (fun b => length b = Z.to_nat n) (pull_Raw n).
Proof.
  intros b Hb. unfold pull_Raw. destruct (_ || _) eqn:E; [done|].
  apply orb_false_iff in E as [E1 E2]. bprop. unfold len in *.
  rewrite length_take. split; [lia|]. exists (take (Z.to_nat n) b).
  rewrite take_drop, length_take. split; [done|lia].
Qed.

Lemma safe_raw0 m n : safe 0 m any_result (pull_Raw n).
Proof. eapply total_weaken; [apply safe_Raw|lia|done]. Qed.

Lemma safe_u8 m : safe 1 m any_result pull_Uint8.
Proof. eapply safe_bind0; [apply (safe_Raw m 1)|]. intros. by apply total_ret. Qed.
Lemma safe_u16 m : safe 2 m any_result pull_Uint16.
Proof. eapply safe_bind0; [apply (safe_Raw m 2)|]. intros. by apply total_ret. Qed.
Lemma safe_u32 m : safe 4 m any_result pull_Uint32.
Proof. eapply safe_bind0; [apply (safe_Raw m 4)|]. intros. by apply total_ret. Qed.
Lemma safe_u64 m : safe 8 m any_result pull_Uint64.
Proof. eapply safe_bind0; [apply (safe_Raw m 8)|]. intros. by apply total_ret. Qed.

Lemma scan_nul_suffix b s r : scan_nul b = Some (s, r) -> exists p, b = p ++ r.
Proof.
  revert s. induction b as [|x b IH]; intros s; simpl; [done|].
  destruct (x =? 0); [intros [= <- <-]; by exists [x]|].
  destruct (scan_nul b) as [[s' r']|]; [|done]. intros [= <- <-].
  destruct (IH _ eq_refl) as [p ->]. by exists (x :: p).
Qed.

Lemma scan_units_suffix b us r : scan_units b = Some (us, r) -> exists p, b = p ++ r.
Proof.
  remember (length b) as n eqn:Hn. revert b us Hn.
  induction n as [n IH] using lt_wf_ind. intros [|x [|y b]] us Hn; try done. simpl.
  destruct ((x =? 0) && (y =? 0)); [intros [= <- <-]; by exists [x; y]|].
  destruct (scan_units b) as [[us' r']|] eqn:E; [|done]. intros [= <- <-].
  destruct (IH (length b) ltac:(subst; simpl; lia) b us' eq_refl E) as [p ->].
  by exists (x :: y :: p).
Qed.

Lemma safe_string8 m : safe 0 m any_result pull_String8.
Proof.
  intros b _. unfold pull_String8. destruct (scan_nul b) as [[s r]|] eqn:E; [|done].
  split; [done|]. destruct (scan_nul_suffix _ _ _ E) as [p ->]. exists p. split; [done|lia].
Qed.

Lemma safe_unicode m fl : safe 0 m any_result (pull_Unicode fl).
Proof.
  unfold pull_Unicode. apply safe_if; [intros; apply safe_string8|]. intros _ b _.
  destruct (scan_units b) as [[s r]|] eqn:E; [|done].
  split; [done|]. destruct (scan_units_suffix _ _ _ E) as [p ->]. exists p. split; [done|lia].
Qed.

Lemma safe_check m n : safe 0 m any_result (pull_checkCount n).
Proof.
  intros b _. unfold pull_checkCount. destruct (len b <? n); [done|].
  split; [done|]. exists []. split; [done|simpl; lia].
Qed.

Lemma safe_times {A} m (P : A -> Prop) n r :
  safe 0 m P r -> safe 0 m (Forall P) (pull_times n r).
Proof.
  intros Hr. induction n as [|n IH]; simpl; [apply total_ret; constructor|].
  eapply safe_bind0; [exact Hr|]. intros x _ Hx. rewrite Nat.sub_0_r.
  eapply safe_bind0; [exact IH|]. intros xs _ Hxs. apply total_ret. by constructor.
Qed.

Lemma safe_elems {A} m (P : A -> Prop) n r :
  safe 0 m P r -> safe 0 m (Forall P) (pull_elems n r).
Proof.
  intros. eapply safe_bind0; [apply safe_check|]. intros _ _ _. rewrite Nat.sub_0_r.
  by apply safe_times.
Qed.

Lemma safe_zero {A} d m (P : A -> Prop) r : safe d m P r -> safe 0 m P r.
Proof. intros. eapply total_weaken; [done|lia|done]. Qed.

#[local] Hint Resolve safe_u8 safe_u16 safe_u32 safe_u64 safe_string8 safe_unicode safe_raw0
  safe_check : safe.

Lemma safe_lower {A} d d' m (P : A -> Prop) r : safe d m P r -> (d' <= d)%nat -> safe d' m P r.
Proof. intros. by eapply total_weaken. Qed.

(** Walk a chain of reads that do not recurse. *)
Ltac safe_leaf := solve [eauto using safe_zero with safe].
Ltac safe_go :=
  repeat first
    [ progress intros
    | apply total_ret; exact I
    | apply safe_err; discriminate
    | safe_leaf
    | apply safe_if
    | eapply safe_zero, safe_bind0; [safe_leaf|]
    | eapply safe_bind0; [safe_leaf|] ].

Lemma safe_guid m : safe 0 m any_result pull_GUID.
Proof. unfold pull_GUID. safe_go. Qed.
Lemma safe_bin m fl : safe 0 m any_result (pull_Bin fl).
Proof. unfold pull_Bin. destruct (has_flag fl FlagWCount); safe_go. Qed.
Lemma safe_svreid m : safe 0 m any_result pull_SVREID.
Proof. unfold pull_SVREID. safe_go. Qed.
Lemma safe_bool m : safe 0 m any_result pull_Bool.
Proof. unfold pull_Bool. safe_go. Qed.
#[local] Hint Resolve safe_guid safe_bin safe_svreid safe_bool : safe.

(** ** Nesting depth *)

Section max_of.
Context {A : Type} (f : A -> Z).
Fixpoint max_of (l : list A) : Z :=
  match l with [] => 0 | x :: l => Z.max (f x) (max_of l) end.
End max_of.

(** The heaviest path through a value: a self-describing value weighs [wt], a
    restriction node [wr] and a list of rule actions [wa]. *)
Fixpoint depth (wt wr wa : Z) (v : any) {struct v} : Z :=
  let tagged tp := match tp with mkTagged _ x => depth wt wr wa x end in
  let node r := match r with mkRes _ x => wr + depth wt wr wa x end in
  match v with
  | ATyped (mkTyped _ x) => wt + depth wt wr wa x
  | ATagged tp => tagged tp
  | ARes r => node r
  | ARess l => max_of node l
  | AContent (mkContent _ _ tp) => tagged tp
  | AProperty (mkProperty _ _ tp) => tagged tp
  | ASub (mkSub _ r) => node r
  | AComment (mkComment pvs inner) =>
      Z.max (max_of tagged pvs) match inner with Some r => node r | None => 0 end
  | ACount (mkCount _ r) => node r
  | AActions (mkRuleActions bs) =>
      wa + max_of (fun b => match b with mkAction _ _ _ x => depth wt wr wa x end) bs
  | AForward (mkForward rs) =>
      max_of (fun rb => match rb with mkRecipient pvs => max_of tagged pvs end) rs
  | _ => 0
  end.

Definition typed_depth : any -> Z := depth 1 0 0.
Definition res_depth : any -> Z := depth 0 1 0.
Definition action_depth : any -> Z := depth 0 0 1.

(** What the counters leave room for at [vd] and [rd]. *)
Definition within (vd rd : Z) (v : any) : Prop :=
  vd + typed_depth v <= maxTypedValDepth /\ rd + res_depth v <= maxRestrictionDepth.

Definition room (vd rd : Z) : Prop := vd <= maxTypedValDepth /\ rd <= maxRestrictionDepth.

Lemma max_of_le {A} (f : A -> Z) b l :
  0 <= b -> Forall (fun x => f x <= b) l -> max_of f l <= b.
Proof. intros Hb. induction 1; simpl; lia. Qed.

Lemma max_of_nonneg {A} (f : A -> Z) l : 0 <= max_of f l.
Proof. induction l; simpl; lia. Qed.

(** [within] of a collection from [within] of its members. *)
Lemma within_members {A} (mk : list A -> any) (f : A -> any) vd rd l :
  room vd rd ->
  (forall wt wr, depth wt wr 0 (mk l) = max_of (fun a => depth wt wr 0 (f a)) l) ->
  Forall (fun a => within vd rd (f a)) l -> within vd rd (mk l).
Proof.
  unfold within, room, typed_depth, res_depth. intros [Hv Hr] E H. rewrite !E. split.
  - assert (max_of (fun a => depth 1 0 0 (f a)) l <= maxTypedValDepth - vd); [|lia].
    apply max_of_le; [lia|]. eapply List.Forall_impl; [|exact H]. cbn. lia.
  - assert (max_of (fun a => depth 0 1 0 (f a)) l <= maxRestrictionDepth - rd); [|lia].
    apply max_of_le; [lia|]. eapply List.Forall_impl; [|exact H]. cbn. lia.
Qed.

Lemma max_of_ext {A} (f g : A -> Z) l : (forall x, f x = g x) -> max_of f l = max_of g l.
Proof. intros H. induction l; simpl; congruence. Qed.

Ltac within_go := unfold within, room, typed_depth, res_depth in *; cbn in *; lia.

(** ** The composite reads that do not recurse *)

Lemma safe_store_eid m : safe 0 m any_result pull_StoreEntryID.
Proof.
  unfold pull_StoreEntryID. eapply (safe_bind0 0 m any_result).
  - unfold pull_storeEntryIDWrapper, pull_FlatUID. safe_go.
  - intros [[f v] iv] _ _. rewrite Nat.sub_0_r.
    unfold pull_storeEntryIDRecord, pull_FlatUID. safe_go.
Qed.

Lemma safe_moveCopy m fl :
  safe 0 m any_result (pull_moveCopy fl).
Proof.
  pose proof safe_store_eid. unfold pull_moveCopy. safe_go.
Qed.

Lemma safe_reply m : safe 0 m any_result pull_reply.
Proof. unfold pull_reply. safe_go. Qed.

Lemma safe_signed m w r : safe 0 m any_result r -> safe 0 m any_result (pull_signed w r).
Proof. intros. unfold pull_signed. safe_go. Qed.

Lemma safe_float32 m : safe 0 m any_result pull_Float32.
Proof. unfold pull_Float32. safe_go. Qed.
Lemma safe_float64 m : safe 0 m any_result pull_Float64.
Proof. unfold pull_Float64. safe_go. Qed.
#[local] Hint Resolve safe_moveCopy safe_reply safe_float32 safe_float64 : safe.

(** A read mapped through a constructor. *)
Lemma safe_map {A} d m (P : A -> Prop) (Q : any -> Prop) (r : pull A) mk :
  safe d m P r -> (forall x, P x -> Q (mk x)) -> safe d m Q (x <- r ;; pull_ret (mk x)).
Proof. intros Hr H. eapply safe_bind0; [done|]. intros. apply total_ret. auto. Qed.

Lemma safe_mv {A} m (r : pull A) mk (Q : any -> Prop) :
  safe 0 m any_result r -> (forall l, Q (mk l)) -> safe 0 m Q (pull_mv r mk).
Proof.
  intros Hr H. unfold pull_mv. eapply safe_zero, safe_bind0; [apply safe_u32|]. intros n _ _.
  eapply safe_map; [|auto]. apply safe_elems. eapply safe_mono; [exact Hr|lia].
Qed.

(** ** One level of the recursion

    With [n] levels of fuel below it, a level is safe on at most [n] bytes: every
    nested read comes after at least one byte. *)
Section level.
Context (fl : Z) (n : nat).
Context (rv : forall vd rd typ : Z, pull any) (rr : forall vd rd : Z, pull Restriction).
Context (Hrv : forall m vd rd typ, (m < n)%nat -> room vd rd ->
  safe 0 m (within vd rd) (rv vd rd typ)).
Context (Hrr : forall m vd rd, (m < n)%nat -> room vd rd ->
  safe 1 m (fun r => within vd rd (ARes r)) (rr vd rd)).

Lemma safe_tagged m vd rd : (m <= n)%nat -> room vd rd ->
  safe 1 m (fun tp => within vd rd (tpValue tp)) (pull_tagged rv vd rd).
Proof.
  intros Hm Hroom. unfold pull_tagged.
  eapply safe_lower; [eapply safe_bind0; [apply safe_u32|]|lia].
  intros tag Hd _. eapply safe_bind0; [apply Hrv; [lia|done]|]. intros. by apply total_ret.
Qed.

Lemma safe_tagged_elems m vd rd c : (m <= n)%nat -> room vd rd ->
  safe 0 m (Forall (fun tp => within vd rd (tpValue tp))) (pull_elems c (pull_tagged rv vd rd)).
Proof. intros. by eapply safe_elems, safe_zero, safe_tagged. Qed.

Lemma safe_typed m vd rd : (m <= n)%nat -> room vd rd ->
  safe 1 m (fun t => within vd rd (ATyped t)) (pull_typed rv vd rd).
Proof.
  intros Hm [Hv Hr]. unfold pull_typed. apply safe_if; intros E; bprop; [by apply safe_err|].
  eapply safe_lower; [eapply safe_bind0; [apply safe_u16|]|lia].
  intros t Hd _. eapply safe_bind0; [apply Hrv; [lia|split; lia]|].
  intros x _ Hx. apply total_ret. within_go.
Qed.

Lemma within_comment vd rd pvs inner :
  room vd rd -> Forall (fun tp => within vd rd (tpValue tp)) pvs ->
  match inner with Some r => within vd rd (ARes r) | None => True end ->
  within vd rd (AComment (mkComment pvs inner)).
Proof.
  intros Hroom Hp Hi.
  assert (H : within vd rd (AForward (mkForward [mkRecipient pvs]))).
  { apply (within_members (fun l => AForward (mkForward [mkRecipient l])) tpValue); [done| |done].
    intros. cbn.
    rewrite (max_of_ext _ (fun a => depth wt wr 0 (tpValue a))) by by intros [].
    pose proof (max_of_nonneg (fun a => depth wt wr 0 (tpValue a)) pvs). lia. }
  destruct inner as [[t x]|]; within_go.
Qed.

Lemma safe_children m vd rd c : (m < n)%nat -> room vd rd ->
  safe 0 m (within vd rd) (kids <- pull_elems c (rr vd rd) ;; pull_ret (ARess kids)).
Proof.
  intros Hm Hroom. eapply safe_map; [by eapply safe_elems, safe_zero, Hrr|]. intros kids Hk.
  apply (within_members ARess ARes); [done| |done].
  intros. cbn. apply max_of_ext. by intros [].
Qed.

Lemma safe_node_child m vd rd (mk : Restriction -> any) :
  (m < n)%nat -> room vd rd -> (forall wt wr wa r, depth wt wr wa (mk r) = depth wt wr wa (ARes r)) ->
  safe 0 m (within vd rd) (r <- rr vd rd ;; pull_ret (mk r)).
Proof.
  intros Hm Hroom E. eapply safe_zero, safe_map; [by apply Hrr|]. intros r Hr.
  unfold within, typed_depth, res_depth in *. by rewrite !E.
Qed.

Lemma safe_tagged_child m vd rd (mk : TaggedPropVal -> any) :
  (m <= n)%nat -> room vd rd -> (forall wt wr wa tp, depth wt wr wa (mk tp) = depth wt wr wa (tpValue tp)) ->
  safe 0 m (within vd rd) (tp <- pull_tagged rv vd rd ;; pull_ret (mk tp)).
Proof.
  intros Hm Hroom E. eapply safe_zero, safe_map; [by apply safe_tagged|]. intros tp Htp.
  unfold within, typed_depth, res_depth in *. by rewrite !E.
Qed.

Lemma safe_resComment m vd rd : (m < n)%nat -> room vd rd ->
  safe 0 m (within vd rd) (pull_resComment rv rr vd rd).
Proof.
  intros Hm Hroom. unfold pull_resComment.
  eapply safe_zero, safe_bind0; [apply safe_u8|]. intros c _ _.
  apply safe_if; intros _; [by apply safe_err|].
  eapply safe_bind0; [eapply safe_times, safe_zero, safe_tagged; [lia|done]|]. intros pvs _ Hp.
  eapply safe_zero, safe_bind0; [apply safe_u8|]. intros p _ _.
  apply safe_if; intros _.
  - apply total_ret. by apply within_comment.
  - eapply safe_zero, safe_map; [apply Hrr; [lia|done]|]. intros r Hr. by apply within_comment.
Qed.

Lemma safe_resPayload m vd rd rt : (m < n)%nat -> room vd rd ->
  safe 0 m (within vd rd) (pull_resPayload fl rv rr vd rd rt).
Proof.
  intros Hm Hroom. unfold pull_resPayload, pull_resCount, pull_relopTagValue.
  destruct (table_get res_table rt) as [[]|]; [..|by apply safe_err].
  - eapply (safe_bind0 0 m any_result); [destruct (has_flag fl FlagWCount); safe_leaf|].
    intros. apply safe_children; [lia|done].
  - by apply safe_node_child.
  - by apply safe_resComment.
  - eapply safe_zero, safe_bind0; [apply safe_u32|]. intros.
    eapply safe_zero, safe_bind0; [apply safe_u32|]. intros.
    apply safe_tagged_child; [lia|done|by intros ? ? ? []].
  - eapply safe_zero, safe_bind0; [apply safe_u8|]. intros.
    eapply safe_zero, safe_bind0; [apply safe_u32|]. intros.
    apply safe_tagged_child; [lia|done|by intros ? ? ? []].
  - safe_go. apply total_ret. within_go.
  - eapply (safe_bind0 0 m any_result); [safe_go|]. intros [[op tag] v] _ _. apply total_ret. within_go.
  - eapply (safe_bind0 0 m any_result); [safe_go|]. intros [[op tag] v] _ _. apply total_ret. within_go.
  - safe_go. apply total_ret. within_go.
  - eapply safe_zero, safe_bind0; [apply safe_u32|]. intros.
    apply safe_node_child; [lia|done|by intros ? ? ? []].
  - eapply safe_zero, safe_bind0; [apply safe_u32|]. intros.
    apply safe_node_child; [lia|done|by intros ? ? ? []].
  - apply total_ret. within_go.
Qed.

Lemma safe_resNode m vd rd : (m <= n)%nat -> room vd rd ->
  safe 1 m (fun r => within vd rd (ARes r)) (pull_resNode fl rv rr vd rd).
Proof.
  intros Hm [Hv Hr]. unfold pull_resNode. apply safe_if; intros E; bprop; [by apply safe_err|].
  eapply safe_bind0; [apply safe_u8|]. intros rt Hd _.
  eapply safe_bind0; [apply safe_resPayload; [lia|split; lia]|].
  intros x _ Hx. apply total_ret. within_go.
Qed.
Lemma safe_ruleActions_blocks m vd rd c (r : pull ActionBlock) :
  room vd rd -> safe 0 m (fun b => within vd rd (abData b)) r ->
  safe 0 m (fun ra => within vd rd (AActions ra))
    (bs <- pull_elems c r ;; pull_ret (mkRuleActions bs)).
Proof.
  intros Hroom Hr. eapply safe_bind0; [by apply safe_elems|]. intros bs _ Hb. apply total_ret.
  apply (within_members (fun l => AActions (mkRuleActions l)) abData); [done| |done].
  intros. cbn. apply max_of_ext. by intros [].
Qed.

Lemma safe_forward m vd rd : (m <= n)%nat -> room vd rd ->
  safe 0 m (fun f => within vd rd (AForward f)) (pull_forwardDelegate rv vd rd).
Proof.
  intros Hm Hroom. unfold pull_forwardDelegate.
  eapply safe_zero, safe_bind0; [apply safe_u16|]. intros c _ _.
  apply safe_if; intros _; [by apply safe_err|].
  eapply (safe_bind0 0 _ (Forall (fun rb => within vd rd (AForward (mkForward [rb]))))).
  - apply safe_elems. unfold pull_recipientBlock.
    eapply safe_zero, safe_bind0; [apply safe_u8|]. intros _ _ _.
    eapply safe_zero, safe_bind0; [apply safe_u16|]. intros c' _ _.
    apply safe_if; intros _; [by apply safe_err|].
    eapply safe_bind0; [apply safe_tagged_elems; [lia|done]|]. intros pvs _ Hp. apply total_ret.
    by apply (within_comment vd rd pvs None) in Hp; [within_go|done|].
  - intros rs _ Hrs. apply total_ret.
    apply (within_members (fun l => AForward (mkForward l)) (fun rb => AForward (mkForward [rb])));
      [done| |done].
    intros. cbn. apply max_of_ext. intros [pvs]. symmetry. apply Z.max_l, max_of_nonneg.
Qed.

Lemma safe_actData m vd rd ty l : (m <= n)%nat -> room vd rd ->
  safe 0 m (within vd rd) (pull_actData fl rv vd rd ty l).
Proof.
  intros Hm Hroom. unfold pull_actData.
  destruct (table_get act_table ty) as [[]|]; [..|by apply safe_err].
  - eapply safe_map; [apply safe_moveCopy|]. intros; within_go.
  - eapply safe_map; [apply safe_reply|]. intros; within_go.
  - eapply safe_map; [by apply safe_forward|]. done.
  - apply safe_if; intros _; [by apply safe_err|].
    eapply safe_map; [apply safe_raw0|]. intros; within_go.
  - eapply safe_zero, safe_map; [apply safe_u32|]. intros; within_go.
  - apply safe_tagged_child; [done|done|by intros ? ? ? []].
  - apply total_ret. within_go.
Qed.

Lemma safe_actionBlock m vd rd : (m <= n)%nat -> room vd rd ->
  safe 0 m (fun b => within vd rd (abData b)) (pull_actionBlock fl rv vd rd).
Proof.
  intros Hm Hroom. unfold pull_actionBlock.
  eapply safe_zero, safe_bind0; [apply safe_u16|]. intros l _ _.
  eapply safe_zero, safe_bind0; [apply safe_u8|]. intros ty _ _.
  eapply safe_zero, safe_bind0; [apply safe_u32|]. intros fv _ _.
  eapply safe_zero, safe_bind0; [apply safe_u32|]. intros fg _ _.
  eapply safe_bind0; [apply safe_actData; [lia|done]|]. intros d _ Hd. by apply total_ret.
Qed.

Lemma safe_ruleActions m vd rd : (m <= n)%nat -> room vd rd ->
  safe 0 m (fun r => within vd rd (AActions r)) (pull_ruleActions fl rv vd rd).
Proof.
  intros Hm Hroom. unfold pull_ruleActions.
  eapply safe_zero, safe_bind0; [apply safe_u16|]. intros c _ _.
  apply safe_if; intros _; [by apply safe_err|].
  apply safe_ruleActions_blocks; [done|]. apply safe_actionBlock; [lia|done].
Qed.

Lemma safe_bare m vd rd typ : (m <= n)%nat -> room vd rd ->
  safe 0 m (within vd rd) (pull_bare fl rv rr vd rd typ).
Proof.
  intros Hm Hroom. unfold pull_bare.
  destruct (table_get prop_table typ) as [[]|]; [..|by apply safe_err];
    try (apply total_ret; within_go);
    try (eapply safe_map; [first [safe_leaf | by apply safe_signed; safe_leaf]|intros; within_go]);
    try (apply safe_mv; [first [safe_leaf | by apply safe_signed; safe_leaf]|intros; within_go]).
  - eapply safe_zero, safe_map; [by apply safe_typed|done].
  - apply safe_if; intros _; [apply total_ret; within_go|].
    eapply safe_map; [safe_leaf|intros; within_go].
  - eapply safe_zero, safe_map; [by apply safe_resNode|done].
  - eapply safe_map; [by apply safe_ruleActions|done].
Qed.

Lemma safe_gated m vd rd typ : (m <= n)%nat -> room vd rd ->
  safe 0 m (within vd rd) (pull_gated fl rv rr vd rd typ).
Proof.
  intros Hm Hroom. unfold pull_gated. apply safe_if; intros _; [|by apply safe_bare].
  eapply safe_zero, safe_bind0; [apply safe_u8|]. intros vs _ _.
  apply safe_if; intros _; [apply total_ret; within_go|].
  apply safe_if; intros _; [by apply safe_err|]. apply safe_bare; [lia|done].
Qed.
End level.

(** Every level of the recursion, by induction on the fuel. *)
Lemma safe_all n fl :
  (forall m vd rd typ, (m < n)%nat -> room vd rd ->
    safe 0 m (within vd rd) (pull_value n fl vd rd typ)) /\
  (forall m vd rd, (m < n)%nat -> room vd rd ->
    safe 1 m (fun r => within vd rd (ARes r)) (pull_restriction n fl vd rd)).
Proof.
  induction n as [|n [IHv IHr]]; [split; intros; lia|]. split; intros; cbn.
  - apply safe_gated with (n := n); [exact IHv|exact IHr|lia|done].
  - apply safe_resNode with (n := n); [exact IHv|exact IHr|lia|done].
Qed.

(** ** Levels of recursion

    A self-describing value and a restriction each move a counter, so that only rule
    actions, whose blocks carry property values, open a level without one.  Their type
    code ends in the byte 0xFE and is read from the input, except the one that the
    caller asks for: the levels a read needs are bounded by the limits and by the
    number of these bytes that are left. *)

(** The bytes 0xFE, the low byte of [PtActions]. *)
Definition named_actions (x : Z) : Z := if x mod 256 =? 0xFE then 1 else 0.
Fixpoint actions_named (b : bytes) : Z :=
  match b with [] => 0 | x :: b => named_actions x + actions_named b end.

Lemma named_actions_range x : 0 <= named_actions x <= 1.
Proof. unfold named_actions. destruct (_ =? _); lia. Qed.
Lemma actions_named_nonneg b : 0 <= actions_named b.
Proof. induction b as [|x b IH]; [done|]. pose proof (named_actions_range x). cbn [actions_named]. lia. Qed.
Lemma actions_named_app a b : actions_named (a ++ b) = actions_named a + actions_named b.
Proof. induction a as [|x a IH]; [done|]. cbn. rewrite IH. lia. Qed.

(** [deep c m r]: on bytes that name at most [m] rule actions the read [r] does not run
    out of fuel, and a result [x] has used up [c x] of them. *)
Definition deep {A} (c : A -> Z) (m : Z) (r : pull A) : Prop := forall b,
  actions_named b <= m ->
  match r b with
  | Ok (x, b') => c x + actions_named b' <= actions_named b
  | Err e => e <> OutOfFuel
  end.
Definition free {A} (x : A) : Z := 0.

Lemma deep_bind {A B} (c : A -> Z) (c' : B -> Z) m (r : pull A) (k : A -> pull B) :
  deep c m r -> (forall x, 0 <= c x) -> (forall x, deep c' (m - c x) (k x)) -> deep c' m (x <- r ;; k x).
Proof.
  intros Hr Hc Hk b Hb. unfold pull_bind. specialize (Hr b Hb). destruct (r b) as [[x b']|]; [|done].
  specialize (Hk x b' ltac:(lia)). specialize (Hc x). destruct (k x b') as [[y b'']|]; [lia|done].
Qed.
Lemma deep_then {A B} m (r : pull A) (k : A -> pull B) :
  deep free m r -> (forall x, deep free m (k x)) -> deep free m (x <- r ;; k x).
Proof. intros Hr Hk. eapply deep_bind; [exact Hr|done|]. intros x. unfold free. rewrite Z.sub_0_r. apply Hk. Qed.
Lemma deep_ret {A} m (x : A) : deep free m (pull_ret x).
Proof. intros b _. unfold free. cbn. lia. Qed.
Lemma deep_err {A} (c : A -> Z) m e : e <> OutOfFuel -> deep c m (pull_err e).
Proof. by intros H b _. Qed.
Lemma deep_if {A} (c : A -> Z) m (t : bool) r1 r2 :
  (t = true -> deep c m r1) -> (t = false -> deep c m r2) -> deep c m (if t then r1 else r2).
Proof. destruct t; auto. Qed.
(** A read that does not recurse. *)
Lemma deep_leaf {A} (P : A -> Prop) m (r : pull A) : (forall k, safe 0 k P r) -> deep free m r.
Proof.
  intros Hr b _. specialize (Hr (length b) b ltac:(lia)). destruct (r b) as [[x b']|]; [|done].
  destruct Hr as (_ & p & -> & _). rewrite actions_named_app. pose proof (actions_named_nonneg p). unfold free. lia.
Qed.
(** A type code that is read is one that the input named. *)
Lemma deep_code m n (r : pull Z) f : (0 < n)%Z -> r = (b <- pull_Raw n ;; pull_ret (le_value b)) ->
  (forall x, f x mod 256 = x mod 256) -> deep (fun x => named_actions (f x)) m r.
Proof.
  intros Hn -> Hf b _. unfold pull_bind, pull_Raw. destruct (_ || _) eqn:E; [done|]. apply orb_false_iff in E as [_ E]. apply Z.ltb_ge in E. cbn.
  destruct b as [|x b]; [change (len []) with 0 in E; lia|]. replace (Z.to_nat n) with (S (Z.to_nat (n - 1))) by lia. cbn [take drop le_value actions_named].
  rewrite <- (take_drop (Z.to_nat (n - 1)) b) at 3. rewrite actions_named_app. pose proof (actions_named_nonneg (take (Z.to_nat (n - 1)) b)).
  unfold named_actions at 1. rewrite Hf, (Z.mul_comm 256), Z.mod_add by lia. fold (named_actions x). lia.
Qed.
Lemma deep_u16 m : deep named_actions m pull_Uint16.
Proof. by apply (deep_code m 2 pull_Uint16 id). Qed.
Lemma low_byte x k : k mod 256 = 255 -> Z.land x k mod 256 = x mod 256.
Proof. intros Hk. change 256 with (2 ^ 8). rewrite <- !Z.land_ones by lia. rewrite <- Z.land_assoc. f_equal. rewrite Z.land_ones by lia. exact Hk. Qed.
Lemma deep_tag m : deep (fun tag => named_actions (PropTag_Type tag)) m pull_Uint32.
Proof. apply (deep_code m 4 pull_Uint32 PropTag_Type); [done|done|]. intros x. by apply low_byte. Qed.
Lemma deep_times {A} m n (r : pull A) : deep free m r -> deep free m (pull_times n r).
Proof.
  intros Hr. induction n as [|n IH]; cbn [pull_times]; [apply deep_ret|].
  apply deep_then; [exact Hr|]. intros x. apply deep_then; [exact IH|]. intros. apply deep_ret.
Qed.
Lemma deep_elems {A} m n (r : pull A) : deep free m r -> deep free m (pull_elems n r).
Proof. intros. apply deep_then; [apply (deep_leaf any_result); intros; apply safe_check|]. intros _. by apply deep_times. Qed.
Lemma deep_elems_nil {A} m n (r : pull A) : deep free m r -> deep free m (pull_elems_nil n r).
Proof. intros. apply deep_if; intros _; [apply deep_ret|by apply deep_elems]. Qed.
Lemma deep_mv {A} m (r : pull A) mk : (forall k, safe 0 k any_result r) -> deep free m (pull_mv r mk).
Proof.
  intros Hr. apply deep_then; [apply (deep_leaf any_result); intros; eapply safe_zero, safe_u32|]. intros n.
  apply deep_then; [apply deep_elems; by apply (deep_leaf any_result)|]. intros. apply deep_ret.
Qed.

Ltac deep_leaf := solve [apply (deep_leaf any_result); intros; first [safe_leaf | by apply safe_signed; safe_leaf]].
Ltac deep_go :=
  repeat first
    [ progress intros
    | apply deep_ret
    | apply deep_err; discriminate
    | assumption
    | deep_leaf
    | apply deep_if
    | apply deep_times | apply deep_elems
    | apply deep_then ].

(** What is needed below the levels already open *)
Definition levels (vd rd : Z) : Z := (maxTypedValDepth - vd) + (maxRestrictionDepth - rd).

Section deep_level.
Context (fl : Z) (n : Z).
Context (rv : forall vd rd typ : Z, pull any) (rr : forall vd rd : Z, pull Restriction).
Context (Hrv : forall m vd rd typ, room vd rd -> levels vd rd + named_actions typ + m < n -> deep free m (rv vd rd typ)).
Context (Hrr : forall m vd rd, room vd rd -> levels vd rd + m < n -> deep free m (rr vd rd)).

Lemma deep_tagged m vd rd : room vd rd -> levels vd rd + m < n -> deep free m (pull_tagged rv vd rd).
Proof.
  intros Hroom Hm. eapply deep_bind; [apply deep_tag|intros; apply named_actions_range|]. intros tag. cbv beta.
  apply deep_then; [apply Hrv; [done|lia]|]. intros. apply deep_ret.
Qed.
Lemma deep_typed m vd rd : room vd rd -> levels vd rd + m <= n -> deep free m (pull_typed rv vd rd).
Proof.
  intros [Hv Hr] Hm. unfold pull_typed. apply deep_if; intros E; [by apply deep_err|]. apply Z.ltb_ge in E.
  eapply deep_bind; [apply deep_u16|intros; apply named_actions_range|]. intros t.
  apply deep_then; [apply Hrv; [split; lia|unfold levels in *; lia]|]. intros. apply deep_ret.
Qed.
Lemma deep_resPayload m vd rd rt : room vd rd -> levels vd rd + m < n -> deep free m (pull_resPayload fl rv rr vd rd rt).
Proof.
  intros Hroom Hm. pose proof (deep_tagged m vd rd Hroom Hm). pose proof (Hrr m vd rd Hroom Hm).
  unfold pull_resPayload, pull_resComment, pull_resCount, pull_relopTagValue. destruct (table_get res_table rt) as [[]|]; deep_go; destruct x as [[? ?] ?]; deep_go.
Qed.
Lemma deep_resNode m vd rd : room vd rd -> levels vd rd + m <= n -> deep free m (pull_resNode fl rv rr vd rd).
Proof.
  intros [Hv Hr] Hm. unfold pull_resNode. apply deep_if; intros E; [by apply deep_err|]. apply Z.ltb_ge in E.
  apply deep_then; [deep_leaf|]. intros rt. apply deep_then; [apply deep_resPayload; [split; lia|unfold levels in *; lia]|]. intros. apply deep_ret.
Qed.
Lemma deep_ruleActions m vd rd : room vd rd -> levels vd rd + m < n -> deep free m (pull_ruleActions fl rv vd rd).
Proof.
  intros Hroom Hm. pose proof (deep_tagged m vd rd Hroom Hm). unfold pull_ruleActions, pull_actionBlock, pull_actData, pull_forwardDelegate, pull_recipientBlock.
  deep_go. destruct (table_get act_table _) as [[]|]; deep_go.
Qed.
Lemma deep_bare m vd rd typ : room vd rd -> levels vd rd + m <= n -> (typ = PtActions -> levels vd rd + m < n) -> deep free m (pull_bare fl rv rr vd rd typ).
Proof.
  intros Hroom Hm Ha. unfold pull_bare. destruct (table_get prop_table typ) as [[]|] eqn:E; try solve [deep_go | apply deep_mv; intros; first [safe_leaf | by apply safe_signed; safe_leaf]].
  - apply deep_then; [by apply deep_typed|]. intros. apply deep_ret.
  - apply deep_then; [by apply deep_resNode|]. intros. apply deep_ret.
  - apply deep_then; [apply deep_ruleActions; [done|apply Ha]|intros; apply deep_ret].
    revert E. unfold table_get, prop_table. repeat match goal with |- context [?c =? typ] => destruct (Z.eqb_spec c typ) as [<-|_]; [done|] end. done.
Qed.
Lemma named_stripped typ : strip_mvi typ = PtActions -> named_actions typ = 1.
Proof.
  unfold strip_mvi. destruct (_ =? _); [|by intros ->]. intros E. unfold named_actions.
  replace (typ mod 256) with (Z.ldiff typ MviFlag mod 256) by (rewrite Z.ldiff_land; by apply low_byte). by rewrite E.
Qed.
Lemma deep_gated m vd rd typ : room vd rd -> levels vd rd + named_actions typ + m <= n -> deep free m (pull_gated fl rv rr vd rd typ).
Proof.
  intros Hroom Hm. pose proof (named_actions_range typ). unfold pull_gated. apply deep_if; intros _.
  - deep_go. apply deep_bare; [done|lia|]. intros ->. change (named_actions PtActions) with 1 in Hm. lia.
  - apply deep_bare; [done|lia|]. intros E%named_stripped. lia.
Qed.
End deep_level.

Lemma deep_all n fl :
  (forall m vd rd typ, 0 <= m -> room vd rd -> levels vd rd + named_actions typ + m < Z.of_nat n -> deep free m (pull_value n fl vd rd typ))
  /\ (forall m vd rd, 0 <= m -> room vd rd -> levels vd rd + m < Z.of_nat n -> deep free m (pull_restriction n fl vd rd)).
Proof.
  assert (Hno : forall A m (r : pull A), m < 0 -> deep free m r) by (intros A m r Hm b Hb; pose proof (actions_named_nonneg b); lia).
  induction n as [|n [IHv IHr]].
  - split; intros m vd rd; [intros typ|]; intros Hm [Hv Hr] Hl; [pose proof (named_actions_range typ)|]; unfold levels in Hl; cbn in Hl; lia.
  - assert (Hrv : forall m vd rd typ, room vd rd -> levels vd rd + named_actions typ + m < Z.of_nat n -> deep free m (pull_value n fl vd rd typ))
      by (intros m vd rd typ; destruct (Z.ltb_spec m 0); [intros; by apply Hno|intros; by apply IHv]).
    assert (Hrr : forall m vd rd, room vd rd -> levels vd rd + m < Z.of_nat n -> deep free m (pull_restriction n fl vd rd))
      by (intros m vd rd; destruct (Z.ltb_spec m 0); [intros; by apply Hno|intros; by apply IHr]).
    split; intros; cbn [pull_value pull_restriction].
    + eapply deep_gated; [exact Hrv|exact Hrr|done|lia].
    + eapply deep_resNode; [exact Hrv|exact Hrr|done|lia].
Qed.

(** *** More levels give the same answer *)

(** [under r r']: where [r] does not run out of fuel, [r'] answers the same. *)
Definition under {A} (r r' : pull A) : Prop := forall b, r b = Err OutOfFuel \/ r' b = r b.

Lemma under_refl {A} (r : pull A) : under r r.
Proof. intros b. by right. Qed.
Lemma under_trans {A} (r1 r2 r3 : pull A) : under r1 r2 -> under r2 r3 -> under r1 r3.
Proof. intros H1 H2 b. destruct (H1 b) as [E|E]; [by left|]. destruct (H2 b) as [E'|E']; [left|right]; congruence. Qed.
Lemma under_bind {A B} (r r' : pull A) (k k' : A -> pull B) :
  under r r' -> (forall x, under (k x) (k' x)) -> under (x <- r ;; k x) (x <- r' ;; k' x).
Proof.
  intros Hr Hk b. unfold pull_bind. destruct (Hr b) as [->| ->]; [by left|]. destruct (r b) as [[x b']|]; [apply Hk|by right].
Qed.
Lemma under_if {A} (t : bool) (r1 r1' r2 r2' : pull A) : under r1 r1' -> under r2 r2' -> under (if t then r1 else r2) (if t then r1' else r2').
Proof. by destruct t. Qed.
Lemma under_times {A} n (r r' : pull A) : under r r' -> under (pull_times n r) (pull_times n r').
Proof. intros H. induction n as [|n IH]; [apply under_refl|]. apply under_bind; [done|]. intros x. apply under_bind; [done|]. intros. apply under_refl. Qed.
Lemma under_elems {A} n (r r' : pull A) : under r r' -> under (pull_elems n r) (pull_elems n r').
Proof. intros H. apply under_bind; [apply under_refl|]. intros _. by apply under_times. Qed.
Ltac under_go :=
  repeat first
    [ apply under_refl
    | solve [auto]
    | progress intros
    | apply under_if
    | apply under_elems | apply under_times
    | apply under_bind
    | progress case_match ].

Section under_level.
Context (fl : Z) (rv rv' : forall vd rd typ : Z, pull any) (rr rr' : forall vd rd : Z, pull Restriction).
Context (Hrv : forall vd rd typ, under (rv vd rd typ) (rv' vd rd typ)) (Hrr : forall vd rd, under (rr vd rd) (rr' vd rd)).

Lemma under_resNode vd rd : under (pull_resNode fl rv rr vd rd) (pull_resNode fl rv' rr' vd rd).
Proof. unfold pull_resNode, pull_resPayload, pull_resComment, pull_tagged. under_go. Qed.
Lemma under_ruleActions vd rd : under (pull_ruleActions fl rv vd rd) (pull_ruleActions fl rv' vd rd).
Proof. unfold pull_ruleActions, pull_actionBlock, pull_actData, pull_forwardDelegate, pull_recipientBlock, pull_tagged. under_go. Qed.
Lemma under_gated vd rd typ : under (pull_gated fl rv rr vd rd typ) (pull_gated fl rv' rr' vd rd typ).
Proof. pose proof under_resNode. pose proof under_ruleActions. unfold pull_gated, pull_bare, pull_typed. under_go. Qed.
End under_level.

Lemma under_step n fl :
  (forall vd rd typ, under (pull_value n fl vd rd typ) (pull_value (S n) fl vd rd typ))
  /\ (forall vd rd, under (pull_restriction n fl vd rd) (pull_restriction (S n) fl vd rd)).
Proof.
  induction n as [|n [IHv IHr]]; [split; intros; intros b; by left|].
  split; intros; [by apply under_gated|by apply under_resNode].
Qed.
Lemma under_levels {A} (r : nat -> pull A) n n' : (forall n, under (r n) (r (S n))) -> (n <= n')%nat -> under (r n) (r n').
Proof. intros H. induction 1 as [|n' _ IH]; [apply under_refl|]. by eapply under_trans. Qed.

(** ** The entry points on arbitrary bytes *)

(** A read that ends on every input: with a declared error, or with a value that is [ok]
    and what is unread a suffix of what was given; and all it takes are the levels of
    the two limits, one more and one for each rule actions the input names. *)
Definition total_read {A} (ok : A -> Prop) (entry : pull A) (at_level : nat -> pull A) : Prop := forall b,
  match entry b with
  | Ok (x, rest) => ok x /\ exists consumed, b = consumed ++ rest
  | Err e => e <> OutOfFuel
  end
  /\ forall n, maxTypedValDepth + maxRestrictionDepth + 2 + actions_named b <= Z.of_nat n -> at_level n b = entry b.

Lemma safe_total {A} d (P : A -> Prop) (r : nat -> pull A) :
  (forall n, safe d n P (r (S n))) -> (forall n, under (r n) (r (S n))) ->
  (forall n m, 0 <= m -> maxTypedValDepth + maxRestrictionDepth + 1 + m < Z.of_nat n -> deep free m (r n)) ->
  total_read P (with_fuel r) r.
Proof.
  intros H Hu Hd b. unfold with_fuel. specialize (H (length b) b ltac:(lia)). split.
  - destruct (r _ b) as [[x rest]|]; [|done]. destruct H as (Hx & p & -> & _). split; [done|]. by exists p.
  - intros n Hn. specialize (Hd n (actions_named b) (actions_named_nonneg b) ltac:(lia) b ltac:(lia)).
    destruct (Nat.le_ge_cases n (S (length b))) as [Hle|Hle].
    + destruct (under_levels r n _ Hu Hle b) as [E|E]; [by rewrite E in Hd|done].
    + destruct (under_levels r _ n Hu Hle b) as [E|E]; [by rewrite E in H|done].
Qed.

Lemma room0 : room 0 0.
Proof. by vm_compute. Qed.

Lemma safe_value_entry fl typ n : safe 0 n (within 0 0) (pull_value (S n) fl 0 0 typ).
Proof. apply (safe_all (S n) fl); [lia|apply room0]. Qed.

Lemma safe_tagged_entry fl n :
  safe 1 n (fun tp => within 0 0 (tpValue tp)) (pull_tagged (pull_value (S n) fl) 0 0).
Proof.
  eapply safe_tagged with (n := S n); [|lia|apply room0]. intros. by apply (safe_all (S n) fl).
Qed.

Lemma safe_propvals fl m n : (m <= n)%nat ->
  safe 0 m (Forall (fun tp => within 0 0 (tpValue tp))) (pull_propertyValues fl (S n)).
Proof.
  intros. unfold pull_propertyValues. eapply safe_zero, safe_bind0; [apply safe_u16|].
  intros c _ _. eapply safe_elems, safe_zero, safe_mono; [apply safe_tagged_entry|lia].
Qed.

Lemma safe_elems_nil {A} m (P : A -> Prop) n r :
  safe 0 m P r -> safe 0 m (Forall P) (pull_elems_nil n r).
Proof.
  intros. unfold pull_elems_nil. apply safe_if; intros _; [by apply total_ret|by apply safe_elems].
Qed.

Lemma safe_tarray fl n :
  safe 0 n (Forall (Forall (fun tp => within 0 0 (tpValue tp))))
    (c <- pull_Uint32 ;; pull_elems_nil c (pull_propertyValues fl (S n))).
Proof.
  eapply safe_zero, safe_bind0; [apply safe_u32|].
  intros c _ _. apply safe_elems_nil, safe_propvals. lia.
Qed.

Lemma safe_restriction_entry fl n :
  safe 1 n (fun r => within 0 0 (ARes r)) (pull_restriction (S n) fl 0 0).
Proof. apply (safe_all (S n) fl); [lia|apply room0]. Qed.

Lemma under_propvals fl n : under (pull_propertyValues fl n) (pull_propertyValues fl (S n)).
Proof. pose proof (proj1 (under_step n fl)). unfold pull_propertyValues, pull_tagged. under_go. Qed.
Lemma deep_entry fl n m : 0 <= m -> maxTypedValDepth + maxRestrictionDepth + 1 + m < Z.of_nat n ->
  deep free m (pull_tagged (pull_value n fl) 0 0) /\ deep free m (pull_propertyValues fl n) /\ deep free m (pull_ruleActions fl (pull_value n fl) 0 0).
Proof.
  intros Hm Hn. pose proof room0.
  assert (Hrv : forall k vd rd typ, room vd rd -> levels vd rd + named_actions typ + k < Z.of_nat n -> deep free k (pull_value n fl vd rd typ)).
  { intros k vd rd typ Hr Hk. destruct (Z.ltb_spec k 0) as [Hk0|]; [|by apply deep_all]. intros b Hb. pose proof (actions_named_nonneg b). lia. }
  assert (Ht : deep free m (pull_tagged (pull_value n fl) 0 0)) by (eapply deep_tagged; [exact Hrv|done|unfold levels; lia]).
  split; [done|]. split; [unfold pull_propertyValues; deep_go|]. eapply deep_ruleActions; [exact Hrv|done|unfold levels; lia].
Qed.

(** C36. Decoding terminates on every input, in a depth of recursion that the limits bound: property
    values of any type code, restrictions, property lists, row sets and rule actions are read to one
    of the declared errors or to a value in which self-describing values and restrictions each nest
    at most 100 deep, with what is unread a suffix of what was given; and the recursion goes no deeper
    than 202 levels and one for each byte 0xFE, the low byte of the type code of rule actions, whose
    nesting the limits do not count. *)
Theorem decoder_total fl typ :
  total_read (within 0 0) (pull_PropValue fl typ) (fun n => pull_value n fl 0 0 typ)
  /\ total_read (fun r => within 0 0 (ARes r)) (pull_Restriction fl) (fun n => pull_restriction n fl 0 0)
  /\ total_read (Forall (fun tp => within 0 0 (tpValue tp))) (pull_PropertyValues fl) (pull_propertyValues fl)
  /\ total_read (Forall (Forall (fun tp => within 0 0 (tpValue tp)))) (pull_TArraySet fl) (fun n => c <- pull_Uint32 ;; pull_elems_nil c (pull_propertyValues fl n))
  /\ total_read (fun r => within 0 0 (AActions r)) (pull_RuleActions fl) (fun n => pull_ruleActions fl (pull_value n fl) 0 0).
Proof.
  pose proof room0. pose proof (named_actions_range typ). split; [|split; [|split; [|split]]]; eapply safe_total.
  - apply safe_value_entry.
  - intros n. apply under_step.
  - intros n m Hm Hn. apply deep_all; [done|done|unfold levels; lia].
  - apply safe_restriction_entry.
  - intros n. apply under_step.
  - intros n m Hm Hn. apply deep_all; [done|done|unfold levels; lia].
  - intros. by apply safe_propvals.
  - apply under_propvals.
  - intros n m Hm Hn. by apply deep_entry.
  - apply safe_tarray.
  - intros n. pose proof (under_propvals fl n). unfold pull_elems_nil. under_go.
  - intros n m Hm Hn. destruct (deep_entry fl n m Hm Hn) as (_ & Hp & _). apply deep_then; [deep_leaf|]. intros c. by apply deep_elems_nil.
  - intros n. eapply safe_ruleActions with (n := S n); [|lia|apply room0]. intros. by apply (safe_all (S n) fl).
  - intros n. apply under_ruleActions. intros. apply under_step.
  - intros n m Hm Hn. by apply deep_entry.
Qed.

(** The depth counters do their work: in any property value or restriction decoded
    from any bytes, self-describing values nest at most [maxTypedValDepth] deep and
    restriction nodes at most [maxRestrictionDepth] deep, along every path, however the
    two kinds alternate. *)
Theorem decoded_depth_bounded fl typ b v rest :
  pull_PropValue fl typ b = Ok (v, rest) ->
  typed_depth v <= maxTypedValDepth /\ res_depth v <= maxRestrictionDepth.
Proof.
  intros E. pose proof (safe_value_entry fl typ (length b) b ltac:(lia)) as H.
  unfold pull_PropValue, with_fuel in E. rewrite E in H. destruct H as [H _]. within_go.
Qed.

(** A restriction NOT over an EXISTS, inside a self-describing value. *)
Example decoded_depth_bounded_witness :
  exists v, pull_PropValue 0 PtUnspecified [0xFD; 0; 0x02; 0x08; 1; 0; 2; 0; 7] = Ok (v, [7])
  /\ typed_depth v = 1 /\ res_depth v = 2 /\ res_depth v <= maxRestrictionDepth.
Proof.
  eexists. split; [vm_compute; reflexivity|]. split; [reflexivity|]. split; [reflexivity|].
  eapply (decoded_depth_bounded 0 PtUnspecified [0xFD; 0; 0x02; 0x08; 1; 0; 2; 0; 7]).
  vm_compute. reflexivity.
Defined.

(** ** Rule actions nest through tagged values

    A TAG action carries a property value, and a value of type PtActions carries rule
    actions: neither counter is touched on the way, and the length field of a block does
    not bound what is read inside it. *)

Lemma codec_read {A} k w (r : pull A) x bs rest :
  codec k w (fun _ => r) x -> w [] = Ok bs -> r (bs ++ rest) = Ok (x, rest).
Proof. intros (bs' & _ & W & R) E. rewrite W in E. injection E as <-. by apply (R (S (length bs'))), Nat.lt_succ_diag_r. Qed.

Definition block_header (ty : Z) : bytes :=
  le_bytes 2 1 ++ le_bytes 2 0 ++ le_bytes 1 ty ++ le_bytes 4 0 ++ le_bytes 4 0.

(** A list of one block: its header, then whatever the reader of its type makes of the rest. *)
Lemma one_block fl rv vd rd ty data :
  inU 8 ty = true ->
  pull_ruleActions fl rv vd rd (block_header ty ++ data)
  = match pull_actData fl rv vd rd ty 0 data with
    | Ok (x, rest) => Ok (mkRuleActions [mkAction ty 0 0 x], rest)
    | Err e => Err e
    end.
Proof.
  intros Hty. unfold pull_ruleActions, block_header. rewrite <- !app_assoc.
  unfold pull_bind at 1. rewrite (codec_read _ _ _ 1 (le_bytes 2 1) _ (codec_u16 1 eq_refl) eq_refl).
  cbn [Z.eqb]. unfold pull_elems, pull_bind, pull_checkCount. change (Z.to_nat 1) with 1%nat. cbn [pull_times].
  destruct (Z.ltb_spec (len (le_bytes 2 0 ++ le_bytes 1 ty ++ le_bytes 4 0 ++ le_bytes 4 0 ++ data)) 1) as [L|_].
  { rewrite len_app in L. pose proof (len_nonneg (le_bytes 1 ty ++ le_bytes 4 0 ++ le_bytes 4 0 ++ data)).
    change (len (le_bytes 2 0)) with 2 in L. lia. }
  unfold pull_actionBlock, pull_bind.
  rewrite (codec_read _ _ _ 0 (le_bytes 2 0) _ (codec_u16 0 eq_refl) eq_refl).
  rewrite (codec_read _ _ _ ty (le_bytes 1 ty) _ (codec_u8 ty Hty) eq_refl).
  rewrite !(codec_read _ _ _ 0 (le_bytes 4 0) _ (codec_u32 0 eq_refl) eq_refl).
  by destruct (pull_actData fl rv vd rd ty 0 data) as [[x rest]|].
Qed.

(** [n] TAG actions around a DELETE action, with zero length fields. *)
Fixpoint nested_actions (n : nat) : bytes :=
  match n with
  | O => block_header 0x0A
  | S n => block_header 9 ++ le_bytes 4 PtActions ++ nested_actions n
  end.

Fixpoint nested_value (n : nat) : any :=
  match n with
  | O => AActions (mkRuleActions [mkAction 0x0A 0 0 ANil])
  | S n => AActions (mkRuleActions [mkAction 9 0 0 (ATagged (mkTagged PtActions (nested_value n)))])
  end.

Lemma nested_action_depth n : action_depth (nested_value n) = Z.of_nat n + 1.
Proof. unfold action_depth. induction n as [|n IH]; [done|]. cbn in *. lia. Qed.

Lemma nested_actions_length n : length (nested_actions n) = (17 * n + 13)%nat.
Proof. induction n as [|n IH]; [done|]. cbn [nested_actions]. rewrite !length_app, IH. cbn. lia. Qed.

Lemma pull_value_actions f vd rd b :
  pull_value (S f) 0 vd rd PtActions b
  = match pull_ruleActions 0 (pull_value f 0) vd rd b with
    | Ok (r, rest) => Ok (AActions r, rest)
    | Err e => Err e
    end.
Proof. reflexivity. Qed.

Lemma nested_read n f rest : (n < f)%nat ->
  pull_value f 0 0 0 PtActions (nested_actions n ++ rest) = Ok (nested_value n, rest).
Proof.
  revert f. induction n as [|n IH]; intros [|f] Hf; try lia; rewrite pull_value_actions;
    cbn [nested_actions]; rewrite <- ?app_assoc, one_block by done; [done|].
  unfold pull_actData. cbn [table_get act_table Z.eqb Pos.eqb].
  unfold pull_tagged, pull_bind.
  rewrite (codec_read _ _ _ PtActions (le_bytes 4 PtActions) _ (codec_u32 PtActions eq_refl) eq_refl).
  change (PropTag_Type PtActions) with PtActions. by rewrite IH by lia.
Qed.

(** The depth counters do not bound the recursion of the value decoder as a whole: for
    every [n] there is an input of 17[n]+13 bytes that decodes successfully to a value in
    which [n]+1 lists of rule actions are nested, while neither counter ever moves. *)
Theorem action_nesting_unbounded n : exists b v,
  len b = 17 * Z.of_nat n + 13 /\ pull_PropValue 0 PtActions b = Ok (v, [])
  /\ action_depth v = Z.of_nat n + 1 /\ typed_depth v = 0 /\ res_depth v = 0.
Proof.
  exists (nested_actions n), (nested_value n). unfold len. rewrite nested_actions_length.
  split; [lia|]. split; [|split; [apply nested_action_depth|]].
  - unfold pull_PropValue, with_fuel. rewrite <- (app_nil_r (nested_actions n)) at 2.
    apply nested_read. rewrite nested_actions_length. lia.
  - unfold typed_depth, res_depth. induction n as [|n IH]; [done|]. cbn in *. lia.
Qed.
