(* ===== verification/Globset.v ===== *)
(** * GLOBSET ranges and their command stream ([internal/ics/globset.go])

    A replica's set of 48-bit counters as a list of inclusive ranges: insertion with
    coalescing, removal, membership, and the GLOBSET command stream with its stack of
    common bytes.  [wf_ranges] is the canonical form (sorted, disjoint, non-adjacent);
    insertion and removal refine the set operations and keep it, and the command stream
    carries every canonical set without loss. *)

From stdpp Require Import base list numbers.
From Stdlib Require Import ZArith Lia Sorting.Permutation Sorting.Sorted.
From S2P Require Import Prelude Mapi.
Open Scope Z_scope.

(** ** Ranges *)

Record rangeNode := mkRange { rn_lo : Z; rn_hi : Z }.

#[export] Instance rangeNode_eq_dec : EqDecision rangeNode.
Proof. solve_decision. Defined.

Abbreviation rangeSet := (list rangeNode).

Definition rs_empty (rs : rangeSet) : bool := len rs =? 0.

(** [sort.Slice] by [lo].  The order it leaves among equal keys is unspecified; this is
    one of the possible results, and [coalesce_any_order] covers all of them. *)
Fixpoint sort_place (nd : rangeNode) (l : rangeSet) : rangeSet :=
  match l with
  | [] => [nd]
  | x :: l => if rn_lo nd <? rn_lo x then nd :: x :: l else x :: sort_place nd l
  end.
Definition sort_by_lo (l : rangeSet) : rangeSet := fold_left (fun s nd => sort_place nd s) l [].

(** The merge loop of [insert]; [last] is the range kept most recently. *)
Fixpoint coalesce_from (last : rangeNode) (l : rangeSet) : rangeSet :=
  match l with
  | [] => [last]
  | nd :: l =>
      if rn_lo nd <=? u64 (rn_hi last + 1) then
        coalesce_from
          (if rn_hi last <? rn_hi nd then mkRange (rn_lo last) (rn_hi nd) else last) l
      else last :: coalesce_from nd l
  end.
Definition coalesce (l : rangeSet) : rangeSet :=
  match l with [] => [] | nd :: l => coalesce_from nd l end.

Definition rs_insert (rs : rangeSet) (lo hi : Z) : rangeSet :=
  coalesce (sort_by_lo (rs ++ [mkRange lo hi])).

Definition rs_appendRaw (rs : rangeSet) (lo hi : Z) : rangeSet := rs ++ [mkRange lo hi].

Definition erase_node (v : Z) (nd : rangeNode) : rangeSet :=
  if (v <? rn_lo nd) || (rn_hi nd <? v) then [nd]
  else (if rn_lo nd <? v then [mkRange (rn_lo nd) (u64 (v - 1))] else [])
       ++ (if v <? rn_hi nd then [mkRange (u64 (v + 1)) (rn_hi nd)] else []).
Definition rs_erase (rs : rangeSet) (v : Z) : rangeSet := flat_map (erase_node v) rs.

Definition in_node (v : Z) (nd : rangeNode) : bool := (rn_lo nd <=? v) && (v <=? rn_hi nd).
Definition rs_contains (rs : rangeSet) (v : Z) : bool := existsb (in_node v) rs.

(** ** The canonical form *)

(** Every range above [b], in order, with a gap of at least one value between two. *)
Fixpoint wf_above (b : Z) (l : rangeSet) : bool :=
  match l with
  | [] => true
  | nd :: l => (b <? rn_lo nd) && (rn_lo nd <=? rn_hi nd) && wf_above (rn_hi nd + 1) l
  end.
Definition wf_ranges (l : rangeSet) : bool := wf_above (-1) l.

Definition upright (nd : rangeNode) : bool := rn_lo nd <=? rn_hi nd.
(** [hi+1] does not overflow: the sources keep 48-bit counters. *)
Definition counter_node (nd : rangeNode) : bool :=
  (0 <=? rn_lo nd) && (0 <=? rn_hi nd) && (rn_hi nd <? 2 ^ 48 + 8).

Definition by_lo (a b : rangeNode) : Prop := rn_lo a <= rn_lo b.

Lemma u64_small x : 0 <= x < 2 ^ 64 -> u64 x = x.
Proof. intros. unfold u64. by rewrite Z.mod_small. Qed.

Lemma u64_counter nd : counter_node nd = true -> u64 (rn_hi nd + 1) = rn_hi nd + 1.
Proof. unfold counter_node. intros. bprop. apply u64_small. lia. Qed.

(** *** Sorting *)

Lemma sort_place_perm nd l : Permutation (sort_place nd l) (nd :: l).
Proof.
  induction l as [|x l IH]; simpl; [done|]. destruct (_ <? _); [done|].
  rewrite IH. apply Permutation_swap.
Qed.

Lemma sort_fold_perm l acc :
  Permutation (fold_left (fun s nd => sort_place nd s) l acc) (l ++ acc).
Proof.
  revert acc. induction l as [|x l IH]; intros acc; simpl; [done|].
  rewrite IH, sort_place_perm. symmetry. apply Permutation_middle.
Qed.

Lemma sort_perm l : Permutation (sort_by_lo l) l.
Proof. unfold sort_by_lo. by rewrite sort_fold_perm, app_nil_r. Qed.

Lemma sort_place_sorted nd l : StronglySorted by_lo l -> StronglySorted by_lo (sort_place nd l).
Proof.
  induction 1 as [|x l Hl IH Hx]; simpl; [repeat constructor|].
  destruct (Z.ltb_spec (rn_lo nd) (rn_lo x)).
  - constructor; [by constructor|]. constructor; [unfold by_lo; lia|].
    eapply List.Forall_impl; [|exact Hx]. unfold by_lo. intros; lia.
  - constructor; [done|]. rewrite sort_place_perm. constructor; [unfold by_lo; lia|done].
Qed.

Lemma sort_sorted l : StronglySorted by_lo (sort_by_lo l).
Proof.
  unfold sort_by_lo. assert (H : StronglySorted by_lo []) by constructor. revert H.
  generalize (@nil rangeNode). induction l as [|x l IH]; intros acc H; simpl; [done|].
  by apply IH, sort_place_sorted.
Qed.

(** *** Coalescing *)

Lemma rs_contains_perm l l' v : Permutation l l' -> rs_contains l v = rs_contains l' v.
Proof.
  unfold rs_contains. induction 1; simpl; try congruence.
  destruct (in_node v x), (in_node v y); done.
Qed.

Lemma rs_contains_app a b v : rs_contains (a ++ b) v = rs_contains a v || rs_contains b v.
Proof. apply existsb_app. Qed.

(** Merging keeps the members, upright ranges or not. *)
Lemma coalesce_from_contains last l v :
  Forall (by_lo last) l -> StronglySorted by_lo l ->
  counter_node last = true -> forallb counter_node l = true ->
  rs_contains (coalesce_from last l) v = in_node v last || rs_contains l v.
Proof.
  revert last. induction l as [|nd l IH]; intros last Hlast Hs Hc Hcs; simpl; [done|].
  simpl in Hcs. bsplit. rewrite u64_counter by done.
  apply Forall_cons_1 in Hlast as [Hnd Hlast]. unfold by_lo in Hnd.
  apply StronglySorted_inv in Hs as [Hs Hndl].
  destruct (Z.leb_spec (rn_lo nd) (rn_hi last + 1)) as [Hm|Hm].
  - rewrite IH; [| |done| |done].
    + rewrite orb_assoc. f_equal. unfold in_node.
      destruct (Z.ltb_spec (rn_hi last) (rn_hi nd)); cbn [rn_lo rn_hi];
        rewrite eq_iff_eq_true, orb_true_iff, !andb_true_iff, !Z.leb_le; lia.
    + destruct (_ <? _); [|done]. eapply List.Forall_impl; [|exact Hlast]. done.
    + destruct (_ <? _); [|done]. unfold counter_node in *. cbn. bsolve.
  - simpl. rewrite IH by done. done.
Qed.

Lemma coalesce_from_wf b last l :
  b < rn_lo last -> upright last = true -> forallb upright l = true ->
  Forall (by_lo last) l -> StronglySorted by_lo l ->
  counter_node last = true -> forallb counter_node l = true ->
  wf_above b (coalesce_from last l) = true.
Proof.
  revert b last. induction l as [|nd l IH]; intros b last Hb Hu Hus Hlast Hs Hc Hcs.
  - simpl. unfold upright in Hu. by rewrite Hu, (proj2 (Z.ltb_lt _ _) Hb).
  - simpl in *. bsplit. rewrite u64_counter by done.
    apply Forall_cons_1 in Hlast as [Hnd Hlast]. unfold by_lo in Hnd.
    apply StronglySorted_inv in Hs as [Hs Hndl].
    destruct (Z.leb_spec (rn_lo nd) (rn_hi last + 1)) as [Hm|Hm].
    + apply IH; try done; destruct (Z.ltb_spec (rn_hi last) (rn_hi nd)); try done.
      * unfold upright in *. cbn. bsolve.
      * unfold counter_node in *. cbn. bsolve.
    + simpl. unfold upright in Hu. rewrite Hu, (proj2 (Z.ltb_lt _ _) Hb). simpl.
      by apply IH.
Qed.

(** *** The canonical form is unique *)

Lemma wf_above_weaken b b' l : b' <= b -> wf_above b l = true -> wf_above b' l = true.
Proof. destruct l; simpl; [done|]. intros. bsolve. Qed.

Lemma wf_above_not_in b l v : v <= b -> wf_above b l = true -> rs_contains l v = false.
Proof.
  revert b. induction l as [|nd l IH]; intros b Hv; simpl; [done|]. intros. bprop.
  rewrite (IH (rn_hi nd + 1)) by (try lia; done). rewrite orb_false_r.
  unfold in_node. apply andb_false_iff. left. apply Z.leb_gt. lia.
Qed.

Lemma wf_above_in b l v : wf_above b l = true -> rs_contains l v = true -> b < v.
Proof.
  intros Hw Hc. destruct (Z.lt_ge_cases b v); [done|].
  rewrite (wf_above_not_in b l v) in Hc by done. done.
Qed.

Lemma wf_head b nd l v : wf_above b (nd :: l) = true -> rs_contains (nd :: l) v = true -> rn_lo nd <= v.
Proof.
  simpl. intros. bprop. apply orb_true_iff in H0 as [Hn|Hl].
  - unfold in_node in Hn. bprop. lia.
  - eapply wf_above_in in Hl; [|eassumption]. lia.
Qed.

Lemma in_node_lo nd : upright nd = true -> in_node (rn_lo nd) nd = true.
Proof. unfold upright, in_node. intros ->. by rewrite Z.leb_refl. Qed.

Lemma wf_head_hi b a c l1 l2 :
  wf_above b (a :: l1) = true -> rn_lo a = rn_lo c -> rn_lo c <= rn_hi c ->
  (forall v, rs_contains (a :: l1) v = rs_contains (c :: l2) v) -> rn_hi c <= rn_hi a.
Proof.
  simpl. intros W El Hc E. bprop. destruct (Z.le_gt_cases (rn_hi c) (rn_hi a)); [done|].
  specialize (E (rn_hi a + 1)).
  rewrite (wf_above_not_in (rn_hi a + 1) l1) in E by (try lia; done).
  unfold in_node in E. destruct (Z.leb_spec (rn_lo c) (rn_hi a + 1)); [|lia].
  destruct (Z.leb_spec (rn_hi a + 1) (rn_hi c)); [|lia].
  destruct (Z.leb_spec (rn_hi a + 1) (rn_hi a)); [lia|]. rewrite andb_false_r in E. done.
Qed.

(** Two canonical lists with the same members are the same list. *)
Lemma wf_canonical b1 b2 l1 l2 :
  wf_above b1 l1 = true -> wf_above b2 l2 = true ->
  (forall v, rs_contains l1 v = rs_contains l2 v) -> l1 = l2.
Proof.
  revert b1 b2 l2. induction l1 as [|a l1 IH]; intros b1 b2 [|c l2] W1 W2 E; [done| | |].
  - specialize (E (rn_lo c)). simpl in E, W2. bprop. by rewrite in_node_lo in E by by apply Z.leb_le.
  - specialize (E (rn_lo a)). simpl in E, W1. bprop. by rewrite in_node_lo in E by by apply Z.leb_le.
  - pose proof W1 as W1'. pose proof W2 as W2'. simpl in W1, W2. bprop.
    assert (El : rn_lo a = rn_lo c).
    { apply Z.le_antisymm.
      - apply (wf_head b1 a l1); [done|]. rewrite E. simpl. by rewrite in_node_lo by by apply Z.leb_le.
      - apply (wf_head b2 c l2); [done|]. rewrite <- E. simpl. by rewrite in_node_lo by by apply Z.leb_le. }
    assert (Eh : rn_hi a = rn_hi c).
    { apply Z.le_antisymm; [by eapply wf_head_hi; [exact W2'| |lia|]|by eapply wf_head_hi; [exact W1'| |lia|]]. }
    assert (a = c) as -> by (destruct a, c; simpl in *; congruence). f_equal.
    eapply IH; [done..|]. intros v. specialize (E v). simpl in E.
    destruct (Z.le_gt_cases v (rn_hi c + 1)).
    + by rewrite (wf_above_not_in (rn_hi c + 1) l1), (wf_above_not_in (rn_hi c + 1) l2) by (try lia; congruence).
    + assert (in_node v c = false) as Ec; [|by rewrite Ec in E].
      unfold in_node. apply andb_false_iff. right. apply Z.leb_gt. lia.
Qed.

(** *** The operations on sets *)

Definition ranges_ok (rs : rangeSet) : bool := forallb upright rs && forallb counter_node rs.

Lemma coalesce_contains s v :
  StronglySorted by_lo s -> forallb counter_node s = true ->
  rs_contains (coalesce s) v = rs_contains s v.
Proof.
  destruct s as [|nd s]; [done|]. intros Hs Hc. apply StronglySorted_inv in Hs as [Hs Hnd].
  simpl in *. bsplit. by apply coalesce_from_contains.
Qed.

Lemma coalesce_wf s :
  StronglySorted by_lo s -> ranges_ok s = true -> wf_ranges (coalesce s) = true.
Proof.
  destruct s as [|nd s]; [done|]. intros Hs Hok. apply StronglySorted_inv in Hs as [Hs Hnd].
  unfold ranges_ok in Hok. simpl in Hok. bsplit. apply coalesce_from_wf; try done.
  unfold counter_node in *. bprop. lia.
Qed.

Lemma forallb_perm {A} (f : A -> bool) l l' : Permutation l l' -> forallb f l = forallb f l'.
Proof. induction 1; simpl; try congruence. destruct (f x), (f y); done. Qed.

(** Whatever order the sort leaves equal keys in, the result is the same. *)
Lemma coalesce_any_order s s' :
  Permutation s s' -> StronglySorted by_lo s -> StronglySorted by_lo s' ->
  ranges_ok s = true -> coalesce s = coalesce s'.
Proof.
  intros Hp Hs Hs' Hok.
  assert (Hok' : ranges_ok s' = true)
    by (unfold ranges_ok in *; by rewrite <- !(forallb_perm _ _ _ Hp)).
  eapply wf_canonical; [by apply coalesce_wf..|].
  intros v. unfold ranges_ok in *. bsplit. rewrite !coalesce_contains by done. by apply rs_contains_perm.
Qed.

Lemma rs_insert_contains rs lo hi v :
  forallb counter_node rs = true -> counter_node (mkRange lo hi) = true ->
  rs_contains (rs_insert rs lo hi) v = rs_contains rs v || ((lo <=? v) && (v <=? hi)).
Proof.
  intros Hc Hn. unfold rs_insert. rewrite coalesce_contains.
  - rewrite (rs_contains_perm _ _ _ (sort_perm _)), rs_contains_app. simpl.
    by rewrite orb_false_r.
  - apply sort_sorted.
  - rewrite (forallb_perm _ _ _ (sort_perm _)), forallb_app. simpl. by rewrite Hc, Hn.
Qed.

Lemma ranges_ok_snoc rs lo hi :
  ranges_ok rs = true -> lo <= hi -> counter_node (mkRange lo hi) = true ->
  ranges_ok (rs ++ [mkRange lo hi]) = true.
Proof.
  unfold ranges_ok, upright. intros. rewrite !forallb_app. simpl. bsplit.
  rewrite H, H1, H2. simpl. by rewrite (proj2 (Z.leb_le lo hi)).
Qed.

Lemma rs_insert_wf rs lo hi :
  ranges_ok rs = true -> lo <= hi -> counter_node (mkRange lo hi) = true ->
  wf_ranges (rs_insert rs lo hi) = true.
Proof.
  intros Hok Hle Hn. apply coalesce_wf; [apply sort_sorted|].
  pose proof (ranges_ok_snoc rs lo hi Hok Hle Hn) as H. unfold ranges_ok in *.
  by rewrite !(forallb_perm _ _ _ (sort_perm _)).
Qed.

Lemma coalesce_from_counter last l :
  counter_node last = true -> forallb counter_node l = true ->
  forallb counter_node (coalesce_from last l) = true.
Proof.
  revert last. induction l as [|nd l IH]; intros last Hc Hcs; simpl in *; [by rewrite Hc|].
  bsplit. destruct (_ <=? _).
  - apply IH; [|done]. destruct (_ <? _); [|done]. unfold counter_node in *. cbn. bsolve.
  - simpl. rewrite Hc. by apply IH.
Qed.

Lemma rs_insert_counter rs lo hi :
  forallb counter_node rs = true -> counter_node (mkRange lo hi) = true ->
  forallb counter_node (rs_insert rs lo hi) = true.
Proof.
  intros Hc Hn. unfold rs_insert.
  assert (H : forallb counter_node (sort_by_lo (rs ++ [mkRange lo hi])) = true).
  { rewrite (forallb_perm _ _ _ (sort_perm _)), forallb_app. simpl. by rewrite Hc, Hn. }
  destruct (sort_by_lo _); [done|]. simpl in *. bsplit. by apply coalesce_from_counter.
Qed.

Lemma wf_upright b l : wf_above b l = true -> forallb upright l = true.
Proof. revert b. induction l; simpl; [done|]. unfold upright in *. intros. bsplit. rewrite H1. eauto. Qed.

Lemma erase_node_contains nd v w :
  counter_node nd = true ->
  rs_contains (erase_node v nd) w = in_node w nd && negb (w =? v).
Proof.
  unfold counter_node, erase_node. intros. bprop.
  destruct (Z.ltb_spec v (rn_lo nd)); cbn [orb].
  { unfold rs_contains, in_node. simpl. rewrite orb_false_r, eq_iff_eq_true, !andb_true_iff, negb_true_iff, !Z.leb_le, Z.eqb_neq. lia. }
  destruct (Z.ltb_spec (rn_hi nd) v).
  { unfold rs_contains, in_node. simpl. rewrite orb_false_r, eq_iff_eq_true, !andb_true_iff, negb_true_iff, !Z.leb_le, Z.eqb_neq. lia. }
  rewrite rs_contains_app. unfold rs_contains, in_node.
  destruct (Z.ltb_spec (rn_lo nd) v), (Z.ltb_spec v (rn_hi nd)); cbn [existsb rn_lo rn_hi];
    rewrite ?u64_small by lia; rewrite ?orb_false_r;
    rewrite eq_iff_eq_true, ?orb_true_iff, !andb_true_iff, negb_true_iff, ?Z.leb_le, Z.eqb_neq;
    try lia.
Qed.

Lemma rs_erase_contains rs v w :
  forallb counter_node rs = true ->
  rs_contains (rs_erase rs v) w = rs_contains rs w && negb (w =? v).
Proof.
  induction rs as [|nd rs IH]; simpl; [done|]. intros. bsplit.
  rewrite rs_contains_app, IH, erase_node_contains by done.
  by destruct (in_node w nd), (rs_contains rs w), (w =? v).
Qed.

Lemma wf_above_app b l1 l2 :
  wf_above b (l1 ++ l2) = true <->
  wf_above b l1 = true /\ wf_above (fold_left (fun _ nd => rn_hi nd + 1) l1 b) l2 = true.
Proof.
  revert b. induction l1 as [|nd l1 IH]; intros b; simpl; [tauto|].
  rewrite !andb_true_iff, IH. tauto.
Qed.

Lemma rs_erase_wf b rs v :
  -1 <= b -> forallb counter_node rs = true ->
  wf_above b rs = true -> wf_above b (rs_erase rs v) = true.
Proof.
  revert b. induction rs as [|nd rs IH]; intros b Hb Hc; simpl in *; [done|].
  intros. bsplit. assert (Hn : counter_node nd = true) by done. unfold counter_node in Hn. bprop.
  assert (T : forall c, -1 <= c -> c <= rn_hi nd + 1 -> wf_above c (rs_erase rs v) = true).
  { intros. apply IH; [done..|]. by eapply wf_above_weaken; [|eassumption]. }
  unfold erase_node. destruct (Z.ltb_spec v (rn_lo nd)); cbn [orb app wf_above].
  { bsolve. by apply T; lia. }
  destruct (Z.ltb_spec (rn_hi nd) v); cbn [orb app wf_above].
  { bsolve. by apply T; lia. }
  destruct (Z.ltb_spec (rn_lo nd) v), (Z.ltb_spec v (rn_hi nd));
    cbn [app wf_above rn_lo rn_hi]; rewrite ?u64_small by lia; bsolve; apply T; lia.
Qed.

Lemma rs_erase_counter rs v :
  forallb counter_node rs = true -> forallb counter_node (rs_erase rs v) = true.
Proof.
  induction rs as [|nd rs IH]; simpl; [done|]. intros. bsplit. rewrite forallb_app, IH by done.
  rewrite andb_true_r. unfold erase_node, counter_node in *. bprop.
  destruct (Z.ltb_spec v (rn_lo nd)); cbn [orb forallb]; [bsolve; done|].
  destruct (Z.ltb_spec (rn_hi nd) v); cbn [orb forallb]; [bsolve; done|].
  destruct (Z.ltb_spec (rn_lo nd) v), (Z.ltb_spec v (rn_hi nd)); cbn [app forallb rn_lo rn_hi];
    rewrite ?u64_small by lia; bsolve; done.
Qed.

(** ** The command stream *)

Definition glbEnd : Z := 0x00.
Definition glbBitmask : Z := 0x42.
Definition glbPop : Z := 0x50.
Definition glbRange : Z := 0x52.

Fixpoint commonPrefixLen (a b : bytes) : nat :=
  match a, b with
  | x :: a, y :: b => if x =? y then S (commonPrefixLen a b) else 0%nat
  | _, _ => 0%nat
  end.

Definition pushCmd (length : nat) (common : bytes) : bytes := u8 (Z.of_nat length) :: common.
Definition rangeCmd (lo hi : bytes) : bytes := glbRange :: lo ++ hi.

(** [b[i:j]] *)
Definition slice (b : bytes) (i j : nat) : bytes := take (j - i) (drop i b).

Definition appendNodeUnder (nd : rangeNode) (stackLen : nat) : bytes :=
  let loGC := ValueToGC (rn_lo nd) in
  if rn_hi nd =? rn_lo nd then pushCmd (6 - stackLen) (slice loGC stackLen 6)
  else
    let hiGC := ValueToGC (rn_hi nd) in
    let i := (stackLen + commonPrefixLen (drop stackLen loGC) (drop stackLen hiGC))%nat in
    let inner := (stackLen <? i)%nat in
    (if inner then pushCmd (i - stackLen) (slice loGC stackLen i) else [])
    ++ rangeCmd (slice loGC i 6) (slice hiGC i 6)
    ++ (if inner then [glbPop] else []).

Definition serializeGlobset (nodes : rangeSet) : bytes :=
  match nodes with
  | [] => [glbEnd]
  | [nd] =>
      (if rn_hi nd =? rn_lo nd then pushCmd 6 (ValueToGC (rn_lo nd))
       else rangeCmd (ValueToGC (rn_lo nd)) (ValueToGC (rn_hi nd))) ++ [glbEnd]
  | first :: _ =>
      let frontGC := ValueToGC (rn_lo first) in
      let backGC := ValueToGC (rn_hi (List.last nodes first)) in
      let stackLen := commonPrefixLen frontGC backGC in
      (if (stackLen =? 0)%nat then [] else pushCmd stackLen (take stackLen frontGC))
      ++ flat_map (fun nd => appendNodeUnder nd stackLen) nodes
      ++ (if (stackLen =? 0)%nat then [] else [glbPop])
      ++ [glbEnd]
  end.

(** One pushed run of common bytes: [bytes[:n]] of [globFrame]. *)
Abbreviation globFrame := bytes.

(** [globsetDecoder]; the cursor is the unread rest of [data]. *)
Record globsetDecoder := mkDec {
  gd_rest : bytes; gd_stack : list globFrame; gd_rs : rangeSet }.

(** [common]: the prefix on the stack, padded to a GLOBCNT, and its length *)
Definition gd_common (d : globsetDecoder) : bytes * nat :=
  let p := concat (gd_stack d) in (take 6 (p ++ repeat 0 6), length p).

Definition gd_pop (d : globsetDecoder) : globsetDecoder :=
  mkDec (gd_rest d) (removelast (gd_stack d)) (gd_rs d).

(** Each command gives the new state and whether the stream stops there. *)
Definition gd_push (n : nat) (d : globsetDecoder) : globsetDecoder * bool :=
  if (length (gd_rest d) <? n)%nat then (d, true)
  else
    let cur := snd (gd_common d) in
    if (6 <? cur + n)%nat then (d, true)
    else
      let d1 := mkDec (drop n (gd_rest d)) (gd_stack d ++ [take n (gd_rest d)]) (gd_rs d) in
      if (cur + n =? 6)%nat then
        let x := GCToValue (fst (gd_common d1)) in
        (gd_pop (mkDec (gd_rest d1) (gd_stack d1) (rs_appendRaw (gd_rs d1) x x)), false)
      else (d1, false).

(** The loop of [appendBitmask] from bit [i], [k] bits left, with the pending range. *)
Fixpoint bitmask_loop (low mask : Z) (k : nat) (i : Z) (pend : option (Z * Z)) (rs : rangeSet)
  : rangeSet :=
  match k with
  | O => match pend with Some (lo, hi) => rs_appendRaw rs lo hi | None => rs end
  | S k =>
      if Z.land mask (Z.shiftl 1 i) =? 0 then
        match pend with
        | Some (lo, hi) => bitmask_loop low mask k (i + 1) None (rs_appendRaw rs lo hi)
        | None => bitmask_loop low mask k (i + 1) None rs
        end
      else
        match pend with
        | Some (lo, hi) => bitmask_loop low mask k (i + 1) (Some (lo, u64 (hi + 1))) rs
        | None =>
            let v := u64 (low + i + 1) in bitmask_loop low mask k (i + 1) (Some (v, v)) rs
        end
  end.
Definition rs_appendBitmask (rs : rangeSet) (low mask : Z) : rangeSet :=
  bitmask_loop low mask 8 0 (Some (low, low)) rs.

Definition gd_bitmask (d : globsetDecoder) : globsetDecoder * bool :=
  let '(gc, cur) := gd_common d in
  match gd_rest d with
  | b5 :: mask :: rest =>
      if negb (cur =? 5)%nat then (d, true)
      else (mkDec rest (gd_stack d)
              (rs_appendBitmask (gd_rs d) (GCToValue (take 5 gc ++ [b5])) mask), false)
  | _ => (d, true)
  end.

Definition gd_readRange (d : globsetDecoder) : globsetDecoder * bool :=
  let '(gc, cur) := gd_common d in
  if (6 <? cur)%nat then (d, true)
  else
    let cnt := (6 - cur)%nat in
    if (length (gd_rest d) <? 2 * cnt)%nat then (d, true)
    else
      let loGC := take cur gc ++ take cnt (gd_rest d) in
      let hiGC := take cur gc ++ take cnt (drop cnt (gd_rest d)) in
      (mkDec (drop (2 * cnt) (gd_rest d)) (gd_stack d)
         (rs_appendRaw (gd_rs d) (GCToValue loGC) (GCToValue hiGC)), false).

Definition gd_command (cmd : Z) (d : globsetDecoder) : globsetDecoder * bool :=
  if (0x01 <=? cmd) && (cmd <=? 0x06) then gd_push (Z.to_nat cmd) d
  else if cmd =? glbBitmask then gd_bitmask d
  else if cmd =? glbPop then (gd_pop d, false)
  else if cmd =? glbRange then gd_readRange d
  else (d, true).

(** The loop of [deserializeGlobset]; every command takes at least its own byte. *)
Fixpoint gd_run (fuel : nat) (d : globsetDecoder) : globsetDecoder :=
  match fuel, gd_rest d with
  | S fuel, cmd :: rest =>
      let '(d', stop) := gd_command cmd (mkDec rest (gd_stack d) (gd_rs d)) in
      if stop then d' else gd_run fuel d'
  | _, _ => d
  end.

Definition deserializeGlobset (data : bytes) : rangeSet * nat :=
  let d := gd_run (length data) (mkDec data [] []) in
  (gd_rs d, (length data - length (gd_rest d))%nat).

Example globset_ex :
  deserializeGlobset (serializeGlobset [mkRange 3 9; mkRange 12 12; mkRange 300 70000] ++ [7; 7])
  = ([mkRange 3 9; mkRange 12 12; mkRange 300 70000],
     length (serializeGlobset [mkRange 3 9; mkRange 12 12; mkRange 300 70000])).
Proof. vm_compute. reflexivity. Qed.

(** ** Running the decoder *)

Lemma gd_command_shrinks cmd d d' s :
  gd_command cmd d = (d', s) -> (length (gd_rest d') <= length (gd_rest d))%nat.
Proof.
  unfold gd_command, gd_push, gd_bitmask, gd_readRange, gd_common.
  destruct (_ && _).
  { destruct (_ <? _)%nat; [by intros [= <- _]|]. destruct (_ <? _)%nat; [by intros [= <- _]|].
    destruct (_ =? _)%nat; intros [= <- _]; simpl; rewrite length_drop; lia. }
  destruct (_ =? _).
  { destruct (gd_rest d) as [|? [|? r]] eqn:E; try (intros [= <- _]; rewrite E; simpl; lia).
    destruct (negb _); intros [= <- _]; simpl; rewrite ?E; simpl; lia. }
  destruct (_ =? _); [by intros [= <- _]|].
  destruct (_ =? _); [|by intros [= <- _]].
  destruct (_ <? _)%nat; [by intros [= <- _]|]. destruct (_ <? _)%nat; [by intros [= <- _]|].
  intros [= <- _]. simpl. rewrite length_drop. lia.
Qed.

Lemma gd_run_fuel f f' d :
  (length (gd_rest d) <= f)%nat -> (length (gd_rest d) <= f')%nat -> gd_run f d = gd_run f' d.
Proof.
  revert f' d. induction f as [|f IH]; intros f' [[|c r] st rs] H H'; simpl in *;
    try lia; destruct f' as [|f']; simpl; try done; try lia.
  destruct (gd_command c _) as [d' s] eqn:E. apply gd_command_shrinks in E. simpl in E.
  destruct s; [done|]. apply IH; lia.
Qed.

(** The decoder run to its end. *)
Definition gd_exec (d : globsetDecoder) : globsetDecoder := gd_run (length (gd_rest d)) d.

Lemma gd_exec_cons c r st rs :
  gd_exec (mkDec (c :: r) st rs)
  = let '(d', s) := gd_command c (mkDec r st rs) in if s then d' else gd_exec d'.
Proof.
  unfold gd_exec at 1. simpl. destruct (gd_command c _) as [d' s] eqn:E.
  destruct s; [done|]. apply gd_command_shrinks in E. simpl in E. apply gd_run_fuel; lia.
Qed.

Lemma concat_snoc {A} (st : list (list A)) c : concat (st ++ [c]) = concat st ++ c.
Proof. rewrite concat_app. simpl. by rewrite app_nil_r. Qed.

Lemma take_pad (p : bytes) n : (n <= length p)%nat -> take n (p ++ repeat 0 6) = take n p.
Proof. intros. by rewrite take_app_le. Qed.

Lemma small_cmd n : (1 <= n <= 6)%nat -> u8 (Z.of_nat n) = Z.of_nat n.
Proof. intros. unfold u8. rewrite Z.mod_small; lia. Qed.

Lemma exec_push n c r st rs :
  length c = n -> (1 <= n)%nat -> (length (concat st) + n < 6)%nat ->
  gd_exec (mkDec (pushCmd n c ++ r) st rs) = gd_exec (mkDec r (st ++ [c]) rs).
Proof.
  intros Hc Hn Hl. unfold pushCmd. cbn [app]. rewrite gd_exec_cons, small_cmd by lia.
  unfold gd_command. destruct (Z.leb_spec 1 (Z.of_nat n)); [|lia].
  destruct (Z.leb_spec (Z.of_nat n) 6); [|lia]. cbn [andb]. rewrite Nat2Z.id.
  unfold gd_push, gd_common. cbn [gd_rest gd_stack gd_rs snd fst]. rewrite length_app.
  destruct (Nat.ltb_spec (length c + length r) n); [lia|].
  destruct (Nat.ltb_spec 6 (length (concat st) + n)); [lia|].
  destruct (Nat.eqb_spec (length (concat st) + n) 6); [lia|].
  subst n. by rewrite take_app_length, drop_app_length.
Qed.

Lemma exec_push_emit n c r st rs :
  length c = n -> (1 <= n)%nat -> (length (concat st) + n = 6)%nat ->
  gd_exec (mkDec (pushCmd n c ++ r) st rs)
  = gd_exec (mkDec r st (rs ++ [mkRange (GCToValue (concat st ++ c)) (GCToValue (concat st ++ c))])).
Proof.
  intros Hc Hn Hl. unfold pushCmd. cbn [app]. rewrite gd_exec_cons, small_cmd by lia.
  unfold gd_command. destruct (Z.leb_spec 1 (Z.of_nat n)); [|lia].
  destruct (Z.leb_spec (Z.of_nat n) 6); [|lia]. cbn [andb]. rewrite Nat2Z.id.
  unfold gd_push, gd_common. cbn [gd_rest gd_stack gd_rs snd fst]. rewrite length_app.
  destruct (Nat.ltb_spec (length c + length r) n); [lia|].
  destruct (Nat.ltb_spec 6 (length (concat st) + n)); [lia|].
  destruct (Nat.eqb_spec (length (concat st) + n) 6); [|lia].
  subst n. rewrite take_app_length, drop_app_length. unfold gd_pop, rs_appendRaw.
  cbn [gd_rest gd_stack gd_rs]. rewrite removelast_last, concat_snoc.
  rewrite take_app_le by (rewrite length_app; lia).
  by rewrite take_ge by (rewrite length_app; lia).
Qed.

Lemma exec_range lo hi r st rs :
  (length (concat st) <= 6)%nat ->
  length lo = (6 - length (concat st))%nat -> length hi = length lo ->
  gd_exec (mkDec (rangeCmd lo hi ++ r) st rs)
  = gd_exec (mkDec r st (rs ++ [mkRange (GCToValue (concat st ++ lo)) (GCToValue (concat st ++ hi))])).
Proof.
  intros Hs Hl Hh. unfold rangeCmd. cbn [app]. rewrite gd_exec_cons.
  change (gd_command glbRange) with gd_readRange. unfold gd_readRange, gd_common.
  cbn [gd_rest gd_stack gd_rs]. destruct (Nat.ltb_spec 6 (length (concat st))); [lia|].
  rewrite <- Hl, !length_app.
  destruct (Nat.ltb_spec (length lo + length hi + length r) (2 * length lo)); [lia|].
  rewrite take_take, Nat.min_l, take_app_length by lia.
  rewrite <- app_assoc, take_app_length, drop_app_length, <- Hh, take_app_length.
  replace (2 * length hi)%nat with (length (lo ++ hi)) by (rewrite length_app; lia).
  rewrite app_assoc, drop_app_length. done.
Qed.

Lemma exec_pop c r st rs :
  gd_exec (mkDec (glbPop :: r) (st ++ [c]) rs) = gd_exec (mkDec r st rs).
Proof.
  rewrite gd_exec_cons. change (gd_command glbPop ?d) with (gd_pop d, false).
  unfold gd_pop. cbn [gd_rest gd_stack gd_rs]. by rewrite removelast_last.
Qed.

Lemma exec_end r st rs : gd_exec (mkDec (glbEnd :: r) st rs) = mkDec r st rs.
Proof. by rewrite gd_exec_cons. Qed.

Lemma deserialize_exec data :
  deserializeGlobset data
  = (gd_rs (gd_exec (mkDec data [] [])),
     (length data - length (gd_rest (gd_exec (mkDec data [] []))))%nat).
Proof. done. Qed.

(** ** Common prefixes of big-endian counters *)

Lemma prefix_le a b : (commonPrefixLen a b <= length a)%nat.
Proof. revert b. induction a as [|x a IH]; intros [|y b]; simpl; try lia. destruct (_ =? _); [|lia]. specialize (IH b). lia. Qed.

Lemma prefix_take a b : take (commonPrefixLen a b) a = take (commonPrefixLen a b) b.
Proof.
  revert b. induction a as [|x a IH]; intros [|y b]; simpl; try done.
  destruct (Z.eqb_spec x y); [|done]. subst. simpl. by rewrite IH.
Qed.

Lemma prefix_lt a b : length a = length b -> a <> b -> (commonPrefixLen a b < length a)%nat.
Proof.
  revert b. induction a as [|x a IH]; intros [|y b] Hl Hn; simpl in *; try lia; [done|].
  destruct (Z.eqb_spec x y); [|lia]. subst. specialize (IH b ltac:(lia) ltac:(congruence)). lia.
Qed.

Lemma take_be k n v :
  take k (be_bytes (n + k) v) = be_bytes k (v / 2 ^ (8 * Z.of_nat n)).
Proof.
  unfold be_bytes. rewrite le_bytes_app, rev_app_distr.
  rewrite take_app_le by (rewrite length_rev, length_le_bytes; lia).
  apply take_ge. rewrite length_rev, length_le_bytes. lia.
Qed.

Lemma gc_prefix k v :
  (k <= 6)%nat -> 0 <= v < 2 ^ 48 ->
  be_value (take k (ValueToGC v)) = v / 2 ^ (8 * Z.of_nat (6 - k)).
Proof.
  intros Hk Hv. rewrite ValueToGC_be by lia. replace 6%nat with (6 - k + k)%nat at 1 by lia.
  rewrite take_be. apply be_value_be_bytes.
  split; [apply Z.div_pos; lia|]. apply Z.div_lt_upper_bound; [lia|].
  rewrite <- Z.pow_add_r by lia.
  replace (8 * Z.of_nat (6 - k) + 8 * Z.of_nat k) with 48 by lia. lia.
Qed.

(** A prefix shared by the ends of an interval is shared by everything inside it. *)
Lemma gc_prefix_between k x y z :
  (k <= 6)%nat -> 0 <= x -> x <= y -> y <= z -> z < 2 ^ 48 ->
  take k (ValueToGC x) = take k (ValueToGC z) ->
  take k (ValueToGC y) = take k (ValueToGC x).
Proof.
  intros Hk Hx Hxy Hyz Hz E.
  assert (Q : forall v, 0 <= v < 2 ^ 48 -> take k (ValueToGC v) = be_bytes k (v / 2 ^ (8 * Z.of_nat (6 - k)))).
  { intros v Hv. rewrite ValueToGC_be by lia. replace 6%nat with (6 - k + k)%nat at 1 by lia.
    apply take_be. }
  assert (Ev : x / 2 ^ (8 * Z.of_nat (6 - k)) = z / 2 ^ (8 * Z.of_nat (6 - k))).
  { rewrite <- !gc_prefix by lia. by rewrite E. }
  rewrite !Q by lia. f_equal. apply Z.le_antisymm.
  - rewrite Ev. apply Z.div_le_mono; lia.
  - apply Z.div_le_mono; lia.
Qed.

Lemma ValueToGC_inj x y :
  0 <= x < 2 ^ 48 -> 0 <= y < 2 ^ 48 -> ValueToGC x = ValueToGC y -> x = y.
Proof. intros Hx Hy E. rewrite <- (GCToValue_ValueToGC x), <- (GCToValue_ValueToGC y) by lia. by rewrite E. Qed.

(** ** The round trip *)

Definition node48 (nd : rangeNode) : bool :=
  (0 <=? rn_lo nd) && (rn_lo nd <=? rn_hi nd) && (rn_hi nd <? 2 ^ 48).

(** The stack holds the bytes both ends of the range start with. *)
Definition under (st : list globFrame) (nd : rangeNode) : Prop :=
  let p := concat st in
  (length p < 6)%nat /\ p = take (length p) (ValueToGC (rn_lo nd))
  /\ p = take (length p) (ValueToGC (rn_hi nd)).

Lemma slice_prefix p gc : length gc = 6%nat -> p = take (length p) gc ->
  p ++ slice gc (length p) 6 = gc.
Proof.
  intros Hl E. unfold slice. rewrite (take_ge (drop _ _)) by (rewrite length_drop; lia).
  rewrite E at 1. apply take_drop.
Qed.

(** The range command under a stack that holds a common prefix of both ends. *)
Lemma exec_range_under lo hi st rs r :
  0 <= lo < 2 ^ 48 -> 0 <= hi < 2 ^ 48 -> under st (mkRange lo hi) ->
  let k := length (concat st) in
  gd_exec (mkDec (rangeCmd (slice (ValueToGC lo) k 6) (slice (ValueToGC hi) k 6) ++ r) st rs)
  = gd_exec (mkDec r st (rs ++ [mkRange lo hi])).
Proof.
  intros Hlo Hhi (Hk & Elo & Ehi) k. cbn [rn_lo rn_hi] in *.
  rewrite exec_range; [|lia|..].
  - unfold k. rewrite !slice_prefix by (rewrite ?length_ValueToGC; done).
    by rewrite !GCToValue_ValueToGC by lia.
  - unfold slice. rewrite length_take, length_drop, length_ValueToGC. lia.
  - unfold slice. by rewrite !length_take, !length_drop, !length_ValueToGC.
Qed.

(** How far the inner prefix of a proper range reaches. *)
Lemma inner_prefix lo hi k :
  0 <= lo < 2 ^ 48 -> 0 <= hi < 2 ^ 48 -> lo <> hi -> (k < 6)%nat ->
  take k (ValueToGC lo) = take k (ValueToGC hi) ->
  let j := commonPrefixLen (drop k (ValueToGC lo)) (drop k (ValueToGC hi)) in
  (k + j < 6)%nat /\ take (k + j) (ValueToGC lo) = take (k + j) (ValueToGC hi).
Proof.
  intros Hlo Hhi Hne Hk E j. split.
  - assert (Hj : (j < length (drop k (ValueToGC lo)))%nat); [|rewrite length_drop, length_ValueToGC in Hj; lia].
    apply prefix_lt; [by rewrite !length_drop, !length_ValueToGC|]. intros E'. apply Hne.
    apply ValueToGC_inj; [done..|].
    by rewrite <- (take_drop k (ValueToGC lo)), <- (take_drop k (ValueToGC hi)), E, E'.
  - rewrite <- !take_take_drop, E. f_equal. apply prefix_take.
Qed.

Lemma exec_node nd st rs r :
  node48 nd = true -> under st nd ->
  gd_exec (mkDec (appendNodeUnder nd (length (concat st)) ++ r) st rs)
  = gd_exec (mkDec r st (rs ++ [nd])).
Proof.
  destruct nd as [lo hi]. unfold node48, appendNodeUnder. cbn [rn_lo rn_hi].
  intros Hn U. bprop. pose proof U as (Hk & Elo & Ehi). cbn [rn_lo rn_hi] in *.
  set (k := length (concat st)) in *.
  destruct (Z.eqb_spec hi lo) as [->|Hne].
  - rewrite exec_push_emit; [|unfold slice; rewrite length_take, length_drop, length_ValueToGC; lia|lia|lia].
    unfold k. rewrite slice_prefix by (rewrite ?length_ValueToGC; done).
    by rewrite GCToValue_ValueToGC by lia.
  - destruct (inner_prefix lo hi k) as [Hj Ej]; [lia|lia|lia|done|congruence|].
    set (j := commonPrefixLen _ _) in *. cbv zeta.
    destruct (Nat.ltb_spec k (k + j)) as [Hi|Hi].
    + rewrite <- !app_assoc, exec_push;
        [|unfold slice; rewrite length_take, length_drop, length_ValueToGC; lia|lia|fold k; lia].
      set (st' := st ++ [slice (ValueToGC lo) k (k + j)]).
      assert (C : concat st' = take (k + j) (ValueToGC lo)).
      { unfold st'. rewrite concat_snoc, Elo. unfold slice.
        replace (k + j - k)%nat with j by lia. apply take_take_drop. }
      assert (L : length (concat st') = (k + j)%nat).
      { rewrite C, length_take, length_ValueToGC. lia. }
      rewrite <- L, exec_range_under; [apply exec_pop|lia|lia|].
      unfold under. cbn [rn_lo rn_hi]. rewrite L, C. split; [lia|]. split; [done|]. by rewrite Ej.
    + replace (k + j)%nat with k by lia. cbn [app]. rewrite app_nil_r.
      apply exec_range_under; [lia|lia|done].
Qed.

Lemma exec_nodes nds st rs r :
  Forall (fun nd => node48 nd = true /\ under st nd) nds ->
  gd_exec (mkDec (flat_map (fun nd => appendNodeUnder nd (length (concat st))) nds ++ r) st rs)
  = gd_exec (mkDec r st (rs ++ nds)).
Proof.
  intros H. revert rs. induction H as [|nd nds [Hn Hu] _ IH]; intros rs; simpl.
  - by rewrite app_nil_r.
  - rewrite <- app_assoc, exec_node, IH by done. by rewrite <- app_assoc.
Qed.

(** Every canonical set of 48-bit counters: the members lie between the ends. *)
Lemma wf_between b nds nd first :
  wf_above b (first :: nds) = true -> In nd (first :: nds) ->
  rn_lo first <= rn_lo nd /\ rn_lo nd <= rn_hi nd /\ rn_hi nd <= rn_hi (List.last (first :: nds) first).
Proof.
  revert b first nd. induction nds as [|n2 nds IH]; intros b first nd W Hin.
  - destruct Hin as [<-|[]]. simpl in *. bprop. lia.
  - pose proof W as W0. cbn [wf_above] in W. apply andb_true_iff in W as [W1 W2].
    assert (E : List.last (first :: n2 :: nds) first = List.last (n2 :: nds) n2).
    { cbn [List.last]. clear. revert n2. induction nds as [|x l IH]; intros n2; [done|].
      cbn [List.last] in *. destruct l; [done|]. apply IH. }
    rewrite E.
    assert (W3 : wf_above (rn_hi first + 1) (n2 :: nds) = true) by done.
    destruct (IH _ n2 n2 W3 (or_introl eq_refl)) as (A1 & A2 & A3). bprop.
    destruct Hin as [<-|Hin]; [lia|].
    destruct (IH _ n2 nd W3 Hin) as (B1 & B2 & B3). lia.
Qed.

Lemma wf_first_lt_last b first n2 nds :
  wf_above b (first :: n2 :: nds) = true ->
  rn_lo first < rn_hi (List.last (first :: n2 :: nds) first).
Proof.
  intros W. destruct (wf_between b (n2 :: nds) n2 first W) as (A & B & C); [simpl; auto|].
  cbn [wf_above] in W. bprop. lia.
Qed.

Definition globset_ok (rs : rangeSet) : bool := wf_ranges rs && forallb node48 rs.

Lemma globset_exec rs r :
  globset_ok rs = true ->
  gd_exec (mkDec (serializeGlobset rs ++ r) [] []) = mkDec r [] rs.
Proof.
  unfold globset_ok, wf_ranges. intros H. apply andb_true_iff in H as [H0 H1]. destruct rs as [|first [|n2 nds]].
  - simpl. apply exec_end.
  - cbn [forallb] in H1. destruct first as [lo hi]. unfold node48 in H1.
    unfold serializeGlobset. cbn [rn_lo rn_hi] in *. bprop. rewrite <- app_assoc. destruct (Z.eqb_spec hi lo) as [->|_].
    + rewrite exec_push_emit by (rewrite ?length_ValueToGC; simpl; lia). cbn [concat app].
      rewrite GCToValue_ValueToGC by lia. apply exec_end.
    + rewrite exec_range by (rewrite ?length_ValueToGC; simpl; lia). cbn [concat app].
      rewrite !GCToValue_ValueToGC by lia. apply exec_end.
  - pose proof (wf_first_lt_last _ _ _ _ H0) as Hlt.
    assert (B : forall nd, In nd (first :: n2 :: nds) -> 0 <= rn_lo nd /\ rn_hi nd < 2 ^ 48).
    { intros nd Hin. rewrite forallb_forall in H1. apply H1 in Hin. unfold node48 in Hin. bprop. lia. }
    set (back := List.last (first :: n2 :: nds) first) in *.
    assert (Hback : In back (first :: n2 :: nds)).
    { rewrite (app_removelast_last first (l := first :: n2 :: nds)) by done.
      apply in_or_app. right. by left. }
    pose proof (B _ Hback). pose proof (B first ltac:(by left)).
    destruct (wf_between _ _ _ _ H0 Hback) as (_ & _ & _).
    unfold serializeGlobset. fold back. set (k := commonPrefixLen _ _).
    assert (Hk : (k < 6)%nat).
    { rewrite <- (length_ValueToGC (rn_lo first)).
      apply prefix_lt; [by rewrite !length_ValueToGC|]. intros E.
      apply ValueToGC_inj in E; [lia|lia|]. destruct (wf_between _ _ _ _ H0 Hback). lia. }
    assert (P : take k (ValueToGC (rn_lo first)) = take k (ValueToGC (rn_hi back))) by apply prefix_take.
    assert (U : forall st, concat st = take k (ValueToGC (rn_lo first)) ->
      Forall (fun nd => node48 nd = true /\ under st nd) (first :: n2 :: nds)).
    { intros st E. apply List.Forall_forall. intros nd Hin.
      split; [by rewrite forallb_forall in H1; apply H1|].
      destruct (wf_between _ _ _ _ H0 Hin) as (A1 & A2 & A3). fold back in A3.
      unfold under. rewrite E, length_take, length_ValueToGC, Nat.min_l by lia.
      split; [done|]. split; symmetry; by apply gc_prefix_between with (z := rn_hi back); try lia. }
    cbv zeta. destruct (Nat.eqb_spec k 0) as [E0|E0].
    + cbn [app]. rewrite <- app_assoc.
      replace k with (length (concat (@nil globFrame))) by done.
      rewrite exec_nodes; [apply exec_end|]. apply U. by rewrite E0.
    + rewrite <- !app_assoc.
      rewrite exec_push; [|rewrite length_take, length_ValueToGC; lia|lia|simpl; lia].
      cbn [app]. set (st := [take k (ValueToGC (rn_lo first))]).
      assert (C : concat st = take k (ValueToGC (rn_lo first))) by apply app_nil_r.
      assert (L : length (concat st) = k) by (rewrite C, length_take, length_ValueToGC; lia).
      rewrite <- L, exec_nodes by by apply U.
      etransitivity; [exact (exec_pop _ (glbEnd :: r) [] _)|]. apply exec_end.
Qed.

(** ** The bitmask command *)

Lemma land_bit mask i : 0 <= i -> (Z.land mask (Z.shiftl 1 i) =? 0) = negb (Z.testbit mask i).
Proof.
  intros Hi. rewrite Z.shiftl_1_l. destruct (Z.testbit mask i) eqn:E; simpl.
  - apply Z.eqb_neq. intros H. apply (f_equal (fun x => Z.testbit x i)) in H.
    rewrite Z.land_spec, E, Z.pow2_bits_true, Z.bits_0 in H by done. done.
  - apply Z.eqb_eq. apply Z.bits_inj'. intros j Hj. rewrite Z.land_spec, Z.bits_0.
    destruct (Z.eqb_spec i j) as [->|]; [by rewrite E|].
    rewrite Z.pow2_bits_false by lia. apply andb_false_r.
Qed.

Definition in_pend (pend : option (Z * Z)) (v : Z) : bool :=
  match pend with Some (lo, hi) => (lo <=? v) && (v <=? hi) | None => false end.

Lemma rs_appendRaw_contains rs lo hi v :
  rs_contains (rs_appendRaw rs lo hi) v = rs_contains rs v || in_pend (Some (lo, hi)) v.
Proof. unfold rs_appendRaw. rewrite rs_contains_app. simpl. by rewrite orb_false_r. Qed.

(** Bits [i] and up, given the pending range ends at the value before bit [i]. *)
Lemma bitmask_loop_contains low mask k i pend rs v :
  0 <= low < 2 ^ 48 -> 0 <= i -> i + Z.of_nat k = 8 ->
  match pend with Some (lo, hi) => 0 <= lo /\ lo <= hi /\ hi = low + i | None => True end ->
  rs_contains (bitmask_loop low mask k i pend rs) v
  = rs_contains rs v || in_pend pend v
    || ((low + i <? v) && (v <=? low + 8) && Z.testbit mask (v - low - 1)).
Proof.
  intros Hl. revert i pend rs. induction k as [|k IH]; intros i pend rs Hi Hk Hp; cbn [bitmask_loop].
  - assert ((low + i <? v) && (v <=? low + 8) = false) as ->.
    { destruct (Z.ltb_spec (low + i) v), (Z.leb_spec v (low + 8)); try done. lia. }
    rewrite orb_false_r. destruct pend as [[lo hi]|]; [apply rs_appendRaw_contains|].
    simpl. by rewrite orb_false_r.
  - rewrite land_bit by done.
    assert (S : (low + i <? v) && (v <=? low + 8) && Z.testbit mask (v - low - 1)
      = ((v =? low + i + 1) && Z.testbit mask i)
        || ((low + (i + 1) <? v) && (v <=? low + 8) && Z.testbit mask (v - low - 1))).
    { destruct (Z.eqb_spec v (low + i + 1)) as [->|].
      - replace (low + i + 1 - low - 1) with i by lia.
        rewrite (proj2 (Z.ltb_lt _ _)), (proj2 (Z.leb_le _ _)), (proj2 (Z.ltb_ge (low + (i + 1)) _)) by lia.
        simpl. by rewrite orb_false_r.
      - destruct (Z.ltb_spec (low + i) v), (Z.ltb_spec (low + (i + 1)) v); try lia; done. }
    rewrite S. clear S. destruct (Z.testbit mask i) eqn:E; cbn [negb].
    + rewrite andb_true_r. destruct pend as [[lo hi]|].
      * rewrite u64_small, IH; [|lia|lia|lia|lia]. destruct Hp as (Hlo & Hle & ->).
        assert (in_pend (Some (lo, low + i + 1)) v = in_pend (Some (lo, low + i)) v || (v =? low + i + 1)) as ->.
        { unfold in_pend. rewrite eq_iff_eq_true, orb_true_iff, !andb_true_iff, !Z.leb_le, Z.eqb_eq. lia. }
        by rewrite !orb_assoc.
      * cbv zeta. rewrite u64_small, IH; [|lia|lia|lia|lia].
        assert (in_pend (Some (low + i + 1, low + i + 1)) v = (v =? low + i + 1)) as ->.
        { unfold in_pend. rewrite eq_iff_eq_true, andb_true_iff, !Z.leb_le, Z.eqb_eq. lia. }
        cbn [in_pend]. by rewrite orb_false_r, !orb_assoc.
    + rewrite andb_false_r, orb_false_l.
      destruct pend as [[lo hi]|]; rewrite IH; try lia; try done.
      rewrite rs_appendRaw_contains. cbn [in_pend]. by rewrite orb_false_r.
Qed.

(** ** What arbitrary bytes decode to *)

Definition dec_ok (d : globsetDecoder) : Prop :=
  bytes_ok (gd_rest d) = true /\ bytes_ok (concat (gd_stack d)) = true
  /\ (length (concat (gd_stack d)) <= 5)%nat /\ forallb counter_node (gd_rs d) = true.

Lemma counter_raw rs lo hi :
  forallb counter_node rs = true -> 0 <= lo -> 0 <= hi < 2 ^ 48 + 8 ->
  forallb counter_node (rs_appendRaw rs lo hi) = true.
Proof.
  intros H Hl Hh. unfold rs_appendRaw. rewrite forallb_app, H. cbn [forallb andb].
  unfold counter_node. cbn [rn_lo rn_hi]. bsolve. done.
Qed.

Lemma bitmask_counter low mask k i pend rs :
  0 <= low < 2 ^ 48 -> 0 <= i -> i + Z.of_nat k = 8 ->
  match pend with Some (lo, hi) => 0 <= lo /\ 0 <= hi /\ hi = low + i | None => True end ->
  forallb counter_node rs = true ->
  forallb counter_node (bitmask_loop low mask k i pend rs) = true.
Proof.
  intros Hl. revert i pend rs. induction k as [|k IH]; intros i pend rs Hi Hk Hp Hrs; cbn [bitmask_loop].
  - destruct pend as [[lo hi]|]; [|done]. apply counter_raw; [done|lia..].
  - destruct (_ =? 0), pend as [[lo hi]|]; apply IH; try lia; try done; cbv zeta;
      rewrite ?u64_small by lia; try lia. apply counter_raw; [done|lia..].
Qed.

Lemma bytes_ok_take n b : bytes_ok b = true -> bytes_ok (take n b) = true.
Proof. rewrite !bytes_ok_Forall. apply Forall_take. Qed.
Lemma bytes_ok_drop n b : bytes_ok b = true -> bytes_ok (drop n b) = true.
Proof. rewrite !bytes_ok_Forall. apply Forall_drop. Qed.

Lemma concat_removelast (st : list bytes) :
  exists t, concat st = concat (removelast st) ++ t.
Proof.
  destruct st as [|f st]; [by exists []|]. exists (List.last (f :: st) []).
  rewrite <- concat_snoc. f_equal. by apply app_removelast_last.
Qed.

Lemma gd_pop_ok d : dec_ok d -> dec_ok (gd_pop d).
Proof.
  intros (H1 & H2 & H3 & H4). destruct (concat_removelast (gd_stack d)) as [t E].
  unfold dec_ok, gd_pop. cbn. rewrite E, bytes_ok_app, length_app in *. bsplit. repeat split; try done. lia.
Qed.

Lemma gd_push_ok n d : (1 <= n)%nat -> dec_ok d -> dec_ok (fst (gd_push n d)).
Proof.
  intros Hn (H1 & H2 & H3 & H4). unfold gd_push, gd_common. cbn [fst snd].
  destruct (Nat.ltb_spec (length (gd_rest d)) n); [done|].
  destruct (Nat.ltb_spec 6 (length (concat (gd_stack d)) + n)); [done|]. cbn [gd_rest gd_stack gd_rs].
  assert (C : bytes_ok (concat (gd_stack d ++ [take n (gd_rest d)])) = true).
  { rewrite concat_snoc, bytes_ok_app, H2. by apply bytes_ok_take. }
  assert (L : length (concat (gd_stack d ++ [take n (gd_rest d)])) = (length (concat (gd_stack d)) + n)%nat).
  { rewrite concat_snoc, length_app, length_take. lia. }
  destruct (Nat.eqb_spec (length (concat (gd_stack d)) + n) 6) as [E|E]; cbn [fst].
  - unfold gd_pop. cbn [gd_rest gd_stack gd_rs]. rewrite removelast_last.
    split; [by apply bytes_ok_drop|]. split; [done|]. split; [done|].
    cbn [gd_rest gd_stack gd_rs]. rewrite take_app_le, take_ge by lia.
    pose proof (GCToValue_bound _ (eq_trans L E) C). apply counter_raw; [done|lia..].
  - split; [by apply bytes_ok_drop|]. split; [done|]. split; [cbn; lia|done].
Qed.

Lemma gc_under_stack (p t : bytes) :
  (length p <= 5)%nat -> bytes_ok p = true -> bytes_ok t = true -> length t = (6 - length p)%nat ->
  0 <= GCToValue (take (length p) (take 6 (p ++ repeat 0 6)) ++ t) < 2 ^ 48.
Proof.
  intros Hp Bp Bt Lt. rewrite take_take, Nat.min_l, take_app_length by lia.
  apply GCToValue_bound; [rewrite length_app; lia|]. by rewrite bytes_ok_app, Bp, Bt.
Qed.

Lemma gd_command_ok cmd d : dec_ok d -> dec_ok (fst (gd_command cmd d)).
Proof.
  intros Hd. pose proof Hd as (H1 & H2 & H3 & H4). unfold gd_command.
  destruct ((1 <=? cmd) && (cmd <=? 6)) eqn:E; [bprop; apply gd_push_ok; [lia|done]|]. clear E.
  destruct (_ =? _).
  { unfold gd_bitmask, gd_common.
    destruct (gd_rest d) as [|b5 [|mask r]] eqn:R; try exact Hd.
    destruct (Nat.eqb_spec (length (concat (gd_stack d))) 5) as [E|]; [|exact Hd]. cbn [negb fst].
    cbn [bytes_ok forallb] in H1. bsplit.
    pose proof (gc_under_stack (concat (gd_stack d)) [b5] ltac:(lia) H2) as B. rewrite E in B.
    specialize (B ltac:(cbn; by rewrite H) eq_refl).
    repeat split; cbn [gd_rest gd_stack gd_rs]; try done.
    apply bitmask_counter; try lia; done. }
  destruct (_ =? _); [by apply gd_pop_ok|].
  destruct (_ =? _); [|exact Hd]. unfold gd_readRange, gd_common.
  destruct (Nat.ltb_spec 6 (length (concat (gd_stack d)))); [exact Hd|].
  destruct (Nat.ltb_spec (length (gd_rest d)) (2 * (6 - length (concat (gd_stack d))))); [exact Hd|].
  cbn [fst]. repeat split; cbn [gd_rest gd_stack gd_rs]; try done; [by apply bytes_ok_drop|].
  assert (B1 := gc_under_stack (concat (gd_stack d)) (take (6 - length (concat (gd_stack d))) (gd_rest d)) H3 H2
    ltac:(by apply bytes_ok_take) ltac:(rewrite length_take; lia)).
  assert (B2 := gc_under_stack (concat (gd_stack d)) (take (6 - length (concat (gd_stack d))) (drop (6 - length (concat (gd_stack d))) (gd_rest d))) H3 H2
    ltac:(by apply bytes_ok_take, bytes_ok_drop) ltac:(rewrite length_take, length_drop; lia)).
  apply counter_raw; [done|lia..].
Qed.

Lemma gd_run_ok f d : dec_ok d -> dec_ok (gd_run f d).
Proof.
  revert d. induction f as [|f IH]; intros [[|c r] st rs] Hd; simpl; try done.
  assert (Hd' : dec_ok (mkDec r st rs)).
  { destruct Hd as (H1 & ?). cbn [gd_rest] in H1. cbn [bytes_ok forallb] in H1. bsplit. by split. }
  apply (gd_command_ok c) in Hd'. destruct (gd_command c _) as [d' s]. destruct s; auto.
Qed.

Lemma gd_run_consumed f d : (length (gd_rest (gd_run f d)) <= length (gd_rest d))%nat.
Proof.
  revert d. induction f as [|f IH]; intros [[|c r] st rs]; simpl; try done.
  destruct (gd_command c _) as [d' s] eqn:E. apply gd_command_shrinks in E. simpl in E.
  destruct s; [lia|]. specialize (IH d'). lia.
Qed.

Lemma deserialize_counter data :
  bytes_ok data = true -> forallb counter_node (fst (deserializeGlobset data)) = true.
Proof.
  intros H. rewrite deserialize_exec. cbn [fst]. apply gd_run_ok. repeat split; cbn; [done|lia].
Qed.

Lemma deserialize_consumed data :
  (snd (deserializeGlobset data) <= length data)%nat /\
  (data <> [] -> (1 <= snd (deserializeGlobset data))%nat).
Proof.
  unfold deserializeGlobset. cbn [snd]. split; [lia|]. intros Hd.
  destruct data as [|c r]; [done|]. simpl gd_run.
  destruct (gd_command c (mkDec r [] [])) as [d' s] eqn:E. apply gd_command_shrinks in E. simpl in E.
  destruct s; simpl; [lia|]. pose proof (gd_run_consumed (length r) d'). lia.
Qed.

(** ** Properties *)

(** Insertion refines set union and establishes the canonical form: whichever order the
    sort leaves ranges with equal lower ends in, the stored ranges are afterwards sorted,
    disjoint and non-adjacent, contain exactly the old values and the new range, and are
    the same list.  The ranges held before need not be sorted or disjoint. *)
Theorem insert_refines rs lo hi sorted :
  ranges_ok rs = true -> lo <= hi -> counter_node (mkRange lo hi) = true ->
  Permutation sorted (rs ++ [mkRange lo hi]) -> StronglySorted by_lo sorted ->
  coalesce sorted = rs_insert rs lo hi
  /\ wf_ranges (rs_insert rs lo hi) = true
  /\ forall v, rs_contains (rs_insert rs lo hi) v = rs_contains rs v || ((lo <=? v) && (v <=? hi)).
Proof.
  intros Hok Hle Hn Hp Hs. split; [|split; [by apply rs_insert_wf|]].
  - apply coalesce_any_order; [by rewrite Hp, sort_perm|done|apply sort_sorted|].
    pose proof (ranges_ok_snoc rs lo hi Hok Hle Hn) as H. unfold ranges_ok in *.
    by rewrite !(forallb_perm _ _ _ Hp).
  - intros v. unfold ranges_ok in Hok. bsplit. by apply rs_insert_contains.
Qed.

Example insert_witness :
  rs_insert [mkRange 9 12; mkRange 3 4; mkRange 20 20] 5 8 = [mkRange 3 12; mkRange 20 20]
  /\ wf_ranges (rs_insert [mkRange 9 12; mkRange 3 4; mkRange 20 20] 5 8) = true.
Proof.
  pose proof (insert_refines [mkRange 9 12; mkRange 3 4; mkRange 20 20] 5 8 _ eq_refl
    ltac:(lia) eq_refl (sort_perm _) (sort_sorted _)) as (_ & H & _).
  split; [vm_compute; reflexivity|exact H].
Defined.

(** Removal refines set difference and keeps the canonical form: the range around the
    value is split in two, shortened or dropped, and nothing else changes. *)
Theorem erase_refines rs v :
  wf_ranges rs = true -> forallb counter_node rs = true ->
  wf_ranges (rs_erase rs v) = true
  /\ forall w, rs_contains (rs_erase rs v) w = rs_contains rs w && negb (w =? v).
Proof.
  intros Hw Hc. split; [by apply rs_erase_wf|]. intros w. by apply rs_erase_contains.
Qed.

Example erase_witness :
  rs_erase [mkRange 3 9; mkRange 12 12] 5 = [mkRange 3 4; mkRange 6 9; mkRange 12 12]
  /\ wf_ranges (rs_erase [mkRange 3 9; mkRange 12 12] 5) = true.
Proof.
  split; [reflexivity|]. apply (erase_refines [mkRange 3 9; mkRange 12 12] 5); reflexivity.
Defined.

(** The canonical form is canonical: two sets built by any sequences of insertions and
    removals that hold the same values are stored as the same ranges, and so serialize to
    the same bytes. *)
Theorem canonical_form rs rs' :
  wf_ranges rs = true -> wf_ranges rs' = true ->
  (forall v, rs_contains rs v = rs_contains rs' v) ->
  rs = rs' /\ serializeGlobset rs = serializeGlobset rs'.
Proof. intros W W' E. assert (rs = rs') as ->; [|done]. by eapply wf_canonical. Qed.

Example canonical_witness :
  serializeGlobset (rs_insert (rs_insert [] 7 9) 1 6) = serializeGlobset (rs_insert (rs_insert [] 1 8) 9 9).
Proof.
  apply (canonical_form (rs_insert (rs_insert [] 7 9) 1 6) (rs_insert (rs_insert [] 1 8) 9 9));
    [reflexivity..|]. reflexivity.
Defined.

(** The command stream carries every canonical set of 48-bit counters: decoding what the
    encoder wrote, whatever follows it, gives the ranges back and consumes exactly the
    encoded bytes, with the shared prefixes folded onto the stack. *)
Theorem globset_round_trip rs rest :
  globset_ok rs = true ->
  deserializeGlobset (serializeGlobset rs ++ rest) = (rs, length (serializeGlobset rs)).
Proof.
  intros H. rewrite deserialize_exec, globset_exec by done. cbn [gd_rs gd_rest].
  rewrite length_app. f_equal. lia.
Qed.

Example globset_witness :
  deserializeGlobset (serializeGlobset [mkRange 0x10203 0x10207; mkRange 0x10301 0x10301] ++ [0xAA])
  = ([mkRange 0x10203 0x10207; mkRange 0x10301 0x10301],
     length (serializeGlobset [mkRange 0x10203 0x10207; mkRange 0x10301 0x10301])).
Proof. apply (globset_round_trip [mkRange 0x10203 0x10207; mkRange 0x10301 0x10301] [0xAA]). reflexivity. Defined.

(** The bitmask command means what its layout says: the base value is always present and
    bit [i] stands for the value [i]+1 above it. *)
Theorem bitmask_meaning rs low mask v :
  0 <= low < 2 ^ 48 ->
  rs_contains (rs_appendBitmask rs low mask) v
  = rs_contains rs v || (v =? low)
    || ((low <? v) && (v <=? low + 8) && Z.testbit mask (v - low - 1)).
Proof.
  intros Hl. unfold rs_appendBitmask. rewrite bitmask_loop_contains by (simpl; lia).
  rewrite Z.add_0_r. f_equal. f_equal. cbn.
  rewrite eq_iff_eq_true, andb_true_iff, !Z.leb_le, Z.eqb_eq. lia.
Qed.

Example bitmask_witness :
  rs_appendBitmask [] 0x100 0x5B = [mkRange 0x100 0x102; mkRange 0x104 0x105; mkRange 0x107 0x107]
  /\ rs_contains (rs_appendBitmask [] 0x100 0x5B) 0x104 = true.
Proof. split; [reflexivity|]. rewrite (bitmask_meaning [] 0x100 0x5B 0x104) by lia. reflexivity. Defined.

(** Decoding arbitrary bytes is safe: it consumes at least one byte of a non-empty stream
    and never more than there are, and every counter it yields is small enough that the
    coalescing test [hi+1] cannot overflow. *)
Theorem deserialize_safe data :
  bytes_ok data = true ->
  let '(rs, consumed) := deserializeGlobset data in
  (consumed <= length data)%nat /\ (data <> [] -> (1 <= consumed)%nat)
  /\ forall nd, In nd rs -> 0 <= rn_lo nd /\ u64 (rn_hi nd + 1) = rn_hi nd + 1.
Proof.
  intros H. pose proof (deserialize_counter data H) as C. pose proof (deserialize_consumed data) as L.
  destruct (deserializeGlobset data) as [rs consumed]. cbn [fst snd] in *.
  split; [apply L|]. split; [apply L|]. intros nd Hin. rewrite forallb_forall in C. apply C in Hin.
  split; [|by apply u64_counter]. unfold counter_node in Hin. bprop. lia.
Qed.

(** A bitmask at the top of its byte, then a truncated push. *)
Example deserialize_safe_witness :
  deserializeGlobset [5; 0; 0; 0; 0; 1; 0x42; 0xFF; 0xFF; 0x50; 6; 1] = ([mkRange 0x1FF 0x207], 11%nat)
  /\ (11 <= 12)%nat.
Proof.
  assert (E : deserializeGlobset [5; 0; 0; 0; 0; 1; 0x42; 0xFF; 0xFF; 0x50; 6; 1]
    = ([mkRange 0x1FF 0x207], 11%nat)) by (vm_compute; reflexivity).
  split; [exact E|].
  pose proof (deserialize_safe [5; 0; 0; 0; 0; 1; 0x42; 0xFF; 0xFF; 0x50; 6; 1] eq_refl) as H.
  rewrite E in H. exact (proj1 H).
Defined.

(** A decoded set keeps the order of the wire, and encoding it again need not give its
    values back: the global prefix is taken from the first lower and the last upper end,
    which bound the other ranges only when they are sorted. *)
Example reencode_loses_values :
  let wire := [6; 0; 0; 0; 0; 1; 1] ++ [6; 0; 0; 0; 0; 9; 9] ++ [6; 0; 0; 0; 0; 1; 2] ++ [0] in
  fst (deserializeGlobset wire) = [mkRange 0x101 0x101; mkRange 0x909 0x909; mkRange 0x102 0x102]
  /\ fst (deserializeGlobset (serializeGlobset (fst (deserializeGlobset wire))))
     = [mkRange 0x101 0x101; mkRange 0x109 0x109; mkRange 0x102 0x102].
Proof. split; vm_compute; reflexivity. Qed.
