(* ===== verification/Idset.v ===== *)
(** * IDSETs and synchronization state ([internal/ics]: idset.go, icsstate.go, markers.go)

    An IDSET groups counters by replica; the GUID forms name replicas on the wire by
    their GUID, which a [ReplicaMapper] resolves.  [State] is the four sets a client and
    a server exchange.  The operations act on explicit values: each returns the set as
    the method leaves it, also where the method fails part of the way. *)

From stdpp Require Import base list numbers.
From Stdlib Require Import ZArith Lia.
From S2P Require Import Prelude Mapi Globset.
Open Scope Z_scope.
Open Scope go_scope.

(** ** The replica mapper *)

(** [ReplicaMapper], the interface the GUID forms are written against. *)
Class ReplicaMapper := {
  ToGUID : Z -> option GUID;
  ToID : GUID -> option Z
}.

(** What the round trips need of an implementation. *)
Class MapperLaws (M : ReplicaMapper) : Prop := {
  ToGUID_ok : forall r g, ToGUID r = Some g -> guid_ok g = true;
  ToID_ToGUID : forall r g, ToGUID r = Some g -> ToID g = Some r
}.

(** [storeMapper] (objectstore/icsdownload.go): the home replica binds to the store's GUID,
    no other replica is known. *)
Definition homeReplID : Z := 1.
Definition storeMapper (home : GUID) : ReplicaMapper := {|
  ToGUID := fun replid => if replid =? homeReplID then Some home else None;
  ToID := fun g => if bool_decide (g = home) then Some homeReplID else None
|}.

#[export] Instance storeMapper_laws home : guid_ok home = true -> MapperLaws (storeMapper home).
Proof.
  intros Hok. split; intros r g; cbn; destruct (Z.eqb_spec r homeReplID); intros [= <-]; [done|].
  rewrite bool_decide_eq_true_2 by done. congruence.
Qed.

(** ** Sets *)

Definition FormIDPacked : Z := 0x41.
Definition FormIDLoose : Z := 0x42.
Definition FormGUIDPacked : Z := 0x81.
Definition FormGUIDLoose : Z := 0x82.

Definition packed (f : Z) : bool := negb (Z.land f 0x01 =? 0).

Record replNode := mkRepl { rp_replid : Z; rp_replguid : GUID; rp_ranges : rangeSet }.
Record IDSet := mkIDSet { is_form : Z; is_repls : list replNode; is_mapper : option ReplicaMapper }.

Inductive idset_error :=
| errNoMapper | errNoGUID (replid : Z) | errPackedForm (form : Z)
| errTruncatedReplid | errTruncatedReplguid | errLooseForm (form : Z) | errEmptyGlobset
| errOutOfFuel.

Definition zeroGUID : GUID := mkGUID 0 0 0 [0; 0; 0; 0; 0; 0; 0; 0].

Definition NewIDSet (form : Z) (mapper : option ReplicaMapper) : IDSet := mkIDSet form [] mapper.

Definition set_repls (s : IDSet) (l : list replNode) : IDSet :=
  mkIDSet (is_form s) l (is_mapper s).

Definition IDSet_Empty (s : IDSet) : bool :=
  forallb (fun nd => rs_empty (rp_ranges nd)) (is_repls s).

(** [findOrCreate], with what the caller does to the ranges of the node it returns *)
Fixpoint findOrCreate (l : list replNode) (replid : Z) (f : rangeSet -> rangeSet) : list replNode :=
  match l with
  | [] => [mkRepl replid zeroGUID (f [])]
  | nd :: l =>
      if rp_replid nd =? replid
      then mkRepl (rp_replid nd) (rp_replguid nd) (f (rp_ranges nd)) :: l
      else nd :: findOrCreate l replid f
  end.

Definition IDSet_AppendRange (s : IDSet) (replid lo hi : Z) : IDSet * bool :=
  if packed (is_form s) || (hi <? lo) then (s, false)
  else (set_repls s (findOrCreate (is_repls s) replid (fun rs => rs_insert rs lo hi)), true).

Definition IDSet_Append (s : IDSet) (e : Z) : IDSet * bool :=
  IDSet_AppendRange s (EID_ReplID e) (EID_GCValue e) (EID_GCValue e).

Fixpoint remove_from (l : list replNode) (replid v : Z) : list replNode :=
  match l with
  | [] => []
  | nd :: l =>
      if rp_replid nd =? replid
      then mkRepl (rp_replid nd) (rp_replguid nd) (rs_erase (rp_ranges nd) v) :: l
      else nd :: remove_from l replid v
  end.
Definition IDSet_Remove (s : IDSet) (e : Z) : IDSet :=
  if packed (is_form s) then s
  else set_repls s (remove_from (is_repls s) (EID_ReplID e) (EID_GCValue e)).

(** The scan of [Contains]: the first block of the replica answers. *)
Fixpoint member (l : list replNode) (replid v : Z) : bool :=
  match l with
  | [] => false
  | nd :: l => if rp_replid nd =? replid then rs_contains (rp_ranges nd) v else member l replid v
  end.
Definition IDSet_Contains (s : IDSet) (e : Z) : bool :=
  if is_form s =? FormGUIDPacked then false
  else member (is_repls s) (EID_ReplID e) (EID_GCValue e).

(** [ForEachRange]: the ranges in stored order, folded by the caller's function *)
Definition all_ranges (l : list replNode) : list (Z * Z * Z) :=
  flat_map (fun nd => map (fun r => (rp_replid nd, rn_lo r, rn_hi r)) (rp_ranges nd)) l.
Definition IDSet_ForEachRange {A} (s : IDSet) (fn : A -> Z -> Z -> Z -> A) (a : A) : A :=
  fold_left (fun a x => let '(r, lo, hi) := x in fn a r lo hi) (all_ranges (is_repls s)) a.

(** The two loops of [Concatenate]; a refused range leaves what was added before it. *)
Fixpoint append_ranges (s : IDSet) (l : list (Z * Z * Z)) : IDSet * bool :=
  match l with
  | [] => (s, true)
  | (replid, lo, hi) :: l =>
      let '(s', ok) := IDSet_AppendRange s replid lo hi in
      if ok then append_ranges s' l else (s', false)
  end.
Definition IDSet_Concatenate (s src : IDSet) : IDSet * bool :=
  if packed (is_form s) || packed (is_form src) then (s, false)
  else append_ranges s (all_ranges (is_repls src)).

(** The loop of [Convert]: the blocks before an unknown GUID are already renamed. *)
Fixpoint resolve (m : ReplicaMapper) (l : list replNode) : list replNode * bool :=
  match l with
  | [] => ([], true)
  | nd :: l =>
      match ToID (rp_replguid nd) with
      | None => (nd :: l, false)
      | Some r =>
          let '(l', ok) := resolve m l in (mkRepl r (rp_replguid nd) (rp_ranges nd) :: l', ok)
      end
  end.
Definition IDSet_Convert (s : IDSet) : IDSet * bool :=
  if is_form s =? FormIDPacked then (mkIDSet FormIDLoose (is_repls s) (is_mapper s), true)
  else if is_form s =? FormGUIDPacked then
    match is_mapper s with
    | None => (s, false)
    | Some m =>
        let '(l, ok) := resolve m (is_repls s) in
        if ok then (mkIDSet FormGUIDLoose l (is_mapper s), true) else (set_repls s l, false)
    end
  else (s, false).

(** The key of a replica block: the replica id, or its GUID. *)
Definition block_key (s : IDSet) (nd : replNode) : result idset_error bytes :=
  if is_form s =? FormIDLoose then Ok (le_bytes 2 (rp_replid nd))
  else if is_form s =? FormGUIDLoose then
    match is_mapper s with
    | None => Err errNoMapper
    | Some m =>
        match ToGUID (rp_replid nd) with
        | None => Err (errNoGUID (rp_replid nd))
        | Some g => Ok (GUID_Flat g)
        end
    end
  else Err (errPackedForm (is_form s)).

Fixpoint serialize_blocks (s : IDSet) (l : list replNode) : result idset_error bytes :=
  match l with
  | [] => Ok []
  | nd :: l =>
      if rs_empty (rp_ranges nd) then serialize_blocks s l
      else
        let? key := block_key s nd in
        let? rest := serialize_blocks s l in
        Ok (key ++ serializeGlobset (rp_ranges nd) ++ rest)
  end.
Definition IDSet_Serialize (s : IDSet) : result idset_error bytes :=
  serialize_blocks s (is_repls s).

(** What [Deserialize] reads before the command stream of a block. *)
Definition header (form : Z) (data : bytes) : result idset_error (replNode * bytes) :=
  if form =? FormIDPacked then
    if len data <? 2 then Err errTruncatedReplid
    else Ok (mkRepl (le_value (take 2 data)) zeroGUID [], drop 2 data)
  else if form =? FormGUIDPacked then
    if len data <? 16 then Err errTruncatedReplguid
    else Ok (mkRepl 0 (FlatUID_GUID (take 16 data)) [], drop 16 data)
  else Err (errLooseForm form).

(** The loop of [Deserialize]: the set keeps the blocks read before an error. *)
Fixpoint deserialize_loop (fuel : nat) (s : IDSet) (data : bytes) : IDSet * option idset_error :=
  match fuel, data with
  | _, [] => (s, None)
  | O, _ => (s, Some errOutOfFuel)
  | S fuel, _ =>
      match header (is_form s) data with
      | Err e => (s, Some e)
      | Ok (nd, data) =>
          let '(rs, consumed) := deserializeGlobset data in
          if (consumed =? 0)%nat then (s, Some errEmptyGlobset)
          else deserialize_loop fuel
                 (set_repls s (is_repls s ++ [mkRepl (rp_replid nd) (rp_replguid nd) rs]))
                 (drop consumed data)
      end
  end.
(** A block takes at least three bytes, so the length of the data is enough fuel. *)
Definition IDSet_Deserialize (s : IDSet) (data : bytes) : IDSet * option idset_error :=
  deserialize_loop (length data) s data.

(** ** Synchronization state *)

Definition metaTagIdsetGiven : Z := 0x40170003.
Definition metaTagIdsetGiven1 : Z := 0x40170102.
Definition metaTagCnsetSeen : Z := 0x67960102.
Definition metaTagCnsetSeenFAI : Z := 0x67DA0102.
Definition metaTagCnsetRead : Z := 0x67D20102.

Definition IsStateMetaTag (tag : Z) : bool :=
  (tag =? metaTagIdsetGiven) || (tag =? metaTagIdsetGiven1) || (tag =? metaTagCnsetSeen)
  || (tag =? metaTagCnsetSeenFAI) || (tag =? metaTagCnsetRead).
Definition IsGivenStateMetaTag (tag : Z) : bool :=
  (tag =? metaTagIdsetGiven) || (tag =? metaTagIdsetGiven1).
Definition IsContentsOnlyStateMetaTag (tag : Z) : bool :=
  (tag =? metaTagCnsetSeenFAI) || (tag =? metaTagCnsetRead).

Inductive StateType := ContentsDown | ContentsUp | HierarchyDown | HierarchyUp.

#[export] Instance StateType_eq_dec : EqDecision StateType.
Proof. solve_decision. Defined.

Definition isUp (t : StateType) : bool :=
  match t with ContentsUp | HierarchyUp => true | _ => false end.

(** [seen] is allocated for every type; the others are nil where the type has no use for them. *)
Record State := mkState {
  st_typ : StateType;
  st_given : option IDSet; st_seen : IDSet; st_seenFAI : option IDSet; st_read : option IDSet;
  st_mapper : option ReplicaMapper }.

Inductive state_error :=
| errDeserialize (tag : Z) (e : idset_error) | errResolve (tag : Z) | errNotStateTag (tag : Z)
| errSerialize (e : idset_error).

Definition NewState (typ : StateType) (mapper : option ReplicaMapper) : State :=
  let mk := NewIDSet FormGUIDLoose mapper in
  match typ with
  | ContentsDown | ContentsUp => mkState typ (Some mk) mk (Some mk) (Some mk) mapper
  | HierarchyDown => mkState typ (Some mk) mk None None mapper
  | HierarchyUp => mkState typ None mk None None mapper
  end.

Definition mergeUp (typ : StateType) (prior : option IDSet) (incoming : IDSet) : IDSet :=
  match prior with
  | Some p => if isUp typ && negb (IDSet_Empty p) then fst (IDSet_Concatenate incoming p) else incoming
  | None => incoming
  end.

(** The parsing half of [AppendIDSet] *)
Definition read_idset (mapper : option ReplicaMapper) (tag : Z) (serialized : bytes)
  : result state_error IDSet :=
  match IDSet_Deserialize (NewIDSet FormGUIDPacked mapper) serialized with
  | (_, Some e) => Err (errDeserialize tag e)
  | (set, None) =>
      match IDSet_Convert set with
      | (_, false) => Err (errResolve tag)
      | (set, true) => Ok set
      end
  end.

Definition AppendIDSet (s : State) (metaTag : Z) (serialized : bytes) : result state_error State :=
  let? set := read_idset (st_mapper s) metaTag serialized in
  let typ := st_typ s in
  if (metaTag =? metaTagIdsetGiven) || (metaTag =? metaTagIdsetGiven1) then
    Ok (mkState typ (Some set) (st_seen s) (st_seenFAI s) (st_read s) (st_mapper s))
  else if metaTag =? metaTagCnsetSeen then
    Ok (mkState typ (st_given s) (mergeUp typ (Some (st_seen s)) set) (st_seenFAI s) (st_read s)
          (st_mapper s))
  else if metaTag =? metaTagCnsetSeenFAI then
    let set := if bool_decide (typ = ContentsUp) then mergeUp typ (st_seenFAI s) set else set in
    Ok (mkState typ (st_given s) (st_seen s) (Some set) (st_read s) (st_mapper s))
  else if metaTag =? metaTagCnsetRead then
    let set := if bool_decide (typ = ContentsUp) then mergeUp typ (st_read s) set else set in
    Ok (mkState typ (st_given s) (st_seen s) (st_seenFAI s) (Some set) (st_mapper s))
  else Err (errNotStateTag metaTag).

Definition emitsGiven (s : State) : bool :=
  match st_given s with
  | None => false
  | Some g =>
      match st_typ s with
      | ContentsDown | HierarchyDown => true
      | ContentsUp => negb (IDSet_Empty g)
      | HierarchyUp => false
      end
  end.
Definition emitsSeenFAI (s : State) : bool :=
  match st_seenFAI s, st_typ s with
  | Some _, (ContentsDown | ContentsUp) => true
  | _, _ => false
  end.
Definition emitsRead (s : State) : bool :=
  match st_read s with
  | None => false
  | Some r =>
      match st_typ s with
      | ContentsDown => true
      | ContentsUp => negb (IDSet_Empty r)
      | _ => false
      end
  end.

(** [StreamProp] with the binary value a state set is written as. *)
Record StateProp := mkStateProp { spTag : Z; spValue : bytes }.

Definition emit (cond : bool) (tag : Z) (set : option IDSet) : result state_error (list StateProp) :=
  match cond, set with
  | true, Some set =>
      match IDSet_Serialize set with
      | Ok b => Ok [mkStateProp tag b]
      | Err e => Err (errSerialize e)
      end
  | _, _ => Ok []
  end.

Definition State_Serialize (s : State) : result state_error (list StateProp) :=
  let? g := emit (emitsGiven s) metaTagIdsetGiven1 (st_given s) in
  let? n := emit true metaTagCnsetSeen (Some (st_seen s)) in
  let? f := emit (emitsSeenFAI s) metaTagCnsetSeenFAI (st_seenFAI s) in
  let? r := emit (emitsRead s) metaTagCnsetRead (st_read s) in
  Ok (g ++ n ++ f ++ r).

(** ** Membership as lookup *)

Fixpoint lookup_ranges (l : list replNode) (replid : Z) : rangeSet :=
  match l with
  | [] => []
  | nd :: l => if rp_replid nd =? replid then rp_ranges nd else lookup_ranges l replid
  end.

Lemma member_lookup l r v : member l r v = rs_contains (lookup_ranges l r) v.
Proof. induction l as [|nd l IH]; simpl; [done|]. by destruct (_ =? _). Qed.

Lemma findOrCreate_lookup l r f r' :
  lookup_ranges (findOrCreate l r f) r' = if r =? r' then f (lookup_ranges l r) else lookup_ranges l r'.
Proof.
  induction l as [|nd l IH]; simpl; [by destruct (_ =? _)|].
  destruct (Z.eqb_spec (rp_replid nd) r) as [E|E]; simpl.
  - subst. by destruct (_ =? _).
  - rewrite IH. destruct (Z.eqb_spec (rp_replid nd) r'), (Z.eqb_spec r r'); congruence.
Qed.

Lemma remove_lookup l r v r' :
  lookup_ranges (remove_from l r v) r'
  = if r =? r' then rs_erase (lookup_ranges l r) v else lookup_ranges l r'.
Proof.
  induction l as [|nd l IH]; simpl; [by destruct (_ =? _)|].
  destruct (Z.eqb_spec (rp_replid nd) r) as [E|E]; simpl.
  - subst. by destruct (_ =? _).
  - rewrite IH. destruct (Z.eqb_spec (rp_replid nd) r'), (Z.eqb_spec r r'); congruence.
Qed.

(** ** The invariant of a loose set *)

(** One block per replica, its ranges canonical and of 48 bits. *)
Definition repls_ok (l : list replNode) : Prop :=
  NoDup (map rp_replid l) /\ Forall (fun nd => globset_ok (rp_ranges nd) = true) l.

Definition idset_ok (s : IDSet) : Prop := packed (is_form s) = false /\ repls_ok (is_repls s).

Lemma findOrCreate_ids l r f :
  map rp_replid (findOrCreate l r f)
  = if bool_decide (r ∈ map rp_replid l) then map rp_replid l else map rp_replid l ++ [r].
Proof.
  induction l as [|nd l IH]; simpl; [done|]. destruct (Z.eqb_spec (rp_replid nd) r) as [E|E]; simpl.
  - by rewrite bool_decide_eq_true_2 by (rewrite E; left).
  - rewrite IH. destruct (bool_decide (r ∈ map rp_replid l)) eqn:B.
    + apply bool_decide_eq_true in B. by rewrite bool_decide_eq_true_2 by by right.
    + apply bool_decide_eq_false in B. rewrite bool_decide_eq_false_2; [done|].
      rewrite elem_of_cons. intros [?|?]; congruence.
Qed.

Lemma findOrCreate_ok l r f :
  repls_ok l -> (forall rs, globset_ok rs = true -> globset_ok (f rs) = true) ->
  repls_ok (findOrCreate l r f).
Proof.
  intros [Hn Hf] H. split.
  - rewrite findOrCreate_ids. destruct (bool_decide _) eqn:B; [done|].
    apply bool_decide_eq_false in B. rewrite list_elem_of_In in B. rewrite NoDup_ListNoDup in *.
    apply List.NoDup_app; [done|repeat constructor; by intros []|].
    by intros x Hx [<-|[]].
  - clear Hn. induction Hf as [|nd l Hnd Hf IH]; simpl; [repeat constructor; by apply H|].
    destruct (_ =? _); constructor; simpl; auto.
Qed.

(** *** 48-bit bounds through insertion and removal *)

Definition below (B : Z) (nd : rangeNode) : bool := rn_hi nd <? B.

Lemma coalesce_from_below B last l :
  below B last = true -> forallb (below B) l = true -> forallb (below B) (coalesce_from last l) = true.
Proof.
  revert last. induction l as [|nd l IH]; intros last Hl Hs; simpl in *; [by rewrite Hl|].
  bsplit. destruct (_ <=? _); [apply IH; [by destruct (_ <? _)|done]|].
  simpl. rewrite Hl. by apply IH.
Qed.

Lemma rs_insert_below B rs lo hi :
  forallb (below B) rs = true -> hi < B -> forallb (below B) (rs_insert rs lo hi) = true.
Proof.
  intros Hrs Hhi. unfold rs_insert.
  assert (H : forallb (below B) (sort_by_lo (rs ++ [mkRange lo hi])) = true).
  { rewrite (forallb_perm _ _ _ (sort_perm _)), forallb_app, Hrs. simpl. unfold below. simpl.
    by rewrite (proj2 (Z.ltb_lt hi B)). }
  destruct (sort_by_lo _); [done|]. simpl in *. bsplit. by apply coalesce_from_below.
Qed.

(** A canonical list is of 48-bit counters as soon as its upper ends are. *)
Lemma globset_ok_below rs : globset_ok rs = wf_ranges rs && forallb (below (2 ^ 48)) rs.
Proof.
  unfold globset_ok, wf_ranges. assert (H : -1 <= -1) by lia. revert H.
  generalize (-1) at 2 3 4. induction rs as [|nd rs IH]; intros b Hb; simpl; [done|].
  destruct ((b <? rn_lo nd) && (rn_lo nd <=? rn_hi nd)) eqn:E; simpl; [|done]. bprop.
  unfold node48 at 1, below at 1. rewrite (proj2 (Z.leb_le 0 (rn_lo nd))), (proj2 (Z.leb_le (rn_lo nd) _)) by lia.
  simpl. rewrite !andb_assoc, !(andb_comm (wf_above _ _)), <- !andb_assoc, IH by lia. done.
Qed.

Lemma globset_ok_parts rs :
  globset_ok rs = true -> wf_ranges rs = true /\ ranges_ok rs = true /\ forallb (below (2 ^ 48)) rs = true.
Proof.
  intros H. pose proof H as H'. rewrite globset_ok_below in H'. unfold globset_ok in H. bsplit.
  split; [done|]. split; [|done]. unfold ranges_ok. apply andb_true_iff. split.
  - by eapply wf_upright.
  - apply (forallb_impl node48); [|done]. unfold node48, counter_node. intros. bsolve.
Qed.

Lemma globset_insert rs lo hi :
  globset_ok rs = true -> node48 (mkRange lo hi) = true -> globset_ok (rs_insert rs lo hi) = true.
Proof.
  intros H Hn. destruct (globset_ok_parts rs H) as (Hw & Hr & Hb).
  unfold node48 in Hn. cbn in Hn. bprop. rewrite globset_ok_below.
  rewrite rs_insert_wf, rs_insert_below by (try done; try lia; unfold counter_node; cbn; bsolve). done.
Qed.

Lemma rs_erase_below B rs v :
  forallb (below B) rs = true -> forallb upright rs = true -> forallb counter_node rs = true ->
  forallb (below B) (rs_erase rs v) = true.
Proof.
  induction rs as [|nd rs IH]; simpl; [done|]. intros. bsplit. rewrite forallb_app, IH by done.
  rewrite andb_true_r. unfold erase_node, below, upright, counter_node in *. bprop.
  destruct (Z.ltb_spec v (rn_lo nd)); cbn [orb forallb]; [bsolve; done|].
  destruct (Z.ltb_spec (rn_hi nd) v); cbn [orb forallb]; [bsolve; done|].
  destruct (Z.ltb_spec (rn_lo nd) v), (Z.ltb_spec v (rn_hi nd)); cbn [app forallb rn_hi];
    rewrite ?u64_small by lia; bsolve; done.
Qed.

Lemma globset_erase rs v : globset_ok rs = true -> globset_ok (rs_erase rs v) = true.
Proof.
  intros H. destruct (globset_ok_parts rs H) as (Hw & Hr & Hb). unfold ranges_ok in Hr. bsplit.
  rewrite globset_ok_below, rs_erase_below by done. rewrite andb_true_r. by apply rs_erase_wf.
Qed.

Lemma lookup_ok l r : repls_ok l -> globset_ok (lookup_ranges l r) = true.
Proof.
  intros [_ H]. induction H as [|nd l Hn _ IH]; simpl; [done|]. by destruct (_ =? _).
Qed.

(** *** The operations on a loose set *)

Lemma append_range_ok s r lo hi :
  idset_ok s -> node48 (mkRange lo hi) = true ->
  exists s', IDSet_AppendRange s r lo hi = (s', true) /\ idset_ok s'
    /\ is_form s' = is_form s /\ is_mapper s' = is_mapper s
    /\ forall r' v, member (is_repls s') r' v
         = member (is_repls s) r' v || ((r =? r') && (lo <=? v) && (v <=? hi)).
Proof.
  intros [Hp Hr] Hn. pose proof Hn as Hn'. unfold node48 in Hn'. cbn in Hn'. bprop.
  unfold IDSet_AppendRange. rewrite Hp, (proj2 (Z.ltb_ge hi lo)) by lia. simpl.
  eexists. split; [done|]. split; [split; [done|]|].
  - simpl. apply findOrCreate_ok; [done|]. intros. by apply globset_insert.
  - split; [done|]. split; [done|]. intros r' v. simpl. rewrite !member_lookup, findOrCreate_lookup.
    destruct (Z.eqb_spec r r') as [->|]; simpl; [|by rewrite orb_false_r].
    destruct (globset_ok_parts _ (lookup_ok _ r' Hr)) as (_ & Hc & _). unfold ranges_ok in Hc. bsplit.
    apply rs_insert_contains; [done|]. unfold counter_node. cbn. bsolve.
Qed.

Lemma remove_from_ok l r v : repls_ok l -> repls_ok (remove_from l r v).
Proof.
  intros [Hn Hf]. split.
  - replace (map rp_replid (remove_from l r v)) with (map rp_replid l); [done|].
    clear. induction l as [|nd l IH]; simpl; [done|]. destruct (_ =? _); simpl; congruence.
  - clear Hn. induction Hf as [|nd l Hnd Hf IH]; simpl; [constructor|].
    destruct (_ =? _); constructor; simpl; auto. by apply globset_erase.
Qed.

(** The members a list of ranges stands for. *)
Definition in_ranges (l : list (Z * Z * Z)) (r v : Z) : bool :=
  existsb (fun x => let '(r', lo, hi) := x in (r' =? r) && (lo <=? v) && (v <=? hi)) l.

Lemma append_ranges_ok s l :
  idset_ok s -> Forall (fun x => let '(_, lo, hi) := x in node48 (mkRange lo hi) = true) l ->
  exists s', append_ranges s l = (s', true) /\ idset_ok s'
    /\ is_form s' = is_form s /\ is_mapper s' = is_mapper s
    /\ forall r v, member (is_repls s') r v = member (is_repls s) r v || in_ranges l r v.
Proof.
  intros Hs Hl. revert s Hs. induction Hl as [|[[r lo] hi] l Hx _ IH]; intros s Hs; simpl.
  - exists s. repeat split; try done; try apply Hs. intros. by rewrite orb_false_r.
  - destruct (append_range_ok s r lo hi Hs Hx) as (s1 & E & Hs1 & F1 & M1 & C1). rewrite E.
    destruct (IH s1 Hs1) as (s2 & E2 & Hs2 & F2 & M2 & C2). exists s2.
    split; [done|]. split; [done|]. split; [congruence|]. split; [congruence|].
    intros r' v. by rewrite C2, C1, orb_assoc.
Qed.

Lemma in_ranges_app a b r v : in_ranges (a ++ b) r v = in_ranges a r v || in_ranges b r v.
Proof. apply existsb_app. Qed.

Lemma in_ranges_node nd r v :
  in_ranges (map (fun x => (rp_replid nd, rn_lo x, rn_hi x)) (rp_ranges nd)) r v
  = (rp_replid nd =? r) && rs_contains (rp_ranges nd) v.
Proof.
  unfold in_ranges, rs_contains. induction (rp_ranges nd) as [|x l IH]; simpl; [by rewrite andb_false_r|].
  rewrite IH. unfold in_node. by destruct (_ =? r).
Qed.

Lemma member_absent l r v : r ∉ map rp_replid l -> member l r v = false.
Proof.
  induction l as [|nd l IH]; simpl; [done|]. rewrite not_elem_of_cons. intros [H1 H2].
  destruct (Z.eqb_spec (rp_replid nd) r); [congruence|]. auto.
Qed.

(** With one block per replica, membership is membership in some range. *)
Lemma in_ranges_member l r v : NoDup (map rp_replid l) -> in_ranges (all_ranges l) r v = member l r v.
Proof.
  induction l as [|nd l IH]; intros Hn; [done|]. simpl in Hn. inversion Hn as [|x l0 H1 H2]; subst.
  simpl. unfold all_ranges. simpl. rewrite in_ranges_app, in_ranges_node. fold (all_ranges l).
  rewrite IH by done. destruct (Z.eqb_spec (rp_replid nd) r) as [<-|]; [|done].
  rewrite member_absent by done. apply orb_false_r.
Qed.

Lemma all_ranges_48 l :
  Forall (fun nd => globset_ok (rp_ranges nd) = true) l ->
  Forall (fun x => let '(_, lo, hi) := x in node48 (mkRange lo hi) = true) (all_ranges l).
Proof.
  induction 1 as [|nd l Hn _ IH]; simpl; [constructor|]. unfold all_ranges. simpl.
  apply Forall_app. split; [|exact IH]. unfold globset_ok in Hn. bsplit.
  apply List.Forall_map. apply forallb_Forall in H0.
  eapply List.Forall_impl; [|exact H0]. by intros [lo hi].
Qed.

(** ** The wire form *)

(** The blocks a serialized set leaves out. *)
Definition stored (l : list replNode) : list replNode :=
  List.filter (fun nd => negb (rs_empty (rp_ranges nd))) l.

Lemma rs_empty_spec rs : rs_empty rs = true <-> rs = [].
Proof. unfold rs_empty, len. by destruct rs; simpl; split. Qed.

Lemma stored_lookup l r : NoDup (map rp_replid l) -> lookup_ranges (stored l) r = lookup_ranges l r.
Proof.
  induction l as [|nd l IH]; intros Hn; [done|]. simpl in Hn.
  inversion Hn as [|x l0 H1 H2]; subst. simpl.
  destruct (rs_empty (rp_ranges nd)) eqn:E; simpl; rewrite IH by done; try done.
  destruct (Z.eqb_spec (rp_replid nd) r) as [<-|]; [|done].
  apply rs_empty_spec in E. rewrite E. clear -H1. induction l as [|nd' l IH]; simpl in *; [done|].
  apply not_elem_of_cons in H1 as [H1 H2]. destruct (Z.eqb_spec (rp_replid nd') (rp_replid nd)); [congruence|auto].
Qed.

Lemma stored_ok l : repls_ok l -> repls_ok (stored l).
Proof.
  intros [Hn Hf]. split.
  - clear Hf. induction l as [|nd l IH]; simpl in *; [done|]. inversion Hn as [|x l0 H1 H2]; subst.
    destruct (negb _); simpl; [|auto]. constructor; [|auto]. intros H. apply H1.
    apply list_elem_of_In, in_map_iff in H as (nd' & E & Hin).
    apply list_elem_of_In, in_map_iff. exists nd'. split; [done|]. by apply List.filter_In in Hin as [? _].
  - apply List.Forall_forall. intros nd Hin. apply List.filter_In in Hin as [Hin _].
    by eapply List.Forall_forall in Hf.
Qed.

(** Two block lists that hold the same ranges under the same ids. *)
Definition same_blocks (l l' : list replNode) : Prop :=
  Forall2 (fun a b => rp_replid a = rp_replid b /\ rp_ranges a = rp_ranges b) l l'.

Lemma same_blocks_lookup l l' r : same_blocks l l' -> lookup_ranges l r = lookup_ranges l' r.
Proof. induction 1 as [|a b l l' [E1 E2] _ IH]; simpl; [done|]. by rewrite E1, E2, IH. Qed.

Lemma same_blocks_ok l l' : same_blocks l l' -> repls_ok l -> repls_ok l'.
Proof.
  intros H [Hn Hf]. split.
  - replace (map rp_replid l') with (map rp_replid l); [done|]. clear -H.
    induction H as [|a b l l' [E _] _ IH]; simpl; congruence.
  - clear Hn. induction H as [|a b l l' [_ E] _ IH]; [constructor|].
    apply Forall_cons_1 in Hf as [H1 H2]. constructor; [by rewrite <- E|auto].
Qed.

Lemma serialize_nonempty rs : serializeGlobset rs <> [].
Proof.
  destruct rs as [|a [|b l]]; simpl; [done| |].
  - destruct (_ =? _); simpl; by intros [=].
  - intros H. apply app_eq_nil in H as [_ H]. apply app_eq_nil in H as [_ H].
    apply app_eq_nil in H as [_ H]. done.
Qed.

Definition with_ranges (nd : replNode) (rs : rangeSet) : replNode :=
  mkRepl (rp_replid nd) (rp_replguid nd) rs.

(** One block: its key, its command stream, the rest. *)
Lemma deserialize_block fuel s key node rs rest :
  globset_ok rs = true -> key <> [] ->
  (forall data, header (is_form s) (key ++ data) = Ok (node, data)) ->
  deserialize_loop (S fuel) s (key ++ serializeGlobset rs ++ rest)
  = deserialize_loop fuel (set_repls s (is_repls s ++ [with_ranges node rs])) rest.
Proof.
  intros Hok Hk Hkey. specialize (Hkey (serializeGlobset rs ++ rest)).
  cbn [deserialize_loop]. destruct (key ++ serializeGlobset rs ++ rest) as [|c data] eqn:E.
  { by apply app_eq_nil in E as [-> _]. }
  rewrite <- E in *. rewrite Hkey.
  assert (D : deserializeGlobset (serializeGlobset rs ++ rest) = (rs, length (serializeGlobset rs))).
  { rewrite deserialize_exec, globset_exec by done. cbn [gd_rs gd_rest].
    rewrite length_app. f_equal. lia. }
  rewrite D. destruct (Nat.eqb_spec (length (serializeGlobset rs)) 0) as [L|L].
  { apply length_zero_iff_nil in L. by apply serialize_nonempty in L. }
  by rewrite drop_app_length.
Qed.

Lemma deserialize_nil fuel s : deserialize_loop fuel s [] = (s, None).
Proof. by destruct fuel. Qed.

Section blocks.
(** A loose set [s] read back into a set of form [form], where [R] relates a block to what
    its key is read as. *)
Context (s : IDSet) (form : Z) (R : replNode -> replNode -> Prop).
Context (Hkey : forall nd key, block_key s nd = Ok key ->
  exists node, R nd node /\ key <> [] /\ forall data, header form (key ++ data) = Ok (node, data)).

Definition read_as (nd nd' : replNode) : Prop :=
  exists node, R nd node /\ nd' = with_ranges node (rp_ranges nd).

Lemma read_blocks l bs p fuel :
  is_form p = form -> Forall (fun nd => globset_ok (rp_ranges nd) = true) l ->
  serialize_blocks s l = Ok bs -> (length bs <= fuel)%nat ->
  exists l', Forall2 read_as (stored l) l'
    /\ deserialize_loop fuel p bs = (set_repls p (is_repls p ++ l'), None).
Proof.
  intros Hp Hl. revert bs p fuel Hp.
  induction Hl as [|nd l Hnd _ IH]; intros bs p fuel Hp Hs Hlen; simpl in Hs.
  - injection Hs as <-. exists []. split; [constructor|]. rewrite deserialize_nil, app_nil_r.
    by destruct p.
  - simpl. destruct (rs_empty (rp_ranges nd)) eqn:E; simpl; [by apply IH|].
    destruct (block_key s nd) as [key|] eqn:K; cbn [rbind] in Hs; [|done].
    destruct (serialize_blocks s l) as [rest|] eqn:R'; cbn [rbind] in Hs; [|done].
    assert (Eb : bs = key ++ serializeGlobset (rp_ranges nd) ++ rest) by congruence. subst bs.
    destruct (Hkey nd key K) as (node & HR & Hne & Hh). rewrite !length_app in Hlen.
    assert (length (serializeGlobset (rp_ranges nd)) <> 0%nat).
    { intros L. apply length_zero_iff_nil in L. by apply serialize_nonempty in L. }
    destruct fuel as [|fuel]; [lia|].
    rewrite (deserialize_block fuel p key node); [|done|done|by rewrite Hp].
    destruct (IH rest (set_repls p (is_repls p ++ [with_ranges node (rp_ranges nd)])) fuel) as (l' & F & D);
      [done|done|lia|].
    exists (with_ranges node (rp_ranges nd) :: l'). split; [constructor; [by exists node|done]|].
    rewrite D. unfold set_repls. simpl. by rewrite <- app_assoc.
Qed.
End blocks.

(** A GUID block is read back with the GUID the mapper gave its replica. *)
Definition guid_node (m : ReplicaMapper) (nd node : replNode) : Prop :=
  ToGUID (rp_replid nd) = Some (rp_replguid node).

Lemma guid_header (m : ReplicaMapper) `{!MapperLaws m} s nd key :
  is_form s = FormGUIDLoose -> is_mapper s = Some m -> block_key s nd = Ok key ->
  exists node, guid_node m nd node /\ key <> []
    /\ forall data, header FormGUIDPacked (key ++ data) = Ok (node, data).
Proof.
  unfold block_key. intros -> -> K. change (FormGUIDLoose =? FormIDLoose) with false in K.
  rewrite Z.eqb_refl in K. destruct (ToGUID (rp_replid nd)) as [g|] eqn:G; [|done].
  assert (key = GUID_Flat g) as -> by congruence.
  pose proof (ToGUID_ok _ _ G) as Gok. pose proof (guid_ok_length g Gok) as Gl.
  exists (mkRepl 0 g []). split; [done|]. split; [intros H; by rewrite H in Gl|]. intros data.
  unfold header. change (FormGUIDPacked =? FormIDPacked) with false. rewrite Z.eqb_refl, len_app.
  unfold len at 1. rewrite Gl. pose proof (len_nonneg data).
  destruct (Z.ltb_spec (Z.of_nat 16 + len data) 16); [lia|].
  rewrite <- Gl, take_app_length, drop_app_length. by rewrite FlatUID_GUID_Flat.
Qed.

(** A replica-id block is read back with its id. *)
Definition id_node (nd node : replNode) : Prop := rp_replid node = u16 (rp_replid nd).

Lemma id_header s nd key :
  is_form s = FormIDLoose -> block_key s nd = Ok key ->
  exists node, id_node nd node /\ key <> []
    /\ forall data, header FormIDPacked (key ++ data) = Ok (node, data).
Proof.
  unfold block_key. intros -> K. rewrite Z.eqb_refl in K.
  assert (key = le_bytes 2 (rp_replid nd)) as -> by congruence.
  exists (mkRepl (u16 (rp_replid nd)) zeroGUID []). split; [done|]. split; [done|]. intros data.
  unfold header. rewrite Z.eqb_refl, len_app. pose proof (len_nonneg data).
  change (len (le_bytes 2 (rp_replid nd))) with 2.
  destruct (Z.ltb_spec (2 + len data) 2); [lia|].
  rewrite take_app_length', drop_app_length' by by rewrite length_le_bytes.
  by rewrite le_value_mod.
Qed.

Lemma resolve_packed (m : ReplicaMapper) `{!MapperLaws m} l l' :
  Forall2 (read_as (guid_node m)) l l' ->
  exists l'', resolve m l' = (l'', true) /\ same_blocks l l''.
Proof.
  induction 1 as [|nd nd' l l' (node & Hg & ->) _ IH]; simpl.
  - exists []. split; [done|constructor].
  - rewrite (ToID_ToGUID _ _ Hg). destruct IH as (l'' & -> & S).
    eexists. split; [done|]. constructor; [by split|done].
Qed.

(** The first half of [State.AppendIDSet], fed what [Serialize] wrote. *)
Lemma read_written (m : ReplicaMapper) `{!MapperLaws m} tag s bs :
  is_form s = FormGUIDLoose -> is_mapper s = Some m -> repls_ok (is_repls s) ->
  IDSet_Serialize s = Ok bs ->
  exists l, read_idset (Some m) tag bs = Ok (mkIDSet FormGUIDLoose l (Some m))
    /\ repls_ok l /\ forall r, lookup_ranges l r = lookup_ranges (is_repls s) r.
Proof.
  intros Hf Hm Hok Hs.
  destruct (read_blocks s FormGUIDPacked (guid_node m) (fun nd key => guid_header m s nd key Hf Hm)
    (is_repls s) bs (NewIDSet FormGUIDPacked (Some m)) (length bs)) as (l' & F & D); try done; [apply Hok|].
  destruct (resolve_packed m _ _ F) as (l & R & S). exists l. unfold read_idset, IDSet_Deserialize.
  rewrite D. unfold IDSet_Convert. cbn [NewIDSet set_repls is_form is_repls is_mapper app].
  cbn. rewrite R. split; [done|]. split; [by eapply same_blocks_ok, stored_ok|].
  intros r. rewrite <- (same_blocks_lookup _ _ r S). apply stored_lookup, Hok.
Qed.

Lemma header_shorter form data nd d :
  header form data = Ok (nd, d) -> (length d < length data)%nat.
Proof.
  unfold header. destruct (_ =? _).
  - destruct (Z.ltb_spec (len data) 2); [done|]. intros [= _ <-]. rewrite length_drop. unfold len in *. lia.
  - destruct (_ =? _); [|done].
    destruct (Z.ltb_spec (len data) 16); [done|]. intros [= _ <-]. rewrite length_drop. unfold len in *. lia.
Qed.

Lemma deserialize_fuel fuel s data :
  (length data <= fuel)%nat -> snd (deserialize_loop fuel s data) <> Some errOutOfFuel.
Proof.
  revert s data. induction fuel as [|fuel IH]; intros s data Hl.
  - destruct data; [done|simpl in Hl; lia].
  - destruct data as [|c data']; [done|]. cbn [deserialize_loop]. remember (c :: data') as data eqn:Ed.
    destruct (header (is_form s) data) as [[nd d]|e] eqn:H.
    + destruct (deserializeGlobset d) as [rs consumed]. destruct (_ =? _)%nat; [done|].
      apply IH. rewrite length_drop. apply header_shorter in H. lia.
    + unfold header in H. destruct (_ =? _); [|destruct (_ =? _)];
        repeat match type of H with context [?a <? ?b] => destruct (a <? b) end; simpl; congruence.
Qed.

(** ** Properties *)

(** *** Ids *)

(** An id of 64 bits is its replica id and its counter. *)
Lemma eid_split e : 0 <= e < 2 ^ 64 -> MakeEIDEx (EID_ReplID e) (EID_GCValue e) = e.
Proof.
  intros He. set (b := le_bytes 8 e). assert (Hb : length b = 8%nat) by apply length_le_bytes.
  assert (Ev : le_value b = e) by (unfold b; apply le_value_le_bytes; simpl; lia).
  assert (Hok : bytes_ok b = true) by apply le_bytes_ok.
  rewrite <- (take_drop 2 b), bytes_ok_app in Hok. apply andb_prop in Hok as [Ok1 Ok2].
  assert (L1 : length (take 2 b) = 2%nat) by (rewrite length_take; lia). assert (L2 : length (drop 2 b) = 6%nat) by (rewrite length_drop; lia).
  assert (Rd : EID_ReplID e = le_value (take 2 b)).
  { unfold EID_ReplID. change 0xFFFF with (2 ^ 16 - 1). rewrite land_ones_mod by lia. rewrite <- Ev, <- (take_drop 2 b) at 1. rewrite le_value_app.
    unfold len. rewrite L1. change (8 * Z.of_nat 2) with 16. rewrite Z.mul_comm, Z.mod_add by lia. apply Z.mod_small.
    pose proof (le_value_bound (take 2 b) Ok1) as B. unfold len in B. by rewrite L1 in B. }
  assert (Gv : EID_GCValue e = le_value (rev (drop 2 b))).
  { unfold EID_GCValue, ReverseBytes64, be_value. change gcvMask with (2 ^ 48 - 1). rewrite land_ones_mod by lia. fold b.
    rewrite <- (take_drop 2 b) at 1. rewrite rev_app_distr, le_value_app. unfold len. rewrite length_rev, L2. change (8 * Z.of_nat 6) with 48.
    rewrite Z.mul_comm, Z.mod_add by lia. apply Z.mod_small. rewrite <- bytes_ok_rev in Ok2.
    pose proof (le_value_bound (rev (drop 2 b)) Ok2) as B. unfold len in B. by rewrite length_rev, L2 in B. }
  rewrite <- bytes_ok_rev in Ok2. pose proof (le_value_bound (take 2 b) Ok1) as B1. pose proof (le_value_bound (rev (drop 2 b)) Ok2) as B2.
  unfold len in B1, B2. rewrite length_rev, L2 in B2. rewrite L1 in B1. rewrite Rd, Gv, EID_value by done.
  replace (le_bytes 2 (le_value (take 2 b))) with (take 2 b) by (rewrite <- L1 at 2; symmetry; by apply le_bytes_le_value).
  replace (le_bytes 6 (le_value (rev (drop 2 b)))) with (rev (drop 2 b)).
  2: { symmetry. rewrite <- L2, <- (length_rev (drop 2 b)). by apply le_bytes_le_value. }
  by rewrite rev_involutive, take_drop.
Qed.
Lemma eid_eqb e x : 0 <= e < 2 ^ 64 -> 0 <= x < 2 ^ 64 -> (EID_ReplID e =? EID_ReplID x) && (EID_GCValue x =? EID_GCValue e) = (x =? e).
Proof.
  intros He Hx. destruct (Z.eqb_spec x e) as [->|Hne]; [by rewrite !Z.eqb_refl|].
  destruct (Z.eqb_spec (EID_ReplID e) (EID_ReplID x)) as [E1|]; [|done]. destruct (Z.eqb_spec (EID_GCValue x) (EID_GCValue e)) as [E2|]; [|done].
  exfalso. apply Hne. rewrite <- (eid_split x Hx), <- (eid_split e He). by rewrite E1, E2.
Qed.
Lemma eid_node48 e : node48 (mkRange (EID_GCValue e) (EID_GCValue e)) = true.
Proof.
  assert (B : 0 <= EID_GCValue e < 2 ^ 48).
  { unfold EID_GCValue. change gcvMask with (2 ^ 48 - 1). rewrite land_ones_mod by lia. apply Z.mod_pos_bound. lia. }
  unfold node48. cbn. lia.
Qed.

(** *** The sets the operations build, each with the set of ids it stands for *)

Inductive built : (Z -> bool) -> IDSet -> Prop :=
| built_new form m : packed form = false -> built (fun _ => false) (NewIDSet form m)
| built_append A s e s' : built A s -> 0 <= e < 2 ^ 64 -> IDSet_Append s e = (s', true) -> built (fun x => A x || (x =? e)) s'
| built_range A s r lo hi s' : built A s -> 0 <= lo -> hi < 2 ^ 48 -> IDSet_AppendRange s r lo hi = (s', true) ->
    built (fun x => A x || (EID_ReplID x =? r) && (lo <=? EID_GCValue x) && (EID_GCValue x <=? hi)) s'
| built_remove A s e : built A s -> 0 <= e < 2 ^ 64 -> built (fun x => A x && negb (x =? e)) (IDSet_Remove s e)
| built_union A s A' src s' : built A s -> built A' src -> IDSet_Concatenate s src = (s', true) -> built (fun x => A x || A' x) s'.

Lemma remove_ok s e : idset_ok s -> idset_ok (IDSet_Remove s e)
  /\ forall r v, member (is_repls (IDSet_Remove s e)) r v = member (is_repls s) r v && negb ((EID_ReplID e =? r) && (v =? EID_GCValue e)).
Proof.
  intros [Hp Hr]. unfold IDSet_Remove. rewrite Hp. split; [split; [done|by apply remove_from_ok]|].
  intros r v. simpl. rewrite !member_lookup, remove_lookup.
  destruct (Z.eqb_spec (EID_ReplID e) r) as [->|]; simpl; [|by rewrite andb_true_r].
  destruct (globset_ok_parts _ (lookup_ok _ r Hr)) as (_ & Hc & _). unfold ranges_ok in Hc. bsplit. by apply rs_erase_contains.
Qed.
Lemma concatenate_ok s src : idset_ok s -> idset_ok src -> exists s', IDSet_Concatenate s src = (s', true) /\ idset_ok s'
  /\ forall r v, member (is_repls s') r v = member (is_repls s) r v || member (is_repls src) r v.
Proof.
  intros [Hp Hr] [Hp' [Hn' Hf']]. unfold IDSet_Concatenate. rewrite Hp, Hp'. simpl.
  destruct (append_ranges_ok s (all_ranges (is_repls src)) (conj Hp Hr) (all_ranges_48 _ Hf')) as (s' & E & H1 & _ & _ & H2).
  exists s'. split; [done|]. split; [done|]. intros. by rewrite H2, in_ranges_member.
Qed.
Lemma loose_contains s x : idset_ok s -> IDSet_Contains s x = member (is_repls s) (EID_ReplID x) (EID_GCValue x).
Proof. intros [Hp _]. unfold IDSet_Contains. destruct (Z.eqb_spec (is_form s) FormGUIDPacked) as [E|]; [by rewrite E in Hp|done]. Qed.
Lemma range_bounds lo hi : 0 <= lo -> hi < 2 ^ 48 -> lo <= hi -> node48 (mkRange lo hi) = true.
Proof. intros. unfold node48. cbn. lia. Qed.

Lemma built_ok A s : built A s -> idset_ok s /\ forall x, 0 <= x < 2 ^ 64 -> member (is_repls s) (EID_ReplID x) (EID_GCValue x) = A x.
Proof.
  induction 1 as [form m Hp|A s e s' _ [Hs IH] He E|A s r lo hi s' _ [Hs IH] Hlo Hhi E|A s e _ [Hs IH] He|A s A' src s' _ [Hs IH] _ [Hs' IH'] E].
  - split; [|done]. split; [done|]. split; constructor.
  - unfold IDSet_Append in E. destruct (append_range_ok s (EID_ReplID e) _ _ Hs (eid_node48 e)) as (s1 & E1 & H1 & _ & _ & H2). rewrite E1 in E. injection E as <-.
    split; [done|]. intros x Hx. rewrite H2, IH by done. f_equal. rewrite <- (eid_eqb e x He Hx), <- andb_assoc. f_equal. lia.
  - destruct (Z.ltb_spec hi lo) as [Hlt|Hle].
    { unfold IDSet_AppendRange in E. rewrite (proj2 (Z.ltb_lt _ _)), orb_true_r in E by done. done. }
    destruct (append_range_ok s r lo hi Hs (range_bounds _ _ Hlo Hhi Hle)) as (s1 & E1 & H1 & _ & _ & H2). rewrite E1 in E. injection E as <-.
    split; [done|]. intros x Hx. rewrite H2, IH by done. by rewrite (Z.eqb_sym r).
  - destruct (remove_ok s e Hs) as [H1 H2]. split; [done|]. intros x Hx. by rewrite H2, IH, eid_eqb.
  - destruct (concatenate_ok s src Hs Hs') as (s1 & E1 & H1 & H2). rewrite E1 in E. injection E as <-. split; [done|]. intros x Hx. by rewrite H2, IH, IH'.
Qed.

(** C16. An id set is a finite set of ids: whatever sequence of Append, AppendRange, Remove and
    Concatenate builds it from new loose sets, Contains answers for every 64-bit id as the set
    operations say, and Append, AppendRange (of a range that is not inverted) and Concatenate of
    two such sets succeed.  Ranges are of 48-bit counters, as every id's counter is. *)
Theorem idset_refines_set A s :
  built A s ->
  (forall x, 0 <= x < 2 ^ 64 -> IDSet_Contains s x = A x)
  /\ (forall e, exists s', IDSet_Append s e = (s', true))
  /\ (forall r lo hi, lo <= hi -> exists s', IDSet_AppendRange s r lo hi = (s', true))
  /\ (forall A' src, built A' src -> exists s', IDSet_Concatenate s src = (s', true)).
Proof.
  intros H. destruct (built_ok _ _ H) as [Hs Hm]. pose proof Hs as [Hp _]. split; [|split; [|split]].
  - intros x Hx. by rewrite loose_contains, Hm.
  - intros e. destruct (append_range_ok s (EID_ReplID e) _ _ Hs (eid_node48 e)) as (s1 & E1 & _). by exists s1.
  - intros r lo hi Hl. unfold IDSet_AppendRange. rewrite Hp, (proj2 (Z.ltb_ge _ _)) by done. by eexists.
  - intros A' src H'. apply built_ok in H' as [Hs' _]. destruct (concatenate_ok s src Hs Hs') as (s1 & E1 & _). by exists s1.
Qed.

Definition ex_set : IDSet :=
  fst (IDSet_AppendRange (fst (IDSet_AppendRange (NewIDSet FormGUIDLoose None) 1 5 9)) 2 300 400).

Lemma ex_set_built : built (fun x => (false || (EID_ReplID x =? 1) && (5 <=? EID_GCValue x) && (EID_GCValue x <=? 9))
                                || (EID_ReplID x =? 2) && (300 <=? EID_GCValue x) && (EID_GCValue x <=? 400)) ex_set.
Proof.
  set (s0 := NewIDSet FormGUIDLoose None). set (s1 := fst (IDSet_AppendRange s0 1 5 9)).
  apply (built_range _ s1 2 300 400); [apply (built_range _ s0 1 5 9); [by apply (built_new FormGUIDLoose None)|..]|..]; (done || by vm_compute).
Qed.

(** 1:7 is in, 1:10 is not. *)
Example idset_refines_set_witness :
  IDSet_Contains ex_set (MakeEIDEx 1 7) = true /\ IDSet_Contains ex_set (MakeEIDEx 1 10) = false
  /\ exists s', IDSet_Concatenate ex_set ex_set = (s', true).
Proof.
  destruct (idset_refines_set _ ex_set ex_set_built) as (H1 & _ & _ & H4).
  split; [rewrite H1 by (vm_compute; split; congruence); vm_compute; reflexivity|]. split; [rewrite H1 by (vm_compute; split; congruence); vm_compute; reflexivity|].
  exact (H4 _ ex_set ex_set_built).
Defined.

(** The wire carries a set keyed by GUID: what [Serialize] writes, [Deserialize] and
    [Convert] with the same mapper turn into a loose set with the same ranges for every
    replica, still canonical; replicas with no ranges take no bytes. *)
Theorem idset_round_trip (m : ReplicaMapper) (L : MapperLaws m) s bs :
  is_form s = FormGUIDLoose -> is_mapper s = Some m -> repls_ok (is_repls s) ->
  IDSet_Serialize s = Ok bs ->
  exists p q, IDSet_Deserialize (NewIDSet FormGUIDPacked (Some m)) bs = (p, None)
    /\ IDSet_Convert p = (q, true) /\ idset_ok q
    /\ forall r, lookup_ranges (is_repls q) r = lookup_ranges (is_repls s) r.
Proof.
  intros Hf Hm Hok Hs. destruct (read_written m 0 s bs Hf Hm Hok Hs) as (l & E & Hl & Hr).
  unfold read_idset in E.
  destruct (IDSet_Deserialize (NewIDSet FormGUIDPacked (Some m)) bs) as [p [e|]]; [done|].
  destruct (IDSet_Convert p) as [q [|]] eqn:C; [|done]. injection E as ->.
  exists p, (mkIDSet FormGUIDLoose l (Some m)). done.
Qed.

Definition ex_home : GUID := mkGUID 0x01020304 0x0506 0x0708 [9; 10; 11; 12; 13; 14; 15; 16].
Definition ex_home_set : IDSet :=
  mkIDSet FormGUIDLoose [mkRepl 1 zeroGUID [mkRange 3 9; mkRange 12 12]] (Some (storeMapper ex_home)).

Lemma ex_home_ok : repls_ok (is_repls ex_home_set).
Proof. split; [apply NoDup_ListNoDup; repeat constructor; by intros []|repeat constructor]. Qed.

Example idset_round_trip_witness : exists bs p q,
  IDSet_Serialize ex_home_set = Ok bs
  /\ IDSet_Deserialize (NewIDSet FormGUIDPacked (Some (storeMapper ex_home))) bs = (p, None)
  /\ IDSet_Convert p = (q, true)
  /\ lookup_ranges (is_repls q) 1 = [mkRange 3 9; mkRange 12 12].
Proof.
  destruct (IDSet_Serialize ex_home_set) as [bs|] eqn:E; [|vm_compute in E; discriminate].
  destruct (idset_round_trip (storeMapper ex_home) (storeMapper_laws ex_home eq_refl) ex_home_set bs
    eq_refl eq_refl ex_home_ok E) as (p & q & D & C & _ & R).
  exists bs, p, q. split; [reflexivity|]. split; [exact D|]. split; [exact C|]. rewrite R. reflexivity.
Defined.

(** Reading an IDSET from arbitrary bytes ends: it yields a set or one of the declared
    errors, having taken at least three bytes per block. *)
Theorem deserialize_terminates s data :
  snd (IDSet_Deserialize s data) <> Some errOutOfFuel.
Proof. by apply deserialize_fuel. Qed.

(** ** Synchronization state: properties *)

Section state.
Context (m : ReplicaMapper) `{!MapperLaws m}.

(** A set as a state holds it. *)
Definition good (x : IDSet) : Prop :=
  is_form x = FormGUIDLoose /\ is_mapper x = Some m /\ repls_ok (is_repls x).
Definition good_opt (o : option IDSet) : Prop := match o with Some x => good x | None => True end.

Definition state_ok (s : State) : Prop :=
  st_mapper s = Some m /\ good_opt (st_given s) /\ good (st_seen s)
  /\ good_opt (st_seenFAI s) /\ good_opt (st_read s).

(** The sets a type has no use for are nil. *)
Definition shape_ok (s : State) : Prop :=
  match st_typ s with
  | ContentsDown | ContentsUp => True
  | HierarchyDown => st_seenFAI s = None /\ st_read s = None
  | HierarchyUp => st_given s = None /\ st_seenFAI s = None /\ st_read s = None
  end.

Definition members (o : option IDSet) (r v : Z) : bool :=
  match o with Some x => member (is_repls x) r v | None => false end.

Lemma good_idset x : good x -> idset_ok x.
Proof. intros (F & _ & R). split; [by rewrite F|done]. Qed.

Lemma empty_member x r v : IDSet_Empty x = true -> member (is_repls x) r v = false.
Proof.
  unfold IDSet_Empty. induction (is_repls x) as [|nd l IH]; simpl; [done|]. intros. bsplit.
  destruct (_ =? _); [|auto]. apply rs_empty_spec in H. by rewrite H.
Qed.

Lemma mergeUp_ok typ prior inc :
  good_opt prior -> good inc ->
  good (mergeUp typ prior inc) /\ forall r v,
  member (is_repls (mergeUp typ prior inc)) r v
  = member (is_repls inc) r v || (isUp typ && members prior r v).
Proof.
  intros Hp Hi. destruct prior as [p|]; simpl; [|split; [done|intros; by rewrite andb_false_r, orb_false_r]].
  destruct (isUp typ); simpl; [|split; [done|intros; by rewrite orb_false_r]].
  destruct (IDSet_Empty p) eqn:E; simpl.
  { split; [done|]. intros. by rewrite (empty_member p) by done; rewrite orb_false_r. }
  pose proof Hp as (_ & _ & [Hn Hf]). pose proof (good_idset p Hp) as [Pp _].
  pose proof Hi as (F & M & _). unfold IDSet_Concatenate.
  rewrite (proj1 (good_idset inc Hi)), Pp. simpl.
  destruct (append_ranges_ok inc (all_ranges (is_repls p)) (good_idset inc Hi) (all_ranges_48 _ Hf))
    as (s' & -> & [_ H1] & F' & M' & H2). simpl. split.
  - split; [congruence|]. split; [congruence|done].
  - intros. by rewrite H2, in_ranges_member.
Qed.

Lemma read_good tag x b :
  good x -> IDSet_Serialize x = Ok b ->
  exists y, read_idset (Some m) tag b = Ok y /\ good y
    /\ forall r v, member (is_repls y) r v = member (is_repls x) r v.
Proof.
  intros (F & M & R) S. destruct (read_written m tag x b F M R S) as (l & E & Hl & Hr).
  eexists. split; [exact E|]. split; [by repeat split; try apply Hl|].
  intros. by rewrite !member_lookup, Hr.
Qed.

(** An uploaded set is folded into the state as its tag and the direction of the sync
    say: the given set is replaced, and the seen sets are replaced on a download but united
    with what was there on an upload, so an upload never forgets a change number; the other
    sets do not change, and the state stays well-formed. *)
Theorem append_idset_semantics s x b :
  state_ok s -> good x -> IDSet_Serialize x = Ok b ->
  (exists s', AppendIDSet s metaTagCnsetSeen b = Ok s' /\ state_ok s'
     /\ (forall r v, member (is_repls (st_seen s')) r v
           = member (is_repls x) r v || (isUp (st_typ s) && member (is_repls (st_seen s)) r v))
     /\ st_given s' = st_given s /\ st_seenFAI s' = st_seenFAI s /\ st_read s' = st_read s)
  /\ (exists s', AppendIDSet s metaTagIdsetGiven1 b = Ok s' /\ state_ok s'
     /\ (forall r v, members (st_given s') r v = member (is_repls x) r v)
     /\ st_seen s' = st_seen s /\ st_seenFAI s' = st_seenFAI s /\ st_read s' = st_read s)
  /\ (exists s', AppendIDSet s metaTagCnsetRead b = Ok s' /\ state_ok s'
     /\ (forall r v, members (st_read s') r v = member (is_repls x) r v
           || (bool_decide (st_typ s = ContentsUp) && members (st_read s) r v))
     /\ st_given s' = st_given s /\ st_seen s' = st_seen s /\ st_seenFAI s' = st_seenFAI s).
Proof.
  intros (M & G & N & F & R) Hx Hb. split; [|split].
  - destruct (read_good metaTagCnsetSeen x b Hx Hb) as (y & E & Hy & Ey).
    unfold AppendIDSet. rewrite M, E. cbn [rbind]. cbn. eexists. split; [done|].
    destruct (mergeUp_ok (st_typ s) (Some (st_seen s)) y N Hy) as [Hm1 Hm2].
    split; [by repeat split; try apply Hm1|]. split; [|done]. intros. cbn. by rewrite Hm2, Ey.
  - destruct (read_good metaTagIdsetGiven1 x b Hx Hb) as (y & E & Hy & Ey).
    unfold AppendIDSet. rewrite M, E. cbn [rbind]. cbn. eexists. split; [done|].
    split; [by repeat split; try apply Hy; try apply N|]. split; [|done]. intros. cbn. by rewrite Ey.
  - destruct (read_good metaTagCnsetRead x b Hx Hb) as (y & E & Hy & Ey).
    unfold AppendIDSet. rewrite M, E. cbn [rbind]. cbn. eexists. split; [done|].
    destruct (mergeUp_ok (st_typ s) (st_read s) y R Hy) as [Hm1 Hm2].
    case_bool_decide as T.
    + split; [by repeat split; try apply Hm1; try apply N|]. split; [|done].
      intros. cbn. rewrite Hm2, Ey, T. done.
    + split; [by repeat split; try apply Hy; try apply N|]. split; [|done].
      intros. cbn. by rewrite Ey, orb_false_r.
Qed.
End state.

Definition ex_state : State := NewState ContentsUp (Some (storeMapper ex_home)).

Lemma ex_home_good : good (storeMapper ex_home) ex_home_set.
Proof. split; [reflexivity|]. split; [reflexivity|apply ex_home_ok]. Qed.

Lemma ex_state_ok : state_ok (storeMapper ex_home) ex_state.
Proof. repeat split; constructor. Qed.

(** Two uploads of the same set under the seen tag. *)
Example append_idset_witness : exists b s',
  IDSet_Serialize ex_home_set = Ok b /\ AppendIDSet ex_state metaTagCnsetSeen b = Ok s'
  /\ member (is_repls (st_seen s')) 1 12 = true /\ member (is_repls (st_seen s')) 1 11 = false.
Proof.
  destruct (IDSet_Serialize ex_home_set) as [b|] eqn:E; [|vm_compute in E; discriminate].
  destruct (append_idset_semantics (storeMapper ex_home)
    (MapperLaws0 := storeMapper_laws ex_home eq_refl) ex_state ex_home_set b
    ex_state_ok ex_home_good E) as [(s' & A & _ & M & _) _].
  exists b, s'. split; [reflexivity|]. split; [exact A|]. rewrite !M. split; reflexivity.
Defined.

(** Feed the properties of a serialized state back, one by one. *)
Fixpoint restore (s : State) (props : list StateProp) : result state_error State :=
  match props with
  | [] => Ok s
  | p :: props => let? s' := AppendIDSet s (spTag p) (spValue p) in restore s' props
  end.

Section restore.
Context (m : ReplicaMapper) `{!MapperLaws m}.

Lemma emit_Ok cond tag o props :
  emit cond tag o = Ok props ->
  match cond, o with
  | true, Some x => exists b, IDSet_Serialize x = Ok b /\ props = [mkStateProp tag b]
  | _, _ => props = []
  end.
Proof.
  unfold emit. destruct cond, o as [x|]; try (by intros [= <-]).
  destruct (IDSet_Serialize x) as [b|]; [|done]. intros [= <-]. by exists b.
Qed.

Lemma fresh_merge typ inc : mergeUp typ (Some (NewIDSet FormGUIDLoose (Some m))) inc = inc.
Proof. simpl. by rewrite andb_false_r. Qed.

Definition same_set (o o' : option IDSet) : Prop := forall r v, members o r v = members o' r v.

(** Restoring one property into a state whose slot for it is fresh. *)
Lemma restore_given s x b props :
  st_mapper s = Some m -> good m x -> IDSet_Serialize x = Ok b ->
  exists y, same_set (Some y) (Some x) /\
  restore s (mkStateProp metaTagIdsetGiven1 b :: props)
  = restore (mkState (st_typ s) (Some y) (st_seen s) (st_seenFAI s) (st_read s) (st_mapper s)) props.
Proof.
  intros M Hx Hb. destruct (read_good m metaTagIdsetGiven1 x b Hx Hb) as (y & E & _ & Ey).
  exists y. split; [exact Ey|]. cbn [restore]. unfold AppendIDSet. cbn [spTag spValue]. by rewrite M, E.
Qed.

Lemma restore_seen s x b props :
  st_mapper s = Some m -> st_seen s = NewIDSet FormGUIDLoose (Some m) ->
  good m x -> IDSet_Serialize x = Ok b ->
  exists y, same_set (Some y) (Some x) /\
  restore s (mkStateProp metaTagCnsetSeen b :: props)
  = restore (mkState (st_typ s) (st_given s) y (st_seenFAI s) (st_read s) (st_mapper s)) props.
Proof.
  intros M F Hx Hb. destruct (read_good m metaTagCnsetSeen x b Hx Hb) as (y & E & _ & Ey).
  exists y. split; [exact Ey|]. cbn [restore]. unfold AppendIDSet. cbn [spTag spValue].
  rewrite M, E, F. cbn [rbind]. by rewrite fresh_merge.
Qed.

Lemma restore_seenFAI s x b props :
  st_mapper s = Some m -> st_seenFAI s = Some (NewIDSet FormGUIDLoose (Some m)) ->
  good m x -> IDSet_Serialize x = Ok b ->
  exists y, same_set (Some y) (Some x) /\
  restore s (mkStateProp metaTagCnsetSeenFAI b :: props)
  = restore (mkState (st_typ s) (st_given s) (st_seen s) (Some y) (st_read s) (st_mapper s)) props.
Proof.
  intros M F Hx Hb. destruct (read_good m metaTagCnsetSeenFAI x b Hx Hb) as (y & E & _ & Ey).
  exists y. split; [exact Ey|]. cbn [restore]. unfold AppendIDSet. cbn [spTag spValue].
  rewrite M, E, F. cbn [rbind]. rewrite fresh_merge. by case_bool_decide.
Qed.

Lemma restore_read s x b props :
  st_mapper s = Some m -> st_read s = Some (NewIDSet FormGUIDLoose (Some m)) ->
  good m x -> IDSet_Serialize x = Ok b ->
  exists y, same_set (Some y) (Some x) /\
  restore s (mkStateProp metaTagCnsetRead b :: props)
  = restore (mkState (st_typ s) (st_given s) (st_seen s) (st_seenFAI s) (Some y) (st_mapper s)) props.
Proof.
  intros M F Hx Hb. destruct (read_good m metaTagCnsetRead x b Hx Hb) as (y & E & _ & Ey).
  exists y. split; [exact Ey|]. cbn [restore]. unfold AppendIDSet. cbn [spTag spValue].
  rewrite M, E, F. cbn [rbind]. rewrite fresh_merge. by case_bool_decide.
Qed.

Lemma same_fresh o :
  match o with Some x => IDSet_Empty x = true | None => True end ->
  same_set (Some (NewIDSet FormGUIDLoose (Some m))) o.
Proof. intros H r v. destruct o as [x|]; simpl; [|done]. by rewrite empty_member. Qed.

Abbreviation fresh := (NewIDSet FormGUIDLoose (Some m)).

(** One optional property: emitted and restored, or left out because its set has no members. *)
Lemma step_given t cond g pg rest :
  st_mapper t = Some m -> good_opt m g -> emit cond metaTagIdsetGiven1 g = Ok pg ->
  (cond = false \/ g = None -> same_set (st_given t) g) ->
  exists gv, same_set gv g /\ restore t (pg ++ rest)
    = restore (mkState (st_typ t) gv (st_seen t) (st_seenFAI t) (st_read t) (st_mapper t)) rest.
Proof.
  intros M Hg E Hno. apply emit_Ok in E. destruct cond, g as [x|];
    try (subst pg; exists (st_given t); split; [by auto|by destruct t]).
  destruct E as (b & Hb & ->). destruct (restore_given t x b rest M Hg Hb) as (y & Hy & Ry). by exists (Some y).
Qed.

Lemma step_seenFAI t cond f pf rest :
  st_mapper t = Some m -> good_opt m f -> emit cond metaTagCnsetSeenFAI f = Ok pf ->
  (cond = true -> st_seenFAI t = Some fresh) ->
  (cond = false \/ f = None -> same_set (st_seenFAI t) f) ->
  exists fv, same_set fv f /\ restore t (pf ++ rest)
    = restore (mkState (st_typ t) (st_given t) (st_seen t) fv (st_read t) (st_mapper t)) rest.
Proof.
  intros M Hf E Hfr Hno. apply emit_Ok in E. destruct cond, f as [x|];
    try (subst pf; exists (st_seenFAI t); split; [by auto|by destruct t]).
  destruct E as (b & Hb & ->).
  destruct (restore_seenFAI t x b rest M (Hfr eq_refl) Hf Hb) as (y & Hy & Ry). by exists (Some y).
Qed.

Lemma step_read t cond r pr rest :
  st_mapper t = Some m -> good_opt m r -> emit cond metaTagCnsetRead r = Ok pr ->
  (cond = true -> st_read t = Some fresh) ->
  (cond = false \/ r = None -> same_set (st_read t) r) ->
  exists rv, same_set rv r /\ restore t (pr ++ rest)
    = restore (mkState (st_typ t) (st_given t) (st_seen t) (st_seenFAI t) rv (st_mapper t)) rest.
Proof.
  intros M Hr E Hfr Hno. apply emit_Ok in E. destruct cond, r as [x|];
    try (subst pr; exists (st_read t); split; [by auto|by destruct t]).
  destruct E as (b & Hb & ->).
  destruct (restore_read t x b rest M (Hfr eq_refl) Hr Hb) as (y & Hy & Ry). by exists (Some y).
Qed.

(** Synchronization state survives the exchange: the properties [Serialize] emits, folded
    one by one into a fresh state of the same type, rebuild every set with the same members,
    for each of the four sync types, although uploads leave empty sets out. *)
Theorem state_round_trip s props :
  state_ok m s -> shape_ok s -> State_Serialize s = Ok props ->
  exists s', restore (NewState (st_typ s) (Some m)) props = Ok s'
    /\ same_set (st_given s') (st_given s) /\ same_set (Some (st_seen s')) (Some (st_seen s))
    /\ same_set (st_seenFAI s') (st_seenFAI s) /\ same_set (st_read s') (st_read s).
Proof.
  destruct s as [typ g n f r mp]. unfold state_ok, shape_ok, State_Serialize, emitsGiven, emitsSeenFAI, emitsRead.
  cbn [st_typ st_given st_seen st_seenFAI st_read st_mapper].
  intros (-> & Hg & Hn & Hf & Hr) Hshape E.
  destruct (emit _ _ g) as [pg|] eqn:Eg; [|done]. cbn [rbind] in E.
  destruct (emit _ _ (Some n)) as [pn|] eqn:En; [|done]. cbn [rbind] in E.
  destruct (emit _ _ f) as [pf|] eqn:Ef; [|done]. cbn [rbind] in E.
  destruct (emit _ _ r) as [pr|] eqn:Er; [|done]. cbn [rbind] in E. injection E as <-.
  apply emit_Ok in En as (bn & En & ->).
  edestruct (step_given (NewState typ (Some m))) as (gv & Sg & ->); [by destruct typ|exact Hg|exact Eg| |].
  { destruct typ, g as [x|]; cbn; try (intros; apply same_fresh; done); try tauto.
    - by intros [H|H].
    - intros [H|H]; [|done]. apply same_fresh. by apply negb_false_iff.
    - by intros [H|H].
    - by destruct Hshape. }
  edestruct restore_seen as (nv & Sn & Rn); [| |exact Hn|exact En|];
    [| |cbn [app]; rewrite Rn; clear Rn]; [by destruct typ..|].
  edestruct step_seenFAI as (fv & Sf & ->); [|exact Hf|exact Ef| | |]; [by destruct typ| | |].
  { by destruct typ, f. }
  { destruct typ, f as [x|]; cbn; try (intros; apply same_fresh; done); try (by intros [H|H]);
      by destruct Hshape as (? & ?); intuition. }
  rewrite <- (app_nil_r pr).
  edestruct step_read as (rv & Sr & ->); [|exact Hr|exact Er| | |]; [by destruct typ| | |].
  { by destruct typ, r. }
  { destruct typ, r as [x|]; cbn; try (intros; apply same_fresh; done); try (by intros [H|H]);
      try (intros [H|H]; [apply same_fresh; by apply negb_false_iff|done]);
      by destruct Hshape as (? & ?); intuition. }
  cbn [restore]. eexists. split; [done|]. done.
Qed.
End restore.

Definition ex_sync : State :=
  mkState ContentsUp (Some ex_home_set) ex_home_set (Some (NewIDSet FormGUIDLoose (Some (storeMapper ex_home))))
    (Some (NewIDSet FormGUIDLoose (Some (storeMapper ex_home)))) (Some (storeMapper ex_home)).

Lemma ex_sync_ok : state_ok (storeMapper ex_home) ex_sync.
Proof.
  assert (F : good (storeMapper ex_home) (NewIDSet FormGUIDLoose (Some (storeMapper ex_home))))
    by (repeat split; constructor).
  split; [done|]. split; [apply ex_home_good|]. split; [apply ex_home_good|]. by split.
Qed.

Example state_round_trip_witness : exists props s',
  State_Serialize ex_sync = Ok props
  /\ restore (NewState ContentsUp (Some (storeMapper ex_home))) props = Ok s'
  /\ members (st_given s') 1 5 = true /\ members (st_read s') 1 5 = false.
Proof.
  destruct (State_Serialize ex_sync) as [props|] eqn:E; [|vm_compute in E; discriminate].
  destruct (state_round_trip (storeMapper ex_home)
    (MapperLaws0 := storeMapper_laws ex_home eq_refl) ex_sync props ex_sync_ok I E)
    as (s' & R & G & _ & _ & Rd).
  exists props, s'. split; [reflexivity|]. split; [exact R|]. rewrite G, Rd. split; reflexivity.
Defined.

(** A set decoded from the wire may hold a range whose ends are inverted; uniting it into the
    next upload stops there, and the change numbers after it are forgotten. *)
Definition ex_inverted : bytes :=
  GUID_Flat ex_home ++ [0x52; 0; 0; 0; 0; 0; 9; 0; 0; 0; 0; 0; 5] ++ [6; 0; 0; 0; 0; 0; 20] ++ [0].
Definition ex_next : bytes := GUID_Flat ex_home ++ [6; 0; 0; 0; 0; 0; 1] ++ [0].

Example merge_forgets :
  exists s1 s2, AppendIDSet ex_state metaTagCnsetSeen ex_inverted = Ok s1
  /\ AppendIDSet s1 metaTagCnsetSeen ex_next = Ok s2
  /\ member (is_repls (st_seen s1)) 1 20 = true /\ member (is_repls (st_seen s2)) 1 20 = false.
Proof. do 2 eexists. repeat split; vm_compute; reflexivity. Qed.
