(* ===== verification/FastTransfer.v ===== *)
(** * The FastTransfer stream ([internal/ics]: ftcodec.go, ftaux.go, markers.go, parser.go,
      producer.go)

    Properties and markers as a byte stream cut into transport chunks.  The encoder splits
    an element into an atomic header and a body that a chunk boundary may cut; the producer
    serves chunks of a requested size; the parser reassembles elements from chunks, asking
    for more bytes while an element is incomplete.  A read is [None] on a short buffer. *)

From stdpp Require Import base list numbers.
From Stdlib Require Import ZArith Lia.
From S2P Require Import Prelude Utf Mapi Wire ExtVal Idset.
Open Scope Z_scope.
Open Scope go_scope.

(** ** Elements *)

Record StreamProp := mkStream { sp_Tag : Z; sp_Name : option PropertyName; sp_Value : any }.

(** [Item]: a marker or a property *)
Inductive Item := IMarker (m : Z) | IProp (p : StreamProp).

Inductive fx_error :=
| errUnsupportedFXType (typ : Z) | errMissingName | errBadKind (k : Z) | errValueType
| errImplausibleCount (n : Z) | errCountExceeds (n : Z).

Definition fxCodepageFlag : Z := 0x8000.
Definition cpUTF16 : Z := 1200.
Definition propIDMessageCls : Z := 0x001A.

Definition markerSet : list Z :=
  [0x40090003; 0x400A0003; 0x400B0003; 0x400C0003; 0x400D0003; 0x40100003; 0x40010003;
   0x40020003; 0x40030003; 0x40040003; 0x40000003; 0x400E0003; 0x40120003; 0x407D0003;
   0x40130003; 0x40140003; 0x402F0003; 0x403A0003; 0x403B0003; 0x4074000B; 0x4075000B;
   0x40150003; 0x407B0102; 0x40180003].
Definition isMarker (w : Z) : bool := existsb (Z.eqb w) markerSet.

Inductive fx_kind :=
| FShort | FLong | FError | FFloat | FDouble | FBoolean | FInt64 | FSysTime | FCLSID
| FUnicode | FString8 | FBinary.

(** The keys of [fxValueWriters] and [fxValueReaders] *)
Definition fx_table : list (Z * fx_kind) :=
  [(PtShort, FShort); (PtLong, FLong); (PtError, FError); (PtFloat, FFloat);
   (PtDouble, FDouble); (PtAppTime, FDouble); (PtBoolean, FBoolean); (PtCurrency, FInt64);
   (PtI8, FInt64); (PtSysTime, FSysTime); (PtCLSID, FCLSID); (PtUnicode, FUnicode);
   (PtString8, FString8); (PtBinary, FBinary); (PtObject, FBinary)].

Inductive mv_kind :=
| MShort | MLong | MInt64 | MSysTime | MFloat | MDouble | MCLSID | MString8 | MUnicode | MBinary.

(** The keys of [mvWriters] and [mvReaders] *)
Definition mv_table : list (Z * mv_kind) :=
  [(PtMvShort, MShort); (PtMvLong, MLong); (PtMvCurrency, MInt64); (PtMvI8, MInt64);
   (PtMvSysTime, MSysTime); (PtMvFloat, MFloat); (PtMvDouble, MDouble); (PtMvAppTime, MDouble);
   (PtMvCLSID, MCLSID); (PtMvString8, MString8); (PtMvUnicode, MUnicode); (PtMvBinary, MBinary)].

Definition fx_isMultivalue (t : Z) : bool := Z.land t MvFlag =? MvFlag.

(** ** The encoder *)

Definition fxWireType (typ propid : Z) : Z :=
  if negb (typ =? PtString8) && negb (typ =? PtUnicode) then typ
  else if propid =? propIDMessageCls then PtString8 else PtUnicode.

Definition encodeUTF16 (s : bytes) : bytes :=
  concat (map (le_bytes 2) (utf16_Encode (runes s))) ++ le_bytes 2 0.

(** [appendTearable]: what goes on the header, and the body *)
Definition appendTearable (body : bytes) : result fx_error (bytes * bytes) :=
  Ok (le_bytes 4 (len body), body).

Definition fx_write (k : fx_kind) (v : any) : result fx_error (bytes * bytes) :=
  match k, v with
  | FShort, AInt16 x => Ok (le_bytes 2 (u16 x), [])
  | FLong, AInt32 x => Ok (le_bytes 4 (u32 x), [])
  | FError, AUint32 x => Ok (le_bytes 4 x, [])
  | FFloat, AFloat32 x => Ok (le_bytes 4 x, [])
  | FDouble, AFloat64 x => Ok (le_bytes 8 x, [])
  | FBoolean, ABool x => Ok (le_bytes 2 (if x then 1 else 0), [])
  | FInt64, AInt64 x => Ok (le_bytes 8 (u64 x), [])
  | FSysTime, AUint64 x => Ok (le_bytes 8 x, [])
  | FCLSID, AGUID g => Ok (GUID_Flat g, [])
  | FUnicode, AString s => appendTearable (encodeUTF16 s)
  | FString8, AString s => appendTearable (s ++ [0])
  | FBinary, ABytes b => appendTearable b
  | _, _ => Err errValueType
  end.

Definition appendLenPrefixed (body : bytes) : bytes := le_bytes 4 (len body) ++ body.

Definition appendMVElems {A} (w : A -> bytes) (xs : list A) : bytes :=
  le_bytes 4 (len xs) ++ concat (map w xs).

Definition mv_write (k : mv_kind) (v : any) : result fx_error bytes :=
  match k, v with
  | MShort, AInt16s l => Ok (appendMVElems (fun x => le_bytes 2 (u16 x)) l)
  | MLong, AInt32s l => Ok (appendMVElems (fun x => le_bytes 4 (u32 x)) l)
  | MInt64, AInt64s l => Ok (appendMVElems (fun x => le_bytes 8 (u64 x)) l)
  | MSysTime, AUint64s l => Ok (appendMVElems (le_bytes 8) l)
  | MFloat, AFloat32s l => Ok (appendMVElems (le_bytes 4) l)
  | MDouble, AFloat64s l => Ok (appendMVElems (le_bytes 8) l)
  | MCLSID, AGUIDs l => Ok (appendMVElems GUID_Flat l)
  | MString8, AStrings l => Ok (appendMVElems (fun s => appendLenPrefixed (s ++ [0])) l)
  | MUnicode, AStrings l => Ok (appendMVElems (fun s => appendLenPrefixed (encodeUTF16 s)) l)
  | MBinary, ABytess l => Ok (appendMVElems appendLenPrefixed l)
  | _, _ => Err errValueType
  end.

Definition appendMV (typ : Z) (v : any) : result fx_error bytes :=
  match table_get mv_table typ with
  | None => Err (errUnsupportedFXType typ)
  | Some k => mv_write k v
  end.

Definition appendName (n : PropertyName) : result fx_error bytes :=
  let pre := GUID_Flat (pnGUID n) ++ le_bytes 1 (pnKind n) in
  if pnKind n =? MnidID then Ok (pre ++ le_bytes 4 (pnLID n))
  else if pnKind n =? MnidString then Ok (pre ++ encodeUTF16 (pnName n))
  else if pnKind n =? KindNone then Ok pre
  else Err (errBadKind (pnKind n)).

(** The value part of [encodeProp], appended to the header so far *)
Definition encode_value (header : bytes) (typ wireType : Z) (v : any)
  : result fx_error (bytes * bytes) :=
  match table_get fx_table wireType with
  | Some k => let? hb := fx_write k v in Ok (header ++ hb.1, hb.2)
  | None =>
      if fx_isMultivalue wireType then let? m := appendMV wireType v in Ok (header ++ m, [])
      else Err (errUnsupportedFXType typ)
  end.

Definition encodeProp (p : StreamProp) : result fx_error (bytes * bytes) :=
  let typ := PropTag_Type (sp_Tag p) in
  let propid := PropTag_ID (sp_Tag p) in
  let wireType := fxWireType typ propid in
  let word := le_bytes 4 (Z.lor (Z.shiftl propid 16) wireType) in
  if 0x8000 <=? propid then
    match sp_Name p with
    | None => Err errMissingName
    | Some n => let? nb := appendName n in encode_value (word ++ nb) typ wireType (sp_Value p)
    end
  else encode_value word typ wireType (sp_Value p).

(** ** The decoder *)

(** A cursor read: [None] when fewer bytes remain than it needs. *)
Definition rd (A : Type) : Type := bytes -> option (A * bytes).
Definition rd_ret {A} (x : A) : rd A := fun b => Some (x, b).
Definition rd_bind {A B} (r : rd A) (k : A -> rd B) : rd B := fun b =>
  match r b with Some (x, b') => k x b' | None => None end.

Definition rd_bytes (n : Z) : rd bytes := fun b =>
  if (n <? 0) || (len b <? n) then None else Some (take (Z.to_nat n) b, drop (Z.to_nat n) b).
Definition rd_byte : rd Z := rd_bind (rd_bytes 1) (fun b => rd_ret (le_value b)).
Definition rd_u16 : rd Z := rd_bind (rd_bytes 2) (fun b => rd_ret (le_value b)).
Definition rd_u32 : rd Z := rd_bind (rd_bytes 4) (fun b => rd_ret (le_value b)).
Definition rd_u64 : rd Z := rd_bind (rd_bytes 8) (fun b => rd_ret (le_value b)).
Definition rd_lenPrefixed : rd bytes := rd_bind rd_u32 rd_bytes.

Fixpoint units_of (b : bytes) : list Z :=
  match b with x :: y :: tl => le_value [x; y] :: units_of tl | _ => [] end.

(** Drop the zeros at the end. *)
Definition strip_zeros (us : list Z) : list Z :=
  rev ((fix go l := match l with x :: tl => if x =? 0 then go tl else l | [] => [] end) (rev us)).

Definition decodeUTF16 (b : bytes) : bytes :=
  string_of_runes (utf16_Decode (strip_zeros (units_of b))).

Definition trimNUL (b : bytes) : bytes :=
  if (0 <? len b) && (List.last b 1 =? 0) then removelast b else b.

(** Up to and including the aligned terminator. *)
Definition readNakedUTF16 : rd bytes := fun b =>
  match scan_units b with
  | Some (_, rest) => Some (decodeUTF16 (take (length b - length rest) b), rest)
  | None => None
  end.

Definition rd_map {A B} (f : A -> B) (r : rd A) : rd B := rd_bind r (fun x => rd_ret (f x)).

Definition rd_GUID : rd GUID := rd_map FlatUID_GUID (rd_bytes 16).
Definition rd_Unicode : rd bytes := rd_map decodeUTF16 rd_lenPrefixed.
Definition rd_String8 : rd bytes := rd_map trimNUL rd_lenPrefixed.

(** [fxValueReaders] *)
Definition fx_read (k : fx_kind) : rd any :=
  match k with
  | FShort => rd_map (fun v => AInt16 (signed 16 v)) rd_u16
  | FLong => rd_map (fun v => AInt32 (signed 32 v)) rd_u32
  | FError => rd_map AUint32 rd_u32
  | FFloat => rd_map AFloat32 rd_u32
  | FDouble => rd_map AFloat64 rd_u64
  | FBoolean => rd_map (fun v => ABool (negb (v =? 0))) rd_u16
  | FInt64 => rd_map (fun v => AInt64 (signed 64 v)) rd_u64
  | FSysTime => rd_map AUint64 rd_u64
  | FCLSID => rd_map AGUID rd_GUID
  | FUnicode => rd_map AString rd_Unicode
  | FString8 => rd_map AString rd_String8
  | FBinary => rd_map ABytes rd_lenPrefixed
  end.

(** [decodeName]; an unknown kind waits for more bytes *)
Definition decodeName : rd PropertyName :=
  rd_bind rd_GUID (fun g =>
  rd_bind rd_byte (fun kind =>
    if kind =? MnidID then rd_map (fun lid => mkPropertyName kind g lid []) rd_u32
    else if kind =? MnidString then rd_map (mkPropertyName kind g 0) readNakedUTF16
    else if kind =? KindNone then rd_ret (mkPropertyName kind g 0 [])
    else fun _ => None)).

(** A read of an element: an error, incomplete, or the value and the bytes after it. *)
Definition rde (A : Type) : Type := bytes -> result fx_error (option (A * bytes)).
Definition rde_ret {A} (x : A) : rde A := fun b => Ok (Some (x, b)).
Definition rde_err {A} (e : fx_error) : rde A := fun _ => Err e.
Definition rde_lift {A} (r : rd A) : rde A := fun b => Ok (r b).
Definition rde_bind {A B} (r : rde A) (k : A -> rde B) : rde B := fun b =>
  match r b with
  | Err e => Err e
  | Ok None => Ok None
  | Ok (Some (x, b')) => k x b'
  end.

Definition maxMVCount : Z := 2 ^ 20.

Fixpoint rd_times {A} (n : nat) (r : rd A) : rd (list A) :=
  match n with
  | O => rd_ret []
  | S n => rd_bind r (fun x => rd_bind (rd_times n r) (fun xs => rd_ret (x :: xs)))
  end.

Definition decodeMVElems {A} (count : Z) (r : rd A) (mk : list A -> any) : rde any := fun b =>
  if len b <? count * 2 then Err (errCountExceeds count)
  else rde_lift (rd_map mk (rd_times (Z.to_nat count) r)) b.

(** [mvReaders] *)
Definition mv_read (k : mv_kind) (count : Z) : rde any :=
  match k with
  | MShort => decodeMVElems count (rd_map (signed 16) rd_u16) AInt16s
  | MLong => decodeMVElems count (rd_map (signed 32) rd_u32) AInt32s
  | MInt64 => decodeMVElems count (rd_map (signed 64) rd_u64) AInt64s
  | MSysTime => decodeMVElems count rd_u64 AUint64s
  | MFloat => decodeMVElems count rd_u32 AFloat32s
  | MDouble => decodeMVElems count rd_u64 AFloat64s
  | MCLSID => decodeMVElems count rd_GUID AGUIDs
  | MString8 => decodeMVElems count rd_String8 AStrings
  | MUnicode => decodeMVElems count rd_Unicode AStrings
  | MBinary => decodeMVElems count rd_lenPrefixed ABytess
  end.

Definition decodeMV (typ : Z) : rde any :=
  rde_bind (rde_lift rd_u32) (fun count =>
    if maxMVCount <? count then rde_err (errImplausibleCount count)
    else match table_get mv_table typ with
         | None => rde_err (errUnsupportedFXType typ)
         | Some k => mv_read k count
         end).

Definition decodeValue (typ : Z) : rde any :=
  match table_get fx_table typ with
  | Some k => rde_lift (fx_read k)
  | None => if fx_isMultivalue typ then decodeMV typ else rde_err (errUnsupportedFXType typ)
  end.

(** The type the value is read as, which is also the type of the tag it is given. *)
Definition value_type (word : Z) : Z :=
  let t := if word =? metaTagIdsetGiven then PtBinary else Z.land word 0xFFFF in
  if negb (Z.land t fxCodepageFlag =? 0) then
    if Z.ldiff t fxCodepageFlag =? cpUTF16 then PtUnicode else PtString8
  else t.

Definition decodeElement : rde Item :=
  rde_bind (rde_lift rd_u32) (fun word =>
    if isMarker word then rde_ret (IMarker word)
    else
      let propid := Z.shiftr word 16 in
      let typ := value_type word in
      rde_bind (if 0x8000 <=? propid then rde_lift (rd_map Some decodeName) else rde_ret None)
        (fun name => rde_bind (decodeValue typ) (fun v =>
           rde_ret (IProp (mkStream (Z.lor (Z.shiftl propid 16) typ) name v))))).

(** ** The producer *)

Record element := mkElement {
  el_header : bytes; el_body : bytes; el_headerDone : bool; el_bodyPos : nat }.
Record Producer := mkProducer { pr_queue : list element; pr_head : nat }.

Definition NewProducer : Producer := mkProducer [] 0.

Definition enqueue (pr : Producer) (e : element) : Producer :=
  mkProducer (pr_queue pr ++ [e]) (pr_head pr).

Definition WriteMarker (pr : Producer) (m : Z) : Producer :=
  enqueue pr (mkElement (le_bytes 4 m) [] false 0).

Definition WriteProp (pr : Producer) (p : StreamProp) : result fx_error Producer :=
  if PropTag_Type (sp_Tag p) =? PtSvrEID then Ok pr
  else let? hb := encodeProp p in Ok (enqueue pr (mkElement hb.1 hb.2 false 0)).

Definition Pending (pr : Producer) : bool := (pr_head pr <? length (pr_queue pr))%nat.

Definition el_pending (e : element) : Z :=
  (if el_headerDone e then 0 else len (el_header e)) + (len (el_body e) - Z.of_nat (el_bodyPos e)).
Definition PendingLen (pr : Producer) : Z :=
  fold_left (fun n e => n + el_pending e) (drop (pr_head pr) (pr_queue pr)) 0.

(** The loop of [ReadBuffer] over the elements not yet drained: how many are drained now,
    the elements as it leaves them, and the chunk. *)
Fixpoint read_loop (maxLen : Z) (todo : list element) (out : bytes) : nat * list element * bytes :=
  match todo with
  | [] => (0%nat, [], out)
  | e :: todo =>
      if negb (el_headerDone e) && ((0 <? len out) && (maxLen <? len out + len (el_header e)))
      then (0%nat, e :: todo, out)
      else
        let out := if el_headerDone e then out else out ++ el_header e in
        let avail := Z.max (maxLen - len out) 0 in
        let rem := len (el_body e) - Z.of_nat (el_bodyPos e) in
        if rem <=? avail then
          let '(k, rest, out) := read_loop maxLen todo (out ++ drop (el_bodyPos e) (el_body e)) in
          (S k, mkElement (el_header e) (el_body e) true (el_bodyPos e) :: rest, out)
        else
          (0%nat,
           mkElement (el_header e) (el_body e) true (el_bodyPos e + Z.to_nat avail) :: todo,
           out ++ take (Z.to_nat avail) (drop (el_bodyPos e) (el_body e)))
  end.

Definition ReadBuffer (pr : Producer) (maxLen : Z) : Producer * bytes * bool :=
  let '(k, todo, out) := read_loop maxLen (drop (pr_head pr) (pr_queue pr)) [] in
  let queue := take (pr_head pr) (pr_queue pr) ++ todo in
  let head := (pr_head pr + k)%nat in
  if (length queue <=? head)%nat then (mkProducer [] 0, out, true)
  else (mkProducer queue head, out, false).

(** ** The parser *)

Record Parser := mkParser { ps_buf : bytes; ps_pos : nat }.

Definition NewParser : Parser := mkParser [] 0.

Definition Feed (ps : Parser) (chunk : bytes) : Parser :=
  let '(buf, pos) :=
    if (0 <? ps_pos ps)%nat then (drop (ps_pos ps) (ps_buf ps), 0%nat) else (ps_buf ps, ps_pos ps) in
  mkParser (buf ++ chunk) pos.

Definition Next (ps : Parser) : Parser * result fx_error (option Item) :=
  let b := drop (ps_pos ps) (ps_buf ps) in
  match decodeElement b with
  | Err e => (ps, Err e)
  | Ok None => (ps, Ok None)
  | Ok (Some (it, rest)) =>
      (mkParser (ps_buf ps) (ps_pos ps + (length b - length rest)), Ok (Some it))
  end.

(** A caller's loop: [Next] until it asks for more.  An element is at least four bytes, so
    the buffered bytes bound the number of turns. *)
Fixpoint drain (fuel : nat) (ps : Parser) : Parser * list Item * option fx_error :=
  match fuel with
  | O => (ps, [], None)
  | S fuel =>
      match Next ps with
      | (ps', Err e) => (ps', [], Some e)
      | (ps', Ok None) => (ps', [], None)
      | (ps', Ok (Some it)) =>
          let '(ps'', items, err) := drain fuel ps' in (ps'', it :: items, err)
      end
  end.

Definition feed_drain (ps : Parser) (chunk : bytes) : Parser * list Item * option fx_error :=
  let ps' := Feed ps chunk in drain (S (length (ps_buf ps'))) ps'.

Fixpoint feed_all (ps : Parser) (chunks : list bytes) : Parser * list Item * option fx_error :=
  match chunks with
  | [] => (ps, [], None)
  | c :: chunks =>
      let '(ps', items, err) := feed_drain ps c in
      match err with
      | Some e => (ps', items, Some e)
      | None => let '(ps'', items', err') := feed_all ps' chunks in (ps'', items ++ items', err')
      end
  end.

Example ft_ex :
  let p := mkStream 0x0037001F None (AString [72; 105]) in
  match encodeProp p with
  | Ok (h, b) => decodeElement (h ++ b ++ [1; 2; 3]) = Ok (Some (IProp p, [1; 2; 3]))
  | Err _ => False
  end.
Proof. vm_compute. reflexivity. Qed.
