(* ===== verification/FastTransferProofs.v ===== *)
(** * The FastTransfer stream: round trips, torn elements, chunks

    What the encoder writes the decoder reads back; a torn scalar element makes the decoder
    wait, not fail; the chunks a producer serves are its stream; and a parser fed those
    chunks yields the elements that were written. *)

From stdpp Require Import base list numbers.
From Stdlib Require Import ZArith Lia.
From S2P Require Import Prelude Utf Mapi Wire ExtVal Globset Idset FastTransfer.
Open Scope Z_scope.
Open Scope go_scope.

(** ** Exact reads

    [exact r p x]: on the bytes [p] and anything after them [r] gives [x] and leaves what came
    after, and on a proper prefix of [p] it waits for more. *)

Definition waits {A} (r : rd A) (p : bytes) : Prop :=
  forall q t, p = q ++ t -> t <> [] -> r q = None.
Definition exact {A} (r : rd A) (p : bytes) (x : A) : Prop :=
  (forall rest, r (p ++ rest) = Some (x, rest)) /\ waits r p.

Create HintDb exact.

Lemma exact_ret {A} (x : A) : exact (rd_ret x) [] x.
Proof. split; [done|]. intros q t H Ht. symmetry in H. apply app_eq_nil in H as [_ ->]. done. Qed.

(** A proper prefix of [p1 ++ p2] cuts one of the two. *)
Lemma prefix_cases {A} (p1 p2 q t : list A) :
  p1 ++ p2 = q ++ t -> t <> [] ->
  (exists t1, p1 = q ++ t1 /\ t1 <> []) \/ (exists q2, q = p1 ++ q2 /\ p2 = q2 ++ t).
Proof.
  revert q. induction p1 as [|a p1 IH]; intros q H Ht; simpl in *; [right; by exists q|].
  destruct q as [|b q]; [left; by exists (a :: p1)|]. simpl in H. injection H as -> H.
  destruct (IH q H Ht) as [(t1 & -> & Ht1)|(q2 & -> & Hq2)]; [left; by exists t1|right; by exists q2].
Qed.

Lemma exact_bind {A B} (r : rd A) (k : A -> rd B) p1 p2 x y :
  exact r p1 x -> exact (k x) p2 y -> exact (rd_bind r k) (p1 ++ p2) y.
Proof.
  intros [R1 W1] [R2 W2]. split.
  - intros rest. unfold rd_bind. by rewrite <- app_assoc, R1, R2.
  - intros q t H Ht. unfold rd_bind.
    destruct (prefix_cases _ _ _ _ H Ht) as [(t1 & E & Ht1)|(q2 & -> & E)].
    + by rewrite (W1 q t1).
    + rewrite R1. by apply (W2 q2 t).
Qed.

Lemma exact_map {A B} (f : A -> B) (r : rd A) p x y :
  exact r p x -> f x = y -> exact (rd_map f r) p y.
Proof.
  intros H <-. rewrite <- (app_nil_r p). apply (exact_bind r _ p [] x); [done|apply exact_ret].
Qed.

Lemma exact_bytes n p : len p = n -> exact (rd_bytes n) p p.
Proof.
  intros <-. split.
  - intros rest. unfold rd_bytes. pose proof (len_nonneg p). pose proof (len_nonneg rest).
    rewrite len_app, (proj2 (orb_false_iff _ _)) by (rewrite !Z.ltb_ge; lia).
    unfold len. rewrite Nat2Z.id, take_app_length, drop_app_length. done.
  - intros q t -> Ht. unfold rd_bytes. rewrite len_app.
    assert (0 < len t) by (destruct t; [done|]; unfold len; simpl; lia).
    by rewrite (proj2 (Z.ltb_lt (len q) _)), orb_true_r by lia.
Qed.

Lemma exact_le n v m :
  m = Z.of_nat n -> 0 <= v < 2 ^ (8 * Z.of_nat n) ->
  exact (rd_bind (rd_bytes m) (fun b => rd_ret (le_value b))) (le_bytes n v) v.
Proof.
  intros -> Hv. rewrite <- (app_nil_r (le_bytes n v)).
  eapply exact_bind; [apply exact_bytes; unfold len; by rewrite length_le_bytes|].
  rewrite le_value_le_bytes by done. apply exact_ret.
Qed.

Lemma exact_byte v : inU 8 v = true -> exact rd_byte (le_bytes 1 v) v.
Proof. rewrite inU_spec. intros. by apply (exact_le 1). Qed.
Lemma exact_u16 v : inU 16 v = true -> exact rd_u16 (le_bytes 2 v) v.
Proof. rewrite inU_spec. intros. by apply (exact_le 2). Qed.
Lemma exact_u32 v : inU 32 v = true -> exact rd_u32 (le_bytes 4 v) v.
Proof. rewrite inU_spec. intros. by apply (exact_le 4). Qed.
Lemma exact_u64 v : inU 64 v = true -> exact rd_u64 (le_bytes 8 v) v.
Proof. rewrite inU_spec. intros. by apply (exact_le 8). Qed.
#[export] Hint Resolve exact_byte exact_u16 exact_u32 exact_u64 : exact.

Lemma inU_mod w x : 0 < w -> inU w (x mod 2 ^ w) = true.
Proof. intros. apply inU_spec, Z.mod_pos_bound. apply Z.pow_pos_nonneg; lia. Qed.

Lemma exact_signed w wr (r : rd Z) x {B} (mk : Z -> B) :
  (w = 16 \/ w = 32 \/ w = 64) -> inS w x = true ->
  (forall v, inU w v = true -> exact r (wr v) v) ->
  exact (rd_map (fun v => mk (signed w v)) r) (wr (x mod 2 ^ w)) (mk x).
Proof.
  intros Hw Hx Hr. eapply exact_map; [apply Hr, inU_mod; lia|]. f_equal. apply signed_mod; [lia|done].
Qed.

Lemma exact_prefixed b : len b < 2 ^ 32 -> exact rd_lenPrefixed (le_bytes 4 (len b) ++ b) b.
Proof.
  intros H. pose proof (len_nonneg b). eapply exact_bind; [by apply exact_u32, inU_spec|].
  by apply exact_bytes.
Qed.

Lemma exact_guid g : guid_ok g = true -> exact rd_GUID (GUID_Flat g) g.
Proof.
  intros H. eapply exact_map; [apply exact_bytes; unfold len; by rewrite guid_ok_length|].
  by apply FlatUID_GUID_Flat.
Qed.

(** *** Strings *)

Lemma units_of_le us tl :
  Forall (fun u => 0 <= u < 65536) us -> (length tl < 2)%nat ->
  units_of (concat (map (le_bytes 2) us) ++ tl) = us.
Proof.
  intros H Ht. induction H as [|u us Hu _ IH]; [by destruct tl as [|x [|y tl]]; simpl in *; try lia|].
  cbn [map concat]. change (le_bytes 2 u) with [u mod 256; u / 256 mod 256]. cbn [app units_of].
  rewrite IH. f_equal. cbn [le_value]. pose proof (Z.div_mod u 256 ltac:(lia)).
  rewrite (Z.mod_small (u / 256)) by (split; [apply Z.div_pos | apply Z.div_lt_upper_bound]; lia). lia.
Qed.

Lemma strip_zeros_snoc us : List.last us 1 <> 0 -> strip_zeros (us ++ [0]) = us.
Proof.
  intros H. unfold strip_zeros. rewrite rev_app_distr. cbn [rev app]. change (0 =? 0) with true. cbv iota.
  destruct us as [|u us _] using rev_ind; [done|].
  rewrite rev_app_distr. cbn [rev app]. rewrite last_last in H.
  destruct (Z.eqb_spec u 0); [done|]. cbn [rev]. by rewrite rev_involutive.
Qed.

Definition wide_ok (s : bytes) : bool :=
  bytes_ok s && valid_utf8 s && negb (List.last (utf16_Encode (runes s)) 1 =? 0)
  && (len (encodeUTF16 s) <? 2 ^ 32).

Lemma utf16_Encode_range rs :
  Forall (fun r => is_scalar r = true) rs -> Forall (fun u => 0 <= u < 65536) (utf16_Encode rs).
Proof.
  induction 1 as [|r rs Hr _ IH]; [constructor|].
  unfold utf16_Encode in *. cbn [map concat]. apply Forall_app. split; [|done].
  destruct (Z.eq_dec r 0) as [->|Hn]; [repeat constructor; lia|].
  pose proof (utf16_Encode_units [r] ltac:(repeat constructor; done)) as H.
  unfold utf16_Encode in H. cbn [map concat] in H. rewrite app_nil_r in H.
  eapply List.Forall_impl; [|exact H]. cbn. lia.
Qed.

Lemma decode_encode_utf16 s : wide_ok s = true -> decodeUTF16 (encodeUTF16 s) = s.
Proof.
  unfold wide_ok. intros H. bsplit. unfold decodeUTF16, encodeUTF16.
  assert (U : Forall (fun u => 0 <= u < 65536) (utf16_Encode (runes s) ++ [0])).
  { apply Forall_app. split; [by apply utf16_Encode_range, runes_scalar|repeat constructor; lia]. }
  pose proof (units_of_le _ [] U ltac:(simpl; lia)) as E. rewrite app_nil_r, map_app, concat_app in E.
  change (concat (map (le_bytes 2) [0])) with (le_bytes 2 0) in E. rewrite E.
  rewrite strip_zeros_snoc; [by apply utf16_round_trip|].
  match goal with H : negb _ = true |- _ => apply negb_true_iff in H end. bprop. done.
Qed.

Lemma trimNUL_snoc s : trimNUL (s ++ [0]) = s.
Proof.
  unfold trimNUL. rewrite last_last, len_app, Z.eqb_refl, removelast_last. pose proof (len_nonneg s).
  change (len [0]) with 1. by rewrite (proj2 (Z.ltb_lt 0 _)) by lia.
Qed.

(** *** Scalar values *)

Definition fx_ok (k : fx_kind) (v : any) : bool :=
  match k, v with
  | FShort, AInt16 x => inS 16 x
  | FLong, AInt32 x => inS 32 x
  | FError, AUint32 x => inU 32 x
  | FFloat, AFloat32 x => inU 32 x
  | FDouble, AFloat64 x => inU 64 x
  | FBoolean, ABool _ => true
  | FInt64, AInt64 x => inS 64 x
  | FSysTime, AUint64 x => inU 64 x
  | FCLSID, AGUID g => guid_ok g
  | FUnicode, AString s => wide_ok s
  | FString8, AString s => len s + 1 <? 2 ^ 32
  | FBinary, ABytes b => len b <? 2 ^ 32
  | _, _ => false
  end.

Lemma exact_wide s : wide_ok s = true -> exact rd_Unicode (appendLenPrefixed (encodeUTF16 s)) s.
Proof.
  intros H. pose proof H as H'. unfold wide_ok in H'. bprop.
  eapply exact_map; [by apply exact_prefixed|by apply decode_encode_utf16].
Qed.

Lemma exact_narrow s : (len s + 1 <? 2 ^ 32) = true ->
  exact rd_String8 (appendLenPrefixed (s ++ [0])) s.
Proof.
  intros H. bprop. eapply exact_map; [apply exact_prefixed|apply trimNUL_snoc].
  rewrite len_app. change (len [0]) with 1. lia.
Qed.

Lemma exact_value k v :
  fx_ok k v = true ->
  exists h b, fx_write k v = Ok (h, b) /\ exact (fx_read k) (h ++ b) v.
Proof.
  destruct k, v; try discriminate; cbn [fx_ok fx_write fx_read]; intros H;
    unfold appendTearable; do 2 eexists; (split; [reflexivity|]); rewrite ?app_nil_r.
  - apply (exact_signed 16 (le_bytes 2) rd_u16 x AInt16); [tauto|done|auto with exact].
  - apply (exact_signed 32 (le_bytes 4) rd_u32 x AInt32); [tauto|done|auto with exact].
  - eapply exact_map; [by apply exact_u32|done].
  - eapply exact_map; [by apply exact_u32|done].
  - eapply exact_map; [by apply exact_u64|done].
  - eapply exact_map; [by apply exact_u16; destruct b|by destruct b].
  - apply (exact_signed 64 (le_bytes 8) rd_u64 x AInt64); [tauto|done|auto with exact].
  - eapply exact_map; [by apply exact_u64|done].
  - eapply exact_map; [by apply exact_guid|done].
  - eapply exact_map; [by apply exact_wide|done].
  - eapply exact_map; [by apply exact_narrow|done].
  - bprop. eapply exact_map; [by apply exact_prefixed|done].
Qed.

(** *** Names *)

Definition fxname_ok (n : PropertyName) : bool :=
  guid_ok (pnGUID n)
  && if pnKind n =? MnidID then inU 32 (pnLID n) && bool_decide (pnName n = [])
     else if pnKind n =? MnidString then
       (pnLID n =? 0) && wide_ok (pnName n) && no_nul (pnName n)
     else (pnKind n =? KindNone) && (pnLID n =? 0) && bool_decide (pnName n = []).

Lemma scan_units_short us q t :
  Forall (fun u => 0 < u < 65536) us ->
  concat (map (le_bytes 2) us) ++ [0; 0] = q ++ t -> t <> [] -> scan_units q = None.
Proof.
  intros H. revert q. induction H as [|u us Hu _ IH]; intros q E Ht.
  - simpl in E. destruct q as [|x [|y q]]; try done. simpl in E. injection E as <- <- E.
    symmetry in E. apply app_eq_nil in E as [-> ->]. done.
  - cbn [map concat] in E. change (le_bytes 2 u) with [u mod 256; u / 256 mod 256] in E.
    destruct q as [|x [|y q]]; try done. simpl in E. injection E as <- <- E. cbn [scan_units].
    pose proof (Z.div_mod u 256 ltac:(lia)).
    rewrite (Z.mod_small (u / 256)) by (split; [apply Z.div_pos | apply Z.div_lt_upper_bound]; lia).
    rewrite (IH q E Ht).
    destruct (Z.eqb_spec (u mod 256) 0), (Z.eqb_spec (u / 256) 0); try done. lia.
Qed.

Lemma exact_naked s :
  wide_ok s = true -> no_nul s = true -> exact readNakedUTF16 (encodeUTF16 s) s.
Proof.
  intros Hw Hn. pose proof Hw as Hw'. unfold wide_ok in Hw'. bsplit.
  assert (U : Forall (fun u => 0 < u < 65536) (utf16_Encode (runes s))).
  { apply utf16_Encode_units, List.Forall_and; [by apply runes_scalar|by apply runes_no_nul]. }
  split.
  - intros rest. unfold readNakedUTF16.
    assert (E : scan_units (encodeUTF16 s ++ rest) = Some (utf16_Encode (runes s), rest)).
    { unfold encodeUTF16. rewrite <- app_assoc. change (le_bytes 2 0 ++ rest) with (0 :: 0 :: rest).
      by apply scan_units_app. }
    rewrite E, length_app. replace (length (encodeUTF16 s) + length rest - length rest)%nat
      with (length (encodeUTF16 s)) by lia.
    by rewrite take_app_length, decode_encode_utf16.
  - intros q t E Ht. unfold readNakedUTF16. by rewrite (scan_units_short _ q t U E Ht).
Qed.

Lemma exact_name n :
  fxname_ok n = true -> exists b, appendName n = Ok b /\ exact decodeName b n.
Proof.
  destruct n as [k g lid s]. unfold fxname_ok, appendName, decodeName. cbn [pnKind pnGUID pnLID pnName].
  intros H. bsplit.
  destruct (Z.eqb_spec k MnidID) as [->|N1].
  { bsplit. apply bool_decide_eq_true in H1 as ->. eexists. split; [done|]. rewrite <- app_assoc.
    eapply exact_bind; [by apply exact_guid|]. eapply exact_bind; [by apply exact_byte|].
    cbn. eapply exact_map; [by apply exact_u32|done]. }
  destruct (Z.eqb_spec k MnidString) as [->|N2].
  { bprop. subst lid. eexists. split; [done|]. rewrite <- app_assoc.
    eapply exact_bind; [by apply exact_guid|]. eapply exact_bind; [by apply exact_byte|].
    cbn. eapply exact_map; [by apply exact_naked|done]. }
  destruct (Z.eqb_spec k KindNone) as [->|N3]; [|done]. bprop. apply bool_decide_eq_true in H1 as ->.
  subst lid. eexists. split; [done|]. eapply exact_bind; [by apply exact_guid|].
  rewrite <- (app_nil_r (le_bytes 1 KindNone)). eapply exact_bind; [by apply exact_byte|]. apply exact_ret.
Qed.

(** *** Multivalues *)

Definition mvl_ok {A} (ok : A -> bool) (l : list A) : bool := (len l <=? maxMVCount) && forallb ok l.

Definition mvalue_ok (k : mv_kind) (v : any) : bool :=
  match k, v with
  | MShort, AInt16s l => mvl_ok (inS 16) l
  | MLong, AInt32s l => mvl_ok (inS 32) l
  | MInt64, AInt64s l => mvl_ok (inS 64) l
  | MSysTime, AUint64s l => mvl_ok (inU 64) l
  | MFloat, AFloat32s l => mvl_ok (inU 32) l
  | MDouble, AFloat64s l => mvl_ok (inU 64) l
  | MCLSID, AGUIDs l => mvl_ok guid_ok l
  | MString8, AStrings l => mvl_ok (fun s => len s + 1 <? 2 ^ 32) l
  | MUnicode, AStrings l => mvl_ok wide_ok l
  | MBinary, ABytess l => mvl_ok (fun b => len b <? 2 ^ 32) l
  | _, _ => false
  end.

Lemma exact_times {A} (w : A -> bytes) (r : rd A) l :
  Forall (fun x => exact r (w x) x) l -> exact (rd_times (length l) r) (concat (map w l)) l.
Proof.
  induction 1 as [|x l Hx _ IH]; simpl; [apply exact_ret|].
  eapply exact_bind; [exact Hx|]. rewrite <- (app_nil_r (concat (map w l))).
  eapply exact_bind; [exact IH|apply exact_ret].
Qed.

Lemma concat_min {A} (w : A -> bytes) l :
  Forall (fun x => (2 <= length (w x))%nat) l -> len l * 2 <= len (concat (map w l)).
Proof.
  unfold len. induction 1 as [|x l Hx _ IH]; simpl; [lia|]. rewrite length_app. lia.
Qed.

(** A multivalue reads back when all of it is there. *)
Lemma mv_elems_read {A} (ok : A -> bool) (w : A -> bytes) (r : rd A) mk l rest :
  (forall x, ok x = true -> exact r (w x) x /\ (2 <= length (w x))%nat) ->
  mvl_ok ok l = true ->
  decodeMVElems (len l) r mk (concat (map w l) ++ rest) = Ok (Some (mk l, rest)).
Proof.
  intros Hx H. unfold mvl_ok in H. bprop. apply forallb_Forall in H0.
  assert (F : Forall (fun x => exact r (w x) x) l) by (eapply List.Forall_impl; [|exact H0]; intros; by apply Hx).
  assert (M : Forall (fun x => (2 <= length (w x))%nat) l) by (eapply List.Forall_impl; [|exact H0]; intros; by apply Hx).
  apply concat_min in M. unfold decodeMVElems. pose proof (len_nonneg rest).
  rewrite len_app, (proj2 (Z.ltb_ge _ _)) by lia. unfold rde_lift. f_equal.
  unfold len. rewrite Nat2Z.id. by eapply exact_map; [apply exact_times|].
Qed.

Lemma exact_map_id {A B} (f : A -> B) r p x : exact r p x -> exact (rd_map f r) p (f x).
Proof. intros. by eapply exact_map. Qed.

Lemma mv_read_write k v rest :
  mvalue_ok k v = true ->
  exists n b, mv_write k v = Ok (le_bytes 4 n ++ b) /\ 0 <= n <= maxMVCount
    /\ mv_read k n (b ++ rest) = Ok (Some (v, rest)).
Proof.
  assert (P : forall b, (2 <= length (appendLenPrefixed b))%nat).
  { intros. unfold appendLenPrefixed. rewrite length_app, length_le_bytes. lia. }
  assert (G : forall g, guid_ok g = true -> (2 <= length (GUID_Flat g))%nat).
  { intros g Hg. rewrite guid_ok_length by done. lia. }
  assert (S : forall w wr (r : rd Z) x, w = 16 \/ w = 32 \/ w = 64 -> inS w x = true ->
    (forall v, inU w v = true -> exact r (wr v) v) -> exact (rd_map (signed w) r) (wr (x mod 2 ^ w)) x).
  { intros w wr r x Hw Hx Hr. apply (exact_signed w wr r x (fun v => v)); done. }
  destruct k, v; try discriminate; cbn [mvalue_ok mv_write mv_read]; intros H; unfold appendMVElems;
    do 2 eexists; (split; [reflexivity|]);
    (split; [unfold mvl_ok in H; bprop; split; [apply len_nonneg|done]|]);
    (eapply mv_elems_read; [|exact H]); intros y Hy; (split; [|first [by rewrite length_le_bytes; lia | by auto]]).
  - apply (S 16 (le_bytes 2)); auto with exact.
  - apply (S 32 (le_bytes 4)); auto with exact.
  - apply (S 64 (le_bytes 8)); auto with exact.
  - by apply exact_u64.
  - by apply exact_u32.
  - by apply exact_u64.
  - by apply exact_guid.
  - by apply exact_narrow.
  - by apply exact_wide.
  - cbv beta in Hy. bprop. by apply exact_prefixed.
Qed.

(** ** Whole elements *)

Definition readsE {A} (r : rde A) (p : bytes) (x : A) : Prop :=
  forall rest, r (p ++ rest) = Ok (Some (x, rest)).
Definition waitsE {A} (r : rde A) (p : bytes) : Prop :=
  forall q t, p = q ++ t -> t <> [] -> r q = Ok None.

Lemma readsE_lift {A} (r : rd A) p x : exact r p x -> readsE (rde_lift r) p x.
Proof. intros [R _] rest. unfold rde_lift. by rewrite R. Qed.
Lemma waitsE_lift {A} (r : rd A) p x : exact r p x -> waitsE (rde_lift r) p.
Proof. intros [_ W] q t E Ht. unfold rde_lift. by rewrite (W q t). Qed.

Lemma readsE_bind {A B} (r : rde A) (k : A -> rde B) p1 p2 x y :
  readsE r p1 x -> readsE (k x) p2 y -> readsE (rde_bind r k) (p1 ++ p2) y.
Proof. intros H1 H2 rest. unfold rde_bind. by rewrite <- app_assoc, H1, H2. Qed.

Lemma readsE_ret {A B} (r : rde A) (k : A -> rde B) p x y :
  readsE r p x -> (forall b, k x b = Ok (Some (y, b))) -> readsE (rde_bind r k) p y.
Proof. intros H1 H2 rest. unfold rde_bind. by rewrite H1, H2. Qed.

Lemma waitsE_bind {A B} (r : rde A) (k : A -> rde B) p1 p2 x :
  readsE r p1 x -> waitsE r p1 -> waitsE (k x) p2 -> waitsE (rde_bind r k) (p1 ++ p2).
Proof.
  intros R1 W1 W2 q t E Ht. unfold rde_bind.
  destruct (prefix_cases _ _ _ _ E Ht) as [(t1 & E1 & Ht1)|(q2 & -> & E2)].
  - by rewrite (W1 q t1).
  - rewrite R1. by apply (W2 q2 t).
Qed.

Lemma waitsE_ret {A B} (r : rde A) (k : A -> rde B) p : waitsE r p -> waitsE (rde_bind r k) p.
Proof. intros W q t E Ht. unfold rde_bind. by rewrite (W q t). Qed.

(** *** The property word *)

Lemma word_parts id t :
  inU 16 id = true -> inU 16 t = true ->
  let w := Z.lor (Z.shiftl id 16) t in
  inU 32 w = true /\ Z.shiftr w 16 = id /\ Z.land w 0xFFFF = t.
Proof.
  rewrite !inU_spec. intros Hi Ht w.
  assert (E : w = id * 2 ^ 16 + t).
  { unfold w. rewrite Z.shiftl_mul_pow2 by lia. by apply lor_add_disjoint; lia. }
  rewrite E. split; [apply inU_spec; lia|]. split.
  - rewrite Z.shiftr_div_pow2 by lia. rewrite Z.div_add_l by lia. rewrite (Z.div_small t) by lia. lia.
  - change 0xFFFF with (2 ^ 16 - 1). rewrite land_ones_mod by lia.
    rewrite Z.add_comm, Z.mod_add by lia. apply Z.mod_small. lia.
Qed.

Definition word_of (p : StreamProp) : Z :=
  Z.lor (Z.shiftl (PropTag_ID (sp_Tag p)) 16)
        (fxWireType (PropTag_Type (sp_Tag p)) (PropTag_ID (sp_Tag p))).
Definition wire_type (p : StreamProp) : Z :=
  fxWireType (PropTag_Type (sp_Tag p)) (PropTag_ID (sp_Tag p)).

(** The property as the reader gives it back: its tag carries the type it was written as. *)
Definition as_read (p : StreamProp) : StreamProp := mkStream (word_of p) (sp_Name p) (sp_Value p).

Definition scalar_prop (p : StreamProp) : bool :=
  match table_get fx_table (wire_type p) with Some _ => true | None => false end.

Definition value_fx_ok (typ : Z) (v : any) : bool :=
  match table_get fx_table typ with
  | Some k => fx_ok k v
  | None => match table_get mv_table typ with Some k => mvalue_ok k v | None => false end
  end.

(** A property the stream carries: its word is not a marker nor the one word whose type
    field is not the type of its value, and it has a name exactly when its id says so. *)
Definition stream_ok (p : StreamProp) : bool :=
  inU 32 (sp_Tag p) && negb (isMarker (word_of p)) && negb (word_of p =? metaTagIdsetGiven)
  && match sp_Name p with
     | Some n => (0x8000 <=? PropTag_ID (sp_Tag p)) && fxname_ok n
     | None => PropTag_ID (sp_Tag p) <? 0x8000
     end
  && value_fx_ok (wire_type p) (sp_Value p).

(** Every type of the two tables is a plain 15-bit code. *)
Lemma table_types typ :
  (exists k, table_get fx_table typ = Some k) \/ (exists k, table_get mv_table typ = Some k) ->
  inU 16 typ = true /\ Z.land typ fxCodepageFlag = 0.
Proof.
  intros [[k H]|[k H]]; cbn [table_get fx_table mv_table] in H;
    repeat (match type of H with context [?a =? typ] => destruct (Z.eqb_spec a typ) as [<-|_] end;
            [split; reflexivity|]); done.
Qed.

Lemma mv_table_multi typ k :
  table_get mv_table typ = Some k -> table_get fx_table typ = None /\ fx_isMultivalue typ = true.
Proof.
  intros H; cbn [table_get mv_table] in H;
    repeat (match type of H with context [?a =? typ] => destruct (Z.eqb_spec a typ) as [<-|_] end;
            [split; reflexivity|]); done.
Qed.

(** The value part: what is appended to the header, and how it reads back. *)
Lemma value_codec_fx hdr typ0 typ v :
  value_fx_ok typ v = true ->
  exists h b, encode_value hdr typ0 typ v = Ok (hdr ++ h, b)
    /\ readsE (decodeValue typ) (h ++ b) v
    /\ (match table_get fx_table typ with Some _ => waitsE (decodeValue typ) (h ++ b) | None => b = [] end).
Proof.
  unfold value_fx_ok, encode_value, decodeValue.
  destruct (table_get fx_table typ) as [k|] eqn:E.
  - intros H. destruct (exact_value k v H) as (h & b & W & X). exists h, b. rewrite W. cbn [rbind fst snd].
    split; [done|]. split; [by apply readsE_lift|by eapply waitsE_lift].
  - destruct (table_get mv_table typ) as [k|] eqn:E'; [|done]. intros H.
    destruct (mv_table_multi _ _ E') as [_ ->]. unfold appendMV. rewrite E'.
    destruct (mv_read_write k v [] H) as (n & b & W & Hn & _). rewrite W. cbn [rbind].
    exists (le_bytes 4 n ++ b), []. split; [done|]. split; [|done]. rewrite app_nil_r.
    intros rest. destruct (mv_read_write k v rest H) as (n' & b' & W' & Hn' & R').
    rewrite W in W'. assert (E4 : le_bytes 4 n ++ b = le_bytes 4 n' ++ b') by congruence.
    apply app_inj_1 in E4 as [E4 <-]; [|by rewrite !length_le_bytes].
    apply (f_equal le_value) in E4. unfold maxMVCount in *.
    rewrite !le_value_le_bytes in E4 by (simpl; lia). subst n'.
    rewrite <- app_assoc. unfold decodeMV, rde_bind.
    rewrite (readsE_lift _ _ _ (exact_u32 n ltac:(apply inU_spec; lia))).
    unfold maxMVCount. rewrite (proj2 (Z.ltb_ge _ _)) by lia. by rewrite E'.
Qed.

Lemma tag_id_range tag : inU 16 (PropTag_ID tag) = true.
Proof. apply inU_mod. lia. Qed.

Lemma value_type_plain w typ :
  negb (w =? metaTagIdsetGiven) = true -> Z.land w 0xFFFF = typ -> Z.land typ fxCodepageFlag = 0 ->
  value_type w = typ.
Proof.
  intros Hw E Hc. unfold value_type. apply negb_true_iff in Hw. by rewrite Hw, E, Hc.
Qed.

(** The name, where the id calls for one. *)
Lemma name_codec p :
  match sp_Name p with
  | Some n => (0x8000 <=? PropTag_ID (sp_Tag p)) && fxname_ok n
  | None => PropTag_ID (sp_Tag p) <? 0x8000
  end = true ->
  let r := if 0x8000 <=? PropTag_ID (sp_Tag p) then rde_lift (rd_map Some decodeName) else rde_ret None in
  exists nb, encodeProp p = encode_value (le_bytes 4 (word_of p) ++ nb) (PropTag_Type (sp_Tag p))
                              (wire_type p) (sp_Value p)
    /\ readsE r nb (sp_Name p) /\ waitsE r nb.
Proof.
  unfold encodeProp. destruct (sp_Name p) as [n|].
  - intros H. cbv zeta. bsplit. rewrite H. destruct (exact_name n ltac:(done)) as (nb & E & X).
    exists nb. rewrite E. cbn [rbind]. split; [done|].
    apply (exact_map_id Some) in X. split; [by apply readsE_lift|by eapply waitsE_lift].
  - intros H. cbv zeta. bprop. rewrite (proj2 (Z.leb_gt _ _)) by lia. exists [].
    rewrite app_nil_r. split; [done|]. split; [done|]. intros q t E Ht.
    symmetry in E. apply app_eq_nil in E as [_ ->]. done.
Qed.

(** An encoded property reads back; torn anywhere it waits, unless it is a multivalue. *)
Lemma prop_codec p :
  stream_ok p = true ->
  exists h b, encodeProp p = Ok (h, b) /\ readsE decodeElement (h ++ b) (IProp (as_read p))
    /\ (if scalar_prop p then waitsE decodeElement (h ++ b) else b = [])
    /\ (4 <= length h)%nat.
Proof.
  unfold stream_ok. intros H. repeat rewrite andb_true_iff in H. destruct H as ((((Ht & Hm) & Hg) & Hn) & Hv).
  apply negb_true_iff in Hm.
  assert (T : inU 16 (wire_type p) = true /\ Z.land (wire_type p) fxCodepageFlag = 0).
  { apply table_types. unfold value_fx_ok in Hv.
    destruct (table_get fx_table (wire_type p)); [left; by eexists|].
    destruct (table_get mv_table (wire_type p)); [right; by eexists|done]. }
  destruct T as [T1 T2].
  destruct (word_parts (PropTag_ID (sp_Tag p)) (wire_type p) (tag_id_range _) T1) as (W1 & W2 & W3).
  change (Z.lor (Z.shiftl (PropTag_ID (sp_Tag p)) 16) (wire_type p)) with (word_of p) in W1, W2, W3.
  pose proof (value_type_plain _ _ Hg W3 T2) as VT.
  destruct (name_codec p Hn) as (nb & En & Rn & Wn).
  destruct (value_codec_fx (le_bytes 4 (word_of p) ++ nb) (PropTag_Type (sp_Tag p)) (wire_type p)
    (sp_Value p) Hv) as (h & b & Ev & Rv & Wv).
  exists ((le_bytes 4 (word_of p) ++ nb) ++ h), b. split; [by rewrite En|].
  rewrite <- !app_assoc. pose proof (exact_u32 _ W1) as X4.
  split; [|split; [|rewrite length_app, length_le_bytes; lia]].
  - unfold decodeElement. eapply readsE_bind; [by apply readsE_lift|]. cbv beta zeta.
    rewrite Hm, W2, VT. eapply readsE_bind; [exact Rn|]. by eapply readsE_ret; [exact Rv|].
  - unfold scalar_prop. destruct (table_get fx_table (wire_type p)); [|done].
    unfold decodeElement. eapply waitsE_bind; [by apply readsE_lift|by eapply waitsE_lift|]. cbv beta zeta.
    rewrite Hm, W2, VT. eapply waitsE_bind; [exact Rn|exact Wn|]. by apply waitsE_ret.
Qed.

Lemma marker_codec m :
  isMarker m = true ->
  readsE decodeElement (le_bytes 4 m) (IMarker m) /\ waitsE decodeElement (le_bytes 4 m).
Proof.
  intros H. assert (U : inU 32 m = true).
  { unfold isMarker in H. apply existsb_exists in H as (x & Hin & E). apply Z.eqb_eq in E as ->.
    revert x Hin. apply forallb_forall. vm_compute. reflexivity. }
  unfold decodeElement. split.
  - eapply readsE_ret; [by apply readsE_lift, exact_u32|]. intros b. cbv beta. by rewrite H.
  - eapply waitsE_ret, waitsE_lift. by apply exact_u32.
Qed.

(** ** The parser *)

Definition leftover (ps : Parser) : bytes := drop (ps_pos ps) (ps_buf ps).

(** An element on the wire and what it reads as. *)
Definition wire_elem : Type := bytes * Item.
Definition elem_ok (e : wire_elem) : Prop := readsE decodeElement e.1 e.2 /\ e.1 <> [].

Definition wire (es : list wire_elem) : bytes := concat (map fst es).

Lemma leftover_Feed ps c : leftover (Feed ps c) = leftover ps ++ c.
Proof.
  unfold leftover, Feed. destruct (Nat.ltb_spec 0 (ps_pos ps)); [done|].
  replace (ps_pos ps) with 0%nat by lia. done.
Qed.

Lemma Next_complete ps e rest :
  elem_ok e -> leftover ps = e.1 ++ rest ->
  exists ps', Next ps = (ps', Ok (Some e.2)) /\ leftover ps' = rest.
Proof.
  intros [R _] E. unfold Next. fold (leftover ps). rewrite E, R. eexists. split; [done|].
  unfold leftover in *. cbn [ps_buf ps_pos]. rewrite <- drop_drop, E, length_app.
  replace (length e.1 + length rest - length rest)%nat with (length e.1) by lia.
  apply drop_app_length.
Qed.

Lemma Next_waits ps : decodeElement (leftover ps) = Ok None -> Next ps = (ps, Ok None).
Proof. intros E. unfold Next. fold (leftover ps). by rewrite E. Qed.

Lemma drain_complete es ps q fuel :
  Forall elem_ok es -> leftover ps = wire es ++ q -> decodeElement q = Ok None ->
  (length es < fuel)%nat ->
  exists ps', drain fuel ps = (ps', map snd es, None) /\ leftover ps' = q.
Proof.
  intros H. revert ps fuel. induction H as [|e es He _ IH]; intros ps fuel E Hq Hf;
    (destruct fuel as [|fuel]; [simpl in Hf; lia|]); cbn [drain].
  - cbn in E. rewrite (Next_waits ps) by by rewrite E. by exists ps.
  - unfold wire in E. cbn [map concat] in E. rewrite <- app_assoc in E.
    destruct (Next_complete ps e _ He E) as (ps1 & -> & E1).
    destruct (IH ps1 fuel E1 Hq ltac:(simpl in Hf; lia)) as (ps2 & -> & E2). by exists ps2.
Qed.

Lemma wire_length es : Forall elem_ok es -> (length es <= length (wire es))%nat.
Proof.
  unfold wire. induction 1 as [|e es [_ He] _ IH]; simpl; [lia|]. rewrite length_app.
  destruct e.1; [done|]. simpl. lia.
Qed.

(** [fed q es chunks]: with [q] buffered, the chunks complete the elements [es] one after
    the other, and whatever is buffered after a chunk makes the decoder wait. *)
Inductive fed : bytes -> list wire_elem -> list bytes -> Prop :=
| fed_nil : fed [] [] []
| fed_chunk q c es q' es' chunks :
    q ++ c = wire es ++ q' -> decodeElement q' = Ok None -> fed q' es' chunks ->
    fed q (es ++ es') (c :: chunks).

Lemma feed_all_fed q es chunks ps :
  fed q es chunks -> Forall elem_ok es -> leftover ps = q ->
  exists ps', feed_all ps chunks = (ps', map snd es, None) /\ leftover ps' = [].
Proof.
  intros H. revert ps. induction H as [|q c es q' es' chunks E Hq _ IH]; intros ps Hok Hl.
  - by exists ps.
  - apply Forall_app in Hok as [Hok Hok'].
    assert (L : leftover (Feed ps c) = wire es ++ q') by (rewrite leftover_Feed, Hl; done).
    assert (F : (length es < S (length (ps_buf (Feed ps c))))%nat).
    { pose proof (wire_length es Hok). assert (length (leftover (Feed ps c)) <= length (ps_buf (Feed ps c)))%nat
        by (unfold leftover; rewrite length_drop; lia).
      rewrite L, length_app in *. lia. }
    destruct (drain_complete es _ q' _ Hok L Hq F) as (ps1 & D & L1).
    cbn [feed_all]. unfold feed_drain. rewrite D.
    destruct (IH ps1 Hok' L1) as (ps2 & -> & L2). exists ps2. by rewrite map_app.
Qed.

(** Elements that wait wherever they are cut. *)
Definition tearable (e : wire_elem) : Prop := elem_ok e /\ waitsE decodeElement e.1.

Lemma decode_nil : decodeElement [] = Ok None.
Proof. reflexivity. Qed.

(** A prefix of the stream is whole elements and a proper prefix of the next one. *)
Lemma cut_stream es a b :
  wire es = a ++ b ->
  exists es1 es2 q, es = es1 ++ es2 /\ a = wire es1 ++ q /\ wire es2 = q ++ b
    /\ (q = [] \/ exists e es2' t, es2 = e :: es2' /\ e.1 = q ++ t /\ t <> []).
Proof.
  revert a. induction es as [|e es IH]; intros a E.
  - symmetry in E. apply app_eq_nil in E as [-> ->]. exists [], [], []. naive_solver.
  - unfold wire in E. cbn [map concat] in E. fold (wire es) in E.
    destruct (decide (length e.1 <= length a)%nat) as [L|L].
    + assert (A : a = e.1 ++ drop (length e.1) a /\ wire es = drop (length e.1) a ++ b).
      { assert (T : take (length e.1) a = e.1).
        { apply (f_equal (take (length e.1))) in E. rewrite take_app_length, take_app_le in E by lia. done. }
        rewrite <- T at 1. rewrite take_drop. split; [done|].
        apply (f_equal (drop (length e.1))) in E. rewrite drop_app_length, drop_app_le in E by lia. done. }
      destruct A as [A1 A2]. destruct (IH _ A2) as (es1 & es2 & q & -> & E1 & E2 & Hq).
      exists (e :: es1), es2, q. split; [done|]. split; [|done].
      rewrite A1, E1. unfold wire. cbn [map concat]. by rewrite app_assoc.
    + exists [], (e :: es), a. split; [done|]. split; [done|]. split; [done|]. right.
      assert (A : e.1 = a ++ drop (length a) e.1).
      { apply (f_equal (take (length a))) in E. rewrite take_app_length, take_app_le in E by lia.
        rewrite <- E at 1. by rewrite take_drop. }
      exists e, es, (drop (length a) e.1). split; [done|]. split; [done|].
      intros Hn. apply (f_equal length) in Hn. rewrite length_drop in Hn. simpl in Hn. lia.
Qed.

(** Any chunking of a stream of tearable elements feeds the parser. *)
Lemma fed_any chunks : forall es q,
  Forall tearable es -> wire es = q ++ concat chunks -> chunks <> [] \/ q = [] ->
  fed q es chunks.
Proof.
  induction chunks as [|c chunks IH]; intros es q Hes E Hq.
  - destruct Hq as [Hq| ->]; [done|]. destruct es as [|e es]; [constructor|].
    apply Forall_cons_1 in Hes as (((_ & Hne) & _) & _). unfold wire in E. cbn in E.
    by apply app_eq_nil in E as [E _].
  - simpl in E. rewrite app_assoc in E.
    destruct (cut_stream es (q ++ c) (concat chunks) E) as (es1 & es2 & q' & -> & E1 & E2 & Hq').
    apply Forall_app in Hes as [H1 H2]. apply fed_chunk with (q' := q'); [done| |].
    + destruct Hq' as [ ->|(e & es2' & t & -> & Et & Ht)]; [apply decode_nil|].
      apply Forall_cons_1 in H2 as ((_ & W) & _). by apply (W q' t).
    + apply IH; [done|done|]. destruct Hq' as [ ->|(e & es2' & t & -> & Et & Ht)]; [by right|].
      left. intros ->. simpl in E2. rewrite app_nil_r in E2. unfold wire in E2. cbn [map concat] in E2.
      rewrite Et, <- app_assoc in E2. apply (f_equal length) in E2. rewrite !length_app in E2.
      destruct t; [done|]. simpl in E2. lia.
Qed.

(** ** The producer *)

(** A queued element carries an element of the wire, which waits wherever its body is cut. *)
Definition carries (e : element) (w : wire_elem) : Prop :=
  w.1 = el_header e ++ el_body e /\ elem_ok w
  /\ (el_body e = [] \/ waitsE decodeElement w.1) /\ (el_bodyPos e <= length (el_body e))%nat
  /\ (el_headerDone e = false -> el_bodyPos e = 0%nat).

Definition fresh_el (e : element) : Prop := el_headerDone e = false.

(** The part of an element already served. *)
Definition sent (e : element) : bytes :=
  if el_headerDone e then el_header e ++ take (el_bodyPos e) (el_body e) else [].
Definition first_sent (todo : list element) : bytes :=
  match todo with [] => [] | e :: _ => sent e end.

Definition queued (todo : list element) (ws : list wire_elem) : Prop :=
  Forall2 carries todo ws /\ Forall fresh_el (tail todo).

Lemma first_sent_fresh todo : Forall fresh_el todo -> first_sent todo = [].
Proof. destruct 1 as [|e todo H]; [done|]. unfold first_sent, sent. by rewrite H. Qed.

Lemma Forall_tail {A} (P : A -> Prop) l : Forall P l -> Forall P (tail l).
Proof. by destruct 1. Qed.

(** One chunk: what it completes, and what it leaves cut. *)
Lemma read_loop_spec maxLen todo ws out k todo' out' :
  read_loop maxLen todo out = (k, todo', out') -> queued todo ws ->
  exists c, out' = out ++ c
    /\ first_sent todo ++ c = wire (take k ws) ++ first_sent (drop k todo')
    /\ queued (drop k todo') (drop k ws)
    /\ decodeElement (first_sent (drop k todo')) = Ok None
    /\ length todo' = length todo /\ (k <= length todo)%nat.
Proof.
  revert ws out k todo' out'. induction todo as [|e todo IH]; intros ws out k todo' out' E [Hc Hf].
  - injection E as <- <- <-. exists []. inversion Hc; subst. rewrite app_nil_r. repeat split; done || constructor.
  - inversion Hc as [|? w ? ws' Hw Hws]; subst. pose proof Hw as (Ew & Hok & Htear & Hpos & Hfresh).
    cbn [tail] in Hf. cbn [read_loop] in E.
    destruct (negb (el_headerDone e) && _) eqn:D.
    { bsplit. apply negb_true_iff in H. injection E as <- <- <-. exists [].
      assert (S : sent e = []) by (unfold sent; by rewrite H).
      rewrite app_nil_r, drop_0, drop_0, take_0. cbn [first_sent]. rewrite S.
      repeat split; try done; lia. }
    clear D. cbv zeta in E. set (out1 := if el_headerDone e then out else out ++ el_header e) in *.
    assert (O : out1 = out ++ (if el_headerDone e then [] else el_header e))
      by (unfold out1; destruct (el_headerDone e); by rewrite ?app_nil_r).
    destruct (Z.leb_spec (len (el_body e) - Z.of_nat (el_bodyPos e)) (Z.max (maxLen - len out1) 0)) as [L|L].
    + destruct (read_loop maxLen todo _) as [[k1 rest] out2] eqn:E1. injection E as <- <- <-.
      destruct (IH ws' _ _ _ _ E1) as (c & -> & C1 & C2 & C3 & C4 & C5); [by split; [|apply Forall_tail]|].
      exists ((if el_headerDone e then [] else el_header e) ++ drop (el_bodyPos e) (el_body e) ++ c).
      split; [by rewrite O, <- !app_assoc|]. cbn [drop].
      split; [|split; [done|]; split; [done|]; simpl; split; lia].
      cbn [first_sent take map concat]. unfold wire. cbn [map concat]. fold (wire (take k1 ws')).
      rewrite <- app_assoc, <- C1, (first_sent_fresh todo Hf), Ew. unfold sent.
      destruct (el_headerDone e) eqn:Hd; [|by rewrite (Hfresh eq_refl), drop_0, <- !app_assoc].
      rewrite <- !app_assoc. cbn [app]. f_equal. by rewrite app_assoc, take_drop.
    + injection E as <- <- <-. set (avail := Z.to_nat (Z.max (maxLen - len out1) 0)) in *.
      assert (A : (el_bodyPos e + avail < length (el_body e))%nat) by (unfold avail, len in *; lia).
      exists ((if el_headerDone e then [] else el_header e) ++ take avail (drop (el_bodyPos e) (el_body e))).
      split; [by rewrite O, <- !app_assoc|]. rewrite !drop_0, take_0. cbn [first_sent wire map concat app].
      assert (S : sent (mkElement (el_header e) (el_body e) true (el_bodyPos e + avail))
        = el_header e ++ take (el_bodyPos e + avail) (el_body e)) by done.
      rewrite S. split; [|split; [|split; [|simpl; split; lia]]].
      * rewrite <- take_take_drop. unfold sent. destruct (el_headerDone e) eqn:Hd; [|by rewrite (Hfresh eq_refl)].
        by rewrite <- !app_assoc.
      * split; [|done]. constructor; [|done]. repeat split; try done; cbn; try lia; apply Hok.
      * destruct Htear as [Hb|Hwait]; [by rewrite Hb in A; simpl in A; lia|].
        apply (Hwait _ (drop (el_bodyPos e + avail) (el_body e))).
        -- by rewrite Ew, <- app_assoc, take_drop.
        -- intros Hn. apply (f_equal length) in Hn. rewrite length_drop in Hn. simpl in Hn. lia.
Qed.

(** A caller's session: elements written and chunks read, in any order. *)
Inductive op := OWrite (it : Item) | ORead (maxLen : Z).

Definition write_item (pr : Producer) (it : Item) : result fx_error Producer :=
  match it with IMarker m => Ok (WriteMarker pr m) | IProp p => WriteProp pr p end.

Fixpoint session (pr : Producer) (ops : list op) : result fx_error (Producer * list bytes) :=
  match ops with
  | [] => Ok (pr, [])
  | OWrite it :: ops => let? pr' := write_item pr it in session pr' ops
  | ORead n :: ops =>
      let '(pr', c, _) := ReadBuffer pr n in
      let? res := session pr' ops in Ok (res.1, c :: res.2)
  end.

(** What a reader should see of an item: a server entry id has no stream form. *)
Definition seen_as (it : Item) : list Item :=
  match it with
  | IMarker m => [IMarker m]
  | IProp p => if PropTag_Type (sp_Tag p) =? PtSvrEID then [] else [IProp (as_read p)]
  end.
Definition written_items (ops : list op) : list Item :=
  flat_map (fun o => match o with OWrite it => seen_as it | ORead _ => [] end) ops.

Definition item_ok (it : Item) : bool :=
  match it with
  | IMarker m => isMarker m
  | IProp p => (PropTag_Type (sp_Tag p) =? PtSvrEID) || stream_ok p
  end.
Definition ops_ok (ops : list op) : bool :=
  forallb (fun o => match o with OWrite it => item_ok it | ORead _ => true end) ops.

Lemma enqueue_queued pr h b w ws :
  queued (drop (pr_head pr) (pr_queue pr)) ws -> (pr_head pr <= length (pr_queue pr))%nat ->
  carries (mkElement h b false 0) w ->
  queued (drop (pr_head pr) (pr_queue (enqueue pr (mkElement h b false 0)))) (ws ++ [w])
  /\ first_sent (drop (pr_head pr) (pr_queue (enqueue pr (mkElement h b false 0))))
     = first_sent (drop (pr_head pr) (pr_queue pr)).
Proof.
  intros [Hc Hf] Hh Hw. cbn [enqueue pr_queue]. rewrite drop_app_le by done.
  set (todo := drop (pr_head pr) (pr_queue pr)) in *. split; [split|].
  - apply Forall2_app; [done|]. constructor; [done|constructor].
  - destruct todo as [|e todo]; simpl in *; [constructor|]. apply Forall_app. split; [done|by repeat constructor].
  - by destruct todo.
Qed.

Lemma ReadBuffer_spec pr ws n pr' c last :
  ReadBuffer pr n = (pr', c, last) ->
  queued (drop (pr_head pr) (pr_queue pr)) ws -> (pr_head pr <= length (pr_queue pr))%nat ->
  exists k, first_sent (drop (pr_head pr) (pr_queue pr)) ++ c
      = wire (take k ws) ++ first_sent (drop (pr_head pr') (pr_queue pr'))
    /\ queued (drop (pr_head pr') (pr_queue pr')) (drop k ws)
    /\ decodeElement (first_sent (drop (pr_head pr') (pr_queue pr'))) = Ok None
    /\ (pr_head pr' <= length (pr_queue pr'))%nat.
Proof.
  unfold ReadBuffer. intros E Hq Hh.
  destruct (read_loop n _ []) as [[k todo] out] eqn:L.
  destruct (read_loop_spec _ _ ws _ _ _ _ L Hq) as (c' & -> & C1 & C2 & C3 & C4 & C5).
  cbn [app] in E. exists k. rewrite length_drop in C4, C5.
  destruct (Nat.leb_spec (length (take (pr_head pr) (pr_queue pr) ++ todo)) (pr_head pr + k)) as [Hl|Hl];
    injection E as <- <- <-; cbn [pr_head pr_queue].
  - rewrite length_app, length_take in Hl.
    assert (N : drop k todo = []) by (apply drop_ge; lia).
    rewrite N in C1, C2, C3. rewrite drop_nil. by repeat split; try apply C2.
  - rewrite length_app, length_take in *.
    rewrite drop_app_ge by (rewrite length_take; lia). rewrite length_take.
    replace (pr_head pr + k - pr_head pr `min` length (pr_queue pr))%nat with k by lia.
    split; [done|]. split; [done|]. split; [done|]. lia.
Qed.

Lemma write_carries it pr :
  item_ok it = true ->
  exists pr' ws, write_item pr it = Ok pr' /\ map snd ws = seen_as it /\
  forall ws0, queued (drop (pr_head pr) (pr_queue pr)) ws0 -> (pr_head pr <= length (pr_queue pr))%nat ->
    queued (drop (pr_head pr') (pr_queue pr')) (ws0 ++ ws)
    /\ first_sent (drop (pr_head pr') (pr_queue pr')) = first_sent (drop (pr_head pr) (pr_queue pr))
    /\ (pr_head pr' <= length (pr_queue pr'))%nat.
Proof.
  destruct it as [m|p]; cbn [item_ok write_item seen_as]; intros H.
  - destruct (marker_codec m H) as [R W]. exists (WriteMarker pr m), [(le_bytes 4 m, IMarker m)].
    split; [done|]. split; [done|]. intros ws0 Hq Hh.
    destruct (enqueue_queued pr (le_bytes 4 m) [] (le_bytes 4 m, IMarker m) ws0 Hq Hh) as [Q1 Q2].
    { repeat split; cbn; try done. by left. }
    split; [exact Q1|]. split; [exact Q2|]. cbn. rewrite length_app. lia.
  - unfold WriteProp. destruct (PropTag_Type (sp_Tag p) =? PtSvrEID) eqn:S.
    + exists pr, []. split; [done|]. split; [done|]. intros. rewrite app_nil_r. done.
    + cbn [orb] in H. destruct (prop_codec p H) as (h & b & -> & R & W & L). cbn [rbind fst snd].
      exists (enqueue pr (mkElement h b false 0)), [(h ++ b, IProp (as_read p))].
      split; [done|]. split; [done|]. intros ws0 Hq Hh.
      destruct (enqueue_queued pr h b (h ++ b, IProp (as_read p)) ws0 Hq Hh) as [Q1 Q2].
      { split; [done|]. split; [|split; [|split; [cbn; lia|done]]].
        - split; [exact R|]. cbn. intros E. apply app_eq_nil in E as [-> _]. simpl in L. lia.
        - cbn. destruct (scalar_prop p); [by right|by left]. }
      split; [exact Q1|]. split; [exact Q2|]. cbn. rewrite length_app. lia.
Qed.

Lemma queued_ok todo ws : queued todo ws -> Forall elem_ok ws.
Proof. intros [H _]. induction H as [|e w todo ws (_ & Hok & _) _ IH]; by constructor. Qed.

(** The chunks of a session that ends drained feed the parser the elements written. *)
Lemma session_fed ops : forall pr ws pr' chunks,
  ops_ok ops = true -> session pr ops = Ok (pr', chunks) -> Pending pr' = false ->
  queued (drop (pr_head pr) (pr_queue pr)) ws -> (pr_head pr <= length (pr_queue pr))%nat ->
  exists ws', map snd ws' = written_items ops /\ Forall elem_ok (ws ++ ws')
    /\ fed (first_sent (drop (pr_head pr) (pr_queue pr))) (ws ++ ws') chunks.
Proof.
  induction ops as [|[it|n] ops IH]; intros pr ws pr' chunks Hok E Hp Hq Hh; cbn [session] in E.
  - injection E as <- <-. unfold Pending in Hp. apply Nat.ltb_ge in Hp.
    rewrite drop_ge in * by done. destruct Hq as [Hc _]. inversion Hc; subst.
    exists []. split; [done|]. split; constructor.
  - cbn [ops_ok forallb] in Hok. bsplit.
    destruct (write_carries it pr H) as (pr1 & w & Ew & Sw & Hw). rewrite Ew in E. cbn [rbind] in E.
    destruct (Hw ws Hq Hh) as (Q1 & Q2 & Q3).
    destruct (IH pr1 (ws ++ w) pr' chunks ltac:(done) E Hp Q1 Q3) as (ws' & M & F & D).
    exists (w ++ ws'). rewrite app_assoc. split; [|split; [done|by rewrite <- Q2]].
    rewrite map_app, M, Sw. done.
  - destruct (ReadBuffer pr n) as [[pr1 c] last] eqn:R.
    destruct (session pr1 ops) as [[pr2 cs]|] eqn:S; [|done]. cbn [rbind fst snd] in E.
    injection E as <- <-. destruct (ReadBuffer_spec _ ws _ _ _ _ R Hq Hh) as (k & C1 & C2 & C3 & C4).
    destruct (IH pr1 (drop k ws) pr2 cs ltac:(done) S Hp C2 C4) as (ws' & M & F & D).
    exists ws'. split; [done|]. rewrite <- (take_drop k ws) at 1 2. rewrite <- app_assoc. split.
    + apply Forall_app. split; [|done]. eapply Forall_take, queued_ok. done.
    + by eapply fed_chunk.
Qed.

(** *** Sizes and progress *)

Fixpoint total (l : list element) : Z := match l with [] => 0 | e :: l => el_pending e + total l end.

Lemma PendingLen_total pr : PendingLen pr = total (drop (pr_head pr) (pr_queue pr)).
Proof.
  unfold PendingLen. enough (H : forall l n, fold_left (fun n e => n + el_pending e) l n = n + total l)
    by (rewrite H; lia).
  induction l as [|e l IH]; intros n; simpl; [lia|]. rewrite IH. lia.
Qed.

(** An undrained element: some of it is left to serve. *)
Definition live (e : element) : Prop :=
  (el_bodyPos e <= length (el_body e))%nat /\ 0 < el_pending e.

Definition hdr_fits (maxLen : Z) (e : element) : Prop :=
  el_headerDone e = false -> len (el_header e) <= maxLen.

Lemma read_loop_sizes maxLen todo out k todo' out' :
  read_loop maxLen todo out = (k, todo', out') -> Forall live todo ->
  len out' + total (drop k todo') = len out + total todo
  /\ Forall live (drop k todo') /\ length todo' = length todo /\ (k <= length todo)%nat
  /\ (len out <= maxLen -> Forall (hdr_fits maxLen) todo -> len out' <= maxLen)
  /\ (todo <> [] -> len out = 0 -> 0 < maxLen -> 0 < len out')
  /\ len out <= len out'.
Proof.
  intros E H. revert out k todo' out' E. induction H as [|e todo [Hp Hl] H IH]; intros out k todo' out' E.
  - injection E as <- <- <-. repeat split; try done; constructor.
  - cbn [read_loop] in E. pose proof (len_nonneg out) as N0. pose proof (len_nonneg (el_header e)) as Nh.
    destruct (negb (el_headerDone e) && _) eqn:D.
    { bprop. injection E as <- <- <-. rewrite drop_0. repeat split; try done; try lia.
      by constructor. }
    assert (Hout : forall o, o = (if el_headerDone e then out else out ++ el_header e) ->
      len o = len out + (if el_headerDone e then 0 else len (el_header e))
      /\ (len out <= maxLen -> hdr_fits maxLen e -> len o <= maxLen)).
    { intros o ->. unfold hdr_fits. destruct (el_headerDone e); cbn [negb andb] in D; [split; [lia|done]|].
      rewrite len_app. split; [done|]. intros _ Hh. specialize (Hh eq_refl). apply andb_false_iff in D.
      rewrite !Z.ltb_ge in D. lia. }
    cbv zeta in E. set (out1 := if el_headerDone e then out else out ++ el_header e) in *.
    destruct (Hout out1 eq_refl) as [O1 O2]. unfold el_pending in Hl.
    assert (B : len (drop (el_bodyPos e) (el_body e)) = len (el_body e) - Z.of_nat (el_bodyPos e))
      by (unfold len; rewrite length_drop; lia).
    destruct (Z.leb_spec (len (el_body e) - Z.of_nat (el_bodyPos e)) (Z.max (maxLen - len out1) 0)) as [L|L].
    + destruct (read_loop maxLen todo _) as [[k1 rest] out2] eqn:E1. injection E as <- <- <-.
      destruct (IH _ _ _ _ E1) as (I1 & I2 & I3 & I4 & I5 & _ & I7). rewrite len_app, B in I1, I5, I7.
      cbn [drop total]. unfold el_pending.
      split; [lia|]. split; [done|]. split; [simpl; lia|]. split; [simpl; lia|].
      split; [|split; [|destruct (el_headerDone e); lia]]; [|intros; destruct (el_headerDone e); lia].
      intros Ho Hf. apply Forall_cons_1 in Hf as [Hf1 Hf2]. specialize (O2 Ho Hf1). apply I5; [lia|done].
    + injection E as <- <- <-.
      assert (T : len (take (Z.to_nat (Z.max (maxLen - len out1) 0)) (drop (el_bodyPos e) (el_body e)))
                  = Z.max (maxLen - len out1) 0).
      { unfold len in *. rewrite length_take. lia. }
      rewrite drop_0, len_app, T. cbn [total]. unfold el_pending. cbn [el_headerDone el_header el_body el_bodyPos].
      assert (N1 : 0 <= len out1) by apply len_nonneg.
      split; [destruct (el_headerDone e); lia|]. split; [constructor; [|done]; split; unfold el_pending; cbn; unfold len in *; lia|].
      split; [done|]. split; [simpl; lia|]. split; [|split; [intros; destruct (el_headerDone e); lia|destruct (el_headerDone e); lia]].
      intros Ho Hf. apply Forall_cons_1 in Hf as [Hf1 _]. specialize (O2 Ho Hf1). lia.
Qed.

(** ** Properties *)

(** A property written to the stream reads back: every scalar type, every multivalue type,
    with its inline name where the id is a named one, gives the same value, under the tag whose
    type is the one it was written as (strings travel as Unicode except the message class). *)
Theorem element_round_trip p rest :
  stream_ok p = true ->
  exists h b, encodeProp p = Ok (h, b)
    /\ decodeElement (h ++ b ++ rest) = Ok (Some (IProp (as_read p), rest)).
Proof.
  intros H. destruct (prop_codec p H) as (h & b & E & R & _). exists h, b.
  split; [done|]. rewrite app_assoc. apply R.
Qed.

Definition ex_named : StreamProp :=
  mkStream 0x8001101F (Some (mkPropertyName MnidString ex_home 0 [107; 101; 121]))
    (AStrings [[97; 98]; []]).

Example element_round_trip_witness : exists h b,
  encodeProp ex_named = Ok (h, b)
  /\ decodeElement (h ++ b ++ [1; 2]) = Ok (Some (IProp (as_read ex_named), [1; 2])).
Proof. apply (element_round_trip ex_named [1; 2]). vm_compute. reflexivity. Defined.

(** The parser reassembles a stream of markers and scalar properties from chunks cut at any
    byte, inside lengths, names and primitives included: fed the chunks one by one it yields
    the elements in order, reports no error and has nothing left over. *)
Theorem parser_any_chunking items chunks stream :
  Forall (fun it => match it with
    | IMarker m => isMarker m = true
    | IProp p => stream_ok p = true /\ scalar_prop p = true end) items ->
  Forall2 (fun it b => match it with
    | IMarker m => b = le_bytes 4 m
    | IProp p => exists hd bd, encodeProp p = Ok (hd, bd) /\ b = hd ++ bd end) items stream ->
  concat chunks = concat stream ->
  exists ps, feed_all NewParser chunks
      = (ps, map (fun it => match it with IMarker m => IMarker m | IProp p => IProp (as_read p) end) items, None)
    /\ leftover ps = [].
Proof.
  intros Hi Hs Hc.
  assert (E : exists es, Forall tearable es /\ wire es = concat stream
    /\ map snd es = map (fun it => match it with IMarker m => IMarker m | IProp p => IProp (as_read p) end) items).
  { clear Hc. revert Hi. induction Hs as [|it b items stream Hb _ IH]; intros Hi; [by exists []|].
    apply Forall_cons_1 in Hi as [Hit Hi]. destruct (IH Hi) as (es & T & W & M).
    destruct it as [m|p].
    - destruct (marker_codec m Hit) as [R W']. subst b. exists ((le_bytes 4 m, IMarker m) :: es).
      split; [constructor; [by repeat split|done]|]. unfold wire in *. simpl. by rewrite W, M.
    - destruct Hit as [Hp Hsc]. destruct (prop_codec p Hp) as (h & b' & E & R & W' & L).
      destruct Hb as (hd & bd & E' & ->). rewrite E in E'. injection E' as <- <-.
      rewrite Hsc in W'. exists ((h ++ b', IProp (as_read p)) :: es).
      split; [constructor; [|done]|unfold wire in *; simpl; by rewrite W, M].
      split; [|done]. split; [exact R|]. cbn. intros N. apply app_eq_nil in N as [-> _]. simpl in L. lia. }
  destruct E as (es & T & W & M). rewrite <- M.
  apply (feed_all_fed [] es chunks NewParser); [|eapply List.Forall_impl; [|exact T]; by intros e [? _]|done].
  apply fed_any; [done|by rewrite W, Hc|by right].
Qed.

Definition ex_subject : StreamProp := mkStream 0x0037001F None (AString [72; 105]).

Example parser_any_chunking_witness : exists ps,
  feed_all NewParser [[3; 0; 12]; [64; 31]; [0; 55; 0; 6; 0]; [0; 0; 72; 0; 105]; [0; 0; 0]]
  = (ps, [IMarker 0x400C0003; IProp ex_subject], None) /\ leftover ps = [].
Proof.
  apply (parser_any_chunking [IMarker 0x400C0003; IProp ex_subject]
    [[3; 0; 12]; [64; 31]; [0; 55; 0; 6; 0]; [0; 0; 72; 0; 105]; [0; 0; 0]]
    [[3; 0; 12; 64]; [31; 0; 55; 0; 6; 0; 0; 0; 72; 0; 105; 0; 0; 0]]).
  - repeat constructor; vm_compute; reflexivity.
  - repeat constructor. do 2 eexists. split; vm_compute; reflexivity.
  - reflexivity.
Defined.

(** C14. What goes into a producer comes out of a parser: for any interleaving of writes and
    chunk reads of any sizes that ends with the producer drained, feeding the chunks to a
    parser yields exactly the elements written, in order, multivalues included, without an
    error and with nothing left over. *)
Theorem transfer_pipeline ops pr chunks :
  ops_ok ops = true -> session NewProducer ops = Ok (pr, chunks) -> Pending pr = false ->
  exists ps, feed_all NewParser chunks = (ps, written_items ops, None) /\ leftover ps = [].
Proof.
  intros Hok Hs Hp.
  destruct (session_fed ops NewProducer [] pr chunks Hok Hs Hp) as (ws & M & F & D);
    [split; constructor|cbn; lia|].
  cbn in D, F. rewrite <- M. by apply (feed_all_fed [] ws chunks NewParser).
Qed.

Definition ex_ops : list op :=
  [OWrite (IMarker 0x400C0003); OWrite (IProp ex_subject); ORead 10;
   OWrite (IProp ex_named); ORead 5; ORead 5; ORead 100].

Example transfer_pipeline_witness : exists pr chunks ps,
  session NewProducer ex_ops = Ok (pr, chunks) /\ length chunks = 4%nat
  /\ feed_all NewParser chunks = (ps, written_items ex_ops, None).
Proof.
  destruct (session NewProducer ex_ops) as [[pr chunks]|] eqn:E; [|vm_compute in E; discriminate].
  assert (P : Pending pr = false /\ length chunks = 4%nat)
    by (vm_compute in E; injection E as <- <-; split; reflexivity).
  destruct P as [P L].
  destruct (transfer_pipeline ex_ops pr chunks eq_refl E P) as (ps & F & _).
  exists pr, chunks, ps. split; [reflexivity|]. split; [exact L|exact F].
Defined.

(** Serving makes progress and respects the requested size: a chunk of a pending producer
    is not empty, what is served is subtracted from the pending bytes, the producer says it
    is drained exactly when nothing is pending, and a chunk is longer than asked for only
    when a single atomic header is. *)
Theorem ReadBuffer_progress pr maxLen :
  Forall live (drop (pr_head pr) (pr_queue pr)) -> Pending pr = true -> 1 <= maxLen ->
  let '(pr', chunk, last) := ReadBuffer pr maxLen in
  0 < len chunk /\ PendingLen pr = len chunk + PendingLen pr'
  /\ last = negb (Pending pr') /\ Forall live (drop (pr_head pr') (pr_queue pr'))
  /\ (Forall (hdr_fits maxLen) (drop (pr_head pr) (pr_queue pr)) -> len chunk <= maxLen).
Proof.
  intros Hl Hp Hm. unfold Pending in Hp. apply Nat.ltb_lt in Hp. unfold ReadBuffer.
  destruct (read_loop maxLen _ []) as [[k todo] out] eqn:L.
  destruct (read_loop_sizes _ _ _ _ _ _ L Hl) as (S1 & S2 & S3 & S4 & S5 & S6 & _).
  rewrite length_drop in S3, S4. change (len []) with 0 in *.
  assert (Hout : 0 < len out).
  { apply S6; [|done|lia]. intros N. apply (f_equal length) in N. rewrite length_drop in N. simpl in N. lia. }
  destruct (Nat.leb_spec (length (take (pr_head pr) (pr_queue pr) ++ todo)) (pr_head pr + k)) as [E|E];
    rewrite length_app, length_take in E; rewrite !PendingLen_total; cbn [pr_head pr_queue].
  - rewrite drop_ge in S1 by lia. cbn [total] in S1. rewrite drop_nil. cbn [total].
    split; [done|]. split; [lia|]. split; [done|]. split; [constructor|]. intros. apply S5; [lia|done].
  - rewrite drop_app_ge by (rewrite length_take; lia). rewrite length_take.
    replace (pr_head pr + k - pr_head pr `min` length (pr_queue pr))%nat with k by lia.
    split; [done|]. split; [lia|]. split; [|split; [done|intros; apply S5; [lia|done]]].
    unfold Pending. cbn [pr_head pr_queue]. rewrite length_app, length_take.
    symmetry. apply negb_false_iff, Nat.ltb_lt. lia.
Qed.

Definition ex_producer : Producer :=
  mkProducer [mkElement [31; 0; 55; 0; 6; 0; 0; 0] [72; 0; 105; 0; 0; 0] true 2] 0.

Example ReadBuffer_progress_witness :
  ReadBuffer ex_producer 3 = (mkProducer [mkElement [31; 0; 55; 0; 6; 0; 0; 0] [72; 0; 105; 0; 0; 0] true 5] 0,
                              [105; 0; 0], false)
  /\ 0 < len [105; 0; 0].
Proof.
  split; [reflexivity|].
  assert (L : Forall live (drop (pr_head ex_producer) (pr_queue ex_producer)))
    by (repeat constructor; cbn; lia).
  pose proof (ReadBuffer_progress ex_producer 3 L eq_refl ltac:(lia)) as H.
  exact (proj1 H).
Defined.

(** A multivalue cut by a chunk boundary is refused instead of awaited: the parser fails
    on a stream that it accepts unsplit, because the element count is compared with the bytes
    that have arrived so far. *)
Theorem torn_multivalue_refused :
  exists a b it, (exists ps, feed_all NewParser [a ++ b] = (ps, [it], None))
    /\ exists ps, feed_all NewParser [a; b] = (ps, [], Some (errCountExceeds 3)).
Proof.
  exists [3; 16; 1; 0x66; 3; 0; 0; 0; 1; 0], [0; 0; 2; 0; 0; 0; 3; 0; 0; 0],
    (IProp (mkStream 0x66011003 None (AInt32s [1; 2; 3]))).
  split; eexists; vm_compute; reflexivity.
Qed.
