(* ===== verification/Lzxpress.v ===== *)
(** * Plain LZ77 compression ([internal/lzxpress])

    The compressor and decompressor of ROP buffers.  Integers keep their widths where the
    sources let them wrap (the indicator word, match lengths, the hash); the output buffer is
    the written prefix of the source's zeroed array, patched in place where the source
    back-patches the indicator word and the shared length nibble. *)

From stdpp Require Import base list numbers.
From Stdlib Require Import ZArith Lia.
From S2P Require Import Prelude.
Open Scope Z_scope.
Open Scope go_scope.

Definition hashSize : nat := 4096.
Definition hashSearch : nat := 5.
Definition hashMask : Z := 4095.
Definition window : Z := 8192.

Inductive lz_error := ErrCorrupt | LzOutOfFuel.

(** [b[i]], [binary.LittleEndian.Uint16(b[i:])] and [Uint32], at an index in range *)
Definition byte_at (b : bytes) (i : nat) : Z := nth i b 0.
Definition u16_at (b : bytes) (i : nat) : Z := le_value (take 2 (drop i b)).
Definition u32_at (b : bytes) (i : nat) : Z := le_value (take 4 (drop i b)).

(** ** Decompression *)

Record lzDecoder := mkDecoder {
  ld_in : bytes; ld_inIdx : nat; ld_indicator : Z; ld_indBit : nat; ld_nibbleIdx : nat }.

Definition have (d : lzDecoder) (n : nat) : bool := (ld_inIdx d + n <=? length (ld_in d))%nat.

Definition advance (d : lzDecoder) (n : nat) : lzDecoder :=
  mkDecoder (ld_in d) (ld_inIdx d + n) (ld_indicator d) (ld_indBit d) (ld_nibbleIdx d).

(** The bit, or the end of the stream. *)
Definition nextBit (d : lzDecoder) : result lz_error (lzDecoder * option Z) :=
  let take_bit d :=
    let k := pred (ld_indBit d) in
    Ok (mkDecoder (ld_in d) (ld_inIdx d) (ld_indicator d) k (ld_nibbleIdx d),
        Some (Z.land (Z.shiftr (ld_indicator d) (Z.of_nat k)) 1)) in
  if (ld_indBit d =? 0)%nat then
    if negb (have d 4) then Err ErrCorrupt
    else
      let d' := mkDecoder (ld_in d) (ld_inIdx d + 4) (u32_at (ld_in d) (ld_inIdx d)) 0 (ld_nibbleIdx d) in
      if (ld_inIdx d' =? length (ld_in d))%nat then Ok (d', None)
      else take_bit (mkDecoder (ld_in d') (ld_inIdx d') (ld_indicator d') 32 (ld_nibbleIdx d'))
  else take_bit d.

Definition dec_literal (d : lzDecoder) (out : bytes) (outSize : Z) : result lz_error (lzDecoder * bytes) :=
  if negb (have d 1) || (outSize <=? len out) then Err ErrCorrupt
  else Ok (advance d 1, out ++ [byte_at (ld_in d) (ld_inIdx d)]).

Definition lengthNibble (d : lzDecoder) : result lz_error (lzDecoder * Z) :=
  if negb (ld_nibbleIdx d =? 0)%nat then
    Ok (mkDecoder (ld_in d) (ld_inIdx d) (ld_indicator d) (ld_indBit d) 0,
        Z.shiftr (byte_at (ld_in d) (ld_nibbleIdx d)) 4)
  else if negb (have d 1) then Err ErrCorrupt
  else Ok (mkDecoder (ld_in d) (ld_inIdx d + 1) (ld_indicator d) (ld_indBit d) (ld_inIdx d),
           Z.land (byte_at (ld_in d) (ld_inIdx d)) 0x0f).

Definition longLength (d : lzDecoder) : result lz_error (lzDecoder * Z) :=
  if negb (have d 2) then Err ErrCorrupt
  else
    let finish d length :=
      if length <? 15 + 7 then Err ErrCorrupt else Ok (d, length - (15 + 7)) in
    let length := u16_at (ld_in d) (ld_inIdx d) in
    let d := advance d 2 in
    if length =? 0 then
      if negb (have d 4) then Err ErrCorrupt
      else finish (advance d 4) (u32_at (ld_in d) (ld_inIdx d))
    else finish d length.

Definition extendedLength (d : lzDecoder) : result lz_error (lzDecoder * Z) :=
  let? dn := lengthNibble d in
  let '(d, n) := dn in
  if negb (n =? 15) then Ok (d, n)
  else if negb (have d 1) then Err ErrCorrupt
  else
    let b := byte_at (ld_in d) (ld_inIdx d) in
    let d := advance d 1 in
    if b =? 255 then
      let? dl := longLength d in Ok (dl.1, u32 (dl.2 + 15))
    else Ok (d, u32 (b + 15)).

(** The copy loop: it stops with an error once the output is full, so [outSize] turns and
    one more are enough. *)
Fixpoint copy_match (fuel : nat) (length offset : Z) (out : bytes) (outSize : Z) : result lz_error bytes :=
  if length =? 0 then Ok out
  else match fuel with
       | O => Err LzOutOfFuel
       | S fuel =>
           if (len out <? offset) || (outSize <=? len out) then Err ErrCorrupt
           else copy_match fuel (length - 1) offset
                  (out ++ [byte_at out (Z.to_nat (len out - offset))]) outSize
       end.

Definition backReference (d : lzDecoder) (out : bytes) (outSize : Z) : result lz_error (lzDecoder * bytes) :=
  if negb (have d 2) then Err ErrCorrupt
  else
    let meta := u16_at (ld_in d) (ld_inIdx d) in
    let d := advance d 2 in
    let offset := Z.shiftr meta 3 + 1 in
    let length := Z.land meta 7 in
    let? dl := (if length =? 7 then
                  let? dx := extendedLength d in Ok (dx.1, u32 (dx.2 + 7))
                else Ok (d, length)) in
    let? out := copy_match (S (Z.to_nat outSize)) (u32 (dl.2 + 3)) offset out outSize in
    Ok (dl.1, out).

(** The main loop; every turn reads at least one byte. *)
Fixpoint dec_loop (fuel : nat) (d : lzDecoder) (out : bytes) (outSize : Z) : result lz_error bytes :=
  match fuel with
  | O => Err LzOutOfFuel
  | S fuel =>
      let? db := nextBit d in
      match db with
      | (_, None) => Ok out
      | (d, Some bit) =>
          let? dout := (if bit =? 0 then dec_literal d out outSize else backReference d out outSize) in
          let '(d, out) := dout in
          if (outSize <=? len out) || (length (ld_in d) <=? ld_inIdx d)%nat then Ok out
          else dec_loop fuel d out outSize
      end
  end.

Definition Decompress (input : bytes) (outSize : Z) : result lz_error bytes :=
  match input with
  | [] => Ok []
  | _ => dec_loop (S (length input)) (mkDecoder input 0 0 0 0) [] outSize
  end.

(** ** Compression *)

Record lzEncoder := mkEncoder {
  le_out : bytes; le_indic : Z; le_indBit : nat; le_indPos : nat; le_nibbleIdx : nat }.

Definition put_bytes (out : bytes) (i : nat) (bs : bytes) : bytes :=
  take i out ++ bs ++ drop (i + length bs) out.

Definition append_out (e : lzEncoder) (bs : bytes) : lzEncoder :=
  mkEncoder (le_out e ++ bs) (le_indic e) (le_indBit e) (le_indPos e) (le_nibbleIdx e).

Definition reserveIndicator : lzEncoder := mkEncoder [0; 0; 0; 0] 0 0 0 0.

Definition pushBit (e : lzEncoder) (bit : Z) : lzEncoder :=
  let indic := u32 (Z.lor (Z.shiftl (le_indic e) 1) bit) in
  if (S (le_indBit e) =? 32)%nat then
    mkEncoder (put_bytes (le_out e) (le_indPos e) (le_bytes 4 indic) ++ [0; 0; 0; 0])
      indic 0 (length (le_out e)) (le_nibbleIdx e)
  else mkEncoder (le_out e) indic (S (le_indBit e)) (le_indPos e) (le_nibbleIdx e).

Definition enc_literal (e : lzEncoder) (b : Z) : lzEncoder := pushBit (append_out e [b]) 0.

Definition writeNibble (e : lzEncoder) (v : Z) : lzEncoder :=
  if (le_nibbleIdx e =? 0)%nat then
    mkEncoder (le_out e ++ [v]) (le_indic e) (le_indBit e) (le_indPos e) (length (le_out e))
  else
    mkEncoder (put_bytes (le_out e) (le_nibbleIdx e)
                 [Z.lor (byte_at (le_out e) (le_nibbleIdx e)) (u8 (Z.shiftl v 4))])
      (le_indic e) (le_indBit e) (le_indPos e) 0.

Definition writeLongLength (e : lzEncoder) (v : Z) : lzEncoder :=
  if v <? 2 ^ 16 then append_out e (le_bytes 2 v)
  else append_out e (le_bytes 2 0 ++ le_bytes 4 v).

Definition writeLengthEscape (e : lzEncoder) (matchLen : Z) : lzEncoder :=
  let e := writeNibble e (Z.min matchLen 15) in
  if matchLen <? 15 then e
  else
    let matchLen := matchLen - 15 in
    let e := append_out e [Z.min matchLen 255] in
    if matchLen <? 255 then e else writeLongLength e (matchLen + 7 + 15).

Definition enc_match (e : lzEncoder) (matchLen offset : Z) : lzEncoder :=
  let e := append_out e (le_bytes 2 (Z.lor (Z.shiftl offset 3) (Z.min matchLen 7))) in
  let e := if 7 <=? matchLen then writeLengthEscape e (matchLen - 7) else e in
  pushBit e 1.

Definition enc_flush (e : lzEncoder) : bytes :=
  let indic := if (le_indBit e =? 0)%nat then le_indic e
               else u32 (Z.shiftl (le_indic e) (32 - Z.of_nat (le_indBit e))) in
  let indic := Z.lor indic (Z.shiftr 0xffffffff (Z.of_nat (le_indBit e))) in
  put_bytes (le_out e) (le_indPos e) (le_bytes 4 indic).

(** [threeByteHash], on 16 bits *)
Definition threeByteHash (b0 b1 b2 : Z) : Z :=
  let a := b0 in
  let bb := Z.lxor b1 0x2e in
  let c := Z.lxor b2 0x55 in
  let ca := u16 (c - a) in
  let d := Z.lxor (Z.lxor (Z.lxor (u16 (Z.shiftl (u16 (a + bb)) 8)) (u16 (Z.shiftl ca 5))) (u16 (c + bb)))
             (u16 (0x0cab + a)) in
  Z.land d hashMask.

Definition hslot (h : Z) (i : nat) : nat := Z.to_nat (Z.land (u16 (h + Z.of_nat i)) hashMask).
Definition hget (hash : list Z) (k : nat) : Z := nth k hash 0xffffffff.

(** The first probed slot with an entry not below the offset. *)
Fixpoint probe_free (hash : list Z) (h offset : Z) (i n : nat) : option nat :=
  match n with
  | O => None
  | S n => if offset <=? hget hash (hslot h i) then Some (hslot h i) else probe_free hash h offset (S i) n
  end.

(** The slot with the most distant entry. *)
Fixpoint probe_worst (hash : list Z) (h offset : Z) (i n : nat) (worstH : nat) (worstScore : Z) : nat :=
  match n with
  | O => worstH
  | S n =>
      let score := u32 (offset - hget hash (hslot h i)) in
      if worstScore <? score then probe_worst hash h offset (S i) n (hslot h i) score
      else probe_worst hash h offset (S i) n worstH worstScore
  end.

Definition storeMatch (hash : list Z) (h offset : Z) : list Z :=
  let o := hget hash (Z.to_nat h) in
  if offset <=? o then <[Z.to_nat h := offset]> hash
  else match probe_free hash h offset 1 (hashSearch - 1) with
       | Some k => <[k := offset]> hash
       | None => <[probe_worst hash h offset 1 (hashSearch - 1) (Z.to_nat h) (u32 (offset - o)) := offset]> hash
       end.

(** How many bytes two positions have in common, up to [n]. *)
Fixpoint common_len (n : nat) (a b : bytes) : nat :=
  match n, a, b with
  | S n, x :: a, y :: b => if x =? y then S (common_len n a b) else 0%nat
  | _, _, _ => 0%nat
  end.

Fixpoint lookup_loop (hash : list Z) (h : Z) (data : bytes) (offset : nat) (maxLen : nat)
  (i n : nat) (best : option nat) (bestLen : nat) : option nat * nat :=
  match n with
  | O => (best, bestLen)
  | S n =>
      let o := hget hash (hslot h i) in
      if Z.of_nat offset <=? o then (best, bestLen)
      else if window <? Z.of_nat offset - o then lookup_loop hash h data offset maxLen (S i) n best bestLen
      else
        let there := Z.to_nat o in
        if match best with
           | Some b => (1000 <? bestLen)%nat
                       && negb (byte_at data (there + bestLen - 1) =? byte_at data (b + bestLen - 1))
           | None => false
           end
        then lookup_loop hash h data offset maxLen (S i) n best bestLen
        else
          let l := common_len maxLen (drop offset data) (drop there data) in
          if (2 <? l)%nat && (bestLen <? l)%nat
          then lookup_loop hash h data offset maxLen (S i) n (Some there) l
          else lookup_loop hash h data offset maxLen (S i) n best bestLen
  end.
Definition lookupMatch (hash : list Z) (h : Z) (data : bytes) (offset maxLen : nat) : option nat * nat :=
  lookup_loop hash h data offset maxLen 0 hashSearch None 0.

Definition findMatch (hash : list Z) (data : bytes) (uPos : nat) : list Z * (option nat * nat) :=
  let maxLen := Nat.min (length data - uPos) (Z.to_nat (0xffff + 3)) in
  if (maxLen <? 3)%nat then (hash, (None, 0%nat))
  else
    let h := threeByteHash (byte_at data uPos) (byte_at data (uPos + 1)) (byte_at data (uPos + 2)) in
    let offset := u32 (Z.of_nat uPos) in
    let m := lookupMatch hash h data (Z.to_nat offset) maxLen in
    (storeMatch hash h offset, m).

(** The main loop; every turn advances the cursor. *)
Fixpoint enc_loop (fuel : nat) (hash : list Z) (data : bytes) (uPos : nat) (e : lzEncoder) : lzEncoder :=
  match fuel with
  | O => e
  | S fuel =>
      if (uPos <? length data)%nat then
        match findMatch hash data uPos with
        | (hash, (None, _)) => enc_loop fuel hash data (S uPos) (enc_literal e (byte_at data uPos))
        | (hash, (Some there, mlen)) =>
            enc_loop fuel hash data (uPos + mlen)
              (enc_match e (Z.of_nat mlen - 3) (Z.of_nat uPos - Z.of_nat there - 1))
        end
      else e
  end.

Definition Compress (data : bytes) : bytes :=
  match data with
  | [] => []
  | _ => enc_flush (enc_loop (length data) (repeat 0xffffffff hashSize) data 0 reserveIndicator)
  end.

Example lz_ex :
  let data := concat (repeat [97; 98; 99; 100] 20) ++ [1; 2; 3; 97; 98; 99; 100; 97] in
  Decompress (Compress data) (len data) = Ok data.
Proof. vm_compute. reflexivity. Qed.

Example lz_ex_long :
  let data := repeat 7 700 ++ [1; 2] ++ repeat 7 40 ++ [9] ++ repeat 7 300 in
  Decompress (Compress data) (len data) = Ok data.
Proof. vm_compute. reflexivity. Qed.
