(* ===== verification/LzxpressProofs.v ===== *)
(** * Plain LZ77: decompression undoes compression

    The compressor is a tokenizer (the match search) and an encoder of tokens.  The search
    yields tokens that describe the data whatever the hash table holds.  The encoder patches
    bytes it wrote earlier; [ext e f] says how much of an encoder's buffer the finished stream
    [f] is bound to keep, and the decoder is simulated on [f] token by token. *)

From stdpp Require Import base list numbers.
From Stdlib Require Import ZArith Lia.
From S2P Require Import Prelude Lzxpress.
Open Scope Z_scope.
Open Scope go_scope.

(** ** Tokens *)

(** A literal byte, or a match of [n] bytes starting [o]+1 bytes back. *)
Inductive token := Lit (b : Z) | Mat (n o : nat).

Definition enc_tok (e : lzEncoder) (t : token) : lzEncoder :=
  match t with
  | Lit b => enc_literal e b
  | Mat n o => enc_match e (Z.of_nat n - 3) (Z.of_nat o)
  end.

(** The tokens describe the data from a position on. *)
Inductive parses (data : bytes) : nat -> list token -> Prop :=
| parses_end : parses data (length data) []
| parses_lit u ts :
    (u < length data)%nat -> parses data (S u) ts -> parses data u (Lit (byte_at data u) :: ts)
| parses_mat u n o ts :
    3 <= Z.of_nat n <= 65538 -> (u + n <= length data)%nat -> Z.of_nat o < 8192 -> (o < u)%nat ->
    (forall l, (l < n)%nat -> byte_at data (u + l) = byte_at data (u - S o + l)) ->
    parses data (u + n) ts -> parses data u (Mat n o :: ts).

Lemma byte_at_drop b i j : byte_at (drop i b) j = byte_at b (i + j).
Proof.
  unfold byte_at. revert i. induction b as [|x b IH]; intros [|i]; simpl; try done; try (by destruct j).
Qed.

Lemma common_len_spec n a b :
  (common_len n a b <= n)%nat /\ (common_len n a b <= length a)%nat
  /\ forall l, (l < common_len n a b)%nat -> byte_at a l = byte_at b l.
Proof.
  revert a b. induction n as [|n IH]; intros [|x a] [|y b]; simpl; try (repeat split; intros; lia).
  destruct (Z.eqb_spec x y) as [->|]; [|repeat split; intros; lia].
  destruct (IH a b) as (H1 & H2 & H3). split; [lia|]. split; [lia|].
  intros [|l] Hl; [done|]. apply H3. lia.
Qed.

(** What a usable match is. *)
Definition match_at (data : bytes) (u there n : nat) : Prop :=
  (there < u)%nat /\ Z.of_nat u - Z.of_nat there <= 8192 /\ (3 <= n)%nat
  /\ forall l, (l < n)%nat -> byte_at data (u + l) = byte_at data (there + l).

Lemma lookup_loop_spec hash h data u maxLen : Forall (fun o => 0 <= o) hash ->
  forall n i best bestLen,
  match best with Some b => match_at data u b bestLen /\ (bestLen <= maxLen)%nat | None => True end ->
  match lookup_loop hash h data u maxLen i n best bestLen with
  | (Some b, l) => match_at data u b l /\ (l <= maxLen)%nat
  | (None, _) => True
  end.
Proof.
  intros Hh. induction n as [|n IH]; intros i best bestLen Hb; cbn [lookup_loop]; [by destruct best|].
  set (o := hget hash (hslot h i)).
  assert (Ho : 0 <= o).
  { unfold o, hget. destruct (nth_in_or_default (hslot h i) hash 0xffffffff) as [Hin| ->]; [|lia].
    rewrite List.Forall_forall in Hh. by apply Hh. }
  destruct (Z.leb_spec (Z.of_nat u) o); [by destruct best|].
  destruct (Z.ltb_spec window (Z.of_nat u - o)) as [|Hw]; [by apply IH|]. unfold window in Hw.
  destruct (match best with Some b => _ | None => false end); [by apply IH|].
  destruct (common_len_spec maxLen (drop u data) (drop (Z.to_nat o) data)) as (C1 & C2 & C3).
  destruct ((2 <? _)%nat && _) eqn:E; [|by apply IH]. apply andb_true_iff in E as [E _].
  apply Nat.ltb_lt in E. apply IH. split; [|done]. split; [lia|]. split; [lia|]. split; [lia|].
  intros l Hl. specialize (C3 l Hl). by rewrite !byte_at_drop in C3.
Qed.

Lemma storeMatch_nonneg hash h u :
  Forall (fun o => 0 <= o) hash -> 0 <= u -> Forall (fun o => 0 <= o) (storeMatch hash h u).
Proof.
  intros H Hu. unfold storeMatch. destruct (_ <=? _); [by apply Forall_insert|].
  destruct (probe_free _ _ _ _ _); by apply Forall_insert.
Qed.

Lemma findMatch_spec hash data u hash' r :
  len data < 2 ^ 32 -> (u < length data)%nat ->
  Forall (fun o => 0 <= o) hash -> findMatch hash data u = (hash', r) ->
  Forall (fun o => 0 <= o) hash' /\
  match r with
  | (Some there, n) => match_at data u there n /\ (u + n <= length data)%nat /\ Z.of_nat n <= 65538
  | (None, _) => True
  end.
Proof.
  intros Hd Hu Hh. unfold len in Hd. unfold findMatch.
  replace (u32 (Z.of_nat u)) with (Z.of_nat u) by (unfold u32; rewrite Z.mod_small; [done|lia]).
  rewrite Nat2Z.id. change (Z.to_nat (0xffff + 3)) with (Z.to_nat 65538).
  destruct (Nat.ltb_spec (Nat.min (length data - u) (Z.to_nat 65538)) 3); [by intros [= <- <-]|].
  intros [= <- <-]. split; [apply storeMatch_nonneg; [done|lia]|].
  set (h := threeByteHash _ _ _).
  pose proof (lookup_loop_spec hash h data u (Nat.min (length data - u) (Z.to_nat 65538)) Hh hashSearch 0 None 0 I) as H1.
  unfold lookupMatch. destruct (lookup_loop _ _ _ _ _ _ _ _ _) as [[there|] n]; [|done].
  destruct H1 as [H1 H2]. split; [done|]. assert (Z.of_nat (Z.to_nat 65538) = 65538) by done.
  destruct H1 as (? & ? & ? & _). lia.
Qed.

(** The main loop of the compressor encodes tokens that describe the data. *)
Lemma enc_loop_tokens data : len data < 2 ^ 32 -> forall fuel hash u e,
  Forall (fun o => 0 <= o) hash -> (u <= length data)%nat -> (length data - u <= fuel)%nat ->
  exists ts, enc_loop fuel hash data u e = fold_left enc_tok ts e /\ parses data u ts.
Proof.
  intros Hd. induction fuel as [|fuel IH]; intros hash u e Hh Hu Hf; cbn [enc_loop].
  - exists []. split; [done|]. replace u with (length data) by lia. constructor.
  - destruct (Nat.ltb_spec u (length data)) as [Hl|Hl].
    2: { exists []. split; [done|]. replace u with (length data) by lia. constructor. }
    destruct (findMatch hash data u) as [hash' [[there|] n]] eqn:E;
      destruct (findMatch_spec _ _ _ _ _ Hd Hl Hh E) as [Hh' Hm].
    + destruct Hm as [(M1 & M2 & M3 & M4) [M5 M6]].
      destruct (IH hash' (u + n)%nat (enc_match e (Z.of_nat n - 3) (Z.of_nat u - Z.of_nat there - 1)) Hh')
        as (ts & Et & P); [lia|lia|].
      exists (Mat n (u - there - 1) :: ts). split.
      * cbn [fold_left enc_tok]. rewrite Et. do 2 f_equal. lia.
      * constructor; [lia|lia|lia|lia| |done]. intros l Hl'. rewrite M4 by done. f_equal. lia.
    + destruct (IH hash' (S u) (enc_literal e (byte_at data u)) Hh') as (ts & Et & P); [lia|lia|].
      exists (Lit (byte_at data u) :: ts). split; [exact Et|by constructor].
Qed.

(** ** The encoder's buffer and the finished stream *)

Ltac ecbn := cbn [append_out le_out le_indic le_indBit le_indPos le_nibbleIdx] in *.

Lemma byte_at_app_l a b i : (i < length a)%nat -> byte_at (a ++ b) i = byte_at a i.
Proof. intros. unfold byte_at. by rewrite app_nth1. Qed.
Lemma byte_at_app_r a b i : (length a <= i)%nat -> byte_at (a ++ b) i = byte_at b (i - length a).
Proof. intros. unfold byte_at. by rewrite app_nth2. Qed.

Lemma length_put out i bs : (i + length bs <= length out)%nat -> length (put_bytes out i bs) = length out.
Proof. intros. unfold put_bytes. rewrite !length_app, length_take, length_drop. lia. Qed.

Lemma byte_at_take b n j : (j < n)%nat -> byte_at (take n b) j = byte_at b j.
Proof.
  unfold byte_at. revert n j. induction b as [|x b IH]; intros [|n] [|j] H; simpl; try done; try lia.
  apply IH. lia.
Qed.

Lemma byte_at_put_out out i bs j :
  (i + length bs <= length out)%nat -> ~ (i <= j < i + length bs)%nat ->
  byte_at (put_bytes out i bs) j = byte_at out j.
Proof.
  intros Hi Hj. unfold put_bytes. assert (L : length (take i out) = i) by (rewrite length_take; lia).
  destruct (Nat.lt_ge_cases j i).
  - rewrite byte_at_app_l by lia. by apply byte_at_take.
  - rewrite byte_at_app_r, byte_at_app_r by lia. rewrite byte_at_drop. f_equal. lia.
Qed.

Lemma take_drop_put out i bs :
  (i + length bs <= length out)%nat -> take (length bs) (drop i (put_bytes out i bs)) = bs.
Proof.
  intros Hi. unfold put_bytes. assert (L : length (take i out) = i) by (rewrite length_take; lia).
  rewrite <- L at 1. rewrite drop_app_length. apply take_app_length.
Qed.

(** A slice is determined by its bytes. *)
Lemma slice_eq f i bs :
  (i + length bs <= length f)%nat ->
  (forall j, (j < length bs)%nat -> byte_at f (i + j) = byte_at bs j) ->
  take (length bs) (drop i f) = bs.
Proof.
  intros Hl H. apply (nth_ext _ _ 0 0); rewrite length_take, length_drop, Nat.min_l by lia; [done|].
  intros j Hj. change (nth j (take (length bs) (drop i f)) 0) with (byte_at (take (length bs) (drop i f)) j).
  rewrite byte_at_take by done. rewrite byte_at_drop. by apply H.
Qed.

Definition in_ind (e : lzEncoder) (i : nat) : Prop := (le_indPos e <= i < le_indPos e + 4)%nat.

(** The state between two writes: a nibble waiting for its other half is not inside the
    indicator word, and holds only its low half. *)
Definition enc_wf (e : lzEncoder) : Prop :=
  (le_indPos e + 4 <= length (le_out e))%nat /\ (le_indBit e < 32)%nat
  /\ 0 <= le_indic e < 2 ^ 32
  /\ (le_nibbleIdx e <> 0%nat ->
        (le_nibbleIdx e < length (le_out e))%nat /\ ~ in_ind e (le_nibbleIdx e)
        /\ 0 <= byte_at (le_out e) (le_nibbleIdx e) < 16).

(** What the finished stream keeps of the buffer: every byte but the current indicator word
    and the waiting nibble, the low half of that nibble, and the bits pushed so far. *)
Definition ext (e : lzEncoder) (f : bytes) : Prop :=
  (length (le_out e) <= length f)%nat
  /\ (forall i, (i < length (le_out e))%nat -> ~ in_ind e i ->
        le_nibbleIdx e = 0%nat \/ i <> le_nibbleIdx e -> byte_at f i = byte_at (le_out e) i)
  /\ (le_nibbleIdx e <> 0%nat ->
        Z.land (byte_at f (le_nibbleIdx e)) 0x0f = byte_at (le_out e) (le_nibbleIdx e))
  /\ u32_at f (le_indPos e) / 2 ^ (32 - Z.of_nat (le_indBit e)) = le_indic e mod 2 ^ Z.of_nat (le_indBit e).

Lemma flush_word indic k :
  0 <= indic < 2 ^ 32 -> (k < 32)%nat ->
  let w := Z.lor (if (k =? 0)%nat then indic else u32 (Z.shiftl indic (32 - Z.of_nat k)))
             (Z.shiftr 0xffffffff (Z.of_nat k)) in
  0 <= w < 2 ^ 32 /\ w / 2 ^ (32 - Z.of_nat k) = indic mod 2 ^ Z.of_nat k.
Proof.
  intros Hi Hk w. unfold w. destruct (Nat.eqb_spec k 0) as [->|Hk0].
  - change (Z.of_nat 0) with 0. rewrite Z.shiftr_0_r, Z.mod_1_r.
    assert (E : Z.lor indic 0xffffffff = 0xffffffff).
    { change 0xffffffff with (Z.ones 32). apply Z.bits_inj'. intros j Hj.
      rewrite Z.lor_spec. destruct (Z.lt_ge_cases j 32).
      - by rewrite Z.ones_spec_low, orb_true_r by lia.
      - rewrite Z.ones_spec_high by lia. rewrite orb_false_r.
        replace indic with (indic mod 2 ^ 32) by (apply Z.mod_small; lia). by rewrite Z.mod_pow2_bits_high by lia. }
    rewrite E. split; [lia|reflexivity].
  - set (m := 32 - Z.of_nat k). assert (Hm : 0 < m < 32) by lia.
    assert (S : u32 (Z.shiftl indic m) = (indic mod 2 ^ Z.of_nat k) * 2 ^ m).
    { unfold u32. rewrite Z.shiftl_mul_pow2 by lia. replace 32 with (Z.of_nat k + m) by lia.
      rewrite Z.pow_add_r by lia. by rewrite Z.mul_mod_distr_r by lia. }
    assert (R : Z.shiftr 0xffffffff (Z.of_nat k) = 2 ^ m - 1).
    { rewrite Z.shiftr_div_pow2 by lia. replace 0xffffffff with (2 ^ Z.of_nat k * 2 ^ m - 1).
      2: { rewrite <- Z.pow_add_r by lia. replace (Z.of_nat k + m) with 32 by lia. reflexivity. }
      symmetry. apply Z.div_unique with (r := 2 ^ Z.of_nat k - 1); nia. }
    pose proof (Z.mod_pos_bound indic (2 ^ Z.of_nat k) ltac:(lia)).
    rewrite S, R, lor_add_disjoint by lia. rewrite Z.div_add_l, (Z.div_small (2 ^ m - 1)) by lia.
    split; [|lia]. assert (2 ^ 32 = 2 ^ Z.of_nat k * 2 ^ m) by (rewrite <- Z.pow_add_r by lia; f_equal; lia). nia.
Qed.

Lemma u32_at_put out i w :
  (i + 4 <= length out)%nat -> 0 <= w < 2 ^ 32 -> u32_at (put_bytes out i (le_bytes 4 w)) i = w.
Proof.
  intros Hi Hw. unfold u32_at. change 4%nat with (length (le_bytes 4 w)) at 1.
  rewrite take_drop_put by (rewrite length_le_bytes; done). by apply (le_value_le_bytes 4).
Qed.

Lemma land_low x : 0 <= x < 16 -> Z.land x 0x0f = x.
Proof. intros. change 0x0f with (2 ^ 4 - 1). rewrite land_ones_mod by lia. by apply Z.mod_small. Qed.

Lemma flush_ext e : enc_wf e -> ext e (enc_flush e).
Proof.
  intros (W1 & W2 & W3 & W4). unfold enc_flush. set (w := Z.lor _ _).
  destruct (flush_word (le_indic e) (le_indBit e) W3 W2) as [R1 R2]. fold w in R1, R2.
  assert (L : (le_indPos e + length (le_bytes 4 w) <= length (le_out e))%nat) by (rewrite length_le_bytes; lia).
  split; [by rewrite length_put|]. split; [|split].
  - intros i Hi Hn _. apply byte_at_put_out; [done|]. by rewrite length_le_bytes.
  - intros Hn. destruct (W4 Hn) as (N1 & N2 & N3).
    rewrite byte_at_put_out by (try done; by rewrite length_le_bytes). by apply land_low.
  - by rewrite u32_at_put.
Qed.

(** *** Appending *)

Lemma append_wf e bs : enc_wf e -> enc_wf (append_out e bs).
Proof.
  intros (W1 & W2 & W3 & W4). split; [cbn; rewrite length_app; lia|]. split; [done|]. split; [done|].
  intros Hn. destruct (W4 Hn) as (N1 & N2 & N3). ecbn. rewrite length_app.
  split; [lia|]. split; [done|]. by rewrite byte_at_app_l by lia.
Qed.

Lemma append_ext e bs f :
  enc_wf e -> ext (append_out e bs) f ->
  ext e f /\ take (length bs) (drop (length (le_out e)) f) = bs
  /\ (length (le_out e) + length bs <= length f)%nat.
Proof.
  intros (W1 & W2 & W3 & W4) (E1 & E2 & E3 & E4). cbn [append_out le_out le_indic le_indBit le_indPos le_nibbleIdx] in E1, E2, E3, E4. rewrite length_app in E1.
  assert (F : forall i, (i < length (le_out e))%nat -> ~ in_ind e i ->
    le_nibbleIdx e = 0%nat \/ i <> le_nibbleIdx e -> byte_at f i = byte_at (le_out e) i).
  { intros i Hi Hn Hnib. rewrite E2; [by apply byte_at_app_l|rewrite length_app; lia|done|done]. }
  split; [|split; [|lia]].
  - split; [lia|]. split; [done|]. split; [|done]. intros Hn. destruct (W4 Hn) as (N1 & _).
    rewrite E3 by done. by apply byte_at_app_l.
  - apply slice_eq; [lia|]. intros j Hj. rewrite E2; [rewrite byte_at_app_r by lia; f_equal; lia|rewrite length_app; lia| |].
    + unfold in_ind. cbn. lia.
    + destruct (Nat.eq_dec (le_nibbleIdx e) 0); [by left|right]. destruct (W4 n) as (N1 & _). lia.
Qed.

(** *** Nibbles *)

Lemma nibble_wf e v : enc_wf e -> 0 <= v < 16 -> enc_wf (writeNibble e v).
Proof.
  intros (W1 & W2 & W3 & W4) Hv. unfold writeNibble.
  destruct (Nat.eqb_spec (le_nibbleIdx e) 0) as [Hn|Hn].
  - split; [cbn; rewrite length_app; lia|]. split; [done|]. split; [done|]. ecbn. intros _.
    rewrite length_app. split; [simpl; lia|]. split; [unfold in_ind; cbn; lia|].
    rewrite byte_at_app_r by lia. by rewrite Nat.sub_diag.
  - destruct (W4 Hn) as (N1 & N2 & N3). split; [cbn; rewrite length_put; simpl; lia|]. split; [done|].
    split; [done|]. cbn. done.
Qed.

Lemma lor_nibbles a v :
  0 <= a < 16 -> 0 <= v < 16 ->
  let x := Z.lor a (u8 (Z.shiftl v 4)) in Z.land x 0x0f = a /\ Z.shiftr x 4 = v.
Proof.
  intros Ha Hv x. assert (E : x = v * 2 ^ 4 + a).
  { unfold x, u8. rewrite Z.shiftl_mul_pow2 by lia. rewrite Z.mod_small by lia.
    rewrite Z.lor_comm. by apply lor_add_disjoint. }
  rewrite E. split.
  - change 0x0f with (2 ^ 4 - 1). rewrite land_ones_mod by lia. rewrite Z.add_comm, Z.mod_add by lia. by apply Z.mod_small.
  - rewrite Z.shiftr_div_pow2, Z.div_add_l, (Z.div_small a) by lia. lia.
Qed.

(** A fresh nibble is the low half of a new byte; a second one fills the high half. *)
Lemma nibble_ext e v f :
  enc_wf e -> 0 <= v < 16 -> ext (writeNibble e v) f ->
  ext e f /\
  (if (le_nibbleIdx e =? 0)%nat
   then Z.land (byte_at f (length (le_out e))) 0x0f = v /\ (length (le_out e) + 1 <= length f)%nat
   else Z.shiftr (byte_at f (le_nibbleIdx e)) 4 = v).
Proof.
  intros (W1 & W2 & W3 & W4) Hv (E1 & E2 & E3 & E4). unfold writeNibble in *.
  destruct (Nat.eqb_spec (le_nibbleIdx e) 0) as [Hn|Hn]; cbn [le_out le_indic le_indBit le_indPos le_nibbleIdx] in E1, E2, E3, E4.
  - rewrite length_app in E1. cbn [length] in E1. split.
    + split; [lia|]. split; [|split; [done|exact E4]]. intros i Hi Hind _.
      rewrite E2; [by apply byte_at_app_l|rewrite length_app; lia|done|right; lia].
    + split; [|lia]. specialize (E3 ltac:(lia)). rewrite byte_at_app_r in E3 by lia.
      by rewrite Nat.sub_diag in E3.
  - destruct (W4 Hn) as (N1 & N2 & N3).
    set (x := Z.lor (byte_at (le_out e) (le_nibbleIdx e)) (u8 (Z.shiftl v 4))) in *.
    assert (Lp : (le_nibbleIdx e + length [x] <= length (le_out e))%nat) by (simpl; lia).
    rewrite length_put in E1, E2 by done.
    destruct (lor_nibbles _ v N3 Hv) as [B1 B2]. fold x in B1, B2.
    assert (Fx : byte_at f (le_nibbleIdx e) = x).
    { rewrite E2 by (try done; by left). pose proof (take_drop_put _ _ _ Lp) as T. cbn [length] in T.
      apply (f_equal (fun l => byte_at l 0)) in T. rewrite byte_at_take, byte_at_drop in T by lia.
      by rewrite Nat.add_0_r in T. }
    split; [|by rewrite Fx]. split; [done|]. split; [|split; [by rewrite Fx|exact E4]].
    intros i Hi Hind Hi'. rewrite E2 by (try done; by left).
    apply byte_at_put_out; [done|]. simpl. destruct Hi'; lia.
Qed.

(** *** Indicator bits *)

Lemma pushed_bit w i b k :
  (k < 32)%nat -> (b = 0 \/ b = 1) ->
  w / 2 ^ (31 - Z.of_nat k) = (2 * i + b) mod 2 ^ (Z.of_nat k + 1) ->
  w / 2 ^ (32 - Z.of_nat k) = i mod 2 ^ Z.of_nat k
  /\ Z.land (Z.shiftr w (31 - Z.of_nat k)) 1 = b.
Proof.
  intros Hk Hb E.
  assert (M : (2 * i + b) mod 2 ^ (Z.of_nat k + 1) = 2 * (i mod 2 ^ Z.of_nat k) + b).
  { rewrite Z.pow_add_r by lia. change (2 ^ 1) with 2. set (P := 2 ^ Z.of_nat k).
    assert (0 < P) by (apply Z.pow_pos_nonneg; lia).
    pose proof (Z.div_mod i P ltac:(lia)). pose proof (Z.mod_pos_bound i P ltac:(lia)).
    symmetry. apply (Z.mod_unique _ _ (i / P)); [left|]; lia. }
  rewrite M in E. split.
  - replace (32 - Z.of_nat k) with (31 - Z.of_nat k + 1) by lia.
    rewrite Z.pow_add_r, <- Z.div_div by lia. change (2 ^ 1) with 2. rewrite E.
    rewrite (Z.mul_comm 2), Z.div_add_l, (Z.div_small b 2) by lia. lia.
  - rewrite Z.shiftr_div_pow2 by lia. rewrite E. rewrite (land_ones_mod _ 1) by lia. change (2 ^ 1) with 2.
    rewrite (Z.mul_comm 2), Z.add_comm, Z.mod_add by lia. apply Z.mod_small. lia.
Qed.

Lemma push_indic i b : (b = 0 \/ b = 1) -> u32 (Z.lor (Z.shiftl i 1) b) = (2 * i + b) mod 2 ^ 32.
Proof.
  intros Hb. unfold u32. f_equal. rewrite Z.shiftl_mul_pow2 by lia.
  rewrite (lor_add_disjoint i b 1) by (simpl; lia). lia.
Qed.

Lemma pushBit_wf e b : enc_wf e -> (b = 0 \/ b = 1) -> enc_wf (pushBit e b).
Proof.
  intros (W1 & W2 & W3 & W4) Hb. unfold pushBit.
  assert (R : 0 <= u32 (Z.lor (Z.shiftl (le_indic e) 1) b) < 2 ^ 32) by (apply Z.mod_pos_bound; lia).
  set (w := u32 _) in *.
  assert (L : (le_indPos e + length (le_bytes 4 w) <= length (le_out e))%nat) by (rewrite length_le_bytes; lia).
  destruct (Nat.eqb_spec (S (le_indBit e)) 32) as [H32|H32]; unfold enc_wf, in_ind; ecbn.
  - rewrite length_app, length_put by done. split; [simpl; lia|]. split; [lia|]. split; [done|].
    intros Hn. destruct (W4 Hn) as (N1 & N2 & N3). split; [lia|]. split; [lia|].
    rewrite byte_at_app_l by (rewrite length_put by done; lia).
    by rewrite byte_at_put_out by (try done; by rewrite length_le_bytes).
  - split; [done|]. split; [lia|]. split; [done|]. exact W4.
Qed.

Lemma pushBit_ext e b f :
  enc_wf e -> (b = 0 \/ b = 1) -> ext (pushBit e b) f ->
  ext e f /\ Z.land (Z.shiftr (u32_at f (le_indPos e)) (31 - Z.of_nat (le_indBit e))) 1 = b.
Proof.
  intros (W1 & W2 & W3 & W4) Hb (E1 & E2 & E3 & E4). unfold pushBit in *.
  rewrite push_indic in * by done. set (w := (2 * le_indic e + b) mod 2 ^ 32) in *.
  assert (R : 0 <= w < 2 ^ 32) by (apply Z.mod_pos_bound; lia).
  assert (L : (le_indPos e + length (le_bytes 4 w) <= length (le_out e))%nat) by (rewrite length_le_bytes; lia).
  destruct (Nat.eqb_spec (S (le_indBit e)) 32) as [H32|H32]; unfold ext, in_ind in *; ecbn.
  - rewrite length_app, length_put in E1, E2 by done.
    assert (F : forall i, (i < length (le_out e))%nat -> le_nibbleIdx e = 0%nat \/ i <> le_nibbleIdx e ->
      byte_at f i = byte_at (put_bytes (le_out e) (le_indPos e) (le_bytes 4 w)) i).
    { intros i Hi Hn. rewrite E2 by (try done; lia). apply byte_at_app_l. rewrite length_put by done. lia. }
    assert (Wd : u32_at f (le_indPos e) = w).
    { unfold u32_at. rewrite <- (length_le_bytes 4 w), (slice_eq f _ (le_bytes 4 w)); [by apply (le_value_le_bytes 4)| |].
      - rewrite length_le_bytes. cbn [length] in E1. lia.
      - intros j Hj. rewrite length_le_bytes in Hj. rewrite F.
        + pose proof (take_drop_put (le_out e) (le_indPos e) (le_bytes 4 w) L) as T.
          rewrite <- T at 2. rewrite byte_at_take, byte_at_drop by (rewrite length_le_bytes; lia). done.
        + lia.
        + destruct (Nat.eq_dec (le_nibbleIdx e) 0); [by left|right]. destruct (W4 n) as (N1 & N2 & _).
          unfold in_ind in N2. lia. }
    destruct (pushed_bit w (le_indic e) b (le_indBit e) W2 Hb) as [P1 P2].
    { replace (31 - Z.of_nat (le_indBit e)) with 0 by lia. rewrite Z.div_1_r.
      replace (Z.of_nat (le_indBit e) + 1) with 32 by lia. done. }
    rewrite Wd. split; [|done]. split; [lia|]. split; [|split; [|done]].
    + intros i Hi Hind Hn. rewrite F by done. apply byte_at_put_out; [done|]. by rewrite length_le_bytes.
    + intros Hn. destruct (W4 Hn) as (N1 & N2 & N3). rewrite E3 by done.
      rewrite byte_at_app_l by (rewrite length_put by done; lia).
      by rewrite byte_at_put_out by (try done; by rewrite length_le_bytes).
  - destruct (pushed_bit (u32_at f (le_indPos e)) (le_indic e) b (le_indBit e) W2 Hb) as [P1 P2].
    { replace (31 - Z.of_nat (le_indBit e)) with (32 - Z.of_nat (S (le_indBit e))) by lia. rewrite E4.
      replace (Z.of_nat (le_indBit e) + 1) with (Z.of_nat (S (le_indBit e))) by lia.
      unfold w. rewrite Z.mod_mod_divide; [done|].
      exists (2 ^ (32 - Z.of_nat (S (le_indBit e)))). rewrite <- Z.pow_add_r by lia. f_equal. lia. }
    done.
Qed.

(** ** The decoder on the finished stream *)

(** The decoder at the encoder's write cursor. *)
Definition at_cursor (e : lzEncoder) (f : bytes) (w : Z) (k : nat) : lzDecoder :=
  mkDecoder f (length (le_out e)) w k (le_nibbleIdx e).

Lemma have_at e f w k n : (length (le_out e) + n <= length f)%nat -> have (at_cursor e f w k) n = true.
Proof. intros. by apply Nat.leb_le. Qed.

Lemma advance_at e f w k bs :
  advance (at_cursor e f w k) (length bs) = at_cursor (append_out e bs) f w k.
Proof. unfold advance, at_cursor. ecbn. by rewrite length_app. Qed.

Lemma advance_le e f w k n v :
  advance (at_cursor e f w k) n = at_cursor (append_out e (le_bytes n v)) f w k.
Proof. rewrite <- advance_at. by rewrite length_le_bytes. Qed.

Lemma append_app e a b : append_out e (a ++ b) = append_out (append_out e a) b.
Proof. unfold append_out. ecbn. by rewrite (assoc_L (++)). Qed.

Lemma slice_byte f i b : take 1 (drop i f) = [b] -> byte_at f i = b.
Proof.
  intros H. apply (f_equal (fun l => byte_at l 0)) in H.
  rewrite byte_at_take, byte_at_drop, Nat.add_0_r in H by lia. exact H.
Qed.

Lemma literal_sim e b f w k out outSize :
  enc_wf e -> ext (append_out e [b]) f -> len out < outSize ->
  dec_literal (at_cursor e f w k) out outSize = Ok (at_cursor (append_out e [b]) f w k, out ++ [b]).
Proof.
  intros W X Ho. destruct (append_ext _ _ _ W X) as (_ & S1 & L1). cbn [length] in L1, S1.
  unfold dec_literal. rewrite have_at by done. cbn [negb orb]. rewrite (proj2 (Z.leb_gt _ _)) by lia.
  rewrite <- (advance_at e f w k [b]). cbn [length].
  by replace (byte_at _ _) with b by (symmetry; exact (slice_byte _ _ _ S1)).
Qed.

Lemma nibble_sim e v f w k :
  enc_wf e -> 0 <= v < 16 -> ext (writeNibble e v) f ->
  lengthNibble (at_cursor e f w k) = Ok (at_cursor (writeNibble e v) f w k, v).
Proof.
  intros W Hv X. destruct (nibble_ext _ _ _ W Hv X) as (_ & N). destruct W as (W1 & W2 & W3 & W4).
  unfold lengthNibble, writeNibble in *. cbn [at_cursor ld_nibbleIdx ld_in ld_inIdx ld_indicator ld_indBit].
  destruct (Nat.eqb_spec (le_nibbleIdx e) 0) as [Hn|Hn]; cbn [negb].
  - destruct N as [N1 N2]. rewrite have_at by done. cbn [negb]. rewrite N1.
    unfold at_cursor. ecbn. by rewrite length_app.
  - rewrite N. unfold at_cursor. ecbn. rewrite length_put; [done|]. destruct (W4 Hn). simpl. lia.
Qed.

Lemma longLength_sim e v f w k :
  enc_wf e -> 22 <= v < 2 ^ 32 -> ext (writeLongLength e v) f ->
  longLength (at_cursor e f w k) = Ok (at_cursor (writeLongLength e v) f w k, v - 22).
Proof.
  intros W Hv X. unfold writeLongLength, longLength in *.
  destruct (Z.ltb_spec v (2 ^ 16)) as [H16|H16].
  - destruct (append_ext _ _ _ W X) as (_ & S1 & L1). rewrite length_le_bytes in S1, L1.
    rewrite have_at, (advance_le _ _ _ _ 2 v) by done. cbn [negb]. unfold u16_at.
    cbn [at_cursor ld_in ld_inIdx]. rewrite S1, (le_value_le_bytes 2) by lia.
    by rewrite (proj2 (Z.eqb_neq v 0)), (proj2 (Z.ltb_ge v (15 + 7))) by lia.
  - rewrite append_app in *.
    destruct (append_ext _ _ _ (append_wf _ _ W) X) as (X1 & S2 & L2).
    destruct (append_ext _ _ _ W X1) as (_ & S1 & L1). rewrite length_le_bytes in S1, L1, S2, L2.
    rewrite have_at, (advance_le _ _ _ _ 2 0) by done. cbn [negb].
    rewrite have_at, (advance_le _ _ _ _ 4 v) by done. cbn [negb]. unfold u16_at, u32_at.
    cbn [at_cursor ld_in ld_inIdx]. rewrite S1, S2, (le_value_le_bytes 4) by lia.
    change (le_value (le_bytes 2 0) =? 0) with true. cbv iota.
    by rewrite (proj2 (Z.ltb_ge v (15 + 7))) by lia.
Qed.

Lemma longLength_wf e v : enc_wf e -> enc_wf (writeLongLength e v).
Proof. intros W. unfold writeLongLength. destruct (_ <? _); by apply append_wf. Qed.

Lemma longLength_ext e v f : enc_wf e -> ext (writeLongLength e v) f -> ext e f.
Proof. intros W X. unfold writeLongLength in X. destruct (_ <? _); by apply append_ext in X as [? _]. Qed.

Lemma escape_sim e m f w k :
  enc_wf e -> 0 <= m < 2 ^ 32 - 22 -> ext (writeLengthEscape e m) f ->
  extendedLength (at_cursor e f w k) = Ok (at_cursor (writeLengthEscape e m) f w k, m) /\ ext e f.
Proof.
  intros W Hm X. unfold writeLengthEscape in *.
  set (e1 := writeNibble e (Z.min m 15)) in *.
  assert (W1 : enc_wf e1) by (apply nibble_wf; [done|lia]).
  set (e2 := append_out e1 [Z.min (m - 15) 255]) in *.
  assert (X1 : ext e1 f).
  { destruct (m <? 15); [done|]. destruct (m - 15 <? 255); [by apply append_ext in X as [? _]|].
    apply longLength_ext in X; [|by apply append_wf]. by apply append_ext in X as [? _]. }
  unfold extendedLength. rewrite (nibble_sim e (Z.min m 15)) by (try done; lia). fold e1.
  split; [|apply nibble_ext in X1 as [? _]; [done|done|lia]].
  cbn [rbind]. destruct (Z.ltb_spec m 15) as [H15|H15].
  { rewrite (proj2 (Z.eqb_neq (Z.min m 15) 15)) by lia. cbn [negb]. by rewrite Z.min_l by lia. }
  rewrite (proj2 (Z.eqb_eq (Z.min m 15) 15)) by lia. cbn [negb].
  assert (X2 : ext e2 f).
  { destruct (m - 15 <? 255); [done|]. apply longLength_ext in X; [done|by apply append_wf]. }
  destruct (append_ext _ _ _ W1 X2) as (_ & S1 & L1). cbn [length] in S1, L1. apply slice_byte in S1.
  rewrite have_at by done. cbn [negb]. rewrite (advance_at e1 f w k [Z.min (m - 15) 255] : advance _ 1 = _).
  fold e2. cbn [at_cursor ld_in ld_inIdx]. rewrite S1.
  destruct (Z.ltb_spec (m - 15) 255).
  - rewrite (proj2 (Z.eqb_neq (Z.min (m - 15) 255) 255)) by lia. unfold u32. rewrite Z.mod_small by lia. do 2 f_equal. lia.
  - rewrite (proj2 (Z.eqb_eq (Z.min (m - 15) 255) 255)) by lia.
    fold (at_cursor e2 f w k). rewrite longLength_sim with (v := m - 15 + 7 + 15) by (try apply append_wf; done || lia).
    cbn [rbind fst snd]. unfold u32. rewrite Z.mod_small by lia. do 2 f_equal. lia.
Qed.

Lemma escape_wf e m : enc_wf e -> 0 <= m -> enc_wf (writeLengthEscape e m).
Proof.
  intros W Hm. unfold writeLengthEscape. assert (enc_wf (writeNibble e (Z.min m 15))) by (apply nibble_wf; [done|lia]).
  destruct (_ <? 15); [done|]. destruct (_ <? 255); [by apply append_wf|]. by apply longLength_wf, append_wf.
Qed.

(** A match without its indicator bit *)
Definition match_body (e : lzEncoder) (matchLen offset : Z) : lzEncoder :=
  let e := append_out e (le_bytes 2 (Z.lor (Z.shiftl offset 3) (Z.min matchLen 7))) in
  if 7 <=? matchLen then writeLengthEscape e (matchLen - 7) else e.

Lemma copy_sim data o : forall n u fuel,
  (n <= fuel)%nat -> (u + n <= length data)%nat -> (o < u)%nat ->
  (forall l, (l < n)%nat -> byte_at data (u + l) = byte_at data (u - S o + l)) ->
  copy_match fuel (Z.of_nat n) (Z.of_nat o + 1) (take u data) (len data) = Ok (take (u + n) data).
Proof.
  induction n as [|n IH]; intros u fuel Hf Hl Ho Hm.
  - rewrite Nat.add_0_r. by destruct fuel.
  - destruct fuel as [|fuel]; [lia|]. cbn [copy_match]. rewrite (proj2 (Z.eqb_neq _ 0)) by lia.
    assert (L : len (take u data) = Z.of_nat u) by (unfold len; rewrite length_take; lia).
    rewrite L. unfold len at 1. rewrite (proj2 (Z.ltb_ge _ _)), (proj2 (Z.leb_gt _ _)) by lia. cbn [orb].
    replace (Z.of_nat (S n) - 1) with (Z.of_nat n) by lia.
    replace (byte_at (take u data) _) with (byte_at data u).
    2: { rewrite byte_at_take by lia. specialize (Hm 0%nat ltac:(lia)).
         rewrite Nat.add_0_r in Hm. rewrite Hm. f_equal. lia. }
    replace (take u data ++ [byte_at data u]) with (take (S u) data).
    2: { apply take_S_r. by destruct (nth_lookup_or_length data u 0); [|lia]. }
    rewrite IH; [do 2 f_equal; lia|lia|lia|lia|]. intros l Hl'. specialize (Hm (S l) ltac:(lia)).
    rewrite <- Nat.add_succ_comm in Hm. rewrite Hm. f_equal. lia.
Qed.

Lemma meta_parts o m : 0 <= o < 8192 -> 0 <= m < 8 ->
  let w := Z.lor (Z.shiftl o 3) m in 0 <= w < 2 ^ 16 /\ Z.shiftr w 3 = o /\ Z.land w 7 = m.
Proof.
  intros Ho Hm w. assert (E : w = o * 2 ^ 3 + m).
  { unfold w. rewrite Z.shiftl_mul_pow2 by lia. by apply lor_add_disjoint. }
  rewrite E. split; [lia|]. split.
  - rewrite Z.shiftr_div_pow2, Z.div_add_l, (Z.div_small m) by lia. lia.
  - rewrite (land_ones_mod _ 3) by lia. rewrite Z.add_comm, Z.mod_add by lia. by apply Z.mod_small.
Qed.

Lemma match_body_wf e n o : enc_wf e -> 0 <= n -> enc_wf (match_body e n o).
Proof.
  intros W Hn. unfold match_body. destruct (Z.leb_spec 7 n); [apply escape_wf; [|lia]|]; by apply append_wf.
Qed.

Lemma match_body_ext e n o f : enc_wf e -> 0 <= n < 2 ^ 17 -> ext (match_body e n o) f -> ext e f.
Proof.
  intros W Hn X. unfold match_body in X. destruct (Z.leb_spec 7 n).
  - apply (escape_sim _ _ _ 0 0) in X as [_ X]; [|by apply append_wf|lia]. by apply append_ext in X as [? _].
  - by apply append_ext in X as [? _].
Qed.

Lemma match_sim e data u n o f w k :
  enc_wf e -> 3 <= Z.of_nat n <= 65538 -> (u + n <= length data)%nat -> Z.of_nat o < 8192 -> (o < u)%nat ->
  (forall l, (l < n)%nat -> byte_at data (u + l) = byte_at data (u - S o + l)) ->
  ext (match_body e (Z.of_nat n - 3) (Z.of_nat o)) f ->
  backReference (at_cursor e f w k) (take u data) (len data)
  = Ok (at_cursor (match_body e (Z.of_nat n - 3) (Z.of_nat o)) f w k, take (u + n) data).
Proof.
  intros W Hn Hl Ho Hou Hm X. set (m := Z.of_nat n - 3) in *. unfold match_body in *.
  set (meta := Z.lor (Z.shiftl (Z.of_nat o) 3) (Z.min m 7)) in *.
  destruct (meta_parts (Z.of_nat o) (Z.min m 7)) as (M1 & M2 & M3); [lia|lia|]. fold meta in M1, M2, M3.
  assert (W1 : enc_wf (append_out e (le_bytes 2 meta))) by by apply append_wf.
  assert (X1 : ext (append_out e (le_bytes 2 meta)) f).
  { destruct (Z.leb_spec 7 m); [|done]. eapply (escape_sim _ _ _ 0 0); [done| |exact X]. lia. }
  destruct (append_ext _ _ _ W X1) as (_ & S1 & L1). rewrite length_le_bytes in S1, L1.
  unfold backReference. rewrite have_at, (advance_le _ _ _ _ 2 meta) by done. cbn [negb].
  unfold u16_at. cbn [at_cursor ld_in ld_inIdx]. rewrite S1, (le_value_le_bytes 2), M2, M3 by lia.
  fold (at_cursor (append_out e (le_bytes 2 meta)) f w k).
  assert (C : copy_match (S (Z.to_nat (len data))) (Z.of_nat n) (Z.of_nat o + 1) (take u data) (len data)
              = Ok (take (u + n) data)) by (apply copy_sim; try done; unfold len; lia).
  destruct (Z.leb_spec 7 m).
  - rewrite (proj2 (Z.eqb_eq (Z.min m 7) 7)) by lia.
    destruct (escape_sim _ (m - 7) f w k W1 ltac:(lia) X) as [-> _]. cbn [rbind fst snd].
    replace (u32 (u32 (m - 7 + 7) + 3)) with (Z.of_nat n) by (unfold u32; rewrite (Z.mod_small (m - 7 + 7)), Z.mod_small; lia).
    by rewrite C.
  - rewrite (proj2 (Z.eqb_neq (Z.min m 7) 7)) by lia. cbn [rbind fst snd].
    replace (u32 (Z.min m 7 + 3)) with (Z.of_nat n) by (unfold u32; rewrite !Z.mod_small; lia).
    by rewrite C.
Qed.

(** *** Between two tokens *)

(** The decoder before a token: it has the bits of the current word that the encoder has not
    pushed yet, or stands before a word of which none was pushed. *)
Definition synced (d : lzDecoder) (e : lzEncoder) (f : bytes) : Prop :=
  ld_in d = f /\ ld_nibbleIdx d = le_nibbleIdx e /\
  if (le_indBit e =? 0)%nat
  then ld_indBit d = 0%nat /\ ld_inIdx d = le_indPos e /\ (le_indPos e + 4)%nat = length (le_out e)
  else ld_indBit d = (32 - le_indBit e)%nat /\ ld_indicator d = u32_at f (le_indPos e)
       /\ ld_inIdx d = length (le_out e).

Lemma nextBit_sim d e f :
  enc_wf e -> synced d e f -> (length (le_out e) < length f)%nat ->
  nextBit d = Ok (at_cursor e f (u32_at f (le_indPos e)) (31 - le_indBit e),
                  Some (Z.land (Z.shiftr (u32_at f (le_indPos e)) (31 - Z.of_nat (le_indBit e))) 1)).
Proof.
  intros (W1 & W2 & _) (S1 & S2 & S3) Hl. destruct d as [din idx ind bit nib]. unfold nextBit, at_cursor, have.
  cbn [ld_in ld_inIdx ld_indicator ld_indBit ld_nibbleIdx] in *. subst din nib.
  destruct (Nat.eqb_spec (le_indBit e) 0) as [H0|H0].
  - destruct S3 as (-> & -> & Hp). cbn [Nat.eqb]. rewrite (proj2 (Nat.leb_le _ _)) by lia. cbn [negb].
    rewrite (proj2 (Nat.eqb_neq _ _)) by lia. rewrite Hp, H0. reflexivity.
  - destruct S3 as (-> & -> & ->). rewrite (proj2 (Nat.eqb_neq _ _)) by lia.
    replace (pred (32 - le_indBit e)) with (31 - le_indBit e)%nat by lia.
    by replace (Z.of_nat (31 - le_indBit e)) with (31 - Z.of_nat (le_indBit e)) by lia.
Qed.

Lemma pushBit_synced e b f :
  enc_wf e -> synced (at_cursor e f (u32_at f (le_indPos e)) (31 - le_indBit e)) (pushBit e b) f.
Proof.
  intros (W1 & W2 & _). unfold synced, pushBit, at_cursor.
  destruct (Nat.eqb_spec (S (le_indBit e)) 32) as [H32|H32]; ecbn;
    cbn [ld_in ld_inIdx ld_indicator ld_indBit ld_nibbleIdx].
  - cbn [Nat.eqb]. repeat split; [lia|]. rewrite length_app, length_put; [reflexivity|by rewrite length_le_bytes].
  - cbn [Nat.eqb]. repeat split; lia.
Qed.

Lemma escape_ind e m :
  le_indBit (writeLengthEscape e m) = le_indBit e /\ le_indPos (writeLengthEscape e m) = le_indPos e.
Proof.
  unfold writeLengthEscape, writeLongLength, writeNibble.
  destruct (_ =? 0)%nat, (_ <? 15); try done; destruct (_ <? 255); try done; by destruct (_ <? _).
Qed.

(** A token is a body, which leaves the indicator alone, and its bit. *)
Definition tok_body (e : lzEncoder) (t : token) : lzEncoder :=
  match t with
  | Lit b => append_out e [b]
  | Mat n o => match_body e (Z.of_nat n - 3) (Z.of_nat o)
  end.
Definition tok_bit (t : token) : Z := match t with Lit _ => 0 | Mat _ _ => 1 end.
Definition tok_ok (t : token) : Prop := match t with Lit _ => True | Mat n _ => 3 <= Z.of_nat n <= 65538 end.

Lemma enc_tok_body e t : enc_tok e t = pushBit (tok_body e t) (tok_bit t).
Proof. by destruct t. Qed.

Lemma tok_bit_01 t : tok_bit t = 0 \/ tok_bit t = 1.
Proof. destruct t; auto. Qed.

Lemma tok_body_ind e t : le_indBit (tok_body e t) = le_indBit e /\ le_indPos (tok_body e t) = le_indPos e.
Proof.
  destruct t as [b|n o]; [done|]. cbn [tok_body]. unfold match_body.
  destruct (_ <=? _); [|done]. apply (escape_ind (append_out e _)).
Qed.

Lemma tok_body_wf e t : enc_wf e -> tok_ok t -> enc_wf (tok_body e t).
Proof. intros W Ht. destruct t; [by apply append_wf|]. apply match_body_wf; [done|]. cbn in Ht. lia. Qed.

Lemma tok_body_ext e t f : enc_wf e -> tok_ok t -> ext (tok_body e t) f -> ext e f.
Proof.
  intros W Ht X. destruct t; [by apply append_ext in X as [? _]|]. cbn in Ht.
  eapply match_body_ext; [done| |exact X]. lia.
Qed.

Lemma tok_wf e t : enc_wf e -> tok_ok t -> enc_wf (enc_tok e t).
Proof. intros. rewrite enc_tok_body. apply pushBit_wf; [by apply tok_body_wf|apply tok_bit_01]. Qed.

Lemma tok_ext e t f : enc_wf e -> tok_ok t -> ext (enc_tok e t) f -> ext (tok_body e t) f /\ ext e f.
Proof.
  intros W Ht X. rewrite enc_tok_body in X.
  apply pushBit_ext in X as [X _]; [|by apply tok_body_wf|apply tok_bit_01].
  split; [done|]. by apply tok_body_ext in X.
Qed.

Lemma toks_wf ts e : enc_wf e -> Forall tok_ok ts -> enc_wf (fold_left enc_tok ts e).
Proof. intros W H. revert e W. induction H; intros e W; cbn [fold_left]; auto using tok_wf. Qed.

Lemma toks_ext ts e f : enc_wf e -> Forall tok_ok ts -> ext (fold_left enc_tok ts e) f -> ext e f.
Proof.
  intros W H. revert e W. induction H as [|t ts Ht _ IH]; intros e W X; [done|]. cbn [fold_left] in X.
  apply IH in X; [|by apply tok_wf]. by apply tok_ext in X as [_ X].
Qed.

Lemma parses_ok data u ts : parses data u ts -> Forall tok_ok ts.
Proof. induction 1; constructor; done. Qed.

(** *** Growth *)

Lemma pushBit_length e b : enc_wf e ->
  (length (le_out e) <= length (le_out (pushBit e b)) <= length (le_out e) + 4)%nat.
Proof.
  intros (W1 & _). unfold pushBit. destruct (_ =? 32)%nat; ecbn; [|lia].
  rewrite length_app, length_put by (rewrite length_le_bytes; lia). simpl. lia.
Qed.

Lemma pushBit_potential e b : enc_wf e ->
  (8 * length (le_out (pushBit e b)) + le_indBit (pushBit e b) = 8 * length (le_out e) + le_indBit e + 1)%nat.
Proof.
  intros (W1 & _). unfold pushBit. destruct (Nat.eqb_spec (S (le_indBit e)) 32); ecbn; [|lia].
  rewrite length_app, length_put by (rewrite length_le_bytes; lia). simpl length. lia.
Qed.

Lemma nibble_length e v : enc_wf e ->
  (length (le_out e) <= length (le_out (writeNibble e v)) <= length (le_out e) + 1)%nat.
Proof.
  intros (_ & _ & _ & W4). unfold writeNibble. destruct (Nat.eqb_spec (le_nibbleIdx e) 0) as [|Hn]; ecbn.
  - rewrite length_app. simpl. lia.
  - rewrite length_put; [lia|]. destruct (W4 Hn). simpl. lia.
Qed.

Lemma escape_length e m : enc_wf e -> 0 <= m ->
  (length (le_out e) <= length (le_out (writeLengthEscape e m)))%nat
  /\ len (le_out (writeLengthEscape e m)) <= len (le_out e) + 3 + m.
Proof.
  intros W Hm. unfold writeLengthEscape, writeLongLength, len. pose proof (nibble_length e (Z.min m 15) W) as N.
  set (e1 := writeNibble e _) in *.
  destruct (Z.ltb_spec m 15); [lia|]. destruct (Z.ltb_spec (m - 15) 255); [|destruct (_ <? _)]; ecbn;
    rewrite ?length_app, ?length_le_bytes; cbn [length]; lia.
Qed.

(** How many bytes of data a token stands for *)
Definition tok_len (t : token) : nat := match t with Lit _ => 1 | Mat n _ => n end.

Lemma tok_body_length e t : enc_wf e -> tok_ok t ->
  (length (le_out e) < length (le_out (tok_body e t)) <= length (le_out e) + tok_len t)%nat.
Proof.
  intros W Ht. destruct t as [b|n o]; cbn [tok_body tok_len].
  - ecbn. rewrite length_app. simpl. lia.
  - unfold match_body. set (e1 := append_out e _). assert (W1 : enc_wf e1) by by apply append_wf.
    assert (L1 : length (le_out e1) = (length (le_out e) + 2)%nat).
    { unfold e1. ecbn. by rewrite length_app, length_le_bytes. }
    cbn in Ht. destruct (Z.leb_spec 7 (Z.of_nat n - 3)); [|lia].
    destruct (escape_length e1 (Z.of_nat n - 3 - 7) W1); [lia|]. unfold len in *. lia.
Qed.

Lemma tok_length e t : enc_wf e -> tok_ok t -> (length (le_out e) < length (le_out (enc_tok e t)))%nat.
Proof.
  intros W Ht. rewrite enc_tok_body. pose proof (tok_body_length e t W Ht).
  pose proof (pushBit_length _ (tok_bit t) (tok_body_wf e t W Ht)). lia.
Qed.

Lemma toks_length ts e : enc_wf e -> Forall tok_ok ts ->
  (length (le_out e) + length ts <= length (le_out (fold_left enc_tok ts e)))%nat.
Proof.
  intros W H. revert e W. induction H as [|t ts Ht _ IH]; intros e W; cbn [fold_left length]; [lia|].
  pose proof (tok_length e t W Ht). specialize (IH (enc_tok e t) (tok_wf e t W Ht)). lia.
Qed.

(** ** The decoder follows the encoder *)

Lemma tok_sim data u t ts e f w k :
  parses data u (t :: ts) -> enc_wf e -> ext (tok_body e t) f ->
  (if tok_bit t =? 0 then dec_literal (at_cursor e f w k) (take u data) (len data)
   else backReference (at_cursor e f w k) (take u data) (len data))
  = Ok (at_cursor (tok_body e t) f w k, take (u + tok_len t) data)
  /\ parses data (u + tok_len t) ts /\ (u + tok_len t <= length data)%nat.
Proof.
  intros P W X. inversion P as [|? ? Hu P'|? n o ? Hn Hl Ho Hou Hm P']; subst; cbn [tok_bit tok_len tok_body Z.eqb].
  - rewrite Nat.add_1_r. split; [|split; [done|lia]].
    rewrite (literal_sim e (byte_at data u)) by (try done; unfold len; rewrite length_take; lia).
    do 2 f_equal. symmetry. apply take_S_r. by destruct (nth_lookup_or_length data u 0); [|lia].
  - split; [|done]. by apply match_sim.
Qed.

Lemma dec_loop_sim data : forall ts u e d fuel,
  parses data u ts -> (u < length data)%nat -> enc_wf e -> (length ts <= fuel)%nat ->
  synced d e (enc_flush (fold_left enc_tok ts e)) ->
  dec_loop fuel d (take u data) (len data) = Ok data.
Proof.
  induction ts as [|t ts IH]; intros u e d fuel P Hu W Hf Y; [inversion P; subst; lia|].
  destruct fuel as [|fuel]; [simpl in Hf; lia|]. cbn [dec_loop fold_left] in *.
  set (f := enc_flush _) in *.
  assert (K : Forall tok_ok (t :: ts)) by by eapply parses_ok. apply Forall_cons_1 in K as [Kt Kts].
  assert (Wt : enc_wf (enc_tok e t)) by by apply tok_wf.
  assert (X : ext (enc_tok e t) f) by (eapply toks_ext; [done|done|]; by apply flush_ext, toks_wf).
  destruct (tok_ext _ _ _ W Kt X) as [Xb _]. pose proof X as (Lf & _).
  pose proof (tok_length e t W Kt).
  rewrite (nextBit_sim d e f) by (try done; lia). cbn [rbind].
  assert (B : Z.land (Z.shiftr (u32_at f (le_indPos e)) (31 - Z.of_nat (le_indBit e))) 1 = tok_bit t).
  { rewrite enc_tok_body in X. apply pushBit_ext in X as [_ X]; [|by apply tok_body_wf|apply tok_bit_01].
    destruct (tok_body_ind e t) as [I1 I2]. by rewrite I1, I2 in X. }
  rewrite B. destruct (tok_sim data u t ts e f (u32_at f (le_indPos e)) (31 - le_indBit e) P W Xb) as (-> & P' & Hl).
  cbn [rbind]. set (u' := (u + tok_len t)%nat) in *.
  assert (Lt : len (take u' data) = Z.of_nat u') by (unfold len; rewrite length_take; lia).
  rewrite Lt. destruct (Z.leb_spec (len data) (Z.of_nat u')) as [He|He]; cbn [orb].
  { f_equal. apply take_ge. unfold len in He. lia. }
  cbn [at_cursor ld_in ld_inIdx]. unfold len in He. destruct ts as [|t' ts']; [inversion P'; lia|].
  assert (L2 : (length (le_out (enc_tok (enc_tok e t) t')) <= length f)%nat).
  { apply Forall_cons_1 in Kts as [Kt' Kts']. eapply (toks_ext ts'); [by apply tok_wf|done|].
    apply flush_ext, toks_wf; [by apply tok_wf|done]. }
  pose proof (tok_length (enc_tok e t) t' Wt (proj1 (Forall_cons_1 _ _ _ Kts))).
  pose proof (tok_body_length e t W Kt). pose proof (pushBit_length _ (tok_bit t) (tok_body_wf e t W Kt)) as PL.
  rewrite <- enc_tok_body in PL. rewrite (proj2 (Nat.leb_gt _ _)) by lia.
  apply (IH u' (enc_tok e t)); [done|lia|done|simpl in Hf |- *; lia|]. fold f.
  destruct (tok_body_ind e t) as [<- <-]. rewrite enc_tok_body. by apply pushBit_synced, tok_body_wf.
Qed.

(** ** The theorems *)

Lemma hash_init : Forall (fun o => 0 <= o) (repeat 0xffffffff hashSize).
Proof. apply List.Forall_forall. intros o Ho. apply repeat_spec in Ho. lia. Qed.

Lemma reserve_wf : enc_wf reserveIndicator.
Proof. split; [cbn; lia|]. split; [cbn; lia|]. split; [cbn; lia|]. cbn. congruence. Qed.

(** A compressed stream is the encoding of tokens that describe the data. *)
Lemma compress_tokens data : data <> [] -> len data < 2 ^ 32 ->
  exists ts, Compress data = enc_flush (fold_left enc_tok ts reserveIndicator) /\ parses data 0 ts.
Proof.
  intros Hd Hl. destruct (enc_loop_tokens data Hl (length data) (repeat 0xffffffff hashSize) 0 reserveIndicator)
    as (ts & E & P); [apply hash_init|lia|lia|].
  exists ts. split; [|done]. unfold Compress. destruct data; [done|]. by rewrite E.
Qed.

Lemma length_flush e : enc_wf e -> length (enc_flush e) = length (le_out e).
Proof. intros (W1 & _). unfold enc_flush. rewrite length_put; [done|]. by rewrite length_le_bytes. Qed.

Lemma compress_nonempty data : data <> [] -> len data < 2 ^ 32 -> 0 < len (Compress data).
Proof.
  intros Hd Hl. destruct (compress_tokens data Hd Hl) as (ts & -> & P). assert (K := parses_ok _ _ _ P).
  unfold len. rewrite length_flush by (by apply toks_wf; [apply reserve_wf|]).
  pose proof (toks_length ts _ reserve_wf K) as L. cbn [reserveIndicator le_out length] in L. lia.
Qed.

Lemma compress_decompress data : len data < 2 ^ 32 -> Decompress (Compress data) (len data) = Ok data.
Proof.
  intros Hl. destruct (decide (data = [])) as [->|Hd]; [done|].
  destruct (compress_tokens data Hd Hl) as (ts & E & P).
  assert (K := parses_ok _ _ _ P). pose proof (toks_length ts _ reserve_wf K) as L.
  set (f := Compress data) in *.
  assert (Lf : length f = length (le_out (fold_left enc_tok ts reserveIndicator))).
  { rewrite E. apply length_flush, toks_wf; [apply reserve_wf|done]. }
  unfold Decompress. destruct f as [|b f'] eqn:Ef; [cbn in L, Lf; lia|]. rewrite <- Ef in *. clear Ef.
  apply (dec_loop_sim data ts 0 reserveIndicator); [done| |apply reserve_wf|lia|].
  - destruct data; [done|]. simpl. lia.
  - rewrite <- E. by repeat split.
Qed.

(** C35. Decompressing a compressed buffer with its original size gives the buffer back,
    whatever the match search chose. *)
Theorem compress_round_trip data : len data < 2 ^ 32 -> Decompress (Compress data) (len data) = Ok data.
Proof. intros Hl. by apply compress_decompress. Qed.

Lemma compress_round_trip_witness :
  Decompress (Compress (concat (repeat [1; 2; 3; 4; 5] 7))) 35 = Ok (concat (repeat [1; 2; 3; 4; 5] 7)).
Proof. apply (compress_round_trip (concat (repeat [1; 2; 3; 4; 5] 7))). reflexivity. Defined.

Lemma toks_potential data u ts e :
  parses data u ts -> enc_wf e ->
  8 * len (le_out (fold_left enc_tok ts e)) <= 8 * len (le_out e) + Z.of_nat (le_indBit e) + 9 * (len data - Z.of_nat u).
Proof.
  intros P W. assert (K := parses_ok _ _ _ P). revert e W. unfold len.
  induction P as [|u ts Hu P IH|u n o ts Hn Hl Ho Hou Hm P IH]; intros e W; cbn [fold_left]; [lia| |];
    apply Forall_cons_1 in K as [Kt Kts]; specialize (IH Kts _ (tok_wf e _ W Kt)); revert IH;
    rewrite enc_tok_body; pose proof (tok_body_length e _ W Kt) as B;
    match goal with |- context [pushBit (tok_body e ?t) ?b] =>
      pose proof (pushBit_potential (tok_body e t) b (tok_body_wf e t W Kt)) as Q;
      destruct (tok_body_ind e t) as [I1 _] end; rewrite I1 in Q; cbn [tok_len] in B; lia.
Qed.

(** The stream is at most an eighth longer than the data, plus the first indicator word; so
    the [2*len+64] bytes the compressor allocates are never exceeded. *)
Theorem compress_expansion data : len data < 2 ^ 32 ->
  8 * len (Compress data) <= 9 * len data + 32 /\ len (Compress data) <= 2 * len data + 64.
Proof.
  intros Hl. assert (E : 8 * len (Compress data) <= 9 * len data + 32); [|unfold len in *; lia].
  destruct (decide (data = [])) as [->|Hd]; [done|].
  destruct (compress_tokens data Hd Hl) as (ts & -> & P).
  unfold len at 1. rewrite length_flush by (apply toks_wf; [apply reserve_wf|by eapply parses_ok]).
  pose proof (toks_potential data 0 ts _ P reserve_wf) as H.
  change (len (le_out reserveIndicator)) with 4 in H. change (le_indBit reserveIndicator) with 0%nat in H.
  unfold len in *. lia.
Qed.

Lemma compress_expansion_witness : 8 * len (Compress (repeat 0 40)) <= 9 * 40 + 32.
Proof. apply (compress_expansion (repeat 0 40)). reflexivity. Defined.

(** *** Malformed input *)

Definition lz_bounded {A} (outSize : Z) (size : A -> Z) (r : result lz_error A) : Prop :=
  match r with Ok a => size a <= outSize | Err e => e = ErrCorrupt end.

Lemma copy_match_bounded outSize offset : forall fuel length out,
  len out <= outSize -> outSize - len out < Z.of_nat fuel -> lz_bounded outSize len (copy_match fuel length offset out outSize).
Proof.
  induction fuel as [|fuel IH]; intros length out Ho Hf; [lia|]. cbn [copy_match].
  destruct (length =? 0); [done|]. destruct (_ || _) eqn:C; [done|]. apply orb_false_iff in C as [_ C].
  apply Z.leb_gt in C. apply IH; unfold len in *; rewrite length_app; cbn [List.length]; lia.
Qed.

(** A step that fails with [ErrCorrupt] or keeps the input and moves forward by [k] bytes. *)
Definition moves {A} (k : nat) (d : lzDecoder) (r : result lz_error (lzDecoder * A)) : Prop :=
  match r with
  | Ok (d', _) => ld_in d' = ld_in d /\ (ld_inIdx d + k <= ld_inIdx d')%nat
  | Err e => e = ErrCorrupt
  end.

Lemma nextBit_moves d : moves 0 d (nextBit d).
Proof.
  unfold nextBit, moves. destruct (_ =? 0)%nat; [|split; [done|cbn; lia]].
  destruct (negb _); [done|]. cbn. destruct (_ =? _)%nat; cbn; (split; [done|lia]).
Qed.

Lemma lengthNibble_moves d : moves 0 d (lengthNibble d).
Proof.
  unfold lengthNibble. destruct (negb _); cbn; [by split; [|lia]|]. destruct (negb _); cbn; [done|by split; [|lia]].
Qed.

Lemma longLength_moves d : moves 0 d (longLength d).
Proof.
  unfold longLength. destruct (negb _); [done|]. destruct (_ =? 0).
  - destruct (negb _); [done|]. destruct (_ <? _); cbn; [done|split; [done|lia]].
  - destruct (_ <? _); cbn; [done|split; [done|lia]].
Qed.

Lemma extendedLength_moves d : moves 0 d (extendedLength d).
Proof.
  unfold extendedLength. pose proof (lengthNibble_moves d) as M. destruct (lengthNibble d) as [[d1 n]|e]; [|done].
  cbn in *. destruct M as [M1 M2]. destruct (negb _); [cbn; split; [done|lia]|]. destruct (negb _); [done|].
  destruct (_ =? 255); [|cbn; split; [done|lia]].
  pose proof (longLength_moves (advance d1 1)) as L. destruct (longLength _) as [[d2 l]|e]; cbn in *; [|done].
  destruct L as [L1 L2]. split; [congruence|lia].
Qed.

Lemma backReference_moves d out outSize :
  len out <= outSize ->
  moves 1 d (backReference d out outSize) /\ lz_bounded outSize (fun p => len p.2) (backReference d out outSize).
Proof.
  intros Ho. unfold backReference. destruct (negb _); [done|]. cbv zeta.
  set (r := if _ =? 7 then _ else _).
  assert (M : moves 2 d r).
  { unfold r. destruct (_ =? 7); [|cbn; split; [done|lia]].
    pose proof (extendedLength_moves (advance d 2)) as L. destruct (extendedLength _) as [[d2 l]|e]; cbn in *; [|done].
    destruct L. split; [congruence|lia]. }
  destruct r as [[d1 l]|e]; cbn in M |- *; [|done]. destruct M as [M1 M2].
  pose proof (copy_match_bounded outSize (Z.shiftr (u16_at (ld_in d) (ld_inIdx d)) 3 + 1)
    (S (Z.to_nat outSize)) (u32 (l + 3)) out Ho ltac:(unfold len in *; lia)) as C.
  cbn [copy_match Nat.add] in C |- *.
  match goal with |- context [rbind ?m _] => destruct m as [o|e]; cbn in C |- *; [|by split] end.
  split; [split; [done|lia]|done].
Qed.

Lemma literal_moves d out outSize :
  moves 1 d (dec_literal d out outSize) /\ lz_bounded outSize (fun p => len p.2) (dec_literal d out outSize).
Proof.
  unfold dec_literal. destruct (_ || _) eqn:C; [done|]. apply orb_false_iff in C as [_ C]. apply Z.leb_gt in C.
  cbn. split; [split; [done|lia]|]. unfold len in *. rewrite length_app. cbn [length]. lia.
Qed.

Lemma dec_loop_bounded outSize : forall fuel d out,
  len out <= outSize -> (ld_inIdx d <= length (ld_in d) < ld_inIdx d + fuel)%nat ->
  lz_bounded outSize len (dec_loop fuel d out outSize).
Proof.
  induction fuel as [|fuel IH]; intros d out Ho Hf; [lia|]. cbn [dec_loop].
  pose proof (nextBit_moves d) as M. destruct (nextBit d) as [[d1 [bit|]]|e]; cbn [rbind moves] in *; [|done|done].
  destruct M as [M1 M2]. set (r := if bit =? 0 then _ else _).
  assert (B : moves 1 d1 r /\ lz_bounded outSize (fun p => len p.2) r).
  { unfold r. destruct (bit =? 0); [apply literal_moves|by apply backReference_moves]. }
  destruct r as [[d2 out2]|e]; cbn [rbind moves lz_bounded fst snd] in *; [|by destruct B].
  destruct B as [[B1 B2] B3]. destruct (_ || _) eqn:C; [done|].
  apply orb_false_iff in C as [_ C]. apply Nat.leb_gt in C. apply IH; [done|]. rewrite B1, M1 in *. lia.
Qed.

(** On any input the decompressor ends within its turns, and either refuses the stream or
    produces at most the declared size. *)
Theorem decompress_total input outSize : 0 <= outSize ->
  match Decompress input outSize with Ok out => len out <= outSize | Err e => e = ErrCorrupt end.
Proof.
  intros Ho. destruct input as [|b input]; [done|].
  apply dec_loop_bounded; [done|]. cbn [ld_in ld_inIdx length]. lia.
Qed.

Lemma decompress_total_witness :
  0 <= 4 /\ match Decompress [255; 255; 255; 255; 7; 0; 1] 4 with Ok out => len out <= 4 | Err e => e = ErrCorrupt end.
Proof. split; [lia|]. apply (decompress_total [255; 255; 255; 255; 7; 0; 1] 4). lia. Defined.
