(* ===== verification/Limitbase.v ===== *)
(** * Clocks and tracking tables of the limiters

    [authlimit] and [httplimit] share a discipline: a counter per key in a bounded table, a
    clock read per call, and a sweep that drops elapsed entries.  Times are nanoseconds since
    Go's zero time, durations are 64-bit nanoseconds. *)

From stdpp Require Import base list numbers gmap.
From Stdlib Require Import ZArith Lia.
From S2P Require Import Prelude.
Open Scope Z_scope.

Definition maxDuration : Z := 2 ^ 63 - 1.
Definition minDuration : Z := - 2 ^ 63.
Definition Second : Z := 1000000000.
Definition Minute : Z := 60 * Second.

(** [t.Sub(u)] saturates at the range of a duration. *)
Definition time_Sub (t u : Z) : Z := Z.max minDuration (Z.min maxDuration (t - u)).

(** [time.Duration(s) * time.Second], on 64 bits *)
Definition seconds (s : Z) : Z := signed 64 (u64 (s * Second)).

Lemma time_Sub_ge t u d : d <= maxDuration -> - 2 ^ 63 < d -> (d <=? time_Sub t u) = (d <=? t - u).
Proof.
  unfold time_Sub, minDuration, maxDuration. intros H1 H2.
  destruct (Z.leb_spec d (t - u)); [apply Z.leb_le|apply Z.leb_gt]; lia.
Qed.

Lemma seconds_range s : inS 64 (seconds s) = true.
Proof.
  unfold seconds, signed, u64. pose proof (Z.mod_pos_bound (s * Second) (2 ^ 64) ltac:(lia)).
  apply inS_spec. destruct (Z.ltb_spec ((s * Second) mod 2 ^ 64) (2 ^ (64 - 1))); lia.
Qed.

(** The number of distinct keys a table may hold *)
Definition maxKeys : Z := 100000.

Section table.
Context {V : Type}.
Implicit Types m : gmap bytes V.

(** Drop the entries a test calls elapsed, and say whether any was. *)
Definition sweep (elapsed : V -> bool) m : gmap bytes V * bool :=
  (filter (fun kv => elapsed kv.2 = false) m,
   existsb (fun kv => elapsed kv.2) (map_to_list m)).

Lemma sweep_lookup elapsed m k :
  (sweep elapsed m).1 !! k = match m !! k with Some v => if elapsed v then None else Some v | None => None end.
Proof.
  cbn. destruct (m !! k) as [v|] eqn:E.
  - destruct (elapsed v) eqn:X.
    + apply map_lookup_filter_None_2. right. intros v' Hv'. simplify_eq. cbn. congruence.
    + by apply map_lookup_filter_Some_2.
  - apply map_lookup_filter_None_2. by left.
Qed.

Lemma sweep_dom elapsed m : dom (sweep elapsed m).1 ⊆ dom m.
Proof. cbn. apply dom_filter_subseteq. Qed.

(** A key the table does not hold leaves room for it among the keys in play. *)
Lemma room m (K : gset bytes) k : dom m ⊆ K -> k ∈ K -> m !! k = None -> (size m < size K)%nat.
Proof.
  intros Hd Hk Hn. rewrite <- size_dom. apply subset_size. split; [done|].
  intros HK. apply not_elem_of_dom in Hn. by apply Hn, HK.
Qed.
End table.
