(* ===== verification/Httplimit.v ===== *)
(** * The request-rate limiter ([internal/httplimit])

    A fixed window of requests per client.  The state is the table of windows and the tuning;
    every operation takes the clock reading it makes. *)

From stdpp Require Import base list numbers gmap.
From Stdlib Require Import ZArith Lia.
From S2P Require Import Prelude Limitbase.
Open Scope Z_scope.

Definition defaultWindow : Z := Minute.
Definition defaultBurst : Z := 600.

Record window := mkWindow { w_start : Z; w_count : Z }.

Record Limiter := mkLimiter {
  hl_windows : gmap bytes window; hl_burst : Z; hl_period : Z; hl_enabled : bool }.

Definition NewLimiter : Limiter := mkLimiter ∅ defaultBurst defaultWindow false.

Definition SetEnabled (l : Limiter) (on : bool) : Limiter :=
  mkLimiter (hl_windows l) (hl_burst l) (hl_period l) on.

Definition SetLimits (l : Limiter) (burst period : Z) : Limiter :=
  mkLimiter (hl_windows l)
    (if 1 <=? burst then burst else hl_burst l)
    (if 0 <? period then period else hl_period l)
    (hl_enabled l).

Definition win_elapsed (now period : Z) (w : window) : bool := period <=? time_Sub now (w_start w).

Definition sweepExpired (now period : Z) (m : gmap bytes window) : gmap bytes window * bool :=
  sweep (win_elapsed now period) m.

(** The count after the window of the key was found, made or reset: admit while it is within
    the burst, otherwise name the time left in the window. *)
Definition count_request (l : Limiter) (m : gmap bytes window) (key : bytes) (now : Z) (w : window)
  : Limiter * (bool * Z) :=
  let w := mkWindow (w_start w) (w_count w + 1) in
  let l := mkLimiter (<[key := w]> m) (hl_burst l) (hl_period l) (hl_enabled l) in
  if w_count w <=? hl_burst l then (l, (true, 0))
  else (l, (false, Z.max (hl_period l - time_Sub now (w_start w)) Second)).

Definition Allow (l : Limiter) (now : Z) (key : bytes) : Limiter * (bool * Z) :=
  if negb (hl_enabled l) then (l, (true, 0))
  else if bool_decide (key = []) then (l, (true, 0))
  else
    let m := hl_windows l in
    match m !! key with
    | None =>
        if maxKeys <=? Z.of_nat (size m) then
          let '(m, freed) := sweepExpired now (hl_period l) m in
          if freed then count_request l m key now (mkWindow now 0)
          else (mkLimiter m (hl_burst l) (hl_period l) (hl_enabled l), (true, 0))
        else count_request l m key now (mkWindow now 0)
    | Some w =>
        count_request l m key now (if win_elapsed now (hl_period l) w then mkWindow now 0 else w)
    end.

Definition Prune (l : Limiter) (now : Z) : Limiter :=
  mkLimiter (sweepExpired now (hl_period l) (hl_windows l)).1 (hl_burst l) (hl_period l) (hl_enabled l).

Record Settings := mkSettings { set_Enabled : bool; set_Burst : Z; set_WindowSeconds : Z }.

(** What the reader returned: an error, no row, or the stored settings. *)
Definition Apply {E} (l : Limiter) (read : result E (option Settings)) : Limiter :=
  match read with
  | Err _ | Ok None => l
  | Ok (Some s) => SetEnabled (SetLimits l (set_Burst s) (seconds (set_WindowSeconds s))) (set_Enabled s)
  end.

(** ** Traces *)

Inductive event := EAllow (now : Z) (key : bytes) | EPrune (now : Z).
Definition ev_time (e : event) : Z := match e with EAllow t _ | EPrune t => t end.

Definition step (l : Limiter) (e : event) : Limiter :=
  match e with EAllow t k => (Allow l t k).1 | EPrune t => Prune l t end.

(** Does this event admit a request of the key in the [d] nanoseconds from [t0]? *)
Definition admits (l : Limiter) (k : bytes) (t0 d : Z) (e : event) : bool :=
  match e with
  | EAllow t k' => bool_decide (k' = k) && (t0 <=? t) && (t <? t0 + d) && (Allow l t k').2.1
  | EPrune _ => false
  end.

Fixpoint admitted (l : Limiter) (k : bytes) (t0 d : Z) (evs : list event) : Z :=
  match evs with
  | [] => 0
  | e :: evs => (if admits l k t0 d e then 1 else 0) + admitted (step l e) k t0 d evs
  end.

(** The clock does not go back. *)
Fixpoint ordered (t : Z) (evs : list event) : bool :=
  match evs with [] => true | e :: evs => (t <=? ev_time e) && ordered (ev_time e) evs end.

(** The client addresses that appear *)
Definition ev_keys (evs : list event) : gset bytes :=
  list_to_set (omap (fun e => match e with EAllow _ ((_ :: _) as k) => Some k | _ => None end) evs).

Lemma ev_keys_tail e evs : ev_keys evs ⊆ ev_keys (e :: evs).
Proof. unfold ev_keys. destruct e as [t [|b k]|t]; cbn [omap list_omap]; [done| |done]. apply union_subseteq_r. Qed.

Lemma ev_keys_head t k evs : k = [] \/ k ∈ ev_keys (EAllow t k :: evs).
Proof. destruct k as [|b k]; [by left|right]. apply elem_of_union_l, elem_of_singleton. reflexivity. Qed.

(** ** What is known of one key along a trace *)

Section bound.
Context (B P t0 : Z) (HB : 1 <= B) (HP : 0 < P <= maxDuration).

(** The requests admitted in the interval so far, when the newest window of the key started
    at [s] and counts [c]: windows start at least a period apart, so at most two of them meet
    the interval. *)
Definition budget (s c : Z) : Z :=
  if s + P <=? t0 then 0
  else if s <? t0 then Z.min c B
  else if s <? t0 + P then B + Z.min c B
  else 2 * B.

Definition tracks (ow : option window) (s : option Z) (t a : Z) : Prop :=
  match ow with
  | Some w => s = Some (w_start w) /\ w_start w <= t /\ 0 <= w_count w /\ a <= budget (w_start w) (w_count w)
  | None => match s with Some s0 => s0 + P <= t /\ a <= budget s0 B | None => a <= 0 end
  end.

Definition in_interval (t : Z) : bool := (t0 <=? t) && (t <? t0 + P).

Ltac cases := unfold budget, in_interval in *;
  repeat match goal with
  | |- context [?x <=? ?y] => destruct (Z.leb_spec x y)
  | |- context [?x <? ?y] => destruct (Z.ltb_spec x y)
  | H : context [?x <=? ?y] |- _ => destruct (Z.leb_spec x y)
  | H : context [?x <? ?y] |- _ => destruct (Z.ltb_spec x y)
  end; cbn [andb] in *; try lia.

Lemma elapsed_iff t w : win_elapsed t P w = (P <=? t - w_start w).
Proof. unfold win_elapsed. apply time_Sub_ge; lia. Qed.

Lemma tracks_later ow s t t' a : t <= t' -> tracks ow s t a -> tracks ow s t' a.
Proof. intros Ht. destruct ow as [w|]; cbn; [|destruct s]; intuition lia. Qed.

Lemma tracks_bound ow s t a : tracks ow s t a -> a <= 2 * B.
Proof. destruct ow as [w|]; cbn; [|destruct s]; intuition (cases). Qed.

Lemma tracks_drop w s t a : tracks (Some w) s t a -> win_elapsed t P w = true -> tracks None s t a.
Proof.
  rewrite elapsed_iff. cbn. intros (-> & H1 & H2 & H3) E. apply Z.leb_le in E. split; [lia|]. cases.
Qed.

Lemma tracks_new s t a :
  tracks None s t a -> tracks (Some (mkWindow t 1)) (Some t) t (a + if in_interval t then 1 else 0).
Proof.
  intros H. cbn. split; [done|]. split; [lia|]. split; [lia|]. destruct s as [s0|]; cbn in H; cases.
Qed.

Lemma tracks_count w s t a :
  tracks (Some w) s t a -> win_elapsed t P w = false ->
  tracks (Some (mkWindow (w_start w) (w_count w + 1))) s t
    (a + if in_interval t && (w_count w + 1 <=? B) then 1 else 0).
Proof.
  rewrite elapsed_iff. cbn. intros (-> & H1 & H2 & H3) E. apply Z.leb_gt in E.
  split; [done|]. split; [done|]. split; [lia|]. cases.
Qed.

Lemma tracks_sweep m k s t a :
  tracks (m !! k) s t a -> tracks ((sweepExpired t P m).1 !! k) s t a.
Proof.
  intros H. unfold sweepExpired. rewrite sweep_lookup. destruct (m !! k) as [w|]; [|done].
  destruct (win_elapsed t P w) eqn:E; [|done]. by eapply tracks_drop.
Qed.

(** *** One event *)

Definition tuned (l : Limiter) : Prop := hl_burst l = B /\ hl_period l = P /\ hl_enabled l = true.

Lemma count_request_lookup l m key now w k :
  hl_windows (count_request l m key now w).1 !! k
  = if bool_decide (key = k) then Some (mkWindow (w_start w) (w_count w + 1)) else m !! k.
Proof.
  unfold count_request. case_bool_decide; destruct (_ <=? _); cbn; subst;
    [by rewrite lookup_insert_eq|by rewrite lookup_insert_eq|by rewrite lookup_insert_ne|by rewrite lookup_insert_ne].
Qed.

Lemma count_request_tuned l m key now w : tuned l -> tuned (count_request l m key now w).1.
Proof. unfold count_request. by destruct (_ <=? _). Qed.

Lemma count_request_verdict l m key now w :
  hl_burst l = B -> (count_request l m key now w).2.1 = (w_count w + 1 <=? B).
Proof. intros HB'. unfold count_request. cbn. rewrite HB'. by destruct (_ <=? B). Qed.

(** While the keys in play fit in the table, a request is always counted: against the key's
    window when it is live, in a fresh one otherwise. *)
Lemma Allow_spec (l : Limiter) (now : Z) (key : bytes) (K : gset bytes) :
  tuned l -> key <> [] -> dom (hl_windows l) ⊆ K -> key ∈ K -> Z.of_nat (size K) <= maxKeys ->
  Allow l now key = count_request l (hl_windows l) key now
    (match hl_windows l !! key with
     | Some w => if win_elapsed now P w then mkWindow now 0 else w
     | None => mkWindow now 0
     end).
Proof.
  intros (_ & HPer & Hen) Hk Hd HK Hs. unfold Allow. rewrite Hen, HPer. cbn [negb].
  rewrite bool_decide_false by done. destruct (hl_windows l !! key) eqn:E; [done|].
  pose proof (room _ _ _ Hd HK E). by rewrite (proj2 (Z.leb_gt _ _)) by lia.
Qed.

Lemma step_tracks (l : Limiter) (e : event) (k : bytes) (s : option Z) (t a : Z) (K : gset bytes) :
  tuned l -> k <> [] -> dom (hl_windows l) ⊆ K -> Z.of_nat (size K) <= maxKeys ->
  (forall t' k', e = EAllow t' k' -> k' = [] \/ k' ∈ K) ->
  tracks (hl_windows l !! k) s t a -> t <= ev_time e ->
  tuned (step l e) /\ dom (hl_windows (step l e)) ⊆ K
  /\ exists s', tracks (hl_windows (step l e) !! k) s' (ev_time e)
                  (a + if admits l k t0 P e then 1 else 0).
Proof.
  intros T Hk Hd HK Hin H Ht. pose proof T as (T1 & T2 & T3).
  apply (tracks_later _ _ _ (ev_time e)) in H; [|done]. destruct e as [now key|now]; cbn [ev_time step admits] in *.
  - destruct (decide (key = [])) as [->|Hkey].
    { assert (Allow l now [] = (l, (true, 0))) as -> by (unfold Allow; by rewrite T3).
      split; [done|]. split; [done|]. exists s. rewrite bool_decide_false by done. by rewrite Z.add_0_r. }
    destruct (Hin now key eq_refl) as [|HinK]; [done|].
    rewrite (Allow_spec l now key K) by done.
    split; [by apply count_request_tuned|]. split.
    { intros x. rewrite !elem_of_dom, count_request_lookup. case_bool_decide; [by subst|].
      intros Hx. by apply Hd, elem_of_dom. }
    rewrite count_request_lookup, count_request_verdict by done. case_bool_decide; [subst key|].
    2: { exists s. cbn [andb]. by rewrite Z.add_0_r. }
    cbn [andb]. destruct (hl_windows l !! k) as [w|]; [|exists (Some now); cbn [w_start w_count]].
    2: { rewrite (proj2 (Z.leb_le (0 + 1) B)), andb_true_r by lia. by apply tracks_new with (s := s). }
    destruct (win_elapsed now P w) eqn:E; [exists (Some now); cbn [w_start w_count]|exists s; by apply tracks_count].
    rewrite (proj2 (Z.leb_le (0 + 1) B)), andb_true_r by lia. apply tracks_new with (s := s). by eapply tracks_drop.
  - split; [by split|]. unfold Prune. cbn [hl_windows]. rewrite T2. split; [etrans; [apply sweep_dom|done]|].
    exists s. rewrite Z.add_0_r. by apply tracks_sweep.
Qed.

Lemma admitted_bound (evs : list event) : forall (l : Limiter) (k : bytes) (s : option Z) (t a : Z) (K : gset bytes),
  tuned l -> k <> [] -> dom (hl_windows l) ⊆ K -> Z.of_nat (size K) <= maxKeys -> ev_keys evs ⊆ K ->
  tracks (hl_windows l !! k) s t a -> ordered t evs = true ->
  a + admitted l k t0 P evs <= 2 * B.
Proof.
  induction evs as [|e evs IH]; intros l k s t a K T Hk Hd HK Hin H Ho; cbn [admitted ordered] in *.
  - apply tracks_bound in H. lia.
  - apply andb_prop in Ho as [Ht Ho]. apply Z.leb_le in Ht.
    assert (He : forall t' k', e = EAllow t' k' -> k' = [] \/ k' ∈ K).
    { intros t' k' ->. destruct (ev_keys_head t' k' evs); auto. }
    pose proof (transitivity (ev_keys_tail e evs) Hin) as Hin'.
    destruct (step_tracks l e k s t a K T Hk Hd HK He H Ht) as (T' & Hd' & s' & H').
    specialize (IH (step l e) k s' (ev_time e) _ K T' Hk Hd' HK Hin' H' Ho). lia.
Qed.
End bound.

(** The budget and the window can be tuned only to values that admit requests. *)
Lemma SetLimits_positive l b p :
  1 <= hl_burst l -> 0 < hl_period l -> 1 <= hl_burst (SetLimits l b p) /\ 0 < hl_period (SetLimits l b p).
Proof. intros. cbn. destruct (Z.leb_spec 1 b), (Z.ltb_spec 0 p); lia. Qed.

(** Whatever requests arrive and whenever the table is pruned, an enabled limiter admits at
    most twice its burst from one client in any span of one period: the budget of the window
    that was open and of the one that followed it.  The client addresses in play fit in the
    table, since a full table admits. *)
Theorem request_rate_bounded (b p : Z) (k : bytes) (t t0 : Z) (evs : list event) :
  inS 64 p = true -> k <> [] -> ordered t evs = true -> Z.of_nat (size (ev_keys evs)) <= maxKeys ->
  let l := SetEnabled (SetLimits NewLimiter b p) true in
  admitted l k t0 (hl_period l) evs <= 2 * hl_burst l.
Proof.
  intros Hp Hk Ho HK l. apply inS_spec in Hp.
  destruct (SetLimits_positive NewLimiter b p) as [P1 P2]; [cbn; unfold defaultBurst; lia|reflexivity|].
  assert (P3 : hl_period l <= maxDuration).
  { unfold l. cbn [SetEnabled SetLimits hl_period NewLimiter]. change (2 ^ (64 - 1)) with (maxDuration + 1) in Hp.
    destruct (0 <? p); [lia|]. vm_compute. discriminate. }
  pose proof (admitted_bound (hl_burst l) (hl_period l) t0 P1 (conj P2 P3) evs l k None t 0 (ev_keys evs)) as H.
  assert (Hd : dom (hl_windows l) ⊆ ev_keys evs).
  { intros x Hx. apply elem_of_dom in Hx as [w Hw]. cbn in Hw. by rewrite lookup_empty in Hw. }
  rewrite Z.add_0_l in H. apply H; try done. unfold l. cbn [SetEnabled SetLimits NewLimiter hl_windows].
  by rewrite lookup_empty.
Qed.

Lemma request_rate_bounded_witness :
  let evs := [EAllow 10 [1]; EAllow 11 [1]; EAllow 12 [2]; EAllow 100 [1]; EPrune 120; EAllow 130 [1]] in
  let l := SetEnabled (SetLimits NewLimiter 1 50) true in
  admitted l [1] 90 (hl_period l) evs <= 2 /\ admitted l [1] 90 (hl_period l) evs = 1.
Proof.
  split; [|vm_compute; reflexivity].
  apply (request_rate_bounded 1 50 [1] 0 90
    [EAllow 10 [1]; EAllow 11 [1]; EAllow 12 [2]; EAllow 100 [1]; EPrune 120; EAllow 130 [1]]);
    [reflexivity|discriminate|reflexivity|vm_compute; discriminate].
Defined.
