(* ===== verification/Connlimit.v ===== *)
(** * The connection limiter ([internal/connlimit])

    Slots in total and per client address.  [Acquire] hands out a release closure that acts
    once; the closures are the environment's, so a [world] is the limiter together with the
    closures handed out so far, and every interleaving of acquisitions, releases (also
    repeated ones) and retuning is a sequence of steps. *)

From stdpp Require Import base list numbers gmap relations.
From Stdlib Require Import ZArith Lia.
From S2P Require Import Prelude.
Open Scope Z_scope.

Definition defaultMaxTotal : Z := 1000.
Definition defaultMaxPerClient : Z := 20.

Record Limiter := mkLimiter {
  cl_total : Z; cl_perAddr : gmap bytes Z;
  cl_maxTotal : Z; cl_maxPerClient : Z; cl_enabled : bool }.

Definition New : Limiter := mkLimiter 0 ∅ defaultMaxTotal defaultMaxPerClient false.

Definition SetEnabled (l : Limiter) (on : bool) : Limiter :=
  mkLimiter (cl_total l) (cl_perAddr l) (cl_maxTotal l) (cl_maxPerClient l) on.

Definition SetLimits (l : Limiter) (total perClient : Z) : Limiter :=
  mkLimiter (cl_total l) (cl_perAddr l)
    (if 1 <=? total then total else cl_maxTotal l)
    (if 1 <=? perClient then perClient else cl_maxPerClient l)
    (cl_enabled l).

Inductive Reason := ReasonTotal | ReasonPerClient.

(** What a release closure does: nothing (handed out while the limiter was off), or give back
    a slot of a key, the first time it is called. *)
Record closure := mkClosure { c_key : option bytes; c_done : bool }.

(** [l.perAddr[key]]: a missing key reads zero. *)
Definition per_addr (m : gmap bytes Z) (key : bytes) : Z := default 0 (m !! key).

Definition Acquire (l : Limiter) (key : bytes) : Limiter * result Reason closure :=
  if negb (cl_enabled l) then (l, Ok (mkClosure None false))
  else if cl_maxTotal l <=? cl_total l then (l, Err ReasonTotal)
  else if negb (bool_decide (key = [])) && (cl_maxPerClient l <=? per_addr (cl_perAddr l) key)
  then (l, Err ReasonPerClient)
  else
    (mkLimiter (cl_total l + 1)
       (if bool_decide (key = []) then cl_perAddr l
        else <[key := per_addr (cl_perAddr l) key + 1]> (cl_perAddr l))
       (cl_maxTotal l) (cl_maxPerClient l) (cl_enabled l),
     Ok (mkClosure (Some key) false)).

Definition release (l : Limiter) (key : bytes) : Limiter :=
  let total := if 0 <? cl_total l then cl_total l - 1 else cl_total l in
  let perAddr :=
    if bool_decide (key = []) then cl_perAddr l
    else
      let n := per_addr (cl_perAddr l) key - 1 in
      if 0 <? n then <[key := n]> (cl_perAddr l) else delete key (cl_perAddr l) in
  mkLimiter total perAddr (cl_maxTotal l) (cl_maxPerClient l) (cl_enabled l).

Definition InUse (l : Limiter) (key : bytes) : Z * Z := (cl_total l, per_addr (cl_perAddr l) key).

Record Settings := mkSettings { set_Enabled : bool; set_MaxTotal : Z; set_MaxPerClient : Z }.

Definition Apply {E} (l : Limiter) (read : result E (option Settings)) : Limiter :=
  match read with
  | Err _ | Ok None => l
  | Ok (Some s) => SetEnabled (SetLimits l (set_MaxTotal s) (set_MaxPerClient s)) (set_Enabled s)
  end.

(** ** The limiter and the closures it handed out *)

Record world := mkWorld { wo_lim : Limiter; wo_closures : list closure }.

(** A call of a closure: [once.Do] *)
Definition call_closure (w : world) (i : nat) : world :=
  match wo_closures w !! i with
  | Some (mkClosure (Some key) false) =>
      mkWorld (release (wo_lim w) key) (<[i := mkClosure (Some key) true]> (wo_closures w))
  | _ => w
  end.

Definition acquire (w : world) (key : bytes) : world :=
  match Acquire (wo_lim w) key with
  | (l, Ok c) => mkWorld l (wo_closures w ++ [c])
  | (l, Err _) => mkWorld l (wo_closures w)
  end.

Inductive wstep : world -> world -> Prop :=
| step_acquire w key : wstep w (acquire w key)
| step_call w i : wstep w (call_closure w i)
| step_limits w t p : wstep w (mkWorld (SetLimits (wo_lim w) t p) (wo_closures w))
| step_enabled w on : wstep w (mkWorld (SetEnabled (wo_lim w) on) (wo_closures w)).

Definition reachable (w : world) : Prop := rtc wstep (mkWorld New []) w.

(** ** The abstract state: the live connections *)

Definition live_key (c : closure) : option bytes :=
  match c with mkClosure (Some key) false => Some key | _ => None end.

(** The keys of the counted connections that were not released *)
Definition live (w : world) : list bytes := omap live_key (wo_closures w).

Definition count (key : bytes) (l : list bytes) : Z :=
  Z.of_nat (length (filter (fun k => k = key) l)).

(** The concrete counters and the live connections *)
Definition accounts (l : Limiter) (conns : list bytes) : Prop :=
  cl_total l = len conns
  /\ cl_perAddr l !! [] = None
  /\ forall key, key <> [] ->
       cl_perAddr l !! key = if 0 <? count key conns then Some (count key conns) else None.

Lemma count_app key a b : count key (a ++ b) = count key a + count key b.
Proof. unfold count. rewrite filter_app, length_app. lia. Qed.

Lemma count_cons key k l : count key (k :: l) = (if bool_decide (k = key) then 1 else 0) + count key l.
Proof. unfold count. rewrite filter_cons. destruct (decide (k = key)); case_bool_decide; try done; cbn [length]; lia. Qed.

Lemma count_nonneg key l : 0 <= count key l.
Proof. unfold count. lia. Qed.

(** Only the multiset of live connections matters. *)
Lemma accounts_perm l a b : a ≡ₚ b -> accounts l a -> accounts l b.
Proof.
  intros Hp (A1 & A2 & A3). split; [rewrite A1; unfold len; by rewrite Hp|]. split; [done|].
  intros key Hk. assert (count key b = count key a) as ->; [unfold count; by rewrite Hp|]. by apply A3.
Qed.

Lemma accounts_per_addr l conns key :
  accounts l conns -> key <> [] -> per_addr (cl_perAddr l) key = count key conns.
Proof.
  intros (_ & _ & A) Hk. unfold per_addr. rewrite A by done. pose proof (count_nonneg key conns).
  destruct (Z.ltb_spec 0 (count key conns)); cbn; lia.
Qed.

Lemma release_accounts l key conns : accounts l (key :: conns) -> accounts (release l key) conns.
Proof.
  intros A. pose proof A as (A1 & A2 & A3). unfold release. split; [|split]; cbn [cl_total cl_perAddr].
  - rewrite A1. unfold len. cbn [length]. destruct (Z.ltb_spec 0 (Z.of_nat (S (length conns)))); lia.
  - case_bool_decide; [done|]. destruct (0 <? _); [by rewrite lookup_insert_ne|by rewrite lookup_delete_ne].
  - intros k Hk. specialize (A3 k Hk). rewrite count_cons in A3.
    destruct (decide (key = [])) as [Hkey|Hkey]; [rewrite bool_decide_true by done|rewrite bool_decide_false by done].
    + subst key. by rewrite bool_decide_false in A3 by congruence.
    + rewrite (accounts_per_addr _ _ _ A Hkey), count_cons, bool_decide_true by done.
      replace (1 + count key conns - 1) with (count key conns) by lia.
      destruct (decide (key = k)) as [->|Hne].
      * destruct (Z.ltb_spec 0 (count k conns)); [by rewrite lookup_insert_eq|by rewrite lookup_delete_eq].
      * rewrite bool_decide_false in A3 by done. destruct (0 <? count key conns);
          [by rewrite lookup_insert_ne|by rewrite lookup_delete_ne].
Qed.

Lemma Acquire_accounts l key conns l' c :
  accounts l conns -> Acquire l key = (l', Ok c) ->
  accounts l' (match live_key c with Some k => k :: conns | None => conns end).
Proof.
  intros A. pose proof A as (A1 & A2 & A3). unfold Acquire.
  destruct (cl_enabled l); cbn [negb]; [|by intros [= <- <-]].
  destruct (_ <=? _); [done|]. destruct (_ && _); [done|]. intros [= <- <-]. cbn [live_key].
  split; [|split]; cbn [cl_total cl_perAddr].
  - rewrite A1. unfold len. cbn [length]. lia.
  - case_bool_decide; [done|]. by rewrite lookup_insert_ne.
  - intros k Hk. rewrite count_cons. pose proof (count_nonneg k conns). case_bool_decide as Hkey.
    + subst key. rewrite bool_decide_false by congruence. by apply A3.
    + rewrite (accounts_per_addr _ _ _ A Hkey). case_bool_decide as Hk'.
      * subst k. rewrite lookup_insert_eq, (proj2 (Z.ltb_lt 0 (1 + _))) by lia. f_equal. lia.
      * rewrite lookup_insert_ne by done. by apply A3.
Qed.

Lemma live_done cs i key : cs !! i = Some (mkClosure (Some key) false) ->
  omap live_key cs ≡ₚ key :: omap live_key (<[i := mkClosure (Some key) true]> cs).
Proof.
  intros Hi. pose proof (lookup_lt_Some _ _ _ Hi).
  rewrite insert_take_drop by done. rewrite <- (take_drop_middle cs i _ Hi) at 1.
  rewrite !omap_app. cbn [omap list_omap live_key]. by rewrite <- Permutation_middle.
Qed.

Lemma wstep_accounts w w' : wstep w w' -> accounts (wo_lim w) (live w) -> accounts (wo_lim w') (live w').
Proof.
  intros [w0 key|w0 i|w0 t p|w0 on] A; [| |exact A|exact A].
  - unfold acquire. destruct (Acquire (wo_lim w0) key) as [l [c|e]] eqn:E; unfold live; cbn [wo_lim wo_closures].
    + rewrite omap_app. apply (accounts_perm _ _ _ (Permutation_app_comm _ _)).
      pose proof (Acquire_accounts _ _ _ _ _ A E) as A'. cbn [omap list_omap]. by destruct (live_key c).
    + unfold Acquire in E. destruct (negb _); [done|]. destruct (_ <=? _); [by inversion E; subst|].
      destruct (_ && _); [by inversion E; subst|done].
  - unfold call_closure. destruct (wo_closures w0 !! i) as [[[key|] []]|] eqn:E; try exact A.
    cbn [wo_lim wo_closures]. apply release_accounts. unfold live. cbn [wo_closures].
    eapply accounts_perm; [by apply live_done|exact A].
Qed.

(** Reachable states are accounted for. *)
Lemma reachable_accounts w : reachable w -> accounts (wo_lim w) (live w).
Proof.
  intros H. assert (A : accounts (wo_lim (mkWorld New [])) (live (mkWorld New []))).
  { split; [done|]. split; [done|]. intros key Hk. done. }
  revert A. unfold reachable in H. induction H as [|x y z Hxy _ IH]; [done|]. intros A. by apply IH, (wstep_accounts x).
Qed.

(** A table of counts has at most as many entries as there are live connections. *)
Lemma accounts_size l conns : accounts l conns -> Z.of_nat (size (cl_perAddr l)) <= cl_total l.
Proof.
  intros (A1 & A2 & A3). rewrite A1. unfold len. rewrite <- size_dom.
  assert (Hs : (size (dom (cl_perAddr l) : gset bytes) <= length conns)%nat); [|lia].
  assert (Hl : forall cs : list bytes, (size (list_to_set cs : gset bytes) <= length cs)%nat).
  { induction cs as [|c cs IH]; [done|]. rewrite list_to_set_cons, size_union_alt, size_singleton. cbn [length].
    assert ((size (list_to_set cs ∖ {[c]} : gset bytes) <= size (list_to_set cs : gset bytes))%nat); [|lia].
    apply subseteq_size, subseteq_difference_l. done. }
  etrans; [|apply Hl]. apply subseteq_size. intros key Hk. apply elem_of_dom in Hk as [n Hn].
  apply elem_of_list_to_set. destruct (decide (key = [])) as [->|Hne]; [congruence|].
  rewrite A3 in Hn by done. destruct (Z.ltb_spec 0 (count key conns)) as [Hc|]; [|done].
  unfold count in Hc. destruct (filter (fun k => k = key) conns) as [|k ks] eqn:F; [cbn in Hc; lia|].
  assert (k ∈ filter (fun k => k = key) conns) as Hin by (rewrite F; left).
  apply list_elem_of_filter in Hin as [-> Hin]. done.
Qed.

(** In every state reachable by acquisitions, releases (each closure called any number of
    times) and retuning, the limiter counts exactly the live connections: in total and per
    client, with no entry for a client that has none; and an enabled limiter admits a
    connection exactly when the live connections are below both caps, naming the cap that
    refused it. *)
Theorem acquire_refines w key :
  reachable w -> cl_enabled (wo_lim w) = true ->
  let l := wo_lim w in
  let total := len (live w) in
  let mine := count key (live w) in
  cl_total l = total
  /\ Z.of_nat (size (cl_perAddr l)) <= total
  /\ (key <> [] -> per_addr (cl_perAddr l) key = mine)
  /\ (Acquire l key).2
     = if cl_maxTotal l <=? total then Err ReasonTotal
       else if negb (bool_decide (key = [])) && (cl_maxPerClient l <=? mine) then Err ReasonPerClient
       else Ok (mkClosure (Some key) false).
Proof.
  intros R En l total mine. pose proof (reachable_accounts w R) as A. pose proof A as (A1 & _).
  split; [done|]. split; [unfold total; rewrite <- A1; by eapply accounts_size|].
  split; [by apply accounts_per_addr|]. unfold Acquire, l. rewrite En, A1. cbn [negb].
  fold total. destruct (_ <=? total); [done|]. unfold mine. case_bool_decide as Hk; [done|]. cbn [negb andb].
  rewrite (accounts_per_addr _ _ _ A Hk). by destruct (_ <=? _).
Qed.

Lemma acquire_refines_witness :
  let w := acquire (mkWorld (SetEnabled (SetLimits New 2 1) true) []) [7] in
  (Acquire (wo_lim w) [7]).2 = Err ReasonPerClient.
Proof.
  destruct (acquire_refines (acquire (mkWorld (SetEnabled (SetLimits New 2 1) true) []) [7]) [7])
    as (_ & _ & _ & E); [|reflexivity|etrans; [exact E|vm_compute; reflexivity]].
  eapply rtc_l; [apply (step_limits _ 2 1)|]. eapply rtc_l; [apply (step_enabled _ true)|].
  eapply rtc_l; [apply (step_acquire _ [7])|]. apply rtc_refl.
Defined.

(** *** Releasing everything *)

(** A closure that was called, or never counted, gives no slot back again. *)
Definition spent (cs : list closure) (i : nat) : Prop :=
  match cs !! i with Some c => live_key c = None | None => True end.

Lemma call_spent w i j : j = i \/ spent (wo_closures w) j -> spent (wo_closures (call_closure w i)) j.
Proof.
  intros H. unfold call_closure, spent in *.
  destruct (wo_closures w !! i) as [[[key|] []]|] eqn:E; cbn [wo_closures];
    try (destruct H as [->|H]; [by rewrite E|exact H]).
  destruct (decide (j = i)) as [->|Hn].
  - rewrite list_lookup_insert_eq; [done|]. by eapply lookup_lt_Some.
  - destruct H as [|H]; [done|]. by rewrite list_lookup_insert_ne.
Qed.

Lemma calls_spent ids : forall w j, j ∈ ids \/ spent (wo_closures w) j ->
  spent (wo_closures (fold_left call_closure ids w)) j.
Proof.
  induction ids as [|i ids IH]; intros w j H; cbn [fold_left].
  - destruct H as [H|H]; [by apply not_elem_of_nil in H|done].
  - apply IH. destruct H as [H|H]; [apply elem_of_cons in H as [->|H]|]; auto using call_spent.
Qed.

Lemma call_length w i : length (wo_closures (call_closure w i)) = length (wo_closures w).
Proof.
  unfold call_closure. destruct (wo_closures w !! i) as [[[key|] []]|]; try done. cbn. apply length_insert.
Qed.

Lemma calls_length ids : forall w, length (wo_closures (fold_left call_closure ids w)) = length (wo_closures w).
Proof. induction ids as [|i ids IH]; intros w; cbn [fold_left]; [done|]. by rewrite IH, call_length. Qed.

Lemma all_spent cs : (forall i, (i < length cs)%nat -> spent cs i) -> omap live_key cs = [].
Proof.
  induction cs as [|c cs IH]; intros H; [done|]. pose proof (H 0%nat ltac:(cbn; lia)) as H0. cbn in H0.
  cbn [omap list_omap]. rewrite H0. apply IH. intros i Hi. apply (H (S i)). cbn. lia.
Qed.

Lemma calls_reachable ids : forall w, reachable w -> reachable (fold_left call_closure ids w).
Proof. induction ids as [|i ids IH]; intros w R; cbn [fold_left]; [done|]. apply IH. eapply rtc_r; [exact R|apply step_call]. Qed.

(** Slots do not leak: in every reachable state, once each connection has called its
    release (in any order, any number of times), the limiter is back at zero with an empty
    table. *)
Theorem release_all_empties w ids :
  reachable w -> (forall i, (i < length (wo_closures w))%nat -> i ∈ ids) ->
  let w' := fold_left call_closure ids w in
  cl_total (wo_lim w') = 0 /\ cl_perAddr (wo_lim w') = ∅.
Proof.
  intros R Hall w'. destruct (reachable_accounts w' (calls_reachable ids w R)) as (A1 & A2 & A3).
  assert (L : live w' = []).
  { apply all_spent. intros i Hi. apply calls_spent. left. apply Hall.
    unfold w' in Hi. by rewrite calls_length in Hi. }
  rewrite L in *. split; [done|]. apply map_eq. intros key. rewrite lookup_empty.
  destruct (decide (key = [])) as [->|Hk]; [done|by apply A3].
Qed.

Lemma release_all_empties_witness :
  let w := acquire (acquire (mkWorld (SetEnabled New true) []) [7]) [] in
  cl_total (wo_lim w) = 2
  /\ cl_total (wo_lim (fold_left call_closure [1; 0; 1]%nat w)) = 0.
Proof.
  split; [vm_compute; reflexivity|].
  apply (release_all_empties (acquire (acquire (mkWorld (SetEnabled New true) []) [7]) []) [1; 0; 1]%nat).
  - eapply rtc_l; [apply (step_enabled _ true)|]. eapply rtc_l; [apply (step_acquire _ [7])|].
    eapply rtc_l; [apply (step_acquire _ [])|]. apply rtc_refl.
  - intros i Hi. assert (H2 : (i < 2)%nat) by exact Hi. clear Hi. destruct i as [|[|i]]; [right; left|left|lia].
Defined.
