(* ===== verification/Authlimit.v ===== *)
(** * The login throttle ([internal/authlimit])

    Failed logins are counted per client address and per account, both in one table; a key
    past its threshold is locked out.  The state is the table and the tuning; every clock
    reading the code makes is an argument.  [strings.TrimSpace] and [strings.ToLower] are
    arguments too: no property depends on what they do to a login name. *)

From stdpp Require Import base list numbers gmap.
From Stdlib Require Import ZArith Lia.
From S2P Require Import Prelude Limitbase.
Open Scope Z_scope.

Definition ipPrefix : bytes := [105; 112; 58].            (* "ip:" *)
Definition acctPrefix : bytes := [97; 99; 99; 116; 58].   (* "acct:" *)
Definition ipFailFactor : Z := 4.

(** ** Keys *)

Fixpoint index_byte (c : Z) (s : bytes) : option nat :=
  match s with [] => None | x :: s => if x =? c then Some 0%nat else S <$> index_byte c s end.
Definition last_index_byte (c : Z) (s : bytes) : option nat :=
  (fun i => length s - 1 - i)%nat <$> index_byte c (rev s).

Definition has_byte (c : Z) (s : bytes) : bool := existsb (Z.eqb c) s.

(** The host [net.SplitHostPort] returns, or its refusal. *)
Definition SplitHost (hostport : bytes) : option bytes :=
  match last_index_byte 58 hostport with
  | None => None
  | Some i =>
      if hd 0 hostport =? 91 then
        match index_byte 93 hostport with
        | None => None
        | Some e =>
            if negb (e + 1 =? i)%nat || has_byte 91 (drop 1 hostport) || has_byte 93 (drop (e + 1) hostport)
            then None else Some (take (e - 1) (drop 1 hostport))
        end
      else
        let host := take i hostport in
        if has_byte 58 host || has_byte 91 hostport || has_byte 93 hostport then None else Some host
  end.

Definition ipKey (remoteAddr : bytes) : bytes :=
  match remoteAddr with
  | [] => []
  | _ => match SplitHost remoteAddr with
         | Some host => ipPrefix ++ host
         | None => ipPrefix ++ remoteAddr
         end
  end.

Example ipKey_port : ipKey [49; 46; 50; 58; 52] = ipPrefix ++ [49; 46; 50].
Proof. reflexivity. Qed.
Example ipKey_v6 : ipKey [91; 58; 58; 49; 93; 58; 52] = ipPrefix ++ [58; 58; 49].
Proof. reflexivity. Qed.
Example ipKey_bare_v6 : ipKey [58; 58; 49] = ipPrefix ++ [58; 58; 49].
Proof. reflexivity. Qed.

(** ** The limiter *)

Record attempt := mkAttempt { a_count : Z; a_windowStart : Z; a_lockedUntil : Z }.

Record Limiter := mkLimiter {
  al_attempts : gmap bytes attempt; al_maxFails : Z; al_window : Z; al_lockout : Z }.

Definition DefaultMaxFails : Z := 5.
Definition DefaultWindow : Z := 15 * Minute.
Definition DefaultLockout : Z := 15 * Minute.

Definition New (maxFails window lockout : Z) : Limiter :=
  mkLimiter ∅ (if maxFails <=? 0 then DefaultMaxFails else maxFails)
    (if window <=? 0 then DefaultWindow else window)
    (if lockout <=? 0 then DefaultLockout else lockout).

Definition SetLimits (l : Limiter) (maxFails window lockout : Z) : Limiter :=
  mkLimiter (al_attempts l)
    (if 0 <? maxFails then maxFails else al_maxFails l)
    (if 0 <? window then window else al_window l)
    (if 0 <? lockout then lockout else al_lockout l).

Definition set_attempts (l : Limiter) (m : gmap bytes attempt) : Limiter :=
  mkLimiter m (al_maxFails l) (al_window l) (al_lockout l).

Definition allowedKey (l : Limiter) (now : Z) (key : bytes) : bool :=
  if bool_decide (key = []) then true
  else match al_attempts l !! key with
       | None => true
       | Some a => negb (now <? a_lockedUntil a)
       end.

Definition att_elapsed (now window : Z) (a : attempt) : bool :=
  (window <=? time_Sub now (a_windowStart a)) && (a_lockedUntil a <? now).

Definition sweep_attempts (now window : Z) (m : gmap bytes attempt) : gmap bytes attempt * bool :=
  sweep (att_elapsed now window) m.

(** The failure on the entry of the key, found or made. *)
Definition record_fail (now window lockout maxFails : Z) (a : attempt) : attempt :=
  let a :=
    if (window <=? time_Sub now (a_windowStart a))
       || (negb (a_lockedUntil a =? 0) && (a_lockedUntil a <? now))
    then mkAttempt 0 now 0 else a in
  let count := a_count a + 1 in
  mkAttempt count (a_windowStart a)
    (if maxFails <=? count then now + lockout else a_lockedUntil a).

Definition failKey (l : Limiter) (now : Z) (key : bytes) (maxFails : Z) : Limiter :=
  if bool_decide (key = []) then l
  else
    let m := al_attempts l in
    let store m a := set_attempts l (<[key := record_fail now (al_window l) (al_lockout l) maxFails a]> m) in
    match m !! key with
    | Some a => store m a
    | None =>
        if maxKeys <=? Z.of_nat (size m) then
          let '(m, freed) := sweep_attempts now (al_window l) m in
          if freed then store m (mkAttempt 0 now 0) else set_attempts l m
        else store m (mkAttempt 0 now 0)
    end.

Definition forget (m : gmap bytes attempt) (key : bytes) : gmap bytes attempt :=
  if bool_decide (key = []) then m else delete key m.

Definition Prune (l : Limiter) (now : Z) : Limiter :=
  set_attempts l (sweep_attempts now (al_window l) (al_attempts l)).1.

Record Settings := mkSettings { set_MaxFails : Z; set_WindowSeconds : Z; set_LockoutSeconds : Z }.

Definition Apply {E} (l : Limiter) (read : result E (option Settings)) : Limiter :=
  match read with
  | Err _ | Ok None => l
  | Ok (Some s) => SetLimits l (set_MaxFails s) (seconds (set_WindowSeconds s)) (seconds (set_LockoutSeconds s))
  end.

Section login.
Context (TrimSpace ToLower : bytes -> bytes).

Definition accountKey (user : bytes) : bytes :=
  match ToLower (TrimSpace user) with [] => [] | u => acctPrefix ++ u end.

(** The clock is read once per axis. *)
Definition Allowed (l : Limiter) (now1 now2 : Z) (addr account : bytes) : bool :=
  allowedKey l now1 (ipKey addr) && allowedKey l now2 (accountKey account).

Definition Fail (l : Limiter) (now1 now2 : Z) (addr account : bytes) : Limiter :=
  let maxFails := al_maxFails l in
  failKey (failKey l now1 (ipKey addr) (signed 64 (u64 (maxFails * ipFailFactor))))
    now2 (accountKey account) maxFails.

Definition Succeed (l : Limiter) (addr account : bytes) : Limiter :=
  set_attempts l (forget (forget (al_attempts l) (ipKey addr)) (accountKey account)).
End login.

(** ** Login attempts one after the other *)

(** A login reads the clock four times: twice for [Allowed], and twice more for [Fail] when it
    is admitted and the password is wrong. *)
Record login := mkLogin {
  lg_t1 : Z; lg_t2 : Z; lg_t3 : Z; lg_t4 : Z; lg_addr : bytes; lg_acct : bytes; lg_ok : bool }.
Inductive event := ELogin (g : login) | EPrune (now : Z).

Definition ev_start (e : event) : Z := match e with ELogin g => lg_t1 g | EPrune t => t end.
Definition ev_end (e : event) : Z := match e with ELogin g => lg_t4 g | EPrune t => t end.

(** The clock does not go back. *)
Definition ev_ordered (e : event) : bool :=
  match e with
  | ELogin g => (lg_t1 g <=? lg_t2 g) && (lg_t2 g <=? lg_t3 g) && (lg_t3 g <=? lg_t4 g)
  | EPrune _ => true
  end.
Fixpoint ordered (t : Z) (evs : list event) : bool :=
  match evs with [] => true | e :: evs => (t <=? ev_start e) && ev_ordered e && ordered (ev_end e) evs end.

(** ** What is known of one key *)

Section bound.
Context (F W L t0 : Z) (HF : 1 <= F) (HW : 0 < W <= maxDuration) (HL : 0 < L).

Definition span : Z := Z.min W L.

(** The newest window of the key started at [s], counts [c] and locks until [u]; [a] failures
    were recorded in the interval [t0, t0 + span) so far, and the time is [t]. *)
Definition ledger (s c u t a : Z) : Prop :=
  if t0 + span <=? s then a <= 2 * F
  else if t0 <=? s then a <= F + Z.min c F /\ (F <= c -> t0 + span <= u)
  else a <= Z.min c F /\ (F <= c -> a <= 0 \/ t0 + span <= u).

Definition tracks (oa : option attempt) (s : option Z) (t a : Z) : Prop :=
  (t < t0 -> a <= 0) /\ 0 <= t /\
  match oa with
  | Some x =>
      s = Some (a_windowStart x) /\ 0 <= a_windowStart x <= t /\ 1 <= a_count x
      /\ (if F <=? a_count x then a_windowStart x + L <= a_lockedUntil x else a_lockedUntil x = 0)
      /\ ledger (a_windowStart x) (a_count x) (a_lockedUntil x) t a
  | None =>
      match s with
      | Some s0 => s0 + span <= t /\ a <= (if s0 <? t0 then F else 2 * F)
      | None => a <= 0
      end
  end.

Definition in_interval (t : Z) : bool := (t0 <=? t) && (t <? t0 + span).

Ltac cases := unfold ledger, in_interval, span in *;
  repeat match goal with
  | |- context [?x <=? ?y] => destruct (Z.leb_spec x y)
  | |- context [?x <? ?y] => destruct (Z.ltb_spec x y)
  | H : context [?x <=? ?y] |- _ => destruct (Z.leb_spec x y)
  | H : context [?x <? ?y] |- _ => destruct (Z.ltb_spec x y)
  end; cbn [andb] in *; try lia.

Lemma ledger_later oa s t t' a : t <= t' -> tracks oa s t a -> tracks oa s t' a.
Proof.
  intros Ht (H0 & H1 & H2). split; [lia|]. split; [lia|]. destruct oa as [x|]; [|destruct s; intuition lia].
  destruct H2 as (? & ? & ? & ? & ?). repeat split; try done; lia.
Qed.

Lemma ledger_bound oa s t a : tracks oa s t a -> a <= 2 * F.
Proof.
  intros (_ & _ & H). destruct oa as [x|]; [destruct H as (_ & _ & H1 & _ & H)|destruct s]; cases.
Qed.

(** The threshold is met anew: the entry of a first failure. *)
Definition first_fail (t : Z) : attempt := mkAttempt 1 t (if F <=? 1 then t + L else 0).

Lemma ledger_new s t a :
  tracks None s t a -> tracks (Some (first_fail t)) (Some t) t (a + if in_interval t then 1 else 0).
Proof.
  intros (H0 & H1 & H). split; [cases|]. split; [done|]. cbn [first_fail a_windowStart a_count a_lockedUntil].
  split; [done|]. split; [lia|]. split; [lia|]. split; [cases|]. destruct s as [s0|]; cases.
Qed.

(** An entry whose window or lockout has passed may be dropped or restarted. *)
Lemma ledger_drop x s t a :
  tracks (Some x) s t a -> a_lockedUntil x <= t ->
  W <= t - a_windowStart x \/ (a_lockedUntil x <> 0 /\ a_lockedUntil x < t) -> tracks None s t a.
Proof.
  intros (H0 & H1 & -> & H2 & H3 & H4 & H5) Hu Hr. split; [done|]. split; [done|].
  split; cases.
Qed.

Lemma record_fail_new t a : a = mkAttempt 0 t 0 \/ (W <= t - a_windowStart a \/ (a_lockedUntil a <> 0 /\ a_lockedUntil a < t)) ->
  record_fail t W L F a = first_fail t.
Proof.
  unfold record_fail. rewrite time_Sub_ge by lia. intros [->|H]; cbn [a_windowStart a_lockedUntil].
  - destruct (_ || _); reflexivity.
  - assert ((W <=? t - a_windowStart a) || negb (a_lockedUntil a =? 0) && (a_lockedUntil a <? t) = true) as ->; [|reflexivity].
    destruct H as [H|[H1 H2]]; apply orb_true_iff; [left; by apply Z.leb_le|right].
    apply andb_true_iff. split; [by apply negb_true_iff, Z.eqb_neq|by apply Z.ltb_lt].
Qed.

Lemma tracks_fail x s t a :
  tracks (Some x) s t a -> a_lockedUntil x <= t ->
  exists s', tracks (Some (record_fail t W L F x)) s' t (a + if in_interval t then 1 else 0).
Proof.
  intros H Hu.
  destruct (decide (W <= t - a_windowStart x \/ (a_lockedUntil x <> 0 /\ a_lockedUntil x < t))) as [Hr|Hr].
  - exists (Some t). rewrite record_fail_new by tauto. eapply ledger_new, ledger_drop; eauto.
  - exists s. unfold record_fail. rewrite time_Sub_ge by lia.
    assert ((W <=? t - a_windowStart x) || negb (a_lockedUntil x =? 0) && (a_lockedUntil x <? t) = false) as ->.
    { apply orb_false_iff. split; [apply Z.leb_gt; lia|]. apply andb_false_iff.
      destruct (Z.eqb_spec (a_lockedUntil x) 0); [by left|right]. apply Z.ltb_ge. lia. }
    destruct H as (H0 & H1 & -> & H2 & H3 & H4 & H5). split; [cases|]. split; [done|].
    cbn [a_windowStart a_count a_lockedUntil]. split; [done|]. split; [done|]. split; [lia|]. split; [cases|]. cases.
Qed.
End bound.

Section trace.
Context (TrimSpace ToLower : bytes -> bytes).
Abbreviation acct_key := (accountKey TrimSpace ToLower).

Definition step (l : Limiter) (e : event) : Limiter :=
  match e with
  | ELogin g =>
      if Allowed TrimSpace ToLower l (lg_t1 g) (lg_t2 g) (lg_addr g) (lg_acct g) then
        if lg_ok g then Succeed TrimSpace ToLower l (lg_addr g) (lg_acct g)
        else Fail TrimSpace ToLower l (lg_t3 g) (lg_t4 g) (lg_addr g) (lg_acct g)
      else l
  | EPrune t => Prune l t
  end.

(** Does the event try a wrong password on the key's account, with the failure recorded in the
    [d] nanoseconds from [t0]? *)
Definition guesses (l : Limiter) (k : bytes) (t0 d : Z) (e : event) : bool :=
  match e with
  | ELogin g =>
      bool_decide (acct_key (lg_acct g) = k) && negb (lg_ok g)
      && Allowed TrimSpace ToLower l (lg_t1 g) (lg_t2 g) (lg_addr g) (lg_acct g)
      && ((t0 <=? lg_t4 g) && (lg_t4 g <? t0 + d))
  | EPrune _ => false
  end.

Fixpoint guessed (l : Limiter) (k : bytes) (t0 d : Z) (evs : list event) : Z :=
  match evs with
  | [] => 0
  | e :: evs => (if guesses l k t0 d e then 1 else 0) + guessed (step l e) k t0 d evs
  end.

(** Nobody signs in to the account. *)
Definition no_success (k : bytes) (e : event) : bool :=
  match e with ELogin g => negb (lg_ok g) || negb (bool_decide (acct_key (lg_acct g) = k)) | EPrune _ => true end.

Definition ev_keys (evs : list event) : gset bytes :=
  list_to_set (concat (map (fun e =>
    match e with ELogin g => [ipKey (lg_addr g); acct_key (lg_acct g)] | EPrune _ => [] end) evs)).

Lemma login_ev_keys_tail e evs : ev_keys evs ⊆ ev_keys (e :: evs).
Proof. unfold ev_keys. cbn [map concat]. rewrite list_to_set_app. apply union_subseteq_r. Qed.

Lemma login_ev_keys_head g evs :
  ipKey (lg_addr g) ∈ ev_keys (ELogin g :: evs) /\ acct_key (lg_acct g) ∈ ev_keys (ELogin g :: evs).
Proof. unfold ev_keys. cbn [map concat app]. rewrite !list_to_set_cons. split; set_solver. Qed.

(** An address and an account never share a counter. *)
Lemma keys_disjoint addr acct : ipKey addr = acct_key acct -> ipKey addr = [].
Proof.
  unfold ipKey, accountKey. destruct addr as [|b addr]; [done|].
  destruct (SplitHost _), (ToLower _); discriminate.
Qed.

Lemma failKey_lookup (l : Limiter) (now : Z) (key : bytes) (mf : Z) (K : gset bytes) (k : bytes) :
  dom (al_attempts l) ⊆ K -> key ∈ K -> Z.of_nat (size K) <= maxKeys ->
  al_attempts (failKey l now key mf) !! k
  = if bool_decide (key = []) then al_attempts l !! k
    else if bool_decide (key = k)
    then Some (record_fail now (al_window l) (al_lockout l) mf (default (mkAttempt 0 now 0) (al_attempts l !! key)))
    else al_attempts l !! k.
Proof.
  intros Hd Hk HK. unfold failKey. destruct (bool_decide (key = [])); [done|].
  destruct (al_attempts l !! key) as [a|] eqn:E.
  2: { pose proof (room _ _ _ Hd Hk E). rewrite (proj2 (Z.leb_gt _ _)) by lia. cbn.
       case_bool_decide; [subst; by rewrite lookup_insert_eq|by rewrite lookup_insert_ne]. }
  cbn. case_bool_decide; [subst; by rewrite lookup_insert_eq|by rewrite lookup_insert_ne].
Qed.

Lemma failKey_dom (l : Limiter) (now : Z) (key : bytes) (mf : Z) (K : gset bytes) :
  dom (al_attempts l) ⊆ K -> key ∈ K -> Z.of_nat (size K) <= maxKeys ->
  dom (al_attempts (failKey l now key mf)) ⊆ K.
Proof.
  intros Hd Hk HK x. rewrite elem_of_dom, (failKey_lookup l now key mf K) by done.
  intros Hx. case_bool_decide; [by apply Hd, elem_of_dom|]. case_bool_decide; [by subst|by apply Hd, elem_of_dom].
Qed.

Lemma failKey_tuning l now key mf :
  al_maxFails (failKey l now key mf) = al_maxFails l /\ al_window (failKey l now key mf) = al_window l
  /\ al_lockout (failKey l now key mf) = al_lockout l.
Proof.
  unfold failKey. destruct (bool_decide _); [done|]. destruct (_ !! key); [done|].
  destruct (_ <=? _); [|done]. destruct (sweep_attempts _ _ _) as [m []]; done.
Qed.

Lemma forget_lookup m key k :
  forget m key !! k = if negb (bool_decide (key = [])) && bool_decide (key = k) then None else m !! k.
Proof.
  unfold forget. case_bool_decide; [done|]. cbn [negb andb]. case_bool_decide;
    [subst; apply lookup_delete_eq|by apply lookup_delete_ne].
Qed.

Context (F W L t0 : Z) (HF : 1 <= F) (HW : 0 < W <= maxDuration) (HL : 0 < L).

Definition tuned (l : Limiter) : Prop := al_maxFails l = F /\ al_window l = W /\ al_lockout l = L.

Lemma Fail_lookup (l : Limiter) (t3 t4 : Z) (addr acct : bytes) (K : gset bytes) (k : bytes) :
  tuned l -> dom (al_attempts l) ⊆ K -> ipKey addr ∈ K -> acct_key acct ∈ K -> Z.of_nat (size K) <= maxKeys ->
  k <> [] -> (exists u, acct_key u = k) ->
  let l' := Fail TrimSpace ToLower l t3 t4 addr acct in
  tuned l' /\ dom (al_attempts l') ⊆ K
  /\ al_attempts l' !! k
     = if bool_decide (acct_key acct = k)
       then Some (record_fail t4 W L F (default (mkAttempt 0 t4 0) (al_attempts l !! k)))
       else al_attempts l !! k.
Proof.
  intros (T1 & T2 & T3) Hd Hip Hac HK Hk [u Hu] l'. unfold l', Fail.
  set (l1 := failKey l t3 _ _). destruct (failKey_tuning l t3 (ipKey addr) (signed 64 (u64 (al_maxFails l * ipFailFactor)))) as (U1 & U2 & U3).
  fold l1 in U1, U2, U3. assert (Hd1 : dom (al_attempts l1) ⊆ K) by by apply failKey_dom.
  assert (L1 : al_attempts l1 !! k = al_attempts l !! k).
  { unfold l1. rewrite (failKey_lookup _ _ _ _ K) by done. destruct (bool_decide (ipKey addr = [])) eqn:E; [done|].
    rewrite bool_decide_false; [done|]. intros <-. apply bool_decide_eq_false in E. apply E.
    apply (keys_disjoint addr u). by rewrite Hu. }
  split; [|split; [by apply failKey_dom|]].
  - destruct (failKey_tuning l1 t4 (acct_key acct) (al_maxFails l)) as (V1 & V2 & V3). unfold tuned. split; [congruence|]. split; congruence.
  - rewrite (failKey_lookup _ _ _ _ K) by done. rewrite U2, U3, T1, T2, T3.
    destruct (decide (acct_key acct = k)) as [E|E]; [rewrite (bool_decide_true (acct_key acct = k)) by done|].
    + rewrite bool_decide_false by congruence. by rewrite E, L1.
    + rewrite (bool_decide_false (acct_key acct = k)) by done. by destruct (bool_decide _).
Qed.

Lemma login_step_tracks (l : Limiter) (e : event) (k : bytes) (s : option Z) (t a : Z) (K : gset bytes) :
  tuned l -> k <> [] -> (exists u, acct_key u = k) -> dom (al_attempts l) ⊆ K -> Z.of_nat (size K) <= maxKeys ->
  (forall g, e = ELogin g -> ipKey (lg_addr g) ∈ K /\ acct_key (lg_acct g) ∈ K) ->
  tracks F W L t0 (al_attempts l !! k) s t a -> t <= ev_start e -> ev_ordered e = true -> no_success k e = true ->
  tuned (step l e) /\ dom (al_attempts (step l e)) ⊆ K
  /\ exists s', tracks F W L t0 (al_attempts (step l e) !! k) s' (ev_end e)
                  (a + if guesses l k t0 (span W L) e then 1 else 0).
Proof.
  intros T Hk Hac Hd HK Hin H Ht Ho Hs. destruct e as [g|now]; cbn [ev_start ev_end ev_ordered step guesses no_success] in *.
  - bprop. apply ledger_later with (t' := lg_t4 g) in H; [|try done; lia..]. destruct (Hin g eq_refl) as [K1 K2].
    destruct (Allowed _ _ _ _ _ _ _) eqn:A.
    2: { split; [done|]. split; [done|]. exists s. rewrite andb_false_r, Z.add_0_r. done. }
    destruct (lg_ok g) eqn:Ok.
    + split; [done|]. split.
      { intros x Hx. cbn in Hx. apply Hd. apply elem_of_dom in Hx as [v Hv]. rewrite !forget_lookup in Hv.
        apply elem_of_dom. destruct (_ && _); [done|]. destruct (_ && _); [done|]. by exists v. }
      exists s. cbn [negb] in *. rewrite andb_false_r, Z.add_0_r. cbn [Succeed set_attempts al_attempts].
      rewrite !forget_lookup. cbn [orb] in Hs. destruct (bool_decide (acct_key (lg_acct g) = k)); [done|].
      rewrite andb_false_r. destruct Hac as [u Hu]. case_bool_decide as Hip; [done|]. cbn [negb andb].
      rewrite bool_decide_false; [done|]. intros E. apply Hip, (keys_disjoint (lg_addr g) u). by rewrite Hu.
    + destruct (Fail_lookup l (lg_t3 g) (lg_t4 g) (lg_addr g) (lg_acct g) K k T Hd K1 K2 HK Hk Hac) as (T' & D' & E').
      split; [done|]. split; [done|]. rewrite E'. cbn [negb]. rewrite !andb_true_r.
      case_bool_decide as Hacct; [|exists s; cbn [andb]; by rewrite Z.add_0_r].
      cbn [andb]. fold (in_interval W L t0 (lg_t4 g)).
      unfold Allowed in A. apply andb_prop in A as [_ A]. rewrite Hacct in A. unfold allowedKey in A.
      rewrite bool_decide_false in A by done.
      destruct (al_attempts l !! k) as [x|]; cbn [default].
      * eapply tracks_fail; [done..|exact H|]. apply negb_true_iff, Z.ltb_ge in A.
        unfold id. lia.
      * exists (Some (lg_t4 g)). replace (record_fail _ _ _ _ _) with (first_fail F L (lg_t4 g)).
        2: { symmetry. apply record_fail_new; try done. by left. }
        by eapply ledger_new.
  - split; [done|]. split; [etrans; [apply sweep_dom|done]|]. exists s. rewrite Z.add_0_r.
    apply ledger_later with (t' := now) in H; [|done..]. cbn [Prune set_attempts al_attempts].
    unfold sweep_attempts. rewrite sweep_lookup. destruct (al_attempts l !! k) as [x|]; [|done].
    destruct (att_elapsed now (al_window l) x) eqn:E; [|done]. destruct T as (T1 & T2 & T3). rewrite T2 in E.
    unfold att_elapsed in E. apply andb_prop in E as [E1 E2]. rewrite time_Sub_ge in E1 by lia. bprop.
    eapply ledger_drop; eauto; lia.
Qed.

Lemma guessed_bound (evs : list event) : forall (l : Limiter) (k : bytes) (s : option Z) (t a : Z) (K : gset bytes),
  tuned l -> k <> [] -> (exists u, acct_key u = k) -> dom (al_attempts l) ⊆ K -> Z.of_nat (size K) <= maxKeys ->
  ev_keys evs ⊆ K -> tracks F W L t0 (al_attempts l !! k) s t a -> ordered t evs = true ->
  forallb (no_success k) evs = true ->
  a + guessed l k t0 (span W L) evs <= 2 * F.
Proof.
  induction evs as [|e evs IH]; intros l k s t a K T Hk Hac Hd HK Hin H Ho Hs; cbn [guessed ordered forallb] in *.
  - apply ledger_bound in H; lia.
  - apply andb_prop in Ho as [Ho Ho']. apply andb_prop in Ho as [Ht Ho]. apply andb_prop in Hs as [Hs Hs'].
    apply Z.leb_le in Ht.
    assert (He : forall g, e = ELogin g -> ipKey (lg_addr g) ∈ K /\ acct_key (lg_acct g) ∈ K).
    { intros g ->. destruct (login_ev_keys_head g evs). split; by apply Hin. }
    pose proof (transitivity (login_ev_keys_tail e evs) Hin) as Hin'.
    destruct (login_step_tracks l e k s t a K T Hk Hac Hd HK He H Ht Ho Hs) as (T' & Hd' & s' & H').
    specialize (IH (step l e) k s' (ev_end e) _ K T' Hk Hac Hd' HK Hin' H' Ho' Hs'). lia.
Qed.
End trace.

Lemma New_positive mf w lo :
  inS 64 w = true ->
  1 <= al_maxFails (New mf w lo) /\ 0 < al_window (New mf w lo) <= maxDuration /\ 0 < al_lockout (New mf w lo).
Proof.
  intros Hw. apply inS_spec in Hw. change (2 ^ (64 - 1)) with (maxDuration + 1) in Hw. cbn [New al_maxFails al_window al_lockout].
  assert (0 < DefaultWindow <= maxDuration) by done. assert (0 < DefaultLockout) by done.
  assert (1 <= DefaultMaxFails) by done.
  destruct (Z.leb_spec mf 0), (Z.leb_spec w 0), (Z.leb_spec lo 0); lia.
Qed.

(** C37. Guessing an account's password is bounded: whatever addresses the attempts come from and
    whatever else the daemon serves, while nobody signs in to the account, at most twice the
    threshold of wrong passwords are tried against it in any span no longer than the counting
    window and the lockout.  Logins run one after the other, and the addresses and accounts of the
    whole run fit in the limiter's table of 100,000 keys: when the table is full of live counters, a
    new key is not counted and its attempts are admitted, as the limiter documents, and there is no
    such bound. *)
Theorem guessing_bounded (TrimSpace ToLower : bytes -> bytes) (mf w lo : Z) (acct : bytes) (t t0 : Z) (evs : list event) :
  let l := New mf w lo in
  let k := accountKey TrimSpace ToLower acct in
  inS 64 w = true -> k <> [] -> 0 <= t -> ordered t evs = true ->
  forallb (no_success TrimSpace ToLower k) evs = true ->
  Z.of_nat (size (ev_keys TrimSpace ToLower evs)) <= maxKeys ->
  guessed TrimSpace ToLower l k t0 (Z.min (al_window l) (al_lockout l)) evs <= 2 * al_maxFails l.
Proof.
  intros l k Hw Hk Ht Ho Hs HK. destruct (New_positive mf w lo Hw) as (P1 & P2 & P3).
  pose proof (guessed_bound TrimSpace ToLower (al_maxFails l) (al_window l) (al_lockout l) t0 P1 P2 P3
    evs l k None t 0 (ev_keys TrimSpace ToLower evs)) as H. rewrite Z.add_0_l in H.
  assert (Hd : dom (al_attempts l) ⊆ ev_keys TrimSpace ToLower evs).
  { intros x Hx. apply elem_of_dom in Hx as [v Hv]. cbn in Hv. by rewrite lookup_empty in Hv. }
  apply H; try done; [by exists acct|]. unfold l. cbn [New al_attempts]. rewrite lookup_empty. by split.
Qed.

Lemma guessing_bounded_witness :
  let evs := [ELogin (mkLogin 1 1 1 1 [1] [9] false); ELogin (mkLogin 2 2 2 2 [2] [9] false);
              ELogin (mkLogin 3 3 3 3 [3] [9] false); ELogin (mkLogin 4 4 4 4 [4] [9] false);
              EPrune 5; ELogin (mkLogin 60 60 60 60 [5] [9] false)] in
  guessed id id (New 2 50 50) (accountKey id id [9]) 0 50 evs <= 4
  /\ guessed id id (New 2 50 50) (accountKey id id [9]) 0 50 evs = 2.
Proof.
  split; [|vm_compute; reflexivity].
  apply (guessing_bounded id id 2 50 50 [9] 0 0
    [ELogin (mkLogin 1 1 1 1 [1] [9] false); ELogin (mkLogin 2 2 2 2 [2] [9] false);
     ELogin (mkLogin 3 3 3 3 [3] [9] false); ELogin (mkLogin 4 4 4 4 [4] [9] false);
     EPrune 5; ELogin (mkLogin 60 60 60 60 [5] [9] false)]);
    [reflexivity|discriminate|lia|reflexivity|reflexivity|vm_compute; discriminate].
Defined.

(** A lockout can be lost: a failure recorded for a locked key after its counting window has
    passed (a login admitted before the lock, whose password was checked late) clears the lock
    and the count, and the key is admitted again while the lockout still runs. *)
Theorem late_failure_unlocks (l : Limiter) (key : bytes) (a : attempt) (now mf : Z) :
  key <> [] -> al_attempts l !! key = Some a -> 2 <= mf -> 0 <= now ->
  0 < al_window l <= maxDuration -> al_window l <= now - a_windowStart a ->
  allowedKey l now key = false ->
  allowedKey (failKey l now key mf) now key = true
  /\ al_attempts (failKey l now key mf) !! key = Some (mkAttempt 1 now 0).
Proof.
  intros Hk Ha Hmf Hnow HW Hw _. assert (E : al_attempts (failKey l now key mf) !! key = Some (mkAttempt 1 now 0)).
  { unfold failKey. rewrite bool_decide_false, Ha by done. cbn. rewrite lookup_insert_eq. f_equal.
    unfold record_fail. rewrite time_Sub_ge, (proj2 (Z.leb_le _ _)) by lia.
    cbn [orb a_count a_windowStart a_lockedUntil]. by rewrite (proj2 (Z.leb_gt mf (0 + 1))) by lia. }
  split; [|done]. unfold allowedKey. rewrite bool_decide_false, E by done. cbn.
  apply negb_true_iff, Z.ltb_ge. lia.
Qed.

(** Two logins are admitted at once; the first failure locks the account for 100, the second
    one is recorded when the window of 10 has passed. *)
Lemma late_failure_unlocks_witness :
  let k := accountKey id id [9] in
  let l := failKey (failKey (New 2 10 100) 1 k 2) 10 k 2 in
  allowedKey (failKey (New 2 10 100) 1 k 2) 10 k = true /\ allowedKey l 11 k = false
  /\ allowedKey (failKey l 11 k 2) 11 k = true.
Proof.
  split; [vm_compute; reflexivity|]. split; [vm_compute; reflexivity|].
  apply (late_failure_unlocks (failKey (failKey (New 2 10 100) 1 (accountKey id id [9]) 2) 10 (accountKey id id [9]) 2)
    (accountKey id id [9]) (mkAttempt 2 1 110) 11 2); [discriminate|vm_compute; reflexivity|lia|lia| |vm_compute; discriminate|vm_compute; reflexivity].
  vm_compute. split; [reflexivity|discriminate].
Defined.
