(* ===== verification/Netline.v ===== *)
(** * Bounded lines ([internal/netline])

    The reader is the bytes still to come; running out of them is the read error. *)

From stdpp Require Import base list numbers.
From Stdlib Require Import ZArith Lia.
From S2P Require Import Prelude.
Open Scope Z_scope.

Inductive nl_error := ErrRead | ErrTooLong.

Definition LF : Z := 10.
Definition CR : Z := 13.

(** Up to and including the next LF; the reader after it. *)
Fixpoint discardLine (br : bytes) : result nl_error unit * bytes :=
  match br with
  | [] => (Err ErrRead, [])
  | b :: br => if b =? LF then (Ok tt, br) else discardLine br
  end.

Definition strip_cr (buf : bytes) : bytes :=
  if (0 <? len buf) && (List.last buf 0 =? CR) then removelast buf else buf.

Fixpoint read_line (br buf : bytes) (max : Z) : result nl_error bytes * bytes :=
  match br with
  | [] => (Err ErrRead, [])
  | b :: br =>
      if b =? LF then (Ok (strip_cr buf), br)
      else if (0 <? max) && (max <? len buf) then
        match discardLine br with
        | (Err e, br) => (Err e, br)
        | (Ok _, br) => (Err ErrTooLong, br)
        end
      else read_line br (buf ++ [b]) max
  end.
Definition ReadLine (br : bytes) (max : Z) : result nl_error bytes * bytes := read_line br [] max.

(** ** Reading by the first LF *)

Definition no_lf (b : bytes) : bool := forallb (fun x => negb (x =? LF)) b.

Lemma discardLine_lf line rest : no_lf line = true -> discardLine (line ++ LF :: rest) = (Ok tt, rest).
Proof.
  induction line as [|b line IH]; cbn [app discardLine no_lf forallb]; [done|]. intros H. apply andb_prop in H as [H1 H2].
  apply negb_true_iff in H1. by rewrite H1, IH.
Qed.

Lemma discardLine_end line : no_lf line = true -> discardLine line = (Err ErrRead, []).
Proof.
  induction line as [|b line IH]; cbn [discardLine no_lf forallb]; [done|]. intros H. apply andb_prop in H as [H1 H2].
  apply negb_true_iff in H1. by rewrite H1, IH.
Qed.

Lemma read_line_lf line : forall buf max rest,
  no_lf line = true ->
  read_line (line ++ LF :: rest) buf max
  = ((if (0 <? max) && (max + 1 <? len buf + len line) && negb (bool_decide (line = []))
      then Err ErrTooLong else Ok (strip_cr (buf ++ line))), rest).
Proof.
  induction line as [|b line IH]; intros buf max rest H; cbn [app read_line].
  - change (LF =? LF) with true. cbv iota. rewrite bool_decide_true by done. cbn [negb].
    by rewrite andb_false_r, app_nil_r.
  - cbn [no_lf forallb] in H. apply andb_prop in H as [H1 H2]. apply negb_true_iff in H1. rewrite H1. rewrite (bool_decide_false (b :: line = [])) by done.
    cbn [negb]. rewrite andb_true_r, len_cons. pose proof (len_nonneg line) as Hl.
    destruct (Z.ltb_spec 0 max) as [Hm|Hm]; cbn [andb].
    + destruct (Z.ltb_spec max (len buf)) as [Hb|Hb].
      * rewrite (proj2 (Z.ltb_lt _ _)) by lia. by rewrite discardLine_lf.
      * rewrite IH by done. rewrite (proj2 (Z.ltb_lt 0 max)) by lia. cbn [andb].
        rewrite len_app, len_cons, len_nil, <- app_assoc. cbn [app].
        replace (len buf + (1 + 0) + len line) with (len buf + (1 + len line)) by lia.
        case_bool_decide as Hn; cbn [negb]; [|by rewrite andb_true_r].
        subst line. rewrite len_nil, andb_false_r. by rewrite (proj2 (Z.ltb_ge _ _)) by lia.
    + rewrite IH by done. rewrite (proj2 (Z.ltb_ge 0 max)) by lia. cbn [andb].
      by rewrite <- app_assoc.
Qed.

Lemma read_line_end line : forall buf max, no_lf line = true -> read_line line buf max = (Err ErrRead, []).
Proof.
  induction line as [|b line IH]; intros buf max H; cbn [read_line]; [done|]. cbn [no_lf forallb] in H. 
  apply andb_prop in H as [H1 H2]. apply negb_true_iff in H1. rewrite H1. destruct (_ && _); [by rewrite discardLine_end|by apply IH].
Qed.

(** Reading a line answers by the bytes before the next LF: they are the line, less one CR at
    their end, when there are at most one more than the limit; otherwise the line is refused.
    Either way the reader resumes right after the LF, so the next read starts a line.  A stream
    that ends first is a read error. *)
Theorem ReadLine_spec line rest max :
  no_lf line = true ->
  ReadLine (line ++ LF :: rest) max
  = ((if (0 <? max) && (max + 1 <? len line) then Err ErrTooLong else Ok (strip_cr line)), rest)
  /\ ReadLine line max = (Err ErrRead, []).
Proof.
  intros H. split; [|by apply read_line_end]. unfold ReadLine. rewrite read_line_lf by done.
  change (len (@nil Z)) with 0. rewrite Z.add_0_l. f_equal. cbn [app]. case_bool_decide as Hn; cbn [negb]; [|by rewrite andb_true_r].
  subst line. change (len (@nil Z)) with 0. rewrite andb_false_r. destruct (Z.ltb_spec 0 max); cbn [andb]; [|done].
  by rewrite (proj2 (Z.ltb_ge _ _)) by lia.
Qed.

Lemma ReadLine_spec_witness :
  ReadLine ([65; 66; 67; 68; 69] ++ LF :: [70; LF]) 3 = (Err ErrTooLong, [70; LF])
  /\ ReadLine ([65; 66; 67; CR] ++ LF :: [70; LF]) 3 = (Ok [65; 66; 67], [70; LF]).
Proof.
  split; [apply (ReadLine_spec [65; 66; 67; 68; 69] [70; LF] 3)|apply (ReadLine_spec [65; 66; 67; CR] [70; LF] 3)];
    reflexivity.
Defined.

(** The limit is one byte loose: a line one byte past it that ends in a bare LF is returned
    whole, where a longer line than the limit is to be refused. *)
Theorem line_past_limit line rest max :
  no_lf line = true -> List.last line 0 <> CR -> 0 < max -> len line = max + 1 ->
  ReadLine (line ++ LF :: rest) max = (Ok line, rest).
Proof.
  intros H Hc Hm Hl. unfold ReadLine. rewrite read_line_lf by done. cbn [app]. change (len (@nil Z)) with 0. rewrite Z.add_0_l, Hl.
  rewrite Z.ltb_irrefl, andb_false_r. cbn [andb]. f_equal. unfold strip_cr.
  by rewrite (proj2 (Z.eqb_neq _ _)), andb_false_r by done.
Qed.

Lemma line_past_limit_witness : ReadLine ([65; 66; 67; 68] ++ LF :: []) 3 = (Ok [65; 66; 67; 68], []).
Proof. apply (line_past_limit [65; 66; 67; 68] [] 3); [reflexivity|discriminate|lia|reflexivity]. Defined.

(** ** Reading shortens the input, and a line holds no LF *)

Lemma discardLine_len br : (length (discardLine br).2 <= length br)%nat.
Proof. induction br as [|b br IH]; cbn [discardLine]; [done|]. destruct (b =? LF); cbn in *; lia. Qed.

Lemma read_line_len br : forall buf max, (length (read_line br buf max).2 <= length br)%nat
  /\ ((read_line br buf max).1 <> Err ErrRead -> (length (read_line br buf max).2 < length br)%nat).
Proof.
  induction br as [|b br IH]; intros buf max; cbn [read_line]; [done|].
  destruct (b =? LF); [cbn; lia|]. destruct ((0 <? max) && (max <? len buf)).
  - pose proof (discardLine_len br) as D. destruct (discardLine br) as [[[]|e] r]; cbn in *; lia.
  - destruct (IH (buf ++ [b]) max) as [I1 I2]. cbn [length]. split; [lia|]. intros N. specialize (I2 N). lia.
Qed.

Lemma no_lf_app a b : no_lf (a ++ b) = no_lf a && no_lf b.
Proof. apply forallb_app. Qed.
Lemma strip_cr_no_lf l : no_lf l = true -> no_lf (strip_cr l) = true.
Proof.
  unfold strip_cr. destruct ((0 <? len l) && (List.last l 0 =? CR)); [|done]. intros H.
  destruct l as [|x l] using rev_ind; [done|]. rewrite removelast_last. rewrite no_lf_app in H. by apply andb_prop in H as [-> _].
Qed.
Lemma read_line_no_lf br : forall buf max line rest, no_lf buf = true -> read_line br buf max = (Ok line, rest) -> no_lf line = true.
Proof.
  induction br as [|b br IH]; intros buf max line rest Hb; cbn [read_line]; [done|].
  destruct (b =? LF) eqn:E; [intros [= <- <-]; by apply strip_cr_no_lf|].
  destruct ((0 <? max) && (max <? len buf)); [by destruct (discardLine br) as [[]]|].
  apply IH. rewrite no_lf_app, Hb. cbn. by rewrite E.
Qed.
Lemma ReadLine_no_lf br max line rest : ReadLine br max = (Ok line, rest) -> no_lf line = true.
Proof. by apply read_line_no_lf. Qed.
