(* ===== verification/WbxmlTokens.v ===== *)
(** * The ActiveSync code pages ([internal/wbxml]: tokens.go)

    A tag is a code page and a token within it.  The constants keep the names of the source;
    [all_tags] lists them for the tables' own properties. *)

From stdpp Require Import base list numbers.
From Stdlib Require Import ZArith Lia.
From S2P Require Import Prelude.
Open Scope Z_scope.

Definition Tag_Page (t : Z) : Z := u8 (Z.shiftr t 8).
Definition Tag_Token (t : Z) : Z := u8 t.

Definition PageAirSync : Z := 0x00.
Definition PageContacts : Z := 0x01.
Definition PageEmail : Z := 0x02.
Definition PageCalendar : Z := 0x04.
Definition PageMove : Z := 0x05.
Definition PageGetItemEstimate : Z := 0x06.
Definition PageFolderHierarchy : Z := 0x07.
Definition PageMeetingResponse : Z := 0x08.
Definition PageTasks : Z := 0x09.
Definition PageResolveRecips : Z := 0x0A.
Definition PageValidateCert : Z := 0x0B.
Definition PagePing : Z := 0x0D.
Definition PageProvision : Z := 0x0E.
Definition PageSearch : Z := 0x0F.
Definition PageGAL : Z := 0x10.
Definition PageAirSyncBase : Z := 0x11.
Definition PageSettings : Z := 0x12.
Definition PageItemOperations : Z := 0x14.
Definition PageComposeMail : Z := 0x15.
Definition PageNotes : Z := 0x17.

Definition ASSync : Z := 0x0005.
Definition ASResponses : Z := 0x0006.
Definition ASAdd : Z := 0x0007.
Definition ASChange : Z := 0x0008.
Definition ASDelete : Z := 0x0009.
Definition ASFetch : Z := 0x000A.
Definition ASSyncKey : Z := 0x000B.
Definition ASClientID : Z := 0x000C.
Definition ASServerID : Z := 0x000D.
Definition ASStatus : Z := 0x000E.
Definition ASCollection : Z := 0x000F.
Definition ASClass : Z := 0x0010.
Definition ASCollectionID : Z := 0x0012.
Definition ASGetChanges : Z := 0x0013.
Definition ASMoreAvailable : Z := 0x0014.
Definition ASWindowSize : Z := 0x0015.
Definition ASCommands : Z := 0x0016.
Definition ASOptions : Z := 0x0017.
Definition ASFilterType : Z := 0x0018.
Definition ASCollections : Z := 0x001C.
Definition ASData : Z := 0x001D.
Definition ASSupported : Z := 0x0020.
Definition ASSoftDelete : Z := 0x0021.
Definition ASMIMESupport : Z := 0x0022.
Definition ASMIMETruncation : Z := 0x0023.
Definition ASLimit : Z := 0x0025.
Definition ASConversationMode : Z := 0x0027.
Definition ASMaxItems : Z := 0x0028.
Definition ASHeartbeatInt : Z := 0x0029.
Definition CAnniversary : Z := 0x0105.
Definition CAssistantName : Z := 0x0106.
Definition CAssistantPhoneNumber : Z := 0x0107.
Definition CBirthday : Z := 0x0108.
Definition CBusiness2PhoneNumber : Z := 0x010C.
Definition CBusinessCity : Z := 0x010D.
Definition CBusinessCountry : Z := 0x010E.
Definition CBusinessPostalCode : Z := 0x010F.
Definition CBusinessState : Z := 0x0110.
Definition CBusinessStreet : Z := 0x0111.
Definition CBusinessFaxNumber : Z := 0x0112.
Definition CBusinessPhoneNumber : Z := 0x0113.
Definition CCarPhoneNumber : Z := 0x0114.
Definition CCategories : Z := 0x0115.
Definition CCategory : Z := 0x0116.
Definition CChildren : Z := 0x0117.
Definition CChild : Z := 0x0118.
Definition CCompanyName : Z := 0x0119.
Definition CDepartment : Z := 0x011A.
Definition CEmail1Address : Z := 0x011B.
Definition CEmail2Address : Z := 0x011C.
Definition CEmail3Address : Z := 0x011D.
Definition CFileAs : Z := 0x011E.
Definition CFirstName : Z := 0x011F.
Definition CHome2PhoneNumber : Z := 0x0120.
Definition CHomeCity : Z := 0x0121.
Definition CHomeCountry : Z := 0x0122.
Definition CHomePostalCode : Z := 0x0123.
Definition CHomeState : Z := 0x0124.
Definition CHomeStreet : Z := 0x0125.
Definition CHomeFaxNumber : Z := 0x0126.
Definition CHomePhoneNumber : Z := 0x0127.
Definition CJobTitle : Z := 0x0128.
Definition CLastName : Z := 0x0129.
Definition CMiddleName : Z := 0x012A.
Definition CMobilePhoneNumber : Z := 0x012B.
Definition COfficeLocation : Z := 0x012C.
Definition COtherCity : Z := 0x012D.
Definition COtherCountry : Z := 0x012E.
Definition COtherPostalCode : Z := 0x012F.
Definition COtherState : Z := 0x0130.
Definition COtherStreet : Z := 0x0131.
Definition CPagerNumber : Z := 0x0132.
Definition CRadioPhoneNumber : Z := 0x0133.
Definition CSpouse : Z := 0x0134.
Definition CSuffix : Z := 0x0135.
Definition CTitle : Z := 0x0136.
Definition CWebPage : Z := 0x0137.
Definition CYomiCompanyName : Z := 0x0138.
Definition CYomiFirstName : Z := 0x0139.
Definition CYomiLastName : Z := 0x013A.
Definition CPicture : Z := 0x013C.
Definition CAlias : Z := 0x013D.
Definition CWeightedRank : Z := 0x013E.
Definition TKCategories : Z := 0x0908.
Definition TKCategory : Z := 0x0909.
Definition TKComplete : Z := 0x090A.
Definition TKDateCompleted : Z := 0x090B.
Definition TKDueDate : Z := 0x090C.
Definition TKUtcDueDate : Z := 0x090D.
Definition TKImportance : Z := 0x090E.
Definition TKRecurrence : Z := 0x090F.
Definition TKRecurType : Z := 0x0910.
Definition TKRecurStart : Z := 0x0911.
Definition TKRecurUntil : Z := 0x0912.
Definition TKRecurOccurrences : Z := 0x0913.
Definition TKRecurInterval : Z := 0x0914.
Definition TKRecurDayOfMonth : Z := 0x0915.
Definition TKRecurDayOfWeek : Z := 0x0916.
Definition TKRecurWeekOfMonth : Z := 0x0917.
Definition TKRecurMonthOfYear : Z := 0x0918.
Definition TKRecurRegenerate : Z := 0x0919.
Definition TKRecurDeadOccur : Z := 0x091A.
Definition TKReminderSet : Z := 0x091B.
Definition TKReminderTime : Z := 0x091C.
Definition TKSensitivity : Z := 0x091D.
Definition TKStartDate : Z := 0x091E.
Definition TKUtcStartDate : Z := 0x091F.
Definition TKSubject : Z := 0x0920.
Definition TKOrdinalDate : Z := 0x0922.
Definition TKSubOrdinalDate : Z := 0x0923.
Definition TKCalendarType : Z := 0x0924.
Definition TKIsLeapMonth : Z := 0x0925.
Definition TKFirstDayOfWeek : Z := 0x0926.
Definition NTSubject : Z := 0x1705.
Definition NTMessageClass : Z := 0x1706.
Definition NTLastModified : Z := 0x1707.
Definition NTCategories : Z := 0x1708.
Definition NTCategory : Z := 0x1709.
Definition EMDateReceived : Z := 0x020F.
Definition EMDisplayTo : Z := 0x0211.
Definition EMImportance : Z := 0x0212.
Definition EMMessageClass : Z := 0x0213.
Definition EMSubject : Z := 0x0214.
Definition EMRead : Z := 0x0215.
Definition EMTo : Z := 0x0216.
Definition EMCc : Z := 0x0217.
Definition EMFrom : Z := 0x0218.
Definition EMReplyTo : Z := 0x0219.
Definition EMAllDayEvent : Z := 0x021A.
Definition EMDtStamp : Z := 0x021D.
Definition EMEndTime : Z := 0x021E.
Definition EMInstanceType : Z := 0x021F.
Definition EMBusyStatus : Z := 0x0220.
Definition EMLocation : Z := 0x0221.
Definition EMMeetingRequest : Z := 0x0222.
Definition EMOrganizer : Z := 0x0223.
Definition EMResponseRequested : Z := 0x0226.
Definition EMStartTime : Z := 0x0231.
Definition EMSensitivity : Z := 0x0232.
Definition EMTimeZone : Z := 0x0233.
Definition EMGlobalObjId : Z := 0x0234.
Definition EMThreadTopic : Z := 0x0235.
Definition EMInternetCPID : Z := 0x0239.
Definition EMFlag : Z := 0x023A.
Definition EMFlagStatus : Z := 0x023B.
Definition EMContentClass : Z := 0x023C.
Definition CalTimezone : Z := 0x0405.
Definition CalAllDayEvent : Z := 0x0406.
Definition CalAttendees : Z := 0x0407.
Definition CalAttendee : Z := 0x0408.
Definition CalEmail : Z := 0x0409.
Definition CalName : Z := 0x040A.
Definition CalBusyStatus : Z := 0x040D.
Definition CalCategories : Z := 0x040E.
Definition CalCategory : Z := 0x040F.
Definition CalDtStamp : Z := 0x0411.
Definition CalEndTime : Z := 0x0412.
Definition CalException : Z := 0x0413.
Definition CalExceptions : Z := 0x0414.
Definition CalDeleted : Z := 0x0415.
Definition CalExceptionStartTime : Z := 0x0416.
Definition CalLocation : Z := 0x0417.
Definition CalMeetingStatus : Z := 0x0418.
Definition CalOrganizerEmail : Z := 0x0419.
Definition CalOrganizerName : Z := 0x041A.
Definition CalRecurrence : Z := 0x041B.
Definition CalType : Z := 0x041C.
Definition CalUntil : Z := 0x041D.
Definition CalOccurrences : Z := 0x041E.
Definition CalInterval : Z := 0x041F.
Definition CalDayOfWeek : Z := 0x0420.
Definition CalDayOfMonth : Z := 0x0421.
Definition CalWeekOfMonth : Z := 0x0422.
Definition CalMonthOfYear : Z := 0x0423.
Definition CalReminder : Z := 0x0424.
Definition CalSensitivity : Z := 0x0425.
Definition CalSubject : Z := 0x0426.
Definition CalStartTime : Z := 0x0427.
Definition CalUID : Z := 0x0428.
Definition CalAttendeeStatus : Z := 0x0429.
Definition CalAttendeeType : Z := 0x042A.
Definition CalResponseRequested : Z := 0x0434.
Definition CalAppointmentReplyTime : Z := 0x0435.
Definition CalResponseType : Z := 0x0436.
Definition MRCalendarID : Z := 0x0805.
Definition MRFolderID : Z := 0x0806.
Definition MRMeetingResponse : Z := 0x0807.
Definition MRRequestID : Z := 0x0808.
Definition MRRequest : Z := 0x0809.
Definition MRResult : Z := 0x080A.
Definition MRStatus : Z := 0x080B.
Definition MRUserResponse : Z := 0x080C.
Definition MRInstanceID : Z := 0x080E.
Definition MRProposedStartTime : Z := 0x0810.
Definition MRProposedEndTime : Z := 0x0811.
Definition MRSendResponse : Z := 0x0812.
Definition GIEGetItemEstimate : Z := 0x0605.
Definition GIECollections : Z := 0x0607.
Definition GIECollection : Z := 0x0608.
Definition GIEClass : Z := 0x0609.
Definition GIECollectionID : Z := 0x060A.
Definition GIEEstimate : Z := 0x060C.
Definition GIEResponse : Z := 0x060D.
Definition GIEStatus : Z := 0x060E.
Definition FHDisplayName : Z := 0x0707.
Definition FHServerID : Z := 0x0708.
Definition FHParentID : Z := 0x0709.
Definition FHType : Z := 0x070A.
Definition FHStatus : Z := 0x070C.
Definition FHChanges : Z := 0x070E.
Definition FHAdd : Z := 0x070F.
Definition FHDelete : Z := 0x0710.
Definition FHUpdate : Z := 0x0711.
Definition FHSyncKey : Z := 0x0712.
Definition FHFolderCreate : Z := 0x0713.
Definition FHFolderDelete : Z := 0x0714.
Definition FHFolderUpdate : Z := 0x0715.
Definition FHFolderSync : Z := 0x0716.
Definition FHCount : Z := 0x0717.
Definition RRResolveRecipients : Z := 0x0A05.
Definition RRResponse : Z := 0x0A06.
Definition RRStatus : Z := 0x0A07.
Definition RRType : Z := 0x0A08.
Definition RRRecipient : Z := 0x0A09.
Definition RRDisplayName : Z := 0x0A0A.
Definition RREmailAddress : Z := 0x0A0B.
Definition RROptions : Z := 0x0A0F.
Definition RRTo : Z := 0x0A10.
Definition RRRecipientCount : Z := 0x0A12.
Definition RRAvailability : Z := 0x0A16.
Definition RRStartTime : Z := 0x0A17.
Definition RREndTime : Z := 0x0A18.
Definition RRMergedFreeBusy : Z := 0x0A19.
Definition RRPicture : Z := 0x0A1A.
Definition RRMaxSize : Z := 0x0A1B.
Definition RRData : Z := 0x0A1C.
Definition RRMaxPictures : Z := 0x0A1D.
Definition VCValidateCert : Z := 0x0B05.
Definition VCCertificates : Z := 0x0B06.
Definition VCCertificate : Z := 0x0B07.
Definition VCCertificateChain : Z := 0x0B08.
Definition VCCheckCRL : Z := 0x0B09.
Definition VCStatus : Z := 0x0B0A.
Definition PGPing : Z := 0x0D05.
Definition PGStatus : Z := 0x0D07.
Definition PGHeartbeatInt : Z := 0x0D08.
Definition PGFolders : Z := 0x0D09.
Definition PGFolder : Z := 0x0D0A.
Definition PGID : Z := 0x0D0B.
Definition PGClass : Z := 0x0D0C.
Definition PGMaxFolders : Z := 0x0D0D.
Definition PVProvision : Z := 0x0E05.
Definition PVPolicies : Z := 0x0E06.
Definition PVPolicy : Z := 0x0E07.
Definition PVPolicyType : Z := 0x0E08.
Definition PVPolicyKey : Z := 0x0E09.
Definition PVData : Z := 0x0E0A.
Definition PVStatus : Z := 0x0E0B.
Definition PVRemoteWipe : Z := 0x0E0C.
Definition PVEASProvisionDoc : Z := 0x0E0D.
Definition PVDevicePasswordEnabled : Z := 0x0E0E.
Definition PVAlphanumericDevicePasswordRequired : Z := 0x0E0F.
Definition PVRequireStorageCardEncryption : Z := 0x0E10.
Definition PVPasswordRecoveryEnabled : Z := 0x0E11.
Definition PVAttachmentsEnabled : Z := 0x0E13.
Definition PVMinDevicePasswordLength : Z := 0x0E14.
Definition PVMaxInactivityTimeDeviceLock : Z := 0x0E15.
Definition PVMaxDevicePasswordFailedAttempts : Z := 0x0E16.
Definition PVMaxAttachmentSize : Z := 0x0E17.
Definition PVAllowSimpleDevicePassword : Z := 0x0E18.
Definition PVDevicePasswordExpiration : Z := 0x0E19.
Definition PVDevicePasswordHistory : Z := 0x0E1A.
Definition PVAllowStorageCard : Z := 0x0E1B.
Definition PVAllowCamera : Z := 0x0E1C.
Definition PVRequireDeviceEncryption : Z := 0x0E1D.
Definition PVAllowUnsignedApplications : Z := 0x0E1E.
Definition PVAllowUnsignedInstallationPackages : Z := 0x0E1F.
Definition PVMinDevicePasswordComplexCharacters : Z := 0x0E20.
Definition PVAllowWiFi : Z := 0x0E21.
Definition PVAllowTextMessaging : Z := 0x0E22.
Definition PVAllowPOPIMAPEmail : Z := 0x0E23.
Definition PVAllowBluetooth : Z := 0x0E24.
Definition PVAllowIrDA : Z := 0x0E25.
Definition PVRequireManualSyncWhenRoaming : Z := 0x0E26.
Definition PVAllowDesktopSync : Z := 0x0E27.
Definition PVMaxCalendarAgeFilter : Z := 0x0E28.
Definition PVAllowHTMLEmail : Z := 0x0E29.
Definition PVMaxEmailAgeFilter : Z := 0x0E2A.
Definition PVMaxEmailBodyTruncationSize : Z := 0x0E2B.
Definition PVMaxEmailHTMLBodyTruncationSize : Z := 0x0E2C.
Definition PVRequireSignedSMIMEMessages : Z := 0x0E2D.
Definition PVRequireEncryptedSMIMEMessages : Z := 0x0E2E.
Definition PVRequireSignedSMIMEAlgorithm : Z := 0x0E2F.
Definition PVRequireEncryptionSMIMEAlgorithm : Z := 0x0E30.
Definition PVAllowSMIMEEncryptionAlgorithmNegotiation : Z := 0x0E31.
Definition PVAllowSMIMESoftCerts : Z := 0x0E32.
Definition PVAllowBrowser : Z := 0x0E33.
Definition PVAllowConsumerEmail : Z := 0x0E34.
Definition PVAllowRemoteDesktop : Z := 0x0E35.
Definition PVAllowInternetSharing : Z := 0x0E36.
Definition PVUnapprovedInROMApplicationList : Z := 0x0E37.
Definition PVApplicationName : Z := 0x0E38.
Definition PVApprovedApplicationList : Z := 0x0E39.
Definition PVHash : Z := 0x0E3A.
Definition PVAccountOnlyRemoteWipe : Z := 0x0E3B.
Definition SRSearch : Z := 0x0F05.
Definition SRStore : Z := 0x0F07.
Definition SRName : Z := 0x0F08.
Definition SRQuery : Z := 0x0F09.
Definition SROptions : Z := 0x0F0A.
Definition SRRange : Z := 0x0F0B.
Definition SRStatus : Z := 0x0F0C.
Definition SRResponse : Z := 0x0F0D.
Definition SRResult : Z := 0x0F0E.
Definition SRProperties : Z := 0x0F0F.
Definition SRTotal : Z := 0x0F10.
Definition SRAnd : Z := 0x0F13.
Definition SRFreeText : Z := 0x0F15.
Definition SRDeepTraversal : Z := 0x0F17.
Definition SRLongId : Z := 0x0F18.
Definition GALDisplayName : Z := 0x1005.
Definition GALFirstName : Z := 0x100B.
Definition GALLastName : Z := 0x100C.
Definition GALEmailAddress : Z := 0x100F.
Definition ABBodyPreference : Z := 0x1105.
Definition ABType : Z := 0x1106.
Definition ABTruncationSize : Z := 0x1107.
Definition ABAllOrNone : Z := 0x1108.
Definition ABBody : Z := 0x110A.
Definition ABData : Z := 0x110B.
Definition ABEstimatedDataSize : Z := 0x110C.
Definition ABTruncated : Z := 0x110D.
Definition ABAttachments : Z := 0x110E.
Definition ABAttachment : Z := 0x110F.
Definition ABAttDisplayName : Z := 0x1110.
Definition ABFileReference : Z := 0x1111.
Definition ABMethod : Z := 0x1112.
Definition ABNativeBodyType : Z := 0x1116.
Definition ABContentType : Z := 0x1117.
Definition ABPreview : Z := 0x1118.
Definition STSettings : Z := 0x1205.
Definition STStatus : Z := 0x1206.
Definition STGet : Z := 0x1207.
Definition STSet : Z := 0x1208.
Definition STOof : Z := 0x1209.
Definition STOofState : Z := 0x120A.
Definition STStartTime : Z := 0x120B.
Definition STEndTime : Z := 0x120C.
Definition STOofMessage : Z := 0x120D.
Definition STAppliesToInternal : Z := 0x120E.
Definition STAppliesToExternalKnown : Z := 0x120F.
Definition STAppliesToExternalUnknown : Z := 0x1210.
Definition STEnabled : Z := 0x1211.
Definition STReplyMessage : Z := 0x1212.
Definition STBodyType : Z := 0x1213.
Definition STDevicePassword : Z := 0x1214.
Definition STDeviceInformation : Z := 0x1216.
Definition STModel : Z := 0x1217.
Definition STUserInformation : Z := 0x121D.
Definition STEmailAddresses : Z := 0x121E.
Definition STSmtpAddress : Z := 0x121F.
Definition STPrimarySmtpAddr : Z := 0x1223.
Definition STAccounts : Z := 0x1224.
Definition STAccount : Z := 0x1225.
Definition CMSendMail : Z := 0x1505.
Definition CMSmartForward : Z := 0x1506.
Definition CMSmartReply : Z := 0x1507.
Definition CMSaveInSentItems : Z := 0x1508.
Definition CMReplaceMime : Z := 0x1509.
Definition CMSource : Z := 0x150B.
Definition CMFolderID : Z := 0x150C.
Definition CMItemID : Z := 0x150D.
Definition CMLongId : Z := 0x150E.
Definition CMMIME : Z := 0x1510.
Definition CMClientID : Z := 0x1511.
Definition CMStatus : Z := 0x1512.
Definition CMAccountID : Z := 0x1513.
Definition MOMoves : Z := 0x0505.
Definition MOMove : Z := 0x0506.
Definition MOSrcMsgId : Z := 0x0507.
Definition MOSrcFldId : Z := 0x0508.
Definition MODstFldId : Z := 0x0509.
Definition MOResponse : Z := 0x050A.
Definition MOStatus : Z := 0x050B.
Definition MODstMsgId : Z := 0x050C.
Definition IOItemOperations : Z := 0x1405.
Definition IOFetch : Z := 0x1406.
Definition IOStore : Z := 0x1407.
Definition IOOptions : Z := 0x1408.
Definition IOProperties : Z := 0x140B.
Definition IOData : Z := 0x140C.
Definition IOStatus : Z := 0x140D.
Definition IOResponse : Z := 0x140E.
Definition IOEmptyFolderContents : Z := 0x1412.
Definition IODeleteSubFolders : Z := 0x1413.
Definition EM2ConversationId : Z := 0x1609.
Definition EM2ConversationIndex : Z := 0x160A.
Definition EM2MeetingMessageType : Z := 0x1613.
Definition FNDFind : Z := 0x1905.
Definition FNDSearchId : Z := 0x1906.
Definition FNDExecuteSearch : Z := 0x1907.
Definition FNDMailboxSearchCriterion : Z := 0x1908.
Definition FNDQuery : Z := 0x1909.
Definition FNDStatus : Z := 0x190A.
Definition FNDFreeText : Z := 0x190B.
Definition FNDOptions : Z := 0x190C.
Definition FNDRange : Z := 0x190D.
Definition FNDDeepTraversal : Z := 0x190E.
Definition FNDResponse : Z := 0x1911.
Definition FNDResult : Z := 0x1912.
Definition FNDProperties : Z := 0x1913.
Definition FNDTotal : Z := 0x1916.
Definition FNDGalSearchCriterion : Z := 0x1919.

(** Every tag constant, in the order of the source *)
Definition all_tags : list Z :=
  [ASSync; ASResponses; ASAdd; ASChange; ASDelete; ASFetch; ASSyncKey; ASClientID; ASServerID;
   ASStatus; ASCollection; ASClass; ASCollectionID; ASGetChanges; ASMoreAvailable; ASWindowSize;
   ASCommands; ASOptions; ASFilterType; ASCollections; ASData; ASSupported; ASSoftDelete;
   ASMIMESupport; ASMIMETruncation; ASLimit; ASConversationMode; ASMaxItems; ASHeartbeatInt;
   CAnniversary; CAssistantName; CAssistantPhoneNumber; CBirthday; CBusiness2PhoneNumber;
   CBusinessCity; CBusinessCountry; CBusinessPostalCode; CBusinessState; CBusinessStreet;
   CBusinessFaxNumber; CBusinessPhoneNumber; CCarPhoneNumber; CCategories; CCategory; CChildren;
   CChild; CCompanyName; CDepartment; CEmail1Address; CEmail2Address; CEmail3Address; CFileAs;
   CFirstName; CHome2PhoneNumber; CHomeCity; CHomeCountry; CHomePostalCode; CHomeState;
   CHomeStreet; CHomeFaxNumber; CHomePhoneNumber; CJobTitle; CLastName; CMiddleName;
   CMobilePhoneNumber; COfficeLocation; COtherCity; COtherCountry; COtherPostalCode; COtherState;
   COtherStreet; CPagerNumber; CRadioPhoneNumber; CSpouse; CSuffix; CTitle; CWebPage;
   CYomiCompanyName; CYomiFirstName; CYomiLastName; CPicture; CAlias; CWeightedRank; TKCategories;
   TKCategory; TKComplete; TKDateCompleted; TKDueDate; TKUtcDueDate; TKImportance; TKRecurrence;
   TKRecurType; TKRecurStart; TKRecurUntil; TKRecurOccurrences; TKRecurInterval;
   TKRecurDayOfMonth; TKRecurDayOfWeek; TKRecurWeekOfMonth; TKRecurMonthOfYear; TKRecurRegenerate;
   TKRecurDeadOccur; TKReminderSet; TKReminderTime; TKSensitivity; TKStartDate; TKUtcStartDate;
   TKSubject; TKOrdinalDate; TKSubOrdinalDate; TKCalendarType; TKIsLeapMonth; TKFirstDayOfWeek;
   NTSubject; NTMessageClass; NTLastModified; NTCategories; NTCategory; EMDateReceived;
   EMDisplayTo; EMImportance; EMMessageClass; EMSubject; EMRead; EMTo; EMCc; EMFrom; EMReplyTo;
   EMAllDayEvent; EMDtStamp; EMEndTime; EMInstanceType; EMBusyStatus; EMLocation;
   EMMeetingRequest; EMOrganizer; EMResponseRequested; EMStartTime; EMSensitivity; EMTimeZone;
   EMGlobalObjId; EMThreadTopic; EMInternetCPID; EMFlag; EMFlagStatus; EMContentClass;
   CalTimezone; CalAllDayEvent; CalAttendees; CalAttendee; CalEmail; CalName; CalBusyStatus;
   CalCategories; CalCategory; CalDtStamp; CalEndTime; CalException; CalExceptions; CalDeleted;
   CalExceptionStartTime; CalLocation; CalMeetingStatus; CalOrganizerEmail; CalOrganizerName;
   CalRecurrence; CalType; CalUntil; CalOccurrences; CalInterval; CalDayOfWeek; CalDayOfMonth;
   CalWeekOfMonth; CalMonthOfYear; CalReminder; CalSensitivity; CalSubject; CalStartTime; CalUID;
   CalAttendeeStatus; CalAttendeeType; CalResponseRequested; CalAppointmentReplyTime;
   CalResponseType; MRCalendarID; MRFolderID; MRMeetingResponse; MRRequestID; MRRequest; MRResult;
   MRStatus; MRUserResponse; MRInstanceID; MRProposedStartTime; MRProposedEndTime; MRSendResponse;
   GIEGetItemEstimate; GIECollections; GIECollection; GIEClass; GIECollectionID; GIEEstimate;
   GIEResponse; GIEStatus; FHDisplayName; FHServerID; FHParentID; FHType; FHStatus; FHChanges;
   FHAdd; FHDelete; FHUpdate; FHSyncKey; FHFolderCreate; FHFolderDelete; FHFolderUpdate;
   FHFolderSync; FHCount; RRResolveRecipients; RRResponse; RRStatus; RRType; RRRecipient;
   RRDisplayName; RREmailAddress; RROptions; RRTo; RRRecipientCount; RRAvailability; RRStartTime;
   RREndTime; RRMergedFreeBusy; RRPicture; RRMaxSize; RRData; RRMaxPictures; VCValidateCert;
   VCCertificates; VCCertificate; VCCertificateChain; VCCheckCRL; VCStatus; PGPing; PGStatus;
   PGHeartbeatInt; PGFolders; PGFolder; PGID; PGClass; PGMaxFolders; PVProvision; PVPolicies;
   PVPolicy; PVPolicyType; PVPolicyKey; PVData; PVStatus; PVRemoteWipe; PVEASProvisionDoc;
   PVDevicePasswordEnabled; PVAlphanumericDevicePasswordRequired; PVRequireStorageCardEncryption;
   PVPasswordRecoveryEnabled; PVAttachmentsEnabled; PVMinDevicePasswordLength;
   PVMaxInactivityTimeDeviceLock; PVMaxDevicePasswordFailedAttempts; PVMaxAttachmentSize;
   PVAllowSimpleDevicePassword; PVDevicePasswordExpiration; PVDevicePasswordHistory;
   PVAllowStorageCard; PVAllowCamera; PVRequireDeviceEncryption; PVAllowUnsignedApplications;
   PVAllowUnsignedInstallationPackages; PVMinDevicePasswordComplexCharacters; PVAllowWiFi;
   PVAllowTextMessaging; PVAllowPOPIMAPEmail; PVAllowBluetooth; PVAllowIrDA;
   PVRequireManualSyncWhenRoaming; PVAllowDesktopSync; PVMaxCalendarAgeFilter; PVAllowHTMLEmail;
   PVMaxEmailAgeFilter; PVMaxEmailBodyTruncationSize; PVMaxEmailHTMLBodyTruncationSize;
   PVRequireSignedSMIMEMessages; PVRequireEncryptedSMIMEMessages; PVRequireSignedSMIMEAlgorithm;
   PVRequireEncryptionSMIMEAlgorithm; PVAllowSMIMEEncryptionAlgorithmNegotiation;
   PVAllowSMIMESoftCerts; PVAllowBrowser; PVAllowConsumerEmail; PVAllowRemoteDesktop;
   PVAllowInternetSharing; PVUnapprovedInROMApplicationList; PVApplicationName;
   PVApprovedApplicationList; PVHash; PVAccountOnlyRemoteWipe; SRSearch; SRStore; SRName; SRQuery;
   SROptions; SRRange; SRStatus; SRResponse; SRResult; SRProperties; SRTotal; SRAnd; SRFreeText;
   SRDeepTraversal; SRLongId; GALDisplayName; GALFirstName; GALLastName; GALEmailAddress;
   ABBodyPreference; ABType; ABTruncationSize; ABAllOrNone; ABBody; ABData; ABEstimatedDataSize;
   ABTruncated; ABAttachments; ABAttachment; ABAttDisplayName; ABFileReference; ABMethod;
   ABNativeBodyType; ABContentType; ABPreview; STSettings; STStatus; STGet; STSet; STOof;
   STOofState; STStartTime; STEndTime; STOofMessage; STAppliesToInternal;
   STAppliesToExternalKnown; STAppliesToExternalUnknown; STEnabled; STReplyMessage; STBodyType;
   STDevicePassword; STDeviceInformation; STModel; STUserInformation; STEmailAddresses;
   STSmtpAddress; STPrimarySmtpAddr; STAccounts; STAccount; CMSendMail; CMSmartForward;
   CMSmartReply; CMSaveInSentItems; CMReplaceMime; CMSource; CMFolderID; CMItemID; CMLongId;
   CMMIME; CMClientID; CMStatus; CMAccountID; MOMoves; MOMove; MOSrcMsgId; MOSrcFldId; MODstFldId;
   MOResponse; MOStatus; MODstMsgId; IOItemOperations; IOFetch; IOStore; IOOptions; IOProperties;
   IOData; IOStatus; IOResponse; IOEmptyFolderContents; IODeleteSubFolders; EM2ConversationId;
   EM2ConversationIndex; EM2MeetingMessageType; FNDFind; FNDSearchId; FNDExecuteSearch;
   FNDMailboxSearchCriterion; FNDQuery; FNDStatus; FNDFreeText; FNDOptions; FNDRange;
   FNDDeepTraversal; FNDResponse; FNDResult; FNDProperties; FNDTotal; FNDGalSearchCriterion].

(** Whether a tag can be framed: 16 bits, and a token clear of the global tokens and
    of the content and attribute bits *)
Definition tag_ok (t : Z) : bool :=
  inU 16 t && (5 <=? Tag_Token t) && (Tag_Token t <? 64).

Lemma all_tags_ok : forallb tag_ok all_tags = true.
Proof. vm_compute. reflexivity. Qed.

Lemma tag_parts t : tag_ok t = true -> Z.lor (Z.shiftl (Tag_Page t) 8) (Tag_Token t) = t.
Proof.
  unfold tag_ok, Tag_Page, Tag_Token, u8. intros H. bprop.
  rewrite Z.shiftr_div_pow2, Z.shiftl_mul_pow2 by lia.
  assert (0 <= t / 2 ^ 8 < 2 ^ 8) by (split; [apply Z.div_pos; lia|apply Z.div_lt_upper_bound; lia]).
  rewrite (Z.mod_small (t / 2 ^ 8)) by lia.
  rewrite lor_add_disjoint; [|lia|apply Z.mod_pos_bound; lia]. pose proof (Z.div_mod t (2 ^ 8) ltac:(lia)). lia.
Qed.

Lemma tag_page_range t : 0 <= Tag_Page t < 256.
Proof. unfold Tag_Page, u8. apply Z.mod_pos_bound. lia. Qed.

(** The vocabulary is unambiguous: every tag constant can be framed (its token
    is above the global tokens and below the content and attribute bits), and no two
    names share a code page and token. *)
Theorem tags_unambiguous :
  forallb tag_ok all_tags = true /\ NoDup (map (fun t => (Tag_Page t, Tag_Token t)) all_tags).
Proof. split; [exact all_tags_ok|]. apply (bool_decide_unpack _). vm_compute. exact I. Qed.
