(* ===== verification/Wbxml.v ===== *)
(** * The WBXML codec of ActiveSync ([internal/wbxml])

    Documents are element trees on code pages.  The encoder switches the page lazily and the
    decoder follows it, both through a page they pass along; the decoder descends recursively
    with a bound on the depth.  The decoder's cursor is the bytes still to come. *)

From stdpp Require Import base list numbers.
From Stdlib Require Import ZArith Lia.
From S2P Require Import Prelude WbxmlTokens.
Open Scope Z_scope.
Open Scope go_scope.

Inductive wb_error := ErrUnderflow | ErrFormat | ErrTooDeep | WbOutOfFuel.

Definition maxNestingDepth : Z := 64.

Definition version : Z := 0x03.
Definition publicID : Z := 0x01.
Definition charsetUTF8 : Z := 106.
Definition stringTableLen : Z := 0.

Definition gSwitchPage : Z := 0x00.
Definition gEnd : Z := 0x01.
Definition gStrI : Z := 0x03.
Definition gOpaque : Z := 0xC3.
Definition cbContent : Z := 0x40.
Definition cbAttributes : Z := 0x80.
Definition tokenMask : Z := 0x3F.

(** An opaque content is absent ([nil]) or a byte slice, possibly empty. *)
Inductive Node := mkNode (tag : Z) (children : list Node) (text : bytes) (opaque : option bytes).

Definition nd_Tag (n : Node) : Z := let '(mkNode t _ _ _) := n in t.
Definition nd_Children (n : Node) : list Node := let '(mkNode _ c _ _) := n in c.
Definition nd_Text (n : Node) : bytes := let '(mkNode _ _ t _) := n in t.
Definition nd_Opaque (n : Node) : option bytes := let '(mkNode _ _ _ o) := n in o.

Definition Elem (tag : Z) (children : list Node) : Node := mkNode tag children [] None.
Definition Str (tag : Z) (s : bytes) : Node := mkNode tag [] s None.
Definition Opaque_ (tag : Z) (b : bytes) : Node := mkNode tag [] [] (Some b).
Definition Empty (tag : Z) : Node := mkNode tag [] [] None.

Fixpoint find_child (l : list Node) (tag : Z) : option Node :=
  match l with [] => None | c :: l => if nd_Tag c =? tag then Some c else find_child l tag end.
Definition Child (n : Node) (tag : Z) : option Node := find_child (nd_Children n) tag.
Definition ChildText (n : Node) (tag : Z) : bytes :=
  match Child n tag with Some c => nd_Text c | None => [] end.

(** ** Encoding *)

(** The bytes before the last one, most significant first; five groups hold 32 bits. *)
Fixpoint mb_high (fuel : nat) (v : Z) : bytes :=
  match fuel with
  | O => []
  | S fuel => if 0 <? v then mb_high fuel (Z.shiftr v 7) ++ [Z.lor (Z.land v 0x7F) 0x80] else []
  end.
Definition w_mbUint (v : Z) : bytes := mb_high 5 (Z.shiftr v 7) ++ [Z.land v 0x7F].

Definition w_strI (s : bytes) : bytes := gStrI :: filter (fun b => b <> 0) s ++ [0].

(** Nodes one after the other, the page passed along *)
Definition w_children (f : Node -> Z -> bytes * Z) : list Node -> Z -> bytes * Z :=
  fix go l page :=
    match l with
    | [] => ([], page)
    | c :: l => let '(b1, page) := f c page in
                let '(b2, page) := go l page in (b1 ++ b2, page)
    end.

(** A node and its content; the page after it. *)
Fixpoint w_element (n : Node) (page : Z) {struct n} : bytes * Z :=
  let '(mkNode tag children text opaque) := n in
  let p := Tag_Page tag in
  let switch := if p =? page then [] else [gSwitchPage; p] in
  let tok := Tag_Token tag in
  match children with
  | _ :: _ =>
      let '(body, page) := w_children w_element children p in
      (switch ++ Z.lor tok cbContent :: body ++ [gEnd], page)
  | [] =>
      match opaque with
      | Some o => (switch ++ [Z.lor tok cbContent; gOpaque] ++ w_mbUint (u32 (len o)) ++ o ++ [gEnd], p)
      | None =>
          match text with
          | _ :: _ => (switch ++ Z.lor tok cbContent :: w_strI text ++ [gEnd], p)
          | [] => (switch ++ [tok], p)
          end
      end
  end.

Definition header : bytes :=
  version :: w_mbUint publicID ++ w_mbUint charsetUTF8 ++ w_mbUint stringTableLen.

Definition Marshal (root : option Node) : bytes :=
  header ++ match root with Some n => (w_element n PageAirSync).1 | None => [] end.

(** ** Decoding *)

Definition readByte (b : bytes) : result wb_error (Z * bytes) :=
  match b with [] => Err ErrUnderflow | x :: b => Ok (x, b) end.

Fixpoint mb_loop (n : nat) (v : Z) (b : bytes) : result wb_error (Z * bytes) :=
  match n with
  | O => Err ErrFormat
  | S n =>
      let? xb := readByte b in
      let v := u32 (Z.lor (Z.shiftl v 7) (Z.land xb.1 0x7F)) in
      if Z.land xb.1 0x80 =? 0 then Ok (v, xb.2) else mb_loop n v xb.2
  end.
Definition mbUint (b : bytes) : result wb_error (Z * bytes) := mb_loop 5 0 b.

Fixpoint cstr (b : bytes) : result wb_error (bytes * bytes) :=
  match b with
  | [] => Err ErrUnderflow
  | x :: b => if x =? 0 then Ok ([], b) else let? sb := cstr b in Ok (x :: sb.1, sb.2)
  end.

Definition take_bytes (n : Z) (b : bytes) : result wb_error (bytes * bytes) :=
  if (n <? 0) || (len b <? n) then Err ErrUnderflow
  else Ok (take (Z.to_nat n) b, drop (Z.to_nat n) b).

Fixpoint skipSwitchPages (b : bytes) (page : Z) : result wb_error (Z * bytes) :=
  match b with
  | [] => Err ErrUnderflow
  | x :: b' =>
      if x =? gSwitchPage then match b' with [] => Err ErrUnderflow | p :: b'' => skipSwitchPages b'' p end
      else Ok (page, b)
  end.

(** The empty node of the tag byte, and whether it has content. *)
Definition startTag (b : bytes) (page : Z) : result wb_error (Node * bool * bytes) :=
  let? xb := readByte b in
  let '(tok, b) := xb in
  if negb (Z.land tok cbAttributes =? 0) then Err ErrFormat
  else if (tok =? gEnd) || (tok =? gStrI) || (tok =? gOpaque) then Err ErrFormat
  else Ok (Empty (Z.lor (Z.shiftl page 8) (Z.land tok tokenMask)), negb (Z.land tok cbContent =? 0), b).

(** [append(n.Opaque, data...)]: appending nothing to [nil] is [nil]. *)
Definition append_opaque (o : option bytes) (data : bytes) : option bytes :=
  match o, data with None, [] => None | _, _ => Some (default [] o ++ data) end.

Definition readString (n : Node) (b : bytes) : result wb_error (Node * bytes) :=
  let? sb := cstr b in
  Ok (mkNode (nd_Tag n) (nd_Children n) (nd_Text n ++ sb.1) (nd_Opaque n), sb.2).

Definition readOpaque (n : Node) (b : bytes) : result wb_error (Node * bytes) :=
  let? lb := mbUint b in
  let? db := take_bytes lb.1 lb.2 in
  Ok (mkNode (nd_Tag n) (nd_Children n) (nd_Text n) (append_opaque (nd_Opaque n) db.1), db.2).

Definition add_child (n c : Node) : Node :=
  mkNode (nd_Tag n) (nd_Children n ++ [c]) (nd_Text n) (nd_Opaque n).

(** One element, or the content items up to the END: the node, the page and the rest. *)
Fixpoint element (fuel : nat) (b : bytes) (page depth : Z) : result wb_error (Node * Z * bytes) :=
  match fuel with
  | O => Err WbOutOfFuel
  | S fuel =>
      if maxNestingDepth <? depth then Err ErrTooDeep
      else
        let? pb := skipSwitchPages b page in
        let '(page, b) := pb in
        let? nb := startTag b page in
        let '(n, hasContent, b) := nb in
        if hasContent then readContent fuel n b page depth else Ok (n, page, b)
  end
with readContent (fuel : nat) (n : Node) (b : bytes) (page depth : Z) : result wb_error (Node * Z * bytes) :=
  match fuel with
  | O => Err WbOutOfFuel
  | S fuel =>
      match b with
      | [] => Err ErrUnderflow
      | x :: b' =>
          if x =? gEnd then Ok (n, page, b')
          else if x =? gStrI then let? nb := readString n b' in readContent fuel nb.1 nb.2 page depth
          else if x =? gOpaque then let? nb := readOpaque n b' in readContent fuel nb.1 nb.2 page depth
          else
            let? cpb := element fuel b page (depth + 1) in
            let '(c, page, b) := cpb in readContent fuel (add_child n c) b page depth
      end
  end.

Definition read_header (b : bytes) : result wb_error bytes :=
  let? vb := readByte b in
  if negb (vb.1 =? version) then Err ErrFormat
  else
    fold_left (fun r want => let? b := r in let? gb := mbUint b in
                             if gb.1 =? want then Ok gb.2 else Err ErrFormat)
      [publicID; charsetUTF8; stringTableLen] (Ok vb.2).

(** Every call of [element] or turn of [readContent] reads a byte, except the step from a
    content item into its element: two units of fuel per byte are enough. *)
Definition Unmarshal (b : bytes) : result wb_error Node :=
  let? rest := read_header b in
  let? npb := element (2 * length rest + 1) rest PageAirSync 0 in
  Ok npb.1.1.

Example wb_ex :
  let doc := Elem ASSync [Elem ASCollections [Str ASSyncKey [49]; Empty ASGetChanges; Opaque_ 0x1118 [0; 1; 2]]; Str ASStatus [50]] in
  Unmarshal (Marshal (Some doc)) = Ok doc.
Proof. vm_compute. reflexivity. Qed.
