(* ===== verification/WbxmlProofs.v ===== *)
(** * WBXML: what is written reads back, and any input is safe

    The decoder is run on the encoder's output by induction on the tree, with the page the
    encoder is on as the link between the two; on arbitrary input a measure of the bytes left
    shows that it ends, and the trees it yields respect the depth bound. *)

From stdpp Require Import base list numbers.
From Stdlib Require Import ZArith Lia.
From S2P Require Import Prelude WbxmlTokens Wbxml.
Open Scope Z_scope.
Open Scope go_scope.

(** ** Trees *)

Lemma Node_ind' (P : Node -> Prop) :
  (forall tag cs text o, Forall P cs -> P (mkNode tag cs text o)) -> forall n, P n.
Proof.
  intros H. fix IH 1. intros [tag cs text o]. apply H. induction cs as [|c cs IHcs]; constructor; auto.
Qed.

(** A node with exactly one form of content, that the wire can carry: a framable tag, text
    without NUL, opaque data that is not empty. *)
Fixpoint node_ok (n : Node) : bool :=
  let '(mkNode tag cs text o) := n in
  tag_ok tag &&
  match cs, o with
  | _ :: _, None => forallb node_ok cs && bool_decide (text = [])
  | _ :: _, Some _ => false
  | [], Some d => negb (bool_decide (d = [])) && (len d <? 2 ^ 32) && bool_decide (text = [])
  | [], None => forallb (fun b => negb (b =? 0)) text
  end.

Definition max_list (l : list Z) : Z := fold_right Z.max 0 l.

(** Levels of elements, the node's own included *)
Fixpoint height (n : Node) : Z :=
  let '(mkNode _ cs _ _) := n in 1 + max_list (map height cs).

Lemma max_list_In l x : x ∈ l -> x <= max_list l.
Proof.
  unfold max_list. induction l as [|y l IH]; [by intros ?%not_elem_of_nil|].
  intros [->|H]%elem_of_cons; cbn [fold_right]; [|specialize (IH H)]; lia.
Qed.

Lemma max_list_nonneg l : 0 <= max_list l.
Proof. unfold max_list. induction l; cbn [fold_right]; lia. Qed.

Lemma height_pos n : 1 <= height n.
Proof. destruct n as [t cs x o]. cbn. pose proof (max_list_nonneg (map height cs)). lia. Qed.

(** ** Multi-byte integers *)

Lemma group_join u : 0 <= u < 2 ^ 32 -> u32 (Z.lor (Z.shiftl (Z.shiftr u 7) 7) (Z.land u 0x7F)) = u.
Proof.
  intros Hu. change 0x7F with (2 ^ 7 - 1). rewrite land_ones_mod, Z.shiftr_div_pow2, Z.shiftl_mul_pow2 by lia.
  rewrite lor_add_disjoint by (try apply Z.mod_pos_bound; lia). unfold u32.
  pose proof (Z.div_mod u (2 ^ 7) ltac:(lia)). rewrite Z.mod_small; lia.
Qed.

Lemma group_high u :
  Z.land (Z.lor (Z.land u 0x7F) 0x80) 0x7F = Z.land u 0x7F /\ Z.land (Z.lor (Z.land u 0x7F) 0x80) 0x80 <> 0.
Proof.
  rewrite !Z.land_lor_distr_l, <- !Z.land_assoc. change (Z.land 0x80 0x7F) with 0. change (Z.land 0x7F 0x7F) with 0x7F.
  change (Z.land 0x7F 0x80) with 0. change (Z.land 0x80 0x80) with 0x80.
  rewrite Z.lor_0_r, Z.land_0_r, Z.lor_0_l. done.
Qed.

Lemma mb_loop_high k : forall u n b,
  0 <= u < 2 ^ 32 -> u < 2 ^ (7 * Z.of_nat k) ->
  mb_loop (n + length (mb_high k u)) 0 (mb_high k u ++ b) = mb_loop n u b.
Proof.
  induction k as [|k IH]; intros u n b Hu Hk; cbn [mb_high].
  - assert (u = 0) as -> by (cbn in Hk; lia). by rewrite Nat.add_0_r.
  - destruct (Z.ltb_spec 0 u) as [Hp|Hp]; [|by replace u with 0 by lia; rewrite Nat.add_0_r].
    rewrite length_app, <- app_assoc. cbn [length app].
    replace (n + (length (mb_high k (Z.shiftr u 7)) + 1))%nat with (S n + length (mb_high k (Z.shiftr u 7)))%nat by lia.
    assert (Hs : 0 <= Z.shiftr u 7 <= u).
    { rewrite Z.shiftr_div_pow2 by lia. split; [apply Z.div_pos; lia|apply Z.div_le_upper_bound; lia]. }
    rewrite IH; [|lia|].
    2: { rewrite Z.shiftr_div_pow2 by lia. apply Z.div_lt_upper_bound; [lia|].
         rewrite <- Z.pow_add_r by lia. replace (7 + 7 * Z.of_nat k) with (7 * Z.of_nat (S k)) by lia. done. }
    cbn [mb_loop readByte rbind fst snd]. destruct (group_high u) as [G1 G2].
    rewrite G1, (proj2 (Z.eqb_neq _ _) G2), group_join by lia. done.
Qed.

Lemma length_mb_high k j : forall u, 0 <= u < 2 ^ (7 * Z.of_nat j) -> (length (mb_high k u) <= j)%nat.
Proof.
  revert j. induction k as [|k IH]; intros j u Hu; cbn [mb_high length]; [lia|].
  destruct (Z.ltb_spec 0 u) as [Hp|Hp]; [|cbn; lia]. rewrite length_app. cbn [length].
  destruct j as [|j]; [cbn in Hu; lia|]. specialize (IH j (Z.shiftr u 7)).
  rewrite Z.shiftr_div_pow2 in * by lia.
  assert (length (mb_high k (u / 2 ^ 7)) <= j)%nat; [apply IH|lia]. split; [apply Z.div_pos; lia|].
  apply Z.div_lt_upper_bound; [lia|]. rewrite <- Z.pow_add_r by lia. replace (7 + 7 * Z.of_nat j) with (7 * Z.of_nat (S j)) by lia. lia.
Qed.

Lemma mbUint_write v b : 0 <= v < 2 ^ 32 -> mbUint (w_mbUint v ++ b) = Ok (v, b).
Proof.
  intros Hv. unfold mbUint, w_mbUint. rewrite <- app_assoc.
  assert (Hs : 0 <= Z.shiftr v 7 < 2 ^ (7 * Z.of_nat 4)).
  { rewrite Z.shiftr_div_pow2 by lia. split; [apply Z.div_pos; lia|apply Z.div_lt_upper_bound; lia]. }
  pose proof (length_mb_high 5 4 (Z.shiftr v 7) Hs).
  replace 5%nat with (5 - length (mb_high 5 (Z.shiftr v 7)) + length (mb_high 5 (Z.shiftr v 7)))%nat at 1 by lia.
  rewrite mb_loop_high by (cbn in Hs |- *; lia).
  destruct (5 - _)%nat eqn:E; [lia|]. cbn [app mb_loop readByte rbind fst snd].
  assert (L : Z.land (Z.land v 0x7F) 0x7F = Z.land v 0x7F) by by rewrite <- Z.land_assoc.
  assert (M : Z.land (Z.land v 0x7F) 0x80 = 0) by (rewrite <- Z.land_assoc; apply Z.land_0_r).
  rewrite L, M, group_join by lia. done.
Qed.

(** ** Strings, opaque data and tags *)

Lemma cstr_write s b : forallb (fun x => negb (x =? 0)) s = true -> cstr (s ++ 0 :: b) = Ok (s, b).
Proof.
  induction s as [|x s IH]; cbn [forallb app cstr]; [done|]. intros H. apply andb_prop in H as [H1 H2].
  apply negb_true_iff in H1. by rewrite H1, IH.
Qed.

Lemma filter_no_nul s : forallb (fun x => negb (x =? 0)) s = true -> filter (fun b => b <> 0) s = s.
Proof.
  induction s as [|x s IH]; [done|]. cbn [forallb]. intros H. bprop.
  rewrite filter_cons_True by done. by rewrite IH.
Qed.

Lemma take_write d b : len d < 2 ^ 32 -> take_bytes (u32 (len d)) (d ++ b) = Ok (d, b).
Proof.
  intros H. pose proof (len_nonneg d). unfold take_bytes, u32. rewrite Z.mod_small by lia.
  rewrite (proj2 (Z.ltb_ge (len d) 0)), (proj2 (Z.ltb_ge (len (d ++ b)) (len d))) by (unfold len in *; rewrite ?length_app; lia).
  cbn [orb]. unfold len. rewrite Nat2Z.id. by rewrite take_app_length, drop_app_length.
Qed.

(** The tag byte with and without the content bit *)
Lemma tag_byte tag : tag_ok tag = true ->
  let tok := Tag_Token tag in
  (tok <> 0 /\ tok <> gEnd /\ tok <> gStrI /\ tok <> gOpaque
   /\ Z.land tok cbAttributes = 0 /\ Z.land tok tokenMask = tok /\ Z.land tok cbContent = 0)
  /\ let c := Z.lor tok cbContent in
     c <> 0 /\ c <> gEnd /\ c <> gStrI /\ c <> gOpaque
     /\ Z.land c cbAttributes = 0 /\ Z.land c tokenMask = tok /\ Z.land c cbContent <> 0.
Proof.
  intros H. unfold tag_ok in H. bprop. cbv zeta. generalize dependent (Tag_Token tag). intros tok H2 H1.
  assert (D : forall P : Z -> Prop, (forall k, (k < 59)%nat -> P (5 + Z.of_nat k)) -> P tok).
  { intros P HP. replace tok with (5 + Z.of_nat (Z.to_nat (tok - 5))) by lia. apply HP. lia. }
  apply D. intros k Hk. do 59 (destruct k as [|k]; [vm_compute; repeat split; discriminate|]). lia.
Qed.

Lemma skip_switch p page x b : x <> 0 ->
  skipSwitchPages ((if p =? page then [] else [gSwitchPage; p]) ++ x :: b) page = Ok (p, x :: b).
Proof.
  intros Hx. destruct (Z.eqb_spec p page) as [->|Hp]; cbn [app skipSwitchPages].
  - by rewrite (proj2 (Z.eqb_neq x gSwitchPage)).
  - change (gSwitchPage =? gSwitchPage) with true. cbv iota. by rewrite (proj2 (Z.eqb_neq x gSwitchPage)).
Qed.

Lemma startTag_write tag (content : bool) b : tag_ok tag = true ->
  startTag ((if content then Z.lor (Tag_Token tag) cbContent else Tag_Token tag) :: b) (Tag_Page tag)
  = Ok (Empty tag, content, b).
Proof.
  intros H. destruct (tag_byte tag H) as [(A1 & A2 & A3 & A4 & A5 & A6 & A7) (B1 & B2 & B3 & B4 & B5 & B6 & B7)].
  unfold startTag. destruct content; cbn [readByte rbind].
  - rewrite B5, B6, (proj2 (Z.eqb_neq _ _) B2), (proj2 (Z.eqb_neq _ _) B3), (proj2 (Z.eqb_neq _ _) B4), (proj2 (Z.eqb_neq _ _) B7).
    cbn [Z.eqb negb orb]. by rewrite tag_parts.
  - rewrite A5, A6, A7, (proj2 (Z.eqb_neq _ _) A2), (proj2 (Z.eqb_neq _ _) A3), (proj2 (Z.eqb_neq _ _) A4).
    cbn [Z.eqb negb orb]. by rewrite tag_parts.
Qed.

(** ** The decoder on the encoder's output *)

Definition reads_back (n : Node) : Prop := forall page depth rest fuel,
  depth + height n <= maxNestingDepth + 1 -> (2 * length (w_element n page).1 < fuel)%nat ->
  element fuel ((w_element n page).1 ++ rest) page depth = Ok (n, (w_element n page).2, rest).

(** The first byte of an element is no content token. *)
Lemma element_head n page : node_ok n = true ->
  exists x b, (w_element n page).1 = x :: b /\ x <> gEnd /\ x <> gStrI /\ x <> gOpaque.
Proof.
  destruct n as [tag cs text o]. cbn [node_ok]. intros H. apply andb_prop in H as [H _].
  destruct (tag_byte tag H) as [(A1 & A2 & A3 & A4 & _) (B1 & B2 & B3 & B4 & _)]. cbn [w_element].
  set (sw := if Tag_Page tag =? page then [] else _).
  assert (S : forall x b, x <> gEnd -> x <> gStrI -> x <> gOpaque ->
    exists y c, sw ++ x :: b = y :: c /\ y <> gEnd /\ y <> gStrI /\ y <> gOpaque).
  { intros x b ? ? ?. unfold sw. destruct (_ =? page); [by exists x, b|]. by exists gSwitchPage, (Tag_Page tag :: x :: b). }
  destruct cs as [|c cs]; [destruct o as [d|]; [|destruct text]|destruct (w_children _ _ _)]; by apply S.
Qed.

Lemma content_children cs : Forall reads_back cs -> forallb node_ok cs = true ->
  forall n page depth rest fuel,
  (forall c, c ∈ cs -> depth + 1 + height c <= maxNestingDepth + 1) ->
  (2 * length (w_children w_element cs page).1 + 1 < fuel)%nat ->
  readContent fuel n ((w_children w_element cs page).1 ++ gEnd :: rest) page depth
  = Ok (mkNode (nd_Tag n) (nd_Children n ++ cs) (nd_Text n) (nd_Opaque n), (w_children w_element cs page).2, rest).
Proof.
  intros HR. induction HR as [|c cs Hc _ IH]; intros Hok n page depth rest fuel Hd Hf.
  - destruct fuel as [|fuel]; [lia|]. cbn [w_children fst snd app readContent].
    change (gEnd =? gEnd) with true. cbv iota. rewrite app_nil_r. by destruct n.
  - cbn [forallb] in Hok. apply andb_prop in Hok as [Ho Hos].
    assert (Hw : forall p, w_children w_element (c :: cs) p
      = ((w_element c p).1 ++ (w_children w_element cs (w_element c p).2).1, (w_children w_element cs (w_element c p).2).2)).
    { intros p. cbn [w_children]. fold (w_children w_element). destruct (w_element c p) as [b1 p1]. cbn [fst snd].
      by destruct (w_children w_element cs p1). }
    rewrite Hw in *. cbn [fst snd] in *. rewrite length_app in Hf. rewrite <- app_assoc.
    destruct (element_head c page Ho) as (x & b & E & X1 & X2 & X3).
    assert (Hl : (1 <= length (w_element c page).1)%nat) by (rewrite E; cbn; lia).
    destruct fuel as [|fuel]; [lia|]. rewrite E. cbn [app readContent].
    rewrite (proj2 (Z.eqb_neq _ _) X1), (proj2 (Z.eqb_neq _ _) X2), (proj2 (Z.eqb_neq _ _) X3).
    change (x :: b ++ ?r) with ((x :: b) ++ r). rewrite <- E. rewrite (Hc page (depth + 1)).
    + cbn [rbind]. rewrite IH; [|done|intros c' Hc'; apply Hd; by right|lia].
      unfold add_child. cbn [nd_Tag nd_Children nd_Text nd_Opaque]. by rewrite <- app_assoc.
    + apply Hd. left.
    + lia.
Qed.

(** The start of an element: the page switch and the tag byte. *)
Lemma element_start fuel tag (content : bool) page depth b :
  tag_ok tag = true -> depth <= maxNestingDepth ->
  element (S fuel)
    ((if Tag_Page tag =? page then [] else [gSwitchPage; Tag_Page tag])
     ++ (if content then Z.lor (Tag_Token tag) cbContent else Tag_Token tag) :: b) page depth
  = if content then readContent fuel (Empty tag) b (Tag_Page tag) depth else Ok (Empty tag, Tag_Page tag, b).
Proof.
  intros H Hd. cbn [element]. rewrite (proj2 (Z.ltb_ge _ _)) by lia. rewrite skip_switch.
  - cbn [rbind]. rewrite startTag_write by done. cbn [rbind]. by destruct content.
  - destruct (tag_byte tag H) as [(A1 & _) (B1 & _)]. by destruct content.
Qed.

Lemma node_reads_back n : node_ok n = true -> reads_back n.
Proof.
  induction n as [tag cs text o IH] using Node_ind'. cbn [node_ok]. intros H. apply andb_prop in H as [Ht H].
  intros page depth rest fuel Hd Hf. cbn [height] in Hd. pose proof (max_list_nonneg (map height cs)).
  destruct fuel as [|fuel]; [lia|]. cbn [w_element] in *.
  destruct cs as [|c cs]; [destruct o as [d|]; [|destruct text as [|x text]]|].
  - bprop. apply bool_decide_eq_true in H1. apply bool_decide_eq_false in H. subst text. cbn [fst snd] in *.
    rewrite <- !app_assoc. cbn [app]. rewrite (element_start fuel tag true) by (try done; lia).
    rewrite ?length_app in Hf. cbn [length app] in Hf. rewrite ?length_app in Hf. cbn [length] in Hf.
    destruct fuel as [|[|fuel]]; [lia|lia|]. cbn [readContent].
    change (gOpaque =? gEnd) with false. change (gOpaque =? gStrI) with false. change (gOpaque =? gOpaque) with true. cbv iota.
    unfold readOpaque. cbn [app].
    rewrite mbUint_write by (unfold u32; apply Z.mod_pos_bound; lia). cbn [rbind fst snd].
    rewrite take_write by done. cbn [rbind fst snd]. change (gEnd =? gEnd) with true. cbv iota.
    cbn [Empty nd_Tag nd_Children nd_Text nd_Opaque append_opaque default]. by destruct d.
  - cbn [fst snd] in *. rewrite <- app_assoc. cbn [app]. by rewrite (element_start fuel tag false) by (try done; lia).
  - cbn [fst snd] in *. rewrite <- app_assoc. cbn [app]. rewrite (element_start fuel tag true) by (try done; lia).
    rewrite length_app in Hf. unfold w_strI in *. rewrite filter_no_nul in * by done. cbn [length app] in *.
    destruct fuel as [|[|fuel]]; [lia|lia|]. cbn [readContent].
    change (gStrI =? gEnd) with false. change (gStrI =? gStrI) with true. cbv iota.
    unfold readString. rewrite <- !app_assoc. cbn [app].
    change (x :: text ++ 0 :: gEnd :: rest) with ((x :: text) ++ 0 :: gEnd :: rest).
    rewrite cstr_write by done. cbn [rbind fst snd]. change (gEnd =? gEnd) with true. cbv iota.
    by cbn [Empty nd_Tag nd_Children nd_Text nd_Opaque app].
  - destruct o; [done|]. bprop. apply bool_decide_eq_true in H1. subst text.
    assert (HR : Forall reads_back (c :: cs)).
    { rewrite List.Forall_forall in IH |- *. rewrite forallb_forall in H. intros k Hk. by apply IH, H. }
    destruct (w_children w_element (c :: cs) (Tag_Page tag)) as [body page'] eqn:E. cbn [fst snd] in *.
    rewrite <- app_assoc. cbn [app]. rewrite (element_start fuel tag true) by (try done; lia).
    rewrite <- app_assoc. cbn [app].
    pose proof (content_children (c :: cs) HR H (Empty tag) (Tag_Page tag) depth rest fuel) as C.
    rewrite E in C. cbn [fst snd] in C. rewrite C.
    + done.
    + intros k Hk. assert (height k <= max_list (map height (c :: cs))); [|lia].
      apply max_list_In. apply list_elem_of_In, in_map. by apply list_elem_of_In.
    + rewrite ?length_app in Hf. cbn [length app] in Hf. rewrite ?length_app in Hf. cbn [length] in Hf. lia.
Qed.

Lemma header_read b : read_header (header ++ b) = Ok b.
Proof. unfold read_header, header. cbn [app]. cbn [readByte rbind fst snd]. reflexivity. Qed.

(** C29. A document within the depth bound survives the wire: any tree of framable tags whose
    elements carry children, text without NUL, or opaque data decodes to itself, with every
    switch of code page undone, whatever page its elements are on. *)
Theorem document_round_trip n :
  node_ok n = true -> height n <= maxNestingDepth + 1 -> Unmarshal (Marshal (Some n)) = Ok n.
Proof.
  intros H Hh. unfold Unmarshal, Marshal. rewrite header_read. cbn [rbind].
  rewrite <- (app_nil_r (w_element n PageAirSync).1) at 2.
  rewrite node_reads_back by (try done; lia). reflexivity.
Qed.

Lemma document_round_trip_witness :
  let doc := Elem ASSync [Elem ASCollections [Str ASSyncKey [49]; Opaque_ 0x1118 [0; 1]; Empty ASGetChanges]; Str 0x0F05 [50]] in
  Unmarshal (Marshal (Some doc)) = Ok doc.
Proof. apply document_round_trip; [vm_compute; reflexivity|vm_compute; discriminate]. Defined.

(** ** Any input *)

(** A read that ends, and leaves no more bytes than it was given. *)
Definition ends {A} (b : bytes) (r : result wb_error (A * bytes)) : Prop :=
  match r with Ok (_, b') => (length b' <= length b)%nat | Err e => e <> WbOutOfFuel end.

Lemma mb_loop_ends n : forall v b, ends b (mb_loop n v b).
Proof.
  induction n as [|n IH]; intros v b; cbn [mb_loop]; [done|]. destruct b as [|x b]; cbn [readByte rbind fst snd]; [done|].
  destruct (_ =? 0); [cbn; lia|]. specialize (IH (u32 (Z.lor (Z.shiftl v 7) (Z.land x 127))) b).
  unfold ends in *. destruct (mb_loop n _ b) as [[? ?]|]; [cbn [length]; lia|done].
Qed.

Lemma cstr_ends b : ends b (cstr b).
Proof.
  induction b as [|x b IH]; cbn [cstr]; [done|]. destruct (_ =? 0); [cbn; lia|]. unfold ends in *.
  destruct (cstr b) as [[s b']|]; cbn [rbind fst snd length]; [lia|done].
Qed.

Lemma skip_ends page b : ends b (skipSwitchPages b page).
Proof.
  assert (H : forall n b page, (length b <= n)%nat -> ends b (skipSwitchPages b page)).
  { clear. induction n as [|n IH]; intros b page Hb; destruct b as [|x b]; cbn [skipSwitchPages length] in *; try done; try lia.
    destruct (_ =? _); [|cbn; lia]. destruct b as [|p b]; [done|]. cbn [length] in *.
    specialize (IH b p ltac:(lia)). unfold ends in *. destruct (skipSwitchPages b p) as [[? ?]|]; [cbn [length]; lia|done]. }
  by apply (H (length b)).
Qed.

Lemma readString_ends n b : ends b (readString n b).
Proof. unfold readString. pose proof (cstr_ends b) as H. unfold ends in *. by destruct (cstr b) as [[? ?]|]. Qed.

Lemma readOpaque_ends n b : ends b (readOpaque n b).
Proof.
  unfold readOpaque. pose proof (mb_loop_ends 5 0 b : ends b (mbUint b)) as H. unfold ends in *.
  destruct (mbUint b) as [[l b']|]; cbn [rbind fst snd]; [|done]. unfold take_bytes.
  destruct (_ || _); cbn [rbind fst snd]; [done|]. rewrite length_drop. lia.
Qed.

Lemma readString_height n b n' b' : readString n b = Ok (n', b') -> height n' = height n.
Proof. unfold readString. destruct (cstr b); [|done]. intros [= <- _]. by destruct n. Qed.

Lemma readOpaque_height n b n' b' : readOpaque n b = Ok (n', b') -> height n' = height n.
Proof.
  unfold readOpaque. destruct (mbUint b); cbn [rbind]; [|done]. destruct (take_bytes _ _); cbn [rbind]; [|done].
  intros [= <- _]. by destruct n.
Qed.

Lemma add_child_height n c : height (add_child n c) = Z.max (height n) (1 + height c).
Proof.
  destruct n as [t cs x o]. unfold add_child. cbn [nd_Tag nd_Children nd_Text nd_Opaque height].
  pose proof (height_pos c). rewrite map_app. unfold max_list. cbn [map].
  induction (map height cs) as [|h hs IH]; cbn [fold_right app]; [lia|]. lia.
Qed.

(** The decoder ends within its fuel, reads at least a byte, and stays within the depth. *)
Definition safe_run (strict : nat) (b : bytes) (bound : Node -> Prop) (r : result wb_error (Node * Z * bytes)) : Prop :=
  match r with
  | Ok (n, _, b') => (length b' + strict <= length b)%nat /\ bound n
  | Err e => e <> WbOutOfFuel
  end.

Lemma decoder_safe : forall fuel,
  (forall b page depth, (2 * length b < fuel)%nat ->
     safe_run 1 b (fun n => depth + height n <= maxNestingDepth + 1) (element fuel b page depth))
  /\ (forall n b page depth, (2 * length b + 1 < fuel)%nat -> depth + height n <= maxNestingDepth + 1 ->
     safe_run 0 b (fun n => depth + height n <= maxNestingDepth + 1) (readContent fuel n b page depth)).
Proof.
  induction fuel as [|fuel [IHe IHc]]; [split; lia|]. split.
  - intros b page depth Hf. cbn [element]. destruct (Z.ltb_spec maxNestingDepth depth) as [|Hd]; [done|].
    pose proof (skip_ends page b) as H. unfold ends in H. destruct (skipSwitchPages b page) as [[p b1]|]; cbn [rbind]; [|done].
    unfold startTag. destruct b1 as [|tok b2]; cbn [readByte rbind length] in *; [done|].
    destruct (negb _); [done|]. destruct (_ || _); [done|]. cbn [rbind].
    assert (H1 : forall t, depth + height (Empty t) <= maxNestingDepth + 1) by (intros t; cbn; lia).
    destruct (negb _); [|unfold safe_run; split; [lia|apply H1]].
    set (n0 := Empty _). specialize (IHc n0 b2 p depth ltac:(lia) (H1 _)). unfold safe_run in *.
    destruct (readContent fuel n0 b2 p depth) as [[[n p'] b']|]; [|done]. destruct IHc. split; [lia|done].
  - intros n b page depth Hf Hn. cbn [readContent]. destruct b as [|x b]; [done|]. cbn [length] in Hf.
    destruct (_ =? gEnd); [cbn; split; [lia|done]|].
    assert (Hgo : forall n' b', (length b' <= length b)%nat -> height n' = height n ->
      safe_run 0 (x :: b) (fun n => depth + height n <= maxNestingDepth + 1) (readContent fuel n' b' page depth)).
    { intros n' b' Hl Hh. specialize (IHc n' b' page depth ltac:(lia) ltac:(lia)). unfold safe_run in *.
      destruct (readContent fuel n' b' page depth) as [[[m p'] b'']|]; [|done]. destruct IHc. cbn [length]. split; [lia|done]. }
    destruct (_ =? gStrI).
    { pose proof (readString_ends n b) as H. unfold ends in H. destruct (readString n b) as [[n' b']|] eqn:E; cbn [rbind fst snd]; [|done].
      apply Hgo; [done|]. by apply readString_height in E. }
    destruct (_ =? gOpaque).
    { pose proof (readOpaque_ends n b) as H. unfold ends in H. destruct (readOpaque n b) as [[n' b']|] eqn:E; cbn [rbind fst snd]; [|done].
      apply Hgo; [done|]. by apply readOpaque_height in E. }
    specialize (IHe (x :: b) page (depth + 1) ltac:(cbn [length]; lia)). unfold safe_run in IHe |- *.
    destruct (element fuel (x :: b) page (depth + 1)) as [[[c p'] b']|]; cbn [rbind]; [|done].
    destruct IHe as [L1 L2]. cbn [length] in *.
    specialize (IHc (add_child n c) b' p' depth ltac:(lia)). rewrite add_child_height in IHc. specialize (IHc ltac:(lia)).
    unfold safe_run in IHc. destruct (readContent fuel _ b' p' depth) as [[[m p''] b'']|]; [|done].
    destruct IHc. split; [lia|done].
Qed.

Lemma header_ends b : match read_header b with Ok _ => True | Err e => e <> WbOutOfFuel end.
Proof.
  unfold read_header. destruct b as [|v b]; cbn [readByte rbind fst snd]; [done|]. destruct (negb _); [done|].
  generalize [publicID; charsetUTF8; stringTableLen] as l. intros l.
  assert (H : forall r : result wb_error bytes, match r with Ok _ => True | Err e => e <> WbOutOfFuel end ->
    match fold_left (fun r want => let? b := r in let? gb := mbUint b in if gb.1 =? want then Ok gb.2 else Err ErrFormat) l r
    with Ok _ => True | Err e => e <> WbOutOfFuel end); [|by apply H].
  induction l as [|want l IH]; intros r Hr; cbn [fold_left]; [done|]. apply IH.
  destruct r as [b'|]; cbn [rbind]; [|done]. pose proof (mb_loop_ends 5 0 b' : ends b' (mbUint b')) as M.
  destruct (mbUint b') as [[? ?]|]; cbn [rbind fst snd]; [by destruct (_ =? _)|exact M].
Qed.

(** Decoding any bytes ends with a document or a declared error, and a document it accepts
    is no deeper than the bound. *)
Theorem unmarshal_safe b :
  match Unmarshal b with
  | Ok n => height n <= maxNestingDepth + 1
  | Err e => e = ErrUnderflow \/ e = ErrFormat \/ e = ErrTooDeep
  end.
Proof.
  assert (H : match Unmarshal b with Ok n => height n <= maxNestingDepth + 1 | Err e => e <> WbOutOfFuel end).
  { unfold Unmarshal.
    pose proof (header_ends b) as Hh.
    destruct (read_header b) as [rest|]; cbn [rbind]; [|done].
    destruct (decoder_safe (2 * length rest + 1)) as [He _]. specialize (He rest PageAirSync 0 ltac:(lia)).
    unfold safe_run in He. destruct (element _ rest PageAirSync 0) as [[[n p] b']|]; cbn [rbind fst]; [|done]. lia. }
  destruct (Unmarshal b) as [|[]]; auto; done.
Qed.
