(* ===== verification/Ndr.v ===== *)
(** * NDR streams and DCE/RPC PDUs ([internal/ndr])

    Scalars are padded to their natural boundary, measured from the start of the stream; the
    reader skips the padding without a bounds check, so its offset may pass the end of the
    buffer, and [Rest] panics there.  A panic is a value of the error type, so that its
    absence is a theorem. *)

From stdpp Require Import base list numbers.
From Stdlib Require Import ZArith Lia.
From S2P Require Import Prelude Mapi.
Open Scope Z_scope.
Open Scope go_scope.

Inductive ndr_error := NdrUnderflow | NdrFormat | ErrBigEndian | NdrPanic.

(** ** Writing *)

Record Push := mkPush { ps_buf : bytes; ps_ptrCount : Z }.
Definition NewPush : Push := mkPush [] 0.

(** The zero bytes up to an [n]-byte boundary *)
Definition pad_len (n : Z) (off : Z) : Z := if off mod n =? 0 then 0 else n - off mod n.
Definition put (p : Push) (b : bytes) : Push := mkPush (ps_buf p ++ b) (ps_ptrCount p).
Definition push_Align (p : Push) (n : Z) : Push :=
  put p (repeat 0 (Z.to_nat (pad_len n (len (ps_buf p))))).

Definition ndr_push_Uint8 (p : Push) (v : Z) : Push := put p (le_bytes 1 v).
Definition ndr_push_Uint16 (p : Push) (v : Z) : Push := put (push_Align p 2) (le_bytes 2 v).
Definition ndr_push_Uint32 (p : Push) (v : Z) : Push := put (push_Align p 4) (le_bytes 4 v).
Definition ndr_push_Int32 (p : Push) (v : Z) : Push := ndr_push_Uint32 p (u32 v).
Definition ndr_push_Raw (p : Push) (b : bytes) : Push := put p b.
Definition ndr_push_GUID (p : Push) (g : GUID) : Push :=
  ndr_push_Raw (ndr_push_Uint16 (ndr_push_Uint16 (ndr_push_Uint32 p (Data1 g)) (Data2 g)) (Data3 g)) (Data4 g).

Definition UniquePtr (p : Push) (present : bool) : Push * Z :=
  if negb present then (ndr_push_Uint32 p 0, 0)
  else
    let id := Z.lor (u32 (ps_ptrCount p * 4)) 0x00020000 in
    (ndr_push_Uint32 (mkPush (ps_buf p) (u32 (ps_ptrCount p + 1))) id, id).

(** ** Reading *)

Record Pull := mkPull { pl_buf : bytes; pl_off : Z }.
Definition NewPull (buf : bytes) : Pull := mkPull buf 0.
Definition Remaining (p : Pull) : Z := len (pl_buf p) - pl_off p.

Definition CheckCount (p : Pull) (n : Z) : result ndr_error unit :=
  if Remaining p <? n * 4 then Err NdrUnderflow else Ok tt.

Definition need (p : Pull) (n : Z) : bool := negb ((n <? 0) || (len (pl_buf p) <? pl_off p + n)).
Definition pull_Align (p : Pull) (n : Z) : Pull := mkPull (pl_buf p) (pl_off p + pad_len n (pl_off p)).
Definition slice_at (p : Pull) (n : Z) : bytes := take (Z.to_nat n) (drop (Z.to_nat (pl_off p)) (pl_buf p)).
Definition move (p : Pull) (n : Z) : Pull := mkPull (pl_buf p) (pl_off p + n).

Definition ndr_Raw (p : Pull) (n : Z) : result ndr_error (bytes * Pull) :=
  if need p n then Ok (slice_at p n, move p n) else Err NdrUnderflow.
Definition ndr_Uint8 (p : Pull) : result ndr_error (Z * Pull) :=
  let? r := ndr_Raw p 1 in Ok (le_value r.1, r.2).
Definition ndr_Uint16 (p : Pull) : result ndr_error (Z * Pull) :=
  let? r := ndr_Raw (pull_Align p 2) 2 in Ok (le_value r.1, r.2).
Definition ndr_Uint32 (p : Pull) : result ndr_error (Z * Pull) :=
  let? r := ndr_Raw (pull_Align p 4) 4 in Ok (le_value r.1, r.2).
Definition ndr_Int32 (p : Pull) : result ndr_error (Z * Pull) :=
  let? r := ndr_Uint32 p in Ok (signed 32 r.1, r.2).
Definition ndr_GUID (p : Pull) : result ndr_error (GUID * Pull) :=
  let? a := ndr_Uint32 p in
  let? b := ndr_Uint16 a.2 in
  let? c := ndr_Uint16 b.2 in
  let? d := ndr_Raw c.2 8 in
  Ok (mkGUID a.1 b.1 c.1 d.1, d.2).

(** [make] panics on a negative length. *)
Definition Rest (p : Pull) : result ndr_error (bytes * Pull) :=
  if Remaining p <? 0 then Err NdrPanic
  else Ok (drop (Z.to_nat (pl_off p)) (pl_buf p), mkPull (pl_buf p) (len (pl_buf p))).

(** ** PDUs *)

Definition PktRequest : Z := 0.
Definition PktResponse : Z := 2.
Definition PktFault : Z := 3.
Definition PktBind : Z := 11.
Definition PktBindAck : Z := 12.
Definition PktBindNak : Z := 13.
Definition PktAlter : Z := 14.
Definition PfcFirstFrag : Z := 0x01.
Definition PfcLastFrag : Z := 0x02.
Definition PfcObjectUUID : Z := 0x80.
Definition drepLE : Z := 0x10.

Record Header := mkHeader { h_Type : Z; h_Flags : Z; h_FragLen : Z; h_AuthLen : Z; h_CallID : Z }.
Record SyntaxID := mkSyntax { sy_UUID : GUID; sy_Version : Z }.
Record CtxList := mkCtx { cx_ContextID : Z; cx_Abstract : SyntaxID; cx_Transfer : list SyntaxID }.
Record Bind := mkBind {
  bd_MaxXmitFrag : Z; bd_MaxRecvFrag : Z; bd_AssocGroupID : Z; bd_Contexts : list CtxList; bd_AuthInfo : bytes }.
Record AckCtx := mkAck { ak_Result : Z; ak_Reason : Z; ak_Syntax : SyntaxID }.
Record BindAck := mkBindAck {
  ba_MaxXmitFrag : Z; ba_MaxRecvFrag : Z; ba_AssocGroupID : Z; ba_SecondaryAddress : bytes; ba_Results : list AckCtx }.
Record Request := mkRequest {
  rq_AllocHint : Z; rq_ContextID : Z; rq_Opnum : Z; rq_Object : option GUID; rq_Stub : bytes }.
Record PDU := mkPDU { pdu_Header : Header; pdu_Bind : option Bind; pdu_Request : option Request }.

Definition pushHeader (p : Push) (h : Header) : Push :=
  let p := ndr_push_Uint8 p 5 in
  let p := ndr_push_Uint8 p 0 in
  let p := ndr_push_Uint8 p (h_Type h) in
  let p := ndr_push_Uint8 p (h_Flags h) in
  let p := ndr_push_Raw p [drepLE; 0; 0; 0] in
  let p := ndr_push_Uint16 p (h_FragLen h) in
  let p := ndr_push_Uint16 p (h_AuthLen h) in
  ndr_push_Uint32 p (h_CallID h).

Definition pullHeaderPrefix (p : Pull) : result ndr_error (Z * Z * Pull) :=
  let? v := ndr_Uint8 p in
  if negb (v.1 =? 5) then Err NdrFormat
  else
    let? m := ndr_Uint8 v.2 in
    let? t := ndr_Uint8 m.2 in
    let? f := ndr_Uint8 t.2 in
    let? d := ndr_Raw f.2 4 in
    if Z.land (nth 0 d.1 0) 0x10 =? 0 then Err ErrBigEndian else Ok (t.1, f.1, d.2).

Definition pullHeader (p : Pull) : result ndr_error (Header * Pull) :=
  let? x := pullHeaderPrefix p in
  let '(typ, flags, p) := x in
  let? fl := ndr_Uint16 p in
  let? al := ndr_Uint16 fl.2 in
  let? c := ndr_Uint32 al.2 in
  Ok (mkHeader typ flags fl.1 al.1 c.1, c.2).

Definition pushSyntax (p : Push) (s : SyntaxID) : Push := ndr_push_Uint32 (ndr_push_GUID p (sy_UUID s)) (sy_Version s).
Definition pullSyntax (p : Pull) : result ndr_error (SyntaxID * Pull) :=
  let? g := ndr_GUID p in
  let? v := ndr_Uint32 g.2 in
  Ok (mkSyntax g.1 v.1, v.2).

(** [for range n]: read [n] values, one after the other *)
Fixpoint read_n {A} (n : nat) (r : Pull -> result ndr_error (A * Pull)) (p : Pull) : result ndr_error (list A * Pull) :=
  match n with
  | O => Ok ([], p)
  | S n => let? x := r p in let? xs := read_n n r x.2 in Ok (x.1 :: xs.1, xs.2)
  end.

Definition pullCtxList (p : Pull) : result ndr_error (CtxList * Pull) :=
  let? i := ndr_Uint16 (pull_Align p 4) in
  let? n := ndr_Uint8 i.2 in
  let? a := pullSyntax n.2 in
  let? ts := read_n (Z.to_nat n.1) pullSyntax a.2 in
  Ok (mkCtx i.1 a.1 ts.1, ts.2).

Definition pullBind (p : Pull) : result ndr_error (Bind * Pull) :=
  let? x := ndr_Uint16 p in
  let? r := ndr_Uint16 x.2 in
  let? g := ndr_Uint32 r.2 in
  let? n := ndr_Uint8 g.2 in
  let? cs := read_n (Z.to_nat n.1) pullCtxList n.2 in
  let? rest := Rest cs.2 in
  Ok (mkBind x.1 r.1 g.1 cs.1 rest.1, rest.2).

Definition pullRequest (p : Pull) (h : Header) : result ndr_error (Request * Pull) :=
  let? a := ndr_Uint32 p in
  let? c := ndr_Uint16 a.2 in
  let? o := ndr_Uint16 c.2 in
  let? obj := (if negb (Z.land (h_Flags h) PfcObjectUUID =? 0)
               then let? g := ndr_GUID o.2 in Ok (Some g.1, g.2) else Ok (None, o.2)) in
  let? rest := Rest (pull_Align obj.2 8) in
  Ok (mkRequest a.1 c.1 o.1 obj.1 rest.1, rest.2).

Definition ParsePDU (buf : bytes) : result ndr_error PDU :=
  let? h := pullHeader (NewPull buf) in
  let '(h, p) := h in
  if (h_Type h =? PktBind) || (h_Type h =? PktAlter) then
    let? b := pullBind p in Ok (mkPDU h (Some b.1) None)
  else if h_Type h =? PktRequest then
    let? r := pullRequest p h in Ok (mkPDU h None (Some r.1))
  else Ok (mkPDU h None None).

Definition ParseHeader (buf : bytes) : result ndr_error Header :=
  let? h := pullHeader (NewPull buf) in Ok h.1.

Definition Frame (typ flags callID : Z) (body : bytes) : bytes :=
  ps_buf (ndr_push_Raw (pushHeader NewPush (mkHeader typ flags (u16 (16 + len body)) 0 callID)) body).

Definition push_result (p : Push) (c : AckCtx) : Push :=
  pushSyntax (ndr_push_Uint16 (ndr_push_Uint16 (push_Align p 4) (ak_Result c)) (ak_Reason c)) (ak_Syntax c).

Definition buildBindAckBody (ba : BindAck) : bytes :=
  let p := ndr_push_Uint16 NewPush (ba_MaxXmitFrag ba) in
  let p := ndr_push_Uint16 p (ba_MaxRecvFrag ba) in
  let p := ndr_push_Uint32 p (ba_AssocGroupID ba) in
  let p := match ba_SecondaryAddress ba with
           | [] => ndr_push_Uint16 p 0
           | s => ndr_push_Raw (ndr_push_Uint16 p (u16 (len (s ++ [0])))) (s ++ [0])
           end in
  let p := push_Align p 4 in
  let p := ndr_push_Uint8 p (u8 (len (ba_Results ba))) in
  let p := fold_left push_result (ba_Results ba) p in
  ps_buf (push_Align p 4).

Definition FrameBindAck (callID : Z) (ba : BindAck) : bytes :=
  Frame PktBindAck (Z.lor PfcFirstFrag PfcLastFrag) callID (buildBindAckBody ba).

Definition FrameBindNak (callID reason : Z) : bytes :=
  Frame PktBindNak (Z.lor PfcFirstFrag PfcLastFrag) callID (ps_buf (push_Align (ndr_push_Uint16 NewPush reason) 4)).

Definition buildResponseBody (allocHint contextID : Z) (stub : bytes) : bytes :=
  let p := ndr_push_Uint32 NewPush allocHint in
  let p := ndr_push_Uint16 p contextID in
  let p := ndr_push_Uint8 p 0 in
  let p := push_Align p 8 in
  let p := ndr_push_Raw p stub in
  ps_buf (push_Align p 4).

Definition FrameResponse (callID flags contextID allocHint : Z) (stub : bytes) : bytes :=
  Frame PktResponse flags callID (buildResponseBody allocHint contextID stub).

Definition buildFaultBody (allocHint contextID status : Z) : bytes :=
  let p := ndr_push_Uint32 NewPush allocHint in
  let p := ndr_push_Uint16 p contextID in
  let p := ndr_push_Uint8 p 0 in
  let p := ndr_push_Uint32 p status in
  ps_buf (push_Align p 4).

Definition FrameFault (callID contextID status : Z) : bytes :=
  Frame PktFault (Z.lor PfcFirstFrag PfcLastFrag) callID (buildFaultBody 0 contextID status).

Example request_ex :
  ParsePDU ([5; 0; 0; 3; 16; 0; 0; 0; 27; 0; 0; 0; 9; 0; 0; 0; 3; 0; 0; 0; 1; 0; 2; 0; 7; 8; 9])
  = Ok (mkPDU (mkHeader 0 3 27 0 9) None (Some (mkRequest 3 1 2 None [7; 8; 9]))).
Proof. vm_compute. reflexivity. Qed.

(** ** Sequences of values *)

(** The values a stream may hold; raw bytes and explicit alignment are read by their length. *)
Inductive item := I8 (v : Z) | I16 (v : Z) | I32 (v : Z) | IS32 (v : Z) | IGuid (g : GUID) | IRaw (b : bytes) | IAlign (n : Z).

Definition item_ok (i : item) : bool :=
  match i with
  | I8 v => inU 8 v | I16 v => inU 16 v | I32 v => inU 32 v | IS32 v => inS 32 v
  | IGuid g => guid_ok g | IRaw _ => true | IAlign n => 0 <? n
  end.

Definition push_item (p : Push) (i : item) : Push :=
  match i with
  | I8 v => ndr_push_Uint8 p v | I16 v => ndr_push_Uint16 p v | I32 v => ndr_push_Uint32 p v
  | IS32 v => ndr_push_Int32 p v | IGuid g => ndr_push_GUID p g | IRaw b => ndr_push_Raw p b | IAlign n => push_Align p n
  end.

(** Reading a value of the same kind *)
Definition pull_item (i : item) (p : Pull) : result ndr_error (item * Pull) :=
  match i with
  | I8 _ => let? r := ndr_Uint8 p in Ok (I8 r.1, r.2)
  | I16 _ => let? r := ndr_Uint16 p in Ok (I16 r.1, r.2)
  | I32 _ => let? r := ndr_Uint32 p in Ok (I32 r.1, r.2)
  | IS32 _ => let? r := ndr_Int32 p in Ok (IS32 r.1, r.2)
  | IGuid _ => let? r := ndr_GUID p in Ok (IGuid r.1, r.2)
  | IRaw b => let? r := ndr_Raw p (len b) in Ok (IRaw r.1, r.2)
  | IAlign n => Ok (IAlign n, pull_Align p n)
  end.

Fixpoint pull_items (is_ : list item) (p : Pull) : result ndr_error (list item * Pull) :=
  match is_ with
  | [] => Ok ([], p)
  | i :: is_ => let? x := pull_item i p in let? xs := pull_items is_ x.2 in Ok (x.1 :: xs.1, xs.2)
  end.

(** The reader stands where the writer did, in a buffer that goes on with what it wrote. *)
Definition at_push (p : Push) (tl : bytes) : Pull := mkPull (ps_buf p ++ tl) (len (ps_buf p)).

Lemma put_tail p b tl : ps_buf p ++ b ++ tl = ps_buf (put p b) ++ tl.
Proof. cbn. by rewrite <- app_assoc. Qed.

Lemma raw_at p b tl : ndr_Raw (at_push p (b ++ tl)) (len b) = Ok (b, at_push (put p b) tl).
Proof.
  unfold ndr_Raw, need, slice_at, move, at_push. cbn [pl_buf pl_off].
  rewrite (proj2 (Z.ltb_ge (len b) 0)), (proj2 (Z.ltb_ge _ _)) by (unfold len; rewrite ?length_app; lia).
  cbn [orb negb]. unfold len at 1 2. rewrite !Nat2Z.id, drop_app_length, take_app_length.
  rewrite put_tail. cbn [put ps_buf]. by rewrite len_app.
Qed.

Lemma align_at p n tl : 0 < n ->
  pull_Align (at_push p (repeat 0 (Z.to_nat (pad_len n (len (ps_buf p)))) ++ tl)) n = at_push (push_Align p n) tl.
Proof.
  intros Hn. unfold pull_Align, at_push, push_Align. cbn [pl_buf pl_off]. rewrite put_tail. cbn [put ps_buf].
  rewrite len_app. f_equal. f_equal. unfold len at 2. rewrite repeat_length.
  assert (0 <= pad_len n (len (ps_buf p))); [|lia]. unfold pad_len. destruct (_ =? 0); [lia|].
  pose proof (Z.mod_pos_bound (len (ps_buf p)) n Hn). lia.
Qed.

Lemma u8_at p v tl : inU 8 v = true -> ndr_Uint8 (at_push p (le_bytes 1 v ++ tl)) = Ok (v, at_push (ndr_push_Uint8 p v) tl).
Proof.
  intros H. unfold ndr_Uint8. rewrite (raw_at p (le_bytes 1 v) tl : ndr_Raw _ 1 = _). cbn [rbind fst snd].
  bprop. by rewrite (le_value_le_bytes 1) by (cbn; lia).
Qed.

Lemma u16_at p v tl : inU 16 v = true ->
  ndr_Uint16 (at_push p (repeat 0 (Z.to_nat (pad_len 2 (len (ps_buf p)))) ++ le_bytes 2 v ++ tl))
  = Ok (v, at_push (ndr_push_Uint16 p v) tl).
Proof.
  intros H. unfold ndr_Uint16. rewrite align_at by lia.
  rewrite (raw_at (push_Align p 2) (le_bytes 2 v) tl : ndr_Raw _ 2 = _). cbn [rbind fst snd].
  bprop. by rewrite (le_value_le_bytes 2) by (cbn; lia).
Qed.

Lemma u32_at p v tl : inU 32 v = true ->
  ndr_Uint32 (at_push p (repeat 0 (Z.to_nat (pad_len 4 (len (ps_buf p)))) ++ le_bytes 4 v ++ tl))
  = Ok (v, at_push (ndr_push_Uint32 p v) tl).
Proof.
  intros H. unfold ndr_Uint32. rewrite align_at by lia.
  rewrite (raw_at (push_Align p 4) (le_bytes 4 v) tl : ndr_Raw _ 4 = _). cbn [rbind fst snd].
  bprop. by rewrite (le_value_le_bytes 4) by (cbn; lia).
Qed.

(** The bytes of a value at an offset *)
Definition pad (n off : Z) : bytes := repeat 0 (Z.to_nat (pad_len n off)).
Definition guid_bytes (off : Z) (g : GUID) : bytes :=
  let o1 := off + len (pad 4 off) + 4 in
  let o2 := o1 + len (pad 2 o1) + 2 in
  pad 4 off ++ le_bytes 4 (Data1 g) ++ pad 2 o1 ++ le_bytes 2 (Data2 g) ++ pad 2 o2 ++ le_bytes 2 (Data3 g) ++ Data4 g.
Definition item_bytes (off : Z) (i : item) : bytes :=
  match i with
  | I8 v => le_bytes 1 v
  | I16 v => pad 2 off ++ le_bytes 2 v
  | I32 v => pad 4 off ++ le_bytes 4 v
  | IS32 v => pad 4 off ++ le_bytes 4 (u32 v)
  | IGuid g => guid_bytes off g
  | IRaw b => b
  | IAlign n => pad n off
  end.

Lemma push_u16_buf p v : ps_buf (ndr_push_Uint16 p v) = ps_buf p ++ pad 2 (len (ps_buf p)) ++ le_bytes 2 v.
Proof. cbn. by rewrite <- app_assoc. Qed.
Lemma push_u32_buf p v : ps_buf (ndr_push_Uint32 p v) = ps_buf p ++ pad 4 (len (ps_buf p)) ++ le_bytes 4 v.
Proof. cbn. by rewrite <- app_assoc. Qed.

Lemma len_u32_buf p v : len (ps_buf (ndr_push_Uint32 p v)) = len (ps_buf p) + len (pad 4 (len (ps_buf p))) + 4.
Proof. rewrite push_u32_buf, !len_app. change (len (le_bytes 4 v)) with 4. lia. Qed.
Lemma len_u16_buf p v : len (ps_buf (ndr_push_Uint16 p v)) = len (ps_buf p) + len (pad 2 (len (ps_buf p))) + 2.
Proof. rewrite push_u16_buf, !len_app. change (len (le_bytes 2 v)) with 2. lia. Qed.

Lemma item_at p i tl : item_ok i = true ->
  pull_item i (at_push p (item_bytes (len (ps_buf p)) i ++ tl)) = Ok (i, at_push (push_item p i) tl).
Proof.
  destruct i; cbn [item_ok pull_item push_item item_bytes]; intros H; rewrite <- ?app_assoc.
  - by rewrite u8_at.
  - unfold pad. by rewrite u16_at.
  - unfold pad. by rewrite u32_at.
  - unfold pad, ndr_Int32. rewrite u32_at by (apply inU_spec, Z.mod_pos_bound; lia). cbn [rbind fst snd].
    unfold u32. by rewrite signed_mod.
  - unfold guid_ok in H. bsplit. unfold ndr_GUID, guid_bytes. rewrite <- !app_assoc. unfold pad at 1. rewrite u32_at by done.
    cbn [rbind fst snd]. rewrite <- (len_u32_buf p (Data1 g)). unfold pad at 1. rewrite u16_at by done. cbn [rbind fst snd].
    rewrite <- (len_u16_buf _ (Data2 g)). unfold pad at 1. rewrite u16_at by done. cbn [rbind fst snd].
    bprop. match goal with L : len (Data4 g) = 8 |- _ => rewrite <- L end. rewrite raw_at. cbn [rbind fst snd].
    unfold ndr_push_GUID. by destruct g.
  - by rewrite raw_at.
  - unfold pad. rewrite align_at by (bprop; lia). done.
Qed.

Lemma push_item_buf p i : ps_buf (push_item p i) = ps_buf p ++ item_bytes (len (ps_buf p)) i.
Proof.
  destruct i; cbn [push_item item_bytes]; try done; try apply push_u16_buf; try apply push_u32_buf.
  unfold ndr_push_GUID, guid_bytes, ndr_push_Raw, put. cbn [ps_buf].
  rewrite push_u16_buf, len_u16_buf, push_u16_buf, len_u32_buf, push_u32_buf. by rewrite <- !app_assoc.
Qed.

(** The bytes of a sequence *)
Fixpoint items_bytes (off : Z) (is_ : list item) : bytes :=
  match is_ with [] => [] | i :: is_ => let b := item_bytes off i in b ++ items_bytes (off + len b) is_ end.

Lemma push_items_buf is_ : forall p,
  ps_buf (fold_left push_item is_ p) = ps_buf p ++ items_bytes (len (ps_buf p)) is_.
Proof.
  induction is_ as [|i is_ IH]; intros p; cbn [fold_left items_bytes]; [by rewrite app_nil_r|].
  rewrite IH, push_item_buf, len_app. by rewrite <- app_assoc.
Qed.

Lemma items_at is_ : forall p tl, forallb item_ok is_ = true ->
  pull_items is_ (at_push p (items_bytes (len (ps_buf p)) is_ ++ tl)) = Ok (is_, at_push (fold_left push_item is_ p) tl).
Proof.
  induction is_ as [|i is_ IH]; intros p tl H; [done|]. cbn [forallb] in H. apply andb_prop in H as [H1 H2].
  cbn [pull_items items_bytes fold_left]. rewrite <- app_assoc, item_at by done. cbn [rbind fst snd].
  replace (len (ps_buf p) + len (item_bytes (len (ps_buf p)) i)) with (len (ps_buf (push_item p i)))
    by by rewrite push_item_buf, len_app.
  by rewrite IH.
Qed.

Lemma stream_values is_ tl : forallb item_ok is_ = true ->
  exists q, pull_items is_ (NewPull (ps_buf (fold_left push_item is_ NewPush) ++ tl)) = Ok (is_, q).
Proof.
  intros H. pose proof (items_at is_ NewPush tl H) as A. eexists. rewrite push_items_buf. exact A.
Qed.

(** Any sequence of values written to a stream is read back, with the padding the writer put
    before each value and the reader skips agreeing at every offset, and the reader ends where
    the writer did, whatever follows. *)
Theorem stream_round_trip is_ tl :
  forallb item_ok is_ = true ->
  let w := ps_buf (fold_left push_item is_ NewPush) in
  pull_items is_ (NewPull (w ++ tl)) = Ok (is_, mkPull (w ++ tl) (len w)).
Proof.
  intros H w. pose proof (items_at is_ NewPush tl H) as A. unfold at_push in A. rewrite push_items_buf in A.
  unfold w. rewrite push_items_buf. exact A.
Qed.

Lemma stream_round_trip_witness :
  let g := mkGUID 1 2 3 [1; 2; 3; 4; 5; 6; 7; 8] in
  let w := ps_buf (fold_left push_item [I8 7; I32 9; IRaw [1]; IGuid g; IAlign 8; IS32 (-5)] NewPush) in
  len w = 36
  /\ pull_items [I8 7; I32 9; IRaw [1]; IGuid g; IAlign 8; IS32 (-5)] (NewPull (w ++ [1]))
     = Ok ([I8 7; I32 9; IRaw [1]; IGuid g; IAlign 8; IS32 (-5)], mkPull (w ++ [1]) (len w)).
Proof. split; [vm_compute; reflexivity|]. apply stream_round_trip. reflexivity. Defined.

(** ** Frames *)

(** A frame announces its own size: its header reads back with the type, flags and call id it
    was built with and the length of the whole frame, and the body follows the 16 bytes. *)
Lemma frame_parts typ flags callID body :
  inU 8 typ = true -> inU 8 flags = true -> inU 32 callID = true -> 16 + len body < 2 ^ 16 ->
  let f := Frame typ flags callID body in
  ParseHeader f = Ok (mkHeader typ flags (len f) 0 callID) /\ drop 16 f = body.
Proof.
  intros Ht Hf Hc Hb f. set (n := u16 (16 + len body)).
  assert (En : n = 16 + len body) by (unfold n, u16; apply Z.mod_small; pose proof (len_nonneg body); lia).
  pose (l := [I8 5; I8 0; I8 typ; I8 flags; IRaw [drepLE; 0; 0; 0]; I16 n; I16 0; I32 callID]).
  assert (Hok : forallb item_ok l = true).
  { cbn [forallb l item_ok]. rewrite Ht, Hf, Hc, (proj2 (inU_spec 16 n)) by (pose proof (len_nonneg body); lia). reflexivity. }
  assert (Ef : f = items_bytes 0 l ++ body).
  { unfold f, Frame. cbn [ndr_push_Raw put ps_buf]. reflexivity. }
  assert (Lh : length (items_bytes 0 l) = 16%nat) by reflexivity.
  assert (Lf : len f = n) by (rewrite Ef, len_app, En; unfold len at 1; rewrite Lh; lia).
  destruct (stream_values l body Hok) as [q R].
  split; [|rewrite Ef, <- Lh; apply drop_app_length].
  change (ps_buf (fold_left push_item l NewPush) ++ body) with f in R.
  unfold ParseHeader, pullHeader, pullHeaderPrefix. rewrite Lf.
  unfold pull_items, l, pull_item in R.
  destruct (ndr_Uint8 (NewPull f)) as [[a0 q0]|] eqn:E0; cbn [rbind fst snd] in R; [|done].
  destruct (ndr_Uint8 q0) as [[a1 q1]|] eqn:E1; cbn [rbind fst snd] in R; [|done].
  destruct (ndr_Uint8 q1) as [[a2 q2]|] eqn:E2; cbn [rbind fst snd] in R; [|done].
  destruct (ndr_Uint8 q2) as [[a3 q3]|] eqn:E3; cbn [rbind fst snd] in R; [|done].
  change (len [drepLE; 0; 0; 0]) with 4 in R.
  destruct (ndr_Raw q3 4) as [[a4 q4]|] eqn:E4; cbn [rbind fst snd] in R; [|done].
  destruct (ndr_Uint16 q4) as [[a5 q5]|] eqn:E5; cbn [rbind fst snd] in R; [|done].
  destruct (ndr_Uint16 q5) as [[a6 q6]|] eqn:E6; cbn [rbind fst snd] in R; [|done].
  destruct (ndr_Uint32 q6) as [[a7 q7]|] eqn:E7; cbn [rbind fst snd] in R; [|done].
  assert (a0 = 5 /\ a2 = typ /\ a3 = flags /\ a4 = [drepLE; 0; 0; 0] /\ a5 = n /\ a6 = 0 /\ a7 = callID)
    as (-> & -> & -> & -> & -> & -> & ->) by (repeat split; congruence).
  cbn [rbind fst snd]. change (negb (5 =? 5)) with false. cbv iota.
  rewrite E1; cbn [rbind fst snd]; rewrite E2; cbn [rbind fst snd]; rewrite E3; cbn [rbind fst snd].
  rewrite E4; cbn [rbind fst snd]. change (Z.land (nth 0 [drepLE; 0; 0; 0] 0) 0x10 =? 0) with false. cbv iota. cbn [rbind].
  rewrite E5; cbn [rbind fst snd]; rewrite E6; cbn [rbind fst snd]; rewrite E7; reflexivity.
Qed.

Lemma pad_len_range n off : 0 < n -> 0 <= pad_len n off < n /\ (off + pad_len n off) mod n = 0.
Proof.
  intros Hn. unfold pad_len. pose proof (Z.mod_pos_bound off n Hn). destruct (Z.eqb_spec (off mod n) 0) as [E|E].
  - split; [lia|]. by rewrite Z.add_0_r.
  - split; [lia|]. replace (off + (n - off mod n)) with (n * (off / n + 1)); [rewrite Z.mul_comm; apply Z.mod_mul; lia|].
    pose proof (Z.div_mod off n ltac:(lia)). lia.
Qed.

Lemma len_pad n off : 0 < n -> len (pad n off) = pad_len n off.
Proof. intros Hn. unfold pad, len. rewrite repeat_length. pose proof (pad_len_range n off Hn). lia. Qed.

(** A response puts the stub where a client looks for it: 24 bytes into the frame, on an
    8-byte boundary, whole, followed by fewer than four zero bytes that bring the frame to a
    multiple of four; and the frame's header reads back. *)
Theorem response_layout callID flags contextID allocHint stub :
  inU 8 flags = true -> inU 32 callID = true -> len stub < 2 ^ 16 - 27 ->
  let f := FrameResponse callID flags contextID allocHint stub in
  exists k, (k < 4)%nat /\ drop 24 f = stub ++ repeat 0 k /\ len f mod 4 = 0
            /\ ParseHeader f = Ok (mkHeader PktResponse flags (len f) 0 callID).
Proof.
  intros Hf Hc Hs f.
  set (items := [I32 allocHint; I16 contextID; I8 0; IAlign 8; IRaw stub; IAlign 4]).
  assert (Eb : buildResponseBody allocHint contextID stub = items_bytes 0 items)
    by exact (push_items_buf items NewPush).
  set (k := pad_len 4 (8 + len stub)).
  assert (E : exists h8, length h8 = 8%nat /\ items_bytes 0 items = h8 ++ stub ++ repeat 0 (Z.to_nat k)).
  { exists (le_bytes 4 allocHint ++ le_bytes 2 contextID ++ [0; 0]). split; [reflexivity|].
    cbn [items_bytes items item_bytes]. rewrite app_nil_r. reflexivity. }
  destruct E as (h8 & L8 & E). pose proof (pad_len_range 4 (8 + len stub) ltac:(lia)) as [K1 K2]. fold k in K1, K2.
  assert (Lb : len (buildResponseBody allocHint contextID stub) = 8 + len stub + k).
  { rewrite Eb, E, !len_app. unfold len at 1. rewrite L8. unfold len at 2. rewrite repeat_length. lia. }
  destruct (frame_parts PktResponse flags callID (buildResponseBody allocHint contextID stub)) as [R D];
    [reflexivity|done|done|lia|].
  fold (FrameResponse callID flags contextID allocHint stub) in R, D. fold f in R, D.
  assert (Lf : len f = 16 + (8 + len stub + k)).
  { rewrite <- Lb, <- D. unfold len. rewrite length_drop. assert (16 <= length f)%nat; [|lia].
    unfold f, FrameResponse, Frame. cbn [ndr_push_Raw put ps_buf]. rewrite length_app.
    match goal with |- (16 <= length ?h + _)%nat => assert (length h = 16%nat) as -> by reflexivity end. lia. }
  exists (Z.to_nat k). split; [lia|]. split.
  - replace 24%nat with (16 + 8)%nat by done. rewrite <- drop_drop, D, Eb, E, <- L8. apply drop_app_length.
  - split; [|exact R]. rewrite Lf. replace (16 + (8 + len stub + k)) with ((8 + len stub + k) + 4 * 4) by lia.
    by rewrite Z.mod_add by lia.
Qed.

Lemma response_layout_witness : exists k,
  (k < 4)%nat /\ drop 24 (FrameResponse 7 3 1 5 [9; 8; 7; 6; 5]) = [9; 8; 7; 6; 5] ++ repeat 0 k
  /\ len (FrameResponse 7 3 1 5 [9; 8; 7; 6; 5]) mod 4 = 0
  /\ ParseHeader (FrameResponse 7 3 1 5 [9; 8; 7; 6; 5])
     = Ok (mkHeader PktResponse 3 (len (FrameResponse 7 3 1 5 [9; 8; 7; 6; 5])) 0 7).
Proof. apply (response_layout 7 3 1 5 [9; 8; 7; 6; 5]); reflexivity. Defined.

(** ** No read panics *)

(** A read that keeps the buffer, ends inside it, and moved by [k] from the start offset; it
    does not panic. *)
Definition lands {A} (buf : bytes) (P : Z -> Prop) (r : result ndr_error (A * Pull)) : Prop :=
  match r with
  | Ok (_, q) => pl_buf q = buf /\ 0 <= pl_off q <= len buf /\ P (pl_off q)
  | Err e => e <> NdrPanic
  end.

Lemma lands_bind {A B} buf (P Q : Z -> Prop) (r : result ndr_error (A * Pull)) (k : A * Pull -> result ndr_error (B * Pull)) :
  lands buf P r ->
  (forall x q, pl_buf q = buf -> 0 <= pl_off q <= len buf -> P (pl_off q) -> lands buf Q (k (x, q))) ->
  lands buf Q (rbind r k).
Proof. intros H K. destruct r as [[x q]|e]; cbn in *; [|done]. destruct H as (H1 & H2 & H3). by apply K. Qed.

Lemma lands_weaken {A} buf (P Q : Z -> Prop) (r : result ndr_error (A * Pull)) :
  lands buf P r -> (forall o, P o -> Q o) -> lands buf Q r.
Proof. intros H K. destruct r as [[x q]|e]; [|done]. destruct H as (H1 & H2 & H3). split; [done|]. split; [done|]. by apply K. Qed.

Lemma lands_ok {A} buf (P : Z -> Prop) (x : A) q :
  pl_buf q = buf -> 0 <= pl_off q <= len buf -> P (pl_off q) -> lands buf P (Ok (x, q)).
Proof. done. Qed.

Lemma lands_raw p n : 0 <= pl_off p -> lands (pl_buf p) (fun o => o = pl_off p + n) (ndr_Raw p n).
Proof.
  intros H. unfold ndr_Raw, need. destruct (_ || _) eqn:E; cbn [negb]; [done|]. apply orb_false_iff in E as [E1 E2]. bprop.
  apply lands_ok; cbn; [done|lia|done].
Qed.

Lemma lands_u8 p : 0 <= pl_off p -> lands (pl_buf p) (fun o => o = pl_off p + 1) (ndr_Uint8 p).
Proof. intros H. eapply lands_bind; [by apply lands_raw|]. intros x q Hq Ho Hp. by apply lands_ok. Qed.

Lemma pull_Align_off p n : 0 <= pl_off p -> 0 < n -> 0 <= pl_off (pull_Align p n).
Proof. intros H Hn. cbn. pose proof (pad_len_range n (pl_off p) Hn). lia. Qed.

Lemma lands_u16 p : 0 <= pl_off p -> lands (pl_buf p) (fun o => o = pl_off p + pad_len 2 (pl_off p) + 2) (ndr_Uint16 p).
Proof.
  intros H. eapply lands_bind; [apply (lands_raw (pull_Align p 2)); by apply pull_Align_off|].
  intros x q Hq Ho Hp. by apply lands_ok.
Qed.

Lemma lands_u32 p : 0 <= pl_off p -> lands (pl_buf p) (fun o => o = pl_off p + pad_len 4 (pl_off p) + 4) (ndr_Uint32 p).
Proof.
  intros H. eapply lands_bind; [apply (lands_raw (pull_Align p 4)); by apply pull_Align_off|].
  intros x q Hq Ho Hp. by apply lands_ok.
Qed.

(** Step through a read, with the offset it leaves. *)
Ltac land lem :=
  eapply lands_bind; [first [eapply lem | match goal with E : pl_buf ?q = ?b |- _ => rewrite <- E; eapply lem end]; lia|];
  let x := fresh "x" in let q := fresh "q" in let E := fresh "E" in let O := fresh "O" in let F := fresh "F" in
  intros x q E O F; cbv beta in F; cbn [fst snd].

Lemma lands_guid p : 0 <= pl_off p ->
  lands (pl_buf p) (fun o => pl_off p mod 4 = 0 -> o = pl_off p + 16) (ndr_GUID p).
Proof.
  intros H. unfold ndr_GUID. land lands_u32. land lands_u16. land lands_u16. land lands_raw.
  apply lands_ok; [congruence|lia|]. intros M.
  assert (Z4 : pad_len 4 (pl_off p) = 0) by (unfold pad_len; by rewrite M).
  assert (Z2 : forall o, o mod 2 = 0 -> pad_len 2 o = 0) by (intros o Ho; unfold pad_len; by rewrite Ho).
  assert (M2 : (pl_off p + 4) mod 2 = 0) by (Z.div_mod_to_equations; lia).
  assert (M3 : (pl_off p + 4 + 2) mod 2 = 0) by (Z.div_mod_to_equations; lia).
  rewrite Z4, Z.add_0_r in F. rewrite F, (Z2 _ M2), Z.add_0_r in F0. rewrite F0, (Z2 _ M3), Z.add_0_r in F1.
  lia.
Qed.

Lemma lands_syntax p : 0 <= pl_off p -> lands (pl_buf p) (fun _ => True) (pullSyntax p).
Proof. intros H. unfold pullSyntax. land lands_guid. land lands_u32. apply lands_ok; [congruence|lia|done]. Qed.

Lemma lands_read_n {A} (r : Pull -> result ndr_error (A * Pull)) buf :
  (forall p, pl_buf p = buf -> 0 <= pl_off p -> lands buf (fun _ => True) (r p)) ->
  forall n p, pl_buf p = buf -> 0 <= pl_off p <= len buf -> lands buf (fun _ => True) (read_n n r p).
Proof.
  intros H. induction n as [|n IH]; intros p Hb Ho; cbn [read_n]; [by apply lands_ok|].
  eapply lands_bind; [apply H; [done|lia]|]. intros x q Hq Hoq _. cbn [snd].
  eapply lands_bind; [by apply IH|]. intros xs q' Hq' Hoq' _. by apply lands_ok.
Qed.

Lemma lands_ctx p : 0 <= pl_off p -> lands (pl_buf p) (fun _ => True) (pullCtxList p).
Proof.
  intros H. unfold pullCtxList. change (pl_buf p) with (pl_buf (pull_Align p 4)).
  eapply lands_bind; [apply lands_u16; by apply pull_Align_off|]. intros i q E O F. cbn [fst snd].
  land lands_u8. land lands_syntax.
  eapply lands_bind.
  { apply lands_read_n; [|congruence|lia]. intros r Hr Hor. rewrite <- Hr. by apply lands_syntax. }
  intros ts q2 E2 O2 _. by apply lands_ok.
Qed.

Lemma lands_rest p : 0 <= pl_off p <= len (pl_buf p) -> lands (pl_buf p) (fun _ => True) (Rest p).
Proof.
  intros H. unfold Rest, Remaining. rewrite (proj2 (Z.ltb_ge _ _)) by lia. apply lands_ok; cbn; [done| |done].
  pose proof (len_nonneg (pl_buf p)). lia.
Qed.

Lemma lands_bind_body p : 0 <= pl_off p -> lands (pl_buf p) (fun _ => True) (pullBind p).
Proof.
  intros H. unfold pullBind. land lands_u16. land lands_u16. land lands_u32. land lands_u8.
  eapply lands_bind.
  { apply lands_read_n; [|congruence|lia]. intros r Hr Hor. rewrite <- Hr. by apply lands_ctx. }
  intros cs q3 E3 O3 _. cbn [fst snd]. eapply lands_bind; [rewrite <- E3; apply lands_rest; congruence|].
  intros rest q4 E4 O4 _. by apply lands_ok.
Qed.

Lemma pad_zero n o : o mod n = 0 -> pad_len n o = 0.
Proof. intros H. unfold pad_len. by rewrite H. Qed.

(** The body of a request starts at 16, so its fields keep the offset a multiple of 8. *)
Lemma lands_request p h : pl_off p = 16 -> lands (pl_buf p) (fun _ => True) (pullRequest p h).
Proof.
  intros H. unfold pullRequest. land lands_u32. rewrite H in F. change (16 + pad_len 4 16 + 4) with 20 in F.
  land lands_u16. rewrite F in F0. change (20 + pad_len 2 20 + 2) with 22 in F0.
  land lands_u16. rewrite F0 in F1. change (22 + pad_len 2 22 + 2) with 24 in F1.
  eapply (lands_bind _ (fun o => o mod 8 = 0)).
  { destruct (negb _).
    - eapply lands_bind; [rewrite <- E1; apply lands_guid; lia|]. intros g q2 E2 O2 F2. cbn [fst snd].
      apply lands_ok; [done|done|]. rewrite F2 by (by rewrite F1). by rewrite F1.
    - apply lands_ok; [done|done|]. by rewrite F1. }
  intros o q2 E2 O2 F2. cbn [fst snd].
  assert (Ea : pull_Align q2 8 = q2) by (unfold pull_Align; rewrite pad_zero by done; rewrite Z.add_0_r; by destruct q2).
  rewrite Ea. eapply lands_bind; [rewrite <- E2; apply lands_rest; congruence|].
  intros rest q3 E3 O3 _. by apply lands_ok.
Qed.

Lemma lands_prefix p : pl_off p = 0 ->
  match pullHeaderPrefix p with
  | Ok (_, _, q) => pl_buf q = pl_buf p /\ pl_off q = 8 /\ 8 <= len (pl_buf p)
  | Err e => e <> NdrPanic
  end.
Proof.
  intros H.
  assert (L : lands (pl_buf p) (fun o => o = 8) (let? x := pullHeaderPrefix p in Ok (x.1, x.2))).
  { unfold pullHeaderPrefix.
    pose proof (lands_u8 p ltac:(lia)) as L0. destruct (ndr_Uint8 p) as [[v q0]|]; cbn [rbind lands fst snd] in *; [|done].
    destruct L0 as (B0 & O0 & F0). destruct (negb _); [done|].
    pose proof (lands_u8 q0 ltac:(lia)) as L1. destruct (ndr_Uint8 q0) as [[m q1]|]; cbn [rbind lands fst snd] in *; [|done].
    destruct L1 as (B1 & O1 & F1).
    pose proof (lands_u8 q1 ltac:(lia)) as L2. destruct (ndr_Uint8 q1) as [[t q2]|]; cbn [rbind lands fst snd] in *; [|done].
    destruct L2 as (B2 & O2 & F2).
    pose proof (lands_u8 q2 ltac:(lia)) as L3. destruct (ndr_Uint8 q2) as [[f q3]|]; cbn [rbind lands fst snd] in *; [|done].
    destruct L3 as (B3 & O3 & F3).
    pose proof (lands_raw q3 4 ltac:(lia)) as L4. destruct (ndr_Raw q3 4) as [[d q4]|]; cbn [rbind lands fst snd] in *; [|done].
    destruct L4 as (B4 & O4 & F4). destruct (_ =? 0); cbn [rbind lands fst snd]; [done|].
    replace (pl_buf q3) with (pl_buf p) in * by congruence. split; [congruence|]. split; lia. }
  destruct (pullHeaderPrefix p) as [[[t f] q]|]; cbn in L; [|done]. destruct L as (L1 & L2 & L3). split; [done|]. split; [done|lia].
Qed.

Lemma lands_header buf : lands buf (fun o => o = 16) (pullHeader (NewPull buf)).
Proof.
  unfold pullHeader. pose proof (lands_prefix (NewPull buf) eq_refl) as L.
  destruct (pullHeaderPrefix (NewPull buf)) as [[[t f] q]|]; cbn [rbind]; [|done]. destruct L as (B & O & K). cbn [pl_buf NewPull] in *.
  rewrite <- B. land lands_u16. rewrite O in F. change (8 + pad_len 2 8 + 2) with 10 in F.
  land lands_u16. rewrite F in F0. change (10 + pad_len 2 10 + 2) with 12 in F0.
  land lands_u32. rewrite F0 in F1. change (12 + pad_len 4 12 + 4) with 16 in F1. apply lands_ok; [congruence|lia|done].
Qed.

(** Parsing any bytes as a PDU does not panic: padding may carry the reader past the end of
    the buffer, but never to where the unread rest is taken. *)
Theorem parse_no_panic buf : ParsePDU buf <> Err NdrPanic.
Proof.
  unfold ParsePDU. pose proof (lands_header buf) as L. destruct (pullHeader (NewPull buf)) as [[h p]|e]; cbn [rbind lands] in *.
  2: congruence.
  destruct L as (B & O & F). destruct (_ || _); [|destruct (_ =? _); [|done]].
  - pose proof (lands_bind_body p ltac:(lia)) as R. destruct (pullBind p) as [[b q]|e]; cbn [rbind lands] in *; congruence.
  - pose proof (lands_request p h F) as R. destruct (pullRequest p h) as [[b q]|e]; cbn [rbind lands] in *; congruence.
Qed.

(** The unread rest after padding at the end of a buffer would panic. *)
Example rest_past_end : Rest (pull_Align (mkPull [1; 2; 3] 3) 8) = Err NdrPanic.
Proof. reflexivity. Qed.

(** Referent ids repeat after 2^15 pointers. *)
Example referent_ids_collide :
  (UniquePtr (mkPush [] 0) true).2 = (UniquePtr (mkPush [] 32768) true).2.
Proof. reflexivity. Qed.
