(* ===== verification/Ropbuf.v ===== *)
(** * The Execute buffer ([internal/oxmapihttp])

    The envelope of a ROP buffer: a header with flags and sizes, a payload that may be
    obfuscated and compressed, and inside it the commands and the handle table. *)

From stdpp Require Import base list numbers.
From Stdlib Require Import ZArith Lia.
From S2P Require Import Prelude Lzxpress LzxpressProofs.
Open Scope Z_scope.
Open Scope go_scope.

Inductive rb_error := ErrMalformed.

Definition rheFlagCompressed : Z := 0x0001.
Definition rheFlagXorMagic : Z := 0x0002.
Definition rheFlagLast : Z := 0x0004.
Definition xorMagic : Z := 0xA5.
Definition maxROPBuffer : Z := 0x8000.

(** [in[i:j]], for indices in range *)
Definition sub_bytes (b : bytes) (i j : Z) : bytes := take (Z.to_nat (j - i)) (drop (Z.to_nat i) b).

Definition rb_header (input : bytes) : result rb_error (Z * bytes * Z) :=
  if len input <? 8 then Err ErrMalformed
  else
    let flags := u16_at input 2 in
    let size := u16_at input 4 in
    let sizeActual := u16_at input 6 in
    if Z.land flags rheFlagLast =? 0 then Err ErrMalformed
    else if (size =? 0) || (len input <? 8 + size) then Err ErrMalformed
    else if (sizeActual =? 0) || (maxROPBuffer <? sizeActual) then Err ErrMalformed
    else Ok (flags, sub_bytes input 8 (8 + size), sizeActual).

Definition deobfuscate (payload : bytes) (flags : Z) : bytes :=
  if Z.land flags rheFlagXorMagic =? 0 then payload else map (fun b => Z.lxor b xorMagic) payload.

Definition ropBuffer (input : bytes) : result rb_error bytes :=
  let? h := rb_header input in
  let '(flags, payload, sizeActual) := h in
  let payload := deobfuscate payload flags in
  if negb (Z.land flags rheFlagCompressed =? 0) then
    match Decompress payload sizeActual with
    | Err _ => Err ErrMalformed
    | Ok dec => if len dec <? sizeActual then Err ErrMalformed else Ok (sub_bytes dec 0 sizeActual)
    end
  else if len payload <? sizeActual then Err ErrMalformed
  else Ok (sub_bytes payload 0 sizeActual).

(** The words of the table; the length is a multiple of four. *)
Fixpoint words_of (n : nat) (b : bytes) : list Z :=
  match n with O => [] | S n => le_value (take 4 b) :: words_of n (drop 4 b) end.

Definition splitROPBuffer (rb : bytes) : result rb_error (bytes * list Z) :=
  if len rb <? 2 then Err ErrMalformed
  else
    let ropSize := u16_at rb 0 in
    if (ropSize <? 2) || (len rb <? ropSize) then Err ErrMalformed
    else
      let rops := sub_bytes rb 2 ropSize in
      let tail := drop (Z.to_nat ropSize) rb in
      if negb (len tail mod 4 =? 0) then Err ErrMalformed
      else Ok (rops, words_of (Z.to_nat (len tail / 4)) tail).

Definition DecodeExecute (input : bytes) : result rb_error (bytes * list Z) :=
  let? rb := ropBuffer input in splitROPBuffer rb.

Definition rop_region (rops : bytes) (handles : list Z) : bytes :=
  le_bytes 2 (u16 (len rops + 2)) ++ rops ++ concat (map (le_bytes 4) handles).

Definition EncodeExecute (rops : bytes) (handles : list Z) : bytes :=
  let rb := rop_region rops handles in
  let sizeActual := u16 (len rb) in
  le_bytes 2 0 ++ le_bytes 2 rheFlagLast ++ le_bytes 2 sizeActual ++ le_bytes 2 sizeActual ++ rb.

(** ** What a peer sends *)

(** An envelope a peer may build: the region as it is or compressed, then as it is or
    obfuscated, with the flags that say so. *)
Definition peer_payload (compressed xored : bool) (rb : bytes) : bytes :=
  let p := if compressed then Compress rb else rb in
  if xored then map (fun b => Z.lxor b xorMagic) p else p.
Definition peer_flags (compressed xored : bool) : Z :=
  Z.lor rheFlagLast (Z.lor (if compressed then rheFlagCompressed else 0) (if xored then rheFlagXorMagic else 0)).
Definition peer_frame (compressed xored : bool) (rb : bytes) : bytes :=
  let p := peer_payload compressed xored rb in
  le_bytes 2 0 ++ le_bytes 2 (peer_flags compressed xored) ++ le_bytes 2 (len p) ++ le_bytes 2 (len rb) ++ p.

Lemma sub_all (b : bytes) : sub_bytes b 0 (len b) = b.
Proof. unfold sub_bytes, len. cbn [Z.to_nat drop]. apply take_ge. lia. Qed.

Lemma xor_back (p : bytes) : map (fun b => Z.lxor b xorMagic) (map (fun b => Z.lxor b xorMagic) p) = p.
Proof.
  rewrite map_map. induction p as [|x p IH]; cbn [map]; [done|]. rewrite IH, Z.lxor_assoc, Z.lxor_nilpotent, Z.lxor_0_r. done.
Qed.

Lemma u16_at_put a v b : 0 <= v < 2 ^ 16 -> u16_at (a ++ le_bytes 2 v ++ b) (length a) = v.
Proof.
  intros Hv. unfold u16_at. rewrite drop_app_length. change 2%nat with (length (le_bytes 2 v)) at 1.
  rewrite take_app_length. by apply (le_value_le_bytes 2).
Qed.

Lemma header_of flags size actual p :
  0 <= flags < 2 ^ 16 -> Z.land flags rheFlagLast <> 0 -> len p = size -> 0 < size < 2 ^ 16 -> 0 < actual <= maxROPBuffer ->
  rb_header (le_bytes 2 0 ++ le_bytes 2 flags ++ le_bytes 2 size ++ le_bytes 2 actual ++ p) = Ok (flags, p, actual).
Proof.
  intros Hf Hl Hp Hs Ha. unfold rb_header, maxROPBuffer in *. set (input := le_bytes 2 0 ++ _).
  assert (Li : len input = 8 + size) by (unfold input; rewrite !len_app; change (len (le_bytes 2 0)) with 2;
    change (len (le_bytes 2 flags)) with 2; change (len (le_bytes 2 size)) with 2; change (len (le_bytes 2 actual)) with 2; lia).
  assert (F2 : u16_at input 2 = flags) by exact (u16_at_put (le_bytes 2 0) flags _ Hf).
  assert (F4 : u16_at input 4 = size).
  { unfold input. rewrite (assoc_L (++)). apply (u16_at_put (le_bytes 2 0 ++ le_bytes 2 flags) size). lia. }
  assert (F6 : u16_at input 6 = actual).
  { unfold input. rewrite !(assoc_L (++)). rewrite <- (assoc_L (++) _ (le_bytes 2 actual)).
    apply (u16_at_put ((le_bytes 2 0 ++ le_bytes 2 flags) ++ le_bytes 2 size) actual). lia. }
  rewrite Li, F2, F4, F6. rewrite (proj2 (Z.ltb_ge _ 8)) by lia. rewrite (proj2 (Z.eqb_neq _ 0) Hl).
  rewrite (proj2 (Z.eqb_neq size 0)), (proj2 (Z.ltb_ge (8 + size) (8 + size))) by lia.
  rewrite (proj2 (Z.eqb_neq actual 0)), (proj2 (Z.ltb_ge _ actual)) by lia. cbn [orb]. do 3 f_equal.
  unfold sub_bytes. replace (8 + size - 8) with (len p) by lia. unfold len. rewrite Nat2Z.id.
  change (drop (Z.to_nat 8) input) with p. apply take_ge. lia.
Qed.

Lemma payload_nonempty c x rb : 0 < len rb < 2 ^ 32 -> 0 < len (peer_payload c x rb).
Proof.
  intros Hb. assert (0 < len (if c then Compress rb else rb)).
  { destruct c; [|lia]. apply compress_nonempty; [|lia]. intros ->. change (len (@nil Z)) with 0 in Hb. lia. }
  unfold peer_payload. destruct x; [|done]. unfold len in *. by rewrite length_map.
Qed.

Lemma deobfuscate_peer c x rb :
  deobfuscate (peer_payload c x rb) (peer_flags c x) = if c then Compress rb else rb.
Proof.
  unfold deobfuscate, peer_payload. destruct c, x; cbn [peer_flags]; try done; apply xor_back.
Qed.

Lemma ropBuffer_peer c x rb :
  0 < len rb <= maxROPBuffer -> len (peer_payload c x rb) < 2 ^ 16 -> ropBuffer (peer_frame c x rb) = Ok rb.
Proof.
  intros Hb Hp. unfold ropBuffer, peer_frame, maxROPBuffer in *.
  pose proof (payload_nonempty c x rb ltac:(lia)) as Hne.
  rewrite header_of; [|destruct c, x; (split; [discriminate|reflexivity])|destruct c, x; discriminate|done|lia|unfold maxROPBuffer; lia].
  cbn [rbind]. rewrite deobfuscate_peer.
  assert (Hc : negb (Z.land (peer_flags c x) rheFlagCompressed =? 0) = c) by by destruct c, x.
  rewrite Hc. destruct c.
  - rewrite compress_decompress by lia. rewrite Z.ltb_irrefl. by rewrite sub_all.
  - rewrite Z.ltb_irrefl. by rewrite sub_all.
Qed.

Lemma words_of_handles hs : forallb (inU 32) hs = true ->
  words_of (length hs) (concat (map (le_bytes 4) hs)) = hs.
Proof.
  induction hs as [|h hs IH]; [done|]. cbn [forallb length map concat words_of]. intros H. bprop.
  rewrite (take_app_length' (le_bytes 4 h)), (drop_app_length' (le_bytes 4 h)) by by rewrite length_le_bytes.
  rewrite (le_value_le_bytes 4), IH by (done || lia). done.
Qed.

Lemma length_handles hs : len (concat (map (le_bytes 4) hs)) = 4 * len hs.
Proof. induction hs as [|h hs IH]; cbn [map concat]; [done|]. rewrite len_app, len_cons, IH. change (len (le_bytes 4 h)) with 4. lia. Qed.

Lemma len_region rops hs : len (rop_region rops hs) = 2 + len rops + 4 * len hs.
Proof. unfold rop_region. rewrite !len_app, length_handles. change (len (le_bytes 2 _)) with 2. lia. Qed.

Lemma split_region rops hs :
  2 + len rops + 4 * len hs < 2 ^ 16 -> forallb (inU 32) hs = true -> splitROPBuffer (rop_region rops hs) = Ok (rops, hs).
Proof.
  intros Hs Hh. unfold splitROPBuffer. rewrite len_region. pose proof (len_nonneg rops). pose proof (len_nonneg hs).
  rewrite (proj2 (Z.ltb_ge _ 2)) by lia. set (rb := rop_region rops hs).
  assert (Hu : u16 (len rops + 2) = len rops + 2) by (unfold u16; apply Z.mod_small; lia).
  assert (E : u16_at rb 0 = len rops + 2).
  { unfold rb, rop_region. rewrite Hu. apply (u16_at_put [] (len rops + 2)). lia. }
  rewrite E. rewrite (proj2 (Z.ltb_ge _ 2)), (proj2 (Z.ltb_ge _ (len rops + 2))) by lia. cbn [orb].
  assert (Dr : drop (Z.to_nat (len rops + 2)) rb = concat (map (le_bytes 4) hs)).
  { unfold rb, rop_region, len. rewrite (assoc_L (++)).
    replace (Z.to_nat (Z.of_nat (length rops) + 2)) with (length (le_bytes 2 (u16 (Z.of_nat (length rops) + 2)) ++ rops))
      by (rewrite length_app, length_le_bytes; lia).
    apply drop_app_length. }
  rewrite Dr, length_handles. rewrite (Z.mul_comm 4), Z.mod_mul, Z.div_mul by lia. cbn [Z.eqb negb].
  unfold len at 2. rewrite Nat2Z.id, words_of_handles by done. do 2 f_equal.
  unfold sub_bytes, rb, rop_region. change (drop (Z.to_nat 2) (le_bytes 2 ?v ++ ?t)) with t.
  replace (len rops + 2 - 2) with (len rops) by lia. unfold len. rewrite Nat2Z.id. apply take_app_length.
Qed.

(** A request is understood however the client packs it: the commands and handles of a region
    within the size limit come out of an envelope whose payload is plain, obfuscated,
    compressed, or compressed and obfuscated. *)
Theorem decode_any_packing c x rops handles :
  2 + len rops + 4 * len handles <= maxROPBuffer -> forallb (inU 32) handles = true ->
  len (peer_payload c x (rop_region rops handles)) < 2 ^ 16 ->
  DecodeExecute (peer_frame c x (rop_region rops handles)) = Ok (rops, handles).
Proof.
  intros Hs Hh Hp. unfold maxROPBuffer in *. pose proof (len_nonneg rops). pose proof (len_nonneg handles).
  unfold DecodeExecute. rewrite ropBuffer_peer by (rewrite ?len_region; unfold maxROPBuffer; lia). cbn [rbind].
  apply split_region; [lia|done].
Qed.

Lemma decode_any_packing_witness :
  DecodeExecute (peer_frame true true (rop_region (repeat 3 40) [5; 0xFFFFFFFF])) = Ok (repeat 3 40, [5; 0xFFFFFFFF]).
Proof. apply decode_any_packing; [vm_compute; discriminate|reflexivity|vm_compute; reflexivity]. Defined.

(** A response the transports accept to frame reads back: the encoder writes what the decoder
    takes apart, for every region within the size limit. *)
Theorem execute_round_trip rops handles :
  2 + len rops + 4 * len handles <= maxROPBuffer -> forallb (inU 32) handles = true ->
  DecodeExecute (EncodeExecute rops handles) = Ok (rops, handles).
Proof.
  intros Hs Hh. unfold maxROPBuffer in *. pose proof (len_nonneg rops). pose proof (len_nonneg handles).
  assert (E : EncodeExecute rops handles = peer_frame false false (rop_region rops handles)).
  { unfold EncodeExecute, peer_frame. cbn [peer_payload]. replace (u16 (len (rop_region rops handles))) with (len (rop_region rops handles))
      by (unfold u16; rewrite Z.mod_small; rewrite ?len_region; lia). reflexivity. }
  rewrite E. unfold DecodeExecute.
  rewrite ropBuffer_peer by (cbn [peer_payload]; rewrite ?len_region; unfold maxROPBuffer; lia). cbn [rbind].
  apply split_region; [lia|done].
Qed.

Lemma execute_round_trip_witness : DecodeExecute (EncodeExecute [1; 2; 3] [7; 8]) = Ok ([1; 2; 3], [7; 8]).
Proof. apply execute_round_trip; [vm_compute; discriminate|reflexivity]. Defined.
