(* ===== verification/Gostr.v ===== *)
(** * Go strings: what the protocol servers use of [strings], [strconv] and [encoding/base64]

    A Go string is a byte list.  [TrimSpace], [Fields], [Cut], [Split], [Atoi], the [%d] verb
    and base64 decoding are the library's functions; [ToUpper] is exact on every string that
    is compared with an ASCII name, which is the only use the servers make of it. *)

From stdpp Require Import base list numbers.
From Stdlib Require Import ZArith Lia Ascii Sorted Permutation.
From Stdlib Require String.
Import String.StringSyntax.
From S2P Require Import Prelude Utf.
Open Scope Z_scope.

(** The bytes of a literal *)
Definition lit (s : String.string) : bytes := map (fun a => Z.of_N (N_of_ascii a)) (String.list_ascii_of_string s).
Arguments lit s%_string_scope.
Definition crlf : bytes := [13; 10].
Definition beq (a b : bytes) : bool := bool_decide (a = b).

(** ** Case *)

(** The runes whose upper case is ASCII are the ASCII letters, U+0131 and U+017F. *)
Fixpoint ToUpper (s : bytes) : bytes :=
  match s with
  | 0xC4 :: 0xB1 :: s => 73 :: ToUpper s
  | 0xC5 :: 0xBF :: s => 83 :: ToUpper s
  | b :: s => (if (97 <=? b) && (b <=? 122) then b - 32 else b) :: ToUpper s
  | [] => []
  end.

(** ** White space *)

(** [unicode.IsSpace] *)
Definition IsSpace (r : Z) : bool :=
  in_range 9 13 r || (r =? 32) || (r =? 0x85) || (r =? 0xA0) || (r =? 0x1680) || in_range 0x2000 0x200A r
  || (r =? 0x2028) || (r =? 0x2029) || (r =? 0x202F) || (r =? 0x205F) || (r =? 0x3000).

(** The runes of a string with the bytes each of them is written in *)
Fixpoint chunks_fuel (fuel : nat) (s : bytes) : list (Z * bytes) :=
  match fuel, s with
  | S fuel, b0 :: tl =>
      let '(r, t) := decode_rune b0 tl in (r, take (length s - length t) s) :: chunks_fuel fuel t
  | _, _ => []
  end.
Definition chunks (s : bytes) : list (Z * bytes) := chunks_fuel (length s) s.
Definition glue (cs : list (Z * bytes)) : bytes := concat (map snd cs).

Fixpoint drop_spaces (cs : list (Z * bytes)) : list (Z * bytes) :=
  match cs with
  | c :: cs' => if IsSpace (fst c) then drop_spaces cs' else cs
  | [] => []
  end.
Definition TrimSpace (s : bytes) : bytes := glue (rev (drop_spaces (rev (drop_spaces (chunks s))))).

(** The words of the runes; [cur] is the word being read. *)
Fixpoint fields_from (cs : list (Z * bytes)) (cur : bytes) : list bytes :=
  let flush := match cur with [] => [] | _ => [cur] end in
  match cs with
  | [] => flush
  | (r, b) :: cs => if IsSpace r then flush ++ fields_from cs [] else fields_from cs (cur ++ b)
  end.
Definition Fields (s : bytes) : list bytes := fields_from (chunks s) [].

(** ** Separators *)

(** [strings.Cut] at a one-byte separator; without one, the string and the empty string *)
Fixpoint Cut (s : bytes) (sep : Z) : bytes * bytes :=
  match s with
  | [] => ([], [])
  | b :: s => if b =? sep then ([], s) else let '(x, y) := Cut s sep in (b :: x, y)
  end.

(** [strings.Split] at a one-byte separator *)
Fixpoint Split (s : bytes) (sep : Z) : list bytes :=
  match s with
  | [] => [[]]
  | b :: s => if b =? sep then [] :: Split s sep
              else match Split s sep with x :: l => (b :: x) :: l | [] => [[b]] end
  end.

Fixpoint HasPrefix (s p : bytes) : bool :=
  match p, s with
  | [], _ => true
  | x :: p, b :: s => (x =? b) && HasPrefix s p
  | _, [] => false
  end.

(** [bytes.Index] *)
Fixpoint Index (s p : bytes) : option nat :=
  if HasPrefix s p then Some 0%nat else match s with [] => None | _ :: s => S <$> Index s p end.

Definition Contains (s needle : bytes) : bool := match Index s needle with Some _ => true | None => false end.

Definition TrimPrefix (s p : bytes) : bytes := if HasPrefix s p then drop (length p) s else s.
Definition HasSuffix (s p : bytes) : bool := HasPrefix (rev s) (rev p).
Definition TrimSuffix (s p : bytes) : bytes := if HasSuffix s p then take (length s - length p) s else s.

(** [strings.Join] *)
Fixpoint Join (ls : list bytes) (sep : bytes) : bytes :=
  match ls with [] => [] | [l] => l | l :: ls => l ++ sep ++ Join ls sep end.

(** ** Decimal numbers *)

Definition is_digit (b : Z) : bool := (48 <=? b) && (b <=? 57).
Fixpoint digits (acc : Z) (s : bytes) : option Z :=
  match s with
  | [] => Some acc
  | b :: s => if is_digit b then digits (10 * acc + (b - 48)) s else None
  end.

(** [strconv.Atoi]: an optional sign, at least one digit, in the range of [int] *)
Definition Atoi (s : bytes) : option Z :=
  let '(neg, ds) := match s with
                    | 45 :: s => (true, s)
                    | 43 :: s => (false, s)
                    | _ => (false, s)
                    end in
  match ds with
  | [] => None
  | _ => match digits 0 ds with
         | Some v => let v := if neg : bool then - v else v in if inS 64 v then Some v else None
         | None => None
         end
  end.

(** ** Case folding and unsigned numbers *)

(** [strings.EqualFold] with an ASCII string: besides the ASCII letters only U+212A folds to k
    and only U+017F folds to s. *)
Fixpoint fold_case (s : bytes) : bytes :=
  match s with
  | 0xE2 :: 0x84 :: 0xAA :: s => 75 :: fold_case s
  | 0xC5 :: 0xBF :: s => 83 :: fold_case s
  | b :: s => (if (97 <=? b) && (b <=? 122) then b - 32 else b) :: fold_case s
  | [] => []
  end.
Definition EqualFold (s t : bytes) : bool := beq (fold_case s) (fold_case t).

(** [strconv.ParseUint(s, 10, bits)] *)
Definition ParseUint (s : bytes) (bits : Z) : option Z :=
  match s with
  | [] => None
  | _ => match digits 0 s with Some v => if v <? 2 ^ bits then Some v else None | None => None end
  end.

(** The [%d] of a number; one digit for each factor of ten, and [log2] is at least as many. *)
Fixpoint dec_fuel (fuel : nat) (n : Z) : bytes :=
  match fuel with
  | O => []
  | S fuel => if n <? 10 then [48 + n] else dec_fuel fuel (n / 10) ++ [48 + n mod 10]
  end.
Definition dec_nat (n : Z) : bytes := dec_fuel (S (Z.to_nat (Z.log2 n))) n.
Definition dec (n : Z) : bytes := if n <? 0 then 45 :: dec_nat (- n) else dec_nat n.

Example dec_ex : dec 0 = lit "0" /\ dec 1234567 = lit "1234567" /\ dec (-40) = lit "-40".
Proof. vm_compute. done. Qed.
Example Atoi_ex : Atoi (lit "+12") = Some 12 /\ Atoi (lit "9223372036854775808") = None /\ Atoi (lit "1x") = None /\ Atoi [] = None.
Proof. vm_compute. done. Qed.
Example trim_ex : TrimSpace ([32; 9; 0xC2; 0xA0] ++ lit "a b" ++ [0xE3; 0x80; 0x80; 13]) = lit "a b".
Proof. vm_compute. done. Qed.
Example fields_ex : Fields (lit "  1  20 ") = [lit "1"; lit "20"].
Proof. vm_compute. done. Qed.

(** ** Base64 *)

Definition b64_value (b : Z) : option Z :=
  if in_range 65 90 b then Some (b - 65)
  else if in_range 97 122 b then Some (b - 71)
  else if in_range 48 57 b then Some (b + 4)
  else if b =? 43 then Some 62
  else if b =? 47 then Some 63
  else None.

(** [base64.StdEncoding]: groups of four, the last one padded; the unused bits of a padded
    group are not looked at. *)
Fixpoint b64_groups (s : bytes) : option bytes :=
  match s with
  | [] => Some []
  | [a; b; 61; 61] =>
      match b64_value a, b64_value b with
      | Some a, Some b => Some [a * 4 + b / 16]
      | _, _ => None
      end
  | [a; b; c; 61] =>
      match b64_value a, b64_value b, b64_value c with
      | Some a, Some b, Some c => Some [a * 4 + b / 16; b mod 16 * 16 + c / 4]
      | _, _, _ => None
      end
  | a :: b :: c :: d :: s =>
      match b64_value a, b64_value b, b64_value c, b64_value d, b64_groups s with
      | Some a, Some b, Some c, Some d, Some r =>
          Some (a * 4 + b / 16 :: b mod 16 * 16 + c / 4 :: c mod 4 * 64 + d :: r)
      | _, _, _, _, _ => None
      end
  | _ => None
  end.
(** [DecodeString] skips CR and LF wherever they are. *)
Definition b64_DecodeString (s : bytes) : option bytes :=
  b64_groups (filter (fun b => b <> 13 /\ b <> 10) s).

Example b64_ex : b64_DecodeString (lit "VXNlcm5hbWU6") = Some (lit "Username:") /\ b64_DecodeString (lit "YQ==") = Some (lit "a")
  /\ b64_DecodeString (lit "YQ=") = None /\ b64_DecodeString (lit "YQ==YQ==") = None.
Proof. vm_compute. done. Qed.

(** ** Numbers print and parse *)

Lemma digits_app a : forall acc b, digits acc (a ++ b) = digits acc a ≫= fun v => digits v b.
Proof. induction a as [|x a IH]; intros acc b; cbn [app digits]; [done|]. destruct (is_digit x); [apply IH|done]. Qed.

Lemma dec_fuel_digits fuel : forall n, 0 <= n < 2 ^ Z.of_nat fuel ->
  digits 0 (dec_fuel fuel n) = Some n /\ forallb is_digit (dec_fuel fuel n) = true /\ (fuel <> O -> dec_fuel fuel n <> []).
Proof.
  induction fuel as [|fuel IH]; intros n Hn; [by change (2 ^ Z.of_nat 0) with 1 in Hn; replace n with 0 by lia|].
  cbn [dec_fuel]. destruct (Z.ltb_spec n 10) as [Hs|Hs].
  - assert (D : is_digit (48 + n) = true) by (unfold is_digit; bsolve). cbn [digits forallb]. rewrite D.
    split; [f_equal; lia|done].
  - rewrite Nat2Z.inj_succ, Z.pow_succ_r in Hn by lia.
    destruct (IH (n / 10)) as (V & F & _); [split; [apply Z.div_pos; lia|apply Z.div_lt_upper_bound; lia]|].
    pose proof (Z.mod_pos_bound n 10 ltac:(lia)) as Hm. pose proof (Z.div_mod n 10 ltac:(lia)) as E.
    assert (D : is_digit (48 + n mod 10) = true) by (unfold is_digit; bsolve).
    rewrite digits_app, V, forallb_app, F. cbn [mbind option_bind digits forallb]. rewrite D.
    split; [f_equal; lia|]. split; [done|]. intros _ X. by apply app_nil in X as [_ ?].
Qed.

Lemma dec_nat_digits n : 0 <= n -> digits 0 (dec_nat n) = Some n /\ forallb is_digit (dec_nat n) = true /\ dec_nat n <> [].
Proof.
  intros Hn. unfold dec_nat. destruct (dec_fuel_digits (S (Z.to_nat (Z.log2 n))) n) as (A & B & C); [|eauto].
  rewrite Nat2Z.inj_succ, Z2Nat.id by apply Z.log2_nonneg. split; [done|].
  destruct (Z.eq_dec n 0) as [->|]; [done|]. apply Z.log2_spec. lia.
Qed.

Lemma Atoi_digits s v : forallb is_digit s = true -> s <> [] -> digits 0 s = Some v -> inS 64 v = true -> Atoi s = Some v.
Proof.
  intros F Hs V R. destruct s as [|b s]; [done|]. cbn [forallb] in F. unfold Atoi.
  assert (Hb : b <> 45 /\ b <> 43) by (unfold is_digit in F; bprop; lia). destruct Hb as [H1 H2].
  replace (match b :: s with 45 :: s0 => (true, s0) | 43 :: s0 => (false, s0) | _ => (false, b :: s) end) with (false, b :: s).
  - by rewrite V, R.
  - destruct b as [|p|p]; [done| |done].
    do 6 (destruct p as [p|p|]; try done).
Qed.

(** Printing a number in the range of [int] and parsing it gives the number back. *)
Lemma Atoi_dec n : 0 <= n < 2 ^ 63 -> Atoi (dec n) = Some n.
Proof.
  intros Hn. unfold dec. rewrite (proj2 (Z.ltb_ge n 0)) by lia.
  destruct (dec_nat_digits n) as (V & F & Hs); [lia|]. apply Atoi_digits; try done. apply inS_spec. lia.
Qed.

Lemma chunks_ascii s : forallb (fun b => b <? 128) s = true -> chunks s = map (fun b => (b, [b])) s.
Proof.
  unfold chunks. induction s as [|b s IH]; [done|]. cbn [forallb length chunks_fuel map]. intros H. bprop.
  unfold decode_rune. rewrite (proj2 (Z.ltb_lt b 128)) by lia. rewrite IH by done.
  replace (S (length s) - length s)%nat with 1%nat by lia. done.
Qed.

Lemma drop_spaces_none cs : forallb (fun c => negb (IsSpace (fst c))) cs = true -> drop_spaces cs = cs.
Proof. destruct cs as [|c cs]; [done|]. cbn. intros H. bprop. by rewrite H. Qed.

(** Nothing to trim *)
Lemma TrimSpace_id s : forallb (fun b => (b <? 128) && negb (IsSpace b)) s = true -> TrimSpace s = s.
Proof.
  intros H. assert (A : forallb (fun b => b <? 128) s = true) by (eapply forallb_impl, H; intros b Hb; by apply andb_prop in Hb as [? _]).
  assert (N : forallb (fun c : Z * bytes => negb (IsSpace (fst c))) (map (fun b => (b, [b])) s) = true).
  { rewrite forallb_forall. intros c Hc. apply in_map_iff in Hc as (b & <- & Hb).
    eapply forallb_forall in H; [|exact Hb]. by apply andb_prop in H as [_ ?]. }
  unfold TrimSpace. rewrite chunks_ascii by done. rewrite (drop_spaces_none (map _ s)) by done.
  rewrite drop_spaces_none, rev_involutive.
  - unfold glue. rewrite map_map. cbn [snd]. clear. induction s as [|b s IH]; [done|]. cbn [map concat app]. by rewrite IH.
  - rewrite forallb_forall in *. intros c Hc. apply N. by apply in_rev.
Qed.

Lemma TrimSpace_dec n : 0 <= n -> TrimSpace (dec n) = dec n.
Proof.
  intros Hn. unfold dec. rewrite (proj2 (Z.ltb_ge n 0)) by lia.
  destruct (dec_nat_digits n Hn) as (_ & F & _). apply TrimSpace_id. eapply forallb_impl, F. unfold is_digit.
  intros b H. bprop. apply andb_true_intro. split; [bsolve|].
  assert (E : b = 48 \/ b = 49 \/ b = 50 \/ b = 51 \/ b = 52 \/ b = 53 \/ b = 54 \/ b = 55 \/ b = 56 \/ b = 57) by lia.
  by repeat (destruct E as [->|E]; [done|]); subst.
Qed.

(** * Go's sorting ([sort], [slices])

    The stable sort as insertion before the first element that is not less, which is what any
    stable sort returns when the comparison is a strict weak order. *)

(** [sort.SliceStable], [slices.SortStableFunc] with [cmp < 0] as [less] *)
Fixpoint insert_stable {A} (less : A -> A -> bool) (x : A) (l : list A) : list A :=
  match l with
  | [] => [x]
  | y :: l => if less y x then y :: insert_stable less x l else x :: y :: l
  end.
Definition SliceStable {A} (less : A -> A -> bool) (l : list A) : list A := foldr (insert_stable less) [] l.

(** [slices.Sort] and [slices.Compact] on numbers *)
Definition Sort (l : list Z) : list Z := SliceStable Z.ltb l.
Fixpoint Compact (l : list Z) : list Z :=
  match l with
  | x :: ((y :: _) as l') => if x =? y then Compact l' else x :: Compact l'
  | l => l
  end.

(** ** Stable sorting *)

Section stable.
Context {A : Type} (less : A -> A -> bool).

Lemma insert_stable_perm x l : insert_stable less x l ≡ₚ x :: l.
Proof. induction l as [|y l IH]; simpl; [done|]. destruct (less y x); [|done]. rewrite IH. constructor. Qed.
Lemma SliceStable_perm l : SliceStable less l ≡ₚ l.
Proof. induction l as [|x l IH]; simpl; [done|]. rewrite insert_stable_perm. by constructor. Qed.

(** Elements that are not less than each other keep their order. *)
Lemma SliceStable_stable (p : A -> bool) l :
  (forall a b, p a = true -> p b = true -> less a b = false) -> List.filter p (SliceStable less l) = List.filter p l.
Proof.
  intros Hp. assert (Hi : forall x l, List.filter p (insert_stable less x l) = List.filter p (x :: l)).
  { intros x m. induction m as [|y m IH]; [done|]. cbn [insert_stable]. destruct (less y x) eqn:E; [|done].
    cbn [List.filter] in *. rewrite IH. destruct (p x) eqn:Ex, (p y) eqn:Ey; try done. by rewrite Hp in E. }
  induction l as [|x l IH]; [done|]. cbn [SliceStable foldr]. rewrite Hi. cbn [List.filter]. fold (SliceStable less l). by rewrite IH.
Qed.

(** A strict weak order on the elements that are sorted *)
Context (Q : A -> Prop).
Hypothesis less_asym : forall a b, Q a -> Q b -> less a b = true -> less b a = false.
Hypothesis less_weak : forall a b c, Q a -> Q b -> Q c -> less b a = false -> less c b = false -> less c a = false.

Lemma insert_stable_sorted x l :
  Q x -> Forall Q l -> StronglySorted (fun a b => less b a = false) l -> StronglySorted (fun a b => less b a = false) (insert_stable less x l).
Proof.
  intros Hx. induction l as [|y l IH]; simpl; [repeat constructor|]. intros HQ [H1 H2]%StronglySorted_inv.
  inversion HQ as [|? ? Hy Hl]; subst. rewrite List.Forall_forall in H2. rewrite List.Forall_forall in Hl. destruct (less y x) eqn:E.
  - constructor; [apply IH; [by apply List.Forall_forall|done]|]. apply List.Forall_forall. intros z Hz.
    apply (Permutation_in _ (insert_stable_perm x l)) in Hz as [<-|Hz]; [by apply less_asym|by apply H2].
  - constructor; [constructor; [done|by apply List.Forall_forall]|]. constructor; [done|]. apply List.Forall_forall. intros z Hz.
    apply (less_weak x y z); auto.
Qed.
Lemma SliceStable_sorted l : Forall Q l -> StronglySorted (fun a b => less b a = false) (SliceStable less l).
Proof.
  induction l as [|x l IH]; simpl; [constructor|]. intros HQ. inversion HQ; subst. apply insert_stable_sorted; [done| |by apply IH].
  eapply Permutation_Forall; [symmetry; apply SliceStable_perm|done].
Qed.
End stable.
