(* ===== verification/Gotime.v ===== *)
(** * Go's calendar ([time])

    What the code uses of [time.Time]: an instant with the wall clock of its location, the civil
    fields of the proleptic Gregorian calendar, and the compact forms of RFC 5545 dates.  Times are
    counted in nanoseconds from January 1 of the year 1, which is Go's zero time. *)

From stdpp Require Import base list numbers.
From Stdlib Require Import ZArith Lia.
From Stdlib Require String.
Import String.StringSyntax.
From S2P Require Import Prelude Gostr.
Open Scope Z_scope.

(** ** The calendar *)

Definition is_leap (y : Z) : bool := (y mod 4 =? 0) && (negb (y mod 100 =? 0) || (y mod 400 =? 0)).
Definition days_in_year (y : Z) : Z := if is_leap y then 366 else 365.
(** Days from January 1 of the year 1 to January 1 of a year *)
Definition days_before_year (y : Z) : Z := 365 * (y - 1) + (y - 1) / 4 - (y - 1) / 100 + (y - 1) / 400.
(** The year and the day of the year, from 0, of a day *)
Definition year_yday (d : Z) : Z * Z :=
  let n400 := d / 146097 in let d := d mod 146097 in
  let n100 := Z.min (d / 36524) 3 in let d := d - 36524 * n100 in
  let n4 := d / 1461 in let d := d mod 1461 in
  let n1 := Z.min (d / 365) 3 in
  (400 * n400 + 100 * n100 + 4 * n4 + n1 + 1, d - 365 * n1).
Definition month_lengths (leap : bool) : list Z := [31; if leap then 29 else 28; 31; 30; 31; 30; 31; 31; 30; 31; 30; 31].
(** The month, from [m], and the day of the month of a day of the year *)
Fixpoint month_day (lens : list Z) (m yday : Z) : Z * Z :=
  match lens with
  | n :: lens => if yday <? n then (m, yday + 1) else month_day lens (m + 1) (yday - n)
  | [] => (m, yday + 1)
  end.
Definition days_before_month (leap : bool) (m : Z) : Z := foldr Z.add 0 (take (Z.to_nat (m - 1)) (month_lengths leap)).
Definition days_of_civil (y m d : Z) : Z := days_before_year y + days_before_month (is_leap y) m + (d - 1).
Definition daysIn (m y : Z) : Z := nth (Z.to_nat (m - 1)) (month_lengths (is_leap y)) 0.

(** ** Times *)

Definition second : Z := 1000000000.
Definition minute : Z := 60 * second.
Definition hour : Z := 60 * minute.
Definition nsday : Z := 24 * hour.

(** A location: the wall clock and the offset from UTC it has where a wall clock is asked for.  In the
    gap of a change of offset the wall clock is another one. *)
Definition Location : Type := Z -> Z * Z.
Definition UTC : Location := fun w => (w, 0).
Record Time := mkTime { t_wall : Z; t_off : Z; t_loc : Location }.
Definition t_unix (t : Time) : Z := t_wall t - t_off t.
Definition zeroTime : Time := mkTime 0 0 UTC.
Definition IsZero (t : Time) : bool := t_unix t =? 0.
Definition Before (t u : Time) : bool := t_unix t <? t_unix u.
Definition in_UTC (t : Time) : Time := mkTime (t_unix t) 0 UTC.

Definition t_days (t : Time) : Z := t_wall t / nsday.
Definition Year (t : Time) : Z := (year_yday (t_days t)).1.
(** From 1 *)
Definition YearDay (t : Time) : Z := (year_yday (t_days t)).2 + 1.
Definition Month (t : Time) : Z := (month_day (month_lengths (is_leap (Year t))) 1 (YearDay t - 1)).1.
Definition Day_ (t : Time) : Z := (month_day (month_lengths (is_leap (Year t))) 1 (YearDay t - 1)).2.
Definition Hour (t : Time) : Z := t_wall t mod nsday / hour.
Definition Minute (t : Time) : Z := t_wall t mod hour / minute.
Definition Second (t : Time) : Z := t_wall t mod minute / second.
(** From Sunday; January 1 of the year 1 was a Monday. *)
Definition Weekday (t : Time) : Z := (t_days t + 1) mod 7.

(** [time.Date] *)
Definition Date (y m d h mi s ns : Z) (loc : Location) : Time :=
  let '(w, o) := loc (days_of_civil y m d * nsday + h * hour + mi * minute + s * second + ns) in mkTime w o loc.
(** [t.AddDate(0, 0, n)] and [t.Add(d)] *)
Definition AddDays (t : Time) (n : Z) : Time := let '(w, o) := t_loc t (t_wall t + n * nsday) in mkTime w o (t_loc t).
(** Of a time in UTC, which has no change of offset *)
Definition Add_UTC (t : Time) (d : Z) : Time := mkTime (t_wall t + d) 0 UTC.

(** ** Compact dates *)

Definition two (n : Z) : bytes := [48 + n / 10; 48 + n mod 10].
(** [t.Format("20060102T150405Z")] of a year that is not negative *)
Definition zeros (n : nat) (s : bytes) : bytes := replicate (n - length s) 48 ++ s.
Definition format_compact (t : Time) : bytes :=
  zeros 4 (dec (Year t)) ++ two (Month t) ++ two (Day_ t) ++ lit "T" ++ two (Hour t) ++ two (Minute t) ++ two (Second t) ++ lit "Z".

(** A field of [n] digits *)
Definition num (n : nat) (s : bytes) : option (Z * bytes) :=
  if (length s <? n)%nat then None else match digits 0 (take n s) with Some v => Some (v, drop n s) | None => None end.
Definition in_field (lo hi : Z) (n : nat) (s : bytes) : option (Z * bytes) :=
  match num n s with Some (v, s) => if (lo <=? v) && (v <=? hi) then Some (v, s) else None | None => None end.
(** A fraction of a second is taken after the seconds, though the layout has none: the nanoseconds of
    its first nine digits. *)
Fixpoint span_digits (s : bytes) : bytes * bytes :=
  match s with
  | b :: t => if is_digit b then let '(x, y) := span_digits t in (b :: x, y) else ([], s)
  | [] => ([], [])
  end.
Definition nanoseconds (ds : bytes) : Z := default 0 (digits 0 (take 9 (ds ++ replicate 9 48))).
Definition fraction (s : bytes) : Z * bytes :=
  match s with
  | b :: d :: _ => if ((b =? 46) || (b =? 44)) && is_digit d then let '(ds, rest) := span_digits (drop 1 s) in (nanoseconds ds, rest) else (0, s)
  | _ => (0, s)
  end.
Definition parse_date (s : bytes) : option (Z * Z * Z * bytes) :=
  '(y, s) ← num 4 s; '(m, s) ← in_field 1 12 2 s; '(d, s) ← num 2 s; Some (y, m, d, s).
Definition day_ok (y m d : Z) : bool := (1 <=? d) && (d <=? daysIn m y).
(** [time.Parse] with the layout 20060102T150405 and what follows it *)
Definition parse_datetime (suffix : bytes) (v : bytes) : option Time :=
  '(y, m, d, s) ← parse_date v;
  s ← (match s with 84 :: s => Some s | _ => None end);
  '(h, s) ← in_field 0 23 2 s; '(mi, s) ← in_field 0 59 2 s; '(sec, s) ← in_field 0 59 2 s;
  let '(ns, s) := fraction s in
  if beq s suffix && day_ok y m d then Some (Date y m d h mi sec ns UTC) else None.
Definition parse_day (v : bytes) : option Time :=
  '(y, m, d, s) ← parse_date v;
  if beq s [] && day_ok y m d then Some (Date y m d 0 0 0 0 UTC) else None.

Example calendar_ex :
  year_yday (days_of_civil 1601 1 1) = (1601, 0) /\ year_yday (days_of_civil 2000 12 31) = (2000, 365) /\ Weekday (Date 2024 2 29 0 0 0 0 UTC) = 4
  /\ format_compact (Date 2024 2 29 13 5 9 0 UTC) = lit "20240229T130509Z"
  /\ option_map format_compact (parse_datetime (lit "Z") (lit "20240229T130509.25Z")) = Some (lit "20240229T130509Z")
  /\ parse_day (lit "20230229") = None /\ option_map t_wall (parse_day (lit "00010101")) = Some 0.
Proof. vm_compute. done. Qed.

(** ** The calendar is a calendar *)

Lemma days_before_year_S y : days_before_year (y + 1) = days_before_year y + days_in_year y.
Proof.
  unfold days_before_year, days_in_year, is_leap. replace (y + 1 - 1) with y by lia.
  pose proof (Z.div_mod y 4 ltac:(lia)). pose proof (Z.mod_pos_bound y 4 ltac:(lia)). pose proof (Z.div_mod (y - 1) 4 ltac:(lia)). pose proof (Z.mod_pos_bound (y - 1) 4 ltac:(lia)).
  pose proof (Z.div_mod y 100 ltac:(lia)). pose proof (Z.mod_pos_bound y 100 ltac:(lia)). pose proof (Z.div_mod (y - 1) 100 ltac:(lia)). pose proof (Z.mod_pos_bound (y - 1) 100 ltac:(lia)).
  pose proof (Z.div_mod y 400 ltac:(lia)). pose proof (Z.mod_pos_bound y 400 ltac:(lia)). pose proof (Z.div_mod (y - 1) 400 ltac:(lia)). pose proof (Z.mod_pos_bound (y - 1) 400 ltac:(lia)).
  destruct (y mod 4 =? 0) eqn:E4, (y mod 100 =? 0) eqn:E100, (y mod 400 =? 0) eqn:E400; cbn [andb orb negb]; lia.
Qed.
Lemma year_yday_spec d : let '(y, yd) := year_yday d in d = days_before_year y + yd /\ 0 <= yd < days_in_year y.
Proof.
  unfold year_yday. pose proof (Z.div_mod d 146097 ltac:(lia)) as E0. pose proof (Z.mod_pos_bound d 146097 ltac:(lia)) as B0.
  set (a := d / 146097) in *. set (r := d mod 146097) in *.
  pose proof (Z.div_mod r 36524 ltac:(lia)) as E1. pose proof (Z.mod_pos_bound r 36524 ltac:(lia)) as B1. set (b := Z.min (r / 36524) 3) in *.
  assert (Hb : 0 <= b <= 3 /\ 0 <= r - 36524 * b < 36525 /\ (b < 3 -> r - 36524 * b < 36524)) by (unfold b; lia).
  set (s := r - 36524 * b) in *. clearbody b.
  pose proof (Z.div_mod s 1461 ltac:(lia)) as E2. pose proof (Z.mod_pos_bound s 1461 ltac:(lia)) as B2. set (c := s / 1461) in *. set (u := s mod 1461) in *.
  pose proof (Z.div_mod u 365 ltac:(lia)) as E3. pose proof (Z.mod_pos_bound u 365 ltac:(lia)) as B3. set (e := Z.min (u / 365) 3) in *.
  assert (He : 0 <= e <= 3 /\ 0 <= u - 365 * e <= 365 /\ (e < 3 -> u - 365 * e < 365)) by (unfold e; lia). clearbody e.
  assert (Hc : 0 <= c <= 24) by lia.
  set (y := 400 * a + 100 * b + 4 * c + e + 1).
  assert (H4 : (y - 1) / 4 = 100 * a + 25 * b + c) by (symmetry; apply (Z.div_unique _ _ _ e); lia).
  assert (H100 : (y - 1) / 100 = 4 * a + b) by (symmetry; apply (Z.div_unique _ _ _ (4 * c + e)); lia).
  assert (H400 : (y - 1) / 400 = a) by (symmetry; apply (Z.div_unique _ _ _ (100 * b + 4 * c + e)); lia).
  assert (Hd : d = days_before_year y + (u - 365 * e)) by (unfold days_before_year; rewrite H4, H100, H400; lia).
  split; [exact Hd|]. split; [lia|]. unfold days_in_year. destruct (is_leap y) eqn:El; [lia|].
  destruct (decide (u - 365 * e = 365)); [|lia]. exfalso. unfold is_leap in El.
  assert (e = 3) by lia. assert (Hm4 : y mod 4 = 0) by (symmetry; apply (Z.mod_unique _ _ (100 * a + 25 * b + c + 1)); lia).
  rewrite Hm4 in El. cbn [andb Z.eqb] in El. apply orb_false_iff in El as [El1 El2]. apply negb_false_iff, Z.eqb_eq in El1.
  assert (c = 24 \/ c < 24) as [Hc24|Hc24] by lia.
  - assert (Hb3 : b = 3) by lia. apply Z.eqb_neq in El2. apply El2. symmetry. apply (Z.mod_unique _ _ (a + 1)); lia.
  - assert (Hy : y mod 100 = 4 * c + 4) by (symmetry; apply (Z.mod_unique _ _ (4 * a + b)); lia). lia.
Qed.
Lemma days_before_year_mono y z : y <= z -> days_before_year y <= days_before_year z.
Proof.
  intros Hyz. unfold days_before_year. pose proof (Z.div_le_mono (y - 1) (z - 1) 4 ltac:(lia) ltac:(lia)). pose proof (Z.div_le_mono (y - 1) (z - 1) 400 ltac:(lia) ltac:(lia)).
  pose proof (Z.div_mod (y - 1) 100 ltac:(lia)). pose proof (Z.mod_pos_bound (y - 1) 100 ltac:(lia)). pose proof (Z.div_mod (z - 1) 100 ltac:(lia)). pose proof (Z.mod_pos_bound (z - 1) 100 ltac:(lia)).
  destruct (decide (y = z)) as [->|]; [lia|]. lia.
Qed.
(** The year of a day is the one it lies in. *)
Lemma year_yday_unique y yd : 0 <= yd < days_in_year y -> year_yday (days_before_year y + yd) = (y, yd).
Proof.
  intros Hyd. pose proof (year_yday_spec (days_before_year y + yd)) as Hs. destruct (year_yday _) as [y' yd']. destruct Hs as [E Hyd'].
  pose proof (days_before_year_S y). pose proof (days_before_year_S y').
  assert (y' = y) as ->; [|f_equal; lia]. destruct (Z.lt_trichotomy y' y) as [Hl|[|Hl]]; [|done|].
  - pose proof (days_before_year_mono (y' + 1) y ltac:(lia)). lia.
  - pose proof (days_before_year_mono (y + 1) y' ltac:(lia)). lia.
Qed.

Definition month_table_ok (leap : bool) : bool :=
  forallb (fun m => forallb (fun d =>
      bool_decide (month_day (month_lengths leap) 1 (days_before_month leap m + (d - 1)) = (m, d))
      && (0 <=? days_before_month leap m + (d - 1)) && (days_before_month leap m + (d - 1) <? if leap then 366 else 365))
    (map (fun k => Z.of_nat k + 1) (seq 0 (Z.to_nat (nth (Z.to_nat (m - 1)) (month_lengths leap) 0)))))
    (map (fun k => Z.of_nat k + 1) (seq 0 12)).
Lemma month_tables : month_table_ok true = true /\ month_table_ok false = true.
Proof. split; vm_cast_no_check (eq_refl true). Qed.
Lemma month_day_inv leap m d :
  1 <= m <= 12 -> 1 <= d <= nth (Z.to_nat (m - 1)) (month_lengths leap) 0 ->
  month_day (month_lengths leap) 1 (days_before_month leap m + (d - 1)) = (m, d)
  /\ 0 <= days_before_month leap m + (d - 1) < (if leap : bool then 366 else 365).
Proof.
  intros Hm Hd. assert (Ht : month_table_ok leap = true) by (destruct leap; apply month_tables). unfold month_table_ok in Ht.
  rewrite forallb_forall in Ht. specialize (Ht m). rewrite forallb_forall in Ht.
  assert (Hin : forall n x, 1 <= x <= n -> In x (map (fun k => Z.of_nat k + 1) (seq 0 (Z.to_nat n)))).
  { intros n x Hx. apply in_map_iff. exists (Z.to_nat (x - 1)). split; [lia|]. apply in_seq. lia. }
  specialize (Ht (Hin 12 m Hm) d (Hin _ d Hd)). rewrite !andb_true_iff in Ht. destruct Ht as [[H1 H2] H3]. apply bool_decide_eq_true in H1.
  split; [exact H1|]. lia.
Qed.
(** Every day of a year is in a month. *)
Definition yday_table_ok (leap : bool) : bool :=
  forallb (fun k => let '(m, d) := month_day (month_lengths leap) 1 (Z.of_nat k) in
      (1 <=? m) && (m <=? 12) && (1 <=? d) && (d <=? nth (Z.to_nat (m - 1)) (month_lengths leap) 0) && (days_before_month leap m + (d - 1) =? Z.of_nat k))
    (seq 0 (Z.to_nat (if leap : bool then 366 else 365))).
Lemma yday_tables : yday_table_ok true = true /\ yday_table_ok false = true.
Proof. split; vm_cast_no_check (eq_refl true). Qed.
Lemma month_day_spec leap yd m d :
  0 <= yd < (if leap : bool then 366 else 365) -> month_day (month_lengths leap) 1 yd = (m, d) ->
  1 <= m <= 12 /\ 1 <= d <= nth (Z.to_nat (m - 1)) (month_lengths leap) 0 /\ days_before_month leap m + (d - 1) = yd.
Proof.
  intros Hyd E. assert (Ht : yday_table_ok leap = true) by (destruct leap; apply yday_tables). unfold yday_table_ok in Ht. rewrite forallb_forall in Ht.
  specialize (Ht (Z.to_nat yd)). rewrite Z2Nat.id in Ht by lia. rewrite E in Ht. rewrite !andb_true_iff in Ht.
  destruct Ht as [[[[H1 H2] H3] H4] H5]; [apply in_seq; destruct leap; lia|]. lia.
Qed.

(** ** Fields of a time *)

Lemma Year_spec t : days_before_year (Year t) + (YearDay t - 1) = t_days t /\ 1 <= YearDay t <= days_in_year (Year t).
Proof. unfold Year, YearDay. pose proof (year_yday_spec (t_days t)) as Hs. destruct (year_yday (t_days t)) as [y yd]. cbn. lia. Qed.
Lemma days_in_year_bool y : days_in_year y = if is_leap y : bool then 366 else 365.
Proof. done. Qed.
Lemma Month_spec t :
  1 <= Month t <= 12 /\ 1 <= Day_ t <= daysIn (Month t) (Year t) /\ days_of_civil (Year t) (Month t) (Day_ t) = t_days t.
Proof.
  destruct (Year_spec t) as [Ed Hy]. unfold Month, Day_, days_of_civil, daysIn. rewrite days_in_year_bool in Hy.
  destruct (month_day (month_lengths (is_leap (Year t))) 1 (YearDay t - 1)) as [m d] eqn:E. cbn [fst snd].
  apply month_day_spec in E as (H1 & H2 & H3); lia.
Qed.
Lemma clock_spec t :
  t_wall t = t_days t * nsday + Hour t * hour + Minute t * minute + Second t * second + t_wall t mod second
  /\ 0 <= Hour t < 24 /\ 0 <= Minute t < 60 /\ 0 <= Second t < 60.
Proof.
  unfold t_days, Hour, Minute, Second. set (w := t_wall t).
  assert (E1 : w mod nsday / hour = w / hour - 24 * (w / nsday)).
  { unfold nsday. rewrite Z.mod_eq, (Z.mul_comm 24 hour), <- Z.div_div by (unfold hour, minute, second; lia).
    replace (w - hour * 24 * (w / hour / 24)) with (w + (- (24 * (w / hour / 24))) * hour) by lia. rewrite Z.div_add by (unfold hour, minute, second; lia). lia. }
  assert (E2 : w mod hour / minute = w / minute - 60 * (w / hour)).
  { unfold hour. rewrite Z.mod_eq, (Z.mul_comm 60 minute), <- Z.div_div by (unfold minute, second; lia).
    replace (w - minute * 60 * (w / minute / 60)) with (w + (- (60 * (w / minute / 60))) * minute) by lia. rewrite Z.div_add by (unfold minute, second; lia). lia. }
  assert (E3 : w mod minute / second = w / second - 60 * (w / minute)).
  { unfold minute. rewrite Z.mod_eq, (Z.mul_comm 60 second), <- Z.div_div by (unfold second; lia).
    replace (w - second * 60 * (w / second / 60)) with (w + (- (60 * (w / second / 60))) * second) by lia. rewrite Z.div_add by (unfold second; lia). lia. }
  rewrite E1, E2, E3. split; [pose proof (Z.div_mod w second ltac:(unfold second; lia)); unfold nsday, hour, minute in *; lia|].
  rewrite <- E1, <- E2, <- E3. pose proof (Z.mod_pos_bound w nsday ltac:(unfold nsday, hour, minute, second; lia)).
  pose proof (Z.mod_pos_bound w hour ltac:(unfold hour, minute, second; lia)). pose proof (Z.mod_pos_bound w minute ltac:(unfold minute, second; lia)).
  repeat split; try (apply Z.div_pos; [lia|unfold hour, minute, second; lia]); apply Z.div_lt_upper_bound; unfold nsday, hour, minute, second in *; lia.
Qed.
Lemma Date_fields t :
  t_loc t = UTC -> t_off t = 0 -> t_wall t mod second = 0 ->
  Date (Year t) (Month t) (Day_ t) (Hour t) (Minute t) (Second t) 0 UTC = t.
Proof.
  intros Hl Ho Hs. unfold Date, UTC at 1. destruct (Month_spec t) as (_ & _ & ->). destruct (clock_spec t) as [Ew _].
  rewrite Hs in Ew. rewrite <- Ew. destruct t; cbn in *. by subst.
Qed.

(** ** The compact form reads back *)

Lemma forallb_seqZ (f : Z -> bool) n x : forallb f (seqZ 0 n) = true -> 0 <= x < n -> f x = true.
Proof. rewrite forallb_forall. intros Hf Hx. apply Hf, list_elem_of_In, elem_of_seqZ. lia. Qed.
Definition year_ok (y : Z) : bool := bool_decide (length (zeros 4 (dec y)) = 4%nat) && bool_decide (digits 0 (zeros 4 (dec y)) = Some y).
Lemma year_table : forallb year_ok (seqZ 0 10000) = true.
Proof. vm_cast_no_check (eq_refl true). Qed.
Definition two_table_ok : bool := forallb (fun k => bool_decide (digits 0 (two (Z.of_nat k)) = Some (Z.of_nat k))) (seq 0 100).
Lemma two_table : two_table_ok = true.
Proof. vm_cast_no_check (eq_refl true). Qed.
Lemma num_app n s v rest : length s = n -> digits 0 s = Some v -> num n (s ++ rest) = Some (v, rest).
Proof. intros <- Hd. unfold num. rewrite length_app, (proj2 (Nat.ltb_ge _ _)) by lia. by rewrite take_app_length, Hd, drop_app_length. Qed.
Lemma num_year y rest : 0 <= y <= 9999 -> num 4 (zeros 4 (dec y) ++ rest) = Some (y, rest).
Proof.
  intros Hy. pose proof (forallb_seqZ _ _ y year_table ltac:(lia)) as Ht. unfold year_ok in Ht.
  rewrite andb_true_iff, !bool_decide_eq_true in Ht. destruct Ht as [H1 H2]. by apply num_app.
Qed.
Lemma num_two n rest : 0 <= n <= 99 -> num 2 (two n ++ rest) = Some (n, rest).
Proof.
  intros Hn. pose proof two_table as Ht. unfold two_table_ok in Ht. rewrite forallb_forall in Ht. specialize (Ht (Z.to_nat n)).
  rewrite Z2Nat.id in Ht by lia. rewrite bool_decide_eq_true in Ht. apply num_app; [done|]. apply Ht, in_seq. lia.
Qed.
Lemma in_field_two lo hi n rest : 0 <= n <= 99 -> lo <= n <= hi -> in_field lo hi 2 (two n ++ rest) = Some (n, rest).
Proof. intros Hn Hr. unfold in_field. rewrite num_two by done. by rewrite (proj2 (Z.leb_le lo n) (proj1 Hr)), (proj2 (Z.leb_le n hi) (proj2 Hr)). Qed.
Lemma daysIn_bound m y : daysIn m y <= 31.
Proof.
  unfold daysIn. destruct (nth_in_or_default (Z.to_nat (m - 1)) (month_lengths (is_leap y)) 0) as [Hin| ->]; [|lia].
  revert Hin. generalize (nth (Z.to_nat (m - 1)) (month_lengths (is_leap y)) 0). intros x Hin. unfold month_lengths in Hin.
  destruct (is_leap y); cbn [In] in Hin; intuition lia.
Qed.
Lemma parse_format t :
  t_loc t = UTC -> t_off t = 0 -> t_wall t mod second = 0 -> 0 <= Year t <= 9999 -> parse_datetime (lit "Z") (format_compact t) = Some t.
Proof.
  intros Hl Ho Hs Hy. unfold parse_datetime, parse_date, format_compact. destruct (Month_spec t) as (Hm & Hd & _). destruct (clock_spec t) as (_ & Hh & Hmi & Hsec).
  pose proof (daysIn_bound (Month t) (Year t)).
  rewrite num_year by done. cbn [mbind option_bind]. rewrite in_field_two by lia. cbn [mbind option_bind]. rewrite num_two by lia. cbn [mbind option_bind].
  cbn [app lit]. change (lit "T" ++ ?x) with (84 :: x). cbn [mbind option_bind].
  rewrite !in_field_two by lia. cbn [mbind option_bind]. rewrite in_field_two by lia. cbn [mbind option_bind]. rewrite in_field_two by lia. cbn [mbind option_bind].
  change (fraction (lit "Z")) with (0, lit "Z"). cbv beta iota. unfold beq. rewrite bool_decide_eq_true_2 by done.
  unfold day_ok. rewrite (proj2 (Z.leb_le _ _)), (proj2 (Z.leb_le _ _)) by lia. cbn [andb]. by rewrite Date_fields.
Qed.
