(* ===== verification/Recur.v ===== *)
(** * Recurrence patterns ([internal/recurrence])

    The RRULE of a series and the binary pattern Outlook keeps: the parser and the printer of the
    rule, the pattern they are rendered to and from, and the appointment's blob with the deleted and
    modified instances of the series. *)

From stdpp Require Import base list numbers.
From Stdlib Require Import ZArith Lia.
From Stdlib Require String.
Import String.StringSyntax.
From S2P Require Import Prelude Utf Gostr Gotime.
Open Scope Z_scope.
#[local] Arguments lit : simpl never.

(** ** Values *)

Definition PatternDay : Z := 0x0000.
Definition PatternWeek : Z := 0x0001.
Definition PatternMonth : Z := 0x0002.
Definition PatternMonthNth : Z := 0x0003.
Definition FreqDaily : Z := 0x200A.
Definition FreqWeekly : Z := 0x200B.
Definition FreqMonthly : Z := 0x200C.
Definition FreqYearly : Z := 0x200D.
Definition EndAfterDate : Z := 0x00002021.
Definition EndAfterN : Z := 0x00002022.
Definition EndNever : Z := 0x00002023.
Definition EndNeverAlt : Z := 0xFFFFFFFF.
Definition noEndDate : Z := 0x5AE980DF.
Definition epoch1601 : Time := Date 1601 1 1 0 0 0 0 UTC.

Record Pattern := mkPattern {
  RecurFrequency : Z; PatternType : Z; FirstDateTime : Z; Period : Z; EndType : Z; OccurrenceCount : Z;
  FirstDOW : Z; DayOfWeek : Z; DayOfMonth : Z; WeekOfMonth : Z; StartDate : Z; EndDate : Z }.
Record rrule := mkRule {
  rr_Freq : bytes; rr_Interval : Z; rr_Count : Z; rr_Until : Time; rr_Weekdays : list bytes;
  rr_SetPos : Z; rr_MonthDay : Z; rr_Month : Z }.
Inductive rc_error := ErrNoFreq | ErrInterval | ErrCount | ErrFreq | ErrShort | ErrTruncated | ErrPatternType.
Definition rc A : Type := result rc_error A.

(** ** Reading a rule *)

(** [math.MaxUint32 / (7*24*60)] *)
Definition maxRRuleInterval : Z := 0xFFFFFFFF / (7 * 24 * 60).
Definition r_freq (f : bytes) (r : rrule) : rrule := mkRule f (rr_Interval r) (rr_Count r) (rr_Until r) (rr_Weekdays r) (rr_SetPos r) (rr_MonthDay r) (rr_Month r).
Definition r_interval (n : Z) (r : rrule) : rrule := mkRule (rr_Freq r) n (rr_Count r) (rr_Until r) (rr_Weekdays r) (rr_SetPos r) (rr_MonthDay r) (rr_Month r).
Definition r_count (n : Z) (r : rrule) : rrule := mkRule (rr_Freq r) (rr_Interval r) n (rr_Until r) (rr_Weekdays r) (rr_SetPos r) (rr_MonthDay r) (rr_Month r).
Definition r_until (t : Time) (r : rrule) : rrule := mkRule (rr_Freq r) (rr_Interval r) (rr_Count r) t (rr_Weekdays r) (rr_SetPos r) (rr_MonthDay r) (rr_Month r).
Definition r_days (d : list bytes) (p : Z) (r : rrule) : rrule := mkRule (rr_Freq r) (rr_Interval r) (rr_Count r) (rr_Until r) d p (rr_MonthDay r) (rr_Month r).
Definition r_setpos (p : Z) (r : rrule) : rrule := r_days (rr_Weekdays r) p r.
Definition r_monthday (n : Z) (r : rrule) : rrule := mkRule (rr_Freq r) (rr_Interval r) (rr_Count r) (rr_Until r) (rr_Weekdays r) (rr_SetPos r) n (rr_Month r).
Definition r_month (n : Z) (r : rrule) : rrule := mkRule (rr_Freq r) (rr_Interval r) (rr_Count r) (rr_Until r) (rr_Weekdays r) (rr_SetPos r) (rr_MonthDay r) n.

Definition setFreq (r : rrule) (val : bytes) : rc rrule := Ok (r_freq (ToUpper (TrimSpace val)) r).
Definition setInterval (r : rrule) (val : bytes) : rc rrule :=
  match Atoi val with
  | None => Ok r
  | Some n => if maxRRuleInterval <? n then Err ErrInterval else Ok (if 0 <? n then r_interval n r else r)
  end.
Definition setCount (r : rrule) (val : bytes) : rc rrule :=
  match Atoi val with
  | None => Ok r
  | Some n => if 0xFFFFFFFF <? n then Err ErrCount else Ok (if 0 <? n then r_count n r else r)
  end.
(** The three forms of a date *)
Definition parseRRuleUntil (val : bytes) : option Time :=
  match parse_datetime (lit "Z") val with
  | Some t => Some t
  | None => match parse_datetime [] val with Some t => Some t | None => parse_day val end
  end.
Definition setUntil (r : rrule) (val : bytes) : rc rrule := Ok (match parseRRuleUntil val with Some t => r_until t r | None => r end).
(** The leading signs and digits of a token, and the rest *)
Fixpoint ordinal (tok : bytes) : bytes * bytes :=
  match tok with
  | b :: t => if (b =? 43) || (b =? 45) || is_digit b then let '(x, y) := ordinal t in (b :: x, y) else ([], tok)
  | [] => ([], [])
  end.
Definition byday_token (acc : list bytes * Z) (tok : bytes) : list bytes * Z :=
  let '(days, setPos) := acc in
  let '(n, day) := ordinal (TrimSpace tok) in
  let setPos := match n with [] => setPos | _ => match Atoi n with Some k => k | None => setPos end end in
  let day := ToUpper day in
  (match day with [] => days | _ => days ++ [day] end, setPos).
Definition parseByDay (val : bytes) : list bytes * Z := foldl byday_token ([], 0) (Split val 44).
Definition setByDayParam (r : rrule) (val : bytes) : rc rrule := let '(d, p) := parseByDay val in Ok (r_days d p r).
Definition setMonthDayParam (r : rrule) (val : bytes) : rc rrule := Ok (match Atoi val with Some n => r_monthday n r | None => r end).
Definition setMonthParam (r : rrule) (val : bytes) : rc rrule := Ok (match Atoi val with Some n => r_month n r | None => r end).
Definition setSetPosParam (r : rrule) (val : bytes) : rc rrule := Ok (match Atoi val with Some n => r_setpos n r | None => r end).
Definition rruleFields : list (bytes * (rrule -> bytes -> rc rrule)) :=
  [(lit "FREQ", setFreq); (lit "INTERVAL", setInterval); (lit "COUNT", setCount); (lit "UNTIL", setUntil);
   (lit "BYDAY", setByDayParam); (lit "BYMONTHDAY", setMonthDayParam); (lit "BYMONTH", setMonthParam); (lit "BYSETPOS", setSetPosParam)].
Definition field_of (k : bytes) : option (rrule -> bytes -> rc rrule) := snd <$> List.find (fun e => beq e.1 k) rruleFields.
Fixpoint parse_parts (r : rrule) (parts : list bytes) : rc rrule :=
  match parts with
  | [] => Ok r
  | part :: parts =>
      if negb (existsb (Z.eqb 61) part) then parse_parts r parts
      else
        let '(k, v) := Cut part 61 in
        match field_of (ToUpper (TrimSpace k)) with
        | None => parse_parts r parts
        | Some set => match set r v with Ok r => parse_parts r parts | Err e => Err e end
        end
  end.
Definition parseRRule (value : bytes) : rc rrule :=
  match parse_parts (mkRule [] 1 0 zeroTime [] 0 0 0) (Split value 59) with
  | Err e => Err e
  | Ok r => match rr_Freq r with [] => Err ErrNoFreq | _ => Ok r end
  end.

(** ** The binary pattern *)

(** [binary.LittleEndian.UintN(b[off:off+n])], which panics past the end *)
Definition le_at (n : nat) (b : bytes) (off : Z) : option Z :=
  if (off <? 0) || (len b <? off + Z.of_nat n) then None else Some (le_value (take n (drop (Z.to_nat off) b))).
(** The outer option is a panic. *)
Definition UnmarshalBinary (b : bytes) : option (rc Pattern) :=
  if len b <? 40 then Some (Err ErrShort)
  else
    freq ← le_at 2 b 4; type ← le_at 2 b 6; first ← le_at 4 b 10; period ← le_at 4 b 14;
    specific ←
      (if type =? PatternDay then Some (Ok (0, 0, 0, 26))
       else if type =? PatternWeek then d ← le_at 4 b 22; Some (Ok (d, 0, 0, 26))
       else if type =? PatternMonth then d ← le_at 4 b 22; Some (Ok (0, d, 0, 26))
       else if type =? PatternMonthNth then
         if len b <? 30 then Some (Err ErrTruncated) else d ← le_at 4 b 22; w ← le_at 4 b 26; Some (Ok (d, 0, w, 30))
       else Some (Err ErrPatternType));
    match specific with
    | Err e => Some (Err e)
    | Ok (dow, dom, wom, off) =>
        if len b <? off + 20 then Some (Err ErrTruncated)
        else
          endType ← le_at 4 b off; count ← le_at 4 b (off + 4); dow1 ← le_at 4 b (off + 8); deleted ← le_at 4 b (off + 12);
          let off := off + 16 + deleted * 4 in
          if len b <? off + 4 then Some (Err ErrTruncated)
          else
            modified ← le_at 4 b off;
            let off := off + 4 + modified * 4 in
            if len b <? off + 8 then Some (Err ErrTruncated)
            else
              start ← le_at 4 b off; end_ ← le_at 4 b (off + 4);
              Some (Ok (mkPattern freq type first period endType count dow1 dow dom wom start end_))
    end.

Definition dates_bytes (l : list Z) : bytes := le_bytes 4 (len l) ++ concat (map (le_bytes 4) l).
Definition marshal (p : Pattern) (deleted modified : list Z) : bytes :=
  le_bytes 2 0x3004 ++ le_bytes 2 0x3004 ++ le_bytes 2 (RecurFrequency p) ++ le_bytes 2 (PatternType p) ++ le_bytes 2 0
  ++ le_bytes 4 (FirstDateTime p) ++ le_bytes 4 (Period p) ++ le_bytes 4 0
  ++ (if PatternType p =? PatternDay then le_bytes 4 0
      else if PatternType p =? PatternWeek then le_bytes 4 (DayOfWeek p)
      else if PatternType p =? PatternMonth then le_bytes 4 (DayOfMonth p)
      else if PatternType p =? PatternMonthNth then le_bytes 4 (DayOfWeek p) ++ le_bytes 4 (WeekOfMonth p)
      else le_bytes 4 0)
  ++ le_bytes 4 (EndType p) ++ le_bytes 4 (OccurrenceCount p) ++ le_bytes 4 (FirstDOW p)
  ++ dates_bytes deleted ++ dates_bytes modified ++ le_bytes 4 (StartDate p) ++ le_bytes 4 (EndDate p).
Definition MarshalBinary (p : Pattern) : bytes := marshal p [] [].

(** ** The rule of a pattern *)

Definition weekday_bits : list (Z * bytes) :=
  [(1, lit "SU"); (2, lit "MO"); (4, lit "TU"); (8, lit "WE"); (16, lit "TH"); (32, lit "FR"); (64, lit "SA")].
Definition bitmaskWeekdays (mask : Z) : list bytes := omap (fun b => if Z.land mask b.1 =? 0 then None else Some b.2) weekday_bits.
Definition weekdayBitmask (days : list bytes) : Z :=
  foldl (fun mask d => Z.lor mask (default 0 (fst <$> List.find (fun b => beq b.2 d) weekday_bits))) 0 days.
Definition setPosFromWeek (week : Z) : Z := if (1 <=? week) && (week <=? 4) then week else if week =? 5 then -1 else 0.
Definition weekOfMonthFromSetPos (setPos : Z) : Z := if setPos =? -1 then 5 else if (1 <=? setPos) && (setPos <=? 5) then setPos else 0.

Definition timeFromMinutes (m : Z) : Time := Add_UTC (AddDays epoch1601 (m / (24 * 60))) (m mod (24 * 60) * minute).
(** The days of the whole years from 1601 *)
Fixpoint year_days (n : nat) : Z :=
  match n with O => 0 | Datatypes.S n => year_days n + YearDay (Date (1601 + Z.of_nat n) 12 31 0 0 0 0 UTC) end.
Definition minutesSince1601 (t : Time) : Z :=
  if Before t epoch1601 then 0
  else
    let days := year_days (Z.to_nat (Year t - 1601)) + (YearDay t - 1) in
    u32 (u32 days * 24 * 60 + u32 (Hour t) * 60 + u32 (Minute t)).

Definition dailyRRule (p : Pattern) (r : rrule) : rrule :=
  let r := r_freq (lit "DAILY") r in if Period p mod 1440 =? 0 then r_interval (Period p / 1440) r else r.
Definition weeklyRRule (p : Pattern) (r : rrule) : rrule :=
  r_days (bitmaskWeekdays (DayOfWeek p)) (rr_SetPos r) (r_interval (Period p) (r_freq (lit "WEEKLY") r)).
Definition fillDayPins (p : Pattern) (r : rrule) : rrule :=
  if PatternType p =? PatternMonthNth then r_days (bitmaskWeekdays (DayOfWeek p)) (setPosFromWeek (WeekOfMonth p)) r
  else r_monthday (DayOfMonth p) r.
Definition monthlyRRule (p : Pattern) (r : rrule) : rrule := fillDayPins p (r_interval (Period p) (r_freq (lit "MONTHLY") r)).
Definition yearlyRRule (p : Pattern) (r : rrule) : rrule := fillDayPins p (r_interval (Period p / 12) (r_freq (lit "YEARLY") r)).
Definition rruleFreqs (f : Z) : option (Pattern -> rrule -> rrule) :=
  if f =? FreqDaily then Some dailyRRule else if f =? FreqWeekly then Some weeklyRRule
  else if f =? FreqMonthly then Some monthlyRRule else if f =? FreqYearly then Some yearlyRRule else None.
Definition applyEndRange (p : Pattern) (r : rrule) : option rrule :=
  if EndType p =? EndAfterDate then
    Some (if negb (EndDate p =? 0) && negb (EndDate p =? noEndDate) then r_until (timeFromMinutes (EndDate p)) r else r)
  else if EndType p =? EndAfterN then Some (r_count (OccurrenceCount p) r)
  else if (EndType p =? EndNever) || (EndType p =? EndNeverAlt) then Some r
  else None.
Definition rruleString (r : rrule) : bytes :=
  lit "FREQ=" ++ rr_Freq r ++ lit ";INTERVAL=" ++ dec (rr_Interval r)
  ++ (if 0 <? rr_Count r then lit ";COUNT=" ++ dec (rr_Count r) else [])
  ++ (if negb (IsZero (rr_Until r)) then lit ";UNTIL=" ++ format_compact (in_UTC (rr_Until r)) else [])
  ++ (match rr_Weekdays r with
      | [] => []
      | days => lit ";BYDAY=" ++ Join days [44] ++ (if negb (rr_SetPos r =? 0) then lit ";BYSETPOS=" ++ dec (rr_SetPos r) else [])
      end)
  ++ (if negb (rr_MonthDay r =? 0) then lit ";BYMONTHDAY=" ++ dec (rr_MonthDay r) else []).
Definition no_rule : rrule := mkRule [] 0 0 zeroTime [] 0 0 0.
Definition pattern_rrule (p : Pattern) (until : Time) : option bytes :=
  fill ← rruleFreqs (RecurFrequency p);
  let r := fill p no_rule in
  let r := if rr_Interval r <=? 0 then r_interval 1 r else r in
  r ← applyEndRange p r;
  Some (rruleString (if (EndType p =? EndAfterDate) && negb (IsZero until) then r_until until r else r)).
Definition toRRule (p : Pattern) : option bytes := pattern_rrule p zeroTime.
Definition RRuleUntil (p : Pattern) (until : Time) : option bytes := pattern_rrule p until.
(** The outer option is a panic. *)
Definition ToRRule (blob : bytes) : option (option bytes) :=
  r ← UnmarshalBinary blob; Some (match r with Ok p => toRRule p | Err _ => None end).

(** ** The pattern of a rule *)

Definition p_base (start : Z) : Pattern := mkPattern 0 0 0 0 0 0 0 0 0 0 start 0.
Definition intervalPeriod (r : rrule) : Z := u32 (Z.max (rr_Interval r) 1).
(** [x % y] on [uint32]; the option is the panic of a division by zero *)
Definition umod (x y : Z) : option Z := if y =? 0 then None else Some (x mod y).
Definition dailyPattern (p : Pattern) (r : rrule) (_ : Time) : option Pattern :=
  let period := u32 (intervalPeriod r * 24 * 60) in
  first ← umod (StartDate p) period;
  Some (mkPattern FreqDaily PatternDay first period (EndType p) (OccurrenceCount p) (FirstDOW p) (DayOfWeek p) (DayOfMonth p) (WeekOfMonth p) (StartDate p) (EndDate p)).
Definition weeklyFirstDateTime (start : Time) (periodWeeks : Z) : Z :=
  let week := AddDays start (- Weekday start) in
  let week := Date (Year week) (Month week) (Day_ week) 0 0 0 0 UTC in
  let period := u32 (periodWeeks * 7 * 24 * 60) in
  if period =? 0 then 0 else minutesSince1601 week mod period.
Definition monthlyFirstDateTime (start : Time) (periodMonths : Z) : Z :=
  let months := u32 (u32 (Year start - 1601) * 12 + u32 (Month start - 1)) in
  if periodMonths =? 0 then 0 else months mod periodMonths.
Definition weeklyPattern (p : Pattern) (r : rrule) (start : Time) : option Pattern :=
  let mask := u32 (weekdayBitmask (rr_Weekdays r)) in
  let mask := if mask =? 0 then Z.shiftl 1 (Weekday start) else mask in
  let period := intervalPeriod r in
  Some (mkPattern FreqWeekly PatternWeek (weeklyFirstDateTime start period) period (EndType p) (OccurrenceCount p) (FirstDOW p) mask (DayOfMonth p) (WeekOfMonth p) (StartDate p) (EndDate p)).
(** The type, the weekdays, the day and the week of the month *)
Definition setDayPins (r : rrule) (start : Time) : Z * Z * Z * Z :=
  match rr_Weekdays r with
  | [] => (PatternMonth, 0, u32 (if rr_MonthDay r =? 0 then Day_ start else rr_MonthDay r), 0)
  | days => (PatternMonthNth, u32 (weekdayBitmask days), 0, weekOfMonthFromSetPos (rr_SetPos r))
  end.
Definition month_pattern (freq period : Z) (p : Pattern) (r : rrule) (start : Time) : option Pattern :=
  let '(type, dow, dom, wom) := setDayPins r start in
  Some (mkPattern freq type (monthlyFirstDateTime start period) period (EndType p) (OccurrenceCount p) (FirstDOW p) dow dom wom (StartDate p) (EndDate p)).
Definition monthlyPattern (p : Pattern) (r : rrule) (start : Time) : option Pattern := month_pattern FreqMonthly (intervalPeriod r) p r start.
Definition yearlyPattern (p : Pattern) (r : rrule) (start : Time) : option Pattern := month_pattern FreqYearly (u32 (intervalPeriod r * 12)) p r start.
Definition patternFreqs (f : bytes) : option (Pattern -> rrule -> Time -> option Pattern) :=
  if beq f (lit "DAILY") then Some dailyPattern else if beq f (lit "WEEKLY") then Some weeklyPattern
  else if beq f (lit "MONTHLY") then Some monthlyPattern else if beq f (lit "YEARLY") then Some yearlyPattern else None.
Definition p_end (p : Pattern) (type count date : Z) : Pattern :=
  mkPattern (RecurFrequency p) (PatternType p) (FirstDateTime p) (Period p) type count (FirstDOW p) (DayOfWeek p) (DayOfMonth p) (WeekOfMonth p) (StartDate p) date.
Definition setEndRange (p : Pattern) (r : rrule) : Pattern :=
  if negb (IsZero (rr_Until r)) then p_end p EndAfterDate 0xA (minutesSince1601 (rr_Until r))
  else if 0 <? rr_Count r then p_end p EndAfterN (u32 (rr_Count r)) noEndDate
  else p_end p EndNever 0xA noEndDate.
Definition patternFromRecurrence (r : rrule) (start : Time) : option (rc Pattern) :=
  match patternFreqs (rr_Freq r) with
  | None => Some (Err ErrFreq)
  | Some fill => p ← fill (p_base (minutesSince1601 start)) r start; Some (Ok (setEndRange p r))
  end.
Definition FromRRule (text : bytes) (start : Time) : option (rc bytes) :=
  match parseRRule text with
  | Err e => Some (Err e)
  | Ok r => p ← patternFromRecurrence r start; Some (match p with Ok p => Ok (MarshalBinary p) | Err e => Err e end)
  end.

(** ** The appointment's blob *)

Definition OverrideSubject : Z := 0x0001.
Definition OverrideMeetingType : Z := 0x0002.
Definition OverrideReminderDelta : Z := 0x0004.
Definition OverrideReminder : Z := 0x0008.
Definition OverrideLocation : Z := 0x0010.
Definition OverrideBusyStatus : Z := 0x0020.
Definition OverrideAttachment : Z := 0x0040.
Definition OverrideSubType : Z := 0x0080.
Definition OverrideColor : Z := 0x0100.
Definition changeHighlightVersion : Z := 0x00003009.
Definition appointmentReaderVersion : Z := 0x00003006.

Record Exception := mkException {
  ex_Start : Z; ex_End : Z; ex_OriginalStart : Z; ex_Flags : Z; ex_Subject : bytes; ex_Location : bytes;
  ex_BusyStatus : Z; ex_ReminderDelta : Z; ex_ReminderSet : bool; ex_AllDay : bool }.
Record AppointmentPattern := mkAppointment {
  ap_Pattern : Pattern; DeletedDates : list Z; ModifiedDates : list Z; HasTimes : bool;
  StartTimeOffset : Z; EndTimeOffset : Z; Exceptions : list Exception }.

(** *** The reader *)

(** [reader]: the blob, the offset and whether a read went past the end *)
Record reader := mkReader { rd_b : bytes; rd_off : Z; rd_err : bool }.
Definition rd A : Type := reader -> A * reader.
Definition rd_ret {A} (a : A) : rd A := fun r => (a, r).
Definition rd_bind {A B} (m : rd A) (k : A -> rd B) : rd B := fun r => let '(a, r) := m r in k a r.
Notation "x <~ m ; k" := (rd_bind m (fun x => k)) (at level 20, m at level 100, k at level 200, right associativity).

Definition rd_left (r : reader) : Z := if rd_err r || (len (rd_b r) <? rd_off r) then 0 else len (rd_b r) - rd_off r.
Definition rd_take (n : Z) : rd (option bytes) := fun r =>
  if rd_err r then (None, r)
  else if (n <? 0) || (rd_left r <? n) then (None, mkReader (rd_b r) (rd_off r) true)
  else (Some (take (Z.to_nat n) (drop (Z.to_nat (rd_off r)) (rd_b r))), mkReader (rd_b r) (rd_off r + n) false).
Definition rd_skip (n : Z) : rd unit := _ <~ rd_take n; rd_ret tt.
(** [nil] reads as no bytes *)
Definition rd_bytes (n : Z) : rd bytes := b <~ rd_take n; rd_ret (default [] b).
Definition rd_u16 : rd Z := b <~ rd_take 2; rd_ret (match b with Some b => le_value b | None => 0 end).
Definition rd_u32 : rd Z := b <~ rd_take 4; rd_ret (match b with Some b => le_value b | None => 0 end).
Fixpoint units_of (n : nat) (b : bytes) : list Z := match n with O => [] | Datatypes.S n => le_value (take 2 b) :: units_of n (drop 2 b) end.
Definition rd_utf16 (n : Z) : rd bytes :=
  b <~ rd_take (2 * n);
  rd_ret (match b with None => [] | Some b => string_of_runes (utf16_Decode (units_of (Z.to_nat n) b)) end).
Fixpoint rd_times {A} (n : nat) (m : rd A) : rd (list A) :=
  match n with O => rd_ret [] | Datatypes.S n => a <~ m; l <~ rd_times n m; rd_ret (a :: l) end.
Definition rd_dates : rd (list Z) := fun r =>
  let '(n, r) := rd_u32 r in
  if rd_err r || (n =? 0) then ([], r)
  else if rd_left r / 4 <? n then ([], mkReader (rd_b r) (rd_off r) true)
  else rd_times (Z.to_nat n) rd_u32 r.

(** *** Decoding *)

Definition patternSpecificEnd (patternType : Z) : Z := if patternType =? PatternMonthNth then 22 + 8 else 22 + 4.
Definition latin1 (b : bytes) : bytes := string_of_runes b.
Definition has_flag (e f : Z) : bool := negb (Z.land e f =? 0).
(** A field that is there when its flag is *)
Definition rd_if {A} (c : bool) (dflt : A) (m : rd A) : rd A := if c then m else rd_ret dflt.
Definition rd_text8 : rd bytes := _ <~ rd_skip 2; n <~ rd_u16; b <~ rd_bytes n; rd_ret (latin1 b).
(** The busy status and whether the instance is all-day *)
Definition readExceptionTail (flags : Z) : rd (Z * bool) :=
  busy <~ rd_if (has_flag flags OverrideBusyStatus) 0 (v <~ rd_u32; rd_ret (i32 v));
  _ <~ rd_if (has_flag flags OverrideAttachment) tt (rd_skip 4);
  allday <~ rd_if (has_flag flags OverrideSubType) false (v <~ rd_u32; rd_ret (negb (v =? 0)));
  _ <~ rd_if (has_flag flags OverrideColor) tt (rd_skip 4);
  rd_ret (busy, allday).
Definition readExceptionInfo : rd Exception :=
  start <~ rd_u32; end_ <~ rd_u32; orig <~ rd_u32; flags <~ rd_u16;
  subject <~ rd_if (has_flag flags OverrideSubject) [] rd_text8;
  _ <~ rd_if (has_flag flags OverrideMeetingType) tt (rd_skip 4);
  delta <~ rd_if (has_flag flags OverrideReminderDelta) 0 (v <~ rd_u32; rd_ret (i32 v));
  reminder <~ rd_if (has_flag flags OverrideReminder) false (v <~ rd_u32; rd_ret (negb (v =? 0)));
  location <~ rd_if (has_flag flags OverrideLocation) [] rd_text8;
  tail <~ readExceptionTail flags;
  rd_ret (mkException start end_ orig flags subject location tail.1 delta reminder tail.2).
Definition ex_texts (e : Exception) (subject location : bytes) : Exception :=
  mkException (ex_Start e) (ex_End e) (ex_OriginalStart e) (ex_Flags e) subject location (ex_BusyStatus e) (ex_ReminderDelta e) (ex_ReminderSet e) (ex_AllDay e).
Definition readExtendedException (writer : Z) (e : Exception) : rd Exception :=
  _ <~ rd_if (changeHighlightVersion <=? writer) tt (n <~ rd_u32; rd_skip n);
  _ <~ (n <~ rd_u32; rd_skip n);
  if negb (has_flag (ex_Flags e) (Z.lor OverrideSubject OverrideLocation)) then rd_ret e
  else
    _ <~ rd_skip 12;
    subject <~ rd_if (has_flag (ex_Flags e) OverrideSubject) (ex_Subject e) (n <~ rd_u16; rd_utf16 n);
    location <~ rd_if (has_flag (ex_Flags e) OverrideLocation) (ex_Location e) (n <~ rd_u16; rd_utf16 n);
    _ <~ (n <~ rd_u32; rd_skip n);
    rd_ret (ex_texts e subject location).
Fixpoint rd_each {A B} (f : A -> rd B) (l : list A) : rd (list B) :=
  match l with [] => rd_ret [] | a :: l => b <~ f a; bs <~ rd_each f l; rd_ret (b :: bs) end.
(** What a reader gives when no read went past the end *)
Definition checked {A} (ar : A * reader) : rc A * reader := (if rd_err ar.2 then Err ErrTruncated else Ok ar.1, ar.2).
Definition decodeExceptions (count writer : Z) : rd (rc (list Exception)) := fun r =>
  if rd_left r <? count * 14 then (Err ErrTruncated, r)
  else checked ((ex <~ rd_times (Z.to_nat count) readExceptionInfo; _ <~ (n <~ rd_u32; rd_skip n); rd_each (readExtendedException writer) ex) r).
Definition decodePattern (b : bytes) : option (rc (AppointmentPattern * reader)) :=
  base ← UnmarshalBinary b;
  Some (match base with
        | Err e => Err e
        | Ok p =>
            let '(ap, r) := (d <~ rd_dates; m <~ rd_dates; _ <~ rd_skip 8; rd_ret (mkAppointment p d m false 0 0 []))
                              (mkReader b (patternSpecificEnd (PatternType p) + 12) false) in
            if rd_err r then Err ErrTruncated else Ok (ap, r)
        end).
Definition decodeTimes (r : reader) (p : AppointmentPattern) : rc AppointmentPattern :=
  let '((writer, start, end_, count), r) := (_ <~ rd_skip 4; w <~ rd_u32; s <~ rd_u32; e <~ rd_u32; c <~ rd_u16; rd_ret (w, s, e, c)) r in
  if rd_err r then Err ErrTruncated
  else
    let with_ex ex := mkAppointment (ap_Pattern p) (DeletedDates p) (ModifiedDates p) true start end_ ex in
    if negb (count =? len (ModifiedDates p)) then Ok (with_ex [])
    else match (decodeExceptions count writer r).1 with Err e => Err e | Ok ex => Ok (with_ex ex) end.
(** The outer option is a panic. *)
Definition DecodeAppointment (b : bytes) : option (rc AppointmentPattern) :=
  pr ← decodePattern b;
  Some (match pr with
        | Err e => Err e
        | Ok (p, r) => if rd_left r =? 0 then Ok p else decodeTimes r p
        end).

Definition WallClock (minutes : Z) (loc : Location) : Time :=
  let t := timeFromMinutes minutes in Date (Year t) (Month t) (Day_ t) (Hour t) (Minute t) 0 0 loc.

(** *** Encoding *)

Definition sortedDates (dates : list Z) : list Z := Compact (Sort dates).
Definition bool32 (v : bool) : bytes := le_bytes 4 (if v then 1 else 0).
Definition text8 (s : bytes) : bytes :=
  let b := map (fun r => if 0xFF <? r then 63 else r) (runes s) in
  let n := u16 (len b) in le_bytes 2 (u16 (n + 1)) ++ le_bytes 2 n ++ b.
Definition text16 (s : bytes) : bytes := let units := utf16_Encode (runes s) in le_bytes 2 (u16 (len units)) ++ concat (map (le_bytes 2) units).
Definition when (c : bool) (b : bytes) : bytes := if c then b else [].
Definition exceptionInfo (e : Exception) : bytes :=
  le_bytes 4 (ex_Start e) ++ le_bytes 4 (ex_End e) ++ le_bytes 4 (ex_OriginalStart e) ++ le_bytes 2 (ex_Flags e)
  ++ when (has_flag (ex_Flags e) OverrideSubject) (text8 (ex_Subject e))
  ++ when (has_flag (ex_Flags e) OverrideMeetingType) (le_bytes 4 0)
  ++ when (has_flag (ex_Flags e) OverrideReminderDelta) (le_bytes 4 (u32 (ex_ReminderDelta e)))
  ++ when (has_flag (ex_Flags e) OverrideReminder) (bool32 (ex_ReminderSet e))
  ++ when (has_flag (ex_Flags e) OverrideLocation) (text8 (ex_Location e))
  ++ when (has_flag (ex_Flags e) OverrideBusyStatus) (le_bytes 4 (u32 (ex_BusyStatus e)))
  ++ when (has_flag (ex_Flags e) OverrideAttachment) (le_bytes 4 0)
  ++ when (has_flag (ex_Flags e) OverrideSubType) (bool32 (ex_AllDay e))
  ++ when (has_flag (ex_Flags e) OverrideColor) (le_bytes 4 0).
Definition extendedException (e : Exception) : bytes :=
  le_bytes 4 4 ++ le_bytes 4 0 ++ le_bytes 4 0
  ++ when (has_flag (ex_Flags e) (Z.lor OverrideSubject OverrideLocation))
       (le_bytes 4 (ex_Start e) ++ le_bytes 4 (ex_End e) ++ le_bytes 4 (ex_OriginalStart e)
        ++ when (has_flag (ex_Flags e) OverrideSubject) (text16 (ex_Subject e))
        ++ when (has_flag (ex_Flags e) OverrideLocation) (text16 (ex_Location e))
        ++ le_bytes 4 0).
Definition EncodeAppointment (p : AppointmentPattern) : bytes :=
  let ex := SliceStable (fun a b => ex_Start a <? ex_Start b) (Exceptions p) in
  marshal (ap_Pattern p) (sortedDates (DeletedDates p)) (sortedDates (ModifiedDates p))
  ++ le_bytes 4 appointmentReaderVersion ++ le_bytes 4 changeHighlightVersion
  ++ le_bytes 4 (StartTimeOffset p) ++ le_bytes 4 (EndTimeOffset p) ++ le_bytes 2 (u16 (len ex))
  ++ concat (map exceptionInfo ex) ++ le_bytes 4 0 ++ concat (map extendedException ex) ++ le_bytes 4 0.

Definition Minutes (t : Time) : Z := minutesSince1601 t.
Definition Day (minutes : Z) : Z := u32 (minutes - minutes mod (24 * 60)).
(** [dur] is in nanoseconds. *)
Definition AppointmentFromRRule (text : bytes) (start : Time) (dur : Z) : option (rc AppointmentPattern) :=
  match parseRRule text with
  | Err e => Some (Err e)
  | Ok rec =>
      let day := Date (Year start) (Month start) (Day_ start) 0 0 0 0 (t_loc start) in
      p ← patternFromRecurrence rec day;
      Some (match p with
            | Err e => Err e
            | Ok p =>
                let offset := u32 (Minutes start - Minutes day) in
                Ok (mkAppointment p [] [] true offset (u32 (offset + u32 (Z.max dur 0 / minute))) [])
            end)
  end.

Definition run_rule (text : bytes) (start : Time) : option (option bytes) :=
  match FromRRule text start with Some (Ok b) => ToRRule b | _ => None end.
Definition someday : Time := Date 2024 2 29 13 5 0 0 UTC.
Example rule_runs :
  run_rule (lit "FREQ=WEEKLY;INTERVAL=2;UNTIL=20250301T101500Z;BYDAY=MO,WE") someday = Some (Some (lit "FREQ=WEEKLY;INTERVAL=2;UNTIL=20250301T101500Z;BYDAY=MO,WE"))
  /\ run_rule (lit "BYDAY=-1FR;freq=monthly;COUNT=7") someday = Some (Some (lit "FREQ=MONTHLY;INTERVAL=1;COUNT=7;BYDAY=FR;BYSETPOS=-1"))
  /\ run_rule (lit "FREQ=YEARLY") someday = Some (Some (lit "FREQ=YEARLY;INTERVAL=1;BYMONTHDAY=29")).
Proof. vm_compute. done. Qed.
