(* ===== verification/RecurProofs.v ===== *)
(** * Recurrence patterns: rules and blobs survive each other

    The minutes of a pattern are those of the calendar, the text of a rule reads back, and a rule
    keeps its text through the binary pattern. *)

From stdpp Require Import base list numbers.
From Stdlib Require Import ZArith Lia Sorted.
From Stdlib Require String.
Import String.StringSyntax.
From S2P Require Import Prelude Utf Gostr Gotime Recur.
Open Scope Z_scope.
#[local] Arguments lit : simpl never.

(** ** Minutes *)

Lemma YearDay_last y : YearDay (Date y 12 31 0 0 0 0 UTC) = days_in_year y.
Proof.
  unfold YearDay, t_days, Date, UTC. cbn [t_wall].
  replace ((days_of_civil y 12 31 * nsday + 0 * hour + 0 * minute + 0 * second + 0) / nsday) with (days_before_year y + (days_in_year y - 1)).
  - rewrite year_yday_unique; [cbn; lia|]. unfold days_in_year. destruct (is_leap y); lia.
  - replace (days_of_civil y 12 31 * nsday + 0 * hour + 0 * minute + 0 * second + 0) with (days_of_civil y 12 31 * nsday) by lia.
    rewrite Z.div_mul by (unfold nsday, hour, minute, second; lia). unfold days_of_civil, days_in_year.
    destruct (is_leap y); [change (days_before_month true 12) with 335|change (days_before_month false 12) with 334]; lia.
Qed.
Lemma year_days_spec n : year_days n = days_before_year (1601 + Z.of_nat n) - days_before_year 1601.
Proof.
  induction n as [|n IH]; [done|]. cbn [year_days]. rewrite YearDay_last, IH. replace (1601 + Z.of_nat (S n)) with (1601 + Z.of_nat n + 1) by lia.
  rewrite days_before_year_S. lia.
Qed.
Definition epoch_wall : Z := days_before_year 1601 * nsday.
Lemma epoch_is : epoch1601 = mkTime epoch_wall 0 UTC.
Proof. done. Qed.
(** The minutes from 1601 on the wall clock, as far as 32 bits hold them *)
Lemma minutes_spec t : Before t epoch1601 = false -> epoch_wall <= t_wall t -> minutesSince1601 t = u32 ((t_wall t - epoch_wall) / minute).
Proof.
  intros Hb Hw. unfold minutesSince1601. rewrite Hb. destruct (Year_spec t) as [Ed Hyd]. destruct (clock_spec t) as (Ew & Hh & Hm & Hs).
  assert (Hy : 1601 <= Year t).
  { destruct (Z.le_gt_cases 1601 (Year t)) as [|Hl]; [done|]. exfalso. pose proof (days_before_year_S (Year t)).
    pose proof (days_before_year_mono (Year t + 1) 1601 ltac:(lia)). assert (t_days t < days_before_year 1601) by lia.
    unfold t_days in *. assert (epoch_wall / nsday <= t_wall t / nsday) by (apply Z.div_le_mono; [unfold nsday, hour, minute, second; lia|done]).
    unfold epoch_wall in *. rewrite Z.div_mul in * by (unfold nsday, hour, minute, second; lia). lia. }
  rewrite year_days_spec, Z2Nat.id by lia. replace (1601 + (Year t - 1601)) with (Year t) by lia.
  assert (Ediv : (t_wall t - epoch_wall) / minute = (t_days t - days_before_year 1601) * 1440 + Hour t * 60 + Minute t).
  { symmetry. apply (Z.div_unique _ _ _ (Second t * second + t_wall t mod second)).
    - left. pose proof (Z.mod_pos_bound (t_wall t) second ltac:(unfold second; lia)). unfold minute. nia.
    - rewrite Ew at 1. unfold epoch_wall, nsday, hour. unfold minute. lia. }
  rewrite Ediv. set (d := days_before_year (Year t) - days_before_year 1601 + (YearDay t - 1)). replace (t_days t - days_before_year 1601) with d by (unfold d; lia).
  unfold u32. rewrite (Z.mod_small (Hour t)), (Z.mod_small (Minute t)) by lia.
  rewrite <- Z.add_assoc, <- (Z.add_assoc (d * 1440)), <- Zplus_mod_idemp_l, <- (Zplus_mod_idemp_l (d * 1440)). f_equal. f_equal.
  rewrite <- !Z.mul_assoc, Zmult_mod_idemp_l. f_equal.
Qed.
Lemma timeFromMinutes_is m : timeFromMinutes m = mkTime (epoch_wall + m * minute) 0 UTC.
Proof.
  unfold timeFromMinutes, Add_UTC, AddDays. rewrite epoch_is. cbn [t_loc t_wall UTC]. f_equal.
  pose proof (Z.div_mod m (24 * 60) ltac:(lia)). unfold nsday, hour. lia.
Qed.
Lemma minutes_of_time m : 0 <= m < 2 ^ 32 -> minutesSince1601 (timeFromMinutes m) = m.
Proof.
  intros Hm. assert (0 <= m * minute) by (unfold minute, second; lia). rewrite timeFromMinutes_is, minutes_spec; cbn [t_wall].
  - replace (epoch_wall + m * minute - epoch_wall) with (m * minute) by lia. rewrite Z.div_mul by (unfold minute, second; lia). unfold u32. by apply Z.mod_small.
  - rewrite epoch_is. unfold Before, t_unix. cbn [t_wall t_off]. apply Z.ltb_ge. lia.
  - lia.
Qed.
Lemma Year_range t lo hi : days_before_year lo * nsday <= t_wall t < days_before_year (hi + 1) * nsday -> lo <= Year t <= hi.
Proof.
  intros Hw. destruct (Year_spec t) as [Ed Hyd]. pose proof (days_before_year_S (Year t)).
  assert (Hd : days_before_year lo <= t_days t < days_before_year (hi + 1)).
  { unfold t_days. split; [apply Z.div_le_lower_bound|apply Z.div_lt_upper_bound]; unfold nsday, hour, minute, second in *; lia. }
  split.
  - destruct (Z.le_gt_cases lo (Year t)) as [|Hl]; [done|]. pose proof (days_before_year_mono (Year t + 1) lo ltac:(lia)). lia.
  - destruct (Z.le_gt_cases (Year t) hi) as [|Hl]; [done|]. pose proof (days_before_year_mono (hi + 1) (Year t) ltac:(lia)). lia.
Qed.
(** The date of a pattern reads back from its text. *)
Lemma parse_until m : 0 <= m < 2 ^ 32 -> parseRRuleUntil (format_compact (in_UTC (timeFromMinutes m))) = Some (timeFromMinutes m).
Proof.
  intros Hm. rewrite timeFromMinutes_is. unfold in_UTC, t_unix. cbn [t_wall t_off]. rewrite Z.sub_0_r. unfold parseRRuleUntil. rewrite parse_format; [done..| |].
  - cbn [t_wall]. unfold epoch_wall, minute, nsday, hour, minute.
    replace (days_before_year 1601 * (24 * (60 * (60 * second))) + m * (60 * second)) with ((days_before_year 1601 * 86400 + m * 60) * second) by lia.
    apply Z.mod_mul. unfold second. lia.
  - enough (1601 <= Year (mkTime (epoch_wall + m * minute) 0 UTC) <= 9999) by lia. apply Year_range. cbn [t_wall].
    change (days_before_year (9999 + 1)) with 3652059. change (days_before_year 1601) with 584388. unfold epoch_wall. change (days_before_year 1601) with 584388.
    unfold nsday, hour, minute, second. lia.
Qed.
Lemma until_nonzero m : 0 <= m -> IsZero (timeFromMinutes m) = false.
Proof.
  intros Hm. rewrite timeFromMinutes_is. unfold IsZero, t_unix. cbn [t_wall t_off]. apply Z.eqb_neq. unfold epoch_wall.
  change (days_before_year 1601) with 584388. unfold nsday, hour, minute, second. lia.
Qed.

(** ** The text of a rule *)

Definition free_of (c : Z) (s : bytes) : bool := forallb (fun b => negb (b =? c)) s.
Lemma free_of_app c s t : free_of c (s ++ t) = free_of c s && free_of c t.
Proof. apply forallb_app. Qed.
Lemma Split_free c s : free_of c s = true -> Split s c = [s].
Proof.
  induction s as [|b s IH]; [done|]. cbn. intros [Hb Hs]%andb_true_iff. apply negb_true_iff in Hb. rewrite Hb, IH by done. done.
Qed.
Lemma Split_cons c s rest : free_of c s = true -> Split (s ++ c :: rest) c = s :: Split rest c.
Proof.
  induction s as [|b s IH]; cbn [app Split]; [by rewrite Z.eqb_refl|]. intros Hs. cbn in Hs. apply andb_true_iff in Hs as [Hb Hs].
  apply negb_true_iff in Hb. rewrite Hb, IH by done. done.
Qed.
Lemma Split_of_Join c parts : parts <> [] -> forallb (free_of c) parts = true -> Split (Join parts [c]) c = parts.
Proof.
  induction parts as [|p [|q parts] IH]; [done| |].
  - intros _ Hf. cbn in Hf. rewrite andb_true_r in Hf. by apply Split_free.
  - intros _ Hf. cbn [forallb] in Hf. apply andb_true_iff in Hf as [Hp Hf]. change (Join (p :: q :: parts) [c]) with (p ++ c :: Join (q :: parts) [c]).
    rewrite Split_cons by done. f_equal. by apply IH.
Qed.
Lemma free_of_digits c s : is_digit c = false -> forallb is_digit s = true -> free_of c s = true.
Proof.
  intros Hc Hs. unfold free_of. rewrite forallb_forall in *. intros b Hb. specialize (Hs b Hb). apply negb_true_iff, Z.eqb_neq. intros ->. congruence.
Qed.
Lemma free_of_dec c n : is_digit c = false -> c <> 45 -> free_of c (dec n) = true.
Proof.
  intros Hc H45. unfold dec. destruct (n <? 0) eqn:E.
  - cbn [free_of forallb]. apply andb_true_iff. split; [apply negb_true_iff, Z.eqb_neq; lia|]. apply free_of_digits; [done|]. apply dec_nat_digits. lia.
  - apply free_of_digits; [done|]. apply dec_nat_digits. lia.
Qed.
Lemma Cut_key k v : free_of 61 k = true -> Cut (k ++ 61 :: v) 61 = (k, v).
Proof.
  induction k as [|b k IH]; cbn [app Cut]; [done|]. intros Hk. cbn in Hk. apply andb_true_iff in Hk as [Hb Hk]. apply negb_true_iff in Hb. by rewrite Hb, IH.
Qed.
(** One parameter of a rule *)
Lemma parse_part k set r v parts :
  free_of 61 k = true -> field_of (ToUpper (TrimSpace k)) = Some set ->
  parse_parts r ((k ++ 61 :: v) :: parts) = match set r v with Ok r => parse_parts r parts | Err e => Err e end.
Proof.
  intros Hk Hf. cbn [parse_parts]. rewrite existsb_app. cbn [existsb]. rewrite Z.eqb_refl, orb_true_r. cbn [negb]. rewrite Cut_key by done. by rewrite Hf.
Qed.

(** The days of the week, in their order *)
Definition day_tokens : list bytes := map snd weekday_bits.
Definition masks_ok : bool := forallb (fun mask => let days := bitmaskWeekdays mask in
  forallb (fun d => existsb (beq d) day_tokens) days && (weekdayBitmask days =? mask) && negb (bool_decide (days = []))) (seqZ 1 127).
Lemma masks_table : masks_ok = true.
Proof. vm_cast_no_check (eq_refl true). Qed.
Lemma mask_spec mask : 1 <= mask <= 127 ->
  Forall (fun d => In d day_tokens) (bitmaskWeekdays mask) /\ weekdayBitmask (bitmaskWeekdays mask) = mask /\ bitmaskWeekdays mask <> [].
Proof.
  intros Hm. pose proof masks_table as Ht. unfold masks_ok in Ht. rewrite forallb_forall in Ht. specialize (Ht mask). cbv zeta in Ht.
  rewrite !andb_true_iff in Ht. destruct Ht as [[H1 H2] H3]; [apply list_elem_of_In, elem_of_seqZ; lia|]. split; [|split; [lia|]].
  - rewrite forallb_forall in H1. apply List.Forall_forall. intros d Hd. specialize (H1 d Hd). apply existsb_exists in H1 as (x & Hx & Ex).
    unfold beq in Ex. apply bool_decide_eq_true in Ex. by subst.
  - apply negb_true_iff, bool_decide_eq_false in H3. done.
Qed.
Lemma mask_low mask : bitmaskWeekdays mask = bitmaskWeekdays (mask mod 128).
Proof.
  unfold bitmaskWeekdays. apply list_omap_ext, Forall2_same_length_lookup_2; [done|]. intros i x y Hx Hy. rewrite Hx in Hy. injection Hy as ->.
  assert (E : Z.land mask y.1 = Z.land (mask mod 128) y.1); [|by rewrite E].
  change 128 with (2 ^ 7). rewrite <- Z.land_ones, <- Z.land_assoc by lia. f_equal. apply list_elem_of_lookup_2, list_elem_of_In in Hx.
  unfold weekday_bits in Hx. cbn [In] in Hx. intuition (subst; done).
Qed.
Lemma token_facts d : In d day_tokens -> free_of 44 d = true /\ free_of 59 d = true /\ (forall acc p, byday_token (acc, p) d = (acc ++ [d], p)).
Proof. intros Hd. unfold day_tokens, weekday_bits in Hd. cbn [map snd In] in Hd. intuition (subst; done). Qed.
Lemma parseByDay_Join days : days <> [] -> Forall (fun d => In d day_tokens) days -> parseByDay (Join days [44]) = (days, 0).
Proof.
  intros Hne Hd. unfold parseByDay. rewrite Split_of_Join; [|done|].
  - change days with ([] ++ days) at 2. generalize (@nil bytes). induction Hd as [|d days H1 _ IH]; intros acc; cbn [foldl]; [by rewrite app_nil_r|].
    destruct (token_facts d H1) as (_ & _ & ->). destruct days as [|d' days]; [done|]. rewrite IH by done. by rewrite <- app_assoc.
  - apply forallb_forall. rewrite List.Forall_forall in Hd. intros d Hin. by apply token_facts, Hd.
Qed.
Lemma free_of_Join c days : Forall (fun d => In d day_tokens) days -> c <> 44 -> forallb (fun d => free_of c d) day_tokens = true -> free_of c (Join days [44]) = true.
Proof.
  intros Hd Hc Ht. rewrite forallb_forall in Ht. induction Hd as [|d days H1 _ IH]; [done|]. destruct days as [|d' days]; [cbn; by apply Ht|].
  change (Join (d :: d' :: days) [44]) with (d ++ 44 :: Join (d' :: days) [44]). rewrite free_of_app. cbn [free_of forallb]. rewrite Ht by done. cbn [andb].
  apply andb_true_iff. split; [apply negb_true_iff, Z.eqb_neq; lia|exact IH].
Qed.

(** The parameters of a rule's text *)
Definition param (k v : bytes) : bytes := k ++ 61 :: v.
Definition opt (c : bool) (p : bytes) : list bytes := if c then [p] else [].
Definition rest_params (r : rrule) : list bytes :=
  [param (lit "INTERVAL") (dec (rr_Interval r))]
  ++ opt (0 <? rr_Count r) (param (lit "COUNT") (dec (rr_Count r)))
  ++ opt (negb (IsZero (rr_Until r))) (param (lit "UNTIL") (format_compact (in_UTC (rr_Until r))))
  ++ opt (negb (bool_decide (rr_Weekdays r = []))) (param (lit "BYDAY") (Join (rr_Weekdays r) [44]))
  ++ opt (negb (bool_decide (rr_Weekdays r = [])) && negb (rr_SetPos r =? 0)) (param (lit "BYSETPOS") (dec (rr_SetPos r)))
  ++ opt (negb (rr_MonthDay r =? 0)) (param (lit "BYMONTHDAY") (dec (rr_MonthDay r))).
Definition params (r : rrule) : list bytes := param (lit "FREQ") (rr_Freq r) :: rest_params r.
Lemma Join_concat c p ps : Join (p :: ps) [c] = p ++ concat (map (cons c) ps).
Proof.
  revert p. induction ps as [|q ps IH]; intros p; [cbn; by rewrite app_nil_r|].
  change (Join (p :: q :: ps) [c]) with (p ++ [c] ++ Join (q :: ps) [c]). rewrite IH. done.
Qed.
Lemma rruleString_params r : rruleString r = Join (params r) [59].
Proof.
  unfold params. rewrite Join_concat. unfold rest_params. rewrite !map_app, !concat_app. unfold rruleString, opt, param.
  change (lit "FREQ=") with (lit "FREQ" ++ [61]). change (lit ";INTERVAL=") with (59 :: lit "INTERVAL" ++ [61]). change (lit ";COUNT=") with (59 :: lit "COUNT" ++ [61]).
  change (lit ";UNTIL=") with (59 :: lit "UNTIL" ++ [61]). change (lit ";BYDAY=") with (59 :: lit "BYDAY" ++ [61]).
  change (lit ";BYSETPOS=") with (59 :: lit "BYSETPOS" ++ [61]). change (lit ";BYMONTHDAY=") with (59 :: lit "BYMONTHDAY" ++ [61]).
  destruct (rr_Weekdays r) as [|d ds]; [rewrite bool_decide_eq_true_2 by done|rewrite bool_decide_eq_false_2 by done]; cbn [negb andb].
  all: destruct (0 <? rr_Count r), (negb (IsZero (rr_Until r))), (negb (rr_SetPos r =? 0)), (negb (rr_MonthDay r =? 0)); cbn [map concat app]; rewrite <- ?app_assoc, ?app_nil_r; cbn [app]; rewrite <- ?app_assoc; done.
Qed.

(** Rules a pattern can be rendered to *)
Definition until_ok (r : rrule) : Prop :=
  rr_Until r = zeroTime \/ exists m, 0 < m < 2 ^ 32 /\ m <> noEndDate /\ rr_Until r = timeFromMinutes m /\ rr_Count r = 0.
Definition days_ok (r : rrule) : Prop :=
  (rr_Weekdays r = [] /\ rr_SetPos r = 0) \/ exists mask, 1 <= mask <= 127 /\ rr_Weekdays r = bitmaskWeekdays mask /\ -1 <= rr_SetPos r <= 4.
Definition text_ok (r : rrule) : Prop :=
  In (rr_Freq r) [lit "DAILY"; lit "WEEKLY"; lit "MONTHLY"; lit "YEARLY"] /\ 1 <= rr_Interval r <= maxRRuleInterval /\ 0 <= rr_Count r < 2 ^ 32
  /\ until_ok r /\ days_ok r /\ 0 <= rr_MonthDay r < 2 ^ 32 /\ rr_Month r = 0.

Lemma two_free n : 0 <= n <= 99 -> free_of 59 (two n) = true.
Proof.
  intros Hn. unfold two, free_of. cbn [forallb]. pose proof (Z.div_lt_upper_bound n 10 10 ltac:(lia) ltac:(lia)). pose proof (Z.mod_pos_bound n 10 ltac:(lia)).
  rewrite !(proj2 (Z.eqb_neq _ _)) by lia. done.
Qed.
Lemma compact_free t : free_of 59 (format_compact t) = true.
Proof.
  destruct (Month_spec t) as (Hm & Hd & _). destruct (clock_spec t) as (_ & Hh & Hmi & Hs). pose proof (daysIn_bound (Month t) (Year t)).
  unfold format_compact, zeros. rewrite !free_of_app, !two_free, free_of_dec by (done || lia). rewrite andb_true_r.
  enough (free_of 59 (replicate (4 - length (dec (Year t))) 48) = true) as -> by done. apply free_of_digits; [done|]. generalize (4 - length (dec (Year t)))%nat. intros n. by induction n.
Qed.
Lemma days_ok_tokens r : days_ok r -> Forall (fun d => In d day_tokens) (rr_Weekdays r).
Proof. intros [[-> _]|(mask & Hm & -> & _)]; [constructor|by apply mask_spec]. Qed.
Lemma params_free r : text_ok r -> forallb (free_of 59) (params r) = true.
Proof.
  intros (Hf & _ & _ & _ & Hd & _). unfold params, rest_params, opt, param.
  assert (Hfreq : free_of 59 (rr_Freq r) = true) by (cbn [In] in Hf; intuition (subst; match goal with H : _ = rr_Freq r |- _ => rewrite <- H end; done)).
  assert (Hk : forall k v, free_of 59 k = true -> free_of 59 v = true -> free_of 59 (k ++ 61 :: v) = true)
    by (intros k v Hk Hv; rewrite free_of_app, Hk; exact Hv).
  cbn [forallb app]. rewrite !forallb_app. cbn [forallb]. rewrite !andb_true_iff.
  repeat split; try (case_match; cbn [forallb]; rewrite ?andb_true_r; [|done]); apply Hk; try done; try (by apply free_of_dec); try apply compact_free.
  apply free_of_Join; [by apply days_ok_tokens|done|done].
Qed.
Lemma parse_opt c k set r0 r1 v parts :
  free_of 61 k = true -> field_of (ToUpper (TrimSpace k)) = Some set -> (c = true -> set r0 v = Ok r1) -> (c = false -> r1 = r0) ->
  parse_parts r0 (opt c (param k v) ++ parts) = parse_parts r1 parts.
Proof. intros Hk Hf Ht Hn. destruct c; cbn [opt app]; [unfold param; erewrite parse_part by done; by rewrite Ht|by rewrite Hn]. Qed.
Lemma Atoi_setpos p : -1 <= p <= 4 -> Atoi (dec p) = Some p.
Proof. intros Hp. destruct (decide (p = -1)) as [->|]; [done|]. apply Atoi_dec. lia. Qed.
(** The text of a rule reads as the rule. *)
Lemma parse_rruleString r : text_ok r -> parseRRule (rruleString r) = Ok r.
Proof.
  intros Hok. unfold parseRRule. rewrite rruleString_params, Split_of_Join; [|done|by apply params_free].
  destruct Hok as (Hf & Hi & Hc & Hu & Hd & Hm & Hmo). unfold params, rest_params.
  set (s1 := r_freq (rr_Freq r) (mkRule [] 1 0 zeroTime [] 0 0 0)). set (s2 := r_interval (rr_Interval r) s1). set (s3 := r_count (rr_Count r) s2).
  set (s4 := r_until (rr_Until r) s3). set (s5 := r_days (rr_Weekdays r) 0 s4). set (s6 := r_setpos (rr_SetPos r) s5). set (s7 := r_monthday (rr_MonthDay r) s6).
  assert (Hmax : maxRRuleInterval = 426088) by done.
  assert (E : parse_parts (mkRule [] 1 0 zeroTime [] 0 0 0) (params r) = Ok s7).
  { unfold params. transitivity (parse_parts (mkRule [] 1 0 zeroTime [] 0 0 0) (opt true (param (lit "FREQ") (rr_Freq r)) ++ rest_params r)); [done|]. unfold rest_params.
    rewrite (parse_opt true _ setFreq _ s1); [|done|done| |done].
    2:{ intros _. unfold setFreq, s1. do 2 f_equal. cbn [In] in Hf. destruct Hf as [<-|[<-|[<-|[<-|[]]]]]; done. }
    change [param (lit "INTERVAL") ?v] with (opt true (param (lit "INTERVAL") v)).
    rewrite (parse_opt true _ setInterval _ s2); [|done|done| |done].
    2:{ intros _. unfold setInterval. rewrite Atoi_dec by lia. rewrite (proj2 (Z.ltb_ge _ _)), (proj2 (Z.ltb_lt _ _)) by lia. done. }
    rewrite (parse_opt _ _ setCount _ s3); [|done|done| |].
    2:{ intros _. unfold setCount. rewrite Atoi_dec by lia. rewrite (proj2 (Z.ltb_ge _ _)) by lia. destruct (0 <? rr_Count r) eqn:E; [done|].
        unfold s3. assert (rr_Count r = 0) as -> by lia. done. }
    2:{ intros Hn%Z.ltb_ge. unfold s3. assert (rr_Count r = 0) as -> by lia. done. }
    rewrite (parse_opt _ _ setUntil _ s4); [|done|done| |].
    2:{ intros Hz. unfold setUntil. destruct Hu as [Hu|(m & Hm1 & _ & Hu & _)]; [rewrite Hu in Hz; done|]. unfold s4. rewrite Hu, parse_until by lia. done. }
    2:{ intros Hz. unfold s4. destruct Hu as [->|(m & Hm1 & _ & Hu & _)]; [done|]. rewrite Hu, until_nonzero in Hz by lia. done. }
    rewrite (parse_opt _ _ setByDayParam _ s5); [|done|done| |].
    2:{ intros Hz. apply negb_true_iff, bool_decide_eq_false in Hz. unfold setByDayParam. rewrite parseByDay_Join; [done|done|by apply days_ok_tokens]. }
    2:{ intros Hz. apply negb_false_iff, bool_decide_eq_true in Hz. unfold s5. by rewrite Hz. }
    rewrite (parse_opt _ _ setSetPosParam _ s6); [|done|done| |].
    2:{ intros Hz. unfold setSetPosParam. destruct Hd as [[Hw _]|(mask & _ & _ & Hp)]; [by rewrite Hw in Hz|]. by rewrite Atoi_setpos. }
    2:{ intros Hz. unfold s6. assert (rr_SetPos r = 0) as ->; [|done]. destruct Hd as [[_ Hp]|(mask & Hmk & Hw & Hp)]; [done|].
        rewrite bool_decide_eq_false_2 in Hz by (rewrite Hw; by apply mask_spec). cbn [negb andb] in Hz. apply negb_false_iff in Hz. lia. }
    rewrite <- (app_nil_r (opt _ (param (lit "BYMONTHDAY") _))), (parse_opt _ _ setMonthDayParam _ s7); [done|done|done| |].
    - intros _. unfold setMonthDayParam. by rewrite Atoi_dec by lia.
    - intros Hz. apply negb_false_iff, Z.eqb_eq in Hz. unfold s7. rewrite Hz. done. }
  fold (rest_params r). fold (params r). rewrite E. assert (Er : s7 = r) by (unfold s7, s6, s5, s4, s3, s2, s1; destruct r; cbn in *; by subst).
  rewrite Er. destruct (rr_Freq r) eqn:Ef; [|done]. cbn in Hf. intuition discriminate.
Qed.

(** ** The fixed fields of a blob *)

Lemma le_at_skip n s rest off : 0 <= off - len s -> le_at n (s ++ rest) off = le_at n rest (off - len s).
Proof.
  intros Ho. unfold le_at. unfold len in *. rewrite length_app. replace (off <? 0) with false by (symmetry; apply Z.ltb_ge; lia).
  replace (off - Z.of_nat (length s) <? 0) with false by (symmetry; apply Z.ltb_ge; lia). cbn [orb].
  replace (Z.of_nat (length s + length rest) <? off + Z.of_nat n) with (Z.of_nat (length rest) <? off - Z.of_nat (length s) + Z.of_nat n)
    by (destruct (Z.ltb_spec (Z.of_nat (length rest)) (off - Z.of_nat (length s) + Z.of_nat n)), (Z.ltb_spec (Z.of_nat (length s + length rest)) (off + Z.of_nat n)); lia).
  case_match; [done|]. do 3 f_equal. rewrite drop_app_ge by lia. f_equal. lia.
Qed.
Lemma le_at_here n v rest : 0 <= v < 2 ^ (8 * Z.of_nat n) -> le_at n (le_bytes n v ++ rest) 0 = Some v.
Proof.
  intros Hv. unfold le_at. rewrite Z.ltb_irrefl. cbn [orb]. unfold len. rewrite length_app, length_le_bytes.
  replace (Z.of_nat (n + length rest) <? 0 + Z.of_nat n) with false by (symmetry; apply Z.ltb_ge; lia). change (Z.to_nat 0) with 0%nat. rewrite drop_0.
  rewrite take_app_le by (by rewrite length_le_bytes). rewrite take_ge by (by rewrite length_le_bytes). by rewrite le_value_le_bytes.
Qed.
Lemma len_le n v : len (le_bytes n v) = Z.of_nat n.
Proof. unfold len. by rewrite length_le_bytes. Qed.
Lemma len_dates l : len (dates_bytes l) = 4 + 4 * len l.
Proof.
  unfold dates_bytes. rewrite len_app, len_le. f_equal. induction l as [|d l IH]; [done|]. cbn [map concat]. rewrite len_app, len_le, IH. unfold len. cbn. lia.
Qed.
(** A pattern whose fields are in range, with only the fields of its type *)
Definition pattern_wf (p : Pattern) : bool :=
  inU 16 (RecurFrequency p) && (0 <=? PatternType p) && (PatternType p <=? 3)
  && inU 32 (FirstDateTime p) && inU 32 (Period p) && inU 32 (EndType p) && inU 32 (OccurrenceCount p) && inU 32 (FirstDOW p)
  && inU 32 (DayOfWeek p) && inU 32 (DayOfMonth p) && inU 32 (WeekOfMonth p) && inU 32 (StartDate p) && inU 32 (EndDate p)
  && ((DayOfWeek p =? 0) || (PatternType p =? PatternWeek) || (PatternType p =? PatternMonthNth))
  && ((DayOfMonth p =? 0) || (PatternType p =? PatternMonth)) && ((WeekOfMonth p =? 0) || (PatternType p =? PatternMonthNth)).
Lemma inU_range w x : inU w x = true -> 0 <= x < 2 ^ w.
Proof. unfold inU. lia. Qed.
(** The field at an offset of a blob written field by field *)
Ltac at_field := rewrite <- ?app_assoc; repeat (rewrite le_at_skip by (rewrite ?len_le, ?len_dates; lia)); rewrite ?len_le, ?len_dates;
  match goal with |- le_at ?n (le_bytes ?n ?v ++ ?r) ?o = _ => replace o with 0 by lia; apply le_at_here; cbn; lia end.
(** The fields a pattern has for its type *)
Definition specific (p : Pattern) : bytes :=
  if PatternType p =? PatternDay then le_bytes 4 0
  else if PatternType p =? PatternWeek then le_bytes 4 (DayOfWeek p)
  else if PatternType p =? PatternMonth then le_bytes 4 (DayOfMonth p)
  else if PatternType p =? PatternMonthNth then le_bytes 4 (DayOfWeek p) ++ le_bytes 4 (WeekOfMonth p)
  else le_bytes 4 0.
Definition head22 (p : Pattern) : bytes :=
  le_bytes 2 0x3004 ++ le_bytes 2 0x3004 ++ le_bytes 2 (RecurFrequency p) ++ le_bytes 2 (PatternType p) ++ le_bytes 2 0
  ++ le_bytes 4 (FirstDateTime p) ++ le_bytes 4 (Period p) ++ le_bytes 4 0.
Definition tail_block (p : Pattern) (deleted modified : list Z) : bytes :=
  le_bytes 4 (EndType p) ++ le_bytes 4 (OccurrenceCount p) ++ le_bytes 4 (FirstDOW p)
  ++ dates_bytes deleted ++ dates_bytes modified ++ le_bytes 4 (StartDate p) ++ le_bytes 4 (EndDate p).
Lemma marshal_blocks p d m : marshal p d m = head22 p ++ specific p ++ tail_block p d m.
Proof. unfold marshal, head22, tail_block, specific. by rewrite <- !app_assoc. Qed.
Lemma len_head p : len (head22 p) = 22.
Proof. unfold head22. by rewrite !len_app, !len_le. Qed.
Lemma len_specific p : len (specific p) = patternSpecificEnd (PatternType p) - 22.
Proof.
  unfold specific, patternSpecificEnd. destruct (PatternType p =? PatternMonthNth) eqn:E.
  - apply Z.eqb_eq in E. rewrite E. change (len (le_bytes 4 (DayOfWeek p) ++ le_bytes 4 (WeekOfMonth p)) = 8). by rewrite len_app, !len_le.
  - destruct (PatternType p =? PatternDay), (PatternType p =? PatternWeek), (PatternType p =? PatternMonth); by rewrite len_le.
Qed.
Lemma len_tail p d m : len (tail_block p d m) = 28 + 4 * len d + 4 * len m.
Proof. unfold tail_block. rewrite !len_app, !len_le, !len_dates. lia. Qed.
(** The ranges of a pattern's fields *)
Ltac unwf H := unfold pattern_wf in H; rewrite !andb_true_iff, !orb_true_iff in H; decompose [and] H; clear H;
  repeat match goal with E : inU _ _ = true |- _ => apply inU_range in E end.
Lemma specific_read p rest b :
  pattern_wf p = true -> 30 <= len b -> (forall o, 22 <= o -> le_at 4 b o = le_at 4 (specific p ++ rest) (o - 22)) ->
  (if PatternType p =? PatternDay then Some (Ok (0, 0, 0, 26))
   else if PatternType p =? PatternWeek then d ← le_at 4 b 22; Some (Ok (d, 0, 0, 26))
   else if PatternType p =? PatternMonth then d ← le_at 4 b 22; Some (Ok (0, d, 0, 26))
   else if PatternType p =? PatternMonthNth then
     if len b <? 30 then Some (Err ErrTruncated) else d ← le_at 4 b 22; w ← le_at 4 b 26; Some (Ok (d, 0, w, 30))
   else Some (Err ErrPatternType)) = Some (@Ok rc_error _ (DayOfWeek p, DayOfMonth p, WeekOfMonth p, patternSpecificEnd (PatternType p))).
Proof.
  intros Hwf Hlen Es. unwf Hwf. rewrite !Es by lia. assert (Ht : PatternType p = 0 \/ PatternType p = 1 \/ PatternType p = 2 \/ PatternType p = 3) by lia.
  unfold PatternDay, PatternWeek, PatternMonth, PatternMonthNth in *. unfold specific, patternSpecificEnd, PatternDay, PatternWeek, PatternMonth, PatternMonthNth.
  destruct Ht as [Ht|[Ht|[Ht|Ht]]]; rewrite Ht in *; cbn [Z.eqb Pos.eqb] in *.
  - repeat f_equal; lia.
  - rewrite Z.sub_diag, le_at_here by (cbn; lia). cbn [mbind option_bind]. repeat f_equal; lia.
  - rewrite Z.sub_diag, le_at_here by (cbn; lia). cbn [mbind option_bind]. repeat f_equal; lia.
  - rewrite (proj2 (Z.ltb_ge _ _)) by lia. rewrite <- app_assoc, Z.sub_diag, le_at_here by (cbn; lia). cbn [mbind option_bind].
    rewrite le_at_skip, len_le by (rewrite len_le; lia). rewrite le_at_here by (cbn; lia). cbn [mbind option_bind]. repeat f_equal; lia.
Qed.
Lemma unmarshal_marshal p deleted modified extra :
  pattern_wf p = true -> len deleted < 2 ^ 32 -> len modified < 2 ^ 32 ->
  UnmarshalBinary (marshal p deleted modified ++ extra) = Some (Ok p).
Proof.
  intros Hwf Hd Hm. pose proof (len_nonneg deleted). pose proof (len_nonneg modified). pose proof (len_nonneg extra).
  pose proof Hwf as Hwf0. unwf Hwf.
  set (b := marshal p deleted modified ++ extra). set (off := patternSpecificEnd (PatternType p)).
  assert (Hb : b = head22 p ++ specific p ++ tail_block p deleted modified ++ extra) by (unfold b; rewrite marshal_blocks; by rewrite <- !app_assoc).
  assert (Hoff : off = 26 \/ off = 30) by (unfold off, patternSpecificEnd; case_match; lia).
  assert (Hlen : len b = off + 28 + 4 * len deleted + 4 * len modified + len extra).
  { rewrite Hb, !len_app, len_head, len_specific, len_tail. fold off. lia. }
  assert (E1 : le_at 2 b 4 = Some (RecurFrequency p)) by (rewrite Hb; unfold head22; at_field).
  assert (E2 : le_at 2 b 6 = Some (PatternType p)) by (rewrite Hb; unfold head22; at_field).
  assert (E3 : le_at 4 b 10 = Some (FirstDateTime p)) by (rewrite Hb; unfold head22; at_field).
  assert (E4 : le_at 4 b 14 = Some (Period p)) by (rewrite Hb; unfold head22; at_field).
  assert (Et : forall o, off <= o -> le_at 4 b o = le_at 4 (tail_block p deleted modified ++ extra) (o - off)).
  { intros o Ho. rewrite Hb. rewrite le_at_skip by (rewrite len_head; lia). rewrite le_at_skip by (rewrite len_head, len_specific; fold off; lia).
    f_equal. rewrite len_head, len_specific. fold off. lia. }
  assert (Es : forall o, 22 <= o -> le_at 4 b o = le_at 4 (specific p ++ tail_block p deleted modified ++ extra) (o - 22)).
  { intros o Ho. rewrite Hb. rewrite le_at_skip by (rewrite len_head; lia). by rewrite len_head. }
  assert (F1 : le_at 4 b off = Some (EndType p)) by (rewrite Et by lia; unfold tail_block; at_field).
  assert (F2 : le_at 4 b (off + 4) = Some (OccurrenceCount p)) by (rewrite Et by lia; unfold tail_block; at_field).
  assert (F3 : le_at 4 b (off + 8) = Some (FirstDOW p)) by (rewrite Et by lia; unfold tail_block; at_field).
  assert (F4 : le_at 4 b (off + 12) = Some (len deleted)) by (rewrite Et by lia; unfold tail_block, dates_bytes at 1; at_field).
  assert (F5 : le_at 4 b (off + 16 + len deleted * 4) = Some (len modified)) by (rewrite Et by lia; unfold tail_block, dates_bytes at 2; at_field).
  assert (F6 : le_at 4 b (off + 16 + len deleted * 4 + 4 + len modified * 4) = Some (StartDate p)) by (rewrite Et by lia; unfold tail_block; at_field).
  assert (F7 : le_at 4 b (off + 16 + len deleted * 4 + 4 + len modified * 4 + 4) = Some (EndDate p)) by (rewrite Et by lia; unfold tail_block; at_field).
  pose proof (specific_read p _ b Hwf0 ltac:(lia) Es) as Hs. fold off in Hs.
  unfold UnmarshalBinary. rewrite (proj2 (Z.ltb_ge (len b) 40)) by lia. rewrite E1, E2, E3, E4. cbn [mbind option_bind]. rewrite Hs. cbn [mbind option_bind].
  rewrite (proj2 (Z.ltb_ge (len b) (off + 20))) by lia. rewrite F1, F2, F3, F4. cbn [mbind option_bind]. cbv zeta.
  rewrite (proj2 (Z.ltb_ge (len b) (off + 16 + len deleted * 4 + 4))) by lia. rewrite F5. cbn [mbind option_bind].
  rewrite (proj2 (Z.ltb_ge (len b) (off + 16 + len deleted * 4 + 4 + len modified * 4 + 8))) by lia. rewrite F6, F7. cbn [mbind option_bind]. by destruct p.
Qed.

(** ** Rules through patterns *)

Definition shape_ok (r : rrule) : Prop :=
  (rr_Freq r = lit "DAILY" /\ rr_Weekdays r = [] /\ rr_MonthDay r = 0)
  \/ (rr_Freq r = lit "WEEKLY" /\ rr_Weekdays r <> [] /\ rr_SetPos r = 0 /\ rr_MonthDay r = 0)
  \/ ((rr_Freq r = lit "MONTHLY" \/ rr_Freq r = lit "YEARLY") /\ ((rr_Weekdays r = [] /\ rr_MonthDay r <> 0) \/ (rr_Weekdays r <> [] /\ rr_MonthDay r = 0))).

Lemma u32_range x : 0 <= u32 x < 2 ^ 32.
Proof. unfold u32. apply Z.mod_pos_bound. lia. Qed.
Lemma u32_small x : 0 <= x < 2 ^ 32 -> u32 x = x.
Proof. intros. unfold u32. by apply Z.mod_small. Qed.
Lemma minutes_range t : 0 <= minutesSince1601 t < 2 ^ 32.
Proof. unfold minutesSince1601. destruct (Before t epoch1601); [lia|apply u32_range]. Qed.
Lemma mod_range x y hi : 0 < y <= hi -> 0 <= x mod y < hi.
Proof. intros. pose proof (Z.mod_pos_bound x y). lia. Qed.
Lemma intervalPeriod_is r : text_ok r -> intervalPeriod r = rr_Interval r.
Proof. intros (_ & Hi & _). unfold intervalPeriod. assert (maxRRuleInterval = 426088) by done. rewrite Z.max_l by lia. apply u32_small. lia. Qed.
(** The end of the series *)
Lemma end_range p r r' :
  text_ok r -> rr_Count r' = 0 -> rr_Until r' = zeroTime ->
  applyEndRange (setEndRange p r) r' = Some (r_until (rr_Until r) (r_count (rr_Count r) r')).
Proof.
  intros (_ & _ & Hc & Hu & _) Hc' Hu'. unfold setEndRange, applyEndRange. destruct r' as [f i c u w sp md mo]. cbn in Hc', Hu'. subst c u.
  destruct Hu as [Hu|(m & Hm & Hne & Hu & Hcz)].
  - rewrite Hu. change (IsZero zeroTime) with true. cbn [negb]. destruct (0 <? rr_Count r) eqn:E; cbn [p_end EndType OccurrenceCount].
    + change (EndAfterN =? EndAfterDate) with false. change (EndAfterN =? EndAfterN) with true. cbv iota. rewrite u32_small by lia. done.
    + assert (rr_Count r = 0) as -> by lia. done.
  - rewrite Hu, until_nonzero, Hcz by lia. cbn [negb p_end EndType EndDate]. change (EndAfterDate =? EndAfterDate) with true. cbv iota.
    rewrite minutes_of_time by lia. rewrite (proj2 (Z.eqb_neq m 0)), (proj2 (Z.eqb_neq m noEndDate)) by lia. done.
Qed.
Lemma setEndRange_fields p r :
  text_ok r -> let q := setEndRange p r in
  RecurFrequency q = RecurFrequency p /\ PatternType q = PatternType p /\ FirstDateTime q = FirstDateTime p /\ Period q = Period p /\ FirstDOW q = FirstDOW p
  /\ DayOfWeek q = DayOfWeek p /\ DayOfMonth q = DayOfMonth p /\ WeekOfMonth q = WeekOfMonth p /\ StartDate q = StartDate p
  /\ 0 <= EndType q < 2 ^ 32 /\ 0 <= OccurrenceCount q < 2 ^ 32 /\ 0 <= EndDate q < 2 ^ 32.
Proof.
  intros (_ & _ & Hc & _). unfold setEndRange, noEndDate, EndAfterDate, EndAfterN, EndNever. pose proof (minutes_range (rr_Until r)). pose proof (u32_range (rr_Count r)).
  destruct (IsZero (rr_Until r)); [destruct (0 <? rr_Count r)|]; cbn; repeat split; lia.
Qed.
Lemma setEndRange_fill f fill p r r0 : rruleFreqs f = Some fill -> fill (setEndRange p r) r0 = fill p r0.
Proof.
  unfold rruleFreqs, setEndRange. intros Hf. repeat case_match; simplify_eq; done.
Qed.
(** The rule of a pattern whose fields are those of a rule *)
Lemma toRRule_setEndRange p fill r :
  text_ok r -> rruleFreqs (RecurFrequency p) = Some fill -> fill p no_rule = r_until zeroTime (r_count 0 r) ->
  toRRule (setEndRange p r) = Some (rruleString r).
Proof.
  intros Hok Hf Hfill. destruct (setEndRange_fields p r Hok) as (E1 & _). unfold toRRule, pattern_rrule. rewrite E1, Hf. cbn [mbind option_bind].
  rewrite (setEndRange_fill _ _ _ _ _ Hf), Hfill. cbv zeta. destruct Hok as (H1 & Hi & H3). rewrite (proj2 (Z.leb_gt _ _)) by (cbn; lia).
  rewrite end_range; [|done..]. cbn [mbind option_bind]. change (IsZero zeroTime) with true. rewrite andb_false_r. by destruct r.
Qed.
Lemma wf_setEndRange p r : text_ok r -> pattern_wf p = true -> pattern_wf (setEndRange p r) = true.
Proof.
  intros Hok Hp. destruct (setEndRange_fields p r Hok) as (E1 & E2 & E3 & E4 & E5 & E6 & E7 & E8 & E9 & R1 & R2 & R3). unfold pattern_wf in *.
  rewrite E1, E2, E3, E4, E5, E6, E7, E8, E9. rewrite !andb_true_iff in *. unfold inU. repeat split; try lia; tauto.
Qed.
Lemma setpos_week k : -1 <= k <= 4 -> setPosFromWeek (weekOfMonthFromSetPos k) = k /\ 0 <= weekOfMonthFromSetPos k <= 5.
Proof. intros. assert (k = -1 \/ k = 0 \/ k = 1 \/ k = 2 \/ k = 3 \/ k = 4) by lia. intuition (subst; done). Qed.
Lemma day_pins r : text_ok r ->
  (rr_Weekdays r = [] /\ rr_SetPos r = 0)
  \/ exists mask, 1 <= mask <= 127 /\ rr_Weekdays r = bitmaskWeekdays mask /\ weekdayBitmask (rr_Weekdays r) = mask /\ rr_Weekdays r <> [] /\ -1 <= rr_SetPos r <= 4.
Proof.
  intros (_ & _ & _ & _ & [Hd|(mask & Hm & Hw & Hp)] & _); [by left|right]. exists mask. rewrite Hw. by destruct (mask_spec mask Hm) as (_ & ? & ?).
Qed.
Lemma first_month_range start period : 0 <= period < 2 ^ 32 -> 0 <= monthlyFirstDateTime start period < 2 ^ 32.
Proof. intros Hp. unfold monthlyFirstDateTime. case_match; [lia|]. apply mod_range. lia. Qed.
Lemma first_week_range start period : 0 <= weeklyFirstDateTime start period < 2 ^ 32.
Proof. unfold weeklyFirstDateTime. cbv zeta. pose proof (u32_range (period * 7 * 24 * 60)). case_match; [lia|]. apply mod_range. lia. Qed.
(** The month patterns *)
Lemma month_pattern_ok freq period p r start f :
  text_ok r -> rr_Freq r = f -> (rr_Weekdays r = [] /\ rr_MonthDay r <> 0) \/ (rr_Weekdays r <> [] /\ rr_MonthDay r = 0) ->
  0 <= freq < 2 ^ 16 -> 0 <= period < 2 ^ 32 -> 0 <= StartDate p < 2 ^ 32 -> EndType p = 0 -> OccurrenceCount p = 0 -> FirstDOW p = 0 -> EndDate p = 0 ->
  exists q, month_pattern freq period p r start = Some q /\ pattern_wf q = true /\ RecurFrequency q = freq /\ Period q = period
    /\ fillDayPins q (r_interval (rr_Interval r) (r_freq f no_rule)) = r_until zeroTime (r_count 0 r).
Proof.
  intros Hok Hf Hs Hfr Hp Hst E1 E2 E3 E4. pose proof (first_month_range start period Hp) as Hfm. destruct (day_pins r Hok) as [[Hw Hp0]|(mask & Hm & Hw & Hmask & Hne & Hpos)].
  - destruct Hs as [[_ Hmd]|[Hn _]]; [|done]. destruct Hok as (_ & _ & _ & _ & _ & Hmr & Hmo). unfold month_pattern, setDayPins. rewrite Hw. eexists. split; [done|].
    rewrite (proj2 (Z.eqb_neq _ _)) by done. rewrite u32_small by lia. split_and!; [|done|done|destruct r; cbn in *; subst; done].
    unfold pattern_wf, inU. cbn. rewrite E1, E2, E3, E4. rewrite !andb_true_iff. repeat split; lia.
  - destruct Hs as [[Hn _]|[_ Hmd]]; [done|]. destruct Hok as (_ & _ & _ & _ & _ & _ & Hmo). unfold month_pattern, setDayPins. destruct (setpos_week _ Hpos) as [Esp Hwk].
    assert (Hml : u32 (weekdayBitmask (rr_Weekdays r)) = mask) by (rewrite Hmask; apply u32_small; lia).
    eexists. split; [|split; [|split; [|split]]].
    + transitivity (Some (mkPattern freq PatternMonthNth (monthlyFirstDateTime start period) period (EndType p) (OccurrenceCount p) (FirstDOW p) mask 0
        (weekOfMonthFromSetPos (rr_SetPos r)) (StartDate p) (EndDate p))); [|reflexivity]. destruct (rr_Weekdays r) eqn:Er; [done|]. by rewrite Hml.
    + unfold pattern_wf, inU. cbn. rewrite E1, E2, E3, E4. rewrite !andb_true_iff. repeat split; lia.
    + done.
    + done.
    + unfold fillDayPins. change (PatternMonthNth =? PatternMonthNth) with true. cbn [PatternType]. change (PatternMonthNth =? PatternMonthNth) with true. cbv iota.
      cbn [DayOfWeek WeekOfMonth]. rewrite Esp, <- Hw. destruct r; cbn in *; by subst.
Qed.
Lemma daily_pattern_ok r start :
  text_ok r -> rr_Freq r = lit "DAILY" -> rr_Weekdays r = [] -> rr_MonthDay r = 0 ->
  exists q, dailyPattern (p_base (minutesSince1601 start)) r start = Some q /\ pattern_wf q = true /\ RecurFrequency q = FreqDaily
    /\ dailyRRule q no_rule = r_until zeroTime (r_count 0 r).
Proof.
  intros Hok Hf Hw Hmd. assert (Hmax : maxRRuleInterval = 426088) by done. pose proof (minutes_range start). pose proof Hok as (_ & Hi & _ & _ & _ & _ & Hmo).
  assert (Hp0 : rr_SetPos r = 0) by (destruct (day_pins r Hok) as [[_ ?]|(? & _ & _ & _ & Hn & _)]; done).
  unfold dailyPattern. rewrite intervalPeriod_is by done. cbv zeta. rewrite u32_small by lia. unfold umod. rewrite (proj2 (Z.eqb_neq _ _)) by lia. cbn [mbind option_bind].
  eexists. split; [done|]. split; [|split; [done|]].
  - pose proof (mod_range (minutesSince1601 start) (rr_Interval r * 24 * 60) (2 ^ 32) ltac:(lia)). unfold pattern_wf, inU. cbn.
    rewrite !andb_true_iff. repeat split; lia.
  - unfold dailyRRule. cbn [Period]. replace (rr_Interval r * 24 * 60) with (rr_Interval r * 1440) by lia. rewrite Z.mod_mul, Z.div_mul by lia.
    cbn [Z.eqb]. destruct r; cbn in *; by subst.
Qed.
Lemma weekly_pattern_ok r start :
  text_ok r -> rr_Freq r = lit "WEEKLY" -> rr_Weekdays r <> [] -> rr_SetPos r = 0 -> rr_MonthDay r = 0 ->
  exists q, weeklyPattern (p_base (minutesSince1601 start)) r start = Some q /\ pattern_wf q = true /\ RecurFrequency q = FreqWeekly
    /\ weeklyRRule q no_rule = r_until zeroTime (r_count 0 r).
Proof.
  intros Hok Hf Hne Hsp Hmd. assert (Hmax : maxRRuleInterval = 426088) by done. pose proof (minutes_range start). pose proof Hok as (_ & Hi & _ & _ & _ & _ & Hmo).
  destruct (day_pins r Hok) as [[? _]|(mask & Hm & Hw & Hmask & _)]; [done|].
  unfold weeklyPattern. rewrite intervalPeriod_is by done. cbv zeta. rewrite Hmask, u32_small by lia. rewrite (proj2 (Z.eqb_neq mask 0)) by lia.
  eexists. split; [done|]. split; [|split; [done|]].
  - pose proof (first_week_range start (rr_Interval r)). unfold pattern_wf, inU. cbn. rewrite !andb_true_iff. repeat split; lia.
  - unfold weeklyRRule. cbn [Period DayOfWeek]. rewrite <- Hw. destruct r; cbn in *; by subst.
Qed.
(** A rule has a pattern that is rendered back to its text. *)
Lemma rule_pattern r start :
  text_ok r -> shape_ok r ->
  exists p, patternFromRecurrence r start = Some (Ok p) /\ pattern_wf p = true /\ toRRule p = Some (rruleString r).
Proof.
  intros Hok Hs. pose proof (minutes_range start). assert (Hmax : maxRRuleInterval = 426088) by done. pose proof Hok as (_ & Hi & _).
  assert (Hmain : forall fill out q, patternFreqs (rr_Freq r) = Some fill -> fill (p_base (minutesSince1601 start)) r start = Some q ->
    rruleFreqs (RecurFrequency q) = Some out -> out q no_rule = r_until zeroTime (r_count 0 r) -> pattern_wf q = true ->
    exists p, patternFromRecurrence r start = Some (Ok p) /\ pattern_wf p = true /\ toRRule p = Some (rruleString r)).
  { intros fill out q Hf Hq Ho Hfill Hwf. exists (setEndRange q r). unfold patternFromRecurrence. rewrite Hf, Hq. cbn [mbind option_bind].
    split; [done|]. split; [by apply wf_setEndRange|by eapply toRRule_setEndRange]. }
  destruct Hs as [(Hf & Hw & Hmd)|[(Hf & Hw & Hsp & Hmd)|([Hf|Hf] & Hs)]].
  - destruct (daily_pattern_ok r start Hok Hf Hw Hmd) as (q & Hq & Hwf & E & Hfill). apply (Hmain dailyPattern dailyRRule q); rewrite ?Hf, ?E; done.
  - destruct (weekly_pattern_ok r start Hok Hf Hw Hsp Hmd) as (q & Hq & Hwf & E & Hfill). apply (Hmain weeklyPattern weeklyRRule q); rewrite ?Hf, ?E; done.
  - destruct (month_pattern_ok FreqMonthly (intervalPeriod r) (p_base (minutesSince1601 start)) r start _ Hok Hf Hs) as (q & Hq & Hwf & E & Ep & Hfill);
      rewrite ?intervalPeriod_is by done; try (done || (unfold FreqMonthly; cbn; lia)).
    apply (Hmain monthlyPattern monthlyRRule q); rewrite ?Hf, ?E; try done. unfold monthlyRRule. rewrite Ep, intervalPeriod_is by done. exact Hfill.
  - destruct (month_pattern_ok FreqYearly (u32 (intervalPeriod r * 12)) (p_base (minutesSince1601 start)) r start _ Hok Hf Hs) as (q & Hq & Hwf & E & Ep & Hfill);
      rewrite ?intervalPeriod_is by done; try (apply u32_range || done || (unfold FreqYearly; cbn; lia)).
    apply (Hmain yearlyPattern yearlyRRule q); rewrite ?Hf, ?E; try done. unfold yearlyRRule. rewrite Ep, intervalPeriod_is, u32_small, Z.div_mul by (done || lia). exact Hfill.
Qed.

(** ** Outlook's patterns *)

(** The interval a pattern stands for *)
Definition interval_of (p : Pattern) : Z :=
  if RecurFrequency p =? FreqDaily then (if Period p mod 1440 =? 0 then Period p / 1440 else 0)
  else if RecurFrequency p =? FreqYearly then Period p / 12 else Period p.
(** A pattern in range whose day pins name a day *)
Definition outlook_ok (p : Pattern) : bool :=
  pattern_wf p && (interval_of p <=? maxRRuleInterval)
  && (if RecurFrequency p =? FreqDaily then true
      else if RecurFrequency p =? FreqWeekly then negb (DayOfWeek p mod 128 =? 0)
      else if PatternType p =? PatternMonthNth then negb (DayOfWeek p mod 128 =? 0) else negb (DayOfMonth p =? 0)).

Lemma mask_days mask : mask mod 128 <> 0 ->
  exists m, 1 <= m <= 127 /\ bitmaskWeekdays mask = bitmaskWeekdays m /\ bitmaskWeekdays mask <> [].
Proof.
  intros Hm. exists (mask mod 128). pose proof (Z.mod_pos_bound mask 128 ltac:(lia)). rewrite mask_low. split; [lia|]. split; [done|]. apply mask_spec. lia.
Qed.
Lemma setPos_range w : -1 <= setPosFromWeek w <= 4.
Proof. unfold setPosFromWeek. repeat case_match; lia. Qed.
Definition base_ok (r : rrule) : Prop :=
  In (rr_Freq r) [lit "DAILY"; lit "WEEKLY"; lit "MONTHLY"; lit "YEARLY"] /\ 1 <= rr_Interval r <= maxRRuleInterval
  /\ days_ok r /\ 0 <= rr_MonthDay r < 2 ^ 32 /\ rr_Month r = 0 /\ rr_Count r = 0 /\ rr_Until r = zeroTime.
(** The end of a pattern's range keeps the rule one that reads back. *)
Lemma applyEndRange_ok p r r' :
  pattern_wf p = true -> base_ok r -> shape_ok r -> applyEndRange p r = Some r' -> text_ok r' /\ shape_ok r'.
Proof.
  intros Hwf (H1 & H2 & H3 & H4 & H5 & H6 & H7) Hs He. unwf Hwf. unfold applyEndRange in He.
  destruct r as [f i c u w sp md mo]. cbn in *. subst. repeat case_match; simplify_eq; (split; [|exact Hs]); unfold text_ok, until_ok; cbn; split_and!; try done; try lia; try by left.
  right. exists (EndDate p). unfold noEndDate in *. split_and!; try done; lia.
Qed.
Lemma interval_norm r i : rr_Interval r = i -> 0 <= i <= maxRRuleInterval -> 1 <= rr_Interval (if rr_Interval r <=? 0 then r_interval 1 r else r) <= maxRRuleInterval.
Proof. intros E Hi. assert (maxRRuleInterval = 426088) by done. destruct (rr_Interval r <=? 0) eqn:El; [cbn; lia|]. apply Z.leb_gt in El. lia. Qed.
Lemma norm_ok r :
  0 <= rr_Interval r <= maxRRuleInterval -> (forall i, 1 <= i <= maxRRuleInterval -> base_ok (r_interval i r) /\ shape_ok (r_interval i r)) ->
  let r := if rr_Interval r <=? 0 then r_interval 1 r else r in base_ok r /\ shape_ok r.
Proof.
  intros Hi Hall. pose proof (interval_norm r _ eq_refl Hi) as Hn. cbv zeta. destruct (rr_Interval r <=? 0) eqn:El; [apply Hall; exact Hn|].
  replace r with (r_interval (rr_Interval r) r) by (by destruct r). apply Hall. done.
Qed.
Lemma pins_ok p f k i :
  pattern_wf p = true -> f = lit "MONTHLY" \/ f = lit "YEARLY" -> 1 <= i <= maxRRuleInterval ->
  (if PatternType p =? PatternMonthNth then negb (DayOfWeek p mod 128 =? 0) else negb (DayOfMonth p =? 0)) = true ->
  let r := r_interval i (fillDayPins p (r_interval k (r_freq f no_rule))) in base_ok r /\ shape_ok r.
Proof.
  intros Hwf Hf Hi Hp. unwf Hwf. unfold fillDayPins. cbv zeta.
  unfold base_ok, shape_ok, days_ok. destruct (PatternType p =? PatternMonthNth); apply negb_true_iff, Z.eqb_neq in Hp;
    cbn [r_interval r_days r_freq r_monthday no_rule rr_Freq rr_Interval rr_Weekdays rr_SetPos rr_MonthDay rr_Month rr_Count rr_Until].
  - destruct (mask_days _ Hp) as (m & Hm & E & Hne). pose proof (setPos_range (WeekOfMonth p)). split; [|right; right; tauto].
    split_and!; try lia; try done; [cbn; intuition congruence|]. right. by exists m.
  - split; [|right; right; tauto]. split_and!; try lia; try done; [cbn; intuition congruence|]. by left.
Qed.
Lemma fill_ok p fill :
  outlook_ok p = true -> rruleFreqs (RecurFrequency p) = Some fill ->
  let r := fill p no_rule in let r := if rr_Interval r <=? 0 then r_interval 1 r else r in base_ok r /\ shape_ok r.
Proof.
  intros Hok Hf. unfold outlook_ok in Hok. rewrite !andb_true_iff in Hok. destruct Hok as [[Hwf Hi] Hpin]. apply Z.leb_le in Hi. pose proof Hwf as Hwf0. unwf Hwf.
  assert (0 <= interval_of p) by (unfold interval_of; repeat case_match; try lia; apply Z.div_pos; lia).
  unfold rruleFreqs in Hf. cbv zeta. apply norm_ok.
  - enough (rr_Interval (fill p no_rule) = interval_of p) as -> by lia. unfold interval_of.
    repeat case_match; simplify_eq; unfold dailyRRule, monthlyRRule, yearlyRRule, fillDayPins; repeat case_match; try done; exfalso; unfold FreqDaily, FreqWeekly, FreqMonthly, FreqYearly in *; lia.
  - intros i Hi'. destruct (RecurFrequency p =? FreqDaily); [|destruct (RecurFrequency p =? FreqWeekly); [|destruct (RecurFrequency p =? FreqMonthly); [|destruct (RecurFrequency p =? FreqYearly); [|done]]]];
      injection Hf as <-; [| |apply pins_ok; by auto|apply pins_ok; by auto].
    + unfold dailyRRule. split; [|left]; repeat case_match; unfold base_ok, days_ok; cbn; split_and!; try done; try lia; try tauto; by left.
    + apply negb_true_iff, Z.eqb_neq in Hpin. destruct (mask_days _ Hpin) as (m & Hm & E & Hne). unfold weeklyRRule. split; [|right; left; cbn; tauto].
      unfold base_ok, days_ok. cbn. split_and!; try done; try lia; [tauto|]. right. exists m. split_and!; try done; lia.
Qed.
Lemma rule_of_outlook p text : outlook_ok p = true -> toRRule p = Some text -> exists r, text = rruleString r /\ text_ok r /\ shape_ok r.
Proof.
  intros Hok Ht. unfold toRRule, pattern_rrule in Ht. destruct (rruleFreqs (RecurFrequency p)) as [fill|] eqn:Ef; [|done]. cbn [mbind option_bind] in Ht.
  destruct (fill_ok p fill Hok Ef) as [Hb Hs]. cbv zeta in *. destruct (applyEndRange p _) as [r|] eqn:Ea; [|done]. cbn [mbind option_bind] in Ht.
  change (IsZero zeroTime) with true in Ht. cbn [negb] in Ht. rewrite andb_false_r in Ht. injection Ht as <-. exists r. split; [done|].
  apply andb_true_iff in Hok as [[Hwf _]%andb_true_iff _]. by eapply applyEndRange_ok.
Qed.

(** C31. The rule of an Outlook series survives a client that reads it as an RRULE and writes it back: the
    text rendered from the pattern reads as a rule whose pattern, written and read as a blob, renders
    to the same text, for every start of the series. *)
Theorem outlook_rule_kept p text start :
  outlook_ok p = true -> toRRule p = Some text -> exists blob, FromRRule text start = Some (Ok blob) /\ ToRRule blob = Some (Some text).
Proof.
  intros Hok Ht. destruct (rule_of_outlook p text Hok Ht) as (r & -> & Htext & Hshape).
  destruct (rule_pattern r start Htext Hshape) as (q & Hq & Hwf & Hr). exists (MarshalBinary q). unfold FromRRule. rewrite parse_rruleString by done.
  rewrite Hq. cbn [mbind option_bind]. split; [done|]. unfold ToRRule. rewrite <- (app_nil_r (MarshalBinary q)). unfold MarshalBinary.
  rewrite unmarshal_marshal by done. cbn [mbind option_bind]. by rewrite Hr.
Qed.
(** A fortnightly series on Mondays and Wednesdays until a date *)
Definition fortnightly : Pattern := mkPattern FreqWeekly PatternWeek 0 2 EndAfterDate 0xA 0 10 0 0 222600000 223200000.
Lemma outlook_rule_kept_witness : exists blob,
  FromRRule (lit "FREQ=WEEKLY;INTERVAL=2;UNTIL=20250518T000000Z;BYDAY=MO,WE") someday = Some (Ok blob)
  /\ ToRRule blob = Some (Some (lit "FREQ=WEEKLY;INTERVAL=2;UNTIL=20250518T000000Z;BYDAY=MO,WE")).
Proof. apply (outlook_rule_kept fortnightly); vm_compute; reflexivity. Defined.

(** * Recurrence patterns: the appointment's blob

    What the encoder writes the decoder reads: the pattern, the deleted and modified dates and every
    exception of the series. No blob makes the decoder fail otherwise than with an error. *)
#[local] Notation "x <~ m ; k" := (rd_bind m (fun x => k)) (at level 20, m at level 100, k at level 200, right associativity).

(** ** Reading what was written *)

(** The reader [m] consumes exactly [s], wherever it stands, and gives [a]. *)
Definition reads {A} (m : rd A) (s : bytes) (a : A) : Prop :=
  forall pre rest, m (mkReader (pre ++ s ++ rest) (len pre) false) = (a, mkReader (pre ++ s ++ rest) (len pre + len s) false).
Lemma reads_ret {A} (a : A) : reads (rd_ret a) [] a.
Proof. intros pre rest. unfold rd_ret. do 2 f_equal. unfold len. cbn. lia. Qed.
Lemma reads_bind {A B} (m : rd A) (k : A -> rd B) s t a b : reads m s a -> reads (k a) t b -> reads (rd_bind m k) (s ++ t) b.
Proof.
  intros Hm Hk pre rest. unfold rd_bind. specialize (Hm pre (t ++ rest)). rewrite app_assoc in Hm. rewrite <- (app_assoc pre), (app_assoc s) in Hm. rewrite Hm.
  specialize (Hk (pre ++ s) rest). rewrite len_app in Hk. rewrite <- !app_assoc in *. rewrite Hk. do 2 f_equal. rewrite len_app. lia.
Qed.
Lemma reads_last {A B} (m : rd A) (k : A -> B) s a : reads m s a -> reads (x <~ m; rd_ret (k x)) s (k a).
Proof. intros Hm. rewrite <- (app_nil_r s). eapply reads_bind; [done|apply reads_ret]. Qed.
Lemma reads_take s n : n = len s -> reads (rd_take n) s (Some s).
Proof.
  intros -> pre rest. unfold rd_take, rd_left. cbn [rd_b rd_off rd_err]. rewrite !len_app. pose proof (len_nonneg s). pose proof (len_nonneg rest). pose proof (len_nonneg pre).
  assert (E1 : (len pre + (len s + len rest) <? len pre) = false) by (apply Z.ltb_ge; lia).
  assert (E2 : (len s <? 0) = false) by (apply Z.ltb_ge; lia).
  assert (E3 : (len pre + (len s + len rest) - len pre <? len s) = false) by (apply Z.ltb_ge; lia).
  rewrite E1, E2. cbn [orb]. rewrite E3. unfold len. rewrite !Nat2Z.id. do 2 f_equal.
  rewrite drop_app_ge by lia. rewrite Nat.sub_diag. rewrite drop_0, take_app_le by lia. by rewrite take_ge by lia.
Qed.
Lemma reads_skip s n : n = len s -> reads (rd_skip n) s tt.
Proof. intros Hn. apply (reads_last _ (fun _ => tt) s (Some s)). by apply reads_take. Qed.
Lemma reads_bytes s n : n = len s -> reads (rd_bytes n) s s.
Proof. intros Hn. apply (reads_last _ (default []) s (Some s)). by apply reads_take. Qed.
Lemma reads_u16 v : 0 <= v < 2 ^ 16 -> reads rd_u16 (le_bytes 2 v) v.
Proof.
  intros Hv. assert (E : le_value (le_bytes 2 v) = v) by (apply le_value_le_bytes; done).
  intros pre rest. pose proof (reads_last (rd_take 2) (fun b => match b with Some b => le_value b | None => 0 end) (le_bytes 2 v) _ ltac:(by apply reads_take; rewrite len_le) pre rest) as H.
  cbv beta iota in H. rewrite E in H. exact H.
Qed.
Lemma reads_u32 v : 0 <= v < 2 ^ 32 -> reads rd_u32 (le_bytes 4 v) v.
Proof.
  intros Hv. assert (E : le_value (le_bytes 4 v) = v) by (apply le_value_le_bytes; done).
  intros pre rest. pose proof (reads_last (rd_take 4) (fun b => match b with Some b => le_value b | None => 0 end) (le_bytes 4 v) _ ltac:(by apply reads_take; rewrite len_le) pre rest) as H.
  cbv beta iota in H. rewrite E in H. exact H.
Qed.
(** A field that is there when its flag is *)
Lemma reads_if {A} (c : bool) (m : rd A) s a d : reads m s a -> reads (rd_if c d m) (when c s) (if c then a else d).
Proof. intros Hm. destruct c; [exact Hm|apply reads_ret]. Qed.
Lemma reads_each {A B} (f : A -> rd B) (enc : A -> bytes) (g : A -> B) l :
  Forall (fun a => reads (f a) (enc a) (g a)) l -> reads (rd_each f l) (concat (map enc l)) (map g l).
Proof.
  induction 1 as [|a l Ha _ IH]; [apply reads_ret|]. cbn [rd_each map concat]. eapply reads_bind; [exact Ha|]. by apply (reads_last _ (cons (g a))).
Qed.
Lemma reads_times {A B} (m : rd B) (enc : A -> bytes) (g : A -> B) l :
  Forall (fun a => reads m (enc a) (g a)) l -> reads (rd_times (length l) m) (concat (map enc l)) (map g l).
Proof.
  induction 1 as [|a l Ha _ IH]; [apply reads_ret|]. cbn [rd_times length map concat]. eapply reads_bind; [exact Ha|]. by apply (reads_last _ (cons (g a))).
Qed.
Lemma len_concat_dates l : len (concat (map (le_bytes 4) l)) = 4 * len l.
Proof. induction l as [|d l IH]; [done|]. cbn [map concat]. rewrite len_app, len_le, IH. unfold len. cbn [length]. lia. Qed.
Lemma reads_dates l : Forall (fun d => 0 <= d < 2 ^ 32) l -> len l < 2 ^ 32 -> reads rd_dates (dates_bytes l) l.
Proof.
  intros Hl Hn pre rest. pose proof (len_nonneg l). unfold rd_dates, dates_bytes.
  pose proof (reads_u32 (len l) ltac:(lia) pre (concat (map (le_bytes 4) l) ++ rest)) as Hu. rewrite <- !app_assoc. rewrite Hu. cbn [rd_err orb].
  pose proof (len_concat_dates l) as Hlen.
  destruct (len l =? 0) eqn:El.
  - destruct l; [|apply Z.eqb_eq in El; unfold len in El; cbn [length] in El; lia]. cbn [map concat app]. done.
  - unfold rd_left. cbn [rd_err rd_b rd_off orb]. rewrite !len_app, len_le, Hlen. pose proof (len_nonneg rest).
    rewrite (proj2 (Z.ltb_ge (len pre + _) _)) by lia. rewrite (proj2 (Z.ltb_ge _ (len l))) by (apply Z.div_le_lower_bound; lia).
    pose proof (reads_times rd_u32 (le_bytes 4) id l) as Ht. rewrite map_id in Ht. unfold len at 1. rewrite Nat2Z.id.
    specialize (Ht ltac:(eapply Forall_impl; [|exact Hl]; intros d Hd; by apply reads_u32) (pre ++ le_bytes 4 (len l)) rest).
    rewrite <- !app_assoc in Ht. rewrite len_app, len_le in Ht. rewrite Ht. do 2 f_equal. rewrite Hlen. lia.
Qed.

(** ** Texts *)

Lemma utf16_units_range r : is_scalar r = true -> Forall (fun u => 0 <= u < 2 ^ 16) (utf16_units r) /\ (1 <= length (utf16_units r))%nat.
Proof.
  intros Hr. unfold is_scalar in Hr. unfold utf16_units. destruct ((0 <=? r) && (r <? 0xD800) || (0xE000 <=? r) && (r <? 0x10000)) eqn:E1.
  - split; [|done]. repeat constructor; lia.
  - assert (E2 : (0x10000 <=? r) && (r <=? 0x10FFFF) = true) by lia. rewrite E2. split; [|cbn; lia].
    pose proof (Z.div_mod (r - 0x10000) 1024 ltac:(lia)). pose proof (Z.mod_pos_bound (r - 0x10000) 1024 ltac:(lia)).
    repeat constructor; lia.
Qed.
Lemma encoded_units rs :
  Forall (fun r => is_scalar r = true) rs -> Forall (fun u => 0 <= u < 2 ^ 16) (utf16_Encode rs) /\ len rs <= len (utf16_Encode rs).
Proof.
  induction 1 as [|r rs Hr _ [IH1 IH2]]; [done|]. destruct (utf16_units_range r Hr) as [Hu Hl]. unfold utf16_Encode in *. cbn [map concat].
  split; [by apply Forall_app|]. rewrite len_app. unfold len in *. cbn [length]. lia.
Qed.
Lemma units_of_bytes us : Forall (fun u => 0 <= u < 2 ^ 16) us -> units_of (length us) (concat (map (le_bytes 2) us)) = us.
Proof.
  induction 1 as [|u us Hu _ IH]; [done|]. cbn [length map concat units_of]. pose proof (length_le_bytes 2 u) as L.
  rewrite take_app_le, drop_app_ge, L, Nat.sub_diag, drop_0, take_ge by lia. rewrite IH. f_equal. by apply le_value_le_bytes.
Qed.
Lemma len_units us : len (concat (map (le_bytes 2) us)) = 2 * len us.
Proof. induction us as [|d l IH]; [done|]. cbn [map concat]. rewrite len_app, len_le, IH. unfold len. cbn [length]. lia. Qed.
Lemma u16_small x : 0 <= x < 2 ^ 16 -> u16 x = x.
Proof. intros. unfold u16. by apply Z.mod_small. Qed.

(** A text an exception can carry *)
Definition text_fits (s : bytes) : bool := bytes_ok s && valid_utf8 s && (len (utf16_Encode (runes s)) <? 2 ^ 16).
Lemma reads_text16 s : text_fits s = true -> reads (n <~ rd_u16; rd_utf16 n) (text16 s) s.
Proof.
  intros Hs. apply andb_true_iff in Hs as [[Hb Hv]%andb_true_iff Hl%Z.ltb_lt]. set (us := utf16_Encode (runes s)) in *. pose proof (len_nonneg us).
  unfold text16. fold us. rewrite u16_small by lia. eapply reads_bind; [apply reads_u16; lia|]. unfold rd_utf16.
  pose proof (encoded_units (runes s) (runes_scalar s Hb)) as [Hr _]. fold us in Hr.
  pose proof (reads_last (rd_take (2 * len us)) (fun b => match b with None => [] | Some b => string_of_runes (utf16_Decode (units_of (Z.to_nat (len us)) b)) end)
    _ (Some (concat (map (le_bytes 2) us))) ltac:(apply reads_take; by rewrite len_units)) as Hx. cbv beta iota in Hx.
  assert (E : string_of_runes (utf16_Decode (units_of (Z.to_nat (len us)) (concat (map (le_bytes 2) us)))) = s).
  { unfold len. rewrite Nat2Z.id, units_of_bytes by done. unfold us. by apply utf16_round_trip. }
  rewrite E in Hx. exact Hx.
Qed.
(** The 8-bit copy of a text *)
Definition text8_of (s : bytes) : bytes := latin1 (map (fun r => if 0xFF <? r then 63 else r) (runes s)).
Lemma reads_text8 s : text_fits s = true -> reads rd_text8 (text8 s) (text8_of s).
Proof.
  intros Hs. apply andb_true_iff in Hs as [[Hb Hv]%andb_true_iff Hl%Z.ltb_lt]. pose proof (encoded_units (runes s) (runes_scalar s Hb)) as [_ Hr].
  unfold text8, text8_of, rd_text8. set (b := map _ (runes s)). assert (Hlb : len b = len (runes s)) by (unfold len, b; by rewrite length_map).
  pose proof (len_nonneg b). rewrite (u16_small (len b)) by lia. eapply reads_bind; [by apply reads_skip; rewrite len_le|].
  eapply reads_bind; [apply reads_u16; lia|]. apply (reads_last _ latin1 b b). by apply reads_bytes.
Qed.
Lemma reads_i32 v : inS 32 v = true -> reads (x <~ rd_u32; rd_ret (i32 x)) (le_bytes 4 (u32 v)) v.
Proof.
  intros Hv. pose proof (reads_last rd_u32 i32 _ _ (reads_u32 (u32 v) (u32_range v))) as H. assert (E : i32 (u32 v) = v).
  { transitivity (i32 v); [|by apply i32_id]. unfold i32, u32. by rewrite Zmod_mod. }
  rewrite E in H. exact H.
Qed.
Lemma reads_bool32 b : reads (x <~ rd_u32; rd_ret (negb (x =? 0))) (bool32 b) b.
Proof. unfold bool32. pose proof (reads_last rd_u32 (fun x => negb (x =? 0)) _ _ (reads_u32 (if b then 1 else 0) ltac:(by destruct b))) as H. by destruct b. Qed.

(** ** Exceptions *)

Definition exception_ok (e : Exception) : bool :=
  inU 32 (ex_Start e) && inU 32 (ex_End e) && inU 32 (ex_OriginalStart e) && inU 16 (ex_Flags e) && inS 32 (ex_BusyStatus e) && inS 32 (ex_ReminderDelta e)
  && text_fits (ex_Subject e) && text_fits (ex_Location e).
Definition flagged {A} (e : Exception) (f : Z) (a d : A) : A := if has_flag (ex_Flags e) f then a else d.
(** An exception with the given texts, and nothing in the fields whose flag is not set *)
Definition exception_with (e : Exception) (text : bytes -> bytes) : Exception :=
  mkException (ex_Start e) (ex_End e) (ex_OriginalStart e) (ex_Flags e)
    (flagged e OverrideSubject (text (ex_Subject e)) []) (flagged e OverrideLocation (text (ex_Location e)) [])
    (flagged e OverrideBusyStatus (ex_BusyStatus e) 0) (flagged e OverrideReminderDelta (ex_ReminderDelta e) 0)
    (flagged e OverrideReminder (ex_ReminderSet e) false) (flagged e OverrideSubType (ex_AllDay e) false).
(** The exception that is read back *)
Definition overridden (e : Exception) : Exception := exception_with e id.
Lemma reads_exceptionInfo e : exception_ok e = true -> reads readExceptionInfo (exceptionInfo e) (exception_with e text8_of).
Proof.
  unfold exception_ok. rewrite !andb_true_iff. intros (((((((H1 & H2) & H3) & H4) & H5) & H6) & H7) & H8).
  apply inU_range in H1, H2, H3, H4. unfold readExceptionInfo, exceptionInfo.
  eapply reads_bind; [by apply reads_u32|]. eapply reads_bind; [by apply reads_u32|]. eapply reads_bind; [by apply reads_u32|]. eapply reads_bind; [by apply reads_u16|].
  eapply reads_bind; [by apply reads_if, reads_text8|]. eapply reads_bind; [by apply (reads_if _ _ _ tt), reads_skip; rewrite len_le|].
  eapply reads_bind; [by apply reads_if, reads_i32|]. eapply reads_bind; [by apply reads_if, reads_bool32|]. eapply reads_bind; [by apply reads_if, reads_text8|].
  apply (reads_last _ (fun t => mkException (ex_Start e) (ex_End e) (ex_OriginalStart e) (ex_Flags e) (flagged e OverrideSubject (text8_of (ex_Subject e)) [])
    (flagged e OverrideLocation (text8_of (ex_Location e)) []) t.1 (flagged e OverrideReminderDelta (ex_ReminderDelta e) 0)
    (flagged e OverrideReminder (ex_ReminderSet e) false) t.2) _ (flagged e OverrideBusyStatus (ex_BusyStatus e) 0, flagged e OverrideSubType (ex_AllDay e) false)).
  unfold readExceptionTail. eapply reads_bind; [by apply reads_if, reads_i32|]. eapply reads_bind; [by apply (reads_if _ _ _ tt), reads_skip; rewrite len_le|].
  eapply reads_bind; [by apply reads_if, reads_bool32|].
  apply (reads_last _ (fun _ => (flagged e OverrideBusyStatus (ex_BusyStatus e) 0, flagged e OverrideSubType (ex_AllDay e) false)) _ (if has_flag (ex_Flags e) OverrideColor then tt else tt)).
  apply (reads_if _ _ _ tt), reads_skip. by rewrite len_le.
Qed.
Lemma reads_sized n s : len s = n -> 0 <= n < 2 ^ 32 -> reads (k <~ rd_u32; rd_skip k) (le_bytes 4 n ++ s) tt.
Proof. intros Hn Hr. eapply reads_bind; [by apply reads_u32|]. by apply reads_skip. Qed.
Lemma reads_extendedException e :
  exception_ok e = true -> reads (readExtendedException changeHighlightVersion (exception_with e text8_of)) (extendedException e) (overridden e).
Proof.
  unfold exception_ok. rewrite !andb_true_iff. intros (((((((H1 & H2) & H3) & H4) & H5) & H6) & H7) & H8).
  unfold readExtendedException, extendedException. rewrite app_assoc. change (changeHighlightVersion <=? changeHighlightVersion) with true.
  eapply reads_bind; [by apply (reads_sized 4); rewrite ?len_le|]. rewrite <- (app_nil_r (le_bytes 4 0)) at 1.
  eapply reads_bind; [by apply reads_sized|]. cbn [ex_Flags exception_with]. destruct (has_flag (ex_Flags e) (Z.lor OverrideSubject OverrideLocation)) eqn:Ef; cbn [negb when].
  - rewrite app_assoc, app_assoc. eapply reads_bind; [by apply reads_skip; rewrite !len_app, !len_le|].
    eapply reads_bind; [by apply reads_if, reads_text16|]. eapply reads_bind; [by apply reads_if, reads_text16|].
    assert (E : ex_texts (exception_with e text8_of) (if has_flag (ex_Flags e) OverrideSubject then ex_Subject e else ex_Subject (exception_with e text8_of))
      (if has_flag (ex_Flags e) OverrideLocation then ex_Location e else ex_Location (exception_with e text8_of)) = overridden e).
    { unfold overridden, exception_with, ex_texts, flagged, id. cbn. f_equal; by case_match. }
    rewrite E. apply (reads_last _ (fun _ => overridden e) _ tt). rewrite <- (app_nil_r (le_bytes 4 0)). by apply reads_sized.
  - assert (Hs : has_flag (ex_Flags e) OverrideSubject = false /\ has_flag (ex_Flags e) OverrideLocation = false).
    { unfold has_flag in *. apply negb_false_iff, Z.eqb_eq in Ef. split; apply negb_false_iff, Z.eqb_eq.
      - replace OverrideSubject with (Z.land (Z.lor OverrideSubject OverrideLocation) OverrideSubject) by done. by rewrite Z.land_assoc, Ef.
      - replace OverrideLocation with (Z.land (Z.lor OverrideSubject OverrideLocation) OverrideLocation) by done. by rewrite Z.land_assoc, Ef. }
    destruct Hs as [Hs1 Hs2]. unfold overridden, exception_with, flagged. rewrite Hs1, Hs2. apply reads_ret.
Qed.
Lemma rd_each_map {A B C} (f : B -> rd C) (h : A -> B) l : rd_each f (map h l) = rd_each (fun a => f (h a)) l.
Proof. induction l as [|a l IH]; [done|]. cbn [map rd_each]. by rewrite IH. Qed.
Lemma len_exceptionInfo e : 14 <= len (exceptionInfo e).
Proof.
  unfold exceptionInfo. rewrite !len_app, !len_le. repeat match goal with |- context [len (when ?c ?b)] => pose proof (len_nonneg (when c b)); generalize dependent (len (when c b)); intros end. lia.
Qed.
Definition exceptions_bytes (ex : list Exception) : bytes := concat (map exceptionInfo ex) ++ le_bytes 4 0 ++ concat (map extendedException ex).
Lemma decode_exceptions ex pre rest :
  forallb exception_ok ex = true ->
  (decodeExceptions (len ex) changeHighlightVersion (mkReader (pre ++ exceptions_bytes ex ++ rest) (len pre) false)).1 = Ok (map overridden ex).
Proof.
  intros Hex. rewrite forallb_forall in Hex. unfold decodeExceptions.
  assert (Hlen : 14 * len ex <= len (concat (map exceptionInfo ex))).
  { clear. induction ex as [|e ex IH]; [done|]. cbn [map concat]. rewrite len_app. pose proof (len_exceptionInfo e). unfold len in *. cbn [length]. lia. }
  unfold rd_left. cbn [rd_err rd_b rd_off orb]. assert (Hl : len ex * 14 <= len (pre ++ exceptions_bytes ex ++ rest) - len pre).
  { unfold exceptions_bytes. rewrite !len_app. pose proof (len_nonneg rest). pose proof (len_nonneg (le_bytes 4 0)). pose proof (len_nonneg (concat (map extendedException ex))). lia. }
  rewrite (proj2 (Z.ltb_ge (len (pre ++ _)) _)) by (pose proof (len_nonneg ex); lia). rewrite (proj2 (Z.ltb_ge _ (len ex * 14))) by lia.
  assert (Hr : reads (ex0 <~ rd_times (length ex) readExceptionInfo; _ <~ (n <~ rd_u32; rd_skip n); rd_each (readExtendedException changeHighlightVersion) ex0)
    (exceptions_bytes ex) (map overridden ex)).
  { unfold exceptions_bytes. eapply reads_bind.
    - apply (reads_times _ exceptionInfo (fun e => exception_with e text8_of)). apply List.Forall_forall. intros e He. by apply reads_exceptionInfo, Hex.
    - rewrite <- (app_nil_r (le_bytes 4 0)). eapply reads_bind; [by apply reads_sized|]. rewrite rd_each_map.
      apply (reads_each _ extendedException overridden). apply List.Forall_forall. intros e He. by apply reads_extendedException, Hex. }
  unfold len at 1. rewrite Nat2Z.id, Hr. done.
Qed.

(** ** The blob *)

Lemma Compact_Forall (P : Z -> Prop) l : Forall P l -> Forall P (Compact l).
Proof.
  induction 1 as [|x l Hx Hl IH]; [constructor|]. destruct l as [|y l]; [by constructor|].
  change (Forall P (if x =? y then Compact (y :: l) else x :: Compact (y :: l))). destruct (x =? y); [exact IH|by constructor].
Qed.
Lemma sortedDates_range l : forallb (inU 32) l = true -> Forall (fun d => 0 <= d < 2 ^ 32) (sortedDates l).
Proof.
  intros Hl. apply Compact_Forall. unfold Sort. rewrite SliceStable_perm. apply List.Forall_forall. intros d Hd. rewrite forallb_forall in Hl. by apply inU_range, Hl.
Qed.
(** Dates as they are to be written: in ascending order, each once *)
Definition ascending (dates written : list Z) : Prop := StronglySorted Z.lt written /\ forall d, d ∈ written <-> d ∈ dates.
Lemma Compact_elem d l : d ∈ Compact l <-> d ∈ l.
Proof.
  induction l as [|x [|y l] IH]; [done|done|]. change (Compact (x :: y :: l)) with (if x =? y then Compact (y :: l) else x :: Compact (y :: l)).
  destruct (Z.eqb_spec x y) as [->|_]; rewrite ?elem_of_cons, IH, !elem_of_cons; tauto.
Qed.
Lemma Compact_sorted l : StronglySorted Z.le l -> StronglySorted Z.lt (Compact l).
Proof.
  induction 1 as [|x l Hs IH Hx]; [constructor|]. destruct l as [|y l]; [by repeat constructor|].
  change (Compact (x :: y :: l)) with (if x =? y then Compact (y :: l) else x :: Compact (y :: l)). destruct (Z.eqb_spec x y) as [->|Hn]; [done|].
  constructor; [done|]. apply list.Forall_forall. intros d [->|Hd]%Compact_elem%elem_of_cons; rewrite list.Forall_forall in Hx.
  - specialize (Hx y (list_elem_of_here _ _)). lia.
  - assert (y <= d) by (inversion Hs as [|? ? _ Hy]; subst; rewrite list.Forall_forall in Hy; by apply Hy). specialize (Hx y (list_elem_of_here _ _)). lia.
Qed.
(** Sorting by a number *)
Lemma SliceStable_key {A} (key : A -> Z) l : StronglySorted (fun a b => key a <= key b) (SliceStable (fun a b => key a <? key b) l).
Proof.
  assert (Hs : StronglySorted (fun a b => (key b <? key a) = false) (SliceStable (fun a b => key a <? key b) l))
    by (apply (SliceStable_sorted _ (fun _ => True)); [lia|lia|by apply Forall_true]).
  induction Hs as [|x m _ IH Hx]; constructor; [done|]. refine (List.Forall_impl _ _ Hx). cbn. lia.
Qed.
Lemma sortedDates_ascending l : ascending l (sortedDates l).
Proof.
  split; [|intros d; unfold sortedDates, Sort; by rewrite Compact_elem, SliceStable_perm]. apply Compact_sorted. exact (SliceStable_key id l).
Qed.
Lemma ascending_NoDup dates written : ascending dates written -> NoDup written.
Proof. intros [Hs _]. induction Hs as [|x l _ IH Hx]; constructor; [|done]. intros Hin. rewrite list.Forall_forall in Hx. specialize (Hx x Hin). lia. Qed.
Lemma ascending_perm dates written : ascending dates written -> NoDup dates -> written ≡ₚ dates.
Proof. intros Ha Hn. apply NoDup_Permutation; [by eapply ascending_NoDup|done|apply Ha]. Qed.
Lemma ascending_len dates written : ascending dates written -> len written <= len dates.
Proof. intros Ha. unfold len. apply Nat2Z.inj_le, submseteq_length, NoDup_submseteq; [by eapply ascending_NoDup|]. intros d. apply Ha. Qed.
Definition by_start (ex : list Exception) : list Exception := SliceStable (fun a b => ex_Start a <? ex_Start b) ex.
(** Exceptions as they are to be written: in the order of the dates they moved to, those that start together as they came *)
Definition by_moved (ex written : list Exception) : Prop :=
  written ≡ₚ ex /\ StronglySorted (fun a b => ex_Start a <= ex_Start b) written
  /\ forall t, List.filter (fun e => ex_Start e =? t) written = List.filter (fun e => ex_Start e =? t) ex.
Lemma by_start_moved ex : by_moved ex (by_start ex).
Proof.
  split; [apply SliceStable_perm|]. split; [apply SliceStable_key|]. intros t. apply SliceStable_stable. lia.
Qed.
(** An appointment whose fields are of their widths *)
Definition appointment_ok (p : AppointmentPattern) : bool :=
  pattern_wf (ap_Pattern p) && forallb (inU 32) (DeletedDates p) && forallb (inU 32) (ModifiedDates p) && (len (DeletedDates p) <? 2 ^ 32)
  && inU 32 (StartTimeOffset p) && inU 32 (EndTimeOffset p) && forallb exception_ok (Exceptions p)
  && (len (Exceptions p) <? 2 ^ 16).
Definition tail_start (p : Pattern) : bytes := le_bytes 4 (EndType p) ++ le_bytes 4 (OccurrenceCount p) ++ le_bytes 4 (FirstDOW p).
Lemma decode_pattern p d m rest :
  pattern_wf p = true -> Forall (fun x => 0 <= x < 2 ^ 32) d -> Forall (fun x => 0 <= x < 2 ^ 32) m -> len d < 2 ^ 32 -> len m < 2 ^ 32 ->
  decodePattern (marshal p d m ++ rest)
  = Some (Ok (mkAppointment p d m false 0 0 [], mkReader (marshal p d m ++ rest) (len (marshal p d m)) false)).
Proof.
  intros Hwf Hd Hm Ld Lm. unfold decodePattern. rewrite unmarshal_marshal by done. cbn [mbind option_bind].
  set (pre := head22 p ++ specific p ++ tail_start p). set (mid := dates_bytes d ++ dates_bytes m ++ le_bytes 4 (StartDate p) ++ le_bytes 4 (EndDate p)).
  assert (Eb : marshal p d m ++ rest = pre ++ mid ++ rest) by (rewrite marshal_blocks; unfold tail_block, pre, mid, tail_start; by rewrite <- !app_assoc).
  assert (Eo : patternSpecificEnd (PatternType p) + 12 = len pre) by (unfold pre, tail_start; rewrite !len_app, len_head, len_specific, !len_le; lia).
  assert (El : len (marshal p d m) = len pre + len mid) by (rewrite <- len_app; f_equal; apply (app_inv_tail rest); rewrite <- app_assoc; exact Eb).
  rewrite Eb, Eo, El.
  assert (Hr : reads (d <~ rd_dates; m <~ rd_dates; _ <~ rd_skip 8; rd_ret (mkAppointment p d m false 0 0 [])) mid (mkAppointment p d m false 0 0 [])).
  { unfold mid. eapply reads_bind; [by apply reads_dates|]. eapply reads_bind; [by apply reads_dates|].
    apply (reads_last (rd_skip 8) (fun _ => mkAppointment p d m false 0 0 []) _ tt). apply reads_skip. by rewrite len_app, !len_le. }
  by rewrite Hr.
Qed.
Lemma decode_times p d m start end_ ex pre rest :
  0 <= start < 2 ^ 32 -> 0 <= end_ < 2 ^ 32 -> forallb exception_ok ex = true -> len ex < 2 ^ 16 -> len ex = len m ->
  decodeTimes (mkReader (pre ++ (le_bytes 4 appointmentReaderVersion ++ le_bytes 4 changeHighlightVersion ++ le_bytes 4 start ++ le_bytes 4 end_ ++ le_bytes 2 (len ex))
    ++ exceptions_bytes ex ++ rest) (len pre) false) (mkAppointment p d m false 0 0 [])
  = Ok (mkAppointment p d m true start end_ (map overridden ex)).
Proof.
  intros Hs He Hex Hl Hm. pose proof (len_nonneg ex). unfold decodeTimes. set (hd := le_bytes 4 appointmentReaderVersion ++ _).
  assert (Hr : reads (_ <~ rd_skip 4; w <~ rd_u32; s <~ rd_u32; e <~ rd_u32; c <~ rd_u16; rd_ret (w, s, e, c)) hd (changeHighlightVersion, start, end_, len ex)).
  { unfold hd. eapply reads_bind; [by apply reads_skip; rewrite len_le|]. eapply reads_bind; [by apply reads_u32|]. eapply reads_bind; [by apply reads_u32|].
    eapply reads_bind; [by apply reads_u32|]. apply (reads_last rd_u16 (fun c => (changeHighlightVersion, start, end_, c))). apply reads_u16. lia. }
  rewrite Hr. cbn [rd_err ModifiedDates ap_Pattern DeletedDates]. rewrite <- Hm, Z.eqb_refl. cbn [negb].
  pose proof (decode_exceptions ex (pre ++ hd) rest Hex) as Hd. rewrite <- !app_assoc in Hd. rewrite len_app in Hd. by rewrite Hd.
Qed.

(** C30. What is written of a series with one exception for each of its modified dates, no two of which are
    the same, is read back: the pattern, the deleted and the modified dates in ascending order, the
    times of day and, in the order of the dates they moved to, for every exception what its flags say
    it overrides, with its texts in full. *)
Theorem appointment_round_trip p :
  appointment_ok p = true -> NoDup (ModifiedDates p) -> length (Exceptions p) = length (ModifiedDates p) ->
  exists deleted modified ex,
    DecodeAppointment (EncodeAppointment p)
    = Some (Ok (mkAppointment (ap_Pattern p) deleted modified true (StartTimeOffset p) (EndTimeOffset p) (map overridden ex)))
    /\ ascending (DeletedDates p) deleted /\ ascending (ModifiedDates p) modified /\ by_moved (Exceptions p) ex.
Proof.
  intros Hok Hnd Hlen. exists (sortedDates (DeletedDates p)), (sortedDates (ModifiedDates p)), (by_start (Exceptions p)).
  split; [|split; [apply sortedDates_ascending|split; [apply sortedDates_ascending|apply by_start_moved]]].
  assert (El : len (Exceptions p) = len (sortedDates (ModifiedDates p))) by (unfold len; by rewrite (ascending_perm _ _ (sortedDates_ascending _) Hnd), Hlen).
  unfold appointment_ok in Hok. rewrite !andb_true_iff in Hok. destruct Hok as (((((((Hwf & Hd) & Hm) & Ld) & Hs) & He) & Hex) & Lx).
  apply Z.ltb_lt in Ld, Lx. pose proof (ascending_len _ _ (sortedDates_ascending (DeletedDates p))). apply inU_range in Hs, He. apply sortedDates_range in Hd, Hm.
  assert (Lb : len (by_start (Exceptions p)) = len (Exceptions p)) by (unfold len, by_start; by rewrite SliceStable_perm).
  assert (Hb : forallb exception_ok (by_start (Exceptions p)) = true).
  { rewrite forallb_forall in *. intros e Hin. apply Hex. apply list_elem_of_In. apply list_elem_of_In in Hin. unfold by_start in Hin. by rewrite SliceStable_perm in Hin. }
  set (fixed := le_bytes 4 appointmentReaderVersion ++ le_bytes 4 changeHighlightVersion ++ le_bytes 4 (StartTimeOffset p) ++ le_bytes 4 (EndTimeOffset p)
    ++ le_bytes 2 (len (by_start (Exceptions p)))).
  assert (Eb : EncodeAppointment p = marshal (ap_Pattern p) (sortedDates (DeletedDates p)) (sortedDates (ModifiedDates p))
    ++ fixed ++ exceptions_bytes (by_start (Exceptions p)) ++ le_bytes 4 0).
  { unfold EncodeAppointment, fixed, exceptions_bytes. fold (by_start (Exceptions p)). rewrite u16_small by (pose proof (len_nonneg (Exceptions p)); lia). by rewrite <- !app_assoc. }
  rewrite Eb. unfold DecodeAppointment. rewrite decode_pattern by (done || lia). cbn [mbind option_bind].
  set (mb := marshal _ _ _). unfold rd_left at 1. cbn [rd_err rd_b rd_off orb]. rewrite !len_app.
  assert (Hf : len fixed = 18) by (unfold fixed; by rewrite !len_app, !len_le). pose proof (len_nonneg (exceptions_bytes (by_start (Exceptions p)))). pose proof (len_nonneg mb).
  rewrite Hf, len_le. rewrite (proj2 (Z.ltb_ge _ _)) by lia. rewrite (proj2 (Z.eqb_neq _ 0)) by lia. unfold fixed. rewrite decode_times by (done || lia). done.
Qed.
(** A weekly series with a deleted date and an instance moved, renamed and marked free *)
Definition a_series : AppointmentPattern :=
  mkAppointment fortnightly [222620160; 222600000] [222640320] true 540 600
    [mkException 222640920 222640980 222640860 (Z.lor OverrideSubject OverrideBusyStatus) (lit "Moved") (lit "unused") 0 15 true false].
Lemma appointment_round_trip_witness :
  DecodeAppointment (EncodeAppointment a_series)
  = Some (Ok (mkAppointment fortnightly [222600000; 222620160] [222640320] true 540 600
      [mkException 222640920 222640980 222640860 (Z.lor OverrideSubject OverrideBusyStatus) (lit "Moved") [] 0 0 false false]))
  /\ exists deleted modified ex,
    DecodeAppointment (EncodeAppointment a_series) = Some (Ok (mkAppointment fortnightly deleted modified true 540 600 (map overridden ex)))
    /\ ascending [222620160; 222600000] deleted /\ ascending [222640320] modified /\ by_moved (Exceptions a_series) ex.
Proof. split; [vm_compute; reflexivity|]. apply (appointment_round_trip a_series); [vm_compute; reflexivity|apply NoDup_singleton|reflexivity]. Defined.
(** Two instances moved to one day: their date is written once, and what is read back has no exception. *)
Definition moved_together : AppointmentPattern :=
  mkAppointment fortnightly [222620160; 222640320] [222660480; 222660480] true 540 600
    [mkException 222661020 222661080 222620700 0 [] [] 0 0 false false; mkException 222661140 222661200 222640860 0 [] [] 0 0 false false].
Example exceptions_lost :
  appointment_ok moved_together = true
  /\ DecodeAppointment (EncodeAppointment moved_together) = Some (Ok (mkAppointment fortnightly [222620160; 222640320] [222660480] true 540 600 [])).
Proof. split; vm_compute; reflexivity. Qed.

(** ** No panics *)

Lemma le_at_some n b off : 0 <= off -> off + Z.of_nat n <= len b -> bytes_ok b = true -> exists v, le_at n b off = Some v /\ 0 <= v.
Proof.
  intros Ho Hl Hb. unfold le_at. rewrite (proj2 (Z.ltb_ge off 0)), (proj2 (Z.ltb_ge (len b) _)) by lia. cbn [orb]. eexists. split; [done|].
  apply le_value_bound, bytes_ok_Forall. apply Forall_take, Forall_drop. by apply bytes_ok_Forall.
Qed.
(** Every read of the parser is inside the blob. *)
Lemma bind_total {A B} (P : A -> Prop) (m : option A) (k : A -> option B) :
  (exists a, m = Some a /\ P a) -> (forall a, P a -> exists r, k a = Some r) -> exists r, m ≫= k = Some r.
Proof. intros (a & -> & Ha) Hk. by apply Hk. Qed.
Ltac read_ok Hb v Hv := apply (bind_total (fun x => 0 <= x)); [apply le_at_some; [lia|lia|exact Hb]|intros v Hv].
Lemma unmarshal_total b : bytes_ok b = true -> exists r, UnmarshalBinary b = Some r.
Proof.
  intros Hb. unfold UnmarshalBinary. destruct (len b <? 40) eqn:E40; [by eexists|]. apply Z.ltb_ge in E40.
  read_ok Hb freq H1. read_ok Hb type H2. read_ok Hb fdt H3. read_ok Hb period H4.
  apply (bind_total (fun s => match s with Ok (_, off) => 26 <= off | Err _ => True end)).
  - destruct (le_at_some 4 b 22 ltac:(lia) ltac:(lia) Hb) as (d & -> & _). destruct (le_at_some 4 b 26 ltac:(lia) ltac:(lia) Hb) as (w & -> & _).
    cbn [mbind option_bind]. repeat case_match; eexists; (split; [done|cbn; lia || done]).
  - intros [[[[dow dom] wom] off]|e] Hs; [|by eexists]. destruct (len b <? off + 20) eqn:E1; [by eexists|]. apply Z.ltb_ge in E1.
    read_ok Hb endType H5. read_ok Hb count H6. read_ok Hb dow1 H7. read_ok Hb deleted H8. cbv zeta.
    destruct (len b <? off + 16 + deleted * 4 + 4) eqn:E2; [by eexists|]. apply Z.ltb_ge in E2. read_ok Hb modified H9.
    destruct (len b <? off + 16 + deleted * 4 + 4 + modified * 4 + 8) eqn:E3; [by eexists|]. apply Z.ltb_ge in E3.
    read_ok Hb st H10. read_ok Hb en H11. by eexists.
Qed.
(** The interval of a rule that was read *)
Definition interval_ok (r : rrule) : Prop := 1 <= rr_Interval r <= maxRRuleInterval.
Lemma set_interval_ok k set r v r' : field_of k = Some set -> interval_ok r -> set r v = Ok r' -> interval_ok r'.
Proof.
  unfold field_of, rruleFields, interval_ok. cbn [List.find fst snd]. intros Hf Hi Hs.
  repeat case_match; cbn in Hf; simplify_eq; unfold setFreq, setInterval, setCount, setUntil, setByDayParam, setMonthDayParam, setMonthParam, setSetPosParam in Hs;
    repeat case_match; simplify_eq; cbn; lia.
Qed.
Lemma parse_interval text r : parseRRule text = Ok r -> interval_ok r.
Proof.
  unfold parseRRule. intros Hp. assert (H0 : interval_ok (mkRule [] 1 0 zeroTime [] 0 0 0)) by (unfold interval_ok; cbn; assert (maxRRuleInterval = 426088) by done; lia).
  revert Hp H0. generalize (mkRule [] 1 0 zeroTime [] 0 0 0). generalize (Split text 59). intros parts r0 Hp H0.
  destruct (parse_parts r0 parts) as [r1|e] eqn:E; [|done]. assert (r = r1) as -> by (by destruct (rr_Freq r1); simplify_eq). clear Hp.
  revert r0 H0 E. induction parts as [|part parts IH]; intros r0 H0 E; cbn [parse_parts] in E; [by simplify_eq|].
  destruct (negb _); [by eapply IH|]. destruct (Cut part 61) as [k v]. destruct (field_of _) as [set|] eqn:Ef; [|by eapply IH].
  destruct (set r0 v) as [r2|e] eqn:Es; [|done]. eapply IH; [|exact E]. by eapply set_interval_ok.
Qed.
Lemma pattern_total text r start : parseRRule text = Ok r -> exists p, patternFromRecurrence r start = Some p.
Proof.
  intros Hp. apply parse_interval in Hp. unfold interval_ok in Hp. assert (maxRRuleInterval = 426088) by done. unfold patternFromRecurrence, patternFreqs.
  assert (Hi : intervalPeriod r = rr_Interval r) by (unfold intervalPeriod; rewrite Z.max_l by lia; apply u32_small; lia).
  repeat case_match; simplify_eq; try (by eexists).
  - unfold dailyPattern. rewrite Hi. cbv zeta. rewrite u32_small by lia. unfold umod. rewrite (proj2 (Z.eqb_neq _ 0)) by lia. by eexists.
  - unfold monthlyPattern, month_pattern. destruct (setDayPins r start) as [[[? ?] ?] ?]. by eexists.
  - unfold yearlyPattern, month_pattern. destruct (setDayPins r start) as [[[? ?] ?] ?]. by eexists.
Qed.

(** C32. No rule and no blob panics: every text is turned into a pattern or an error, the modulo of a daily
    period never being by zero, and every blob decodes or is an error, no read going past its end. *)
Theorem recurrence_never_panics (text b : bytes) (start : Time) (dur : Z) :
  bytes_ok b = true ->
  FromRRule text start <> None /\ AppointmentFromRRule text start dur <> None /\ ToRRule b <> None /\ DecodeAppointment b <> None.
Proof.
  intros Hb. destruct (unmarshal_total b Hb) as [u Hu]. split_and!.
  - unfold FromRRule. destruct (parseRRule text) as [r|e] eqn:Ep; [|done]. destruct (pattern_total text r start Ep) as [p ->]. done.
  - unfold AppointmentFromRRule. destruct (parseRRule text) as [r|e] eqn:Ep; [|done]. cbv zeta.
    destruct (pattern_total text r (Date (Year start) (Month start) (Day_ start) 0 0 0 0 (t_loc start)) Ep) as [p ->]. done.
  - unfold ToRRule. by rewrite Hu.
  - unfold DecodeAppointment, decodePattern. by rewrite Hu.
Qed.
Lemma recurrence_never_panics_witness :
  FromRRule (lit "FREQ=DAILY;INTERVAL=426088") someday <> None /\ AppointmentFromRRule (lit "FREQ=DAILY;INTERVAL=426088") someday 3600 <> None
  /\ ToRRule (replicate 60 255) <> None /\ DecodeAppointment (replicate 60 255) <> None.
Proof. apply recurrence_never_panics. vm_compute. reflexivity. Defined.

(** ** What a rule loses *)

(** BYSETPOS is kept only after BYDAY; a BYMONTHDAY from the end becomes a day no month has; a fifth
    weekday becomes the last. *)
Example rule_losses :
  run_rule (lit "FREQ=MONTHLY;BYSETPOS=2;BYDAY=MO") someday = Some (Some (lit "FREQ=MONTHLY;INTERVAL=1;BYDAY=MO"))
  /\ run_rule (lit "FREQ=MONTHLY;BYDAY=MO;BYSETPOS=2") someday = Some (Some (lit "FREQ=MONTHLY;INTERVAL=1;BYDAY=MO;BYSETPOS=2"))
  /\ run_rule (lit "FREQ=MONTHLY;BYMONTHDAY=-1") someday = Some (Some (lit "FREQ=MONTHLY;INTERVAL=1;BYMONTHDAY=4294967295"))
  /\ run_rule (lit "FREQ=MONTHLY;BYDAY=5MO") someday = Some (Some (lit "FREQ=MONTHLY;INTERVAL=1;BYDAY=MO;BYSETPOS=-1")).
Proof. vm_compute. done. Qed.
