(* ===== verification/Tnef.v ===== *)
(** * TNEF streams ([internal/tnef])

    The winmail.dat part in which Outlook sends what MIME cannot carry: the reader of a stream, its
    attributes, property lists and recipient table, and the writer of a stream.  A [reader] is its
    unread bytes.  An 8-bit string is read with the caller's decoder, or as Latin-1. *)

From stdpp Require Import base list numbers.
From Stdlib Require Import ZArith Lia.
From Stdlib Require String.
Import String.StringSyntax.
From S2P Require Import Prelude Utf Gostr Gotime Mapi.
Open Scope Z_scope.
#[local] Arguments lit : simpl never.

(** ** Values *)

Definition signature : Z := 0x223E9F78.
Definition maxDepth : Z := 8.
Definition levelMessage : Z := 0x01.
Definition levelAttachment : Z := 0x02.
Definition attTnefVersion : Z := 0x00089006.
Definition attOemCodepage : Z := 0x00069007.
Definition attMessageClass : Z := 0x00078008.
Definition attOriginalMessageClass : Z := 0x00070600.
Definition attSubject : Z := 0x00018004.
Definition attDateSent : Z := 0x00038005.
Definition attDateRecd : Z := 0x00038006.
Definition attMessageID : Z := 0x00018009.
Definition attBody : Z := 0x0002800C.
Definition attPriority : Z := 0x0004800D.
Definition attDateModified : Z := 0x00038020.
Definition attDateStart : Z := 0x00030006.
Definition attDateEnd : Z := 0x00030007.
Definition attMsgProps : Z := 0x00069003.
Definition attRecipTable : Z := 0x00069004.
Definition attAttachRendData : Z := 0x00069002.
Definition attAttachData : Z := 0x0006800F.
Definition attAttachTitle : Z := 0x00018010.
Definition attAttachCreateDate : Z := 0x00038012.
Definition attAttachModifyDate : Z := 0x00038013.
Definition attAttachTransportFilename : Z := 0x00069001.
Definition attAttachment : Z := 0x00069005.
Definition tnefVersion : Z := 0x00010000.

Definition tagMessageClass : Z := 0x001A001F.
Definition tagOriginalMessageClass : Z := 0x004B001F.
Definition tagSubject : Z := 0x0037001F.
Definition tagBody : Z := 0x1000001F.
Definition tagSearchKey : Z := 0x300B0102.
Definition tagImportance : Z := 0x00170003.
Definition tagClientSubmitTime : Z := 0x00390040.
Definition tagMessageDeliveryTime : Z := 0x0E060040.
Definition tagLastModificationTime : Z := 0x30080040.
Definition tagStartDate : Z := 0x00600040.
Definition tagEndDate : Z := 0x00610040.
Definition tagCreationTime : Z := 0x30070040.
Definition tagAttachDataBin : Z := 0x37010102.
Definition tagAttachLongFilename : Z := 0x3707001F.
Definition tagAttachTransportName : Z := 0x370C001F.
Definition tagAttachTag : Z := 0x370A0102.
Definition tagRenderingPosition : Z := 0x370B0003.
Definition tagAttachEncoding : Z := 0x37020102.

Record Object := mkObject { o_IID : GUID; o_Data : bytes }.
(** A value of [Prop.Value]: one of package mapi, or an [Object] *)
Inductive value := V (v : any) | VObject (o : Object).
(** [Prop] *)
Record TProp := mkProp { p_Tag : Z; p_Name : option PropertyName; p_Value : value }.
Record Attachment := mkAttachment { a_Props : list TProp }.
Record Message := mkMessage { m_Props : list TProp; m_Recipients : list (list TProp); m_Attachments : list Attachment }.
Definition ANSIDecoder : Type := bytes -> Z -> bytes.
Record decoder := mkDecoder { d_codepage : Z; d_decode : option ANSIDecoder; d_depth : Z }.
(** [OutOfFuel] is no error of the sources. *)
Inductive tn_error :=
| errShort | ErrNotTNEF | ErrNoVersion | ErrVersion | ErrLevel | ErrChecksum | ErrBeforeRend | ErrNameKind | ErrCount | errPropType | ErrDepth | ErrNotMessage
| ErrNoName | ErrNotList | ErrHolds | OutOfFuel.

(** ** The reader *)

Definition tr A : Type := bytes -> result tn_error (A * bytes).
Definition tr_ret {A} (a : A) : tr A := fun r => Ok (a, r).
Definition tr_err {A} (e : tn_error) : tr A := fun _ => Err e.
Definition tr_bind {A B} (m : tr A) (k : A -> tr B) : tr B := fun r => match m r with Ok (a, r) => k a r | Err e => Err e end.
Notation "x <~ m ; k" := (tr_bind m (fun x => k)) (at level 20, m at level 100, k at level 200, right associativity).

Definition remaining (r : bytes) : Z := len r.
Definition tn_bytes (n : Z) : tr bytes := fun r =>
  if (n <? 0) || (remaining r <? n) then Err errShort else Ok (take (Z.to_nat n) r, drop (Z.to_nat n) r).
Definition tn_u8 : tr Z := b <~ tn_bytes 1; tr_ret (nth 0 b 0).
Definition tn_u16 : tr Z := b <~ tn_bytes 2; tr_ret (le_value b).
Definition tn_u32 : tr Z := b <~ tn_bytes 4; tr_ret (le_value b).
Definition padding (n : Z) : Z := (4 - n mod 4) mod 4.
Definition skipPad (n : Z) : tr unit := if 0 <? padding n then _ <~ tn_bytes (padding n); tr_ret tt else tr_ret tt.
Definition count (minSize : Z) : tr Z :=
  n <~ tn_u32;
  fun r => if remaining r / Z.max minSize 1 <? n then Err errShort else Ok (n, r).
(** [for range n] *)
Fixpoint tr_times {A} (n : nat) (m : tr A) : tr (list A) :=
  match n with O => tr_ret [] | Datatypes.S n => a <~ m; l <~ tr_times n m; tr_ret (a :: l) end.

(** ** Property lists *)

Definition fixedSize (t : Z) : option Z :=
  if t =? PtShort then Some 2 else if t =? PtLong then Some 4 else if t =? PtFloat then Some 4 else if t =? PtDouble then Some 8
  else if t =? PtCurrency then Some 8 else if t =? PtAppTime then Some 8 else if t =? PtError then Some 4 else if t =? PtBoolean then Some 2
  else if t =? PtI8 then Some 8 else if t =? PtSysTime then Some 8 else if t =? PtCLSID then Some 16 else None.
Definition isVariable (t : Z) : bool := (t =? PtString8) || (t =? PtUnicode) || (t =? PtBinary) || (t =? PtObject).

Definition ansi (d : decoder) (raw : bytes) : bytes :=
  match d_decode d with Some f => f raw (d_codepage d) | None => string_of_runes raw end.
Definition guidOf (b : bytes) : GUID :=
  mkGUID (le_value (take 4 b)) (le_value (take 2 (drop 4 b))) (le_value (take 2 (drop 6 b))) (take 8 (drop 8 b)).
Fixpoint units_until_nul (raw : bytes) : list Z :=
  match raw with
  | a :: b :: raw => let c := a + 256 * b in if c =? 0 then [] else c :: units_until_nul raw
  | _ => []
  end.
Definition utf16String (raw : bytes) : bytes := string_of_runes (utf16_Decode (units_until_nul raw)).
Fixpoint trimNul (b : bytes) : bytes := match b with c :: b => if c =? 0 then [] else c :: trimNul b | [] => [] end.

Definition propName : tr PropertyName :=
  g <~ tn_bytes 16; kind <~ tn_u32;
  if kind =? 0 then lid <~ tn_u32; tr_ret (mkPropertyName MnidID (guidOf g) lid [])
  else if kind =? 1 then n <~ count 1; raw <~ tn_bytes n; _ <~ skipPad n; tr_ret (mkPropertyName MnidString (guidOf g) 0 (utf16String raw))
  else tr_err ErrNameKind.
Definition scalarValue (base : Z) (raw : bytes) : any :=
  let n := le_value raw in
  if base =? PtShort then AInt16 (signed 16 n) else if base =? PtLong then AInt32 (i32 n) else if base =? PtError then AUint32 n
  else if base =? PtFloat then AFloat32 n else if (base =? PtDouble) || (base =? PtAppTime) then AFloat64 n
  else if (base =? PtCurrency) || (base =? PtI8) then AInt64 (i64 n) else if base =? PtBoolean then ABool (negb (n =? 0))
  else if base =? PtSysTime then AUint64 n else AGUID (guidOf raw).
Definition scalar (base : Z) : tr value :=
  match fixedSize base with
  | None => tr_err errPropType
  | Some size => raw <~ tn_bytes size; _ <~ skipPad size; tr_ret (V (scalarValue base raw))
  end.
Definition variable (d : decoder) (base : Z) : tr value :=
  n <~ count 1; raw <~ tn_bytes n; _ <~ skipPad n;
  if base =? PtUnicode then tr_ret (V (AString (utf16String raw)))
  else if base =? PtString8 then tr_ret (V (AString (ansi d (trimNul raw))))
  else if base =? PtObject then if len raw <? 16 then tr_err errShort else tr_ret (VObject (mkObject (guidOf (take 16 raw)) (drop 16 raw)))
  else tr_ret (V (ABytes raw)).
(** [collect[T](vals)]: the values that hold a [T] *)
Definition collect {T} (f : any -> option T) (vals : list value) : list T := omap (fun v => match v with V v => f v | VObject _ => None end) vals.
Definition as_int16 (v : any) : option Z := match v with AInt16 x => Some x | _ => None end.
Definition as_int32 (v : any) : option Z := match v with AInt32 x => Some x | _ => None end.
Definition as_float32 (v : any) : option Z := match v with AFloat32 x => Some x | _ => None end.
Definition as_float64 (v : any) : option Z := match v with AFloat64 x => Some x | _ => None end.
Definition as_int64 (v : any) : option Z := match v with AInt64 x => Some x | _ => None end.
Definition as_uint64 (v : any) : option Z := match v with AUint64 x => Some x | _ => None end.
Definition as_guid (v : any) : option GUID := match v with AGUID x => Some x | _ => None end.
Definition as_string (v : any) : option bytes := match v with AString x => Some x | _ => None end.
Definition as_bytes (v : any) : option bytes := match v with ABytes x => Some x | _ => None end.
Definition typedSlice (base : Z) (vals : list value) : any :=
  if base =? PtShort then AInt16s (collect as_int16 vals) else if base =? PtLong then AInt32s (collect as_int32 vals)
  else if base =? PtFloat then AFloat32s (collect as_float32 vals) else if (base =? PtDouble) || (base =? PtAppTime) then AFloat64s (collect as_float64 vals)
  else if (base =? PtCurrency) || (base =? PtI8) then AInt64s (collect as_int64 vals) else if base =? PtSysTime then AUint64s (collect as_uint64 vals)
  else if base =? PtCLSID then AGUIDs (collect as_guid vals) else if (base =? PtString8) || (base =? PtUnicode) then AStrings (collect as_string vals)
  else ABytess (collect as_bytes vals).
Definition one_value (d : decoder) (base : Z) : tr value := if isVariable base then variable d base else scalar base.
Definition multiValue (d : decoder) (base : Z) : tr value :=
  let minSize := match fixedSize base with Some size => Z.max size 4 | None => 4 end in
  n <~ count minSize; vals <~ tr_times (Z.to_nat n) (one_value d base); tr_ret (V (typedSlice base vals)).
Definition tn_value (d : decoder) (t : Z) : tr value :=
  let base := PropType_Base t in
  if IsMultivalue t then multiValue d base
  else if isVariable base then n <~ count 4; if negb (n =? 1) then tr_err ErrCount else variable d base
  else if (base =? PtNull) || (base =? PtUnspecified) then tr_ret (V ANil)
  else scalar base.
Definition tn_prop (d : decoder) : tr TProp :=
  typ <~ tn_u16; id <~ tn_u16;
  name <~ (if 0x8000 <=? id then n <~ propName; tr_ret (Some n) else tr_ret None);
  v <~ tn_value d typ;
  tr_ret (mkProp (MakeTag id typ) name v).
Definition propList (d : decoder) : tr (list TProp) := n <~ count 4; tr_times (Z.to_nat n) (tn_prop d).

(** ** Attributes *)

(** The sum of the bytes, in 16 bits *)
Definition checksum (data : bytes) : Z := foldl (fun s c => u16 (s + c)) 0 data.
Definition readAttribute : tr (Z * Z * bytes) :=
  level <~ tn_u8; id <~ tn_u32; n <~ count 1; data <~ tn_bytes n; sum <~ tn_u16;
  if negb (id =? attMessageClass) && negb (id =? attOriginalMessageClass) && negb (sum =? checksum data) then tr_err ErrChecksum
  else tr_ret (level, id, data).

Definition importance (v : Z) : Z := if v =? 1 then 2 else if v =? 3 then 0 else 1.
Definition legacyClasses : list (bytes * bytes) :=
  [(lit "IPM.Microsoft Mail.Note", lit "IPM.Note"); (lit "IPM.Microsoft Mail.Read Receipt", lit "Report.IPM.Note.IPNRN");
   (lit "IPM.Microsoft Mail.Non-Delivery", lit "Report.IPM.Note.NDR"); (lit "IPM.Microsoft Schedule.MtgRespP", lit "IPM.Schedule.Meeting.Resp.Pos");
   (lit "IPM.Microsoft Schedule.MtgRespN", lit "IPM.Schedule.Meeting.Resp.Neg"); (lit "IPM.Microsoft Schedule.MtgRespA", lit "IPM.Schedule.Meeting.Resp.Tent");
   (lit "IPM.Microsoft Schedule.MtgReq", lit "IPM.Schedule.Meeting.Request"); (lit "IPM.Microsoft Schedule.MtgCncl", lit "IPM.Schedule.Meeting.Canceled")].
Definition messageClass (v : bytes) : bytes :=
  let v := TrimPrefix v (lit "Microsoft Mail v3.0 ") in default v (snd <$> List.find (fun e => beq e.1 v) legacyClasses).
Definition messageDates : list (Z * Z) :=
  [(attDateSent, tagClientSubmitTime); (attDateRecd, tagMessageDeliveryTime); (attDateModified, tagLastModificationTime); (attDateStart, tagStartDate); (attDateEnd, tagEndDate)].
Definition attachmentDates : list (Z * Z) := [(attAttachCreateDate, tagCreationTime); (attAttachModifyDate, tagLastModificationTime)].
(** [time.Date] with a month that may be out of range, as the seconds and nanoseconds of Unix time *)
Definition date_unix (y mo d h mi s : Z) : gotime :=
  let t := t_unix (Date (y + (mo - 1) / 12) ((mo - 1) mod 12 + 1) d h mi s 0 UTC) in
  Mapi.mkTime (t / second - 62135596800) (t mod second).
Definition dateProp (id : Z) (data : bytes) (dates : list (Z * Z)) : option TProp :=
  match List.find (fun e => e.1 =? id) dates with
  | None => None
  | Some (_, tag) =>
      if len data <? 12 then None
      else
        let f i := le_value (take 2 (drop (2 * i) data)) in
        Some (mkProp tag None (V (AUint64 (UnixToNTTime (date_unix (f 0%nat) (f 1%nat) (f 2%nat) (f 3%nat) (f 4%nat) (f 5%nat))))))
  end.
Definition text_prop (d : decoder) (tag : Z) (data : bytes) : TProp := mkProp tag None (V (AString (ansi d (trimNul data)))).
Definition legacyMessageProp (d : decoder) (id : Z) (data : bytes) : option TProp :=
  if id =? attMessageClass then Some (mkProp tagMessageClass None (V (AString (messageClass (ansi d (trimNul data))))))
  else if id =? attOriginalMessageClass then Some (mkProp tagOriginalMessageClass None (V (AString (messageClass (ansi d (trimNul data))))))
  else if id =? attSubject then Some (text_prop d tagSubject data)
  else if id =? attBody then Some (text_prop d tagBody data)
  else
    let legacy :=
      if id =? attMessageID then (fun b => mkProp tagSearchKey None (V (ABytes b))) <$> hex_decode (trimNul data)
      else if id =? attPriority then (if 2 <=? len data then Some (mkProp tagImportance None (V (AInt32 (importance (le_value (take 2 data)))))) else None)
      else None in
    match legacy with Some p => Some p | None => dateProp id data messageDates end.

(** The records that are appended to *)
Definition m_add_props (ps : list TProp) (m : Message) : Message := mkMessage (m_Props m ++ ps) (m_Recipients m) (m_Attachments m).
Definition m_add_recipients (rs : list (list TProp)) (m : Message) : Message := mkMessage (m_Props m) (m_Recipients m ++ rs) (m_Attachments m).
(** What a reader of a whole slice gives *)
Definition run {A} (m : tr A) (data : bytes) : result tn_error A := match m data with Ok (a, _) => Ok a | Err e => Err e end.
Definition recipTable (d : decoder) : tr (list (list TProp)) := n <~ count 4; tr_times (Z.to_nat n) (propList d).
Definition messageAttribute (d : decoder) (id : Z) (data : bytes) (m : Message) : result tn_error (decoder * Message) :=
  if id =? attTnefVersion then if negb (len data =? 4) || negb (le_value (take 4 data) =? tnefVersion) then Err ErrVersion else Ok (d, m)
  else if id =? attOemCodepage then Ok (if 4 <=? len data then mkDecoder (le_value (take 4 data)) (d_decode d) (d_depth d) else d, m)
  else if id =? attMsgProps then match run (propList d) data with Err e => Err e | Ok ps => Ok (d, m_add_props ps m) end
  else if id =? attRecipTable then match run (recipTable d) data with Err e => Err e | Ok rs => Ok (d, m_add_recipients rs m) end
  else Ok (d, match legacyMessageProp d id data with Some p => m_add_props [p] m | None => m end).

Definition attachTagOLE : bytes := [0x2A; 0x86; 0x48; 0x86; 0xF7; 0x14; 0x03; 0x0A; 0x03; 0x02; 0x01].
Definition attachEncodingMacBinary : bytes := [0x2A; 0x86; 0x48; 0x86; 0xF7; 0x14; 0x03; 0x0B; 0x01].
Definition rendDataProps (data : bytes) : list TProp :=
  if len data <? 14 then []
  else
    (if le_value (take 2 data) =? 2 then [mkProp tagAttachTag None (V (ABytes attachTagOLE))] else [])
    ++ [mkProp tagRenderingPosition None (V (AInt32 (i32 (le_value (take 4 (drop 2 data))))))]
    ++ (if negb (Z.land (le_value (take 4 (drop 10 data))) 1 =? 0) then [mkProp tagAttachEncoding None (V (ABytes attachEncodingMacBinary))] else []).
(** The last attachment's properties, extended *)
Fixpoint add_to_last (ps : list TProp) (l : list Attachment) : list Attachment :=
  match l with
  | [] => []
  | [a] => [mkAttachment (a_Props a ++ ps)]
  | a :: l => a :: add_to_last ps l
  end.
Definition m_set_attachments (l : list Attachment) (m : Message) : Message := mkMessage (m_Props m) (m_Recipients m) l.
Definition attachmentAttribute (d : decoder) (id : Z) (data : bytes) (m : Message) : result tn_error Message :=
  let add ps := m_set_attachments (add_to_last ps (m_Attachments m)) m in
  if id =? attAttachRendData then Ok (m_set_attachments (m_Attachments m ++ [mkAttachment (rendDataProps data)]) m)
  else if bool_decide (m_Attachments m = []) then Err ErrBeforeRend
  else if id =? attAttachData then Ok (add [mkProp tagAttachDataBin None (V (ABytes data))])
  else if id =? attAttachTitle then Ok (add [text_prop d tagAttachLongFilename data])
  else if id =? attAttachTransportFilename then Ok (add [text_prop d tagAttachTransportName data])
  else if id =? attAttachment then match run (propList d) data with Err e => Err e | Ok ps => Ok (add ps) end
  else Ok (match dateProp id data attachmentDates with Some p => add [p] | None => m end).

(** ** The stream *)

(** The attribute's id, the decoder and the message after it *)
Definition attribute (d : decoder) (m : Message) : tr (Z * decoder * Message) :=
  a <~ readAttribute;
  let '(level, id, data) := a in
  fun r =>
    if level =? levelMessage then match messageAttribute d id data m with Err e => Err e | Ok (d, m) => Ok (id, d, m, r) end
    else if level =? levelAttachment then match attachmentAttribute d id data m with Err e => Err e | Ok m => Ok (id, d, m, r) end
    else Err ErrLevel.
Fixpoint attributes (fuel : nat) (d : decoder) (m : Message) (sawVersion : bool) (r : bytes) : result tn_error (Message * bool) :=
  if remaining r <=? 0 then Ok (m, sawVersion)
  else match fuel with
       | O => Err OutOfFuel
       | Datatypes.S fuel =>
           match attribute d m r with
           | Err e => Err e
           | Ok (id, d, m, r) => attributes fuel d m (sawVersion || (id =? attTnefVersion)) r
           end
       end.
Definition no_message : Message := mkMessage [] [] [].
Definition stream (d : decoder) (r : bytes) : result tn_error Message :=
  match (sig <~ tn_u32; if negb (sig =? signature) then tr_err ErrNotTNEF else _ <~ tn_u16; tr_ret tt) r with
  | Err e => Err e
  | Ok (_, r) =>
      match attributes (length r) d no_message false r with
      | Err e => Err e
      | Ok (m, sawVersion) => if sawVersion : bool then Ok m else Err ErrNoVersion
      end
  end.
Definition decodeAt (data : bytes) (decodeANSI : option ANSIDecoder) (depth : Z) : result tn_error Message :=
  if maxDepth <? depth then Err ErrDepth else stream (mkDecoder 0 decodeANSI depth) data.
Definition Decode (data : bytes) (decodeANSI : option ANSIDecoder) : result tn_error Message := decodeAt data decodeANSI 0.
Definition IIDMessage : GUID := mkGUID 0x00020307 0 0 [0xC0; 0; 0; 0; 0; 0; 0; 0x46].
Definition DecodeEmbedded (o : Object) (decodeANSI : option ANSIDecoder) (depth : Z) : result tn_error Message :=
  if negb (bool_decide (o_IID o = IIDMessage)) then Err ErrNotMessage else decodeAt (o_Data o) decodeANSI (depth + 1).

(** ** Writing *)

Definition utf16z (s : bytes) : bytes := concat (map (le_bytes 2) (utf16_Encode (runes s))) ++ [0; 0].
Definition guidBytes (g : GUID) : bytes := le_bytes 4 (Data1 g) ++ le_bytes 2 (Data2 g) ++ le_bytes 2 (Data3 g) ++ Data4 g.
Definition boolBytes (b : bool) : bytes := if b then [1; 0] else [0; 0].
Definition when_type (c : bool) (b : bytes) : option bytes := if c then Some b else None.
Definition numberBytes (t : Z) (v : value) : option bytes :=
  match v with
  | V (AInt16 x) => when_type (t =? PtShort) (le_bytes 2 (u16 x))
  | V (AInt32 x) => when_type (t =? PtLong) (le_bytes 4 (u32 x))
  | V (AUint32 x) => when_type (t =? PtError) (le_bytes 4 x)
  | V (AFloat32 x) => when_type (t =? PtFloat) (le_bytes 4 x)
  | V (AFloat64 x) => when_type ((t =? PtDouble) || (t =? PtAppTime)) (le_bytes 8 x)
  | V (AInt64 x) => when_type ((t =? PtI8) || (t =? PtCurrency)) (le_bytes 8 (u64 x))
  | V (AUint64 x) => when_type (t =? PtSysTime) (le_bytes 8 x)
  | _ => None
  end.
Definition valueBytes (t : Z) (v : value) : option bytes :=
  if (t =? PtUnicode) || (t =? PtString8) then match v with V (AString s) => Some (utf16z s) | _ => None end
  else if t =? PtBinary then match v with V (ABytes b) => Some b | _ => None end
  else if t =? PtCLSID then match v with V (AGUID g) => Some (guidBytes g) | _ => None end
  else if t =? PtBoolean then match v with V (ABool b) => Some (boolBytes b) | _ => None end
  else numberBytes t v.
Definition e_pad (n : Z) : bytes := replicate (Z.to_nat (padding n)) 0.
Definition e_variable (v : bytes) : bytes := le_bytes 4 (u32 (len v)) ++ v ++ e_pad (len v).
Definition e_value (t : Z) (v : value) : result tn_error bytes :=
  if (t =? PtNull) || (t =? PtUnspecified) then Ok []
  else match valueBytes t v with
       | None => Err ErrHolds
       | Some raw => Ok (if isVariable t then e_variable raw else raw ++ e_pad (len raw))
       end.
Definition spread {T} (f : T -> any) (l : list T) : list value := map (fun x => V (f x)) l.
Definition sliceValues (v : value) : option (list value) :=
  match v with
  | V (AInt16s l) => Some (spread AInt16 l) | V (AInt32s l) => Some (spread AInt32 l)
  | V (AFloat32s l) => Some (spread AFloat32 l) | V (AFloat64s l) => Some (spread AFloat64 l)
  | V (AInt64s l) => Some (spread AInt64 l) | V (AUint64s l) => Some (spread AUint64 l)
  | V (AGUIDs l) => Some (spread AGUID l) | V (AStrings l) => Some (spread AString l) | V (ABytess l) => Some (spread ABytes l)
  | _ => None
  end.
(** The outputs of a loop that stops at the first error *)
Fixpoint concat_results {A} (f : A -> result tn_error bytes) (l : list A) : result tn_error bytes :=
  match l with
  | [] => Ok []
  | a :: l => match f a with Err e => Err e | Ok b => match concat_results f l with Err e => Err e | Ok bs => Ok (b ++ bs) end end
  end.
Definition e_multiValue (base : Z) (v : value) : result tn_error bytes :=
  match sliceValues v with
  | None => Err ErrNotList
  | Some vals => match concat_results (e_value base) vals with Err e => Err e | Ok bs => Ok (le_bytes 4 (u32 (len vals)) ++ bs) end
  end.
Definition e_name (n : PropertyName) : bytes :=
  guidBytes (pnGUID n) ++ (if pnKind n =? MnidID then le_bytes 4 0 ++ le_bytes 4 (pnLID n) else le_bytes 4 1 ++ e_variable (utf16z (pnName n))).
(** The type a property is written with *)
Definition written_type (tag : Z) : Z :=
  let typ := PropTag_Type tag in if PropType_Base typ =? PtString8 then Z.lor (Z.land typ MvFlag) PtUnicode else typ.
Definition e_prop (p : TProp) : result tn_error bytes :=
  let typ := written_type (p_Tag p) in
  if (0x8000 <=? PropTag_ID (p_Tag p)) && bool_decide (p_Name p = None) then Err ErrNoName
  else
    let head := le_bytes 2 typ ++ le_bytes 2 (PropTag_ID (p_Tag p)) ++ match p_Name p with Some n => e_name n | None => [] end in
    match (if IsMultivalue typ then e_multiValue (PropType_Base typ) (p_Value p)
           else match e_value typ (p_Value p) with Err e => Err e | Ok b => Ok ((if isVariable typ then le_bytes 4 1 else []) ++ b) end) with
    | Err e => Err e
    | Ok b => Ok (head ++ b)
    end.
Definition is_object (p : TProp) : bool := PropType_Base (PropTag_Type (p_Tag p)) =? PtObject.
Definition encodePropList (props : list TProp) : result tn_error bytes :=
  let kept := List.filter (fun p => negb (is_object p)) props in
  match concat_results e_prop kept with Err e => Err e | Ok body => Ok (le_bytes 4 (u32 (len kept)) ++ body) end.
Definition e_attribute (level id : Z) (data : bytes) : bytes := [level] ++ le_bytes 4 id ++ le_bytes 4 (u32 (len data)) ++ data ++ le_bytes 2 (checksum data).
Definition fileRendData : bytes := [1; 0] ++ le_bytes 4 0xFFFFFFFF ++ replicate 8 0.
Definition class_of (p : TProp) : option bytes :=
  match p_Value p with V (AString s) => if PropTag_ID (p_Tag p) =? PropTag_ID tagMessageClass then Some s else None | _ => None end.
Definition e_attachment (a : Attachment) : result tn_error bytes :=
  match encodePropList (a_Props a) with
  | Err e => Err e
  | Ok list => Ok (e_attribute levelAttachment attAttachRendData fileRendData ++ e_attribute levelAttachment attAttachment list)
  end.
Definition Encode (m : Message) : result tn_error bytes :=
  let head := le_bytes 4 signature ++ le_bytes 2 0 ++ e_attribute levelMessage attTnefVersion (le_bytes 4 tnefVersion)
    ++ e_attribute levelMessage attOemCodepage (le_bytes 4 65001 ++ le_bytes 4 0)
    ++ concat (map (fun class => e_attribute levelMessage attMessageClass (class ++ [0])) (omap class_of (m_Props m))) in
  match encodePropList (m_Props m) with
  | Err e => Err e
  | Ok props =>
      match concat_results e_attachment (m_Attachments m) with
      | Err e => Err e
      | Ok atts => Ok (head ++ e_attribute levelMessage attMsgProps props ++ atts)
      end
  end.

Definition a_note : Message :=
  mkMessage [mkProp tagMessageClass None (V (AString (lit "IPM.Note"))); mkProp 0x8001001E (Some (mkPropertyName MnidString IIDMessage 0 (lit "X"))) (V (AString (lit "y")));
             mkProp 0x00171003 None (V (AInt32s [1; -2; 3])); mkProp 0x3701000D None (VObject (mkObject IIDMessage []))] []
    [mkAttachment [mkProp tagAttachDataBin None (V (ABytes [1; 2; 3; 4; 5]))]].
Example note_runs :
  match Encode a_note with Ok b => Decode b None | Err e => Err e end
  = Ok (mkMessage [mkProp tagMessageClass None (V (AString (lit "IPM.Note"))); mkProp tagMessageClass None (V (AString (lit "IPM.Note")));
          mkProp 0x8001001F (Some (mkPropertyName MnidString IIDMessage 0 (lit "X"))) (V (AString (lit "y"))); mkProp 0x00171003 None (V (AInt32s [1; -2; 3]))] []
          [mkAttachment [mkProp tagRenderingPosition None (V (AInt32 (-1))); mkProp tagAttachDataBin None (V (ABytes [1; 2; 3; 4; 5]))]]).
Proof. vm_compute. done. Qed.
