(* ===== verification/TnefProofs.v ===== *)
(** * TNEF streams: what is written is read, and reading is bounded

    A stream written from a message is read back as the message it carries; reading any bytes ends,
    with a message no larger than they are or an error. *)

From stdpp Require Import base list numbers.
From Stdlib Require Import ZArith Lia.
From Stdlib Require String.
Import String.StringSyntax.
From S2P Require Import Prelude Utf Gostr Gotime Mapi Tnef.
Open Scope Z_scope.
#[local] Arguments lit : simpl never.
#[local] Notation "x <~ m ; k" := (tr_bind m (fun x => k)) (at level 20, m at level 100, k at level 200, right associativity).

(** ** Reading what was written *)

(** The reader [m] consumes exactly [s] and gives [a]. *)
Definition consumes {A} (m : tr A) (s : bytes) (a : A) : Prop := forall rest, m (s ++ rest) = Ok (a, rest).
Lemma consumes_ret {A} (a : A) : consumes (tr_ret a) [] a.
Proof. by intros rest. Qed.
Lemma consumes_bind {A B} (m : tr A) (k : A -> tr B) s t a b : consumes m s a -> consumes (k a) t b -> consumes (tr_bind m k) (s ++ t) b.
Proof. intros Hm Hk rest. unfold tr_bind. rewrite <- app_assoc, Hm. apply Hk. Qed.
Lemma consumes_last {A B} (m : tr A) (k : A -> B) s a : consumes m s a -> consumes (x <~ m; tr_ret (k x)) s (k a).
Proof. intros Hm rest. unfold tr_bind. by rewrite Hm. Qed.
Lemma consumes_bytes s n : n = len s -> consumes (tn_bytes n) s s.
Proof.
  intros -> rest. unfold tn_bytes, remaining. rewrite len_app. pose proof (len_nonneg s). pose proof (len_nonneg rest).
  rewrite (proj2 (Z.ltb_ge (len s) 0)), (proj2 (Z.ltb_ge (len s + len rest) _)) by lia. cbn [orb]. unfold len. rewrite Nat2Z.id.
  rewrite take_app_le, take_ge, drop_app_ge, Nat.sub_diag by lia. done.
Qed.
Lemma len_le_bytes n v : len (le_bytes n v) = Z.of_nat n.
Proof. unfold len. by rewrite length_le_bytes. Qed.
Lemma consumes_le (n : nat) v : 0 <= v < 2 ^ (8 * Z.of_nat n) -> consumes (b <~ tn_bytes (Z.of_nat n); tr_ret (le_value b)) (le_bytes n v) v.
Proof.
  intros Hv. pose proof (consumes_last (tn_bytes (Z.of_nat n)) le_value (le_bytes n v) _ (consumes_bytes _ _ (eq_sym (len_le_bytes n v)))) as H.
  by rewrite le_value_le_bytes in H.
Qed.
Lemma consumes_u16 v : 0 <= v < 2 ^ 16 -> consumes tn_u16 (le_bytes 2 v) v.
Proof. apply (consumes_le 2). Qed.
Lemma consumes_u32 v : 0 <= v < 2 ^ 32 -> consumes tn_u32 (le_bytes 4 v) v.
Proof. apply (consumes_le 4). Qed.
(** A count is accepted when the elements that follow it are as large as it says. *)
Lemma consumes_count {A} k n (f : Z -> tr A) body a :
  0 <= n < 2 ^ 32 -> n * Z.max k 1 <= len body -> consumes (f n) body a -> consumes (x <~ count k; f x) (le_bytes 4 n ++ body) a.
Proof.
  intros Hn Hl Hf rest. unfold tr_bind, count, tr_bind. rewrite <- app_assoc, (consumes_u32 n Hn). unfold remaining. rewrite len_app. pose proof (len_nonneg rest).
  rewrite (proj2 (Z.ltb_ge _ _)); [apply Hf|]. apply Z.div_le_lower_bound; lia.
Qed.
Lemma padding_range n : 0 <= padding n < 4.
Proof. unfold padding. apply Z.mod_pos_bound. lia. Qed.
Lemma len_e_pad n : len (e_pad n) = padding n.
Proof. unfold e_pad, len. rewrite length_replicate. pose proof (padding_range n). lia. Qed.
Lemma consumes_pad n : consumes (skipPad n) (e_pad n) tt.
Proof.
  unfold skipPad. pose proof (padding_range n). destruct (0 <? padding n) eqn:E.
  - apply (consumes_last _ (fun _ => tt) _ (e_pad n)). apply consumes_bytes. by rewrite len_e_pad.
  - apply Z.ltb_ge in E. unfold e_pad. replace (Z.to_nat (padding n)) with 0%nat by lia. apply consumes_ret.
Qed.
Lemma consumes_times {A B} (m : tr B) (enc : A -> result tn_error bytes) (g : A -> B) l bs :
  concat_results enc l = Ok bs -> (forall a b, In a l -> enc a = Ok b -> len b <= len bs -> consumes m b (g a)) -> consumes (tr_times (length l) m) bs (map g l).
Proof.
  revert bs. induction l as [|a l IH]; intros bs He Hm; cbn [concat_results tr_times length map] in *; [injection He as <-; apply consumes_ret|].
  destruct (enc a) as [b|] eqn:Ea; [|done]. destruct (concat_results enc l) as [bs'|] eqn:El; [|done]. injection He as <-. rewrite len_app in Hm.
  pose proof (len_nonneg b). pose proof (len_nonneg bs'). eapply consumes_bind; [apply Hm; [by left|done|lia]|].
  apply (consumes_last _ (cons (g a))). apply IH; [done|]. intros a' b' Hin Ha Hl. apply Hm; [by right|done|lia].
Qed.
(** The size of what a loop writes *)
Lemma concat_results_len {A} (enc : A -> result tn_error bytes) l bs k :
  concat_results enc l = Ok bs -> (forall a b, In a l -> enc a = Ok b -> k <= len b) -> len l * k <= len bs.
Proof.
  revert bs. induction l as [|a l IH]; intros bs He Hk; cbn [concat_results] in He; [injection He as <-; done|].
  destruct (enc a) as [b|] eqn:Ea; [|done]. destruct (concat_results enc l) as [bs'|] eqn:El; [|done]. injection He as <-. rewrite len_app.
  specialize (IH bs' eq_refl ltac:(intros; eapply Hk; [by right|done])). pose proof (Hk a b (or_introl eq_refl) Ea). unfold len in *. cbn [length]. lia.
Qed.
Lemma concat_results_ok {A} (enc : A -> result tn_error bytes) l : (forall a, In a l -> exists b, enc a = Ok b) -> exists bs, concat_results enc l = Ok bs.
Proof.
  induction l as [|a l IH]; intros Hl; [by eexists|]. cbn [concat_results]. destruct (Hl a (or_introl eq_refl)) as [b ->].
  destruct IH as [bs ->]; [intros; apply Hl; by right|]. by eexists.
Qed.

(** ** Texts and names *)

Definition text_ok (s : bytes) : bool := bytes_ok s && valid_utf8 s && no_nul s.
Lemma units_until_nul_all us rest : Forall (fun u => 0 < u < 65536) us -> units_until_nul (concat (map (le_bytes 2) us) ++ 0 :: 0 :: rest) = us.
Proof.
  induction 1 as [|u us Hu _ IH]; [done|]. cbn [map concat]. rewrite <- app_assoc. change (le_bytes 2 u) with [u mod 256; u / 256 mod 256]. cbn [app units_until_nul].
  assert (E : u mod 256 + 256 * (u / 256 mod 256) = u) by (rewrite (Z.mod_small (u / 256)) by (split; [apply Z.div_pos|apply Z.div_lt_upper_bound]; lia); pose proof (Z.div_mod u 256); lia).
  rewrite E, IH. by rewrite (proj2 (Z.eqb_neq u 0)) by lia.
Qed.
Lemma utf16String_utf16z s : text_ok s = true -> utf16String (utf16z s) = s.
Proof.
  intros Hs. apply andb_true_iff in Hs as [[Hb Hv]%andb_true_iff Hn]. unfold utf16String, utf16z. rewrite units_until_nul_all.
  - by apply utf16_round_trip.
  - apply utf16_Encode_units. pose proof (runes_scalar s Hb). pose proof (runes_no_nul s Hb Hn). apply Forall_and; done.
Qed.
Lemma trimNul_all s : no_nul s = true -> trimNul (s ++ [0]) = s.
Proof. induction s as [|c s IH]; [done|]. cbn. intros [Hc Hs]%andb_true_iff. apply negb_true_iff in Hc. by rewrite Hc, IH. Qed.
Lemma guid_round g : guid_ok g = true -> guidOf (guidBytes g) = g /\ len (guidBytes g) = 16.
Proof.
  intros Hg. split; [exact (FlatUID_GUID_Flat g Hg)|]. unfold guid_ok in Hg. rewrite !andb_true_iff in Hg. unfold guidBytes. rewrite !len_app, !len_le_bytes.
  destruct Hg as [[_ Hl] _]. apply Z.eqb_eq in Hl. lia.
Qed.
Lemma consumes_sized {A} (f : bytes -> tr A) v a :
  len v < 2 ^ 32 -> consumes (f v) [] a -> consumes (n <~ count 1; raw <~ tn_bytes n; _ <~ skipPad n; f raw) (e_variable v) a.
Proof.
  intros Hl Hf. pose proof (len_nonneg v). unfold e_variable. unfold u32. rewrite Z.mod_small by lia.
  apply (consumes_count 1 (len v) (fun n => raw <~ tn_bytes n; _ <~ skipPad n; f raw)); [lia|rewrite len_app; pose proof (len_nonneg (e_pad (len v))); lia|].
  eapply consumes_bind; [by apply consumes_bytes|]. rewrite <- (app_nil_r (e_pad _)). eapply consumes_bind; [apply consumes_pad|done].
Qed.
Definition name_ok (n : PropertyName) : bool :=
  guid_ok (pnGUID n) && inU 32 (pnLID n)
  && (if pnKind n =? MnidID then bool_decide (pnName n = []) else (pnKind n =? MnidString) && (pnLID n =? 0) && text_ok (pnName n)).
Lemma consumes_name n : name_ok n = true -> len (e_name n) < 2 ^ 32 -> consumes propName (e_name n) n.
Proof.
  unfold name_ok. rewrite !andb_true_iff. intros [[Hg Hl] Hk] Hlen. apply inU_spec in Hl. destruct (guid_round _ Hg) as [Eg Lg]. unfold propName, e_name in *. rewrite len_app in Hlen.
  eapply consumes_bind; [apply consumes_bytes; by rewrite Lg|]. rewrite Eg. destruct n as [k g lid nm]. cbn [pnKind pnGUID pnLID pnName] in *. destruct (k =? MnidID) eqn:Ek.
  - apply Z.eqb_eq in Ek. apply bool_decide_eq_true in Hk. subst. eapply consumes_bind; [by apply consumes_u32|]. change (0 =? 0) with true. cbv iota.
    apply (consumes_last _ (fun l => mkPropertyName MnidID g l [])). by apply consumes_u32.
  - rewrite !andb_true_iff in Hk. destruct Hk as [[Ek1 El] Ht]. apply Z.eqb_eq in Ek1, El. subst. rewrite len_app in Hlen.
    eapply consumes_bind; [by apply consumes_u32|]. change (1 =? 0) with false. change (1 =? 1) with true. cbv iota.
    apply (consumes_sized (fun raw => tr_ret (mkPropertyName MnidString g 0 (utf16String raw)))).
    + unfold e_variable in Hlen. rewrite !len_app, !len_le_bytes in Hlen. pose proof (len_nonneg (e_pad (len (utf16z nm)))). pose proof (len_nonneg (guidBytes g)). lia.
    + rewrite utf16String_utf16z by done. apply consumes_ret.
Qed.

(** ** Values *)

(** A value of a single-valued type *)
Definition scalar_ok (t : Z) (v : value) : bool :=
  match v with
  | V (AInt16 x) => (t =? PtShort) && inS 16 x
  | V (AInt32 x) => (t =? PtLong) && inS 32 x
  | V (AUint32 x) => (t =? PtError) && inU 32 x
  | V (AFloat32 x) => (t =? PtFloat) && inU 32 x
  | V (AFloat64 x) => ((t =? PtDouble) || (t =? PtAppTime)) && inU 64 x
  | V (AInt64 x) => ((t =? PtI8) || (t =? PtCurrency)) && inS 64 x
  | V (AUint64 x) => (t =? PtSysTime) && inU 64 x
  | V (ABool _) => t =? PtBoolean
  | V (AString s) => (t =? PtUnicode) && text_ok s
  | V (AGUID g) => (t =? PtCLSID) && guid_ok g
  | V (ABytes _) => t =? PtBinary
  | _ => false
  end.
Lemma consumes_padded {A} (f : bytes -> tr A) size v a :
  len v = size -> consumes (f v) [] a -> consumes (raw <~ tn_bytes size; _ <~ skipPad size; f raw) (v ++ e_pad (len v)) a.
Proof.
  intros <- Hf. eapply consumes_bind; [by apply consumes_bytes|]. rewrite <- (app_nil_r (e_pad _)). eapply consumes_bind; [apply consumes_pad|done].
Qed.
Lemma padded_len v : 2 <= len v -> 4 <= len (v ++ e_pad (len v)).
Proof.
  intros Hv. rewrite len_app, len_e_pad. unfold padding. destruct (Z.le_gt_cases 4 (len v)); [pose proof (padding_range (len v)) as Hp; unfold padding in Hp; lia|].
  assert (len v = 2 \/ len v = 3) as [-> | ->] by lia; by vm_compute.
Qed.
Definition min_size (t : Z) : Z := match fixedSize t with Some size => Z.max size 4 | None => 4 end.
Lemma min_size_4 t : 4 <= min_size t.
Proof. unfold min_size. destruct (fixedSize t); lia. Qed.
(** A fixed-width value *)
Lemma fixed_value d t v raw size :
  isVariable t = false -> (t =? PtNull) || (t =? PtUnspecified) = false -> fixedSize t = Some size -> valueBytes t v = Some raw -> len raw = size -> 2 <= size ->
  V (scalarValue t raw) = v ->
  exists b, e_value t v = Ok b /\ min_size t <= len b /\ (len b < 2 ^ 32 -> consumes (one_value d t) b v).
Proof.
  intros Hv Hn Hs Hb Hl Hs2 <-. unfold e_value, one_value, scalar, min_size. rewrite Hn, Hb, Hv, Hs. eexists. split; [done|]. split.
  - pose proof (padded_len raw ltac:(lia)) as Hp. rewrite len_app in Hp |- *. pose proof (len_nonneg (e_pad (len raw))). lia.
  - intros _. apply (consumes_padded (fun raw => tr_ret (V (scalarValue t raw)))); [done|]. apply consumes_ret.
Qed.
Lemma variable_value d t v raw a :
  isVariable t = true -> (t =? PtNull) || (t =? PtUnspecified) = false -> valueBytes t v = Some raw -> fixedSize t = None ->
  (len raw < 2 ^ 32 -> consumes (variable d t) (e_variable raw) a) -> a = v ->
  exists b, e_value t v = Ok b /\ min_size t <= len b /\ (len b < 2 ^ 32 -> consumes (one_value d t) b v).
Proof.
  intros Hv Hn Hb Hs Hc ->. unfold e_value, one_value, min_size. rewrite Hn, Hb, Hv, Hs. eexists. split; [done|]. unfold e_variable in *. rewrite !len_app, len_le_bytes, len_e_pad.
  pose proof (padding_range (len raw)). pose proof (len_nonneg raw). split; [lia|]. intros Hl. apply Hc. lia.
Qed.
Lemma signed_u w x : 0 < w -> inS w x = true -> signed w (x mod 2 ^ w) = x.
Proof. intros Hw. by apply signed_mod. Qed.
Lemma bytes_number (n : nat) w x : w = 8 * Z.of_nat n -> le_value (le_bytes n (x mod 2 ^ w)) = x mod 2 ^ w.
Proof. intros ->. apply le_value_le_bytes, Z.mod_pos_bound. lia. Qed.
(** The numbers of fixed width *)
Lemma number_value d t v (n : nat) x :
  isVariable t = false -> (t =? PtNull) || (t =? PtUnspecified) = false -> fixedSize t = Some (Z.of_nat n) -> valueBytes t v = Some (le_bytes n x) ->
  0 <= x < 2 ^ (8 * Z.of_nat n) -> (2 <= n)%nat -> (forall raw, le_value raw = x -> V (scalarValue t raw) = v) ->
  exists b, e_value t v = Ok b /\ min_size t <= len b /\ (len b < 2 ^ 32 -> consumes (one_value d t) b v).
Proof.
  intros Hv Hn Hs Hb Hx Hl Hsv. eapply (fixed_value d t v (le_bytes n x)); try done; [apply len_le_bytes|lia|]. apply Hsv. by apply le_value_le_bytes.
Qed.
Ltac number k x := first [eapply (number_value _ _ _ k (x : Z)); [done|done|done|done|first [apply Z.mod_pos_bound; lia|done]|lia|let raw := fresh "raw" in let E := fresh "E" in intros raw E; unfold scalarValue; cbv [Z.eqb Pos.eqb orb PtShort PtLong PtError PtFloat PtDouble PtAppTime PtCurrency PtI8 PtBoolean PtSysTime PtCLSID]; rewrite E; try done; unfold i32, i64, u16, u32, u64; rewrite ?Zmod_mod; by rewrite signed_mod]].
Lemma value_round d t v :
  scalar_ok t v = true -> exists b, e_value t v = Ok b /\ min_size t <= len b /\ (len b < 2 ^ 32 -> consumes (one_value d t) b v).
Proof.
  intros Hok. destruct v as [v|o]; [|done]. destruct v; try done; cbn [scalar_ok] in Hok;
    first [apply Z.eqb_eq in Hok; subst t|rewrite ?andb_true_iff, ?orb_true_iff in Hok; decompose [and or] Hok; clear Hok];
    repeat match goal with H : (t =? _) = true |- _ => apply Z.eqb_eq in H; subst t | H : inU _ _ = true |- _ => apply inU_spec in H end.
  - number 2%nat (u16 x).
  - number 4%nat (u32 x).
  - number 4%nat x.
  - number 8%nat (u64 x).
  - number 8%nat (u64 x).
  - number 8%nat x.
  - number 4%nat bits.
  - number 8%nat bits.
  - number 8%nat bits.
  - apply (fixed_value d PtBoolean (V (ABool b)) (boolBytes b) 2); try done; by destruct b.
  - apply (variable_value d PtUnicode (V (AString s)) (utf16z s) (V (AString (utf16String (utf16z s))))); try done; [|by rewrite utf16String_utf16z]. intros Hl.
    apply (consumes_sized (fun raw => tr_ret (V (AString (utf16String raw)))) (utf16z s)); [done|apply consumes_ret].
  - destruct (guid_round g ltac:(done)) as [Eg Lg]. apply (fixed_value d PtCLSID (V (AGUID g)) (guidBytes g) 16); try done.
    change (scalarValue PtCLSID (guidBytes g)) with (AGUID (guidOf (guidBytes g))). by rewrite Eg.
  - apply (variable_value d PtBinary (V (ABytes b)) b (V (ABytes b))); try done. intros Hl.
    apply (consumes_sized (fun raw => tr_ret (V (ABytes raw))) b); [done|apply consumes_ret].
Qed.

(** A list of values of one type *)
Definition slice_ok (base : Z) (v : value) : bool :=
  match v with
  | V (AInt16s l) => (base =? PtShort) && forallb (inS 16) l
  | V (AInt32s l) => (base =? PtLong) && forallb (inS 32) l
  | V (AFloat32s l) => (base =? PtFloat) && forallb (inU 32) l
  | V (AFloat64s l) => ((base =? PtDouble) || (base =? PtAppTime)) && forallb (inU 64) l
  | V (AInt64s l) => ((base =? PtI8) || (base =? PtCurrency)) && forallb (inS 64) l
  | V (AUint64s l) => (base =? PtSysTime) && forallb (inU 64) l
  | V (AGUIDs l) => (base =? PtCLSID) && forallb guid_ok l
  | V (AStrings l) => (base =? PtUnicode) && forallb text_ok l
  | V (ABytess _) => base =? PtBinary
  | _ => false
  end.
Lemma collect_spread {T} (f : any -> option T) (g : T -> any) l : (forall x, f (g x) = Some x) -> collect f (spread g l) = l.
Proof. intros Hf. unfold collect, spread. induction l as [|x l IH]; [done|]. cbn [map omap list_omap]. rewrite Hf. by rewrite <- IH at 2. Qed.
Lemma spread_ok {T} (g : T -> any) (P : T -> bool) t l : (forall x, P x = true -> scalar_ok t (V (g x)) = true) -> forallb P l = true -> forallb (scalar_ok t) (spread g l) = true.
Proof. intros Hg Hl. rewrite forallb_forall in *. intros v (x & <- & Hx)%in_map_iff. auto. Qed.
Lemma slice_round base v :
  slice_ok base v = true -> exists vals, sliceValues v = Some vals /\ forallb (scalar_ok base) vals = true /\ V (typedSlice base vals) = v.
Proof.
  intros Hok. destruct v as [v|o]; [|done]. destruct v; try done; cbn [slice_ok] in Hok;
    first [apply Z.eqb_eq in Hok; subst base|rewrite ?andb_true_iff, ?orb_true_iff in Hok; decompose [and or] Hok; clear Hok];
    repeat match goal with H : (base =? _) = true |- _ => apply Z.eqb_eq in H; subst base end; cbn [sliceValues]; eexists; (split; [done|]); split;
    try (eapply spread_ok; [|eassumption]; intros x Hx; cbn [scalar_ok]; by rewrite Hx);
    try (by unfold typedSlice; cbv [Z.eqb Pos.eqb orb PtShort PtLong PtError PtFloat PtDouble PtAppTime PtCurrency PtI8 PtBoolean PtSysTime PtCLSID PtString8 PtUnicode PtBinary]; rewrite collect_spread).
  eapply (spread_ok _ (fun _ => true)); [done|]. by apply forallb_forall.
Qed.

(** ** Properties *)

Definition prop_ok (p : TProp) : bool :=
  let typ := written_type (p_Tag p) in
  if is_object p then match p_Value p with VObject _ => true | V _ => false end
  else
    match p_Name p with Some n => (0x8000 <=? PropTag_ID (p_Tag p)) && name_ok n | None => PropTag_ID (p_Tag p) <? 0x8000 end
    && (if IsMultivalue typ then slice_ok (PropType_Base typ) (p_Value p)
        else if (typ =? PtNull) || (typ =? PtUnspecified) then match p_Value p with V ANil => true | _ => false end
        else scalar_ok typ (p_Value p)).
(** The property that is read back: an 8-bit string type has become a Unicode one *)
Definition carried_prop (p : TProp) : TProp := mkProp (MakeTag (PropTag_ID (p_Tag p)) (written_type (p_Tag p))) (p_Name p) (p_Value p).

Lemma base_single t : IsMultivalue t = false -> PropType_Base t = t.
Proof.
  unfold IsMultivalue, PropType_Base. intros H%negb_false_iff%Z.eqb_eq. apply Z.bits_inj'. intros n Hn. rewrite Z.ldiff_spec.
  assert (E : Z.testbit (Z.land t MvFlag) n = false) by (by rewrite H, Z.bits_0). rewrite Z.land_spec in E. by destruct (Z.testbit t n), (Z.testbit MvFlag n).
Qed.
Lemma land_mv t : Z.land t MvFlag = 0 \/ Z.land t MvFlag = MvFlag.
Proof.
  destruct (Z.testbit t 12) eqn:E; [right|left]; apply Z.bits_inj'; intros n Hn; rewrite Z.land_spec; change MvFlag with (2 ^ 12); rewrite ?Z.bits_0, Z.pow2_bits_eqb by lia;
    destruct (Z.eqb_spec 12 n) as [<-|]; rewrite ?E, ?andb_false_r; done.
Qed.
Lemma type_range tag : 0 <= written_type tag < 2 ^ 16.
Proof.
  unfold written_type. assert (H : 0 <= PropTag_Type tag < 2 ^ 16) by (unfold PropTag_Type; change 0xFFFF with (Z.ones 16); rewrite Z.land_ones by lia; apply Z.mod_pos_bound; lia).
  case_match; [|done]. destruct (land_mv (PropTag_Type tag)) as [-> | ->]; by vm_compute.
Qed.
Lemma id_range tag : 0 <= PropTag_ID tag < 2 ^ 16.
Proof. unfold PropTag_ID, u16. apply Z.mod_pos_bound. lia. Qed.
(** The body of a property *)
Definition e_body (typ : Z) (v : value) : result tn_error bytes :=
  if IsMultivalue typ then e_multiValue (PropType_Base typ) v
  else match e_value typ v with Err e => Err e | Ok b => Ok ((if isVariable typ then le_bytes 4 1 else []) ++ b) end.
Lemma scalar_type t v : scalar_ok t v = true -> (t =? PtNull) || (t =? PtUnspecified) = false.
Proof.
  destruct v as [v|]; [|done]. destruct v; try done; cbn [scalar_ok]; rewrite ?andb_true_iff, ?orb_true_iff; intros; unfold PtNull, PtUnspecified, PtShort, PtLong, PtError, PtFloat, PtDouble, PtAppTime, PtCurrency, PtI8, PtBoolean, PtSysTime, PtCLSID, PtUnicode, PtBinary in *; lia.
Qed.
Lemma multi_round d base v :
  slice_ok base v = true -> exists b, e_multiValue base v = Ok b /\ (len b < 2 ^ 32 -> consumes (multiValue d base) b v).
Proof.
  intros Hok. destruct (slice_round base v Hok) as (vals & Hs & Hv & Ht). unfold e_multiValue. rewrite Hs. rewrite forallb_forall in Hv.
  destruct (concat_results_ok (e_value base) vals) as [bs Hbs]; [intros a Ha; destruct (value_round d base a (Hv a Ha)) as (b & Hb & _); by exists b|].
  rewrite Hbs. eexists. split; [done|]. intros Hl. rewrite len_app, len_le_bytes in Hl.
  assert (Hn : len vals * min_size base <= len bs).
  { eapply concat_results_len; [done|]. intros a b Ha Hb. destruct (value_round d base a (Hv a Ha)) as (b' & Hb' & Hm & _). rewrite Hb in Hb'. by injection Hb' as <-. }
  pose proof (min_size_4 base). pose proof (len_nonneg vals). unfold u32. rewrite Z.mod_small by nia. unfold multiValue. fold (min_size base).
  rewrite <- Ht. apply (consumes_count (min_size base) (len vals) (fun n => vals <~ tr_times (Z.to_nat n) (one_value d base); tr_ret (V (typedSlice base vals)))); [nia|by rewrite Z.max_l by lia|].
  apply (consumes_last _ (fun vals => V (typedSlice base vals))). unfold len at 1. rewrite Nat2Z.id. rewrite <- (map_id vals) at 2.
  eapply (consumes_times _ (e_value base) id); [done|]. intros a b Ha Hb Hle. destruct (value_round d base a (Hv a Ha)) as (b' & Hb' & _ & Hc). rewrite Hb in Hb'. injection Hb' as <-. apply Hc. lia.
Qed.
Lemma body_round d typ v :
  (if IsMultivalue typ then slice_ok (PropType_Base typ) v
   else if (typ =? PtNull) || (typ =? PtUnspecified) then match v with V ANil => true | _ => false end else scalar_ok typ v) = true ->
  exists b, e_body typ v = Ok b /\ (len b < 2 ^ 32 -> consumes (tn_value d typ) b v).
Proof.
  unfold e_body, tn_value. destruct (IsMultivalue typ) eqn:Em; [apply multi_round|]. intros Hok. rewrite (base_single _ Em).
  destruct ((typ =? PtNull) || (typ =? PtUnspecified)) eqn:En.
  - destruct v as [[]|]; try done. unfold e_value. rewrite En. eexists. split; [done|]. intros _.
    assert (isVariable typ = false) as -> by (unfold isVariable, PtNull, PtUnspecified, PtString8, PtUnicode, PtBinary, PtObject in *; lia). apply consumes_ret.
  - destruct (value_round d typ v Hok) as (b & -> & Hm & Hc). eexists. split; [done|]. intros Hl. rewrite len_app in Hl. unfold one_value in Hc.
    pose proof (min_size_4 typ). pose proof (len_nonneg (if isVariable typ then le_bytes 4 1 else [])).
    destruct (isVariable typ); [|apply Hc; lia].
    apply (consumes_count 4 1 (fun n => if negb (n =? 1) then tr_err ErrCount else variable d typ)); [lia|lia|]. apply Hc. lia.
Qed.
Lemma e_prop_body p : (0x8000 <=? PropTag_ID (p_Tag p)) && bool_decide (p_Name p = None) = false ->
  e_prop p = match e_body (written_type (p_Tag p)) (p_Value p) with
             | Err e => Err e
             | Ok b => Ok ((le_bytes 2 (written_type (p_Tag p)) ++ le_bytes 2 (PropTag_ID (p_Tag p)) ++ match p_Name p with Some n => e_name n | None => [] end) ++ b)
             end.
Proof. unfold e_prop. intros ->. done. Qed.
Lemma prop_round d p :
  prop_ok p = true -> is_object p = false -> exists b, e_prop p = Ok b /\ 4 <= len b /\ (len b < 2 ^ 32 -> consumes (tn_prop d) b (carried_prop p)).
Proof.
  intros Hok Ho. unfold prop_ok in Hok. rewrite Ho in Hok. apply andb_true_iff in Hok as [Hn Hv]. destruct (body_round d _ _ Hv) as (b & Hb & Hc).
  assert (Hname : (0x8000 <=? PropTag_ID (p_Tag p)) && bool_decide (p_Name p = None) = false).
  { destruct (p_Name p); [by rewrite andb_false_r|]. apply Z.ltb_lt in Hn. by rewrite (proj2 (Z.leb_gt _ _)) by lia. }
  rewrite e_prop_body, Hb by done. eexists. split; [done|]. set (nm := match p_Name p with Some n => e_name n | None => [] end).
  rewrite !len_app, !len_le_bytes. pose proof (len_nonneg nm). pose proof (len_nonneg b). split; [lia|]. intros Hl. rewrite <- !app_assoc. unfold tn_prop, carried_prop.
  eapply consumes_bind; [apply consumes_u16, type_range|]. eapply consumes_bind; [apply consumes_u16, id_range|].
  eapply (consumes_bind _ _ nm b (p_Name p)).
  - unfold nm in *. destruct (p_Name p) as [n|].
    + apply andb_true_iff in Hn as [Hid Hn]. rewrite Hid. apply (consumes_last _ Some). apply consumes_name; [done|lia].
    + apply Z.ltb_lt in Hn. rewrite (proj2 (Z.leb_gt _ _)) by lia. apply consumes_ret.
  - apply (consumes_last _ (fun v => mkProp (MakeTag (PropTag_ID (p_Tag p)) (written_type (p_Tag p))) (p_Name p) v)). apply Hc. lia.
Qed.

(** ** What reading costs *)

(** A read that succeeds leaves at least [w a] bytes less; one that fails has an error of the sources. *)
Definition costs {A} (w : A -> Z) (m : tr A) : Prop :=
  forall r, match m r with Ok (a, r') => w a + len r' <= len r | Err e => e <> OutOfFuel end.
Lemma costs_ret {A} (w : A -> Z) a : w a <= 0 -> costs w (tr_ret a).
Proof. intros Hw r. cbn. lia. Qed.
Lemma costs_err {A} (w : A -> Z) e : e <> OutOfFuel -> costs w (tr_err (A := A) e).
Proof. by intros He r. Qed.
Lemma costs_bind {A B} (w1 : A -> Z) (w : B -> Z) m (k : A -> tr B) : costs w1 m -> (forall a, costs (fun b => w b - w1 a) (k a)) -> costs w (tr_bind m k).
Proof.
  intros Hm Hk r. unfold tr_bind. specialize (Hm r). destruct (m r) as [[a r1]|e]; [|done]. specialize (Hk a r1). destruct (k a r1) as [[b r2]|e]; [|done]. lia.
Qed.
Lemma costs_weaken {A} (w w' : A -> Z) m : costs w m -> (forall a, w' a <= w a) -> costs w' m.
Proof. intros Hm Hw r. specialize (Hm r). destruct (m r) as [[a r1]|e]; [|done]. specialize (Hw a). lia. Qed.
Lemma costs_bytes n : costs (fun s => len s) (tn_bytes n).
Proof.
  intros r. unfold tn_bytes. destruct ((n <? 0) || (remaining r <? n)) eqn:E; [done|]. apply orb_false_iff in E as [En Er]. apply Z.ltb_ge in En, Er. unfold remaining in Er.
  rewrite <- len_app, take_drop. lia.
Qed.
Lemma costs_exact n : costs (fun _ => n) (tn_bytes n).
Proof.
  intros r. unfold tn_bytes. destruct ((n <? 0) || (remaining r <? n)) eqn:E; [done|]. apply orb_false_iff in E as [En Er]. apply Z.ltb_ge in En, Er.
  unfold remaining, len in *. rewrite length_drop. lia.
Qed.
Lemma costs_number {A} n (f : bytes -> A) : costs (fun _ => n) (b <~ tn_bytes n; tr_ret (f b)).
Proof. eapply costs_bind; [apply costs_exact|]. intros b. apply costs_ret. lia. Qed.
Lemma costs_count k : costs (fun _ => 4) (count k).
Proof.
  unfold count. eapply costs_bind; [apply (costs_number 4)|]. intros n r. cbv beta. destruct (remaining r / Z.max k 1 <? n); [done|lia].
Qed.
Lemma costs_pad n : costs (fun _ => 0) (skipPad n).
Proof.
  unfold skipPad. case_match; [|by apply costs_ret]. eapply costs_bind; [apply costs_bytes|]. intros b. apply costs_ret. pose proof (len_nonneg b). lia.
Qed.
Definition sumZ {A} (w : A -> Z) (l : list A) : Z := foldr (fun a s => w a + s) 0 l.
Lemma sumZ_app {A} (w : A -> Z) l k : sumZ w (l ++ k) = sumZ w l + sumZ w k.
Proof. induction l as [|a l IH]; [done|]. cbn [app sumZ foldr] in *. unfold sumZ in *. lia. Qed.
Lemma costs_times {A} (w : A -> Z) n m : costs w m -> costs (sumZ w) (tr_times n m).
Proof.
  intros Hm. induction n as [|n IH]; cbn [tr_times]; [by apply costs_ret|]. eapply costs_bind; [exact Hm|]. intros a.
  eapply costs_bind; [exact IH|]. intros l. apply costs_ret. unfold sumZ. cbn [foldr]. lia.
Qed.
Lemma costs_if {A} (c : bool) (w : A -> Z) m m' : costs w m -> costs w m' -> costs w (if c then m else m').
Proof. by destruct c. Qed.

(** The values a property holds, beyond itself *)
Definition value_weight (v : value) : Z :=
  match v with
  | V (AInt16s l) | V (AInt32s l) | V (AFloat32s l) | V (AFloat64s l) | V (AInt64s l) | V (AUint64s l) => len l
  | V (AGUIDs l) => len l
  | V (AStrings l) | V (ABytess l) => len l
  | _ => 0
  end.
Definition prop_weight (p : TProp) : Z := 1 + value_weight (p_Value p).
Definition row_weight (ps : list TProp) : Z := 1 + sumZ prop_weight ps.
(** How many properties, values, recipients and attachments a message has *)
Definition weight (m : Message) : Z := sumZ prop_weight (m_Props m) + sumZ row_weight (m_Recipients m) + sumZ (fun a => row_weight (a_Props a)) (m_Attachments m).

Lemma costs_step {A B} c (w : B -> Z) (m : tr A) (k : A -> tr B) : costs (fun _ => c) m -> (forall a, costs (fun b => w b - c) (k a)) -> costs w (tr_bind m k).
Proof. apply (costs_bind (fun _ => c)). Qed.
Lemma costs_name : costs (fun _ => 0) propName.
Proof.
  unfold propName. eapply costs_step; [apply costs_exact|]. intros g. eapply costs_step; [apply (costs_number 4)|]. intros kind. apply costs_if; [|apply costs_if].
  - eapply costs_step; [apply (costs_number 4)|]. intros. apply costs_ret. lia.
  - eapply costs_step; [apply costs_count|]. intros n. eapply costs_bind; [apply costs_bytes|]. intros raw. eapply costs_step; [apply costs_pad|]. intros. apply costs_ret. pose proof (len_nonneg raw). lia.
  - by apply costs_err.
Qed.
Lemma fixed_sizes t size : fixedSize t = Some size -> 2 <= size.
Proof. unfold fixedSize. intros H. repeat case_match; simplify_eq; lia. Qed.
Lemma costs_scalar base : costs (fun _ => 1) (scalar base).
Proof.
  unfold scalar. destruct (fixedSize base) as [size|] eqn:E; [|by apply costs_err]. apply fixed_sizes in E. eapply costs_step; [apply costs_exact|]. intros raw.
  eapply costs_step; [apply costs_pad|]. intros. apply costs_ret. lia.
Qed.
Lemma costs_variable d base : costs (fun _ => 1) (variable d base).
Proof.
  unfold variable. eapply costs_step; [apply costs_count|]. intros n. eapply costs_bind; [apply costs_bytes|]. intros raw. pose proof (len_nonneg raw).
  eapply costs_step; [apply costs_pad|]. intros _. repeat apply costs_if; try (apply costs_ret; lia). by apply costs_err.
Qed.
Lemma costs_one d base : costs (fun _ => 1) (one_value d base).
Proof. unfold one_value. apply costs_if; [apply costs_variable|apply costs_scalar]. Qed.
Lemma collect_len {T} (f : any -> option T) vals : len (collect f vals) <= len vals.
Proof.
  unfold collect, len. induction vals as [|v vals IH]; [done|]. cbn [omap list_omap]. destruct (match v with V v => f v | VObject _ => None end); cbn [length] in *; lia.
Qed.
Lemma typedSlice_weight base vals : value_weight (V (typedSlice base vals)) <= len vals.
Proof. unfold typedSlice. repeat case_match; apply collect_len. Qed.
Lemma sumZ_one {A} (l : list A) : sumZ (fun _ => 1) l = len l.
Proof. induction l as [|a l IH]; [done|]. cbn [sumZ foldr]. unfold sumZ in IH. rewrite IH. unfold len. cbn [length]. lia. Qed.
Lemma costs_multi d base : costs value_weight (multiValue d base).
Proof.
  unfold multiValue. eapply costs_step; [apply costs_count|]. intros n. eapply costs_bind; [apply costs_times, costs_one|]. intros vals. apply costs_ret.
  pose proof (typedSlice_weight base vals). rewrite sumZ_one. lia.
Qed.
Lemma costs_value d t : costs value_weight (tn_value d t).
Proof.
  unfold tn_value. assert (Hone : forall m, costs (fun _ => 1) m -> (forall r a r', m r = Ok (a, r') -> value_weight a = 0) -> costs value_weight m).
  { intros m Hm Ha r. specialize (Hm r). specialize (Ha r). destruct (m r) as [[a r']|]; [|done]. rewrite (Ha a r' eq_refl). lia. }
  assert (Hv : costs value_weight (variable d (PropType_Base t))).
  { apply Hone; [apply costs_variable|]. intros r a r'. unfold variable, tr_bind, tr_ret, tr_err. intros H. repeat case_match; simplify_eq; done. }
  repeat apply costs_if; [apply costs_multi| |by apply costs_ret|].
  - eapply costs_step; [apply costs_count|]. intros n. apply costs_if; [by apply costs_err|]. eapply costs_weaken; [exact Hv|]. intros. lia.
  - apply Hone; [apply costs_scalar|]. intros r a r'. unfold scalar. destruct (fixedSize (PropType_Base t)); [|done]. unfold tr_bind, tr_ret. intros H.
    repeat case_match; simplify_eq. unfold scalarValue. repeat case_match; done.
Qed.
Lemma costs_prop d : costs prop_weight (tn_prop d).
Proof.
  unfold tn_prop. eapply costs_step; [apply (costs_number 2)|]. intros typ. eapply costs_step; [apply (costs_number 2)|]. intros id. eapply (costs_step 0).
  - apply costs_if; [|by apply costs_ret]. eapply costs_step; [apply costs_name|]. intros n. by apply costs_ret.
  - intros name. eapply costs_bind; [apply costs_value|]. intros v. apply costs_ret. unfold prop_weight. cbn [p_Value]. lia.
Qed.
Lemma costs_propList d : costs row_weight (propList d).
Proof.
  unfold propList. eapply costs_step; [apply costs_count|]. intros n. eapply costs_weaken; [apply costs_times, costs_prop|]. intros l. unfold row_weight. lia.
Qed.
Lemma costs_recipTable d : costs (sumZ row_weight) (recipTable d).
Proof. unfold recipTable. eapply costs_step; [apply costs_count|]. intros n. eapply costs_weaken; [apply costs_times, costs_propList|]. intros l. cbv beta. lia. Qed.
Lemma costs_readAttribute : costs (fun a => 11 + len a.2) readAttribute.
Proof.
  unfold readAttribute. eapply costs_step; [apply (costs_number 1)|]. intros level. eapply costs_step; [apply (costs_number 4)|]. intros id. eapply costs_step; [apply costs_count|]. intros n.
  eapply costs_bind; [apply costs_bytes|]. intros data. eapply costs_step; [apply (costs_number 2)|]. intros sum. apply costs_if; [by apply costs_err|]. apply costs_ret. cbn [snd]. lia.
Qed.
Lemma run_costs {A} (w : A -> Z) m data : costs w m -> match run m data with Ok a => w a <= len data | Err e => e <> OutOfFuel end.
Proof. intros Hm. specialize (Hm data). unfold run. destruct (m data) as [[a r]|e]; [|done]. pose proof (len_nonneg r). lia. Qed.
(** An attribute of a message adds no more to it than its own size. *)
Lemma plain_prop d id data p : legacyMessageProp d id data = Some p -> prop_weight p = 1.
Proof. unfold legacyMessageProp, dateProp, text_prop. destruct (hex_decode _); cbn [fmap option_fmap option_map]; intros; repeat case_match; simplify_eq; done. Qed.
Lemma message_attribute_weight d id data m :
  match messageAttribute d id data m with Ok (_, m') => weight m' <= weight m + len data + 11 | Err e => e <> OutOfFuel end.
Proof.
  unfold messageAttribute. pose proof (len_nonneg data). destruct (id =? attTnefVersion); [destruct (_ || _); [done|lia]|]. destruct (id =? attOemCodepage); [lia|].
  destruct (id =? attMsgProps).
  { pose proof (run_costs _ _ data (costs_propList d)) as Hr. destruct (run (propList d) data) as [ps|]; [|done]. unfold weight, m_add_props, row_weight in *.
    cbn [m_Props m_Recipients m_Attachments]. rewrite sumZ_app. lia. }
  destruct (id =? attRecipTable).
  { pose proof (run_costs _ _ data (costs_recipTable d)) as Hr. destruct (run (recipTable d) data) as [rs|]; [|done]. unfold weight, m_add_recipients.
    cbn [m_Props m_Recipients m_Attachments]. rewrite sumZ_app. lia. }
  destruct (legacyMessageProp d id data) as [p|] eqn:E; [|lia]. apply plain_prop in E. unfold weight, m_add_props. cbn [m_Props m_Recipients m_Attachments]. rewrite sumZ_app.
  unfold sumZ at 2. cbn [foldr]. lia.
Qed.
Lemma add_to_last_weight ps l : sumZ (fun a => row_weight (a_Props a)) (add_to_last ps l) <= sumZ (fun a => row_weight (a_Props a)) l + Z.max 0 (sumZ prop_weight ps).
Proof.
  induction l as [|a l IH]; [cbn; lia|]. destruct l as [|b l]; [unfold row_weight, sumZ; cbn [add_to_last foldr a_Props]; fold (sumZ prop_weight (a_Props a ++ ps)) (sumZ prop_weight (a_Props a)) (sumZ prop_weight ps); rewrite sumZ_app; lia|].
  change (add_to_last ps (a :: b :: l)) with (a :: add_to_last ps (b :: l)). unfold sumZ at 1 2. cbn [foldr]. unfold sumZ in IH at 1 2. cbn [foldr] in IH. lia.
Qed.
Lemma rend_weight data : sumZ prop_weight (rendDataProps data) <= 3.
Proof. unfold rendDataProps. repeat case_match; cbn [app]; unfold sumZ; cbn [foldr]; unfold prop_weight; cbn [p_Value value_weight]; lia. Qed.
Lemma attachment_attribute_weight d id data m :
  match attachmentAttribute d id data m with Ok m' => weight m' <= weight m + len data + 11 | Err e => e <> OutOfFuel end.
Proof.
  unfold attachmentAttribute. pose proof (len_nonneg data). cbv zeta.
  assert (Hadd : forall ps, sumZ prop_weight ps <= len data + 11 -> weight (m_set_attachments (add_to_last ps (m_Attachments m)) m) <= weight m + len data + 11).
  { intros ps Hps. unfold weight, m_set_attachments. cbn [m_Props m_Recipients m_Attachments]. pose proof (add_to_last_weight ps (m_Attachments m)). lia. }
  assert (Hone : forall p, prop_weight p = 1 -> sumZ prop_weight [p] <= len data + 11) by (intros p Hp; unfold sumZ; cbn [foldr]; lia).
  destruct (id =? attAttachRendData).
  { unfold weight, m_set_attachments. cbn [m_Props m_Recipients m_Attachments]. rewrite sumZ_app. unfold sumZ at 4. cbn [foldr a_Props]. unfold row_weight at 3. pose proof (rend_weight data). lia. }
  destruct (bool_decide _); [done|]. destruct (id =? attAttachData); [by apply Hadd, Hone|]. destruct (id =? attAttachTitle); [by apply Hadd, Hone|].
  destruct (id =? attAttachTransportFilename); [by apply Hadd, Hone|]. destruct (id =? attAttachment).
  { pose proof (run_costs _ _ data (costs_propList d)) as Hr. destruct (run (propList d) data) as [ps|]; [|done]. apply Hadd. unfold row_weight in Hr. lia. }
  destruct (dateProp id data attachmentDates) as [p|] eqn:E; [|lia]. apply Hadd, Hone. unfold dateProp in E. repeat case_match; simplify_eq; done.
Qed.
Lemma attribute_costs d m : costs (fun a => weight a.2 - weight m) (attribute d m).
Proof.
  unfold attribute. eapply costs_bind; [apply costs_readAttribute|]. intros [[level id] data] r. cbn [snd].
  pose proof (message_attribute_weight d id data m) as Hm. pose proof (attachment_attribute_weight d id data m) as Ha.
  destruct (level =? levelMessage); [destruct (messageAttribute d id data m) as [[d' m']|]; cbn [snd]; [lia|done]|].
  destruct (level =? levelAttachment); [destruct (attachmentAttribute d id data m); cbn [snd]; [lia|done]|done].
Qed.
Lemma attribute_shrinks d m r a r' : attribute d m r = Ok (a, r') -> (length r' < length r)%nat.
Proof.
  unfold attribute, tr_bind. pose proof (costs_readAttribute r) as Hc. destruct (readAttribute r) as [[[[level id] data] r1]|]; [|done]. cbn [snd] in Hc. pose proof (len_nonneg data).
  intros Ha. assert (r1 = r') as -> by (repeat case_match; simplify_eq; done). unfold len in *. lia.
Qed.
(** The loop over the attributes ends within the length of the stream. *)
Lemma attributes_weight fuel d m saw r :
  (length r <= fuel)%nat -> match attributes fuel d m saw r with Ok (m', _) => weight m' <= weight m + len r | Err e => e <> OutOfFuel end.
Proof.
  revert d m saw r. induction fuel as [|fuel IH]; intros d m saw r Hf; cbn [attributes].
  - destruct r; [|cbn in Hf; lia]. change (remaining [] <=? 0) with true. cbv iota. pose proof (len_nonneg (@nil Z)). lia.
  - pose proof (len_nonneg r). destruct (remaining r <=? 0); [lia|]. pose proof (attribute_costs d m r) as Hc. destruct (attribute d m r) as [[[[id d'] m'] r']|] eqn:E; [|done].
    apply attribute_shrinks in E. specialize (IH d' m' (saw || (id =? attTnefVersion)) r' ltac:(lia)). destruct (attributes fuel d' m' _ r') as [[m2 s2]|]; [|done]. cbn [snd] in Hc. lia.
Qed.
Lemma attributes_fuel f1 f2 d m saw r : (length r <= f1)%nat -> (length r <= f2)%nat -> attributes f1 d m saw r = attributes f2 d m saw r.
Proof.
  revert f2 d m saw r. induction f1 as [|f1 IH]; intros f2 d m saw r H1 H2.
  - destruct r; [|cbn in H1; lia]. by destruct f2.
  - destruct f2 as [|f2]; [destruct r; [done|cbn in H2; lia]|]. cbn [attributes]. destruct (remaining r <=? 0); [done|].
    destruct (attribute d m r) as [[[[id d'] m'] r']|] eqn:E; [|done]. apply attribute_shrinks in E. apply IH; lia.
Qed.

(** C34. Reading any bytes ends: with a message that has no more properties, values, recipients and
    attachments than the stream has bytes, or with an error. *)
Theorem tnef_read_bounded data decodeANSI :
  (exists m, Decode data decodeANSI = Ok m /\ weight m <= len data) \/ (exists e, Decode data decodeANSI = Err e /\ e <> OutOfFuel).
Proof.
  unfold Decode, decodeAt. change (maxDepth <? 0) with false. cbv iota. unfold stream.
  assert (Hc : costs (fun _ => 6) (sig <~ tn_u32; if negb (sig =? signature) then tr_err ErrNotTNEF else _ <~ tn_u16; tr_ret tt)).
  { eapply costs_step; [apply (costs_number 4)|]. intros sig. apply costs_if; [by apply costs_err|]. eapply costs_step; [apply (costs_number 2)|]. intros _. apply costs_ret. lia. }
  specialize (Hc data). destruct (tr_bind tn_u32 _ data) as [[u r]|e]; [|right; by exists e].
  pose proof (attributes_weight (length r) (mkDecoder 0 decodeANSI 0) no_message false r (Nat.le_refl _)) as Hw.
  destruct (attributes (length r) _ no_message false r) as [[m saw]|e]; [|right; by exists e]. destruct saw; [left|right; by exists ErrNoVersion].
  exists m. split; [done|]. change (weight no_message) with 0 in Hw. lia.
Qed.

(** ** The stream *)

Definition kept (ps : list TProp) : list TProp := List.filter (fun p => negb (is_object p)) ps.
Lemma list_round d ps :
  forallb prop_ok ps = true -> exists b, encodePropList ps = Ok b /\ (len b < 2 ^ 32 -> consumes (propList d) b (map carried_prop (kept ps))).
Proof.
  intros Hps. rewrite forallb_forall in Hps. unfold encodePropList. fold (kept ps).
  assert (Hk : forall p, In p (kept ps) -> exists b, e_prop p = Ok b /\ 4 <= len b /\ (len b < 2 ^ 32 -> consumes (tn_prop d) b (carried_prop p))).
  { intros p [Hin Ho]%filter_In. apply prop_round; [by apply Hps|by apply negb_true_iff]. }
  destruct (concat_results_ok e_prop (kept ps)) as [bs Hbs]; [intros p Hp; destruct (Hk p Hp) as (b & Hb & _); by exists b|]. rewrite Hbs. eexists. split; [done|].
  rewrite len_app, len_le_bytes. intros Hl. pose proof (len_nonneg (kept ps)).
  assert (Hn : len (kept ps) * 4 <= len bs).
  { eapply concat_results_len; [done|]. intros p b Hp Hb. destruct (Hk p Hp) as (b' & Hb' & H4 & _). rewrite Hb in Hb'. by injection Hb' as <-. }
  unfold u32. rewrite Z.mod_small by lia. apply (consumes_count 4 (len (kept ps)) (fun n => tr_times (Z.to_nat n) (tn_prop d))); [lia|lia|]. unfold len at 1. rewrite Nat2Z.id.
  eapply consumes_times; [done|]. intros p b Hp Hb Hle. destruct (Hk p Hp) as (b' & Hb' & _ & Hc). rewrite Hb in Hb'. injection Hb' as <-. apply Hc. lia.
Qed.
Lemma checksum_range data : 0 <= checksum data < 2 ^ 16.
Proof.
  unfold checksum. enough (H : forall s, 0 <= s < 2 ^ 16 -> 0 <= foldl (fun s c => u16 (s + c)) s data < 2 ^ 16) by (by apply H).
  induction data as [|c data IH]; intros s Hs; [done|]. cbn [foldl]. apply IH. unfold u16. apply Z.mod_pos_bound. lia.
Qed.
Lemma len_attribute level id data : len (e_attribute level id data) = len data + 11.
Proof. unfold e_attribute. rewrite !len_app, !len_le_bytes. change (len [level]) with 1. lia. Qed.
Lemma consumes_attribute level id data : 0 <= id < 2 ^ 32 -> len data < 2 ^ 32 -> consumes readAttribute (e_attribute level id data) (level, id, data).
Proof.
  intros Hid Hl. pose proof (len_nonneg data). unfold readAttribute, e_attribute. unfold u32. rewrite Z.mod_small by lia.
  eapply consumes_bind; [by apply (consumes_last (tn_bytes 1) (fun b => nth 0 b 0) [level]), consumes_bytes|]. eapply consumes_bind; [by apply consumes_u32|].
  apply (consumes_count 1 (len data) (fun n => data <~ tn_bytes n; sum <~ tn_u16;
    if negb (id =? attMessageClass) && negb (id =? attOriginalMessageClass) && negb (sum =? checksum data) then tr_err ErrChecksum else tr_ret (level, id, data)));
    [lia|rewrite len_app, len_le_bytes; lia|].
  eapply consumes_bind; [by apply consumes_bytes|]. rewrite <- (app_nil_r (le_bytes 2 _)). eapply consumes_bind; [apply consumes_u16, checksum_range|].
  rewrite Z.eqb_refl. cbn [negb]. rewrite andb_false_r. apply consumes_ret.
Qed.
(** The attributes of a stream from a state on *)
Definition from (d : decoder) (m : Message) (saw : bool) (r : bytes) : result tn_error (Message * bool) := attributes (length r) d m saw r.
Lemma from_attribute d m saw level id data rest :
  0 <= id < 2 ^ 32 -> len data < 2 ^ 32 ->
  from d m saw (e_attribute level id data ++ rest)
  = match (if level =? levelMessage then messageAttribute d id data m
           else if level =? levelAttachment then match attachmentAttribute d id data m with Err e => Err e | Ok m => Ok (d, m) end else Err ErrLevel) with
    | Err e => Err e
    | Ok (d', m') => from d' m' (saw || (id =? attTnefVersion)) rest
    end.
Proof.
  intros Hid Hl. unfold from. set (r := e_attribute level id data ++ rest). assert (Hr : length r = S (length (le_bytes 4 id ++ le_bytes 4 (u32 (len data)) ++ data ++ le_bytes 2 (checksum data)) + length rest))
    by (unfold r, e_attribute; rewrite length_app; done).
  rewrite Hr. cbn [attributes]. assert (E : (remaining r <=? 0) = false) by (apply Z.leb_gt; unfold remaining, len; lia). rewrite E.
  unfold attribute, tr_bind. unfold r. rewrite (consumes_attribute level id data Hid Hl rest).
  destruct (level =? levelMessage); [destruct (messageAttribute d id data m) as [[d' m']|]; [|done]; apply attributes_fuel; lia|].
  destruct (level =? levelAttachment); [|done]. destruct (attachmentAttribute d id data m) as [m'|]; [|done]. apply attributes_fuel; lia.
Qed.
Definition message_ok (m : Message) : bool := forallb prop_ok (m_Props m) && forallb (fun a => forallb prop_ok (a_Props a)) (m_Attachments m).
(** The decoder after the code page of a written stream *)
Definition utf8_decoder (decodeANSI : option ANSIDecoder) : decoder := mkDecoder 65001 decodeANSI 0.
Definition class_prop (decodeANSI : option ANSIDecoder) (class : bytes) : TProp :=
  mkProp tagMessageClass None (V (AString (messageClass (ansi (utf8_decoder decodeANSI) class)))).
Definition carried_attachment (a : Attachment) : Attachment :=
  mkAttachment (mkProp tagRenderingPosition None (V (AInt32 (-1))) :: map carried_prop (kept (a_Props a))).
(** The message a stream carries: the class as an attribute of its own, every property but the
    objects, and the attachments, without a rendering position; no recipients *)
Definition carried (decodeANSI : option ANSIDecoder) (m : Message) : Message :=
  mkMessage (map (class_prop decodeANSI) (omap class_of (m_Props m)) ++ map carried_prop (kept (m_Props m))) [] (map carried_attachment (m_Attachments m)).

Lemma class_no_nul p s : prop_ok p = true -> class_of p = Some s -> no_nul s = true.
Proof.
  unfold prop_ok, class_of. destruct (p_Value p) as [v|o]; [|done]. destruct v; try done. destruct (is_object p); [done|]. intros [_ Hv]%andb_true_iff Hc.
  destruct (PropTag_ID (p_Tag p) =? _); [|done]. injection Hc as <-. destruct (IsMultivalue _); [done|]. destruct (_ || _); [done|]. cbn [scalar_ok] in Hv.
  apply andb_true_iff in Hv as [_ Hv]. by apply andb_true_iff in Hv as [_ Hv].
Qed.
Definition class_bytes (classes : list bytes) : bytes := concat (map (fun class => e_attribute levelMessage attMessageClass (class ++ [0])) classes).
Lemma from_classes dec classes m saw rest :
  Forall (fun c => no_nul c = true) classes -> len (class_bytes classes) < 2 ^ 32 ->
  from (utf8_decoder dec) m saw (class_bytes classes ++ rest) = from (utf8_decoder dec) (m_add_props (map (class_prop dec) classes) m) saw rest.
Proof.
  intros Hc. revert m. induction Hc as [|c classes Hn _ IH]; intros m Hl.
  - unfold m_add_props. cbn [map]. rewrite app_nil_r. by destruct m.
  - unfold class_bytes in *. cbn [map concat] in *. rewrite len_app in Hl. pose proof (len_nonneg (concat (map (fun class => e_attribute levelMessage attMessageClass (class ++ [0])) classes))).
    assert (Hlc : len (c ++ [0]) < 2 ^ 32) by (pose proof (len_attribute levelMessage attMessageClass (c ++ [0])); lia).
    pose proof (len_nonneg (e_attribute levelMessage attMessageClass (c ++ [0]))). rewrite <- app_assoc, from_attribute by done. change (levelMessage =? levelMessage) with true. cbv iota.
    unfold messageAttribute. change (attMessageClass =? attTnefVersion) with false. change (attMessageClass =? attOemCodepage) with false. change (attMessageClass =? attMsgProps) with false.
    change (attMessageClass =? attRecipTable) with false. cbv iota. unfold legacyMessageProp. change (attMessageClass =? attMessageClass) with true. cbv iota.
    rewrite trimNul_all by done. rewrite orb_false_r, IH by lia. f_equal. unfold m_add_props. cbn [m_Props m_Recipients m_Attachments]. by rewrite <- app_assoc.
Qed.
Lemma add_to_last_app ps l a : add_to_last ps (l ++ [a]) = l ++ [mkAttachment (a_Props a ++ ps)].
Proof. induction l as [|b l IH]; [done|]. cbn [app]. rewrite <- IH. by destruct l. Qed.
Lemma rend_file : rendDataProps fileRendData = [mkProp tagRenderingPosition None (V (AInt32 (-1)))].
Proof. vm_compute. done. Qed.
Lemma from_attachment d a b m saw rest :
  forallb prop_ok (a_Props a) = true -> e_attachment a = Ok b -> len b < 2 ^ 32 ->
  from d m saw (b ++ rest) = from d (m_set_attachments (m_Attachments m ++ [carried_attachment a]) m) saw rest.
Proof.
  intros Ha Hb Hl. unfold e_attachment in Hb. destruct (list_round d (a_Props a) Ha) as (l & El & Hc). rewrite El in Hb.
  assert (b = e_attribute levelAttachment attAttachRendData fileRendData ++ e_attribute levelAttachment attAttachment l) as -> by congruence. clear Hb.
  assert (Hll : len l < 2 ^ 32) by (rewrite len_app in Hl; pose proof (len_attribute levelAttachment attAttachment l); pose proof (len_nonneg (e_attribute levelAttachment attAttachRendData fileRendData)); lia).
  rewrite <- app_assoc, from_attribute by done. change (levelAttachment =? levelMessage) with false. change (levelAttachment =? levelAttachment) with true. cbv iota.
  unfold attachmentAttribute at 1. change (attAttachRendData =? attAttachRendData) with true. cbv iota zeta. rewrite rend_file, orb_false_r.
  rewrite from_attribute by done. change (levelAttachment =? levelMessage) with false. change (levelAttachment =? levelAttachment) with true. cbv iota.
  unfold attachmentAttribute. change (attAttachment =? attAttachRendData) with false. cbv iota zeta. cbn [m_set_attachments m_Attachments].
  rewrite bool_decide_eq_false_2 by (by destruct (m_Attachments m)). change (attAttachment =? attAttachData) with false. change (attAttachment =? attAttachTitle) with false.
  change (attAttachment =? attAttachTransportFilename) with false. change (attAttachment =? attAttachment) with true. cbv iota.
  unfold run. specialize (Hc Hll []). rewrite app_nil_r in Hc. rewrite Hc, add_to_last_app, orb_false_r. done.
Qed.
Lemma from_attachments d l bs m saw :
  forallb (fun a => forallb prop_ok (a_Props a)) l = true -> concat_results e_attachment l = Ok bs -> len bs < 2 ^ 32 ->
  from d m saw bs = Ok (m_set_attachments (m_Attachments m ++ map carried_attachment l) m, saw).
Proof.
  revert bs m. induction l as [|a l IH]; intros bs m Hl He Hb; cbn [concat_results forallb] in *.
  - injection He as <-. cbn [map]. rewrite app_nil_r. unfold m_set_attachments. by destruct m.
  - apply andb_true_iff in Hl as [Ha Hl]. destruct (e_attachment a) as [b|] eqn:Eb; [|done]. destruct (concat_results e_attachment l) as [bs'|] eqn:El; [|done]. injection He as <-.
    rewrite len_app in Hb. pose proof (len_nonneg b). pose proof (len_nonneg bs'). rewrite (from_attachment d a b) by (done || lia). rewrite (IH bs') by (done || lia).
    unfold m_set_attachments. cbn [m_Props m_Recipients m_Attachments map]. by rewrite <- app_assoc.
Qed.

(** C33. A stream written from a message is read back as the message it carries: every property with its
    name and value, strings as Unicode, in their order, and every attachment. *)
Theorem tnef_round_trip m decodeANSI :
  message_ok m = true -> exists bs, Encode m = Ok bs /\ (len bs < 2 ^ 32 -> Decode bs decodeANSI = Ok (carried decodeANSI m)).
Proof.
  intros [Hps Has]%andb_true_iff. unfold Encode. destruct (list_round (utf8_decoder decodeANSI) (m_Props m) Hps) as (pl & -> & Hpl).
  destruct (concat_results_ok e_attachment (m_Attachments m)) as [atts Hatts].
  { intros a Ha. rewrite forallb_forall in Has. destruct (list_round (utf8_decoder decodeANSI) (a_Props a) (Has a Ha)) as (l & El & _). unfold e_attachment. rewrite El. by eexists. }
  rewrite Hatts. eexists. split; [done|]. set (classes := omap class_of (m_Props m)). fold (class_bytes classes). intros Hl. rewrite <- !app_assoc in *.
  assert (Hclasses : Forall (fun c => no_nul c = true) classes).
  { apply List.Forall_forall. intros c Hc. unfold classes in Hc. apply list_elem_of_In, list_elem_of_omap in Hc as (p & Hp & Ec). apply list_elem_of_In in Hp. rewrite forallb_forall in Hps. by apply (class_no_nul p); [apply Hps|]. }
  assert (Hlens : len (class_bytes classes) < 2 ^ 32 /\ len pl < 2 ^ 32 /\ len atts < 2 ^ 32).
  { rewrite !len_app in Hl. pose proof (len_attribute levelMessage attMsgProps pl).
    repeat match type of Hl with context [len ?x] => lazymatch goal with H : 0 <= len x |- _ => fail | _ => pose proof (len_nonneg x) end end. lia. }
  destruct Hlens as (L1 & L2 & L3).
  unfold Decode, decodeAt. change (maxDepth <? 0) with false. cbv iota. unfold stream, tr_bind. rewrite (consumes_u32 signature) by done.
  rewrite Z.eqb_refl. cbn [negb]. rewrite (consumes_u16 0) by done. cbn [tr_ret].
  match goal with |- context [attributes (length ?r) ?d ?m ?s ?r] => change (attributes (length r) d m s r) with (from d m s r) end.
  rewrite from_attribute by done. change (levelMessage =? levelMessage) with true. cbv iota. change (messageAttribute _ attTnefVersion _ _) with (@Ok tn_error _ (mkDecoder 0 decodeANSI 0, no_message)). cbv iota.
  rewrite from_attribute by done. change (levelMessage =? levelMessage) with true. cbv iota. change (messageAttribute _ attOemCodepage _ _) with (@Ok tn_error _ (utf8_decoder decodeANSI, no_message)). cbv iota.
  rewrite from_classes by done. rewrite from_attribute by done. change (levelMessage =? levelMessage) with true. cbv iota.
  unfold messageAttribute. change (attMsgProps =? attTnefVersion) with false. change (attMsgProps =? attOemCodepage) with false. change (attMsgProps =? attMsgProps) with true. cbv iota.
  unfold run. specialize (Hpl L2 []). rewrite app_nil_r in Hpl. rewrite Hpl. rewrite (from_attachments _ (m_Attachments m)) by done. done.
Qed.
Lemma tnef_round_trip_witness : exists bs, Encode a_note = Ok bs /\ (len bs < 2 ^ 32 -> Decode bs None = Ok (carried None a_note)).
Proof. apply (tnef_round_trip a_note None). vm_compute. reflexivity. Defined.
