(* ===== verification/Pop3.v ===== *)
(** * The POP3 server ([internal/pop3])

    One connection: its reader, writer and login state, and what it shares with the rest of
    the process, the mailbox store, the login throttle and the line limit.  The store and the
    directory are interfaces; the throttle and the line reader are the models of their own
    packages.  Activity logging is left out: no reply and no state depends on it. *)

From stdpp Require Import base list numbers.
From Stdlib Require Import ZArith Lia.
From Stdlib Require String.
Import String.StringSyntax.
From S2P Require Import Prelude Gostr Netline Limitbase Authlimit.
Open Scope Z_scope.

(** ** What the server asks of the store *)

(** The columns of a listed message that POP3 reads *)
Record MessageInfo := mkInfo { mi_UID : Z; mi_Size : Z }.

(** [Open], [ListMessages], [GetMessageRaw] and [SoftDeleteMessage] of [objectstore.Store], for
    the store of a path; a deletion answers whether it succeeded. *)
Class MailStore (W : Type) := {
  store_Open : W -> bytes -> bool;
  ListMessages : W -> bytes -> Z -> option (list MessageInfo);
  GetMessageRaw : W -> bytes -> Z -> Z -> option bytes;
  SoftDeleteMessage : W -> bytes -> Z -> Z -> W * bool }.

Definition PrivateFIDInbox : Z := 0x0d.
Definition defaultMaxCommandLine : Z := 8192.

(** ** The response writer *)

(** Bytes buffered, bytes on the wire, the recorded error, and how many more flushes the link
    takes ([None]: it does not fail).  A full buffer is also written out early; whether the
    link failed is decided at the flush that ends each reply. *)
Record ew := mkEw { ew_buf : bytes; ew_sent : bytes; ew_err : bool; ew_credit : option nat }.
Definition new_ew (sent : bytes) (credit : option nat) : ew := mkEw [] sent false credit.

Definition w_str (w : ew) (s : bytes) : ew :=
  if ew_err w then w else mkEw (ew_buf w ++ s) (ew_sent w) false (ew_credit w).

Definition w_flush (w : ew) : ew :=
  if ew_err w then w
  else match ew_buf w, ew_credit w with
       | [], _ => w
       | b, None => mkEw [] (ew_sent w ++ b) false None
       | b, Some (S n) => mkEw [] (ew_sent w ++ b) false (Some n)
       | b, Some O => mkEw b (ew_sent w) true (Some O)
       end.

(** Lines, one write each *)
Definition w_lines (w : ew) (ls : list bytes) : ew := fold_left (fun w l => w_str w (l ++ crlf)) ls w.

Definition ok (w : ew) (msg : bytes) : ew :=
  w_flush (w_str w (match msg with [] => lit "+OK" ++ crlf | _ => lit "+OK " ++ msg ++ crlf end)).
Definition errLine (w : ew) (msg : bytes) : ew := w_flush (w_str w (lit "-ERR " ++ msg ++ crlf)).

(** ** The mailbox snapshot *)

Record mailbox := mkMailbox {
  mb_path : bytes; mb_folder : Z; mb_msgs : list MessageInfo; mb_deleted : list bool }.

Definition set_deleted (mb : mailbox) (d : list bool) : mailbox :=
  mkMailbox (mb_path mb) (mb_folder mb) (mb_msgs mb) d.
(** [mb.deleted[i]] *)
Definition is_deleted (mb : mailbox) (i : nat) : bool := nth i (mb_deleted mb) false.

Definition reset (mb : mailbox) : mailbox := set_deleted mb (map (fun _ => false) (mb_deleted mb)).

(** The messages not marked, with their indices *)
Definition live_from (mb : mailbox) (i : nat) (msgs : list MessageInfo) : list (nat * MessageInfo) :=
  filter (fun p => is_deleted mb p.1 = false) (zip (seq i (length msgs)) msgs).
Definition live_msgs (mb : mailbox) : list (nat * MessageInfo) := live_from mb 0 (mb_msgs mb).

Definition count (mb : mailbox) : Z := len (live_msgs mb).
Definition totalSize (mb : mailbox) : Z := foldr (fun p t => mi_Size p.2 + t) 0 (live_msgs mb).

Definition index (mb : mailbox) (arg : bytes) : option Z :=
  match Atoi (TrimSpace arg) with
  | None => None
  | Some n => if (n <? 1) || (len (mb_msgs mb) <? n) || is_deleted mb (Z.to_nat (n - 1)) then None else Some n
  end.
(** [mb.msgs[n-1]] *)
Definition msg_at (mb : mailbox) (n : Z) : MessageInfo := nth (Z.to_nat (n - 1)) (mb_msgs mb) (mkInfo 0 0).

Definition list_field (uidl : bool) (m : MessageInfo) : Z := if uidl then mi_UID m else mi_Size m.
Definition list_line (uidl : bool) (p : nat * MessageInfo) : bytes :=
  dec (Z.of_nat p.1 + 1) ++ lit " " ++ dec (list_field uidl p.2) ++ crlf.

Definition mb_list (mb : mailbox) (w : ew) (arg : bytes) (uidl : bool) : ew :=
  match TrimSpace arg with
  | _ :: _ =>
      match index mb arg with
      | None => errLine w (lit "no such message")
      | Some n => ok w (dec n ++ lit " " ++ dec (list_field uidl (msg_at mb n)))
      end
  | [] =>
      let w := ok w (dec (count mb) ++ lit " messages") in
      let w := fold_left (fun w p => w_str w (list_line uidl p)) (live_msgs mb) w in
      w_flush (w_str w (lit "." ++ crlf))
  end.

(** A dot at the start of a line is doubled. *)
Fixpoint stuff (atLineStart : bool) (data : bytes) : bytes :=
  match data with
  | [] => []
  | b :: data => (if atLineStart && (b =? 46) then [46; b] else [b]) ++ stuff (b =? LF) data
  end.
Definition dot_stuffed (data : bytes) : bytes :=
  stuff true data ++ (if (len data =? 0) || negb (List.last data 0 =? LF) then crlf else []) ++ lit "." ++ crlf.
Definition writeDotStuffed (w : ew) (data : bytes) : ew := w_str w (dot_stuffed data).

(** The first [n] lines of the body; a last line without LF counts as one. *)
Fixpoint body_lines (n : Z) (body cur : bytes) : bytes :=
  if 0 <? n then
    match body with
    | [] => cur
    | b :: body => if b =? LF then cur ++ [b] ++ body_lines (n - 1) body [] else body_lines n body (cur ++ [b])
    end
  else [].
Definition topBytes (data : bytes) (n : Z) : bytes :=
  match Index data (crlf ++ crlf) with
  | None => data
  | Some idx => take (idx + 4) data ++ body_lines n (drop (idx + 4) data) []
  end.

Section store.
Context {W : Type} `{!MailStore W}.

Definition openMailbox (st : W) (path : bytes) : option mailbox :=
  if store_Open st path then
    match ListMessages st path PrivateFIDInbox with
    | Some msgs => Some (mkMailbox path PrivateFIDInbox msgs (repeat false (length msgs)))
    | None => None
    end
  else None.

Definition retr (st : W) (mb : mailbox) (w : ew) (arg : bytes) : ew :=
  match index mb arg with
  | None => errLine w (lit "no such message")
  | Some n =>
      match GetMessageRaw st (mb_path mb) (mb_folder mb) (mi_UID (msg_at mb n)) with
      | None => errLine w (lit "[SYS/TEMP] retrieval failed")
      | Some raw => w_flush (writeDotStuffed (w_str w (lit "+OK " ++ dec (len raw) ++ lit " octets" ++ crlf)) raw)
      end
  end.

Definition top (st : W) (mb : mailbox) (w : ew) (arg : bytes) : ew :=
  match Fields arg with
  | [f0; f1] =>
      match index mb f0 with
      | None => errLine w (lit "no such message")
      | Some n =>
          match Atoi f1 with
          | Some lines =>
              if lines <? 0 then errLine w (lit "invalid line count")
              else
                match GetMessageRaw st (mb_path mb) (mb_folder mb) (mi_UID (msg_at mb n)) with
                | None => errLine w (lit "[SYS/TEMP] retrieval failed")
                | Some raw => w_flush (writeDotStuffed (ok w []) (topBytes raw lines))
                end
          | None => errLine w (lit "invalid line count")
          end
      end
  | _ => errLine w (lit "TOP requires a message number and a line count")
  end.

Definition dele (mb : mailbox) (w : ew) (arg : bytes) : mailbox * ew :=
  match index mb arg with
  | None => (mb, errLine w (lit "no such message"))
  | Some n => (set_deleted mb (<[Z.to_nat (n - 1) := true]> (mb_deleted mb)),
               ok w (lit "message " ++ dec n ++ lit " deleted"))
  end.

(** The store after the deletions, and the UIDs that could not be deleted *)
Fixpoint commit_from (st : W) (path : bytes) (folder : Z) (marks : list (bool * MessageInfo)) : W * list Z :=
  match marks with
  | [] => (st, [])
  | (false, _) :: marks => commit_from st path folder marks
  | (true, m) :: marks =>
      let '(st, success) := SoftDeleteMessage st path folder (mi_UID m) in
      let '(st, failed) := commit_from st path folder marks in
      (st, if success : bool then failed else mi_UID m :: failed)
  end.
Definition commit (st : W) (mb : mailbox) : W * list Z :=
  commit_from st (mb_path mb) (mb_folder mb) (zip (mb_deleted mb) (mb_msgs mb)).
End store.

(** ** The connection *)

(** What becomes of a STLS request: bytes were already buffered behind it, the handshake fails,
    or the connection continues with the bytes the client sends inside TLS. *)
Inductive upgrade := Pipelined | HandshakeFails | Handshake (inner : bytes) (credit : option nat).

Record session := mkSession {
  ss_w : ew; ss_in : bytes; ss_isTLS : bool; ss_user : bytes; ss_mb : option mailbox; ss_upgrade : upgrade }.

Definition set_w (s : session) (w : ew) : session :=
  mkSession w (ss_in s) (ss_isTLS s) (ss_user s) (ss_mb s) (ss_upgrade s).
Definition set_in (s : session) (b : bytes) : session :=
  mkSession (ss_w s) b (ss_isTLS s) (ss_user s) (ss_mb s) (ss_upgrade s).
Definition set_user (s : session) (u : bytes) : session :=
  mkSession (ss_w s) (ss_in s) (ss_isTLS s) u (ss_mb s) (ss_upgrade s).
Definition set_mb (s : session) (m : mailbox) : session :=
  mkSession (ss_w s) (ss_in s) (ss_isTLS s) (ss_user s) (Some m) (ss_upgrade s).

(** What the connection shares with the rest of the process *)
Record Server (W : Type) := mkServer { sv_store : W; sv_limiter : option Limiter; sv_maxCommandLine : Z }.
Arguments mkServer {W}.
Arguments sv_store {W}.
Arguments sv_limiter {W}.
Arguments sv_maxCommandLine {W}.

Definition SetMaxCommandLine {W} (sv : Server W) (n : Z) : Server W :=
  mkServer (sv_store sv) (sv_limiter sv) (if n <? 0 then 0 else n).
Definition commandLineLimit {W} (sv : Server W) : Z :=
  if 0 <? sv_maxCommandLine sv then sv_maxCommandLine sv else defaultMaxCommandLine.
Definition set_limiter {W} (sv : Server W) (l : option Limiter) : Server W :=
  mkServer (sv_store sv) l (sv_maxCommandLine sv).
Definition set_store {W} (sv : Server W) (st : W) : Server W :=
  mkServer st (sv_limiter sv) (sv_maxCommandLine sv).

(** The clock readings of one command: two for [Allowed], two for [Fail] *)
Record readings := mkReadings { rd_1 : Z; rd_2 : Z; rd_3 : Z; rd_4 : Z }.

Definition writeCapa (tlsConfig isTLS : bool) (w : ew) : ew :=
  let w := w_lines w
    [lit "+OK Capability list follows"; lit "TOP"; lit "USER"; lit "UIDL"; lit "SASL PLAIN LOGIN"; lit "PIPELINING";
     lit "RESP-CODES"; lit "LOGIN-DELAY 0"; lit "EXPIRE NEVER"; lit "UTF8"; lit "LANG"] in
  let w := if tlsConfig && negb isTLS then w_str w (lit "STLS" ++ crlf) else w in
  w_flush (w_str (w_str w (lit "IMPLEMENTATION hermEX" ++ crlf)) (lit "." ++ crlf)).

(** The client's token of a SASL step, inline or after a challenge; [None] cancels. *)
Definition saslResponse (w : ew) (input : bytes) (max : Z) (inline challenge : bytes) : ew * bytes * option bytes :=
  if beq inline (lit "=") then (w, input, Some [])
  else
    let '(w, input, resp) :=
      match inline with
      | [] => let w := w_flush (w_str w (lit "+ " ++ challenge ++ crlf)) in
              match ReadLine input max with
              | (Err _, input) => (w, input, None)
              | (Ok line, input) => (w, input, Some line)
              end
      | _ => (w, input, Some inline)
      end in
    match resp with
    | Some r => (w, input, if beq r (lit "*") then None else Some r)
    | None => (w, input, None)
    end.

Section server.
Context {W : Type} `{!MailStore W}.
(** [strings.ToLower]; the directory's password check and its POP3/IMAP privilege *)
Context (ToLower : bytes -> bytes) (AuthenticateClient : bytes -> bytes -> option bytes) (POP3IMAP : bytes -> bool).
(** Whether TLS is configured, and the peer's address *)
Context (tlsConfig : bool) (addr : bytes).

Definition writeLang (w : ew) (arg : bytes) : ew :=
  let arg := TrimSpace arg in
  match arg with
  | [] => w_flush (w_str (w_str (w_str w (lit "+OK Language listing follows:" ++ crlf)) (lit "en English" ++ crlf)) (lit "." ++ crlf))
  | _ =>
      let low := ToLower arg in
      if beq arg (lit "*") || beq low (lit "en") || HasPrefix low (lit "en-")
      then ok w (lit "en Responses will be in English")
      else errLine w (lit "invalid language, only en is available")
  end.

Definition finishAuth (t : readings) (w : ew) (sv : Server W) (user pass : bytes) : ew * Server W * option mailbox :=
  let allowed := match sv_limiter sv with
                 | Some l => Allowed TrimSpace ToLower l (rd_1 t) (rd_2 t) addr user
                 | None => true
                 end in
  if negb allowed then (errLine w (lit "[AUTH] too many failed attempts, try again later"), sv, None)
  else
    match (if beq user [] then None else AuthenticateClient user pass) with
    | None =>
        (errLine w (lit "[AUTH] authentication failed"),
         set_limiter sv ((fun l => Fail TrimSpace ToLower l (rd_3 t) (rd_4 t) addr user) <$> sv_limiter sv), None)
    | Some path =>
        let sv := set_limiter sv ((fun l => Succeed TrimSpace ToLower l addr user) <$> sv_limiter sv) in
        if negb (POP3IMAP user) then (errLine w (lit "[AUTH] POP3/IMAP access is disabled for this account"), sv, None)
        else
          match openMailbox (sv_store sv) path with
          | None => (errLine w (lit "[SYS/TEMP] mailbox unavailable"), sv, None)
          | Some m => (ok w (dec (count m) ++ lit " messages"), sv, Some m)
          end
    end.

(** A login attempt inside a session: the reader after it, and the user and mailbox of a success *)
Definition attempt_result : Type := ew * Server W * bytes * option (bytes * mailbox).
Definition refuse (w : ew) (sv : Server W) (input : bytes) (msg : bytes) : attempt_result := (errLine w msg, sv, input, None).
Definition attempt_login (t : readings) (w : ew) (sv : Server W) (input user pass : bytes) : attempt_result :=
  let '(w, sv, m) := finishAuth t w sv user pass in (w, sv, input, (fun m => (user, m)) <$> m).

Definition authPlain (t : readings) (w : ew) (sv : Server W) (input initial : bytes) : attempt_result :=
  let '(w, input, resp) := saslResponse w input (commandLineLimit sv) initial [] in
  match resp with
  | None => refuse w sv input (lit "[AUTH] authentication cancelled")
  | Some resp =>
      match b64_DecodeString resp with
      | None => refuse w sv input (lit "[AUTH] invalid base64")
      | Some raw =>
          match Split raw 0 with
          | [_; user; pass] => attempt_login t w sv input user pass
          | _ => refuse w sv input (lit "[AUTH] malformed PLAIN response")
          end
      end
  end.

Definition authLogin (t : readings) (w : ew) (sv : Server W) (input initial : bytes) : attempt_result :=
  let '(w, input, u) := saslResponse w input (commandLineLimit sv) initial (lit "VXNlcm5hbWU6") in
  match u with
  | None => refuse w sv input (lit "[AUTH] authentication cancelled")
  | Some u =>
      match b64_DecodeString u with
      | None => refuse w sv input (lit "[AUTH] invalid base64")
      | Some user =>
          let '(w, input, p) := saslResponse w input (commandLineLimit sv) [] (lit "UGFzc3dvcmQ6") in
          match p with
          | None => refuse w sv input (lit "[AUTH] authentication cancelled")
          | Some p =>
              match b64_DecodeString p with
              | None => refuse w sv input (lit "[AUTH] invalid base64")
              | Some pass => attempt_login t w sv input user pass
              end
          end
      end
  end.

Definition authSASL (t : readings) (w : ew) (sv : Server W) (input arg : bytes) : attempt_result :=
  let '(mech, initial) := Cut (TrimSpace arg) 32 in
  let mech := ToUpper mech in
  if beq mech [] then
    (w_flush (w_lines w [lit "+OK"; lit "PLAIN"; lit "LOGIN"; lit "."]), sv, input, None)
  else if beq mech (lit "PLAIN") then authPlain t w sv input initial
  else if beq mech (lit "LOGIN") then authLogin t w sv input initial
  else refuse w sv input (lit "[AUTH] unsupported authentication mechanism").

(** A step of the session: the session and the server after it, and whether the session ends *)
Definition step_result : Type := session * Server W * bool.
Definition reply (s : session) (sv : Server W) (w : ew) : step_result := (set_w s w, sv, false).

Definition finishPass (t : readings) (s : session) (sv : Server W) (pass : bytes) : step_result :=
  let '(w, sv, m) := finishAuth t (ss_w s) sv (ss_user s) pass in
  let s := set_w s w in
  match m with
  | None => (set_user s [], sv, false)
  | Some m => (set_mb s m, sv, false)
  end.

Definition finishSASL (t : readings) (s : session) (sv : Server W) (arg : bytes) : step_result :=
  let '(w, sv, input, r) := authSASL t (ss_w s) sv (ss_in s) arg in
  let s := set_in (set_w s w) input in
  match r with
  | None => (s, sv, false)
  | Some (user, m) => (set_mb (set_user s user) m, sv, false)
  end.

Definition startTLS (s : session) (sv : Server W) : step_result :=
  if negb tlsConfig || ss_isTLS s then reply s sv (errLine (ss_w s) (lit "STLS not available"))
  else
    match ss_upgrade s with
    | Pipelined => (s, sv, true)
    | HandshakeFails => (set_w s (ok (ss_w s) (lit "begin TLS negotiation")), sv, true)
    | Handshake inner credit =>
        let w := ok (ss_w s) (lit "begin TLS negotiation") in
        (mkSession (new_ew (ew_sent w) credit) inner true [] (ss_mb s) Pipelined, sv, false)
    end.

Definition authCommand (t : readings) (s : session) (sv : Server W) (cmd arg : bytes) : step_result :=
  if beq cmd (lit "USER") then reply (set_user s arg) sv (ok (ss_w s) [])
  else if beq cmd (lit "PASS") then finishPass t s sv arg
  else if beq cmd (lit "AUTH") then finishSASL t s sv arg
  else if beq cmd (lit "UTF8") then reply s sv (ok (ss_w s) (lit "UTF-8 mode enabled"))
  else if beq cmd (lit "STLS") then startTLS s sv
  else if beq cmd (lit "QUIT") then (set_w s (ok (ss_w s) (lit "bye")), sv, true)
  else reply s sv (errLine (ss_w s) (lit "command not allowed before authentication")).

Definition quit (s : session) (sv : Server W) (mb : mailbox) : step_result :=
  (set_w s (ok (ss_w s) (lit "bye")), set_store sv (commit (sv_store sv) mb).1, true).

Definition transactionCommand (s : session) (sv : Server W) (mb : mailbox) (cmd arg : bytes) : step_result :=
  let w := ss_w s in
  if beq cmd (lit "QUIT") then quit s sv mb
  else if beq cmd (lit "STAT") then reply s sv (ok w (dec (count mb) ++ lit " " ++ dec (totalSize mb)))
  else if beq cmd (lit "LIST") then reply s sv (mb_list mb w arg false)
  else if beq cmd (lit "UIDL") then reply s sv (mb_list mb w arg true)
  else if beq cmd (lit "TOP") then reply s sv (top (sv_store sv) mb w arg)
  else if beq cmd (lit "RETR") then reply s sv (retr (sv_store sv) mb w arg)
  else if beq cmd (lit "DELE") then let '(mb, w) := dele mb w arg in reply (set_mb s mb) sv w
  else if beq cmd (lit "RSET") then reply (set_mb s (reset mb)) sv (ok w [])
  else if beq cmd (lit "NOOP") then reply s sv (ok w [])
  else reply s sv (errLine w (lit "unknown command")).

Definition command (t : readings) (s : session) (sv : Server W) (cmd arg : bytes) : step_result :=
  if beq cmd (lit "CAPA") then reply s sv (writeCapa tlsConfig (ss_isTLS s) (ss_w s))
  else if beq cmd (lit "LANG") then reply s sv (writeLang (ss_w s) arg)
  else match ss_mb s with
       | None => authCommand t s sv cmd arg
       | Some mb => transactionCommand s sv mb cmd arg
       end.

(** One turn of [serve]: a line, or the reason there is none. *)
Definition serve_turn (t : readings) (s : session) (sv : Server W) : step_result :=
  match ReadLine (ss_in s) (commandLineLimit sv) with
  | (Err ErrTooLong, rest) =>
      let s := set_w (set_in s rest) (errLine (ss_w s) (lit "command line too long")) in (s, sv, ew_err (ss_w s))
  | (Err ErrRead, rest) => (set_in s rest, sv, true)
  | (Ok line, rest) =>
      let s := set_in s rest in
      if ew_err (ss_w s) then (s, sv, true)
      else let '(cmd, arg) := Cut line 32 in command t s sv (ToUpper cmd) arg
  end.

(** Between two turns the rest of the process changes what is shared: [others k] before the
    [k]-th turn, whose clock readings are [clock k]. *)
Context (clock : nat -> readings) (others : nat -> Server W -> Server W).

Fixpoint serve (fuel k : nat) (s : session) (sv : Server W) : step_result :=
  match fuel with
  | O => (s, sv, false)
  | S fuel =>
      let '(s, sv, done) := serve_turn (clock k) s (others k sv) in
      if done then (s, sv, true) else serve fuel (S k) s sv
  end.

(** A turn reads a byte or ends the session, except the one that moves to the TLS stream. *)
Definition input_left (s : session) : nat :=
  (length (ss_in s) + match ss_upgrade s with Handshake inner _ => length inner + 1 | _ => 0 end)%nat.

Definition handle (input : bytes) (credit : option nat) (isTLS : bool) (up : upgrade) (sv : Server W) : step_result :=
  let s := mkSession (ok (new_ew [] credit) (lit "hermEX POP3 ready")) input isTLS [] None up in
  serve (S (input_left s)) 0 s sv.
End server.
