(* ===== verification/Pop3Proofs.v ===== *)
(** * The POP3 server: its contract

    The protocol a client relies on, as an abstract machine, and the refinement of it by the
    server; the store after QUIT; the reply formats. *)

From stdpp Require Import base list numbers gmap sets.
From Stdlib Require Import ZArith Lia.
From Stdlib Require String.
Import String.StringSyntax.
From S2P Require Import Prelude Gostr Netline Limitbase Authlimit Pop3.
Open Scope Z_scope.

Lemma beq_true a b : beq a b = true -> a = b.
Proof. unfold beq. apply bool_decide_eq_true. Qed.
Lemma beq_refl a : beq a a = true.
Proof. unfold beq. by apply bool_decide_eq_true. Qed.

(** ** The snapshot *)

(** A mark for each message *)
Definition wf_mailbox (mb : mailbox) : Prop := length (mb_deleted mb) = length (mb_msgs mb).
(** The indices of the marked messages *)
Definition marks (mb : mailbox) : gset nat :=
  list_to_set (filter (fun i => is_deleted mb i = true) (seq 0 (length (mb_msgs mb)))).

Lemma elem_marks mb i : i ∈ marks mb <-> (i < length (mb_msgs mb))%nat /\ is_deleted mb i = true.
Proof. unfold marks. rewrite elem_of_list_to_set, list_elem_of_filter, elem_of_seq. intuition lia. Qed.

Lemma index_Some mb arg n : index mb arg = Some n <->
  Atoi (TrimSpace arg) = Some n /\ 1 <= n <= len (mb_msgs mb) /\ Z.to_nat (n - 1) ∉ marks mb.
Proof.
  unfold index. rewrite elem_marks. destruct (Atoi (TrimSpace arg)) as [v|]; [|by split; [|intros (? & _)]].
  destruct (Z.ltb_spec v 1); [split; [done|intros ([= <-] & ? & _); lia]|].
  destruct (Z.ltb_spec (len (mb_msgs mb)) v); [split; [done|intros ([= <-] & ? & _); lia]|]. cbn [orb].
  destruct (is_deleted mb (Z.to_nat (v - 1))) eqn:D.
  - split; [done|]. intros ([= <-] & ? & X). destruct X. unfold len in *. split; [lia|done].
  - split; [intros [= <-]|by intros ([= <-] & _)]. split; [done|]. split; [done|]. intros [_ X]. congruence.
Qed.

Lemma marks_reset mb : wf_mailbox mb -> wf_mailbox (reset mb) /\ marks (reset mb) = ∅.
Proof.
  intros H. split; [unfold wf_mailbox, reset in *; cbn; by rewrite length_map|].
  apply set_eq. intros i. rewrite elem_marks. split; [|set_solver]. intros [_ D]. exfalso.
  revert D. unfold is_deleted, reset. cbn. clear. revert i. induction (mb_deleted mb) as [|d l IH]; intros [|i]; cbn; try done. apply IH.
Qed.

Lemma nth_insert_mark (l : list bool) i j : (i < length l)%nat ->
  nth j (<[i := true]> l) false = if decide (j = i) then true else nth j l false.
Proof.
  intros Hi. rewrite !nth_lookup. destruct (decide (j = i)) as [->|N].
  - by rewrite list_lookup_insert_eq.
  - by rewrite list_lookup_insert_ne.
Qed.

Lemma marks_dele mb i : wf_mailbox mb -> (i < length (mb_msgs mb))%nat ->
  wf_mailbox (set_deleted mb (<[i := true]> (mb_deleted mb)))
  /\ marks (set_deleted mb (<[i := true]> (mb_deleted mb))) = marks mb ∪ {[i]}.
Proof.
  intros H Hi. split; [unfold wf_mailbox in *; cbn; by rewrite length_insert|].
  apply set_eq. intros j. rewrite elem_of_union, elem_of_singleton, !elem_marks. unfold is_deleted. cbn.
  unfold wf_mailbox in H. rewrite nth_insert_mark by lia. destruct (decide (j = i)) as [->|]; [|tauto]. tauto.
Qed.

(** ** The abstract protocol *)

(** A maildrop: whose it is, its messages under fixed numbers, and the marked ones *)
Record maildrop := mkDrop { md_path : bytes; md_msgs : list MessageInfo; md_marked : gset nat }.
Inductive phase :=
| Authorization
| Transaction (d : maildrop)
| Closed                     (* QUIT or an abort before login *)
| Update (d : maildrop).     (* QUIT: the marked messages go *)

Definition mark_command (d : maildrop) (cmd arg : bytes) : maildrop :=
  if beq cmd (lit "DELE") then
    match Atoi (TrimSpace arg) with
    | Some n => if bool_decide (1 <= n <= len (md_msgs d)) then mkDrop (md_path d) (md_msgs d) (md_marked d ∪ {[Z.to_nat (n - 1)]}) else d
    | None => d
    end
  else if beq cmd (lit "RSET") then mkDrop (md_path d) (md_msgs d) ∅
  else d.

(** What a command may do to the phase: only PASS and AUTH log in, and then nothing is marked;
    DELE and RSET change the marks; QUIT ends. *)
Inductive phase_step : phase -> bytes * bytes -> phase -> Prop :=
| step_stay cmd arg : cmd <> lit "QUIT" -> phase_step Authorization (cmd, arg) Authorization
| step_login cmd arg path msgs : cmd = lit "PASS" \/ cmd = lit "AUTH" ->
    phase_step Authorization (cmd, arg) (Transaction (mkDrop path msgs ∅))
| step_close cmd arg : cmd = lit "QUIT" \/ cmd = lit "STLS" -> phase_step Authorization (cmd, arg) Closed
| step_mark d cmd arg : cmd <> lit "QUIT" -> phase_step (Transaction d) (cmd, arg) (Transaction (mark_command d cmd arg))
| step_quit d arg : phase_step (Transaction d) (lit "QUIT", arg) (Update d).

Inductive phase_run : phase -> list (bytes * bytes) -> phase -> Prop :=
| run_nil p : phase_run p [] p
| run_cons p c q cs r : phase_step p c q -> phase_run q cs r -> phase_run p (c :: cs) r.

(** The marked messages, in the order of their numbers *)
Definition marked_msgs (d : maildrop) : list MessageInfo :=
  snd <$> filter (fun p => p.1 ∈ md_marked d) (zip (seq 0 (length (md_msgs d))) (md_msgs d)).

Section update.
Context {W : Type} `{!MailStore W}.
(** The store after the UPDATE state: a deletion is asked for each marked message. *)
Definition update_store (st : W) (d : maildrop) : W :=
  fold_left (fun st m => (SoftDeleteMessage st (md_path d) PrivateFIDInbox (mi_UID m)).1) (marked_msgs d) st.
End update.

Section proofs.
Context {W : Type} `{!MailStore W}.
Context (ToLower : bytes -> bytes) (AuthenticateClient : bytes -> bytes -> option bytes) (POP3IMAP : bytes -> bool).
Context (tlsConfig : bool) (addr : bytes).
Implicit Types (sv : Server W) (s : session) (mb : mailbox).

Definition drop_of (mb : mailbox) : maildrop := mkDrop (mb_path mb) (mb_msgs mb) (marks mb).
Definition phase_of (s : session) : phase :=
  match ss_mb s with None => Authorization | Some mb => Transaction (drop_of mb) end.

Lemma commit_from_marks (M : gset nat) path f msgs : forall (dels : list bool) (i : nat) (st : W),
  length dels = length msgs ->
  (forall j, (j < length msgs)%nat -> (i + j)%nat ∈ M <-> nth j dels false = true) ->
  (commit_from st path f (zip dels msgs)).1
  = fold_left (fun st m => (SoftDeleteMessage st path f (mi_UID m)).1)
      (snd <$> filter (fun p : nat * MessageInfo => p.1 ∈ M) (zip (seq i (length msgs)) msgs)) st.
Proof.
  induction msgs as [|m msgs IH]; intros [|d dels] i st HL HM; try done. cbn [length] in *.
  assert (H0 : i ∈ M <-> d = true) by (specialize (HM 0%nat ltac:(lia)); by rewrite Nat.add_0_r in HM).
  assert (HM' : forall j, (j < length msgs)%nat -> (S i + j)%nat ∈ M <-> nth j dels false = true).
  { intros j Hj. specialize (HM (S j) ltac:(lia)). by rewrite <- Nat.add_succ_comm in HM. }
  cbn [seq zip_with commit_from]. destruct d.
  - rewrite filter_cons_True by (by apply H0). cbn [fmap list_fmap fold_left snd].
    destruct (SoftDeleteMessage st path f (mi_UID m)) as [st1 sc] eqn:E.
    specialize (IH dels (S i) st1 ltac:(lia) HM'). destruct (commit_from st1 path f (zip dels msgs)) as [st2 fl]. by cbn [fst] in *.
  - rewrite filter_cons_False by (intros X; by apply H0 in X). apply IH; [lia|done].
Qed.

Lemma commit_update (st : W) mb : wf_mailbox mb -> mb_folder mb = PrivateFIDInbox ->
  (commit st mb).1 = update_store st (drop_of mb).
Proof.
  intros H F. unfold commit, update_store, marked_msgs. rewrite F. cbn.
  apply (commit_from_marks (marks mb) (mb_path mb) PrivateFIDInbox (mb_msgs mb) (mb_deleted mb) 0 st H).
  intros j Hj. rewrite elem_marks. unfold is_deleted. cbn [Nat.add]. tauto.
Qed.

(** ** Logging in *)

(** [mb] is a snapshot of the inbox of an account that the user's password opened. *)
Definition logged_in (st : W) (user : bytes) (mb : mailbox) : Prop :=
  user <> [] /\ (exists pass, AuthenticateClient user pass = Some (mb_path mb)) /\ POP3IMAP user = true
  /\ ListMessages st (mb_path mb) PrivateFIDInbox = Some (mb_msgs mb).
(** A snapshot the session may hold, and a fresh one *)
Definition sound_mailbox (mb : mailbox) : Prop := wf_mailbox mb /\ mb_folder mb = PrivateFIDInbox.
Definition fresh_mailbox (mb : mailbox) : Prop := sound_mailbox mb /\ marks mb = ∅.

Lemma openMailbox_fresh (st : W) path mb : openMailbox st path = Some mb ->
  fresh_mailbox mb /\ mb_path mb = path /\ ListMessages st path PrivateFIDInbox = Some (mb_msgs mb).
Proof.
  unfold openMailbox. destruct (store_Open st path); [|done].
  destruct (ListMessages st path PrivateFIDInbox) as [msgs|] eqn:E; [|done]. intros [= <-]. cbn.
  split; [|done]. split; [split; [|done]; unfold wf_mailbox; cbn; by rewrite repeat_length|].
  apply set_eq. intros i. rewrite elem_marks. split; [|set_solver]. intros [_ D]. exfalso. revert D.
  unfold is_deleted. cbn. by rewrite nth_repeat.
Qed.

Lemma finishAuth_facts t w sv user pass w' sv' m :
  finishAuth ToLower AuthenticateClient POP3IMAP addr t w sv user pass = (w', sv', m) ->
  sv_store sv' = sv_store sv /\ (forall mb, m = Some mb -> fresh_mailbox mb /\ logged_in (sv_store sv) user mb).
Proof.
  unfold finishAuth. destruct (negb _); [by intros [= <- <- <-]|].
  destruct (beq user []) eqn:U; [by intros [= <- <- <-]|].
  destruct (AuthenticateClient user pass) as [path|] eqn:A; [|by intros [= <- <- <-]].
  destruct (POP3IMAP user) eqn:P; cbn [negb]; [|by intros [= <- <- <-]].
  destruct (openMailbox _ path) as [mb|] eqn:O; [|by intros [= <- <- <-]]. cbn [sv_store set_limiter] in O.
  intros [= <- <- <-]. split; [done|]. intros ? [= <-]. apply openMailbox_fresh in O as (F & <- & L). split; [done|].
  split; [intros ->; by rewrite beq_refl in U|]. split; [by exists pass|done].
Qed.

(** What an attempt leaves: the store as it was, no more input than before, and a login or none. *)
Definition attempt_sound (sv : Server W) (input : bytes) (r : attempt_result (W := W)) : Prop :=
  let '(_, sv', input', o) := r in
  sv_store sv' = sv_store sv /\ (length input' <= length input)%nat
  /\ match o with Some (user, mb) => fresh_mailbox mb /\ logged_in (sv_store sv) user mb | None => True end.

Lemma refuse_sound w sv input0 input msg : (length input <= length input0)%nat -> attempt_sound sv input0 (refuse w sv input msg).
Proof. done. Qed.

Lemma attempt_login_sound t w sv input0 input user pass : (length input <= length input0)%nat ->
  attempt_sound sv input0 (attempt_login ToLower AuthenticateClient POP3IMAP addr t w sv input user pass).
Proof.
  intros Hi. unfold attempt_login. destruct (finishAuth _ _ _ _ _ _ _ _ _) as [[w' sv'] m] eqn:E.
  apply finishAuth_facts in E as [E1 E2]. split; [done|]. split; [done|]. destruct m as [mb|]; [by apply E2|done].
Qed.

Lemma saslResponse_len w input max inline ch w' input' r :
  saslResponse w input max inline ch = (w', input', r) -> (length input' <= length input)%nat.
Proof.
  unfold saslResponse. destruct (beq inline (lit "=")); [by intros [= <- <- <-]|].
  destruct inline as [|b inline]; [|by intros [= <- <- <-]].
  pose proof (proj1 (read_line_len input [] max)) as L. unfold ReadLine.
  destruct (read_line input [] max) as [[line|e] rest]; by intros [= <- <- <-].
Qed.

Lemma authPlain_sound t w sv input initial :
  attempt_sound sv input (authPlain ToLower AuthenticateClient POP3IMAP addr t w sv input initial).
Proof.
  unfold authPlain. destruct (saslResponse w input _ initial []) as [[w' input'] r] eqn:E. apply saslResponse_len in E.
  destruct r as [r|]; [|by apply refuse_sound]. destruct (b64_DecodeString r) as [raw|]; [|by apply refuse_sound].
  destruct (Split raw 0) as [|a [|user [|pass [|z l]]]]; (by apply refuse_sound) || by apply attempt_login_sound.
Qed.

Lemma authLogin_sound t w sv input initial :
  attempt_sound sv input (authLogin ToLower AuthenticateClient POP3IMAP addr t w sv input initial).
Proof.
  unfold authLogin. destruct (saslResponse w input _ initial _) as [[w1 in1] r] eqn:E1. apply saslResponse_len in E1.
  destruct r as [r|]; [|by apply refuse_sound]. destruct (b64_DecodeString r) as [user|]; [|by apply refuse_sound].
  destruct (saslResponse w1 in1 _ [] _) as [[w2 in2] p] eqn:E2. apply saslResponse_len in E2.
  destruct p as [p|]; [|apply refuse_sound; lia]. destruct (b64_DecodeString p) as [pass|]; [|apply refuse_sound; lia].
  apply attempt_login_sound. lia.
Qed.

Lemma authSASL_sound t w sv input arg :
  attempt_sound sv input (authSASL ToLower AuthenticateClient POP3IMAP addr t w sv input arg).
Proof.
  unfold authSASL. destruct (Cut (TrimSpace arg) 32) as [mech initial].
  destruct (beq (ToUpper mech) []); [by repeat split|].
  destruct (beq _ (lit "PLAIN")); [apply authPlain_sound|].
  destruct (beq _ (lit "LOGIN")); [apply authLogin_sound|]. by apply refuse_sound.
Qed.

(** ** One command *)

Abbreviation command' := (command ToLower AuthenticateClient POP3IMAP tlsConfig addr).
Abbreviation serve_turn' := (serve_turn ToLower AuthenticateClient POP3IMAP tlsConfig addr).

(** The session holds no mailbox, or a sound one of the user it logged in. *)
Definition session_sound (s : session) : Prop :=
  match ss_mb s with
  | None => True
  | Some mb => sound_mailbox mb /\ ss_user s <> [] /\ (exists pass, AuthenticateClient (ss_user s) pass = Some (mb_path mb))
               /\ POP3IMAP (ss_user s) = true
  end.

(** The command takes the session from phase [p] to phase [q], on a store that only UPDATE
    changes. *)
Definition goes (sv : Server W) (p : phase) (c : bytes * bytes) (r : step_result (W := W)) : Prop :=
  let '(s', sv', done) := r in
  session_sound s' /\ exists q, phase_step p c q /\
  match q with
  | Authorization => phase_of s' = q /\ done = false /\ sv_store sv' = sv_store sv
  | Transaction d => phase_of s' = q /\ done = false /\ sv_store sv' = sv_store sv
      /\ (p = Authorization -> ListMessages (sv_store sv) (md_path d) PrivateFIDInbox = Some (md_msgs d))
  | Closed => ss_mb s' = None /\ done = true /\ sv_store sv' = sv_store sv
  | Update d => p = Transaction d /\ done = true /\ sv_store sv' = update_store (sv_store sv) d
  end.

Lemma goes_stay s sv w cmd arg : ss_mb s = None -> cmd <> lit "QUIT" -> goes sv Authorization (cmd, arg) (reply s sv w).
Proof. intros M Q. split; [unfold session_sound; cbn; by rewrite M|]. exists Authorization. unfold phase_of. cbn. rewrite M. by split; [constructor|]. Qed.

Lemma goes_login s sv sv' user mb cmd arg :
  cmd = lit "PASS" \/ cmd = lit "AUTH" -> sv_store sv' = sv_store sv -> ss_user s = user ->
  fresh_mailbox mb -> logged_in (sv_store sv) user mb ->
  goes sv Authorization (cmd, arg) (set_mb s mb, sv', false).
Proof.
  intros C S U ((Wf & Fo) & M) (Hu & (pass & A) & P & L). split.
  - unfold session_sound. cbn. rewrite U. repeat split; try done. by exists pass.
  - exists (Transaction (drop_of mb)). split; [|by repeat split].
    unfold drop_of. rewrite M. by constructor.
Qed.

Lemma auth_goes t s sv cmd arg : ss_mb s = None ->
  goes sv Authorization (cmd, arg) (authCommand ToLower AuthenticateClient POP3IMAP tlsConfig addr t s sv cmd arg).
Proof.
  intros M. unfold authCommand.
  destruct (beq cmd (lit "USER")) eqn:B; [apply beq_true in B as ->; by apply goes_stay|]. clear B.
  destruct (beq cmd (lit "PASS")) eqn:B.
  { apply beq_true in B as ->. unfold finishPass. destruct (finishAuth _ _ _ _ _ _ _ _ _) as [[w' sv'] m] eqn:E.
    apply finishAuth_facts in E as [E1 E2]. destruct m as [mb|].
    - destruct (E2 mb eq_refl). eapply goes_login; eauto.
    - split; [unfold session_sound; cbn; by rewrite M|]. exists Authorization. unfold phase_of. cbn. rewrite M.
      by split; [constructor|]. }
  clear B. destruct (beq cmd (lit "AUTH")) eqn:B.
  { apply beq_true in B as ->. unfold finishSASL. pose proof (authSASL_sound t (ss_w s) sv (ss_in s) arg) as E.
    destruct (authSASL _ _ _ _ _ _ _ _ _) as [[[w' sv'] in'] o]. destruct E as (E1 & _ & E2). destruct o as [[user mb]|].
    - destruct E2. eapply goes_login; eauto.
    - split; [unfold session_sound; cbn; by rewrite M|]. exists Authorization. unfold phase_of. cbn. rewrite M.
      by split; [constructor|]. }
  clear B. destruct (beq cmd (lit "UTF8")) eqn:B; [apply beq_true in B as ->; by apply goes_stay|]. clear B.
  destruct (beq cmd (lit "STLS")) eqn:B.
  { apply beq_true in B as ->. unfold startTLS. destruct (_ || _); [by apply goes_stay|].
    destruct (ss_upgrade s); (split; [unfold session_sound; cbn; by rewrite M|]).
    1, 2: exists Closed; cbn; by split; [constructor; right|].
    exists Authorization. unfold phase_of. cbn. rewrite M. by split; [constructor|]. }
  clear B. destruct (beq cmd (lit "QUIT")) eqn:B.
  - apply beq_true in B as ->. split; [unfold session_sound; cbn; by rewrite M|]. exists Closed. cbn. by split; [constructor; left|].
  - apply goes_stay; [done|]. intros ->. by rewrite beq_refl in B.
Qed.

Lemma goes_marked s sv mb' w cmd arg d :
  session_sound s -> (exists mb, ss_mb s = Some mb /\ mb_path mb' = mb_path mb /\ d = drop_of mb) ->
  sound_mailbox mb' -> cmd <> lit "QUIT" -> drop_of mb' = mark_command d cmd arg ->
  goes sv (Transaction d) (cmd, arg) (reply (set_mb s mb') sv w).
Proof.
  intros I (mb & M & P & ->) So Q D. unfold session_sound in I. rewrite M in I. destruct I as (_ & U & A & Pr). split.
  - unfold session_sound. cbn. rewrite P. by split_and!.
  - exists (Transaction (drop_of mb')). split; [rewrite D; by constructor|]. by repeat split.
Qed.

Lemma set_mb_id s mb : ss_mb s = Some mb -> set_mb s mb = s.
Proof. destruct s; cbn. by intros ->. Qed.

Lemma goes_same s sv mb w cmd arg :
  session_sound s -> ss_mb s = Some mb -> beq cmd (lit "QUIT") = false -> beq cmd (lit "DELE") = false -> beq cmd (lit "RSET") = false ->
  goes sv (Transaction (drop_of mb)) (cmd, arg) (reply s sv w).
Proof.
  intros I M Q D R. rewrite <- (set_mb_id s mb M). apply goes_marked.
  - done.
  - by exists mb.
  - unfold session_sound in I. rewrite M in I. apply I.
  - intros ->. by rewrite beq_refl in Q.
  - unfold mark_command. by rewrite D, R.
Qed.

Lemma dele_drop mb w arg : sound_mailbox mb ->
  sound_mailbox (dele mb w arg).1 /\ mb_path (dele mb w arg).1 = mb_path mb
  /\ drop_of (dele mb w arg).1 = mark_command (drop_of mb) (lit "DELE") arg.
Proof.
  intros [Hw Hf]. unfold dele, mark_command. rewrite beq_refl. cbn [md_msgs drop_of md_path md_marked].
  destruct (index mb arg) as [n|] eqn:E.
  - apply index_Some in E as (-> & R & N). rewrite bool_decide_true by done. cbn [fst].
    assert (Hi : (Z.to_nat (n - 1) < length (mb_msgs mb))%nat) by (unfold len in R; lia).
    destruct (marks_dele mb _ Hw Hi) as [Hw' Hm]. split; [done|]. split; [done|]. unfold drop_of. by rewrite Hm.
  - split; [done|]. split; [done|]. cbn [fst]. destruct (Atoi (TrimSpace arg)) as [n|] eqn:A; [|done].
    case_bool_decide as R; [|done]. unfold drop_of. f_equal. apply set_eq. intros i. rewrite elem_of_union, elem_of_singleton.
    split; [tauto|]. intros [H| ->]; [done|]. destruct (decide (Z.to_nat (n - 1) ∈ marks mb)) as [?|N]; [done|].
    assert (X : index mb arg = Some n) by (by apply index_Some). congruence.
Qed.

Lemma transaction_goes s sv mb cmd arg : session_sound s -> ss_mb s = Some mb ->
  goes sv (Transaction (drop_of mb)) (cmd, arg) (transactionCommand s sv mb cmd arg).
Proof.
  intros I M. unfold transactionCommand.
  assert (So : sound_mailbox mb) by (unfold session_sound in I; rewrite M in I; apply I).
  destruct (beq cmd (lit "QUIT")) eqn:Q.
  { apply beq_true in Q as ->. unfold quit. split; [exact I|].
    exists (Update (drop_of mb)). destruct So. split; [constructor|]. split; [done|]. split; [done|]. cbn. by apply commit_update. }
  do 5 (match goal with |- context [beq cmd ?l] => destruct (beq cmd l) eqn:B end;
    [apply beq_true in B as ->; by apply goes_same|]; clear B).
  destruct (beq cmd (lit "DELE")) eqn:D.
  { apply beq_true in D as ->. pose proof (dele_drop mb (ss_w s) arg So) as (A1 & A2 & A3).
    destruct (dele mb (ss_w s) arg) as [mb' w']. apply goes_marked; try done. by exists mb. }
  destruct (beq cmd (lit "RSET")) eqn:R.
  { apply beq_true in R as ->. destruct So as [Hw Hf]. destruct (marks_reset mb Hw) as [Hw' Hm].
    apply goes_marked; try done; [by exists mb|]. unfold drop_of. by rewrite Hm. }
  destruct (beq cmd (lit "NOOP")); by apply goes_same.
Qed.

Lemma command_goes t s sv cmd arg : session_sound s ->
  goes sv (phase_of s) (cmd, arg) (command' t s sv cmd arg).
Proof.
  intros I. unfold command, phase_of. destruct (ss_mb s) as [mb|] eqn:M.
  - destruct (beq cmd (lit "CAPA")) eqn:B; [apply beq_true in B as ->; by apply goes_same|]. clear B.
    destruct (beq cmd (lit "LANG")) eqn:B; [apply beq_true in B as ->; by apply goes_same|]. by apply transaction_goes.
  - destruct (beq cmd (lit "CAPA")) eqn:B; [apply beq_true in B as ->; by apply goes_stay|]. clear B.
    destruct (beq cmd (lit "LANG")) eqn:B; [apply beq_true in B as ->; by apply goes_stay|]. by apply auth_goes.
Qed.

(** ** Turns *)

(** The command the next turn runs, if it gets to one *)
Definition turn_cmd (s : session) (sv : Server W) : option (bytes * bytes) :=
  match ReadLine (ss_in s) (commandLineLimit sv) with
  | (Ok line, _) => if ew_err (ss_w s) then None else let '(cmd, arg) := Cut line 32 in Some (ToUpper cmd, arg)
  | _ => None
  end.

Lemma turn_goes t s sv : session_sound s ->
  match turn_cmd s sv with
  | Some c => goes sv (phase_of s) c (serve_turn' t s sv)
  | None => let '(s', sv', _) := serve_turn' t s sv in session_sound s' /\ ss_mb s' = ss_mb s /\ sv' = sv
  end.
Proof.
  intros I. unfold turn_cmd, serve_turn. destruct (ReadLine (ss_in s) (commandLineLimit sv)) as [[line|[|]] rest]; [|done|done].
  cbn [ss_w set_in]. destruct (ew_err (ss_w s)); [done|]. destruct (Cut line 32) as [cmd arg].
  exact (command_goes t (set_in s rest) sv (ToUpper cmd) arg I).
Qed.

Lemma command_input t s sv cmd arg s' sv' : command' t s sv cmd arg = (s', sv', false) -> (input_left s' <= input_left s)%nat.
Proof.
  unfold command. repeat (match goal with |- context [beq cmd ?l] => destruct (beq cmd l) end; [by intros [= <- <-]|]).
  destruct (ss_mb s) as [mb|].
  - unfold transactionCommand. destruct (beq _ _); [done|]. destruct (dele mb (ss_w s) arg) as [mb' w'].
    repeat (match goal with |- context [beq cmd ?l] => destruct (beq cmd l) end; [by intros [= <- <-]|]). by intros [= <- <-].
  - unfold authCommand. destruct (beq _ _); [by intros [= <- <-]|]. destruct (beq _ _).
    { unfold finishPass. destruct (finishAuth _ _ _ _ _ _ _ _ _) as [[w' sv1] [m|]]; by intros [= <- <-]. }
    destruct (beq _ _).
    { unfold finishSASL. pose proof (authSASL_sound t (ss_w s) sv (ss_in s) arg) as E.
      destruct (authSASL _ _ _ _ _ _ _ _ _) as [[[w' sv1] in'] o]. destruct E as (_ & E & _).
      destruct o as [[user mb]|]; intros [= <- <-]; unfold input_left; cbn; lia. }
    destruct (beq _ _); [by intros [= <- <-]|]. destruct (beq _ _).
    { unfold startTLS. destruct (_ || _); [by intros [= <- <-]|]. destruct (ss_upgrade s) as [| |inner cr] eqn:U; try done.
      intros [= <- <-]. unfold input_left. cbn. rewrite U. lia. }
    destruct (beq _ _); [done|by intros [= <- <-]].
Qed.

Lemma turn_input t s sv s' sv' : serve_turn' t s sv = (s', sv', false) -> (input_left s' < input_left s)%nat.
Proof.
  unfold serve_turn. destruct (read_line_len (ss_in s) [] (commandLineLimit sv)) as [_ L]. unfold ReadLine.
  destruct (read_line (ss_in s) [] (commandLineLimit sv)) as [[line|[|]] rest]; cbn [fst snd] in L; [|done|].
  - specialize (L ltac:(done)). cbn [ss_w set_in]. destruct (ew_err (ss_w s)); [done|].
    destruct (Cut line 32) as [cmd arg]. intros E. apply command_input in E. unfold input_left in *. cbn in E. lia.
  - specialize (L ltac:(done)). intros [= <- <- _]. unfold input_left. cbn. lia.
Qed.

Section run.
Context (clock : nat -> readings) (others : nat -> Server W -> Server W).
Abbreviation serve' := (serve ToLower AuthenticateClient POP3IMAP tlsConfig addr clock others).

Lemma serve_done fuel : forall k s sv, (input_left s < fuel)%nat -> (serve' fuel k s sv).2 = true.
Proof.
  induction fuel as [|fuel IH]; intros k s sv H; [lia|]. cbn [serve].
  destruct (serve_turn' (clock k) s (others k sv)) as [[s' sv'] [|]] eqn:E; [done|].
  apply turn_input in E. apply IH. lia.
Qed.

Lemma serve_sound fuel : forall k s sv, session_sound s -> session_sound (serve' fuel k s sv).1.1.
Proof.
  induction fuel as [|fuel IH]; intros k s sv I; [done|]. cbn [serve].
  pose proof (turn_goes (clock k) s (others k sv) I) as T.
  destruct (serve_turn' (clock k) s (others k sv)) as [[s' sv'] done].
  assert (I' : session_sound s') by (destruct (turn_cmd s (others k sv)); apply T).
  destruct done; [done|]. by apply IH.
Qed.

(** A session ends, whatever the client sends and however the link behaves, and the mailbox it
    holds then is the one of a user who gave a password the directory accepted and who has
    the POP3/IMAP privilege: there is no other way into the TRANSACTION state. *)
Theorem login_gate input credit isTLS up sv :
  let '(s', _, done) := handle ToLower AuthenticateClient POP3IMAP tlsConfig addr clock others input credit isTLS up sv in
  done = true /\ forall mb, ss_mb s' = Some mb ->
    ss_user s' <> [] /\ POP3IMAP (ss_user s') = true
    /\ exists pass, AuthenticateClient (ss_user s') pass = Some (mb_path mb).
Proof.
  unfold handle. set (s := mkSession _ _ _ _ _ _).
  pose proof (serve_done (S (input_left s)) 0 s sv ltac:(lia)) as D.
  pose proof (serve_sound (S (input_left s)) 0 s sv Logic.I) as I.
  destruct (serve' (S (input_left s)) 0 s sv) as [[s' sv'] done]. cbn in D, I. split; [done|].
  intros mb M. unfold session_sound in I. rewrite M in I. by destruct I as (_ & ? & ? & ?).
Qed.
End run.

(** ** A session alone on the store *)

Section alone.
Context (clock : nat -> readings).
Abbreviation serve1 := (serve ToLower AuthenticateClient POP3IMAP tlsConfig addr clock (fun _ sv => sv)).
Abbreviation handle1 := (handle ToLower AuthenticateClient POP3IMAP tlsConfig addr clock (fun _ sv => sv)).

(** The commands a session runs, in order *)
Fixpoint transcript (fuel k : nat) (s : session) (sv : Server W) : list (bytes * bytes) :=
  match fuel with
  | O => []
  | S fuel =>
      let '(s', sv', done) := serve_turn' (clock k) s sv in
      option_list (turn_cmd s sv) ++ if done then [] else transcript fuel (S k) s' sv'
  end.

Definition listed (st : W) (d : maildrop) : Prop := ListMessages st (md_path d) PrivateFIDInbox = Some (md_msgs d).

(** What a session in phase [p] at its end has done to the store [st] *)
Definition outcome (st : W) (s' : session) (st' : W) (p : phase) : Prop :=
  match p with
  | Authorization | Closed => ss_mb s' = None /\ st' = st
  | Transaction d => phase_of s' = p /\ listed st d /\ st' = st
  | Update d => listed st d /\ st' = update_store st d
  end.

Lemma mark_command_frame d cmd arg : md_path (mark_command d cmd arg) = md_path d /\ md_msgs (mark_command d cmd arg) = md_msgs d.
Proof.
  unfold mark_command. destruct (beq cmd (lit "DELE")); [|by destruct (beq _ _)].
  destruct (Atoi (TrimSpace arg)) as [n|]; [|done]. by case_bool_decide.
Qed.

Lemma run_option c p q cs r : phase_step p c q -> phase_run q cs r -> phase_run p ([c] ++ cs) r.
Proof. intros. econstructor; eauto. Qed.

Lemma serve_refines fuel : forall k s sv, session_sound s ->
  (forall d, phase_of s = Transaction d -> listed (sv_store sv) d) ->
  let '(s', sv', _) := serve1 fuel k s sv in
  exists p, phase_run (phase_of s) (transcript fuel k s sv) p /\ outcome (sv_store sv) s' (sv_store sv') p.
Proof.
  induction fuel as [|fuel IH]; intros k s sv I L; cbn [serve transcript].
  { exists (phase_of s). split; [constructor|]. unfold outcome, phase_of in *. destruct (ss_mb s); [|done].
    split; [done|]. split; [by apply L|done]. }
  pose proof (turn_goes (clock k) s sv I) as T.
  destruct (serve_turn' (clock k) s sv) as [[s1 sv1] fin]. destruct (turn_cmd s sv) as [[cmd arg]|]; cbn [option_list].
  - destruct T as (I1 & q & St & G). destruct q as [|d| |d].
    + destruct G as (P & -> & E). specialize (IH (S k) s1 sv1 I1). rewrite P, E in IH. specialize (IH ltac:(done)).
      destruct (serve1 fuel (S k) s1 sv1) as [[s' sv'] b]. destruct IH as (p & R & O). exists p. split; [by eapply run_option|done].
    + destruct G as (P & -> & E & A). specialize (IH (S k) s1 sv1 I1). rewrite P, E in IH.
      assert (Ld : listed (sv_store sv) d).
      { inversion St as [|? ? pa ms C X Y| |d0 ? ? C X Y|]; subst; [by apply A|].
        destruct (mark_command_frame d0 cmd arg) as [F1 F2]. unfold listed. rewrite F1, F2. by apply L. }
      specialize (IH ltac:(by intros ? [= <-])).
      destruct (serve1 fuel (S k) s1 sv1) as [[s' sv'] b]. destruct IH as (p & R & O). exists p. split; [by eapply run_option|done].
    + destruct G as (P & -> & E). exists Closed. split; [eapply run_option; [done|constructor]|]. by split.
    + destruct G as (P & -> & E). exists (Update d). split; [eapply run_option; [done|constructor]|]. split; [by apply L|done].
  - destruct T as (I1 & M & ->). assert (P : phase_of s1 = phase_of s) by (unfold phase_of; by rewrite M).
    cbn [app]. destruct fin.
    + exists (phase_of s). split; [constructor|]. unfold outcome. destruct (phase_of s) as [|d| |d] eqn:Ps.
      * unfold phase_of in P. by destruct (ss_mb s1).
      * split; [done|]. split; [by apply L|done].
      * unfold phase_of in Ps. by destruct (ss_mb s).
      * unfold phase_of in Ps. by destruct (ss_mb s).
    + specialize (IH (S k) s1 sv I1). rewrite P in IH. by apply IH.
Qed.

(** C15. A session refines the protocol: the commands it runs are a run of the abstract machine, in
    which logging in fixes the numbering, DELE and RSET change the marks and only QUIT goes
    to UPDATE.  The store is as it was unless the session reached UPDATE, and then exactly
    the marked messages were handed to deletion; a session cut off, by the client, by a
    failed write or by an overlong line at the end, deletes nothing. *)
Theorem session_refines input credit isTLS up sv :
  let s := mkSession (ok (new_ew [] credit) (lit "hermEX POP3 ready")) input isTLS [] None up in
  let '(s', sv', fin) := handle1 input credit isTLS up sv in
  fin = true /\ exists p, phase_run Authorization (transcript (S (input_left s)) 0 s sv) p
                          /\ outcome (sv_store sv) s' (sv_store sv') p.
Proof.
  intros s. pose proof (serve_done clock (fun _ sv => sv) (S (input_left s)) 0 s sv ltac:(lia)) as D.
  pose proof (serve_refines (S (input_left s)) 0 s sv Logic.I ltac:(done)) as R.
  change (handle1 input credit isTLS up sv) with (serve1 (S (input_left s)) 0 s sv).
  destruct (serve1 (S (input_left s)) 0 s sv) as [[s' sv'] fin]. by split.
Qed.
End alone.
End proofs.

(** ** What QUIT leaves in the inbox *)

(** A deletion that succeeds takes the message, and nothing else, out of its folder's listing;
    one that fails changes no listing (the index row is dropped last). *)
Class MailStoreLaws (W : Type) `{!MailStore W} := {
  soft_delete_ok (st st' : W) p f u l :
    SoftDeleteMessage st p f u = (st', true) -> ListMessages st p f = Some l ->
    ListMessages st' p f = Some (filter (fun m => mi_UID m <> u) l);
  soft_delete_fails (st st' : W) p f u :
    SoftDeleteMessage st p f u = (st', false) -> ListMessages st' p f = ListMessages st p f;
  soft_delete_frame (st : W) p f u p' f' :
    p' <> p \/ f' <> f -> ListMessages (SoftDeleteMessage st p f u).1 p' f' = ListMessages st p' f' }.

Section listing.
Context {W : Type} `{!MailStore W} `{!MailStoreLaws W}.

Lemma filter_filter_iff {A} (P Q R : A -> Prop) `{!forall x, Decision (P x)} `{!forall x, Decision (Q x)}
  `{!forall x, Decision (R x)} (l : list A) :
  (forall x, R x <-> P x /\ Q x) -> filter P (filter Q l) = filter R l.
Proof.
  intros HR. induction l as [|x l IH]; [done|]. destruct (decide (Q x)) as [q|q].
  - rewrite (filter_cons_True Q) by done. destruct (decide (P x)) as [p|p].
    + rewrite filter_cons_True, (filter_cons_True R) by (done || by apply HR). by rewrite IH.
    + rewrite filter_cons_False, (filter_cons_False R) by (done || by rewrite HR; intros []). done.
  - rewrite (filter_cons_False Q), (filter_cons_False R) by (done || by rewrite HR; intros []). done.
Qed.

(** The UIDs a commit asks to delete *)
Definition asked (mks : list (bool * MessageInfo)) : list Z := mi_UID ∘ snd <$> filter (fun p => p.1 = true) mks.

Lemma asked_false m mks : asked ((false, m) :: mks) = asked mks.
Proof. done. Qed.
Lemma asked_true m mks : asked ((true, m) :: mks) = mi_UID m :: asked mks.
Proof. done. Qed.

Lemma commit_failed_asked p f mks : forall (st : W), incl (commit_from st p f mks).2 (asked mks).
Proof.
  induction mks as [|[[] m] mks IH]; intros st; cbn [commit_from]; [apply incl_nil_l| |apply IH].
  rewrite asked_true. destruct (SoftDeleteMessage st p f (mi_UID m)) as [st1 [|]]; specialize (IH st1);
    destruct (commit_from st1 p f mks) as [st2 fl]; cbn [snd] in *.
  - by apply incl_tl.
  - apply incl_cons; [by left|by apply incl_tl].
Qed.

Lemma commit_from_listing p f mks : forall (st : W) l, NoDup (asked mks) -> ListMessages st p f = Some l ->
  ListMessages (commit_from st p f mks).1 p f
  = Some (filter (fun m => mi_UID m ∉ asked mks \/ mi_UID m ∈ (commit_from st p f mks).2) l).
Proof.
  induction mks as [|[[] m] mks IH]; intros st l ND L.
  - cbn. rewrite L. f_equal. clear. induction l as [|x l IH]; [done|].
    rewrite filter_cons_True by (left; apply not_elem_of_nil). by rewrite <- IH.
  - rewrite asked_true in *. apply NoDup_cons in ND as [Nm ND]. cbn [commit_from].
    destruct (SoftDeleteMessage st p f (mi_UID m)) as [st1 [|]] eqn:E.
    + pose proof (soft_delete_ok _ _ _ _ _ _ E L) as L1. specialize (IH st1 _ ND L1).
      pose proof (commit_failed_asked p f mks st1) as FA. destruct (commit_from st1 p f mks) as [st2 fl]. cbn [fst snd] in *.
      rewrite IH. f_equal. apply filter_filter_iff. intros x. rewrite not_elem_of_cons. split; [|tauto].
      intros [[H1 H2]|H]; [by split; [left|]|]. split; [by right|]. intros X. apply Nm. rewrite <- X.
      apply list_elem_of_In, FA, list_elem_of_In, H.
    + pose proof (soft_delete_fails _ _ _ _ _ E) as L1. rewrite L in L1. specialize (IH st1 _ ND L1).
      destruct (commit_from st1 p f mks) as [st2 fl]. cbn [fst snd] in *. rewrite IH. f_equal.
      apply list_filter_iff. intros x. rewrite not_elem_of_cons, elem_of_cons.
      destruct (decide (mi_UID x = mi_UID m)) as [->|N]; [|tauto]. split; [tauto|]. intros _. by left.
  - cbn [commit_from]. rewrite asked_false in *. by apply IH.
Qed.

Lemma commit_from_frame p f p' f' mks : p' <> p \/ f' <> f -> forall (st : W),
  ListMessages (commit_from st p f mks).1 p' f' = ListMessages st p' f'.
Proof.
  intros N. induction mks as [|[[] m] mks IH]; intros st; cbn [commit_from]; [done| |apply IH].
  pose proof (soft_delete_frame st p f (mi_UID m) p' f' N) as F.
  destruct (SoftDeleteMessage st p f (mi_UID m)) as [st1 sc]. specialize (IH st1).
  destruct (commit_from st1 p f mks) as [st2 fl]. cbn [fst] in *. by rewrite IH.
Qed.

Lemma asked_marks mb : wf_mailbox mb ->
  asked (zip (mb_deleted mb) (mb_msgs mb)) = mi_UID <$> marked_msgs (drop_of mb).
Proof.
  intros H. unfold asked, marked_msgs. cbn. rewrite list_fmap_compose. f_equal.
  assert (G : forall msgs (dels : list bool) i, length dels = length msgs ->
    (forall j, (j < length msgs)%nat -> (i + j)%nat ∈ marks mb <-> nth j dels false = true) ->
    snd <$> filter (fun p : bool * MessageInfo => p.1 = true) (zip dels msgs)
    = snd <$> filter (fun p : nat * MessageInfo => p.1 ∈ marks mb) (zip (seq i (length msgs)) msgs)).
  { induction msgs as [|m msgs IH]; intros [|d dels] i HL HM; try done. cbn [length] in *.
    assert (H0 : i ∈ marks mb <-> d = true) by (specialize (HM 0%nat ltac:(lia)); by rewrite Nat.add_0_r in HM).
    assert (HM' : forall j, (j < length msgs)%nat -> (S i + j)%nat ∈ marks mb <-> nth j dels false = true).
    { intros j Hj. specialize (HM (S j) ltac:(lia)). by rewrite <- Nat.add_succ_comm in HM. }
    cbn [seq zip_with]. destruct d.
    - rewrite filter_cons_True, (filter_cons_True (fun p : nat * _ => p.1 ∈ _)) by (done || by apply H0).
      cbn [fmap list_fmap snd]. f_equal. apply IH; [lia|done].
    - rewrite filter_cons_False, (filter_cons_False (fun p : nat * _ => p.1 ∈ _)) by (done || by intros X; apply H0 in X).
      apply IH; [lia|done]. }
  apply (G (mb_msgs mb) (mb_deleted mb) 0%nat H). intros j Hj. rewrite elem_marks. unfold is_deleted. cbn [Nat.add]. tauto.
Qed.

(** After QUIT the inbox holds what it held just before, less the marked messages, except those
    the server reports as failed: mail that arrived during the session stays, a message whose
    deletion failed stays and is reported, and no other folder or mailbox changes. *)
Theorem quit_deletes_marked (st : W) mb l :
  wf_mailbox mb -> NoDup (mi_UID <$> marked_msgs (drop_of mb)) ->
  ListMessages st (mb_path mb) (mb_folder mb) = Some l ->
  let '(st', failed) := commit st mb in
  ListMessages st' (mb_path mb) (mb_folder mb)
  = Some (filter (fun m => mi_UID m ∉ (mi_UID <$> marked_msgs (drop_of mb)) \/ mi_UID m ∈ failed) l)
  /\ incl failed (mi_UID <$> marked_msgs (drop_of mb))
  /\ (forall p f, p <> mb_path mb \/ f <> mb_folder mb -> ListMessages st' p f = ListMessages st p f).
Proof.
  intros H ND L. rewrite <- asked_marks in * by done. unfold commit.
  pose proof (commit_from_listing _ _ _ st l ND L) as E1.
  pose proof (commit_failed_asked (mb_path mb) (mb_folder mb) (zip (mb_deleted mb) (mb_msgs mb)) st) as E2.
  pose proof (fun p f N => commit_from_frame (mb_path mb) (mb_folder mb) p f (zip (mb_deleted mb) (mb_msgs mb)) N st) as E3.
  destruct (commit_from st _ _ _) as [st' failed]. by split_and!.
Qed.
End listing.

(** ** Replies *)

(** A client that reads a multi-line reply: a line of a single dot ends it, and a dot at the
    start of any other line is dropped.  A strict one takes only CRLF for a line end. *)
Definition line_end (strict : bool) (prev b : Z) : bool := (b =? LF) && (negb strict || (prev =? CR)).
Fixpoint unstuff (strict atStart : bool) (prev : Z) (s : bytes) : option (bytes * bytes) :=
  match s with
  | [] => None
  | b :: s =>
      if atStart && (b =? 46) then
        match s with
        | 13 :: 10 :: rest => Some ([], rest)
        | c :: s => (fun r => (c :: r.1, r.2)) <$> unstuff strict (line_end strict b c) c s
        | [] => None
        end
      else (fun r => (b :: r.1, r.2)) <$> unstuff strict (line_end strict prev b) b s
  end.

(** Every LF comes after a CR. *)
Fixpoint crlf_only (prev : Z) (data : bytes) : bool :=
  match data with [] => true | b :: data => (negb (b =? LF) || (prev =? CR)) && crlf_only b data end.

Definition end_at (at_ : bool) (data : bytes) : bool := match data with [] => at_ | _ => List.last data 0 =? LF end.
Definition end_prev (prev : Z) (data : bytes) : Z := match data with [] => prev | _ => List.last data 0 end.

Lemma end_cons b data at_ prev : end_at at_ (b :: data) = end_at (b =? LF) data /\ end_prev prev (b :: data) = end_prev b data.
Proof. by destruct data. Qed.

Lemma unstuff_stuff strict tail data : forall at_ prev, (strict = true -> crlf_only prev data = true) ->
  unstuff strict at_ prev (stuff at_ data ++ tail)
  = (fun r => (data ++ r.1, r.2)) <$> unstuff strict (end_at at_ data) (end_prev prev data) tail.
Proof.
  induction data as [|b data IH]; intros at_ prev C; cbn [stuff app].
  { cbn [end_at end_prev]. by destruct (unstuff strict at_ prev tail) as [[]|]. }
  destruct (end_cons b data at_ prev) as [-> ->].
  assert (C' : strict = true -> crlf_only b data = true) by (intros Hs; specialize (C Hs); cbn [crlf_only] in C; by bsplit).
  assert (B : line_end strict prev b = (b =? LF)).
  { unfold line_end. destruct (b =? LF) eqn:E; [|done]. destruct strict; [|done]. specialize (C eq_refl).
    cbn [crlf_only] in C. rewrite E in C. by bsplit. }
  destruct (at_ && (b =? 46)) eqn:A.
  - assert (Hb : b = 46) by (bprop; done). subst b. cbn [app unstuff]. rewrite A.
    change (line_end strict 46 46) with false. change (46 =? LF) with false in *.
    rewrite IH by done. by destruct (unstuff strict _ _ tail) as [[]|].
  - cbn [app unstuff]. rewrite A, B, IH by done. by destruct (unstuff strict _ _ tail) as [[]|].
Qed.

(** Dot-stuffing is transparent: a client reads back the message, with a final CRLF added when it
    did not end in LF, and stops exactly at the end of the reply, whatever the message holds;
    a client that only knows CRLF line ends does so for every message without a bare LF. *)
Theorem dot_stuffing_round_trip strict data rest :
  (strict = true -> crlf_only 0 data = true) ->
  unstuff strict true 0 (dot_stuffed data ++ rest)
  = Some (data ++ (if end_at false data then [] else crlf), rest).
Proof.
  intros C. unfold dot_stuffed. rewrite <- !app_assoc, unstuff_stuff by done.
  assert (E : (len data =? 0) || negb (List.last data 0 =? LF) = negb (end_at false data)) by (by destruct data).
  rewrite E. destruct data as [|b data]; [cbn; by destruct strict|]. cbn [end_at end_prev].
  destruct (List.last (b :: data) 0 =? LF) eqn:L; cbn [negb].
  - reflexivity.
  - by destruct strict.
Qed.

(** The lines of a text, each with its LF; a last one without LF counts. *)
Fixpoint lines_of (body cur : bytes) : list bytes :=
  match body with
  | [] => match cur with [] => [] | _ => [cur] end
  | b :: body => if b =? LF then (cur ++ [b]) :: lines_of body [] else lines_of body (cur ++ [b])
  end.

Lemma concat_lines body : forall cur, concat (lines_of body cur) = cur ++ body.
Proof.
  induction body as [|b body IH]; intros cur; cbn [lines_of]; [destruct cur; cbn; by rewrite ?app_nil_r|].
  destruct (b =? LF); [cbn [concat]; by rewrite IH, <- app_assoc|]. by rewrite IH, <- app_assoc.
Qed.

Lemma body_lines_take body : forall n cur, body_lines n body cur = concat (take (Z.to_nat n) (lines_of body cur)).
Proof.
  induction body as [|b body IH]; intros n cur; cbn [body_lines lines_of]; destruct (Z.ltb_spec 0 n) as [Hn|Hn].
  - replace (Z.to_nat n) with (S (Z.to_nat (n - 1))) by lia. destruct cur; cbn; [done|]. by rewrite take_nil, app_nil_r.
  - by replace (Z.to_nat n) with 0%nat by lia.
  - destruct (b =? LF); [|by rewrite IH]. replace (Z.to_nat n) with (S (Z.to_nat (n - 1))) by lia. cbn [take concat].
    by rewrite IH, <- app_assoc.
  - by replace (Z.to_nat n) with 0%nat by lia.
Qed.

(** TOP answers the header block with its blank line, and of the body the first [n] lines, all of it
    when it has no more than [n]; a message without a blank line is all header. *)
Theorem top_first_lines data n :
  match Index data (crlf ++ crlf) with
  | None => topBytes data n = data
  | Some i =>
      let body := drop (i + 4) data in
      topBytes data n = take (i + 4) data ++ concat (take (Z.to_nat n) (lines_of body []))
      /\ (len (lines_of body []) <= n -> topBytes data n = data)
  end.
Proof.
  unfold topBytes. destruct (Index data (crlf ++ crlf)) as [i|]; [|done]. rewrite body_lines_take. split; [done|].
  intros H. unfold len in H. rewrite (take_ge (lines_of _ _)) by lia. by rewrite concat_lines, app_nil_l, take_drop.
Qed.

Lemma w_str_ok w x : ew_err w = false -> w_str w x = mkEw (ew_buf w ++ x) (ew_sent w) false (ew_credit w).
Proof. intros H. unfold w_str. by rewrite H. Qed.

Lemma fold_w_str {A} (f : A -> bytes) l : forall w, ew_err w = false ->
  fold_left (fun w x => w_str w (f x)) l w = mkEw (ew_buf w ++ concat (map f l)) (ew_sent w) false (ew_credit w).
Proof.
  induction l as [|x l IH]; intros w H; cbn [fold_left map concat]; [rewrite app_nil_r; destruct w; cbn in *; by subst|].
  rewrite IH by (by rewrite w_str_ok). rewrite w_str_ok by done. cbn. by rewrite app_assoc.
Qed.

Lemma live_numbers mb i m : (i, m) ∈ live_msgs mb <-> mb_msgs mb !! i = Some m /\ is_deleted mb i = false.
Proof.
  unfold live_msgs, live_from. rewrite list_elem_of_filter. cbn [fst]. rewrite list_elem_of_lookup. setoid_rewrite lookup_zip_with_Some.
  split; [intros [D (j & a & b & [= -> ->] & L1 & L2)]|intros [L D]].
  - apply lookup_seq in L1 as [-> _]. done.
  - split; [done|]. exists i, i, m. split; [done|]. split; [|done]. apply lookup_seq. split; [done|]. by apply lookup_lt_Some in L.
Qed.

(** The scan listing tells the truth: the numbers of its lines are the ones that name a message,
    each with the UID or size of the message it names, and STAT counts exactly these lines. *)
Theorem listing_consistent mb uidl sent :
  len (mb_msgs mb) < 2 ^ 63 ->
  ew_sent (mb_list mb (new_ew sent None) [] uidl)
  = sent ++ lit "+OK " ++ (dec (len (live_msgs mb)) ++ lit " messages") ++ crlf
      ++ concat (map (list_line uidl) (live_msgs mb)) ++ lit "." ++ crlf
  /\ (forall i m, (i, m) ∈ live_msgs mb <->
       index mb (dec (Z.of_nat i + 1)) = Some (Z.of_nat i + 1) /\ msg_at mb (Z.of_nat i + 1) = m).
Proof.
  intros HL. split.
  - unfold mb_list. change (TrimSpace []) with (@nil Z). cbv iota. fold (count mb). set (msg := dec (count mb) ++ _).
    assert (Hm : msg <> []) by (intros X; by apply app_nil in X as [_ X]).
    assert (Eo : ok (new_ew sent None) msg = mkEw [] (sent ++ lit "+OK " ++ msg ++ crlf) false None) by (by destruct msg).
    rewrite Eo, fold_w_str by done. cbn [ew_buf ew_sent ew_err ew_credit app]. rewrite w_str_ok by done.
    cbn [ew_buf ew_sent ew_err ew_credit]. unfold w_flush. cbn [ew_buf ew_sent ew_err ew_credit].
    destruct (concat _ ++ _) as [|y l] eqn:E; [by apply app_nil in E as [_ ?]|]. cbn [ew_sent]. rewrite <- E.
    unfold msg, count. by rewrite <- !app_assoc.
  - intros i m. rewrite live_numbers. rewrite index_Some, TrimSpace_dec by lia. rewrite elem_marks. unfold msg_at.
    replace (Z.to_nat (Z.of_nat i + 1 - 1)) with i by lia. unfold len in *. split.
    + intros [L D]. pose proof (lookup_lt_Some _ _ _ L). rewrite Atoi_dec by lia. split; [split; [done|]; split; [lia|]|].
      * intros [_ X]. congruence.
      * by apply nth_lookup_Some.
    + intros ((_ & R & N) & <-). assert (i < length (mb_msgs mb))%nat by lia. split.
      * rewrite nth_lookup. by destruct (lookup_lt_is_Some_2 (mb_msgs mb) i) as [m ->].
      * destruct (is_deleted mb i); [|done]. by destruct N.
Qed.

(** ** A store in memory, and a session on it *)

Abbreviation mem_store := (gmap (bytes * Z) (list (MessageInfo * bytes))).
#[export] Instance mem_ops : MailStore mem_store := {
  store_Open _ _ := true;
  ListMessages st p f := map fst <$> st !! (p, f);
  GetMessageRaw st p f u :=
    match st !! (p, f) with
    | Some l => snd <$> List.find (fun x : MessageInfo * bytes => mi_UID x.1 =? u) l
    | None => None
    end;
  SoftDeleteMessage st p f u :=
    match st !! (p, f) with
    | Some l => if existsb (fun x : MessageInfo * bytes => mi_UID x.1 =? u) l
                then (<[(p, f) := filter (fun x : MessageInfo * bytes => mi_UID x.1 <> u) l]> st, true) else (st, false)
    | None => (st, false)
    end }.

#[export] Instance mem_laws : MailStoreLaws mem_store.
Proof.
  split; cbn [SoftDeleteMessage ListMessages mem_ops].
  - intros st st' p f u l E L. destruct (st !! (p, f)) as [k|] eqn:S; [|done]. destruct (existsb _ k); [|done].
    cbn in L. apply (inj Some) in L as <-. apply pair_equal_spec in E as [<- _]. 
    rewrite lookup_insert_eq. cbn. f_equal.
    clear. induction k as [|x k IH]; [done|]. rewrite filter_cons. cbn [map]. rewrite filter_cons.
    destruct (decide (mi_UID x.1 <> u)); cbn [map]; by rewrite IH.
  - intros st st' p f u E. destruct (st !! (p, f)) as [k|] eqn:S; [|apply pair_equal_spec in E as [<- _]; by rewrite S].
    destruct (existsb _ k); [done|]. apply pair_equal_spec in E as [<- _]. by rewrite S.
  - intros st p f u p' f' N. destruct (st !! (p, f)) as [k|]; [|done]. destruct (existsb _ k); [|done]. cbn [fst].
    rewrite lookup_insert_ne; [done|]. intros [= -> ->]. by destruct N.
Qed.

Definition sample_msgs : list (MessageInfo * bytes) :=
  [(mkInfo 7 12, lit "a"); (mkInfo 9 3, lit ".b"); (mkInfo 10 5, lit "c")].
Definition sample_server : Server mem_store :=
  mkServer {[(lit "/u", PrivateFIDInbox) := sample_msgs]} (Some (New 5 60 60)) 0.
Definition sample_auth (user pass : bytes) : option bytes :=
  if beq user (lit "u") && beq pass (lit "p") then Some (lit "/u") else None.
Definition sample_input : bytes :=
  concat (map (fun l => l ++ crlf) [lit "user u"; lit "PASS x"; lit "USER u"; lit "PASS p"; lit "DELE 1"; lit "DELE 1"; lit "DELE 3";
                                    lit "RSET"; lit "DELE 2"; lit "QUIT"; lit "DELE 3"]).
Definition sample_priv (user : bytes) : bool := true.
Definition sample_clock (k : nat) : readings := mkReadings (Z.of_nat k) (Z.of_nat k) (Z.of_nat k) (Z.of_nat k).
Definition sample_run : step_result (W := mem_store) :=
  handle (fun s => s) sample_auth sample_priv false (lit "1.2.3.4:5") sample_clock (fun _ sv => sv)
    sample_input None false Pipelined sample_server.

(** The session deletes the second message and answers each command. *)
Example sample_session :
  ListMessages (sv_store sample_run.1.2) (lit "/u") PrivateFIDInbox = Some [mkInfo 7 12; mkInfo 10 5]
  /\ ew_sent (ss_w sample_run.1.1)
     = concat (map (fun l => l ++ crlf)
         [lit "+OK hermEX POP3 ready"; lit "+OK"; lit "-ERR [AUTH] authentication failed"; lit "+OK"; lit "+OK 3 messages";
          lit "+OK message 1 deleted"; lit "-ERR no such message"; lit "+OK message 3 deleted"; lit "+OK";
          lit "+OK message 2 deleted"; lit "+OK bye"]).
Proof. vm_compute. done. Qed.

Lemma login_gate_witness :
  is_Some (ss_mb sample_run.1.1) /\
  let '(s', _, fin) := sample_run in
  fin = true /\ forall mb, ss_mb s' = Some mb ->
    ss_user s' <> [] /\ sample_priv (ss_user s') = true /\ exists pass, sample_auth (ss_user s') pass = Some (mb_path mb).
Proof.
  split; [vm_compute; by eexists|].
  unfold sample_run. apply (login_gate (fun s => s) sample_auth sample_priv false (lit "1.2.3.4:5") sample_clock (fun _ sv => sv)
    sample_input None false Pipelined sample_server).
Defined.

Definition sample_mailbox : mailbox :=
  mkMailbox (lit "/u") PrivateFIDInbox (map fst sample_msgs) [true; false; true].

Lemma quit_deletes_marked_witness :
  let '(st', failed) := commit (sv_store sample_server) sample_mailbox in
  ListMessages st' (lit "/u") PrivateFIDInbox
  = Some (filter (fun m => mi_UID m ∉ (mi_UID <$> marked_msgs (drop_of sample_mailbox)) \/ mi_UID m ∈ failed) (map fst sample_msgs))
  /\ incl failed (mi_UID <$> marked_msgs (drop_of sample_mailbox))
  /\ (forall p f, p <> lit "/u" \/ f <> PrivateFIDInbox -> ListMessages st' p f = ListMessages (sv_store sample_server) p f).
Proof.
  apply (quit_deletes_marked (sv_store sample_server) sample_mailbox (map fst sample_msgs)); [reflexivity| |reflexivity].
  apply (bool_decide_unpack _). vm_compute. exact I.
Defined.

Lemma dot_stuffing_round_trip_witness :
  unstuff true true 0 (dot_stuffed (lit ".a" ++ crlf ++ lit "." ++ crlf ++ lit "..b") ++ lit "+OK")
  = Some ((lit ".a" ++ crlf ++ lit "." ++ crlf ++ lit "..b") ++ crlf, lit "+OK").
Proof. apply (dot_stuffing_round_trip true). reflexivity. Defined.

Lemma listing_consistent_witness :
  ew_sent (mb_list sample_mailbox (new_ew [] None) [] true)
  = [] ++ lit "+OK " ++ (dec (len (live_msgs sample_mailbox)) ++ lit " messages") ++ crlf
      ++ concat (map (list_line true) (live_msgs sample_mailbox)) ++ lit "." ++ crlf
  /\ (forall i m, (i, m) ∈ live_msgs sample_mailbox <->
       index sample_mailbox (dec (Z.of_nat i + 1)) = Some (Z.of_nat i + 1) /\ msg_at sample_mailbox (Z.of_nat i + 1) = m).
Proof. apply (listing_consistent sample_mailbox true []). reflexivity. Defined.
