(* ===== verification/Imaplex.v ===== *)
(** * IMAP: the command lexer, sequence sets and flags ([internal/imap])

    [parser.go], [seqset.go], [flags.go] and the string writers of [render.go].  The reader is
    the bytes still to come, the bytes counted on the current line, and the continuation
    requests it has written; reading is a state and error monad over it. *)

From stdpp Require Import base list numbers.
From Stdlib Require Import ZArith Lia.
From Stdlib Require String.
Import String.StringSyntax.
From S2P Require Import Prelude Gostr Netline.
Open Scope Z_scope.

(** ** Sequence sets *)

Inductive im_error := ErrIO | ErrProtocol | ErrLineTooLong | ImOutOfFuel.

Definition seqStar : Z := 0xFFFFFFFF.
Record seqRange := mkSeqRange { sr_lo : Z; sr_hi : Z }.

Definition parseSeqNum (s : bytes) : result im_error Z :=
  if beq s (lit "*") then Ok seqStar
  else match ParseUint s 32 with
       | Some n => if n =? 0 then Err ErrProtocol else Ok n
       | None => Err ErrProtocol
       end.

(** One part of the set; [found] is whether it has a colon. *)
Definition parseSeqPart (part : bytes) : result im_error seqRange :=
  let '(lo, hi) := Cut part 58 in
  match parseSeqNum lo with
  | Err e => Err e
  | Ok a => if existsb (Z.eqb 58) part then
              match parseSeqNum hi with Err e => Err e | Ok b => Ok (mkSeqRange a b) end
            else Ok (mkSeqRange a a)
  end.

Fixpoint parseSeqParts (parts : list bytes) : result im_error (list seqRange) :=
  match parts with
  | [] => Ok []
  | p :: parts =>
      match parseSeqPart p with
      | Err e => Err e
      | Ok r => match parseSeqParts parts with Err e => Err e | Ok rs => Ok (r :: rs) end
      end
  end.
Definition parseSeqSet (s : bytes) : result im_error (list seqRange) :=
  match s with [] => Err ErrProtocol | _ => parseSeqParts (Split s 44) end.

Definition resolve_range (r : seqRange) (max : Z) : Z * Z :=
  ((if sr_lo r =? seqStar then max else sr_lo r), (if sr_hi r =? seqStar then max else sr_hi r)).

Definition in_seqRange (n max : Z) (r : seqRange) : bool :=
  let '(lo, hi) := resolve_range r max in
  let '(lo, hi) := if hi <? lo then (hi, lo) else (lo, hi) in
  (lo <=? n) && (n <=? hi).
Definition contains (ss : list seqRange) (n max : Z) : bool := existsb (in_seqRange n max) ss.

(** The end of the run of consecutive numbers that starts at [a], and the numbers after it *)
Fixpoint run_end (a : Z) (ns : list Z) : Z * list Z :=
  match ns with
  | n :: ns' => if n =? u32 (a + 1) then run_end n ns' else (a, ns)
  | [] => (a, [])
  end.

Definition esearch_part (i j : Z) : bytes := if i =? j then dec i else dec i ++ lit ":" ++ dec j.


Fixpoint esearch_parts (fuel : nat) (ns : list Z) : list bytes :=
  match fuel, ns with
  | S fuel, n :: ns => let '(j, rest) := run_end n ns in esearch_part n j :: esearch_parts fuel rest
  | _, _ => []
  end.
Definition esearchSet (ns : list Z) : bytes := Join (esearch_parts (length ns) ns) (lit ",").

Definition ids (ns : list Z) : bytes := Join (map dec ns) (lit " ").
Definition uidList (ns : list Z) : bytes := Join (map dec ns) (lit ",").

Example esearch_ex : esearchSet [2; 4; 5; 6; 7; 9] = lit "2,4:7,9".
Proof. vm_compute. reflexivity. Qed.
Example seqset_ex : (fun ss => map (fun n => contains ss n 9) [1; 2; 5; 8; 9]) <$>
  (match parseSeqSet (lit "2,*:8") with Ok s => Some s | Err _ => None end) = Some [false; true; false; true; true].
Proof. vm_compute. reflexivity. Qed.

(** ** Flags *)

Definition FlagSeen : Z := 1.
Definition FlagAnswered : Z := 2.
Definition FlagFlagged : Z := 4.
Definition FlagDeleted : Z := 8.
Definition FlagDraft : Z := 16.

Definition systemFlags : list (bytes * Z) :=
  [(lit "\Seen", FlagSeen); (lit "\Answered", FlagAnswered); (lit "\Flagged", FlagFlagged);
   (lit "\Deleted", FlagDeleted); (lit "\Draft", FlagDraft)].

Definition flagBit (name : bytes) : option Z :=
  snd <$> List.find (fun f : bytes * Z => EqualFold (fst f) name) systemFlags.

Definition formatFlags (flags : Z) (recent : bool) : bytes :=
  Join (map fst (filter (fun f => Z.land flags (snd f) <> 0) systemFlags)
        ++ if recent then [lit "\Recent"] else []) (lit " ").

Definition supportedFlagNames : bytes := Join (map fst systemFlags) (lit " ").

(** The bits of the known names *)
Definition flag_mask (names : list bytes) : Z :=
  fold_left (fun m n => match flagBit n with Some bit => Z.lor m bit | None => m end) names 0.

Definition applyFlagNames (base mode : Z) (names : list bytes) : Z :=
  let mask := flag_mask names in
  if mode =? 43 then Z.lor base mask else if mode =? 45 then Z.ldiff base mask else mask.

(** ** Tokens *)

Inductive tokenKind := tAtom | tString | tLParen | tRParen | tLBracket | tRBracket.
#[export] Instance tokenKind_eq_dec : EqDecision tokenKind.
Proof. solve_decision. Defined.
Record token := mkToken { tk_kind : tokenKind; tk_val : bytes; tk_literal : bool }.
Definition kind_is (t : token) (k : tokenKind) : bool := bool_decide (tk_kind t = k).

Definition isAtom (t : token) (want : bytes) : bool := kind_is t tAtom && EqualFold (tk_val t) want.
Definition tok_str (t : token) : option bytes :=
  if kind_is t tAtom || kind_is t tString then Some (tk_val t) else None.

(** ** The reader *)

Record rd := mkRd { rd_br : bytes; rd_lineBytes : Z; rd_prompts : nat }.
Definition reading (A : Type) : Type := rd -> result im_error A * rd.

Definition ret {A} (a : A) : reading A := fun r => (Ok a, r).
Definition fail {A} (e : im_error) : reading A := fun r => (Err e, r).
Definition rbind_rd {A B} (m : reading A) (k : A -> reading B) : reading B :=
  fun r => match m r with (Ok a, r) => k a r | (Err e, r) => (Err e, r) end.
Declare Scope imap_scope.
Delimit Scope imap_scope with imap.
Notation "'let!' x ':=' m 'in' k" := (rbind_rd m (fun x => k))
  (at level 10, x pattern, m at level 100, k at level 200) : imap_scope.
Open Scope imap_scope.

Definition defaultMaxLiteralSize : Z := 52428800.
Definition defaultMaxCommandLine : Z := 65536.

(** The cap of the operator, or the built-in one *)
Definition lineLimit (maxLine : option Z) : Z :=
  match maxLine with Some n => if 0 <? n then n else defaultMaxCommandLine | None => defaultMaxCommandLine end.
Definition literalLimit (maxLiteral : option Z) : Z :=
  match maxLiteral with Some n => if 0 <? n then n else defaultMaxLiteralSize | None => defaultMaxLiteralSize end.

(** [r.br.ReadByte], not counted *)
Definition raw_byte : reading Z := fun r =>
  match rd_br r with
  | [] => (Err ErrIO, r)
  | b :: br => (Ok b, mkRd br (rd_lineBytes r) (rd_prompts r))
  end.
(** [UnreadByte] of [b], which was counted *)
Definition unread (b : Z) : reading unit := fun r =>
  (Ok tt, mkRd (b :: rd_br r) (rd_lineBytes r - 1) (rd_prompts r)).
Definition reset_line : reading unit := fun r => (Ok tt, mkRd (rd_br r) 0 (rd_prompts r)).
Definition prompt : reading unit := fun r => (Ok tt, mkRd (rd_br r) (rd_lineBytes r) (S (rd_prompts r))).
(** [io.ReadFull] of [n] bytes *)
Definition read_full (n : Z) : reading bytes := fun r =>
  if len (rd_br r) <? n then (Err ErrIO, mkRd [] (rd_lineBytes r) (rd_prompts r))
  else (Ok (take (Z.to_nat n) (rd_br r)), mkRd (drop (Z.to_nat n) (rd_br r)) (rd_lineBytes r) (rd_prompts r)).
(** The bytes left, as fuel for the loops, each turn of which reads one *)
Definition with_fuel {A} (k : nat -> reading A) : reading A := fun r => k (S (length (rd_br r))) r.

Definition punctuation (b : Z) : option tokenKind :=
  if b =? 40 then Some tLParen else if b =? 41 then Some tRParen
  else if b =? 91 then Some tLBracket else if b =? 93 then Some tRBracket else None.
Definition isAtomDelimiter (b : Z) : bool := existsb (Z.eqb b) [32; 13; 10; 40; 41; 91; 93; 34; 123].

Section lexer.
Context (maxLine maxLiteral : option Z).

Definition readByte : reading Z := fun r =>
  match raw_byte r with
  | (Err e, r) => (Err e, r)
  | (Ok b, r) =>
      let r := mkRd (rd_br r) (rd_lineBytes r + 1) (rd_prompts r) in
      if lineLimit maxLine <? rd_lineBytes r then
        match discardLine (rd_br r) with
        | (Err _, br) => (Err ErrIO, mkRd br (rd_lineBytes r) (rd_prompts r))
        | (Ok _, br) => (Err ErrLineTooLong, mkRd br (rd_lineBytes r) (rd_prompts r))
        end
      else (Ok b, r)
  end.

Definition expectLF : reading unit :=
  let! b := raw_byte in if b =? 10 then ret tt else fail ErrProtocol.

Definition expectCRLF : reading unit :=
  let! b := raw_byte in
  if b =? 13 then expectLF else if b =? 10 then ret tt else fail ErrProtocol.

Fixpoint readAtom_loop (fuel : nat) (sb : bytes) : reading bytes :=
  match fuel with
  | O => fail ImOutOfFuel
  | S fuel => fun r =>
      match readByte r with
      | (Err ErrLineTooLong, r) => (Err ErrLineTooLong, r)
      | (Err _, r) => (Ok sb, r)
      | (Ok b, r) => if isAtomDelimiter b then (let! _ := unread b in ret sb) r else readAtom_loop fuel (sb ++ [b]) r
      end
  end.
Definition readAtom : reading bytes := with_fuel (fun fuel => readAtom_loop fuel []).

Fixpoint readQuoted_loop (fuel : nat) (sb : bytes) : reading bytes :=
  match fuel with
  | O => fail ImOutOfFuel
  | S fuel =>
      let! b := readByte in
      if b =? 34 then ret sb
      else if b =? 92 then let! esc := readByte in readQuoted_loop fuel (sb ++ [esc])
      else if (b =? 13) || (b =? 10) then fail ErrProtocol
      else readQuoted_loop fuel (sb ++ [b])
  end.
Definition readQuoted : reading bytes := with_fuel (fun fuel => readQuoted_loop fuel []).

Fixpoint literal_digits (fuel : nat) (nonSync : bool) (ds : bytes) : reading (bytes * bool) :=
  match fuel with
  | O => fail ImOutOfFuel
  | S fuel =>
      let! b := readByte in
      if b =? 125 then ret (ds, nonSync)
      else if b =? 43 then literal_digits fuel true ds
      else if negb (is_digit b) then fail ErrProtocol
      else if nonSync then fail ErrProtocol
      else literal_digits fuel nonSync (ds ++ [b])
  end.
Definition readLiteralHeader : reading (Z * bool) :=
  let! h := with_fuel (fun fuel => literal_digits fuel false []) in
  match Atoi (fst h) with
  | Some n => if n <? 0 then fail ErrProtocol else ret (n, snd h)
  | None => fail ErrProtocol
  end.

Definition readLiteral : reading bytes :=
  let! h := readLiteralHeader in
  let '(n, nonSync) := h in
  if literalLimit maxLiteral <? n then fail ErrProtocol
  else
    let! _ := expectCRLF in
    let! _ := (if nonSync then ret tt else prompt) in
    read_full n.

Definition readToken (b : Z) : reading token :=
  match punctuation b with
  | Some k => ret (mkToken k [] false)
  | None =>
      if b =? 34 then let! s := readQuoted in ret (mkToken tString s false)
      else if b =? 123 then let! s := readLiteral in ret (mkToken tString s true)
      else
        let! _ := unread b in
        let! a := readAtom in ret (mkToken tAtom a false)
  end.

Fixpoint readCommand_loop (fuel : nat) (toks : list token) : reading (list token) :=
  match fuel with
  | O => fail ImOutOfFuel
  | S fuel =>
      let! b := readByte in
      if b =? 13 then let! _ := expectLF in ret toks
      else if b =? 10 then ret toks
      else if b =? 32 then readCommand_loop fuel toks
      else let! t := readToken b in readCommand_loop fuel (toks ++ [t])
  end.
Definition readCommand : reading (list token) :=
  let! _ := reset_line in with_fuel (fun fuel => readCommand_loop fuel []).

(** The line of a SASL exchange *)
Definition readLine : reading bytes := fun r =>
  match ReadLine (rd_br r) (lineLimit maxLine) with
  | (Ok line, br) => (Ok line, mkRd br (rd_lineBytes r) (rd_prompts r))
  | (Err ErrTooLong, br) => (Err ErrLineTooLong, mkRd br (rd_lineBytes r) (rd_prompts r))
  | (Err ErrRead, br) => (Err ErrIO, mkRd br (rd_lineBytes r) (rd_prompts r))
  end.
End lexer.

Example lex_ex :
  fst (readCommand None None (mkRd (lit "a1 LOGIN u " ++ [34; 112; 92; 34; 113; 34] ++ lit " {3+}" ++ crlf ++ lit "x y" ++ lit " (\Seen)" ++ crlf ++ lit "a2") 0 0))
  = Ok [mkToken tAtom (lit "a1") false; mkToken tAtom (lit "LOGIN") false; mkToken tAtom (lit "u") false;
        mkToken tString [112; 34; 113] false; mkToken tString (lit "x y") true; mkToken tLParen [] false;
        mkToken tAtom (lit "\Seen") false; mkToken tRParen [] false].
Proof. vm_compute. reflexivity. Qed.

(** ** Writing strings *)

(** A quoted string: the quote and the backslash escaped *)
Definition escape (s : bytes) : bytes := concat (map (fun b => if (b =? 92) || (b =? 34) then [92; b] else [b]) s).
Definition quoteString (s : bytes) : bytes := [34] ++ escape s ++ [34].
Definition literalize (s : bytes) : bytes := lit "{" ++ dec (len s) ++ lit "}" ++ crlf ++ s.

Definition quotable (s : bytes) : bool :=
  negb (1024 <? len s) && forallb (fun b => negb ((0x80 <=? b) || (b =? 13) || (b =? 10) || (b =? 0))) s.
Definition imapStr (s : bytes) : bytes := if quotable s then quoteString s else literalize s.
Definition nstring (s : bytes) : bytes := match s with [] => lit "NIL" | _ => imapStr s end.
Definition safeQuoted (s : bytes) : bytes :=
  if existsb (fun b => (b =? 13) || (b =? 10) || (b =? 0)) s then literalize s else quoteString s.
