(* ===== verification/ImaplexProofs.v ===== *)
(** * IMAP: what the lexer and the sequence sets promise

    A command a client writes is lexed into its tokens; sequence sets mean the numbers they
    list; lexing ends on every input and leaves the reader at a line boundary after a line
    that is too long. *)

From stdpp Require Import base list numbers.
From Stdlib Require Import ZArith Lia.
From Stdlib Require String.
Import String.StringSyntax.
From S2P Require Import Prelude Gostr Netline Imaplex.
Open Scope Z_scope.
Open Scope imap_scope.

(** ** Sequence sets *)

Lemma Split_no_sep s sep : existsb (Z.eqb sep) s = false -> Split s sep = [s].
Proof.
  induction s as [|b s IH]; [done|]. cbn [existsb Split]. intros H. apply orb_false_iff in H as [H1 H2].
  rewrite Z.eqb_sym, H1, IH by done. done.
Qed.

Lemma Split_app s t sep : existsb (Z.eqb sep) s = false -> Split (s ++ sep :: t) sep = s :: Split t sep.
Proof.
  induction s as [|b s IH]; cbn [app existsb Split]; intros H; [by rewrite Z.eqb_refl|].
  apply orb_false_iff in H as [H1 H2]. rewrite Z.eqb_sym, H1, IH by done. done.
Qed.

(** Joining parts without the separator and splitting gives the parts back. *)
Lemma Split_Join ls sep : ls <> [] -> Forall (fun l => existsb (Z.eqb sep) l = false) ls -> Split (Join ls [sep]) sep = ls.
Proof.
  induction ls as [|l [|l' ls] IH]; intros N F; [done| |]; apply List.Forall_cons_iff in F as [F1 F2].
  - by apply Split_no_sep.
  - change (Join (l :: l' :: ls) [sep]) with (l ++ sep :: Join (l' :: ls) [sep]). rewrite Split_app by done.
    by rewrite IH.
Qed.

Lemma Cut_app s t sep : existsb (Z.eqb sep) s = false -> Cut (s ++ sep :: t) sep = (s, t).
Proof.
  induction s as [|b s IH]; cbn [app existsb Cut]; intros H; [by rewrite Z.eqb_refl|].
  apply orb_false_iff in H as [H1 H2]. rewrite Z.eqb_sym, H1, IH by done. done.
Qed.
Lemma Cut_none s sep : existsb (Z.eqb sep) s = false -> Cut s sep = (s, []).
Proof.
  induction s as [|b s IH]; cbn [existsb Cut]; intros H; [done|].
  apply orb_false_iff in H as [H1 H2]. rewrite Z.eqb_sym, H1, IH by done. done.
Qed.

Lemma no_byte_digits s c : forallb is_digit s = true -> c < 48 \/ 57 < c -> existsb (Z.eqb c) s = false.
Proof.
  intros F Hc. induction s as [|b s IH]; [done|]. cbn [forallb existsb] in *. unfold is_digit in F. bprop.
  rewrite IH by done. rewrite (proj2 (Z.eqb_neq c b)) by lia. done.
Qed.

Lemma dec_pos n : 0 <= n -> dec n = dec_nat n.
Proof. intros H. unfold dec. by rewrite (proj2 (Z.ltb_ge n 0)). Qed.

Lemma parseSeqNum_dec n : 0 < n < 2 ^ 32 -> parseSeqNum (dec n) = Ok n.
Proof.
  intros Hn. rewrite dec_pos by lia. destruct (dec_nat_digits n ltac:(lia)) as (V & F & N).
  unfold parseSeqNum, ParseUint. destruct (beq (dec_nat n) (lit "*")) eqn:B.
  - unfold beq in B. apply bool_decide_eq_true in B. by rewrite B in F.
  - destruct (dec_nat n) eqn:E; [done|]. rewrite <- E in *. rewrite V. rewrite (proj2 (Z.ltb_lt _ _)) by lia.
    rewrite (proj2 (Z.eqb_neq n 0)) by lia. done.
Qed.

Lemma esearch_part_sep i j c : 0 <= i -> 0 <= j -> c <> 58 -> c < 48 \/ 57 < c -> existsb (Z.eqb c) (esearch_part i j) = false.
Proof.
  intros Hi Hj C58 Hc. unfold esearch_part. rewrite !dec_pos by lia.
  destruct (dec_nat_digits i Hi) as (_ & Fi & _), (dec_nat_digits j Hj) as (_ & Fj & _).
  destruct (i =? j); [by apply no_byte_digits|]. rewrite !existsb_app, (no_byte_digits (dec_nat i)), (no_byte_digits (dec_nat j)) by done.
  change (existsb (Z.eqb c) (lit ":")) with ((c =? 58) || false). rewrite (proj2 (Z.eqb_neq c 58)) by done. done.
Qed.

Lemma parse_esearch_part i j : 0 < i < 2 ^ 32 -> 0 < j < 2 ^ 32 -> parseSeqPart (esearch_part i j) = Ok (mkSeqRange i j).
Proof.
  intros Hi Hj. unfold parseSeqPart, esearch_part. destruct (Z.eqb_spec i j) as [->|N].
  - destruct (dec_nat_digits j ltac:(lia)) as (_ & F & _). rewrite <- dec_pos in F by lia.
    assert (E : existsb (Z.eqb 58) (dec j) = false) by (apply no_byte_digits; [done|lia]).
    rewrite Cut_none, parseSeqNum_dec, E by done. done.
  - destruct (dec_nat_digits i ltac:(lia)) as (_ & F & _). rewrite <- dec_pos in F by lia.
    assert (E : existsb (Z.eqb 58) (dec i) = false) by (apply no_byte_digits; [done|lia]).
    change (dec i ++ lit ":" ++ dec j) with (dec i ++ 58 :: dec j). rewrite Cut_app by done.
    rewrite !parseSeqNum_dec by done. rewrite existsb_app. cbn [existsb]. rewrite Z.eqb_refl. by rewrite orb_true_r.
Qed.

(** The ranges an ascending list is written as *)
Fixpoint runs (fuel : nat) (ns : list Z) : list seqRange :=
  match fuel, ns with
  | S fuel, n :: ns => let '(j, rest) := run_end n ns in mkSeqRange n j :: runs fuel rest
  | _, _ => []
  end.

(** Strictly ascending numbers above [a] that are message numbers or UIDs *)
Fixpoint ascending (a : Z) (ns : list Z) : Prop :=
  match ns with [] => True | n :: ns => a < n < seqStar /\ ascending n ns end.

Lemma run_end_spec ns : forall a, 0 < a < seqStar -> ascending a ns ->
  let '(j, rest) := run_end a ns in
  a <= j < seqStar /\ ascending j rest /\ (length rest <= length ns)%nat
  /\ (forall n, In n (a :: ns) <-> a <= n <= j \/ In n rest).
Proof.
  induction ns as [|m ns IH]; intros a Ha A; cbn [run_end].
  - split; [lia|]. split; [done|]. split; [done|]. intros n. cbn. intuition lia.
  - destruct A as [Hm A]. unfold seqStar, u32 in *. rewrite Z.mod_small by lia.
    destruct (Z.eqb_spec m (a + 1)) as [->|N].
    + specialize (IH (a + 1) ltac:(lia) A). destruct (run_end (a + 1) ns) as [j rest]. destruct IH as (J & R & L & I).
      split; [lia|]. split; [done|]. split; [cbn; lia|]. intros n. specialize (I n). cbn [In] in *. rewrite I. intuition lia.
    + split; [lia|]. split; [done|]. split; [done|]. intros n. cbn [In]. intuition lia.
Qed.

Lemma runs_spec fuel : forall ns a, 0 <= a -> (length ns <= fuel)%nat -> ascending a ns ->
  parseSeqParts (esearch_parts fuel ns) = Ok (runs fuel ns)
  /\ Forall (fun p => existsb (Z.eqb 44) p = false) (esearch_parts fuel ns)
  /\ (forall n max, contains (runs fuel ns) n max = true <-> In n ns).
Proof.
  induction fuel as [|fuel IH]; intros [|m ns] a Ha L A; cbn [esearch_parts runs parseSeqParts]; try (by (split_and!; [done|done|intros; cbn; split; [done|tauto]])); [cbn in L; lia|].
  destruct A as [Hm A]. cbn [length] in L. pose proof (run_end_spec ns m ltac:(lia) A) as R.
  destruct (run_end m ns) as [j rest]. destruct R as (J & Ar & Lr & In_). unfold seqStar in *.
  destruct (IH rest j ltac:(lia) ltac:(lia) Ar) as (P & F & C).
  cbn [parseSeqParts]. rewrite parse_esearch_part, P by lia. split_and!; [done| |].
  - constructor; [apply esearch_part_sep; lia|done].
  - intros n max. cbn [contains existsb]. rewrite orb_true_iff. fold (contains (runs fuel rest) n max). rewrite C.
    unfold in_seqRange, resolve_range, seqStar. cbn [sr_lo sr_hi].
    rewrite (proj2 (Z.eqb_neq m _)), (proj2 (Z.eqb_neq j _)) by lia. rewrite (proj2 (Z.ltb_ge j m)) by lia.
    rewrite andb_true_iff, !Z.leb_le. rewrite (In_ n). done.
Qed.

(** The set a search answers in is read back as exactly the numbers found: for an ascending list
    of message numbers or UIDs, the compressed set parses, and it holds a number when and
    only when the list does, whatever [*] stands for. *)
Theorem esearch_set_meaning ns :
  ns <> [] -> ascending 0 ns ->
  exists ss, parseSeqSet (esearchSet ns) = Ok ss /\ forall n max, contains ss n max = true <-> In n ns.
Proof.
  intros N A. destruct (runs_spec (length ns) ns 0 ltac:(lia) ltac:(lia) A) as (P & F & C).
  exists (runs (length ns) ns). split; [|done]. unfold parseSeqSet, esearchSet.
  assert (Np : esearch_parts (length ns) ns <> []) by (destruct ns as [|m ns]; [done|]; cbn; by destruct (run_end m ns)).
  rewrite (Split_Join _ 44) by done. rewrite P. destruct (Join _ _) eqn:E; [|done]. exfalso.
  assert (S : Split (Join (esearch_parts (length ns) ns) [44]) 44 = esearch_parts (length ns) ns) by (by apply Split_Join).
  change [44] with (lit ",") in S. rewrite E in S. destruct ns as [|m ns]; [done|]. cbn in S, P.
  destruct (run_end m ns) as [j rest]. injection S as S1 S2. rewrite <- S1 in P. done.
Qed.

Lemma esearch_set_meaning_witness :
  exists ss, parseSeqSet (esearchSet [2; 4; 5; 6; 9]) = Ok ss /\ forall n max, contains ss n max = true <-> In n [2; 4; 5; 6; 9].
Proof. apply esearch_set_meaning; [discriminate|]. cbn. unfold seqStar. lia. Defined.

(** The largest 32-bit number cannot be named: it is read as [*]. *)
Example star_is_a_number : parseSeqSet (lit "4294967295") = parseSeqSet (lit "*").
Proof. vm_compute. reflexivity. Qed.

(** ** A client's command *)

(** How a client writes a token: a word, a quoted string, a literal that waits or does not wait
    for the continuation, or a bracket *)
Inductive arg := AAtom (a : bytes) | AQuoted (s : bytes) | ALiteral (s : bytes) (nonSync : bool) | APunct (b : Z).

Definition arg_token (x : arg) : token :=
  match x with
  | AAtom a => mkToken tAtom a false
  | AQuoted s => mkToken tString s false
  | ALiteral s _ => mkToken tString s true
  | APunct b => mkToken (default tLParen (punctuation b)) [] false
  end.
Definition literal_head (s : bytes) (nonSync : bool) : bytes :=
  lit "{" ++ dec (len s) ++ (if nonSync then lit "+" else []) ++ lit "}".
Definition write_arg (x : arg) : bytes :=
  match x with
  | AAtom a => a
  | AQuoted s => quoteString s
  | ALiteral s nonSync => literal_head s nonSync ++ crlf ++ s
  | APunct b => [b]
  end.
(** The bytes counted as the command line: not the literal's data *)
Definition line_cost (x : arg) : Z :=
  match x with ALiteral s nonSync => len (literal_head s nonSync) | _ => len (write_arg x) end.
Definition arg_prompts (x : arg) : nat := match x with ALiteral _ false => 1 | _ => 0 end.

Fixpoint write_args (xs : list arg) : bytes :=
  match xs with [] => [] | x :: xs => 32 :: write_arg x ++ write_args xs end.
Fixpoint args_cost (xs : list arg) : Z := match xs with [] => 0 | x :: xs => 1 + line_cost x + args_cost xs end.

Section lexing.
Context (maxLine maxLiteral : option Z).

Definition arg_ok (x : arg) : bool :=
  match x with
  | AAtom a => negb (bool_decide (a = [])) && forallb (fun b => negb (isAtomDelimiter b)) a
  | AQuoted s => forallb (fun b => negb (b =? 13) && negb (b =? 10)) s
  | ALiteral s _ => (len s <=? literalLimit maxLiteral) && (len s <? 2 ^ 63)
  | APunct b => bool_decide (is_Some (punctuation b))
  end.

Abbreviation limit := (lineLimit maxLine).

Lemma readByte_ok b br n p : n + 1 <= limit -> readByte maxLine (mkRd (b :: br) n p) = (Ok b, mkRd br (n + 1) p).
Proof. intros H. unfold readByte, raw_byte. cbn. by rewrite (proj2 (Z.ltb_ge _ _)). Qed.

Lemma bind_ok {A B} (m : reading A) (k : A -> reading B) r a r' : m r = (Ok a, r') -> rbind_rd m k r = k a r'.
Proof. intros H. unfold rbind_rd. by rewrite H. Qed.

Lemma readAtom_ok a : forall sb fuel next rest n p,
  forallb (fun b => negb (isAtomDelimiter b)) a = true -> isAtomDelimiter next = true ->
  n + len a + 1 <= limit -> (length a < fuel)%nat ->
  readAtom_loop maxLine fuel sb (mkRd (a ++ next :: rest) n p) = (Ok (sb ++ a), mkRd (next :: rest) (n + len a) p).
Proof.
  induction a as [|b a IH]; intros sb [|fuel] next rest n p F D L Hf; try (cbn in Hf; lia); cbn [readAtom_loop app].
  - change (len (@nil Z)) with 0 in L. rewrite readByte_ok by lia. rewrite D. unfold rbind_rd, unread, ret. cbn.
    rewrite app_nil_r. do 2 f_equal. change (len (@nil Z)) with 0. lia.
  - cbn [forallb] in F. bsplit. rewrite len_cons in *. pose proof (len_nonneg a). rewrite readByte_ok by lia.
    rewrite (proj1 (negb_true_iff _)) by done. rewrite IH by (done || lia || (cbn in Hf; lia)).
    rewrite <- app_assoc. do 2 f_equal. lia.
Qed.

Lemma readQuoted_ok s : forall sb fuel rest n p,
  forallb (fun b => negb (b =? 13) && negb (b =? 10)) s = true ->
  n + len (escape s) + 1 <= limit -> (length s < fuel)%nat ->
  readQuoted_loop maxLine fuel sb (mkRd (escape s ++ 34 :: rest) n p) = (Ok (sb ++ s), mkRd rest (n + len (escape s) + 1) p).
Proof.
  induction s as [|b s IH]; intros sb [|fuel] rest n p F L Hf; try (cbn in Hf; lia); cbn [readQuoted_loop].
  - change (escape [] ++ 34 :: rest) with (34 :: rest). change (len (escape [])) with 0 in *.
    erewrite bind_ok by (apply readByte_ok; lia). change (34 =? 34) with true. cbv iota. unfold ret.
    rewrite app_nil_r. do 2 f_equal. lia.
  - cbn [forallb] in F. bsplit. unfold escape in *. cbn [map concat] in *. fold (escape s) in *.
    rewrite len_app in *. pose proof (len_nonneg (escape s)) as Hp. rewrite <- app_assoc.
    assert (Hf' : (length s < fuel)%nat) by (cbn in Hf; lia).
    destruct ((b =? 92) || (b =? 34)) eqn:E; cbn [app] in *.
    + change (len [92; b]) with 2 in *. erewrite bind_ok by (apply readByte_ok; lia).
      change (92 =? 34) with false. change (92 =? 92) with true. cbv iota.
      erewrite bind_ok by (apply readByte_ok; lia). rewrite IH by (done || lia). rewrite <- app_assoc. do 2 f_equal. lia.
    + change (len [b]) with 1 in *. erewrite bind_ok by (apply readByte_ok; lia).
      apply orb_false_iff in E as [E1 E2]. rewrite E1, E2.
      match goal with H : negb (b =? 13) = true, K : negb (b =? 10) = true |- _ => apply negb_true_iff in H, K; rewrite H, K end.
      cbn [orb]. rewrite IH by (done || lia). rewrite <- app_assoc. do 2 f_equal. lia.
Qed.

Lemma literal_digits_ok ds : forall acc fuel rest n p,
  forallb is_digit ds = true -> n + len ds <= limit -> (length ds <= fuel)%nat ->
  literal_digits maxLine fuel false acc (mkRd (ds ++ rest) n p)
  = literal_digits maxLine (fuel - length ds) false (acc ++ ds) (mkRd rest (n + len ds) p).
Proof.
  induction ds as [|d ds IH]; intros acc fuel rest n p F L Hf; cbn [app].
  - rewrite app_nil_r, Nat.sub_0_r. change (len (@nil Z)) with 0. by rewrite Z.add_0_r.
  - destruct fuel as [|fuel]; [cbn in Hf; lia|]. cbn [forallb literal_digits] in *. bsplit. rewrite len_cons in *.
    pose proof (len_nonneg ds). erewrite bind_ok by (apply readByte_ok; lia).
    assert (Hd : d <> 125 /\ d <> 43) by (unfold is_digit in *; bprop; lia).
    rewrite (proj2 (Z.eqb_neq d 125)), (proj2 (Z.eqb_neq d 43)) by lia.
    match goal with H : is_digit d = true |- _ => rewrite H end. cbn [negb]. rewrite IH by (done || lia || (cbn in Hf; lia)).
    cbn [length Nat.sub]. rewrite <- app_assoc. do 2 f_equal. lia.
Qed.

Lemma literal_close (nonSync : bool) ds fuel rest n p :
  n + len (if nonSync then lit "+" else []) + 1 <= limit -> (2 <= fuel)%nat ->
  literal_digits maxLine fuel false ds (mkRd ((if nonSync then lit "+" else []) ++ lit "}" ++ rest) n p)
  = (Ok (ds, nonSync), mkRd rest (n + len (if nonSync then lit "+" else []) + 1) p).
Proof.
  intros L Hf. destruct fuel as [|[|fuel]]; [lia|lia|]. destruct nonSync.
  - change (len (lit "+")) with 1 in *. change (lit "+" ++ lit "}" ++ rest) with (43 :: 125 :: rest). cbn [literal_digits].
    erewrite bind_ok by (apply readByte_ok; lia). change (43 =? 125) with false. change (43 =? 43) with true. cbv iota.
    erewrite bind_ok by (apply readByte_ok; lia). reflexivity.
  - change (len (@nil Z)) with 0 in *. change ([] ++ lit "}" ++ rest) with (125 :: rest). cbn [literal_digits].
    erewrite bind_ok by (apply readByte_ok; lia). change (125 =? 125) with true. cbv iota. unfold ret. do 2 f_equal. lia.
Qed.

Lemma literal_head_ok s nonSync rest n p : len s < 2 ^ 63 -> n + len (literal_head s nonSync) - 1 <= limit ->
  readLiteralHeader maxLine (mkRd (drop 1 (literal_head s nonSync) ++ rest) n p)
  = (Ok (len s, nonSync), mkRd rest (n + len (literal_head s nonSync) - 1) p).
Proof.
  intros Hs L. pose proof (len_nonneg s) as Hp. destruct (dec_nat_digits (len s) Hp) as (V & F & N). rewrite <- dec_pos in F by done.
  unfold readLiteralHeader, literal_head in *. change (drop 1 (lit "{" ++ ?x)) with x.
  rewrite !len_app in *. change (len (lit "{")) with 1 in *. change (len (lit "}")) with 1 in *.
  pose proof (len_nonneg (dec (len s))) as Hd. pose proof (len_nonneg (if nonSync then lit "+" else [])) as Ht.
  rewrite <- !app_assoc. etransitivity; [eapply bind_ok|].
  - unfold with_fuel. cbn [rd_br]. rewrite literal_digits_ok by (try done; try lia; rewrite ?length_app; lia).
    apply literal_close; [lia|]. rewrite !length_app. cbn [length lit map String.list_ascii_of_string]. lia.
  - cbn [fst snd app]. rewrite Atoi_dec by lia. rewrite (proj2 (Z.ltb_ge _ 0)) by lia. unfold ret. do 2 f_equal. lia.
Qed.

Lemma delimiter_false b : isAtomDelimiter b = false ->
  b <> 32 /\ b <> 13 /\ b <> 10 /\ b <> 34 /\ b <> 123 /\ punctuation b = None.
Proof.
  unfold isAtomDelimiter, punctuation. cbn [existsb]. rewrite !orb_false_iff. intros H. destruct_and! H. bprop.
  repeat split; try lia. rewrite !(proj2 (Z.eqb_neq b _)) by lia. done.
Qed.

Lemma read_full_ok s rest n p : read_full (len s) (mkRd (s ++ rest) n p) = (Ok s, mkRd rest n p).
Proof.
  unfold read_full. cbn [rd_br]. rewrite len_app. pose proof (len_nonneg rest). rewrite (proj2 (Z.ltb_ge _ _)) by lia.
  unfold len. rewrite Nat2Z.id, take_app_length, drop_app_length. done.
Qed.

Lemma expectCRLF_ok rest n p : expectCRLF (mkRd (crlf ++ rest) n p) = (Ok tt, mkRd rest n p).
Proof. reflexivity. Qed.

Lemma readLiteral_ok s (ns : bool) rest n p :
  len s <= literalLimit maxLiteral -> len s < 2 ^ 63 -> n + len (literal_head s ns) - 1 <= limit ->
  readLiteral maxLine maxLiteral (mkRd (drop 1 (literal_head s ns) ++ crlf ++ s ++ rest) n p)
  = (Ok s, mkRd rest (n + len (literal_head s ns) - 1) (p + if ns then 0 else 1)).
Proof.
  intros H1 H2 L. unfold readLiteral. erewrite bind_ok by (by apply literal_head_ok). cbv beta iota.
  rewrite (proj2 (Z.ltb_ge _ _)) by lia. rewrite (bind_ok _ _ _ _ _ (expectCRLF_ok _ _ _)).
  destruct ns; (etransitivity; [eapply bind_ok; reflexivity|]); cbn [rd_br rd_lineBytes rd_prompts];
    rewrite read_full_ok; do 2 f_equal; lia.
Qed.

(** The first byte of a written token starts it, and the rest is its token. *)
Lemma read_arg x next rest n p :
  arg_ok x = true -> isAtomDelimiter next = true -> n + line_cost x + 1 <= limit ->
  exists b tl, write_arg x = b :: tl /\ b <> 13 /\ b <> 10 /\ b <> 32 /\
    readToken maxLine maxLiteral b (mkRd (tl ++ next :: rest) (n + 1) p)
    = (Ok (arg_token x), mkRd (next :: rest) (n + line_cost x) (p + arg_prompts x)).
Proof.
  intros O D L. destruct x as [a|s|s ns|b]; cbn [arg_ok write_arg line_cost arg_token arg_prompts] in *.
  - destruct a as [|b a]; [done|]. bsplit. exists b, a. cbn [forallb] in *. bsplit.
    assert (Db : isAtomDelimiter b = false) by (by apply negb_true_iff). destruct (delimiter_false b Db) as (D1 & D2 & D3 & D4 & D5 & D6).
    split_and!; try done. unfold readToken. rewrite D6, (proj2 (Z.eqb_neq b 34)), (proj2 (Z.eqb_neq b 123)) by done.
    rewrite len_cons in *. pose proof (len_nonneg a). erewrite bind_ok by reflexivity. cbn [rd_br rd_lineBytes rd_prompts].
    erewrite bind_ok.
    2: { unfold readAtom, with_fuel. cbn [rd_br]. apply (readAtom_ok (b :: a)); try done.
         - cbn [forallb]. bjoin.
         - rewrite len_cons. lia.
         - cbn [length app]. rewrite length_app. lia. }
    unfold ret. rewrite Nat.add_0_r, len_cons. do 2 f_equal. lia.
  - exists 34, (escape s ++ [34]). split_and!; try done. unfold readToken. cbn [punctuation]. change (punctuation 34) with (@None tokenKind).
    cbv iota. change (34 =? 34) with true. cbv iota. unfold quoteString in *. rewrite !len_app in *. change (len [34]) with 1 in *.
    pose proof (len_nonneg (escape s)). rewrite <- app_assoc. erewrite bind_ok.
    2: { unfold readQuoted, with_fuel. apply readQuoted_ok; [done|lia|]. cbn [rd_br]. rewrite length_app.
         enough (length s <= length (escape s))%nat by lia. clear. unfold escape. induction s as [|b s IH]; [done|]. cbn [map concat].
         rewrite length_app. destruct (_ || _); cbn [length] in *; lia. }
    unfold ret. rewrite Nat.add_0_r. cbn [app]. do 2 f_equal. lia.
  - bsplit. exists 123, (drop 1 (literal_head s ns) ++ crlf ++ s). split_and!; try done. unfold readToken.
    change (punctuation 123) with (@None tokenKind). cbv iota. change (123 =? 34) with false. change (123 =? 123) with true. cbv iota.
    bprop. rewrite <- !app_assoc. erewrite bind_ok by (apply readLiteral_ok; lia). unfold ret.
    do 2 f_equal. lia.
  - apply bool_decide_eq_true in O as [k O]. exists b, []. change (len [b]) with 1 in *. rewrite Nat.add_0_r. unfold readToken. rewrite O.
    split_and!; try (intros ->; by vm_compute in O); done.
Qed.

Definition total_prompts (xs : list arg) : nat := foldr (fun x k => (arg_prompts x + k)%nat) 0%nat xs.

Lemma write_args_delim xs tail : exists next rest, write_args xs ++ crlf ++ tail = next :: rest /\ isAtomDelimiter next = true.
Proof. destruct xs as [|x xs]; cbn [write_args app]; eauto. Qed.

Lemma write_arg_fuel x xs : arg_ok x = true -> (length xs + 1 <= length (write_arg x ++ write_args xs))%nat.
Proof.
  intros O. assert (N : (1 <= length (write_arg x))%nat).
  { destruct x as [a|s|s ns|b]; cbn [write_arg arg_ok] in *; [|cbn; lia..].
    destruct a; [done|]. cbn. lia. }
  rewrite length_app. enough (length xs <= length (write_args xs))%nat by lia. clear.
  induction xs as [|x xs IH]; cbn [write_args length]; [done|]. rewrite length_app. lia.
Qed.

(** The rest of a command, from after a token to its end *)
Lemma read_args xs : forall toks fuel tail n p,
  forallb arg_ok xs = true -> n + args_cost xs + 1 <= limit -> (2 * length xs < fuel)%nat ->
  readCommand_loop maxLine maxLiteral fuel toks (mkRd (write_args xs ++ crlf ++ tail) n p)
  = (Ok (toks ++ map arg_token xs), mkRd tail (n + args_cost xs + 1) (p + total_prompts xs)).
Proof.
  induction xs as [|x xs IH]; intros toks fuel tail n p O L Hf; cbn [write_args app args_cost] in *.
  - destruct fuel as [|fuel]; [lia|]. cbn [readCommand_loop]. change (crlf ++ tail) with (13 :: 10 :: tail).
    erewrite bind_ok by (apply readByte_ok; lia). change (13 =? 13) with true. cbv iota. cbn [total_prompts foldr map].
    rewrite Nat.add_0_r, app_nil_r. unfold rbind_rd, ret, expectLF. cbn. do 2 f_equal. lia.
  - cbn [forallb length] in *. bsplit. destruct fuel as [|[|fuel]]; [lia|lia|]. cbn [readCommand_loop].
    assert (Hc : 0 <= line_cost x) by (destruct x; apply len_nonneg).
    assert (Hx : 0 <= args_cost xs).
    { clear. induction xs as [|y ys IH]; cbn [args_cost]; [lia|]. assert (0 <= line_cost y) by (destruct y; apply len_nonneg). lia. }
    erewrite bind_ok by (apply readByte_ok; lia). change (32 =? 13) with false. change (32 =? 10) with false. change (32 =? 32) with true. cbv iota.
    cbn [readCommand_loop]. destruct (write_args_delim xs tail) as (next & rest & E & D).
    destruct (read_arg x next rest (n + 1) p) as (b & tl & W & N1 & N2 & N3 & R); [done|done|lia|].
    rewrite <- app_assoc, W. cbn [app]. rewrite E. erewrite bind_ok by (apply readByte_ok; lia).
    rewrite (proj2 (Z.eqb_neq b 13)), (proj2 (Z.eqb_neq b 10)), (proj2 (Z.eqb_neq b 32)) by done.
    erewrite bind_ok by exact R. rewrite <- E. rewrite IH by (done || lia). cbn [map total_prompts foldr]. rewrite <- app_assoc.
    do 2 f_equal; [lia|]. unfold total_prompts. lia.
Qed.

(** A client's command is understood: whatever tokens it consists of, written as words, quoted
    strings with their escapes, literals that wait or do not wait, and brackets, the lexer
    returns exactly these tokens, asks for each waiting literal once, and leaves the reader
    at the next command, for every command within the line and literal limits. *)
Theorem command_round_trip x xs tail n p :
  forallb arg_ok (x :: xs) = true -> line_cost x + args_cost xs + 1 <= limit ->
  readCommand maxLine maxLiteral (mkRd (write_arg x ++ write_args xs ++ crlf ++ tail) n p)
  = (Ok (map arg_token (x :: xs)), mkRd tail (line_cost x + args_cost xs + 1) (p + total_prompts (x :: xs))).
Proof.
  intros O L. cbn [forallb] in O. bsplit. unfold readCommand. erewrite bind_ok by reflexivity. cbn [rd_br rd_prompts].
  unfold with_fuel. cbn [rd_br].
  assert (Hx : 0 <= args_cost xs).
  { clear. induction xs as [|y ys IH]; cbn [args_cost]; [lia|]. assert (0 <= line_cost y) by (destruct y; apply len_nonneg). lia. }
  assert (Hc : 0 <= line_cost x) by (destruct x; apply len_nonneg).
  assert (Hf : (2 * length xs + 1 <= length (write_arg x ++ write_args xs ++ crlf ++ tail))%nat).
  { rewrite !length_app. assert (N : (1 <= length (write_arg x))%nat) by (pose proof (write_arg_fuel x [] ltac:(done)) as Q; cbn in Q; rewrite app_nil_r in Q; lia).
    assert (M : (2 * length xs <= length (write_args xs))%nat); [|lia].
    clear Hx L N. induction xs as [|y ys IH]; cbn [write_args length]; [done|]. cbn [forallb] in *. bsplit. rewrite length_app.
    pose proof (write_arg_fuel y [] ltac:(done)) as Q. cbn in Q. rewrite app_nil_r in Q. specialize (IH ltac:(done)). lia. }
  cbn [readCommand_loop]. destruct (write_args_delim xs tail) as (next & rest & E & D).
  destruct (read_arg x next rest 0 p) as (b & tl & W & N1 & N2 & N3 & R); [done|done|lia|].
  revert Hf. rewrite E, W. cbn [app]. intros Hf. erewrite bind_ok by (apply readByte_ok; lia).
  rewrite (proj2 (Z.eqb_neq b 13)), (proj2 (Z.eqb_neq b 10)), (proj2 (Z.eqb_neq b 32)) by done.
  erewrite bind_ok by exact R. rewrite <- E in Hf |- *. rewrite read_args by (done || lia).
  cbn [map total_prompts foldr app]. do 2 f_equal. unfold total_prompts. lia.
Qed.
End lexing.

Lemma command_round_trip_witness :
  readCommand None (Some 100)
    (mkRd (write_arg (AAtom (lit "a1")) ++ write_args [AAtom (lit "APPEND"); AQuoted [34; 92; 65]; APunct 40; AAtom (lit "\Seen"); APunct 41; ALiteral (lit "x y") false]
           ++ crlf ++ lit "a2") 7 0)
  = (Ok (map arg_token [AAtom (lit "a1"); AAtom (lit "APPEND"); AQuoted [34; 92; 65]; APunct 40; AAtom (lit "\Seen"); APunct 41; ALiteral (lit "x y") false]),
     mkRd (lit "a2")
       (line_cost (AAtom (lit "a1")) + args_cost [AAtom (lit "APPEND"); AQuoted [34; 92; 65]; APunct 40; AAtom (lit "\Seen"); APunct 41; ALiteral (lit "x y") false] + 1)
       (0 + total_prompts [AAtom (lit "a1"); AAtom (lit "APPEND"); AQuoted [34; 92; 65]; APunct 40; AAtom (lit "\Seen"); APunct 41; ALiteral (lit "x y") false])).
Proof. apply command_round_trip; [reflexivity|]. vm_compute. discriminate. Defined.
