(* ===== verification/Imapsearch.v ===== *)
(** * IMAP: mailbox names and search criteria ([internal/imap])

    [mailbox.go] (the folder tree, its names, the LIST wildcards) and [search.go] (the SEARCH
    criteria and their results).  The header parser of [net/textproto], the date parser of
    [net/mail] and [strings.ToLower] are parameters; the dates of the search keys are read
    here. *)

From stdpp Require Import base list numbers gmap.
From Stdlib Require Import ZArith Lia.
From Stdlib Require String.
Import String.StringSyntax.
From S2P Require Import Prelude Gostr Netline Imaplex.
Open Scope Z_scope.

(** ** The wildcards of LIST *)

Definition hierarchySep : Z := 47.
Definition inboxName : bytes := lit "INBOX".

(** [rest] is the match of the pattern after the wildcard. *)
Fixpoint matchWildcard (rest : bytes -> bool) (name : bytes) (stopAtSep : bool) : bool :=
  rest name ||
  match name with
  | [] => false
  | b :: name => if stopAtSep && (b =? hierarchySep) then false else matchWildcard rest name stopAtSep
  end.

Fixpoint imapMatch (pattern name : bytes) : bool :=
  match pattern with
  | [] => beq name []
  | p :: pattern =>
      if p =? 42 then matchWildcard (imapMatch pattern) name false
      else if p =? 37 then matchWildcard (imapMatch pattern) name true
      else match name with
           | [] => false
           | b :: name => (b =? p) && imapMatch pattern name
           end
  end.

(** RFC 3501, 6.3.8: [*] stands for any string, [%] for any string without the separator. *)
Inductive listed : bytes -> bytes -> Prop :=
| listed_end : listed [] []
| listed_char c p n : c <> 42 -> c <> 37 -> listed p n -> listed (c :: p) (c :: n)
| listed_star p s n : listed p n -> listed (42 :: p) (s ++ n)
| listed_percent p s n : hierarchySep ∉ s -> listed p n -> listed (37 :: p) (s ++ n).

(** ** The folder tree *)

Record FolderInfo := mkFolder { fi_ID : Z; fi_ParentID : option Z; fi_DisplayName : bytes; fi_Subscribed : bool }.
Record folderNode := mkNode { fn_info : FolderInfo; fn_path : bytes; fn_hasChildren : bool }.

(** [byID]: a later folder of the same id replaces an earlier one. *)
Definition byID (folders : list FolderInfo) (id : Z) : option FolderInfo :=
  List.find (fun f => fi_ID f =? id) (rev folders).

(** The recursion follows the parents: [fuel] bounds how many. *)
Fixpoint pathOf (fuel : nat) (folders : list FolderInfo) (n : FolderInfo) : option bytes :=
  match fuel with
  | O => None
  | S fuel =>
      match fi_ParentID n with
      | None => Some (if EqualFold (fi_DisplayName n) inboxName then inboxName else fi_DisplayName n)
      | Some p =>
          match byID folders p with
          | None => Some (fi_DisplayName n)
          | Some parent => (fun path => path ++ [hierarchySep] ++ fi_DisplayName n) <$> pathOf fuel folders parent
          end
      end
  end.

Definition has_children (folders : list FolderInfo) (id : Z) : bool :=
  existsb (fun f => match fi_ParentID f with Some p => p =? id | None => false end) folders.

(** Each node with its path and whether a folder names it as its parent *)
Definition node_of (folders : list FolderInfo) (f : FolderInfo) : option folderNode :=
  (fun path => mkNode f path (has_children folders (fi_ID f))) <$> pathOf (S (length folders)) folders f.

(** The tree of a folder list; [None] when the parents form a cycle. *)
Definition loadFolderTree (folders : list FolderInfo) : option (list folderNode) := mapM (node_of folders) folders.

(** [byPath]: the last of the nodes of one path *)
Definition byPath (tree : list folderNode) (path : bytes) : option folderNode :=
  List.find (fun n => beq (fn_path n) path) (rev tree).
Definition resolve (tree : list folderNode) (name : bytes) : option folderNode :=
  if EqualFold name inboxName then byPath tree inboxName else byPath tree name.

(** ** Dates of the search keys *)

Record date := mkDate { dt_year : Z; dt_month : Z; dt_day : Z }.

Definition months : list bytes :=
  [lit "jan"; lit "feb"; lit "mar"; lit "apr"; lit "may"; lit "jun"; lit "jul"; lit "aug"; lit "sep"; lit "oct"; lit "nov"; lit "dec"].

Definition isLeap (y : Z) : bool := (y mod 4 =? 0) && (negb (y mod 100 =? 0) || (y mod 400 =? 0)).
Definition daysIn (m y : Z) : Z :=
  if m =? 2 then (if isLeap y then 29 else 28)
  else if existsb (Z.eqb m) [4; 6; 9; 11] then 30 else 31.

Definition fold_letter (b : Z) : Z := Z.lor b 32.
(** The first of the names from [m] on that [s] starts with *)
Fixpoint lookup_month (m : Z) (names : list bytes) (s : bytes) : option (Z * bytes) :=
  match names with
  | [] => None
  | n :: names => if HasPrefix (map fold_letter s) n then Some (m, drop 3 s) else lookup_month (m + 1) names s
  end.

Definition skip (c : Z) (s : bytes) : option bytes := match s with b :: s => if b =? c then Some s else None | [] => None end.

(** [time.Parse("2-Jan-2006", s)] *)
Definition parse_day (s : bytes) : option (Z * bytes) :=
  match s with
  | a :: b :: s' => if is_digit a then (if is_digit b then Some (10 * (a - 48) + (b - 48), s') else Some (a - 48, b :: s')) else None
  | [a] => if is_digit a then Some (a - 48, []) else None
  | [] => None
  end.
Definition parse_year (s : bytes) : option Z :=
  match s with
  | [a; b; c; d] => digits 0 s
  | _ => None
  end.
Definition parse_date (s : bytes) : option date :=
  '(d, s) ← parse_day s;
  s ← skip 45 s;
  '(m, s) ← lookup_month 1 months s;
  s ← skip 45 s;
  y ← parse_year s;
  if (d <? 1) || (daysIn m y <? d) then None else Some (mkDate y m d).

Definition date_lt (a b : date) : bool :=
  (dt_year a <? dt_year b)
  || ((dt_year a =? dt_year b)
      && ((dt_month a <? dt_month b) || ((dt_month a =? dt_month b) && (dt_day a <? dt_day b)))).
Definition date_eq (a b : date) : bool :=
  (dt_year a =? dt_year b) && (dt_month a =? dt_month b) && (dt_day a =? dt_day b).

Example date_ex : parse_date (lit "1-fEb-1994") = Some (mkDate 1994 2 1) /\ parse_date (lit "29-Feb-2023") = None
  /\ parse_date (lit "29-Feb-2024") = Some (mkDate 2024 2 29) /\ parse_date (lit "001-Feb-2024") = None.
Proof. vm_compute. done. Qed.

(** ** One message under search *)

(** The columns of a listed message that IMAP reads; the internal date by its calendar day,
    with the part of the day that only APPEND and FETCH look at *)
Record MessageInfo := mkInfo { mi_UID : Z; mi_Size : Z; mi_Flags : Z; mi_InternalDate : date; mi_time : Z }.

(** What a matcher sees: the message, its number, the largest number and UID of the mailbox,
    and its raw bytes, which the code loads on the first key that needs them. *)
Record searchCtx := mkCtx { sc_seq : Z; sc_msg : MessageInfo; sc_maxSeq : Z; sc_maxUID : Z; sc_raw : bytes }.
Definition matcher : Type := searchCtx -> bool.

Definition bodyStart (raw : bytes) : nat :=
  match Index raw (crlf ++ crlf) with
  | Some i => i + 4
  | None => match Index raw [LF; LF] with Some i => i + 2 | None => length raw end
  end%nat.

Definition matchAll : matcher := fun _ => true.
Definition matchNone : matcher := fun _ => false.
Definition flagSet (bit : Z) (want : bool) : matcher :=
  fun s => Bool.eqb (negb (Z.land (mi_Flags (sc_msg s)) bit =? 0)) want.

Definition constantSearchKeys : list (bytes * matcher) :=
  [(lit "ALL", matchAll);
   (lit "ANSWERED", flagSet FlagAnswered true); (lit "UNANSWERED", flagSet FlagAnswered false);
   (lit "DELETED", flagSet FlagDeleted true); (lit "UNDELETED", flagSet FlagDeleted false);
   (lit "DRAFT", flagSet FlagDraft true); (lit "UNDRAFT", flagSet FlagDraft false);
   (lit "FLAGGED", flagSet FlagFlagged true); (lit "UNFLAGGED", flagSet FlagFlagged false);
   (lit "SEEN", flagSet FlagSeen true); (lit "UNSEEN", flagSet FlagSeen false);
   (lit "NEW", matchNone); (lit "RECENT", matchNone); (lit "OLD", matchAll)].

Definition find_key {A} (table : list (bytes * A)) (key : bytes) : option A :=
  snd <$> List.find (fun e => beq (fst e) key) table.

Section search.
(** [strings.ToLower]; the values of a header field of the head of a message
    ([textproto.ReadMIMEHeader], [MIMEHeader.Values]); [mail.ParseDate], as a calendar day *)
Context (ToLower : bytes -> bytes) (header_values : bytes -> bytes -> list bytes) (ParseDate : bytes -> option date).

Definition sc_hdr (s : searchCtx) (field : bytes) : list bytes :=
  header_values (take (bodyStart (sc_raw s)) (sc_raw s)) field.
Definition sc_body (s : searchCtx) : bytes := drop (bodyStart (sc_raw s)) (sc_raw s).
Definition header (s : searchCtx) (name : bytes) : bytes := Join (sc_hdr s name) (lit " ").

Definition headerContains (field needle : bytes) : matcher := fun s =>
  match sc_hdr s field with
  | [] => false
  | vals => Contains (ToLower (Join vals (lit " "))) (ToLower needle)
  end.

Definition text_matcher (body : bool) (needle : bytes) : matcher := fun s =>
  Contains (ToLower (if body then sc_body s else sc_raw s)) (ToLower needle).

Definition size_matcher (larger : bool) (n : Z) : matcher := fun s =>
  if larger then n <? mi_Size (sc_msg s) else mi_Size (sc_msg s) <? n.

Definition seq_matcher (uid : bool) (set : list seqRange) : matcher := fun s =>
  if uid then contains set (mi_UID (sc_msg s)) (sc_maxUID s) else contains set (sc_seq s) (sc_maxSeq s).

(** [SINCE], [BEFORE] and [ON], of the internal date or of the Date header *)
Inductive dateKey := Since | Before | On.
Definition date_test (k : dateKey) (day d : date) : bool :=
  match k with Since => negb (date_lt day d) | Before => date_lt day d | On => date_eq day d end.
Definition date_matcher (k : dateKey) (sent : bool) (d : date) : matcher := fun s =>
  if sent then match ParseDate (header s (lit "Date")) with Some t => date_test k t d | None => false end
  else date_test k (mi_InternalDate (sc_msg s)) d.

(** The keys that read further tokens *)
Inductive keyParser :=
| pKeyword (any : bool) | pUID | pHeaderMatch (field : bytes) | pHeader | pText (body : bool) | pSize (larger : bool)
| pDate (k : dateKey) (sent : bool) | pNot | pOr.

Definition searchKeyParsers : list (bytes * keyParser) :=
  [(lit "KEYWORD", pKeyword false); (lit "UNKEYWORD", pKeyword true); (lit "UID", pUID);
   (lit "FROM", pHeaderMatch (lit "FROM")); (lit "TO", pHeaderMatch (lit "TO")); (lit "CC", pHeaderMatch (lit "CC"));
   (lit "BCC", pHeaderMatch (lit "BCC")); (lit "SUBJECT", pHeaderMatch (lit "SUBJECT"));
   (lit "HEADER", pHeader); (lit "BODY", pText true); (lit "TEXT", pText false);
   (lit "LARGER", pSize true); (lit "SMALLER", pSize false);
   (lit "SINCE", pDate Since false); (lit "BEFORE", pDate Before false); (lit "ON", pDate On false);
   (lit "SENTSINCE", pDate Since true); (lit "SENTBEFORE", pDate Before true); (lit "SENTON", pDate On true);
   (lit "NOT", pNot); (lit "OR", pOr)].

(** A cursor is the tokens still to be read. *)
Definition parsed : Type := result im_error (matcher * list token).

Definition next_val (cur : list token) (k : bytes -> result im_error matcher) : parsed :=
  match cur with
  | [] => Err ErrProtocol
  | t :: cur => match k (tk_val t) with Ok m => Ok (m, cur) | Err e => Err e end
  end.

Definition seqMatch (cur : list token) (uid : bool) : parsed :=
  next_val cur (fun v => match parseSeqSet v with Ok set => Ok (seq_matcher uid set) | Err e => Err e end).
Definition headerMatch (cur : list token) (field : bytes) : parsed :=
  next_val cur (fun v => Ok (headerContains field v)).
Definition parseTextKey (cur : list token) (body : bool) : parsed := next_val cur (fun v => Ok (text_matcher body v)).
Definition parseSizeKey (cur : list token) (larger : bool) : parsed :=
  next_val cur (fun v => match Atoi v with Some n => Ok (size_matcher larger n) | None => Err ErrProtocol end).
Definition dateMatch (cur : list token) (k : dateKey) (sent : bool) : parsed :=
  next_val cur (fun v => match parse_date v with Some d => Ok (date_matcher k sent d) | None => Err ErrProtocol end).
Definition parseKeywordKey (cur : list token) (any : bool) : parsed :=
  Ok (if any then matchAll else matchNone, List.tl cur).
Definition parseHeaderKey (cur : list token) : parsed :=
  match cur with
  | field :: value :: cur => Ok (headerContains (tk_val field) (tk_val value), cur)
  | _ => Err ErrProtocol
  end.

(** The conjunction of the keys *)
Definition all_of (ms : list matcher) : matcher := fun s => forallb (fun m => m s) ms.

Definition parseNotKey (key : list token -> parsed) (cur : list token) : parsed :=
  match key cur with Ok (sub, cur) => Ok (fun s => negb (sub s), cur) | Err e => Err e end.
Definition parseOrKey (key : list token -> parsed) (cur : list token) : parsed :=
  match key cur with
  | Err e => Err e
  | Ok (a, cur) => match key cur with Ok (b, cur) => Ok (fun s => a s || b s, cur) | Err e => Err e end
  end.

Definition run_parser (key : list token -> parsed) (p : keyParser) (cur : list token) : parsed :=
  match p with
  | pKeyword any => parseKeywordKey cur any
  | pUID => seqMatch cur true
  | pHeaderMatch field => headerMatch cur field
  | pHeader => parseHeaderKey cur
  | pText body => parseTextKey cur body
  | pSize larger => parseSizeKey cur larger
  | pDate k sent => dateMatch cur k sent
  | pNot => parseNotKey key cur
  | pOr => parseOrKey key cur
  end.

(** The loop of [parseSearchKeys] over the keys, [ms] so far *)
Fixpoint keys_loop (fuel : nat) (key : list token -> parsed) (ms : list matcher) (cur : list token) : parsed :=
  let stop := match ms with [] => Err ErrProtocol | _ => Ok (all_of ms, cur) end in
  match cur with
  | [] => stop
  | t :: _ =>
      if kind_is t tRParen then stop
      else match fuel with
           | O => Err ImOutOfFuel
           | S fuel => match key cur with Ok (m, cur) => keys_loop fuel key (ms ++ [m]) cur | Err e => Err e end
           end
  end.

Fixpoint parseSearchKey (fuel : nat) (cur : list token) : parsed :=
  match fuel with
  | O => Err ImOutOfFuel
  | S fuel =>
      match cur with
      | [] => Err ErrProtocol
      | t :: cur =>
          if kind_is t tLParen then
            match keys_loop fuel (parseSearchKey fuel) [] cur with
            | Err e => Err e
            | Ok (inner, end_ :: cur) => if kind_is end_ tRParen then Ok (inner, cur) else Err ErrProtocol
            | Ok (inner, []) => Err ErrProtocol
            end
          else
            let key := ToUpper (tk_val t) in
            match find_key constantSearchKeys key with
            | Some m => Ok (m, cur)
            | None =>
                match find_key searchKeyParsers key with
                | Some p => run_parser (parseSearchKey fuel) p cur
                | None => match parseSeqSet (tk_val t) with
                          | Ok set => Ok (seq_matcher false set, cur)
                          | Err _ => Err ErrProtocol
                          end
                end
            end
      end
  end.

(** Every key takes at least one token, so the number of tokens bounds both recursions. *)
Definition parseSearchKeys (cur : list token) : parsed :=
  keys_loop (length cur) (parseSearchKey (S (length cur))) [] cur.

(** ** The results *)

(** The contexts of a mailbox's messages, [i] messages in *)
Fixpoint contexts (raw : Z -> bytes) (maxSeq maxUID i : Z) (msgs : list MessageInfo) : list searchCtx :=
  match msgs with
  | [] => []
  | m :: msgs => mkCtx (u32 (i + 1)) m maxSeq maxUID (raw (mi_UID m)) :: contexts raw maxSeq maxUID (i + 1) msgs
  end.

Definition maxSeq (msgs : list MessageInfo) : Z := u32 (len msgs).
Definition maxUID (msgs : list MessageInfo) : Z := match List.last (map Some msgs) None with Some m => mi_UID m | None => 0 end.

Definition searchMatches (raw : Z -> bytes) (msgs : list MessageInfo) (m : matcher) (byUID : bool) : list Z :=
  map (fun s => if byUID then mi_UID (sc_msg s) else sc_seq s)
      (List.filter m (contexts raw (maxSeq msgs) (maxUID msgs) 0 msgs)).
End search.

(** The options of a RETURN clause, upper-cased, up to the closing parenthesis *)
Fixpoint return_opts (cur : list token) : list bytes * list token :=
  match cur with
  | [] => ([], [])
  | t :: cur => if kind_is t tRParen then ([], cur)
                else let '(opts, rest) := return_opts cur in (ToUpper (tk_val t) :: opts, rest)
  end.
Definition parseReturnOpts (cur : list token) : option (list bytes) * list token :=
  match cur with
  | t :: cur' =>
      if isAtom t (lit "RETURN") then
        match cur' with
        | open_ :: cur' =>
            if kind_is open_ tLParen then
              let '(opts, rest) := return_opts cur' in
              (Some (match opts with [] => [lit "ALL"] | _ => opts end), rest)
            else (Some [], cur')
        | [] => (Some [], [])
        end
      else (None, cur)
  | [] => (None, [])
  end.

Definition want (opts : list bytes) (o : bytes) : bool := existsb (fun x => beq x o) opts.
(** The ESEARCH response of a result list *)
Definition writeESearch (tag : bytes) (byUID : bool) (opts : list bytes) (results : list Z) : bytes :=
  lit "ESEARCH (TAG " ++ safeQuoted tag ++ lit ")"
  ++ (if byUID then lit " UID" else [])
  ++ (if want opts (lit "COUNT") then lit " COUNT " ++ dec (len results) else [])
  ++ match results with
     | [] => []
     | first :: _ =>
         (if want opts (lit "MIN") then lit " MIN " ++ dec first else [])
         ++ (if want opts (lit "MAX") then lit " MAX " ++ dec (List.last results 0) else [])
         ++ (if want opts (lit "ALL") then lit " ALL " ++ esearchSet results else [])
     end.

Definition tok_atom (s : bytes) : token := mkToken tAtom s false.
Example search_ex :
  (match parseSearchKeys id (fun _ _ => []) (fun _ => None)
      [tok_atom (lit "or"); tok_atom (lit "seen"); mkToken tLParen [] false; tok_atom (lit "NOT"); tok_atom (lit "2:*");
       tok_atom (lit "LARGER"); tok_atom (lit "10"); mkToken tRParen [] false] with
   | Ok (m, []) => searchMatches (fun _ => []) [mkInfo 7 20 0 (mkDate 2024 1 1) 0; mkInfo 9 20 0 (mkDate 2024 1 1) 0; mkInfo 12 1 1 (mkDate 2024 1 1) 0] m true
   | _ => []
   end) = [7; 12].
Proof. vm_compute. reflexivity. Qed.
