(* ===== verification/ImapsearchProofs.v ===== *)
(** * IMAP: what LIST patterns and SEARCH criteria mean

    [imapMatch] is the wildcard relation of RFC 3501; the criteria a client spells are parsed
    to the matcher of their meaning; the parser is total; a search lists exactly the messages
    that satisfy the criteria, in ascending order. *)

From stdpp Require Import base list numbers gmap.
From Stdlib Require Import ZArith Lia Sorted.
From Stdlib Require String.
Import String.StringSyntax.
From S2P Require Import Prelude Gostr Netline Imaplex Imapsearch.
Open Scope Z_scope.

(** ** Patterns *)

Lemma matchWildcard_star rest name :
  matchWildcard rest name false = true <-> exists s n, name = s ++ n /\ rest n = true.
Proof.
  induction name as [|b name IH]; cbn [matchWildcard andb].
  - rewrite orb_false_r. split; [exists [], []; done|].
    intros (s & n & E & H). destruct s, n; try discriminate E. done.
  - rewrite orb_true_iff, IH. split.
    + intros [H|(s & n & -> & H)]; [by exists [], (b :: name)|by exists (b :: s), n].
    + intros ([|c s] & n & E & H); simpl in E; [left; by subst|injection E as -> ->; right; eauto].
Qed.

Lemma matchWildcard_percent rest name :
  matchWildcard rest name true = true <-> exists s n, name = s ++ n /\ (hierarchySep ∉ s) /\ rest n = true.
Proof.
  induction name as [|b name IH]; cbn [matchWildcard andb].
  - rewrite orb_false_r. split; [exists [], []; split_and!; [done|set_solver|done]|].
    intros (s & n & E & _ & H). destruct s, n; try discriminate E. done.
  - rewrite orb_true_iff. split.
    + intros [H|H]; [exists [], (b :: name); split_and!; [done|set_solver|done]|].
      destruct (Z.eqb_spec b hierarchySep) as [|Hb]; [discriminate|].
      apply IH in H as (s & n & -> & Hs & H). exists (b :: s), n. split_and!; [done|set_solver|done].
    + intros ([|c s] & n & E & Hs & H); simpl in E; [left; by subst|injection E as -> ->; right].
      destruct (Z.eqb_spec c hierarchySep); [set_solver|]. apply IH. exists s, n. set_solver.
Qed.

(** C38. LIST: [imapMatch] decides the wildcard relation of RFC 3501, 6.3.8: [*] stands for any
    string, [%] for any string without the hierarchy separator, every other byte for itself. *)
Theorem imapMatch_spec pattern name : imapMatch pattern name = true <-> listed pattern name.
Proof.
  revert name. induction pattern as [|p pattern IH]; intros name; cbn [imapMatch].
  - unfold beq. rewrite bool_decide_eq_true. split; [intros ->; constructor|by inversion 1].
  - destruct (Z.eqb_spec p 42) as [->|Hs]; [|destruct (Z.eqb_spec p 37) as [->|Hp]].
    + rewrite matchWildcard_star. split.
      * intros (s & n & -> & H). constructor. by apply IH.
      * inversion 1; subst; try lia. eexists _, _. split; [done|]. by apply IH.
    + rewrite matchWildcard_percent. split.
      * intros (s & n & -> & Hn & H). constructor; [done|]. by apply IH.
      * inversion 1; subst; try lia. eexists _, _. split_and!; [done..|]. by apply IH.
    + destruct name as [|b name]; [split; [done|by inversion 1]|].
      rewrite andb_true_iff, Z.eqb_eq, IH. split.
      * intros [-> H]. by constructor.
      * inversion 1; subst; try lia. done.
Qed.

(** ** The meaning of search criteria (RFC 3501, 6.4.4) *)

Inductive skey :=
| SAll | SNever | SFlag (bit : Z) (want : bool)
| SSeq (uid : bool) (set : list seqRange)
| SHeader (field needle : bytes) | SText (body : bool) (needle : bytes) | SSize (larger : bool) (n : Z)
| SDate (k : dateKey) (sent : bool) (d : date)
| SNot (k : skey) | SOr (a b : skey) | SAnd (ks : list skey).

(** The names of the keys without arguments; a flag by its bit number *)
Definition plain_keys : list (bytes * skey) :=
  [(lit "ALL", SAll); (lit "NEW", SNever); (lit "RECENT", SNever); (lit "OLD", SAll);
   (lit "SEEN", SFlag 0 true); (lit "UNSEEN", SFlag 0 false); (lit "ANSWERED", SFlag 1 true); (lit "UNANSWERED", SFlag 1 false);
   (lit "FLAGGED", SFlag 2 true); (lit "UNFLAGGED", SFlag 2 false); (lit "DELETED", SFlag 3 true); (lit "UNDELETED", SFlag 3 false);
   (lit "DRAFT", SFlag 4 true); (lit "UNDRAFT", SFlag 4 false)].

(** Between the ends of a range, in either order; [*] is the largest number. *)
Definition in_range_of (n max : Z) (r : seqRange) : Prop :=
  let e x := if decide (x = seqStar) then max else x in
  e (sr_lo r) <= n <= e (sr_hi r) \/ e (sr_hi r) <= n <= e (sr_lo r).
Definition in_set (set : list seqRange) (n max : Z) : Prop := exists r, (r ∈ set) /\ in_range_of n max r.

Definition substring (needle s : bytes) : Prop := exists a b, s = a ++ needle ++ b.

(** Calendar order *)
Definition day_le (a b : date) : Prop :=
  dt_year a < dt_year b \/ dt_year a = dt_year b /\ (dt_month a < dt_month b \/ dt_month a = dt_month b /\ dt_day a <= dt_day b).
Definition day_means (k : dateKey) (day d : date) : Prop :=
  match k with Since => day_le d day | Before => ~ day_le d day | On => day = d end.

Section meaning.
Context (ToLower : bytes -> bytes) (header_values : bytes -> bytes -> list bytes) (ParseDate : bytes -> option date).

(** The header and the body of a message *)
Definition head_of (s : searchCtx) : bytes := take (bodyStart (sc_raw s)) (sc_raw s).
Definition body_of (s : searchCtx) : bytes := drop (bodyStart (sc_raw s)) (sc_raw s).

Fixpoint means (k : skey) (s : searchCtx) : Prop :=
  match k with
  | SAll => True
  | SNever => False
  | SFlag bit want => Z.testbit (mi_Flags (sc_msg s)) bit = want
  | SSeq true set => in_set set (mi_UID (sc_msg s)) (sc_maxUID s)
  | SSeq false set => in_set set (sc_seq s) (sc_maxSeq s)
  | SHeader field needle =>
      header_values (head_of s) field <> []
      /\ substring (ToLower needle) (ToLower (Join (header_values (head_of s) field) (lit " ")))
  | SText true needle => substring (ToLower needle) (ToLower (body_of s))
  | SText false needle => substring (ToLower needle) (ToLower (sc_raw s))
  | SSize true n => n < mi_Size (sc_msg s)
  | SSize false n => mi_Size (sc_msg s) < n
  | SDate k false d => day_means k (mi_InternalDate (sc_msg s)) d
  | SDate k true d => exists day, ParseDate (Join (header_values (head_of s) (lit "Date")) (lit " ")) = Some day /\ day_means k day d
  | SNot k => ~ means k s
  | SOr a b => means a s \/ means b s
  | SAnd ks => (fix all ks := match ks with [] => True | k :: ks => means k s /\ all ks end) ks
  end.

Definition header_keys : list bytes := [lit "FROM"; lit "TO"; lit "CC"; lit "BCC"; lit "SUBJECT"].
Definition date_names : list (bytes * (dateKey * bool)) :=
  [(lit "SINCE", (Since, false)); (lit "BEFORE", (Before, false)); (lit "ON", (On, false));
   (lit "SENTSINCE", (Since, true)); (lit "SENTBEFORE", (Before, true)); (lit "SENTON", (On, true))].

(** A token that is the word [v], in any case *)
Definition is_word (t : token) (v : bytes) : Prop := exists w, tok_str t = Some w /\ ToUpper w = v.

(** How a client spells a key: names in any case, arguments as atoms, strings or literals. *)
Inductive spells : skey -> list token -> Prop :=
| sp_plain t name k : (name, k) ∈ plain_keys -> is_word t name -> spells k [t]
| sp_keyword t f : is_word t (lit "KEYWORD") -> spells SNever [t; f]
| sp_unkeyword t f : is_word t (lit "UNKEYWORD") -> spells SAll [t; f]
| sp_seq t v set : tok_str t = Some v -> parseSeqSet v = Ok set -> spells (SSeq false set) [t]
| sp_uid t a set : is_word t (lit "UID") -> parseSeqSet (tk_val a) = Ok set -> spells (SSeq true set) [t; a]
| sp_field t a name : name ∈ header_keys -> is_word t name -> spells (SHeader name (tk_val a)) [t; a]
| sp_header t f a : is_word t (lit "HEADER") -> spells (SHeader (tk_val f) (tk_val a)) [t; f; a]
| sp_body t a : is_word t (lit "BODY") -> spells (SText true (tk_val a)) [t; a]
| sp_text t a : is_word t (lit "TEXT") -> spells (SText false (tk_val a)) [t; a]
| sp_larger t a n : is_word t (lit "LARGER") -> Atoi (tk_val a) = Some n -> spells (SSize true n) [t; a]
| sp_smaller t a n : is_word t (lit "SMALLER") -> Atoi (tk_val a) = Some n -> spells (SSize false n) [t; a]
| sp_date t a name k sent d : (name, (k, sent)) ∈ date_names -> is_word t name -> parse_date (tk_val a) = Some d ->
    spells (SDate k sent d) [t; a]
| sp_not t k toks : is_word t (lit "NOT") -> spells k toks -> spells (SNot k) (t :: toks)
| sp_or t a b ta tb : is_word t (lit "OR") -> spells a ta -> spells b tb -> spells (SOr a b) (t :: ta ++ tb)
| sp_group o c ks toks : tk_kind o = tLParen -> tk_kind c = tRParen -> ks <> [] -> spells_all ks toks ->
    spells (SAnd ks) (o :: toks ++ [c])
with spells_all : list skey -> list token -> Prop :=
| spa_nil : spells_all [] []
| spa_cons k ks tk tks : spells k tk -> spells_all ks tks -> spells_all (k :: ks) (tk ++ tks).
End meaning.

Scheme spells_mut := Induction for spells Sort Prop
with spells_all_mut := Induction for spells_all Sort Prop.
Combined Scheme spells_ind_all from spells_mut, spells_all_mut.

(** ** The leaves *)

Lemma in_seqRange_means n max r : in_seqRange n max r = true <-> in_range_of n max r.
Proof.
  unfold in_seqRange, in_range_of, resolve_range.
  destruct (Z.eqb_spec (sr_lo r) seqStar), (Z.eqb_spec (sr_hi r) seqStar); repeat case_decide; try congruence;
    match goal with |- context [?a <? ?b] => destruct (Z.ltb_spec a b) end; rewrite andb_true_iff, !Z.leb_le; lia.
Qed.

Lemma contains_means set n max : contains set n max = true <-> in_set set n max.
Proof.
  unfold contains, in_set. rewrite existsb_exists.
  setoid_rewrite in_seqRange_means. setoid_rewrite <- list_elem_of_In. done.
Qed.

Lemma HasPrefix_app s p : HasPrefix s p = true <-> exists b, s = p ++ b.
Proof.
  revert s. induction p as [|x p IH]; intros s.
  { split; [eauto|by destruct s]. }
  destruct s as [|b s]; simpl; [split; [done|by intros [? ?]]|].
  rewrite andb_true_iff, Z.eqb_eq, IH. split.
  - intros [-> [c ->]]. eauto.
  - intros [c [= -> ->]]. eauto.
Qed.

Lemma Contains_means s needle : Contains s needle = true <-> substring needle s.
Proof.
  unfold Contains, substring. induction s as [|x s IH]; cbn [Index].
  - destruct (HasPrefix [] needle) eqn:E.
    + split; [|done]. apply HasPrefix_app in E as [b ->]. intros _. by exists [], b.
    + split; [done|]. intros (a & b & H). destruct a; [|discriminate H]. simpl in H.
      assert (HasPrefix [] needle = true) by (apply HasPrefix_app; eauto). congruence.
  - destruct (HasPrefix (x :: s) needle) eqn:E.
    + split; [|done]. apply HasPrefix_app in E as [b ->]. intros _. by exists [], b.
    + destruct (Index s needle) eqn:Ei; simpl.
      * split; [|done]. intros _. destruct IH as [IH _]. destruct (IH eq_refl) as (a & b & ->). by exists (x :: a), b.
      * split; [done|]. intros (a & b & H). destruct a as [|y a]; simpl in H.
        -- assert (HasPrefix (x :: s) needle = true) by (apply HasPrefix_app; eauto). congruence.
        -- injection H as -> H. apply IH. eauto.
Qed.

Lemma flag_bit_means f bit want : 0 <= bit -> Bool.eqb (negb (Z.land f (2 ^ bit) =? 0)) want = true <-> Z.testbit f bit = want.
Proof.
  intros Hb. rewrite Bool.eqb_true_iff. replace (negb (Z.land f (2 ^ bit) =? 0)) with (Z.testbit f bit); [done|].
  destruct (Z.eqb_spec (Z.land f (2 ^ bit)) 0) as [E|E]; simpl.
  - assert (H : Z.testbit (Z.land f (2 ^ bit)) bit = false) by (rewrite E; apply Z.bits_0).
    rewrite Z.land_spec, Z.pow2_bits_true, andb_true_r in H by lia. done.
  - destruct (Z.testbit f bit) eqn:T; [done|]. exfalso. apply E. apply Z.bits_inj'. intros i Hi.
    rewrite Z.land_spec, Z.bits_0, Z.pow2_bits_eqb by lia. destruct (Z.eqb_spec bit i) as [->|]; [by rewrite T|apply andb_false_r].
Qed.

Lemma date_lt_means a b : date_lt a b = true <-> ~ day_le b a.
Proof.
  unfold date_lt, day_le. rewrite !orb_true_iff, !andb_true_iff, !orb_true_iff, !andb_true_iff, !Z.ltb_lt, !Z.eqb_eq. lia.
Qed.
Lemma date_test_means k a b : date_test k a b = true <-> day_means k a b.
Proof.
  destruct k; simpl.
  - rewrite negb_true_iff, <- not_true_iff_false, date_lt_means. unfold day_le. lia.
  - apply date_lt_means.
  - unfold date_eq. rewrite !andb_true_iff, !Z.eqb_eq. destruct a, b; simpl. split; [intros [[-> ->] ->]; done|by intros [= -> -> ->]].
Qed.

(** ** The parser *)

Lemma find_key_names {A} (table : list (bytes * A)) key : find_key table key = None <-> key ∉ table.*1.
Proof.
  unfold find_key. induction table as [|[n a] table IH]; simpl; [set_solver|].
  unfold beq at 1. case_bool_decide as E; simpl; [subst; split; [done|set_solver]|]. rewrite IH. set_solver.
Qed.

Lemma tok_str_word t w : tok_str t = Some w -> tk_val t = w /\ kind_is t tLParen = false /\ kind_is t tRParen = false.
Proof. destruct t as [[] v l]; cbv [tok_str kind_is]; simpl; intros [= ->]; done. Qed.

(** A sequence set starts with a digit or a star. *)
Lemma parseSeqSet_head v set : parseSeqSet v = Ok set -> exists b r, v = b :: r /\ (is_digit b = true \/ b = 42).
Proof.
  destruct v as [|b r]; [done|]. unfold parseSeqSet. cbn [Split]. intros H. exists b, r. split; [done|].
  assert (Hp : exists p, parseSeqPart (b :: p) <> Err ErrProtocol \/ b = 44).
  { destruct (Z.eqb_spec b 44) as [->|Hb]; [exists []; by right|].
    destruct (Split r 44) as [|x l]; cbn [parseSeqParts] in H.
    - exists []. left. destruct (parseSeqPart [b]); [done|discriminate].
    - exists x. left. destruct (parseSeqPart (b :: x)); [done|discriminate]. }
  destruct Hp as [p [Hp| ->]].
  2: { rewrite Z.eqb_refl in H. cbn in H. discriminate. }
  unfold parseSeqPart in Hp. cbn [Cut] in Hp. destruct (Z.eqb_spec b 58) as [->|Hc]; [by cbn in Hp|].
  destruct (Cut p 58) as [lo hi]. cbv [parseSeqNum beq] in Hp. case_bool_decide as E.
  - cbn in E. injection E as -> _. by right.
  - left. unfold ParseUint in Hp. cbn [digits] in Hp. destruct (is_digit b); done.
Qed.

Lemma ToUpper_head b r : (is_digit b = true \/ b = 42) -> exists r', ToUpper (b :: r) = b :: r'.
Proof.
  intros H. assert (48 <= b <= 57 \/ b = 42) by (unfold is_digit in H; destruct H; bprop; lia).
  assert (E : b = 48 \/ b = 49 \/ b = 50 \/ b = 51 \/ b = 52 \/ b = 53 \/ b = 54 \/ b = 55 \/ b = 56 \/ b = 57 \/ b = 42) by lia.
  repeat destruct E as [->|E]; try (eexists; reflexivity). subst. eexists. reflexivity.
Qed.

Definition names_start_with_letters (names : list bytes) : bool :=
  forallb (fun n => match n with b :: _ => (65 <=? b) && (b <=? 90) | [] => false end) names.

Lemma seqset_not_name v set names :
  parseSeqSet v = Ok set -> names_start_with_letters names = true -> ToUpper v ∉ names.
Proof.
  intros (b & r & -> & Hb)%parseSeqSet_head Hn. destruct (ToUpper_head b r Hb) as [r' ->].
  unfold names_start_with_letters in Hn. rewrite forallb_forall in Hn. intros Hin%list_elem_of_In%Hn.
  unfold is_digit in Hb. destruct Hb; bprop; lia.
Qed.

Section parse.
Context (ToLower : bytes -> bytes) (header_values : bytes -> bytes -> list bytes) (ParseDate : bytes -> option date).
Abbreviation key := (parseSearchKey ToLower header_values ParseDate).
Abbreviation keys := (keys_loop).
Abbreviation meaning := (means ToLower header_values ParseDate).

(** The matcher [m] decides the meaning of [k]. *)
Definition decides (m : matcher) (k : skey) : Prop := forall s, m s = true <-> meaning k s.

(** A cursor at which the keys end *)
Definition stops (rest : list token) : Prop := match rest with [] => True | t :: _ => tk_kind t = tRParen end.

Lemma plain_key_found name k :
  (name, k) ∈ plain_keys -> exists m, find_key constantSearchKeys name = Some m /\ decides m k.
Proof.
  intros Hin%list_elem_of_In. unfold plain_keys in Hin. simpl In in Hin.
  repeat (destruct Hin as [[= <- <-]|Hin];
          [eexists; split; [reflexivity|]; intros s;
           first [done | apply (flag_bit_means _ 0); lia | apply (flag_bit_means _ 1); lia
             | apply (flag_bit_means _ 2); lia | apply (flag_bit_means _ 3); lia | apply (flag_bit_means _ 4); lia]|]).
  done.
Qed.

(** A key read by a word: through the constants, the parsers, or as a set *)
Lemma key_word fuel t w cur : tok_str t = Some w ->
  key (S fuel) (t :: cur) =
  match find_key constantSearchKeys (ToUpper w) with
  | Some m => Ok (m, cur)
  | None =>
      match find_key searchKeyParsers (ToUpper w) with
      | Some p => run_parser ToLower header_values ParseDate (key fuel) p cur
      | None => match parseSeqSet w with Ok set => Ok (seq_matcher false set, cur) | Err _ => Err ErrProtocol end
      end
  end.
Proof. intros H. destruct (tok_str_word _ _ H) as (<- & E & _). cbn [parseSearchKey]. by rewrite E. Qed.

Lemma key_parser fuel t name p cur :
  is_word t name -> find_key constantSearchKeys name = None -> find_key searchKeyParsers name = Some p ->
  key (S fuel) (t :: cur) = run_parser ToLower header_values ParseDate (key fuel) p cur.
Proof. intros (w & Hw & <-) Hc Hp. rewrite (key_word _ _ _ _ Hw). by rewrite Hc, Hp. Qed.

Lemma seq_decides uid set : decides (seq_matcher uid set) (SSeq uid set).
Proof. intros s. destruct uid; apply contains_means. Qed.
Lemma header_decides field needle : decides (headerContains ToLower header_values field needle) (SHeader field needle).
Proof.
  intros s. unfold headerContains. cbn [means]. change (sc_hdr header_values s field) with (header_values (head_of s) field).
  destruct (header_values (head_of s) field) eqn:E; [split; [done|by intros [? _]]|]. rewrite Contains_means. naive_solver.
Qed.
Lemma text_decides body needle : decides (text_matcher ToLower body needle) (SText body needle).
Proof. intros s. destruct body; apply Contains_means. Qed.
Lemma size_decides larger n : decides (size_matcher larger n) (SSize larger n).
Proof. intros s. destruct larger; apply Z.ltb_lt. Qed.
Lemma date_decides k sent d : decides (date_matcher header_values ParseDate k sent d) (SDate k sent d).
Proof.
  intros s. destruct sent; cbn [means date_matcher]; [|apply date_test_means].
  unfold date_matcher, header. change (sc_hdr header_values s) with (header_values (head_of s)).
  destruct (ParseDate _) as [t|] eqn:E; [|split; [done|naive_solver]]. rewrite date_test_means. naive_solver.
Qed.

Lemma all_of_decides ms ks : Forall2 decides ms ks -> decides (all_of ms) (SAnd ks).
Proof.
  intros H s. unfold all_of. cbn [means]. induction H as [|m k ms ks Hm _ IH]; cbn [forallb]; [done|].
  by rewrite andb_true_iff, IH, (Hm s).
Qed.

Lemma spells_nonempty k toks : spells k toks -> exists t r, toks = t :: r /\ tk_kind t <> tRParen.
Proof.
  assert (W : forall t v, is_word t v -> tk_kind t <> tRParen).
  { intros [[] ? ?] v (w & H & _); by cbv in H. }
  destruct 1; eexists _, _; (split; [reflexivity|]); eauto; try congruence.
  destruct t as [[] ? ?]; by cbv in H.
Qed.

(** What is proved of a key and of a list of keys *)
Definition key_ok (k : skey) (toks : list token) : Prop := forall fuel rest, (length toks < fuel)%nat ->
  exists m, key fuel (toks ++ rest) = Ok (m, rest) /\ decides m k.
Definition keys_ok (ks : list skey) (toks : list token) : Prop := forall n fuel ms rest,
  (length toks <= n)%nat -> (length toks < fuel)%nat -> stops rest ->
  exists ms', Forall2 decides ms' ks
    /\ keys n (key fuel) ms (toks ++ rest)
       = match ms ++ ms' with [] => Err ErrProtocol | l => Ok (all_of l, rest) end.

Lemma key_ok_parser k t toks name p :
  is_word t name -> find_key constantSearchKeys name = None -> find_key searchKeyParsers name = Some p ->
  (forall fuel rest, (length toks < fuel)%nat ->
     exists m, run_parser ToLower header_values ParseDate (key fuel) p (toks ++ rest) = Ok (m, rest) /\ decides m k) ->
  key_ok k (t :: toks).
Proof.
  intros Hw Hc Hp H [|fuel] rest Hf; simpl in Hf; [lia|]. cbn [app].
  rewrite (key_parser _ _ _ _ _ Hw Hc Hp). apply H. lia.
Qed.

Lemma keys_loop_ends n k ms rest : stops rest ->
  keys n k ms rest = match ms with [] => Err ErrProtocol | l => Ok (all_of l, rest) end.
Proof.
  intros Hs. destruct rest as [|t rest], n; cbn [keys_loop]; try done.
  all: unfold kind_is; by rewrite bool_decide_eq_true_2.
Qed.

Lemma keys_loop_step n k ms t cur m rest : tk_kind t <> tRParen -> k (t :: cur) = Ok (m, rest) ->
  keys (S n) k ms (t :: cur) = keys n k (ms ++ [m]) rest.
Proof. intros Ht Hk. cbn [keys_loop]. unfold kind_is. by rewrite bool_decide_eq_false_2, Hk by done. Qed.

Ltac leaf := intros fuel rest _; eexists; split; [reflexivity|].

Lemma parse_spells :
  (forall k toks, spells k toks -> key_ok k toks) /\ (forall ks toks, spells_all ks toks -> keys_ok ks toks).
Proof.
  apply spells_ind_all.
  - intros t name k Hin (w & Hw & <-) [|fuel] rest Hf; simpl in Hf; [lia|].
    destruct (plain_key_found _ _ Hin) as (m & Hm & Hd). exists m. cbn [app]. by rewrite (key_word _ _ _ _ Hw), Hm.
  - intros t f Hw. eapply key_ok_parser; [done|reflexivity..|]. leaf. done.
  - intros t f Hw. eapply key_ok_parser; [done|reflexivity..|]. leaf. done.
  - intros t v set Hv Hset [|fuel] rest Hf; simpl in Hf; [lia|]. exists (seq_matcher false set).
    cbn [app]. rewrite (key_word _ _ _ _ Hv). split; [|apply seq_decides].
    rewrite (proj2 (find_key_names constantSearchKeys (ToUpper v))) by by eapply seqset_not_name.
    rewrite (proj2 (find_key_names searchKeyParsers (ToUpper v))) by by eapply seqset_not_name. by rewrite Hset.
  - intros t a set Hw Hset. apply (key_ok_parser _ _ _ (lit "UID") pUID); [done|reflexivity..|]. intros fuel rest _.
    cbn [run_parser]. unfold seqMatch, next_val. cbn [app]. rewrite Hset. eexists; split; [done|apply seq_decides].
  - intros t a name Hin%list_elem_of_In Hw. unfold header_keys in Hin. simpl In in Hin.
    repeat destruct Hin as [<-|Hin]; try done; (eapply key_ok_parser; [done|reflexivity..|]; leaf; apply header_decides).
  - intros t f a Hw. eapply key_ok_parser; [done|reflexivity..|]. leaf. apply header_decides.
  - intros t a Hw. eapply key_ok_parser; [done|reflexivity..|]. leaf. apply text_decides.
  - intros t a Hw. eapply key_ok_parser; [done|reflexivity..|]. leaf. apply text_decides.
  - intros t a n Hw Hn. apply (key_ok_parser _ _ _ (lit "LARGER") (pSize true)); [done|reflexivity..|]. intros fuel rest _.
    cbn [run_parser]. unfold parseSizeKey, next_val. cbn [app]. rewrite Hn. eexists; split; [done|apply size_decides].
  - intros t a n Hw Hn. apply (key_ok_parser _ _ _ (lit "SMALLER") (pSize false)); [done|reflexivity..|]. intros fuel rest _.
    cbn [run_parser]. unfold parseSizeKey, next_val. cbn [app]. rewrite Hn. eexists; split; [done|apply size_decides].
  - intros t a name k sent d Hin%list_elem_of_In Hw Hd. unfold date_names in Hin. simpl In in Hin.
    repeat destruct Hin as [[= <- <- <-]|Hin]; try done;
      (eapply (key_ok_parser _ _ _ _ (pDate _ _)); [done|reflexivity..|]; intros fuel rest _;
       cbn [run_parser]; unfold dateMatch, next_val; cbn [app]; rewrite Hd; eexists; split; [done|apply date_decides]).
  - intros t k toks Hw _ IH. apply (key_ok_parser _ _ _ (lit "NOT") pNot); [done|reflexivity..|]. intros fuel rest Hf.
    destruct (IH fuel rest Hf) as (m & Hm & Hd). cbn [run_parser]. unfold parseNotKey. rewrite Hm.
    eexists; split; [done|]. intros s. cbn [means]. rewrite <- (Hd s), negb_true_iff. by destruct (m s).
  - intros t a b ta tb Hw _ IHa _ IHb. apply (key_ok_parser _ _ _ (lit "OR") pOr); [done|reflexivity..|]. intros fuel rest Hf.
    rewrite length_app in Hf. destruct (IHa fuel (tb ++ rest)) as (ma & Ha & Da); [lia|].
    destruct (IHb fuel rest) as (mb & Hb & Db); [lia|].
    cbn [run_parser]. unfold parseOrKey. rewrite <- app_assoc, Ha, Hb. eexists; split; [done|].
    intros s. cbn [means]. by rewrite orb_true_iff, (Da s), (Db s).
  - intros o c ks toks Ho Hc Hne _ IH [|fuel] rest Hf; simpl in Hf; [lia|]. rewrite length_app in Hf. simpl in Hf.
    cbn [app parseSearchKey]. unfold kind_is at 1. rewrite bool_decide_eq_true_2 by done. rewrite <- app_assoc. cbn [app].
    destruct (IH fuel fuel [] (c :: rest)) as (ms & Hms & ->); [lia..|done|]. cbn [app].
    destruct ms as [|m ms]; [inversion Hms; by subst|]. unfold kind_is. rewrite bool_decide_eq_true_2 by done.
    eexists; split; [done|]. by apply all_of_decides.
  - intros n fuel ms rest _ _ Hs. exists []. split; [constructor|]. rewrite app_nil_r. cbn [app]. by rewrite keys_loop_ends; [destruct ms|].
  - intros k ks tk tks Hk IHk Hks IHks n fuel ms rest Hn Hf Hs. rewrite length_app in Hn, Hf.
    destruct (IHk fuel (tks ++ rest)) as (m & Hm & Hd); [lia|].
    destruct (spells_nonempty _ _ Hk) as (t & r & -> & Ht). simpl in Hn, Hf.
    destruct n as [|n]; [lia|]. destruct (IHks n fuel (ms ++ [m]) rest) as (ms' & HF & E); [lia..|done|].
    exists (m :: ms'). split; [by constructor|].
    rewrite <- app_assoc. cbn [app] in *. rewrite (keys_loop_step _ _ _ _ _ _ _ Ht Hm), E.
    by rewrite <- app_assoc.
Qed.
End parse.

(** C18. SEARCH means what RFC 3501, 6.4.4 says: criteria spelled by a client, with names in any
    case and NOT, OR and parenthesized groups nested to any depth, are parsed without an error
    or a token left over, to a matcher that holds of exactly the messages that satisfy them all. *)
Theorem search_means_rfc ToLower header_values ParseDate ks toks :
  spells_all ks toks -> ks <> [] ->
  exists m, parseSearchKeys ToLower header_values ParseDate toks = Ok (m, [])
    /\ forall s, m s = true <-> means ToLower header_values ParseDate (SAnd ks) s.
Proof.
  intros H Hne.
  destruct (proj2 (parse_spells ToLower header_values ParseDate) _ _ H (length toks) (S (length toks)) [] [])
    as (ms & HF & E); [lia..|done|].
  rewrite app_nil_r in E. unfold parseSearchKeys. rewrite E. cbn [app].
  destruct ms as [|m ms]; [inversion HF; by subst|]. eexists; split; [done|]. by apply all_of_decides.
Qed.

(** ** The parser is total *)

Section total.
Context (ToLower : bytes -> bytes) (header_values : bytes -> bytes -> list bytes) (ParseDate : bytes -> option date).
Abbreviation key := (parseSearchKey ToLower header_values ParseDate).

(** A key parser that consumes at least one token and never runs out of fuel below [n] tokens *)
Definition well_behaved (n : nat) (k : list token -> parsed) : Prop := forall cur, (length cur < n)%nat ->
  match k cur with
  | Ok (_, rest) => (length rest < length cur)%nat
  | Err e => e <> ImOutOfFuel
  end.

Lemma keys_loop_total n f k ms cur : well_behaved n k -> (length cur < n)%nat -> (length cur <= f)%nat ->
  match keys_loop f k ms cur with Ok (_, rest) => (length rest <= length cur)%nat | Err e => e <> ImOutOfFuel end.
Proof.
  intros Hk. revert ms cur. induction f as [|f IH]; intros ms cur Hn Hf.
  - destruct cur; simpl in Hf; [|lia]. cbn. by destruct ms.
  - destruct cur as [|t cur]; cbn [keys_loop]; [by destruct ms|].
    destruct (kind_is t tRParen); [by destruct ms|]. specialize (Hk (t :: cur) Hn).
    destruct (k (t :: cur)) as [[m rest]|e]; [|done].
    specialize (IH (ms ++ [m]) rest). destruct (keys_loop f k (ms ++ [m]) rest) as [[m' r']|]; [|apply IH; simpl in *; lia].
    assert (length r' <= length rest)%nat by (apply IH; simpl in *; lia). lia.
Qed.

Lemma next_val_total cur k : (forall v, k v <> Err ImOutOfFuel) ->
  match next_val cur k with Ok (_, rest) => (length rest < length cur)%nat | Err e => e <> ImOutOfFuel end.
Proof. intros H. destruct cur as [|t cur]; simpl; [done|]. specialize (H (tk_val t)). destruct (k (tk_val t)); [lia|congruence]. Qed.

Lemma parseSeqSet_error v e : parseSeqSet v = Err e -> e = ErrProtocol.
Proof.
  assert (N : forall s e, parseSeqNum s = Err e -> e = ErrProtocol).
  { intros s e'. unfold parseSeqNum. repeat case_match; congruence. }
  assert (P : forall s e, parseSeqPart s = Err e -> e = ErrProtocol).
  { intros s e'. unfold parseSeqPart. repeat case_match; intros [= ->]; eauto. }
  assert (L : forall l e, parseSeqParts l = Err e -> e = ErrProtocol).
  { induction l as [|p l IH]; intros e'; cbn [parseSeqParts]; [done|]. repeat case_match; intros [= ->]; eauto. }
  unfold parseSeqSet. case_match; [congruence|]. apply L.
Qed.

Lemma run_parser_total n k p cur : well_behaved n k -> (length cur < n)%nat ->
  match run_parser ToLower header_values ParseDate k p cur with
  | Ok (_, rest) => (length rest <= length cur)%nat
  | Err e => e <> ImOutOfFuel
  end.
Proof.
  intros Hk Hn.
  assert (NV : forall f, (forall v, f v <> Err ImOutOfFuel) ->
    match next_val cur f with Ok (_, rest) => (length rest <= length cur)%nat | Err e => e <> ImOutOfFuel end).
  { intros f Hf. pose proof (next_val_total cur f Hf). destruct (next_val cur f) as [[]|]; [lia|done]. }
  destruct p; cbn [run_parser].
  - unfold parseKeywordKey. destruct cur; simpl; lia.
  - apply NV. intros v. destruct (parseSeqSet v) eqn:E; [done|]. by apply parseSeqSet_error in E as ->.
  - by apply NV.
  - unfold parseHeaderKey. destruct cur as [|? [|]]; simpl; lia || done.
  - by apply NV.
  - apply NV. intros v. by destruct (Atoi v).
  - apply NV. intros v. by destruct (parse_date v).
  - unfold parseNotKey. specialize (Hk cur Hn). destruct (k cur) as [[]|]; [lia|done].
  - unfold parseOrKey. pose proof (Hk cur Hn) as H1. destruct (k cur) as [[m1 r1]|]; [|done].
    assert (length r1 < n)%nat as H2 by lia. specialize (Hk r1 H2). destruct (k r1) as [[]|]; [lia|done].
Qed.

Lemma key_total n : well_behaved n (key n).
Proof.
  induction n as [|n IH]; intros cur Hn; [lia|]. destruct cur as [|t cur]; cbn [parseSearchKey]; [done|]. simpl in Hn.
  destruct (kind_is t tLParen).
  - pose proof (keys_loop_total n n (key n) [] cur IH) as H.
    destruct (keys_loop n (key n) [] cur) as [[m [|e r]]|]; [done| |apply H; lia].
    destruct (kind_is e tRParen); [|done]. assert (length (e :: r) <= length cur)%nat by (apply H; lia). simpl in *; lia.
  - destruct (find_key constantSearchKeys _); [simpl; lia|].
    destruct (find_key searchKeyParsers _) as [p|].
    + pose proof (run_parser_total n (key n) p cur IH) as H.
      destruct (run_parser _ _ _ _ _ _) as [[]|]; [simpl; enough (length l <= length cur)%nat by lia|]; apply H; lia.
    + destruct (parseSeqSet (tk_val t)); [simpl; lia|done].
Qed.
End total.

(** The search parser terminates on every token list: its recursion, through NOT, OR and
    groups, never exceeds the number of tokens, so it answers a matcher or a protocol error. *)
Theorem search_parser_total ToLower header_values ParseDate toks :
  parseSearchKeys ToLower header_values ParseDate toks <> Err ImOutOfFuel.
Proof.
  pose proof (keys_loop_total (S (length toks)) (length toks) _ [] toks (key_total ToLower header_values ParseDate _)) as H.
  unfold parseSearchKeys. destruct (keys_loop _ _ _ _) as [[]|]; [done|]. intros [= ->]. by apply H; [lia..|].
Qed.

(** ** The results of a search *)

(** The context of message [i] of the mailbox *)
Definition ctx_of (raw : Z -> bytes) (msgs : list MessageInfo) (i : nat) (m : MessageInfo) : searchCtx :=
  mkCtx (Z.of_nat i + 1) m (len msgs) (maxUID msgs) (raw (mi_UID m)).

(** What identifies a message in a result *)
Definition result_id (byUID : bool) (i : nat) (m : MessageInfo) : Z := if byUID then mi_UID m else Z.of_nat i + 1.

Lemma contexts_lookup raw ms mu i msgs k c :
  contexts raw ms mu i msgs !! k = Some c <->
  exists m, msgs !! k = Some m /\ c = mkCtx (u32 (i + Z.of_nat k + 1)) m ms mu (raw (mi_UID m)).
Proof.
  revert i k. induction msgs as [|m msgs IH]; intros i k; cbn [contexts].
  - rewrite !lookup_nil. naive_solver.
  - destruct k as [|k]; cbn [lookup list_lookup].
    + replace (i + Z.of_nat 0) with i by lia. naive_solver.
    + rewrite IH. replace (i + Z.of_nat (S k)) with (i + 1 + Z.of_nat k) by lia. done.
Qed.

Lemma sorted_map_filter (f : searchCtx -> Z) (p : searchCtx -> bool) cs :
  StronglySorted Z.lt (map f cs) -> StronglySorted Z.lt (map f (List.filter p cs)).
Proof.
  induction cs as [|c cs IH]; cbn [map List.filter]; [done|]. intros [H1 H2]%StronglySorted_inv.
  destruct (p c); cbn [map]; [|by apply IH]. constructor; [by apply IH|].
  rewrite List.Forall_forall in *. intros x (y & <- & Hy)%in_map_iff. apply filter_In in Hy as [Hy _].
  apply H2. by apply in_map.
Qed.

Lemma contexts_sorted raw ms mu i msgs (byUID : bool) :
  0 <= i -> i + len msgs < 2 ^ 32 -> StronglySorted Z.lt (map mi_UID msgs) ->
  StronglySorted Z.lt (map (fun s => if byUID then mi_UID (sc_msg s) else sc_seq s) (contexts raw ms mu i msgs)).
Proof.
  revert i. induction msgs as [|m msgs IH]; intros i Hi Hl Hs; cbn [contexts map]; [constructor|].
  rewrite len_cons in Hl. pose proof (len_nonneg msgs). apply StronglySorted_inv in Hs as [Hs Hm].
  constructor; [apply IH; [lia..|done]|]. apply List.Forall_forall. intros x (c & <- & Hc)%in_map_iff.
  apply list_elem_of_In, list_elem_of_lookup in Hc as [k Hk]. apply contexts_lookup in Hk as (m' & Hk & ->).
  apply lookup_lt_Some in Hk as Hlt. destruct byUID; cbn [sc_msg sc_seq].
  - rewrite List.Forall_forall in Hm. apply Hm. apply in_map. apply list_elem_of_In. by eapply list_elem_of_lookup_2.
  - unfold u32, len in *. rewrite !Z.mod_small by lia. lia.
Qed.

(** SEARCH and UID SEARCH answer exactly the messages that satisfy the criteria, each once,
    in ascending order, by number or by UID; this holds for every matcher, over a mailbox listed
    by ascending UID. *)
Theorem search_results_exact raw msgs m byUID :
  len msgs < 2 ^ 32 -> StronglySorted Z.lt (map mi_UID msgs) ->
  StronglySorted Z.lt (searchMatches raw msgs m byUID)
  /\ forall n, n ∈ searchMatches raw msgs m byUID <->
       exists i msg, msgs !! i = Some msg /\ m (ctx_of raw msgs i msg) = true /\ n = result_id byUID i msg.
Proof.
  intros Hl Hs. unfold searchMatches. split.
  { apply sorted_map_filter. apply contexts_sorted; [lia|done|done]. }
  assert (C : forall i msg, msgs !! i = Some msg ->
    mkCtx (u32 (0 + Z.of_nat i + 1)) msg (maxSeq msgs) (maxUID msgs) (raw (mi_UID msg)) = ctx_of raw msgs i msg).
  { intros i msg Hi%lookup_lt_Some. unfold ctx_of, maxSeq, u32. unfold len in *.
    rewrite !Z.mod_small by lia. done. }
  intros n. rewrite list_elem_of_In, in_map_iff. setoid_rewrite filter_In. setoid_rewrite <- list_elem_of_In.
  setoid_rewrite list_elem_of_lookup. setoid_rewrite contexts_lookup. split.
  - intros (c & <- & (i & msg & Hi & ->) & Hm). exists i, msg. rewrite C in * by done. split_and!; [done..|]. by destruct byUID.
  - intros (i & msg & Hi & Hm & ->). exists (ctx_of raw msgs i msg).
    split; [by destruct byUID|]. split; [|done]. exists i, msg. by rewrite C.
Qed.

Lemma search_results_exact_witness :
  let msgs := [mkInfo 7 20 0 (mkDate 2024 1 1) 0; mkInfo 9 20 1 (mkDate 2024 1 1) 0] in
  StronglySorted Z.lt (searchMatches (fun _ => []) msgs (flagSet FlagSeen true) true)
  /\ forall n, n ∈ searchMatches (fun _ => []) msgs (flagSet FlagSeen true) true <->
       exists i msg, msgs !! i = Some msg /\ flagSet FlagSeen true (ctx_of (fun _ => []) msgs i msg) = true
         /\ n = result_id true i msg.
Proof.
  intros msgs. apply (search_results_exact (fun _ => []) msgs (flagSet FlagSeen true) true); [reflexivity|].
  repeat constructor.
Defined.

(** [OR SEEN NOT (2:* LARGER 10)] *)
Lemma search_means_rfc_witness : exists m,
  parseSearchKeys id (fun _ _ => []) (fun _ => None)
    [tok_atom (lit "or"); tok_atom (lit "Seen"); tok_atom (lit "NOT"); mkToken tLParen [] false; tok_atom (lit "2:*");
     tok_atom (lit "LARGER"); tok_atom (lit "10"); mkToken tRParen [] false] = Ok (m, [])
  /\ forall s, m s = true <->
       means id (fun _ _ => []) (fun _ => None)
         (SAnd [SOr (SFlag 0 true) (SNot (SAnd [SSeq false [mkSeqRange 2 seqStar]; SSize true 10]))]) s.
Proof.
  apply (search_means_rfc id (fun _ _ => []) (fun _ => None)); [|done].
  change [tok_atom (lit "or"); tok_atom (lit "Seen"); tok_atom (lit "NOT"); mkToken tLParen [] false; tok_atom (lit "2:*");
     tok_atom (lit "LARGER"); tok_atom (lit "10"); mkToken tRParen [] false]
   with ((tok_atom (lit "or") :: [tok_atom (lit "Seen")] ++ (tok_atom (lit "NOT") :: mkToken tLParen [] false ::
     ([tok_atom (lit "2:*")] ++ [tok_atom (lit "LARGER"); tok_atom (lit "10")] ++ []) ++ [mkToken tRParen [] false])) ++ []).
  constructor; [|constructor]. apply sp_or; [by eexists| |].
  - apply (sp_plain _ (lit "SEEN")); [|by eexists]. apply list_elem_of_In. cbn. tauto.
  - apply sp_not; [by eexists|]. apply sp_group; [done..|].
    constructor; [by eapply sp_seq|]. constructor; [apply sp_larger; [by eexists|done]|constructor].
Defined.
