(* ===== verification/Imapfetch.v ===== *)
(** * IMAP: FETCH items ([internal/imap/fetch.go])

    The parser of the FETCH item list, with its sections and octet windows, and the fields of
    one message's reply.  The MIME package (structure, envelope, part extraction) and the
    rendering of a date are parameters. *)

From stdpp Require Import base list numbers.
From Stdlib Require Import ZArith Lia.
From Stdlib Require String.
Import String.StringSyntax.
From Stdlib Require Import ZArith Lia Sorted Permutation.
From S2P Require Import Prelude Netline Gostr Imaplex Imapsearch.
Open Scope Z_scope.

(** [mime.Section] *)
Record Section_ := mkSection { sec_Path : list Z; sec_Specifier : bytes; sec_Fields : list bytes }.
Definition noSection : Section_ := mkSection [] [] [].

Record fetchItem := mkItem {
  ft_kind : bytes; ft_peek : bool; ft_section : Section_; ft_name : bytes; ft_partial : option (Z * Z) }.
Definition plain_item (kind : bytes) : fetchItem := mkItem kind false noSection [] None.

Definition hasKind (items : list fetchItem) (kind : bytes) : bool := existsb (fun it => beq (ft_kind it) kind) items.

(** ** Parsing *)

(** [<start.count>], both at 32 bits *)
Definition parsePartial (s : bytes) : result im_error (Z * Z) :=
  let inner := TrimSuffix (TrimPrefix s (lit "<")) (lit ">") in
  if existsb (Z.eqb 46) inner then
    let '(a, b) := Cut inner 46 in
    match ParseUint a 32, ParseUint b 32 with
    | Some start, Some count => Ok (start, count)
    | _, _ => Err ErrProtocol
    end
  else Err ErrProtocol.

Definition parseTrailingPartial (cur : list token) : result im_error (option (Z * Z) * list token) :=
  match cur with
  | p :: cur' =>
      if kind_is p tAtom && HasPrefix (tk_val p) (lit "<") then
        match parsePartial (tk_val p) with Ok w => Ok (Some w, cur') | Err e => Err e end
      else Ok (None, cur)
  | [] => Ok (None, [])
  end.

(** The octets the window selects *)
Definition applyPartial (data : bytes) (partial : option (Z * Z)) : bytes :=
  match partial with
  | None => data
  | Some (start, count) =>
      if (start <? 0) || (count <? 0) || (len data <=? start) then []
      else take (Z.to_nat (Z.min count (len data - start))) (drop (Z.to_nat start) data)
  end.

(** The numeric parts before the keyword *)
Fixpoint split_path (parts : list bytes) : list Z * list bytes :=
  match parts with
  | p :: parts' => match Atoi p with
                   | Some n => let '(path, rest) := split_path parts' in (n :: path, rest)
                   | None => ([], parts)
                   end
  | [] => ([], [])
  end.
Definition splitSpec (spec : bytes) : Section_ :=
  let '(path, rest) := split_path (Split spec 46) in
  mkSection path (match rest with [] => [] | _ => ToUpper (Join rest (lit ".")) end) [].

Fixpoint field_list (cur : list token) : result im_error (list bytes * list token) :=
  match cur with
  | [] => Err ErrProtocol
  | t :: cur =>
      if kind_is t tRParen then Ok ([], cur)
      else match field_list cur with
           | Ok (fields, rest) => Ok (match tok_str t with Some s => s :: fields | None => fields end, rest)
           | Err e => Err e
           end
  end.
Definition parseFieldList (cur : list token) : result im_error (list bytes * list token) :=
  match cur with
  | t :: cur => if kind_is t tLParen then field_list cur else Err ErrProtocol
  | [] => Err ErrProtocol
  end.

Definition parseSectionSpec (cur : list token) : result im_error (Section_ * list token) :=
  match cur with
  | [] => Err ErrProtocol
  | t :: cur' =>
      if kind_is t tRBracket then Ok (noSection, cur)
      else match tok_str t with
           | None => Err ErrProtocol
           | Some spec =>
               let sec := splitSpec spec in
               if HasPrefix (ToUpper (sec_Specifier sec)) (lit "HEADER.FIELDS") then
                 match parseFieldList cur' with
                 | Ok (fields, rest) => Ok (mkSection (sec_Path sec) (sec_Specifier sec) fields, rest)
                 | Err e => Err e
                 end
               else Ok (sec, cur')
           end
  end.

Definition sectionString (s : Section_) : bytes :=
  Join (map dec (sec_Path s)) (lit ".")
  ++ match sec_Specifier s with
     | [] => []
     | spec => (match sec_Path s with [] => [] | _ => lit "." end) ++ spec
               ++ match sec_Fields s with [] => [] | fields => lit " (" ++ Join fields (lit " ") ++ lit ")" end
     end.
(** The echoed name of a section item *)
Definition section_name (label : bytes) (s : Section_) (partial : option (Z * Z)) : bytes :=
  label ++ lit "[" ++ sectionString s ++ lit "]"
  ++ match partial with Some (start, _) => lit "<" ++ dec start ++ lit ">" | None => [] end.

(** The section after its opening bracket, through its closing one *)
Definition bracketed (cur : list token) : result im_error (Section_ * list token) :=
  match parseSectionSpec cur with
  | Err e => Err e
  | Ok (sec, t :: rest) => if kind_is t tRBracket then Ok (sec, rest) else Err ErrProtocol
  | Ok (sec, []) => Err ErrProtocol
  end.

Definition parsed_items : Type := result im_error (list fetchItem * list token).

Definition parseBodySection (cur : list token) (peek : bool) : parsed_items :=
  match bracketed cur with
  | Err e => Err e
  | Ok (sec, rest) =>
      match parseTrailingPartial rest with
      | Err e => Err e
      | Ok (partial, rest) => Ok ([mkItem (lit "SECTION") peek sec (section_name (lit "BODY") sec partial) partial], rest)
      end
  end.

Definition parseBinarySection (cur : list token) (peek sizeOnly : bool) : parsed_items :=
  match parseSectionSpec cur with
  | Err e => Err e
  | Ok (sec, rest) =>
      if negb (beq (sec_Specifier sec) []) then Err ErrProtocol
      else match rest with
           | [] => Err ErrProtocol
           | t :: rest =>
               if negb (kind_is t tRBracket) then Err ErrProtocol
               else
                 let label := if sizeOnly then lit "BINARY.SIZE" else lit "BINARY" in
                 match (if sizeOnly then Ok (None, rest) else parseTrailingPartial rest) with
                 | Err e => Err e
                 | Ok (partial, rest) => Ok ([mkItem label peek sec (section_name label sec partial) partial], rest)
                 end
           end
  end.

Definition plainFetchItems : list (bytes * fetchItem) :=
  map (fun k => (k, plain_item k))
    [lit "FLAGS"; lit "INTERNALDATE"; lit "RFC822.SIZE"; lit "ENVELOPE"; lit "BODYSTRUCTURE"; lit "UID"; lit "MODSEQ"]
  ++ [(lit "RFC822", mkItem (lit "SECTION") false noSection (lit "RFC822") None);
      (lit "RFC822.HEADER", mkItem (lit "SECTION") true (mkSection [] (lit "HEADER") []) (lit "RFC822.HEADER") None);
      (lit "RFC822.TEXT", mkItem (lit "SECTION") false (mkSection [] (lit "TEXT") []) (lit "RFC822.TEXT") None)].

Definition sectionFollows (cur : list token) : bool := match cur with t :: _ => kind_is t tLBracket | [] => false end.

Definition parseOneItem (cur : list token) : parsed_items :=
  match cur with
  | [] => Err ErrProtocol
  | t :: cur =>
      match tok_str t with
      | None => Err ErrProtocol
      | Some name =>
          let upper := ToUpper name in
          match find_key plainFetchItems upper with
          | Some item => Ok ([item], cur)
          | None =>
              if beq upper (lit "BODY") || beq upper (lit "BODY.PEEK") then
                let peek := beq upper (lit "BODY.PEEK") in
                if sectionFollows cur then parseBodySection (List.tl cur) peek
                else if peek then Err ErrProtocol else Ok ([plain_item (lit "BODY")], cur)
              else if beq upper (lit "BINARY") || beq upper (lit "BINARY.PEEK") then
                if sectionFollows cur then parseBinarySection (List.tl cur) (beq upper (lit "BINARY.PEEK")) false else Err ErrProtocol
              else if beq upper (lit "BINARY.SIZE") then
                if sectionFollows cur then parseBinarySection (List.tl cur) true true else Err ErrProtocol
              else Err ErrProtocol
          end
      end
  end.

(** The items of a parenthesized list; each takes a token. *)
Fixpoint item_list (fuel : nat) (cur : list token) (items : list fetchItem) : result im_error (list fetchItem) :=
  match fuel with
  | O => Err ImOutOfFuel
  | S fuel =>
      match cur with
      | [] => Err ErrProtocol
      | t :: _ =>
          if kind_is t tRParen then Ok items
          else match parseOneItem cur with Ok (it, cur) => item_list fuel cur (items ++ it) | Err e => Err e end
      end
  end.

Definition fetchMacros : list (bytes * list bytes) :=
  [(lit "ALL", [lit "FLAGS"; lit "INTERNALDATE"; lit "RFC822.SIZE"; lit "ENVELOPE"]);
   (lit "FAST", [lit "FLAGS"; lit "INTERNALDATE"; lit "RFC822.SIZE"]);
   (lit "FULL", [lit "FLAGS"; lit "INTERNALDATE"; lit "RFC822.SIZE"; lit "ENVELOPE"; lit "BODY"])].
Definition expandNames (names : list bytes) : list fetchItem := map (fun n => plain_item (ToUpper n)) names.

Definition parseFetchItems (args : list token) : result im_error (list fetchItem) :=
  match args with
  | [] => Err ErrProtocol
  | first :: cur =>
      if kind_is first tLParen then item_list (S (length cur)) cur []
      else
        let one := match parseOneItem args with Ok (items, _) => Ok items | Err e => Err e end in
        match tok_str first with
        | Some name => match find_key fetchMacros (ToUpper name) with Some names => Ok (expandNames names) | None => one end
        | None => one
        end
  end.

(** ** The CHANGEDSINCE modifier *)

(** The index of the last opening parenthesis at depth zero *)
Fixpoint last_open (depth : Z) (i : nat) (found : option nat) (args : list token) : option nat :=
  match args with
  | [] => found
  | t :: args =>
      if kind_is t tLParen then last_open (depth + 1) (S i) (if depth =? 0 then Some i else found) args
      else if kind_is t tRParen then last_open (depth - 1) (S i) found args
      else last_open depth (S i) found args
  end.
Definition lastTopLevelParen (args : list token) : option nat := last_open 0 0 None args.

Definition splitFetchModifiers (args : list token) : option (list token * Z) :=
  match lastTopLevelParen args with
  | None => Some (args, 0)
  | Some lastOpen =>
      match drop (S lastOpen) args with
      | t :: more =>
          if kind_is t tAtom && EqualFold (tk_val t) (lit "CHANGEDSINCE") then
            match more with
            | n :: _ :: _ => (fun v => (take lastOpen args, v)) <$> ParseUint (tk_val n) 64
            | _ => None
            end
          else Some (args, 0)
      | [] => Some (args, 0)
      end
  end.

(** ** The reply of one message *)

Definition binaryLiteral (data : bytes) : bytes :=
  (if existsb (Z.eqb 0) data then lit "~" else []) ++ lit "{" ++ dec (len data) ++ lit "}" ++ crlf ++ data.

Section fields.
(** [mime.ParseStructure(raw).Extract], the decoded part of a path, the rendered structure and
    envelope, and [Format] of the internal date *)
Context (Extract : bytes -> Section_ -> option bytes) (extractBinary : bytes -> list Z -> option bytes)
  (bodystructure : bool -> bytes -> bytes) (envelope : bytes -> bytes) (format_date : date -> Z -> bytes).

Definition metaField (raw : bytes) (msg : MessageInfo) (modseqs : Z -> Z) (it : fetchItem) : option bytes :=
  let k := ft_kind it in
  if beq k (lit "UID") then Some (lit "UID " ++ dec (mi_UID msg))
  else if beq k (lit "MODSEQ") then Some (lit "MODSEQ (" ++ dec (modseqs (mi_UID msg)) ++ lit ")")
  else if beq k (lit "FLAGS") then Some (lit "FLAGS (" ++ formatFlags (mi_Flags msg) false ++ lit ")")
  else if beq k (lit "INTERNALDATE") then Some (lit "INTERNALDATE " ++ quoteString (format_date (mi_InternalDate msg) (mi_time msg)))
  else if beq k (lit "RFC822.SIZE") then Some (lit "RFC822.SIZE " ++ dec (mi_Size msg))
  else if beq k (lit "ENVELOPE") then Some (lit "ENVELOPE " ++ envelope raw)
  else if beq k (lit "BODY") then Some (lit "BODY " ++ bodystructure false raw)
  else if beq k (lit "BODYSTRUCTURE") then Some (lit "BODYSTRUCTURE " ++ bodystructure true raw)
  else None.

(** The field of an item and whether it reads the body *)
Definition field (raw : bytes) (msg : MessageInfo) (modseqs : Z -> Z) (it : fetchItem) : option (bytes * bool) :=
  if beq (ft_kind it) (lit "SECTION") then
    Some (ft_name it ++ lit " " ++ literalize (applyPartial (default [] (Extract raw (ft_section it))) (ft_partial it)), negb (ft_peek it))
  else if beq (ft_kind it) (lit "BINARY") then
    Some (ft_name it ++ lit " " ++ binaryLiteral (applyPartial (default [] (extractBinary raw (sec_Path (ft_section it)))) (ft_partial it)),
          negb (ft_peek it))
  else if beq (ft_kind it) (lit "BINARY.SIZE") then
    Some (ft_name it ++ lit " " ++ dec (match extractBinary raw (sec_Path (ft_section it)) with Some d => len d | None => 0 end), false)
  else (fun f => (f, false)) <$> metaField raw msg modseqs it.

(** All fields of a message, and whether one of them read the body *)
Definition message_fields (raw : bytes) (msg : MessageInfo) (modseqs : Z -> Z) (items : list fetchItem) : list bytes * bool :=
  let fs := omap (field raw msg modseqs) items in (map fst fs, existsb snd fs).
End fields.

Definition hasFlagsField (fields : list bytes) : bool := existsb (fun f => HasPrefix f (lit "FLAGS ")) fields.

Definition tok (k : tokenKind) : token := mkToken k [] false.
Example fetch_ex :
  parseFetchItems [tok tLParen; tok_atom (lit "uid"); tok_atom (lit "BODY.PEEK"); tok tLBracket; tok_atom (lit "1.2.header.fields");
    tok tLParen; tok_atom (lit "Date"); tok tRParen; tok tRBracket; tok_atom (lit "<5.10>"); tok tRParen]
  = Ok [plain_item (lit "UID");
        mkItem (lit "SECTION") true (mkSection [1; 2] (lit "HEADER.FIELDS") [lit "Date"]) (lit "BODY[1.2.HEADER.FIELDS (Date)]<5>") (Some (5, 10))].
Proof. vm_compute. reflexivity. Qed.

(** * IMAP: SORT and THREAD ([internal/imap/sort.go])

    The ordering of search results and their grouping into threads.  Instants are numbers; the
    date and address parsers of [net/mail] and [strings.ToLower] are parameters. *)

(** ** SORT *)

Record sortCrit := mkCrit { cr_key : bytes; cr_reverse : bool }.

Fixpoint sort_criteria (cur : list token) (reverse : bool) : option (list sortCrit * list token) :=
  match cur with
  | [] => None
  | t :: cur =>
      if kind_is t tRParen then Some ([], cur)
      else
        let key := ToUpper (tk_val t) in
        if beq key (lit "REVERSE") then sort_criteria cur true
        else '(crits, rest) ← sort_criteria cur false; Some (mkCrit key reverse :: crits, rest)
  end.
Definition parseSortCriteria (cur : list token) : option (list sortCrit * list token) :=
  match cur with
  | t :: cur =>
      if kind_is t tLParen then
        '(crits, rest) ← sort_criteria cur false;
        match crits with [] => None | _ => Some (crits, rest) end
      else None
  | [] => None
  end.

Record sortKeys := mkKeys {
  sk_idx : Z; sk_arrival : Z; sk_date : Z; sk_size : Z; sk_from : bytes; sk_to : bytes; sk_cc : bytes; sk_subject : bytes }.

Definition sortNeedsHeader (crits : list sortCrit) : bool :=
  existsb (fun cr => existsb (beq (cr_key cr)) [lit "DATE"; lit "FROM"; lit "TO"; lit "CC"; lit "SUBJECT"]) crits.

(** -1, 0 or 1 *)
Definition compare_Z (a b : Z) : Z := if a <? b then -1 else if b <? a then 1 else 0.
Fixpoint compare_bytes (a b : bytes) : Z :=
  match a, b with
  | [], [] => 0
  | [], _ => -1
  | _, [] => 1
  | x :: a, y :: b => if x <? y then -1 else if y <? x then 1 else compare_bytes a b
  end.

Definition compareSortKey (a b : sortKeys) (key : bytes) : Z :=
  if beq key (lit "ARRIVAL") then compare_Z (sk_arrival a) (sk_arrival b)
  else if beq key (lit "DATE") then compare_Z (sk_date a) (sk_date b)
  else if beq key (lit "SIZE") then compare_Z (sk_size a) (sk_size b)
  else if beq key (lit "FROM") then compare_bytes (sk_from a) (sk_from b)
  else if beq key (lit "TO") then compare_bytes (sk_to a) (sk_to b)
  else if beq key (lit "CC") then compare_bytes (sk_cc a) (sk_cc b)
  else if beq key (lit "SUBJECT") then compare_bytes (sk_subject a) (sk_subject b)
  else 0.

Fixpoint lessSort (a b : sortKeys) (crits : list sortCrit) : bool :=
  match crits with
  | [] => sk_idx a <? sk_idx b
  | cr :: crits =>
      let c := compareSortKey a b (cr_key cr) in
      let c := if cr_reverse cr then - c else c in
      if c =? 0 then lessSort a b crits else c <? 0
  end.

(** The token in the first angle brackets, and what follows it *)
Fixpoint to_close (s : bytes) : option (bytes * bytes) :=
  match s with
  | [] => None
  | b :: s => if b =? 62 then Some ([b], s) else '(x, rest) ← to_close s; Some (b :: x, rest)
  end.
Fixpoint next_angle (s : bytes) : option (bytes * bytes) :=
  match s with
  | [] => None
  | b :: s' => if b =? 60 then to_close s else next_angle s'
  end.
Definition firstAngle (s : bytes) : bytes := match next_angle s with Some (a, _) => a | None => [] end.
Fixpoint angles (fuel : nat) (s : bytes) : list bytes :=
  match fuel with
  | O => []
  | S fuel => match next_angle s with Some (a, rest) => a :: angles fuel rest | None => [] end
  end.
Definition allAngles (s : bytes) : list bytes := angles (length s) s.

Section headers.
Context (ToLower : bytes -> bytes) (header_values : bytes -> bytes -> list bytes).
(** [mail.ParseDate] and the internal date as instants; the address of [mail.ParseAddress] *)
Context (ParseInstant : bytes -> option Z) (arrival : MessageInfo -> Z) (ParseAddress : bytes -> option bytes).

Fixpoint base_subject (fuel : nat) (s : bytes) : bytes :=
  match fuel with
  | O => ToLower s
  | S fuel =>
      let low := ToLower s in
      if HasPrefix low (lit "re:") then base_subject fuel (TrimSpace (drop 3 s))
      else if HasPrefix low (lit "fwd:") then base_subject fuel (TrimSpace (drop 4 s))
      else if HasPrefix low (lit "fw:") then base_subject fuel (TrimSpace (drop 3 s))
      else low
  end.
(** Each turn drops at least three bytes. *)
Definition baseSubject (subj : bytes) : bytes := base_subject (S (length subj)) (TrimSpace subj).

Definition sortAddr (hdr : bytes) : bytes :=
  match hdr with
  | [] => []
  | _ => match ParseAddress hdr with Some a => ToLower a | None => ToLower (TrimSpace hdr) end
  end.

Definition sortKeysFor (i : Z) (s : searchCtx) (needHdr : bool) : sortKeys :=
  let m := sc_msg s in
  let h := header header_values s in
  if needHdr then
    mkKeys i (arrival m) (default (arrival m) (ParseInstant (h (lit "Date")))) (mi_Size m)
      (sortAddr (h (lit "From"))) (sortAddr (h (lit "To"))) (sortAddr (h (lit "Cc"))) (baseSubject (h (lit "Subject")))
  else mkKeys i (arrival m) (arrival m) (mi_Size m) [] [] [] [].

(** The matched messages with their indices *)
Definition matched (cs : list searchCtx) (m : matcher) : list (Z * searchCtx) :=
  List.filter (fun p => m p.2) (zip (map Z.of_nat (seq 0 (length cs))) cs).

(** The id a message is listed under *)
Definition threadID (s : searchCtx) (byUID : bool) : Z := if byUID then mi_UID (sc_msg s) else sc_seq s.

(** The sorted ids: each key with the id of its message *)
Definition sorted_matches (cs : list searchCtx) (m : matcher) (crits : list sortCrit) (byUID : bool) : list Z :=
  let keyed := map (fun p => (sortKeysFor p.1 p.2 (sortNeedsHeader crits), threadID p.2 byUID)) (matched cs m) in
  map snd (SliceStable (fun a b => lessSort a.1 b.1 crits) keyed).

(** ** THREAD *)

Record threadMsg := mkTM { tm_id : Z; tm_date : Z; tm_subject : bytes; tm_msgID : bytes; tm_refs : list bytes }.

(** [tm_id] stands for the index of the message, whose rendering it is: both are injective. *)
Definition thread_msg (byUID : bool) (s : searchCtx) : threadMsg :=
  let h := header header_values s in
  mkTM (threadID s byUID) (default (arrival (sc_msg s)) (ParseInstant (h (lit "Date")))) (baseSubject (h (lit "Subject")))
    (firstAngle (h (lit "Message-ID"))) (allAngles (h (lit "References") ++ lit " " ++ h (lit "In-Reply-To"))).
Definition threadMsgs (cs : list searchCtx) (m : matcher) (byUID : bool) : list threadMsg :=
  map (fun p => thread_msg byUID p.2) (matched cs m).
End headers.

Definition by_date (a b : threadMsg) : bool := tm_date a <? tm_date b.

(** The subjects in the order they are first seen *)
Fixpoint subjects (seen : list bytes) (msgs : list threadMsg) : list bytes :=
  match msgs with
  | [] => []
  | m :: msgs => if existsb (beq (tm_subject m)) seen then subjects seen msgs
                 else tm_subject m :: subjects (tm_subject m :: seen) msgs
  end.
Definition group (msgs : list threadMsg) (subj : bytes) : list threadMsg :=
  SliceStable by_date (List.filter (fun m => beq (tm_subject m) subj) msgs).
Definition earliest (th : list threadMsg) : Z := match th with m :: _ => tm_date m | [] => 0 end.
Definition ordered_threads (msgs : list threadMsg) : list (list threadMsg) :=
  SliceStable (fun a b => earliest a <? earliest b) (map (group msgs) (subjects [] msgs)).
Definition threadOrderedSubject (msgs : list threadMsg) : bytes :=
  concat (map (fun th => lit "(" ++ Join (map (fun m => dec (tm_id m)) th) (lit " ") ++ lit ")") (ordered_threads msgs)).

Inductive tnode := TNode (m : threadMsg) (children : list tnode).
Definition tn_msg (n : tnode) : threadMsg := match n with TNode m _ => m end.

(** [byMsgID]: the last message of an id *)
Definition byMsgID (msgs : list threadMsg) (id : bytes) : option threadMsg :=
  match id with [] => None | _ => List.find (fun m => beq (tm_msgID m) id) (rev msgs) end.
Definition threadParent (msgs : list threadMsg) (mm : threadMsg) : option threadMsg :=
  List.find (fun p => negb (tm_id p =? tm_id mm)) (omap (byMsgID msgs) (rev (tm_refs mm))).

(** The messages whose parent is [m], sorted by date at every level *)
Definition children_of (msgs : list threadMsg) (m : threadMsg) : list threadMsg :=
  List.filter (fun c => match threadParent msgs c with Some p => tm_id p =? tm_id m | None => false end) msgs.
Definition node_before (a b : tnode) : bool := by_date (tn_msg a) (tn_msg b).
Fixpoint thread_tree (fuel : nat) (msgs : list threadMsg) (m : threadMsg) : tnode :=
  match fuel with
  | O => TNode m []
  | S fuel => TNode m (SliceStable node_before (map (thread_tree fuel msgs) (children_of msgs m)))
  end.
Definition roots (msgs : list threadMsg) : list threadMsg :=
  List.filter (fun m => match threadParent msgs m with Some _ => false | None => true end) msgs.
(** What hangs below a root is a tree of at most the messages there are. *)
Definition forest (msgs : list threadMsg) : list tnode :=
  SliceStable node_before (map (thread_tree (length msgs) msgs) (roots msgs)).

(** A chain of single children is listed, a branch parenthesizes each child. *)
Fixpoint renderThread (n : tnode) : bytes :=
  match n with
  | TNode m children =>
      dec (tm_id m)
      ++ match children with
         | [] => []
         | [c] => lit " " ++ renderThread c
         | cs => lit " " ++ concat (map (fun c => lit "(" ++ renderThread c ++ lit ")") cs)
         end
  end.
Definition threadReferences (msgs : list threadMsg) : bytes :=
  concat (map (fun r => lit "(" ++ renderThread r ++ lit ")") (forest msgs)).

Example thread_ex :
  let msgs := [mkTM 1 10 (lit "a") (lit "<1>") []; mkTM 2 30 (lit "b") (lit "<2>") [lit "<1>"];
    mkTM 3 20 (lit "a") (lit "<3>") [lit "<9>"; lit "<1>"]; mkTM 4 40 (lit "b") (lit "<4>") [lit "<1>"; lit "<2>"]] in
  threadReferences msgs = lit "(1 (3)(2 4))" /\ threadOrderedSubject msgs = lit "(1 3)(2 4)".
Proof. vm_compute. done. Qed.
