(* ===== verification/Permission.v ===== *)
(** * Folder permissions ([internal/objectstore/permission.go])

    The permission table of a store, the batch that edits it, the resolver every access goes
    through, and the rows the wire serves.  The table is the list of its rows; SQLite compares
    the user name without regard to ASCII case, keeps one row for a folder and a user, refuses
    a row of a folder that does not exist, and numbers rows upward. *)

From stdpp Require Import base list numbers gmap.
From Stdlib Require Import ZArith Lia Sorted.
From Stdlib Require String.
Import String.StringSyntax.
From S2P Require Import Prelude Mapi Gostr Imaplex.
Open Scope Z_scope.

Definition MemberIDDefault : Z := 0.
Definition MemberIDAnonymous : Z := -1.

Record PermissionEntry := mkEntry { pe_MemberID : Z; pe_Name : bytes; pe_Rights : Z }.
Inductive PermissionOp := PermAdd | PermModify | PermRemove | PermUnknown.
Record PermissionChange := mkChange { pc_Op : PermissionOp; pc_MemberID : Z; pc_Username : bytes; pc_Rights : Z }.

(** A row of the [permissions] table *)
Record row := mkRow { rw_id : Z; rw_folder : Z; rw_username : bytes; rw_permission : Z }.
Definition permissions : Type := list row.

(** [COLLATE NOCASE]: ASCII letters compare without case. *)
Definition nocase (s : bytes) : bytes := map (fun b => if (65 <=? b) && (b <=? 90) then b + 32 else b) s.
Definition same_name (a b : bytes) : bool := beq (nocase a) (nocase b).

Definition wireMemberID (rowID : Z) (username : bytes) : Z :=
  if beq username (lit "default") then MemberIDDefault
  else if beq username [] then MemberIDAnonymous else rowID.
Definition memberDisplayName (username : bytes) : bytes :=
  match username with [] => lit "anonymous" | _ => username end.
Definition specialUsername (memberID : Z) : option bytes :=
  if memberID =? MemberIDDefault then Some (lit "default")
  else if memberID =? MemberIDAnonymous then Some [] else None.
Definition addUsername (c : PermissionChange) : bytes :=
  match pc_Username c with [] => default [] (specialUsername (pc_MemberID c)) | u => u end.

(** The rows of a folder, in row order *)
Definition rows_of (t : permissions) (folderID : Z) : list row := List.filter (fun r => rw_folder r =? folderID) t.
Definition ListPermissions (t : permissions) (folderID : Z) : list PermissionEntry :=
  map (fun r => mkEntry (wireMemberID (rw_id r) (rw_username r)) (memberDisplayName (rw_username r)) (u32 (rw_permission r)))
      (rows_of t folderID).

(** The row of a folder and a user *)
Definition is_row (folderID : Z) (username : bytes) (r : row) : bool :=
  (rw_folder r =? folderID) && same_name (rw_username r) username.
Definition set_permission (rights : Z) (r : row) : row := mkRow (rw_id r) (rw_folder r) (rw_username r) rights.

(** The clause that selects the row a Modify or a Remove addresses *)
Definition memberLocator (memberID : Z) (r : row) : bool :=
  match specialUsername memberID with
  | Some username => same_name (rw_username r) username
  | None => rw_id r =? memberID
  end.

Section store.
(** The folders of the store; the row id SQLite assigns next; the addresses of the store-owner
    list *)
Context (folder_exists : Z -> bool) (new_id : permissions -> Z) (store_owners : list bytes).

Definition upsertPermission (t : permissions) (folderID : Z) (username : bytes) (rights : Z) : option permissions :=
  if existsb (is_row folderID username) t
  then Some (map (fun r => if is_row folderID username r then set_permission rights r else r) t)
  else if folder_exists folderID then Some (t ++ [mkRow (new_id t) folderID username rights])
  else None.

Definition apply_change (folderID : Z) (t : permissions) (c : PermissionChange) : option permissions :=
  match pc_Op c with
  | PermAdd => upsertPermission t folderID (addUsername c) (pc_Rights c)
  | PermModify =>
      match specialUsername (pc_MemberID c) with
      | Some username => upsertPermission t folderID username (pc_Rights c)
      | None => Some (map (fun r => if (rw_folder r =? folderID) && (rw_id r =? pc_MemberID c)
                                    then set_permission (pc_Rights c) r else r) t)
      end
  | PermRemove => Some (List.filter (fun r => negb ((rw_folder r =? folderID) && memberLocator (pc_MemberID c) r)) t)
  | PermUnknown => None
  end.

Fixpoint apply_changes (folderID : Z) (t : permissions) (changes : list PermissionChange) : option permissions :=
  match changes with
  | [] => Some t
  | c :: changes => t ← apply_change folderID t c; apply_changes folderID t changes
  end.

(** The batch runs in one transaction: an error leaves the table as it was. *)
Definition ModifyPermissions (t : permissions) (folderID : Z) (replace : bool) (changes : list PermissionChange) : permissions * bool :=
  let t0 := if replace then List.filter (fun r => negb (rw_folder r =? folderID)) t else t in
  match apply_changes folderID t0 changes with
  | Some t' => (t', true)
  | None => (t, false)
  end.

Definition IsStoreOwner (username : bytes) : bool := existsb (fun o => EqualFold o username) store_owners.

Definition lookupPermission (t : permissions) (folderID : Z) (username : bytes) : option Z :=
  (fun r => u32 (rw_permission r)) <$> List.find (is_row folderID username) t.

Definition ResolvePermission (t : permissions) (folderID : Z) (username : bytes) : Z :=
  if IsStoreOwner username then RightsMaxROP
  else match lookupPermission t folderID username with
       | Some rights => rights
       | None => default 0 (lookupPermission t folderID (lit "default"))
       end.

Definition HasFolderGrant (t : permissions) (username : bytes) : bool :=
  existsb (fun r => same_name (rw_username r) username && negb (rw_permission r =? 0)) t.

(** ** Delegates *)

Definition DelegateFolders : list Z := [0x0d; 0x0f; 0x13; 0x12; 0x11; 0x10].
Definition clearUserGrant (t : permissions) (fid : Z) (user : bytes) : permissions :=
  List.filter (fun r => negb (is_row fid user r)) t.

(** Each folder is its own transaction: an error keeps the folders done before it. *)
Fixpoint SetDelegateFolderRights_on (fids : list Z) (t : permissions) (user : bytes) (rights : Z) : permissions * bool :=
  match fids with
  | [] => (t, true)
  | fid :: fids =>
      let t := clearUserGrant t fid user in
      if rights =? 0 then SetDelegateFolderRights_on fids t user rights
      else let '(t, done_) := ModifyPermissions t fid false [mkChange PermAdd 0 user rights] in
           if done_ : bool then SetDelegateFolderRights_on fids t user rights else (t, false)
  end.
Definition SetDelegateFolderRights (t : permissions) (user : bytes) (rights : Z) : permissions * bool :=
  SetDelegateFolderRights_on DelegateFolders t user rights.

(** The rights on one delegate folder: of the last row that names the user *)
Definition delegate_rights (t : permissions) (user : bytes) (fid : Z) : option Z :=
  pe_Rights <$> List.find (fun e => EqualFold (pe_Name e) user && negb (pe_Rights e =? 0)) (rev (ListPermissions t fid)).
End store.

(** ** The rows on the wire ([internal/rop/permission.go]) *)

(** The default and the anonymous member are always served. *)
Definition served_entries (entries : list PermissionEntry) : list PermissionEntry :=
  let have id := existsb (fun e => pe_MemberID e =? id) entries in
  entries ++ (if have MemberIDDefault then [] else [mkEntry MemberIDDefault (lit "default") 0])
          ++ (if have MemberIDAnonymous then [] else [mkEntry MemberIDAnonymous (lit "anonymous") 0]).
(** The rights of a served entry, without the free/busy bits unless they were asked for *)
Definition served_rights (includeFreeBusy : bool) (e : PermissionEntry) : Z :=
  if includeFreeBusy then pe_Rights e else Z.ldiff (pe_Rights e) (Z.lor FrightsFreeBusySimple FrightsFreeBusyDetailed).

(** Masked to what a client may send, then closed under the implied rights *)
Definition ingestRights (rights : Z) (includeFreeBusy : bool) : Z :=
  NormalizeRights (Z.land rights RightsMaxROP) (negb includeFreeBusy).

(** ** The table is a map from folders and names to grants *)

(** A grant: the row's id and its rights *)
Definition acl : Type := Z -> bytes -> option (Z * Z).
Definition grant (r : row) : Z * Z := (rw_id r, rw_permission r).
Definition acl_of (t : permissions) : acl := fun f n => grant <$> List.find (is_row f n) t.

(** One row for a folder and a name *)
Definition row_key (r : row) : Z * bytes := (rw_folder r, nocase (rw_username r)).
Definition perm_wf (t : permissions) : Prop := NoDup (map row_key t) /\ NoDup (map rw_id t).

(** What a change means: who it names, and what becomes of each grant *)
Definition put_grant (f0 : Z) (u : bytes) (fresh rights : Z) (a : acl) : acl := fun f n =>
  if (f =? f0) && same_name n u then Some (match a f0 u with Some g => g.1 | None => fresh end, rights) else a f n.
Definition spec_change (f0 fresh : Z) (c : PermissionChange) (a : acl) : acl :=
  match pc_Op c, specialUsername (pc_MemberID c) with
  | PermAdd, _ => put_grant f0 (addUsername c) fresh (pc_Rights c) a
  | PermModify, Some u => put_grant f0 u fresh (pc_Rights c) a
  | PermModify, None => fun f n =>
      (fun g => if (f =? f0) && (g.1 =? pc_MemberID c) then (g.1, pc_Rights c) else g) <$> a f n
  | PermRemove, Some u => fun f n => if (f =? f0) && same_name n u then None else a f n
  | PermRemove, None => fun f n => g ← a f n; if (f =? f0) && (g.1 =? pc_MemberID c) then None else Some g
  | PermUnknown, _ => a
  end.

(** A batch: each change in turn, a new member under an id no grant has *)
Inductive acl_steps (f0 : Z) : list PermissionChange -> acl -> acl -> Prop :=
| acl_done a a' : (forall f n, a' f n = a f n) -> acl_steps f0 [] a a'
| acl_step c cs a a1 a' fresh :
    (forall f n g, a f n = Some g -> g.1 <> fresh) ->
    (forall f n, a1 f n = spec_change f0 fresh c a f n) ->
    acl_steps f0 cs a1 a' -> acl_steps f0 (c :: cs) a a'.

Definition clear_folder (f0 : Z) (a : acl) : acl := fun f n => if f =? f0 then None else a f n.

Lemma same_name_refl a : same_name a a = true.
Proof. unfold same_name, beq. by rewrite bool_decide_eq_true_2. Qed.
Lemma same_name_spec a b : same_name a b = true <-> nocase a = nocase b.
Proof. unfold same_name, beq. apply bool_decide_eq_true. Qed.
Lemma is_row_spec f n r : is_row f n r = true <-> row_key r = (f, nocase n).
Proof.
  unfold is_row, row_key. rewrite andb_true_iff, Z.eqb_eq, same_name_spec. split; [intros [-> ->]; done|by intros [= -> ->]].
Qed.
Lemma is_row_key f n r1 r2 : row_key r1 = row_key r2 -> is_row f n r1 = is_row f n r2.
Proof. intros H. apply eq_true_iff_eq. by rewrite !is_row_spec, H. Qed.

(** The row of a key is unique. *)
Lemma find_row_Some t f n r :
  NoDup (map row_key t) -> List.find (is_row f n) t = Some r <-> r ∈ t /\ is_row f n r = true.
Proof.
  intros Hnd. split; [intros H%List.find_some; rewrite list_elem_of_In; tauto|].
  intros [Hin Hr]. induction t as [|x t IH]; [set_solver|]. simpl in *. apply NoDup_cons in Hnd as [Hx Hnd].
  destruct (is_row f n x) eqn:E.
  - apply elem_of_cons in Hin as [->|Hin]; [done|]. exfalso. apply Hx.
    apply is_row_spec in E, Hr. rewrite E, <- Hr. by apply list_elem_of_fmap_2.
  - apply elem_of_cons in Hin as [->|Hin]; [congruence|]. by apply IH.
Qed.

Lemma find_row_None t f n : List.find (is_row f n) t = None <-> forall r, r ∈ t -> is_row f n r = false.
Proof.
  split; [intros H r Hr%list_elem_of_In; by eapply List.find_none|].
  intros H. destruct (List.find _ t) eqn:E; [|done]. apply List.find_some in E as [E1 E2].
  rewrite H in E2; [done|]. by apply list_elem_of_In.
Qed.

(** A map that keeps the keys commutes with the search. *)
Lemma find_row_map (g : row -> row) t f n :
  (forall r, row_key (g r) = row_key r) -> List.find (is_row f n) (map g t) = g <$> List.find (is_row f n) t.
Proof.
  intros Hg. induction t as [|r t IH]; [done|]. simpl.
  rewrite (is_row_key f n (g r) r (Hg r)). destruct (is_row f n r); [done|apply IH].
Qed.

Lemma find_row_filter (p : row -> bool) t f n :
  NoDup (map row_key t) ->
  List.find (is_row f n) (List.filter p t) = (r ← List.find (is_row f n) t; if p r then Some r else None).
Proof.
  intros Hnd. induction t as [|r t IH]; [done|]. simpl in *. apply NoDup_cons in Hnd as [Hx Hnd].
  destruct (is_row f n r) eqn:E; simpl.
  - destruct (p r); simpl; [by rewrite E|]. apply find_row_None. intros r' [Hr' _]%list_elem_of_In%filter_In.
    destruct (is_row f n r') eqn:E'; [|done]. exfalso. apply Hx. apply is_row_spec in E, E'. rewrite E, <- E'.
    apply list_elem_of_fmap_2. by apply list_elem_of_In.
  - destruct (p r); simpl; [rewrite E|]; by apply IH.
Qed.

Lemma wf_map (g : row -> row) t :
  (forall r, row_key (g r) = row_key r) -> (forall r, rw_id (g r) = rw_id r) -> perm_wf t -> perm_wf (map g t).
Proof.
  intros Hk Hi [H1 H2]. unfold perm_wf. rewrite !map_map.
  rewrite (map_ext (fun x => row_key (g x)) row_key), (map_ext (fun x => rw_id (g x)) rw_id) by done. done.
Qed.

Lemma NoDup_map_filter {A B} (h : A -> B) (p : A -> bool) l : NoDup (map h l) -> NoDup (map h (List.filter p l)).
Proof.
  induction l as [|x l IH]; simpl; [done|]. intros [H1 H2]%NoDup_cons.
  destruct (p x); simpl; [|by apply IH]. apply NoDup_cons. split; [|by apply IH].
  rewrite list_elem_of_In, in_map_iff. intros (y & E & [Hy _]%filter_In). apply H1.
  rewrite list_elem_of_In, in_map_iff. eauto.
Qed.
Lemma wf_filter p t : perm_wf t -> perm_wf (List.filter p t).
Proof. intros [H1 H2]. split; by apply NoDup_map_filter. Qed.

Lemma acl_of_map (g : row -> row) t f n :
  (forall r, row_key (g r) = row_key r) ->
  acl_of (map g t) f n = (fun r => grant (g r)) <$> List.find (is_row f n) t.
Proof. intros Hg. unfold acl_of. rewrite find_row_map by done. by destruct (List.find _ t). Qed.

Section refinement.
Context (folder_exists : Z -> bool) (new_id : permissions -> Z).
Hypothesis new_id_fresh : forall t r, r ∈ t -> rw_id r < new_id t.

Lemma put_grant_row t f0 u rights f n :
  perm_wf t -> existsb (is_row f0 u) t = true ->
  acl_of (map (fun r => if is_row f0 u r then set_permission rights r else r) t) f n
  = put_grant f0 u (new_id t) rights (acl_of t) f n.
Proof.
  intros [Hk _] Hex. rewrite acl_of_map by (intros r; by destruct (is_row f0 u r)). unfold put_grant, acl_of.
  destruct ((f =? f0) && same_name n u) eqn:E.
  - apply andb_true_iff in E as [->%Z.eqb_eq En%same_name_spec].
    assert (Eq : forall r, is_row f0 n r = is_row f0 u r).
    { intros r. apply eq_true_iff_eq. rewrite !is_row_spec. by rewrite En. }
    replace (List.find (is_row f0 n) t) with (List.find (is_row f0 u) t).
    2: { clear -Eq. induction t as [|r t IH]; [done|]. simpl. rewrite Eq, IH. done. }
    apply existsb_exists in Hex as (r & Hr%list_elem_of_In & Hr2).
    rewrite (proj2 (find_row_Some t f0 u r Hk)) by done. simpl. by rewrite Hr2.
  - destruct (List.find (is_row f n) t) as [r|] eqn:Hf; [|done]. simpl.
    apply find_row_Some in Hf as [Hin Hr]; [|done]. destruct (is_row f0 u r) eqn:E2; [|done].
    apply is_row_spec in Hr, E2. rewrite Hr in E2. injection E2 as -> E2.
    rewrite Z.eqb_refl, (proj2 (same_name_spec n u)) in E by done. done.
Qed.

Lemma put_grant_new t f0 u rights f n :
  existsb (is_row f0 u) t = false ->
  acl_of (t ++ [mkRow (new_id t) f0 u rights]) f n = put_grant f0 u (new_id t) rights (acl_of t) f n.
Proof.
  intros Hex. unfold acl_of, put_grant.
  assert (F : forall a b : permissions, List.find (is_row f n) (a ++ b)
     = match List.find (is_row f n) a with Some r => Some r | None => List.find (is_row f n) b end).
  { intros a b. induction a as [|r a IH]; [done|]. simpl. by destruct (is_row f n r). }
  rewrite F. simpl.
  assert (N : List.find (is_row f0 u) t = None).
  { apply find_row_None. intros r Hr. rewrite <- not_true_iff_false. intros E.
    rewrite <- not_true_iff_false, existsb_exists in Hex. apply Hex. exists r. by rewrite <- list_elem_of_In. }
  rewrite N. simpl. unfold is_row at 2. simpl. rewrite (Z.eqb_sym f0 f).
  destruct (Z.eqb_spec f f0) as [->|Hf]; simpl.
  2: by destruct (List.find (is_row f n) t).
  destruct (same_name u n) eqn:En.
  - apply same_name_spec in En. rewrite (proj2 (same_name_spec n u)) by done.
    replace (List.find (is_row f0 n) t) with (@None row); [done|].
    symmetry. apply find_row_None. intros r Hr. rewrite <- (proj1 (find_row_None t f0 u) N r Hr).
    apply eq_true_iff_eq. rewrite !is_row_spec. by rewrite En.
  - replace (same_name n u) with false; [by destruct (List.find (is_row f0 n) t)|].
    symmetry. rewrite <- not_true_iff_false, same_name_spec in *. congruence.
Qed.

Lemma upsert_refines t f0 u rights t' :
  perm_wf t -> upsertPermission folder_exists new_id t f0 u rights = Some t' ->
  perm_wf t' /\ forall f n, acl_of t' f n = put_grant f0 u (new_id t) rights (acl_of t) f n.
Proof.
  intros Hwf. unfold upsertPermission. destruct (existsb _ _) eqn:E.
  - intros [= <-]. split; [apply wf_map; [intros r; by case_match|intros r; by case_match|done]|].
    intros. by apply put_grant_row.
  - destruct (folder_exists f0); [|done]. intros [= <-]. split; [|intros; by apply put_grant_new].
    destruct Hwf as [H1 H2]. split; rewrite map_app; apply NoDup_app; (split; [done|]); simpl;
      (split; [|apply NoDup_singleton]); intros x Hx ->%list_elem_of_singleton;
      apply list_elem_of_In, in_map_iff in Hx as (r & E' & Hr%list_elem_of_In).
    + rewrite <- not_true_iff_false, existsb_exists in E. apply E. exists r. rewrite <- list_elem_of_In.
      split; [done|]. by apply is_row_spec.
    + apply new_id_fresh in Hr. simpl in E'. lia.
Qed.

Lemma change_refines t f0 c t' :
  perm_wf t -> apply_change folder_exists new_id f0 t c = Some t' ->
  perm_wf t' /\ forall f n, acl_of t' f n = spec_change f0 (new_id t) c (acl_of t) f n.
Proof.
  intros Hwf. unfold apply_change, spec_change. destruct (pc_Op c); [by apply upsert_refines| | |done].
  - destruct (specialUsername (pc_MemberID c)) as [u|]; [by apply upsert_refines|]. intros [= <-].
    split; [apply wf_map; [intros r; by case_match|intros r; by case_match|done]|]. intros f n.
    rewrite acl_of_map by (intros r; by destruct (_ && _)). unfold acl_of.
    destruct (List.find (is_row f n) t) as [r|] eqn:Hf; [|done]. simpl. f_equal.
    apply find_row_Some in Hf as [_ Hr]; [|apply Hwf]. unfold is_row in Hr. apply andb_true_iff in Hr as [->%Z.eqb_eq _].
    by destruct (_ && _).
  - intros [= <-]. split; [by apply wf_filter|]. unfold acl_of at 1. intros f n.
    rewrite find_row_filter by apply Hwf. unfold acl_of.
    destruct (specialUsername (pc_MemberID c)) as [u|] eqn:Eu; unfold memberLocator; rewrite Eu.
    + destruct (List.find (is_row f n) t) as [r|] eqn:Hf; simpl; [|by destruct (_ && _)].
      apply find_row_Some in Hf as [_ Hr]; [|apply Hwf]. unfold is_row in Hr.
      apply andb_true_iff in Hr as [->%Z.eqb_eq Hn%same_name_spec].
      replace (same_name (rw_username r) u) with (same_name n u); [by destruct (_ && _)|].
      apply eq_true_iff_eq. rewrite !same_name_spec. by rewrite Hn.
    + destruct (List.find (is_row f n) t) as [r|] eqn:Hf; simpl; [|done].
      apply find_row_Some in Hf as [_ Hr]; [|apply Hwf]. unfold is_row in Hr.
      apply andb_true_iff in Hr as [->%Z.eqb_eq _]. by destruct (_ && _).
Qed.

Lemma changes_refine t f0 cs t' :
  perm_wf t -> apply_changes folder_exists new_id f0 t cs = Some t' ->
  perm_wf t' /\ acl_steps f0 cs (acl_of t) (acl_of t').
Proof.
  revert t. induction cs as [|c cs IH]; intros t Hwf; simpl.
  - intros [= <-]. split; [done|]. by constructor.
  - destruct (apply_change _ _ f0 t c) as [t1|] eqn:E; [|done]. simpl. intros H.
    destruct (change_refines _ _ _ _ Hwf E) as [Hwf1 Ha]. destruct (IH _ Hwf1 H) as [Hwf' Hs].
    split; [done|]. eapply (acl_step _ _ _ _ (acl_of t1) _ (new_id t)); [|done|done].
    intros f n g Hg. unfold acl_of in Hg. destruct (List.find _ t) as [r|] eqn:Hf; [|done]. injection Hg as <-.
    apply List.find_some in Hf as [Hin%list_elem_of_In _]. apply new_id_fresh in Hin. simpl. lia.
Qed.
End refinement.

Lemma apply_changes_succeed folder_exists new_id f0 t cs :
  folder_exists f0 = true -> Forall (fun c => pc_Op c <> PermUnknown) cs ->
  is_Some (apply_changes folder_exists new_id f0 t cs).
Proof.
  intros Hf. revert t. induction cs as [|c cs IH]; intros t; simpl; [eauto|].
  intros [Hc Hcs]%List.Forall_cons_iff.
  assert (U : forall u r, is_Some (upsertPermission folder_exists new_id t f0 u r)).
  { intros u r. unfold upsertPermission. rewrite Hf. destruct (existsb _ _); eauto. }
  assert (is_Some (apply_change folder_exists new_id f0 t c)) as [t1 ->].
  { unfold apply_change. destruct (pc_Op c); [apply U| |eauto|done].
    destruct (specialUsername _); [apply U|eauto]. }
  simpl. by apply IH.
Qed.

Lemma acl_steps_from f0 cs a b a' : (forall f n, a f n = b f n) -> acl_steps f0 cs a a' -> acl_steps f0 cs b a'.
Proof.
  intros E H. revert b E. induction H as [a a' H|c cs a a1 a' fresh H1 H2 H IH]; intros b E.
  - constructor. intros. by rewrite H.
  - econstructor; [| |exact H].
    + intros f n g Hg. rewrite <- E in Hg. eauto.
    + intros f n. rewrite H2. unfold spec_change, put_grant.
      repeat case_match; rewrite ?E in *; try done; try congruence.
Qed.

(** C22. The permission table refines a map from folders and names to grants: a batch of
    RopModifyPermissions, on any table with one row for a folder and a name, leaves such a
    table; it either fails and changes nothing, or its rows are the result of applying the
    changes one after the other to the map, names compared without case and a new member under
    an unused id; and it succeeds on an existing folder when every operation is a known one. *)
Theorem permissions_refine_acl folder_exists new_id t f0 replace cs :
  (forall t r, r ∈ t -> rw_id r < new_id t) -> perm_wf t ->
  let '(t', success) := ModifyPermissions folder_exists new_id t f0 replace cs in
  perm_wf t'
  /\ (if success then acl_steps f0 cs (if replace then clear_folder f0 (acl_of t) else acl_of t) (acl_of t') else t' = t)
  /\ (folder_exists f0 = true -> Forall (fun c => pc_Op c <> PermUnknown) cs -> success = true).
Proof.
  intros Hfresh Hwf. unfold ModifyPermissions.
  set (t0 := if replace then List.filter (fun r => negb (rw_folder r =? f0)) t else t).
  assert (Hwf0 : perm_wf t0) by (unfold t0; destruct replace; [by apply wf_filter|done]).
  assert (Ha : forall f n, acl_of t0 f n = (if replace then clear_folder f0 (acl_of t) else acl_of t) f n).
  { intros f n. unfold t0. destruct replace; [|done]. unfold acl_of, clear_folder. rewrite find_row_filter by apply Hwf.
    destruct (List.find (is_row f n) t) as [r|] eqn:E; simpl; [|by destruct (f =? f0)].
    apply List.find_some in E as [_ E]. unfold is_row in E. apply andb_true_iff in E as [->%Z.eqb_eq _].
    by destruct (f =? f0). }
  destruct (apply_changes _ _ _ _ _) as [t'|] eqn:E.
  - destruct (changes_refine _ _ Hfresh _ _ _ _ Hwf0 E) as [Hw Hs]. split_and!; [done| |done].
    by eapply acl_steps_from.
  - split_and!; [done..|]. intros Hf Hc. destruct (apply_changes_succeed folder_exists new_id f0 t0 cs Hf Hc). congruence.
Qed.

Definition next_row_id (t : permissions) : Z := 1 + foldr (fun r m => Z.max (rw_id r) m) 0 t.
Lemma next_row_id_fresh t r : r ∈ t -> rw_id r < next_row_id t.
Proof. unfold next_row_id. induction 1; simpl; lia. Qed.

Lemma permissions_refine_acl_witness :
  let t := [mkRow 1 13 (lit "default") 0; mkRow 2 13 (lit "Ann@x") 1] in
  let '(t', success) := ModifyPermissions (fun _ => true) next_row_id t 13 false
    [mkChange PermAdd 0 (lit "bob@x") 1; mkChange PermRemove 2 [] 0] in
  perm_wf t'
  /\ (if success then acl_steps 13 [mkChange PermAdd 0 (lit "bob@x") 1; mkChange PermRemove 2 [] 0] (acl_of t) (acl_of t') else t' = t)
  /\ ((fun _ => true) 13 = true -> Forall (fun c => pc_Op c <> PermUnknown)
        [mkChange PermAdd 0 (lit "bob@x") 1; mkChange PermRemove 2 [] 0] -> success = true).
Proof.
  apply (permissions_refine_acl (fun _ => true) next_row_id _ 13 false); [apply next_row_id_fresh|].
  split; apply (bool_decide_unpack _); vm_compute; exact I.
Defined.

(** ** Access *)

Definition has_own_row (t : permissions) (f : Z) (u : bytes) : bool := existsb (is_row f u) t.

Lemma lookupPermission_acl t f u : lookupPermission t f u = (fun g => u32 g.2) <$> acl_of t f u.
Proof. unfold lookupPermission, acl_of. by destruct (List.find _ t). Qed.

Lemma has_own_row_acl t f u : has_own_row t f u = match acl_of t f u with Some _ => true | None => false end.
Proof.
  unfold has_own_row, acl_of. apply eq_true_iff_eq. rewrite existsb_exists. destruct (List.find _ t) as [r|] eqn:E; simpl.
  - split; [done|]. intros _. apply List.find_some in E as [? ?]. eauto.
  - split; [|done]. intros (r & Hr%list_elem_of_In & H). apply find_row_None with (r := r) in E; [congruence|done].
Qed.

(** A grant is isolated: giving a user rights on a folder changes what that user resolves
    there, to exactly the granted rights, and nothing else; only a grant to the default member
    also changes what the users without a row of their own resolve on that folder.  Store owners
    resolve full rights before and after. *)
Theorem grant_isolated folder_exists new_id owners t f0 u rights t' f v :
  (forall t r, r ∈ t -> rw_id r < new_id t) -> perm_wf t -> u <> [] ->
  ModifyPermissions folder_exists new_id t f0 false [mkChange PermAdd 0 u rights] = (t', true) ->
  ResolvePermission owners t' f v =
    if IsStoreOwner owners v then RightsMaxROP
    else if (f =? f0) && (same_name v u || (same_name u (lit "default") && negb (has_own_row t f v))) then u32 rights
    else ResolvePermission owners t f v.
Proof.
  intros Hfresh Hwf Hu. unfold ModifyPermissions. cbn [apply_changes].
  destruct (apply_change _ _ f0 t _) as [t1|] eqn:E; [|done]. intros [= <-].
  destruct (change_refines _ _ Hfresh _ _ _ _ Hwf E) as [_ Ha]. clear E.
  unfold ResolvePermission. destruct (IsStoreOwner owners v); [done|].
  rewrite !lookupPermission_acl, has_own_row_acl, !Ha. unfold spec_change, put_grant, addUsername.
  cbn [pc_Op pc_MemberID pc_Username pc_Rights]. destruct u as [|x u]; [done|]. set (w := x :: u).
  destruct (Z.eqb_spec f f0) as [->|Hf]; cbn [andb]; [|done].
  destruct (same_name v w) eqn:Ev; cbn [orb]; [done|].
  replace (same_name (lit "default") w) with (same_name w (lit "default")).
  2: { apply eq_true_iff_eq. rewrite !same_name_spec. split; congruence. }
  destruct (acl_of t f0 v) as [g|]; cbn [negb]; [by rewrite andb_false_r|]. rewrite andb_true_r.
  by destruct (same_name w (lit "default")).
Qed.

Lemma grant_isolated_witness :
  ResolvePermission [] [mkRow 1 13 (lit "default") 0x800; mkRow 2 13 (lit "bob@x") 0x401] 13 (lit "BOB@X") = 0x401.
Proof.
  apply (grant_isolated (fun _ => true) next_row_id [] [mkRow 1 13 (lit "default") 0x800] 13 (lit "bob@x") 0x401);
    [apply next_row_id_fresh| |done|reflexivity].
  split; apply (bool_decide_unpack _); vm_compute; exact I.
Defined.
