(* ===== verification/Imapses.v ===== *)
(** * IMAP: the session ([internal/imap])

    [server.go], [session.go], [store_cmd.go], [condstore.go], [publicfolder.go] and [quota.go]:
    the connection as a state, every command as a state transformer over the connection and
    the stores.  A reply is a value of [resp]; [render] is its wire form.  The stores and the
    directory are interfaces; activity logging and failing links are left out. *)

From stdpp Require Import base list numbers gmap.
From Stdlib Require Import ZArith Lia.
From Stdlib Require String.
Import String.StringSyntax.
From S2P Require Import Prelude Mapi Gostr Netline Limitbase Authlimit Imaplex Imapsearch Imapfetch Permission.
Open Scope Z_scope.

(** ** What the server asks of the store *)

Record Quota := mkQuota { q_StorageKB : Z; q_ReceiveKB : Z }.
(** The operations of [objectstore.Store] on the store of a path; [None] and [false] are errors. *)
Class ImapStore (W : Type) := {
  store_Open : W -> bytes -> bool;
  ListMessages : W -> bytes -> Z -> option (list MessageInfo);
  UIDValidity : W -> bytes -> Z -> option Z;
  UIDNext : W -> bytes -> Z -> option Z;
  GetMessageRaw : W -> bytes -> Z -> Z -> option bytes;
  SoftDeleteMessage : W -> bytes -> Z -> Z -> W * bool;
  SetMessageFlags : W -> bytes -> Z -> Z -> Z -> W * bool;
  (** raw bytes, calendar day and time of the internal date, flags *)
  AppendMessage : W -> bytes -> Z -> bytes -> date * Z -> Z -> W * option MessageInfo;
  MessageModSeqs : W -> bytes -> Z -> Z -> Z;
  FolderHighestModSeq : W -> bytes -> Z -> Z;
  VanishedSince : W -> bytes -> Z -> Z -> list Z;
  ListFolders : W -> bytes -> option (list FolderInfo);
  CreateFolder : W -> bytes -> option Z -> bytes -> W * option Z;
  DeleteFolder : W -> bytes -> Z -> W * bool;
  RenameFolder : W -> bytes -> Z -> option Z -> bytes -> W * bool;
  SetSubscribed : W -> bytes -> Z -> bool -> W * bool;
  GetQuota : W -> bytes -> Quota;
  MailboxSize : W -> bytes -> Z;
  ResolvePermission : W -> bytes -> Z -> bytes -> option Z;
  ListPermissions : W -> bytes -> Z -> list PermissionEntry;
  IsStoreOwner : W -> bytes -> bytes -> bool;
  ModifyPermissions : W -> bytes -> Z -> bool -> list PermissionChange -> W * bool }.

(** ** Replies *)

Inductive resp :=
| RExpunge (n : Z) | RExists (n : Z) | RRecent | RVanished (uids : list Z)
| RFetch (n : Z) (fields : list bytes)
| RUntagged (text : bytes) | RTagged (tag status text : bytes) | RCont (text : bytes).

Definition render (r : resp) : bytes :=
  match r with
  | RExpunge n => lit "* " ++ dec n ++ lit " EXPUNGE"
  | RExists n => lit "* " ++ dec n ++ lit " EXISTS"
  | RRecent => lit "* 0 RECENT"
  | RVanished uids => lit "* VANISHED " ++ esearchSet uids
  | RFetch n fields => lit "* " ++ dec n ++ lit " FETCH (" ++ Join fields (lit " ") ++ lit ")"
  | RUntagged text => lit "* " ++ text
  | RTagged tag status text => tag ++ lit " " ++ status ++ lit " " ++ text
  | RCont text => lit "+ " ++ text
  end ++ crlf.

(** ** The connection *)

Inductive connState := stateNotAuth | stateAuth | stateSelected | stateLogout.
#[export] Instance connState_eq_dec : EqDecision connState.
Proof. solve_decision. Defined.

Record selectedMailbox := mkSel {
  sl_id : Z; sl_path : bytes; sl_uidValidity : Z; sl_uidNext : Z; sl_msgs : list MessageInfo }.
Definition set_msgs (s : selectedMailbox) (msgs : list MessageInfo) : selectedMailbox :=
  mkSel (sl_id s) (sl_path s) (sl_uidValidity s) (sl_uidNext s) msgs.

(** The sequence number of the first message without [\Seen], or 0 *)
Fixpoint firstUnseen_from (i : Z) (msgs : list MessageInfo) : Z :=
  match msgs with
  | [] => 0
  | m :: msgs => if Z.land (mi_Flags m) FlagSeen =? 0 then u32 (i + 1) else firstUnseen_from (i + 1) msgs
  end.
Definition firstUnseen (s : selectedMailbox) : Z := firstUnseen_from 0 (sl_msgs s).

(** What becomes of a STARTTLS request: bytes were already buffered behind it, the handshake
    fails, or the connection continues with the bytes the client sends inside TLS. *)
Inductive upgrade := Pipelined | HandshakeFails | Handshake (inner : bytes).

(** [c_qr] is a pending SELECT (QRESYNC ...); [c_capped] is whether the reader carries the
    operator's line cap; [c_upgrade] and [c_inflate] are what the client sends once the stream
    is encrypted or compressed. *)
Record conn := mkConn {
  c_state : connState; c_user : bytes; c_st : option bytes; c_pubStore : option bytes; c_sel : option selectedMailbox; c_selPublic : bool; c_readOnly : bool; c_isTLS : bool; c_compressed : bool; c_condstore : bool; c_qresync : bool; c_qr : option (Z * Z); c_rd : rd; c_capped : bool; c_upgrade : upgrade; c_inflate : bytes; c_out : list resp }.

Definition set_state (s : connState) (c : conn) : conn :=
  mkConn (s) (c_user c) (c_st c) (c_pubStore c) (c_sel c) (c_selPublic c) (c_readOnly c) (c_isTLS c) (c_compressed c) (c_condstore c) (c_qresync c) (c_qr c) (c_rd c) (c_capped c) (c_upgrade c) (c_inflate c) (c_out c).
Definition set_login (user path : bytes) (c : conn) : conn :=
  mkConn (stateAuth) (user) (Some path) (c_pubStore c) (c_sel c) (c_selPublic c) (c_readOnly c) (c_isTLS c) (c_compressed c) (c_condstore c) (c_qresync c) (c_qr c) (c_rd c) (c_capped c) (c_upgrade c) (c_inflate c) (c_out c).
Definition set_pubStore (p : bytes) (c : conn) : conn :=
  mkConn (c_state c) (c_user c) (c_st c) (Some p) (c_sel c) (c_selPublic c) (c_readOnly c) (c_isTLS c) (c_compressed c) (c_condstore c) (c_qresync c) (c_qr c) (c_rd c) (c_capped c) (c_upgrade c) (c_inflate c) (c_out c).
Definition set_sel (s : option selectedMailbox) (c : conn) : conn :=
  mkConn (c_state c) (c_user c) (c_st c) (c_pubStore c) (s) (c_selPublic c) (c_readOnly c) (c_isTLS c) (c_compressed c) (c_condstore c) (c_qresync c) (c_qr c) (c_rd c) (c_capped c) (c_upgrade c) (c_inflate c) (c_out c).
Definition set_selPublic (b : bool) (c : conn) : conn :=
  mkConn (c_state c) (c_user c) (c_st c) (c_pubStore c) (c_sel c) (b) (c_readOnly c) (c_isTLS c) (c_compressed c) (c_condstore c) (c_qresync c) (c_qr c) (c_rd c) (c_capped c) (c_upgrade c) (c_inflate c) (c_out c).
Definition set_readOnly (b : bool) (c : conn) : conn :=
  mkConn (c_state c) (c_user c) (c_st c) (c_pubStore c) (c_sel c) (c_selPublic c) (b) (c_isTLS c) (c_compressed c) (c_condstore c) (c_qresync c) (c_qr c) (c_rd c) (c_capped c) (c_upgrade c) (c_inflate c) (c_out c).
Definition set_condstore (c : conn) : conn :=
  mkConn (c_state c) (c_user c) (c_st c) (c_pubStore c) (c_sel c) (c_selPublic c) (c_readOnly c) (c_isTLS c) (c_compressed c) (true) (c_qresync c) (c_qr c) (c_rd c) (c_capped c) (c_upgrade c) (c_inflate c) (c_out c).
Definition set_qresync (c : conn) : conn :=
  mkConn (c_state c) (c_user c) (c_st c) (c_pubStore c) (c_sel c) (c_selPublic c) (c_readOnly c) (c_isTLS c) (c_compressed c) (c_condstore c) (true) (c_qr c) (c_rd c) (c_capped c) (c_upgrade c) (c_inflate c) (c_out c).
Definition set_qr (q : option (Z * Z)) (c : conn) : conn :=
  mkConn (c_state c) (c_user c) (c_st c) (c_pubStore c) (c_sel c) (c_selPublic c) (c_readOnly c) (c_isTLS c) (c_compressed c) (c_condstore c) (c_qresync c) (q) (c_rd c) (c_capped c) (c_upgrade c) (c_inflate c) (c_out c).
Definition set_rd (r : rd) (c : conn) : conn :=
  mkConn (c_state c) (c_user c) (c_st c) (c_pubStore c) (c_sel c) (c_selPublic c) (c_readOnly c) (c_isTLS c) (c_compressed c) (c_condstore c) (c_qresync c) (c_qr c) (r) (c_capped c) (c_upgrade c) (c_inflate c) (c_out c).
(** A fresh reader over the TLS stream, and over the inflated one *)
Definition set_tls (inner : bytes) (c : conn) : conn :=
  mkConn (c_state c) (c_user c) (c_st c) (c_pubStore c) (c_sel c) (c_selPublic c) (c_readOnly c) (true) (c_compressed c) (c_condstore c) (c_qresync c) (c_qr c) (mkRd inner 0 0) (false) (Pipelined) (c_inflate c) (c_out c).
Definition set_compressed (c : conn) : conn :=
  mkConn (c_state c) (c_user c) (c_st c) (c_pubStore c) (c_sel c) (c_selPublic c) (c_readOnly c) (c_isTLS c) (true) (c_condstore c) (c_qresync c) (c_qr c) (mkRd (c_inflate c) 0 0) (false) (c_upgrade c) (c_inflate c) (c_out c).
Definition emit (r : resp) (c : conn) : conn :=
  mkConn (c_state c) (c_user c) (c_st c) (c_pubStore c) (c_sel c) (c_selPublic c) (c_readOnly c) (c_isTLS c) (c_compressed c) (c_condstore c) (c_qresync c) (c_qr c) (c_rd c) (c_capped c) (c_upgrade c) (c_inflate c) (c_out c ++ [r]).

Definition new_conn (input : bytes) (isTLS : bool) (up : upgrade) (inflate : bytes) : conn :=
  mkConn stateNotAuth [] None None None false false isTLS false false false None (mkRd input 0 0) true up inflate [].

(** What the connection shares with the rest of the process *)
Record world (W : Type) := mkWorld { wd_store : W; wd_limiter : option Limiter; wd_maxLiteral : Z; wd_maxCommandLine : Z }.
Arguments mkWorld {W}.
Arguments wd_store {W}.
Arguments wd_limiter {W}.
Arguments wd_maxLiteral {W}.
Arguments wd_maxCommandLine {W}.
Definition SetMaxLiteralSize {W} (w : world W) (n : Z) : world W :=
  mkWorld (wd_store w) (wd_limiter w) (if n <? 0 then 0 else n) (wd_maxCommandLine w).
Definition SetMaxCommandLine {W} (w : world W) (n : Z) : world W :=
  mkWorld (wd_store w) (wd_limiter w) (wd_maxLiteral w) (if n <? 0 then 0 else n).

(** A command ends with the connection and the world, or dereferences a nil pointer. *)
Definition act (W A : Type) : Type := conn * world W -> option (A * (conn * world W)).
Definition ok_ {W A} (a : A) : act W A := fun s => Some (a, s).
Definition then_ {W A B} (m : act W A) (k : A -> act W B) : act W B :=
  fun s => match m s with Some (a, s) => k a s | None => None end.
Declare Scope session_scope.
Delimit Scope session_scope with session.
Notation "x <-- m ;; k" := (then_ m (fun x => k)) (at level 100, m at next level, right associativity) : session_scope.
Notation "m ;;; k" := (then_ m (fun _ => k)) (at level 100, right associativity) : session_scope.
Notation "' p <-- m ;; k" := (then_ m (fun x => match x with p => k end))
  (at level 100, p pattern, m at next level, right associativity) : session_scope.
Open Scope session_scope.

Section ops.
Context {W : Type}.
Definition the_conn : act W conn := fun s => Some (s.1, s).
Definition update (f : conn -> conn) : act W unit := fun s => Some (tt, (f s.1, s.2)).
(** A read of the store, a write to it, and a change of the login throttle *)
Definition ask {A} (f : W -> A) : act W A := fun s => Some (f (wd_store s.2), s).
Definition write {A} (f : W -> W * A) : act W A := fun s =>
  let '(w, a) := f (wd_store s.2) in
  Some (a, (s.1, mkWorld w (wd_limiter s.2) (wd_maxLiteral s.2) (wd_maxCommandLine s.2))).
Definition throttle {A} (f : option Limiter -> option Limiter * A) : act W A := fun s =>
  let '(l, a) := f (wd_limiter s.2) in
  Some (a, (s.1, mkWorld (wd_store s.2) l (wd_maxLiteral s.2) (wd_maxCommandLine s.2))).
(** A pointer field: its value, or a panic *)
Definition deref {A} (f : conn -> option A) : act W A := fun s => match f s.1 with Some a => Some (a, s) | None => None end.

Definition untagged (text : bytes) : act W unit := update (emit (RUntagged text)).
Definition put (r : resp) : act W unit := update (emit r).
Definition respond_ok (tag text : bytes) : act W unit := put (RTagged tag (lit "OK") text).
Definition respond_no (tag text : bytes) : act W unit := put (RTagged tag (lit "NO") text).
Definition respond_bad (tag text : bytes) : act W unit := put (RTagged tag (lit "BAD") text).

(** Run an action over a list *)
Fixpoint each {A} (f : A -> act W unit) (l : list A) : act W unit :=
  match l with [] => ok_ tt | a :: l => f a ;;; each f l end.
End ops.

(** ** Arguments *)

Definition argN (args : list token) (n : nat) : option bytes := t ← args !! n; tok_str t.
Definition arg0 (args : list token) : option bytes := argN args 0.
(** [s, _ := args[n].str()] *)
Definition arg_text (args : list token) (n : nat) : bytes := default [] (argN args n).

Fixpoint paren_rest (args : list token) : list bytes :=
  match args with
  | [] => []
  | t :: args => if kind_is t tRParen then []
                 else match tok_str t with Some s => s :: paren_rest args | None => paren_rest args end
  end.
Definition parenAtoms (args : list token) : list bytes :=
  match args with t :: args => if kind_is t tLParen then paren_rest args else [] | [] => [] end.

Definition capabilities : bytes :=
  lit "IMAP4rev1 LITERAL+ NAMESPACE AUTH=PLAIN AUTH=LOGIN IDLE CHILDREN ID UNSELECT UIDPLUS MOVE SPECIAL-USE QUOTA ESEARCH MULTIAPPEND SORT THREAD=ORDEREDSUBJECT THREAD=REFERENCES BINARY ENABLE CONDSTORE QRESYNC ACL".

Definition caps (tlsConfig : bool) (c : conn) : bytes :=
  capabilities ++ (if tlsConfig && negb (c_isTLS c) then lit " STARTTLS" else [])
               ++ (if c_compressed c then [] else lit " COMPRESS=DEFLATE").

(** ** The parsers of STORE, APPEND and the CONDSTORE modifiers *)

Record storeRequest := mkStoreRequest {
  sr_mode : Z; sr_silent : bool; sr_names : list bytes; sr_condUsed : bool; sr_unchangedSince : Z }.

Definition parseStoreItem (item : bytes) : option (Z * bool) :=
  let item := ToUpper item in
  let '(mode, item) := if HasPrefix item (lit "+") then (43, drop 1 item)
                       else if HasPrefix item (lit "-") then (45, drop 1 item) else (32, item) in
  let '(silent, item) := if HasSuffix item (lit ".SILENT") then (true, TrimSuffix item (lit ".SILENT")) else (false, item) in
  if beq item (lit "FLAGS") then Some (mode, silent) else None.

Definition flagValue (args : list token) : list bytes :=
  match args with
  | t :: _ => if kind_is t tLParen then parenAtoms args else omap tok_str args
  | [] => []
  end.

(** The tokens after the modifier, its value, and whether it was there *)
Definition parseUnchangedSince (args : list token) : option (list token * Z * bool) :=
  match args with
  | o :: u :: n :: close :: rest =>
      if kind_is o tLParen && (kind_is u tAtom && EqualFold (tk_val u) (lit "UNCHANGEDSINCE")) then
        match ParseUint (tk_val n) 64 with
        | Some v => if kind_is close tRParen then Some (rest, v, true) else None
        | None => None
        end
      else Some (args, 0, false)
  | _ => Some (args, 0, false)
  end.

Definition selectEnablesCondstore (args : list token) : bool :=
  existsb (fun a => kind_is a tAtom && (EqualFold (tk_val a) (lit "CONDSTORE") || EqualFold (tk_val a) (lit "QRESYNC"))) args.

Fixpoint parseQResync (args : list token) : option (Z * Z) :=
  match args with
  | [] => None
  | t :: args' =>
      let here :=
        if kind_is t tAtom && EqualFold (tk_val t) (lit "QRESYNC") then
          match args' with
          | o :: uv :: ms :: _ =>
              if kind_is o tLParen then
                match ParseUint (tk_val uv) 32, ParseUint (tk_val ms) 64 with Some u, Some m => Some (u, m) | _, _ => None end
              else None
          | _ => None
          end
        else None in
      match here with Some r => Some r | None => parseQResync args' end
  end.

(** The tokens after the parenthesis that closes the first one *)
Fixpoint after_group (depth : Z) (args : list token) : list token :=
  match args with
  | [] => []
  | t :: args =>
      if kind_is t tLParen then after_group (depth + 1) args
      else if kind_is t tRParen then (if depth - 1 =? 0 then args else after_group (depth - 1) args)
      else after_group depth args
  end.
Definition appendFlags (args : list token) : Z * list token :=
  match args with
  | t :: _ => if kind_is t tLParen then (applyFlagNames 0 32 (parenAtoms args), after_group 0 args) else (0, args)
  | [] => (0, args)
  end.

Definition mailboxSafe (s : bytes) : bool := negb (existsb (fun b => (b <? 0x20) || (b =? 0x7f)) s).

(** ** The public namespace *)

Definition publicNamespaceRoot : bytes := lit "Public Folders".
Definition publicNamespacePrefix : bytes := lit "Public Folders/".
Definition isPublicName (name : bytes) : option bytes :=
  if beq name publicNamespaceRoot then Some []
  else if HasPrefix name publicNamespacePrefix then Some (drop (length publicNamespacePrefix) name) else None.

(** The store of the selected folder *)
Definition curStore (c : conn) : option bytes := if c_selPublic c then c_pubStore c else c_st c.

Section commands.
Context {W : Type} `{!ImapStore W}.

(** ** The selected mailbox *)

Definition loadMailbox (st : W) (path : bytes) (id : Z) (name : bytes) : option selectedMailbox :=
  msgs ← ListMessages st path id;
  uidv ← UIDValidity st path id;
  uidn ← UIDNext st path id;
  Some (mkSel id name uidv uidn msgs).

Definition modseqMap : act W (Z -> Z) :=
  sel <-- deref c_sel ;; path <-- deref curStore ;; ask (fun st => MessageModSeqs st path (sl_id sel)).

(** The messages a set selects, by number or by UID *)
Definition set_key (byUID : bool) (i : nat) (m : MessageInfo) : Z := if byUID then mi_UID m else u32 (Z.of_nat i + 1).
Definition set_max (byUID : bool) (msgs : list MessageInfo) : Z := if byUID then maxUID msgs else maxSeq msgs.

(** *** STORE *)

(** One message: the store and the message after it *)
Definition storeFlags (st : W) (path : bytes) (id : Z) (req : storeRequest) (m : MessageInfo) : W * MessageInfo :=
  let newFlags := applyFlagNames (mi_Flags m) (sr_mode req) (sr_names req) in
  if newFlags =? mi_Flags m then (st, m)
  else let '(st, success) := SetMessageFlags st path id (mi_UID m) newFlags in
       (st, if success : bool then mkInfo (mi_UID m) (mi_Size m) newFlags (mi_InternalDate m) (mi_time m) else m).

(** The messages from the [i]-th on: the store, the messages, the rejected UIDs and the indices
    to report *)
Fixpoint apply_store (st : W) (path : bytes) (id : Z) (set : list seqRange) (byUID : bool) (max : Z) (req : storeRequest)
    (pre : Z -> Z) (i : nat) (msgs : list MessageInfo) : W * list MessageInfo * list Z * list nat :=
  match msgs with
  | [] => (st, [], [], [])
  | m :: msgs =>
      if negb (contains set (set_key byUID i m) max) then
        let '(st, ms, modified, reported) := apply_store st path id set byUID max req pre (S i) msgs in
        (st, m :: ms, modified, reported)
      else if sr_condUsed req && (sr_unchangedSince req <? pre (mi_UID m)) then
        let '(st, ms, modified, reported) := apply_store st path id set byUID max req pre (S i) msgs in
        (st, m :: ms, mi_UID m :: modified, reported)
      else
        let '(st, m) := storeFlags st path id req m in
        let '(st, ms, modified, reported) := apply_store st path id set byUID max req pre (S i) msgs in
        (st, m :: ms, modified, if negb (sr_silent req) || sr_condUsed req then i :: reported else reported)
  end.

Definition applyStore (set : list seqRange) (byUID : bool) (req : storeRequest) : act W (list Z * list nat) :=
  sel <-- deref c_sel ;; path <-- deref curStore ;;
  pre <-- (if sr_condUsed req then modseqMap else ok_ (fun _ => 0)) ;;
  r <-- write (fun st =>
    let '(st, ms, modified, reported) :=
      apply_store st path (sl_id sel) set byUID (set_max byUID (sl_msgs sel)) req pre 0 (sl_msgs sel) in
    (st, (ms, modified, reported))) ;;
  update (set_sel (Some (set_msgs sel r.1.1))) ;;;
  ok_ (r.1.2, r.2).

Definition parseStoreRequest (args : list token) : act W (storeRequest + bytes) :=
  match parseUnchangedSince args with
  | None => ok_ (inr (lit "invalid STORE modifier"))
  | Some (rest, unchangedSince, condUsed) =>
      (if condUsed : bool then update set_condstore else ok_ tt) ;;;
      ok_ (match rest with
           | item :: (_ :: _) as flags =>
               match parseStoreItem (default [] (tok_str item)) with
               | None => inr (lit "invalid STORE item")
               | Some (mode, silent) => inl (mkStoreRequest mode silent (flagValue (List.tl rest)) condUsed unchangedSince)
               end
           | _ => inr (lit "STORE requires an item and flags")
           end)
  end.

Definition storeFetchFields (m : MessageInfo) (byUID condstore : bool) (modseqs : Z -> Z) : list bytes :=
  [lit "FLAGS (" ++ formatFlags (mi_Flags m) false ++ lit ")"]
  ++ (if byUID then [lit "UID " ++ dec (mi_UID m)] else [])
  ++ (if condstore then [lit "MODSEQ (" ++ dec (modseqs (mi_UID m)) ++ lit ")"] else []).

(** [UID ] before the name of a UID command *)
Definition verb_of (byUID : bool) (v : bytes) : bytes := (if byUID then lit "UID " else []) ++ v.

Definition cmdStore (tag : bytes) (args : list token) (byUID : bool) : act W unit :=
  c <-- the_conn ;;
  if negb (bool_decide (c_state c = stateSelected)) then respond_no tag (lit "no mailbox selected")
  else if c_readOnly c then respond_no tag (lit "mailbox is read-only")
  else if len args <? 2 then respond_bad tag (lit "STORE requires a sequence set and flags")
  else match parseSeqSet (arg_text args 0) with
       | Err _ => respond_bad tag (lit "invalid sequence set")
       | Ok set =>
           r <-- parseStoreRequest (List.tl args) ;;
           match r with
           | inr problem => respond_bad tag problem
           | inl req =>
               res <-- applyStore set byUID req ;;
               c <-- the_conn ;;
               post <-- (if c_condstore c then modseqMap else ok_ (fun _ => 0)) ;;
               sel <-- deref c_sel ;;
               each (fun i => match sl_msgs sel !! i with
                              | Some m => put (RFetch (u32 (Z.of_nat i + 1)) (storeFetchFields m byUID (c_condstore c) post))
                              | None => ok_ tt
                              end) res.2 ;;;
               let verb := verb_of byUID (lit "STORE") in
               respond_ok tag (match res.1 with
                               | [] => verb ++ lit " completed"
                               | modified => lit "[MODIFIED " ++ uidList modified ++ lit "] " ++ verb ++ lit " completed"
                               end)
           end
       end.

(** *** EXPUNGE, CLOSE, UNSELECT *)

(** The messages [p] holds of leave the mailbox: the store, the survivors, the UIDs that went,
    and the number each had in the shrinking mailbox. *)
Fixpoint sweep (st : W) (path : bytes) (id : Z) (p : MessageInfo -> bool) (seq : Z) (msgs : list MessageInfo)
    : W * list MessageInfo * list Z * list Z :=
  match msgs with
  | [] => (st, [], [], [])
  | m :: msgs =>
      if p m then
        let '(st, success) := SoftDeleteMessage st path id (mi_UID m) in
        let '(st, survivors, vanished, numbers) := sweep st path id p seq msgs in
        (st, survivors, if success : bool then mi_UID m :: vanished else vanished,
         if success : bool then seq :: numbers else numbers)
      else
        let '(st, survivors, vanished, numbers) := sweep st path id p (u32 (seq + 1)) msgs in
        (st, m :: survivors, vanished, numbers)
  end.

(** Sweep the selected mailbox; [report] is whether each removal is an EXPUNGE. *)
Definition sweep_selected (p : MessageInfo -> bool) (report : bool) : act W (list Z) :=
  sel <-- deref c_sel ;; path <-- deref curStore ;;
  r <-- write (fun st => let '(st, survivors, vanished, numbers) := sweep st path (sl_id sel) p 1 (sl_msgs sel) in
                         (st, (survivors, vanished, numbers))) ;;
  (if report then each (fun n => put (RExpunge n)) r.2 else ok_ tt) ;;;
  update (set_sel (Some (set_msgs sel r.1.1))) ;;;
  ok_ r.1.2.

Definition is_deleted (m : MessageInfo) : bool := negb (Z.land (mi_Flags m) FlagDeleted =? 0).
Definition report_vanished (vanished : list Z) : act W unit :=
  match vanished with [] => ok_ tt | _ => put (RVanished vanished) end.

Definition doExpunge (emit_ : bool) : act W unit :=
  c <-- the_conn ;;
  vanished <-- sweep_selected is_deleted (emit_ && negb (c_qresync c)) ;;
  if emit_ && c_qresync c then report_vanished vanished else ok_ tt.

Definition cmdExpunge (tag : bytes) : act W unit :=
  c <-- the_conn ;;
  if negb (bool_decide (c_state c = stateSelected)) then respond_no tag (lit "no mailbox selected")
  else if c_readOnly c then respond_no tag (lit "mailbox is read-only")
  else doExpunge true ;;; respond_ok tag (lit "EXPUNGE completed").

Definition expungeDeleted (set : list seqRange) : act W (list Z) :=
  c <-- the_conn ;; sel <-- deref c_sel ;;
  sweep_selected (fun m => is_deleted m && contains set (mi_UID m) (maxUID (sl_msgs sel))) (negb (c_qresync c)).

Definition cmdUIDExpunge (tag : bytes) (args : list token) : act W unit :=
  c <-- the_conn ;;
  if negb (bool_decide (c_state c = stateSelected)) then respond_no tag (lit "no mailbox selected")
  else if c_readOnly c then respond_no tag (lit "mailbox is read-only")
  else if len args <? 1 then respond_bad tag (lit "UID EXPUNGE requires a sequence set")
  else match parseSeqSet (arg_text args 0) with
       | Err _ => respond_bad tag (lit "invalid sequence set")
       | Ok set =>
           vanished <-- expungeDeleted set ;;
           (if c_qresync c then report_vanished vanished else ok_ tt) ;;;
           respond_ok tag (lit "UID EXPUNGE completed")
       end.

Definition deselect : act W unit := update (fun c => set_state stateAuth (set_selPublic false (set_sel None c))).

Definition cmdClose (tag : bytes) : act W unit :=
  c <-- the_conn ;;
  if negb (bool_decide (c_state c = stateSelected)) then respond_no tag (lit "no mailbox selected")
  else (if c_readOnly c then ok_ tt else doExpunge false) ;;; deselect ;;; respond_ok tag (lit "CLOSE completed").

Definition cmdUnselect (tag : bytes) : act W unit :=
  c <-- the_conn ;;
  if negb (bool_decide (c_state c = stateSelected)) then respond_no tag (lit "no mailbox selected")
  else deselect ;;; respond_ok tag (lit "UNSELECT completed").

(** *** Polling *)

(** The view without the messages that are gone, and the number of each removal *)
Fixpoint poll_view (live : Z -> bool) (i : Z) (view : list MessageInfo) : list MessageInfo * list Z :=
  match view with
  | [] => ([], [])
  | m :: view =>
      if live (mi_UID m) then let '(v, e) := poll_view live (i + 1) view in (m :: v, e)
      else let '(v, e) := poll_view live i view in (v, i + 1 :: e)
  end.

Definition poll : act W unit :=
  c <-- the_conn ;;
  match bool_decide (c_state c = stateSelected), c_sel c with
  | true, Some sel =>
      path <-- deref curStore ;;
      fresh <-- ask (fun st => loadMailbox st path (sl_id sel) (sl_path sel)) ;;
      match fresh with
      | None => ok_ tt
      | Some fresh =>
          let live uid := existsb (fun m => mi_UID m =? uid) (sl_msgs fresh) in
          let '(view, gone) := poll_view live 0 (sl_msgs sel) in
          each (fun n => put (RExpunge n)) gone ;;;
          (if len (sl_msgs fresh) =? len view then ok_ tt
           else put (RExists (maxSeq (sl_msgs fresh))) ;;; put RRecent) ;;;
          update (set_sel (Some fresh))
      end
  | _, _ => ok_ tt
  end.

Definition cmdNoop (tag : bytes) : act W unit := poll ;;; respond_ok tag (lit "NOOP completed").
Definition cmdCheck (tag : bytes) : act W unit :=
  c <-- the_conn ;;
  if negb (bool_decide (c_state c = stateSelected)) then respond_no tag (lit "no mailbox selected")
  else poll ;;; respond_ok tag (lit "CHECK completed").
Definition cmdLogout (tag : bytes) : act W unit :=
  untagged (lit "BYE hermEX IMAP logging out") ;;; update (set_state stateLogout) ;;; respond_ok tag (lit "LOGOUT completed").

(** IDLE: [wakes] are what the rest of the process did before each poll; the last poll is the
    one the client's DONE line triggers. *)
Definition idle_line : act W unit := update (fun c =>
  let r := c_rd c in
  set_rd (mkRd (match discardLine (rd_br r) with (_, rest) => rest end) (rd_lineBytes r) (rd_prompts r)) c).
Definition wake (f : world W -> world W) : act W unit := fun s => Some (tt, (s.1, f s.2)).
Definition cmdIdle (wakes : list (world W -> world W)) (tag : bytes) : act W unit :=
  c <-- the_conn ;;
  match bool_decide (c_state c = stateSelected), c_sel c with
  | true, Some _ =>
      put (RCont (lit "idling")) ;;;
      each (fun f => wake f ;;; poll) wakes ;;;
      idle_line ;;; poll ;;; respond_ok tag (lit "IDLE terminated")
  | _, _ => respond_bad tag (lit "IDLE requires a selected mailbox")
  end.
End commands.

Section folders.
Context {W : Type} `{!ImapStore W}.
(** [publicfolder.Service.OpenForCaller]: the path of the caller's public store *)
Context (OpenForCaller : W -> bytes -> option bytes).

(** ** Folders *)

(** The caller's folder tree; a cycle of parents is an endless recursion. *)
Definition load_tree : act W (option (list folderNode)) :=
  path <-- deref c_st ;;
  folders <-- ask (fun st => ListFolders st path) ;;
  match folders with
  | None => ok_ None
  | Some fs => fun s => match loadFolderTree fs with Some t => Some (Some t, s) | None => None end
  end.

Definition openPub : act W (option bytes) :=
  c <-- the_conn ;;
  match c_pubStore c with
  | Some p => ok_ (Some p)
  | None =>
      p <-- ask (fun st => OpenForCaller st (c_user c)) ;;
      match p with
      | Some p => update (set_pubStore p) ;;; ok_ (Some p)
      | None => ok_ None
      end
  end.

Definition resolvePublicFolder (sub : bytes) : act W (option (FolderInfo * Z)) :=
  p <-- openPub ;;
  match p with
  | None => ok_ None
  | Some path =>
      c <-- the_conn ;;
      ask (fun st =>
        all ← ListFolders st path;
        f ← List.find (fun f => match fi_ParentID f with None => beq (fi_DisplayName f) sub | Some _ => false end) all;
        rights ← ResolvePermission st path (fi_ID f) (c_user c);
        if Z.land rights FrightsVisible =? 0 then None else Some (f, rights))
  end.

(** The destination of APPEND and COPY: whether it is public, its store and its folder *)
Definition resolveAppendDest (name : bytes) : act W (bool * bytes * Z + bytes) :=
  match isPublicName name with
  | Some [] => ok_ (inr (lit "the public folders root is not a mailbox"))
  | Some sub =>
      r <-- resolvePublicFolder sub ;;
      match r with
      | None => ok_ (inr (lit "[TRYCREATE] no such mailbox"))
      | Some (f, rights) =>
          if Z.land rights FrightsCreate =? 0 then ok_ (inr (lit "[NOPERM] no post rights on this public folder"))
          else path <-- deref c_pubStore ;; ok_ (inl (true, path, fi_ID f))
      end
  | None =>
      t <-- load_tree ;;
      match t with
      | None => ok_ (inr (lit "cannot read mailbox list"))
      | Some tree =>
          match resolve tree name with
          | None => ok_ (inr (lit "[TRYCREATE] no such mailbox"))
          | Some n => path <-- deref c_st ;; ok_ (inl (false, path, fi_ID (fn_info n)))
          end
      end
  end.

(** ** SELECT and EXAMINE *)

(** The QRESYNC part of the reply *)
Definition emitQResync (sel : selectedMailbox) (qr : Z * Z) : act W unit :=
  if negb (qr.1 =? sl_uidValidity sel) then ok_ tt
  else
    path <-- deref curStore ;;
    vanished <-- ask (fun st => VanishedSince st path (sl_id sel) qr.2) ;;
    (match vanished with [] => ok_ tt | _ => untagged (lit "VANISHED (EARLIER) " ++ esearchSet vanished) end) ;;;
    modseqs <-- modseqMap ;;
    each (fun p : nat * MessageInfo =>
            if qr.2 <? modseqs (mi_UID p.2) then
              put (RFetch (u32 (Z.of_nat p.1 + 1))
                [lit "UID " ++ dec (mi_UID p.2); lit "FLAGS (" ++ formatFlags (mi_Flags p.2) false ++ lit ")";
                 lit "MODSEQ (" ++ dec (modseqs (mi_UID p.2)) ++ lit ")"])
            else ok_ tt)
         (zip (seq 0 (length (sl_msgs sel))) (sl_msgs sel)).

Definition emitSelected (tag : bytes) (sel : selectedMailbox) (examine : bool) : act W unit :=
  put (RExists (maxSeq (sl_msgs sel))) ;;;
  put RRecent ;;;
  untagged (lit "FLAGS (" ++ supportedFlagNames ++ lit ")") ;;;
  c <-- the_conn ;;
  untagged (if c_readOnly c then lit "OK [PERMANENTFLAGS ()] read-only, no permanent flags"
            else lit "OK [PERMANENTFLAGS (" ++ supportedFlagNames ++ lit ")] limited") ;;;
  untagged (lit "OK [UIDVALIDITY " ++ dec (sl_uidValidity sel) ++ lit "] validity") ;;;
  untagged (lit "OK [UIDNEXT " ++ dec (sl_uidNext sel) ++ lit "] next uid") ;;;
  (if firstUnseen sel =? 0 then ok_ tt else untagged (lit "OK [UNSEEN " ++ dec (firstUnseen sel) ++ lit "] first unseen")) ;;;
  (if c_condstore c then
     path <-- deref curStore ;; hi <-- ask (fun st => FolderHighestModSeq st path (sl_id sel)) ;;
     untagged (lit "OK [HIGHESTMODSEQ " ++ dec hi ++ lit "] modseq")
   else ok_ tt) ;;;
  (match c_qr c with Some qr => emitQResync sel qr ;;; update (set_qr None) | None => ok_ tt end) ;;;
  respond_ok tag ((if c_readOnly c then lit "[READ-ONLY]" else lit "[READ-WRITE]") ++ lit " "
                  ++ (if examine then lit "EXAMINE" else lit "SELECT") ++ lit " completed").

Definition selectPublic (tag name sub : bytes) (examine : bool) : act W unit :=
  let drop_selection := update (fun c => set_sel None (set_state stateAuth c)) in
  match sub with
  | [] => drop_selection ;;; respond_no tag (lit "the public folders root is not selectable")
  | _ =>
      r <-- resolvePublicFolder sub ;;
      match r with
      | None => drop_selection ;;; respond_no tag (lit "no such mailbox")
      | Some (f, rights) =>
          if Z.land rights FrightsReadAny =? 0 then respond_no tag (lit "[NOPERM] read access denied")
          else
            path <-- deref c_pubStore ;;
            sel <-- ask (fun st => loadMailbox st path (fi_ID f) name) ;;
            match sel with
            | None => respond_no tag (lit "cannot open mailbox")
            | Some sel =>
                update (fun c => set_readOnly (examine || (Z.land rights (Z.lor FrightsEditAny FrightsDeleteAny) =? 0))
                                   (set_state stateSelected (set_selPublic true (set_sel (Some sel) c)))) ;;;
                emitSelected tag sel examine
            end
      end
  end.

Definition cmdSelect (tag : bytes) (args : list token) (examine : bool) : act W unit :=
  c <-- the_conn ;;
  if bool_decide (c_state c = stateNotAuth) then respond_no tag (lit "must authenticate first")
  else match arg0 args with
       | None => respond_bad tag (lit "SELECT requires a mailbox name")
       | Some name =>
           (if selectEnablesCondstore args then update set_condstore else ok_ tt) ;;;
           (match parseQResync args with
            | Some qr => update (fun c => set_qr (Some qr) (set_qresync c))
            | None => ok_ tt
            end) ;;;
           match isPublicName name with
           | Some sub => selectPublic tag name sub examine
           | None =>
               t <-- load_tree ;;
               match t with
               | None => respond_no tag (lit "cannot read mailbox list")
               | Some tree =>
                   match resolve tree name with
                   | None => deselect ;;; respond_no tag (lit "no such mailbox")
                   | Some n =>
                       path <-- deref c_st ;;
                       sel <-- ask (fun st => loadMailbox st path (fi_ID (fn_info n)) (fn_path n)) ;;
                       match sel with
                       | None => respond_no tag (lit "cannot open mailbox")
                       | Some sel =>
                           update (fun c => set_readOnly examine (set_state stateSelected (set_selPublic false (set_sel (Some sel) c)))) ;;;
                           emitSelected tag sel examine
                       end
                   end
               end
           end
       end.

(** ** LIST, STATUS, NAMESPACE *)

Definition specialUse (folderID : Z) : bytes :=
  if folderID =? 0x0a then lit "\Sent" else if folderID =? 0x0b then lit "\Trash"
  else if folderID =? 0x0e then lit "\Drafts" else if folderID =? 0x17 then lit "\Junk" else [].
Definition listAttributes (n : folderNode) : bytes :=
  (if fn_hasChildren n then lit "\HasChildren" else lit "\HasNoChildren")
  ++ match specialUse (fi_ID (fn_info n)) with [] => [] | su => lit " " ++ su end.
Definition list_line (verb attrs path : bytes) : bytes :=
  verb ++ lit " (" ++ attrs ++ lit ") " ++ quoteString [hierarchySep] ++ lit " " ++ safeQuoted path.

Definition listOwnFolders (verb pattern : bytes) (tree : list folderNode) (lsub : bool) : act W unit :=
  each (fun n => if lsub && negb (fi_Subscribed (fn_info n)) then ok_ tt
                 else if imapMatch pattern (fn_path n) then untagged (list_line verb (listAttributes n) (fn_path n))
                 else ok_ tt) tree.

Definition visiblePublicRoots (st : W) (path user : bytes) (all : list FolderInfo) : list FolderInfo :=
  List.filter (fun f => match fi_ParentID f with
                        | Some _ => false
                        | None => match ResolvePermission st path (fi_ID f) user with
                                  | Some rights => negb (Z.land rights FrightsVisible =? 0)
                                  | None => false
                                  end
                        end) all.

Definition listPublicFolders (verb full : bytes) : act W unit :=
  p <-- openPub ;;
  match p with
  | None => ok_ tt
  | Some path =>
      c <-- the_conn ;;
      visible <-- ask (fun st => match ListFolders st path with
                                 | Some all => visiblePublicRoots st path (c_user c) all
                                 | None => []
                                 end) ;;
      match visible with
      | [] => ok_ tt
      | _ =>
          (if imapMatch full publicNamespaceRoot
           then untagged (list_line verb (lit "\HasChildren \Noselect") publicNamespaceRoot) else ok_ tt) ;;;
          each (fun f => let path := publicNamespacePrefix ++ fi_DisplayName f in
                         if imapMatch full path then untagged (list_line verb (lit "\HasNoChildren") path) else ok_ tt) visible
      end
  end.

Definition cmdList (tag : bytes) (args : list token) (lsub : bool) : act W unit :=
  let verb := if lsub then lit "LSUB" else lit "LIST" in
  c <-- the_conn ;;
  if bool_decide (c_state c = stateNotAuth) then respond_no tag (lit "must authenticate first")
  else match arg0 args, argN args 1 with
       | Some ref, Some [] =>
           untagged (verb ++ lit " (\Noselect) " ++ quoteString [hierarchySep] ++ lit " " ++ quoteString []) ;;;
           respond_ok tag (verb ++ lit " completed")
       | Some ref, Some pat =>
           t <-- load_tree ;;
           match t with
           | None => respond_no tag (lit "cannot read mailbox list")
           | Some tree =>
               listOwnFolders verb (ref ++ pat) tree lsub ;;;
               listPublicFolders verb (ref ++ pat) ;;;
               respond_ok tag (verb ++ lit " completed")
           end
       | _, _ => respond_bad tag (verb ++ lit " requires a reference and a pattern")
       end.

Definition status_part (msgs : list MessageInfo) (uidv uidn highmodseq : Z) (it : bytes) : option bytes :=
  let it := ToUpper it in
  if beq it (lit "MESSAGES") then Some (lit "MESSAGES " ++ dec (len msgs))
  else if beq it (lit "RECENT") then Some (lit "RECENT 0")
  else if beq it (lit "UIDNEXT") then Some (lit "UIDNEXT " ++ dec uidn)
  else if beq it (lit "UIDVALIDITY") then Some (lit "UIDVALIDITY " ++ dec uidv)
  else if beq it (lit "UNSEEN")
       then Some (lit "UNSEEN " ++ dec (len (List.filter (fun m => Z.land (mi_Flags m) FlagSeen =? 0) msgs)))
  else if beq it (lit "HIGHESTMODSEQ") then Some (lit "HIGHESTMODSEQ " ++ dec highmodseq)
  else None.
Definition statusParts (items : list bytes) (msgs : list MessageInfo) (uidv uidn highmodseq : Z) : bytes :=
  Join (omap (status_part msgs uidv uidn highmodseq) items) (lit " ").

(** The STATUS of a folder of a store *)
Definition status_of (tag name : bytes) (path : bytes) (fid : Z) (items : list bytes) : act W unit :=
  text <-- ask (fun st =>
    msgs ← ListMessages st path fid;
    Some (statusParts items msgs (default 0 (UIDValidity st path fid)) (default 0 (UIDNext st path fid))
            (FolderHighestModSeq st path fid))) ;;
  match text with
  | None => respond_no tag (lit "cannot read mailbox")
  | Some text => untagged (lit "STATUS " ++ safeQuoted name ++ lit " (" ++ text ++ lit ")") ;;; respond_ok tag (lit "STATUS completed")
  end.

Definition statusPublic (tag name sub : bytes) (items : list bytes) : act W unit :=
  match sub with
  | [] => respond_no tag (lit "no such mailbox")
  | _ =>
      r <-- resolvePublicFolder sub ;;
      match r with
      | None => respond_no tag (lit "no such mailbox")
      | Some (f, _) => path <-- deref c_pubStore ;; status_of tag name path (fi_ID f) items
      end
  end.

Definition cmdStatus (tag : bytes) (args : list token) : act W unit :=
  c <-- the_conn ;;
  if bool_decide (c_state c = stateNotAuth) then respond_no tag (lit "must authenticate first")
  else
    let bad := respond_bad tag (lit "STATUS requires a mailbox and item list") in
    match arg0 args, args !! 1%nat with
    | Some name, Some o =>
        if negb (kind_is o tLParen) then bad
        else
          let items := parenAtoms (List.tl args) in
          match isPublicName name with
          | Some sub => statusPublic tag name sub items
          | None =>
              t <-- load_tree ;;
              match t with
              | None => respond_no tag (lit "cannot read mailbox list")
              | Some tree =>
                  match resolve tree name with
                  | None => respond_no tag (lit "no such mailbox")
                  | Some n => path <-- deref c_st ;; status_of tag (fn_path n) path (fi_ID (fn_info n)) items
                  end
              end
          end
    | _, _ => bad
    end.

Definition cmdNamespace (tag : bytes) : act W unit :=
  c <-- the_conn ;;
  if bool_decide (c_state c = stateNotAuth) then respond_no tag (lit "must authenticate first")
  else untagged (lit "NAMESPACE ((" ++ quoteString [] ++ lit " " ++ quoteString [hierarchySep] ++ lit ")) NIL (("
                 ++ quoteString publicNamespacePrefix ++ lit " " ++ quoteString [hierarchySep] ++ lit "))") ;;;
       respond_ok tag (lit "NAMESPACE completed").

(** ** CREATE, DELETE, RENAME, SUBSCRIBE *)

(** The folders of a path that are missing are created; the leaf's id, or an error *)
Fixpoint create_parts (tree : list folderNode) (prefix : option bytes) (parent : option Z) (parts : list bytes) : act W (option Z) :=
  match parts with
  | [] => ok_ parent
  | part :: parts =>
      let prefix := match prefix with None => part | Some p => p ++ [hierarchySep] ++ part end in
      match resolve tree prefix with
      | Some n => create_parts tree (Some prefix) (Some (fi_ID (fn_info n))) parts
      | None =>
          path <-- deref c_st ;;
          id <-- write (fun st => CreateFolder st path parent part) ;;
          match id with
          | None => ok_ None
          | Some id =>
              t <-- load_tree ;;
              match t with
              | None => ok_ None
              | Some tree => create_parts tree (Some prefix) (Some id) parts
              end
          end
      end
  end.
Definition createPath (tree : list folderNode) (path : bytes) : act W (option Z) :=
  create_parts tree None None (Split path hierarchySep).

Definition cmdCreate (tag : bytes) (args : list token) : act W unit :=
  c <-- the_conn ;;
  if bool_decide (c_state c = stateNotAuth) then respond_no tag (lit "must authenticate first")
  else match arg0 args with
       | None | Some [] => respond_bad tag (lit "CREATE requires a mailbox name")
       | Some name =>
           if negb (mailboxSafe name) then respond_no tag (lit "mailbox name contains an illegal character")
           else
             let name := TrimSuffix name [hierarchySep] in
             if EqualFold name inboxName then respond_no tag (lit "INBOX already exists")
             else
               t <-- load_tree ;;
               match t with
               | None => respond_no tag (lit "cannot read mailbox list")
               | Some tree =>
                   match resolve tree name with
                   | Some _ => respond_no tag (lit "mailbox already exists")
                   | None =>
                       id <-- createPath tree name ;;
                       match id with
                       | None => respond_no tag (lit "cannot create mailbox")
                       | Some _ => respond_ok tag (lit "CREATE completed")
                       end
                   end
               end
       end.

Definition cmdDelete (tag : bytes) (args : list token) : act W unit :=
  c <-- the_conn ;;
  if bool_decide (c_state c = stateNotAuth) then respond_no tag (lit "must authenticate first")
  else match arg0 args with
       | None => respond_bad tag (lit "DELETE requires a mailbox name")
       | Some name =>
           if EqualFold name inboxName then respond_no tag (lit "cannot delete INBOX")
           else
             t <-- load_tree ;;
             match t with
             | None => respond_no tag (lit "cannot read mailbox list")
             | Some tree =>
                 match resolve tree name with
                 | None => respond_no tag (lit "no such mailbox")
                 | Some n =>
                     path <-- deref c_st ;;
                     success <-- write (fun st => DeleteFolder st path (fi_ID (fn_info n))) ;;
                     if success : bool then respond_ok tag (lit "DELETE completed") else respond_no tag (lit "cannot delete mailbox")
                 end
             end
       end.

(** The last separator: what is before it and after it *)
Definition cut_last (path : bytes) : option (bytes * bytes) :=
  if existsb (Z.eqb hierarchySep) path then
    let '(leaf, parent) := Cut (rev path) hierarchySep in Some (rev parent, rev leaf)
  else None.

Definition resolveParent (tree : list folderNode) (path : bytes) : act W (option (option Z * bytes)) :=
  match cut_last path with
  | None => ok_ (Some (None, path))
  | Some (parentPath, leaf) =>
      id <-- createPath tree parentPath ;;
      ok_ ((fun id => (Some id, leaf)) <$> id)
  end.

(** The refusal to report, if any *)
Definition renameFolder (tree : list folderNode) (from to : bytes) : act W (option bytes) :=
  match resolve tree from with
  | None => ok_ (Some (lit "no such mailbox"))
  | Some n =>
      match resolve tree to with
      | Some _ => ok_ (Some (lit "destination already exists"))
      | None =>
          r <-- resolveParent tree to ;;
          match r with
          | None => ok_ (Some (lit "cannot create destination parent"))
          | Some (parent, leaf) =>
              path <-- deref c_st ;;
              success <-- write (fun st => RenameFolder st path (fi_ID (fn_info n)) parent leaf) ;;
              ok_ (if success : bool then None else Some (lit "cannot rename mailbox"))
          end
      end
  end.
Definition renameRefusal (from to : bytes) : option bytes :=
  if negb (mailboxSafe to) then Some (lit "mailbox name contains an illegal character")
  else if EqualFold from inboxName then Some (lit "renaming INBOX is not supported") else None.

Definition cmdRename (tag : bytes) (args : list token) : act W unit :=
  c <-- the_conn ;;
  if bool_decide (c_state c = stateNotAuth) then respond_no tag (lit "must authenticate first")
  else match arg0 args, argN args 1 with
       | Some from, Some ((_ :: _) as to) =>
           match renameRefusal from to with
           | Some refusal => respond_no tag refusal
           | None =>
               t <-- load_tree ;;
               match t with
               | None => respond_no tag (lit "cannot read mailbox list")
               | Some tree =>
                   r <-- renameFolder tree from (TrimSuffix to [hierarchySep]) ;;
                   match r with
                   | Some refusal => respond_no tag refusal
                   | None => respond_ok tag (lit "RENAME completed")
                   end
               end
           end
       | _, _ => respond_bad tag (lit "RENAME requires source and destination names")
       end.

Definition cmdSubscribe (tag : bytes) (args : list token) (subscribe : bool) : act W unit :=
  c <-- the_conn ;;
  if bool_decide (c_state c = stateNotAuth) then respond_no tag (lit "must authenticate first")
  else match arg0 args with
       | None => respond_bad tag (lit "SUBSCRIBE requires a mailbox name")
       | Some name =>
           t <-- load_tree ;;
           match t with
           | None => respond_no tag (lit "cannot read mailbox list")
           | Some tree =>
               match resolve tree name with
               | None => respond_no tag (lit "no such mailbox")
               | Some n =>
                   path <-- deref c_st ;;
                   success <-- write (fun st => SetSubscribed st path (fi_ID (fn_info n)) subscribe) ;;
                   if success : bool then respond_ok tag (lit "completed") else respond_no tag (lit "cannot update subscription")
               end
           end
       end.
End folders.

Section messages.
Context {W : Type} `{!ImapStore W}.
Context (OpenForCaller : W -> bytes -> option bytes).
(** The virus scan of stored content ([mta.ScanStored]), which may quarantine; the date-time of
    APPEND, and the time of the command *)
Context (ScanStored : W -> bytes -> bytes -> W * bool) (parse_datetime : bytes -> option (date * Z)) (now : date * Z).

(** ** COPY and MOVE *)

Fixpoint copy_loop (st : W) (src : bytes) (id : Z) (dst : bytes) (dstFID : Z) (set : list seqRange) (byUID : bool) (max : Z)
    (i : nat) (msgs : list MessageInfo) : W * option (list Z * list Z) :=
  match msgs with
  | [] => (st, Some ([], []))
  | m :: msgs =>
      if negb (contains set (set_key byUID i m) max) then copy_loop st src id dst dstFID set byUID max (S i) msgs
      else match GetMessageRaw st src id (mi_UID m) with
           | None => (st, None)
           | Some raw =>
               match AppendMessage st dst dstFID raw (mi_InternalDate m, mi_time m) (mi_Flags m) with
               | (st, None) => (st, None)
               | (st, Some info) =>
                   let '(st, r) := copy_loop st src id dst dstFID set byUID max (S i) msgs in
                   (st, (fun p => (mi_UID m :: p.1, mi_UID info :: p.2)) <$> r)
               end
           end
  end.

Definition copyToDest (set : list seqRange) (byUID : bool) (dst : bytes) (dstFID : Z) : act W (option (list Z * list Z)) :=
  sel <-- deref c_sel ;; src <-- deref curStore ;;
  write (fun st => copy_loop st src (sl_id sel) dst dstFID set byUID (set_max byUID (sl_msgs sel)) 0 (sl_msgs sel)).

(** The UIDPLUS code of a copy *)
Definition copyuid (dst : bytes) (dstFID : Z) (p : list Z * list Z) : act W bytes :=
  uidv <-- ask (fun st => default 0 (UIDValidity st dst dstFID)) ;;
  ok_ (lit "[COPYUID " ++ dec uidv ++ lit " " ++ uidList p.1 ++ lit " " ++ uidList p.2 ++ lit "]").

Definition cmdCopy (tag : bytes) (args : list token) (byUID : bool) : act W unit :=
  c <-- the_conn ;;
  if negb (bool_decide (c_state c = stateSelected)) then respond_no tag (lit "no mailbox selected")
  else if len args <? 2 then respond_bad tag (lit "COPY requires a sequence set and a mailbox")
  else match parseSeqSet (arg_text args 0) with
       | Err _ => respond_bad tag (lit "invalid sequence set")
       | Ok set =>
           dest <-- resolveAppendDest OpenForCaller (arg_text args 1) ;;
           match dest with
           | inr errText => respond_no tag errText
           | inl (_, dst, dstFID) =>
               r <-- copyToDest set byUID dst dstFID ;;
               let verb := verb_of byUID (lit "COPY") in
               match r with
               | None => respond_no tag (lit "copy failed")
               | Some ([], _) => respond_ok tag (verb ++ lit " completed")
               | Some p => code <-- copyuid dst dstFID p ;; respond_ok tag (code ++ lit " " ++ verb ++ lit " completed")
               end
           end
       end.

Definition expungeMoved (srcUIDs : list Z) : act W (list Z) :=
  sweep_selected (fun m => existsb (Z.eqb (mi_UID m)) srcUIDs) true.

Definition cmdMove (tag : bytes) (args : list token) (byUID : bool) : act W unit :=
  c <-- the_conn ;;
  if negb (bool_decide (c_state c = stateSelected)) then respond_no tag (lit "no mailbox selected")
  else if c_readOnly c then respond_no tag (lit "mailbox is read-only")
  else if len args <? 2 then respond_bad tag (lit "MOVE requires a sequence set and a mailbox")
  else match parseSeqSet (arg_text args 0) with
       | Err _ => respond_bad tag (lit "invalid sequence set")
       | Ok set =>
           dest <-- resolveAppendDest OpenForCaller (arg_text args 1) ;;
           match dest with
           | inr errText => respond_no tag errText
           | inl (_, dst, dstFID) =>
               r <-- copyToDest set byUID dst dstFID ;;
               let verb := verb_of byUID (lit "MOVE") in
               match r with
               | None => respond_no tag (lit "move failed")
               | Some ([], _) => respond_ok tag (verb ++ lit " completed")
               | Some p =>
                   code <-- copyuid dst dstFID p ;;
                   untagged (lit "OK " ++ code) ;;;
                   expungeMoved p.1 ;;;
                   respond_ok tag (verb ++ lit " completed")
               end
           end
       end.

(** ** APPEND *)

Definition appendDate (args : list token) : (date * Z) * list token :=
  match args with
  | t :: (_ :: _) as rest =>
      match tok_str t with
      | Some s => if tk_literal t then (now, args)
                  else match parse_datetime s with Some d => (d, List.tl args) | None => (now, args) end
      | None => (now, args)
      end
  | _ => (now, args)
  end.

(** Remove the messages a failing command already stored. *)
Fixpoint rollbackAppend (st : W) (dst : bytes) (dstFID : Z) (uids : list Z) : W :=
  match uids with
  | [] => st
  | u :: uids => rollbackAppend (SoftDeleteMessage st dst dstFID u).1 dst dstFID uids
  end.

Inductive append_result := Appended (uids : list Z) | AppendRefused (text : bytes) | AppendMalformed (text : bytes).

(** [uids] are those of the groups stored so far; each group takes a token. *)
Fixpoint append_groups (fuel : nat) (st : W) (user dst : bytes) (dstFID : Z) (uids : list Z) (rest : list token) : W * append_result :=
  match fuel, rest with
  | _, [] => (st, match uids with [] => AppendMalformed (lit "APPEND requires a message literal") | _ => Appended uids end)
  | O, _ => (st, AppendMalformed [])
  | S fuel, _ =>
      let '(flags, r2) := appendFlags rest in
      let '(d, r3) := appendDate r2 in
      match r3 with
      | [] => (st, AppendMalformed (lit "APPEND requires a message literal"))
      | m :: r4 =>
          if negb (tk_literal m) then (st, AppendMalformed (lit "APPEND requires a message literal"))
          else
            let '(st, virus) := ScanStored st user (tk_val m) in
            if virus : bool then (rollbackAppend st dst dstFID uids, AppendRefused (lit "APPEND rejected: a virus was detected"))
            else
              match AppendMessage st dst dstFID (tk_val m) d flags with
              | (st, None) => (rollbackAppend st dst dstFID uids, AppendRefused (lit "APPEND failed"))
              | (st, Some info) => append_groups fuel st user dst dstFID (uids ++ [mi_UID info]) r4
              end
      end
  end.
Definition appendGroups (rest : list token) (dst : bytes) (dstFID : Z) : act W append_result :=
  c <-- the_conn ;; write (fun st => append_groups (length rest) st (c_user c) dst dstFID [] rest).

Definition cmdAppend (tag : bytes) (args : list token) : act W unit :=
  c <-- the_conn ;;
  if bool_decide (c_state c = stateNotAuth) then respond_no tag (lit "must authenticate first")
  else if len args <? 2 then respond_bad tag (lit "APPEND requires a mailbox and a message")
  else
    dest <-- resolveAppendDest OpenForCaller (arg_text args 0) ;;
    match dest with
    | inr errText => respond_no tag errText
    | inl (public, dst, dstFID) =>
        r <-- appendGroups (List.tl args) dst dstFID ;;
        match r with
        | AppendMalformed text => respond_bad tag text
        | AppendRefused text => respond_no tag text
        | Appended uids =>
            c <-- the_conn ;;
            (match bool_decide (c_state c = stateSelected) && Bool.eqb (c_selPublic c) public, c_sel c with
             | true, Some sel => if sl_id sel =? dstFID then poll else ok_ tt
             | _, _ => ok_ tt
             end) ;;;
            uidv <-- ask (fun st => default 0 (UIDValidity st dst dstFID)) ;;
            respond_ok tag (lit "[APPENDUID " ++ dec uidv ++ lit " " ++ uidList uids ++ lit "] APPEND completed")
        end
    end.

(** ** FETCH *)

Context (Extract : bytes -> Section_ -> option bytes) (extractBinary : bytes -> list Z -> option bytes)
  (bodystructure : bool -> bytes -> bytes) (envelope : bytes -> bytes) (format_date : date -> Z -> bytes).

Definition completeFetchItems (items : list fetchItem) (byUID : bool) (changedSince : Z) : act W (list fetchItem) :=
  let items := if byUID && negb (hasKind items (lit "UID")) then items ++ [plain_item (lit "UID")] else items in
  if 0 <? changedSince then
    update set_condstore ;;;
    ok_ (if hasKind items (lit "MODSEQ") then items else items ++ [plain_item (lit "MODSEQ")])
  else ok_ items.

(** One message's reply: a body read outside a read-only selection sets [\Seen], believed only
    when the store took it. *)
Definition writeFetch (idx : nat) (items : list fetchItem) (modseqs : Z -> Z) : act W unit :=
  c <-- the_conn ;; sel <-- deref c_sel ;; path <-- deref curStore ;;
  match sl_msgs sel !! idx with
  | None => ok_ tt
  | Some msg =>
      raw <-- ask (fun st => default [] (GetMessageRaw st path (sl_id sel) (mi_UID msg))) ;;
      let '(fields, setSeen) := message_fields Extract extractBinary bodystructure envelope format_date raw msg modseqs items in
      fields <--
        (if setSeen && negb (c_readOnly c) && (Z.land (mi_Flags msg) FlagSeen =? 0) then
           let flags := Z.lor (mi_Flags msg) FlagSeen in
           success <-- write (fun st => SetMessageFlags st path (sl_id sel) (mi_UID msg) flags) ;;
           if success : bool then
             update (set_sel (Some (set_msgs sel
               (<[idx := mkInfo (mi_UID msg) (mi_Size msg) flags (mi_InternalDate msg) (mi_time msg)]> (sl_msgs sel))))) ;;;
             ok_ (if hasFlagsField fields then fields else fields ++ [lit "FLAGS (" ++ formatFlags flags false ++ lit ")"])
           else ok_ fields
         else ok_ fields) ;;
      put (RFetch (u32 (Z.of_nat idx + 1)) fields)
  end.

Definition writeFetches (set : list seqRange) (byUID : bool) (items : list fetchItem) (modseqs : Z -> Z) (changedSince : Z) : act W unit :=
  sel <-- deref c_sel ;;
  let max := set_max byUID (sl_msgs sel) in
  each (fun p : nat * MessageInfo =>
          if negb (contains set (set_key byUID p.1 p.2) max) then ok_ tt
          else if (0 <? changedSince) && (modseqs (mi_UID p.2) <=? changedSince) then ok_ tt
          else writeFetch p.1 items modseqs)
       (zip (seq 0 (length (sl_msgs sel))) (sl_msgs sel)).

Definition cmdFetch (tag : bytes) (args : list token) (byUID : bool) : act W unit :=
  c <-- the_conn ;;
  if negb (bool_decide (c_state c = stateSelected)) then respond_no tag (lit "no mailbox selected")
  else if len args <? 2 then respond_bad tag (lit "FETCH requires a sequence set and items")
  else match parseSeqSet (arg_text args 0) with
       | Err _ => respond_bad tag (lit "invalid sequence set")
       | Ok set =>
           match splitFetchModifiers (List.tl args) with
           | None => respond_bad tag (lit "invalid FETCH modifier")
           | Some (itemArgs, changedSince) =>
               match parseFetchItems itemArgs with
               | Err _ => respond_bad tag (lit "invalid FETCH items")
               | Ok items =>
                   items <-- completeFetchItems items byUID changedSince ;;
                   modseqs <-- (if (0 <? changedSince) || hasKind items (lit "MODSEQ") then modseqMap else ok_ (fun _ => 0)) ;;
                   writeFetches set byUID items modseqs changedSince ;;;
                   respond_ok tag (verb_of byUID (lit "FETCH") ++ lit " completed")
               end
           end
       end.

(** ** SEARCH, SORT, THREAD *)

Context (ToLower : bytes -> bytes) (header_values : bytes -> bytes -> list bytes) (ParseDate : bytes -> option date).
Context (ParseInstant : bytes -> option Z) (arrival : MessageInfo -> Z) (ParseAddress : bytes -> option bytes).

Definition raw_of (path : bytes) (id : Z) : act W (Z -> bytes) :=
  ask (fun st uid => default [] (GetMessageRaw st path id uid)).

Definition cmdSearch (tag : bytes) (args : list token) (byUID : bool) : act W unit :=
  c <-- the_conn ;;
  if negb (bool_decide (c_state c = stateSelected)) then respond_no tag (lit "no mailbox selected")
  else
    let '(returnOpts, cur) := parseReturnOpts args in
    let cur := match cur with t :: _ => if isAtom t (lit "CHARSET") then drop 2 cur else cur | [] => [] end in
    match parseSearchKeys ToLower header_values ParseDate cur with
    | Err _ => respond_bad tag (lit "invalid SEARCH criteria")
    | Ok (m, _) =>
        sel <-- deref c_sel ;; path <-- deref curStore ;;
        raw <-- raw_of path (sl_id sel) ;;
        let results := searchMatches raw (sl_msgs sel) m byUID in
        untagged (match returnOpts, results with
                  | Some opts, _ => writeESearch tag byUID opts results
                  | None, [] => lit "SEARCH"
                  | None, _ => lit "SEARCH " ++ ids results
                  end) ;;;
        respond_ok tag (verb_of byUID (lit "SEARCH") ++ lit " completed")
    end.

(** The contexts of the selected messages *)
Definition selected_contexts : act W (list searchCtx) :=
  sel <-- deref c_sel ;; path <-- deref curStore ;; raw <-- raw_of path (sl_id sel) ;;
  ok_ (contexts raw (maxSeq (sl_msgs sel)) (maxUID (sl_msgs sel)) 0 (sl_msgs sel)).

Definition cmdSort (tag : bytes) (args : list token) (byUID : bool) : act W unit :=
  c <-- the_conn ;;
  if negb (bool_decide (c_state c = stateSelected)) then respond_no tag (lit "no mailbox selected")
  else match parseSortCriteria args with
       | None => respond_bad tag (lit "invalid SORT criteria")
       | Some (_, []) => respond_bad tag (lit "SORT requires a charset and search keys")
       | Some (crits, _ :: cur) =>
           match parseSearchKeys ToLower header_values ParseDate cur with
           | Err _ => respond_bad tag (lit "invalid SORT criteria")
           | Ok (m, _) =>
               cs <-- selected_contexts ;;
               untagged (match sorted_matches ToLower header_values ParseInstant arrival ParseAddress cs m crits byUID with
                         | [] => lit "SORT"
                         | out => lit "SORT " ++ ids out
                         end) ;;;
               respond_ok tag (verb_of byUID (lit "SORT") ++ lit " completed")
           end
       end.

Definition cmdThread (tag : bytes) (args : list token) (byUID : bool) : act W unit :=
  c <-- the_conn ;;
  if negb (bool_decide (c_state c = stateSelected)) then respond_no tag (lit "no mailbox selected")
  else match args with
       | [] => respond_bad tag (lit "THREAD requires an algorithm")
       | [_] => respond_bad tag (lit "THREAD requires a charset and search keys")
       | algo :: _ :: cur =>
           match parseSearchKeys ToLower header_values ParseDate cur with
           | Err _ => respond_bad tag (lit "invalid THREAD criteria")
           | Ok (m, _) =>
               cs <-- selected_contexts ;;
               let msgs := threadMsgs ToLower header_values ParseInstant arrival cs m byUID in
               let algo := ToUpper (tk_val algo) in
               if beq algo (lit "ORDEREDSUBJECT") then
                 untagged (lit "THREAD " ++ threadOrderedSubject msgs) ;;; respond_ok tag (verb_of byUID (lit "THREAD") ++ lit " completed")
               else if beq algo (lit "REFERENCES") then
                 untagged (lit "THREAD " ++ threadReferences msgs) ;;; respond_ok tag (verb_of byUID (lit "THREAD") ++ lit " completed")
               else respond_bad tag (lit "unsupported THREAD algorithm")
           end
       end.

(** ** The UID commands *)

Definition cmdUID (tag : bytes) (args : list token) : act W unit :=
  c <-- the_conn ;;
  if negb (bool_decide (c_state c = stateSelected)) then respond_no tag (lit "no mailbox selected")
  else match arg0 args with
       | None => respond_bad tag (lit "UID requires a command")
       | Some sub =>
           let name := ToUpper sub in
           let rest := List.tl args in
           if beq name (lit "FETCH") then cmdFetch tag rest true
           else if beq name (lit "STORE") then cmdStore tag rest true
           else if beq name (lit "SEARCH") then cmdSearch tag rest true
           else if beq name (lit "COPY") then cmdCopy tag rest true
           else if beq name (lit "EXPUNGE") then cmdUIDExpunge tag rest
           else if beq name (lit "MOVE") then cmdMove tag rest true
           else if beq name (lit "SORT") then cmdSort tag rest true
           else if beq name (lit "THREAD") then cmdThread tag rest true
           else respond_bad tag (lit "UID " ++ sub ++ lit " not supported")
       end.
End messages.

(** ** Access control lists ([acl.go]) *)

(** The right letters l r s w i p k x t e a *)
Definition aclRights : list (Z * Z) :=
  [(108, FrightsVisible); (114, FrightsReadAny); (115, FrightsReadAny); (119, FrightsEditAny); (105, FrightsCreate);
   (112, FrightsCreate); (107, FrightsCreateSubfolder); (120, FrightsOwner); (116, FrightsDeleteAny); (101, FrightsDeleteAny);
   (97, FrightsOwner)].
Definition rightsToACL (r : Z) : bytes := map fst (List.filter (fun m => negb (Z.land r (snd m) =? 0)) aclRights).
Definition aclToRights (s : bytes) : Z :=
  fold_left (fun r b => fold_left (fun r m => if b =? fst m then Z.lor r (snd m) else r) aclRights r) s 0.

Definition currentACLRights (entries : list PermissionEntry) (id : bytes) : Z :=
  match List.find (fun e => beq (pe_Name e) id) entries with Some e => pe_Rights e | None => 0 end.
Definition aclMemberID (entries : list PermissionEntry) (id : bytes) : Z :=
  match List.find (fun e => beq (pe_Name e) id) entries with Some e => pe_MemberID e | None => 0 end.

(** The rights a SETACL stores, from the member's current ones *)
Definition setacl_rights (current : Z) (rightsStr : bytes) : Z :=
  let new := if HasPrefix rightsStr (lit "+") then Z.lor current (aclToRights (drop 1 rightsStr))
             else if HasPrefix rightsStr (lit "-") then Z.ldiff current (aclToRights (drop 1 rightsStr))
             else aclToRights rightsStr in
  NormalizeRights (Z.land new RightsMaxROP) false.

Section acl.
Context {W : Type} `{!ImapStore W}.
Context (OpenForCaller : W -> bytes -> option bytes).

(** The store and folder of a mailbox name, and whether it is the caller's own *)
Definition resolveACLFolder (name : bytes) : act W (option (bytes * Z * bool)) :=
  match isPublicName name with
  | Some sub =>
      r <-- resolvePublicFolder OpenForCaller sub ;;
      match r with
      | None => ok_ None
      | Some (f, _) => path <-- deref c_pubStore ;; ok_ (Some (path, fi_ID f, false))
      end
  | None =>
      t <-- load_tree ;;
      match t with
      | None => ok_ None
      | Some tree =>
          match resolve tree name with
          | None => ok_ None
          | Some n => path <-- deref c_st ;; ok_ (Some (path, fi_ID (fn_info n), true))
          end
      end
  end.

Definition cmdMyRights (tag : bytes) (args : list token) : act W unit :=
  c <-- the_conn ;;
  if bool_decide (c_state c = stateNotAuth) then respond_no tag (lit "must authenticate first")
  else match arg0 args with
       | None => respond_bad tag (lit "MYRIGHTS requires a mailbox")
       | Some name =>
           r <-- resolveACLFolder name ;;
           match r with
           | None => respond_no tag (lit "no such mailbox")
           | Some (path, fid, ownPrivate) =>
               rights <-- (if ownPrivate : bool then ok_ RightsAll
                           else ask (fun st => default 0 (ResolvePermission st path fid (c_user c)))) ;;
               untagged (lit "MYRIGHTS " ++ safeQuoted name ++ lit " " ++ rightsToACL rights) ;;;
               respond_ok tag (lit "MYRIGHTS completed")
           end
       end.

Definition acl_part (name : bytes) (rights : Z) : bytes := safeQuoted name ++ lit " " ++ rightsToACL rights.
Definition cmdGetACL (tag : bytes) (args : list token) : act W unit :=
  c <-- the_conn ;;
  if bool_decide (c_state c = stateNotAuth) then respond_no tag (lit "must authenticate first")
  else match arg0 args with
       | None => respond_bad tag (lit "GETACL requires a mailbox")
       | Some name =>
           r <-- resolveACLFolder name ;;
           match r with
           | None => respond_no tag (lit "no such mailbox")
           | Some (path, fid, ownPrivate) =>
               entries <-- ask (fun st => ListPermissions st path fid) ;;
               owner <-- ask (fun st => (ownPrivate : bool) || IsStoreOwner st path (c_user c)) ;;
               let parts := map (fun e => acl_part (pe_Name e) (pe_Rights e)) entries in
               let listed := existsb (fun e => beq (pe_Name e) (c_user c)) entries in
               let parts := if owner && negb listed then acl_part (c_user c) RightsAll :: parts else parts in
               untagged (lit "ACL " ++ safeQuoted name ++ lit " " ++ Join parts (lit " ")) ;;;
               respond_ok tag (lit "GETACL completed")
           end
       end.

(** The folder a caller may administer; [None] when a refusal was sent *)
Definition aclAdminTarget (tag : bytes) (args : list token) : act W (option (bytes * Z)) :=
  c <-- the_conn ;;
  if bool_decide (c_state c = stateNotAuth) then respond_no tag (lit "must authenticate first") ;;; ok_ None
  else match arg0 args with
       | None => respond_bad tag (lit "ACL command requires a mailbox") ;;; ok_ None
       | Some name =>
           r <-- resolveACLFolder name ;;
           match r with
           | None => respond_no tag (lit "no such mailbox") ;;; ok_ None
           | Some (path, fid, ownPrivate) =>
               rights <-- (if ownPrivate : bool then ok_ FrightsOwner
                           else ask (fun st => default 0 (ResolvePermission st path fid (c_user c)))) ;;
               if Z.land rights FrightsOwner =? 0
               then respond_no tag (lit "[ACL] insufficient rights to administer this mailbox") ;;; ok_ None
               else ok_ (Some (path, fid))
           end
       end.

Definition cmdSetACL (tag : bytes) (args : list token) : act W unit :=
  r <-- aclAdminTarget tag args ;;
  match r with
  | None => ok_ tt
  | Some (path, fid) =>
      match argN args 1, argN args 2 with
      | Some id, Some rightsStr =>
          success <-- write (fun st =>
            let current := currentACLRights (ListPermissions st path fid) id in
            ModifyPermissions st path fid false [mkChange PermAdd 0 id (setacl_rights current rightsStr)]) ;;
          if success : bool then respond_ok tag (lit "SETACL completed") else respond_no tag (lit "cannot set ACL")
      | _, _ => respond_bad tag (lit "SETACL requires a mailbox, identifier, and rights")
      end
  end.

Definition cmdDeleteACL (tag : bytes) (args : list token) : act W unit :=
  r <-- aclAdminTarget tag args ;;
  match r with
  | None => ok_ tt
  | Some (path, fid) =>
      match argN args 1 with
      | Some id =>
          success <-- write (fun st =>
            ModifyPermissions st path fid false [mkChange PermRemove (aclMemberID (ListPermissions st path fid) id) id 0]) ;;
          if success : bool then respond_ok tag (lit "DELETEACL completed") else respond_no tag (lit "cannot delete ACL")
      | None => respond_bad tag (lit "DELETEACL requires a mailbox and identifier")
      end
  end.

Definition cmdListRights (tag : bytes) (args : list token) : act W unit :=
  c <-- the_conn ;;
  if bool_decide (c_state c = stateNotAuth) then respond_no tag (lit "must authenticate first")
  else match arg0 args, argN args 1 with
       | Some name, Some id =>
           r <-- resolveACLFolder name ;;
           match r with
           | None => respond_no tag (lit "no such mailbox")
           | Some _ =>
               untagged (lit "LISTRIGHTS " ++ safeQuoted name ++ lit " " ++ safeQuoted id ++ lit " l r s w i p k x t e a") ;;;
               respond_ok tag (lit "LISTRIGHTS completed")
           end
       | _, _ => respond_bad tag (lit "LISTRIGHTS requires a mailbox and identifier")
       end.

(** ** Quotas ([quota.go]) *)

Definition writeQuota (root : bytes) : act W unit :=
  path <-- deref c_st ;;
  q <-- ask (fun st => GetQuota st path) ;;
  used <-- ask (fun st => MailboxSize st path) ;;
  let limitKB := if q_StorageKB q =? 0 then q_ReceiveKB q else q_StorageKB q in
  untagged (lit "QUOTA " ++ safeQuoted root ++
            if limitKB =? 0 then lit " ()"
            else lit " (STORAGE " ++ dec (Z.quot used 1024) ++ lit " " ++ dec limitKB ++ lit ")").

Definition cmdGetQuotaRoot (tag : bytes) (args : list token) : act W unit :=
  c <-- the_conn ;;
  if bool_decide (c_state c = stateNotAuth) then respond_no tag (lit "must authenticate first")
  else match arg0 args with
       | None => respond_bad tag (lit "GETQUOTAROOT requires a mailbox")
       | Some mailbox =>
           untagged (lit "QUOTAROOT " ++ safeQuoted mailbox ++ lit " " ++ quoteString []) ;;;
           writeQuota [] ;;; respond_ok tag (lit "GETQUOTAROOT completed")
       end.
Definition cmdGetQuota (tag : bytes) (args : list token) : act W unit :=
  c <-- the_conn ;;
  if bool_decide (c_state c = stateNotAuth) then respond_no tag (lit "must authenticate first")
  else match arg0 args with
       | None => respond_bad tag (lit "GETQUOTA requires a quota root")
       | Some [] => writeQuota [] ;;; respond_ok tag (lit "GETQUOTA completed")
       | Some _ => respond_no tag (lit "no such quota root")
       end.
Definition cmdSetQuota (tag : bytes) : act W unit :=
  c <-- the_conn ;;
  if bool_decide (c_state c = stateNotAuth) then respond_no tag (lit "must authenticate first")
  else respond_no tag (lit "setting quota is not permitted").
End acl.

(** ** Logging in *)

(** The clock readings of one command: two for [Allowed], two for [Fail] *)
Record readings := mkReadings { rd_1 : Z; rd_2 : Z; rd_3 : Z; rd_4 : Z }.

Definition decodeSASLPlain (b64 : bytes) : option (bytes * bytes) :=
  raw ← b64_DecodeString b64;
  match Split raw 0 with [_; user; pass] => Some (user, pass) | _ => None end.

Section login.
Context {W : Type} `{!ImapStore W}.
(** [strings.ToLower]; the directory's password check and its POP3/IMAP privilege; whether TLS
    is configured, and the peer's address *)
Context (ToLower : bytes -> bytes) (AuthenticateClient : bytes -> bytes -> option bytes) (POP3IMAP : bytes -> bool).
Context (tlsConfig : bool) (addr : bytes) (t : readings).

Definition finishAuth (tag user pass : bytes) : act W unit :=
  allowed <-- throttle (fun l =>
    (l, match l with Some l => Allowed TrimSpace ToLower l (rd_1 t) (rd_2 t) addr user | None => true end)) ;;
  if negb allowed then respond_no tag (lit "[AUTHENTICATIONFAILED] too many failed attempts, try again later")
  else match AuthenticateClient user pass with
       | None =>
           throttle (fun l => ((fun l => Fail TrimSpace ToLower l (rd_3 t) (rd_4 t) addr user) <$> l, tt)) ;;;
           respond_no tag (lit "[AUTHENTICATIONFAILED] invalid credentials")
       | Some path =>
           throttle (fun l => ((fun l => Succeed TrimSpace ToLower l addr user) <$> l, tt)) ;;;
           if negb (POP3IMAP user) then respond_no tag (lit "[AUTHORIZATIONFAILED] IMAP access is disabled for this account")
           else
             opened <-- ask (fun st => store_Open st path) ;;
             if negb opened then respond_no tag (lit "mailbox unavailable")
             else
               update (set_login user path) ;;;
               c <-- the_conn ;;
               respond_ok tag (lit "[CAPABILITY " ++ caps tlsConfig c ++ lit "] LOGIN completed")
       end.

Definition cmdLogin (tag : bytes) (args : list token) : act W unit :=
  c <-- the_conn ;;
  if negb (bool_decide (c_state c = stateNotAuth)) then respond_no tag (lit "already authenticated")
  else if len args <? 2 then respond_bad tag (lit "LOGIN requires a username and password")
  else finishAuth tag (arg_text args 0) (arg_text args 1).

(** The line limit of the connection's reader *)
Definition reader_maxLine (c : conn) (w : world W) : option Z := if c_capped c then Some (wd_maxCommandLine w) else None.

Definition saslChallenge (challenge : bytes) : act W (option bytes) :=
  put (RCont challenge) ;;;
  fun s =>
    match readLine (reader_maxLine s.1 s.2) (c_rd s.1) with
    | (Ok line, r) => Some (if beq line (lit "*") then None else Some line, (set_rd r s.1, s.2))
    | (Err _, r) => Some (None, (set_rd r s.1, s.2))
    end.

(** The initial response of the command, or the answer to a challenge *)
Definition initial_response (args : list token) (challenge : bytes) : act W (option bytes) :=
  if 2 <=? len args then ok_ (Some (arg_text args 1)) else saslChallenge challenge.

Definition authPlain (tag : bytes) (args : list token) : act W unit :=
  resp <-- initial_response args [] ;;
  match resp with
  | None => respond_bad tag (lit "authentication cancelled")
  | Some resp =>
      match decodeSASLPlain resp with
      | None => respond_bad tag (lit "invalid SASL response")
      | Some (user, pass) => finishAuth tag user pass
      end
  end.

Definition authLogin (tag : bytes) (args : list token) : act W unit :=
  u <-- initial_response args (lit "VXNlcm5hbWU6") ;;
  match u with
  | None => respond_bad tag (lit "authentication cancelled")
  | Some u =>
      match b64_DecodeString u with
      | None => respond_bad tag (lit "invalid base64")
      | Some user =>
          p <-- saslChallenge (lit "UGFzc3dvcmQ6") ;;
          match p with
          | None => respond_bad tag (lit "authentication cancelled")
          | Some p =>
              match b64_DecodeString p with
              | None => respond_bad tag (lit "invalid base64")
              | Some pass => finishAuth tag user pass
              end
          end
      end
  end.

Definition cmdAuthenticate (tag : bytes) (args : list token) : act W unit :=
  c <-- the_conn ;;
  if negb (bool_decide (c_state c = stateNotAuth)) then respond_no tag (lit "already authenticated")
  else
    let mech := ToUpper (arg_text args 0) in
    if beq mech (lit "PLAIN") then authPlain tag args
    else if beq mech (lit "LOGIN") then authLogin tag args
    else respond_no tag (lit "unsupported authentication mechanism").

(** ** STARTTLS, COMPRESS, ENABLE *)

Definition cmdStartTLS (tag : bytes) : act W unit :=
  c <-- the_conn ;;
  if negb tlsConfig then respond_no tag (lit "STARTTLS not available")
  else if c_isTLS c then respond_bad tag (lit "TLS already active")
  else if negb (bool_decide (c_state c = stateNotAuth)) then respond_bad tag (lit "STARTTLS only allowed before login")
  else match c_upgrade c with
       | Pipelined => update (set_state stateLogout)
       | HandshakeFails => respond_ok tag (lit "Begin TLS negotiation now") ;;; update (set_state stateLogout)
       | Handshake inner => respond_ok tag (lit "Begin TLS negotiation now") ;;; update (set_tls inner)
       end.

Definition cmdCompress (tag : bytes) (args : list token) : act W unit :=
  c <-- the_conn ;;
  let deflate := match args with a :: _ => isAtom a (lit "DEFLATE") | [] => false end in
  if negb deflate then respond_bad tag (lit "unsupported compression mechanism")
  else if c_compressed c then respond_no tag (lit "[COMPRESSIONACTIVE] compression already active")
  else respond_ok tag (lit "DEFLATE active") ;;; update set_compressed.

Definition enable_one (a : token) : act W (list bytes) :=
  let n := ToUpper (tk_val a) in
  if beq n (lit "CONDSTORE") then update set_condstore ;;; ok_ [n]
  else if beq n (lit "QRESYNC") then update (fun c => set_qresync (set_condstore c)) ;;; ok_ [n]
  else ok_ [].
Fixpoint enable_all (args : list token) : act W (list bytes) :=
  match args with
  | [] => ok_ []
  | a :: args => e <-- enable_one a ;; es <-- enable_all args ;; ok_ (e ++ es)
  end.
Definition cmdEnable (tag : bytes) (args : list token) : act W unit :=
  c <-- the_conn ;;
  if bool_decide (c_state c = stateNotAuth) then respond_no tag (lit "must authenticate first")
  else
    enabled <-- enable_all args ;;
    (match enabled with [] => ok_ tt | _ => untagged (lit "ENABLED " ++ Join enabled (lit " ")) end) ;;;
    respond_ok tag (lit "ENABLE completed").

Definition cmdCapability (tag : bytes) : act W unit :=
  c <-- the_conn ;; untagged (lit "CAPABILITY " ++ caps tlsConfig c) ;;; respond_ok tag (lit "CAPABILITY completed").
Definition cmdID (tag : bytes) : act W unit :=
  untagged (lit "ID (" ++ quoteString (lit "name") ++ lit " " ++ quoteString (lit "hermEX") ++ lit ")") ;;; respond_ok tag (lit "ID completed").
End login.

(** ** The dispatcher and the session *)

(** What the session calls outside the package *)
Record services (W : Type) := mkServices {
  sv_ToLower : bytes -> bytes;
  sv_header_values : bytes -> bytes -> list bytes;
  sv_ParseDate : bytes -> option date;
  sv_ParseInstant : bytes -> option Z;
  sv_arrival : MessageInfo -> Z;
  sv_ParseAddress : bytes -> option bytes;
  sv_parse_datetime : bytes -> option (date * Z);
  sv_format_date : date -> Z -> bytes;
  sv_Extract : bytes -> Section_ -> option bytes;
  sv_extractBinary : bytes -> list Z -> option bytes;
  sv_bodystructure : bool -> bytes -> bytes;
  sv_envelope : bytes -> bytes;
  sv_ScanStored : W -> bytes -> bytes -> W * bool;
  sv_OpenForCaller : W -> bytes -> option bytes;
  sv_AuthenticateClient : bytes -> bytes -> option bytes;
  sv_POP3IMAP : bytes -> bool;
  sv_tlsConfig : bool;
  sv_addr : bytes }.
Arguments mkServices {W}.
Arguments sv_ToLower {W}.
Arguments sv_header_values {W}.
Arguments sv_ParseDate {W}.
Arguments sv_ParseInstant {W}.
Arguments sv_arrival {W}.
Arguments sv_ParseAddress {W}.
Arguments sv_parse_datetime {W}.
Arguments sv_format_date {W}.
Arguments sv_Extract {W}.
Arguments sv_extractBinary {W}.
Arguments sv_bodystructure {W}.
Arguments sv_envelope {W}.
Arguments sv_ScanStored {W}.
Arguments sv_OpenForCaller {W}.
Arguments sv_AuthenticateClient {W}.
Arguments sv_POP3IMAP {W}.
Arguments sv_tlsConfig {W}.
Arguments sv_addr {W}.

(** When a command runs: the clock, and what the process does around an IDLE *)
Record moment (W : Type) := mkMoment { mo_now : date * Z; mo_readings : readings; mo_wakes : list (world W -> world W) }.
Arguments mkMoment {W}.
Arguments mo_now {W}.
Arguments mo_readings {W}.
Arguments mo_wakes {W}.

Section session.
Context {W : Type} `{!ImapStore W} (sv : services W).

Abbreviation fetch := (cmdFetch (sv_Extract sv) (sv_extractBinary sv) (sv_bodystructure sv) (sv_envelope sv) (sv_format_date sv)).
Abbreviation search := (cmdSearch (sv_ToLower sv) (sv_header_values sv) (sv_ParseDate sv)).
Abbreviation uid_ := (cmdUID (sv_OpenForCaller sv) (sv_Extract sv) (sv_extractBinary sv) (sv_bodystructure sv) (sv_envelope sv)
  (sv_format_date sv) (sv_ToLower sv) (sv_header_values sv) (sv_ParseDate sv) (sv_ParseInstant sv) (sv_arrival sv) (sv_ParseAddress sv)).
Abbreviation sort_ := (cmdSort (sv_ToLower sv) (sv_header_values sv) (sv_ParseDate sv) (sv_ParseInstant sv) (sv_arrival sv) (sv_ParseAddress sv)).
Abbreviation thread := (cmdThread (sv_ToLower sv) (sv_header_values sv) (sv_ParseDate sv) (sv_ParseInstant sv) (sv_arrival sv)).

(** The routing table *)
Definition imapCommands (k : moment W) : list (bytes * (bytes -> list token -> act W unit)) :=
  [(lit "CAPABILITY", fun tag _ => cmdCapability (sv_tlsConfig sv) tag);
   (lit "ID", fun tag _ => cmdID tag);
   (lit "COMPRESS", cmdCompress);
   (lit "ENABLE", cmdEnable);
   (lit "STARTTLS", fun tag _ => cmdStartTLS (sv_tlsConfig sv) tag);
   (lit "NOOP", fun tag _ => cmdNoop tag);
   (lit "IDLE", fun tag _ => cmdIdle (mo_wakes k) tag);
   (lit "LOGOUT", fun tag _ => cmdLogout tag);
   (lit "LOGIN", cmdLogin (sv_ToLower sv) (sv_AuthenticateClient sv) (sv_POP3IMAP sv) (sv_tlsConfig sv) (sv_addr sv) (mo_readings k));
   (lit "AUTHENTICATE", cmdAuthenticate (sv_ToLower sv) (sv_AuthenticateClient sv) (sv_POP3IMAP sv) (sv_tlsConfig sv) (sv_addr sv) (mo_readings k));
   (lit "SELECT", fun tag args => cmdSelect (sv_OpenForCaller sv) tag args false);
   (lit "EXAMINE", fun tag args => cmdSelect (sv_OpenForCaller sv) tag args true);
   (lit "LIST", fun tag args => cmdList (sv_OpenForCaller sv) tag args false);
   (lit "LSUB", fun tag args => cmdList (sv_OpenForCaller sv) tag args true);
   (lit "NAMESPACE", fun tag _ => cmdNamespace tag);
   (lit "STATUS", cmdStatus (sv_OpenForCaller sv));
   (lit "MYRIGHTS", cmdMyRights (sv_OpenForCaller sv));
   (lit "GETACL", cmdGetACL (sv_OpenForCaller sv));
   (lit "SETACL", cmdSetACL (sv_OpenForCaller sv));
   (lit "DELETEACL", cmdDeleteACL (sv_OpenForCaller sv));
   (lit "LISTRIGHTS", cmdListRights (sv_OpenForCaller sv));
   (lit "GETQUOTA", cmdGetQuota);
   (lit "GETQUOTAROOT", cmdGetQuotaRoot);
   (lit "SETQUOTA", fun tag _ => cmdSetQuota tag);
   (lit "CREATE", cmdCreate);
   (lit "DELETE", cmdDelete);
   (lit "RENAME", cmdRename);
   (lit "SUBSCRIBE", fun tag args => cmdSubscribe tag args true);
   (lit "UNSUBSCRIBE", fun tag args => cmdSubscribe tag args false);
   (lit "CHECK", fun tag _ => cmdCheck tag);
   (lit "FETCH", fun tag args => fetch tag args false);
   (lit "STORE", fun tag args => cmdStore tag args false);
   (lit "SEARCH", fun tag args => search tag args false);
   (lit "SORT", fun tag args => sort_ tag args false);
   (lit "THREAD", fun tag args => thread tag args false);
   (lit "COPY", fun tag args => cmdCopy (sv_OpenForCaller sv) tag args false);
   (lit "MOVE", fun tag args => cmdMove (sv_OpenForCaller sv) tag args false);
   (lit "APPEND", cmdAppend (sv_OpenForCaller sv) (sv_ScanStored sv) (sv_parse_datetime sv) (mo_now k));
   (lit "EXPUNGE", fun tag _ => cmdExpunge tag);
   (lit "CLOSE", fun tag _ => cmdClose tag);
   (lit "UNSELECT", fun tag _ => cmdUnselect tag);
   (lit "UID", uid_)].

Definition dispatch (k : moment W) (toks : list token) : act W unit :=
  match toks with
  | [] => ok_ tt
  | t :: rest =>
      match tok_str t with
      | None => respond_bad (lit "*") (lit "missing tag")
      | Some tag =>
          match rest with
          | [] => respond_bad tag (lit "missing command")
          | n :: args =>
              match find_key (imapCommands k) (ToUpper (default [] (tok_str n))) with
              | None => respond_bad tag (lit "unknown or unimplemented command")
              | Some handler => handler tag args
              end
          end
      end
  end.

(** Read one command: the continuation requests of its literals are written on the way. *)
Definition read_command : act W (result im_error (list token)) := fun s =>
  let '(r, rd') := readCommand (reader_maxLine s.1 s.2) (Some (wd_maxLiteral s.2)) (mkRd (rd_br (c_rd s.1)) (rd_lineBytes (c_rd s.1)) 0) in
  Some (r, (Nat.iter (rd_prompts rd') (emit (RCont (lit "Ready for literal data"))) (set_rd rd' s.1), s.2)).

(** One turn of the loop; the answer is whether the session goes on. *)
Definition handle_turn (k : moment W) : act W bool :=
  r <-- read_command ;;
  match r with
  | Err ErrLineTooLong => put (RUntagged (lit "BAD Command line too long")) ;;; ok_ true
  | Err _ => ok_ false
  | Ok toks => dispatch k toks ;;; c <-- the_conn ;; ok_ (negb (bool_decide (c_state c = stateLogout)))
  end.

(** Between two turns the rest of the process changes what is shared. *)
Context (moments : nat -> moment W) (others : nat -> world W -> world W).
Fixpoint handle_loop (fuel k : nat) : act W unit :=
  match fuel with
  | O => ok_ tt
  | S fuel =>
      wake (others k) ;;;
      more <-- handle_turn (moments k) ;;
      if more : bool then handle_loop fuel (S k) else ok_ tt
  end.

(** The bytes the client will ever send; a turn reads one or ends the session. *)
Definition total_input (input : bytes) (up : upgrade) (inflate : bytes) : nat :=
  (length input + length inflate + match up with Handshake inner => length inner | _ => 0 end + 3)%nat.
Definition handle (input : bytes) (isTLS : bool) (up : upgrade) (inflate : bytes) (w : world W) : option (unit * (conn * world W)) :=
  let c := new_conn input isTLS up inflate in
  handle_loop (total_input input up inflate) 0
    (emit (RUntagged (lit "OK [CAPABILITY " ++ caps (sv_tlsConfig sv) c ++ lit "] hermEX IMAP4rev1 ready")) c, w).
End session.
