(* ===== verification/Imapsync.v ===== *)
(** * IMAP: the client's view of the selected mailbox

    A client numbers the messages of the selected mailbox by the replies it has seen.  The
    theorems say that after a poll, and after an EXPUNGE whose deletions succeed, the client's
    numbering is the server's; a deletion that fails breaks it. *)

From stdpp Require Import base list numbers gmap.
From Stdlib Require Import ZArith Lia Sorted.
From Stdlib Require String.
Import String.StringSyntax.
From S2P Require Import Prelude Gostr Netline Imaplex Imapsearch ImapsearchProofs Imapses.
Open Scope Z_scope.

(** ** The client *)

(** A slot of the client's view: the message it knows there, or a message announced only *)
Abbreviation view := (list (option Z)).

(** What a reply does to the view; [None] is a reply that makes no sense to the client. *)
Definition client_step (v : view) (r : resp) : option view :=
  match r with
  | RExpunge n => if (1 <=? n) && (n <=? len v) then Some (delete (Z.to_nat (n - 1)) v) else None
  | RExists n => if len v <=? n then Some (v ++ repeat None (Z.to_nat (n - len v))) else None
  | RVanished uids => Some (List.filter (fun s => match s with Some u => negb (existsb (Z.eqb u) uids) | None => true end) v)
  | _ => Some v
  end.
Fixpoint client_run (v : view) (rs : list resp) : option view :=
  match rs with
  | [] => Some v
  | r :: rs => v ← client_step v r; client_run v rs
  end.

(** The view agrees with the server's snapshot: the same number of messages, and every message
    the client knows is where the client thinks it is. *)
Definition agrees (v : view) (msgs : list MessageInfo) : Prop :=
  Forall2 (fun s m => s = None \/ s = Some (mi_UID m)) v msgs.

Lemma client_run_app v rs1 rs2 : client_run v (rs1 ++ rs2) = (v ← client_run v rs1; client_run v rs2).
Proof. revert v. induction rs1 as [|r rs1 IH]; intros v; simpl; [done|]. destruct (client_step v r); simpl; [apply IH|done]. Qed.

Lemma agrees_len v msgs : agrees v msgs -> len v = len msgs.
Proof. intros H. unfold len. by rewrite (Forall2_length _ _ _ H). Qed.

(** An EXPUNGE removes the message with that number from both. *)
Lemma expunge_step v1 v2 s n : n = len v1 + 1 -> client_step (v1 ++ s :: v2) (RExpunge n) = Some (v1 ++ v2).
Proof.
  intros ->. simpl. pose proof (len_nonneg v1). pose proof (len_nonneg v2). rewrite len_app, len_cons.
  rewrite (proj2 (Z.leb_le 1 _)), (proj2 (Z.leb_le (len v1 + 1) _)) by lia. simpl.
  replace (Z.to_nat (len v1 + 1 - 1)) with (length v1) by (unfold len; lia). by rewrite delete_middle.
Qed.

(** ** Polling *)

(** How a folder evolves between two listings: UIDs are assigned upward. *)
Record grown (old fresh : list MessageInfo) : Prop := {
  grown_sorted : StronglySorted Z.lt (map mi_UID fresh);
  grown_old : StronglySorted Z.lt (map mi_UID old);
  grown_new : forall m, m ∈ fresh -> mi_UID m ∉ map mi_UID old -> forall o, o ∈ old -> mi_UID o < mi_UID m }.

Lemma poll_view_run live v1 v2 old i :
  agrees v2 old -> i = len v1 ->
  exists v2', client_run (v1 ++ v2) (map RExpunge (poll_view live i old).2) = Some (v1 ++ v2')
    /\ agrees v2' (poll_view live i old).1.
Proof.
  intros H. revert v1 i. induction H as [|s m v2 old Hs H IH]; intros v1 i ->; simpl.
  - exists []. split; [done|constructor].
  - destruct (live (mi_UID m)) eqn:E.
    + destruct (IH (v1 ++ [s]) (len v1 + 1)) as (v2' & H1 & H2); [by rewrite len_app|].
      destruct (poll_view live (len v1 + 1) old) as [vw e]. simpl in *. exists (s :: v2').
      rewrite <- app_assoc in H1. simpl in H1. split; [by rewrite H1, <- app_assoc|]. by constructor.
    + destruct (IH v1 (len v1)) as (v2' & H1 & H2); [done|].
      destruct (poll_view live (len v1) old) as [vw e]. cbn [fst snd] in *. cbn [map client_run].
      rewrite expunge_step by done. exists v2'. done.
Qed.

Lemma poll_view_filter live i old : (poll_view live i old).1 = List.filter (fun m => live (mi_UID m)) old.
Proof.
  revert i. induction old as [|m old IH]; intros i; simpl; [done|]. destruct (live (mi_UID m)).
  - specialize (IH (i + 1)). destruct (poll_view live (i + 1) old). simpl in *. by rewrite IH.
  - specialize (IH i). destruct (poll_view live i old). simpl in *. done.
Qed.

(** Two ascending lists with the same elements are equal. *)
Lemma sorted_unique (a b : list Z) :
  StronglySorted Z.lt a -> StronglySorted Z.lt b -> (forall x, x ∈ a <-> x ∈ b) -> a = b.
Proof.
  intros Ha. revert b. induction Ha as [|x a Ha IH Hx]; intros b Hb E.
  - destruct b as [|y b]; [done|]. specialize (E y). set_solver.
  - destruct b as [|y b]; [specialize (E x); set_solver|]. apply StronglySorted_inv in Hb as [Hb Hy].
    rewrite List.Forall_forall in Hx, Hy.
    assert (x = y) as ->.
    { assert (x ∈ y :: b) as [->|H1]%elem_of_cons by (apply E; set_solver); [done|].
      assert (y ∈ x :: a) as [->|H2]%elem_of_cons by (apply E; set_solver); [done|].
      apply list_elem_of_In in H1, H2. specialize (Hx _ H2). specialize (Hy _ H1). lia. }
    f_equal. apply IH; [done|]. intros z. split; intros Hz.
    + assert (z ∈ y :: b) as [->|?]%elem_of_cons by (apply E; set_solver); [|done].
      apply list_elem_of_In in Hz. specialize (Hx _ Hz). lia.
    + assert (z ∈ y :: a) as [->|?]%elem_of_cons by (apply E; set_solver); [|done].
      apply list_elem_of_In in Hz. specialize (Hy _ Hz). lia.
Qed.

Lemma sorted_app_lt (a b : list Z) :
  StronglySorted Z.lt a -> StronglySorted Z.lt b -> (forall x y, x ∈ a -> y ∈ b -> x < y) -> StronglySorted Z.lt (a ++ b).
Proof.
  intros Ha Hb H. induction Ha as [|x a Ha IH Hx]; [done|]. simpl. constructor; [apply IH; set_solver|].
  rewrite List.Forall_forall in *. intros y [Hy|Hy]%in_app_iff; [by apply Hx|]. apply H; [set_solver|by apply list_elem_of_In].
Qed.

Lemma sorted_filter_uids (p : MessageInfo -> bool) msgs :
  StronglySorted Z.lt (map mi_UID msgs) -> StronglySorted Z.lt (map mi_UID (List.filter p msgs)).
Proof.
  induction msgs as [|m msgs IH]; simpl; [done|]. intros [H1 H2]%StronglySorted_inv.
  destruct (p m); simpl; [|by apply IH]. constructor; [by apply IH|]. rewrite List.Forall_forall in *.
  intros x (y & <- & [Hy _]%filter_In)%in_map_iff. apply H2. by apply in_map.
Qed.

(** The listing is the surviving old messages followed by the new ones. *)
Lemma grown_split old fresh (live := fun uid => existsb (fun m => mi_UID m =? uid) fresh) :
  grown old fresh ->
  map mi_UID fresh = map mi_UID (List.filter (fun m => live (mi_UID m)) old)
                     ++ map mi_UID (List.filter (fun m => negb (existsb (fun o => mi_UID o =? mi_UID m) old)) fresh).
Proof.
  intros [Hf Ho Hn].
  assert (L : forall (l : list MessageInfo) u, existsb (fun m => mi_UID m =? u) l = true <-> u ∈ map mi_UID l).
  { intros l u. rewrite existsb_exists, list_elem_of_In, in_map_iff. setoid_rewrite Z.eqb_eq. firstorder. }
  apply sorted_unique; [done| |].
  - apply sorted_app_lt; [by apply sorted_filter_uids..|]. intros x y Hx Hy.
    apply list_elem_of_In, in_map_iff in Hx as (o & <- & [Ho1 _]%filter_In).
    apply list_elem_of_In, in_map_iff in Hy as (m & <- & [Hm1 Hm2]%filter_In).
    apply negb_true_iff, not_true_iff_false in Hm2. rewrite L in Hm2.
    apply (Hn m); [by apply list_elem_of_In|done|by apply list_elem_of_In].
  - intros x. rewrite elem_of_app, !list_elem_of_In, !in_map_iff. setoid_rewrite filter_In. split.
    + intros (m & <- & Hm). destruct (existsb (fun o => mi_UID o =? mi_UID m) old) eqn:E.
      * left. apply L, list_elem_of_In, in_map_iff in E as (o & Eo & Hin). exists o. split_and!; [done..|].
        rewrite Eo. apply L, list_elem_of_In, in_map_iff. eauto.
      * right. exists m. rewrite E. done.
    + intros [(o & <- & Hin & H)|(m & <- & Hm & _)]; [|eauto]. apply L, list_elem_of_In, in_map_iff in H. done.
Qed.

Lemma agrees_uids v msgs msgs' : agrees v msgs -> map mi_UID msgs = map mi_UID msgs' -> agrees v msgs'.
Proof.
  intros H. revert msgs'. induction H as [|s m v msgs Hs H IH]; intros [|m' msgs'] E; simpl in E; try done; [constructor|].
  injection E as E1 E2. constructor; [by rewrite <- E1|by apply IH].
Qed.

Lemma agrees_unknown (msgs : list MessageInfo) : agrees (repeat None (length msgs)) msgs.
Proof. induction msgs; simpl; constructor; auto. Qed.
Lemma agrees_app v1 v2 m1 m2 : agrees v1 m1 -> agrees v2 m2 -> agrees (v1 ++ v2) (m1 ++ m2).
Proof. apply Forall2_app. Qed.

(** The replies of a poll, from the old and the fresh listing *)
Definition poll_replies (old fresh : list MessageInfo) : list resp :=
  let '(view, gone) := poll_view (fun uid => existsb (fun m => mi_UID m =? uid) fresh) 0 old in
  map RExpunge gone ++ (if len fresh =? len view then [] else [RExists (maxSeq fresh); RRecent]).

Lemma poll_replies_sync v old fresh :
  agrees v old -> grown old fresh -> len fresh < 2 ^ 32 ->
  exists v', client_run v (poll_replies old fresh) = Some v' /\ agrees v' fresh.
Proof.
  intros Hv Hg Hl. unfold poll_replies. set (live := fun uid => existsb (fun m => mi_UID m =? uid) fresh).
  destruct (poll_view_run live [] v old 0 Hv) as (v' & Hrun & Ha); [done|].
  pose proof (poll_view_filter live 0 old) as Hf. pose proof (grown_split old fresh Hg) as Hs. fold live in Hs.
  rewrite <- Hf in Hs. destruct (poll_view live 0 old) as [vw gone]. cbn [fst snd app] in *.
  set (new := List.filter _ fresh) in Hs. rewrite client_run_app. simpl in Hrun. rewrite Hrun. cbn [mbind option_bind].
  assert (Hlen : len fresh = len vw + len new).
  { apply (f_equal length) in Hs. rewrite length_app, !length_map in Hs. unfold len. lia. }
  pose proof (agrees_len _ _ Ha) as Hal. pose proof (len_nonneg new). destruct (Z.eqb_spec (len fresh) (len vw)) as [E|E].
  - exists v'. split; [done|]. eapply agrees_uids; [exact Ha|].
    assert (new = []) as Hnew by (destruct new; [done|unfold len in *; simpl in *; lia]). rewrite Hs, Hnew. simpl. by rewrite app_nil_r.
  - unfold maxSeq, u32. rewrite Z.mod_small by (split; [apply len_nonneg|done]). cbn [client_run client_step].
    rewrite (proj2 (Z.leb_le (len v') (len fresh))) by lia. simpl. eexists. split; [done|].
    apply (agrees_uids _ (vw ++ new)); [|by rewrite map_app].
    replace (Z.to_nat (len fresh - len v')) with (length new) by (unfold len in *; lia).
    apply agrees_app; [done|apply agrees_unknown].
Qed.

(** ** Writing replies *)

(** A run of replies changes nothing but the output. *)
Definition emits (rs : list resp) (c : conn) : conn := fold_left (fun c r => emit r c) rs c.

Lemma emits_out rs c : c_out (emits rs c) = c_out c ++ rs.
Proof. revert c. induction rs as [|r rs IH]; intros c; simpl; [by rewrite app_nil_r|]. rewrite IH. simpl. by rewrite <- app_assoc. Qed.
Lemma emits_app rs1 rs2 c : emits (rs1 ++ rs2) c = emits rs2 (emits rs1 c).
Proof. apply fold_left_app. Qed.

Section commands.
Context {W : Type} `{!ImapStore W}.

Lemma each_put {A} (f : A -> resp) l (s : conn * world W) :
  each (fun n => put (f n)) l s = Some (tt, (emits (map f l) s.1, s.2)).
Proof. revert s. induction l as [|a l IH]; intros [c w]; simpl; [done|]. unfold then_ at 1. simpl. by rewrite IH. Qed.

(** [poll] writes its replies and takes the fresh listing. *)
Lemma poll_run (c : conn) (w : world W) sel path fresh :
  c_state c = stateSelected -> c_sel c = Some sel -> curStore c = Some path ->
  loadMailbox (wd_store w) path (sl_id sel) (sl_path sel) = Some fresh ->
  poll (c, w) = Some (tt, (set_sel (Some fresh) (emits (poll_replies (sl_msgs sel) (sl_msgs fresh)) c), w)).
Proof.
  intros Hst Hsel Hp Hl. unfold poll, poll_replies.
  cbv [then_ the_conn fst snd]. rewrite bool_decide_eq_true_2, Hsel by done.
  cbv [deref fst]. rewrite Hp. cbv [ask snd]. rewrite Hl.
  destruct (poll_view _ 0 (sl_msgs sel)) as [vw gone]. rewrite each_put. cbn [fst snd]. rewrite emits_app.
  destruct (len (sl_msgs fresh) =? len vw); done.
Qed.

(** C19. Polling keeps the client in step: NOOP, CHECK and IDLE write EXPUNGE and EXISTS replies
    such that a client whose numbering agreed with the old snapshot agrees with the new one,
    every reply being one the client can follow, when the folder assigns UIDs upward. *)
Theorem poll_in_sync (c : conn) (w : world W) sel path fresh v :
  c_state c = stateSelected -> c_sel c = Some sel -> curStore c = Some path ->
  loadMailbox (wd_store w) path (sl_id sel) (sl_path sel) = Some fresh ->
  grown (sl_msgs sel) (sl_msgs fresh) -> len (sl_msgs fresh) < 2 ^ 32 ->
  agrees v (sl_msgs sel) ->
  exists c' rs v', poll (c, w) = Some (tt, (c', w)) /\ c_out c' = c_out c ++ rs /\ c_sel c' = Some fresh
    /\ client_run v rs = Some v' /\ agrees v' (sl_msgs fresh).
Proof.
  intros Hst Hsel Hp Hl Hg Hlen Hv. destruct (poll_replies_sync _ _ _ Hv Hg Hlen) as (v' & Hrun & Ha).
  rewrite (poll_run c w sel path fresh) by done. eexists _, (poll_replies (sl_msgs sel) (sl_msgs fresh)), v'.
  split_and!; [done| |done..]. simpl. apply emits_out.
Qed.

(** ** Expunging *)

(** Every deletion of the sweep succeeds. *)
Fixpoint deletions_succeed (st : W) (path : bytes) (id : Z) (p : MessageInfo -> bool) (msgs : list MessageInfo) : Prop :=
  match msgs with
  | [] => True
  | m :: msgs =>
      if p m then (SoftDeleteMessage st path id (mi_UID m)).2 = true
                  /\ deletions_succeed (SoftDeleteMessage st path id (mi_UID m)).1 path id p msgs
      else deletions_succeed st path id p msgs
  end.

Lemma sweep_survivors st path id p seq msgs :
  (sweep st path id p seq msgs).1.1.2 = List.filter (fun m => negb (p m)) msgs.
Proof.
  revert st seq. induction msgs as [|m msgs IH]; intros st seq; simpl; [done|]. destruct (p m); simpl.
  - destruct (SoftDeleteMessage st path id (mi_UID m)) as [st' b]. specialize (IH st' seq).
    destruct (sweep st' path id p seq msgs) as [[[? ?] ?] ?]. simpl in *. done.
  - specialize (IH st (u32 (seq + 1))). destruct (sweep st path id p (u32 (seq + 1)) msgs) as [[[? ?] ?] ?]. simpl in *. by rewrite IH.
Qed.

Lemma sweep_vanished st path id p seq msgs :
  deletions_succeed st path id p msgs -> (sweep st path id p seq msgs).1.2 = map mi_UID (List.filter p msgs).
Proof.
  revert st seq. induction msgs as [|m msgs IH]; intros st seq; simpl; [done|]. destruct (p m); simpl.
  - destruct (SoftDeleteMessage st path id (mi_UID m)) as [st' b]. simpl. intros [-> H]. specialize (IH st' seq H).
    destruct (sweep st' path id p seq msgs) as [[[? ?] ?] ?]. simpl in *. by rewrite IH.
  - intros H. specialize (IH st (u32 (seq + 1)) H). destruct (sweep st path id p (u32 (seq + 1)) msgs) as [[[? ?] ?] ?]. simpl in *. done.
Qed.

(** The EXPUNGE numbers of a sweep whose deletions succeed keep the client in step. *)
Lemma sweep_run st path id p msgs v1 v2 :
  deletions_succeed st path id p msgs -> agrees v2 msgs -> len v1 + len msgs + 1 < 2 ^ 32 ->
  exists v2', client_run (v1 ++ v2) (map RExpunge (sweep st path id p (len v1 + 1) msgs).2) = Some (v1 ++ v2')
    /\ agrees v2' (List.filter (fun m => negb (p m)) msgs).
Proof.
  intros Hd Hv. revert st v1 Hd. induction Hv as [|s m v2 msgs Hs Hv IH]; intros st v1 Hd Hl; simpl.
  - exists []. split; [done|constructor].
  - rewrite len_cons in Hl. pose proof (len_nonneg msgs). pose proof (len_nonneg v1). simpl in Hd. destruct (p m) eqn:Ep; simpl.
    + destruct Hd as [Hok Hd]. destruct (SoftDeleteMessage st path id (mi_UID m)) as [st' b]. simpl in *. subst b.
      destruct (IH st' v1 Hd) as (v2' & H1 & H2); [lia|]. destruct (sweep st' path id p (len v1 + 1) msgs) as [[[? ?] ?] ns].
      cbn [snd map client_run] in *. rewrite expunge_step by done. eauto.
    + destruct (IH st (v1 ++ [s]) Hd) as (v2' & H1 & H2); [rewrite len_app; unfold len in *; simpl; lia|].
      replace (u32 (len v1 + 1 + 1)) with (len (v1 ++ [s]) + 1).
      2: { rewrite len_app. unfold u32. rewrite Z.mod_small by lia. unfold len. simpl. lia. }
      destruct (sweep st path id p _ msgs) as [[[? ?] ?] ns]. cbn [snd] in *. exists (s :: v2').
      rewrite <- app_assoc in H1. simpl in H1. split; [by rewrite H1, <- app_assoc|]. by constructor.
Qed.

Lemma sweep_selected_run p report (c : conn) (w : world W) sel path :
  c_sel c = Some sel -> curStore c = Some path ->
  exists w', sweep_selected p report (c, w) =
    let r := sweep (wd_store w) path (sl_id sel) p 1 (sl_msgs sel) in
    Some (r.1.2, (set_sel (Some (set_msgs sel r.1.1.2)) (emits (if report then map RExpunge r.2 else []) c), w')).
Proof.
  intros Hsel Hp. unfold sweep_selected. cbv [then_ deref fst snd]. rewrite Hsel, Hp. unfold write. cbn [fst snd].
  destruct (sweep (wd_store w) path (sl_id sel) p 1 (sl_msgs sel)) as [[[st' sv] va] ns]. cbn [fst snd].
  eexists. destruct report; [by rewrite each_put|done].
Qed.

Lemma filter_all {A} (f : A -> bool) l : (forall x, f x = true) -> List.filter f l = l.
Proof. intros H. induction l as [|x l IH]; simpl; [done|]. by rewrite H, IH. Qed.

(** A VANISHED reply removes what it names. *)
Lemma vanished_filter (p : MessageInfo -> bool) msgs :
  NoDup (map mi_UID msgs) ->
  client_step (map (fun m => Some (mi_UID m)) msgs) (RVanished (map mi_UID (List.filter p msgs)))
  = Some (map (fun m => Some (mi_UID m)) (List.filter (fun m => negb (p m)) msgs)).
Proof.
  intros Hnd. simpl. f_equal. set (gone := map mi_UID (List.filter p msgs)).
  assert (G : forall m, m ∈ msgs -> existsb (Z.eqb (mi_UID m)) gone = p m).
  { intros m Hm. apply eq_true_iff_eq. rewrite existsb_exists. setoid_rewrite Z.eqb_eq. split.
    - intros (u & Hu & <-). apply in_map_iff in Hu as (m' & E & [Hm' Hp]%filter_In).
      replace m with m'; [done|]. apply list_elem_of_In in Hm'.
      apply list_elem_of_lookup in Hm as [i Hi]. apply list_elem_of_lookup in Hm' as [j Hj].
      assert (i = j) as ->; [|congruence]. eapply (NoDup_lookup _ i j (mi_UID m) Hnd); change (map mi_UID msgs) with (mi_UID <$> msgs);
        rewrite list_lookup_fmap; [by rewrite Hi|by rewrite Hj, <- E].
    - intros Hp. exists (mi_UID m). split; [|done]. apply in_map_iff. exists m. split; [done|]. apply filter_In. by rewrite <- list_elem_of_In. }
  clearbody gone. clear Hnd. induction msgs as [|m msgs IH]; [done|]. simpl. rewrite G by set_solver.
  destruct (p m); simpl; rewrite IH by set_solver; done.
Qed.

Lemma agrees_known msgs : agrees (map (fun m => Some (mi_UID m)) msgs) msgs.
Proof. induction msgs; simpl; constructor; auto. Qed.

(** EXPUNGE keeps the client in step when its deletions succeed: the replies of the command,
    EXPUNGE lines numbered against the shrinking mailbox or one VANISHED line for a QRESYNC
    client that knows the UIDs, take an agreeing view to one that agrees with the snapshot, and
    the snapshot is the messages that were not marked deleted. *)
Theorem expunge_in_sync (c : conn) (w : world W) sel path v tag :
  c_state c = stateSelected -> c_readOnly c = false -> c_sel c = Some sel -> curStore c = Some path ->
  deletions_succeed (wd_store w) path (sl_id sel) is_deleted (sl_msgs sel) ->
  NoDup (map mi_UID (sl_msgs sel)) -> len (sl_msgs sel) + 1 < 2 ^ 32 ->
  agrees v (sl_msgs sel) -> (c_qresync c = true -> v = map (fun m => Some (mi_UID m)) (sl_msgs sel)) ->
  exists c' w' rs v' sel', cmdExpunge tag (c, w) = Some (tt, (c', w')) /\ c_out c' = c_out c ++ rs
    /\ c_sel c' = Some sel' /\ sl_msgs sel' = List.filter (fun m => negb (is_deleted m)) (sl_msgs sel)
    /\ client_run v rs = Some v' /\ agrees v' (sl_msgs sel').
Proof.
  intros Hst Hro Hsel Hp Hd Hnd Hl Hv Hq. unfold cmdExpunge, doExpunge.
  cbv [then_ the_conn fst snd]. rewrite bool_decide_eq_true_2, Hro by done. cbn [negb].
  destruct (sweep_selected_run is_deleted (true && negb (c_qresync c)) c w sel path Hsel Hp) as [w' ->].
  pose proof (sweep_survivors (wd_store w) path (sl_id sel) is_deleted 1 (sl_msgs sel)) as Hsv.
  pose proof (sweep_vanished (wd_store w) path (sl_id sel) is_deleted 1 (sl_msgs sel) Hd) as Hva.
  destruct (sweep_run (wd_store w) path (sl_id sel) is_deleted (sl_msgs sel) [] v Hd Hv Hl) as (v' & Hrun & Ha).
  cbn [app] in Hrun. change (len (@nil (option Z)) + 1) with 1 in Hrun.
  destruct (sweep (wd_store w) path (sl_id sel) is_deleted 1 (sl_msgs sel)) as [[[st' sv] va] ns]. cbn [fst snd] in *. subst sv va.
  destruct (c_qresync c) eqn:Eq; cbn [andb negb].
  - rewrite (Hq eq_refl). pose proof (vanished_filter is_deleted (sl_msgs sel) Hnd) as Hvf.
    destruct (map mi_UID (List.filter is_deleted (sl_msgs sel))) as [|u us] eqn:Eg; cbn [report_vanished].
    + simpl in Hvf. eexists _, _, [_], _, _. split_and!; [reflexivity..|].
      rewrite filter_all in Hvf by (by intros []). injection Hvf as Hvf. rewrite Hvf. apply agrees_known.
    + eexists _, _, [_; _], _, _. split_and!; [reflexivity|simpl; by rewrite <- app_assoc|reflexivity..| |].
      { cbn [client_run]. rewrite Hvf. reflexivity. }
      apply agrees_known.
  - eexists _, _, (map RExpunge ns ++ [_]), v', _.
    split_and!; [reflexivity|simpl; rewrite emits_out, <- app_assoc; reflexivity|reflexivity..| |exact Ha].
    by rewrite client_run_app, Hrun.
Qed.
End commands.

(** ** A deletion that fails *)

Lemma client_run_expunges ns v v' : client_run v (map RExpunge ns) = Some v' -> len v' = len v - len ns.
Proof.
  revert v. induction ns as [|n ns IH]; intros v; simpl; [intros [= <-]; change (len (@nil Z)) with 0; lia|].
  destruct (_ && _) eqn:E; [|done]. bprop. simpl. intros Hr%IH. rewrite Hr, len_cons. unfold len in *.
  rewrite length_delete; [lia|]. apply lookup_lt_is_Some. lia.
Qed.

Section failure.
Context {W : Type} `{!ImapStore W}.

Lemma sweep_numbers st path id p seq msgs :
  len (sweep st path id p seq msgs).2 <= len (List.filter p msgs)
  /\ (~ deletions_succeed st path id p msgs -> len (sweep st path id p seq msgs).2 < len (List.filter p msgs)).
Proof.
  revert st seq. induction msgs as [|m msgs IH]; intros st seq; simpl; [done|]. destruct (p m); simpl.
  - destruct (SoftDeleteMessage st path id (mi_UID m)) as [st' b]. cbn [fst snd]. specialize (IH st' seq) as [I1 I2].
    destruct (sweep st' path id p seq msgs) as [[[? ?] ?] ns]. cbn [snd] in *. rewrite !len_cons.
    destruct b; rewrite ?len_cons; (split; [lia|]); intros H; [|lia]. enough (len ns < len (List.filter p msgs)) by lia. apply I2. tauto.
  - specialize (IH st (u32 (seq + 1))). destruct (sweep st path id p (u32 (seq + 1)) msgs) as [[[? ?] ?] ns]. done.
Qed.

(** A failed deletion breaks the numbering: EXPUNGE drops a marked message from the snapshot
    even when the store refused to delete it and no EXPUNGE reply was sent, so the client is
    left with more messages than the snapshot has, and its numbers name other messages. *)
Theorem failed_expunge_desyncs (c : conn) (w : world W) sel path v tag :
  c_state c = stateSelected -> c_readOnly c = false -> c_sel c = Some sel -> curStore c = Some path -> c_qresync c = false ->
  agrees v (sl_msgs sel) ->
  ~ deletions_succeed (wd_store w) path (sl_id sel) is_deleted (sl_msgs sel) ->
  exists c' w' rs sel', cmdExpunge tag (c, w) = Some (tt, (c', w')) /\ c_out c' = c_out c ++ rs /\ c_sel c' = Some sel'
    /\ forall v', client_run v rs = Some v' -> len (sl_msgs sel') < len v'.
Proof.
  intros Hst Hro Hsel Hp Hq Hv Hd. unfold cmdExpunge, doExpunge.
  cbv [then_ the_conn fst snd]. rewrite bool_decide_eq_true_2, Hro by done. cbn [negb].
  destruct (sweep_selected_run is_deleted (true && negb (c_qresync c)) c w sel path Hsel Hp) as [w' ->].
  pose proof (sweep_survivors (wd_store w) path (sl_id sel) is_deleted 1 (sl_msgs sel)) as Hsv.
  destruct (sweep_numbers (wd_store w) path (sl_id sel) is_deleted 1 (sl_msgs sel)) as [_ Hns]. specialize (Hns Hd).
  destruct (sweep (wd_store w) path (sl_id sel) is_deleted 1 (sl_msgs sel)) as [[[st' sv] va] ns]. cbn [fst snd] in *. subst sv.
  rewrite Hq. cbn [andb negb].
  eexists _, _, (map RExpunge ns ++ [_]), _.
  split_and!; [reflexivity|simpl; rewrite emits_out, <- app_assoc; reflexivity|reflexivity|].
  intros v'. rewrite client_run_app. destruct (client_run v (map RExpunge ns)) as [v1|] eqn:E; [|done]. simpl. intros [= <-].
  apply client_run_expunges in E. rewrite (agrees_len _ _ Hv) in E. cbn [sl_msgs set_msgs]. 
  pose proof (List.filter_length is_deleted (sl_msgs sel)) as F. unfold len in *. lia.
Qed.
End failure.

(** ** A store to run the session on *)

(** One folder of messages, kept in order; [refuse] is whether deletions fail. *)
Record folder_store := mkFolderStore { fs_msgs : list (MessageInfo * bytes); fs_refuse : bool }.
Definition fs_next (st : folder_store) : Z := 1 + foldr (fun m n => Z.max (mi_UID m.1) n) 0 (fs_msgs st).
Definition fs_set (f : list (MessageInfo * bytes) -> list (MessageInfo * bytes)) (st : folder_store) : folder_store :=
  mkFolderStore (f (fs_msgs st)) (fs_refuse st).
#[export] Instance folder_ImapStore : ImapStore folder_store := {|
  store_Open := fun _ _ => true;
  ListMessages := fun st _ _ => Some (map fst (fs_msgs st));
  UIDValidity := fun _ _ _ => Some 1;
  UIDNext := fun st _ _ => Some (fs_next st);
  GetMessageRaw := fun st _ _ uid => snd <$> List.find (fun m => mi_UID m.1 =? uid) (fs_msgs st);
  SoftDeleteMessage := fun st _ _ uid =>
    if fs_refuse st then (st, false) else (fs_set (List.filter (fun m => negb (mi_UID m.1 =? uid))) st, true);
  SetMessageFlags := fun st _ _ uid flags =>
    (fs_set (map (fun m => if mi_UID m.1 =? uid
       then (mkInfo uid (mi_Size m.1) flags (mi_InternalDate m.1) (mi_time m.1), m.2) else m)) st, true);
  AppendMessage := fun st _ _ raw d flags =>
    let m := mkInfo (fs_next st) (len raw) flags d.1 d.2 in (fs_set (fun ms => ms ++ [(m, raw)]) st, Some m);
  MessageModSeqs := fun _ _ _ _ => 1;
  FolderHighestModSeq := fun _ _ _ => 1;
  VanishedSince := fun _ _ _ _ => [];
  ListFolders := fun _ _ => Some [mkFolder 13 None (lit "Inbox") true];
  CreateFolder := fun st _ _ _ => (st, None);
  DeleteFolder := fun st _ _ => (st, false);
  RenameFolder := fun st _ _ _ _ => (st, false);
  SetSubscribed := fun st _ _ _ => (st, true);
  GetQuota := fun _ _ => mkQuota 0 0;
  MailboxSize := fun _ _ => 0;
  ResolvePermission := fun _ _ _ _ => Some 0;
  ListPermissions := fun _ _ _ => [];
  IsStoreOwner := fun _ _ _ => false;
  ModifyPermissions := fun st _ _ _ _ => (st, false) |}.

Definition msg (uid flags : Z) : MessageInfo := mkInfo uid 100 flags (mkDate 2024 5 1) 0.
Definition ex_sel : selectedMailbox := mkSel 13 (lit "INBOX") 1 9 [msg 3 0; msg 5 8; msg 7 0].
(** A connection with that selection *)
Definition ex_conn : conn :=
  set_state stateSelected (set_sel (Some ex_sel) (set_login (lit "ann") (lit "/ann") (new_conn [] false Pipelined []))).
Definition ex_world (refuse : bool) (msgs : list MessageInfo) : world folder_store :=
  mkWorld (mkFolderStore (map (fun m => (m, lit "x")) msgs) refuse) None 0 0.

Lemma poll_in_sync_witness :
  let w := ex_world false [msg 3 0; msg 7 1; msg 9 0] in
  exists c' rs v', poll (ex_conn, w) = Some (tt, (c', w)) /\ c_out c' = c_out ex_conn ++ rs
    /\ c_sel c' = Some (mkSel 13 (lit "INBOX") 1 10 [msg 3 0; msg 7 1; msg 9 0])
    /\ client_run [Some 3; None; Some 7] rs = Some v' /\ agrees v' [msg 3 0; msg 7 1; msg 9 0].
Proof.
  intros w. apply (poll_in_sync ex_conn w ex_sel (lit "/ann") (mkSel 13 (lit "INBOX") 1 10 [msg 3 0; msg 7 1; msg 9 0]));
    [reflexivity..| |reflexivity|repeat (constructor; [auto|]); constructor].
  split; [repeat constructor..|]. simpl. intros m Hm Hn o Ho. set_unfold. naive_solver lia.
Defined.

Lemma expunge_in_sync_witness :
  let w := ex_world false [msg 3 0; msg 5 8; msg 7 0] in
  exists c' w' rs v' sel', cmdExpunge (lit "a1") (ex_conn, w) = Some (tt, (c', w')) /\ c_out c' = c_out ex_conn ++ rs
    /\ c_sel c' = Some sel' /\ sl_msgs sel' = [msg 3 0; msg 7 0]
    /\ client_run [Some 3; None; None] rs = Some v' /\ agrees v' (sl_msgs sel').
Proof.
  intros w. apply (expunge_in_sync ex_conn w ex_sel (lit "/ann") [Some 3; None; None] (lit "a1"));
    [reflexivity..|done| |reflexivity|repeat (constructor; [auto|]); constructor|done].
  apply (bool_decide_unpack _). vm_compute. exact I.
Defined.

Lemma failed_expunge_desyncs_witness :
  let w := ex_world true [msg 3 0; msg 5 8; msg 7 0] in
  exists c' w' rs sel', cmdExpunge (lit "a1") (ex_conn, w) = Some (tt, (c', w')) /\ c_out c' = c_out ex_conn ++ rs /\ c_sel c' = Some sel'
    /\ forall v', client_run [Some 3; Some 5; Some 7] rs = Some v' -> len (sl_msgs sel') < len v'.
Proof.
  intros w. apply (failed_expunge_desyncs ex_conn w ex_sel (lit "/ann") [Some 3; Some 5; Some 7] (lit "a1"));
    [reflexivity..|repeat (constructor; [auto|]); constructor|]. simpl. by intros [? _].
Defined.
