(* ===== verification/ImapsesProofs.v ===== *)
(** * IMAP: the session never panics, and what it may touch

    A small program logic for session actions: weakest preconditions, and the triple that says
    an action runs, keeps the connection's identity and, when it does not write, the stores.
    Every command is taken through it: no input dereferences a nil pointer, a read-only
    selection and an unauthenticated client write nothing. *)

From stdpp Require Import base list numbers gmap.
From Stdlib Require Import ZArith Lia.
From Stdlib Require String.
Import String.StringSyntax.
From S2P Require Import Prelude Mapi Limitbase Authlimit Netline Gostr Imaplex Imapsearch Imapfetch Permission Imapses Imapsync.
Open Scope Z_scope.

(** ** The connection's invariant *)

(** The pointers each state uses are set. *)
Definition wf (c : conn) : Prop :=
  match c_state c with
  | stateNotAuth | stateLogout => True
  | stateAuth => is_Some (c_st c)
  | stateSelected => is_Some (c_st c) /\ is_Some (c_sel c) /\ is_Some (curStore c)
  end.

(** An action that is not a change of state keeps who is logged in and what is selected. *)
Record kept (c c' : conn) : Prop := {
  kept_state : c_state c' = c_state c;
  kept_user : c_user c' = c_user c;
  kept_st : c_st c' = c_st c;
  kept_readOnly : c_readOnly c' = c_readOnly c;
  kept_selPublic : c_selPublic c' = c_selPublic c;
  kept_sel : is_Some (c_sel c) -> is_Some (c_sel c');
  kept_pub : is_Some (c_pubStore c) -> is_Some (c_pubStore c') }.

Lemma kept_refl c : kept c c.
Proof. by split. Qed.
Lemma kept_trans a b c : kept a b -> kept b c -> kept a c.
Proof. intros [] []. split; try congruence; auto. Qed.
#[export] Hint Resolve kept_refl : hx.

Lemma kept_wf c c' : wf c -> kept c c' -> wf c'.
Proof.
  unfold wf, curStore. intros H []. rewrite kept_state0. destruct (c_state c); try done; [by rewrite kept_st0|].
  rewrite kept_st0, kept_selPublic0. destruct H as (? & ? & ?). split_and!; auto. destruct (c_selPublic c); auto.
Qed.

Section logic.
Context {W : Type} `{!ImapStore W}.

(** ** The triple *)

Definition wp {A} (m : act W A) (Q : A -> conn * world W -> Prop) (s : conn * world W) : Prop :=
  match m s with Some (a, s') => Q a s' | None => False end.

Lemma wp_then {A B} (m : act W A) (k : A -> act W B) Q s : wp m (fun a s' => wp (k a) Q s') s -> wp (then_ m k) Q s.
Proof. unfold wp, then_. by destruct (m s) as [[a s']|]. Qed.
Lemma wp_mono {A} (m : act W A) (Q Q' : A -> conn * world W -> Prop) s : (forall a s', Q a s' -> Q' a s') -> wp m Q s -> wp m Q' s.
Proof. unfold wp. destruct (m s) as [[a s']|]; auto. Qed.

(** From any connection that satisfies [P] the action runs, keeps the connection, and unless it
    is a writer leaves the stores as they are. *)
Definition frames {A} (writer : bool) (P : conn -> Prop) (m : act W A) : Prop := forall c w, P c ->
  wp m (fun _ s' => kept c s'.1 /\ (writer = false -> wd_store s'.2 = wd_store w)) (c, w).
Definition stable (P : conn -> Prop) : Prop := forall c c', P c -> kept c c' -> P c'.

Lemma stable_and P Q : stable P -> stable Q -> stable (fun c => P c /\ Q c).
Proof. intros HP HQ c c' [? ?] ?. split; eauto. Qed.
Lemma stable_kept c0 : stable (kept c0).
Proof. intros c c'. apply kept_trans. Qed.

Section rules.
Context (wr : bool) (P : conn -> Prop) (Pst : stable P).

Lemma frames_then {A B} (m : act W A) (k : A -> act W B) :
  frames wr P m -> (forall a, frames wr P (k a)) -> frames wr P (then_ m k).
Proof.
  intros Hm Hk c w Hc. apply wp_then. eapply wp_mono; [|by apply Hm]. intros a [c' w'] [H1 H2]. simpl in *.
  eapply wp_mono; [|apply Hk; by eapply Pst]. intros b [c'' w''] [H3 H4]. simpl in *.
  split; [by eapply kept_trans|]. intros Hw. rewrite H4, H2; done.
Qed.
Lemma frames_the_conn {B} (k : conn -> act W B) :
  (forall c0, P c0 -> frames wr (fun c => P c /\ kept c0 c) (k c0)) -> frames wr P (c <-- the_conn ;; k c).
Proof. intros H c w Hc. apply wp_then. apply (H c Hc c w). auto with hx. Qed.
Lemma frames_ok {A} (a : A) : frames wr P (ok_ a).
Proof. intros c w Hc. split; auto with hx. Qed.
Lemma frames_ask {A} (f : W -> A) : frames wr P (ask f).
Proof. intros c w Hc. split; auto with hx. Qed.
Lemma frames_update f : (forall c, kept c (f c)) -> frames wr P (update f).
Proof. intros H c w Hc. split; [apply H|done]. Qed.
Lemma frames_deref {A} (f : conn -> option A) : (forall c, P c -> is_Some (f c)) -> frames wr P (deref f).
Proof. intros H c w Hc. unfold wp, deref. destruct (H c Hc) as [a E]. simpl. rewrite E. split; auto with hx. Qed.
Lemma frames_throttle {A} (f : option Limiter -> option Limiter * A) : frames wr P (throttle f).
Proof. intros c w Hc. unfold wp, throttle. simpl. destruct (f (wd_limiter w)). split; auto with hx. Qed.
Lemma frames_put r : frames wr P (put r).
Proof. apply frames_update. intros c. by split. Qed.
Lemma frames_untagged t : frames wr P (untagged t).
Proof. apply frames_put. Qed.
Lemma frames_ok' tag t : frames wr P (respond_ok tag t).
Proof. apply frames_put. Qed.
Lemma frames_no tag t : frames wr P (respond_no tag t).
Proof. apply frames_put. Qed.
Lemma frames_bad tag t : frames wr P (respond_bad tag t).
Proof. apply frames_put. Qed.
Lemma frames_each {A} (f : A -> act W unit) l : (forall a, frames wr P (f a)) -> frames wr P (each f l).
Proof. intros H. induction l as [|a l IH]; simpl; [apply frames_ok|]. by apply frames_then. Qed.
(** An action that cannot be reached *)
Lemma frames_absurd {A} (m : act W A) : (forall c, P c -> False) -> frames wr P m.
Proof. intros H c w Hc. by destruct (H c). Qed.
End rules.

Lemma frames_write {A} P (f : W -> W * A) : frames true P (write f).
Proof. intros c w Hc. unfold wp, write. simpl. destruct (f (wd_store w)). split; auto with hx. done. Qed.
Lemma frames_weaken {A} wr (P Q : conn -> Prop) (m : act W A) : (forall c, Q c -> P c) -> frames wr P m -> frames wr Q m.
Proof. intros H Hm c w Hc. apply Hm, H, Hc. Qed.

(** The preconditions of the commands *)
Definition selected (c : conn) : Prop := wf c /\ c_state c = stateSelected.
Definition authenticated (c : conn) : Prop := is_Some (c_st c).

Lemma stable_selected : stable selected.
Proof. intros c c' [H1 H2] K. split; [by eapply kept_wf|]. by rewrite (kept_state _ _ K). Qed.
Lemma stable_authenticated : stable authenticated.
Proof. intros c c' H K. unfold authenticated. by rewrite (kept_st _ _ K). Qed.
Lemma selected_sel c : selected c -> is_Some (c_sel c).
Proof. intros [H E]. unfold wf in H. rewrite E in H. tauto. Qed.
Lemma selected_store c : selected c -> is_Some (curStore c).
Proof. intros [H E]. unfold wf in H. rewrite E in H. tauto. Qed.
Lemma selected_auth c : selected c -> authenticated c.
Proof. intros [H E]. unfold wf in H. rewrite E in H. tauto. Qed.
End logic.

#[export] Hint Resolve stable_and stable_kept stable_selected stable_authenticated selected_sel selected_store selected_auth : frames.
#[export] Hint Extern 1 (kept _ _) => (by split) : frames.

(** Decompose an action along its structure. *)
Ltac frame_side := auto with frames; try (intros ? [? ?]; auto with frames; fail); try (intros ? (? & ? & ?); auto with frames; fail).
Ltac frame_step :=
  lazymatch goal with
  | |- frames _ _ (then_ the_conn _) => apply frames_the_conn; [intros]
  | |- frames _ _ (then_ _ _) => apply frames_then; [frame_side; fail| |intros]
  | |- frames _ _ (ok_ _) => apply frames_ok
  | |- frames _ _ (ask _) => apply frames_ask
  | |- frames _ _ (put _) => apply frames_put
  | |- frames _ _ (untagged _) => apply frames_untagged
  | |- frames _ _ (respond_ok _ _) => apply frames_ok'
  | |- frames _ _ (respond_no _ _) => apply frames_no
  | |- frames _ _ (respond_bad _ _) => apply frames_bad
  | |- frames _ _ (update _) => apply frames_update; (by split)
  | |- frames _ _ (throttle _) => apply frames_throttle
  | |- frames true _ (write _) => apply frames_write
  | |- frames _ _ (deref _) => apply frames_deref; frame_side; fail
  | |- frames _ _ (each _ _) => apply frames_each; [frame_side; fail|intros]
  | |- frames _ _ (match ?x with _ => _ end) => destruct x eqn:?
  | |- frames _ _ (let _ := _ in _) => cbv zeta
  end.

Lemma stable_wf : stable wf.
Proof. intros c c'. apply kept_wf. Qed.
#[export] Hint Resolve stable_wf : frames.

(** A folder listing without a cycle of parents *)
Definition acyclic_listings (W : Type) `{!ImapStore W} : Prop :=
  forall (st : W) path fs, ListFolders st path = Some fs -> is_Some (loadFolderTree fs).

Section commands.
Context {W : Type} `{!ImapStore W}.
Abbreviation frames_ wr P m := (frames (W := W) wr P m).

(** Into the branch of a guard *)
Lemma frames_selected {A} wr c0 (m : act W A) :
  c_state c0 = stateSelected -> frames_ wr selected m -> frames_ wr (fun c => wf c /\ kept c0 c) m.
Proof. intros E. apply frames_weaken. intros c [H K]. split; [done|]. by rewrite (kept_state _ _ K). Qed.
Lemma frames_selected_ro {A} wr c0 (m : act W A) :
  frames_ wr (fun c => selected c /\ c_readOnly c = true) m ->
  frames_ wr (fun c => (selected c /\ c_readOnly c = true) /\ kept c0 c) m.
Proof. apply frames_weaken. by intros c [H K]. Qed.
Lemma frames_auth {A} wr c0 (m : act W A) :
  c_state c0 <> stateNotAuth -> c_state c0 <> stateLogout ->
  frames_ wr authenticated m -> frames_ wr (fun c => wf c /\ kept c0 c) m.
Proof.
  intros E1 E2. apply frames_weaken. intros c [H K]. unfold wf in H. rewrite (kept_state _ _ K) in H.
  destruct (c_state c0); try done. apply H.
Qed.

Lemma stable_ro : stable (fun c => selected c /\ c_readOnly c = true).
Proof. intros c c' [H E] K. split; [by eapply stable_selected|]. by rewrite (kept_readOnly _ _ K). Qed.

Lemma frames_modseqMap wr : frames_ wr selected modseqMap.
Proof. unfold modseqMap. repeat frame_step. Qed.

Lemma frames_poll wr : frames_ wr wf poll.
Proof.
  unfold poll. frame_step. destruct (bool_decide _) eqn:E; [|apply frames_ok]. apply bool_decide_eq_true in E.
  destruct (c_sel c0); [|apply frames_ok]. apply frames_selected; [done|]. repeat frame_step.
  all: try (apply frames_update; intros; by split).
Qed.

Lemma frames_applyStore set byUID req : frames_ true selected (applyStore set byUID req).
Proof. unfold applyStore. repeat first [apply frames_modseqMap | frame_step]. Qed.

Lemma frames_sweep p report : frames_ true selected (sweep_selected p report).
Proof. unfold sweep_selected. repeat frame_step. Qed.

Lemma frames_parseStoreRequest wr args : frames_ wr selected (parseStoreRequest args).
Proof. unfold parseStoreRequest. repeat frame_step. Qed.

Lemma frames_cmdNoop wr tag : frames_ wr wf (cmdNoop tag).
Proof. unfold cmdNoop. repeat first [apply frames_poll | frame_step]. Qed.

(** A guard on the selected state: the refusal, or the body in a selected connection *)
Lemma frames_guard_selected wr tag t (body : conn -> act W unit) :
  (forall c0, c_state c0 = stateSelected -> frames_ wr selected (body c0)) ->
  frames_ wr wf (c <-- the_conn ;; if negb (bool_decide (c_state c = stateSelected)) then respond_no tag t else body c).
Proof.
  intros H. frame_step. destruct (bool_decide _) eqn:E; cbn [negb]; [|frame_step]. apply bool_decide_eq_true in E.
  apply frames_selected; [done|]. by apply H.
Qed.
(** The same with a read-only selection in hand *)
Lemma frames_guard_ro wr tag t (body : conn -> act W unit) :
  (forall c0, selected c0 -> c_readOnly c0 = true -> frames_ wr (fun c => selected c /\ c_readOnly c = true) (body c0)) ->
  frames_ wr (fun c => selected c /\ c_readOnly c = true)
    (c <-- the_conn ;; if negb (bool_decide (c_state c = stateSelected)) then respond_no tag t else body c).
Proof.
  intros H. frame_step. destruct (bool_decide _) eqn:E; cbn [negb]; [|frame_step].
  apply frames_selected_ro. apply H; naive_solver.
Qed.

Lemma frames_cmdStore tag args byUID : frames_ true wf (cmdStore tag args byUID).
Proof.
  apply frames_guard_selected. intros c0 _.
  repeat first [apply frames_applyStore | apply frames_parseStoreRequest | apply frames_modseqMap
    | apply (frames_weaken _ selected); [naive_solver|apply frames_modseqMap] | frame_step].
  all: frame_side.
Qed.

Lemma frames_doExpunge e : frames_ true selected (doExpunge e).
Proof.
  unfold doExpunge, report_vanished.
  repeat first [apply frames_sweep | apply (frames_weaken _ selected); [naive_solver|apply frames_sweep] | frame_step].
Qed.
Lemma frames_cmdExpunge tag : frames_ true wf (cmdExpunge tag).
Proof. apply frames_guard_selected. intros c0 _. repeat first [apply frames_doExpunge | frame_step]. Qed.
Lemma frames_expungeDeleted set : frames_ true selected (expungeDeleted set).
Proof.
  unfold expungeDeleted. repeat first [apply (frames_weaken _ selected); [naive_solver|apply frames_sweep] | frame_step].
Qed.
Lemma frames_cmdUIDExpunge tag args : frames_ true wf (cmdUIDExpunge tag args).
Proof.
  apply frames_guard_selected. intros c0 _. unfold report_vanished. repeat first [apply frames_expungeDeleted | frame_step].
Qed.
Lemma frames_cmdCheck wr tag : frames_ wr wf (cmdCheck tag).
Proof.
  apply frames_guard_selected. intros c0 _.
  repeat first [apply (frames_weaken _ wf); [intros c [? ?]; done|apply frames_poll] | frame_step].
Qed.
Lemma frames_wake f : frames_ true wf (wake f).
Proof. intros c w Hc. split; [apply kept_refl|done]. Qed.
Lemma frames_cmdIdle wakes tag : frames_ true wf (cmdIdle wakes tag).
Proof.
  unfold cmdIdle, idle_line. frame_step. apply (frames_weaken _ wf); [by intros c [? ?]|].
  repeat first [apply frames_poll | apply frames_wake | frame_step].
Qed.

(** *** Folders *)

Context (acyclic : acyclic_listings W) (OpenForCaller : W -> bytes -> option bytes).

Lemma frames_load_tree wr : frames_ wr authenticated load_tree.
Proof.
  intros c w Hc. unfold load_tree. apply wp_then. unfold wp, deref. simpl. destruct Hc as [path ->].
  unfold then_, ask. simpl. destruct (ListFolders (wd_store w) path) as [fs|] eqn:E; [|split; auto with hx].
  destruct (acyclic _ _ _ E) as [t ->]. split; auto with hx.
Qed.

Lemma frames_openPub wr P : stable P -> frames_ wr P (openPub OpenForCaller).
Proof.
  intros Hst. unfold openPub. apply frames_the_conn. intros c0 Hc0. destruct (c_pubStore c0) eqn:E; [apply frames_ok|].
  repeat frame_step.
Qed.

(** A public folder is found only in an open public store. *)
Lemma openPub_opens c w : wp (openPub OpenForCaller)
  (fun p s' => kept c s'.1 /\ wd_store s'.2 = wd_store w /\ (is_Some p -> is_Some (c_pubStore s'.1))) (c, w).
Proof.
  unfold openPub. apply wp_then. cbn [wp the_conn fst]. unfold wp. destruct (c_pubStore c) eqn:E.
  - cbn. rewrite E. split_and!; auto with hx.
  - unfold then_, ask. cbn [fst snd]. destruct (OpenForCaller (wd_store w) (c_user c)) as [p|]; cbn.
    + split_and!; [by split; eauto|done|eauto].
    + split_and!; [apply kept_refl|done|by intros [? ?]].
Qed.

Lemma resolvePublicFolder_opens sub c w : wp (resolvePublicFolder OpenForCaller sub)
  (fun r s' => kept c s'.1 /\ wd_store s'.2 = wd_store w /\ (is_Some r -> is_Some (c_pubStore s'.1))) (c, w).
Proof.
  unfold resolvePublicFolder. apply wp_then. eapply wp_mono; [|apply openPub_opens].
  intros p [c' w'] (K & Hw & Hp). simpl in *. unfold wp. destruct p as [path|]; cbn.
  - split_and!; [done|done|]. intros _. apply Hp. eauto.
  - split_and!; [done|done|by intros [? ?]].
Qed.

(** What follows a public folder may use the public store. *)
Lemma frames_public {B} wr P sub (k : option (FolderInfo * Z) -> act W B) :
  stable P -> frames_ wr P (k None) ->
  (forall r, frames_ wr (fun c => P c /\ is_Some (c_pubStore c)) (k (Some r))) ->
  frames_ wr P (r <-- resolvePublicFolder OpenForCaller sub ;; k r).
Proof.
  intros Hst Hn Hs c w Hc. apply wp_then. eapply wp_mono; [|apply resolvePublicFolder_opens].
  intros r [c' w'] (K & Hw & Hp). simpl in *. assert (P c') by eauto.
  assert (T : wp (k r) (fun _ s' => kept c' s'.1 /\ (wr = false -> wd_store s'.2 = wd_store w')) (c', w')).
  { destruct r; [apply Hs; split; eauto|by apply Hn]. }
  eapply wp_mono; [|exact T]. intros b [c'' w''] [K2 E2]. simpl in *. split; [by eapply kept_trans|].
  intros Hwr. rewrite E2, Hw; done.
Qed.
Lemma stable_pub : stable (fun c => is_Some (c_pubStore c)).
Proof. intros c c' H K. by apply (kept_pub _ _ K). Qed.
Hint Resolve stable_pub : frames.

Lemma frames_resolveAppendDest wr P name :
  stable P -> (forall c, P c -> authenticated c) -> frames_ wr P (resolveAppendDest OpenForCaller name).
Proof.
  intros Hst Ha. unfold resolveAppendDest. destruct (isPublicName name) as [[|b sub]|]; [apply frames_ok| |].
  - apply frames_public; [done|apply frames_ok|]. intros [f rights]. repeat frame_step.
  - apply frames_then; [done|apply (frames_weaken _ authenticated); [done|apply frames_load_tree]|]. intros t. repeat frame_step.
Qed.

(** A connection the loop dispatches to *)
Definition live (c : conn) : Prop := wf c /\ c_state c <> stateLogout.
Lemma stable_live : stable live.
Proof. intros c c' [H E] K. split; [by eapply kept_wf|]. by rewrite (kept_state _ _ K). Qed.
Hint Resolve stable_live : frames.

Lemma frames_guard_auth wr tag t (body : conn -> act W unit) :
  (forall c0, frames_ wr authenticated (body c0)) ->
  frames_ wr live (c <-- the_conn ;; if bool_decide (c_state c = stateNotAuth) then respond_no tag t else body c).
Proof.
  intros H. frame_step. destruct (bool_decide _) eqn:E; [frame_step|]. apply bool_decide_eq_false in E.
  apply (frames_weaken _ (fun c => wf c /\ kept c0 c)); [intros c [[? ?] ?]; done|].
  apply frames_auth; [done|by destruct H0|]. apply H.
Qed.

Ltac frame_auth := apply frames_guard_auth; intros c0;
  repeat first [apply frames_load_tree | apply frames_public; [auto with frames; fail| |intros []] | frame_step].

Lemma frames_status_of wr P tag name path fid items : stable P -> frames_ wr P (status_of tag name path fid items).
Proof. intros Hst. unfold status_of. repeat frame_step. Qed.
Lemma frames_cmdStatus wr tag args : frames_ wr live (cmdStatus OpenForCaller tag args).
Proof.
  apply frames_guard_auth; intros c0. cbv zeta.
  repeat first [apply frames_load_tree | apply frames_public; [auto with frames; fail| |intros []]
    | apply frames_status_of; auto with frames; fail | progress unfold statusPublic | frame_step].
Qed.
Lemma frames_cmdNamespace wr tag : frames_ wr live (cmdNamespace tag).
Proof. frame_auth. Qed.

Lemma frames_listPublicFolders wr verb full : frames_ wr authenticated (listPublicFolders OpenForCaller verb full).
Proof.
  unfold listPublicFolders. apply frames_then; [auto with frames|apply frames_openPub; auto with frames|]. intros p.
  repeat first [apply stable_and; auto with frames; fail | frame_step].
Qed.
Lemma frames_cmdList wr tag args lsub : frames_ wr live (cmdList OpenForCaller tag args lsub).
Proof.
  apply frames_guard_auth; intros c0. cbv zeta.
  repeat first [apply frames_load_tree | apply frames_listPublicFolders | progress unfold listOwnFolders | frame_step].
Qed.

Lemma frames_create_parts tree prefix parent parts : frames_ true authenticated (create_parts tree prefix parent parts).
Proof.
  revert tree prefix parent. induction parts as [|part parts IH]; intros tree prefix parent; cbn [create_parts]; [apply frames_ok|].
  cbv zeta. destruct (resolve tree _); [apply IH|].
  repeat first [apply frames_load_tree | apply IH | frame_step].
Qed.
Lemma frames_cmdCreate tag args : frames_ true live (cmdCreate tag args).
Proof.
  apply frames_guard_auth; intros c0. unfold createPath. cbv zeta.
  repeat first [apply frames_load_tree | apply frames_create_parts | frame_step].
Qed.
Lemma frames_cmdDelete tag args : frames_ true live (cmdDelete tag args).
Proof. frame_auth. Qed.
Lemma frames_cmdRename tag args : frames_ true live (cmdRename tag args).
Proof.
  apply frames_guard_auth; intros c0. unfold renameFolder, resolveParent, createPath.
  repeat first [apply frames_load_tree | apply frames_create_parts | frame_step].
Qed.
Lemma frames_cmdSubscribe tag args b : frames_ true live (cmdSubscribe tag args b).
Proof. frame_auth. Qed.

(** *** Access control and quotas *)

Lemma frames_resolveACLFolder wr P name :
  stable P -> (forall c, P c -> authenticated c) -> frames_ wr P (resolveACLFolder OpenForCaller name).
Proof.
  intros Hst Ha. unfold resolveACLFolder. destruct (isPublicName name) as [sub|].
  - apply frames_public; [done|apply frames_ok|]. intros [f rights]. repeat frame_step.
  - apply frames_then; [done|apply (frames_weaken _ authenticated); [done|apply frames_load_tree]|]. intros t. repeat frame_step.
Qed.

Ltac frame_acl := apply frames_guard_auth; intros c0;
  repeat first [apply frames_resolveACLFolder; auto with frames; fail | frame_step].
Lemma frames_cmdMyRights wr tag args : frames_ wr live (cmdMyRights OpenForCaller tag args).
Proof. frame_acl. Qed.
Lemma frames_cmdGetACL wr tag args : frames_ wr live (cmdGetACL OpenForCaller tag args).
Proof. frame_acl. Qed.
Lemma frames_cmdListRights wr tag args : frames_ wr live (cmdListRights OpenForCaller tag args).
Proof. frame_acl. Qed.

Lemma frames_aclAdminTarget wr tag args : frames_ wr live (aclAdminTarget OpenForCaller tag args).
Proof.
  unfold aclAdminTarget. frame_step. destruct (bool_decide _) eqn:E; [repeat frame_step|]. apply bool_decide_eq_false in E.
  apply (frames_weaken _ (fun c => wf c /\ kept c0 c)); [intros c [[? ?] ?]; done|].
  apply frames_auth; [done|by destruct H|].
  repeat first [apply frames_resolveACLFolder; auto with frames; fail | frame_step].
Qed.
Lemma frames_cmdSetACL tag args : frames_ true live (cmdSetACL OpenForCaller tag args).
Proof. unfold cmdSetACL. repeat first [apply frames_aclAdminTarget | frame_step]. Qed.
Lemma frames_cmdDeleteACL tag args : frames_ true live (cmdDeleteACL OpenForCaller tag args).
Proof. unfold cmdDeleteACL. repeat first [apply frames_aclAdminTarget | frame_step]. Qed.

Lemma frames_writeQuota wr root : frames_ wr authenticated (writeQuota root).
Proof. unfold writeQuota. repeat frame_step. Qed.
Lemma frames_cmdGetQuota wr tag args : frames_ wr live (cmdGetQuota tag args).
Proof. apply frames_guard_auth; intros c0. repeat first [apply frames_writeQuota | frame_step]. Qed.
Lemma frames_cmdGetQuotaRoot wr tag args : frames_ wr live (cmdGetQuotaRoot tag args).
Proof. apply frames_guard_auth; intros c0. repeat first [apply frames_writeQuota | frame_step]. Qed.
Lemma frames_cmdSetQuota wr tag : frames_ wr live (cmdSetQuota tag).
Proof. apply frames_guard_auth; intros c0. frame_step. Qed.

(** *** Messages *)

Context (ScanStored : W -> bytes -> bytes -> W * bool) (parse_datetime : bytes -> option (date * Z)) (now : date * Z).
Context (Extract : bytes -> Section_ -> option bytes) (extractBinary : bytes -> list Z -> option bytes)
  (bodystructure : bool -> bytes -> bytes) (envelope : bytes -> bytes) (format_date : date -> Z -> bytes).
Context (ToLower : bytes -> bytes) (header_values : bytes -> bytes -> list bytes) (ParseDate : bytes -> option date).
Context (ParseInstant : bytes -> option Z) (arrival : MessageInfo -> Z) (ParseAddress : bytes -> option bytes).

Lemma frames_copyToDest set byUID dst dstFID : frames_ true selected (copyToDest set byUID dst dstFID).
Proof. unfold copyToDest. repeat frame_step. Qed.

Ltac frame_copy := apply frames_guard_selected; intros c0 _;
  repeat first [apply frames_copyToDest | apply frames_sweep | apply frames_resolveAppendDest; auto with frames; fail
    | progress unfold copyuid, expungeMoved | frame_step].
Lemma frames_cmdCopy tag args byUID : frames_ true wf (cmdCopy OpenForCaller tag args byUID).
Proof. frame_copy. Qed.
Lemma frames_cmdMove tag args byUID : frames_ true wf (cmdMove OpenForCaller tag args byUID).
Proof. frame_copy. Qed.

Lemma frames_cmdAppend tag args : frames_ true live (cmdAppend OpenForCaller ScanStored parse_datetime now tag args).
Proof.
  unfold cmdAppend. frame_step. destruct (bool_decide _) eqn:E; [repeat frame_step|]. apply bool_decide_eq_false in E.
  set (P := fun c => wf c /\ authenticated c). assert (HP : stable P) by (apply stable_and; auto with frames).
  apply (frames_weaken _ P).
  { intros c [[H1 H2] K]. split; [done|]. unfold authenticated. rewrite (kept_st _ _ K). destruct H as [H _].
    unfold wf in H. pose proof (kept_state _ _ K) as KS. destruct (c_state c0); try done; first [exact (proj1 H) | by destruct (H2 KS)]. }
  unfold appendGroups.
  repeat first [apply frames_resolveAppendDest; [done|by intros ? [? ?]]
    | apply (frames_weaken _ wf); [intros ? [[? ?] ?]; done|apply frames_poll] | frame_step
    | lazymatch goal with |- frames _ _ (then_ _ _) => apply frames_then; [auto using stable_and, stable_kept| |intros] end].
Qed.

Lemma frames_completeFetchItems wr items byUID cs : frames_ wr selected (completeFetchItems items byUID cs).
Proof. unfold completeFetchItems. cbv zeta. repeat frame_step. Qed.

Abbreviation fetch1 := (writeFetch Extract extractBinary bodystructure envelope format_date).
Lemma frames_writeFetch idx items modseqs : frames_ true selected (fetch1 idx items modseqs).
Proof. unfold writeFetch. repeat frame_step. Qed.
(** Under a read-only selection FETCH does not write. *)
Lemma frames_writeFetch_ro idx items modseqs : frames_ false (fun c => selected c /\ c_readOnly c = true) (fetch1 idx items modseqs).
Proof.
  unfold writeFetch. apply frames_the_conn. intros c0 [_ Hro]. rewrite Hro. cbn [negb].
  set (P := fun c => (selected c /\ c_readOnly c = true) /\ kept c0 c).
  assert (HP : stable P) by (apply stable_and; [apply stable_ro|auto with frames]).
  assert (H1 : forall c, P c -> is_Some (c_sel c)) by (intros c [[? ?] ?]; auto with frames).
  assert (H2 : forall c, P c -> is_Some (curStore c)) by (intros c [[? ?] ?]; auto with frames).
  repeat first [apply frames_then; [done| |intros] | apply frames_deref; done | rewrite andb_false_r; cbn [andb] | frame_step].
Qed.

Lemma frames_cmdFetch tag args byUID :
  frames_ true wf (cmdFetch Extract extractBinary bodystructure envelope format_date tag args byUID).
Proof.
  apply frames_guard_selected; intros c0 _. unfold writeFetches.
  repeat first [apply frames_completeFetchItems | apply frames_modseqMap | apply frames_writeFetch | frame_step].
Qed.
Lemma frames_cmdFetch_ro tag args byUID :
  frames_ false (fun c => selected c /\ c_readOnly c = true) (cmdFetch Extract extractBinary bodystructure envelope format_date tag args byUID).
Proof.
  apply frames_guard_ro; intros c0 _ _. unfold writeFetches.
  assert (HP : stable (fun c => selected c /\ c_readOnly c = true)) by apply stable_ro.
  repeat first [apply (frames_weaken _ selected); [by intros ? [? ?]|apply frames_completeFetchItems]
    | apply (frames_weaken _ selected); [by intros ? [? ?]|apply frames_modseqMap] | apply frames_writeFetch_ro
    | apply frames_then; [done| |intros] | apply frames_each; [done|intros] | frame_step].
Qed.

Ltac frame_search := apply frames_guard_selected; intros c0 _; unfold selected_contexts, raw_of; repeat frame_step.
Lemma frames_cmdSearch wr tag args byUID : frames_ wr wf (cmdSearch ToLower header_values ParseDate tag args byUID).
Proof. frame_search. Qed.
Lemma frames_cmdSort wr tag args byUID :
  frames_ wr wf (cmdSort ToLower header_values ParseDate ParseInstant arrival ParseAddress tag args byUID).
Proof. frame_search. Qed.
Lemma frames_cmdThread wr tag args byUID : frames_ wr wf (cmdThread ToLower header_values ParseDate ParseInstant arrival tag args byUID).
Proof. frame_search. Qed.

(** ** The commands that change the state *)

(** The action runs, leaves a well-formed connection and, unless it is a writer, the stores. *)
Definition ends {A} (wr : bool) (P : conn -> Prop) (m : act W A) : Prop := forall c w, P c ->
  wp m (fun _ s' => wf s'.1 /\ (wr = false -> wd_store s'.2 = wd_store w)) (c, w).

Lemma ends_frames {A} wr P (m : act W A) : (forall c, P c -> wf c) -> frames_ wr P m -> ends wr P m.
Proof.
  intros HP Hm c w Hc. eapply wp_mono; [|by apply Hm]. intros a [c' w'] [K E]. split; [|done]. eapply kept_wf; [|exact K]. auto.
Qed.
Lemma ends_then {A B} wr P (m : act W A) (k : A -> act W B) :
  stable P -> frames_ wr P m -> (forall a, ends wr P (k a)) -> ends wr P (then_ m k).
Proof.
  intros Hst Hm Hk c w Hc. apply wp_then. eapply wp_mono; [|by apply Hm]. intros a [c' w'] [K E]. simpl in *.
  eapply wp_mono; [|apply Hk; by eapply Hst]. intros b [c'' w''] [? E2]. simpl in *. split; [done|]. intros Hw. rewrite E2, E; done.
Qed.
Lemma ends_update {B} wr (P P' : conn -> Prop) f (k : unit -> act W B) :
  (forall c, P c -> P' (f c)) -> ends wr P' (k tt) -> ends wr P (u <-- update f ;; k u).
Proof. intros Hf Hk c w Hc. apply wp_then. apply (Hk (f c) w). auto. Qed.
Lemma ends_the_conn {B} wr (P : conn -> Prop) (k : conn -> act W B) :
  (forall c0, P c0 -> ends wr (fun c => P c /\ kept c0 c) (k c0)) -> ends wr P (c <-- the_conn ;; k c).
Proof. intros H c w Hc. apply wp_then. apply (H c Hc c w). auto with hx. Qed.
Lemma ends_weaken {A} wr (P Q : conn -> Prop) (m : act W A) : (forall c, Q c -> P c) -> ends wr P m -> ends wr Q m.
Proof. intros H Hm c w Hc. apply Hm, H, Hc. Qed.

Lemma frames_emitQResync wr sel qr : frames_ wr selected (emitQResync sel qr).
Proof. unfold emitQResync. repeat first [apply frames_modseqMap | frame_step]. Qed.
Lemma frames_emitSelected wr tag sel e : frames_ wr selected (emitSelected tag sel e).
Proof.
  unfold emitSelected.
  repeat first [apply (frames_weaken _ selected); [by intros ? [? ?]|apply frames_emitQResync] | apply stable_and; auto with frames; fail | frame_step].
Qed.

Definition ready (c : conn) : Prop := wf c /\ authenticated c.
Lemma stable_ready : stable ready.
Proof. apply stable_and; auto with frames. Qed.
Hint Resolve stable_ready : frames.

Lemma deselected_wf c : ready c -> wf (set_sel None (set_state stateAuth c)).
Proof. intros [_ H]. exact H. Qed.

Lemma ends_selectPublic wr tag name sub e : ends wr ready (selectPublic OpenForCaller tag name sub e).
Proof.
  unfold selectPublic. cbv zeta. destruct sub as [|b sub].
  - eapply (ends_update _ _ wf); [apply deselected_wf|]. apply ends_frames; [done|frame_step].
  - intros c w Hc. apply wp_then. eapply wp_mono; [|apply resolvePublicFolder_opens].
    intros r [c' w'] (K & Hw & Hp). simpl in *. assert (Hc' : ready c') by (by eapply stable_ready).
    enough (T : ends wr (fun c => ready c /\ (is_Some r -> is_Some (c_pubStore c)))
      (match r with
       | Some (f, rights) =>
           if Z.land rights FrightsReadAny =? 0 then respond_no tag (lit "[NOPERM] read access denied")
           else path <-- deref c_pubStore ;;
             sel <-- ask (fun st => loadMailbox st path (fi_ID f) name) ;;
             match sel with
             | Some sel =>
                 update (fun c => set_readOnly (e || (Z.land rights (Z.lor FrightsEditAny FrightsDeleteAny) =? 0))
                                   (set_state stateSelected (set_selPublic true (set_sel (Some sel) c)))) ;;;
                 emitSelected tag sel e
             | None => respond_no tag (lit "cannot open mailbox")
             end
       | None => update (fun c => set_sel None (set_state stateAuth c)) ;;; respond_no tag (lit "no such mailbox")
       end)).
    { eapply wp_mono; [|apply (T c' w'); done]. intros a [c'' w''] [? E]. simpl in *. split; [done|].
      intros Hwr. by rewrite E, Hw. }
    assert (Hst : stable (fun c => ready c /\ (is_Some r -> is_Some (c_pubStore c)))).
    { intros x y [H1 H2] Kx. split; [by eapply stable_ready|]. intros Hr. apply (kept_pub _ _ Kx). auto. }
    destruct r as [[f rights]|].
    + destruct (_ =? 0); [apply ends_frames; [by intros ? [[? ?] ?]|frame_step]|].
      apply ends_then; [done|apply frames_deref; intros ? [? H]; apply H; eauto|]. intros path.
      apply ends_then; [done|frame_step|]. intros [sel|]; [|apply ends_frames; [by intros ? [[? ?] ?]|frame_step]].
      eapply (ends_update _ _ selected).
      { intros x [[_ Ha] Hx]. split; [|done]. unfold wf, curStore. cbn. split_and!; [exact Ha|eauto|apply Hx; eauto]. }
      apply ends_frames; [by intros ? [? ?]|apply frames_emitSelected].
    + eapply (ends_update _ _ wf); [intros x [H _]; by apply deselected_wf|]. apply ends_frames; [done|frame_step].
Qed.

Lemma ends_guard_auth wr tag t (body : conn -> act W unit) :
  (forall c0, ends wr ready (body c0)) ->
  ends wr live (c <-- the_conn ;; if bool_decide (c_state c = stateNotAuth) then respond_no tag t else body c).
Proof.
  intros H. apply ends_the_conn. intros c0 [Hwf Hl]. destruct (bool_decide _) eqn:E.
  { apply ends_frames; [by intros ? [[? ?] ?]|frame_step]. }
  apply bool_decide_eq_false in E. apply (ends_weaken _ ready); [|apply H].
  intros c [[H1 H2] K]. split; [done|]. unfold authenticated. rewrite (kept_st _ _ K). unfold wf in Hwf.
  destruct (c_state c0); try done. apply Hwf.
Qed.

Lemma ends_cmdSelect wr tag args e : ends wr live (cmdSelect OpenForCaller tag args e).
Proof.
  apply ends_guard_auth. intros c0. destruct (arg0 args) as [name|]; [|apply ends_frames; [by intros ? [? ?]|frame_step]].
  apply ends_then; [apply stable_ready|repeat frame_step|]. intros [].
  apply ends_then; [apply stable_ready|repeat frame_step|]. intros [].
  destruct (isPublicName name); [apply ends_selectPublic|].
  apply ends_then; [apply stable_ready|apply (frames_weaken _ authenticated); [by intros ? [? ?]|apply frames_load_tree]|].
  intros [tree|]; [|apply ends_frames; [by intros ? [? ?]|frame_step]].
  destruct (resolve tree name) as [n|].
  - apply ends_then; [apply stable_ready|apply frames_deref; by intros ? [? ?]|]. intros path.
    apply ends_then; [apply stable_ready|frame_step|].
    intros [sel|]; [|apply ends_frames; [by intros ? [? ?]|frame_step]].
    eapply (ends_update _ _ selected); [|apply ends_frames; [by intros ? [? ?]|apply frames_emitSelected]].
    intros x [_ Ha]. split; [|done]. unfold wf, curStore. cbn. split_and!; [exact Ha|eauto|exact Ha].
  - eapply (ends_update _ _ wf); [intros x [_ H]; exact H|]. apply ends_frames; [done|frame_step].
Qed.

Lemma ends_leave wr P tag t : (forall c, P c -> authenticated c) -> ends wr P (deselect ;;; respond_ok tag t).
Proof. intros H. eapply (ends_update _ _ wf); [intros c Hc; exact (H c Hc)|]. apply ends_frames; [done|frame_step]. Qed.

Lemma ends_guard_selected wr tag t (body : conn -> act W unit) :
  (forall c0, ends wr selected (body c0)) ->
  ends wr live (c <-- the_conn ;; if negb (bool_decide (c_state c = stateSelected)) then respond_no tag t else body c).
Proof.
  intros H. apply ends_the_conn. intros c0 [Hwf Hl]. destruct (bool_decide _) eqn:E; cbn [negb].
  - apply bool_decide_eq_true in E. apply (ends_weaken _ selected); [|apply H].
    intros c [[H1 H2] K]. split; [done|]. by rewrite (kept_state _ _ K).
  - apply ends_frames; [by intros ? [[? ?] ?]|frame_step].
Qed.
Lemma ends_cmdClose tag : ends true live (cmdClose tag).
Proof.
  apply ends_guard_selected. intros c0. apply ends_then; [auto with frames|repeat first [apply frames_doExpunge|frame_step]|].
  intros []. apply ends_leave. auto with frames.
Qed.
Lemma ends_cmdUnselect wr tag : ends wr live (cmdUnselect tag).
Proof. apply ends_guard_selected. intros c0. apply ends_leave. auto with frames. Qed.
Lemma ends_cmdLogout wr P tag : ends wr P (cmdLogout tag).
Proof. intros c w _. split; done. Qed.

(** *** Logging in *)

Context (AuthenticateClient : bytes -> bytes -> option bytes) (POP3IMAP : bytes -> bool) (tlsConfig : bool) (addr : bytes) (t : readings).
Abbreviation login := (finishAuth ToLower AuthenticateClient POP3IMAP tlsConfig addr t).

Lemma ends_finishAuth wr tag user pass : ends wr wf (login tag user pass).
Proof.
  unfold finishAuth. assert (N : forall x, ends wr wf (respond_no tag x)) by (intros; apply ends_frames; [done|frame_step]).
  apply ends_then; [auto with frames|frame_step|]. intros a. destruct (negb a); [apply N|].
  destruct (AuthenticateClient user pass) as [path|].
  - apply ends_then; [auto with frames|frame_step|]. intros []. destruct (negb (POP3IMAP user)); [apply N|].
    apply ends_then; [auto with frames|frame_step|]. intros o. destruct (negb o); [apply N|].
    eapply (ends_update _ _ wf); [|apply ends_frames; [done|repeat frame_step]].
    intros c _. unfold wf. cbn. eauto.
  - apply ends_then; [auto with frames|frame_step|]. intros []. apply N.
Qed.

Lemma frames_saslChallenge wr ch : frames_ wr wf (saslChallenge ch).
Proof.
  intros c w Hc. unfold saslChallenge. apply wp_then. cbn [wp put update emit fst snd]. unfold wp.
  destruct (readLine _ _) as [[line|] r]; cbn; (split; [by split|done]).
Qed.
Lemma frames_initial wr args ch : frames_ wr wf (initial_response args ch).
Proof. unfold initial_response. destruct (2 <=? len args); [apply frames_ok|apply frames_saslChallenge]. Qed.

Lemma ends_auth_guard wr tag x (body : conn -> act W unit) :
  (forall c0, ends wr wf (body c0)) ->
  ends wr live (c <-- the_conn ;; if negb (bool_decide (c_state c = stateNotAuth)) then respond_no tag x else body c).
Proof.
  intros H. apply ends_the_conn. intros c0 Hc0. destruct (negb _); [apply ends_frames; [by intros ? [[? ?] ?]|frame_step]|].
  apply (ends_weaken _ wf); [by intros ? [[? ?] ?]|apply H].
Qed.
Lemma ends_cmdLogin wr tag args : ends wr live (cmdLogin ToLower AuthenticateClient POP3IMAP tlsConfig addr t tag args).
Proof.
  apply ends_auth_guard. intros c0. destruct (len args <? 2); [apply ends_frames; [done|frame_step]|apply ends_finishAuth].
Qed.
Lemma ends_cmdAuthenticate wr tag args : ends wr live (cmdAuthenticate ToLower AuthenticateClient POP3IMAP tlsConfig addr t tag args).
Proof.
  apply ends_auth_guard. intros c0. cbv zeta.
  assert (B : forall x, ends wr wf (respond_bad tag x)) by (intros; apply ends_frames; [done|frame_step]).
  destruct (beq _ _); [|destruct (beq _ _); [|apply ends_frames; [done|frame_step]]].
  - unfold authPlain. apply ends_then; [auto with frames|apply frames_initial|]. intros [resp|]; [|apply B].
    destruct (decodeSASLPlain resp) as [[u p]|]; [apply ends_finishAuth|apply B].
  - unfold authLogin. apply ends_then; [auto with frames|apply frames_initial|]. intros [u|]; [|apply B].
    destruct (b64_DecodeString u); [|apply B].
    apply ends_then; [auto with frames|apply frames_saslChallenge|]. intros [p|]; [|apply B].
    destruct (b64_DecodeString p); [apply ends_finishAuth|apply B].
Qed.

Lemma ends_cmdStartTLS wr tag : ends wr live (cmdStartTLS tlsConfig tag).
Proof.
  apply ends_the_conn. intros c0 _. 
  assert (N : forall m : act W unit, frames_ wr (fun c => live c /\ kept c0 c) m -> ends wr (fun c => live c /\ kept c0 c) m)
    by (intros m Hm; apply ends_frames; [by intros ? [[? ?] ?]|exact Hm]).
  destruct (negb tlsConfig); [apply N; frame_step|]. destruct (c_isTLS c0); [apply N; frame_step|].
  destruct (negb _); [apply N; frame_step|].
  destruct (c_upgrade c0).
  - intros c w _. split; done.
  - intros c w _. split; done.
  - intros c w [[H ?] ?]. split; [exact H|done].
Qed.

Lemma frames_enable_all wr P args : stable P -> frames_ wr P (enable_all args).
Proof.
  intros Hst. induction args as [|a args IH]; cbn [enable_all]; [frame_step|].
  apply frames_then; [done| |intros e; apply frames_then; [done|exact IH|intros es; frame_step]].
  unfold enable_one. cbv zeta. repeat first [apply frames_then; [done| |intros] | frame_step].
Qed.
Lemma frames_cmdEnable wr tag args : frames_ wr live (cmdEnable tag args).
Proof. apply frames_guard_auth. intros c0. repeat first [apply frames_enable_all; auto with frames; fail | frame_step]. Qed.
Lemma frames_cmdCompress wr tag args : frames_ wr live (cmdCompress tag args).
Proof. unfold cmdCompress. cbv zeta. repeat frame_step. Qed.
Lemma frames_cmdCapability wr tag : frames_ wr live (cmdCapability tlsConfig tag).
Proof. unfold cmdCapability. repeat frame_step. Qed.
Lemma frames_cmdID wr tag : frames_ wr live (cmdID tag).
Proof. unfold cmdID. repeat frame_step. Qed.
End commands.

Lemma find_key_In {A} (table : list (bytes * A)) key a : find_key table key = Some a -> In (key, a) table.
Proof.
  unfold find_key. destruct (List.find _ table) as [[n x]|] eqn:E; [|done]. simpl. intros [= <-].
  apply List.find_some in E as [H E]. unfold beq in E. simpl in E. apply bool_decide_eq_true in E as ->. done.
Qed.

Section session.
Context {W : Type} `{!ImapStore W} (sv : services W).

Section safe.
Context (acyclic : acyclic_listings W).

Lemma frames_ends {A} wr (m : act W A) : frames wr wf m -> ends wr live m.
Proof. intros H. apply ends_frames; [by intros c [? ?]|]. apply (frames_weaken _ wf); [by intros c [? ?]|done]. Qed.
Lemma frames_live_ends {A} wr (m : act W A) : frames wr live m -> ends wr live m.
Proof. apply ends_frames. by intros c [? ?]. Qed.

Lemma ends_cmdUID tag args :
  ends true live (cmdUID (sv_OpenForCaller sv) (sv_Extract sv) (sv_extractBinary sv) (sv_bodystructure sv) (sv_envelope sv)
  (sv_format_date sv) (sv_ToLower sv) (sv_header_values sv) (sv_ParseDate sv) (sv_ParseInstant sv) (sv_arrival sv) (sv_ParseAddress sv) tag args).
Proof.
  apply ends_guard_selected. intros c0. destruct (arg0 args); [|apply ends_frames; [by intros ? [? ?]|frame_step]]. cbv zeta.
  assert (S : forall m : act W unit, ends true live m -> ends true selected m).
  { intros m. apply ends_weaken. intros c [H E]. split; [done|]. by rewrite E. }
  repeat match goal with |- ends _ _ (if ?b then _ else _) => destruct b end; apply S;
    first [ apply frames_ends; first [apply frames_cmdFetch | apply frames_cmdStore | apply frames_cmdSearch | apply frames_cmdCopy; done
            | apply frames_cmdUIDExpunge | apply frames_cmdMove; done | apply frames_cmdSort | apply frames_cmdThread]
          | apply frames_live_ends; frame_step ].
Qed.

Lemma handler_ends k name h : find_key (imapCommands sv k) name = Some h -> forall tag args, ends true live (h tag args).
Proof.
  intros H%find_key_In tag args. unfold imapCommands in H. simpl In in H.
  repeat (destruct H as [[= <- <-]|H];
    [first [ apply ends_cmdUID
           | apply ends_cmdSelect; done | apply ends_cmdClose | apply ends_cmdUnselect | apply ends_cmdLogout
           | apply ends_cmdLogin | apply ends_cmdAuthenticate | apply ends_cmdStartTLS
           | apply frames_live_ends; first [ apply frames_cmdCapability | apply frames_cmdID | apply frames_cmdCompress | apply frames_cmdEnable
               | apply frames_cmdList; done | apply frames_cmdNamespace | apply frames_cmdStatus; done | apply frames_cmdMyRights; done
               | apply frames_cmdGetACL; done | apply frames_cmdSetACL; done | apply frames_cmdDeleteACL; done | apply frames_cmdListRights; done
               | apply frames_cmdGetQuota | apply frames_cmdGetQuotaRoot | apply frames_cmdSetQuota | apply frames_cmdCreate; done
               | apply frames_cmdDelete; done | apply frames_cmdRename; done | apply frames_cmdSubscribe; done | apply frames_cmdAppend; done ]
           | apply frames_ends; first [ apply frames_cmdNoop | apply frames_cmdIdle | apply frames_cmdCheck | apply frames_cmdFetch
               | apply frames_cmdStore | apply frames_cmdSearch | apply frames_cmdSort | apply frames_cmdThread | apply frames_cmdCopy; done
               | apply frames_cmdMove; done | apply frames_cmdExpunge ] ]|]).
  done.
Qed.

Lemma ends_dispatch k toks : ends true live (dispatch sv k toks).
Proof.
  unfold dispatch. destruct toks as [|t rest]; [apply frames_live_ends; frame_step|].
  destruct (tok_str t); [|apply frames_live_ends; frame_step].
  destruct rest as [|n args]; [apply frames_live_ends; frame_step|].
  destruct (find_key _ _) eqn:E; [by eapply handler_ends|apply frames_live_ends; frame_step].
Qed.

Lemma iter_emit_kept n r c : kept c (Nat.iter n (emit r) c).
Proof. induction n as [|n IH]; simpl; [apply kept_refl|]. eapply kept_trans; [exact IH|]. by split. Qed.

Lemma frames_read_command : frames true live (read_command (W := W)).
Proof.
  intros c w Hc. unfold wp, read_command. cbn [fst snd]. destruct (readCommand _ _ _) as [r rd']. cbn [fst snd].
  split; [|done]. eapply kept_trans; [|apply iter_emit_kept]. by split.
Qed.

(** A turn keeps the connection well-formed and says whether it is still alive. *)
Lemma handle_turn_ok k c w : live c ->
  wp (handle_turn sv k) (fun more s' => wf s'.1 /\ (more = true -> live s'.1)) (c, w).
Proof.
  intros Hc. unfold handle_turn. apply wp_then. eapply wp_mono; [|by apply frames_read_command].
  intros r [c' w'] [K _]. simpl in K. assert (Hc' : live c') by (by eapply stable_live).
  destruct r as [toks|[]]; try (split; [apply Hc'|done]).
  apply wp_then. eapply wp_mono; [|by apply ends_dispatch]. intros [] [c'' w''] [Hwf _]. simpl in *.
  split; [done|]. intros E. split; [done|]. intros E2. unfold wp in E. simpl in E. rewrite bool_decide_eq_true_2 in E; done.
Qed.
End safe.

(** C17. No input makes a session panic: for every byte stream a client sends, plain, inside TLS
    or compressed, whatever the rest of the process does to the stores between commands, the
    connection's loop runs to its end without dereferencing a nil pointer or recursing forever,
    and the connection it leaves has every pointer its state needs. *)
Theorem session_no_panic moments others input isTLS up inflate w :
  acyclic_listings W ->
  exists c' w', handle sv moments others input isTLS up inflate w = Some (tt, (c', w')) /\ wf c'.
Proof.
  intros Hac. unfold handle.
  assert (T : forall fuel k c w, live c -> wp (handle_loop sv moments others fuel k) (fun _ s' => wf s'.1) (c, w)).
  { induction fuel as [|fuel IH]; intros k c w0 Hc; cbn [handle_loop]; [apply Hc|].
    apply wp_then. cbn [wp wake fst snd]. unfold wp at 1. cbn. apply wp_then.
    eapply wp_mono; [|by apply handle_turn_ok]. intros [] [c' w'] [H1 H2]; [by apply IH, H2|exact H1]. }
  set (c0 := new_conn input isTLS up inflate).
  specialize (T (total_input input up inflate) 0%nat
    (emit (RUntagged (lit "OK [CAPABILITY " ++ caps (sv_tlsConfig sv) c0 ++ lit "] hermEX IMAP4rev1 ready")) c0) w).
  unfold wp in T. destruct (handle_loop _ _ _ _ _ _) as [[[] [c' w']]|].
  - exists c', w'. split; [done|]. by apply T.
  - destruct T. by split.
Qed.

(** ** Read-only selections *)

(** A mailbox selected with EXAMINE, or a public folder without the right to edit *)
Definition ro (c : conn) : Prop := selected c /\ c_readOnly c = true.

(** The commands that write to a store other than through the selected mailbox *)
Definition other_writers : list bytes :=
  [lit "APPEND"; lit "COPY"; lit "CREATE"; lit "DELETE"; lit "RENAME"; lit "SUBSCRIBE"; lit "UNSUBSCRIBE"; lit "SETACL"; lit "DELETEACL"].
Definition writes_elsewhere (toks : list token) : bool :=
  match toks with
  | _ :: n :: args =>
      let name := ToUpper (default [] (tok_str n)) in
      existsb (beq name) other_writers || (beq name (lit "UID") && beq (ToUpper (arg_text args 0)) (lit "COPY"))
  | _ => false
  end.

Lemma ro_live c : ro c -> live c.
Proof. intros [[H E] _]. split; [done|]. by rewrite E. Qed.
Lemma ro_wf c : ro c -> wf c.
Proof. by intros [[H E] _]. Qed.

Lemma ends_ro {A} wr (m : act W A) : frames wr ro m -> ends wr ro m.
Proof. apply ends_frames, ro_wf. Qed.
Lemma ro_of_wf {A} wr (m : act W A) : frames wr wf m -> ends wr ro m.
Proof. intros H. apply ends_ro. apply (frames_weaken _ wf); [apply ro_wf|done]. Qed.
Lemma ro_of_live {A} wr (m : act W A) : frames wr live m -> ends wr ro m.
Proof. intros H. apply ends_ro. apply (frames_weaken _ live); [apply ro_live|done]. Qed.
Lemma ro_of_ends {A} wr (m : act W A) : ends wr live m -> ends wr ro m.
Proof. apply ends_weaken, ro_live. Qed.

(** A guarded writer refuses a read-only selection. *)
Lemma ro_refuses tag t1 t2 (body : conn -> act W unit) :
  frames false ro (c <-- the_conn ;; if negb (bool_decide (c_state c = stateSelected)) then respond_no tag t1
                                     else if c_readOnly c then respond_no tag t2 else body c).
Proof. apply frames_guard_ro. intros c0 _ ->. frame_step. Qed.

Lemma ends_cmdClose_ro tag : ends false ro (cmdClose tag).
Proof.
  unfold cmdClose. apply ends_the_conn. intros c0 [[_ E] Hro]. rewrite bool_decide_eq_true_2, Hro by done. cbn [negb].
  apply ends_then; [apply stable_and; [apply stable_ro|apply stable_kept]|frame_step|]. intros [].
  apply ends_leave. intros c [[H _] _]. auto with frames.
Qed.
Lemma frames_cmdIdle_ro tag : frames false wf (cmdIdle [] tag).
Proof.
  unfold cmdIdle, idle_line. frame_step. apply (frames_weaken _ wf); [by intros c [? ?]|]. cbn [each].
  repeat first [apply frames_poll | frame_step].
Qed.

Section readonly.
Context (acyclic : acyclic_listings W).

Lemma ends_cmdUID_ro tag args : beq (ToUpper (arg_text args 0)) (lit "COPY") = false ->
  ends false ro (cmdUID (sv_OpenForCaller sv) (sv_Extract sv) (sv_extractBinary sv) (sv_bodystructure sv) (sv_envelope sv)
  (sv_format_date sv) (sv_ToLower sv) (sv_header_values sv) (sv_ParseDate sv) (sv_ParseInstant sv) (sv_arrival sv) (sv_ParseAddress sv) tag args).
Proof.
  intros Hc. apply ends_ro, frames_guard_ro. intros c0 _ _. unfold arg_text in Hc. fold (arg0 args) in Hc.
  destruct (arg0 args) as [sub|]; [|frame_step]. cbv zeta. simpl in Hc. rewrite Hc.
  assert (S : forall m : act W unit, frames false wf m -> frames false ro m).
  { intros m. apply frames_weaken, ro_wf. }
  repeat match goal with |- frames _ _ (if ?b then _ else _) => destruct b end;
    first [ frame_step | apply frames_cmdFetch_ro | apply ro_refuses
          | apply S; first [apply frames_cmdSearch | apply frames_cmdSort | apply frames_cmdThread] ].
Qed.

Lemma handler_ro k toks t n args h :
  toks = t :: n :: args -> writes_elsewhere toks = false -> mo_wakes k = [] ->
  find_key (imapCommands sv k) (ToUpper (default [] (tok_str n))) = Some h -> forall tag, ends false ro (h tag args).
Proof.
  intros -> Hw Hk H%find_key_In tag. cbn [writes_elsewhere] in Hw. apply orb_false_iff in Hw as [Hw Hu].
  unfold imapCommands in H. rewrite Hk in H. simpl In in H. revert Hw Hu H. generalize (ToUpper (default [] (tok_str n))) as name.
  intros name Hw Hu H.
  repeat (destruct H as [[= <- <-]|H];
    [first [ discriminate Hw
           | apply ends_cmdUID_ro; exact Hu
           | apply ends_cmdClose_ro
           | apply ro_of_ends; first [apply ends_cmdSelect; done | apply ends_cmdUnselect | apply ends_cmdLogout
               | apply ends_cmdLogin | apply ends_cmdAuthenticate | apply ends_cmdStartTLS]
           | apply ends_ro; first [apply ro_refuses | apply frames_cmdFetch_ro]
           | apply ro_of_live; first [ apply frames_cmdCapability | apply frames_cmdID | apply frames_cmdCompress | apply frames_cmdEnable
               | apply frames_cmdList; done | apply frames_cmdNamespace | apply frames_cmdStatus; done | apply frames_cmdMyRights; done
               | apply frames_cmdGetACL; done | apply frames_cmdListRights; done
               | apply frames_cmdGetQuota | apply frames_cmdGetQuotaRoot | apply frames_cmdSetQuota ]
           | apply ro_of_wf; first [ apply frames_cmdNoop | apply frames_cmdIdle_ro | apply frames_cmdCheck
               | apply frames_cmdSearch | apply frames_cmdSort | apply frames_cmdThread ] ]|]).
  done.
Qed.
End readonly.

(** C20. A read-only selection is read-only: in a mailbox opened with EXAMINE, or a public folder
    the caller may not edit, no command but those that name another mailbox (APPEND, COPY and
    the folder and ACL commands) changes anything in any store: STORE, EXPUNGE, UID EXPUNGE and
    MOVE are refused, CLOSE does not expunge and FETCH does not set [\Seen]. *)
Theorem read_only_untouched k toks c w :
  acyclic_listings W -> selected c -> c_readOnly c = true -> mo_wakes k = [] -> writes_elsewhere toks = false ->
  exists c' w', dispatch sv k toks (c, w) = Some (tt, (c', w')) /\ wd_store w' = wd_store w.
Proof.
  intros Hac Hs Hro Hk Hw.
  assert (E : ends false ro (dispatch sv k toks)).
  { unfold dispatch. destruct toks as [|t [|n args]].
    - apply ro_of_wf; frame_step.
    - destruct (tok_str t); apply ro_of_wf; frame_step.
    - destruct (tok_str t); [|apply ro_of_wf; frame_step].
      destruct (find_key _ _) eqn:E; [by eapply handler_ro|apply ro_of_wf; frame_step]. }
  specialize (E c w (conj Hs Hro)). unfold wp in E. destruct (dispatch sv k toks (c, w)) as [[[] [c' w']]|]; [|done].
  exists c', w'. split; [done|]. by apply E.
Qed.

(** ** Before the login *)

Definition notAuth (c : conn) : Prop := c_state c = stateNotAuth.
Lemma stable_notAuth : stable notAuth.
Proof. intros c c' H K. unfold notAuth. by rewrite (kept_state _ _ K). Qed.
Hint Resolve stable_notAuth : frames.

(** What a login may do: nothing, or open the mailbox the directory names *)
Definition logged_in (c c' : conn) : Prop :=
  c_state c' = stateNotAuth \/ c_state c' = stateLogout
  \/ (c_state c' = stateAuth /\ exists pass path, sv_AuthenticateClient sv (c_user c') pass = Some path
        /\ sv_POP3IMAP sv (c_user c') = true /\ c_st c' = Some path).
Definition gate {A} (m : act W A) : Prop := forall c w, notAuth c ->
  wp m (fun _ s' => logged_in c s'.1 /\ wd_store s'.2 = wd_store w) (c, w).

Lemma gate_frames {A} (m : act W A) : frames false notAuth m -> gate m.
Proof.
  intros H c w Hc. eapply wp_mono; [|by apply H]. intros a [c' w'] [K E]. simpl in *. split; [left|by apply E].
  by rewrite (kept_state _ _ K).
Qed.
Lemma gate_then {A B} (m : act W A) (k : A -> act W B) : frames false notAuth m -> (forall a, gate (k a)) -> gate (then_ m k).
Proof.
  intros Hm Hk c w Hc. apply wp_then. eapply wp_mono; [|by apply Hm]. intros a [c' w'] [K E]. simpl in *.
  eapply wp_mono; [|apply Hk; by eapply stable_notAuth]. intros b [c'' w''] [L E2]. simpl in *. split; [exact L|].
  rewrite E2. by apply E.
Qed.

Lemma gate_finishAuth tag user pass t :
  gate (finishAuth (sv_ToLower sv) (sv_AuthenticateClient sv) (sv_POP3IMAP sv) (sv_tlsConfig sv) (sv_addr sv) t tag user pass).
Proof.
  unfold finishAuth. assert (N : forall x, gate (respond_no tag x)) by (intros; apply gate_frames; frame_step).
  apply gate_then; [frame_step|]. intros a. destruct (negb a); [apply N|].
  destruct (sv_AuthenticateClient sv user pass) as [path|] eqn:Ea.
  - apply gate_then; [frame_step|]. intros []. destruct (sv_POP3IMAP sv user) eqn:Ep; cbn [negb]; [|apply N].
    apply gate_then; [frame_step|]. intros o. destruct (negb o); [apply N|].
    intros c w Hc. unfold wp. cbn. split; [|done]. right; right. split; [done|]. eauto.
  - apply gate_then; [frame_step|]. intros []. apply N.
Qed.

Lemma frames_sasl ch : frames (W := W) false notAuth (saslChallenge ch).
Proof.
  intros c w Hc. unfold saslChallenge. apply wp_then. cbn [wp put update emit fst snd]. unfold wp.
  destruct (readLine _ _) as [[line|] r]; cbn; (split; [by split|done]).
Qed.
Lemma frames_initial_notAuth args ch : frames (W := W) false notAuth (initial_response args ch).
Proof. unfold initial_response. destruct (2 <=? len args); [apply frames_ok|apply frames_sasl]. Qed.

(** A command with a state guard refuses before the login. *)
Lemma notAuth_refuses_selected tag t (body : conn -> act W unit) :
  gate (c <-- the_conn ;; if negb (bool_decide (c_state c = stateSelected)) then respond_no tag t else body c).
Proof.
  apply gate_frames. apply frames_the_conn. intros c0 Hc0. rewrite bool_decide_eq_false_2 by (unfold notAuth in Hc0; congruence). cbn [negb]. frame_step.
Qed.
Lemma notAuth_refuses tag t (body : conn -> act W unit) :
  gate (c <-- the_conn ;; if bool_decide (c_state c = stateNotAuth) then respond_no tag t else body c).
Proof. apply gate_frames. apply frames_the_conn. intros c0 Hc0. rewrite bool_decide_eq_true_2; [frame_step|done]. Qed.
Lemma notAuth_acl tag args o (k : option (bytes * Z) -> act W unit) : gate (k None) -> gate (r <-- aclAdminTarget o tag args ;; k r).
Proof.
  intros Hk c w Hc. apply wp_then. unfold aclAdminTarget, wp, then_. cbn. rewrite bool_decide_eq_true_2 by done. cbn.
  specialize (Hk (emit (RTagged tag (lit "NO") (lit "must authenticate first")) c) w Hc). unfold wp in Hk. cbn in Hk.
  destruct (k None _) as [[a [c' w']]|]; [|done]. exact Hk.
Qed.

Lemma gate_poll : frames (W := W) false notAuth poll.
Proof. apply frames_the_conn. intros c0 Hc0. rewrite bool_decide_eq_false_2 by (unfold notAuth in Hc0; congruence). apply frames_ok. Qed.
Lemma gate_idle wakes tag : gate (cmdIdle wakes tag).
Proof.
  apply gate_frames, frames_the_conn. intros c0 Hc0. rewrite bool_decide_eq_false_2 by (unfold notAuth in Hc0; congruence). cbn [negb]. frame_step.
Qed.
Lemma gate_logout tag : gate (cmdLogout tag).
Proof. intros c w Hc. unfold wp. cbn. split; [right; by left|done]. Qed.
Lemma gate_startTLS tag : gate (cmdStartTLS (sv_tlsConfig sv) tag).
Proof.
  intros c w Hc. unfold cmdStartTLS, wp, then_. cbn. rewrite bool_decide_eq_true_2 by done. cbn [negb].
  destruct (negb _); [by split; [left|]|]. destruct (c_isTLS c); [by split; [left|]|].
  destruct (c_upgrade c); (split; [|done]); [by right; left|by right; left|by left].
Qed.

(** The guard of LOGIN and AUTHENTICATE *)
Lemma gate_not_yet tag x (body : conn -> act W unit) : (forall c0, gate (body c0)) ->
  gate (c <-- the_conn ;; if negb (bool_decide (c_state c = stateNotAuth)) then respond_no tag x else body c).
Proof.
  intros H c w Hc. apply wp_then. cbn [the_conn wp fst]. unfold wp at 1. cbn. rewrite bool_decide_eq_true_2 by done.
  by apply (H c c w).
Qed.
Lemma gate_login t tag args :
  gate (cmdLogin (sv_ToLower sv) (sv_AuthenticateClient sv) (sv_POP3IMAP sv) (sv_tlsConfig sv) (sv_addr sv) t tag args).
Proof. apply gate_not_yet. intros c0. destruct (len args <? 2); [apply gate_frames; frame_step|apply gate_finishAuth]. Qed.
Lemma gate_authenticate t tag args :
  gate (cmdAuthenticate (sv_ToLower sv) (sv_AuthenticateClient sv) (sv_POP3IMAP sv) (sv_tlsConfig sv) (sv_addr sv) t tag args).
Proof.
  apply gate_not_yet. intros c0. cbv zeta.
  assert (B : forall x, gate (respond_bad tag x)) by (intros; apply gate_frames; frame_step).
  destruct (beq _ _); [|destruct (beq _ _); [|apply gate_frames; frame_step]].
  - unfold authPlain. apply gate_then; [apply frames_initial_notAuth|]. intros [resp|]; [|apply B].
    destruct (decodeSASLPlain resp) as [[u p]|]; [apply gate_finishAuth|apply B].
  - unfold authLogin. apply gate_then; [apply frames_initial_notAuth|]. intros [u|]; [|apply B].
    destruct (b64_DecodeString u); [|apply B].
    apply gate_then; [apply frames_sasl|]. intros [p|]; [|apply B].
    destruct (b64_DecodeString p); [apply gate_finishAuth|apply B].
Qed.

Lemma handler_gate k name h : find_key (imapCommands sv k) name = Some h -> forall tag args, gate (h tag args).
Proof.
  intros H%find_key_In tag args. unfold imapCommands in H. simpl In in H.
  repeat (destruct H as [[= <- <-]|H];
    [first [ apply notAuth_refuses_selected | apply notAuth_refuses
           | apply gate_login | apply gate_authenticate | apply gate_startTLS | apply gate_logout | apply gate_idle
           | apply notAuth_acl; apply gate_frames; frame_step
           | apply gate_frames; first [ progress unfold cmdCapability | progress unfold cmdID | progress unfold cmdCompress; cbv zeta | progress unfold cmdNoop ];
             repeat first [apply gate_poll | frame_step]; fail ]|]).
  done.
Qed.

(** C21. Nothing happens before the login: a command of an unauthenticated client changes no
    store, and leaves the client unauthenticated or the session over, unless the directory
    accepted a name and password whose account may use IMAP; the client is then that user, on
    the mailbox the directory named. *)
Theorem login_required k toks c w :
  c_state c = stateNotAuth ->
  exists c' w', dispatch sv k toks (c, w) = Some (tt, (c', w')) /\ wd_store w' = wd_store w /\ logged_in c c'.
Proof.
  intros Hc.
  assert (E : gate (dispatch sv k toks)).
  { unfold dispatch. destruct toks as [|t rest]; [apply gate_frames; frame_step|].
    destruct (tok_str t); [|apply gate_frames; frame_step].
    destruct rest as [|n args]; [apply gate_frames; frame_step|].
    destruct (find_key _ _) eqn:E; [by eapply handler_gate|apply gate_frames; frame_step]. }
  specialize (E c w Hc). unfold wp in E. destruct (dispatch sv k toks (c, w)) as [[[] [c' w']]|]; [|done].
  exists c', w'. destruct E. done.
Qed.
End session.

(** ** The session on the one-folder store *)

Definition ex_services : services folder_store :=
  mkServices id (fun _ _ => []) (fun _ => None) (fun _ => None) (fun _ => 0) (fun _ => None) (fun _ => None) (fun _ _ => [])
    (fun raw _ => Some raw) (fun _ _ => None) (fun _ _ => []) (fun _ => []) (fun st _ _ => (st, false)) (fun _ _ => None)
    (fun user pass => if beq user (lit "ann") && beq pass (lit "pw") then Some (lit "/ann") else None) (fun _ => true) false (lit "1.2.3.4:5").
Definition ex_moment : moment folder_store := mkMoment (mkDate 2024 5 1, 0) (mkReadings 0 0 0 0) [].

Lemma folder_acyclic : acyclic_listings folder_store.
Proof. intros st path fs [= <-]. eexists. vm_compute. reflexivity. Qed.

(** A whole session: log in, select, fetch a body, expunge, log out *)
Example session_ex :
  let input := lit "a LOGIN ann pw" ++ crlf ++ lit "b SELECT inbox" ++ crlf ++ lit "c FETCH 1 BODY[]" ++ crlf
    ++ lit "d EXPUNGE" ++ crlf ++ lit "e LOGOUT" ++ crlf in
  option_map (fun r => drop 10 (map render (c_out r.2.1)))
    (handle ex_services (fun _ => ex_moment) (fun _ w => w) input false Pipelined [] (ex_world false [msg 3 0; msg 5 8]))
  = Some [lit "* 1 FETCH (BODY[] {1}" ++ crlf ++ lit "x FLAGS (\Seen))" ++ crlf; lit "c OK FETCH completed" ++ crlf;
          lit "* 2 EXPUNGE" ++ crlf; lit "d OK EXPUNGE completed" ++ crlf;
          lit "* BYE hermEX IMAP logging out" ++ crlf; lit "e OK LOGOUT completed" ++ crlf].
Proof. vm_compute. reflexivity. Qed.

Lemma session_no_panic_witness :
  exists c' w', handle ex_services (fun _ => ex_moment) (fun _ w => w) (lit "a LOGIN ann pw" ++ crlf ++ lit "b STORE 1 FLAGS ()" ++ crlf)
    false Pipelined [] (ex_world false [msg 3 0]) = Some (tt, (c', w')) /\ wf c'.
Proof. apply (session_no_panic ex_services). exact folder_acyclic. Defined.

Lemma read_only_untouched_witness :
  exists c' w', dispatch ex_services ex_moment [tok_atom (lit "a"); tok_atom (lit "EXPUNGE")] (set_readOnly true ex_conn, ex_world false [msg 3 8])
    = Some (tt, (c', w')) /\ wd_store w' = wd_store (ex_world false [msg 3 8]).
Proof.
  apply (read_only_untouched ex_services ex_moment); [exact folder_acyclic| |reflexivity..].
  split; [|reflexivity]. unfold wf. simpl. repeat split; by eexists.
Defined.

Lemma login_required_witness :
  exists c' w', dispatch ex_services ex_moment [tok_atom (lit "a"); tok_atom (lit "login"); tok_atom (lit "ann"); tok_atom (lit "pw")]
    (new_conn [] false Pipelined [], ex_world false []) = Some (tt, (c', w'))
    /\ wd_store w' = wd_store (ex_world false []) /\ logged_in ex_services (new_conn [] false Pipelined []) c'.
Proof. apply (login_required ex_services ex_moment). reflexivity. Defined.

(** ** What the session gets wrong *)

(** A body read that sets [\Seen] reports the flags of before when the client also asked for
    them. *)
Example fetch_reports_old_flags :
  let toks := [tok_atom (lit "a"); tok_atom (lit "FETCH"); tok_atom (lit "1"); tok tLParen; tok_atom (lit "FLAGS");
    tok_atom (lit "BODY"); tok tLBracket; tok tRBracket; tok tRParen] in
  match dispatch ex_services ex_moment toks (ex_conn, ex_world false [msg 3 0; msg 5 8; msg 7 0]) with
  | Some (_, (c, w)) => (render <$> head (c_out c), mi_Flags <$> head (map fst (fs_msgs (wd_store w))))
  | None => (None, None)
  end = (Some (lit "* 1 FETCH (FLAGS () BODY[] {1}" ++ crlf ++ lit "x)" ++ crlf), Some FlagSeen).
Proof. vm_compute. reflexivity. Qed.

(** A MULTIAPPEND whose second group is malformed is refused, but its first message stays. *)
Example malformed_append_stays :
  let toks := [tok_atom (lit "a"); tok_atom (lit "APPEND"); tok_atom (lit "INBOX"); mkToken tString (lit "one") true; tok_atom (lit "two")] in
  match dispatch ex_services ex_moment toks (ex_conn, ex_world false []) with
  | Some (_, (c, w)) => (render <$> last (c_out c), map snd (fs_msgs (wd_store w)))
  | None => (None, [])
  end = (Some (lit "a BAD APPEND requires a message literal" ++ crlf), [lit "one"]).
Proof. vm_compute. reflexivity. Qed.

(** * IMAP: access control lists over the permission table

    The rights a SETACL stores and the letters it reads back, and the composition of DELETEACL
    with the permission table of the store. *)

(** ** Letters and rights *)

Lemma has_right_lor_split a b r : has_right (Z.lor a b) r = has_right a r || has_right b r.
Proof.
  unfold has_right. rewrite Z.land_lor_distr_l. destruct (Z.eqb_spec (Z.land a r) 0) as [->|Ha]; cbn [negb orb].
  - by rewrite Z.lor_0_l.
  - destruct (Z.eqb_spec (Z.lor (Z.land a r) (Z.land b r)) 0) as [E|]; [|done]. apply Z.lor_eq_0_iff in E. tauto.
Qed.

(** The rights of one letter *)
Definition letter_rights (b : Z) : Z := fold_left (fun r m => if b =? fst m then Z.lor r (snd m) else r) aclRights 0.

Lemma fold_lor (b r : Z) (l : list (Z * Z)) :
  fold_left (fun r m => if b =? fst m then Z.lor r (snd m) else r) l r
  = Z.lor r (fold_left (fun r m => if b =? fst m then Z.lor r (snd m) else r) l 0).
Proof.
  revert r. induction l as [|m l IH]; intros r; simpl; [by rewrite Z.lor_0_r|].
  rewrite IH. destruct (b =? fst m); [|done]. rewrite (IH (Z.lor 0 (snd m))), Z.lor_0_l. by rewrite Z.lor_assoc.
Qed.

Lemma has_right_acl s r : has_right (aclToRights s) r = existsb (fun b => has_right (letter_rights b) r) s.
Proof.
  unfold aclToRights. assert (G : forall acc, has_right (fold_left (fun r b => fold_left (fun r m => if b =? fst m then Z.lor r (snd m) else r) aclRights r) s acc) r
    = has_right acc r || existsb (fun b => has_right (letter_rights b) r) s).
  { induction s as [|b s IH]; intros acc; cbn [fold_left existsb]; [by rewrite orb_false_r|].
    rewrite IH, fold_lor, has_right_lor_split. by rewrite orb_assoc. }
  rewrite G. done.
Qed.

Lemma letter_rights_of b f : f ∈ map snd aclRights -> has_right (letter_rights b) f = true <-> In (b, f) aclRights.
Proof.
  intros Hf. destruct (decide (b ∈ map fst aclRights)) as [Hb|Hb].
  - apply list_elem_of_In in Hf, Hb. simpl in Hf, Hb.
    repeat destruct Hb as [<-|Hb]; try done; repeat destruct Hf as [<-|Hf]; try done; vm_compute; split; naive_solver.
  - split.
    + intros H. exfalso. assert (letter_rights b = 0) as E; [|by rewrite E in H].
      unfold letter_rights. revert Hb. generalize aclRights. induction l as [|m l IH]; [done|]. simpl. intros Hb.
      destruct (Z.eqb_spec b (fst m)); [set_solver|]. apply IH. set_solver.
    + intros H. exfalso. apply Hb. apply list_elem_of_In. by apply (in_map fst) in H.
Qed.

Lemma rightsToACL_In r x f : In (x, f) aclRights -> In x (rightsToACL r) <-> has_right r f = true.
Proof.
  intros Hx. unfold rightsToACL. rewrite in_map_iff. setoid_rewrite filter_In. split.
  - intros ([y g] & <- & Hy & H). simpl in *. fold (has_right r g) in H. replace f with g; [done|].
    repeat destruct Hx as [[= <- <-]|Hx]; try done; repeat destruct Hy as [[= ?]|Hy]; try done; try lia; subst; done.
  - intros H. exists (x, f). split; [done|]. by split.
Qed.

Lemma has_right_masked a f : f ∈ map snd aclRights -> has_right (Z.land a RightsMaxROP) f = has_right a f.
Proof.
  intros Hf. unfold has_right. rewrite <- Z.land_assoc. do 3 f_equal.
  apply list_elem_of_In in Hf. repeat destruct Hf as [<-|Hf]; done.
Qed.

(** What the implied rights add to the letters: lookup *)
Lemma normalized_right a f : f ∈ map snd aclRights ->
  has_right (NormalizeRights a false) f
  = has_right a f || (bool_decide (f = FrightsVisible) && (has_right a FrightsReadAny || has_right a FrightsOwner)).
Proof.
  intros Hf. rewrite NormalizeRights_bits, has_right_lor_split. f_equal. unfold implied_rights.
  apply list_elem_of_In in Hf. destruct (has_right a FrightsReadAny), (has_right a FrightsEditAny), (has_right a FrightsDeleteAny),
    (has_right a FrightsOwner); repeat destruct Hf as [<-|Hf]; done.
Qed.

(** SETACL grants what it is told: of the letters a mailbox then shows for the identifier,
    each is one the client named or another letter of the same stored right, or the lookup
    right that read and administer rights imply; and every named letter is shown. *)
Theorem setacl_letters current s x f :
  HasPrefix s (lit "+") = false -> HasPrefix s (lit "-") = false -> In (x, f) aclRights ->
  In x (rightsToACL (setacl_rights current s)) <->
  exists y g, In (y, g) aclRights /\ In y s /\ (g = f \/ f = FrightsVisible /\ (g = FrightsReadAny \/ g = FrightsOwner)).
Proof.
  intros Hp Hm Hx. unfold setacl_rights. rewrite Hp, Hm. rewrite (rightsToACL_In _ _ _ Hx).
  assert (Hf : f ∈ map snd aclRights) by (apply list_elem_of_In; by apply (in_map snd) in Hx).
  assert (HR : FrightsReadAny ∈ map snd aclRights) by (apply list_elem_of_In; simpl; tauto).
  assert (HO : FrightsOwner ∈ map snd aclRights) by (apply list_elem_of_In; simpl; tauto).
  assert (A : forall g, g ∈ map snd aclRights -> has_right (aclToRights s) g = true <-> exists y, In (y, g) aclRights /\ In y s).
  { intros g Hg. rewrite has_right_acl, existsb_exists. setoid_rewrite letter_rights_of; [|done].
    split; intros (y & H1 & H2); by exists y. }
  rewrite normalized_right, !has_right_masked by done.
  rewrite orb_true_iff, andb_true_iff, orb_true_iff, bool_decide_eq_true, !A by done. clear. generalize aclRights. intros l. split.
  - intros [(y & ? & ?)|[-> [(y & ? & ?)|(y & ? & ?)]]];
      [exists y, f|exists y, FrightsReadAny|exists y, FrightsOwner]; tauto.
  - intros (y & g & Hy & Hs & [->|[-> [-> | ->]]]); eauto 7.
Qed.

Lemma setacl_letters_witness : In 108 (rightsToACL (setacl_rights 0 (lit "rwt"))) <->
  exists y g, In (y, g) aclRights /\ In y (lit "rwt")
    /\ (g = FrightsVisible \/ FrightsVisible = FrightsVisible /\ (g = FrightsReadAny \/ g = FrightsOwner)).
Proof. apply (setacl_letters 0 (lit "rwt") 108 FrightsVisible); [reflexivity..|]. simpl. tauto. Defined.

(** ** DELETEACL on the permission table *)

(** DELETEACL of an identifier that has no entry deletes the default member's row: the
    identifier is taken for member 0, so everyone without a row of their own loses the rights
    the folder granted them. *)
Theorem deleteacl_unknown_drops_default folder_exists new_id t f id :
  existsb (fun e => beq (pe_Name e) id) (Permission.ListPermissions t f) = false ->
  let '(t', success) := Permission.ModifyPermissions folder_exists new_id t f false
    [mkChange PermRemove (aclMemberID (Permission.ListPermissions t f) id) id 0] in
  success = true /\ forall owners u, Permission.IsStoreOwner owners u = false -> lookupPermission t' f u = None ->
    Permission.ResolvePermission owners t' f u = 0.
Proof.
  intros H. assert (E : aclMemberID (Permission.ListPermissions t f) id = 0).
  { unfold aclMemberID. destruct (List.find _ _) eqn:Ef; [|done]. apply List.find_some in Ef as [H1 H2].
    assert (existsb (fun e => beq (pe_Name e) id) (Permission.ListPermissions t f) = true) by (apply existsb_exists; eauto). congruence. }
  rewrite E. unfold Permission.ModifyPermissions. cbn [apply_changes apply_change pc_Op pc_MemberID mbind option_bind].
  split; [done|]. intros owners u Ho Hu. unfold Permission.ResolvePermission. rewrite Ho, Hu.
  unfold lookupPermission. rewrite (proj2 (find_row_None _ f (lit "default"))); [done|].
  intros r [_ Hr]%list_elem_of_In%filter_In. unfold is_row. rewrite negb_true_iff in Hr. exact Hr.
Qed.

Lemma deleteacl_unknown_drops_default_witness :
  let t := [mkRow 1 13 (lit "default") 0x401] in
  let '(t', success) := Permission.ModifyPermissions (fun _ => true) next_row_id t 13 false
    [mkChange PermRemove (aclMemberID (Permission.ListPermissions t 13) (lit "nobody")) (lit "nobody") 0] in
  success = true /\ forall owners u, Permission.IsStoreOwner owners u = false -> lookupPermission t' 13 u = None ->
    Permission.ResolvePermission owners t' 13 u = 0.
Proof. apply (deleteacl_unknown_drops_default (fun _ => true) next_row_id). reflexivity. Defined.
