(* ===== verification/Smtp.v ===== *)
(** * The SMTP server ([internal/smtp])

    One connection from the greeting to QUIT: command lines, the parameters of MAIL and RCPT,
    DATA with its dot-encoding, BDAT with its counted chunks, AUTH and STARTTLS.  What happens
    to a message is decided by the backend, an interface; the reverse lookup of the client and
    the clock are arguments of a turn.  A handler that would dereference a nil buffer has no
    result.  Activity logging is left out. *)

From stdpp Require Import base list numbers.
From Stdlib Require Import ZArith Lia.
From Stdlib Require String.
Import String.StringSyntax.
From S2P Require Import Prelude Gostr Netline.
Open Scope Z_scope.

(** ** The backend *)

Record MailParams := mkMailParams { mp_RET : bytes; mp_ENVID : bytes }.
Record RcptParams := mkRcptParams { rp_Notify : bytes; rp_ORCPT : bytes }.

(** An error, by what [errors.AsType] and [errors.Is] find in its chain: the message of a
    [TempError], the message of a [PermError], and whether [errTooLarge] is in it *)
Record s_error := mkError { er_temp : option bytes; er_perm : option bytes; er_large : bool }.

(** How the reader handed to [Data] ends *)
Inductive ending := EndEOF | EndTooLarge.

(** [Session]; [se_Auth] is there when the session is also an [Authenticator].  [Data] sees
    the content of its reader and how it ends. *)
Class Session (B : Type) := {
  se_Mail : B -> bytes -> MailParams -> B * option s_error;
  se_Rcpt : B -> bytes -> RcptParams -> B * option s_error;
  se_Data : B -> bytes -> ending -> B * option s_error;
  se_Reset : B -> B;
  se_Logout : B -> B;
  se_Auth : option (B -> bytes -> bytes -> B * bool) }.

(** ** The server's settings *)

Record Server := mkServer { sv_Hostname : bytes; sv_TLSConfig : bool; sv_maxSize : Z; sv_maxCommandLine : Z }.

Definition SetMaxSize (sv : Server) (n : Z) : Server :=
  mkServer (sv_Hostname sv) (sv_TLSConfig sv) (if n <? 0 then 0 else n) (sv_maxCommandLine sv).
Definition SetMaxCommandLine (sv : Server) (n : Z) : Server :=
  mkServer (sv_Hostname sv) (sv_TLSConfig sv) (sv_maxSize sv) (if n <? 0 then 0 else n).
Definition hostname (sv : Server) : bytes := match sv_Hostname sv with [] => lit "localhost" | h => h end.

Definition defaultMaxCommandLine : Z := 512.
Definition commandLineLimit (sv : Server) : Z :=
  if 0 <? sv_maxCommandLine sv then sv_maxCommandLine sv else defaultMaxCommandLine.

(** ** Replies *)

Inductive resp := Reply (code : Z) (msg : bytes) | Ehlo (lines : list bytes).

Fixpoint ehlo_lines (ls : list bytes) : bytes :=
  match ls with
  | [] => []
  | [l] => lit "250 " ++ l ++ crlf
  | l :: ls => lit "250-" ++ l ++ crlf ++ ehlo_lines ls
  end.
Definition render (r : resp) : bytes :=
  match r with
  | Reply code msg => dec code ++ lit " " ++ msg ++ crlf
  | Ehlo lines => ehlo_lines lines
  end.

(** The replies that reached the link, whether one failed, and how many more the link takes
    ([None]: it does not fail).  Every reply ends in a flush. *)
Record ew := mkEw { ew_sent : list resp; ew_err : bool; ew_credit : option nat }.

Definition send (w : ew) (r : resp) : ew :=
  if ew_err w then w
  else match ew_credit w with
       | None => mkEw (ew_sent w ++ [r]) false None
       | Some (S n) => mkEw (ew_sent w ++ [r]) false (Some n)
       | Some O => mkEw (ew_sent w) true (Some O)
       end.

Definition defaultEnhanced (code : Z) : bytes :=
  if code =? 220 then []
  else if code / 100 =? 2 then lit "2.0.0"
  else if code / 100 =? 4 then lit "4.0.0"
  else if code / 100 =? 5 then lit "5.0.0"
  else [].

Definition all_digits (p : bytes) : bool := negb (beq p []) && forallb is_digit p.
Definition startsWithEnhanced (msg : bytes) : bool :=
  match Split (Cut msg 32).1 46 with
  | [a; b; c] => all_digits a && all_digits b && all_digits c
                 && (beq a (lit "2") || beq a (lit "4") || beq a (lit "5"))
  | _ => false
  end.

Definition reply (w : ew) (code : Z) (msg : bytes) : ew :=
  let enh := defaultEnhanced code in
  send w (Reply code (if negb (beq enh []) && negb (startsWithEnhanced msg) then enh ++ lit " " ++ msg else msg)).

Definition replySessionErr (w : ew) (e : s_error) : ew :=
  match er_temp e, er_perm e with
  | Some m, _ => reply w 451 m
  | None, Some m => reply w 550 m
  | None, None => reply w 550 (lit "5.3.0 recipient rejected")
  end.

Definition replyDataErr (w : ew) (e : s_error) : ew :=
  match er_temp e, er_perm e with
  | Some m, _ => reply w 451 m
  | None, p => if er_large e then reply w 552 (lit "message exceeds size limit")
               else match p with
                    | Some m => reply w 554 m
                    | None => reply w 554 (lit "5.3.0 transaction failed")
                    end
  end.

Definition greetEHLO (sv : Server) (w : ew) (arg : bytes) (isTLS authAvailable : bool) : ew :=
  send w (Ehlo (
    [hostname sv ++ lit " Hello " ++ TrimSpace arg; lit "PIPELINING"; lit "8BITMIME"; lit "ENHANCEDSTATUSCODES";
     lit "SMTPUTF8"; lit "CHUNKING"; lit "BINARYMIME"; lit "MT-PRIORITY"; lit "DSN"]
    ++ (if 0 <? sv_maxSize sv then [lit "SIZE " ++ dec (sv_maxSize sv)] else [])
    ++ (if sv_TLSConfig sv && negb isTLS then [lit "STARTTLS"] else [])
    ++ (if authAvailable then [lit "AUTH PLAIN LOGIN"] else []))).

(** ** The arguments of MAIL, RCPT and BDAT *)

Definition extractPath (arg prefix : bytes) : option bytes :=
  let arg := TrimSpace arg in
  if (len arg <? len prefix) || negb (EqualFold (take (length prefix) arg) prefix) then None
  else match TrimSpace (drop (length prefix) arg) with
       | 60 :: rest => if existsb (Z.eqb 62) rest then Some (Cut rest 62).1 else None
       | _ => None
       end.

Definition needsUTF8Keyword (addr : bytes) (negotiated : bool) : bool :=
  negb negotiated && existsb (fun b => 0x7f <? b) addr.

(** The fields after the path, each cut at its first [=]; without a path there are none *)
Definition arg_params (arg : bytes) : list (bytes * bytes) := map (fun f => Cut f 61) (Fields (Cut arg 62).2).

(** The parameter map: keys in upper case, the last value of a repeated key *)
Definition esmtpParams (arg : bytes) : list (bytes * bytes) := map (fun p => (ToUpper p.1, p.2)) (arg_params arg).
Definition param (params : list (bytes * bytes)) (k : bytes) : option bytes :=
  snd <$> List.find (fun p => beq p.1 k) (rev params).

Definition declaredSize (params : list (bytes * bytes)) : option Z :=
  match param params (lit "SIZE") with
  | None => None
  | Some v => match Atoi v with Some n => if n <? 0 then None else Some n | None => None end
  end.

(** Whether an MT-PRIORITY is there, and whether it is well-formed *)
Definition mtPriorityValid (arg : bytes) : bool * bool :=
  match List.filter (fun p => EqualFold p.1 (lit "MT-PRIORITY")) (arg_params arg) with
  | [] => (false, true)
  | [p] => match Atoi p.2 with
           | Some n => (true, negb ((n <? -9) || (9 <? n)))
           | None => (true, false)
           end
  | _ => (true, false)
  end.

Definition validRET (up : bytes) : bool := beq up (lit "FULL") || beq up (lit "HDRS").
Definition isHexUpper (c : Z) : bool := ((48 <=? c) && (c <=? 57)) || ((65 <=? c) && (c <=? 70)).
Fixpoint validXtext (s : bytes) : bool :=
  match s with
  | [] => true
  | c :: s =>
      if c =? 43 then match s with
                      | a :: b :: s => isHexUpper a && isHexUpper b && validXtext s
                      | _ => false
                      end
      else if (33 <=? c) && (c <=? 126) && negb (c =? 61) then validXtext s
      else false
  end.
Definition validEnvID (v : bytes) : bool := (len v <=? 100) && validXtext v.

(** One parameter of MAIL: the values so far, and how often each key came *)
Definition dsn_mail_step (acc : option (MailParams * nat * nat)) (f : bytes * bytes) : option (MailParams * nat * nat) :=
  match acc with
  | None => None
  | Some (p, retN, envidN) =>
      let k := ToUpper f.1 in
      if beq k (lit "RET") then
        let up := ToUpper f.2 in if validRET up then Some (mkMailParams up (mp_ENVID p), S retN, envidN) else None
      else if beq k (lit "ENVID") then
        if validEnvID f.2 then Some (mkMailParams (mp_RET p) f.2, retN, S envidN) else None
      else acc
  end.
Definition dsnMailParams (arg : bytes) : option MailParams :=
  match fold_left dsn_mail_step (arg_params arg) (Some (mkMailParams [] [], 0%nat, 0%nat)) with
  | Some (p, retN, envidN) => if (1 <? retN)%nat || (1 <? envidN)%nat then None else Some p
  | None => None
  end.

Definition validNotify (v : bytes) : bool :=
  negb (beq v []) &&
  (EqualFold v (lit "NEVER")
   || forallb (fun elem => let u := ToUpper elem in
                           beq u (lit "SUCCESS") || beq u (lit "FAILURE") || beq u (lit "DELAY")) (Split v 44)).

Definition atom_special (c : Z) : bool := existsb (Z.eqb c) (lit "()<>@,;:\/[]?=" ++ [34]).
Definition isAtom (s : bytes) : bool :=
  negb (beq s []) && forallb (fun c => negb ((c <=? 32) || (0x7f <=? c)) && negb (atom_special c)) s.
Definition validORCPT (v : bytes) : bool :=
  existsb (Z.eqb 59) v && (let '(atype, xt) := Cut v 59 in isAtom atype && validXtext xt).

Definition dsn_rcpt_step (acc : option (RcptParams * nat * nat)) (f : bytes * bytes) : option (RcptParams * nat * nat) :=
  match acc with
  | None => None
  | Some (p, notifyN, orcptN) =>
      let k := ToUpper f.1 in
      if beq k (lit "NOTIFY") then
        if validNotify f.2 then Some (mkRcptParams f.2 (rp_ORCPT p), S notifyN, orcptN) else None
      else if beq k (lit "ORCPT") then
        if (500 <? len f.2) || negb (validORCPT f.2) then None else Some (mkRcptParams (rp_Notify p) f.2, notifyN, S orcptN)
      else acc
  end.
Definition dsnRcptParams (arg : bytes) : option RcptParams :=
  match fold_left dsn_rcpt_step (arg_params arg) (Some (mkRcptParams [] [], 0%nat, 0%nat)) with
  | Some (p, notifyN, orcptN) => if (1 <? notifyN)%nat || (1 <? orcptN)%nat then None else Some p
  | None => None
  end.

Definition parseBDAT (arg : bytes) : option (Z * bool) :=
  let sized f last := match Atoi f with Some n => if n <? 0 then None else Some (n, last) | None => None end in
  match Fields arg with
  | [f] => sized f false
  | [f; l] => if EqualFold l (lit "LAST") then sized f true else None
  | _ => None
  end.

(** ** The message body *)

Fixpoint drop_eol (s : bytes) : bytes :=
  match s with b :: s' => if (b =? CR) || (b =? LF) then drop_eol s' else s | [] => [] end.
(** [strings.TrimRight(line, crlf)] *)
Definition trim_eol (line : bytes) : bytes := rev (drop_eol (rev line)).

(** A line of the body, through its LF or to the end of the stream *)
Fixpoint ReadString (br : bytes) : bytes * bytes :=
  match br with
  | [] => ([], [])
  | b :: br => if b =? LF then ([b], br) else let '(l, rest) := ReadString br in (b :: l, rest)
  end.

(** Everything a [dotReader] yields, and the stream after it: lines up to the terminator or the
    end of the stream, a leading dot removed. *)
Fixpoint dot_read (fuel : nat) (br : bytes) : bytes * bytes :=
  match fuel with
  | O => ([], br)
  | S fuel =>
      let '(line, rest) := ReadString br in
      if beq line [] then ([], rest)
      else if beq (trim_eol line) (lit ".") then ([], rest)
      else let '(body, rest) := dot_read fuel rest in (TrimPrefix line (lit ".") ++ body, rest)
  end.
Definition dotReader (br : bytes) : bytes * bytes := dot_read (S (length br)) br.

(** What a [limitedReader] of [max] bytes lets through of a body *)
Definition limitedReader (body : bytes) (max : Z) : bytes * ending :=
  if len body <? max then (body, EndEOF) else (take (Z.to_nat max) body, EndTooLarge).

(** ** The trace header ([received.go]) *)

Definition printableName (s : bytes) : bool := forallb (fun b => negb ((b <=? 32) || (126 <? b))) s.

(** [ip] is the client's address without its port ([net.SplitHostPort]), [date] the formatted
    clock. *)
Definition buildReceived (helo ip rdns host : bytes) (tls : bool) (date : bytes) : bytes :=
  let ipTag := if Contains ip (lit ":") then lit "IPv6:" ++ ip else ip in
  let from := match helo with [] => lit "unknown" | _ => helo end in
  let rev := if beq rdns [] || negb (printableName rdns) then lit "unknown" else rdns in
  lit "Received: from " ++ from ++ lit " (" ++ rev ++ lit " [" ++ ipTag ++ lit "])" ++ crlf ++ [9]
  ++ lit "by " ++ host ++ lit " with " ++ (if tls then lit "SMTPS" else lit "SMTP") ++ lit ";" ++ crlf ++ [9] ++ date ++ crlf.

(** [lookupRDNS] of the names the resolver answers ([None]: the lookup failed) *)
Definition lookupRDNS (names : option (list bytes)) : bytes :=
  match names with
  | Some (n :: _) => let name := TrimSuffix n (lit ".") in if printableName name then name else []
  | _ => []
  end.

(** ** The connection *)

(** What a STARTTLS meets: plaintext behind the command, a handshake that fails, or the stream
    and the link inside TLS *)
Inductive upgrade := Pipelined | HandshakeFails | Handshake (inner : bytes) (credit : option nat).

(** The envelope and body state of the current transaction *)
Record txn := mkTxn {
  tx_hasFrom : bool; tx_rcptCount : Z; tx_binaryMIME : bool; tx_smtputf8 : bool;
  tx_bdatBuf : option bytes; tx_bdatErr : bool }.
Definition noTxn : txn := mkTxn false 0 false false None false.

Record smtpConn (B : Type) := mkConn {
  sc_w : ew; sc_in : bytes; sc_upgrade : upgrade; sc_tls : bool; sc_remote : bytes; sc_sess : B;
  sc_greeted : bool; sc_helo : bytes; sc_txn : txn }.
Arguments mkConn {B} _ _ _ _ _ _ _ _ _.
Arguments sc_w {B} _. Arguments sc_in {B} _. Arguments sc_upgrade {B} _. Arguments sc_tls {B} _.
Arguments sc_remote {B} _. Arguments sc_sess {B} _. Arguments sc_greeted {B} _. Arguments sc_helo {B} _.
Arguments sc_txn {B} _.

Section setters.
Context {B : Type}.
Implicit Types c : smtpConn B.
Definition set_w (w : ew) c : smtpConn B :=
  mkConn w (sc_in c) (sc_upgrade c) (sc_tls c) (sc_remote c) (sc_sess c) (sc_greeted c) (sc_helo c) (sc_txn c).
Definition set_in (i : bytes) c : smtpConn B :=
  mkConn (sc_w c) i (sc_upgrade c) (sc_tls c) (sc_remote c) (sc_sess c) (sc_greeted c) (sc_helo c) (sc_txn c).
Definition set_sess (b : B) c : smtpConn B :=
  mkConn (sc_w c) (sc_in c) (sc_upgrade c) (sc_tls c) (sc_remote c) b (sc_greeted c) (sc_helo c) (sc_txn c).
Definition set_greeting (g : bool) (h : bytes) c : smtpConn B :=
  mkConn (sc_w c) (sc_in c) (sc_upgrade c) (sc_tls c) (sc_remote c) (sc_sess c) g h (sc_txn c).
Definition set_txn (t : txn) c : smtpConn B :=
  mkConn (sc_w c) (sc_in c) (sc_upgrade c) (sc_tls c) (sc_remote c) (sc_sess c) (sc_greeted c) (sc_helo c) t.
(** [c.reply] *)
Definition say (code : Z) (msg : bytes) c : smtpConn B := set_w (reply (sc_w c) code msg) c.
End setters.

(** What a turn reads from outside: the client's address without its port, the names its reverse
    lookup answers, and the formatted clock *)
Record moment := mkMoment { mo_ip : bytes; mo_names : option (list bytes); mo_date : bytes }.

Section server.
Context {B : Type} `{!Session B}.
Implicit Types c : smtpConn B.

Definition canAuth : bool := match se_Auth with Some _ => true | None => false end.

Definition resetTxn c : smtpConn B := set_sess (se_Reset (sc_sess c)) (set_txn noTxn c).

Definition trace (sv : Server) (m : moment) c : bytes :=
  buildReceived (sc_helo c) (mo_ip m) (lookupRDNS (mo_names m)) (hostname sv) (sc_tls c) (mo_date m).

Definition reportBody (e : option s_error) c : smtpConn B :=
  match e with
  | Some e => set_w (replyDataErr (sc_w c) e) c
  | None => say 250 (lit "OK") c
  end.

(** *** AUTH ([auth.go]) *)

(** The client's token, inline or after a challenge *)
Definition authResponse (max : Z) (inline challenge : bytes) c : smtpConn B * option bytes :=
  let '(c, resp) :=
    match inline with
    | [] => let c := say 334 challenge c in
            match ReadLine (sc_in c) max with
            | (Err _, rest) => (set_in rest c, None)
            | (Ok line, rest) => (set_in rest c, Some line)
            end
    | _ => (c, Some inline)
    end in
  match resp with
  | Some r => if beq r (lit "*") then (say 501 (lit "5.7.8 authentication aborted") c, None) else (c, Some r)
  | None => (c, None)
  end.

Definition finishAuth (auth : B -> bytes -> bytes -> B * bool) (user password : bytes) c : smtpConn B :=
  let '(b, accepted) := auth (sc_sess c) user password in
  let c := set_sess b c in
  if accepted then say 235 (lit "2.7.0 authentication successful") c else say 535 (lit "5.7.8 authentication failed") c.

(** [strings.SplitN(s, NUL, 3)]: the third part keeps its NULs *)
Definition split_plain (s : bytes) : option (bytes * bytes) :=
  if existsb (Z.eqb 0) s then
    let rest := (Cut s 0).2 in if existsb (Z.eqb 0) rest then Some (Cut rest 0) else None
  else None.

Definition authPlain (max : Z) (initial : bytes) (auth : B -> bytes -> bytes -> B * bool) c : smtpConn B :=
  match authResponse max initial [] c with
  | (c, None) => c
  | (c, Some resp) =>
      match b64_DecodeString resp with
      | None => say 501 (lit "5.5.2 invalid base64") c
      | Some decoded =>
          match split_plain decoded with
          | None => say 501 (lit "5.5.2 malformed PLAIN response") c
          | Some (user, password) => finishAuth auth user password c
          end
      end
  end.

Definition authLogin (max : Z) (initial : bytes) (auth : B -> bytes -> bytes -> B * bool) c : smtpConn B :=
  match authResponse max initial (lit "VXNlcm5hbWU6") c with
  | (c, None) => c
  | (c, Some user) =>
      match b64_DecodeString user with
      | None => say 501 (lit "5.5.2 invalid base64") c
      | Some username =>
          match authResponse max [] (lit "UGFzc3dvcmQ6") c with
          | (c, None) => c
          | (c, Some pass) =>
              match b64_DecodeString pass with
              | None => say 501 (lit "5.5.2 invalid base64") c
              | Some password => finishAuth auth username password c
              end
          end
      end
  end.

Definition handleAuth (sv : Server) (arg : bytes) c : smtpConn B :=
  match se_Auth with
  | None => say 503 (lit "5.5.1 AUTH not available") c
  | Some auth =>
      if negb (sc_tls c) then say 538 (lit "5.7.11 STARTTLS required before AUTH") c
      else let '(mechanism, initial) := Cut arg 32 in
           let mechanism := ToUpper mechanism in
           if beq mechanism (lit "PLAIN") then authPlain (commandLineLimit sv) initial auth c
           else if beq mechanism (lit "LOGIN") then authLogin (commandLineLimit sv) initial auth c
           else say 504 (lit "5.5.4 Unrecognized authentication type") c
  end.

(** *** The commands

    A handler answers the connection after it and whether the session goes on; [None] is a nil
    dereference. *)
Abbreviation handled := (option (smtpConn B * bool)).
Definition go_on c : handled := Some (c, true).
Definition abandon c : handled := Some (c, false).

Definition cmdHELO (sv : Server) (arg : bytes) c : handled :=
  go_on (say 250 (hostname sv) (set_greeting true arg (resetTxn c))).
Definition cmdEHLO (sv : Server) (arg : bytes) c : handled :=
  let c := set_greeting true arg (resetTxn c) in
  go_on (set_w (greetEHLO sv (sc_w c) arg (sc_tls c) (canAuth && sc_tls c)) c).
Definition cmdAUTH (sv : Server) (arg : bytes) c : handled := go_on (handleAuth sv arg c).

Definition cmdSTARTTLS (sv : Server) c : handled :=
  if negb (sv_TLSConfig sv) || sc_tls c then go_on (say 502 (lit "STARTTLS not available") c)
  else match sc_upgrade c with
       | Pipelined => abandon c
       | HandshakeFails => abandon (say 220 (lit "ready to start TLS") c)
       | Handshake inner credit =>
           let c := say 220 (lit "ready to start TLS") c in
           let c := mkConn (mkEw (ew_sent (sc_w c)) false credit) inner Pipelined true (sc_remote c) (sc_sess c)
                      (sc_greeted c) (sc_helo c) (sc_txn c) in
           go_on (set_greeting false [] (resetTxn c))
       end.

Definition checkMailParams (sv : Server) (arg : bytes) (params : list (bytes * bytes)) : MailParams + Z * bytes :=
  let limit := sv_maxSize sv in
  let oversized := match declaredSize params with Some sz => (0 <? limit) && (limit <? sz) | None => false end in
  if oversized then inr (552, lit "5.3.4 message size exceeds limit")
  else let '(present, valid) := mtPriorityValid arg in
       if present && negb valid then inr (501, lit "5.5.2 syntax error in MT-PRIORITY parameter")
       else match dsnMailParams arg with
            | None => inr (501, lit "5.5.4 syntax error in DSN parameter")
            | Some p => inl p
            end.

Definition cmdMAIL (sv : Server) (arg : bytes) c : handled :=
  if negb (sc_greeted c) then go_on (say 503 (lit "5.5.1 send HELO/EHLO first") c)
  else match extractPath arg (lit "FROM:") with
       | None => go_on (say 501 (lit "syntax: MAIL FROM:<address>") c)
       | Some addr =>
           let params := esmtpParams arg in
           let wantsUTF8 := match param params (lit "SMTPUTF8") with Some _ => true | None => false end in
           if needsUTF8Keyword addr wantsUTF8 then
             go_on (say 550 (lit "5.6.7 non-ASCII address requires the SMTPUTF8 extension") c)
           else match checkMailParams sv arg params with
                | inr (code, msg) => go_on (say code msg c)
                | inl mailDSN =>
                    let c := resetTxn c in
                    match se_Mail (sc_sess c) addr mailDSN with
                    | (b, Some e) => let c := set_sess b c in go_on (set_w (replySessionErr (sc_w c) e) c)
                    | (b, None) =>
                        let binaryMIME := EqualFold (default [] (param params (lit "BODY"))) (lit "BINARYMIME") in
                        go_on (say 250 (lit "OK")
                          (set_txn (mkTxn true (tx_rcptCount (sc_txn c)) binaryMIME wantsUTF8
                                      (tx_bdatBuf (sc_txn c)) (tx_bdatErr (sc_txn c))) (set_sess b c)))
                    end
                end
       end.

Definition cmdRCPT (arg : bytes) c : handled :=
  let t := sc_txn c in
  if negb (tx_hasFrom t) then go_on (say 503 (lit "need MAIL before RCPT") c)
  else match extractPath arg (lit "TO:") with
       | None => go_on (say 501 (lit "syntax: RCPT TO:<address>") c)
       | Some addr =>
           if needsUTF8Keyword addr (tx_smtputf8 t) then
             go_on (say 553 (lit "5.6.7 non-ASCII address requires the SMTPUTF8 extension") c)
           else match dsnRcptParams arg with
                | None => go_on (say 501 (lit "5.5.4 syntax error in DSN parameter") c)
                | Some rcptDSN =>
                    match se_Rcpt (sc_sess c) addr rcptDSN with
                    | (b, Some e) => let c := set_sess b c in go_on (set_w (replySessionErr (sc_w c) e) c)
                    | (b, None) =>
                        go_on (say 250 (lit "OK")
                          (set_txn (mkTxn (tx_hasFrom t) (tx_rcptCount t + 1) (tx_binaryMIME t) (tx_smtputf8 t)
                                      (tx_bdatBuf t) (tx_bdatErr t)) (set_sess b c)))
                    end
                end
       end.

Definition consumeData (sv : Server) (header : bytes) c : smtpConn B * option s_error :=
  let '(body, rest) := dotReader (sc_in c) in
  let '(content, fin) := if 0 <? sv_maxSize sv then limitedReader body (sv_maxSize sv) else (body, EndEOF) in
  let '(b, e) := se_Data (sc_sess c) (header ++ content) fin in
  (set_in rest (set_sess b c), e).

Definition cmdDATA (sv : Server) (m : moment) c : handled :=
  let t := sc_txn c in
  if bool_decide (is_Some (tx_bdatBuf t)) then go_on (say 503 (lit "5.5.1 DATA not allowed after BDAT; send RSET") c)
  else if tx_binaryMIME t then go_on (say 503 (lit "5.5.1 BINARYMIME requires BDAT, not DATA") c)
  else if tx_rcptCount t =? 0 then go_on (say 503 (lit "need RCPT before DATA") c)
  else
    let c := say 354 (lit "end data with <CR><LF>.<CR><LF>") c in
    let '(c, e) := consumeData sv (trace sv m c) c in
    go_on (resetTxn (reportBody e c)).

(** [io.CopyN] of [n] bytes off the stream: the bytes, the rest, and whether they were all there *)
Definition CopyN (br : bytes) (n : Z) : bytes * bytes * bool :=
  (take (Z.to_nat n) br, drop (Z.to_nat n) br, n <=? len br).

Definition chunkViable c : bool :=
  sc_greeted c && (0 <? tx_rcptCount (sc_txn c)) && negb (tx_bdatErr (sc_txn c)).

Definition set_bdat (buf : option bytes) (failed : bool) c : smtpConn B :=
  let t := sc_txn c in
  set_txn (mkTxn (tx_hasFrom t) (tx_rcptCount t) (tx_binaryMIME t) (tx_smtputf8 t) buf failed) c.

Definition bufferChunk (size limit : Z) c : smtpConn B * bool :=
  let buf := default [] (tx_bdatBuf (sc_txn c)) in
  let toBuf := if 0 <? limit then Z.min size (Z.max (i64 (i64 (limit + 1) - len buf)) 0) else size in
  let '(chunk, rest, whole) := CopyN (sc_in c) toBuf in
  let c := set_bdat (Some (buf ++ chunk)) (tx_bdatErr (sc_txn c)) (set_in rest c) in
  if negb whole then (c, false)
  else let '(_, rest, whole) := CopyN (sc_in c) (size - toBuf) in (set_in rest c, whole).

Definition readChunk (size limit : Z) c : smtpConn B * bool :=
  if negb (chunkViable c) then let '(_, rest, whole) := CopyN (sc_in c) size in (set_in rest c, whole)
  else bufferChunk size limit c.

Definition replyBDAT (sv : Server) (m : moment) (size : Z) (last : bool) (limit : Z) c : option (smtpConn B) :=
  let t := sc_txn c in
  if negb (sc_greeted c) then Some (say 503 (lit "5.5.1 send HELO/EHLO first") c)
  else if tx_rcptCount t =? 0 then Some (say 503 (lit "5.5.1 need MAIL and RCPT before BDAT") c)
  else if tx_bdatErr t then Some (say 503 (lit "5.5.0 BDAT transaction failed; send RSET") c)
  else
    let reported buf :=
      let '(b, e) := se_Data (sc_sess c) (trace sv m c ++ buf) EndEOF in resetTxn (reportBody e (set_sess b c)) in
    let answered := if negb last then Some (say 250 (lit "2.0.0 " ++ dec size ++ lit " octets received") c)
                    else reported <$> tx_bdatBuf t in
    if 0 <? limit then
      buf ← tx_bdatBuf t;
      if limit <? len buf then Some (say 552 (lit "5.3.4 message size exceeds limit") (set_bdat (Some buf) true c))
      else answered
    else answered.

Definition cmdBDAT (sv : Server) (m : moment) (arg : bytes) c : handled :=
  match parseBDAT arg with
  | None => go_on (say 501 (lit "5.5.4 syntax: BDAT <chunk-size> [LAST]") c)
  | Some (size, last) =>
      let limit := sv_maxSize sv in
      let '(c, framed) := readChunk size limit c in
      if negb framed then abandon c
      else c ← replyBDAT sv m size last limit c; go_on c
  end.

Definition cmdRSET c : handled := go_on (say 250 (lit "OK") (resetTxn c)).
Definition cmdNOOP c : handled := go_on (say 250 (lit "OK") c).
Definition cmdQUIT (sv : Server) c : handled := abandon (say 221 (hostname sv ++ lit " closing connection") c).
Definition cmdVRFY c : handled :=
  go_on (say 252 (lit "2.1.5 Cannot VRFY user, but will accept message and attempt delivery") c).
Definition cmdEXPN c : handled := go_on (say 502 (lit "5.5.1 EXPN not available") c).
Definition cmdHELP c : handled :=
  go_on (say 214 (lit "2.0.0 hermEX ESMTP; supported: HELO EHLO MAIL RCPT DATA BDAT RSET NOOP QUIT (RFC 5321)") c).

Definition commandTable (sv : Server) (m : moment) : list (bytes * (bytes -> smtpConn B -> handled)) :=
  [(lit "HELO", cmdHELO sv); (lit "EHLO", cmdEHLO sv); (lit "AUTH", cmdAUTH sv);
   (lit "STARTTLS", fun _ => cmdSTARTTLS sv); (lit "MAIL", cmdMAIL sv); (lit "RCPT", cmdRCPT);
   (lit "DATA", fun _ => cmdDATA sv m); (lit "BDAT", cmdBDAT sv m); (lit "RSET", fun _ => cmdRSET);
   (lit "NOOP", fun _ => cmdNOOP); (lit "QUIT", fun _ => cmdQUIT sv); (lit "VRFY", fun _ => cmdVRFY);
   (lit "EXPN", fun _ => cmdEXPN); (lit "HELP", fun _ => cmdHELP)].

Definition command (sv : Server) (m : moment) (line : bytes) c : handled :=
  let '(cmd, arg) := Cut line 32 in
  match List.find (fun p => beq p.1 (ToUpper cmd)) (commandTable sv m) with
  | None => go_on (say 500 (lit "command not recognized") c)
  | Some p => p.2 arg c
  end.

(** One turn of the loop.  The line limit is read before the line arrives, the other settings
    after it: [sv] and [sv']. *)
Definition turn (sv sv' : Server) (m : moment) c : handled :=
  match ReadLine (sc_in c) (commandLineLimit sv) with
  | (Err ErrTooLong, rest) => go_on (say 500 (lit "5.5.2 line too long") (set_in rest c))
  | (Err ErrRead, rest) => abandon (set_in rest c)
  | (Ok line, rest) =>
      let c := set_in rest c in if ew_err (sc_w c) then abandon c else command sv' m line c
  end.

(** What the process does to the settings before and during turn [k], and what the turn reads *)
Context (settings settings' : nat -> Server) (moments : nat -> moment).

Fixpoint loop (fuel k : nat) c : handled :=
  match fuel with
  | O => Some (c, true)
  | S fuel =>
      r ← turn (settings k) (settings' k) (moments k) c;
      if r.2 : bool then loop fuel (S k) r.1 else Some r
  end.

(** A turn reads a byte or ends the session, except the one that moves to the TLS stream. *)
Definition input_left c : nat :=
  (length (sc_in c) + match sc_upgrade c with Handshake inner _ => length inner + 1 | _ => 0 end)%nat.

(** [NewSession] refuses a client or answers its session; the session is logged out at the end. *)
Definition handle (sv : Server) (NewSession : bytes -> option B) (remote : bytes) (input : bytes)
    (credit : option nat) (isTLS : bool) (up : upgrade) : list resp + handled :=
  match NewSession remote with
  | None => inl (ew_sent (reply (mkEw [] false credit) 421 (hostname sv ++ lit " service not available")))
  | Some b =>
      let c := say 220 (hostname sv ++ lit " ESMTP hermEX") (mkConn (mkEw [] false credit) input up isTLS remote b false [] noTxn) in
      inr (r ← loop (S (input_left c)) 0 c; Some (set_sess (se_Logout (sc_sess r.1)) r.1, r.2))
  end.
End server.
