(* ===== verification/SmtpProofs.v ===== *)
(** * The SMTP server: what the backend sees, and what a body is

    A session is run against a backend that records its calls.  Whatever a client sends, the
    calls follow the protocol of a mail transaction, so no recipient of one message is left
    for the next; messages are one trace header and a body within the size limit; and the two
    ways to send a body deliver the bytes the client meant. *)

From stdpp Require Import base list numbers.
From Stdlib Require Import ZArith Lia.
From Stdlib Require String.
Import String.StringSyntax.
From S2P Require Import Prelude Gostr Netline Smtp.
Open Scope Z_scope.
#[local] Arguments lit : simpl never.
#[local] Arguments ReadLine : simpl never.

(** ** A backend that records its calls *)

Inductive event :=
| EMail (from : bytes) (accepted : bool)
| ERcpt (to : bytes) (accepted : bool)
| EData (content : bytes) (fin : ending) (accepted : bool)
| EReset
| EAuth (user : bytes) (accepted : bool)
| ELogout.

Definition accepted_by (e : option s_error) : bool := match e with None => true | Some _ => false end.

#[export] Instance recorded {B} `{!Session B} : Session (B * list event) := {
  se_Mail s from p := let '(b, e) := se_Mail s.1 from p in ((b, s.2 ++ [EMail from (accepted_by e)]), e);
  se_Rcpt s to p := let '(b, e) := se_Rcpt s.1 to p in ((b, s.2 ++ [ERcpt to (accepted_by e)]), e);
  se_Data s content fin := let '(b, e) := se_Data s.1 content fin in ((b, s.2 ++ [EData content fin (accepted_by e)]), e);
  se_Reset s := (se_Reset s.1, s.2 ++ [EReset]);
  se_Logout s := (se_Logout s.1, s.2 ++ [ELogout]);
  se_Auth := match se_Auth with
             | Some auth => Some (fun s user pass => let '(b, ok) := auth s.1 user pass in ((b, s.2 ++ [EAuth user ok]), ok))
             | None => None
             end }.

(** ** The protocol of a mail transaction *)

(** What the backend holds: nothing, the leftovers of a refused or finished message, a sender and
    the recipients accepted for it, or nothing any more. *)
Inductive phase := Idle | Stale | Open (from : bytes) (rcpts : list bytes) | Gone.

Definition phase_step (p : phase) (e : event) : option phase :=
  match e, p with
  | _, Gone => None
  | EReset, _ => Some Idle
  | ELogout, _ => Some Gone
  | EAuth _ _, p => Some p
  | EMail from accepted, Idle => Some (if accepted then Open from [] else Stale)
  | ERcpt to accepted, Open from rcpts => Some (Open from (if accepted then rcpts ++ [to] else rcpts))
  | EData _ _ _, Open _ (_ :: _) => Some Stale
  | _, _ => None
  end.
Definition phase_run (p : phase) (es : list event) : option phase :=
  fold_left (fun p e => p ≫= fun p => phase_step p e) es (Some p).

Arguments phase_run : simpl never.

Lemma phase_run_snoc p es e : phase_run p (es ++ [e]) = phase_run p es ≫= fun q => phase_step q e.
Proof. unfold phase_run. by rewrite fold_left_app. Qed.

(** ** The invariant of a session *)

(** Three lines, the second and third folded: one header field whatever is in the message *)
Definition one_field (h : bytes) : Prop :=
  exists a b c, h = a ++ crlf ++ [9] ++ b ++ crlf ++ [9] ++ c ++ crlf
    /\ no_lf a = true /\ no_lf b = true /\ no_lf c = true.

(** A message handed over is a trace header and at most [m] bytes, for a bound [Some m]. *)
Definition data_ok (bound : option Z) (e : event) : Prop :=
  match bound, e with
  | Some m, EData content _ _ => exists h body, content = h ++ body /\ one_field h /\ len body <= m
  | _, _ => True
  end.

(** The settings and the readings of a turn under which the bound is claimed *)
Definition env_ok (bound : option Z) (sv : Server) (mo : moment) : Prop :=
  match bound with
  | None => True
  | Some m => 0 < sv_maxSize sv <= m /\ no_lf (sv_Hostname sv) = true
              /\ no_lf (mo_ip mo) = true /\ no_lf (mo_date mo) = true
  end.

(** The connection's counters say what the backend holds. *)
Definition txn_ok (p : phase) (t : txn) (greeted : bool) : Prop :=
  (tx_hasFrom t = true /\ greeted = true /\ exists from rcpts, p = Open from rcpts /\ tx_rcptCount t = len rcpts)
  \/ (t = noTxn /\ p <> Gone).

Lemma Cut_no_lf l k : no_lf l = true -> no_lf (Cut l k).1 = true /\ no_lf (Cut l k).2 = true.
Proof.
  induction l as [|x l IH]; [done|]. cbn. intros H. apply andb_prop in H as [Hx Hl].
  destruct (x =? k); [done|]. destruct (Cut l k) as [a b]. cbn in *. rewrite Hx. by apply IH.
Qed.

Lemma printable_no_lf l : printableName l = true -> no_lf l = true.
Proof.
  apply forallb_impl. intros b Hb. apply negb_true_iff in Hb. apply negb_true_iff. apply orb_false_iff in Hb as [Hb _].
  apply Z.leb_gt in Hb. apply Z.eqb_neq. unfold LF. lia.
Qed.

(** The client chooses the name it greets with and often the name its address resolves to;
    neither starts a header line of its own. *)
Lemma buildReceived_one_field helo ip rdns host tls date :
  no_lf helo = true -> no_lf ip = true -> no_lf host = true -> no_lf date = true ->
  one_field (buildReceived helo ip rdns host tls date).
Proof.
  intros H1 H2 H3 H4. unfold buildReceived.
  set (ipTag := if Contains ip _ then _ else ip). set (from := match helo with [] => _ | _ => _ end).
  set (rev := if beq rdns [] || _ then _ else rdns).
  assert (no_lf ipTag = true) by (unfold ipTag; destruct (Contains ip _); [rewrite no_lf_app, H2|]; done).
  assert (no_lf from = true) by (unfold from; by destruct helo).
  assert (no_lf rev = true).
  { unfold rev. destruct (beq rdns []); [done|]. destruct (printableName rdns) eqn:E; [|done]. by apply printable_no_lf. }
  eexists (lit "Received: from " ++ from ++ lit " (" ++ rev ++ lit " [" ++ ipTag ++ lit "])"),
    (lit "by " ++ host ++ lit " with " ++ (if tls then lit "SMTPS" else lit "SMTP") ++ lit ";"), date.
  split; [by rewrite <- !app_assoc|]. rewrite !no_lf_app. repeat match goal with H : no_lf _ = true |- _ => rewrite H; clear H end.
  by destruct tls.
Qed.

Section session.
Context {B : Type} `{!Session B}.
Implicit Types c : smtpConn (B * list event).
Context (bound : option Z).

Definition good c : Prop :=
  (exists p, phase_run Idle (sc_sess c).2 = Some p /\ txn_ok p (sc_txn c) (sc_greeted c))
  /\ no_lf (sc_helo c) = true /\ Forall (data_ok bound) (sc_sess c).2.

(** A handler keeps the invariant, does not panic, and reads on. *)
Definition fine (c : smtpConn (B * list event)) (r : option (smtpConn (B * list event) * bool)) : Prop :=
  match r with Some (c', _) => good c' /\ (input_left c' <= input_left c)%nat | None => False end.

Lemma good_reset c : good c -> good (resetTxn c).
Proof.
  intros ((p & Hp & Ht) & Hh & Hd). unfold good. cbn. rewrite phase_run_snoc, Hp. cbn.
  split; [|split; [done|apply Forall_app; split; [done|by constructor; [destruct bound|]]]].
  exists Idle. split; [|by right].
  destruct p; try done. by destruct Ht as [(_ & _ & ? & ? & ? & _)|[_ ?]].
Qed.

Lemma phase_live c p : txn_ok p (sc_txn c) (sc_greeted c) -> p <> Gone.
Proof. intros [(_ & _ & f & rs & -> & _)|[_ ?]]; done. Qed.

Lemma good_greeting c h : good c -> no_lf h = true -> good (set_greeting true h (resetTxn c)).
Proof.
  intros H Hh. apply good_reset in H as ((p & Hp & Ht) & _ & Hd). split; [|done]. exists p. split; [done|].
  right. cbn. split; [done|]. by eapply phase_live.
Qed.

(** A recorded call that answers an event *)
Lemma good_event c b e t : good c -> data_ok bound e ->
  (forall p, phase_run Idle (sc_sess c).2 = Some p -> txn_ok p (sc_txn c) (sc_greeted c) ->
     exists q, phase_step p e = Some q /\ txn_ok q t (sc_greeted c)) ->
  good (set_txn t (set_sess (b, (sc_sess c).2 ++ [e]) c)).
Proof.
  intros ((p & Hp & Ht) & Hh & Hd) He Hs. unfold good. cbn. rewrite phase_run_snoc, Hp. cbn.
  split; [by apply Hs|]. split; [done|]. by apply Forall_app; split; [|constructor].
Qed.

(** What replies and reads leave alone *)
Definition same c c' : Prop :=
  sc_sess c' = sc_sess c /\ sc_txn c' = sc_txn c /\ sc_greeted c' = sc_greeted c /\ sc_helo c' = sc_helo c
  /\ sc_upgrade c' = sc_upgrade c /\ sc_tls c' = sc_tls c /\ (length (sc_in c') <= length (sc_in c))%nat.

Lemma same_good c c' : same c c' -> good c -> good c' /\ (input_left c' <= input_left c)%nat.
Proof.
  intros (E1 & E2 & E3 & E4 & E5 & _ & L) H. unfold good, input_left in *. rewrite E1, E2, E3, E4, E5.
  split; [done|]. lia.
Qed.

Lemma ReadLine_len br max : (length (ReadLine br max).2 <= length br)%nat.
Proof. apply read_line_len. Qed.

Lemma authResponse_same max inline ch c c' r : authResponse max inline ch c = (c', r) -> same c c'.
Proof.
  unfold authResponse. destruct inline as [|x inline].
  - pose proof (ReadLine_len (sc_in c) max) as L. cbn.
    destruct (ReadLine (sc_in c) max) as [[line|e] rest]; cbn in *; [case_match|];
      intros E; simplify_eq; unfold same; cbn; done.
  - case_match; intros E; simplify_eq; unfold same; cbn; done.
Qed.

Lemma finishAuth_good auth user pass c : good c ->
  (forall s u p, exists b ok, auth s u p = ((b, s.2 ++ [EAuth u ok]), ok)) ->
  good (finishAuth auth user pass c) /\ (input_left (finishAuth auth user pass c) <= input_left c)%nat.
Proof.
  intros H Ha. unfold finishAuth. destruct (Ha (sc_sess c) user pass) as (b & ok & ->).
  assert (G : good (set_txn (sc_txn c) (set_sess (b, (sc_sess c).2 ++ [EAuth user ok]) c))).
  { apply good_event; [done|by destruct bound|]. intros p _ Ht. exists p. split; [|done].
    apply phase_live in Ht. by destruct p. }
  destruct ok; split; try exact G; cbn; unfold input_left; cbn; lia.
Qed.

Lemma recorded_auth auth : se_Auth = Some auth ->
  forall (s : B * list event) u p, exists b ok, auth s u p = ((b, s.2 ++ [EAuth u ok]), ok).
Proof.
  cbn. destruct se_Auth as [a|]; [|done]. intros [= <-] s u p. destruct (a s.1 u p) as [b ok]. by exists b, ok.
Qed.

Lemma fine_same c c' b : good c -> same c c' -> fine c (Some (c', b)).
Proof. intros H S. by apply same_good. Qed.
Lemma same_say c code msg : same c (say code msg c).
Proof. by unfold same. Qed.
Hint Resolve same_say : core.
Lemma fine_say c code msg : good c -> fine c (go_on (say code msg c)).
Proof. intros H. by apply fine_same. Qed.

Lemma fine_auth sv arg c : good c -> fine c (cmdAUTH sv arg c).
Proof.
  intros H. unfold cmdAUTH, handleAuth. destruct se_Auth as [auth|] eqn:Ea; [|by apply fine_say].
  pose proof (recorded_auth _ Ea) as Ha.
  destruct (negb (sc_tls c)); [by apply fine_say|]. destruct (Cut arg 32) as [mech initial].
  destruct (beq (ToUpper mech) (lit "PLAIN")); [|destruct (beq (ToUpper mech) (lit "LOGIN")); [|by apply fine_say]].
  - unfold authPlain. destruct (authResponse _ initial [] c) as [c1 [resp|]] eqn:E1; apply authResponse_same in E1; [|by apply fine_same].
    destruct (same_good _ _ E1 H) as [H1 L1].
    destruct (b64_DecodeString resp) as [d|]; [|by apply fine_same].
    destruct (split_plain d) as [[u pw]|]; [|by apply fine_same].
    destruct (finishAuth_good auth u pw c1 H1 Ha) as [? ?]. split; [done|lia].
  - unfold authLogin. destruct (authResponse _ initial _ c) as [c1 [resp|]] eqn:E1; apply authResponse_same in E1; [|by apply fine_same].
    destruct (same_good _ _ E1 H) as [H1 L1].
    destruct (b64_DecodeString resp) as [u|]; [|by apply fine_same].
    destruct (authResponse _ [] _ c1) as [c2 [resp2|]] eqn:E2; apply authResponse_same in E2;
      destruct (same_good _ _ E2 H1) as [H2 L2]; [|split; [done|lia]].
    destruct (b64_DecodeString resp2) as [pw|]; [|split; [done|unfold say, input_left in *; cbn; lia]].
    destruct (finishAuth_good auth u pw c2 H2 Ha) as [? ?]. split; [done|lia].
Qed.

Lemma fine_greeting c c' h b : good c -> no_lf h = true ->
  sc_sess c' = sc_sess (resetTxn c) -> sc_txn c' = noTxn -> sc_helo c' = h -> sc_upgrade c' = sc_upgrade c -> sc_in c' = sc_in c ->
  fine c (Some (c', b)).
Proof.
  intros H Hh E1 E2 E3 E4 E5. destruct (good_reset _ H) as ((p & Hp & Ht) & _ & Hd).
  unfold fine, good, input_left. rewrite E1, E2, E3, E4, E5. split; [|lia]. split; [|done]. exists p. split; [done|].
  right. split; [done|]. by eapply phase_live.
Qed.

Lemma fine_helo sv arg c : good c -> no_lf arg = true -> fine c (cmdHELO sv arg c).
Proof. intros H Ha. by eapply fine_greeting. Qed.
Lemma fine_ehlo sv arg c : good c -> no_lf arg = true -> fine c (cmdEHLO sv arg c).
Proof. intros H Ha. by eapply fine_greeting. Qed.

Lemma fine_starttls sv c : good c -> fine c (cmdSTARTTLS sv c).
Proof.
  intros H. unfold cmdSTARTTLS. destruct (_ || _); [by apply fine_say|].
  destruct (sc_upgrade c) as [| |inner credit] eqn:E; [by apply same_good; [done|]|by apply fine_same|].
  destruct (good_reset _ H) as ((p & Hp & Ht) & _ & Hd). unfold fine, go_on, good, input_left. cbn. rewrite E.
  split; [|lia]. split; [|by split]. exists p. split; [done|]. right. split; [done|]. by eapply phase_live.
Qed.

(** A call whose event and new counters fit, and a reply *)
Lemma fine_event c c' b e t : good c -> data_ok bound e ->
  (forall p, phase_run Idle (sc_sess c).2 = Some p -> txn_ok p (sc_txn c) (sc_greeted c) ->
     exists q, phase_step p e = Some q /\ txn_ok q t (sc_greeted c)) ->
  sc_sess c' = (b, (sc_sess c).2 ++ [e]) -> sc_txn c' = t -> sc_greeted c' = sc_greeted c -> sc_helo c' = sc_helo c ->
  good c'.
Proof.
  intros H He Hs E1 E2 E3 E4. destruct (good_event c b e t H He Hs) as (P & Hh & Hd).
  unfold good in *. cbn in *. by rewrite E1, E2, E3, E4.
Qed.

Lemma reset_phase c p : good c -> phase_run Idle (sc_sess (resetTxn c)).2 = Some p -> p = Idle.
Proof.
  intros ((q & Hq & Ht) & _). cbn. rewrite phase_run_snoc, Hq. cbn. apply phase_live in Ht. by destruct q; intros [= <-].
Qed.

Lemma fine_mail sv arg c : good c -> fine c (cmdMAIL sv arg c).
Proof.
  intros H. unfold cmdMAIL. destruct (negb (sc_greeted c)) eqn:Eg; [by apply fine_say|]. apply negb_false_iff in Eg.
  destruct (extractPath arg _) as [addr|]; [|by apply fine_say].
  destruct (needsUTF8Keyword addr _); [by apply fine_say|].
  destruct (checkMailParams _ _ _) as [dsn|[code msg]]; [|by apply fine_say].
  pose proof (good_reset _ H) as HR. pose proof (fun p => reset_phase c p H) as HI.
  cbn [se_Mail recorded]. destruct (se_Mail (sc_sess (resetTxn c)).1 addr dsn) as [b [e|]]; split; cbn.
  - eapply (fine_event (resetTxn c) _ b (EMail addr false) noTxn); try done; [by destruct bound|].
    intros p Hp _. apply HI in Hp as ->. exists Stale. split; [done|]. by right.
  - unfold input_left. cbn. lia.
  - eapply (fine_event (resetTxn c) _ b (EMail addr true)); try done; [by destruct bound|].
    intros p Hp _. apply HI in Hp as ->. exists (Open addr []). split; [done|]. left. cbn. split_and!; [done|done|]. by eexists _, _.
  - unfold input_left. cbn. lia.
Qed.

Lemma fine_rcpt arg c : good c -> fine c (cmdRCPT arg c).
Proof.
  intros H. unfold cmdRCPT. destruct (negb (tx_hasFrom (sc_txn c))) eqn:Ef; [by apply fine_say|]. apply negb_false_iff in Ef.
  destruct (extractPath arg _) as [addr|]; [|by apply fine_say].
  destruct (needsUTF8Keyword addr _); [by apply fine_say|].
  destruct (dsnRcptParams arg) as [dsn|]; [|by apply fine_say].
  cbn [se_Rcpt recorded]. destruct (se_Rcpt (sc_sess c).1 addr dsn) as [b [e|]]; split; cbn.
  - eapply (fine_event c _ b (ERcpt addr false)); try done; [by destruct bound|].
    intros p Hp [(Hf & Hg & from & rs & -> & Hr)|[E _]]; [|by rewrite E in Ef].
    eexists. split; [done|]. left. split_and!; try done. by eexists _, _.
  - unfold input_left. cbn. lia.
  - eapply (fine_event c _ b (ERcpt addr true)); try done; [by destruct bound|].
    intros p Hp [(Hf & Hg & from & rs & -> & Hr)|[E _]]; [|by rewrite E in Ef].
    eexists. split; [done|]. left. cbn. split_and!; try done. eexists _, _. split; [done|].
    rewrite len_app, Hr. by rewrite len_cons, len_nil.
  - unfold input_left. cbn. lia.
Qed.

(** A finished message: the backend was open for it, and is reset after it. *)
Lemma good_finished c b content fin e w : good c -> 0 < tx_rcptCount (sc_txn c) ->
  data_ok bound (EData content fin (accepted_by e)) ->
  good (resetTxn (set_w w (set_sess (b, (sc_sess c).2 ++ [EData content fin (accepted_by e)]) c))).
Proof.
  intros ((p & Hp & Ht) & Hh & Hd) Hr He. unfold good. cbn. rewrite !phase_run_snoc, Hp. cbn.
  destruct Ht as [(_ & _ & from & rs & -> & Hc)|[E _]]; [|by rewrite E in Hr].
  destruct rs as [|r rs]; [by rewrite Hc in Hr|]. split; [|split; [done|]].
  - exists Idle. split; [done|]. by right.
  - rewrite !Forall_app. split_and!; [done|by constructor|]. constructor; [by destruct bound|done].
Qed.

Lemma trace_data sv mo c body fin acc : env_ok bound sv mo -> no_lf (sc_helo c) = true ->
  (forall m, bound = Some m -> len body <= m) -> data_ok bound (EData (trace sv mo c ++ body) fin acc).
Proof.
  intros He Hh Hb. destruct bound as [m|]; [|done]. destruct He as (_ & H1 & H2 & H3).
  exists (trace sv mo c), body. split; [done|]. split; [|by apply Hb]. apply buildReceived_one_field; try done.
  unfold hostname. by destruct (sv_Hostname sv).
Qed.

Lemma good_count c : good c -> 0 <= tx_rcptCount (sc_txn c).
Proof. intros ((p & _ & [(_ & _ & f & rs & _ & ->)|[-> _]]) & _); [apply len_nonneg|done]. Qed.

Lemma ReadString_len br : (length (ReadString br).1 + length (ReadString br).2 = length br)%nat.
Proof. induction br as [|b br IH]; [done|]. cbn. destruct (b =? LF); [done|]. destruct (ReadString br). cbn in *. lia. Qed.
Lemma dot_read_len fuel : forall br, (length (dot_read fuel br).2 <= length br)%nat.
Proof.
  induction fuel as [|fuel IH]; intros br; cbn [dot_read]; [done|]. pose proof (ReadString_len br) as L.
  destruct (ReadString br) as [line rest]. cbn in L. destruct (beq line []); [cbn; lia|]. destruct (beq _ _); [cbn; lia|].
  specialize (IH rest). destruct (dot_read fuel rest). cbn in *. lia.
Qed.

Lemma limitedReader_len body max : 0 <= max -> len (limitedReader body max).1 <= max.
Proof.
  intros H. unfold limitedReader. destruct (Z.ltb_spec (len body) max); cbn; [lia|]. unfold len in *.
  rewrite length_take. lia.
Qed.

Lemma fine_data sv mo c : env_ok bound sv mo -> good c -> fine c (cmdDATA sv mo c).
Proof.
  intros He H. unfold cmdDATA. case_bool_decide; [by apply fine_say|].
  destruct (tx_binaryMIME _); [by apply fine_say|]. destruct (Z.eqb_spec (tx_rcptCount (sc_txn c)) 0) as [|Hr]; [by apply fine_say|].
  pose proof (good_count c H) as Hc. set (c1 := say 354 _ c). unfold consumeData.
  pose proof (dot_read_len (S (length (sc_in c1))) (sc_in c1)) as L. unfold dotReader.
  destruct (dot_read _ (sc_in c1)) as [body rest]. cbn [snd] in L.
  destruct (if 0 <? sv_maxSize sv then _ else _) as [content fin] eqn:E. cbn [se_Data recorded].
  destruct (se_Data (sc_sess c1).1 (trace sv mo c1 ++ content) fin) as [b e]. split.
  - assert (D : data_ok bound (EData (trace sv mo c1 ++ content) fin (accepted_by e))).
    { apply trace_data; [done|apply H|]. intros m ->. destruct He as ([Hm1 Hm2] & _). rewrite (proj2 (Z.ltb_lt _ _)) in E by lia.
      pose proof (limitedReader_len body (sv_maxSize sv) ltac:(lia)) as L1. rewrite E in L1. cbn in L1. lia. }
    pose proof (good_finished c b _ fin e (sc_w c) H ltac:(lia) D) as G. unfold reportBody. by destruct e.
  - unfold input_left, reportBody. destruct e; cbn; unfold c1 in L; cbn in L; lia.
Qed.

Lemma good_bdat c buf f : good c -> 0 < tx_rcptCount (sc_txn c) -> good (set_bdat buf f c).
Proof.
  intros ((p & Hp & Ht) & Hh & Hd) Hr. split; [|done]. exists p. split; [done|].
  destruct Ht as [(H1 & H2 & H3)|[E _]]; [|by rewrite E in Hr]. by left.
Qed.

(** The chunk is read off the wire; a viable one leaves a buffer. *)
Lemma readChunk_fine size limit c c' framed : good c -> readChunk size limit c = (c', framed) ->
  good c' /\ (input_left c' <= input_left c)%nat
  /\ (sc_greeted c' = true -> tx_rcptCount (sc_txn c') <> 0 -> tx_bdatErr (sc_txn c') = false -> is_Some (tx_bdatBuf (sc_txn c'))).
Proof.
  intros H. pose proof (good_count c H) as Hc. unfold readChunk, bufferChunk, CopyN, input_left.
  destruct (chunkViable c) eqn:V; cbn [negb].
  - apply andb_prop in V as [V _]. apply andb_prop in V as [Hg Hr]. apply Z.ltb_lt in Hr.
    set (toBuf := if 0 <? limit then _ else size).
    destruct (toBuf <=? len (sc_in c)); cbn [negb]; intros [= <- <-]; cbn; rewrite ?length_drop;
      (split; [by apply (good_bdat c)|split; [lia|by eexists]]).
  - intros [= <- <-]. cbn. rewrite length_drop. split; [done|]. split; [lia|]. intros G R F.
    unfold chunkViable in V. rewrite G, F in V. rewrite (proj2 (Z.ltb_lt _ _)) in V by lia. done.
Qed.

Lemma fine_bdat sv mo arg c : env_ok bound sv mo -> good c -> fine c (cmdBDAT sv mo arg c).
Proof.
  intros He H. unfold cmdBDAT. destruct (parseBDAT arg) as [[size last]|]; [|by apply fine_say].
  destruct (readChunk size (sv_maxSize sv) c) as [c1 framed] eqn:E. apply readChunk_fine in E as (G & L & Hb); [|done].
  destruct framed; cbn [negb]; [|done]. pose proof (good_count c1 G) as Hc. unfold replyBDAT.
  assert (S : forall code msg, fine c (Some (say code msg c1, true))) by (intros; split; [done|]; unfold input_left in *; cbn; lia).
  destruct (sc_greeted c1) eqn:Eg; cbn [negb]; [|apply S].
  destruct (Z.eqb_spec (tx_rcptCount (sc_txn c1)) 0) as [|Hr]; [apply S|].
  destruct (tx_bdatErr (sc_txn c1)) eqn:Ee; [apply S|]. destruct (Hb eq_refl Hr eq_refl) as [buf ->].
  assert (F : (forall m, bound = Some m -> len buf <= m) -> forall c2,
    c2 = (let '(b, e) := se_Data (sc_sess c1) (trace sv mo c1 ++ buf) EndEOF in resetTxn (reportBody e (set_sess b c1))) ->
    fine c (Some (c2, true))).
  { intros Hm c2 ->. cbn [se_Data recorded]. destruct (se_Data (sc_sess c1).1 _ EndEOF) as [b e].
    pose proof (good_finished c1 b (trace sv mo c1 ++ buf) EndEOF e (sc_w c1) G ltac:(lia)) as Gf. split.
    - assert (D : data_ok bound (EData (trace sv mo c1 ++ buf) EndEOF (accepted_by e))) by (apply trace_data; [done|apply G|done]).
      specialize (Gf D). unfold reportBody. by destruct e.
    - unfold input_left, reportBody in *. destruct e; cbn; lia. }
  destruct (Z.ltb_spec 0 (sv_maxSize sv)) as [Hl|Hl].
  - cbn [mbind option_bind]. destruct (Z.ltb_spec (sv_maxSize sv) (len buf)) as [Hx|Hx].
    + split; [|unfold input_left in *; cbn; lia]. apply (good_bdat c1); [done|lia].
    + destruct last; cbn; [|apply S]. eapply F; [|done]. intros m ->. destruct He as ([_ H2] & _). lia.
  - destruct last; cbn; [|apply S]. eapply F; [|done]. intros m ->. destruct He as ([H1 _] & _). lia.
Qed.

Lemma fine_command sv mo line c : env_ok bound sv mo -> good c -> no_lf line = true -> fine c (command sv mo line c).
Proof.
  intros He H Hl. unfold command. apply (Cut_no_lf _ 32) in Hl as [_ Ha]. destruct (Cut line 32) as [cmd arg]. cbn [snd] in Ha.
  destruct (List.find _ _) as [p|] eqn:E; [|by apply fine_say]. apply List.find_some in E as [E _].
  unfold commandTable in E.
  repeat (destruct E as [<-|E]; [cbn [snd]; first
    [by apply fine_helo | by apply fine_ehlo | by apply fine_auth | by apply fine_starttls | by apply fine_mail | by apply fine_rcpt
    | by apply fine_data | by apply fine_bdat | by apply fine_say
    | (split; [by apply (good_reset c)|unfold input_left; cbn; lia]) | by apply fine_same] | ]).
  done.
Qed.

(** Every turn that goes on has read something. *)
Lemma turn_fine sv sv' mo c : env_ok bound sv' mo -> good c ->
  match turn sv sv' mo c with
  | Some (c', b) => good c' /\ (b = true -> (input_left c' < input_left c)%nat)
  | None => False
  end.
Proof.
  intros He H. unfold turn. pose proof (read_line_len (sc_in c) [] (commandLineLimit sv)) as [_ L].
  pose proof (ReadLine_no_lf (sc_in c) (commandLineLimit sv)) as N. unfold ReadLine in *.
  destruct (read_line (sc_in c) [] (commandLineLimit sv)) as [[line|[]] rest]; cbn [fst snd] in L.
  - specialize (L ltac:(done)). specialize (N _ _ eq_refl). set (c1 := set_in rest c).
    assert (I : (input_left c1 < input_left c)%nat) by (unfold c1, input_left; cbn; lia).
    destruct (ew_err (sc_w c1)); [done|].
    pose proof (fine_command sv' mo line c1 He H N) as F. unfold fine in F. destruct (command _ _ _ _) as [[c2 b]|]; [|done].
    destruct F as [G F]. split; [done|]. intros _. lia.
  - done.
  - specialize (L ltac:(done)). split; [done|]. intros _. unfold input_left. cbn. lia.
Qed.

Lemma loop_fine (settings settings' : nat -> Server) (moments : nat -> moment) :
  (forall k, env_ok bound (settings' k) (moments k)) ->
  forall fuel k c, (input_left c < fuel)%nat -> good c ->
  exists c', loop settings settings' moments fuel k c = Some (c', false) /\ good c'.
Proof.
  intros He. induction fuel as [|fuel IH]; intros k c Hf H; [lia|]. cbn [loop].
  pose proof (turn_fine (settings k) (settings' k) (moments k) c (He k) H) as T.
  destruct (turn _ _ _ c) as [[c1 b]|]; [|done]. cbn. destruct T as [G T]. destruct b; [|by exists c1].
  apply IH; [|done]. specialize (T eq_refl). lia.
Qed.

Lemma handle_fine sv settings settings' moments b remote input credit isTLS up :
  (forall k, env_ok bound (settings' k) (moments k)) ->
  exists c', handle settings settings' moments sv (fun _ => Some (b, [])) remote input credit isTLS up = inr (Some (c', false))
    /\ phase_run Idle (sc_sess c').2 = Some Gone /\ Forall (data_ok bound) (sc_sess c').2.
Proof.
  intros He. unfold handle. set (c0 := say 220 _ _).
  destruct (loop_fine settings settings' moments He (S (input_left c0)) 0%nat c0) as (c' & -> & (p & Hp & Ht) & _ & Hd); [lia| |].
  { split; [|done]. exists Idle. split; [done|]. by right. }
  cbn. eexists. split; [done|]. cbn. rewrite phase_run_snoc, Hp. cbn. apply phase_live in Ht.
  split; [by destruct p|]. apply Forall_app. split; [done|]. constructor; [by destruct bound|done].
Qed.
End session.

(** ** What the backend sees *)

(** C3. The transactions of a connection are kept apart: whatever bytes a client sends, on
    whatever link, with AUTH and STARTTLS in between and whatever the backend answers, the
    session ends without a nil dereference, and the calls the backend saw follow the protocol
    of a mail transaction: every sender comes on a reset backend, every recipient after an
    accepted sender, every message to at least one recipient accepted since, each message is
    followed by a reset before the next sender, and the logout is last and happens once. *)
Theorem transactions_isolated {B} `{!Session B} sv settings settings' moments (b : B) remote input credit isTLS up :
  exists c', handle settings settings' moments sv (fun _ => Some (b, [])) remote input credit isTLS up = inr (Some (c', false))
    /\ phase_run Idle (sc_sess c').2 = Some Gone.
Proof.
  destruct (handle_fine None sv settings settings' moments b remote input credit isTLS up) as (c' & H1 & H2 & _); [done|]. by exists c'.
Qed.

(** What reaches the store is bounded and labelled: while every configured message size is
    positive and at most [m], each message handed to the backend, by DATA or by BDAT, is one
    folded header field, whatever name the client greeted with and whatever its address
    resolves to, followed by at most [m] bytes. *)
Theorem messages_bounded {B} `{!Session B} m sv settings settings' moments (b : B) remote input credit isTLS up :
  (forall k, env_ok (Some m) (settings' k) (moments k)) ->
  exists c', handle settings settings' moments sv (fun _ => Some (b, [])) remote input credit isTLS up = inr (Some (c', false))
    /\ Forall (data_ok (Some m)) (sc_sess c').2.
Proof.
  intros He. destruct (handle_fine (Some m) sv settings settings' moments b remote input credit isTLS up He) as (c' & H1 & _ & H2).
  by exists c'.
Qed.

(** ** AUTH needs TLS *)

Definition not_auth (e : event) : bool := match e with EAuth _ _ => false | _ => true end.

Section auth.
Context {B : Type} `{!Session B}.
Implicit Types c : smtpConn (B * list event).

(** The calls of a step, none of them a password check *)
Definition quiet c (r : option (smtpConn (B * list event) * bool)) : Prop :=
  forall c' b, r = Some (c', b) -> exists es, (sc_sess c').2 = (sc_sess c).2 ++ es /\ forallb not_auth es = true.

Lemma quiet_none c c' b : sc_sess c' = sc_sess c -> quiet c (Some (c', b)).
Proof. intros E c2 b2 [= <- <-]. exists []. by rewrite E, app_nil_r. Qed.
Lemma quiet_calls c c' b es : (sc_sess c').2 = (sc_sess c).2 ++ es -> forallb not_auth es = true -> quiet c (Some (c', b)).
Proof. intros E F c2 b2 [= <- <-]. by exists es. Qed.
Hint Resolve quiet_none : core.

Lemma quiet_mail sv arg c : quiet c (cmdMAIL sv arg c).
Proof.
  unfold cmdMAIL. destruct (negb _); [by apply quiet_none|]. destruct (extractPath _ _) as [addr|]; [|by apply quiet_none].
  destruct (needsUTF8Keyword _ _); [by apply quiet_none|]. destruct (checkMailParams _ _ _) as [dsn|[]]; [|by apply quiet_none].
  cbn [se_Mail recorded]. destruct (se_Mail _ addr dsn) as [b [e|]].
  - by apply (quiet_calls _ _ _ [EReset; EMail addr false]); [cbn; rewrite <- app_assoc|].
  - by apply (quiet_calls _ _ _ [EReset; EMail addr true]); [cbn; rewrite <- app_assoc|].
Qed.
Lemma quiet_rcpt arg c : quiet c (cmdRCPT arg c).
Proof.
  unfold cmdRCPT. destruct (negb _); [by apply quiet_none|]. destruct (extractPath _ _) as [addr|]; [|by apply quiet_none].
  destruct (needsUTF8Keyword _ _); [by apply quiet_none|]. destruct (dsnRcptParams _) as [dsn|]; [|by apply quiet_none].
  cbn [se_Rcpt recorded]. destruct (se_Rcpt _ addr dsn) as [b [e|]].
  - by apply (quiet_calls _ _ _ [ERcpt addr false]).
  - by apply (quiet_calls _ _ _ [ERcpt addr true]).
Qed.
Lemma reportBody_sess e c : sc_sess (reportBody e c) = sc_sess c.
Proof. by destruct e. Qed.
Lemma quiet_data sv mo c : quiet c (cmdDATA sv mo c).
Proof.
  unfold cmdDATA. case_bool_decide; [by apply quiet_none|]. destruct (tx_binaryMIME _); [by apply quiet_none|].
  destruct (_ =? 0); [by apply quiet_none|]. unfold consumeData. destruct (dotReader _) as [body rest].
  destruct (if 0 <? sv_maxSize sv then _ else _) as [content fin]. cbn [se_Data recorded].
  destruct (se_Data _ _ fin) as [b e]. eapply (quiet_calls _ _ _ [EData _ _ _; EReset]); [|done].
  cbn. rewrite reportBody_sess. cbn. by rewrite <- app_assoc.
Qed.
Lemma readChunk_sess size limit c c' f : readChunk size limit c = (c', f) -> sc_sess c' = sc_sess c.
Proof.
  unfold readChunk, bufferChunk, CopyN. destruct (chunkViable c); cbn [negb]; [|by intros [= <- <-]].
  case_match; by intros [= <- <-].
Qed.
Lemma quiet_bdat sv mo arg c : quiet c (cmdBDAT sv mo arg c).
Proof.
  unfold cmdBDAT. destruct (parseBDAT arg) as [[size last]|]; [|by apply quiet_none].
  destruct (readChunk _ _ c) as [c1 framed] eqn:E. apply readChunk_sess in E. destruct framed; cbn [negb]; [|by apply quiet_none].
  unfold replyBDAT. destruct (negb (sc_greeted c1)); [by apply quiet_none|]. destruct (_ =? 0); [by apply quiet_none|].
  destruct (tx_bdatErr _); [by apply quiet_none|].
  destruct (tx_bdatBuf (sc_txn c1)) as [buf|]; [|by destruct (0 <? _), last; cbn; try (intros ? ? ?; done); apply quiet_none].
  assert (F : forall b e, (b, e) = se_Data (sc_sess c1) (trace sv mo c1 ++ buf) EndEOF ->
    quiet c (Some (resetTxn (reportBody e (set_sess b c1)), true))).
  { intros b e He. cbn [se_Data recorded] in He. destruct (se_Data (sc_sess c1).1 _ _) as [b' e']. injection He as -> ->.
    eapply (quiet_calls _ _ _ [EData _ _ _; EReset]); [|done]. cbn. rewrite reportBody_sess. cbn. by rewrite <- app_assoc, E. }
  destruct (0 <? sv_maxSize sv); cbn [mbind option_bind fmap option_fmap option_map].
  - destruct (_ <? len buf); [by apply quiet_none|]. destruct last; cbn [negb]; [|by apply quiet_none].
    destruct (se_Data (sc_sess c1) _ EndEOF) as [b e] eqn:D. cbn. by apply F.
  - destruct last; cbn [negb]; [|by apply quiet_none]. destruct (se_Data (sc_sess c1) _ EndEOF) as [b e] eqn:D. cbn. by apply F.
Qed.

Lemma quiet_starttls sv c : quiet c (cmdSTARTTLS sv c).
Proof.
  unfold cmdSTARTTLS. destruct (_ || _); [by apply quiet_none|].
  destruct (sc_upgrade c); [by apply quiet_none|by apply quiet_none|by apply (quiet_calls c _ _ [EReset])].
Qed.

(** Passwords do not travel in the clear: on a plaintext link no command a client sends,
    AUTH included, makes the server ask the backend to check a password. *)
Theorem auth_needs_tls sv sv' mo c c' more :
  sc_tls c = false -> turn sv sv' mo c = Some (c', more) ->
  exists es, (sc_sess c').2 = (sc_sess c).2 ++ es /\ forallb not_auth es = true.
Proof.
  intros Ht. unfold turn. destruct (ReadLine _ _) as [[line|[]] rest]; [|by apply quiet_none..].
  destruct (ew_err _); [by apply quiet_none|]. unfold command. destruct (Cut line 32) as [cmd arg].
  destruct (List.find _ _) as [p|] eqn:E; [|by apply quiet_none]. apply List.find_some in E as [E _]. unfold commandTable in E.
  repeat (destruct E as [<-|E]; [cbn [snd]; first
    [ by apply (quiet_mail _ _ (set_in rest c)) | by apply (quiet_rcpt _ (set_in rest c)) | by apply (quiet_data _ _ (set_in rest c))
    | by apply (quiet_bdat _ _ _ (set_in rest c)) | by apply quiet_none
    | by apply (quiet_calls c _ _ [EReset])
    | by unfold cmdAUTH, handleAuth; cbn [sc_tls set_in]; rewrite Ht; destruct se_Auth; apply quiet_none
    | by apply (quiet_starttls _ (set_in rest c)) ] | ]).
  done.
Qed.
End auth.
