(* ===== verification/SmtpBody.v ===== *)
(** * The SMTP server: the bytes of a message body

    The body a client sends by DATA, dot-stuffed as the protocol asks, and the one it sends by
    BDAT in counted chunks both arrive as the client meant them, and the stream is left at the
    next command.  Two deviations follow: DATA refuses a body of exactly the advertised size,
    and it takes a bare LF around the dot for the end. *)

From stdpp Require Import base list numbers.
From Stdlib Require Import ZArith Lia.
From Stdlib Require String.
Import String.StringSyntax.
From S2P Require Import Prelude Gostr Netline Limitbase Authlimit Pop3 Smtp SmtpProofs.
Open Scope Z_scope.
#[local] Arguments lit : simpl never.
#[local] Arguments ReadLine : simpl never.

(** ** DATA *)

(** A line of the body as the client writes it *)
Definition stuffed_line (l : bytes) : bytes := match l with 46 :: _ => 46 :: l | _ => l end.

Lemma stuffed_first b l : stuffed_line (b :: l) = (if b =? 46 then [46; b] else [b]) ++ l.
Proof. cbn. destruct (Z.eqb_spec b 46) as [->|]; [done|]. do 7 (destruct b as [|b|b]; try done). Qed.

Lemma stuff_tail l : forall rest, no_lf l = true -> stuff false (l ++ LF :: rest) = l ++ LF :: stuff true rest.
Proof.
  induction l as [|b l IH]; intros rest H; [done|]. cbn in *. apply andb_prop in H as [Hb H]. apply negb_true_iff in Hb.
  rewrite Hb. f_equal. by apply IH.
Qed.
Lemma stuff_last l : no_lf l = true -> stuff false l = l.
Proof.
  induction l as [|b l IH]; intros H; [done|]. cbn in *. apply andb_prop in H as [Hb H]. apply negb_true_iff in Hb.
  rewrite Hb. f_equal. by apply IH.
Qed.

Lemma stuff_line l rest : no_lf l = true -> stuff true (l ++ LF :: rest) = stuffed_line (l ++ [LF]) ++ stuff true rest.
Proof.
  destruct l as [|b l]; intros H; [done|]. cbn [app]. rewrite stuffed_first. cbn [stuff]. cbn in H.
  apply andb_prop in H as [Hb H]. apply negb_true_iff in Hb. rewrite Hb, stuff_tail by done. cbn [andb].
  rewrite <- !app_assoc. by destruct (b =? 46).
Qed.
Lemma stuff_end l : no_lf l = true -> stuff true l = stuffed_line l.
Proof.
  destruct l as [|b l]; intros H; [done|]. rewrite stuffed_first. cbn [stuff]. cbn in H.
  apply andb_prop in H as [Hb H]. apply negb_true_iff in Hb. by rewrite Hb, stuff_last.
Qed.

Lemma ReadString_line l rest : no_lf l = true -> ReadString (l ++ LF :: rest) = (l ++ [LF], rest).
Proof.
  induction l as [|b l IH]; intros H; [done|]. cbn in *. apply andb_prop in H as [Hb H]. apply negb_true_iff in Hb.
  by rewrite Hb, IH.
Qed.

Lemma drop_eol_none b l : b <> CR -> b <> LF -> drop_eol (b :: l) = b :: l.
Proof. intros H1 H2. cbn. by rewrite (proj2 (Z.eqb_neq _ _) H1), (proj2 (Z.eqb_neq _ _) H2). Qed.
Lemma drop_eol_suffix l : exists e, l = e ++ drop_eol l.
Proof.
  induction l as [|b l [e IH]]; [by exists []|]. cbn. destruct ((b =? CR) || (b =? LF)); [|by exists []].
  exists (b :: e). by rewrite IH at 1.
Qed.
Lemma trim_eol_prefix l : exists e, l = trim_eol l ++ e.
Proof.
  destruct (drop_eol_suffix (rev l)) as [e H]. exists (rev e). unfold trim_eol.
  rewrite <- rev_app_distr, <- H. by rewrite rev_involutive.
Qed.
Lemma drop_eol_keep a x : forall b, x <> CR -> x <> LF -> exists r, drop_eol (a ++ x :: b) = r ++ x :: b.
Proof.
  intros b H1 H2. induction a as [|y a [r IH]]; [exists []; by apply drop_eol_none|]. cbn.
  destruct ((y =? CR) || (y =? LF)); [by exists r|]. by exists (y :: a).
Qed.

(** A stuffed line is not the terminator. *)
Lemma stuffed_not_dot l : beq (trim_eol (stuffed_line l)) (lit ".") = false.
Proof.
  apply bool_decide_eq_false. intros E. destruct (trim_eol_prefix (stuffed_line l)) as [e He]. rewrite E in He.
  destruct l as [|b l]; [done|]. rewrite stuffed_first in He. destruct (Z.eqb_spec b 46) as [->|Hb]; [|by injection He].
  unfold trim_eol in E. cbn [stuffed_line] in E. cbn [rev] in E.
  rewrite <- app_assoc in E. destruct (drop_eol_keep (rev l) 46 [46]) as [r Hr]; [done|done|]. cbn [app] in E. rewrite Hr in E.
  rewrite rev_app_distr in E. by cbn in E.
Qed.
Lemma unstuff l : l <> [] -> TrimPrefix (stuffed_line l) (lit ".") = l.
Proof.
  destruct l as [|b l]; [done|]. intros _. rewrite stuffed_first. destruct (Z.eqb_spec b 46) as [->|Hb]; [done|].
  unfold TrimPrefix. change (lit ".") with [46]. cbn [HasPrefix app]. by rewrite (proj2 (Z.eqb_neq 46 b)) by done.
Qed.

(** What the client adds to a body that does not end in LF *)
Definition final_eol (data : bytes) : bytes := if (len data =? 0) || negb (List.last data 0 =? LF) then crlf else [].

Lemma split_lf data : no_lf data = true \/ exists l r, data = l ++ LF :: r /\ no_lf l = true.
Proof.
  induction data as [|b data IH]; [by left|]. cbn. destruct (Z.eqb_spec b LF) as [->|Hb]; cbn [negb].
  - right. by exists [], data.
  - destruct IH as [H|(l & r & -> & H)]; [by left|]. right. exists (b :: l), r. split; [done|]. unfold no_lf in *. cbn [forallb].
    by rewrite (proj2 (Z.eqb_neq _ _) Hb), H.
Qed.

Lemma stuffed_no_lf l : no_lf l = true -> no_lf (stuffed_line l) = true.
Proof.
  destruct l as [|b l]; [done|]. rewrite stuffed_first. intros H. rewrite no_lf_app. unfold no_lf in *. cbn [forallb] in H.
  apply andb_prop in H as [H1 H2]. rewrite H2, andb_true_r. destruct (b =? 46); cbn [forallb]; by rewrite H1.
Qed.
Lemma stuffed_app l k : l <> [] -> stuffed_line l ++ k = stuffed_line (l ++ k).
Proof. destruct l as [|b l]; [done|]. intros _. cbn [app]. rewrite !stuffed_first. by rewrite <- app_assoc. Qed.

(** The reader takes one line of the client. *)
Lemma dot_read_line fuel l stream : no_lf l = true ->
  dot_read (S fuel) (stuffed_line (l ++ [LF]) ++ stream) =
  (let '(body, rest) := dot_read fuel stream in ((l ++ [LF]) ++ body, rest)).
Proof.
  intros H. cbn [dot_read]. assert (R : ReadString (stuffed_line (l ++ [LF]) ++ stream) = (stuffed_line (l ++ [LF]), stream)).
  { destruct l as [|b l]; [done|]. rewrite <- stuffed_app by done. rewrite <- app_assoc. cbn [app].
    apply ReadString_line. by apply stuffed_no_lf. }
  rewrite R. unfold beq at 1. rewrite bool_decide_eq_false_2.
  2: { destruct l as [|b l]; [done|]. cbn [app]. rewrite stuffed_first. by destruct (b =? 46). }
  rewrite stuffed_not_dot, unstuff; [done|]. by destruct l.
Qed.

Lemma dot_read_end fuel rest : dot_read (S fuel) (lit "." ++ crlf ++ rest) = ([], rest).
Proof. done. Qed.

Lemma dot_read_stuffed n : forall data rest fuel, (length data <= n)%nat -> (length data + 1 < fuel)%nat ->
  dot_read fuel (stuff true data ++ final_eol data ++ lit "." ++ crlf ++ rest) = (data ++ final_eol data, rest).
Proof.
  induction n as [|n IH]; intros data rest fuel Hn Hf; (destruct fuel as [|fuel]; [lia|]).
  { destruct data; [|cbn in Hn; lia]. destruct fuel as [|fuel]; [cbn in Hf; lia|]. done. }
  destruct (split_lf data) as [H|(l & r & -> & H)].
  - rewrite stuff_end by done. assert (E : final_eol data = crlf).
    { unfold final_eol. destruct data as [|x data] using rev_ind; [done|]. rewrite last_last. rewrite no_lf_app in H.
      apply andb_prop in H as [_ H]. cbn in H. rewrite andb_true_r in H. by rewrite H, orb_true_r. }
    rewrite E, app_assoc. replace (stuffed_line data ++ crlf) with (stuffed_line ((data ++ [CR]) ++ [LF])).
    2: { rewrite <- app_assoc. destruct data; [done|]. by rewrite stuffed_app. }
    rewrite dot_read_line by (rewrite no_lf_app, H; done). destruct fuel as [|fuel]; [lia|].
    rewrite dot_read_end. by rewrite app_nil_r, <- app_assoc.
  - rewrite stuff_line by done. rewrite <- app_assoc, dot_read_line by done. rewrite length_app in Hn, Hf. cbn in Hn, Hf.
    destruct r as [|x r].
    + assert (E : final_eol (l ++ [LF]) = []).
      { unfold final_eol. rewrite last_last. change (LF =? LF) with true. rewrite orb_false_r. unfold len. rewrite length_app. cbn.
        by rewrite (proj2 (Z.eqb_neq _ _)) by lia. }
      rewrite E. destruct fuel as [|fuel]; [lia|]. cbn [stuff app]. rewrite dot_read_end. by rewrite !app_nil_r.
    + assert (E : final_eol (l ++ LF :: x :: r) = final_eol (x :: r)).
      { unfold final_eol. change (l ++ LF :: x :: r) with (l ++ [LF] ++ x :: r). rewrite app_assoc.
        assert (L : List.last ((l ++ [LF]) ++ x :: r) 0 = List.last (x :: r) 0).
        { destruct (exists_last (l := x :: r)) as (r' & y & ->); [done|]. by rewrite app_assoc, !last_last. }
        rewrite L. unfold len. rewrite !length_app. cbn [length]. rewrite (proj2 (Z.eqb_neq _ 0)) by lia.
        by rewrite (proj2 (Z.eqb_neq (Z.of_nat (S (length r))) 0)) by lia. }
      rewrite E, (IH (x :: r)) by (cbn in *; lia). by rewrite <- !app_assoc.
Qed.

(** A body sent by DATA arrives as it was written: for every message, dot-stuffed and
    terminated as the protocol asks, the reader yields the message, with a CRLF added when it
    did not end in LF, and stops right behind the terminator. *)
Theorem data_round_trip data rest :
  dotReader (dot_stuffed data ++ rest) = (data ++ final_eol data, rest).
Proof.
  unfold dotReader, dot_stuffed. fold (final_eol data). rewrite <- !app_assoc. eapply dot_read_stuffed; [done|].
  assert (L : (length data <= length (stuff true data))%nat).
  { clear. generalize true. induction data as [|b data IH]; intros s; [done|]. cbn [stuff]. specialize (IH (b =? LF)).
    rewrite length_app. destruct (s && (b =? 46)); cbn; lia. }
  rewrite !length_app. change (length (lit ".")) with 1%nat. change (length crlf) with 2%nat. lia.
Qed.

(** ** BDAT *)

Lemma fields_word a : forall cs cur, forallb (fun b => (b <? 128) && negb (IsSpace b)) a = true ->
  fields_from (map (fun b => (b, [b])) a ++ cs) cur = fields_from cs (cur ++ a).
Proof.
  induction a as [|b a IH]; intros cs cur H; [by rewrite app_nil_r|]. cbn [forallb] in H.
  apply andb_prop in H as [Hb H]. apply andb_prop in Hb as [_ Hb]. apply negb_true_iff in Hb.
  cbn [map app fields_from]. rewrite Hb, IH by done. by rewrite <- app_assoc.
Qed.

Lemma ascii_of a : forallb (fun b => (b <? 128) && negb (IsSpace b)) a = true -> forallb (fun b => b <? 128) a = true.
Proof. apply forallb_impl. intros b Hb. by apply andb_prop in Hb as [? _]. Qed.

Lemma Fields_one a : a <> [] -> forallb (fun b => (b <? 128) && negb (IsSpace b)) a = true -> Fields a = [a].
Proof.
  intros Ha H. unfold Fields. rewrite chunks_ascii by by apply ascii_of. rewrite <- (app_nil_r (map _ a)), fields_word by done.
  cbn. by destruct a.
Qed.
Lemma Fields_two a b : a <> [] -> b <> [] -> forallb (fun b => (b <? 128) && negb (IsSpace b)) a = true ->
  forallb (fun b => (b <? 128) && negb (IsSpace b)) b = true -> Fields (a ++ 32 :: b) = [a; b].
Proof.
  intros Ha Hb H1 H2. unfold Fields. rewrite chunks_ascii.
  2: { rewrite forallb_app. cbn [forallb]. by rewrite !ascii_of by done. }
  rewrite map_app, fields_word by done. cbn [map]. rewrite <- (app_nil_r (map _ b)). cbn [fields_from].
  change (IsSpace 32) with true. cbv iota. rewrite fields_word by done. cbn. destruct a; [done|]. by destruct b.
Qed.

Lemma dec_word n : 0 <= n -> forallb (fun b => (b <? 128) && negb (IsSpace b)) (dec n) = true.
Proof.
  intros H. unfold dec. rewrite (proj2 (Z.ltb_ge _ _)) by lia. destruct (dec_nat_digits n H) as (_ & D & _).
  eapply forallb_impl, D. intros b Hb. unfold is_digit in Hb. apply andb_prop in Hb as [H1 H2].
  apply Z.leb_le in H1, H2.
  assert (E : b = 48 \/ b = 49 \/ b = 50 \/ b = 51 \/ b = 52 \/ b = 53 \/ b = 54 \/ b = 55 \/ b = 56 \/ b = 57) by lia.
  by repeat destruct E as [->|E]; subst.
Qed.

Lemma dec_length n : 0 <= n < 2 ^ 63 -> (length (dec n) <= 63)%nat.
Proof.
  intros H. unfold dec, dec_nat. rewrite (proj2 (Z.ltb_ge _ _)) by lia.
  assert (G : forall fuel n, (length (dec_fuel fuel n) <= fuel)%nat).
  { induction fuel as [|fuel IH]; intros x; cbn [dec_fuel]; [done|]. destruct (x <? 10); [cbn; lia|].
    rewrite length_app. specialize (IH (x / 10)). cbn. lia. }
  etransitivity; [apply G|]. destruct (Z.eq_dec n 0) as [->|Hn]; [cbn; lia|].
  pose proof (proj1 (Z.log2_lt_pow2 n 63 ltac:(lia)) ltac:(lia)). pose proof (Z.log2_nonneg n). lia.
Qed.

Definition bdat_command (chunk : bytes) (last : bool) : bytes :=
  lit "BDAT " ++ dec (len chunk) ++ (if last then lit " LAST" else []) ++ crlf ++ chunk.

Lemma word_no_lf a : forallb (fun b => (b <? 128) && negb (IsSpace b)) a = true -> no_lf a = true.
Proof.
  apply forallb_impl. intros b Hb. apply andb_prop in Hb as [_ Hb]. apply negb_true_iff in Hb. apply negb_true_iff.
  apply Z.eqb_neq. intros ->. done.
Qed.

Lemma parseBDAT_command n last : 0 <= n < 2 ^ 63 -> parseBDAT (dec n ++ if last : bool then lit " LAST" else []) = Some (n, last).
Proof.
  intros H. pose proof (dec_word n ltac:(lia)) as W. assert (Hd : dec n <> []).
  { unfold dec. rewrite (proj2 (Z.ltb_ge _ _)) by lia. by destruct (dec_nat_digits n ltac:(lia)) as (_ & _ & ?). }
  unfold parseBDAT. destruct last.
  - change (lit " LAST") with (32 :: lit "LAST"). rewrite Fields_two by done. cbn iota.
    change (EqualFold (lit "LAST") (lit "LAST")) with true. cbv iota. rewrite Atoi_dec by done. by rewrite (proj2 (Z.ltb_ge n 0)) by lia.
  - rewrite app_nil_r, Fields_one by done. rewrite Atoi_dec by done. by rewrite (proj2 (Z.ltb_ge n 0)) by lia.
Qed.

Section bdat.
Context {B : Type} `{!Session B}.
Implicit Types c : smtpConn B.
Context (sv : Server) (Hline : 80 <= commandLineLimit sv) (Hmax : sv_maxSize sv < 2 ^ 63 - 1).

(** A transaction that has its recipients and the chunks [buf] *)
Definition receiving c (buf : bytes) : Prop :=
  sc_greeted c = true /\ 0 < tx_rcptCount (sc_txn c) /\ tx_bdatErr (sc_txn c) = false
  /\ default [] (tx_bdatBuf (sc_txn c)) = buf /\ ew_err (sc_w c) = false /\ ew_credit (sc_w c) = None.

Lemma turn_bdat m c chunk last rest : len chunk < 2 ^ 63 -> ew_err (sc_w c) = false ->
  sc_in c = bdat_command chunk last ++ rest ->
  turn sv sv m c = cmdBDAT sv m (dec (len chunk) ++ if last then lit " LAST" else []) (set_in (chunk ++ rest) c).
Proof.
  intros Hc He Hin. unfold turn. pose proof (len_nonneg chunk) as H0. pose proof (dec_length (len chunk) ltac:(lia)) as HL.
  pose proof (word_no_lf _ (dec_word (len chunk) H0)) as HN.
  set (arg := dec (len chunk) ++ if last then lit " LAST" else []).
  assert (E : sc_in c = (lit "BDAT " ++ arg ++ [CR]) ++ LF :: chunk ++ rest).
  { rewrite Hin. unfold bdat_command, arg. rewrite <- !app_assoc. done. }
  assert (La : (length arg <= 68)%nat) by (unfold arg; rewrite length_app; destruct last; [change (length (lit " LAST")) with 5%nat|cbn [length]]; lia).
  unfold ReadLine. rewrite E, read_line_lf.
  2: { rewrite !no_lf_app. unfold arg. rewrite no_lf_app, HN. by destruct last. }
  rewrite (proj2 (Z.ltb_ge (commandLineLimit sv + 1) _)).
  2: { unfold len. rewrite !length_app. change (length (lit "BDAT ")) with 5%nat. cbn. lia. }
  rewrite andb_false_r. cbn [andb]. cbv iota. rewrite app_nil_l. cbn [sc_w set_in]. rewrite He.
  unfold strip_cr. rewrite app_assoc, last_last, removelast_last, Z.eqb_refl.
  rewrite (proj2 (Z.ltb_lt _ _)) by (unfold len; rewrite !length_app; cbn; lia).
  reflexivity.
Qed.

Lemma viable c buf : receiving c buf -> chunkViable c = true.
Proof. intros (H1 & H2 & H3 & _). unfold chunkViable. rewrite H1, H3, (proj2 (Z.ltb_lt _ _)) by lia. done. Qed.

(** The chunk joins the buffer. *)
Lemma readChunk_viable c buf chunk rest : receiving c buf -> sc_in c = chunk ++ rest ->
  (0 < sv_maxSize sv -> len buf + len chunk <= sv_maxSize sv) ->
  readChunk (len chunk) (sv_maxSize sv) c = (set_bdat (Some (buf ++ chunk)) false (set_in rest c), true).
Proof.
  intros R Hin Hl. unfold readChunk. rewrite (viable c buf R). cbn [negb]. destruct R as (_ & _ & Hf & Hb & _).
  unfold bufferChunk. rewrite Hb. pose proof (len_nonneg buf) as Hb0. pose proof (len_nonneg chunk) as Hc0.
  set (toBuf := if 0 <? sv_maxSize sv then _ else len chunk).
  assert (T : toBuf = len chunk).
  { unfold toBuf. destruct (Z.ltb_spec 0 (sv_maxSize sv)) as [H|H]; [|done]. specialize (Hl H).
    rewrite (i64_id (sv_maxSize sv + 1)) by (apply inS_spec; lia). rewrite i64_id by (apply inS_spec; lia). lia. }
  rewrite T, Hin. unfold CopyN. replace (Z.to_nat (len chunk)) with (length chunk) by (unfold len; lia). rewrite take_app_length, drop_app_length.
  rewrite (proj2 (Z.leb_le _ _)) by (unfold len; rewrite length_app; lia). cbn [negb]. cbn.
  rewrite Z.sub_diag, Hf. cbn. rewrite drop_0. by rewrite (proj2 (Z.leb_le 0 _)) by apply len_nonneg.
Qed.

Lemma bdat_more m c buf chunk rest : receiving c buf -> sc_in c = bdat_command chunk false ++ rest -> len chunk < 2 ^ 63 ->
  (0 < sv_maxSize sv -> len buf + len chunk <= sv_maxSize sv) ->
  exists c', turn sv sv m c = Some (c', true) /\ receiving c' (buf ++ chunk) /\ sc_in c' = rest /\ sc_sess c' = sc_sess c
    /\ sc_helo c' = sc_helo c /\ sc_tls c' = sc_tls c.
Proof.
  intros R Hin Hc Hl. pose proof R as (H1 & H2 & H3 & H4 & H5 & H6). rewrite (turn_bdat m c chunk false rest) by done.
  pose proof (parseBDAT_command (len chunk) false ltac:(pose proof (len_nonneg chunk); lia)) as P. cbv iota in P. unfold cmdBDAT. rewrite P.
  rewrite (readChunk_viable _ buf chunk rest) by done. cbn [negb].
  unfold replyBDAT. cbn [sc_greeted sc_txn set_bdat set_txn set_in tx_rcptCount tx_bdatErr tx_bdatBuf]. rewrite H1. cbn [negb].
  rewrite (proj2 (Z.eqb_neq _ 0)) by lia. cbn [mbind option_bind].
  destruct (Z.ltb_spec 0 (sv_maxSize sv)) as [H|H].
  - rewrite len_app, (proj2 (Z.ltb_ge _ _)) by (specialize (Hl H); lia). eexists. split; [reflexivity|].
    unfold receiving, say, reply, send. cbn. rewrite H5, H6. done.
  - eexists. split; [reflexivity|]. unfold receiving, say, reply, send. cbn. rewrite H5, H6. done.
Qed.

Lemma bdat_last m c buf chunk rest : receiving c buf -> sc_in c = bdat_command chunk true ++ rest -> len chunk < 2 ^ 63 ->
  (0 < sv_maxSize sv -> len buf + len chunk <= sv_maxSize sv) ->
  exists c', turn sv sv m c = Some (c', true) /\ sc_in c' = rest /\ sc_txn c' = noTxn
    /\ sc_sess c' = se_Reset (se_Data (sc_sess c) (trace sv m c ++ buf ++ chunk) EndEOF).1.
Proof.
  intros R Hin Hc Hl. pose proof R as (H1 & H2 & H3 & H4 & H5 & H6). rewrite (turn_bdat m c chunk true rest) by done.
  pose proof (parseBDAT_command (len chunk) true ltac:(pose proof (len_nonneg chunk); lia)) as P. cbv iota in P. unfold cmdBDAT. rewrite P.
  rewrite (readChunk_viable _ buf chunk rest) by done. cbn [negb].
  unfold replyBDAT. cbn [sc_greeted sc_txn set_bdat set_txn set_in tx_rcptCount tx_bdatErr tx_bdatBuf sc_sess]. rewrite H1. cbn [negb].
  rewrite (proj2 (Z.eqb_neq _ 0)) by lia. cbn [mbind option_bind option_fmap option_map fmap].
  change (trace sv m (set_bdat _ _ (set_in rest _))) with (trace sv m c).
  destruct (se_Data (sc_sess c) (trace sv m c ++ buf ++ chunk) EndEOF) as [b e]. cbn [fst].
  destruct (Z.ltb_spec 0 (sv_maxSize sv)) as [H|H].
  - rewrite len_app, (proj2 (Z.ltb_ge _ _)) by (specialize (Hl H); lia). eexists. split; [reflexivity|]. by destruct e.
  - eexists. split; [reflexivity|]. by destruct e.
Qed.

(** A body sent by BDAT arrives as it was cut: in a transaction with a recipient, any number
    of chunks of any bytes, dots and line ends included, then a last one, together within the
    size limit, are handed over as their concatenation behind the trace header, once, and the
    stream is left at the next command. *)
Theorem bdat_reassembles moments chunks final rest c buf k :
  receiving c buf -> sc_in c = concat (map (fun x => bdat_command x false) chunks) ++ bdat_command final true ++ rest ->
  len (buf ++ concat chunks ++ final) < 2 ^ 63 ->
  (0 < sv_maxSize sv -> len (buf ++ concat chunks ++ final) <= sv_maxSize sv) ->
  exists c', loop (fun _ => sv) (fun _ => sv) moments (S (length chunks)) k c = Some (c', true)
    /\ sc_in c' = rest /\ sc_txn c' = noTxn
    /\ sc_sess c' = se_Reset (se_Data (sc_sess c) (trace sv (moments (k + length chunks)%nat) c ++ buf ++ concat chunks ++ final) EndEOF).1.
Proof.
  revert c buf k. induction chunks as [|x chunks IH]; intros c buf k R Hin Hb Hl; cbn [loop].
  - cbn [concat app] in Hb, Hl. rewrite len_app in Hb, Hl. pose proof (len_nonneg buf) as N1.
    destruct (bdat_last (moments k) c buf final rest) as (c' & -> & H1 & H2 & H3); [done|done|lia|done|].
    exists c'. cbn. rewrite Nat.add_0_r. done.
  - cbn [map concat] in Hin. rewrite <- app_assoc in Hin. pose proof (len_nonneg buf) as N1. pose proof (len_nonneg (concat chunks)) as N2.
    pose proof (len_nonneg final) as N3. cbn [concat] in Hb, Hl. rewrite !len_app in Hb, Hl.
    destruct (bdat_more (moments k) c buf x _ R Hin) as (c1 & -> & R1 & I1 & S1 & E1 & T1); [lia|lia|]. cbn [mbind option_bind snd fst].
    change (length (x :: chunks)) with (S (length chunks)).
    destruct (IH c1 (buf ++ x) (S k) R1 I1) as (c' & -> & H1 & H2 & H3).
    { rewrite !len_app. lia. } { intros H. rewrite !len_app. lia. }
    exists c'. split_and!; [done..|]. rewrite H3, S1. unfold trace. rewrite E1, T1. cbn [concat]. rewrite <- !app_assoc.
    by replace (S k + length chunks)%nat with (k + S (length chunks))%nat by lia.
Qed.
End bdat.

(** ** Sessions against a small backend *)

(** The envelope being received and the messages accepted *)
Record box := mkBox { bx_from : bytes; bx_rcpts : list bytes; bx_mail : list (bytes * list bytes * bytes) }.

(** It refuses the sender [spam], and reports a reader that ended too large. *)
#[export] Instance box_Session : Session box := {
  se_Mail b from _ := if beq from (lit "spam") then (b, Some (mkError None (Some (lit "5.7.1 no")) false))
                      else (mkBox from (bx_rcpts b) (bx_mail b), None);
  se_Rcpt b to _ := (mkBox (bx_from b) (bx_rcpts b ++ [to]) (bx_mail b), None);
  se_Data b content fin := match fin with
                           | EndTooLarge => (b, Some (mkError None None true))
                           | EndEOF => (mkBox (bx_from b) (bx_rcpts b) (bx_mail b ++ [(bx_from b, bx_rcpts b, content)]), None)
                           end;
  se_Reset b := mkBox [] [] (bx_mail b);
  se_Logout b := b;
  se_Auth := Some (fun b user pass => (b, beq user (lit "a") && beq pass (lit "b"))) }.

Definition ex_server : Server := mkServer (lit "mx") true 12 0.
Definition ex_moment : moment := mkMoment (lit "192.0.2.1") (Some [lit "host.example."]) (lit "now").
Definition ex_run (input : bytes) : option (list (bytes * list bytes * bytes) * list Z) :=
  match handle (fun _ => ex_server) (fun _ => ex_server) (fun _ => ex_moment) ex_server
          (fun _ => Some (mkBox [] [] [])) (lit "192.0.2.1:2525") input None false Pipelined with
  | inr (Some (c, false)) =>
      Some (bx_mail (sc_sess c), omap (fun r => match r with Reply code _ => Some code | Ehlo _ => None end) (ew_sent (sc_w c)))
  | _ => None
  end.
Definition lines (ls : list bytes) : bytes := concat (map (fun l => l ++ crlf) ls).
Definition ex_header : bytes := buildReceived (lit "me") (lit "192.0.2.1") (lit "host.example") (lit "mx") false (lit "now").

(** Two messages on one connection, one by DATA and one by BDAT, each for its own recipients;
    AUTH on the plaintext link is refused. *)
Example smtp_session_ex :
  ex_run (lines [lit "EHLO me"; lit "AUTH PLAIN AGEAYg=="; lit "MAIL FROM:<spam>"; lit "RCPT TO:<x>";
                 lit "MAIL FROM:<s>"; lit "RCPT TO:<x>"; lit "RCPT TO:<y>"; lit "DATA"; lit "..a"; lit "b"; lit ".";
                 lit "MAIL FROM:<t> BODY=BINARYMIME"; lit "RCPT TO:<z>"; lit "DATA"; lit "BDAT 3"]
          ++ lit "one" ++ lines [lit "BDAT 3 LAST"] ++ lit "two" ++ lines [lit "QUIT"])
  = Some ([(lit "s", [lit "x"; lit "y"], ex_header ++ lit ".a" ++ crlf ++ lit "b" ++ crlf);
           (lit "t", [lit "z"], ex_header ++ lit "onetwo")],
          [220; 538; 550; 503; 250; 250; 250; 354; 250; 250; 250; 503; 250; 250; 221]).
Proof. vm_compute. done. Qed.

(** A message of exactly the advertised size, twelve bytes: its declaration is accepted and BDAT
    takes it, and DATA refuses it as too large. *)
Example exact_size_refused :
  ex_run (lines [lit "EHLO me"; lit "MAIL FROM:<s> SIZE=12"; lit "RCPT TO:<x>"; lit "DATA"; lit "0123456789"; lit "."; lit "QUIT"])
    = Some ([], [220; 250; 250; 354; 552; 221])
  /\ ex_run (lines [lit "EHLO me"; lit "MAIL FROM:<s> SIZE=12"; lit "RCPT TO:<x>"; lit "BDAT 12 LAST"; lit "0123456789"; lit "QUIT"])
    = Some ([(lit "s", [lit "x"], ex_header ++ lit "0123456789" ++ crlf)], [220; 250; 250; 250; 221]).
Proof. vm_compute. done. Qed.

(** The server asks for CRLF around the dot that ends a message and takes a bare LF: a message
    that carries one is cut there and its rest is obeyed as commands. *)
Example bare_lf_ends_data :
  ex_run (lines [lit "EHLO me"; lit "MAIL FROM:<s>"; lit "RCPT TO:<x>"; lit "DATA"]
          ++ lit "hi" ++ [LF] ++ lit "." ++ [LF] ++ lines [lit "MAIL FROM:<boss>"; lit "RCPT TO:<x>"; lit "DATA"; lit "pay"; lit "."; lit "QUIT"])
  = Some ([(lit "s", [lit "x"], ex_header ++ lit "hi" ++ [LF]); (lit "boss", [lit "x"], ex_header ++ lit "pay" ++ crlf)],
          [220; 250; 250; 354; 250; 250; 250; 354; 250; 221]).
Proof. vm_compute. done. Qed.

(** The bound of [messages_bounded] for the example's settings *)
Lemma messages_bounded_witness :
  exists c', handle (fun _ => ex_server) (fun _ => ex_server) (fun _ => ex_moment) ex_server
               (fun _ => Some (mkBox [] [] [], [])) (lit "192.0.2.1:2525")
               (lines [lit "EHLO me"; lit "MAIL FROM:<s>"; lit "RCPT TO:<x>"; lit "DATA"; lit "a"; lit "."]) None false Pipelined
             = inr (Some (c', false))
    /\ Forall (data_ok (Some 12)) (sc_sess c').2.
Proof. apply (messages_bounded 12). intros k. vm_compute. done. Defined.

(** A transaction with its recipient, about to receive two chunks *)
Definition ex_conn (input : bytes) : smtpConn box :=
  mkConn (mkEw [] false None) input Pipelined false (lit "192.0.2.1:2525") (mkBox (lit "s") [lit "x"] []) true (lit "me")
    (mkTxn true 1 true false None false).
Lemma bdat_reassembles_witness :
  exists c', loop (fun _ => ex_server) (fun _ => ex_server) (fun _ => ex_moment) 2 0
               (ex_conn (bdat_command (lit ".a") false ++ bdat_command [13; 10; 46] true ++ lit "QUIT")) = Some (c', true)
    /\ sc_in c' = lit "QUIT" /\ sc_txn c' = noTxn
    /\ sc_sess c' = mkBox [] [] [(lit "s", [lit "x"], ex_header ++ lit ".a" ++ [13; 10; 46])].
Proof.
  apply (bdat_reassembles ex_server ltac:(done) ltac:(done) (fun _ => ex_moment) [lit ".a"] [13; 10; 46] (lit "QUIT")
           (ex_conn (bdat_command (lit ".a") false ++ bdat_command [13; 10; 46] true ++ lit "QUIT")) [] 0).
  - vm_compute. done.
  - reflexivity.
  - vm_compute. done.
  - intros _. vm_compute. done.
Defined.

Lemma auth_needs_tls_witness :
  exists c', turn ex_server ex_server ex_moment (set_sess (mkBox [] [] [], []) (mkConn (mkEw [] false None)
               (lines [lit "AUTH PLAIN AGEAYg=="]) Pipelined false [] (mkBox [] [] [], []) true (lit "me") noTxn)) = Some (c', true)
    /\ exists es, (sc_sess c').2 = [] ++ es /\ forallb not_auth es = true.
Proof.
  eexists. split; [vm_compute; reflexivity|].
  eapply (auth_needs_tls ex_server ex_server ex_moment (set_sess (mkBox [] [] [], []) (mkConn (mkEw [] false None)
               (lines [lit "AUTH PLAIN AGEAYg=="]) Pipelined false [] (mkBox [] [] [], []) true (lit "me") noTxn)));
    [reflexivity|vm_compute; reflexivity].
Defined.
