(* ===== verification/Mtalimit.v ===== *)
(** * Mail admission: rate limits and greylisting ([internal/mta])

    ratelimit.go and outbound.go count messages and recipients in fixed windows; greylist.go
    defers the first contact of a (network, sender, recipient) triplet.  Every operation takes
    the clock reading it makes.  The triplet table is [internal/directory/greylist.go]'s, a map
    from triplets to rows, each of whose statements may fail. *)

From stdpp Require Import base list numbers gmap.
From Stdlib Require Import ZArith Lia.
From S2P Require Import Prelude Limitbase Httplimit.
Open Scope Z_scope.

(** ** The inbound rate limit ([ratelimit.go]) *)

Definition defaultRateLimitWindow : Z := Minute.
Definition defaultRateLimitBurst : Z := 60.
Definition rateLimitMaxKeys : Z := 100000.

Record rlWindow := mkRl { rl_start : Z; rl_count : Z }.
Record RateLimiter := mkRateLimiter {
  rl_windows : gmap bytes rlWindow; rl_burst : Z; rl_window : Z; rl_enabled : bool }.

Definition NewRateLimiter : RateLimiter := mkRateLimiter ∅ defaultRateLimitBurst defaultRateLimitWindow false.
Definition rl_SetEnabled (l : RateLimiter) (on : bool) : RateLimiter :=
  mkRateLimiter (rl_windows l) (rl_burst l) (rl_window l) on.
Definition rl_SetLimits (l : RateLimiter) (burst window : Z) : RateLimiter :=
  mkRateLimiter (rl_windows l) (if 1 <=? burst then burst else rl_burst l) (if 0 <? window then window else rl_window l) (rl_enabled l).

Definition rl_elapsed (now window : Z) (w : rlWindow) : bool := window <=? time_Sub now (rl_start w).
Definition rl_sweepExpired (now window : Z) (m : gmap bytes rlWindow) : gmap bytes rlWindow * bool := sweep (rl_elapsed now window) m.

(** [w.count++] and the verdict, with the window stored *)
Definition rl_admit (l : RateLimiter) (m : gmap bytes rlWindow) (key : bytes) (w : rlWindow) : RateLimiter * bool :=
  let w := mkRl (rl_start w) (rl_count w + 1) in
  (mkRateLimiter (<[key := w]> m) (rl_burst l) (rl_window l) (rl_enabled l), rl_count w <=? rl_burst l).

(** [key] is [networkKey] of the address, empty when there is none. *)
Definition rl_Allow (l : RateLimiter) (now : Z) (key : bytes) : RateLimiter * bool :=
  if negb (rl_enabled l) then (l, true)
  else if bool_decide (key = []) then (l, true)
  else
    match rl_windows l !! key with
    | None =>
        if rateLimitMaxKeys <=? Z.of_nat (size (rl_windows l)) then
          let '(m, freed) := rl_sweepExpired now (rl_window l) (rl_windows l) in
          if freed then rl_admit l m key (mkRl now 0)
          else (mkRateLimiter m (rl_burst l) (rl_window l) (rl_enabled l), true)
        else rl_admit l (rl_windows l) key (mkRl now 0)
    | Some w => rl_admit l (rl_windows l) key (if rl_elapsed now (rl_window l) w then mkRl now 0 else w)
    end.
Definition rl_Prune (l : RateLimiter) (now : Z) : RateLimiter :=
  mkRateLimiter (rl_sweepExpired now (rl_window l) (rl_windows l)).1 (rl_burst l) (rl_window l) (rl_enabled l).

(** ** The outbound cap ([outbound.go]) *)

Definition defaultOutboundWindow : Z := 60 * Minute.
Definition defaultOutboundCap : Z := 500.
Definition outboundMaxKeys : Z := 100000.

Record obWindow := mkOb { ob_start : Z; ob_count : Z; ob_alerted : bool }.
Record OutboundLimiter := mkOutbound {
  ol_windows : gmap bytes obWindow; ol_cap : Z; ol_window : Z; ol_enabled : bool }.

Definition NewOutboundLimiter : OutboundLimiter := mkOutbound ∅ defaultOutboundCap defaultOutboundWindow false.
Definition ol_SetEnabled (l : OutboundLimiter) (on : bool) : OutboundLimiter :=
  mkOutbound (ol_windows l) (ol_cap l) (ol_window l) on.
Definition ol_SetLimits (l : OutboundLimiter) (cap window : Z) : OutboundLimiter :=
  mkOutbound (ol_windows l) (if 1 <=? cap then cap else ol_cap l) (if 0 <? window then window else ol_window l) (ol_enabled l).

Definition ol_elapsed (now window : Z) (w : obWindow) : bool := window <=? time_Sub now (ob_start w).
Definition ol_sweepExpired (now window : Z) (m : gmap bytes obWindow) : gmap bytes obWindow * bool := sweep (ol_elapsed now window) m.

(** The count, the verdict, and the count the alert is raised with *)
Definition ol_admit (l : OutboundLimiter) (m : gmap bytes obWindow) (user : bytes) (w : obWindow) : OutboundLimiter * bool * option Z :=
  let count := ob_count w + 1 in
  let stored alerted := mkOutbound (<[user := mkOb (ob_start w) count alerted]> m) (ol_cap l) (ol_window l) (ol_enabled l) in
  if count <=? ol_cap l then (stored (ob_alerted w), true, None)
  else if negb (ob_alerted w) then (stored true, false, Some count)
  else (stored true, false, None).

Definition ol_Allow (l : OutboundLimiter) (now : Z) (user : bytes) : OutboundLimiter * bool * option Z :=
  if negb (ol_enabled l) || bool_decide (user = []) then (l, true, None)
  else
    match ol_windows l !! user with
    | None =>
        if outboundMaxKeys <=? Z.of_nat (size (ol_windows l)) then
          let '(m, freed) := ol_sweepExpired now (ol_window l) (ol_windows l) in
          if freed then ol_admit l m user (mkOb now 0 false)
          else (mkOutbound m (ol_cap l) (ol_window l) (ol_enabled l), true, None)
        else ol_admit l (ol_windows l) user (mkOb now 0 false)
    | Some w => ol_admit l (ol_windows l) user (if ol_elapsed now (ol_window l) w then mkOb now 0 false else w)
    end.
Definition ol_Prune (l : OutboundLimiter) (now : Z) : OutboundLimiter :=
  mkOutbound (ol_sweepExpired now (ol_window l) (ol_windows l)).1 (ol_cap l) (ol_window l) (ol_enabled l).

Record OutboundSettings := mkOutboundSettings { os_Enabled : bool; os_RecipientCap : Z; os_WindowSeconds : Z }.
Definition ApplyOutboundSettings {E} (l : OutboundLimiter) (read : result E (option OutboundSettings)) : OutboundLimiter :=
  match read with
  | Err _ | Ok None => l
  | Ok (Some s) => ol_SetEnabled (ol_SetLimits l (os_RecipientCap s) (seconds (os_WindowSeconds s))) (os_Enabled s)
  end.

(** ** Both are the request limiter

    The three limiters count alike, so the bound proved for one of them is a bound of all: a
    simulation maps their tables to the request limiter's. *)

Definition rl_http (l : RateLimiter) : Limiter :=
  mkLimiter ((fun w => mkWindow (rl_start w) (rl_count w)) <$> rl_windows l) (rl_burst l) (rl_window l) (rl_enabled l).
Definition ol_http (l : OutboundLimiter) : Limiter :=
  mkLimiter ((fun w => mkWindow (ob_start w) (ob_count w)) <$> ol_windows l) (ol_cap l) (ol_window l) (ol_enabled l).

Lemma sweep_fmap {V W : Type} (f : V -> W) (p : V -> bool) (q : W -> bool) (m : gmap bytes V) :
  (forall v, q (f v) = p v) -> sweep q (f <$> m) = (f <$> (sweep p m).1, (sweep p m).2).
Proof.
  intros H. assert (E : (sweep q (f <$> m)).1 = f <$> (sweep p m).1).
  { apply map_eq. intros k. rewrite lookup_fmap, !sweep_lookup, lookup_fmap.
    destruct (m !! k) as [v|]; [|done]. cbn. rewrite H. by destruct (p v). }
  rewrite (surjective_pairing (sweep q (f <$> m))), E. f_equal. cbn [sweep snd]. apply eq_true_iff_eq.
  rewrite !existsb_exists. setoid_rewrite <- list_elem_of_In. split.
  - intros ([k w] & Hk & Hw). apply elem_of_map_to_list in Hk. rewrite lookup_fmap in Hk.
    destruct (m !! k) as [v|] eqn:Em; [|done]. injection Hk as <-. exists (k, v). split; [by apply elem_of_map_to_list|].
    cbn in *. by rewrite <- H.
  - intros ([k v] & Hk & Hv). apply elem_of_map_to_list in Hk. exists (k, f v). split; [|cbn in *; by rewrite H].
    apply elem_of_map_to_list. by rewrite lookup_fmap, Hk.
Qed.

Lemma rl_admit_http l m key now w :
  let r := count_request (rl_http l) ((fun w => mkWindow (rl_start w) (rl_count w)) <$> m) key now (mkWindow (rl_start w) (rl_count w)) in
  rl_http (rl_admit l m key w).1 = r.1 /\ (rl_admit l m key w).2 = r.2.1.
Proof.
  unfold rl_admit, count_request, rl_http. cbn. rewrite fmap_insert. cbn. by destruct (_ <=? _).
Qed.

(** Counting a message is counting a request. *)
Lemma rl_Allow_http l now key :
  rl_http (rl_Allow l now key).1 = (Allow (rl_http l) now key).1 /\ (rl_Allow l now key).2 = (Allow (rl_http l) now key).2.1.
Proof.
  unfold rl_Allow, Allow. cbn [hl_enabled rl_http hl_windows hl_period]. destruct (negb (rl_enabled l)); [done|].
  case_bool_decide; [done|]. rewrite lookup_fmap. destruct (rl_windows l !! key) as [w|]; cbn [fmap option_fmap option_map].
  - assert (E : (if win_elapsed now (rl_window l) (mkWindow (rl_start w) (rl_count w)) then mkWindow now 0
                 else mkWindow (rl_start w) (rl_count w))
                = (fun w => mkWindow (rl_start w) (rl_count w)) (if rl_elapsed now (rl_window l) w then mkRl now 0 else w)).
    { change (win_elapsed now (rl_window l) (mkWindow (rl_start w) (rl_count w))) with (rl_elapsed now (rl_window l) w).
      by destruct (rl_elapsed now (rl_window l) w). }
    rewrite E. apply (rl_admit_http l (rl_windows l) key now (if rl_elapsed now (rl_window l) w then mkRl now 0 else w)).
  - rewrite map_size_fmap. change maxKeys with rateLimitMaxKeys. destruct (rateLimitMaxKeys <=? _).
    + unfold sweepExpired, rl_sweepExpired. rewrite (sweep_fmap _ (rl_elapsed now (rl_window l))) by done.
      destruct (sweep (rl_elapsed now (rl_window l)) (rl_windows l)) as [m freed]. cbn [fst snd]. destruct freed; [|done].
      apply (rl_admit_http l m key now (mkRl now 0)).
    + apply (rl_admit_http l (rl_windows l) key now (mkRl now 0)).
Qed.

Lemma ol_admit_http l m user now w :
  let r := count_request (ol_http l) ((fun w => mkWindow (ob_start w) (ob_count w)) <$> m) user now (mkWindow (ob_start w) (ob_count w)) in
  ol_http (ol_admit l m user w).1.1 = r.1 /\ (ol_admit l m user w).1.2 = r.2.1.
Proof.
  unfold ol_admit, count_request, ol_http. cbn. destruct (_ <=? ol_cap l); [|destruct (negb _)]; cbn; by rewrite fmap_insert.
Qed.

(** Counting a recipient is counting a request. *)
Lemma ol_Allow_http l now user :
  ol_http (ol_Allow l now user).1.1 = (Allow (ol_http l) now user).1 /\ (ol_Allow l now user).1.2 = (Allow (ol_http l) now user).2.1.
Proof.
  unfold ol_Allow, Allow. cbn [hl_enabled ol_http hl_windows hl_period]. destruct (negb (ol_enabled l)); [done|]. cbn [orb].
  case_bool_decide; [done|]. rewrite lookup_fmap. destruct (ol_windows l !! user) as [w|]; cbn [fmap option_fmap option_map].
  - assert (E : (if win_elapsed now (ol_window l) (mkWindow (ob_start w) (ob_count w)) then mkWindow now 0
                 else mkWindow (ob_start w) (ob_count w))
                = (fun w => mkWindow (ob_start w) (ob_count w)) (if ol_elapsed now (ol_window l) w then mkOb now 0 false else w)).
    { change (win_elapsed now (ol_window l) (mkWindow (ob_start w) (ob_count w))) with (ol_elapsed now (ol_window l) w).
      by destruct (ol_elapsed now (ol_window l) w). }
    rewrite E. apply (ol_admit_http l (ol_windows l) user now (if ol_elapsed now (ol_window l) w then mkOb now 0 false else w)).
  - rewrite map_size_fmap. change maxKeys with outboundMaxKeys. destruct (outboundMaxKeys <=? _).
    + unfold sweepExpired, ol_sweepExpired. rewrite (sweep_fmap _ (ol_elapsed now (ol_window l))) by done.
      destruct (sweep (ol_elapsed now (ol_window l)) (ol_windows l)) as [m freed]. cbn [fst snd]. destruct freed; [|done].
      apply (ol_admit_http l m user now (mkOb now 0 false)).
    + apply (ol_admit_http l (ol_windows l) user now (mkOb now 0 false)).
Qed.

Lemma ol_Prune_http l now : ol_http (ol_Prune l now) = Prune (ol_http l) now.
Proof.
  unfold ol_Prune, Prune, ol_http, ol_sweepExpired, sweepExpired. cbn [ol_windows ol_cap ol_window ol_enabled hl_windows hl_burst hl_period hl_enabled].
  by rewrite (sweep_fmap _ (ol_elapsed now (ol_window l))).
Qed.

(** *** Traces of the outbound cap *)

Definition ol_step (l : OutboundLimiter) (e : event) : OutboundLimiter :=
  match e with EAllow t u => (ol_Allow l t u).1.1 | EPrune t => ol_Prune l t end.
(** The recipients of an account admitted in the [d] nanoseconds from [t0] *)
Fixpoint ol_admitted (l : OutboundLimiter) (user : bytes) (t0 d : Z) (evs : list event) : Z :=
  match evs with
  | [] => 0
  | e :: evs =>
      (match e with
       | EAllow t u => if bool_decide (u = user) && (t0 <=? t) && (t <? t0 + d) && (ol_Allow l t u).1.2 then 1 else 0
       | EPrune _ => 0
       end) + ol_admitted (ol_step l e) user t0 d evs
  end.

Lemma ol_admitted_http evs : forall l user t0 d, ol_admitted l user t0 d evs = admitted (ol_http l) user t0 d evs.
Proof.
  induction evs as [|e evs IH]; intros l user t0 d; [done|]. cbn [ol_admitted admitted]. rewrite IH.
  destruct e as [t u|t]; cbn [ol_step step admits].
  - destruct (ol_Allow_http l t u) as [-> ->]. done.
  - by rewrite ol_Prune_http.
Qed.

(** The outbound cap holds: whatever recipients are tried and whenever the table is pruned,
    an account gets at most twice the configured cap of external recipients admitted in any span
    of one window, for every tuning an operator can set. *)
Theorem outbound_bounded (cap window : Z) (user : bytes) (t t0 : Z) (evs : list event) :
  inS 64 window = true -> user <> [] -> ordered t evs = true -> Z.of_nat (size (ev_keys evs)) <= outboundMaxKeys ->
  let l := ol_SetEnabled (ol_SetLimits NewOutboundLimiter cap window) true in
  ol_admitted l user t0 (ol_window l) evs <= 2 * ol_cap l.
Proof.
  intros Hp Hk Ho HK l. apply inS_spec in Hp. rewrite ol_admitted_http.
  assert (P1 : 1 <= ol_cap l) by (unfold l; cbn; unfold defaultOutboundCap; destruct (Z.leb_spec 1 cap); lia).
  assert (P2 : 0 < ol_window l <= maxDuration).
  { unfold l. cbn [ol_SetEnabled ol_SetLimits ol_window NewOutboundLimiter]. change (2 ^ (64 - 1)) with (maxDuration + 1) in Hp.
    destruct (Z.ltb_spec 0 window); [lia|]. by vm_compute. }
  pose proof (admitted_bound (ol_cap l) (ol_window l) t0 P1 P2 evs (ol_http l) user None t 0 (ev_keys evs)) as H.
  rewrite Z.add_0_l in H. apply H; try done.
  cbn. by rewrite lookup_fmap, lookup_empty.
Qed.

Lemma outbound_bounded_witness :
  let evs := [EAllow 10 [1]; EAllow 11 [1]; EAllow 12 [2]; EAllow 100 [1]; EPrune 120; EAllow 130 [1]] in
  let l := ol_SetEnabled (ol_SetLimits NewOutboundLimiter 1 50) true in
  ol_admitted l [1] 90 (ol_window l) evs <= 2 * ol_cap l /\ ol_admitted l [1] 90 (ol_window l) evs = 1.
Proof.
  split; [|vm_compute; reflexivity].
  apply (outbound_bounded 1 50 [1] 0 90
    [EAllow 10 [1]; EAllow 11 [1]; EAllow 12 [2]; EAllow 100 [1]; EPrune 120; EAllow 130 [1]]);
    [reflexivity|discriminate|reflexivity|vm_compute; discriminate].
Defined.

(** The alert is raised by the first recipient past the cap and by no other of its window. *)
Definition alerts_ok (l : OutboundLimiter) : Prop :=
  forall u w, ol_windows l !! u = Some w -> ob_alerted w = (ol_cap l <? ob_count w) /\ 0 <= ob_count w.

Lemma ol_admit_alerts l m u w : 0 <= ol_cap l ->
  (forall u w, m !! u = Some w -> ob_alerted w = (ol_cap l <? ob_count w) /\ 0 <= ob_count w) ->
  ob_alerted w = (ol_cap l <? ob_count w) -> 0 <= ob_count w ->
  alerts_ok (ol_admit l m u w).1.1 /\ (ol_admit l m u w).2 = (if ob_count w =? ol_cap l then Some (ol_cap l + 1) else None).
Proof.
  intros Hc Hm Ha H0. unfold ol_admit. rewrite Ha.
  assert (I : forall w', ob_alerted w' = (ol_cap l <? ob_count w') -> 0 <= ob_count w' ->
    alerts_ok (mkOutbound (<[u:=w']> m) (ol_cap l) (ol_window l) (ol_enabled l))).
  { intros w' E1 E2 x y. cbn. rewrite lookup_insert. case_decide; [|apply Hm]. intros [= <-]. done. }
  destruct (Z.leb_spec (ob_count w + 1) (ol_cap l)).
  - rewrite (proj2 (Z.ltb_ge _ _)), (proj2 (Z.eqb_neq _ _)) by lia. split; [|done]. apply I; cbn; [|lia]. symmetry. apply Z.ltb_ge. lia.
  - destruct (Z.ltb_spec (ol_cap l) (ob_count w)); cbn [negb].
    + rewrite (proj2 (Z.eqb_neq _ _)) by lia. split; [|done]. apply I; cbn; [|lia]. symmetry. apply Z.ltb_lt. lia.
    + rewrite (proj2 (Z.eqb_eq _ _)) by lia. split; [|cbn [snd]; f_equal; lia]. apply I; cbn; [|lia]. symmetry. apply Z.ltb_lt. lia.
Qed.

(** ** Greylisting ([greylist.go]) *)

Record Greylisted := mkGrey { gr_FirstSeen : Z; gr_LastSeen : Z; gr_Confirmed : bool }.
Abbreviation triplet := (bytes * bytes * bytes)%type.
Abbreviation triplets := (gmap (bytes * bytes * bytes) Greylisted).

(** The statements of [internal/directory/greylist.go]; [up] is whether the database answers. *)
Definition GreylistGet (up : bool) (db : triplets) (k : triplet) : result unit (option Greylisted) :=
  if up then Ok (db !! k) else Err tt.
Definition GreylistUpsertSeen (up : bool) (db : triplets) (k : triplet) (now : Z) : triplets * bool :=
  if up then (<[k := match db !! k with
                     | None => mkGrey now now false
                     | Some r => mkGrey (gr_FirstSeen r) now (gr_Confirmed r)
                     end]> db, true)
  else (db, false).
Definition GreylistConfirm (up : bool) (db : triplets) (k : triplet) (now : Z) : triplets * bool :=
  if up then (match db !! k with
              | None => db
              | Some r => <[k := mkGrey (gr_FirstSeen r) now true]> db
              end, true)
  else (db, false).
Definition PruneGreylist (db : triplets) (unconfirmedBefore confirmedBefore : Z) : triplets :=
  filter (fun kv => negb ((negb (gr_Confirmed kv.2) && (gr_FirstSeen kv.2 <? unconfirmedBefore))
                          || (gr_Confirmed kv.2 && (gr_LastSeen kv.2 <? confirmedBefore))) = true) db.

Record Greylister := mkGreylister { gl_enabled : bool; gl_minDelay : Z; gl_unconfirmedTTL : Z; gl_confirmedTTL : Z }.
Definition defaultGreylistMinDelay : Z := 5 * 60.
Definition defaultGreylistUnconfirmedTTL : Z := 24 * 3600.
Definition defaultGreylistConfirmedTTL : Z := 36 * 24 * 3600.
Definition NewGreylister : Greylister :=
  mkGreylister false defaultGreylistMinDelay defaultGreylistUnconfirmedTTL defaultGreylistConfirmedTTL.
Definition gl_SetEnabled (g : Greylister) (on : bool) : Greylister :=
  mkGreylister on (gl_minDelay g) (gl_unconfirmedTTL g) (gl_confirmedTTL g).
Definition SetTimings (g : Greylister) (minDelay unconfirmedTTL confirmedTTL : Z) : Greylister :=
  mkGreylister (gl_enabled g) (if 0 <? minDelay then minDelay else gl_minDelay g)
    (if 0 <? unconfirmedTTL then unconfirmedTTL else gl_unconfirmedTTL g)
    (if 0 <? confirmedTTL then confirmedTTL else gl_confirmedTTL g).

(** The statement of each case may fail on its own: [up2]. *)
Definition deferTriplet (g : Greylister) (up2 : bool) (db : triplets) (k : triplet) (rec : option Greylisted) (now : Z) : triplets * bool :=
  match rec with
  | None => let '(db, ok) := GreylistUpsertSeen up2 db k now in (db, ok)
  | Some r =>
      if gr_Confirmed r then ((GreylistUpsertSeen up2 db k now).1, false)
      else if gl_minDelay g <=? i64 (now - gr_FirstSeen r) then ((GreylistConfirm up2 db k now).1, false)
      else (db, true)
  end.

Section greylist.
Context (ToLower : bytes -> bytes) (Allowlisted : bytes -> bool).

(** [ipKey] is [networkKey] of the client's address. *)
Definition ShouldDefer (g : Greylister) (up1 up2 : bool) (db : triplets) (now : Z) (ipKey sender recipient : bytes) : triplets * bool :=
  if negb (gl_enabled g) || bool_decide (sender = []) then (db, false)
  else if Allowlisted sender then (db, false)
  else if bool_decide (ipKey = []) then (db, false)
  else
    let k := (ipKey, ToLower sender, ToLower recipient) in
    match GreylistGet up1 db k with
    | Err _ => (db, false)
    | Ok rec => deferTriplet g up2 db k rec now
    end.
Definition gl_Prune (g : Greylister) (db : triplets) (now : Z) : triplets :=
  PruneGreylist db (i64 (now - gl_unconfirmedTTL g)) (i64 (now - gl_confirmedTTL g)).

(** *** What a run of contacts, prunings and retunings does to one triplet *)

Inductive gl_event :=
| GContact (now : Z) (ipKey sender recipient : bytes)
| GPrune (now : Z).
Definition gl_time (e : gl_event) : Z := match e with GContact t _ _ _ | GPrune t => t end.

Definition gl_step (g : Greylister) (db : triplets) (e : gl_event) : triplets :=
  match e with
  | GContact now ip s r => (ShouldDefer g true true db now ip s r).1
  | GPrune now => gl_Prune g db now
  end.
Fixpoint gl_run (g : Greylister) (db : triplets) (es : list gl_event) : triplets :=
  match es with [] => db | e :: es => gl_run g (gl_step g db e) es end.

(** A contact of a triplet among the events *)
Definition contacts (es : list gl_event) (k : triplet) (t : Z) : Prop :=
  exists ip s r, GContact t ip s r ∈ es /\ k = (ip, ToLower s, ToLower r).

(** The rows tell the truth about the past: a row's first sight is a contact, and a confirmed
    row had a contact at least the delay after that. *)
Definition row_true (g : Greylister) (es : list gl_event) (k : triplet) (r : Greylisted) : Prop :=
  contacts es k (gr_FirstSeen r)
  /\ (gr_Confirmed r = true -> exists t, contacts es k t /\ gr_FirstSeen r + gl_minDelay g <= t).
Definition db_true (g : Greylister) (es : list gl_event) (db : triplets) : Prop :=
  forall k r, db !! k = Some r -> row_true g es k r.

Lemma contacts_mono es e k t : contacts es k t -> contacts (es ++ [e]) k t.
Proof. intros (ip & s & r & H & E). exists ip, s, r. split; [|done]. apply elem_of_app. by left. Qed.
Lemma row_true_mono g es e k r : row_true g es k r -> row_true g (es ++ [e]) k r.
Proof.
  intros [H1 H2]. split; [by apply contacts_mono|]. intros C. destruct (H2 C) as (t & Ht & L).
  exists t. split; [by apply contacts_mono|done].
Qed.
Lemma contacts_now es now ip s r : contacts (es ++ [GContact now ip s r]) (ip, ToLower s, ToLower r) now.
Proof. exists ip, s, r. split; [|done]. apply elem_of_app. right. by apply list_elem_of_singleton. Qed.

(** Times are 64-bit seconds well inside their range. *)
Definition clock_ok (t : Z) : bool := (0 <=? t) && (t <? 2 ^ 62).

Lemma deferTriplet_true g es db now ip s r :
  db_true g es db -> clock_ok now = true -> Forall (fun e => clock_ok (gl_time e) = true) es ->
  db_true g (es ++ [GContact now ip s r])
    (deferTriplet g true db (ip, ToLower s, ToLower r) (db !! (ip, ToLower s, ToLower r)) now).1.
Proof.
  intros H Hn Hc. set (k := (ip, ToLower s, ToLower r)). unfold deferTriplet.
  assert (K : forall k' r', db !! k' = Some r' -> row_true g (es ++ [GContact now ip s r]) k' r') by (intros; apply row_true_mono; eauto).
  assert (F : forall x, db !! k = Some x -> clock_ok (gr_FirstSeen x) = true).
  { intros x Hx. destruct (H _ _ Hx) as [(i & a & b & Hin & _) _]. rewrite Forall_forall in Hc. by apply Hc in Hin. }
  destruct (db !! k) as [x|] eqn:E.
  - destruct (gr_Confirmed x) eqn:Ex.
    + cbn. rewrite E. intros k' r'. rewrite lookup_insert. case_decide as Hk; [|apply K]. intros [= <-]. subst k'.
      destruct (K _ _ E) as [A1 A2]. split; [done|]. cbn. rewrite Ex. intros _. by apply A2.
    + destruct (Z.leb_spec (gl_minDelay g) (i64 (now - gr_FirstSeen x))) as [L|L]; [|exact K].
      cbn. rewrite E. intros k' r'. rewrite lookup_insert. case_decide as Hk; [|apply K]. intros [= <-]. subst k'.
      destruct (K _ _ E) as [A1 A2]. split; [done|]. intros _. exists now. split; [apply contacts_now|]. cbn.
      specialize (F x eq_refl). unfold clock_ok in *. apply andb_prop in F as [F1 F2], Hn as [N1 N2]. apply Z.leb_le in F1, N1.
      apply Z.ltb_lt in F2, N2. rewrite i64_id in L by (apply inS_spec; lia). lia.
  - cbn. rewrite E. intros k' r'. rewrite lookup_insert. case_decide as Hk; [|apply K]. intros [= <-]. subst k'.
    split; [apply contacts_now|done].
Qed.

Lemma gl_step_true g es db e :
  db_true g es db -> clock_ok (gl_time e) = true -> Forall (fun e => clock_ok (gl_time e) = true) es ->
  db_true g (es ++ [e]) (gl_step g db e).
Proof.
  intros H He Hc. destruct e as [now ip s r|now]; cbn [gl_step].
  - unfold ShouldDefer. assert (K : db_true g (es ++ [GContact now ip s r]) db) by (intros k x Hx; by apply row_true_mono, H).
    destruct (negb _ || _); [done|]. destruct (Allowlisted s); [done|]. case_bool_decide; [done|]. cbn [GreylistGet].
    by apply deferTriplet_true.
  - intros k r Hr. apply row_true_mono, H. unfold gl_Prune, PruneGreylist in Hr. by apply map_lookup_filter_Some in Hr as [? _].
Qed.

Lemma gl_run_true g es : forall past db,
  db_true g past db -> Forall (fun e => clock_ok (gl_time e) = true) (past ++ es) -> db_true g (past ++ es) (gl_run g db es).
Proof.
  induction es as [|e es IH]; intros past db H Hc; [by rewrite app_nil_r|]. cbn [gl_run].
  replace (past ++ e :: es) with ((past ++ [e]) ++ es) in * by by rewrite <- app_assoc.
  apply IH; [|done]. apply Forall_app in Hc as [Hc _]. apply Forall_app in Hc as [Hc1 Hc2].
  apply gl_step_true; [done| |done]. by apply List.Forall_cons_iff in Hc2 as [? _].
Qed.

(** Greylisting defers a stranger: on any history of contacts and prunings, an enabled
    greylister admits a keyed sender that is not allowlisted only if the same network wrote from
    the same sender to the same recipient before, and some contact of that triplet, this one or
    an earlier one, came at least the configured delay after its first. *)
Theorem greylist_defers_strangers g es now ip s r db' :
  gl_enabled g = true -> s <> [] -> ip <> [] -> Allowlisted s = false ->
  Forall (fun e => clock_ok (gl_time e) = true) (es ++ [GContact now ip s r]) ->
  ShouldDefer g true true (gl_run g ∅ es) now ip s r = (db', false) ->
  exists t1 t2, contacts es (ip, ToLower s, ToLower r) t1
    /\ contacts (es ++ [GContact now ip s r]) (ip, ToLower s, ToLower r) t2 /\ t1 + gl_minDelay g <= t2.
Proof.
  intros He Hs Hi Ha Hc. unfold ShouldDefer. rewrite He, Ha. rewrite !bool_decide_eq_false_2 by done. cbn [negb orb GreylistGet].
  set (k := (ip, ToLower s, ToLower r)). apply Forall_app in Hc as [Hc Hn]. apply List.Forall_cons_iff in Hn as [Hn _].
  assert (T : db_true g es (gl_run g ∅ es)).
  { apply (gl_run_true g es []); [|done]. intros x y. by rewrite lookup_empty. }
  unfold deferTriplet. destruct (gl_run g ∅ es !! k) as [x|] eqn:E; [|done]. destruct (T _ _ E) as [A1 A2].
  destruct (gr_Confirmed x) eqn:Ex.
  - intros _. destruct (A2 eq_refl) as (t & H1 & H2). exists (gr_FirstSeen x), t. split_and!; [done|by apply contacts_mono|done].
  - destruct (Z.leb_spec (gl_minDelay g) (i64 (now - gr_FirstSeen x))) as [L|L]; [|done]. intros _.
    exists (gr_FirstSeen x), now. split; [done|]. split; [apply contacts_now|].
    destruct A1 as (i & a & b & Hin & _). rewrite Forall_forall in Hc. apply Hc in Hin. cbn in Hin, Hn. unfold clock_ok in *.
    apply andb_prop in Hin as [F1 F2], Hn as [N1 N2]. apply Z.leb_le in F1, N1. apply Z.ltb_lt in F2, N2.
    rewrite i64_id in L by (apply inS_spec; lia). lia.
Qed.

(** A stranger that retries in time gets in: after the delay, while the row is there. *)
Lemma greylist_admits_retry g db now ip s r x :
  db !! (ip, ToLower s, ToLower r) = Some x -> gl_minDelay g <= i64 (now - gr_FirstSeen x) ->
  (ShouldDefer g true true db now ip s r).2 = false.
Proof.
  intros E L. unfold ShouldDefer. destruct (negb _ || _); [done|]. destruct (Allowlisted s); [done|].
  case_bool_decide; [done|]. cbn [GreylistGet]. unfold deferTriplet. rewrite E.
  destruct (gr_Confirmed x); [done|]. by rewrite (proj2 (Z.leb_le _ _)).
Qed.
End greylist.


Lemma greylist_defers_strangers_witness :
  let never := fun _ : bytes => false in
  let g := gl_SetEnabled NewGreylister true in
  let es := [GContact 1000 [10] [97] [98]; GContact 1100 [10] [97] [98]; GPrune 1200] in
  (exists t1 t2, contacts id es ([10], [97], [98]) t1
    /\ contacts id (es ++ [GContact 1300 [10] [97] [98]]) ([10], [97], [98]) t2 /\ t1 + gl_minDelay g <= t2)
  /\ (ShouldDefer id never g true true (gl_run id never g ∅ [GContact 1000 [10] [97] [98]]) 1100 [10] [97] [98]).2 = true.
Proof.
  split; [|vm_compute; reflexivity].
  apply (greylist_defers_strangers id (fun _ => false) (gl_SetEnabled NewGreylister true)
    [GContact 1000 [10] [97] [98]; GContact 1100 [10] [97] [98]; GPrune 1200] 1300 [10] [97] [98]
    {[([10], [97], [98]) := mkGrey 1000 1300 true]});
    [reflexivity|discriminate|discriminate|reflexivity|repeat constructor|vm_compute; reflexivity].
Defined.

(** An unconfirmed triplet past its lifetime is admitted, not deferred again, while no pruning
    has removed it: the lifetime is the pruning's alone. *)
Example expired_triplet_accepted :
  let never := fun _ : bytes => false in
  let g := gl_SetEnabled NewGreylister true in
  let db := (ShouldDefer id never g true true ∅ 1000 [10] [97] [98]).1 in
  let later := 1000 + gl_unconfirmedTTL g + 1 in
  (ShouldDefer id never g true true db later [10] [97] [98]).2 = false
  /\ (ShouldDefer id never g true true (gl_Prune g db later) later [10] [97] [98]).2 = true.
Proof. vm_compute. done. Qed.
