(* ===== verification/MailhdrProofs.v ===== *)
(** * Message headers: what a reader of a delivered or generated message sees

    A header is a list of logical lines before a tail that starts with a blank line.  The byte
    edits and [net/mail]'s reader are both described on that list: removing a header is a
    filter of it, reading it a map. *)

From stdpp Require Import base list numbers.
From Stdlib Require Import ZArith Lia.
From Stdlib Require String.
Import String.StringSyntax.
From S2P Require Import Prelude Utf Gostr Netline Smtp Mailhdr.
Open Scope Z_scope.
#[local] Arguments lit : simpl never.

(** ** Lines *)

Definition line (l : bytes) : Prop := exists b, l = b ++ [LF] /\ no_lf b = true.

Lemma line_read l r : line l -> ReadString (l ++ r) = (l, r).
Proof.
  intros (b & -> & H). rewrite <- app_assoc. cbn [app]. induction b as [|x b IH]; [done|]. cbn in *.
  apply andb_prop in H as [Hx Hb]. apply negb_true_iff in Hx. by rewrite Hx, IH.
Qed.

(** A text that ends in LF starts with a line, and ends in LF after it. *)
Lemma first_line raw : List.last raw 0 = LF -> exists l r, raw = l ++ r /\ line l /\ (r = [] \/ List.last r 0 = LF).
Proof.
  induction raw as [|b raw IH]; [done|]. intros H. destruct (Z.eqb_spec b LF) as [->|Hb].
  - exists [LF], raw. split_and!; [done|by exists []|]. destruct raw; [by left|by right].
  - destruct raw as [|x raw]; [by cbn in H|]. destruct IH as (l & r & E & (y & -> & Hy) & Hr); [done|].
    exists (b :: y ++ [LF]), r. split_and!; [by rewrite E| |done]. exists (b :: y). cbn. by rewrite (proj2 (Z.eqb_neq _ _) Hb).
Qed.

Lemma line_nonempty l : line l -> l <> [].
Proof. intros (b & -> & _). by destruct b. Qed.
Lemma line_pos l : line l -> (0 < length l)%nat.
Proof. intros (b & -> & _). rewrite length_app. cbn. lia. Qed.
Lemma lineAfter_line l r : line l -> lineAfter (l ++ r) = length l.
Proof. intros H. unfold lineAfter. by rewrite (line_read _ _ H). Qed.
Lemma folded_line l r : line l -> folded (l ++ r) = folded l.
Proof. intros H. apply line_nonempty in H. by destruct l. Qed.

(** ** Continuation lines *)

Inductive cont : bytes -> Prop :=
| cont_nil : cont []
| cont_line l c : line l -> folded l = true -> cont c -> cont (l ++ c).

Lemma cont_exists n : forall raw, (length raw <= n)%nat -> raw = [] \/ List.last raw 0 = LF ->
  exists c r, raw = c ++ r /\ cont c /\ folded r = false /\ (r = [] \/ List.last r 0 = LF).
Proof.
  induction n as [|n IH]; intros raw Hn Hl.
  - destruct raw; [|cbn in Hn; lia]. exists [], []. split_and!; [done|constructor|done|by left].
  - destruct (folded raw) eqn:Hf; [|exists [], raw; split_and!; [done|constructor|done|done]].
    destruct raw as [|b raw]; [done|]. destruct Hl as [|Hl]; [done|].
    destruct (first_line _ Hl) as (l & r & Er & Hll & Hr). pose proof (line_pos _ Hll) as Hp.
    destruct (IH r) as (c & r' & -> & Hc & Hfr & Hr'); [rewrite Er, length_app in Hn; lia|done|].
    exists (l ++ c), r'. split_and!; [by rewrite Er, app_assoc| |done|done]. constructor; [done| |done].
    by rewrite <- (folded_line l (c ++ r')), <- Er.
Qed.

Lemma foldedEnd_cont c r fuel : cont c -> folded r = false -> (length (c ++ r) <= fuel)%nat -> foldedEnd fuel (c ++ r) = length c.
Proof.
  intros Hc. revert fuel. induction Hc as [|l c Hl Hf Hc IH]; intros fuel Hr Hn.
  - destruct fuel; [done|]. cbn. by rewrite Hr.
  - pose proof (line_pos _ Hl) as Hp. rewrite <- app_assoc in *. rewrite length_app in Hn.
    destruct fuel as [|fuel]; [lia|]. cbn [foldedEnd]. rewrite folded_line, Hf, lineAfter_line by done.
    rewrite drop_app_length, IH by (done || lia). by rewrite length_app.
Qed.

(** A line without its end *)
Definition text (l : bytes) : bytes := strip_cr (removelast l).

Lemma next_line_line l r : line l -> next_line (l ++ r) = Some (text l, r).
Proof.
  intros H. unfold next_line. destruct (l ++ r) as [|x y] eqn:E; [by apply app_eq_nil in E as [-> _]; apply line_nonempty in H|].
  rewrite <- E, (line_read _ _ H). destruct H as (b & -> & _). unfold text. by rewrite List.last_last.
Qed.

Lemma skip_blank_line l r : line l -> line (skip_blank l) /\ skip_blank (l ++ r) = skip_blank l ++ r.
Proof.
  intros (b & -> & H). induction b as [|x b IH]; [split; [by exists []|done]|]. cbn in *.
  apply andb_prop in H as [Hx Hb]. destruct (is_blank x); [by apply IH|]. split; [|done].
  exists (x :: b). cbn. by rewrite Hx, Hb.
Qed.

(** What continuation lines add to a field *)
Fixpoint added (fuel : nat) (c : bytes) : bytes :=
  match fuel, c with
  | S fuel, _ :: _ => let '(l, c') := ReadString (skip_blank c) in 32 :: trim_blank (text l) ++ added fuel c'
  | _, _ => []
  end.

Lemma continuations_cont c r : cont c -> folded r = false -> forall fuel n buf,
  (length (c ++ r) <= fuel)%nat -> (length c <= n)%nat -> continuations fuel buf (c ++ r) = (buf ++ added n c, r).
Proof.
  intros Hc Hr. induction Hc as [|l c Hl Hf Hc IH]; intros fuel n buf Hn Hm.
  - destruct fuel, n; cbn; rewrite ?app_nil_r; [done|done|by rewrite Hr|by rewrite Hr].
  - pose proof (line_pos _ Hl) as Hp. rewrite <- app_assoc in *. rewrite length_app in Hn, Hm.
    destruct fuel as [|fuel]; [lia|]. destruct n as [|n]; [lia|]. cbn [continuations added].
    rewrite (folded_line l), Hf by done. destruct (skip_blank_line l (c ++ r) Hl) as [H1 ->].
    rewrite (next_line_line _ _ H1). destruct (l ++ c) as [|x y] eqn:E; [by apply app_eq_nil in E as [-> _]; apply line_nonempty in Hl|].
    rewrite <- E. destruct (skip_blank_line l c Hl) as [_ ->]. rewrite (line_read _ _ H1). rewrite (IH fuel n) by lia.
    by rewrite <- app_assoc.
Qed.

(** ** Logical lines *)

Record logical := mkLogical { lg_first : bytes; lg_rest : bytes }.
Definition bytes_of (g : logical) : bytes := lg_first g ++ lg_rest g.
Definition logical_ok (g : logical) : Prop :=
  line (lg_first g) /\ folded (lg_first g) = false /\ trim_eol (lg_first g) <> [] /\ cont (lg_rest g).
(** The reader's view of it *)
Definition joined (g : logical) : bytes := trim_blank (text (lg_first g)) ++ added (length (lg_rest g)) (lg_rest g).

Definition header_bytes (gs : list logical) : bytes := concat (map bytes_of gs).
(** What follows the fields: nothing, or a line with nothing on it *)
Definition tail_ok (t : bytes) : Prop := t = [] \/ exists l r, t = l ++ r /\ line l /\ trim_eol l = [].

Lemma drop_eol_last s : drop_eol s <> [] -> exists x y, drop_eol s = x :: y /\ (x =? CR) = false /\ (x =? LF) = false.
Proof.
  induction s as [|b s IH]; [done|]. cbn. destruct (b =? CR) eqn:E1; cbn; [by apply IH|]. destruct (b =? LF) eqn:E2; [by apply IH|].
  intros _. by exists b, s.
Qed.

Lemma folded_tail t : tail_ok t -> folded t = false.
Proof.
  intros [->|(l & r & -> & Hl & Ht)]; [done|]. rewrite folded_line by done. destruct l as [|b l]; [done|]. cbn.
  destruct (is_blank b) eqn:E; [|done]. unfold trim_eol in Ht. apply (f_equal (@rev Z)) in Ht. rewrite rev_involutive in Ht. cbn in Ht.
  exfalso. assert (D : forall s, drop_eol (s ++ [b]) <> []).
  { induction s as [|z s IH]; cbn; [|by destruct (_ || _)]. unfold is_blank, CR, LF in *. by destruct (Z.eqb_spec b 13), (Z.eqb_spec b 10); subst. }
  by eapply D.
Qed.

Lemma folded_header gs t : Forall logical_ok gs -> tail_ok t -> folded (header_bytes gs ++ t) = false.
Proof.
  intros [|g gs' Hg _] Ht; [by apply folded_tail|]. destruct Hg as (H1 & H2 & _). cbn. unfold bytes_of.
  rewrite <- !app_assoc. by rewrite folded_line.
Qed.

(** Every text of whole lines that does not start in the middle of a field is a header. *)
Lemma header_exists n : forall raw, (length raw <= n)%nat -> raw = [] \/ List.last raw 0 = LF -> folded raw = false ->
  exists gs t, raw = header_bytes gs ++ t /\ Forall logical_ok gs /\ tail_ok t.
Proof.
  induction n as [|n IH]; intros raw Hn Hl Hf.
  - destruct raw; [|cbn in Hn; lia]. exists [], []. split_and!; [done|done|by left].
  - destruct raw as [|b raw]; [exists [], []; split_and!; [done|done|by left]|]. destruct Hl as [|Hl]; [done|].
    destruct (first_line _ Hl) as (l & r & Er & Hll & Hr). pose proof (line_pos _ Hll) as Hp.
    destruct (decide (trim_eol l = [])) as [Ht|Ht].
    { exists [], (b :: raw). split_and!; [done|done|]. right. exists l, r. by rewrite Er. }
    destruct (cont_exists (length r) r) as (c & r' & -> & Hc & Hfr & Hr'); [done|done|].
    destruct (IH r') as (gs & t & -> & Hgs & Htl); [rewrite Er, !length_app in Hn; lia|done|done|].
    exists (mkLogical l c :: gs), t. split_and!; [cbn; unfold bytes_of; cbn; by rewrite Er, !app_assoc| |done].
    constructor; [|done]. split_and!; [done| |done|done]. cbn. by rewrite <- (folded_line l (c ++ header_bytes gs ++ t)), <- Er.
Qed.

(** ** Removing a header is a filter *)

Lemma span_line l r fuel i p : line l ->
  span_from (S fuel) i p (l ++ r)
  = (if beq (trim_eol l) [] then None
     else if HasPrefix (ToLowerA (trim_eol l)) p then Some (i, i + length l + foldedEnd (length (l ++ r)) r)%nat
     else span_from fuel (i + length l) p r).
Proof.
  intros Hl. destruct (l ++ r) as [|x y] eqn:E; [by apply app_eq_nil in E as [-> _]; apply line_nonempty in Hl|].
  cbn [span_from]. rewrite <- E, lineAfter_line, take_app_length, drop_app_length by done. done.
Qed.

Lemma folded_text l : line l -> folded l = true -> trim_eol l <> [].
Proof.
  intros Hl Hf E. assert (T : tail_ok (l ++ [])) by (right; by exists l, []). rewrite app_nil_r in T. apply folded_tail in T. congruence.
Qed.

Section spans.
Context (name : bytes).
Abbreviation prefix := (ToLowerA name ++ [58]).
Definition named (g : logical) : bool := HasPrefix (ToLowerA (trim_eol (lg_first g))) prefix.
(** No continuation line carries the name: it does not start with a blank. *)
Context (Hname : forall l, line l -> folded l = true -> HasPrefix (ToLowerA (trim_eol l)) prefix = false).

Lemma span_cont c r : cont c -> forall fuel i, (length (c ++ r) <= fuel)%nat ->
  exists fuel', (length r <= fuel')%nat /\ span_from fuel i prefix (c ++ r) = span_from fuel' (i + length c) prefix r.
Proof.
  induction 1 as [|l c Hl Hf Hc IH]; intros fuel i Hn; [exists fuel; split; [done|by rewrite Nat.add_0_r]|].
  pose proof (line_pos _ Hl) as Hp. rewrite <- app_assoc in *. rewrite length_app in Hn. destruct fuel as [|fuel]; [lia|].
  destruct (IH fuel (i + length l)%nat) as (fuel' & Hf' & E'); [lia|]. exists fuel'. split; [done|].
  rewrite length_app, Nat.add_assoc, <- E', span_line by done. unfold beq.
  by rewrite bool_decide_eq_false_2, Hname by (done || by apply folded_text).
Qed.

(** The span is the first field of that name, if there is one. *)
Lemma span_header gs t : Forall logical_ok gs -> tail_ok t -> forall fuel i, (length (header_bytes gs ++ t) <= fuel)%nat ->
  (forallb (fun g => negb (named g)) gs = true /\ span_from fuel i prefix (header_bytes gs ++ t) = None)
  \/ exists a g b, gs = a ++ g :: b /\ named g = true /\ forallb (fun g => negb (named g)) a = true
     /\ span_from fuel i prefix (header_bytes gs ++ t)
        = Some (i + length (header_bytes a), i + length (header_bytes a) + length (bytes_of g))%nat.
Proof.
  intros Hgs Ht. induction Hgs as [|g gs Hg Hgs IH]; intros fuel i Hn.
  - left. split; [done|]. cbn in *. destruct Ht as [->|(l & r & -> & Hl & He)]; [by destruct fuel|].
    destruct fuel; [by destruct (l ++ r)|]. by rewrite span_line, He.
  - destruct Hg as (H1 & H2 & H3 & H4). pose proof (line_pos _ H1) as Hp. cbn [forallb].
    change (header_bytes (g :: gs)) with ((lg_first g ++ lg_rest g) ++ header_bytes gs) in *. rewrite <- !app_assoc in *.
    rewrite length_app in Hn. destruct fuel as [|fuel]; [lia|]. rewrite span_line by done. unfold beq. rewrite bool_decide_eq_false_2 by done.
    change (HasPrefix (ToLowerA (trim_eol (lg_first g))) prefix) with (named g). destruct (named g) eqn:En.
    + right. exists [], g, gs. split_and!; [done|done|done|]. rewrite foldedEnd_cont; [|done|by apply folded_header|rewrite !length_app; lia].
      cbn. unfold bytes_of. rewrite length_app. do 2 f_equal; lia.
    + destruct (span_cont (lg_rest g) (header_bytes gs ++ t) H4 fuel (i + length (lg_first g))) as (fuel' & Hf' & ->); [lia|].
      destruct (IH fuel' (i + length (lg_first g) + length (lg_rest g))%nat Hf') as [[Ha ->]|(a & x & b & -> & Hx & Ha & ->)]; [by left|right].
      exists (g :: a), x, b. split_and!; [done|done|by cbn; rewrite En|]. change (header_bytes (g :: a)) with ((lg_first g ++ lg_rest g) ++ header_bytes a).
      rewrite !length_app. f_equal. f_equal; lia.
Qed.

Lemma header_bytes_app a b : header_bytes (a ++ b) = header_bytes a ++ header_bytes b.
Proof. unfold header_bytes. by rewrite map_app, concat_app. Qed.

Lemma filter_false a : forallb (fun g => negb (named g)) a = true -> List.filter (fun g => negb (named g)) a = a.
Proof. induction a as [|g a IH]; [done|]. cbn. intros H. apply andb_prop in H as [-> Ha]. by rewrite IH. Qed.

Lemma without_header_filter n : forall gs t, Forall logical_ok gs -> tail_ok t -> (length (header_bytes gs ++ t) < n)%nat ->
  without_header n (header_bytes gs ++ t) name = header_bytes (List.filter (fun g => negb (named g)) gs) ++ t.
Proof.
  induction n as [|n IH]; intros gs t Hgs Ht Hn; [lia|]. cbn [without_header]. unfold headerSpan.
  destruct (span_header gs t Hgs Ht _ 0 (Nat.le_refl _)) as [[Ha ->]|(a & g & b & -> & Hg & Ha & ->)].
  - by rewrite filter_false.
  - apply Forall_app in Hgs as [Hga Hgb]. inversion Hgb as [|? ? (H1 & _) Hgb']; subst. pose proof (line_pos _ H1) as Hp.
    rewrite !header_bytes_app in *. change (header_bytes (g :: b)) with (bytes_of g ++ header_bytes b) in *. rewrite <- !app_assoc in *.
    rewrite Nat.add_0_l, take_app_length, drop_app_add, drop_app_length, app_assoc, <- header_bytes_app.
    rewrite IH; [|by apply Forall_app|done|].
    + rewrite !List.filter_app. cbn. rewrite Hg. cbn. by rewrite !header_bytes_app, <- app_assoc.
    + rewrite header_bytes_app, !length_app in *. unfold bytes_of in Hn. rewrite length_app in Hn. lia.
Qed.
End spans.

(** ** Reading a header is a map *)

Lemma skip_blank_nonblank b s : is_blank b = false -> skip_blank (b :: s) = b :: s.
Proof. cbn. by intros ->. Qed.

Lemma read_logical g r : logical_ok g -> folded r = false -> ReadContinuedLine (bytes_of g ++ r) = Some (joined g, r).
Proof.
  intros (H1 & H2 & H3 & H4) Hr. unfold ReadContinuedLine, bytes_of, joined. rewrite <- app_assoc, (next_line_line _ _ H1).
  destruct (text (lg_first g)) as [|x y] eqn:E; [|by rewrite (continuations_cont _ _ H4 Hr _ (length (lg_rest g)))].
  exfalso. apply H3. destruct H1 as (b & Eb & Hb). unfold text in E. rewrite Eb, removelast_last in E.
  unfold strip_cr in E. rewrite Eb. unfold trim_eol. rewrite rev_app_distr. cbn.
  destruct ((0 <? len b) && (List.last b 0 =? CR)) eqn:Ec; [|by rewrite E].
  apply andb_prop in Ec as [_ Ec]. apply Z.eqb_eq in Ec. destruct b as [|z b _] using rev_ind; [done|].
  rewrite removelast_last in E. subst b. cbn in *. by subst.
Qed.

Lemma trim_blank_cons b s : is_blank b = false -> trim_blank (b :: s) = b :: rev (skip_blank (rev s)).
Proof.
  intros Hb. unfold trim_blank. cbn [skip_blank]. rewrite Hb. cbn [rev].
  assert (E : forall t, skip_blank (t ++ [b]) = skip_blank t ++ [b]).
  { induction t as [|x t IH]; cbn; [by rewrite Hb|]. by destruct (is_blank x). }
  by rewrite E, rev_app_distr.
Qed.

(** A field's text starts where its first line does. *)
Lemma text_starts g : logical_ok g -> exists b y, text (lg_first g) = b :: y /\ is_blank b = false.
Proof.
  intros Hg. destruct Hg as ((b & Eb & Hb) & H2 & H3 & _). rewrite Eb in *. unfold text. rewrite removelast_last.
  unfold strip_cr. destruct b as [|x b]; [by cbn in H3|]. cbn in H2. destruct (_ && _) eqn:Ec; [|by exists x, b].
  destruct b as [|z b]; [|by exists x, (removelast (z :: b))].
  apply andb_prop in Ec as [_ Ec]. apply Z.eqb_eq in Ec. cbn in Ec. by subst.
Qed.

Lemma joined_starts g : logical_ok g -> exists b y, joined g = b :: y.
Proof. intros Hg. destruct (text_starts g Hg) as (b & y & E & Hb). unfold joined. rewrite E, trim_blank_cons by done. cbn. by eexists _, _. Qed.

Definition has_colon (s : bytes) : bool := existsb (Z.eqb 58) s.
Fixpoint fields_of (gs : list logical) : option fields :=
  match gs with
  | [] => Some []
  | g :: gs =>
      if has_colon (joined g) then
        fs ← fields_of gs;
        Some (if beq (Cut (joined g) 58).1 [] then fs else ((Cut (joined g) 58).1, skip_blank (Cut (joined g) 58).2) :: fs)
      else None
  end.

(** The end of a header as the reader sees it: the end of the stream, or an empty line *)
Definition tail_empty (t : bytes) : Prop := t = [] \/ exists r, t = [LF] ++ r \/ t = crlf ++ r.
Lemma tail_empty_ok t : tail_empty t -> tail_ok t.
Proof. intros [->|(r & [->| ->])]; [by left|right..]; [exists [LF], r|exists crlf, r]; split_and!; try done; [by exists []|by exists [CR]]. Qed.

Lemma read_fields_header gs t : Forall logical_ok gs -> tail_empty t -> forall fuel, (length (header_bytes gs ++ t) < fuel)%nat ->
  read_fields fuel (header_bytes gs ++ t) = fs ← fields_of gs; Some (fs, beq t []).
Proof.
  intros Hgs Ht. induction Hgs as [|g gs Hg Hgs IH]; intros fuel Hn.
  - cbn. destruct fuel; [lia|]. destruct Ht as [->|(r & [->| ->])]; done.
  - change (header_bytes (g :: gs)) with (bytes_of g ++ header_bytes gs) in *. rewrite <- app_assoc, length_app in *.
    destruct fuel as [|fuel]; [lia|]. cbn [read_fields fields_of].
    rewrite read_logical; [|done|by apply folded_header, tail_empty_ok]. destruct (joined_starts g Hg) as (b & y & E). rewrite E.
    fold (has_colon (b :: y)). destruct (has_colon (b :: y)); [|done]. cbn [negb]. destruct (Cut (b :: y) 58) as [k v]. rewrite IH.
    + destruct (fields_of gs); [|done]. cbn. by destruct (beq k []).
    + destruct Hg as (H1 & _). apply line_pos in H1. unfold bytes_of in Hn. rewrite !length_app in *. lia.
Qed.

Lemma readHeader_header gs t : Forall logical_ok gs -> tail_empty t ->
  readHeader (header_bytes gs ++ t) = fs ← fields_of gs; Some (fs, beq t []).
Proof.
  intros Hgs Ht. unfold readHeader. rewrite folded_header by (done || by apply tail_empty_ok).
  apply read_fields_header; [done|done|lia].
Qed.

(** ** The name of a field, to the edit and to the reader *)

Lemma prefix_of_app u w p : match w with [] => True | x :: _ => x ∉ p end -> HasPrefix (u ++ w) p = HasPrefix u p.
Proof.
  revert p. induction u as [|b u IH]; intros p Hw; destruct p as [|x p]; try done.
  - by destruct w.
  - destruct w as [|y w]; [done|]. cbn. destruct (Z.eqb_spec x y) as [->|]; [|done]. exfalso. apply Hw. by left.
  - cbn. rewrite IH; [done|]. destruct w; [done|]. intros H. apply Hw. by right.
Qed.

Lemma lower_byte_special b : b = 58 \/ b = CR \/ b = 32 \/ b = 9 -> lower_byte b = b.
Proof. by intros [->|[->|[->| ->]]]. Qed.
Lemma lower_colon b : (lower_byte b =? 58) = (b =? 58).
Proof. unfold lower_byte. destruct (Z.leb_spec 65 b), (Z.leb_spec b 90); cbn; try done. destruct (Z.eqb_spec (b + 32) 58), (Z.eqb_spec b 58); (done || lia). Qed.

Lemma HasPrefix_nil s : HasPrefix s [] = true.
Proof. by destruct s. Qed.

Lemma beq_cons x y s t : beq (x :: s) (y :: t) = (y =? x) && beq s t.
Proof.
  unfold beq. destruct (Z.eqb_spec y x) as [->|Hne]; cbn; [|apply bool_decide_eq_false_2; by intros [= ? _]].
  apply bool_decide_ext. split; [by intros [= ->]|by intros ->].
Qed.

Lemma Cut_named s q : 58 ∉ q -> has_colon s = true ->
  beq (map lower_byte (Cut s 58).1) q = HasPrefix (map lower_byte s) (q ++ [58]).
Proof.
  revert q. induction s as [|b s IH]; intros q Hq Hs; [done|]. cbn [Cut map]. rewrite <- (lower_colon b).
  destruct (Z.eqb_spec (lower_byte b) 58) as [E|E]; cbn [fst map].
  - destruct q as [|x q]; cbn; [by rewrite E, HasPrefix_nil|]. destruct (Z.eqb_spec x (lower_byte b)); [|done]. exfalso. apply Hq. subst. rewrite E. by left.
  - destruct (Cut s 58) as [k v] eqn:Ec. cbn [fst map]. destruct q as [|x q].
    + cbn [app HasPrefix]. by rewrite (proj2 (Z.eqb_neq 58 (lower_byte b))) by congruence.
    + rewrite beq_cons. cbn [app HasPrefix]. rewrite <- IH; [done|by intros ?; apply Hq; right|].
      unfold has_colon in *. cbn [existsb] in Hs. rewrite (Z.eqb_sym 58 b), <- lower_colon, (proj2 (Z.eqb_neq _ _) E) in Hs. done.
Qed.

(** Compared with a name without an i or a k, a lower-cased string is its lower-cased bytes. *)
Lemma lower_from_prefix n : forall s p, (length s <= n)%nat -> Forall (fun x => x < 128 /\ x <> 105 /\ x <> 107) p ->
  HasPrefix (lower_from n s) p = HasPrefix (map lower_byte s) p.
Proof.
  induction n as [|n IH]; intros s p Hn Hp; [by destruct s; [|cbn in Hn; lia]|].
  destruct p as [|x p]; [by rewrite !HasPrefix_nil|]. inversion Hp as [|? ? (H1 & H2 & H3) Hp']; subst.
  assert (S : forall y t b u, x <> y -> 128 <= b -> HasPrefix (y :: t) (x :: p) = HasPrefix (map lower_byte (b :: u)) (x :: p)).
  { intros y t b u Hy Hb. cbn. rewrite (proj2 (Z.eqb_neq x y)) by done. symmetry. unfold lower_byte.
    rewrite (proj2 (Z.leb_gt b 90)), andb_false_r by lia. by rewrite (proj2 (Z.eqb_neq x b)) by lia. }
  destruct s as [|b s]; [done|]. cbn [length] in Hn. cbn [lower_from]. destruct (is_U130 (b :: s)) eqn:E1.
  { apply S; [done|]. destruct s; [done|]. apply andb_prop in E1 as [E1 _]. apply Z.eqb_eq in E1. lia. }
  destruct (is_U212A (b :: s)) eqn:E2.
  { apply S; [done|]. destruct s as [|? [|]]; try done. apply andb_prop in E2 as [E2 _]. apply andb_prop in E2 as [E2 _]. apply Z.eqb_eq in E2. lia. }
  cbn. by rewrite IH by (done || lia).
Qed.
Lemma ToLowerA_prefix s p : Forall (fun x => x < 128 /\ x <> 105 /\ x <> 107) p -> HasPrefix (ToLowerA s) p = HasPrefix (map lower_byte s) p.
Proof. by apply lower_from_prefix. Qed.

(** ** What edits and reader cut off the ends of a field *)

Definition clean (p : bytes) : Prop := Forall (fun x => x <> CR /\ x <> LF /\ x <> 32 /\ x <> 9) p.

Lemma clean_head (P : Z -> Prop) w p : clean p -> Forall P w -> (forall x, P x -> x = CR \/ x = LF \/ x = 32 \/ x = 9) ->
  match map lower_byte w with [] => True | x :: _ => x ∉ p end.
Proof.
  intros Hp Hw HP. destruct Hw as [|x w Hx]; [done|]. cbn. apply HP in Hx. intros Hin. unfold clean in Hp. rewrite List.Forall_forall in Hp.
  apply list_elem_of_In, Hp in Hin. destruct Hx as [->|[->|[->| ->]]]; unfold lower_byte, CR, LF in *; cbn in Hin; tauto.
Qed.

Lemma HasPrefix_cut u w p (P : Z -> Prop) : clean p -> Forall P w -> (forall x, P x -> x = CR \/ x = LF \/ x = 32 \/ x = 9) ->
  HasPrefix (map lower_byte (u ++ w)) p = HasPrefix (map lower_byte u) p.
Proof. intros Hp Hw HP. rewrite map_app. apply prefix_of_app. by eapply clean_head. Qed.

Lemma drop_eol_app s : exists w, s = w ++ drop_eol s /\ Forall (fun x => x = CR \/ x = LF) w.
Proof.
  induction s as [|b s (w & E & H)]; [by exists []|]. cbn. destruct (_ || _) eqn:Eb; [|by exists []].
  exists (b :: w). split; [by cbn; rewrite <- E|]. constructor; [|done]. apply orb_prop in Eb as [Eb|Eb]; apply Z.eqb_eq in Eb; auto.
Qed.
Lemma skip_blank_split s : exists w, s = w ++ skip_blank s /\ Forall (fun x => x = 32 \/ x = 9) w.
Proof.
  induction s as [|b s (w & E & H)]; [by exists []|]. cbn. destruct (is_blank b) eqn:Eb; [|by exists []].
  exists (b :: w). split; [by cbn; rewrite <- E|]. constructor; [|done]. apply orb_prop in Eb as [Eb|Eb]; apply Z.eqb_eq in Eb; auto.
Qed.

Lemma trim_eol_app l : exists w, l = trim_eol l ++ w /\ Forall (fun x => x = CR \/ x = LF) w.
Proof.
  destruct (drop_eol_app (rev l)) as (w & E & H). exists (rev w). split; [|by apply Forall_rev].
  unfold trim_eol. rewrite <- rev_app_distr, <- E. by rewrite rev_involutive.
Qed.

Lemma text_app l : line l -> exists w, l = text l ++ w /\ Forall (fun x => x = CR \/ x = LF) w.
Proof.
  intros (b & -> & _). unfold text. rewrite removelast_last. unfold strip_cr. destruct (_ && _) eqn:E; [|exists [LF]; auto].
  apply andb_prop in E as [_ E]. apply Z.eqb_eq in E. destruct b as [|x b _] using rev_ind; [done|]. rewrite List.last_last in E. subst x.
  rewrite removelast_last. exists [CR; LF]. split; [by rewrite <- app_assoc|auto].
Qed.

Lemma trim_blank_app b s : is_blank b = false -> exists w, b :: s = trim_blank (b :: s) ++ w /\ Forall (fun x => x = 32 \/ x = 9) w.
Proof.
  intros Hb. rewrite trim_blank_cons by done. destruct (skip_blank_split (rev s)) as (w & E & H). exists (rev w).
  split; [|by apply Forall_rev]. cbn. f_equal. rewrite <- rev_app_distr, <- E. by rewrite rev_involutive.
Qed.

Lemma added_head n c : exists w, added n c = w /\ match w with [] => True | x :: _ => x = 32 end.
Proof. destruct n as [|n], c as [|b c]; try by exists []. cbn [added]. destruct (ReadString _). by eexists. Qed.

(** The edit and the reader agree on a field's name. *)
Lemma joined_prefix g p : logical_ok g -> clean p ->
  HasPrefix (map lower_byte (joined g)) p = HasPrefix (map lower_byte (trim_eol (lg_first g))) p.
Proof.
  intros Hg Hp. pose proof Hg as (H1 & _). destruct (trim_eol_app (lg_first g)) as (w1 & E1 & F1). destruct (text_app _ H1) as (w2 & E2 & F2).
  rewrite <- (HasPrefix_cut (trim_eol _) w1 p (fun x => x = CR \/ x = LF)) by (done || naive_solver). rewrite <- E1.
  rewrite E2 at 1. rewrite (HasPrefix_cut _ w2 p (fun x => x = CR \/ x = LF)) by (done || naive_solver).
  destruct (text_starts g Hg) as (b & y & Et & Hb). unfold joined. rewrite Et. destruct (trim_blank_app b y Hb) as (w3 & E3 & F3).
  rewrite E3 at 2. rewrite (HasPrefix_cut _ w3 p (fun x => x = 32 \/ x = 9)) by (done || naive_solver).
  destruct (added_head (length (lg_rest g)) (lg_rest g)) as (w & -> & Hw). rewrite map_app. apply prefix_of_app. destruct w as [|x w]; [done|].
  subst x. cbn. intros Hin. unfold clean in Hp. rewrite List.Forall_forall in Hp.
  apply list_elem_of_In, Hp in Hin. tauto.
Qed.

Definition RP : bytes := lit "Return-Path".
Definition is_rp (f : bytes * bytes) : bool := beq (map lower_byte f.1) (map lower_byte RP).

Lemma rp_lower : ToLowerA RP ++ [58] = map lower_byte RP ++ [58].
Proof. reflexivity. Qed.
Lemma rp_clean : clean (map lower_byte RP ++ [58]).
Proof. repeat constructor; discriminate. Qed.
Lemma rp_ascii : Forall (fun x => x < 128 /\ x <> 105 /\ x <> 107) (map lower_byte RP ++ [58]).
Proof. repeat constructor; discriminate. Qed.

Lemma rp_named g : logical_ok g -> has_colon (joined g) = true -> beq (map lower_byte (Cut (joined g) 58).1) (map lower_byte RP) = named RP g.
Proof.
  intros Hg Hc. unfold named. rewrite rp_lower, ToLowerA_prefix by apply rp_ascii. rewrite <- (joined_prefix g) by (done || apply rp_clean).
  apply Cut_named; [|done]. intros Hin. apply list_elem_of_In in Hin. cbn in Hin. naive_solver.
Qed.

Lemma rp_not_folded l : line l -> folded l = true -> HasPrefix (ToLowerA (trim_eol l)) (ToLowerA RP ++ [58]) = false.
Proof.
  intros Hl Hf. pose proof (folded_text l Hl Hf) as Hn. destruct (trim_eol_app l) as (w & E & _).
  rewrite rp_lower, ToLowerA_prefix by apply rp_ascii. destruct (trim_eol l) as [|b y]; [done|]. rewrite E in Hf. cbn in Hf.
  apply orb_prop in Hf as [Hb|Hb]; apply Z.eqb_eq in Hb; by subst.
Qed.

Lemma fields_of_filter gs : Forall logical_ok gs -> forall fs, fields_of gs = Some fs ->
  fields_of (List.filter (fun g => negb (named RP g)) gs) = Some (List.filter (fun f => negb (is_rp f)) fs).
Proof.
  induction 1 as [|g gs Hg Hgs IH]; intros fs; cbn [fields_of]; [by intros [= <-]|].
  destruct (has_colon (joined g)) eqn:Hc; [|done]. destruct (fields_of gs) as [fs'|]; [|done]. cbn. intros [= <-]. specialize (IH _ eq_refl).
  rewrite <- (rp_named g Hg Hc). destruct (beq _ (map lower_byte RP)) eqn:E; cbn.
  - destruct (beq (Cut (joined g) 58).1 []) eqn:E0; [by apply bool_decide_eq_true_1 in E0; rewrite E0 in E|]. cbn. unfold is_rp at 1. cbn [fst]. by rewrite E.
  - rewrite Hc, IH. cbn. destruct (beq (Cut (joined g) 58).1 []); [done|]. cbn. unfold is_rp at 2. cbn [fst]. by rewrite E.
Qed.

(** ** The envelope sender is one line *)

Lemma decode_rune_lf b0 tl r t : decode_rune b0 tl = (r, t) -> exists p, tl = p ++ t /\ no_lf p = true /\ (b0 = LF -> r = LF).
Proof.
  unfold decode_rune. intros H. assert (B : (runeError, tl) = (r, t) -> 0x80 <= b0 -> exists p, tl = p ++ t /\ no_lf p = true /\ (b0 = LF -> r = LF)).
  { intros [= <- <-] Hb. exists []. split_and!; [done|done|]. unfold LF. lia. }
  destruct (Z.ltb_spec b0 0x80); [simplify_eq; by exists []|].
  assert (R : forall b lo hi, in_range lo hi b = true -> 0x80 <= lo -> negb (b =? LF) = true).
  { intros b lo hi Hr Hlo. unfold in_range in Hr. apply andb_prop in Hr as [Hr _]. apply Z.leb_le in Hr. apply negb_true_iff, Z.eqb_neq. unfold LF. lia. }
  assert (S : 0x80 <= second_lo b0) by (unfold second_lo; repeat case_match; lia).
  repeat case_match; try (by apply B); simplify_eq; repeat match goal with H : _ && _ = true |- _ => apply andb_prop in H as [? ?] end;
  [eexists [_]|eexists [_; _]|eexists [_; _; _]]; (split; [done|]; split; [cbn|unfold LF; lia]);
  repeat (erewrite R by (eassumption || done || lia)); done.
Qed.

Lemma no_control_lf s : has_control s = false -> no_lf s = true.
Proof.
  unfold has_control, chunks. assert (G : forall n s, (length s <= n)%nat -> existsb (fun c => IsControl c.1) (chunks_fuel n s) = false -> no_lf s = true).
  { induction n as [|n IH]; intros t Hn; [by destruct t; [|cbn in Hn; lia]|]. destruct t as [|b t]; [done|]. cbn [chunks_fuel].
    destruct (decode_rune b t) as [r u] eqn:E. apply decode_rune_lf in E as (p & -> & Hp & Hb). cbn [existsb fst]. intros H.
    apply orb_false_elim in H as [H1 H2]. cbn [length] in Hn. rewrite length_app in Hn. apply IH in H2; [|lia].
    change (no_lf (b :: p ++ u)) with (negb (b =? LF) && no_lf (p ++ u)). rewrite no_lf_app, Hp, H2, andb_true_r.
    apply negb_true_iff, Z.eqb_neq. intros ->. by rewrite (Hb eq_refl) in H1. }
  by apply G.
Qed.

(** ** The delivered copy *)

Lemma Forall_List_filter {A} (P : A -> Prop) f (l : list A) : Forall P l -> Forall P (List.filter f l).
Proof. induction 1 as [|x l Hx Hl IH]; [constructor|]. cbn. destruct (f x); [by constructor|done]. Qed.


Lemma Contains_app x p y : Contains (x ++ p ++ y) p = true.
Proof.
  unfold Contains. assert (H : exists n, Index (x ++ p ++ y) p = Some n).
  { assert (E : forall q, HasPrefix (q ++ y) q = true) by (induction q as [|b q IH]; cbn; [by destruct y|by rewrite Z.eqb_refl]).
    assert (I : forall s, HasPrefix s p = true -> Index s p = Some 0%nat) by (intros [|b s] H; cbn [Index]; by rewrite H).
    induction x as [|b x [n IH]]; cbn [app]; [exists 0%nat; by apply I|].
    cbn [Index]. destruct (HasPrefix _ p); [by eexists|]. rewrite IH. by eexists. }
  by destruct H as [n ->].
Qed.

Lemma tail_ok_empty raw gs t : raw = header_bytes gs ++ t -> Contains raw [CR; CR; LF] = false -> tail_ok t -> tail_empty t.
Proof.
  intros E Hc [->|(l & r & -> & (b & -> & Hb) & Ht)]; [by left|]. right. exists r.
  destruct (trim_eol_app (b ++ [LF])) as (w & Ew & Fw). rewrite Ht in Ew. cbn in Ew. subst w. apply Forall_app in Fw as [Fw _].
  destruct b as [|x b _] using rev_ind; [by left|]. rewrite no_lf_app in Hb. apply andb_prop in Hb as [Hb Hx]. apply Forall_app in Fw as [Fb Fx].
  assert (x = CR) as -> by (inversion Fx as [|? ? [|]]; subst; [done|by cbn in Hx]).
  destruct b as [|z b _] using rev_ind; [by right|]. exfalso. rewrite no_lf_app in Hb. apply andb_prop in Hb as [_ Hz]. apply Forall_app in Fb as [_ Fz].
  assert (z = CR) as -> by (inversion Fz as [|? ? [|]]; subst; [done|by cbn in Hz]).
  rewrite E in Hc. replace (header_bytes gs ++ ((b ++ [CR]) ++ [CR]) ++ [LF]) with ((header_bytes gs ++ b) ++ [CR; CR; LF]) in Hc; [|by rewrite <- !app_assoc].
  replace (header_bytes gs ++ (((b ++ [CR]) ++ [CR]) ++ [LF]) ++ r) with ((header_bytes gs ++ b) ++ [CR; CR; LF] ++ r) in Hc by by rewrite <- !app_assoc.
  by rewrite Contains_app in Hc.
Qed.

(** The field the server puts in front *)
Lemma rp_field from : no_lf from = true ->
  let g := mkLogical (RP ++ lit ": <" ++ from ++ lit ">" ++ crlf) [] in
  logical_ok g /\ joined g = RP ++ lit ": <" ++ from ++ lit ">".
Proof.
  intros Hf g. assert (Hl : line (lg_first g)).
  { exists (RP ++ lit ": <" ++ from ++ lit ">" ++ [CR]). split; [by rewrite <- !app_assoc|]. by rewrite !no_lf_app, Hf. }
  assert (Et : text (lg_first g) = RP ++ lit ": <" ++ from ++ lit ">").
  { unfold text, g. cbn [lg_first]. replace (RP ++ lit ": <" ++ from ++ lit ">" ++ crlf) with (((RP ++ lit ": <" ++ from ++ lit ">") ++ [CR]) ++ [LF])
      by by rewrite <- !app_assoc. rewrite removelast_last. unfold strip_cr. rewrite List.last_last, removelast_last.
    rewrite (proj2 (Z.ltb_lt _ _)); [done|]. rewrite len_app. pose proof (len_nonneg (RP ++ lit ": <" ++ from ++ lit ">")). change (len [CR]) with 1. lia. }
  split.
  - split_and!; [done|done| |constructor]. destruct (trim_eol_app (lg_first g)) as (w & Ew & Fw). intros Hn. rewrite Hn in Ew. cbn in Ew.
    subst w. inversion Fw as [|? ? [H|H]]; discriminate H.
  - unfold joined. rewrite Et. cbn [lg_rest g added length]. rewrite app_nil_r.
    change (RP ++ lit ": <" ++ from ++ lit ">") with (82 :: (drop 1 RP ++ lit ": <" ++ from ++ lit ">")). rewrite trim_blank_cons by done.
    f_equal. rewrite !app_assoc, rev_app_distr. change (rev (lit ">")) with [62]. cbn [app skip_blank is_blank]. cbn. by rewrite rev_involutive.
Qed.

(** A reader of a delivered copy sees the envelope sender as its Return-Path and no other:
    the header of the filed message is the envelope's field, then the fields of the message as
    it arrived less every Return-Path, folded lines included; whatever the sender wrote, in any
    case.  (The message is whole lines, does not start inside a field, and has no line that is
    only carriage returns.) *)
Theorem return_path_is_envelope raw from fs eof :
  List.last raw 0 = LF -> folded raw = false -> Contains raw [CR; CR; LF] = false -> has_control from = false ->
  readHeader raw = Some (fs, eof) ->
  readHeader (withReturnPath raw from)
  = Some ((lit "Return-Path", lit "<" ++ from ++ lit ">") :: List.filter (fun f => negb (is_rp f)) fs, eof).
Proof.
  intros Hl Hf Hcr Hc Hr. destruct (header_exists (length raw) raw) as (gs & t & E & Hgs & Ht); [done|by right|done|].
  pose proof (tail_ok_empty raw gs t E Hcr Ht) as Hte. rewrite E, readHeader_header in Hr by done.
  destruct (fields_of gs) as [fs0|] eqn:Ef; [|done]. cbn in Hr. injection Hr as -> <-.
  unfold withReturnPath. rewrite Hc, E. unfold withoutHeader. fold RP. rewrite (without_header_filter RP rp_not_folded) by (done || lia).
  set (gs' := List.filter (fun g => negb (named RP g)) gs). apply no_control_lf in Hc. destruct (rp_field from Hc) as [Hok Hj].
  set (g := mkLogical (RP ++ lit ": <" ++ from ++ lit ">" ++ crlf) []) in *.
  replace (lit "Return-Path: <" ++ from ++ lit ">" ++ crlf ++ header_bytes gs' ++ t) with (header_bytes (g :: gs') ++ t).
  2:{ change (header_bytes (g :: gs')) with (bytes_of g ++ header_bytes gs'). unfold bytes_of, g. cbn [lg_first lg_rest]. rewrite app_nil_r.
      change (lit "Return-Path: <") with (RP ++ lit ": <"). by rewrite <- !app_assoc. }
  rewrite readHeader_header; [|constructor; [done|by apply Forall_List_filter]|done].
  cbn [fields_of]. rewrite Hj. unfold gs'. rewrite (fields_of_filter gs Hgs fs Ef).
  change (has_colon (RP ++ lit ": <" ++ from ++ lit ">")) with true.
  change (Cut (RP ++ lit ": <" ++ from ++ lit ">") 58) with (RP, lit " <" ++ from ++ lit ">"). done.
Qed.

Lemma return_path_is_envelope_witness :
  readHeader (withReturnPath (lit "Subject: a" ++ crlf ++ lit "RETURN-path: <liar>" ++ crlf ++ lit " more" ++ crlf ++ crlf ++ lit "x" ++ crlf) (lit "b@c"))
  = Some ([(lit "Return-Path", lit "<b@c>"); (lit "Subject", lit "a")], false).
Proof.
  apply (return_path_is_envelope (lit "Subject: a" ++ crlf ++ lit "RETURN-path: <liar>" ++ crlf ++ lit " more" ++ crlf ++ crlf ++ lit "x" ++ crlf) (lit "b@c")
    [(lit "Subject", lit "a"); (lit "RETURN-path", lit "<liar> more")] false); vm_compute; reflexivity.
Defined.

(** A line of carriage returns ends the header for the edit and, when a continuation line with a
    colon follows it, not for the reader: the sender's Return-Path is then left in. *)
Example return_path_hidden :
  readHeader (withReturnPath (lit "Subject: a" ++ crlf ++ [CR] ++ crlf ++ lit " x: y" ++ crlf ++ lit "Return-Path: <liar>" ++ crlf ++ crlf) (lit "b@c"))
  = Some ([(lit "Return-Path", lit "<b@c>"); (lit "Subject", lit "a"); (CR :: lit " x", lit "y"); (lit "Return-Path", lit "<liar>")], false).
Proof. vm_compute. reflexivity. Qed.

(** A message that starts with a blank continues the field the server puts in front of it. *)
Example return_path_extended :
  readHeader (withReturnPath (lit " <liar>" ++ crlf ++ lit "Subject: a" ++ crlf ++ crlf) (lit "b@c"))
  = Some ([(lit "Return-Path", lit "<b@c> <liar>"); (lit "Subject", lit "a")], false).
Proof. vm_compute. reflexivity. Qed.

(** ** Generated messages are read back *)

Definition trim_right (s : bytes) : bytes := rev (skip_blank (rev s)).

Lemma trim_right_app x b y : is_blank b = false -> trim_right (x ++ b :: y) = x ++ b :: trim_right y.
Proof.
  intros Hb. unfold trim_right. rewrite rev_app_distr. cbn [rev].
  assert (E : forall t u, skip_blank ((t ++ [b]) ++ u) = (skip_blank t ++ [b]) ++ u).
  { induction t as [|z t IH]; intros u; cbn; [by rewrite Hb|]. by destruct (is_blank z). }
  rewrite E, !rev_app_distr. cbn. by rewrite rev_involutive.
Qed.
Lemma trim_right_blank w : forallb is_blank w = true -> trim_right w = [].
Proof.
  intros H. unfold trim_right. assert (E : forall t, forallb is_blank t = true -> skip_blank t = []).
  { induction t as [|x t IH]; [done|]. cbn. intros Ht. apply andb_prop in Ht as [-> Ht]. by apply IH. }
  rewrite E; [done|]. apply forallb_forall. intros x Hx. apply in_rev in Hx. by apply (proj1 (forallb_forall _ _) H).
Qed.
Lemma skip_trim s : skip_blank (trim_right s) = trim_right (skip_blank s).
Proof.
  destruct (skip_blank_split s) as (w & E & Hw). destruct (skip_blank s) as [|b y] eqn:Es.
  - rewrite app_nil_r in E. subst w. rewrite trim_right_blank; [done|]. apply forallb_forall. intros x Hx. rewrite List.Forall_forall in Hw.
    apply Hw in Hx as [->| ->]; done.
  - assert (Hb : is_blank b = false).
    { clear -Es. induction s as [|x s IH]; [done|]. cbn in Es. destruct (is_blank x) eqn:Ex; [by apply IH|]. by injection Es as -> _. }
    rewrite E, (trim_right_app w b y Hb). change (trim_right (b :: y)) with (trim_right ([] ++ b :: y)). rewrite (trim_right_app [] b y Hb). cbn [app]. clear -Hw Hb.
    induction Hw as [|x w [->| ->] Hw IH]; cbn; [by rewrite Hb|done|done].
Qed.

(** A field name as the generators write them *)
Definition field_name (n : bytes) : bool :=
  match n with b :: _ => negb (is_blank b) && negb ((b =? CR) || (b =? LF)) && no_lf n && negb (has_colon n) | [] => false end.

Lemma Cut_colon n v : has_colon n = false -> Cut (n ++ 58 :: v) 58 = (n, v).
Proof.
  induction n as [|b n IH]; intros H; [done|]. unfold has_colon in *. cbn [existsb] in H. apply orb_false_elim in H as [Hb Hn]. cbn [app Cut].
  rewrite (Z.eqb_sym b 58), Hb. by rewrite IH.
Qed.

Lemma field_logical n v : field_name n = true -> no_lf v = true ->
  let g := mkLogical (writeReplyField n v) [] in logical_ok g /\ joined g = n ++ 58 :: trim_right (32 :: v).
Proof.
  intros Hn Hv g. destruct n as [|b n]; [done|]. unfold field_name in Hn. apply andb_prop in Hn as [Hn Hc], Hn as [Hn Hl], Hn as [Hb Hx].
  apply negb_true_iff in Hb, Hx, Hc.
  assert (Ew : writeReplyField (b :: n) v = ((b :: n) ++ 58 :: 32 :: v) ++ [CR; LF]) by (unfold writeReplyField; by rewrite <- !app_assoc).
  assert (Et : text (lg_first g) = b :: n ++ 58 :: 32 :: v).
  { unfold text, g. cbn [lg_first]. rewrite Ew. change [CR; LF] with ([CR] ++ [LF]). rewrite app_assoc, removelast_last. unfold strip_cr.
    rewrite List.last_last, removelast_last, (proj2 (Z.ltb_lt _ _)); [done|]. rewrite len_app. pose proof (len_nonneg ((b :: n) ++ 58 :: 32 :: v)).
    change (len [CR]) with 1. lia. }
  split; [split_and!|].
  - exists ((b :: n) ++ 58 :: 32 :: v ++ [CR]). split; [cbn [g lg_first]; rewrite Ew, <- !app_assoc; cbn [app]; by rewrite <- app_assoc|].
    change (58 :: 32 :: v ++ [CR]) with ([58; 32] ++ v ++ [CR]). by rewrite !no_lf_app, Hl, Hv.
  - done.
  - destruct (trim_eol_app (lg_first g)) as (w & E & Fw). intros Hz. rewrite Hz in E. cbn in E. subst w. inversion Fw as [|? ? [H|H]]; subst; done.
  - constructor.
  - unfold joined. rewrite Et. cbn [g lg_rest length added]. rewrite app_nil_r, trim_blank_cons by done. fold (trim_right (n ++ 58 :: 32 :: v)).
    by rewrite trim_right_app.
Qed.

Lemma read_generated fs body : Forall (fun f => field_name f.1 = true /\ no_lf f.2 = true) fs ->
  readHeader (header_of fs ++ crlf ++ body) = Some (map (fun f => (f.1, trim_blank f.2)) fs, false).
Proof.
  intros H. set (gs := map (fun f => mkLogical (writeReplyField f.1 f.2) []) fs).
  assert (E : header_of fs = header_bytes gs).
  { unfold header_of, header_bytes, gs. rewrite map_map. f_equal. apply map_ext. intros f. unfold bytes_of. cbn. by rewrite app_nil_r. }
  rewrite E, readHeader_header; [|unfold gs; clear E gs; induction H as [|f fs [H1 H2] H IH]; constructor; [by apply field_logical|done]|right; exists body; by right].
  replace (fields_of gs) with (Some (map (fun f => (f.1, trim_blank f.2)) fs)); [done|]. clear E. unfold gs. clear gs.
  induction H as [|f fs [H1 H2] H IH]; [done|]. cbn [map fields_of]. destruct (field_logical f.1 f.2 H1 H2) as [_ ->].
  assert (Hc : has_colon (f.1 ++ 58 :: trim_right (32 :: f.2)) = true) by (unfold has_colon; rewrite existsb_app; cbn; by rewrite orb_true_r).
  rewrite Hc, Cut_colon; [|destruct f.1; [done|]; unfold field_name in H1; apply andb_prop in H1 as [_ H1]; by apply negb_true_iff].
  rewrite <- IH. cbn [fst snd mbind option_bind]. unfold beq. rewrite bool_decide_eq_false_2 by by destruct f.1.
  rewrite skip_trim. done.
Qed.
