(* ===== verification/Relay.v ===== *)
(** * The outbound relay ([internal/relay]: spool.go, worker.go)

    The spool is two tables, messages and the recipients each of them is still queued for.  The
    worker drains it: it stamps a recipient, hands the message to the recipient's mail
    exchanger, and settles the outcome.  A pass is a program of calls on the spool, the network
    and the bounce hook, so that it can be stopped between any two of them. *)

From stdpp Require Import base list numbers gmap sorting.
From Stdlib Require Import ZArith Lia.
From Stdlib Require String.
Import String.StringSyntax.
From S2P Require Import Prelude Gostr Limitbase.
Open Scope Z_scope.

(** ** The spool ([spool.go]) *)

Record DSNRecipient := mkDSN { ds_Addr : bytes; ds_Notify : bytes; ds_ORCPT : bytes }.

(** A row of [messages] *)
Record message := mkMessage { ms_from : bytes; ms_body : bytes; ms_enqueued : Z; ms_ret : bytes; ms_envid : bytes }.
(** A row of [recipients]; [rc_tag] numbers the recipients ever queued and is no column: row
    ids are used again, so the theorems need another name for a queued recipient. *)
Record recipient := mkRecipient {
  rc_message : Z; rc_addr : bytes; rc_attempts : Z; rc_next : Z; rc_error : bytes; rc_notify : bytes; rc_orcpt : bytes;
  rc_started : Z; rc_delivered : bool; rc_tag : nat }.
Record Spool := mkSpool { sp_messages : gmap Z message; sp_recipients : gmap Z recipient }.

(** One due recipient as the worker holds it *)
Record Item := mkItem {
  it_RecipientID : Z; it_From : bytes; it_Recipient : bytes; it_Body : bytes; it_Attempts : Z; it_Notify : bytes;
  it_Delivered : bool; it_tag : nat }.

(** [INTEGER PRIMARY KEY]: one more than the largest row id in the table *)
Definition next_rowid {V} (m : gmap Z V) : Z := foldr Z.max 0 (map fst (map_to_list m)) + 1.

Fixpoint insert_recipients (mid now : Z) (tag : nat) (rcpts : list DSNRecipient) (rows : gmap Z recipient) : gmap Z recipient :=
  match rcpts with
  | [] => rows
  | d :: rcpts =>
      insert_recipients mid now (S tag) rcpts
        (<[next_rowid rows := mkRecipient mid (ds_Addr d) 0 now [] (ds_Notify d) (ds_ORCPT d) 0 false tag]> rows)
  end.

(** A transaction: all of it or, on any error, nothing.  [now] is in seconds, [tag] the number of
    recipients queued before. *)
Definition EnqueueDSN (sign : bytes -> bytes) (sp : Spool) (tag : nat) (from ret envid : bytes) (rcpts : list DSNRecipient)
    (body : bytes) (now : Z) : Spool :=
  match rcpts with
  | [] => sp
  | _ =>
      let mid := next_rowid (sp_messages sp) in
      mkSpool (<[mid := mkMessage from (sign body) now ret envid]> (sp_messages sp))
              (insert_recipients mid now tag rcpts (sp_recipients sp))
  end.
Definition Enqueue (sign : bytes -> bytes) (sp : Spool) (tag : nat) (from : bytes) (recipients : list bytes) (body : bytes) (now : Z) : Spool :=
  EnqueueDSN sign sp tag from [] [] (map (fun r => mkDSN r [] []) recipients) body now.

(** The join of a recipient with its message *)
Definition item_of (sp : Spool) (row : Z * recipient) : option Item :=
  m ← sp_messages sp !! rc_message row.2;
  Some (mkItem row.1 (ms_from m) (rc_addr row.2) (ms_body m) (rc_attempts row.2) (rc_notify row.2) (rc_delivered row.2) (rc_tag row.2)).

Definition due_order (a b : Z * recipient) : Prop :=
  rc_next a.2 < rc_next b.2 \/ (rc_next a.2 = rc_next b.2 /\ a.1 <= b.1).
#[export] Instance due_order_dec : RelDecision due_order := fun a b => ltac:(unfold due_order; apply _).
Definition id_order (a b : Z * recipient) : Prop := a.1 <= b.1.
#[export] Instance id_order_dec : RelDecision id_order := fun a b => ltac:(unfold id_order; apply _).

Definition claimable (now : Z) (r : recipient) : bool :=
  (rc_next r <=? now) && (rc_started r =? 0) && negb (rc_delivered r).
Definition Claim (sp : Spool) (now limit : Z) : list Item :=
  take (Z.to_nat limit)
    (omap (item_of sp) (merge_sort due_order (List.filter (fun row => claimable now row.2) (map_to_list (sp_recipients sp))))).

Definition unsettled (r : recipient) : bool := (0 <? rc_started r) || rc_delivered r.
Definition Unsettled (sp : Spool) : list Item :=
  omap (item_of sp) (merge_sort id_order (List.filter (fun row => unsettled row.2) (map_to_list (sp_recipients sp)))).

Definition update (sp : Spool) (id : Z) (f : recipient -> recipient) : Spool :=
  mkSpool (sp_messages sp) (alter f id (sp_recipients sp)).
Definition set_started (t : Z) (r : recipient) : recipient :=
  mkRecipient (rc_message r) (rc_addr r) (rc_attempts r) (rc_next r) (rc_error r) (rc_notify r) (rc_orcpt r) t (rc_delivered r) (rc_tag r).
Definition set_next (t : Z) (r : recipient) : recipient :=
  mkRecipient (rc_message r) (rc_addr r) (rc_attempts r) t (rc_error r) (rc_notify r) (rc_orcpt r) (rc_started r) (rc_delivered r) (rc_tag r).
Definition MarkStarted (sp : Spool) (id now : Z) : Spool := update sp id (set_started now).
Definition ClearStarted (sp : Spool) (id : Z) : Spool := update sp id (set_started 0).
Definition MarkDelivered (sp : Spool) (id : Z) : Spool :=
  update sp id (fun r => mkRecipient (rc_message r) (rc_addr r) (rc_attempts r) (rc_next r) (rc_error r) (rc_notify r) (rc_orcpt r)
                           (rc_started r) true (rc_tag r)).
Definition Retry (sp : Spool) (id nextAttempt : Z) (lastErr : bytes) : Spool :=
  update sp id (fun r => mkRecipient (rc_message r) (rc_addr r) (rc_attempts r + 1) nextAttempt lastErr (rc_notify r) (rc_orcpt r)
                           (rc_started r) (rc_delivered r) (rc_tag r)).
Definition RetryNow (sp : Spool) (id when : Z) : Spool := update sp id (set_next when).

(** A transaction: the row, and the message with its last recipient *)
Definition settle (sp : Spool) (id : Z) : Spool :=
  match sp_recipients sp !! id with
  | None => sp
  | Some r =>
      let rows := delete id (sp_recipients sp) in
      let remaining := List.filter (fun row => rc_message row.2 =? rc_message r) (map_to_list rows) in
      mkSpool (match remaining with [] => delete (rc_message r) (sp_messages sp) | _ => sp_messages sp end) rows
  end.
Definition Sent := settle.
Definition Fail := settle.
Definition Delete := settle.

(** ** The worker's calls *)

(** A delivery that did not end in acceptance *)
Record failure := mkFailure { fl_permanent : bool; fl_text : bytes }.

Record Worker := mkWorker {
  wk_Backoff : Z; wk_MaxAttempts : Z; wk_Batch : Z; wk_backoffOverride : Z; wk_maxAttemptsOverride : Z }.

(** What a pass asks of its surroundings, with the type of the answer.  The store's calls answer
    whether they succeeded; [CPolicy] reads the settings, which an operator may edit at any time. *)
Inductive call : Type -> Type :=
| CUnsettled : call (option (list Item))
| CClaim (now limit : Z) : call (option (list Item))
| CMarkStarted (id now : Z) : call bool
| CClearStarted (id : Z) : call bool
| CMarkDelivered (id : Z) : call bool
| CSettle (id : Z) : call bool
| CRetry (id nextAttempt : Z) (lastErr : bytes) : call bool
| CDeliver (it : Item) : call (option failure)
| COnGiveUp (it : Item) (cause : bytes) : call (option bytes)
| CPolicy : call Worker
| CCancelled : call bool.

Inductive prog (A : Type) : Type :=
| Ret (a : A)
| Call {X : Type} (c : call X) (k : X -> prog A).
Arguments Ret {A} a.
Arguments Call {A X} c k.

Fixpoint bind {A B} (p : prog A) (f : A -> prog B) : prog B :=
  match p with
  | Ret a => f a
  | Call c k => Call c (fun x => bind (k x) f)
  end.
Declare Scope prog_scope.
Notation "'ask' x := c 'in' p" := (Call c (fun x => p)) (at level 200, x name, right associativity) : prog_scope.
Notation "'run' x := p 'in' q" := (bind p (fun x => q)) (at level 200, x name, right associativity) : prog_scope.
Open Scope prog_scope.

(** ** The worker ([worker.go]) *)

Definition defaultBatch : Z := 64.
Definition defaultBackoff : Z := 5 * Minute.
Definition defaultMaxAttempts : Z := 10.
Definition maxBackoff : Z := 6 * 60 * Minute.
Definition bounceRetryBackoff : Z := maxBackoff.

Definition SetRetryPolicy (w : Worker) (backoff maxAttempts : Z) : Worker :=
  mkWorker (wk_Backoff w) (wk_MaxAttempts w) (wk_Batch w)
    (if 0 <? backoff then backoff else wk_backoffOverride w) (if 0 <? maxAttempts then maxAttempts else wk_maxAttemptsOverride w).

Definition maxAttempts (w : Worker) : Z :=
  if 0 <? wk_maxAttemptsOverride w then wk_maxAttemptsOverride w
  else if 0 <? wk_MaxAttempts w then wk_MaxAttempts w else defaultMaxAttempts.

Definition retryDelay (w : Worker) (attempts : Z) : Z :=
  let base := if wk_backoffOverride w <=? 0 then wk_Backoff w else wk_backoffOverride w in
  let base := if base <=? 0 then defaultBackoff else base in
  let d := i64 (Z.shiftl base attempts) in
  if (d <=? 0) || (maxBackoff <? d) then maxBackoff else d.

(** [now.Unix()] of a clock in nanoseconds *)
Definition Unix (t : Z) : Z := t / 1000000000.

Definition settleDelivered (it : Item) : prog bool :=
  ask de := CMarkDelivered (it_RecipientID it) in
  if negb de then Ret false else ask se := CSettle (it_RecipientID it) in Ret se.

Definition giveUp (it : Item) (cause : bytes) : prog (option bytes) := ask be := COnGiveUp it cause in Ret be.

Definition settleGiveUp (it : Item) (now : Z) (e : bytes) : prog bool :=
  run be := giveUp it e in
  match be with
  | None => ask fe := CSettle (it_RecipientID it) in Ret fe
  | Some b => ask re := CRetry (it_RecipientID it) (Unix (now + bounceRetryBackoff)) (lit "bounce undeliverable: " ++ b) in Ret re
  end.

Definition settleFailure (it : Item) (now : Z) (e : failure) : prog bool :=
  ask w := CPolicy in
  if fl_permanent e || (maxAttempts w <=? it_Attempts it + 1) then settleGiveUp it now (fl_text e)
  else
    ask w := CPolicy in
    ask re := CRetry (it_RecipientID it) (Unix (now + retryDelay w (it_Attempts it))) (fl_text e) in Ret re.

(** Whether it was delivered, and whether the store answered *)
Definition attempt (it : Item) (now : Z) : prog (bool * bool) :=
  ask me := CMarkStarted (it_RecipientID it) (Unix now) in
  if negb me then Ret (false, false)
  else
    ask e := CDeliver it in
    match e with
    | None => run se := settleDelivered it in Ret (se, se)
    | Some e =>
        ask ce := CClearStarted (it_RecipientID it) in
        if negb ce then Ret (false, false) else run ok := settleFailure it now e in Ret (false, ok)
    end.

Definition errInterruptedDelivery : bytes :=
  lit "delivery was interrupted and its outcome is unknown; it was not sent again, to avoid delivering the message twice".

Definition resolve_one (it : Item) (now : Z) : prog bool :=
  if it_Delivered it then ask se := CSettle (it_RecipientID it) in Ret se
  else
    run be := giveUp it errInterruptedDelivery in
    match be with
    | Some b =>
        ask ce := CClearStarted (it_RecipientID it) in
        if negb ce then Ret false
        else ask re := CRetry (it_RecipientID it) (Unix (now + bounceRetryBackoff)) (lit "interrupted delivery, bounce undeliverable: " ++ b) in Ret re
    | None => ask fe := CSettle (it_RecipientID it) in Ret fe
    end.
Fixpoint resolve_all (items : list Item) (now : Z) : prog bool :=
  match items with
  | [] => Ret true
  | it :: items =>
      ask cancelled := CCancelled in
      if cancelled : bool then Ret true
      else run ok := resolve_one it now in if ok : bool then resolve_all items now else Ret false
  end.
Definition resolveUnsettled (now : Z) : prog bool :=
  ask items := CUnsettled in
  match items with None => Ret false | Some items => resolve_all items now end.

Fixpoint attempt_all (items : list Item) (now sent : Z) : prog (Z * bool) :=
  match items with
  | [] => Ret (sent, true)
  | it :: items =>
      ask cancelled := CCancelled in
      if cancelled : bool then Ret (sent, true)
      else
        run r := attempt it now in
        if r.2 : bool then attempt_all items now (if r.1 : bool then sent + 1 else sent) else Ret (sent, false)
  end.

(** The number delivered, and whether the store answered throughout *)
Definition ProcessDue (now : Z) : prog (Z * bool) :=
  ask w := CPolicy in
  let batch := if wk_Batch w <=? 0 then defaultBatch else wk_Batch w in
  run ok := resolveUnsettled now in
  if negb ok then Ret (0, false)
  else
    ask items := CClaim (Unix now) batch in
    match items with None => Ret (0, false) | Some items => attempt_all items now 0 end.

(** ** Runs

    [w_accepted] lists the recipients whose exchanger answered that it accepted the message,
    [w_handed] every hand-over to an exchanger in order, [w_told] the recipients the bounce hook
    was content to give up, [w_dropped] those an administrator deleted. *)

(** One hand-over of a recipient's message: whether the exchanger took the message, and whether
    the worker was answered an error.  An error does not tell that the message was not taken:
    the link may break after the final dot. *)
Record handover := mkHandover { ho_tag : nat; ho_taken : bool; ho_error : bool }.

Record world := mkWorld {
  w_spool : Spool; w_accepted : list nat; w_handed : list handover; w_told : list nat; w_dropped : list nat; w_queued : nat }.
Definition set_spool (w : world) (sp : Spool) : world := mkWorld sp (w_accepted w) (w_handed w) (w_told w) (w_dropped w) (w_queued w).
Definition rows (w : world) : gmap Z recipient := sp_recipients (w_spool w).

Section runs.
(** Whether the bounce hook always delivers its notice, and whether an administrator may delete
    while a pass runs *)
Context (bounces anytime : bool) (sign : bytes -> bytes).

(** A store call that succeeds has its effect; one that fails may have had it. *)
Inductive store_call (w : world) (sp : Spool) : bool -> world -> Prop :=
| call_ok : store_call w sp true (set_spool w sp)
| call_failed : store_call w sp false w
| call_unsure : store_call w sp false (set_spool w sp).

Definition handed (w : world) (it : Item) (taken error : bool) : world :=
  mkWorld (w_spool w) (if error then w_accepted w else w_accepted w ++ [it_tag it])
    (w_handed w ++ [mkHandover (it_tag it) taken error]) (w_told w) (w_dropped w) (w_queued w).

(** The answers a call can get in [w] and the worlds after it.  A delivery that ends in an error
    may have been taken by the exchanger all the same. *)
Definition exec (w : world) {X : Type} (c : call X) : X -> world -> Prop :=
  match c in call X return X -> world -> Prop with
  | CUnsettled => fun x w' => (x = None \/ x = Some (Unsettled (w_spool w))) /\ w' = w
  | CClaim now limit => fun x w' => (x = None \/ x = Some (Claim (w_spool w) now limit)) /\ w' = w
  | CMarkStarted id now => store_call w (MarkStarted (w_spool w) id now)
  | CClearStarted id => store_call w (ClearStarted (w_spool w) id)
  | CMarkDelivered id => store_call w (MarkDelivered (w_spool w) id)
  | CSettle id => store_call w (settle (w_spool w) id)
  | CRetry id t err => store_call w (Retry (w_spool w) id t err)
  | CDeliver it => fun x w' =>
      match x with
      | None => w' = handed w it true false
      | Some _ => exists taken, w' = handed w it taken true
      end
  | COnGiveUp it cause => fun x w' =>
      match x with
      | None => w' = mkWorld (w_spool w) (w_accepted w) (w_handed w) (w_told w ++ [it_tag it]) (w_dropped w) (w_queued w)
      | Some _ => bounces = false /\ w' = w
      end
  | CPolicy => fun _ w' => w' = w
  | CCancelled => fun _ w' => w' = w
  end.

(** The spool and the pass under way, if one is: only one process drains at a time. *)
Definition state : Type := world * option (prog (Z * bool)).

Definition deleted_tag (w : world) (id : Z) : list nat := match rows w !! id with Some r => [rc_tag r] | None => [] end.

Inductive step : state -> state -> Prop :=
| step_start w now : 0 < Unix now -> step (w, None) (w, Some (ProcessDue now))
| step_call w X (c : call X) k x w' : exec w c x w' -> step (w, Some (Call c k)) (w', Some (k x))
| step_end w r : step (w, Some (Ret r)) (w, None)
| step_crash w p : step (w, Some p) (w, None)
| step_enqueue w p from ret envid rcpts body now :
    step (w, p) (mkWorld (EnqueueDSN sign (w_spool w) (w_queued w) from ret envid rcpts body now)
                   (w_accepted w) (w_handed w) (w_told w) (w_dropped w) (w_queued w + length rcpts), p)
| step_retry_now w p id when : step (w, p) (set_spool w (RetryNow (w_spool w) id when), p)
| step_delete w p id : anytime = true \/ p = None ->
    step (w, p) (mkWorld (Delete (w_spool w) id) (w_accepted w) (w_handed w) (w_told w) (w_dropped w ++ deleted_tag w id) (w_queued w), p).

Definition empty : state := (mkWorld (mkSpool ∅ ∅) [] [] [] [] 0, None).
Definition reachable (s : state) : Prop := rtc step empty s.
End runs.
