(* ===== verification/RelayProofs.v ===== *)
(** * The outbound relay: no message is lost, and none is sent twice

    An invariant of the spool is kept by every call of a pass, whatever the store, the network
    and the bounce hook answer, and by everything other processes do between two calls.  A pass
    is verified once, by a weakest precondition of its program that allows such interference
    before each call; a crash merely drops the program. *)

From stdpp Require Import base list numbers gmap sorting.
From Stdlib Require Import ZArith Lia.
From Stdlib Require String.
Import String.StringSyntax.
From S2P Require Import Prelude Gostr Limitbase Relay.
Open Scope Z_scope.
Open Scope prog_scope.

(** ** Row ids *)

Lemma foldr_max_ge l x : x ∈ l -> x <= foldr Z.max 0 l.
Proof. induction l as [|y l IH]; intros H; [by apply not_elem_of_nil in H|]. apply elem_of_cons in H as [->|H]; cbn; [lia|]. apply IH in H. lia. Qed.

Lemma next_rowid_fresh {V} (m : gmap Z V) : m !! next_rowid m = None.
Proof.
  destruct (m !! next_rowid m) as [v|] eqn:E; [|done]. apply elem_of_map_to_list in E.
  assert (H : next_rowid m ∈ map fst (map_to_list m)) by (apply list_elem_of_fmap; by exists (next_rowid m, v)).
  apply foldr_max_ge in H. unfold next_rowid in *. lia.
Qed.

Lemma set_next_id r : set_next (rc_next r) r = r.
Proof. by destruct r. Qed.

(** ** The invariant *)

(** Nothing is handed over again once its acceptance was answered. *)
Definition no_resend (l : list handover) : Prop :=
  forall l1 h l2, l = l1 ++ h :: l2 -> ho_error h = false -> forall h', h' ∈ l2 -> ho_tag h' <> ho_tag h.

Lemma no_resend_snoc l h0 : no_resend l -> (forall h, h ∈ l -> ho_error h = false -> ho_tag h <> ho_tag h0) -> no_resend (l ++ [h0]).
Proof.
  intros Hl H0 l1 h l2 E He h' Hh'. destruct l2 as [|x l2 _] using rev_ind; [by apply not_elem_of_nil in Hh'|].
  rewrite app_comm_cons, app_assoc in E. apply app_inj_tail in E as [-> ->]. apply elem_of_app in Hh' as [Hh'|Hh'].
  - by apply (Hl l1 h l2).
  - apply list_elem_of_singleton in Hh' as ->. intros E. apply (H0 h); [|done|done]. apply elem_of_app. right. by left.
Qed.

Section proofs.
Context (bounces : bool).

Record Inv (w : world) : Prop := {
  (** Tags name the recipients queued so far, each at most once in the table. *)
  inv_tags : forall id r, rows w !! id = Some r -> (rc_tag r < w_queued w)%nat;
  inv_uniq : forall id1 id2 r1 r2, rows w !! id1 = Some r1 -> rows w !! id2 = Some r2 -> rc_tag r1 = rc_tag r2 -> id1 = id2;
  inv_past : forall t, t ∈ w_accepted w -> (t < w_queued w)%nat;
  (** Every recipient queued is still queued, or accounted for. *)
  inv_kept : forall t, (t < w_queued w)%nat -> (exists id r, rows w !! id = Some r /\ rc_tag r = t)
    \/ t ∈ w_accepted w \/ t ∈ w_told w \/ t ∈ w_dropped w;
  (** The flags tell the truth about the exchanger. *)
  inv_delivered : forall id r, rows w !! id = Some r -> rc_delivered r = true -> rc_tag r ∈ w_accepted w;
  inv_flagged : bounces = true -> forall id r, rows w !! id = Some r -> rc_tag r ∈ w_accepted w -> unsettled r = true;
  inv_log : forall h, h ∈ w_handed w -> ho_error h = false -> ho_tag h ∈ w_accepted w;
  inv_once : bounces = true -> no_resend (w_handed w);
  (** A body is stored exactly while a recipient needs it. *)
  inv_body : forall id r, rows w !! id = Some r -> is_Some (sp_messages (w_spool w) !! rc_message r);
  inv_needed : forall mid m, sp_messages (w_spool w) !! mid = Some m -> exists id r, rows w !! id = Some r /\ rc_message r = mid }.

(** Writing columns other than the message and the tag *)
Lemma inv_update w id f : Inv w ->
  (forall r, rc_message (f r) = rc_message r /\ rc_tag (f r) = rc_tag r) ->
  (forall r, rows w !! id = Some r -> rc_delivered (f r) = true -> rc_tag r ∈ w_accepted w) ->
  (bounces = true -> forall r, rows w !! id = Some r -> rc_tag r ∈ w_accepted w -> unsettled (f r) = true) ->
  Inv (set_spool w (update (w_spool w) id f)).
Proof.
  intros [] Hf H1 H2. assert (L : forall j r, rows (set_spool w (update (w_spool w) id f)) !! j = Some r ->
    exists r0, rows w !! j = Some r0 /\ rc_message r = rc_message r0 /\ rc_tag r = rc_tag r0 /\ (j = id /\ r = f r0 \/ r = r0)).
  { intros j r. unfold rows. cbn. rewrite lookup_alter. case_decide as E; [subst j|intros; exists r; eauto 10].
    intros Hr. apply fmap_Some in Hr as (r0 & Hr0 & ->). exists r0. destruct (Hf r0). eauto 10. }
  assert (M : forall j r0, rows w !! j = Some r0 -> exists r, rows (set_spool w (update (w_spool w) id f)) !! j = Some r
    /\ rc_message r = rc_message r0 /\ rc_tag r = rc_tag r0).
  { intros j r0 Hr. unfold rows in *. cbn. rewrite lookup_alter. destruct (Hf r0). case_decide; [subst j; rewrite Hr; cbn|]; eauto 10. }
  constructor; cbn [w_queued w_accepted w_handed w_told w_dropped set_spool w_spool sp_messages update].
  - intros j r Hr. destruct (L _ _ Hr) as (r0 & Hr0 & _ & -> & _). eauto.
  - intros i j r1 r2 Hi Hj. destruct (L _ _ Hi) as (? & ? & _ & -> & _), (L _ _ Hj) as (? & ? & _ & -> & _). eauto.
  - done.
  - intros t Ht. destruct (inv_kept0 t Ht) as [(j & r0 & Hr & <-)|?]; [|by right]. left. destruct (M _ _ Hr) as (r & ? & _ & ?). eauto.
  - intros j r Hr Hd. destruct (L _ _ Hr) as (r0 & Hr0 & _ & -> & [[-> ->]| ->]); eauto.
  - intros Hb j r Hr Ha. destruct (L _ _ Hr) as (r0 & Hr0 & _ & Et & [[-> ->]| ->]); [rewrite Et in Ha; eauto|eauto].
  - done.
  - done.
  - intros j r Hr. destruct (L _ _ Hr) as (r0 & Hr0 & -> & _). eauto.
  - intros mid m Hm. destruct (inv_needed0 mid m Hm) as (j & r0 & Hr & <-). destruct (M _ _ Hr) as (r & ? & ? & _). eauto.
Qed.

Lemma settle_lookup w id j : rows (set_spool w (settle (w_spool w) id)) !! j = if decide (j = id) then None else rows w !! j.
Proof.
  unfold rows. cbn. unfold settle. destruct (sp_recipients (w_spool w) !! id) as [r|] eqn:E; cbn.
  - rewrite lookup_delete. repeat case_decide; congruence.
  - case_decide; congruence.
Qed.

(** Removing a recipient that is accounted for *)
Lemma inv_settle w id dropped : Inv w ->
  (forall r, rows w !! id = Some r -> rc_tag r ∈ w_accepted w \/ rc_tag r ∈ w_told w \/ rc_tag r ∈ dropped) -> w_dropped w ⊆ dropped ->
  Inv (mkWorld (settle (w_spool w) id) (w_accepted w) (w_handed w) (w_told w) dropped (w_queued w)).
Proof.
  intros [] Hacc Hd. pose proof (settle_lookup w id) as L. unfold rows in L. cbn in L.
  assert (K : forall j r, sp_recipients (settle (w_spool w) id) !! j = Some r -> rows w !! j = Some r /\ j <> id).
  { intros j r. rewrite L. case_decide; [done|]. done. }
  constructor; unfold rows; cbn [w_queued w_accepted w_handed w_told w_dropped w_spool].
  - intros j r Hr. apply K in Hr as [Hr _]. eauto.
  - intros i j r1 r2 Hi Hj. apply K in Hi as [Hi _], Hj as [Hj _]. eauto.
  - done.
  - intros t Ht. destruct (inv_kept0 t Ht) as [(j & r & Hr & <-)|[?|[?|?]]]; [|auto|auto|eauto].
    destruct (decide (j = id)) as [->|Hj]; [by right; apply Hacc|]. left. exists j, r. rewrite L, decide_False by done. done.
  - intros j r Hr. apply K in Hr as [Hr _]. eauto.
  - intros Hb j r Hr. apply K in Hr as [Hr _]. eauto.
  - done.
  - done.
  - intros j r Hr. pose proof Hr as Hr'. apply K in Hr as [Hr Hj]. destruct (inv_body0 _ _ Hr) as [m Hm].
    unfold settle in *. destruct (sp_recipients (w_spool w) !! id) as [r0|] eqn:E; [cbn in *|by exists m].
    destruct (List.filter _ _) as [|x l] eqn:Ef; [|by exists m]. rewrite lookup_delete. case_decide as Em; [|by exists m].
    exfalso. assert (Hin : (j, r) ∈ List.filter (fun row => rc_message row.2 =? rc_message r0) (map_to_list (delete id (sp_recipients (w_spool w))))).
    { apply list_elem_of_In, filter_In. split; [by apply list_elem_of_In, elem_of_map_to_list|]. cbn. apply Z.eqb_eq. congruence. }
    rewrite Ef in Hin. by apply not_elem_of_nil in Hin.
  - intros mid m. unfold settle in *. destruct (sp_recipients (w_spool w) !! id) as [r0|] eqn:E; cbn [sp_messages sp_recipients] in *; [|apply inv_needed0].
    intros Hm. assert (Hmid : mid <> rc_message r0 -> exists j r, delete id (sp_recipients (w_spool w)) !! j = Some r /\ rc_message r = mid).
    { intros Hne. assert (Hm0 : sp_messages (w_spool w) !! mid = Some m).
      { destruct (List.filter _ _); [|done]. rewrite lookup_delete in Hm. by case_decide. }
      destruct (inv_needed0 _ _ Hm0) as (j & r & Hr & <-). exists j, r. split; [|done]. rewrite lookup_delete. case_decide as Ej; [|done].
      subst j. unfold rows in Hr. congruence. }
    destruct (decide (mid = rc_message r0)) as [->|Hne]; [|by apply Hmid]. destruct (List.filter _ _) as [|[j r] l] eqn:Ef.
    { rewrite lookup_delete, decide_True in Hm; done. }
    assert (Hin : (j, r) ∈ List.filter (fun row => rc_message row.2 =? rc_message r0) (map_to_list (delete id (sp_recipients (w_spool w)))))
      by (rewrite Ef; by left). apply list_elem_of_In, filter_In in Hin as [Hin Hq]. apply list_elem_of_In, elem_of_map_to_list in Hin.
    exists j, r. split; [done|]. by apply Z.eqb_eq in Hq.
Qed.

(** ** Queueing *)

Definition new_row (mid : Z) (lo hi : nat) (r : recipient) : Prop :=
  (lo <= rc_tag r < hi)%nat /\ rc_message r = mid /\ unsettled r = false /\ rc_delivered r = false.

Lemma insert_recipients_old mid now rcpts : forall tag m id r, m !! id = Some r -> insert_recipients mid now tag rcpts m !! id = Some r.
Proof.
  induction rcpts as [|d rcpts IH]; intros tag m id r H; [done|]. cbn. apply IH. rewrite lookup_insert. case_decide as E; [|done].
  subst id. by rewrite next_rowid_fresh in H.
Qed.
Lemma insert_recipients_new mid now rcpts : forall tag m id r, insert_recipients mid now tag rcpts m !! id = Some r ->
  m !! id = Some r \/ m !! id = None /\ new_row mid tag (tag + length rcpts) r.
Proof.
  induction rcpts as [|d rcpts IH]; intros tag m id r H; [by left|]. cbn in H. apply IH in H as [H|[H1 H2]].
  - rewrite lookup_insert in H. case_decide as E; [|by left]. subst id. injection H as <-. right. split; [apply next_rowid_fresh|].
    repeat split; cbn; lia.
  - rewrite lookup_insert in H1. case_decide; [done|]. right. split; [done|]. destruct H2 as (? & ? & ? & ?). repeat split; cbn; (done || lia).
Qed.
Lemma insert_recipients_all mid now rcpts : forall tag m t, (tag <= t < tag + length rcpts)%nat ->
  exists id r, insert_recipients mid now tag rcpts m !! id = Some r /\ rc_tag r = t /\ rc_message r = mid.
Proof.
  induction rcpts as [|d rcpts IH]; intros tag m t H; cbn in H; [lia|]. cbn [insert_recipients]. destruct (decide (t = tag)) as [->|Hne]; [|apply IH; lia].
  eexists (next_rowid m), _. split; [apply insert_recipients_old; by rewrite lookup_insert, decide_True|done].
Qed.
Lemma insert_recipients_uniq mid now rcpts : forall tag (m : gmap Z recipient), (forall id r, m !! id = Some r -> (rc_tag r < tag)%nat) ->
  (forall i j r s, m !! i = Some r -> m !! j = Some s -> rc_tag r = rc_tag s -> i = j) ->
  forall i j r s, insert_recipients mid now tag rcpts m !! i = Some r -> insert_recipients mid now tag rcpts m !! j = Some s -> rc_tag r = rc_tag s -> i = j.
Proof.
  induction rcpts as [|d rcpts IH]; intros tag m Hlt Hu; [done|]. cbn [insert_recipients]. apply IH.
  - intros id r. rewrite lookup_insert. case_decide; [intros [= <-]; cbn; lia|]. intros Hr. apply Hlt in Hr. lia.
  - intros i j r s. rewrite !lookup_insert. repeat case_decide; intros Hr Hs; simplify_eq; cbn; intros E; try done; [apply Hlt in Hs; lia|apply Hlt in Hr; lia|eauto].
Qed.

Lemma inv_enqueue sign w from ret envid rcpts body now : Inv w ->
  Inv (mkWorld (EnqueueDSN sign (w_spool w) (w_queued w) from ret envid rcpts body now) (w_accepted w) (w_handed w) (w_told w) (w_dropped w) (w_queued w + length rcpts)).
Proof.
  intros Hw. pose proof Hw as []. destruct rcpts as [|d0 rcpts0]; [cbn; rewrite Nat.add_0_r; by destruct w|].
  set (rcpts := d0 :: rcpts0) in *. unfold EnqueueDSN. fold rcpts. cbn [rcpts]. fold rcpts.
  set (mid := next_rowid (sp_messages (w_spool w))). constructor; unfold rows; cbn [w_queued w_accepted w_handed w_told w_dropped w_spool sp_recipients sp_messages].
  - intros id r Hr. apply insert_recipients_new in Hr as [Hr|[_ [? _]]]; [|lia]. apply inv_tags0 in Hr. lia.
  - apply insert_recipients_uniq; [exact inv_tags0|exact inv_uniq0].
  - intros t Ht. apply inv_past0 in Ht. lia.
  - intros t Ht. destruct (decide (t < w_queued w)%nat) as [Hlt|Hge].
    + destruct (inv_kept0 t Hlt) as [(id & r & Hr & Et)|?]; [left|by right]. exists id, r. split; [by apply insert_recipients_old|done].
    + left. destruct (insert_recipients_all mid now rcpts (w_queued w) (sp_recipients (w_spool w)) t) as (id & r & ? & ? & _); [lia|]. eauto.
  - intros id r Hr Hd. apply insert_recipients_new in Hr as [Hr|[_ (_ & _ & _ & ?)]]; [eauto|congruence].
  - intros Hb id r Hr Ha. apply insert_recipients_new in Hr as [Hr|[_ (? & _ & _ & _)]]; [eauto|]. apply inv_past0 in Ha. lia.
  - done.
  - done.
  - intros id r Hr. rewrite lookup_insert. case_decide as E; [by eexists|]. apply insert_recipients_new in Hr as [Hr|[_ (_ & ? & _ & _)]]; [eauto|congruence].
  - intros mid' m. rewrite lookup_insert. case_decide as E; intros Hm.
    + subst mid'. destruct (insert_recipients_all mid now rcpts (w_queued w) (sp_recipients (w_spool w)) (w_queued w)) as (id & r & ? & _ & ?); [cbn; lia|]. eauto.
    + destruct (inv_needed0 _ _ Hm) as (id & r & Hr & <-). exists id, r. split; [by apply insert_recipients_old|done].
Qed.

(** ** Interference *)

(** What other processes may do between two calls of a pass: queue, and change when a row is due *)
Definition interf (w w' : world) : Prop :=
  Inv w' /\ w_accepted w' = w_accepted w /\ w_told w' = w_told w
  /\ (forall id r, rows w !! id = Some r -> exists n, rows w' !! id = Some (set_next n r)).

Lemma interf_refl w : Inv w -> interf w w.
Proof. intros H. split_and!; [done|done|done|]. intros id r Hr. exists (rc_next r). by rewrite set_next_id. Qed.
Lemma interf_trans w1 w2 w3 : interf w1 w2 -> interf w2 w3 -> interf w1 w3.
Proof.
  intros (_ & A2 & A3 & A4) (B1 & B2 & B3 & B4). split_and!; [done|congruence|congruence|].
  intros id r Hr. destruct (A4 _ _ Hr) as [n Hn]. destruct (B4 _ _ Hn) as [n' Hn']. by exists n'.
Qed.

Lemma interf_enqueue sign w from ret envid rcpts body now : Inv w ->
  interf w (mkWorld (EnqueueDSN sign (w_spool w) (w_queued w) from ret envid rcpts body now) (w_accepted w) (w_handed w) (w_told w) (w_dropped w) (w_queued w + length rcpts)).
Proof.
  intros H. split_and!; [by apply inv_enqueue|done|done|]. intros id r Hr. exists (rc_next r). rewrite set_next_id. unfold rows in *. cbn.
  destruct rcpts as [|d rcpts]; [done|]. unfold EnqueueDSN. cbn [sp_recipients]. by apply insert_recipients_old.
Qed.
Lemma interf_retry_now w id when : Inv w -> interf w (set_spool w (RetryNow (w_spool w) id when)).
Proof.
  intros H. split_and!; [|done|done|].
  - pose proof H as []. apply inv_update; [done|done| |]; [eauto|]. intros Hb r Hr Ha. change (unsettled r = true). by apply (inv_flagged0 Hb id).
  - intros j r Hr. unfold rows in *. cbn. rewrite lookup_alter. case_decide; [subst; rewrite Hr; by eexists|]. exists (rc_next r). by rewrite set_next_id.
Qed.

(** ** Weakest preconditions of a pass *)

Abbreviation exec := (exec bounces).

Fixpoint wp {A} (p : prog A) (Q : A -> world -> Prop) (w : world) : Prop :=
  match p with
  | Ret a => Q a w
  | Call c k => forall w1, interf w w1 -> forall x w2, exec w1 c x w2 -> Inv w2 /\ wp (k x) Q w2
  end.

Lemma wp_bind {A B} (p : prog A) (f : A -> prog B) Q w : wp p (fun a => wp (f a) Q) w -> wp (bind p f) Q w.
Proof.
  revert w. induction p as [a|X c k IH]; intros w H; [done|]. cbn. intros w1 Hi x w2 Hx. destruct (H w1 Hi x w2 Hx) as [H1 H2]. auto.
Qed.
Lemma wp_weaken {A} (p : prog A) (Q R : A -> world -> Prop) w : (forall a w, Q a w -> R a w) -> wp p Q w -> wp p R w.
Proof.
  intros HQ. revert w. induction p as [a|X c k IH]; intros w H; [by apply HQ|]. cbn. intros w1 Hi x w2 Hx. destruct (H w1 Hi x w2 Hx) as [H1 H2]. auto.
Qed.
Lemma wp_interf {A} (p : prog A) w w' : interf w w' -> wp p (fun _ _ => True) w -> wp p (fun _ _ => True) w'.
Proof. destruct p as [a|X c k]; [done|]. cbn. intros Hi H w1 Hw1. apply H. by eapply interf_trans. Qed.

(** ** The calls of a pass *)

(** The row of an item is there, with a property that does not depend on when it is due. *)
Definition at_row (P : recipient -> Prop) (w : world) (it : Item) : Prop :=
  exists r, rows w !! it_RecipientID it = Some r /\ rc_tag r = it_tag it /\ P r.
Definition anyrow (r : recipient) : Prop := True.
Definition stamped (r : recipient) : Prop := 0 < rc_started r.
(** The exchanger has not accepted it, as far as the invariant goes *)
Definition unsent (w : world) (it : Item) : Prop := bounces = true -> it_tag it ∉ w_accepted w.

(** What a call for one item leaves alone *)
Definition frame (it : Item) (w w' : world) : Prop :=
  (forall id r, id <> it_RecipientID it -> rows w !! id = Some r -> exists n, rows w' !! id = Some (set_next n r))
  /\ (forall t, t ∈ w_accepted w' -> t ∈ w_accepted w \/ t = it_tag it) /\ w_accepted w ⊆ w_accepted w'.

Lemma frame_interf it w w' : interf w w' -> frame it w w'.
Proof. intros (_ & E & _ & H). unfold frame. rewrite E. split_and!; [eauto|auto|done]. Qed.
Lemma frame_trans it w1 w2 w3 : frame it w1 w2 -> frame it w2 w3 -> frame it w1 w3.
Proof.
  intros (A1 & A2 & A3) (B1 & B2 & B3). split_and!; [| |by transitivity (w_accepted w2)].
  - intros id r Hid Hr. destruct (A1 _ _ Hid Hr) as [n Hn]. destruct (B1 _ _ Hid Hn) as [n' Hn']. by exists n'.
  - intros t Ht. apply B2 in Ht as [Ht|Ht]; auto.
Qed.
Lemma frame_spool it w sp : (forall id r, id <> it_RecipientID it -> rows w !! id = Some r -> sp_recipients sp !! id = Some r) -> frame it w (set_spool w sp).
Proof. intros H. split_and!; [|auto|done]. intros id r Hid Hr. exists (rc_next r). rewrite set_next_id. by apply H. Qed.
Lemma frame_refl it w : frame it w w.
Proof. destruct w as [sp ? ? ? ? ?]. by apply (frame_spool it (mkWorld sp _ _ _ _ _) sp). Qed.
Lemma frame_update it w f : frame it w (set_spool w (update (w_spool w) (it_RecipientID it) f)).
Proof. apply frame_spool. intros id r Hid Hr. cbn. rewrite lookup_alter. by rewrite decide_False. Qed.
Lemma frame_settle it w : frame it w (set_spool w (settle (w_spool w) (it_RecipientID it))).
Proof. apply frame_spool. intros id r Hid Hr. pose proof (settle_lookup w (it_RecipientID it) id) as L. unfold rows in *. cbn in L. by rewrite L, decide_False. Qed.

Lemma at_row_interf P w w' it : (forall n r, P r -> P (set_next n r)) -> interf w w' -> at_row P w it -> at_row P w' it.
Proof. intros HP (_ & _ & _ & H) (r & Hr & Et & Hp). destruct (H _ _ Hr) as [n Hn]. exists (set_next n r). auto. Qed.
Lemma unsent_interf w w' it : interf w w' -> unsent w it -> unsent w' it.
Proof. intros (_ & E & _). unfold unsent. by rewrite E. Qed.

(** The invariant, and nothing of other items *)
Definition kept (it : Item) (w w' : world) : Prop := Inv w' /\ frame it w w'.

Lemma kept_store w1 sp it x w2 : store_call w1 sp x w2 -> kept it w1 (set_spool w1 sp) -> Inv w1 -> kept it w1 w2.
Proof. intros [] H Hi; [done|split; [done|apply frame_refl]|done]. Qed.

Lemma kept_then it w1 w2 w3 : kept it w1 w2 -> kept it w2 w3 -> kept it w1 w3.
Proof. intros [_ F1] [H F2]. split; [done|by eapply frame_trans]. Qed.
Lemma kept_interf it w w1 w2 : interf w w1 -> kept it w1 w2 -> kept it w w2.
Proof. intros H [? ?]. split; [done|]. eapply frame_trans; [by apply frame_interf|done]. Qed.

(** Settling a recipient that is accounted for *)
Lemma wp_Settle {A} it k (Q : A -> world -> Prop) w : at_row anyrow w it -> it_tag it ∈ w_accepted w \/ it_tag it ∈ w_told w ->
  (forall x w', kept it w w' -> wp (k x) Q w') -> wp (Call (CSettle (it_RecipientID it)) k) Q w.
Proof.
  intros Hr Ha HQ w1 Hi x w2 Hx. pose proof Hi as (Hi1 & Ea & Et & _).
  assert (K : kept it w1 (set_spool w1 (settle (w_spool w1) (it_RecipientID it)))).
  { split; [|apply frame_settle]. apply inv_settle; [done| |done]. intros r Hr'. apply (at_row_interf anyrow w w1) in Hr as (r1 & Hr1 & Etag & _); [|done|done].
    rewrite Hr1 in Hr'. injection Hr' as <-. rewrite Etag, Ea, Et. tauto. }
  pose proof (kept_store _ _ _ _ _ Hx K Hi1) as K'. split; [apply K'|]. apply HQ. by eapply kept_interf.
Qed.

(** Writing a row's columns *)
Lemma wp_write {A} it (c : call bool) f k (Q : A -> world -> Prop) w :
  (forall w, exec w c = store_call w (update (w_spool w) (it_RecipientID it) f)) -> at_row anyrow w it ->
  (forall r, rc_message (f r) = rc_message r /\ rc_tag (f r) = rc_tag r) ->
  (forall r, rc_delivered (f r) = true -> rc_delivered r = true \/ it_tag it ∈ w_accepted w) ->
  (forall r, unsettled (f r) = true \/ unsettled (f r) = unsettled r \/ unsent w it) ->
  (forall x w', kept it w w' -> w_accepted w' = w_accepted w -> w_told w' = w_told w -> at_row anyrow w' it ->
     (x = true -> at_row (fun r => exists r0, r = f r0) w' it) -> wp (k x) Q w') ->
  wp (Call c k) Q w.
Proof.
  intros Hc Hr Hf Hd Hu HQ w1 Hi x w2. rewrite Hc. intros Hx. pose proof Hi as (Hi1 & Ea & Et & _). pose proof Hi1 as [].
  apply (at_row_interf anyrow w w1) in Hr as (r1 & Hr1 & Etag & _); [|done|done].
  assert (K : kept it w1 (set_spool w1 (update (w_spool w1) (it_RecipientID it) f))).
  { split; [|apply frame_update]. apply inv_update; [done|done| |].
    - intros r Hr Hdel. rewrite Hr1 in Hr. injection Hr as <-. rewrite Ea. apply Hd in Hdel as [Hdel|?]; [|congruence]. rewrite <- Ea. eauto.
    - intros Hb r Hr Hacc. rewrite Hr1 in Hr. injection Hr as <-. destruct (Hu r1) as [?|[->|Hs]]; [done|by eapply inv_flagged0|].
      exfalso. apply (Hs Hb). by rewrite <- Ea, <- Etag. }
  pose proof (kept_store _ _ _ _ _ Hx K Hi1) as K'. split; [apply K'|].
  assert (R : rows (set_spool w1 (update (w_spool w1) (it_RecipientID it) f)) !! it_RecipientID it = Some (f r1)).
  { unfold rows in *. cbn. rewrite lookup_alter, decide_True by done. by rewrite Hr1. }
  destruct (Hf r1) as [_ Ft]. apply HQ; [by eapply kept_interf|by destruct Hx|by destruct Hx| |].
  - destruct Hx; eexists; (split; [eassumption|]; split; [congruence|done]).
  - intros ->. inversion Hx; subst. exists (f r1). split; [done|]. split; [congruence|]. by exists r1.
Qed.

Lemma wp_MarkStarted {A} it t k (Q : A -> world -> Prop) w : at_row anyrow w it -> 0 < t ->
  (forall w', kept it w w' -> wp (k false) Q w') ->
  (forall w', kept it w w' -> at_row stamped w' it -> w_accepted w' = w_accepted w -> wp (k true) Q w') ->
  wp (Call (CMarkStarted (it_RecipientID it) t) k) Q w.
Proof.
  intros Hr Ht HF HT. eapply (wp_write it _ (set_started t)); [done|done|done|by left| |].
  - intros r. left. unfold unsettled. cbn. by rewrite (proj2 (Z.ltb_lt 0 t)).
  - intros [] w' K Ea _ _ HS; [|by apply HF]. apply HT; [done| |done]. destruct (HS eq_refl) as (r & Hr' & Et & r0 & ->). by exists (set_started t r0).
Qed.

Lemma wp_ClearStarted {A} it k (Q : A -> world -> Prop) w : at_row anyrow w it -> unsent w it ->
  (forall x w', kept it w w' -> at_row anyrow w' it -> wp (k x) Q w') ->
  wp (Call (CClearStarted (it_RecipientID it)) k) Q w.
Proof. intros Hr Hu HQ. eapply (wp_write it _ (set_started 0)); [done|done|done|by left|auto|]. eauto. Qed.

Lemma wp_MarkDelivered {A} it k (Q : A -> world -> Prop) w : at_row anyrow w it -> it_tag it ∈ w_accepted w ->
  (forall x w', kept it w w' -> at_row anyrow w' it -> it_tag it ∈ w_accepted w' -> wp (k x) Q w') ->
  wp (Call (CMarkDelivered (it_RecipientID it)) k) Q w.
Proof.
  intros Hr Ha HQ. eapply (wp_write it); [done|done|done|by right| |].
  - intros r. left. unfold unsettled. cbn. by rewrite orb_true_r.
  - intros x w' K Ea _ Hr' _. apply HQ; [done|done|]. by rewrite Ea.
Qed.

Lemma wp_Retry {A} it t err k (Q : A -> world -> Prop) w : at_row anyrow w it ->
  (forall x w', kept it w w' -> wp (k x) Q w') -> wp (Call (CRetry (it_RecipientID it) t err) k) Q w.
Proof. intros Hr HQ. eapply (wp_write it); [done|done|done|by left|auto|]. eauto. Qed.

(** Handing over an item whose acceptance was not answered before *)
Lemma inv_handed it w taken error : Inv w -> at_row stamped w it -> unsent w it -> Inv (handed w it taken error).
Proof.
  intros Hw (r & Hr & Et & Hs) Hu. pose proof Hw as []. assert (Hin : forall t, t ∈ w_accepted (handed w it taken error) -> t ∈ w_accepted w \/ t = it_tag it /\ error = false).
  { intros t. cbn. destruct error; [by left|]. intros Ht. apply elem_of_app in Ht as [?|Ht]; [by left|]. apply list_elem_of_singleton in Ht. by right. }
  assert (Hsub : w_accepted w ⊆ w_accepted (handed w it taken error)) by (cbn; destruct error; [done|apply list_subseteq_app_l; done]).
  constructor; unfold rows in *; try done.
  - intros t Ht. apply Hin in Ht as [Ht|[-> _]]; [eauto|]. rewrite <- Et. eauto.
  - intros t Ht. destruct (inv_kept0 t Ht) as [?|[?|?]]; [auto| |auto]. right. left. auto.
  - intros id r' Hr' Hd. apply Hsub. eauto.
  - intros Hb id r' Hr' Ha. apply Hin in Ha as [Ha|[Ha _]]; [by eapply inv_flagged0|]. rewrite <- Et in Ha.
    assert (id = it_RecipientID it) as -> by eauto. cbn in Hr'. rewrite Hr in Hr'. injection Hr' as <-. unfold unsettled. unfold stamped in Hs. by rewrite (proj2 (Z.ltb_lt 0 _)).
  - intros h Hh He. cbn in Hh. apply elem_of_app in Hh as [Hh|Hh]; [auto|]. apply list_elem_of_singleton in Hh as ->. cbn in *. subst error.
    apply elem_of_app. right. by apply list_elem_of_singleton.
  - intros Hb. apply no_resend_snoc; [auto|]. intros h Hh He. cbn. intros E. apply (Hu Hb). rewrite <- E. auto.
Qed.
Lemma kept_handed it w taken error : Inv w -> at_row stamped w it -> unsent w it -> kept it w (handed w it taken error).
Proof.
  intros Hw Hr Hu. split; [by apply inv_handed|]. split_and!; cbn.
  - intros id r' _ Hr'. exists (rc_next r'). by rewrite set_next_id.
  - intros t. destruct error; [by left|]. intros Ht. apply elem_of_app in Ht as [?|Ht]; [by left|right; by apply list_elem_of_singleton in Ht].
  - destruct error; [done|by apply list_subseteq_app_l].
Qed.

Lemma wp_Deliver {A} it k (Q : A -> world -> Prop) w : at_row stamped w it -> unsent w it ->
  (forall w', kept it w w' -> at_row anyrow w' it -> it_tag it ∈ w_accepted w' -> wp (k None) Q w') ->
  (forall e w', kept it w w' -> at_row anyrow w' it -> unsent w' it -> wp (k (Some e)) Q w') ->
  wp (Call (CDeliver it) k) Q w.
Proof.
  intros Hr Hu HN HS w1 Hi x w2 Hx. apply (at_row_interf stamped _ _ _ (fun n r H => H) Hi) in Hr.
  apply (unsent_interf _ _ _ Hi) in Hu. pose proof Hi as (Hi1 & _ & _ & _). assert (Hany : forall b e, at_row anyrow (handed w1 it b e) it)
    by (intros b e; destruct Hr as (r & ? & ? & _); by exists r).
  destruct x as [e|]; cbn in Hx; [destruct Hx as [taken ->]|subst w2]; (split; [by apply inv_handed|]).
  - apply HS; [|done|done]. apply (kept_interf _ _ _ _ Hi). by apply kept_handed.
  - apply HN; [|done|cbn; apply elem_of_app; right; by apply list_elem_of_singleton]. apply (kept_interf _ _ _ _ Hi). by apply kept_handed.
Qed.

Lemma wp_OnGiveUp {A} it cause k (Q : A -> world -> Prop) w : at_row anyrow w it ->
  (forall w', kept it w w' -> at_row anyrow w' it -> it_tag it ∈ w_told w' -> wp (k None) Q w') ->
  (forall b w', bounces = false -> kept it w w' -> at_row anyrow w' it -> wp (k (Some b)) Q w') ->
  wp (Call (COnGiveUp it cause) k) Q w.
Proof.
  intros Hr HN HS w1 Hi x w2 Hx. apply (at_row_interf anyrow _ _ _ (fun n r H => H) Hi) in Hr as (r & Hr & Et & _).
  pose proof Hi as (Hi1 & _ & _ & _). destruct x as [e|]; cbn in Hx.
  - destruct Hx as [Hb ->]. split; [done|]. apply HS; [done| |by exists r]. apply (kept_interf _ _ _ _ Hi). split; [done|apply frame_refl].
  - subst w2. set (w2 := mkWorld _ _ _ _ _ _). pose proof Hi1 as []. assert (I2 : Inv w2).
    { constructor; unfold rows in *; cbn [w2 w_spool w_accepted w_handed w_told w_dropped w_queued]; try done.
      intros t Ht. destruct (inv_kept0 t Ht) as [?|[?|[?|?]]]; [auto|auto| |auto]. right. right. left. apply elem_of_app. auto. }
    split; [done|]. apply HN; [|by exists r|apply elem_of_app; right; by apply list_elem_of_singleton]. apply (kept_interf _ _ _ _ Hi). split; [done|].
    split_and!; [|auto|done]. intros id r' _ Hr'. exists (rc_next r'). by rewrite set_next_id.
Qed.

Lemma wp_read {A X} (c : call X) k (Q : A -> world -> Prop) w :
  (forall w x w', exec w c x w' -> w' = w) -> (forall w1 x, interf w w1 -> exec w1 c x w1 -> wp (k x) Q w1) -> wp (Call c k) Q w.
Proof. intros Hc HQ w1 Hi x w2 Hx. pose proof (Hc _ _ _ Hx). subst w2. split; [apply Hi|by apply HQ]. Qed.

(** ** A pass keeps the invariant *)

Lemma wp_settleDelivered it w Q : at_row anyrow w it -> it_tag it ∈ w_accepted w ->
  (forall x w', kept it w w' -> Q x w') -> wp (settleDelivered it) Q w.
Proof.
  intros Hr Ha HQ. apply wp_MarkDelivered; [done|done|]. intros de w1 K1 Hr1 Ha1. destruct de; cbn [negb]; [|by apply HQ].
  apply wp_Settle; [done|by left|]. intros x w2 K2. apply HQ. by eapply kept_then.
Qed.

Lemma wp_settleGiveUp it now e w Q : at_row anyrow w it -> (forall x w', kept it w w' -> Q x w') -> wp (settleGiveUp it now e) Q w.
Proof.
  intros Hr HQ. apply wp_OnGiveUp; [done| |]; cbn [bind].
  - intros w1 K1 Hr1 Ht. apply wp_Settle; [done|by right|]. intros x w2 K2. apply HQ. by eapply kept_then.
  - intros b w1 _ K1 Hr1. apply wp_Retry; [done|]. intros x w2 K2. apply HQ. by eapply kept_then.
Qed.

Lemma interf_kept it w w1 : interf w w1 -> kept it w w1.
Proof. intros H. split; [apply H|by apply frame_interf]. Qed.

Lemma wp_settleFailure it now e w Q : at_row anyrow w it -> (forall x w', kept it w w' -> Q x w') -> wp (settleFailure it now e) Q w.
Proof.
  intros Hr HQ. apply wp_read; [by intros ? ? ? ->|]. intros w1 wk Hi _. apply (at_row_interf anyrow _ _ _ (fun _ _ H => H) Hi) in Hr.
  destruct (_ || _).
  - apply wp_settleGiveUp; [done|]. intros x w2 K. apply HQ. by eapply kept_interf.
  - apply wp_read; [by intros ? ? ? ->|]. intros w2 wk2 Hi2 _. apply (at_row_interf anyrow _ _ _ (fun _ _ H => H) Hi2) in Hr.
    apply wp_Retry; [done|]. intros x w3 K. apply HQ. eapply kept_interf; [done|]. by eapply kept_interf.
Qed.

Lemma wp_attempt it now w Q : 0 < Unix now -> at_row anyrow w it -> unsent w it -> (forall x w', kept it w w' -> Q x w') -> wp (attempt it now) Q w.
Proof.
  intros Hn Hr Hu HQ. apply wp_MarkStarted; [done|done|by intros w1 K; apply HQ|]. intros w1 K1 Hr1 Ea. cbn [negb].
  assert (Hu1 : unsent w1 it) by (unfold unsent; by rewrite Ea). apply wp_Deliver; [done|done| |].
  - intros w2 K2 Hr2 Ha. apply wp_bind, wp_settleDelivered; [done|done|]. intros x w3 K3. apply HQ. eapply kept_then; [done|]. by eapply kept_then.
  - intros e w2 K2 Hr2 Hu2. apply wp_ClearStarted; [done|done|]. intros ce w3 K3 Hr3. pose proof (kept_then _ _ _ _ K1 (kept_then _ _ _ _ K2 K3)) as K.
    destruct ce; cbn [negb]; [|by apply HQ]. apply wp_bind, wp_settleFailure; [done|]. intros x w4 K4. apply HQ. by eapply kept_then.
Qed.

Lemma wp_resolve_one it now w Q : at_row anyrow w it -> (it_Delivered it = true -> it_tag it ∈ w_accepted w) ->
  (forall x w', kept it w w' -> Q x w') -> wp (resolve_one it now) Q w.
Proof.
  intros Hr Hd HQ. unfold resolve_one. destruct (it_Delivered it).
  - apply wp_Settle; [done|left; by apply Hd|done].
  - apply wp_OnGiveUp; [done| |]; cbn [bind].
    + intros w1 K1 Hr1 Ht. apply wp_Settle; [done|by right|]. intros x w2 K2. apply HQ. by eapply kept_then.
    + intros b w1 Hb K1 Hr1. apply wp_ClearStarted; [done|by intros ?; congruence|]. intros ce w2 K2 Hr2.
      pose proof (kept_then _ _ _ _ K1 K2) as K. destruct ce; cbn [negb]; [|by apply HQ].
      apply wp_Retry; [done|]. intros x w3 K3. apply HQ. by eapply kept_then.
Qed.

(** *** The items of a batch *)

(** Every item's row is there, no two are the same, and [P] holds of each. *)
Definition batch (P : world -> Item -> Prop) (w : world) (items : list Item) : Prop :=
  NoDup (map it_RecipientID items) /\ Forall (fun it => at_row anyrow w it /\ P w it) items.

Lemma batch_frame P it items w w' : Inv w -> kept it w w' -> batch P w (it :: items) ->
  (forall j, it_tag j <> it_tag it -> P w j -> P w' j) -> batch P w' items.
Proof.
  intros Hi [_ (F1 & F2 & F3)] [Hn Hf] HP. inversion Hn as [|? ? Hnot Hn']; subst. inversion Hf as [|? ? [(r0 & Hr0 & Et0 & _) _] Hf']; subst. split; [done|].
  apply Forall_forall. intros j Hj. rewrite Forall_forall in Hf'. destruct (Hf' _ Hj) as [(r & Hr & Et & _) Hp].
  assert (Hne : it_RecipientID j <> it_RecipientID it) by (intros E; apply Hnot; rewrite <- E; apply list_elem_of_fmap; by exists j).
  destruct (F1 _ _ Hne Hr) as [n Hn2]. split; [by exists (set_next n r)|]. apply HP; [|done].
  intros E. apply Hne. eapply inv_uniq; [done|exact Hr|exact Hr0|congruence].
Qed.

Lemma batch_interf P w w' items : interf w w' -> (forall it, P w it -> P w' it) -> batch P w items -> batch P w' items.
Proof.
  intros Hi HP [Hn Hf]. split; [done|]. eapply Forall_impl; [exact Hf|]. intros it [Hr Hp]. split; [|by apply HP].
  by eapply (at_row_interf anyrow); [done|exact Hi|].
Qed.

Lemma wp_resolve_all now items : forall w Q, batch (fun w it => it_Delivered it = true -> it_tag it ∈ w_accepted w) w items ->
  (forall x w', Inv w' -> Q x w') -> Inv w -> wp (resolve_all items now) Q w.
Proof.
  induction items as [|it items IH]; intros w Q Hb HQ Hw; [by apply HQ|]. cbn [resolve_all]. apply wp_read; [by intros ? ? ? ->|].
  intros w1 c Hi _. pose proof Hi as (Hw1 & Ea & _). apply (batch_interf _ _ w1) in Hb; [|done|intros j; by rewrite Ea].
  destruct c; [by apply HQ|]. apply wp_bind. pose proof Hb as [_ Hf]. inversion Hf as [|? ? [Hr Hd] _]; subst.
  apply wp_resolve_one; [done|done|]. intros x w2 K. destruct x; [|by apply HQ, K]. apply IH; [|done|apply K].
  eapply batch_frame; [exact Hw1|exact K|exact Hb|]. intros j _ Hj Hdel. destruct K as [_ (_ & _ & F3)]. by apply F3, Hj.
Qed.

Lemma wp_attempt_all now items : 0 < Unix now -> forall sent w Q, batch unsent w items ->
  (forall x w', Inv w' -> Q x w') -> Inv w -> wp (attempt_all items now sent) Q w.
Proof.
  intros Hn. induction items as [|it items IH]; intros sent w Q Hb HQ Hw; [by apply HQ|]. cbn [attempt_all]. apply wp_read; [by intros ? ? ? ->|].
  intros w1 c Hi _. pose proof Hi as (Hw1 & Ea & _). apply (batch_interf _ _ w1) in Hb; [|done|intros j; unfold unsent; by rewrite Ea].
  destruct c; [by apply HQ|]. apply wp_bind. pose proof Hb as [_ Hf]. inversion Hf as [|? ? [Hr Hu] _]; subst.
  apply wp_attempt; [done|done|done|]. intros [d ok] w2 K. cbn [snd fst]. destruct ok; [|by apply HQ, K]. apply IH; [|done|apply K].
  eapply batch_frame; [exact Hw1|exact K|exact Hb|]. intros j Hne Hj Hbn Hin. destruct K as [_ (_ & F2 & _)]. apply F2 in Hin as [Hin|Hin]; [by apply (Hj Hbn)|done].
Qed.

(** *** What the queries answer *)

Lemma item_of_row sp id r it : item_of sp (id, r) = Some it -> it_RecipientID it = id /\ it_tag it = rc_tag r /\ it_Delivered it = rc_delivered r.
Proof. unfold item_of. cbn. destruct (sp_messages sp !! _); [|done]. by intros [= <-]. Qed.

Lemma query_batch (P : world -> Item -> Prop) w (R : relation (Z * recipient)) `{!RelDecision R} (p : recipient -> bool) n : Inv w ->
  (forall id r it, rows w !! id = Some r -> p r = true -> item_of (w_spool w) (id, r) = Some it -> P w it) ->
  batch P w (take n (omap (item_of (w_spool w)) (merge_sort R (List.filter (fun row => p row.2) (map_to_list (rows w)))))).
Proof.
  intros Hw HP. set (l := List.filter (fun row => p row.2) (map_to_list (rows w))).
  assert (Hl : forall x, x ∈ merge_sort R l -> rows w !! x.1 = Some x.2 /\ p x.2 = true).
  { intros x Hx. rewrite merge_sort_Permutation in Hx. apply list_elem_of_In, filter_In in Hx as [Hx Hp]. split; [|done].
    apply list_elem_of_In in Hx. destruct x. by apply elem_of_map_to_list. }
  assert (Hn : NoDup (map fst (merge_sort R l))).
  { assert (E : map fst (merge_sort R l) ≡ₚ map fst l) by (apply Permutation_map, merge_sort_Permutation). rewrite E. unfold l.
    pose proof (NoDup_fst_map_to_list (rows w)) as H. clear -H. induction (map_to_list (rows w)) as [|x m IH]; [constructor|].
    cbn in *. inversion H as [|? ? Hx Hm]; subst. destruct (p x.2); [|by apply IH]. cbn. constructor; [|by apply IH].
    intros Hin. apply Hx. apply list_elem_of_fmap in Hin as (y & -> & Hy). apply list_elem_of_In, filter_In in Hy as [Hy _].
    apply list_elem_of_fmap. exists y. split; [done|]. by apply list_elem_of_In. }
  assert (G : batch P w (omap (item_of (w_spool w)) (merge_sort R l))).
  { revert Hl Hn. induction (merge_sort R l) as [|[id r] m IH]; intros Hl Hn; [split; constructor|]. inversion Hn as [|? ? Hx Hm]; subst.
    destruct IH as [IH1 IH2]; [intros; by apply Hl, elem_of_cons; right|done|]. cbn. destruct (item_of (w_spool w) (id, r)) as [it|] eqn:E; [|done].
    destruct (Hl (id, r)) as [Hr Hp]; [by left|]. cbn in Hr, Hp. destruct (item_of_row _ _ _ _ E) as (E1 & E2 & _).
    split; cbn.
    - constructor; [|done]. intros Hin. apply Hx. apply list_elem_of_fmap in Hin as (y & Ey & Hy). apply list_elem_of_omap in Hy as ([id' r'] & Hy & Ey').
      apply item_of_row in Ey' as (Ey' & _). apply list_elem_of_fmap. exists (id', r'). split; [|done]. cbn. congruence.
    - constructor; [|done]. split; [exists r; by rewrite E1, E2|]. eapply HP; eauto. }
  destruct G as [G1 G2]. split; [|by apply Forall_take].
  rewrite <- firstn_map. rewrite <- (take_drop n (map _ _)) in G1. by apply NoDup_app in G1 as [? _].
Qed.

Lemma wp_ProcessDue now w : 0 < Unix now -> Inv w -> wp (ProcessDue now) (fun _ _ => True) w.
Proof.
  intros Hn Hw. apply wp_read; [by intros ? ? ? ->|]. intros w1 wk Hi1 _. apply wp_bind. apply wp_read; [by intros ? ? ? [_ ->]|].
  intros w2 items Hi2 Hx. pose proof Hi2 as (Hw2 & _).
  assert (C : forall x w', Inv w' -> wp (if negb x then Ret (0, false) else ask items := CClaim (Unix now) (if wk_Batch wk <=? 0 then defaultBatch else wk_Batch wk) in
      match items with None => Ret (0, false) | Some items => attempt_all items now 0 end) (fun _ _ => True) w').
  { intros x w' Hw'. destruct x; [|done]. cbn [negb]. apply wp_read; [by intros ? ? ? [_ ->]|]. intros w3 its Hi3 [Hits _]. pose proof Hi3 as (Hw3 & _).
    destruct Hits as [->| ->]; [done|]. apply wp_attempt_all; [done| |done|done]. unfold Claim. fold (rows w3). apply query_batch; [done|].
    intros id r it Hr Hp Hit Hb Hin. apply item_of_row in Hit as (_ & Et & _). rewrite Et in Hin.
    apply (inv_flagged _ Hw3 Hb) in Hr; [|done]. unfold claimable in Hp. unfold unsettled in Hr. apply andb_prop in Hp as [Hp Hd], Hp as [_ Hs].
    apply negb_true_iff in Hd. apply Z.eqb_eq in Hs. rewrite Hs, Hd in Hr. done. }
  destruct Hx as [[->| ->] _]; [by apply C|]. apply wp_resolve_all; [|done|done].
  unfold Unsettled. fold (rows w2). rewrite <- (firstn_all (omap _ _)). apply query_batch; [done|].
  intros id r it Hr Hp Hit Hd. apply item_of_row in Hit as (_ & Et & Ed). rewrite Et. rewrite Ed in Hd. by eapply inv_delivered.
Qed.

End proofs.

(** ** Runs keep the invariant *)

Definition good (bounces : bool) (s : state) : Prop :=
  Inv bounces s.1 /\ match s.2 with Some p => wp bounces p (fun _ _ => True) s.1 | None => True end.

Lemma good_interf bounces w w' p : interf bounces w w' -> good bounces (w, p) -> good bounces (w', p).
Proof. intros Hi [_ H]. split; [apply Hi|]. destruct p; [|done]. by eapply wp_interf. Qed.

Lemma good_step bounces sign s s' : good bounces s -> step bounces false sign s s' -> good bounces s'.
Proof.
  intros [Hw Hp] Hs. destruct Hs as [w now Hn|w X c k x w' Hx|w r|w p|w p from ret envid rcpts body now|w p id when|w p id Hd]; cbn [fst snd] in *.
  - split; [done|]. by apply wp_ProcessDue.
  - destruct (Hp w (interf_refl _ _ Hw) x w' Hx) as [? ?]. by split.
  - by split.
  - by split.
  - eapply good_interf; [by apply interf_enqueue|by split].
  - eapply good_interf; [by apply interf_retry_now|by split].
  - destruct Hd as [| ->]; [done|]. split; [|done]. apply inv_settle; [done| |by apply list_subseteq_app_l].
    intros r Hr. right. right. unfold deleted_tag. rewrite Hr. apply elem_of_app. right. by apply list_elem_of_singleton.
Qed.

Lemma good_empty bounces : good bounces empty.
Proof.
  split; [|done]. constructor; unfold rows; cbn; try (intros *; by rewrite ?lookup_empty); [|lia| |].
  - intros t H. by apply not_elem_of_nil in H.
  - intros h H. by apply not_elem_of_nil in H.
  - intros _ [|] ? ? H; done.
Qed.

Lemma reachable_good bounces sign s : reachable bounces false sign s -> good bounces s.
Proof. intros H. unfold reachable in H. apply rtc_ind_r with (P := good bounces) in H; [done|apply good_empty|]. intros x y _ Hs Hx. by eapply good_step. Qed.

(** C1. No queued recipient is lost: at any moment of any run, with the process crashing
    between any two steps of a pass, the store failing any call (with or without its effect)
    and bounces failing, each recipient ever queued is in the spool together with the message
    body, or its exchanger accepted the message, or its sender was told, or an administrator
    deleted it (between passes). *)
Theorem relay_no_loss (bounces : bool) (sign : bytes -> bytes) (s : state) (t : nat) :
  reachable bounces false sign s -> (t < w_queued s.1)%nat ->
  (exists id r m, rows s.1 !! id = Some r /\ rc_tag r = t /\ sp_messages (w_spool s.1) !! rc_message r = Some m)
  \/ t ∈ w_accepted s.1 \/ t ∈ w_told s.1 \/ t ∈ w_dropped s.1.
Proof.
  intros H Ht. apply reachable_good in H as [[] _]. destruct (inv_kept0 t Ht) as [(id & r & Hr & Et)|?]; [left|by right].
  destruct (inv_body0 _ _ Hr) as [m Hm]. eauto 10.
Qed.

(** C2. An accepted message is not sent again: while bounce notices can be delivered and an
    administrator deletes rows only between passes, no run hands a recipient's message to an
    exchanger again once an exchanger has answered that it accepted it, wherever the process
    crashed and whichever bookkeeping failed.  So of two hand-overs of one recipient's message
    the earlier ended in an error; such an attempt is repeated even if the exchanger took the
    message before the error, see [error_sent_again]. *)
Theorem accepted_not_resent (sign : bytes -> bytes) (s : state) (l1 l2 l3 : list handover) (h h' : handover) :
  reachable true false sign s -> w_handed s.1 = l1 ++ h :: l2 ++ h' :: l3 -> ho_tag h = ho_tag h' -> ho_error h = true.
Proof.
  intros H E Et. apply reachable_good in H as [[] _]. destruct (ho_error h) eqn:He; [done|]. exfalso.
  apply (inv_once0 eq_refl l1 h (l2 ++ h' :: l3) E He h'); [|done]. apply elem_of_app. right. by left.
Qed.

(** ** Running a script *)

(** A call answered by a store that works, an exchanger that takes the message and answers so
    when [ok] (its answer is lost otherwise), and a bounce hook that succeeds when [ok] *)
Definition answer (ok : bool) (w : world) {X : Type} (c : call X) : X * world :=
  match c in call X return X * world with
  | CUnsettled => (Some (Unsettled (w_spool w)), w)
  | CClaim now limit => (Some (Claim (w_spool w) now limit), w)
  | CMarkStarted id now => (true, set_spool w (MarkStarted (w_spool w) id now))
  | CClearStarted id => (true, set_spool w (ClearStarted (w_spool w) id))
  | CMarkDelivered id => (true, set_spool w (MarkDelivered (w_spool w) id))
  | CSettle id => (true, set_spool w (settle (w_spool w) id))
  | CRetry id t err => (true, set_spool w (Retry (w_spool w) id t err))
  | CDeliver it =>
      if ok then (None, handed w it true false) else (Some (mkFailure false []), handed w it true true)
  | COnGiveUp it cause =>
      if ok then (None, mkWorld (w_spool w) (w_accepted w) (w_handed w) (w_told w ++ [it_tag it]) (w_dropped w) (w_queued w))
      else (Some [], w)
  | CPolicy => (mkWorker 0 0 0 0 0, w)
  | CCancelled => (false, w)
  end.

(** An answer the hypotheses of a run allow *)
Definition may (bounces ok : bool) {X : Type} (c : call X) : bool :=
  ok || negb bounces || match c with CDeliver _ => true | _ => false end.

Lemma answer_exec bounces ok w X (c : call X) : may bounces ok c = true -> exec bounces w c (answer ok w c).1 (answer ok w c).2.
Proof. intros H. destruct c; cbn; auto; try constructor; destruct ok, bounces; cbn; try done; by eexists. Qed.

Inductive act := AStart (now : Z) | ACall (ok : bool) | ACrash | AEnd | AQueue (rcpt body : bytes) (now : Z) | ADelete (id : Z).

Section script.
Context (bounces anytime : bool).
Definition run_act (s : state) (a : act) : option state :=
  match a, s with
  | AStart now, (w, None) => if 0 <? Unix now then Some (w, Some (ProcessDue now)) else None
  | ACall ok, (w, Some (Call c k)) =>
      if may bounces ok c then let '(x, w') := answer ok w c in Some (w', Some (k x)) else None
  | ACrash, (w, Some p) => Some (w, None)
  | AEnd, (w, Some (Ret _)) => Some (w, None)
  | AQueue rcpt body now, (w, p) =>
      Some (mkWorld (EnqueueDSN id (w_spool w) (w_queued w) [] [] [] [mkDSN rcpt [] []] body now)
              (w_accepted w) (w_handed w) (w_told w) (w_dropped w) (w_queued w + 1), p)
  | ADelete i, (w, p) =>
      if anytime then Some (mkWorld (Delete (w_spool w) i) (w_accepted w) (w_handed w) (w_told w) (w_dropped w ++ deleted_tag w i) (w_queued w), p) else None
  | _, _ => None
  end.
Fixpoint run_script (s : state) (l : list act) : option state :=
  match l with [] => Some s | a :: l => s' ← run_act s a; run_script s' l end.

Lemma run_act_step s a s' : run_act s a = Some s' -> step bounces anytime id s s'.
Proof.
  destruct s as [w [p|]], a as [now|ok| | |rcpt body now|i]; cbn; try done.
  - destruct p as [|X c k]; [done|]. destruct (may bounces ok c) eqn:E; [|done]. pose proof (answer_exec bounces ok w X c) as H.
    destruct (answer ok w c) as [x w']. intros [= <-]. constructor. by apply H.
  - intros [= <-]. constructor.
  - destruct p; [|done]. intros [= <-]. constructor.
  - intros [= <-]. apply (step_enqueue bounces anytime id w _ [] [] [] [mkDSN rcpt [] []]).
  - destruct anytime eqn:E; [|done]. intros [= <-]. apply step_delete. by left.
  - destruct (Z.ltb_spec 0 (Unix now)); [|done]. intros [= <-]. by constructor.
  - intros [= <-]. apply (step_enqueue bounces anytime id w _ [] [] [] [mkDSN rcpt [] []]).
  - destruct anytime eqn:E; [|done]. intros [= <-]. apply step_delete. by left.
Qed.
Lemma run_script_reachable l : forall s s', reachable bounces anytime id s -> run_script s l = Some s' -> reachable bounces anytime id s'.
Proof.
  induction l as [|a l IH]; intros s s' Hs; cbn; [by intros [= <-]|]. destruct (run_act s a) as [s1|] eqn:E; [|done]. cbn. apply IH.
  apply run_act_step in E. eapply rtc_r; [exact Hs|exact E].
Qed.
End script.

Definition second : Z := 1000000000.
Definition calls (n : nat) : list act := replicate n (ACall true).
(** A pass that reaches the exchanger of the first claimed recipient: the settings, the unsettled
    rows, the claim, the context, the stamp *)
Definition first_delivery : list act := calls 5.

(** A message is queued and delivered, and the process dies before it can note so; the next pass
    cannot bounce the interrupted delivery and puts the row back; a later pass sends it again. *)
Definition resend_script : list act :=
  [AQueue (lit "a@b") (lit "x") 1; AStart second] ++ first_delivery ++ [ACall true; ACrash]
  ++ [AStart (2 * second)] ++ calls 3 ++ [ACall false] ++ calls 3 ++ [AEnd]
  ++ [AStart (100000 * second)] ++ first_delivery ++ [ACall true].

(** A delivery whose outcome is unknown is sent again when its bounce fails: some run, in
    which no administrator deletes anything, has one recipient's message accepted twice. *)
Theorem interrupted_sent_again : exists s, reachable false false id s /\ w_queued s.1 = 1%nat /\ w_accepted s.1 = [0%nat; 0%nat].
Proof.
  destruct (run_script false false empty resend_script) as [s|] eqn:E; [|by vm_compute in E].
  exists s. split; [apply (run_script_reachable false false resend_script empty); [apply rtc_refl|done]|].
  assert (H : (fun s : state => (w_queued s.1, w_accepted s.1)) <$> run_script false false empty resend_script = Some (1%nat, [0%nat; 0%nat])) by (vm_compute; reflexivity).
  rewrite E in H. cbn in H. by injection H.
Qed.

(** The exchanger takes the message and its answer is lost; the row is put back and sent again. *)
Definition error_script : list act :=
  [AQueue (lit "a@b") (lit "x") 1; AStart second] ++ first_delivery ++ [ACall false] ++ calls 4 ++ [AEnd]
  ++ [AStart (100000 * second)] ++ first_delivery ++ [ACall true].

(** A delivery that ended in an error after the exchanger took the message is made again: some
    run, with every bounce deliverable and no deletion, has the message taken twice. *)
Theorem error_sent_again : exists s, reachable true false id s /\ w_queued s.1 = 1%nat
  /\ w_handed s.1 = [mkHandover 0 true true; mkHandover 0 true false].
Proof.
  destruct (run_script true false empty error_script) as [s|] eqn:E; [|by vm_compute in E].
  exists s. split; [apply (run_script_reachable true false error_script empty); [apply rtc_refl|done]|].
  assert (H : (fun s : state => (w_queued s.1, w_handed s.1)) <$> run_script true false empty error_script
    = Some (1%nat, [mkHandover 0 true true; mkHandover 0 true false])) by (vm_compute; reflexivity).
  rewrite E in H. cbn in H. by injection H.
Qed.

(** While a message is being delivered its row is deleted by an administrator, and the next
    queued recipient gets the row's id: the worker settles that one. *)
Definition reuse_script : list act :=
  [AQueue (lit "a@b") (lit "x") 1; AStart second] ++ first_delivery ++ [ADelete 1; AQueue (lit "c@d") (lit "y") 2] ++ calls 3 ++ [AEnd].

(** A deletion during a pass can lose another message: row ids are used again, so a worker
    that still holds a deleted row settles the recipient queued in its place, which is then
    neither queued nor delivered nor bounced nor deleted. *)
Theorem reused_row_loses_message : exists s, reachable true true id s /\ w_queued s.1 = 2%nat
  /\ rows s.1 = ∅ /\ 1%nat ∉ w_accepted s.1 /\ 1%nat ∉ w_told s.1 /\ 1%nat ∉ w_dropped s.1.
Proof.
  destruct (run_script true true empty reuse_script) as [s|] eqn:E; [|by vm_compute in E].
  exists s. split; [apply (run_script_reachable true true reuse_script empty); [apply rtc_refl|done]|].
  assert (H : (fun s : state => (w_queued s.1, map_to_list (rows s.1), w_accepted s.1, w_told s.1, w_dropped s.1)) <$> run_script true true empty reuse_script
    = Some (2%nat, [], [0%nat], [], [0%nat])) by (vm_compute; reflexivity).
  rewrite E in H. cbn in H. injection H as -> Hm -> -> ->. split; [done|]. split; [by apply map_to_list_empty_iff|].
  split_and!; [| |]; set_solver.
Qed.

(** A run that queues two messages and dies between the first one's acceptance and its note *)
Definition crash_script : list act :=
  [AQueue (lit "a@b") (lit "x") 1; AQueue (lit "c@d") (lit "y") 1; AStart second] ++ first_delivery ++ [ACall true; ACrash].
Definition crash_state : state := default empty (run_script true false empty crash_script).
Lemma crash_reachable : reachable true false id crash_state.
Proof.
  unfold crash_state. destruct (run_script true false empty crash_script) as [s|] eqn:E; [|apply rtc_refl].
  by apply (run_script_reachable true false crash_script empty); [apply rtc_refl|].
Qed.

Lemma relay_no_loss_witness :
  (exists id r m, rows crash_state.1 !! id = Some r /\ rc_tag r = 1%nat /\ sp_messages (w_spool crash_state.1) !! rc_message r = Some m)
  \/ 1%nat ∈ w_accepted crash_state.1 \/ 1%nat ∈ w_told crash_state.1 \/ 1%nat ∈ w_dropped crash_state.1.
Proof. apply (relay_no_loss true id crash_state 1); [apply crash_reachable|vm_compute; lia]. Defined.

Definition error_state : state := default empty (run_script true false empty error_script).
Lemma accepted_not_resent_witness : ho_error (mkHandover 0 true true) = true.
Proof.
  apply (accepted_not_resent id error_state [] [] [] (mkHandover 0 true true) (mkHandover 0 true false)); [|vm_compute; reflexivity|reflexivity].
  unfold error_state. destruct (run_script true false empty error_script) as [s|] eqn:E; [|apply rtc_refl].
  by apply (run_script_reachable true false error_script empty); [apply rtc_refl|].
Defined.

(** ** A pass on a day without failures *)

(** A program run to its end with every call answered well *)
Fixpoint eval {A} (p : prog A) (w : world) : A * world :=
  match p with
  | Ret a => (a, w)
  | Call c k => let '(x, w') := answer true w c in eval (k x) w'
  end.

Lemma eval_bind {A B} (p : prog A) (f : A -> prog B) w : eval (bind p f) w = eval (f (eval p w).1) (eval p w).2.
Proof. revert w. induction p as [a|X c k IH]; intros w; [done|]. cbn. destruct (answer true w c) as [x w']. apply IH. Qed.

Lemma settle_update sp i f r : sp_recipients sp !! i = Some r -> (forall r, rc_message (f r) = rc_message r) ->
  settle (update sp i f) i = settle sp i.
Proof.
  intros Hr Hf. unfold settle, update. cbn. rewrite lookup_alter, decide_True, Hr by done. cbn. rewrite Hf.
  replace (delete i (alter f i (sp_recipients sp))) with (delete i (sp_recipients sp)); [done|].
  apply map_eq. intros j. rewrite !lookup_delete, lookup_alter. by repeat case_decide.
Qed.

(** One delivery: the recipient is accepted and its row settled. *)
Lemma eval_attempt it now w r : rows w !! it_RecipientID it = Some r ->
  eval (attempt it now) w
  = ((true, true), set_spool (handed w it true false) (settle (w_spool w) (it_RecipientID it))).
Proof.
  intros Hr. unfold rows in Hr. cbn. unfold set_spool. cbn. do 2 f_equal. unfold MarkDelivered, MarkStarted.
  rewrite (settle_update _ _ _ (set_started (Unix now) r)); [by rewrite (settle_update _ _ _ r)| |done].
  unfold update. cbn. rewrite lookup_alter, decide_True by done. by rewrite Hr.
Qed.

Lemma eval_attempt_all now items : forall sent w, NoDup (map it_RecipientID items) ->
  (forall it, it ∈ items -> is_Some (rows w !! it_RecipientID it)) ->
  let r := eval (attempt_all items now sent) w in
  r.1 = (sent + len items, true) /\ w_accepted r.2 = w_accepted w ++ map it_tag items
  /\ (forall i, rows r.2 !! i = if decide (i ∈ map it_RecipientID items) then None else rows w !! i).
Proof.
  induction items as [|it items IH]; intros sent w Hn Hin.
  - cbn. split_and!; [f_equal; rewrite len_nil; lia|by rewrite app_nil_r|intros i; by rewrite decide_False by apply not_elem_of_nil].
  - inversion Hn as [|? ? Hx Hn']; subst. destruct (Hin it) as [r Hr]; [by left|]. cbn [attempt_all]. change (eval (ask cancelled := CCancelled in ?p cancelled) w) with (eval (p false) w).
    cbn [eval answer]. rewrite eval_bind, (eval_attempt it now w r Hr). cbn [fst snd].
    set (w1 := set_spool _ _). assert (L : forall i, rows w1 !! i = if decide (i = it_RecipientID it) then None else rows w !! i).
    { intros i. pose proof (settle_lookup w (it_RecipientID it) i) as H. unfold rows in *. cbn in *. exact H. }
    destruct (IH (sent + 1) w1) as (H1 & H2 & H3); [done| |].
    { intros j Hj. rewrite L, decide_False; [apply Hin; by right|]. intros E. apply Hx. rewrite <- E. apply list_elem_of_fmap. by exists j. }
    split_and!; [rewrite H1, len_cons; f_equal; lia|rewrite H2; cbn; by rewrite <- app_assoc|].
    intros i. rewrite H3, L. cbn [map]. destruct (decide (i ∈ map it_RecipientID items)) as [Hi|Hi].
    + by rewrite decide_True by (by right).
    + destruct (decide (i = it_RecipientID it)) as [->|Hne]; [by rewrite decide_True by (by left)|].
      rewrite decide_False; [done|]. intros E. apply elem_of_cons in E as [?|?]; done.
Qed.

(** C40. A pass delivers what is due: when the exchangers accept and the store works, a pass over
    a reachable spool with nothing left unsettled hands every claimed recipient to its exchanger
    once, in claim order, settles exactly those rows, and returns their number. *)
Theorem pass_delivers (bounces : bool) (sign : bytes -> bytes) (w : world) (now : Z) :
  reachable bounces false sign (w, None) -> forallb (fun row => negb (unsettled row.2)) (map_to_list (rows w)) = true ->
  let items := Claim (w_spool w) (Unix now) defaultBatch in
  let r := eval (ProcessDue now) w in
  r.1 = (len items, true) /\ w_accepted r.2 = w_accepted w ++ map it_tag items
  /\ (forall i, rows r.2 !! i = if decide (i ∈ map it_RecipientID items) then None else rows w !! i).
Proof.
  intros Hr Hu items. apply reachable_good in Hr as [Hw _]. cbn [fst] in Hw.
  assert (E : Unsettled (w_spool w) = []).
  { unfold Unsettled. fold (rows w). replace (List.filter (fun row => unsettled row.2) (map_to_list (rows w))) with (@nil (Z * recipient)); [done|].
    symmetry. clear -Hu. induction (map_to_list (rows w)) as [|x l IH]; [done|]. cbn in *. apply andb_prop in Hu as [Hx Hl]. apply negb_true_iff in Hx. rewrite Hx. by apply IH. }
  assert (B : batch (fun _ _ => True) w items) by (apply query_batch with (bounces := bounces); done).
  destruct B as [B1 B2]. cbn [eval ProcessDue answer]. rewrite eval_bind. unfold resolveUnsettled. cbn [eval answer]. rewrite E. cbn [resolve_all eval fst snd negb answer].
  apply (eval_attempt_all now items 0 w); [done|]. intros it Hit. rewrite Forall_forall in B2. destruct (B2 _ Hit) as [(r & Hr & _) _]. by exists r.
Qed.

Definition quiet_script : list act := [AQueue (lit "a@b") (lit "x") 1; AQueue (lit "c@d") (lit "y") 9].
Definition quiet_world : world := (default empty (run_script true false empty quiet_script)).1.
Lemma quiet_reachable : reachable true false id (quiet_world, None).
Proof. by apply (run_script_reachable true false quiet_script empty); [apply rtc_refl|]. Qed.
Lemma pass_delivers_witness :
  let r := eval (ProcessDue (5 * second)) quiet_world in
  r.1 = (1, true) /\ w_accepted r.2 = [0%nat].
Proof.
  destruct (pass_delivers true id quiet_world (5 * second)) as (H1 & H2 & _); [apply quiet_reachable|vm_compute; reflexivity|].
  split; [etransitivity; [exact H1|vm_compute; reflexivity]|etransitivity; [exact H2|vm_compute; reflexivity]].
Defined.

(** A retry waits, and not longer than the longest backoff. *)
Lemma retryDelay_bounds wk attempts : 0 < retryDelay wk attempts <= maxBackoff.
Proof.
  assert (0 < maxBackoff) by done. unfold retryDelay. set (d := i64 _). destruct (Z.leb_spec d 0), (Z.ltb_spec maxBackoff d); cbn; lia.
Qed.
