(* ===== verification/SmtpInv.v ===== *)
(** * What an SMTP session does to its backend

    Whatever a client sends, the backend of a session goes through a sequence of the calls of its
    interface and nothing else.  A property that every call keeps therefore holds of the backend
    when the connection ends, for any backend. *)

From stdpp Require Import base list numbers relations.
From Stdlib Require Import ZArith Lia.
From S2P Require Import Prelude Gostr Netline Smtp.
Open Scope Z_scope.

Section ops.
Context {B : Type} `{!Session B}.
Implicit Types c : smtpConn B.

(** A call of the backend; a sender always comes on a reset one. *)
Inductive sess_op (b : B) : B -> Prop :=
| op_mail addr p : sess_op b (se_Mail (se_Reset b) addr p).1
| op_rcpt addr p : sess_op b (se_Rcpt b addr p).1
| op_data content fin : sess_op b (se_Data b content fin).1
| op_reset : sess_op b (se_Reset b)
| op_logout : sess_op b (se_Logout b)
| op_auth auth user pass : se_Auth = Some auth -> sess_op b (auth b user pass).1.
Abbreviation ops := (rtc sess_op).

Definition evolves c (r : option (smtpConn B * bool)) : Prop :=
  forall c' more, r = Some (c', more) -> ops (sc_sess c) (sc_sess c').

Lemma evolves_ops c c' more : ops (sc_sess c) (sc_sess c') -> evolves c (Some (c', more)).
Proof. intros H c2 m2 [= <- <-]. done. Qed.
Lemma evolves_same c c' more : sc_sess c' = sc_sess c -> evolves c (Some (c', more)).
Proof. intros E. apply evolves_ops. by rewrite E. Qed.
Lemma ops_call b1 b2 b3 : ops b1 b2 -> sess_op b2 b3 -> ops b1 b3.
Proof. intros H1 H2. by eapply rtc_r. Qed.
Lemma reportBody_same e c : sc_sess (reportBody e c) = sc_sess c.
Proof. by destruct e. Qed.

Lemma evolves_mail sv arg c : evolves c (cmdMAIL sv arg c).
Proof.
  unfold cmdMAIL. destruct (negb _); [by apply evolves_same|]. destruct (extractPath _ _) as [addr|]; [|by apply evolves_same].
  destruct (needsUTF8Keyword _ _); [by apply evolves_same|]. destruct (checkMailParams _ _ _) as [dsn|[]]; [|by apply evolves_same].
  pose proof (op_mail (sc_sess c) addr dsn) as H. apply rtc_once in H. change (sc_sess (resetTxn c)) with (se_Reset (sc_sess c)).
  destruct (se_Mail _ addr dsn) as [b [e|]]; by apply evolves_ops.
Qed.
Lemma evolves_rcpt arg c : evolves c (cmdRCPT arg c).
Proof.
  unfold cmdRCPT. destruct (negb _); [by apply evolves_same|]. destruct (extractPath _ _) as [addr|]; [|by apply evolves_same].
  destruct (needsUTF8Keyword _ _); [by apply evolves_same|]. destruct (dsnRcptParams _) as [dsn|]; [|by apply evolves_same].
  pose proof (op_rcpt (sc_sess c) addr dsn) as H. apply rtc_once in H. destruct (se_Rcpt _ addr dsn) as [b [e|]]; by apply evolves_ops.
Qed.
Lemma data_reset c content fin (b : B) e c' more : se_Data (sc_sess c) content fin = (b, e) -> sc_sess c' = se_Reset b -> evolves c (Some (c', more)).
Proof.
  intros D E. apply evolves_ops. rewrite E. eapply ops_call, op_reset. apply rtc_once.
  pose proof (op_data (sc_sess c) content fin) as H. by rewrite D in H.
Qed.
Lemma evolves_data sv mo c : evolves c (cmdDATA sv mo c).
Proof.
  unfold cmdDATA. case_bool_decide; [by apply evolves_same|]. destruct (tx_binaryMIME _); [by apply evolves_same|].
  destruct (_ =? 0); [by apply evolves_same|]. unfold consumeData. destruct (dotReader _) as [body rest].
  destruct (if 0 <? sv_maxSize sv then _ else _) as [content fin]. destruct (se_Data _ _ fin) as [b e] eqn:D.
  eapply (data_reset c); [exact D|]. cbn. by rewrite reportBody_same.
Qed.
Lemma readChunk_same size limit c c' f : readChunk size limit c = (c', f) -> sc_sess c' = sc_sess c.
Proof.
  unfold readChunk, bufferChunk, CopyN. destruct (chunkViable c); cbn [negb]; [|by intros [= <- <-]].
  case_match; by intros [= <- <-].
Qed.
Lemma evolves_bdat sv mo arg c : evolves c (cmdBDAT sv mo arg c).
Proof.
  unfold cmdBDAT. destruct (parseBDAT arg) as [[size last]|]; [|by apply evolves_same].
  destruct (readChunk _ _ c) as [c1 framed] eqn:E. apply readChunk_same in E. destruct framed; cbn [negb]; [|by apply evolves_same].
  unfold replyBDAT. destruct (negb (sc_greeted c1)); [by apply evolves_same|]. destruct (_ =? 0); [by apply evolves_same|].
  destruct (tx_bdatErr _); [by apply evolves_same|].
  destruct (tx_bdatBuf (sc_txn c1)) as [buf|]; [|by destruct (0 <? _), last; cbn; try (intros ? ? ?; done); apply evolves_same].
  assert (F : forall b e, se_Data (sc_sess c1) (trace sv mo c1 ++ buf) EndEOF = (b, e) ->
    evolves c (Some (resetTxn (reportBody e (set_sess b c1)), true))).
  { intros b e D. rewrite E in D. eapply (data_reset c); [exact D|]. cbn. by rewrite reportBody_same. }
  destruct (0 <? sv_maxSize sv); cbn [mbind option_bind fmap option_fmap option_map].
  - destruct (_ <? len buf); [by apply evolves_same|]. destruct last; cbn [negb]; [|by apply evolves_same].
    destruct (se_Data (sc_sess c1) _ EndEOF) as [b e] eqn:D. cbn. by apply F.
  - destruct last; cbn [negb]; [|by apply evolves_same]. destruct (se_Data (sc_sess c1) _ EndEOF) as [b e] eqn:D. cbn. by apply F.
Qed.
Lemma evolves_starttls sv c : evolves c (cmdSTARTTLS sv c).
Proof.
  unfold cmdSTARTTLS. destruct (_ || _); [by apply evolves_same|].
  destruct (sc_upgrade c); [by apply evolves_same|by apply evolves_same|]. apply evolves_ops. apply rtc_once, op_reset.
Qed.

Lemma authResponse_sess max inline ch c c' r : authResponse max inline ch c = (c', r) -> sc_sess c' = sc_sess c.
Proof.
  unfold authResponse. destruct inline as [|i inline].
  - destruct (ReadLine _ max) as [[line|e] rest]; [destruct (beq line _)|]; by intros [= <- <-].
  - destruct (beq (i :: inline) _); by intros [= <- <-].
Qed.
Lemma finishAuth_ops auth user pass c : se_Auth = Some auth -> ops (sc_sess c) (sc_sess (finishAuth auth user pass c)).
Proof.
  intros Ha. unfold finishAuth. pose proof (op_auth (sc_sess c) auth user pass Ha) as H. apply rtc_once in H.
  destruct (auth _ _ _) as [b []]; done.
Qed.
Lemma evolves_auth sv arg c : evolves c (cmdAUTH sv arg c).
Proof.
  unfold cmdAUTH, handleAuth. destruct se_Auth as [auth|] eqn:Ha; [|by apply evolves_same].
  destruct (negb (sc_tls c)); [by apply evolves_same|]. destruct (Cut arg 32) as [mech initial]. apply evolves_ops.
  destruct (beq _ _); [|destruct (beq _ _); [|done]].
  - unfold authPlain. destruct (authResponse _ _ _ c) as [c1 [r|]] eqn:E; apply authResponse_sess in E; [|by rewrite E].
    destruct (b64_DecodeString r) as [d|]; [|by cbn; rewrite E]. destruct (split_plain d) as [[u p]|]; [|by cbn; rewrite E].
    rewrite <- E. by apply finishAuth_ops.
  - unfold authLogin. destruct (authResponse _ _ _ c) as [c1 [r|]] eqn:E; apply authResponse_sess in E; [|by rewrite E].
    destruct (b64_DecodeString r) as [u|]; [|by cbn; rewrite E].
    destruct (authResponse _ _ _ c1) as [c2 [r2|]] eqn:E2; apply authResponse_sess in E2; [|by rewrite E2, E].
    destruct (b64_DecodeString r2) as [p|]; [|by cbn; rewrite E2, E]. rewrite <- E, <- E2. by apply finishAuth_ops.
Qed.

Lemma evolves_command sv mo line c : evolves c (command sv mo line c).
Proof.
  unfold command. destruct (Cut line 32) as [cmd arg]. destruct (List.find _ _) as [p|] eqn:E; [|by apply evolves_same].
  apply List.find_some in E as [E _]. unfold commandTable in E.
  repeat (destruct E as [<-|E]; [cbn [snd]; first
    [ apply evolves_mail | apply evolves_rcpt | apply evolves_data | apply evolves_bdat | apply evolves_starttls | apply evolves_auth
    | by apply evolves_same | by apply evolves_ops; apply rtc_once, op_reset ] |]).
  done.
Qed.
Lemma turn_ops sv sv' mo c c' more : turn sv sv' mo c = Some (c', more) -> ops (sc_sess c) (sc_sess c').
Proof.
  unfold turn. destruct (ReadLine _ _) as [[line|[]] rest]; [|by intros [= <- <-]..].
  destruct (ew_err _); [by intros [= <- <-]|]. apply (evolves_command sv' mo line (set_in rest c)).
Qed.
Lemma loop_ops settings settings' moments fuel : forall k c c' more,
  loop settings settings' moments fuel k c = Some (c', more) -> ops (sc_sess c) (sc_sess c').
Proof.
  induction fuel as [|fuel IH]; intros k c c' more; cbn [loop]; [by intros [= <- <-]|].
  destruct (turn _ _ _ c) as [[c1 m1]|] eqn:E; [|done]. cbn. apply turn_ops in E.
  destruct m1; [|by intros [= <- <-]]. intros H. apply IH in H. by etrans.
Qed.

(** The backend at the end of a connection is the new session's after some calls. *)
Lemma handle_ops settings settings' moments sv (new : bytes -> option B) remote input credit isTLS up b c' more :
  new remote = Some b -> handle settings settings' moments sv new remote input credit isTLS up = inr (Some (c', more)) -> ops b (sc_sess c').
Proof.
  intros Hb. unfold handle. rewrite Hb. set (c := say _ _ _). intros H. apply (f_equal (fun x => match x with inr r => r | inl _ => None end)) in H.
  destruct (loop _ _ _ _ 0 c) as [[c1 m1]|] eqn:E; [|done]. injection H as <- <-. apply loop_ops in E. cbn.
  eapply ops_call, op_logout. done.
Qed.

Lemma handle_keeps (P : B -> Prop) settings settings' moments sv (new : bytes -> option B) remote input credit isTLS up b c' more :
  (forall b b', sess_op b b' -> P b -> P b') -> new remote = Some b -> P b ->
  handle settings settings' moments sv new remote input credit isTLS up = inr (Some (c', more)) -> P (sc_sess c').
Proof.
  intros HP Hn Hb H. eapply handle_ops in H; [|done]. clear Hn. induction H as [|b1 b2 b3 Hop _ IH]; [done|]. apply IH. by eapply HP.
Qed.
End ops.
