(* ===== verification/Antispam.v ===== *)
(** * The spam verdict ([internal/antispam]: antispam.go, access.go)

    A message's score is the sum of the weights of the signals that fired; the operator's allow
    and block rules have the last word, except that a hard DMARC failure cannot be allowed
    away.  The checks that ask the network or a model (SPF, DKIM, DMARC records, blocklists, the
    Bayesian model, the rule set) are arguments; [strings.ToLower] is one too. *)

From stdpp Require Import base list numbers gmap.
From Stdlib Require Import ZArith Lia.
From Stdlib Require String.
Import String.StringSyntax.
From S2P Require Import Prelude Gostr.
Open Scope Z_scope.
#[local] Arguments lit : simpl never.

Inductive AuthResult := AuthPass | AuthFail | AuthSoftFail | AuthNeutral | AuthNone | AuthError.
#[export] Instance AuthResult_eq_dec : EqDecision AuthResult.
Proof. solve_decision. Defined.

(** [ClientIP] is the address as text, empty when there is none. *)
Record Input := mkInput { in_Raw : bytes; in_ClientIP : bytes; in_HeloName : bytes; in_MailFrom : bytes; in_FromDomain : bytes }.

Record Weights := mkWeights {
  wt_SPFFail : Z; wt_SPFSoftFail : Z; wt_DKIMFail : Z; wt_DMARCFail : Z; wt_DNSBLHit : Z; wt_BayesSpam : Z; wt_SARulesHit : Z }.
Definition DefaultWeights : Weights := mkWeights 5 2 3 6 6 4 4.
Definition DefaultThreshold : Z := 8.

Record DKIMResult := mkDKIM { dk_Domain : bytes; dk_Valid : bool }.

(** What follows reads all of it but the figures behind the content signals and the reasons'
    text: a reason is the signal it names. *)
Inductive reason := RSPFFail | RSPFSoftFail | RDKIM | RDMARC (policy : bytes) | RDNSBL (zone : bytes) | RBayes | RSARules
  | RBlocked | RAllowOverridden | RAllowed.
Record Verdict := mkVerdict {
  vd_Score : Z; vd_Spam : bool; vd_AccessMatched : bool; vd_AccessAction : bytes; vd_SPF : AuthResult; vd_DKIM : AuthResult;
  vd_DKIMDomains : list bytes; vd_DMARC : AuthResult; vd_DMARCReject : bool; vd_DKIMResults : list DKIMResult;
  vd_DMARCDKIMAligned : bool; vd_DMARCSPFAligned : bool; vd_DMARCReports : bool; vd_DNSBL : list bytes; vd_Reasons : list reason }.

Record DMARCPolicy := mkPolicy { dp_Policy : bytes; dp_StrictDKIM : bool; dp_StrictSPF : bool; dp_Reports : bool }.

(** The cutoffs of the content signals are inside the tests of [Scorer]. *)
Record Config := mkConfig { cf_Weights : Weights; cf_Threshold : Z; cf_Zones : list bytes }.

(** Field updates, [add] counting a signal and naming it *)
Definition add (w : Z) (r : reason) (v : Verdict) : Verdict :=
  mkVerdict (i64 (vd_Score v + w)) (vd_Spam v) (vd_AccessMatched v) (vd_AccessAction v) (vd_SPF v) (vd_DKIM v) (vd_DKIMDomains v) (vd_DMARC v)
    (vd_DMARCReject v) (vd_DKIMResults v) (vd_DMARCDKIMAligned v) (vd_DMARCSPFAligned v) (vd_DMARCReports v) (vd_DNSBL v) (vd_Reasons v ++ [r]).
Definition set_spf (a : AuthResult) (v : Verdict) : Verdict :=
  mkVerdict (vd_Score v) (vd_Spam v) (vd_AccessMatched v) (vd_AccessAction v) a (vd_DKIM v) (vd_DKIMDomains v) (vd_DMARC v)
    (vd_DMARCReject v) (vd_DKIMResults v) (vd_DMARCDKIMAligned v) (vd_DMARCSPFAligned v) (vd_DMARCReports v) (vd_DNSBL v) (vd_Reasons v).
Definition set_dkim (a : AuthResult) (doms : list bytes) (rs : list DKIMResult) (v : Verdict) : Verdict :=
  mkVerdict (vd_Score v) (vd_Spam v) (vd_AccessMatched v) (vd_AccessAction v) (vd_SPF v) a doms (vd_DMARC v)
    (vd_DMARCReject v) rs (vd_DMARCDKIMAligned v) (vd_DMARCSPFAligned v) (vd_DMARCReports v) (vd_DNSBL v) (vd_Reasons v).
Definition set_dmarc (a : AuthResult) (reject dkim spf reports : bool) (v : Verdict) : Verdict :=
  mkVerdict (vd_Score v) (vd_Spam v) (vd_AccessMatched v) (vd_AccessAction v) (vd_SPF v) (vd_DKIM v) (vd_DKIMDomains v) a
    reject (vd_DKIMResults v) dkim spf reports (vd_DNSBL v) (vd_Reasons v).
Definition set_dnsbl (z : bytes) (v : Verdict) : Verdict :=
  mkVerdict (vd_Score v) (vd_Spam v) (vd_AccessMatched v) (vd_AccessAction v) (vd_SPF v) (vd_DKIM v) (vd_DKIMDomains v) (vd_DMARC v)
    (vd_DMARCReject v) (vd_DKIMResults v) (vd_DMARCDKIMAligned v) (vd_DMARCSPFAligned v) (vd_DMARCReports v) (vd_DNSBL v ++ [z]) (vd_Reasons v).
Definition set_spam (b : bool) (v : Verdict) : Verdict :=
  mkVerdict (vd_Score v) b (vd_AccessMatched v) (vd_AccessAction v) (vd_SPF v) (vd_DKIM v) (vd_DKIMDomains v) (vd_DMARC v)
    (vd_DMARCReject v) (vd_DKIMResults v) (vd_DMARCDKIMAligned v) (vd_DMARCSPFAligned v) (vd_DMARCReports v) (vd_DNSBL v) (vd_Reasons v).
Definition set_access (a : bytes) (v : Verdict) : Verdict :=
  mkVerdict (vd_Score v) (vd_Spam v) (negb (beq a [])) a (vd_SPF v) (vd_DKIM v) (vd_DKIMDomains v) (vd_DMARC v)
    (vd_DMARCReject v) (vd_DKIMResults v) (vd_DMARCDKIMAligned v) (vd_DMARCSPFAligned v) (vd_DMARCReports v) (vd_DNSBL v) (vd_Reasons v).
Definition say_why (r : reason) (v : Verdict) : Verdict :=
  mkVerdict (vd_Score v) (vd_Spam v) (vd_AccessMatched v) (vd_AccessAction v) (vd_SPF v) (vd_DKIM v) (vd_DKIMDomains v) (vd_DMARC v)
    (vd_DMARCReject v) (vd_DKIMResults v) (vd_DMARCDKIMAligned v) (vd_DMARCSPFAligned v) (vd_DMARCReports v) (vd_DNSBL v) (vd_Reasons v ++ [r]).

Definition AccessAllow : bytes := lit "allow".
Definition AccessBlock : bytes := lit "block".

Section antispam.
Context (ToLower : bytes -> bytes).

(** ** Allow and block rules ([access.go]) *)

Definition AccessList := gmap bytes bytes.

(** The pairs in the order the map is ranged over *)
Definition NewAccessList (rules : list (bytes * bytes)) : AccessList :=
  foldl (fun m r => let p := ToLower (TrimSpace r.1) in if beq p [] then m else <[p := r.2]> m) ∅ rules.

(** [antispam.go]'s [domainOf] *)
Definition as_domainOf (addr : bytes) : bytes :=
  let s := ToLower (TrimSpace addr) in if existsb (Z.eqb 64) s then (Cut s 64).2 else [].

Definition Action (a : option AccessList) (mailFrom fromDomain : bytes) : bytes :=
  match a with
  | None => []
  | Some rules =>
      if beq mailFrom [] then []
      else
        let email := ToLower (TrimSpace mailFrom) in
        let at_from := if beq fromDomain [] then [] else default [] (rules !! ToLower (TrimSpace fromDomain)) in
        match rules !! email with
        | Some act => act
        | None =>
            let d := as_domainOf email in
            if beq d [] then at_from else match rules !! d with Some act => act | None => at_from end
        end
  end.

(** ** The scorer ([antispam.go]) *)

(** The injected checks, each absent when nil; the content tests say whether the model's
    probability, or the rules' sum, reaches its cutoff. *)
Record Scorer := mkScorer {
  so_cfg : option Config; so_access : option AccessList;
  so_checkSPF : option (bytes -> bytes -> bytes -> AuthResult); so_checkDKIM : option (bytes -> list DKIMResult);
  so_lookupDMARC : option (bytes -> option DMARCPolicy); so_checkDNSBL : option (bytes -> bytes -> bool);
  so_bayes : option (bytes -> bool); so_saRules : option (bytes -> bool) }.

Definition Allowlisted (s : Scorer) (mailFrom fromDomain : bytes) : bool :=
  match so_access s with None => false | Some a => beq (Action (Some a) mailFrom fromDomain) AccessAllow end.

Definition scoringConfig (s : Scorer) : Config := default (mkConfig DefaultWeights DefaultThreshold []) (so_cfg s).

Definition scoreSPF (s : Scorer) (inp : Input) (w : Weights) (v : Verdict) : Verdict :=
  match so_checkSPF s with
  | None => v
  | Some check =>
      if beq (in_ClientIP inp) [] || beq (in_MailFrom inp) [] then v
      else
        let r := check (in_ClientIP inp) (in_HeloName inp) (in_MailFrom inp) in
        let v := set_spf r v in
        match r with
        | AuthFail => add (wt_SPFFail w) RSPFFail v
        | AuthSoftFail => add (wt_SPFSoftFail w) RSPFSoftFail v
        | _ => v
        end
  end.

Definition scoreDKIM (s : Scorer) (inp : Input) (w : Weights) (v : Verdict) : Verdict * list bytes :=
  match so_checkDKIM s with
  | None => (v, [])
  | Some check =>
      if beq (in_Raw inp) [] then (v, [])
      else
        let rs := check (in_Raw inp) in
        let valid := map dk_Domain (List.filter dk_Valid rs) in
        match valid with
        | [] => (add (wt_DKIMFail w) RDKIM (set_dkim AuthFail (vd_DKIMDomains v) rs v), [])
        | _ => (set_dkim AuthPass valid rs v, valid)
        end
  end.

Section alignment.
(** [publicsuffix.EffectiveTLDPlusOne] *)
Context (EffectiveTLDPlusOne : bytes -> option bytes).
Definition orgDomain (d : bytes) : bytes :=
  let d := ToLower (TrimSpace d) in if beq d [] then [] else default d (EffectiveTLDPlusOne d).
Definition identifierAligned (fromDomain authDomain : bytes) (strict : bool) : bool :=
  let from := ToLower (TrimSpace fromDomain) in
  let auth := ToLower (TrimSpace authDomain) in
  if beq from [] || beq auth [] then false
  else if strict then beq from auth else beq (orgDomain from) (orgDomain auth).
Definition dkimAligned (fromDomain : bytes) (validDKIM : list bytes) (strict : bool) : bool :=
  existsb (fun d => identifierAligned fromDomain d strict) validDKIM.
Definition spfAligned (fromDomain mailFrom : bytes) (spf : AuthResult) (strict : bool) : bool :=
  bool_decide (spf = AuthPass) && identifierAligned fromDomain (as_domainOf mailFrom) strict.

Definition scoreDMARC (s : Scorer) (inp : Input) (w : Weights) (validDKIM : list bytes) (v : Verdict) : Verdict :=
  match so_lookupDMARC s with
  | None => v
  | Some lookup =>
      if beq (in_FromDomain inp) [] then v
      else
        match lookup (in_FromDomain inp) with
        | None => set_dmarc AuthNone (vd_DMARCReject v) (vd_DMARCDKIMAligned v) (vd_DMARCSPFAligned v) (vd_DMARCReports v) v
        | Some pol =>
            let dk := dkimAligned (in_FromDomain inp) validDKIM (dp_StrictDKIM pol) in
            let sp := spfAligned (in_FromDomain inp) (in_MailFrom inp) (vd_SPF v) (dp_StrictSPF pol) in
            if dk || sp then set_dmarc AuthPass (vd_DMARCReject v) dk sp (dp_Reports pol) v
            else if beq (dp_Policy pol) (lit "reject") || beq (dp_Policy pol) (lit "quarantine") then
              set_dmarc AuthFail true dk sp (dp_Reports pol) (add (wt_DMARCFail w) (RDMARC (dp_Policy pol)) v)
            else set_dmarc AuthFail (vd_DMARCReject v) dk sp (dp_Reports pol) v
        end
  end.

Definition scoreDNSBL (s : Scorer) (inp : Input) (cfg : Config) (v : Verdict) : Verdict :=
  match so_checkDNSBL s with
  | None => v
  | Some check =>
      if beq (in_ClientIP inp) [] then v
      else
        foldl (fun v z => if check (in_ClientIP inp) z then add (wt_DNSBLHit (cf_Weights cfg)) (RDNSBL z) (set_dnsbl z v) else v) v (cf_Zones cfg)
  end.

Definition scoreContent (s : Scorer) (inp : Input) (w : Weights) (v : Verdict) : Verdict :=
  if beq (in_Raw inp) [] then v
  else
    let v := match so_bayes s with Some p => if p (in_Raw inp) then add (wt_BayesSpam w) RBayes v else v | None => v end in
    match so_saRules s with Some p => if p (in_Raw inp) then add (wt_SARulesHit w) RSARules v else v | None => v end.

Definition applyAccess (s : Scorer) (inp : Input) (v : Verdict) : Verdict :=
  match so_access s with
  | None => v
  | Some acc =>
      if beq (in_MailFrom inp) [] then v
      else
        let action := Action (Some acc) (in_MailFrom inp) (in_FromDomain inp) in
        let v := set_access action v in
        if beq action AccessBlock then say_why RBlocked (set_spam true v)
        else if beq action AccessAllow then
          if vd_DMARCReject v then say_why RAllowOverridden v else say_why RAllowed (set_spam false v)
        else v
  end.

Definition emptyVerdict : Verdict :=
  mkVerdict 0 false false [] AuthNone AuthNone [] AuthNone false [] false false false [] [].
Definition Score (s : Scorer) (inp : Input) : Verdict :=
  let cfg := scoringConfig s in
  let w := cf_Weights cfg in
  let v := scoreSPF s inp w emptyVerdict in
  let '(v, validDKIM) := scoreDKIM s inp w v in
  let v := scoreContent s inp w (scoreDNSBL s inp cfg (scoreDMARC s inp w validDKIM v)) in
  applyAccess s inp (set_spam (cf_Threshold cfg <=? vd_Score v) v).
End alignment.

(** The X-Spam fields in front of a copy *)
Definition Tag (raw : bytes) (v : Verdict) : bytes :=
  let '(status, flag) := if vd_Spam v then (lit "Yes", lit "YES") else (lit "No", lit "NO") in
  lit "X-Spam-Flag: " ++ flag ++ crlf ++ lit "X-Spam-Score: " ++ dec (vd_Score v) ++ crlf
  ++ lit "X-Spam-Status: " ++ status ++ lit ", score=" ++ dec (vd_Score v) ++ crlf ++ raw.
End antispam.
