(* ===== verification/Mta.v ===== *)
(** * Mail delivery ([internal/mta]: delivery.go, mlist.go, autoreply.go, avscan.go, avnotify.go,
    outboundapply.go, sizelimit.go, sentcopy.go; [internal/sendas])

    The backend of the SMTP session: who may send as whom, where a recipient goes, what happens
    to an accepted message.  The directory is a record of its capabilities, each absent where
    the Go value does not implement the interface; the mailbox stores are a class.  Both may
    change between two calls of the session, so every call has an [env] of its own.  The hooks a
    daemon installs are calls that are logged.  Activity logging is left out. *)

From stdpp Require Import base list numbers gmap.
From Stdlib Require Import ZArith Lia.
From Stdlib Require String.
Import String.StringSyntax.
From S2P Require Import Prelude Utf Gostr Limitbase Authlimit Mtalimit Smtp Mailhdr Relay Antispam.
Open Scope Z_scope.
#[local] Arguments lit : simpl never.

(** ** The directory *)

Inductive MListResult := MListOK | MListNone | MListPrivilDomain | MListPrivilInternal | MListPrivilSpecified.
#[export] Instance MListResult_eq_dec : EqDecision MListResult.
Proof. solve_decision. Defined.

Definition ForwardCC : Z := 0.
Definition ForwardRedirect : Z := 1.
Record ForwardInfo := mkForward { fw_Type : Z; fw_Destination : bytes }.

Abbreviation MListExpander := (bytes -> bytes -> result unit (list bytes * MListResult)).

(** [directory.Accounts] with the interfaces it is asserted to: [CatchAllResolver],
    [MListExpander], [LocalDomains], [SplitDomains], [Identifier], [Authenticator] (with
    [AuthenticateClient]'s choice made), [Forwarder] and [senderNameResolver].  [ac_SMTP] is the
    SMTP privilege, false when it cannot be read. *)
Record Accounts := mkAccounts {
  ac_Resolve : bytes -> option bytes;
  ac_CatchAll : option (bytes -> option bytes);
  ac_Expand : option MListExpander;
  ac_IsLocalDomain : option (bytes -> result unit bool);
  ac_SplitRelayHost : option (bytes -> result unit bytes);
  ac_Identities : option (bytes -> result unit (list bytes));
  ac_Authenticate : option (bytes -> bytes -> option bytes);
  ac_SMTP : bytes -> bool;
  ac_GetForward : option (bytes -> result unit (option ForwardInfo));
  ac_OutgoingDisplayNames : option (bytes -> result unit (bytes * bytes));
  ac_UserZone : bytes -> bytes }.

(** ** The mailbox stores *)

Definition PrivateFIDInbox : Z := 0x0d.
Definition PrivateFIDJunk : Z := 0x17.
Definition PrivateFIDSentItems : Z := 0x0a.
Definition FlagSeen : Z := 1.

Record Quota := mkQuota { qt_SendKB : Z; qt_ReceiveKB : Z }.
Record OOFSettings := mkOOF {
  of_Enabled : bool; of_InternalSubject : bytes; of_InternalReply : bytes; of_ExternalSubject : bytes; of_ExternalReply : bytes;
  of_ExternalEnabled : bool; of_ExternalAudience : Z; of_Start : Z; of_End : Z }.
Definition OOFExternalKnown : Z := 1.
Record SentCopyConfig := mkSentCopy { sc_ForSendAs : bool; sc_ForSendOnBehalf : bool; sc_Exclusive : bool }.
(** The recipients of each forward, the reasons of the rejects, the texts of the replies *)
Record InboxRuleActions := mkRuleActions { ra_Forwards : list (list bytes); ra_Bounces : list bytes; ra_AutoReplies : list bytes }.

(** One mailbox is the path of its store.  [mb_Open] creates a missing mailbox; the rule pass and
    the meeting passes change the store and never fail a delivery, so only what they answer is
    there: an action list, whether a meeting request was handled, nothing. *)
Class Mailboxes (S : Type) := {
  mb_Open : S -> bytes -> S * bool;
  mb_OpenExisting : S -> bytes -> bool;
  mb_GetQuota : S -> bytes -> option Quota;
  mb_MailboxSize : S -> bytes -> option Z;
  mb_GetSendAs : S -> bytes -> option (list bytes);
  mb_GetSendOnBehalf : S -> bytes -> option (list bytes);
  mb_AppendMessage : S -> bytes -> bytes -> Z -> bytes -> Z -> Z -> S * option Z;
  mb_GetOOFSettings : S -> bytes -> option OOFSettings;
  mb_ContactHasAddress : S -> bytes -> bytes -> option bool;
  mb_GetSentCopyConfig : S -> bytes -> option SentCopyConfig;
  mb_ApplyInboxRules : S -> bytes -> Z -> Z -> S * InboxRuleActions;
  mb_OnMeetingRequest : S -> bytes -> bytes -> Z -> S * bool;
  mb_OnMeetingReply : S -> bytes -> bytes -> Z -> S;
  mb_OnMeetingCancel : S -> bytes -> bytes -> Z -> S }.

Definition OOFActive (c : OOFSettings) (nowUnix : Z) : bool :=
  if negb (of_Enabled c) then false
  else if negb (of_Start c =? 0) && (nowUnix <? of_Start c) then false
  else negb (negb (of_End c =? 0) && (of_End c <? nowUnix)).

(** ** Send-as ([internal/sendas]) *)

Inductive Grant := GrantNone | GrantOwn | GrantSendAs | GrantOnBehalf.
#[export] Instance Grant_eq_dec : EqDecision Grant.
Proof. solve_decision. Defined.

Section fold.
Context (ToLower : bytes -> bytes).

Definition containsFold (l : list bytes) (want : bytes) : bool := existsb (fun a => beq (ToLower (TrimSpace a)) want) l.
Definition grants (l ids : list bytes) : bool := existsb (fun g => containsFold ids (ToLower (TrimSpace g))) l.

Definition Identities (acc : Accounts) (caller : bytes) : list bytes :=
  match ac_Identities acc with
  | None => [caller]
  | Some f => match f caller with Err _ | Ok [] => [caller] | Ok addrs => addrs end
  end.

Section stores.
Context {S : Type} `{!Mailboxes S}.

Definition grantOf (acc : Accounts) (st : S) (want : bytes) (ids : list bytes) : Grant :=
  match ac_Resolve acc want with
  | None => GrantNone
  | Some path =>
      if negb (mb_OpenExisting st path) then GrantNone
      else if match mb_GetSendAs st path with Some l => grants l ids | None => false end then GrantSendAs
      else if match mb_GetSendOnBehalf st path with Some l => grants l ids | None => false end then GrantOnBehalf
      else GrantNone
  end.

(** The address for From, the address for Sender, and the grant *)
Definition sendas_Resolve (acc : Accounts) (st : S) (caller want : bytes) : bytes * bytes * Grant :=
  let want := ToLower (TrimSpace want) in
  if beq want [] || EqualFold want caller then (caller, caller, GrantOwn)
  else
    let ids := Identities acc caller in
    if containsFold ids want then (want, want, GrantOwn)
    else match grantOf acc st want ids with
         | GrantSendAs => (want, want, GrantSendAs)
         | GrantOnBehalf => (want, caller, GrantOnBehalf)
         | _ => ([], [], GrantNone)
         end.
Definition Allows (acc : Accounts) (st : S) (caller want : bytes) : bool :=
  if beq (TrimSpace want) [] then false else negb (bool_decide ((sendas_Resolve acc st caller want).2 = GrantNone)).

(** ** Quotas and domains ([delivery.go]) *)

Definition perm (msg : bytes) : s_error := mkError None (Some msg) false.
Definition temp (msg : bytes) : s_error := mkError (Some msg) None false.

Definition over_quota (limit : Quota -> Z) (msg : bytes) (st : S) (path : bytes) : S * option s_error :=
  let '(st, ok) := mb_Open st path in
  (st, if negb ok then None
       else match mb_GetQuota st path with
            | None => None
            | Some q =>
                if limit q =? 0 then None
                else match mb_MailboxSize st path with
                     | None => None
                     | Some size => if limit q * 1024 <? size then Some (perm msg) else None
                     end
            end).
Definition overReceiveQuota (st : S) (path : bytes) : S * option s_error :=
  over_quota qt_ReceiveKB (lit "5.2.2 mailbox is full (over receive quota)") st path.
Definition overSendQuota (acc : Accounts) (st : S) (sender : bytes) : S * option s_error :=
  match ac_Resolve acc sender with
  | None => (st, None)
  | Some path => over_quota qt_SendKB (lit "5.2.2 mailbox is full (over send quota)") st path
  end.
End stores.

Definition isExternalDomain (acc : Accounts) (rcpt : bytes) : result unit bool :=
  match ac_IsLocalDomain acc with
  | None => Ok false
  | Some ld =>
      match cut_last 64 rcpt with
      | None | Some (_, []) => Ok false
      | Some (_, dom) => match ld dom with Err e => Err e | Ok l => Ok (negb l) end
      end
  end.
Definition isRelayable (acc : Accounts) (rcpt : bytes) : result unit bool :=
  match isExternalDomain acc rcpt with
  | Err e => Err e
  | Ok true => Ok true
  | Ok false =>
      match ac_SplitRelayHost acc, cut_last 64 rcpt with
      | Some sd, Some (local, dom) =>
          if beq local [] || EqualFold local (lit "postmaster") then Ok false
          else match sd dom with Err e => Err e | Ok host => Ok (negb (beq host [])) end
      | _, _ => Ok false
      end
  end.

(** ** Distribution lists ([mlist.go]) *)

Definition maxListDepth : nat := 20.

(** [room] is [maxListDepth - depth]: without room, a member is not looked into. *)
Fixpoint collectListMembers (exp : MListExpander) (from : bytes) (room : nat) : list bytes -> gset bytes -> list bytes -> gset bytes * list bytes :=
  fix members (addrs : list bytes) (seen : gset bytes) (leaves : list bytes) : gset bytes * list bytes :=
    match addrs with
    | [] => (seen, leaves)
    | m :: addrs =>
        let key := ToLower (TrimSpace m) in
        if beq key [] || bool_decide (key ∈ seen) then members addrs seen leaves
        else
          let seen := {[key]} ∪ seen in
          match room with
          | O => members addrs seen (leaves ++ [m])
          | Datatypes.S room =>
              match exp m from with
              | Err _ | Ok (_, MListNone) => members addrs seen (leaves ++ [m])
              | Ok (sub, MListOK) =>
                  let '(seen, leaves) := collectListMembers exp from room sub seen leaves in members addrs seen leaves
              | Ok _ => members addrs seen leaves
              end
          end
    end.

(** The members, whether [to] is a list, and the posting result *)
Definition expandMailingList (exp : MListExpander) (from to : bytes) : result unit (list bytes * bool * MListResult) :=
  match exp to from with
  | Err e => Err e
  | Ok (_, MListNone) => Ok ([], false, MListNone)
  | Ok (members, MListOK) =>
      Ok ((collectListMembers exp from (maxListDepth - 1) members {[ToLower (TrimSpace to)]} []).2, true, MListOK)
  | Ok (_, res) => Ok ([], true, res)
  end.

Fixpoint expand_recipients (exp : MListExpander) (from : bytes) (recipients leaves refused : list bytes) : list bytes * list bytes :=
  match recipients with
  | [] => (leaves, refused)
  | r :: recipients =>
      match expandMailingList exp from r with
      | Err _ | Ok (_, false, _) => expand_recipients exp from recipients (leaves ++ [r]) refused
      | Ok (ls, true, MListOK) => expand_recipients exp from recipients (leaves ++ ls) refused
      | Ok (_, true, _) => expand_recipients exp from recipients leaves (refused ++ [r])
      end
  end.
Definition expandRecipientList (acc : Accounts) (from : bytes) (recipients : list bytes) : list bytes * list bytes :=
  match ac_Expand acc with None => (recipients, []) | Some exp => expand_recipients exp from recipients [] [] end.

(** ** Forwards ([delivery.go]) *)

Definition forward_of (fwder : bytes -> result unit (option ForwardInfo)) (rcpt : bytes) : option ForwardInfo :=
  match fwder rcpt with
  | Err _ | Ok None => None
  | Ok (Some fi) => if beq (fw_Destination fi) [] || EqualFold (fw_Destination fi) rcpt then None else Some fi
  end.
Fixpoint apply_forwards (fwder : bytes -> result unit (option ForwardInfo)) (recipients : list bytes) (seen : gset bytes)
    (locals dests : list bytes) : list bytes * list bytes :=
  match recipients with
  | [] => (locals, dests)
  | rcpt :: recipients =>
      match forward_of fwder rcpt with
      | None => apply_forwards fwder recipients seen (locals ++ [rcpt]) dests
      | Some fi =>
          let locals := if fw_Type fi =? ForwardCC then locals ++ [rcpt] else locals in
          let dest := ToLower (TrimSpace (fw_Destination fi)) in
          if bool_decide (dest ∈ seen) then apply_forwards fwder recipients seen locals dests
          else apply_forwards fwder recipients ({[dest]} ∪ seen) locals (dests ++ [dest])
      end
  end.
Definition applyForwards (acc : Accounts) (recipients : list bytes) : list bytes * list bytes :=
  match ac_GetForward acc with None => (recipients, []) | Some fwder => apply_forwards fwder recipients ∅ [] [] end.
End fold.

(** ** The state of a delivery

    [mw_hooks] lists the calls of [OnRuleForward] (true) and [OnRuleSend], [mw_quarantine] the
    messages held back by the virus scanner, [mw_verdicts], [mw_dmarc] and [mw_reports] what was
    recorded for the administrator. *)

Record hook_call := mkHook { hk_forward : bool; hk_owner : bytes; hk_to : list bytes; hk_raw : bytes }.
Record QuarantineEntry := mkQuarantine {
  qe_Direction : bytes; qe_MailFrom : bytes; qe_Recipients : list bytes; qe_Subject : bytes; qe_VirusName : bytes; qe_InfectedFile : bytes; qe_DomainID : Z; qe_CreatedAt : Z }.
Record DMARCObservation := mkObservation {
  ob_PolicyDomain : bytes; ob_SourceIP : bytes; ob_EnvelopeFrom : bytes; ob_DKIM : bytes; ob_SPF : bytes; ob_Disposition : bytes;
  ob_DKIMResults : list (bytes * bytes); ob_SPFResults : list (bytes * bytes) }.
Record ReportSource := mkSource {
  rs_DomainID : Z; rs_ReceivedAt : Z; rs_MailFrom : bytes; rs_RemoteAddr : bytes; rs_SenderDKIM : option (AuthResult * list bytes) }.
(** Time, sender, address, score, and whether it was spam *)
Record SpamVerdict := mkSpamVerdict { sp_Time : Z; sp_MailFrom : bytes; sp_RemoteAddr : bytes; sp_Score : Z; sp_Spam : bool; sp_Reasons : list reason }.

(** [R] is the type of the reports [mailreport.Extract] finds. *)
Record mworld (S R : Type) := mkMWorld {
  mw_stores : S; mw_spool : Spool; mw_queued : nat; mw_out : option OutboundLimiter; mw_rate : option RateLimiter;
  mw_grey : option (Greylister * triplets); mw_auth : option Authlimit.Limiter; mw_hooks : list hook_call;
  mw_quarantine : list (Z * QuarantineEntry * bytes); mw_verdicts : list SpamVerdict; mw_dmarc : list (Z * DMARCObservation);
  mw_reports : list (ReportSource * R) }.
Arguments mkMWorld {S R} _ _ _ _ _ _ _ _ _ _ _ _.
Arguments mw_stores {S R} _. Arguments mw_spool {S R} _. Arguments mw_queued {S R} _. Arguments mw_out {S R} _.
Arguments mw_rate {S R} _. Arguments mw_grey {S R} _. Arguments mw_auth {S R} _. Arguments mw_hooks {S R} _.
Arguments mw_quarantine {S R} _. Arguments mw_verdicts {S R} _. Arguments mw_dmarc {S R} _. Arguments mw_reports {S R} _.

Section setters.
Context {S R : Type}.
Implicit Types w : mworld S R.
Definition set_stores (s : S) w : mworld S R :=
  mkMWorld s (mw_spool w) (mw_queued w) (mw_out w) (mw_rate w) (mw_grey w) (mw_auth w) (mw_hooks w) (mw_quarantine w) (mw_verdicts w) (mw_dmarc w) (mw_reports w).
Definition set_queue (sp : Spool) (n : nat) w : mworld S R :=
  mkMWorld (mw_stores w) sp n (mw_out w) (mw_rate w) (mw_grey w) (mw_auth w) (mw_hooks w) (mw_quarantine w) (mw_verdicts w) (mw_dmarc w) (mw_reports w).
Definition set_out (o : option OutboundLimiter) w : mworld S R :=
  mkMWorld (mw_stores w) (mw_spool w) (mw_queued w) o (mw_rate w) (mw_grey w) (mw_auth w) (mw_hooks w) (mw_quarantine w) (mw_verdicts w) (mw_dmarc w) (mw_reports w).
Definition set_rate (r : option RateLimiter) w : mworld S R :=
  mkMWorld (mw_stores w) (mw_spool w) (mw_queued w) (mw_out w) r (mw_grey w) (mw_auth w) (mw_hooks w) (mw_quarantine w) (mw_verdicts w) (mw_dmarc w) (mw_reports w).
Definition set_grey (g : option (Greylister * triplets)) w : mworld S R :=
  mkMWorld (mw_stores w) (mw_spool w) (mw_queued w) (mw_out w) (mw_rate w) g (mw_auth w) (mw_hooks w) (mw_quarantine w) (mw_verdicts w) (mw_dmarc w) (mw_reports w).
Definition set_auth (l : option Authlimit.Limiter) w : mworld S R :=
  mkMWorld (mw_stores w) (mw_spool w) (mw_queued w) (mw_out w) (mw_rate w) (mw_grey w) l (mw_hooks w) (mw_quarantine w) (mw_verdicts w) (mw_dmarc w) (mw_reports w).
Definition add_hook (h : hook_call) w : mworld S R :=
  mkMWorld (mw_stores w) (mw_spool w) (mw_queued w) (mw_out w) (mw_rate w) (mw_grey w) (mw_auth w) (mw_hooks w ++ [h]) (mw_quarantine w) (mw_verdicts w) (mw_dmarc w) (mw_reports w).
Definition add_quarantine (q : Z * QuarantineEntry * bytes) w : mworld S R :=
  mkMWorld (mw_stores w) (mw_spool w) (mw_queued w) (mw_out w) (mw_rate w) (mw_grey w) (mw_auth w) (mw_hooks w) (mw_quarantine w ++ [q]) (mw_verdicts w) (mw_dmarc w) (mw_reports w).
Definition add_verdict (v : SpamVerdict) w : mworld S R :=
  mkMWorld (mw_stores w) (mw_spool w) (mw_queued w) (mw_out w) (mw_rate w) (mw_grey w) (mw_auth w) (mw_hooks w) (mw_quarantine w) (mw_verdicts w ++ [v]) (mw_dmarc w) (mw_reports w).
Definition add_dmarc (o : Z * DMARCObservation) w : mworld S R :=
  mkMWorld (mw_stores w) (mw_spool w) (mw_queued w) (mw_out w) (mw_rate w) (mw_grey w) (mw_auth w) (mw_hooks w) (mw_quarantine w) (mw_verdicts w) (mw_dmarc w ++ [o]) (mw_reports w).
Definition add_report (r : ReportSource * R) w : mworld S R :=
  mkMWorld (mw_stores w) (mw_spool w) (mw_queued w) (mw_out w) (mw_rate w) (mw_grey w) (mw_auth w) (mw_hooks w) (mw_quarantine w) (mw_verdicts w) (mw_dmarc w) (mw_reports w ++ [r]).
End setters.

(** ** Antivirus settings ([avscan.go]) *)

Definition avMaxScan : Z := 25 * 1024 * 1024.
Inductive avMode := avInboundSMTP | avSubmission | avFetchmail | avStored.
#[export] Instance avMode_eq_dec : EqDecision avMode.
Proof. solve_decision. Defined.
Inductive avDecision := avProceed | avHandled | avTempFail.
#[export] Instance avDecision_eq_dec : EqDecision avDecision.
Proof. solve_decision. Defined.

(** [av_Scan] answers an error, clean ([Some None]) or the virus's name; [av_Quarantine] the new
    record's id, or an error *)
Record avConfig := mkAv {
  av_Scan : bytes -> option (option bytes); av_GetDomainAVScan : bytes -> option (bool * bool); av_DomainID : bytes -> option (option Z);
  av_QuarantineMessage : QuarantineEntry -> option Z; av_DomainOrgAdminEmails : Z -> option (list bytes); av_hostname : bytes; av_maxScan : Z }.

Section scan.
Context (av : avConfig).
Definition flags (domain : bytes) : option (bool * bool * Z) :=
  match av_GetDomainAVScan av domain with
  | None => None
  | Some (i, o) =>
      if negb i && negb o then None
      else match av_DomainID av domain with Some (Some id) => Some (i, o, id) | _ => None end
  end.
Fixpoint inboundScope (recipients : list bytes) : option Z :=
  match recipients with
  | [] => None
  | rcpt :: recipients => match flags (domainOf rcpt) with Some (true, _, id) => Some id | _ => inboundScope recipients end
  end.
Definition gate (mode : avMode) (from : bytes) (recipients : list bytes) : option (Z * bytes) :=
  let inbound :=
    match inboundScope recipients with
    | None => None
    | Some id => Some (id, if bool_decide (mode = avStored) then lit "stored" else lit "inbound")
    end in
  if bool_decide (mode = avSubmission) then
    match flags (domainOf from) with Some (_, true, id) => Some (id, lit "outbound") | _ => inbound end
  else inbound.
End scan.

(** What one call of the session meets outside: the directory, the clocks (nanoseconds) it
    reads, whether a spool write and the two greylist statements succeed, and the installed
    hooks and settings.  [en_disturb] is what others did to the stores since the last call. *)
Record env (S R : Type) := mkEnv {
  en_accounts : Accounts; en_disturb : S -> S; en_now : Z; en_clocks : Z * Z * Z * Z; en_spool_ok : bool; en_grey_ok : bool * bool;
  en_onForward : bool; en_onSend : bool; en_prefix : bytes; en_av : option avConfig; en_maxMessage : Z; en_scorer : option Scorer;
  en_history : option bool; en_dmarc : option bool; en_thresholds : option (bytes -> result unit (option Z));
  en_recipAccess : option (bytes -> result unit (list (bytes * bytes)));
  en_reports : option ((bytes -> option (option Z)) * (ReportSource -> R -> bool)) }.
Arguments en_accounts {S R} _. Arguments en_disturb {S R} _. Arguments en_now {S R} _. Arguments en_clocks {S R} _.
Arguments en_spool_ok {S R} _. Arguments en_grey_ok {S R} _. Arguments en_onForward {S R} _. Arguments en_onSend {S R} _.
Arguments en_prefix {S R} _. Arguments en_av {S R} _. Arguments en_maxMessage {S R} _. Arguments en_scorer {S R} _.
Arguments en_history {S R} _. Arguments en_dmarc {S R} _. Arguments en_thresholds {S R} _. Arguments en_recipAccess {S R} _.
Arguments en_reports {S R} _.

(** What the package uses of [net/mail], [mime], [net], the clock's format and its reports *)
Record libs (R : Type) := mkLibs {
  lb_ToLower : bytes -> bytes; lb_ParseAddress : bytes -> option bytes; lb_ParseAddressList : bytes -> option (list bytes);
  lb_address_String : bytes -> bytes -> bytes; lb_DecodeHeader : bytes -> option bytes; lb_q_encode : bytes -> bytes; lb_qp : bytes -> bytes;
  lb_date : Z -> bytes; lb_token : bytes; lb_boundary : bytes; lb_multipart : list (bytes * bytes) -> bytes;
  lb_clientIP : bytes -> bytes; lb_networkKey : bytes -> bytes; lb_publicsuffix : bytes -> option bytes;
  lb_Extract : bytes -> option R; lb_Domains : R -> list bytes }.
Arguments lb_ToLower {R} _. Arguments lb_ParseAddress {R} _. Arguments lb_ParseAddressList {R} _. Arguments lb_address_String {R} _.
Arguments lb_DecodeHeader {R} _. Arguments lb_q_encode {R} _. Arguments lb_qp {R} _. Arguments lb_date {R} _. Arguments lb_token {R} _.
Arguments lb_boundary {R} _. Arguments lb_multipart {R} _. Arguments lb_clientIP {R} _. Arguments lb_networkKey {R} _.
Arguments lb_publicsuffix {R} _. Arguments lb_Extract {R} _. Arguments lb_Domains {R} _.

(** [strings.Trim(s, "<>")], one end *)
Fixpoint drop_angles (s : bytes) : bytes := match s with b :: t => if (b =? 60) || (b =? 62) then drop_angles t else s | [] => [] end.

(** [strings.ToValidUTF8(s, "")]: the bytes that are no encoding are dropped. *)
Definition ToValidUTF8 (s : bytes) : bytes :=
  glue (List.filter (fun c => negb ((c.1 =? runeError) && (len c.2 =? 1))) (chunks s)).
Definition stripControl (s : bytes) : bytes :=
  string_of_runes (List.filter (fun r => negb ((r <? 0x20) || (r =? 0x7f))) (runes s)).
Fixpoint keyword_of (v : bytes) : bytes :=
  match v with b :: v => if existsb (Z.eqb b) (lit " ;(") then [] else b :: keyword_of v | [] => [] end.
Definition autoSubmittedKeyword (v : bytes) : bytes := TrimSpace (keyword_of v).
Definition maxOriginalSubject : Z := 200.
Definition ruleVacationSubject : bytes := lit "Automatic reply".
Definition forwardMarkerHeader : bytes := lit "X-HermEX-Forwarded".

(** The domains of both parts: [strings.Cut] at the first "@" *)
Definition cut_at (a : bytes) : option (bytes * bytes) := if existsb (Z.eqb 64) a then Some (Cut a 64) else None.
Definition sameDomain (a b : bytes) : bool :=
  match cut_at a, cut_at b with
  | Some (_, da), Some (_, db) => negb (beq da []) && EqualFold da db
  | _, _ => false
  end.

Section mta.
Context {S R : Type} `{!Mailboxes S} (L : libs R).
Implicit Types (w : mworld S R) (en : env S R).
Local Abbreviation ToLower := (lb_ToLower L).

(** ** Automatic replies ([autoreply.go]) *)

Definition bareAddress (s : bytes) : bytes :=
  let s := TrimSpace s in
  if beq s [] || beq s (lit "<>") then []
  else match lb_ParseAddress L s with
       | Some a => ToLower a
       | None => ToLower (rev (drop_angles (rev (drop_angles s))))
       end.

Definition isRoleMailbox (addr : bytes) : bool :=
  let local := ToLower (Cut addr 64).1 in
  existsb (beq local) [lit "postmaster"; lit "mailer-daemon"; lit "no-reply"; lit "noreply"; lit "do-not-reply"; lit "donotreply"].

Definition autoReplySuppressed (hdr : fields) (envelopeSender selfAddr : bytes) : bool :=
  let sender := bareAddress envelopeSender in
  if beq sender [] then true
  else if EqualFold sender (bareAddress selfAddr) then true
  else if isRoleMailbox sender then true
  else
    let v := TrimSpace (Get hdr (lit "Auto-Submitted")) in
    if negb (beq v []) && negb (EqualFold (autoSubmittedKeyword v) (lit "no")) then true
    else if existsb (beq (ToLower (TrimSpace (Get hdr (lit "Precedence"))))) [lit "bulk"; lit "list"; lit "junk"] then true
    else negb (beq (Get hdr (lit "List-Id")) []) || negb (beq (Get hdr (lit "List-Unsubscribe")) []) || negb (beq (Get hdr (lit "List-Post")) []).

(** The subject and the body of the reply, when one is sent *)
Definition autoReplyDecision (hdr : fields) (envelopeSender selfAddr : bytes) (cfg : OOFSettings) (internal senderKnown : bool) : option (bytes * bytes) :=
  if autoReplySuppressed hdr envelopeSender selfAddr then None
  else if internal then Some (of_InternalSubject cfg, of_InternalReply cfg)
  else if negb (of_ExternalEnabled cfg) then None
  else if (of_ExternalAudience cfg =? OOFExternalKnown) && negb senderKnown then None
  else Some (of_ExternalSubject cfg, of_ExternalReply cfg).

Definition currentAutoReplyPrefix en : bytes := match en_prefix en with [] => DefaultAutoReplyPrefix | p => p end.
Definition composeAutoReplySubject en (stored original : bytes) : bytes :=
  if negb (beq (TrimSpace stored) []) then stored
  else
    let prefix := currentAutoReplyPrefix en in
    let decoded := TrimSpace (stripControl (default original (lb_DecodeHeader L original))) in
    if beq decoded [] then prefix
    else
      let decoded := if maxOriginalSubject <? len decoded then ToValidUTF8 (take (Z.to_nat maxOriginalSubject) decoded) else decoded in
      prefix ++ lit ": " ++ decoded.

Definition senderIsKnown (st : S) (path : bytes) (cfg : OOFSettings) (to : bytes) (internal : bool) : option bool :=
  if internal || negb (of_ExternalEnabled cfg) || negb (of_ExternalAudience cfg =? OOFExternalKnown) then Some false
  else mb_ContactHasAddress st path to.

Definition reply_bytes (when : Z) (from to subject body inReplyTo : bytes) : bytes :=
  buildAutoReply (lb_q_encode L) (lb_qp L) (lb_date L when) (lb_token L) from to subject body inReplyTo.

(** The reply to a delivered message, if one is due: what it decides on is read, nothing written *)
Definition autoReply_of en w (path selfAddr envelopeSender raw : bytes) (received : Z) : option (bytes * bytes) :=
  cfg ← mb_GetOOFSettings (mw_stores w) path;
  if negb (OOFActive cfg (Unix received)) then None
  else
    hdr ← ReadMessage raw;
    let to := bareAddress envelopeSender in
    if beq to [] then None
    else
      let internal := match ac_Resolve (en_accounts en) to with Some _ => sameDomain to selfAddr | None => false end in
      known ← senderIsKnown (mw_stores w) path cfg to internal;
      '(subject, body) ← autoReplyDecision hdr envelopeSender selfAddr cfg internal known;
      Some (to, reply_bytes received selfAddr to (composeAutoReplySubject en subject (Get hdr (lit "Subject"))) body (Get hdr (lit "Message-ID"))).

(** ** Rules ([delivery.go]) *)

Definition runRuleForwards en (forwards : list (list bytes)) (hdr : fields) (owner raw : bytes) w : mworld S R :=
  if negb (en_onForward en) || negb (beq (Get hdr forwardMarkerHeader) []) then w
  else
    let marked := forwardMarkerHeader ++ lit ": " ++ owner ++ crlf ++ raw in
    foldl (fun w to => add_hook (mkHook true owner to marked) w) w forwards.
Definition bounce_bytes (when : Z) (reportingMTA sender failed reason : bytes) : bytes :=
  Bounce (lb_q_encode L) (lb_date L when) (lb_token L) (lb_boundary L) (lb_multipart L) reportingMTA sender failed reason.
Definition runRuleBounces (bounces : list bytes) (owner envelopeFrom : bytes) (received : Z) w : mworld S R :=
  foldl (fun w reason => add_hook (mkHook false owner [envelopeFrom] (bounce_bytes received (domainPart owner) envelopeFrom owner reason)) w) w bounces.
Definition runRuleAutoReplies (replies : list bytes) (hdr : fields) (owner envelopeFrom : bytes) (received : Z) w : mworld S R :=
  foldl (fun w text =>
    add_hook (mkHook false owner [envelopeFrom] (reply_bytes received owner envelopeFrom ruleVacationSubject text (Get hdr (lit "Message-ID")))) w) w replies.

Definition applyInboxRules en (path : bytes) (id : Z) (owner envelopeFrom raw : bytes) (received : Z) w : mworld S R :=
  let '(st, acts) := mb_ApplyInboxRules (mw_stores w) path id (Unix received) in
  let w := set_stores st w in
  match ReadMessage raw with
  | None => w
  | Some hdr =>
      if autoReplySuppressed hdr envelopeFrom owner then w
      else
        let w := runRuleForwards en (ra_Forwards acts) hdr owner raw w in
        if negb (en_onSend en) || beq envelopeFrom [] then w
        else runRuleAutoReplies (ra_AutoReplies acts) hdr owner envelopeFrom received (runRuleBounces (ra_Bounces acts) owner envelopeFrom received w)
  end.

(** The relayable ones among the recipients; an error stops the pass. *)
Fixpoint relayable_of (acc : Accounts) (rcpts : list bytes) : option (list bytes) :=
  match rcpts with
  | [] => Some []
  | r :: rcpts =>
      match isRelayable acc r with
      | Err _ => None
      | Ok b => out ← relayable_of acc rcpts; Some (if b : bool then r :: out else out)
      end
  end.
Definition relayAutomated en (owner : bytes) (unresolved : list bytes) (raw : bytes) w : mworld S R :=
  if negb (en_onSend en) then w
  else match relayable_of (en_accounts en) unresolved with
       | None | Some [] => w
       | Some out => add_hook (mkHook false owner out raw) w
       end.

(** ** Filing ([delivery.go]) *)

(** The unresolved recipients, and whether every resolved one was filed; [file] files into one
    mailbox.  Without a directory nothing is resolved. *)
Definition filer : Type := mworld S R -> bytes -> bytes -> bytes -> bytes -> bytes -> Z -> Z -> mworld S R * bool.
Fixpoint deliver_each (file : filer) (acc : Accounts) (from : bytes) (recipients : list bytes) (raw stored : bytes) (received : Z)
    (unresolved : list bytes) w : mworld S R * list bytes * bool :=
  match recipients with
  | [] => (w, unresolved, true)
  | rcpt :: recipients =>
      match ac_Resolve acc rcpt with
      | None => deliver_each file acc from recipients raw stored received (unresolved ++ [rcpt]) w
      | Some path =>
          let '(w, ok) := file w from rcpt path raw stored received PrivateFIDInbox in
          if ok : bool then deliver_each file acc from recipients raw stored received unresolved w else (w, unresolved, false)
      end
  end.

(** [sendAutoReply] behind its decision *)
Definition send_reply (file : filer) en (selfAddr to reply : bytes) (received : Z) w : mworld S R :=
  let '(w, unresolved, ok) := deliver_each file (en_accounts en) selfAddr [to] reply (withReturnPath reply selfAddr) received [] w in
  if ok : bool then relayAutomated en selfAddr unresolved reply w else w.

(** [fileDelivery] calls itself through the automatic reply; [depth] bounds the replies to
    replies. *)
Fixpoint file_at (depth : nat) en w (from rcptAddr path raw stored : bytes) (received folder : Z) : mworld S R * bool :=
  let '(st, opened) := mb_Open (mw_stores w) path in
  let w := set_stores st w in
  if negb opened then (w, false)
  else
    let '(st, info) := mb_AppendMessage (mw_stores w) path (ac_UserZone (en_accounts en) rcptAddr) folder stored received 0 in
    let w := set_stores st w in
    match info with
    | None => (w, false)
    | Some id =>
        if negb (folder =? PrivateFIDInbox) then (w, true)
        else
          let w := applyInboxRules en path id rcptAddr from raw received w in
          let '(st, handled) := mb_OnMeetingRequest (mw_stores w) path rcptAddr id in
          let w := set_stores st w in
          let w :=
            if handled then w
            else match autoReply_of en w path rcptAddr from raw received with
                 | None => w
                 | Some (to, reply) =>
                     match depth with
                     | O => w
                     | Datatypes.S depth => send_reply (file_at depth en) en rcptAddr to reply received w
                     end
                 end in
          let w := set_stores (mb_OnMeetingReply (mw_stores w) path from id) w in
          (set_stores (mb_OnMeetingCancel (mw_stores w) path from id) w, true)
    end.
(** An automatic reply is not answered automatically. *)
Definition fileDelivery en w := file_at 1 en w.

Definition deliver en w (from rcptAddr path raw : bytes) (received folder : Z) : mworld S R * bool :=
  fileDelivery en w from rcptAddr path raw (withReturnPath raw from) received folder.
Definition deliverEach en (dir : option Accounts) (from : bytes) (recipients : list bytes) (raw stored : bytes) (received : Z) w : mworld S R * list bytes * bool :=
  match dir with
  | None => (w, recipients, true)
  | Some acc => deliver_each (fileDelivery en) acc from recipients raw stored received [] w
  end.
Definition Deliver en (from : bytes) (recipients : list bytes) (raw : bytes) (received : Z) w : mworld S R * list bytes * bool :=
  deliverEach en (Some (en_accounts en)) from recipients raw (withReturnPath raw from) received w.
Definition DeliverRetrieved en (recipient raw : bytes) (received : Z) w : mworld S R * list bytes * bool :=
  deliverEach en (Some (en_accounts en)) [] [recipient] raw raw received w.

(** ** Antivirus ([avscan.go], [avnotify.go]) *)

Definition subjectOf (raw : bytes) : bytes :=
  match ReadMessage raw with
  | None => []
  | Some hdr => let subj := Get hdr (lit "Subject") in default subj (lb_DecodeHeader L subj)
  end.

Definition or_else (d s : bytes) : bytes := if beq s [] then d else s.
Definition quarantineNoticeText (e : QuarantineEntry) : bytes :=
  let subject := or_else (lit "(konusuz)") (oneLine (qe_Subject e)) in
  let virus := oneLine (qe_VirusName e) in
  let file := oneLine (qe_InfectedFile e) in
  let cause := if beq file [] then virus ++ lit " virüsü" else lit "'" ++ file ++ lit "' dosyasındaki " ++ virus ++ lit " virüsü" in
  (if beq (qe_Direction e) (lit "outbound") then
     lit "Gönderdiğiniz '" ++ subject ++ lit "' konulu mail, " ++ cause ++ lit " sebebiyle gönderilmeyip karantinaya alındı." ++ crlf ++ crlf
   else
     oneLine (qe_MailFrom e) ++ lit " adresinden gelen '" ++ subject ++ lit "' konulu mail, " ++ cause
       ++ lit " sebebiyle teslim edilmeyip karantinaya alındı." ++ crlf ++ crlf)
  ++ lit "Lütfen yöneticinize danışınız." ++ crlf.
Definition notice_fields (to hostname : bytes) (when : Z) : fields :=
  let hostname := or_else (lit "localhost") hostname in
  [(lit "From", lit "hermEX Antivirus <postmaster@" ++ hostname ++ lit ">"); (lit "To", to);
   (lit "Subject", lb_q_encode L (lit "Karantina bildirimi: virüs tespit edildi")); (lit "Date", lb_date L when);
   (lit "Message-ID", lit "<" ++ lb_token L ++ lit "@" ++ hostname ++ lit ">"); (lit "Auto-Submitted", lit "auto-generated");
   (lit "MIME-Version", lit "1.0"); (lit "Content-Type", lit "text/plain; charset=utf-8")].
Definition buildQuarantineNotice (e : QuarantineEntry) (to hostname : bytes) (when : Z) : bytes :=
  header_of (notice_fields to hostname when) ++ crlf ++ quarantineNoticeText e.

Fixpoint notice_list (addrs : list bytes) (seen : gset bytes) : list bytes :=
  match addrs with
  | [] => []
  | a :: addrs =>
      let a := ToLower (TrimSpace a) in
      if beq a [] || bool_decide (a ∈ seen) then notice_list addrs seen else a :: notice_list addrs ({[a]} ∪ seen)
  end.
Definition notifyQuarantine en (e : QuarantineEntry) (affected adminEmails : list bytes) (hostname : bytes) (when : Z) w : mworld S R :=
  foldl (fun w rcpt => (Deliver en [] [rcpt] (buildQuarantineNotice e rcpt hostname when) when w).1.1) w (notice_list (affected ++ adminEmails) ∅).
Definition fileQuarantine en (av : avConfig) (id : Z) (e : QuarantineEntry) (raw : bytes) (when : Z) w : mworld S R :=
  let w := add_quarantine (id, e, raw) w in
  let admins := default [] (av_DomainOrgAdminEmails av (qe_DomainID e)) in
  notifyQuarantine en e (if beq (qe_Direction e) (lit "outbound") then [qe_MailFrom e] else qe_Recipients e) admins (av_hostname av) when w.

Definition scanMessageLabelled en (mode : avMode) (from : bytes) (recipients : list bytes) (raw : bytes) (when : Z) (label : bytes) w : mworld S R * avDecision :=
  match en_av en with
  | None => (w, avProceed)
  | Some av =>
      match gate av mode from recipients with
      | None => (w, avProceed)
      | Some (scope, direction) =>
          if av_maxScan av <? len raw then (w, avProceed)
          else
            match av_Scan av raw with
            | None => (w, if bool_decide (mode = avInboundSMTP) then avTempFail else avProceed)
            | Some None => (w, avProceed)
            | Some (Some virus) =>
                let entry := mkQuarantine direction from recipients (if beq label [] then subjectOf raw else label) virus [] scope (Unix when) in
                match av_QuarantineMessage av entry with
                | None => (w, if bool_decide (mode = avInboundSMTP) then avTempFail else avHandled)
                | Some id => (fileQuarantine en av id entry raw when w, avHandled)
                end
            end
      end
  end.
Definition scanMessage en (mode : avMode) (from : bytes) (recipients : list bytes) (raw : bytes) (when : Z) w : mworld S R * avDecision :=
  scanMessageLabelled en mode from recipients raw when [] w.
Definition ScanFetched en (mailbox raw : bytes) (when : Z) w : mworld S R * bool :=
  let '(w, d) := scanMessage en avFetchmail [] [mailbox] raw when w in (w, bool_decide (d = avHandled)).
Definition ScanStored en (owner label raw : bytes) (when : Z) w : mworld S R * bool :=
  let '(w, d) := scanMessageLabelled en avStored owner [owner] raw when label w in (w, bool_decide (d = avHandled)).

(** ** Submission outside SMTP ([delivery.go], [outboundapply.go], [sizelimit.go], [sentcopy.go]) *)

Inductive send_error := ErrMessageTooLarge | ErrVirusBlocked | ErrOverQuota (e : s_error) | ErrOutboundLimited | ErrStore.

Definition overMessageSize en (raw : bytes) : bool := (0 <? en_maxMessage en) && (en_maxMessage en <? len raw).

Definition allow_outbound (now : Z) (user : bytes) w : mworld S R * bool :=
  match mw_out w with
  | None => (w, true)
  | Some l => let '(l, ok, _) := ol_Allow l now user in (set_out (Some l) w, ok)
  end.
Fixpoint limitOutbound en (from : bytes) (recipients : list bytes) w : mworld S R * bool :=
  match recipients with
  | [] => (w, true)
  | rcpt :: recipients =>
      match isExternalDomain (en_accounts en) rcpt with
      | Ok true => let '(w, ok) := allow_outbound (en_now en) from w in if ok : bool then limitOutbound en from recipients w else (w, false)
      | _ => limitOutbound en from recipients w
      end
  end.

Definition outgoingCopies en (from raw : bytes) : bytes * bytes :=
  match ac_OutgoingDisplayNames (en_accounts en) with
  | None => (raw, raw)
  | Some f =>
      match f from with
      | Err _ => (raw, raw)
      | Ok (i, e) => (RewriteFromDisplayName (lb_ParseAddress L) (lb_address_String L) raw i,
                      RewriteFromDisplayName (lb_ParseAddress L) (lb_address_String L) raw e)
      end
  end.

(** [spool.Enqueue] in seconds, with the spool's own signer; a failed write leaves it as it is *)
Definition enqueue en (sign : bytes -> bytes) (from ret envid : bytes) (rcpts : list DSNRecipient) (body : bytes) (received : Z) w : mworld S R * bool :=
  if en_spool_ok en then (set_queue (EnqueueDSN sign (mw_spool w) (mw_queued w) from ret envid rcpts body (Unix received)) (mw_queued w + length rcpts) w, true)
  else (w, false).

(** [ruleHook] of [cmd/mta]: the mail a rule sends is queued for its owner under the outbound cap. *)
Definition ruleHook en (sign : bytes -> bytes) (h : hook_call) w : mworld S R :=
  let '(w, ok) := allow_outbound (en_now en) (hk_owner h) w in
  if negb ok then w else (enqueue en sign (hk_owner h) [] [] (map (fun r => mkDSN r [] []) (hk_to h)) (hk_raw h) (en_now en) w).1.

Definition is_relayable (acc : Accounts) (rcpt : bytes) : bool := match isRelayable acc rcpt with Ok b => b | Err _ => false end.
Definition relayUnresolved en (sign : bytes -> bytes) (from : bytes) (unresolved : list bytes) (relayRaw : bytes) (received : Z) w : mworld S R * list bytes * bool :=
  let external := List.filter (is_relayable (en_accounts en)) unresolved in
  let stuck := List.filter (fun r => negb (is_relayable (en_accounts en) r)) unresolved in
  match external with
  | [] => (w, stuck, true)
  | _ => let '(w, ok) := enqueue en sign from [] [] (map (fun r => mkDSN r [] []) external) relayRaw received w in (w, stuck, ok)
  end.

(** The recipients left over, and the copy local recipients got or the error; [spool] is the
    signer of the spool, when there is one. *)
Definition deliverAndRelay en (spool : option (bytes -> bytes)) (from envelope : bytes) (recipients : list bytes) (raw : bytes) (received : Z) w
  : mworld S R * list bytes * (send_error + bytes) :=
  if overMessageSize en raw then (w, recipients, inl ErrMessageTooLarge)
  else
    let '(w, d) := scanMessage en avSubmission from recipients raw received w in
    if bool_decide (d = avHandled) then (w, [], inl ErrVirusBlocked)
    else
      let '(st, q) := overSendQuota (en_accounts en) (mw_stores w) from in
      let w := set_stores st w in
      match q with
      | Some e => (w, recipients, inl (ErrOverQuota e))
      | None =>
          let '(w, ok) := match spool with None => (w, true) | Some _ => limitOutbound en from recipients w end in
          if negb ok then (w, recipients, inl ErrOutboundLimited)
          else
            let '(leaves, refused) := expandRecipientList ToLower (en_accounts en) from recipients in
            let '(leaves, dests) := applyForwards ToLower (en_accounts en) leaves in
            let '(localRaw, relayRaw) := outgoingCopies en from raw in
            let '(w, unresolved, ok) := Deliver en envelope (leaves ++ dests) localRaw received w in
            if negb ok then (w, unresolved ++ refused, inl ErrStore)
            else
              match spool, unresolved with
              | Some sign, _ :: _ =>
                  let '(w, stuck, ok) := relayUnresolved en sign envelope unresolved relayRaw received w in
                  (w, stuck ++ refused, if ok : bool then inr localRaw else inl ErrStore)
              | _, _ => (w, unresolved ++ refused, inr localRaw)
              end
      end.

Definition singleAddress (field : bytes) : option bytes :=
  if beq (TrimSpace field) [] then None
  else match lb_ParseAddressList L field with Some [a] => Some a | _ => None end.
(** The mailbox a message was sent in the name of, and whether on its behalf *)
Definition representedMailbox en (envelopeFrom raw : bytes) : option (bytes * bool) :=
  hdr ← ReadMessage raw;
  from ← singleAddress (Get hdr (lit "From"));
  reprPath ← ac_Resolve (en_accounts en) from;
  if match ac_Resolve (en_accounts en) envelopeFrom with Some p => beq p reprPath | None => false end then None
  else Some (reprPath, match singleAddress (Get hdr (lit "Sender")) with Some _ => true | None => false end).
Definition fileRepresentedCopy en (envelopeFrom raw : bytes) (sent : Z) w : mworld S R * bool :=
  match representedMailbox en envelopeFrom raw with
  | None => (w, false)
  | Some (path, onBehalf) =>
      if negb (mb_OpenExisting (mw_stores w) path) then (w, false)
      else
        match mb_GetSentCopyConfig (mw_stores w) path with
        | None => (w, false)
        | Some cfg =>
            if (onBehalf && negb (sc_ForSendOnBehalf cfg)) || (negb onBehalf && negb (sc_ForSendAs cfg)) then (w, false)
            else
              let '(st, info) := mb_AppendMessage (mw_stores w) path [] PrivateFIDSentItems raw sent FlagSeen in
              (set_stores st w, match info with None => false | Some _ => sc_Exclusive cfg end)
        end
  end.
Definition SendAndRelay en (spool : option (bytes -> bytes)) (from : bytes) (recipients : list bytes) (raw : bytes) (received : Z) w
  : mworld S R * list bytes * bool * option send_error :=
  let '(w, unresolved, r) := deliverAndRelay en spool from from recipients raw received w in
  match r with
  | inl e => (w, unresolved, true, Some e)
  | inr localRaw => let '(w, only) := fileRepresentedCopy en from localRaw received w in (w, unresolved, negb only, None)
  end.
Definition DeliverAndRelay en (spool : option (bytes -> bytes)) (from : bytes) (recipients : list bytes) (raw : bytes) (received : Z) w
  : mworld S R * list bytes * option send_error :=
  let '(w, unresolved, _, e) := SendAndRelay en spool from recipients raw received w in (w, unresolved, e).
Definition SendReport en (spool : option (bytes -> bytes)) (account : bytes) (recipients : list bytes) (raw : bytes) (received : Z) w
  : mworld S R * list bytes * option send_error :=
  let '(w, unresolved, r) := deliverAndRelay en spool account [] recipients raw received w in
  (w, unresolved, match r with inl e => Some e | inr _ => None end).
Definition SendRenderings en (spool : option (bytes -> bytes)) (from : bytes) (plainTo : list bytes) (plain : bytes) (richTo : list bytes) (rich : bytes)
    (received : Z) w : mworld S R * bool * option send_error :=
  match plainTo with
  | [] => let '(w, _, keep, e) := SendAndRelay en spool from richTo rich received w in (w, keep, e)
  | _ =>
      let '(w, _, keep, e) := SendAndRelay en spool from plainTo plain received w in
      match e, richTo with
      | Some e, _ => (w, keep, Some e)
      | None, [] => (w, keep, None)
      | None, _ =>
          let '(w, _, r) := deliverAndRelay en spool from from richTo rich received w in
          (w, keep, match r with inl e => Some e | inr _ => None end)
      end
  end.

(** ** The SMTP session ([delivery.go]) *)

Record target := mkTarget { tg_addr : bytes; tg_path : bytes; tg_catchAll : bool }.
Record session := mkSession {
  ss_remoteAddr : bytes; ss_from : bytes; ss_targets : list target; ss_relayTargets : list DSNRecipient; ss_ret : bytes; ss_envid : bytes;
  ss_authUser : bytes; ss_authMailbox : bytes }.
Definition NewSession (remoteAddr : bytes) : session := mkSession remoteAddr [] [] [] [] [] [] [].
Definition set_envelope (from ret envid : bytes) (s : session) : session :=
  mkSession (ss_remoteAddr s) from (ss_targets s) (ss_relayTargets s) ret envid (ss_authUser s) (ss_authMailbox s).
Definition add_target (t : target) (s : session) : session :=
  mkSession (ss_remoteAddr s) (ss_from s) (ss_targets s ++ [t]) (ss_relayTargets s) (ss_ret s) (ss_envid s) (ss_authUser s) (ss_authMailbox s).
Definition add_relay (d : DSNRecipient) (s : session) : session :=
  mkSession (ss_remoteAddr s) (ss_from s) (ss_targets s) (ss_relayTargets s ++ [d]) (ss_ret s) (ss_envid s) (ss_authUser s) (ss_authMailbox s).
Definition set_user (user path : bytes) (s : session) : session :=
  mkSession (ss_remoteAddr s) (ss_from s) (ss_targets s) (ss_relayTargets s) (ss_ret s) (ss_envid s) user path.

Definition Auth en (s : session) w (username password : bytes) : session * mworld S R * bool :=
  match ac_Authenticate (en_accounts en) with
  | None => (s, w, false)
  | Some authn =>
      let '(t1, t2, t3, t4) := en_clocks en in
      if match mw_auth w with Some l => negb (Authlimit.Allowed TrimSpace ToLower l t1 t2 (ss_remoteAddr s) username) | None => false end then (s, w, false)
      else
        match authn username password with
        | None =>
            (s, match mw_auth w with Some l => set_auth (Some (Authlimit.Fail TrimSpace ToLower l t3 t4 (ss_remoteAddr s) username)) w | None => w end, false)
        | Some path =>
            let w := match mw_auth w with Some l => set_auth (Some (Authlimit.Succeed TrimSpace ToLower l (ss_remoteAddr s) username)) w | None => w end in
            if negb (ac_SMTP (en_accounts en) username) then (s, w, false) else (set_user username path s, w, true)
        end
  end.

Definition authorizedSender en w (s : session) (from : bytes) : bool := Allows ToLower (en_accounts en) (mw_stores w) (ss_authUser s) from.

Definition Mail en (s : session) w (from : bytes) (params : MailParams) : session * mworld S R * option s_error :=
  if negb (beq (ss_authUser s) []) && negb (authorizedSender en w s from) then
    (s, w, Some (perm (lit "5.7.1 <" ++ from ++ lit "> is not an address you may send as")))
  else
    let '(w, q) :=
      if negb (beq (ss_authUser s) []) then let '(st, q) := overSendQuota (en_accounts en) (mw_stores w) from in (set_stores st w, q) else (w, None) in
    match q with
    | Some e => (s, w, Some e)
    | None =>
        let '(w, ok) :=
          if beq (ss_authUser s) [] then
            match mw_rate w with
            | None => (w, true)
            | Some l => let '(l, ok) := rl_Allow l (en_now en) (lb_networkKey L (lb_clientIP L (ss_remoteAddr s))) in (set_rate (Some l) w, ok)
            end
          else (w, true) in
        if negb ok then (s, w, Some (temp (lit "4.7.1 too many messages, please retry later")))
        else (set_envelope from (mp_RET params) (mp_ENVID params) s, w, None)
    end.

Definition tempRouteFailure : s_error := temp (lit "4.3.0 temporary routing failure, please retry later").

Definition should_defer en (s : session) (to : bytes) w : mworld S R * bool :=
  match mw_grey w with
  | None => (w, false)
  | Some (g, db) =>
      let allowlisted from := match en_scorer en with Some sc => Allowlisted ToLower sc from [] | None => false end in
      let '(db, d) := ShouldDefer ToLower allowlisted g (en_grey_ok en).1 (en_grey_ok en).2 db (en_now en) (lb_networkKey L (lb_clientIP L (ss_remoteAddr s))) (ss_from s) to in
      (set_grey (Some (g, db)) w, d)
  end.
Definition routeLocal en (s : session) w (to path : bytes) (catchAll : bool) : session * mworld S R * option s_error :=
  let '(st, q) := overReceiveQuota (mw_stores w) path in
  let w := set_stores st w in
  match q with
  | Some e => (s, w, Some e)
  | None =>
      let '(w, d) := if beq (ss_authUser s) [] then should_defer en s to w else (w, false) in
      if d : bool then (s, w, Some (temp (lit "4.7.1 greylisted, please retry shortly")))
      else (add_target (mkTarget to path catchAll) s, w, None)
  end.
(** The target [routeLocal] adds, marked *)
Definition routeCatchAll en (s : session) w (to path : bytes) : session * mworld S R * option s_error := routeLocal en s w to path true.

(** [spool] says whether the backend relays at all. *)
Definition routeRecipient en (spool : bool) (s : session) w (to notify orcpt : bytes) : session * mworld S R * option s_error :=
  match ac_Resolve (en_accounts en) to with
  | Some path => routeLocal en s w to path false
  | None =>
      match match ac_CatchAll (en_accounts en) with Some catch => catch to | None => None end with
      | Some path => routeCatchAll en s w to path
      | None =>
          if beq (ss_authUser s) [] then (s, w, Some (perm (lit "relay denied for <" ++ to ++ lit ">")))
          else
            match isRelayable (en_accounts en) to with
            | Err _ => (s, w, Some tempRouteFailure)
            | Ok false => (s, w, Some (perm (lit "no such user <" ++ to ++ lit ">")))
            | Ok true =>
                if negb spool then (s, w, Some (perm (lit "relay denied for <" ++ to ++ lit ">")))
                else
                  let '(w, ok) := allow_outbound (en_now en) (ss_authUser s) w in
                  if negb ok then (s, w, Some (temp (lit "4.7.4 too many recipients in a short time, please retry later")))
                  else (add_relay (mkDSN to notify orcpt) s, w, None)
            end
      end
  end.

Definition routeListMember en (spool : bool) (notify : bytes) (sw : session * mworld S R) (m : bytes) : session * mworld S R :=
  let '(s, w) := sw in
  match ac_Resolve (en_accounts en) m with
  | Some path =>
      let '(st, q) := overReceiveQuota (mw_stores w) path in
      (match q with None => add_target (mkTarget m path false) s | Some _ => s end, set_stores st w)
  | None => (if spool && is_relayable (en_accounts en) m then add_relay (mkDSN m notify []) s else s, w)
  end.

Definition Rcpt en (spool : bool) (s : session) w (to : bytes) (params : RcptParams) : session * mworld S R * option s_error :=
  match ac_Expand (en_accounts en) with
  | None => routeRecipient en spool s w to (rp_Notify params) (rp_ORCPT params)
  | Some exp =>
      match expandMailingList ToLower exp (ss_from s) to with
      | Err _ => (s, w, Some tempRouteFailure)
      | Ok (leaves, true, res) =>
          if negb (bool_decide (res = MListOK)) then (s, w, Some (perm (lit "5.7.1 posting to list <" ++ to ++ lit "> is not permitted")))
          else (foldl (routeListMember en spool (rp_Notify params)) (s, w) leaves, None)
      | Ok (_, false, _) => routeRecipient en spool s w to (rp_Notify params) (rp_ORCPT params)
      end
  end.

Definition relayAddrs (rs : list DSNRecipient) : list bytes := map ds_Addr rs.
Definition avRecipients (local : list target) (relay : list bytes) : list bytes := map tg_addr local ++ relay.
Definition avVerdict en (s : session) (raw : bytes) (received : Z) w : mworld S R * avDecision :=
  scanMessage en (if beq (ss_authUser s) [] then avInboundSMTP else avSubmission) (ss_from s)
    (avRecipients (ss_targets s) (relayAddrs (ss_relayTargets s))) raw received w.

(** *** The spam verdict and each recipient's filing *)

Record scoring := mkScoring { sg_scored : bool; sg_verdict : Verdict; sg_fromDom : bytes; sg_raw : bytes; sg_original : bytes; sg_folder : Z }.

Definition fromHeaderDomain (raw : bytes) : bytes :=
  match ReadMessage raw with
  | None => []
  | Some hdr =>
      match lb_ParseAddress L (Get hdr (lit "From")) with
      | None => []
      | Some addr => match cut_last 64 addr with Some (_, d) => ToLower d | None => [] end
      end
  end.

(** *** DMARC observations ([dmarc.go]) *)

Definition maxReportedDomain : nat := 253.
Definition capDomain (d : bytes) : bytes := take maxReportedDomain d.
Definition senderDomain (addr : bytes) : bytes := match cut_at (ToLower (TrimSpace addr)) with Some (_, dom) => dom | None => [] end.
Definition passOrFail (ok : bool) : bytes := if ok then lit "pass" else lit "fail".
Definition dmarcDisposition (v : Verdict) : bytes := if vd_DMARCReject v && vd_Spam v then lit "quarantine" else lit "none".
Definition dkimAuthResults (l : list DKIMResult) : list (bytes * bytes) :=
  map (fun d => (capDomain (ToLower (dk_Domain d)), passOrFail (dk_Valid d))) l.
Definition auth_name (a : AuthResult) : bytes :=
  match a with
  | AuthPass => lit "pass" | AuthFail => lit "fail" | AuthSoftFail => lit "softfail" | AuthNeutral => lit "neutral" | AuthNone => lit "none"
  | AuthError => lit "error"
  end.
Definition spfAuthResult (envDomain policyDomain : bytes) (spf : AuthResult) : bytes * bytes :=
  if beq envDomain [] then (policyDomain, lit "none")
  else (envDomain, match spf with AuthError => lit "temperror" | a => auth_name a end).
(** [en_dmarc] and [en_history] say whether a recorder is there and whether its write succeeds. *)
Definition recordDMARC en (s : session) (sc : scoring) (ip : bytes) (received : Z) w : mworld S R :=
  let v := sg_verdict sc in
  match en_dmarc en with
  | Some true =>
      if negb (vd_DMARCReports v) || beq ip [] || beq (sg_fromDom sc) [] then w
      else
        let policyDomain := capDomain (ToLower (sg_fromDom sc)) in
        let envDomain := capDomain (senderDomain (ss_from s)) in
        add_dmarc (received, mkObservation policyDomain ip envDomain (passOrFail (vd_DMARCDKIMAligned v)) (passOrFail (vd_DMARCSPFAligned v))
          (dmarcDisposition v) (dkimAuthResults (vd_DKIMResults v)) [spfAuthResult envDomain policyDomain (vd_SPF v)]) w
  | _ => w
  end.
Definition recordVerdict en (s : session) (v : Verdict) (ip : bytes) (received : Z) w : mworld S R :=
  match en_history en with
  | Some true => add_verdict (mkSpamVerdict (Unix received) (ss_from s) ip (vd_Score v) (vd_Spam v) (vd_Reasons v)) w
  | _ => w
  end.

Definition scoreInbound en (s : session) (raw : bytes) (received : Z) w : mworld S R * scoring :=
  match en_scorer en with
  | Some scorer =>
      if beq (ss_authUser s) [] && negb (bool_decide (ss_targets s = [])) then
        let ip := lb_clientIP L (ss_remoteAddr s) in
        let fromDom := fromHeaderDomain raw in
        let v := Score ToLower (lb_publicsuffix L) scorer (mkInput raw ip [] (ss_from s) fromDom) in
        let sc := mkScoring true v fromDom (Tag raw v) raw (if vd_Spam v then PrivateFIDJunk else PrivateFIDInbox) in
        (recordDMARC en s sc ip received (recordVerdict en s v ip received w), sc)
      else (w, mkScoring false emptyVerdict [] raw raw PrivateFIDInbox)
  | None => (w, mkScoring false emptyVerdict [] raw raw PrivateFIDInbox)
  end.

Definition retagged (sc : scoring) (spam : bool) : bytes := Tag (sg_original sc) (set_spam spam (sg_verdict sc)).
Definition recipientAction en (s : session) (t : target) (sc : scoring) : bytes :=
  match en_recipAccess en with
  | None => []
  | Some f =>
      if beq (vd_AccessAction (sg_verdict sc)) AccessBlock then []
      else match f (tg_path t) with
           | Err _ | Ok [] => []
           | Ok rules => Action ToLower (Some (NewAccessList ToLower rules)) (ss_from s) (sg_fromDom sc)
           end
  end.
Definition thresholdFiling en (t : target) (sc : scoring) : bytes * Z :=
  match en_thresholds en with
  | None => (sg_raw sc, sg_folder sc)
  | Some f =>
      match f (tg_path t) with
      | Ok (Some override) =>
          let spam := override <=? vd_Score (sg_verdict sc) in
          (retagged sc spam, if spam then PrivateFIDJunk else PrivateFIDInbox)
      | _ => (sg_raw sc, sg_folder sc)
      end
  end.
Definition recipientFiling en (s : session) (t : target) (sc : scoring) : bytes * Z :=
  if negb (sg_scored sc) then (sg_raw sc, sg_folder sc)
  else
    let v := sg_verdict sc in
    let userAction := recipientAction en s t sc in
    if beq (vd_AccessAction v) AccessBlock then (sg_raw sc, sg_folder sc)
    else if beq userAction AccessBlock then (retagged sc true, PrivateFIDJunk)
    else if beq (vd_AccessAction v) AccessAllow then (sg_raw sc, sg_folder sc)
    else if beq userAction AccessAllow && negb (vd_DMARCReject v) then (retagged sc false, PrivateFIDInbox)
    else thresholdFiling en t sc.

Fixpoint deliverTargets en (s : session) (sc : scoring) (received : Z) (targets : list target) w : mworld S R * bool :=
  match targets with
  | [] => (w, true)
  | t :: targets =>
      let '(tRaw, tFolder) := recipientFiling en s t sc in
      let '(w, ok) := deliver en w (ss_from s) (tg_addr t) (tg_path t) (markCatchAll (tg_catchAll t) (tg_addr t) tRaw) received tFolder in
      if ok : bool then deliverTargets en s sc received targets w else (w, false)
  end.

Definition queueRelay en (sign : bytes -> bytes) (s : session) (raw : bytes) (received : Z) w : mworld S R * bool :=
  match ss_relayTargets s with
  | [] => (w, true)
  | rcpts => enqueue en sign (ss_from s) (ss_ret s) (ss_envid s) rcpts raw received w
  end.

(** *** Reports to postmaster ([reports.go]) *)

Definition reportMailbox : bytes := lit "postmaster".
Definition postmasterDomains (s : session) : list bytes :=
  omap (fun t => match cut_at (tg_addr t) with Some (local, dom) => if EqualFold local reportMailbox then Some (ToLower dom) else None | None => None end) (ss_targets s).
Definition soleDomain (res : R) : option bytes :=
  match lb_Domains L res with
  | [] => None
  | n :: names => if beq n [] || existsb (fun m => negb (beq m n)) names then None else Some n
  end.
Definition reportDomain (res : R) (addressed : list bytes) : option bytes :=
  d ← soleDomain res; if existsb (beq d) addressed then Some d else None.
(** The recorder answers a domain's id (or an error) and whether the report was stored. *)
Definition storeReport (rec : (bytes -> option (option Z)) * (ReportSource -> R -> bool)) (res : R) (domain : bytes) (src : ReportSource) w : mworld S R :=
  match rec.1 domain with
  | Some (Some id) =>
      let src := mkSource id (rs_ReceivedAt src) (rs_MailFrom src) (rs_RemoteAddr src) (rs_SenderDKIM src) in
      if rec.2 src res then add_report (src, res) w else w
  | _ => w
  end.
Definition ingestReports en (s : session) (raw : bytes) (received : Z) (sc : scoring) w : mworld S R :=
  match en_reports en with
  | None => w
  | Some rec =>
      if negb (beq (ss_authUser s) []) then w
      else
        match postmasterDomains s with
        | [] => w
        | domains =>
            match res ← lb_Extract L raw; d ← reportDomain res domains; Some (res, d) with
            | None => w
            | Some (res, domain) =>
                storeReport rec res domain
                  (mkSource 0 (Unix received) (ss_from s) (ss_remoteAddr s)
                     (if sg_scored sc then Some (vd_DKIM (sg_verdict sc), vd_DKIMDomains (sg_verdict sc)) else None)) w
            end
        end
  end.

Definition Data en (sign : bytes -> bytes) (s : session) w (raw : bytes) (e : ending) : session * mworld S R * option s_error :=
  match e with
  | EndTooLarge => (s, w, Some (temp (lit "4.3.0 could not read the message, please retry later")))
  | EndEOF =>
      let received := en_now en in
      let '(w, d) := avVerdict en s raw received w in
      match d with
      | avTempFail => (s, w, Some (temp (lit "4.7.1 virus scanner temporarily unavailable, retry later")))
      | avHandled => (s, w, None)
      | avProceed =>
          let '(w, sc) := scoreInbound en s raw received w in
          let '(w, ok) := deliverTargets en s sc received (ss_targets s) w in
          if negb ok then (s, w, Some (temp (lit "4.3.0 could not deliver the message, please retry later")))
          else
            let '(w, ok) := queueRelay en sign s raw received w in
            if negb ok then (s, w, Some (temp (lit "4.3.0 could not queue the message, please retry later")))
            else (s, ingestReports en s raw received sc w, None)
      end
  end.

Definition Reset (s : session) : session := mkSession (ss_remoteAddr s) [] [] [] [] [] (ss_authUser s) (ss_authMailbox s).

(** ** The backend of [internal/smtp]

    [envs] is what each call of the backend meets; [bs_calls] numbers the calls. *)

Record backend := mkBackend { bs_session : session; bs_world : mworld S R; bs_calls : nat }.
Context (envs : nat -> env S R) (spool : option (bytes -> bytes)).
Definition enter (b : backend) : env S R * mworld S R :=
  let en := envs (bs_calls b) in (en, set_stores (en_disturb en (mw_stores (bs_world b))) (bs_world b)).
Definition leave {A} (b : backend) (r : session * mworld S R * A) : backend * A := (mkBackend r.1.1 r.1.2 (Datatypes.S (bs_calls b)), r.2).
Definition has_spool : bool := match spool with Some _ => true | None => false end.
Definition signer : bytes -> bytes := match spool with Some f => f | None => id end.

#[export] Instance mta_Session : Session backend := {|
  se_Mail b from p := let '(en, w) := enter b in leave b (Mail en (bs_session b) w from p);
  se_Rcpt b to p := let '(en, w) := enter b in leave b (Rcpt en has_spool (bs_session b) w to p);
  se_Data b raw e := let '(en, w) := enter b in leave b (Data en signer (bs_session b) w raw e);
  se_Reset b := mkBackend (Reset (bs_session b)) (bs_world b) (Datatypes.S (bs_calls b));
  se_Logout b := b;
  se_Auth := Some (fun b user password => let '(en, w) := enter b in leave b (Auth en (bs_session b) w user password)) |}.
End mta.
