(* ===== verification/MtaProofs.v ===== *)
(** * What mail delivery guarantees ([internal/mta])

    No open relay, what a 250 promises, list expansion, the end of automatic replies, and how a
    message is filed. *)

From stdpp Require Import base list numbers gmap relations.
From Stdlib Require Import ZArith Lia.
From Stdlib Require String.
Import String.StringSyntax.
From S2P Require Import Prelude Utf Limitbase Authlimit Netline Gostr Smtp SmtpProofs Mtalimit Mailhdr MailhdrProofs Relay RelayProofs SmtpInv Antispam Mta.
Open Scope Z_scope.
#[local] Arguments lit : simpl never.

(** ** What delivery does to its world

    A preorder that the primitive steps of a delivery respect is respected by every delivery.
    An audience says who may be answered and which address belongs to which mailbox; the mail a
    delivery hands to the rule hooks is permitted to it. *)

Record audience := mkAudience { au_sender : bytes -> Prop; au_box : bytes -> bytes -> Prop }.
Definition everyone : audience := mkAudience (fun _ => True) (fun _ _ => True).

(** A forward goes where the rules of the owner's mailbox say, an answer to a sender. *)
Definition permitted {S R : Type} `{!Mailboxes S} (L : libs R) (A : audience) (h : hook_call) : Prop :=
  (exists path, au_box A (hk_owner h) path
     /\ (hk_forward h = true -> exists st id t, hk_to h ∈ ra_Forwards (mb_ApplyInboxRules st path id t).2))
  /\ (hk_forward h = false -> Forall (fun a => exists f, au_sender A f /\ (a = f \/ a = bareAddress L f)) (hk_to h)).

(** Mailboxes may be answered, and what the directory resolves is a mailbox. *)
Record closed {S R : Type} (A : audience) (en : env S R) : Prop := {
  cl_box a p : au_box A a p -> au_sender A a;
  cl_local r p : ac_Resolve (en_accounts en) r = Some p -> au_box A r p }.

Record respected {S R : Type} `{!Mailboxes S} (L : libs R) (A : audience) (Q : relation (mworld S R)) : Prop := {
  q_order : PreOrder Q;
  q_open w path : Q w (set_stores (mb_Open (mw_stores w) path).1 w);
  q_append w path zone folder raw t fl : Q w (set_stores (mb_AppendMessage (mw_stores w) path zone folder raw t fl).1 w);
  q_rules w path id t : Q w (set_stores (mb_ApplyInboxRules (mw_stores w) path id t).1 w);
  q_request w path rcpt id : Q w (set_stores (mb_OnMeetingRequest (mw_stores w) path rcpt id).1 w);
  q_reply w path from id : Q w (set_stores (mb_OnMeetingReply (mw_stores w) path from id) w);
  q_cancel w path from id : Q w (set_stores (mb_OnMeetingCancel (mw_stores w) path from id) w);
  q_hook w h : permitted L A h -> Q w (add_hook h w);
  q_quarantine w e : Q w (add_quarantine e w);
  q_verdict w v : Q w (add_verdict v w);
  q_dmarc w o : Q w (add_dmarc o w);
  q_report w r : Q w (add_report r w) }.

Section inbox.
Context {S R : Type} `{!Mailboxes S} (L : libs R).
Implicit Types (w : mworld S R) (en : env S R).

(** The passes after the message is in the inbox *)
Definition after_inbox (depth : nat) en w (from rcptAddr path raw : bytes) (received id : Z) : mworld S R :=
  let w := applyInboxRules L en path id rcptAddr from raw received w in
  let '(st, handled) := mb_OnMeetingRequest (mw_stores w) path rcptAddr id in
  let w := set_stores st w in
  let w :=
    if handled then w
    else match autoReply_of L en w path rcptAddr from raw received with
         | None => w
         | Some (to, reply) =>
             match depth with O => w | Datatypes.S depth => send_reply (file_at L depth en) en rcptAddr to reply received w end
         end in
  let w := set_stores (mb_OnMeetingReply (mw_stores w) path from id) w in
  set_stores (mb_OnMeetingCancel (mw_stores w) path from id) w.
Lemma file_at_eq depth en w from rcpt path raw stored received folder :
  file_at L depth en w from rcpt path raw stored received folder =
  let '(st, opened) := mb_Open (mw_stores w) path in
  if negb opened then (set_stores st w, false)
  else
    let '(st, info) := mb_AppendMessage st path (ac_UserZone (en_accounts en) rcpt) folder stored received 0 in
    match info with
    | None => (set_stores st w, false)
    | Some id => (if folder =? PrivateFIDInbox then after_inbox depth en (set_stores st w) from rcpt path raw received id else set_stores st w, true)
    end.
Proof.
  destruct depth; cbn [file_at]; destruct (mb_Open _ _) as [st []]; cbn [negb]; try done; cbn [mw_stores set_stores];
    destruct (mb_AppendMessage _ _ _ _ _ _ _) as [st2 [id|]]; try done; destruct (folder =? PrivateFIDInbox); cbn [negb]; try done;
    unfold after_inbox; change (set_stores st2 (set_stores st w)) with (set_stores st2 w); by destruct (mb_OnMeetingRequest _ _ _ _) as [st3 []].
Qed.

End inbox.

Section frame.
Context {S R : Type} `{!Mailboxes S} (L : libs R) (A : audience) (Q : relation (mworld S R)) (HQ : respected L A Q).
Context (en : env S R) (HA : closed A en).
Implicit Types w : mworld S R.
#[local] Instance q_preorder : PreOrder Q := q_order _ _ _ HQ.
#[local] Hint Extern 1 (Q _ _) =>
  first [apply (q_quarantine _ _ _ HQ) | apply (q_verdict _ _ _ HQ) | apply (q_dmarc _ _ _ HQ) | apply (q_report _ _ _ HQ)] : core.
#[local] Hint Extern 0 (Q ?w ?w) => reflexivity : core.

Lemma q_fold {B} (f : mworld S R -> B -> mworld S R) l : (forall w b, b ∈ l -> Q w (f w b)) -> forall w, Q w (foldl f w l).
Proof.
  induction l as [|b l IH]; intros H w; [done|]. cbn. etrans; [apply H; by left|]. apply IH. intros w' b' Hb. apply H. by right.
Qed.

(** Nobody is answered without a sender. *)
Lemma null_suppressed hdr owner : autoReplySuppressed L hdr [] owner = true.
Proof. done. Qed.
Lemma null_no_reply w path self raw received : autoReply_of L en w path self [] raw received = None.
Proof.
  unfold autoReply_of. destruct (mb_GetOOFSettings _ _) as [cfg|]; [|done]. cbn. destruct (negb _); [done|]. by destruct (ReadMessage raw).
Qed.

Definition from_ok (from : bytes) : Prop := from = [] \/ au_sender A from.

Lemma q_inbox_rules path id owner from raw received w : from_ok from -> au_box A owner path ->
  Q w (applyInboxRules L en path id owner from raw received w).
Proof.
  intros Hs Hb. unfold applyInboxRules. pose proof (q_rules _ _ _ HQ w path id (Unix received)) as H0.
  destruct (mb_ApplyInboxRules _ _ _ _) as [st acts] eqn:Ea. cbn [fst] in H0. destruct (ReadMessage raw) as [hdr|]; [|done].
  destruct (autoReplySuppressed _ _ _ _) eqn:Es; [done|]. destruct Hs as [->|Hs]; [by rewrite null_suppressed in Es|].
  assert (P : forall m, permitted L A (mkHook false owner [from] m)).
  { intros m. split; [exists path; by split|]. intros _. constructor; [|done]. exists from. auto. }
  assert (F : Q w (runRuleForwards en (ra_Forwards acts) hdr owner raw (set_stores st w))).
  { unfold runRuleForwards. destruct (_ || _); [done|]. etrans; [exact H0|]. apply q_fold. intros w1 to Ht. apply (q_hook _ _ _ HQ).
    split; [|done]. exists path. split; [done|]. intros _. exists (mw_stores w), id, (Unix received). by rewrite Ea. }
  destruct (_ || _); [done|]. etrans; [exact F|]. unfold runRuleAutoReplies, runRuleBounces.
  etrans; [|apply q_fold; intros; apply (q_hook _ _ _ HQ), P]. apply q_fold. intros. apply (q_hook _ _ _ HQ), P.
Qed.

(** A filer that respects the order makes the deliveries built on it respect it. *)
Definition q_filer (f : filer) : Prop := forall w a b c d e t u, from_ok a -> au_box A b c -> Q w (f w a b c d e t u).1.

Lemma q_each f from rcpts raw stored received : q_filer f -> from_ok from -> forall un w,
  Q w (deliver_each f (en_accounts en) from rcpts raw stored received un w).1.1.
Proof.
  intros Hf Hs. induction rcpts as [|r rcpts IH]; intros un w; [done|]. cbn [deliver_each].
  destruct (ac_Resolve (en_accounts en) r) as [path|] eqn:Er; [|apply IH]. apply (cl_local _ _ HA) in Er.
  pose proof (Hf w from r path raw stored received PrivateFIDInbox Hs Er) as H.
  destruct (f _ _ _ _ _ _ _ _) as [w1 [|]]; [|done]. etrans; [exact H|apply IH].
Qed.
Lemma relayable_sub acc rcpts out : relayable_of acc rcpts = Some out -> forall a, a ∈ out -> a ∈ rcpts.
Proof.
  revert out. induction rcpts as [|r rcpts IH]; intros out; cbn; [by intros [= <-]|]. destruct (isRelayable acc r) as [b|]; [|done].
  destruct (relayable_of acc rcpts) as [o|]; [|done]. cbn. intros [= <-] a. destruct b; [intros [->|H]%elem_of_cons; [by left|]|intros H]; right; by eapply IH.
Qed.
Lemma each_unresolved f acc from rcpts raw stored received : forall un w a,
  a ∈ (deliver_each (S := S) (R := R) f acc from rcpts raw stored received un w).1.2 -> a ∈ un \/ a ∈ rcpts.
Proof.
  induction rcpts as [|r rcpts IH]; intros un w a; cbn [deliver_each]; [by left|]. destruct (ac_Resolve acc r) as [path|].
  - destruct (f _ _ _ _ _ _ _ _) as [w1 [|]]; [|by left]. intros H. apply IH in H as [?|?]; [by left|right; by right].
  - intros H. apply IH in H as [H|?]; [|right; by right]. apply elem_of_app in H as [?|H]; [by left|]. apply list_elem_of_singleton in H as ->. right. left.
Qed.
(** An automatic reply to a sender [from] that may be answered *)
Lemma q_send_reply f self path from reply received w : q_filer f -> au_box A self path -> au_sender A from ->
  Q w (send_reply f en self (bareAddress L from) reply received w).
Proof.
  intros Hf Hb Hs. unfold send_reply. assert (Hself : from_ok self) by (right; by eapply cl_box).
  pose proof (q_each f self [bareAddress L from] reply (withReturnPath reply self) received Hf Hself [] w) as H.
  pose proof (each_unresolved f (en_accounts en) self [bareAddress L from] reply (withReturnPath reply self) received [] w) as U.
  destruct (deliver_each _ _ _ _ _ _ _ _ _) as [[w1 un] [|]]; [|done]. etrans; [exact H|]. unfold relayAutomated. destruct (negb _); [done|].
  destruct (relayable_of _ _) as [[|x out]|] eqn:E; [done| |done]. apply (q_hook _ _ _ HQ). split; [by exists path|]. intros _. cbn [hk_to].
  apply Forall_forall. intros a Ha. apply (relayable_sub _ _ _ E) in Ha. apply U in Ha as [Ha|Ha]; [by apply not_elem_of_nil in Ha|].
  apply list_elem_of_singleton in Ha. exists from. auto.
Qed.

Lemma autoReply_to w path self from raw received to reply : autoReply_of L en w path self from raw received = Some (to, reply) -> to = bareAddress L from.
Proof.
  unfold autoReply_of. destruct (mb_GetOOFSettings _ _) as [cfg|]; [|done]. cbn. destruct (negb _); [done|]. destruct (ReadMessage raw) as [hdr|]; [|done]. cbn.
  destruct (beq _ _); [done|]. destruct (senderIsKnown _ _ _ _ _) as [known|]; [|done]. cbn. destruct (autoReplyDecision _ _ _ _ _ _ _) as [[subj body]|]; [|done].
  cbn. by intros [= <- _].
Qed.
Lemma q_after depth w from rcpt path raw received id : from_ok from -> au_box A rcpt path ->
  (forall d, depth = Datatypes.S d -> q_filer (file_at L d en)) -> Q w (after_inbox L depth en w from rcpt path raw received id).
Proof.
  intros Hs Hb Hd. unfold after_inbox. pose proof (q_inbox_rules path id rcpt from raw received w Hs Hb) as H1.
  set (w2 := applyInboxRules _ _ _ _ _ _ _ _ _) in *. pose proof (q_request _ _ _ HQ w2 path rcpt id) as H2.
  destruct (mb_OnMeetingRequest _ _ _ _) as [st3 handled]. cbn [fst] in H2. set (w3 := set_stores st3 w2) in *.
  set (w4 := if handled then w3 else _). assert (H3 : Q w3 w4).
  { unfold w4. destruct handled; [done|]. destruct (autoReply_of _ _ _ _ _ _ _ _) as [[to reply]|] eqn:E; [|done].
    destruct Hs as [->|Hs]; [by rewrite null_no_reply in E|]. apply autoReply_to in E as ->. destruct depth; [done|]. eapply q_send_reply; [by apply Hd|exact Hb|done]. }
  etrans; [exact H1|]. etrans; [exact H2|]. etrans; [exact H3|]. etrans; [apply (q_reply _ _ _ HQ)|apply (q_cancel _ _ _ HQ)].
Qed.
Lemma q_file depth : q_filer (file_at L depth en).
Proof.
  induction depth as [|depth IH]; intros w from rcpt path raw stored received folder Hs Hb; rewrite file_at_eq; pose proof (q_open _ _ _ HQ w path) as H1;
    destruct (mb_Open _ _) as [st []]; cbn [fst negb] in *; try done;
    pose proof (q_append _ _ _ HQ (set_stores st w) path (ac_UserZone (en_accounts en) rcpt) folder stored received 0) as H2; cbn [mw_stores set_stores] in H2;
    destruct (mb_AppendMessage _ _ _ _ _ _ _) as [st2 [id|]]; cbn [fst] in *; try (etrans; [exact H1|exact H2]);
    (destruct (_ =? _); [|etrans; [exact H1|exact H2]]); (etrans; [exact H1|]; etrans; [exact H2|]); apply q_after; try done.
  by intros d [= <-].
Qed.
Lemma q_Deliver from rcpts raw received w : from_ok from -> Q w (Deliver L en from rcpts raw received w).1.1.
Proof. intros Hs. by apply q_each; [apply (q_file 1)|]. Qed.
Lemma q_scan mode from rcpts raw when label w : Q w (scanMessageLabelled L en mode from rcpts raw when label w).1.
Proof.
  unfold scanMessageLabelled. destruct (en_av en) as [av|]; [|done]. destruct (gate _ _ _ _) as [[scope direction]|]; [|done].
  destruct (_ <? _); [done|]. destruct (av_Scan av raw) as [[virus|]|]; [|done..]. destruct (av_QuarantineMessage _ _) as [id|]; [|done].
  cbn [fst]. unfold fileQuarantine, notifyQuarantine. etrans; [|apply q_fold; intros w1 r _; apply q_Deliver; by left]. auto.
Qed.
Lemma q_score s raw received w : Q w (scoreInbound L en s raw received w).1.
Proof.
  unfold scoreInbound. destruct (en_scorer en); [|done]. destruct (_ && _); [|done]. cbn [fst].
  match goal with |- Q w (recordDMARC _ _ _ _ _ _ ?x) => assert (H : Q w x) by (unfold recordVerdict; destruct (en_history en) as [[]|]; auto) end.
  etrans; [exact H|]. unfold recordDMARC. destruct (en_dmarc en) as [[]|]; [|done..]. destruct (_ || _); auto.
Qed.
Definition targets_ok (ts : list target) : Prop := Forall (fun t => au_box A (tg_addr t) (tg_path t)) ts.
Lemma q_targets s sc received ts : from_ok (ss_from s) -> targets_ok ts -> forall w, Q w (deliverTargets L en s sc received ts w).1.
Proof.
  intros Hs. induction 1 as [|t ts Ht _ IH]; intros w; [done|]. cbn [deliverTargets]. destruct (recipientFiling _ _ _ _ _) as [raw folder].
  set (m := markCatchAll _ _ _). pose proof (q_file 1 w (ss_from s) (tg_addr t) (tg_path t) m (withReturnPath m (ss_from s)) received folder Hs Ht) as H.
  unfold deliver, fileDelivery. destruct (file_at _ _ _ _ _ _ _ _ _ _ _) as [w1 [|]]; [|done]. etrans; [exact H|apply IH].
Qed.
Lemma q_ingest s raw received sc w : Q w (ingestReports L en s raw received sc w).
Proof.
  unfold ingestReports. destruct (en_reports en) as [rec|]; [|done]. destruct (negb _); [done|]. destruct (postmasterDomains _ _) as [|d ds]; [done|].
  destruct (_ ≫= _) as [[res dom]|]; [|done]. unfold storeReport. destruct (rec.1 dom) as [[id|]|]; [|done..]. destruct (rec.2 _ _); auto.
Qed.
End frame.

(** With every address allowed, nothing about the audience is left to show. *)
Lemma everyone_closed {S R : Type} (en : env S R) : closed everyone en.
Proof. done. Qed.
Lemma everyone_from from : from_ok everyone from.
Proof. by right. Qed.
Lemma everyone_targets ts : targets_ok everyone ts.
Proof. by apply Forall_forall. Qed.
#[export] Hint Resolve everyone_closed everyone_from everyone_targets : core.

(** Filing into mailboxes never touches the spool. *)
Definition calm {S R : Type} (w w' : mworld S R) : Prop := mw_spool w' = mw_spool w /\ mw_queued w' = mw_queued w.
Lemma calm_respected {S R : Type} `{!Mailboxes S} (L : libs R) (A : audience) : respected (S := S) L A calm.
Proof. split; try done. split; [done|]. intros w1 w2 w3 [? ?] [? ?]. split; congruence. Qed.

(** What [Data] does to the session and the spool *)
Lemma data_spool {S R : Type} `{!Mailboxes S} (L : libs R) (en : env S R) sign s w raw e :
  let r := Data L en sign s w raw e in
  r.1.1 = s /\ (mw_spool r.1.2 = mw_spool w
    \/ mw_spool r.1.2 = EnqueueDSN sign (mw_spool w) (mw_queued w) (ss_from s) (ss_ret s) (ss_envid s) (ss_relayTargets s) raw (Unix (en_now en))).
Proof.
  pose proof (calm_respected (S := S) L everyone) as HQ. pose proof (everyone_closed en) as HA. unfold Data. destruct e; [|by split; [|left]].
  set (mode := if beq (ss_authUser s) [] then avInboundSMTP else avSubmission).
  pose proof (q_scan L everyone calm HQ en HA mode (ss_from s) (avRecipients (ss_targets s) (relayAddrs (ss_relayTargets s))) raw (en_now en) [] w) as [C1 D1].
  unfold avVerdict, scanMessage. fold mode. destruct (scanMessageLabelled _ _ _ _ _ _ _ _ _) as [w1 []]; cbn [fst] in *; [|by split; [|left]..].
  pose proof (q_score L everyone calm HQ en s raw (en_now en) w1) as [C2 D2]. destruct (scoreInbound _ _ _ _ _ _) as [w2 sc]. cbn [fst] in C2, D2.
  pose proof (q_targets L everyone calm HQ en HA s sc (en_now en) (ss_targets s) (everyone_from _) (everyone_targets _) w2) as [C3 D3].
  destruct (deliverTargets _ _ _ _ _ _ _) as [w3 []]; cbn [negb fst snd] in *; [|split; [done|left; congruence]].
  unfold queueRelay, enqueue. destruct (ss_relayTargets s) as [|d ds].
  { pose proof (q_ingest L everyone calm HQ en s raw (en_now en) sc w3) as [C4 _]. split; [done|left; cbn [fst snd negb]; congruence]. }
  destruct (en_spool_ok en); cbn [negb]; [|split; [done|left; cbn [fst snd negb]; congruence]].
  set (w4 := set_queue _ _ w3). pose proof (q_ingest L everyone calm HQ en s raw (en_now en) sc w4) as [C4 _].
  split; [done|right]. cbn [fst snd]. rewrite C4. cbn [w4 mw_spool set_queue]. congruence.
Qed.

(** What is handed to the rule hooks *)
Definition hooked {S R : Type} `{!Mailboxes S} (L : libs R) (A : audience) (w w' : mworld S R) : Prop :=
  exists l, mw_hooks w' = mw_hooks w ++ l /\ Forall (permitted L A) l.
Lemma hooked_respected {S R : Type} `{!Mailboxes S} (L : libs R) A : respected (S := S) L A (hooked L A).
Proof.
  split; try (intros; exists []; by rewrite app_nil_r).
  - split; [intros w; exists []; by rewrite app_nil_r|]. intros w1 w2 w3 (l & E & F) (l' & E' & F'). exists (l ++ l'). rewrite E', E. split; [by rewrite app_assoc|by apply Forall_app].
  - intros w h Hh. by exists [h]; split; [|constructor].
Qed.
Lemma data_hooks {S R : Type} `{!Mailboxes S} (L : libs R) A (en : env S R) sign s w raw e :
  closed A en -> from_ok A (ss_from s) -> targets_ok A (ss_targets s) -> hooked L A w (Data L en sign s w raw e).1.2.
Proof.
  intros HA Hs Ht. pose proof (hooked_respected (S := S) L A) as HQ. pose proof (q_order _ _ _ HQ) as HO. unfold Data. destruct e; [|reflexivity].
  unfold avVerdict, scanMessage. set (mode := if beq (ss_authUser s) [] then avInboundSMTP else avSubmission).
  pose proof (q_scan L A _ HQ en HA mode (ss_from s) (avRecipients (ss_targets s) (relayAddrs (ss_relayTargets s))) raw (en_now en) [] w) as C1.
  destruct (scanMessageLabelled _ _ _ _ _ _ _ _ _) as [w1 []]; cbn [fst snd] in *; [|done..].
  pose proof (q_score L A _ HQ en s raw (en_now en) w1) as C2. destruct (scoreInbound _ _ _ _ _ _) as [w2 sc]. cbn [fst] in C2.
  pose proof (q_targets L A _ HQ en HA s sc (en_now en) (ss_targets s) Hs Ht w2) as C3.
  destruct (deliverTargets _ _ _ _ _ _ _) as [w3 []]; cbn [negb fst snd] in *; [|by etrans; [exact C1|]; etrans].
  assert (C : hooked L A w w3) by (etrans; [exact C1|]; by etrans).
  unfold queueRelay, enqueue. destruct (ss_relayTargets s) as [|d ds]; cbn [negb fst snd]; [etrans; [exact C|apply (q_ingest L A _ HQ)]|].
  destruct (en_spool_ok en); cbn [negb fst snd]; [|exact C]. set (w4 := set_queue _ _ w3).
  etrans; [exact C|]. change (mw_hooks w3) with (mw_hooks w4). etrans; [|apply (q_ingest L A _ HQ)]. exists []. by rewrite app_nil_r.
Qed.

(** ** No open relay *)

Lemma inserted_rows mid now rcpts : forall tag rows id r,
  insert_recipients mid now tag rcpts rows !! id = Some r -> rows !! id = Some r \/ exists d, d ∈ rcpts /\ rc_addr r = ds_Addr d /\ rc_message r = mid.
Proof.
  induction rcpts as [|d rcpts IH]; intros tag rows id r H; [by left|]. cbn [insert_recipients] in H.
  apply IH in H as [H|(x & Hx & E)]; [|right; exists x; split; [by right|done]].
  rewrite lookup_insert in H. case_decide; [|by left]. right. exists d. split; [left|]. by injection H as <-.
Qed.

(** Every row is one of [sp0], or its message is there and [P] holds of the message's sender and
    the row's address. *)
Definition rows_from (P : bytes -> bytes -> Prop) (sp0 sp : Spool) : Prop :=
  forall id r, sp_recipients sp !! id = Some r ->
    sp_recipients sp0 !! id = Some r \/ exists m, sp_messages sp !! rc_message r = Some m /\ P (ms_from m) (rc_addr r).

Lemma rows_from_mono (P P' : bytes -> bytes -> Prop) sp0 sp : (forall a b, P a b -> P' a b) -> rows_from P sp0 sp -> rows_from P' sp0 sp.
Proof. intros HP H id r Hr. apply H in Hr as [?|(m & ? & ?)]; [by left|right; exists m; auto]. Qed.
Lemma rows_from_enqueue P sign sp0 sp tag from ret envid rcpts body now :
  rows_from P sp0 sp -> (forall d, d ∈ rcpts -> P from (ds_Addr d)) -> rows_from P sp0 (EnqueueDSN sign sp tag from ret envid rcpts body now).
Proof.
  intros H HP. unfold EnqueueDSN. destruct rcpts as [|d0 rcpts0]; [done|]. set (rcpts := d0 :: rcpts0) in *. intros id r. cbn [sp_recipients sp_messages].
  intros Hr. apply inserted_rows in Hr as [Hr|(d & Hd & Ea & Em)].
  - apply H in Hr as [?|(m & Hm & Hp)]; [by left|]. right. exists m. split; [|done]. rewrite lookup_insert. case_decide as E; [|done]. rewrite <- E, next_rowid_fresh in Hm. done.
  - right. eexists. rewrite Em, lookup_insert, decide_True by done. split; [reflexivity|]. cbn. rewrite Ea. by apply HP.
Qed.

(** The senders a connection's transactions were opened with *)
Definition senders (tr : list event) : list bytes := omap (fun e => match e with EMail from true => Some from | _ => None end) tr.

Section relay.
Context {S R : Type} `{!Mailboxes S} (L : libs R) (envs : nat -> env S R) (spool : option (bytes -> bytes)).
#[local] Instance mta : Session (backend (S := S) (R := R)) := mta_Session L envs spool.
Implicit Types b : backend (S := S) (R := R).

(** [addr] is a member of a list that is open to [from] *)
Definition listed (from addr : bytes) : Prop :=
  exists k exp to leaves, ac_Expand (en_accounts (envs k)) = Some exp
    /\ expandMailingList (lb_ToLower L) exp from to = Ok (leaves, true, MListOK) /\ addr ∈ leaves.
(** The mailbox of an address: its own, or its domain's catch-all *)
Definition mailbox (addr path : bytes) : Prop :=
  exists k, ac_Resolve (en_accounts (envs k)) addr = Some path
    \/ exists catch, ac_CatchAll (en_accounts (envs k)) = Some catch /\ catch addr = Some path.
(** Who may be answered: the senders of the connection, and the mailboxes *)
Definition answerable (from : list bytes) : audience :=
  mkAudience (fun a => a ∈ from \/ exists path, mailbox a path) mailbox.

(** Mail of a rule of the mailbox of [owner]: a forward to an address the rule names, or an
    answer to a sender *)
Definition ruled (from : list bytes) (owner addr : bytes) : Prop :=
  exists path, mailbox owner path
    /\ ((exists st id t to, to ∈ ra_Forwards (mb_ApplyInboxRules st path id t).2 /\ addr ∈ to)
        \/ exists f, au_sender (answerable from) f /\ (addr = f \/ addr = bareAddress L f)).

Lemma answerable_closed from k : closed (answerable from) (envs k).
Proof. split; [intros a p H; right; by exists p|]. intros r p H. exists k. by left. Qed.
Lemma permitted_mono from from' h : from ⊆ from' -> permitted L (answerable from) h -> permitted L (answerable from') h.
Proof.
  intros Hsub [H1 H2]. split; [exact H1|]. intros E. eapply Forall_impl; [exact (H2 E)|]. intros a (f & Hf & Ea). exists f. split; [|done].
  destruct Hf as [Hf|Hf]; [left; auto|by right].
Qed.

Record unauthenticated (w0 : mworld S R) (s : backend * list event) : Prop := {
  un_user : ss_authUser (bs_session s.1) = [];
  un_from : ss_from (bs_session s.1) = [] \/ ss_from (bs_session s.1) ∈ senders s.2;
  un_targets : Forall (fun t => mailbox (tg_addr t) (tg_path t)) (ss_targets (bs_session s.1));
  un_relay : Forall (fun d => listed (ss_from (bs_session s.1)) (ds_Addr d)) (ss_relayTargets (bs_session s.1));
  un_rows : rows_from (fun from addr => (from = [] \/ from ∈ senders s.2) /\ listed from addr) (mw_spool w0) (mw_spool (bs_world s.1));
  un_hooks : hooked L (answerable (senders s.2)) w0 (bs_world s.1) }.

(** A step that adds only mailboxes and listed recipients to the session and leaves the user,
    the sender, the spool and the hooks *)
Definition unrelayed (s s' : session) (w w' : mworld S R) : Prop :=
  ss_authUser s' = ss_authUser s /\ ss_from s' = ss_from s /\ mw_spool w' = mw_spool w /\ mw_hooks w' = mw_hooks w
  /\ (Forall (fun t => mailbox (tg_addr t) (tg_path t)) (ss_targets s) -> Forall (fun t => mailbox (tg_addr t) (tg_path t)) (ss_targets s'))
  /\ (Forall (fun d => listed (ss_from s) (ds_Addr d)) (ss_relayTargets s) -> Forall (fun d => listed (ss_from s) (ds_Addr d)) (ss_relayTargets s')).
Lemma unrelayed_same s w w' : mw_spool w' = mw_spool w -> mw_hooks w' = mw_hooks w -> unrelayed s s w w'.
Proof. intros. by split_and!. Qed.
Lemma unrelayed_trans s1 s2 s3 w1 w2 w3 : unrelayed s1 s2 w1 w2 -> unrelayed s2 s3 w2 w3 -> unrelayed s1 s3 w1 w3.
Proof.
  intros (A1 & A2 & A3 & A4 & A5 & A6) (B1 & B2 & B3 & B4 & B5 & B6). rewrite A2 in B6. split_and!; [congruence..| |]; auto.
Qed.
Lemma unrelayed_target s w w' t : mw_spool w' = mw_spool w -> mw_hooks w' = mw_hooks w -> mailbox (tg_addr t) (tg_path t) -> unrelayed s (add_target t s) w w'.
Proof. intros. split_and!; try done. intros F. cbn. apply Forall_app. by split; [|constructor]. Qed.

Lemma unrelayed_local en s w to path c : mailbox to path -> unrelayed s (routeLocal L en s w to path c).1.1 w (routeLocal L en s w to path c).1.2.
Proof.
  intros Hm. unfold routeLocal. destruct (overReceiveQuota _ _) as [st [e|]]; [by apply unrelayed_same|].
  assert (E : let w1 := (if beq (ss_authUser s) [] then should_defer L en s to (set_stores st w) else (set_stores st w, false)).1 in
              mw_spool w1 = mw_spool w /\ mw_hooks w1 = mw_hooks w).
  { destruct (beq _ _); [|done]. unfold should_defer. cbn [mw_grey set_stores]. destruct (mw_grey w) as [[g db]|]; [|done]. by destruct (ShouldDefer _ _ _ _ _ _ _ _ _ _). }
  destruct (if beq _ _ then _ else _) as [w1 []]; destruct E; [by apply unrelayed_same|by apply unrelayed_target].
Qed.
Lemma unrelayed_recipient k s w to notify orcpt : ss_authUser s = [] ->
  unrelayed s (routeRecipient L (envs k) (has_spool spool) s w to notify orcpt).1.1 w (routeRecipient L (envs k) (has_spool spool) s w to notify orcpt).1.2.
Proof.
  intros Hu. unfold routeRecipient. destruct (ac_Resolve _ to) as [path|] eqn:Er; [apply unrelayed_local; exists k; by left|].
  destruct (match ac_CatchAll _ with Some _ => _ | None => _ end) as [path|] eqn:Ec.
  { apply unrelayed_local. exists k. right. destruct (ac_CatchAll _) as [f|]; [by exists f|done]. }
  rewrite Hu. by apply unrelayed_same.
Qed.
Lemma unrelayed_member k exp to leaves notify :
  ac_Expand (en_accounts (envs k)) = Some exp -> forall ms s w, expandMailingList (lb_ToLower L) exp (ss_from s) to = Ok (leaves, true, MListOK) -> (forall m, m ∈ ms -> m ∈ leaves) ->
  let r := foldl (routeListMember (envs k) (has_spool spool) notify) (s, w) ms in unrelayed s r.1 w r.2.
Proof.
  intros He ms. induction ms as [|m ms IH]; intros s w Hx Hm; [by apply unrelayed_same|]. cbn [foldl routeListMember].
  set (r1 := match ac_Resolve _ m with Some _ => _ | None => _ end).
  assert (H1 : unrelayed s r1.1 w r1.2).
  { unfold r1. destruct (ac_Resolve _ m) as [path|] eqn:Er; [destruct (overReceiveQuota _ _) as [st [e|]]; [by apply unrelayed_same|apply unrelayed_target; [done|done|exists k; by left]]|].
    destruct (_ && _); [|by apply unrelayed_same]. split_and!; try done. intros F. cbn. apply Forall_app. split; [done|]. constructor; [|done].
    exists k, exp, to, leaves. split_and!; [done|done|]. cbn. apply Hm. left. }
  destruct r1 as [s1 w1]. pose proof H1 as (_ & E & _). cbn [fst] in E. eapply unrelayed_trans; [exact H1|]. apply IH; [by rewrite E|]. intros x Hy. apply Hm. by right.
Qed.
Lemma unrelayed_rcpt k s w to p : ss_authUser s = [] ->
  let r := Rcpt L (envs k) (has_spool spool) s w to p in unrelayed s r.1.1 w r.1.2.
Proof.
  intros Hu. unfold Rcpt. destruct (ac_Expand _) as [exp|] eqn:He; [|by apply unrelayed_recipient].
  destruct (expandMailingList _ _ _ _) as [[[leaves []] res]|e] eqn:Hx; [|by apply unrelayed_recipient|by apply unrelayed_same].
  case_bool_decide as Hr; [subst res|by apply unrelayed_same]. cbn [negb].
  exact (unrelayed_member k exp to leaves (rp_Notify p) He leaves s w Hx (fun m H => H)).
Qed.
Lemma senders_app tr tr' : senders (tr ++ tr') = senders tr ++ senders tr'.
Proof. apply omap_app. Qed.

(** A step that queues nothing and hands nothing to the hooks *)
Lemma unauthenticated_quiet w0 b s' w' n tr tr' : unauthenticated w0 (b, tr) ->
  ss_authUser s' = [] -> mw_spool w' = mw_spool (bs_world b) -> mw_hooks w' = mw_hooks (bs_world b) ->
  (ss_from s' = [] \/ ss_from s' ∈ senders (tr ++ tr')) -> Forall (fun t => mailbox (tg_addr t) (tg_path t)) (ss_targets s') ->
  Forall (fun d => listed (ss_from s') (ds_Addr d)) (ss_relayTargets s') -> unauthenticated w0 (mkBackend s' w' n, tr ++ tr').
Proof.
  intros [Hu Hf Ht Hr Hs Hh] Eu Esp Eh Ef Et Er. cbn [fst snd] in *. assert (Hsub : senders tr ⊆ senders (tr ++ tr')) by (rewrite senders_app; by apply list_subseteq_app_l).
  split; cbn [fst snd bs_session bs_world]; try done.
  - rewrite Esp. eapply rows_from_mono; [|exact Hs]. intros a c [[?|?] ?]; auto.
  - destruct Hh as (l & El & Fl). exists l. split; [congruence|]. eapply Forall_impl; [exact Fl|]. intros h. by apply permitted_mono.
Qed.
Lemma unauthenticated_unrelayed w0 b s' w' n tr tr' : unauthenticated w0 (b, tr) -> unrelayed (bs_session b) s' (bs_world b) w' ->
  unauthenticated w0 (mkBackend s' w' n, tr ++ tr').
Proof.
  intros Hun (A1 & A2 & A3 & A4 & A5 & A6). pose proof Hun as [Hu Hf Ht Hr _ _]. cbn [fst snd] in *. eapply unauthenticated_quiet; [exact Hun|congruence|done|done| | |].
  - rewrite A2, senders_app. destruct Hf; [by left|right; apply elem_of_app; by left].
  - auto.
  - rewrite A2. auto.
Qed.

Lemma unauthenticated_mail w0 b tr addr p : unauthenticated w0 (b, tr) -> unauthenticated w0 (se_Mail (se_Reset (b, tr)) addr p).1.
Proof.
  intros Hun. pose proof Hun as [Hu _ _ _ _ _]. cbn [fst snd] in *. cbn. unfold enter. cbn [fst snd leave bs_session bs_world bs_calls]. set (en := envs _). set (w := set_stores _ _).
  assert (K : forall r, ((exists e, r.2 = Some e) /\ r.1.1 = Reset (bs_session b) \/ r.2 = None /\ r.1.1 = set_envelope addr (mp_RET p) (mp_ENVID p) (Reset (bs_session b))) ->
    mw_spool r.1.2 = mw_spool (bs_world b) -> mw_hooks r.1.2 = mw_hooks (bs_world b) ->
    unauthenticated w0 (let '(b, e) := leave (mkBackend (Reset (bs_session b)) (bs_world b) (Datatypes.S (bs_calls b))) r in ((b, (tr ++ [EReset]) ++ [EMail addr (accepted_by e)]), e)).1).
  { intros [[s' w'] e] Hse Esp Eh. cbn [leave fst snd] in *. rewrite <- app_assoc. cbn [app]. apply (unauthenticated_quiet w0 b); try done.
    - destruct Hse as [[_ ->]|[_ ->]]; done.
    - destruct Hse as [[_ ->]|[-> ->]]; [by left|right]. rewrite senders_app. apply elem_of_app. right. cbn. left.
    - destruct Hse as [[_ ->]|[_ ->]]; constructor.
    - destruct Hse as [[_ ->]|[_ ->]]; constructor. }
  apply K; unfold Mail; change (ss_authUser (Reset (bs_session b))) with (ss_authUser (bs_session b)); rewrite Hu; change (beq [] []) with true; cbn [negb andb];
    (destruct (mw_rate w) as [l|]; [|by cbn; auto]); destruct (rl_Allow _ _ _) as [l' []]; cbn; eauto.
Qed.
Lemma unauthenticated_data w0 b tr content fin : unauthenticated w0 (b, tr) -> unauthenticated w0 (se_Data (b, tr) content fin).1.
Proof.
  intros Hun. pose proof Hun as [Hu Hf Ht Hr Hs Hh]. cbn [fst snd] in *. cbn. unfold enter. cbn [fst snd leave]. set (en := envs _). set (w := set_stores _ _).
  pose proof (data_spool L en (signer spool) (bs_session b) w content fin) as [E1 E2].
  assert (Hfrom : from_ok (answerable (senders tr)) (ss_from (bs_session b))) by (destruct Hf; [by left|right; by left]).
  pose proof (data_hooks L (answerable (senders tr)) en (signer spool) (bs_session b) w content fin (answerable_closed _ _) Hfrom Ht) as (l & El & Fl).
  destruct (Data _ _ _ _ _ _ _) as [[s' w'] e]. cbn [fst snd leave] in *. subst s'.
  assert (Es : senders (tr ++ [EData content fin (accepted_by e)]) = senders tr) by (rewrite senders_app; apply app_nil_r).
  split; cbn [fst snd bs_session bs_world]; rewrite ?Es; try done.
  - destruct E2 as [E2|E2]; rewrite E2; [done|]. apply rows_from_enqueue; [done|]. intros d Hd. rewrite Forall_forall in Hr. auto.
  - destruct Hh as (l0 & E0 & F0). exists (l0 ++ l). rewrite El. cbn [w mw_hooks set_stores]. rewrite E0, app_assoc. split; [done|by apply Forall_app].
Qed.

Lemma unauthenticated_step w0 s s' :
  (forall k f u p, ac_Authenticate (en_accounts (envs k)) = Some f -> f u p = None) ->
  sess_op (Session0 := recorded) s s' -> unauthenticated w0 s -> unauthenticated w0 s'.
Proof.
  destruct s as [b tr]. intros Hauth Hop Hun. pose proof Hun as [Hu _ _ _ _ _]. cbn [fst] in Hu.
  destruct Hop as [addr p|addr p|content fin| | |auth user pass Ha].
  - by apply unauthenticated_mail.
  - cbn. unfold enter. cbn [fst snd leave].
    pose proof (unrelayed_rcpt (bs_calls b) (bs_session b) (set_stores (en_disturb (envs (bs_calls b)) (mw_stores (bs_world b))) (bs_world b)) addr p Hu) as H.
    destruct (Rcpt _ _ _ _ _ _ _) as [[s' w'] e]. cbn [fst snd leave] in *. by apply (unauthenticated_unrelayed w0 b).
  - by apply unauthenticated_data.
  - cbn. apply (unauthenticated_quiet w0 b); (done || by left).
  - cbn. destruct b as [s w n]. apply (unauthenticated_unrelayed w0 (mkBackend s w n)); [done|by apply unrelayed_same].
  - cbn in Ha. injection Ha as <-. cbn. unfold enter. cbn [fst snd leave]. unfold Auth.
    destruct (ac_Authenticate _) as [f|] eqn:Ef; [|by apply (unauthenticated_unrelayed w0 b); [|apply unrelayed_same]]. destruct (en_clocks _) as [[[t1 t2] t3] t4].
    destruct (match mw_auth _ with Some _ => _ | None => _ end); [by apply (unauthenticated_unrelayed w0 b); [|apply unrelayed_same]|].
    rewrite (Hauth _ _ user pass Ef). cbn [fst snd set_stores mw_auth leave].
    apply (unauthenticated_unrelayed w0 b); [done|]. by destruct (mw_auth (bs_world b)); apply unrelayed_same.
Qed.

(** The mail of the rule hooks put on the spool, each in an environment of its own *)
Definition queue_hooks (hooks : list (env S R * hook_call)) (w : mworld S R) : mworld S R :=
  foldl (fun w eh => ruleHook eh.1 (signer spool) eh.2 w) w hooks.
Lemma rows_from_hooks (P : bytes -> bytes -> Prop) sp0 hooks : (forall eh a, eh ∈ hooks -> a ∈ hk_to eh.2 -> P (hk_owner eh.2) a) ->
  forall w, rows_from P sp0 (mw_spool w) -> rows_from P sp0 (mw_spool (queue_hooks hooks w)).
Proof.
  induction hooks as [|[en h] hooks IH]; intros HP w Hw; [done|]. cbn. apply IH; [intros eh a Hh; apply HP; by right|]. unfold ruleHook, allow_outbound.
  assert (Q : forall w1, mw_spool w1 = mw_spool w -> rows_from P sp0 (mw_spool (enqueue en (signer spool) (hk_owner h) [] [] (map (fun r => mkDSN r [] []) (hk_to h)) (hk_raw h) (en_now en) w1).1)).
  { intros w1 E. unfold enqueue. destruct (en_spool_ok en); [|cbn [fst]; by rewrite E]. cbn [fst mw_spool set_queue]. apply rows_from_enqueue; [by rewrite E|].
    intros d Hd. apply list_elem_of_fmap in Hd as (a & -> & Ha). apply (HP (en, h)); [left|done]. }
  destruct (mw_out w) as [l|]; [|by apply Q]. destruct (ol_Allow l _ _) as [[l' []] x]; cbn [negb]; [by apply Q|done].
Qed.

(** C5. No open relay: whatever a client whose passwords the directory refuses sends to the SMTP
    port, on whatever link and over however many transactions, every recipient its connection
    adds to the outbound spool, with the mail of the rule hooks queued there too, is a member
    of a distribution list the directory opens to the sender of that very message, or is
    written to by the rules of a mailbox: a forward goes to an address the mailbox's own rules
    name, an automatic answer back to a sender of the connection or to a local mailbox. *)
Theorem no_open_relay settings settings' moments sv remote input credit isTLS up w c' more :
  (forall k f u p, ac_Authenticate (en_accounts (envs k)) = Some f -> f u p = None) ->
  handle (Session0 := recorded) settings settings' moments sv (fun a => Some (mkBackend (NewSession a) w 0, [])) remote input credit isTLS up
    = inr (Some (c', more)) ->
  let from := senders (sc_sess c').2 in
  exists hooks, mw_hooks (bs_world (sc_sess c').1) = mw_hooks w ++ hooks
    /\ forall envs', rows_from (fun sender addr => ((sender = [] \/ sender ∈ from) /\ listed sender addr) \/ ruled from sender addr)
           (mw_spool w) (mw_spool (queue_hooks (zip envs' hooks) (bs_world (sc_sess c').1))).
Proof.
  intros Hauth H from. apply (handle_keeps (unauthenticated w) _ _ _ _ _ _ _ _ _ _ (mkBackend (NewSession remote) w 0, [])) in H; [|by intros b b'; apply unauthenticated_step|done|].
  - destruct H as [_ _ _ _ Hs (l & El & Fl)]. exists l. split; [done|]. intros envs'. apply rows_from_hooks.
    + intros [en h] a Hh Ha. right. apply elem_of_zip_r in Hh. rewrite Forall_forall in Fl. destruct (Fl _ Hh) as [(path & Hp & Hfw) Hsend]. exists path. split; [done|].
      cbn [snd] in *. destruct (hk_forward h); [left|right].
      * destruct (Hfw eq_refl) as (st & i & t & Hin). by exists st, i, t, (hk_to h).
      * specialize (Hsend eq_refl). rewrite Forall_forall in Hsend. by apply Hsend.
    + eapply rows_from_mono; [|exact Hs]. auto.
  - split; cbn [fst snd]; try done; [by left|by left|exists []; by rewrite app_nil_r].
Qed.
End relay.
(** ** Automatic replies end *)

Lemma ReadString_no_lf br : no_lf (removelast (ReadString br).1) = true /\ (List.last (ReadString br).1 0 = LF \/ no_lf (ReadString br).1 = true).
Proof.
  induction br as [|b br [IH1 IH2]]; cbn; [by split; [|right]|]. destruct (Z.eqb_spec b LF) as [->|Hb]; [by split; [|left]|].
  destruct (ReadString br) as [l rest]. cbn [fst] in *. destruct l as [|x l]; cbn -[no_lf] in *.
  - split; [done|right]. cbn. by rewrite (proj2 (Z.eqb_neq _ _) Hb).
  - assert (Hn : negb (b =? LF) = true) by by rewrite (proj2 (Z.eqb_neq _ _) Hb). unfold no_lf in *. cbn [forallb]. rewrite Hn, IH1. split; [done|].
    destruct IH2 as [IH2|IH2]; [by left|right; by cbn in *].
Qed.
Lemma next_line_no_lf br l rest : next_line br = Some (l, rest) -> no_lf l = true.
Proof.
  unfold next_line. destruct br as [|b br]; [done|]. destruct (ReadString_no_lf (b :: br)) as [H1 H2].
  destruct (ReadString (b :: br)) as [x r]. cbn [fst] in *. destruct (Z.eqb_spec (List.last x 0) LF); intros [= <- <-]; [by apply strip_cr_no_lf|].
  by destruct H2.
Qed.
Lemma skip_blank_no_lf s : no_lf s = true -> no_lf (skip_blank s) = true.
Proof. induction s as [|b s IH]; [done|]. cbn. destruct (is_blank b); [|done]. intros [_ H]%andb_prop. by apply IH. Qed.
Lemma no_lf_rev s : no_lf (rev s) = no_lf s.
Proof. induction s as [|b s IH]; [done|]. cbn [rev]. rewrite no_lf_app, IH. cbn. by rewrite andb_true_r, andb_comm. Qed.
Lemma trim_blank_no_lf s : no_lf s = true -> no_lf (trim_blank s) = true.
Proof. intros H. unfold trim_blank. rewrite no_lf_rev. apply skip_blank_no_lf. rewrite no_lf_rev. by apply skip_blank_no_lf. Qed.
Lemma continuations_no_lf fuel : forall buf br, no_lf buf = true -> no_lf (continuations fuel buf br).1 = true.
Proof.
  induction fuel as [|fuel IH]; intros buf br H; [done|]. cbn [continuations]. destruct (folded br); [|done].
  destruct (next_line _) as [[l rest]|] eqn:E; [|cbn [fst]; by rewrite no_lf_app, H].
  apply IH. rewrite no_lf_app, H. cbn. by apply next_line_no_lf, trim_blank_no_lf in E.
Qed.
Lemma read_fields_no_lf fuel : forall br fs eof, read_fields fuel br = Some (fs, eof) -> Forall (fun f => no_lf f.2 = true) fs.
Proof.
  induction fuel as [|fuel IH]; intros br fs eof; cbn [read_fields]; [by intros [= <- <-]|].
  destruct (ReadContinuedLine br) as [[kv rest]|] eqn:E; [|by intros [= <- <-]].
  assert (N : no_lf kv = true).
  { unfold ReadContinuedLine in E. destruct (next_line br) as [[l r]|] eqn:En; [|done]. apply next_line_no_lf in En.
    destruct l as [|b l]; [by injection E as <- <-|]. apply (f_equal (default (kv, rest))) in E. cbn [default] in E.
    pose proof (continuations_no_lf (length r) (trim_blank (b :: l)) r (trim_blank_no_lf _ En)) as C. cbn in E, C. by rewrite E in C. }
  destruct kv as [|b kv]; [by intros [= <- <-]|]. destruct (negb _); [done|].
  destruct (Cut (b :: kv) 58) as [k v] eqn:Ec. destruct (read_fields fuel rest) as [[fs' eof']|] eqn:Er; [|done]. cbn.
  apply IH in Er. intros [= <- <-]. destruct (beq k []); [done|]. constructor; [|done]. cbn. apply skip_blank_no_lf.
  pose proof (Cut_no_lf (b :: kv) 58 N) as [_ Hv]. by rewrite Ec in Hv.
Qed.
Lemma Get_no_lf raw fs name : ReadMessage raw = Some fs -> no_lf (Get fs name) = true.
Proof.
  unfold ReadMessage, readHeader. destruct (folded raw); [done|]. destruct (read_fields _ raw) as [[hs eof]|] eqn:E; [|done]. apply read_fields_no_lf in E.
  assert (H : hs = fs -> no_lf (Get fs name) = true).
  { intros <-. unfold Get. destruct (List.find _ hs) as [f|] eqn:Ef; [|done]. apply List.find_some in Ef as [Ef _]. rewrite List.Forall_forall in E. by apply E. }
  destruct hs, eof; try done; intros [= <-]; by apply H.
Qed.
Lemma Forall_app_2 {A} (P : A -> Prop) l1 l2 : Forall P l1 -> Forall P l2 -> Forall P (l1 ++ l2).
Proof. intros. by apply Forall_app. Qed.

Section replies.
Context {S R : Type} `{!Mailboxes S} (L : libs R).
Implicit Types (w : mworld S R) (en : env S R).

(** The header encoder, the date and the token write no line end. *)
Record one_line_libs : Prop := {
  ol_encode s : no_lf (lb_q_encode L s) = true;
  ol_date t : no_lf (lb_date L t) = true;
  ol_token : no_lf (lb_token L) = true }.
Context (HL : one_line_libs).

Lemma domainOf_no_lf a : no_lf a = true -> no_lf (domainOf a) = true.
Proof.
  intros H. unfold domainOf. destruct (cut_last 64 a) as [[x d]|] eqn:E; [|done]. assert (Hd : no_lf d = true).
  { revert x d E. induction a as [|b a IH]; intros x d; cbn; [done|]. apply andb_prop in H as [_ H]. specialize (IH H).
    destruct (cut_last 64 a) as [[x' y']|]; [intros [= <- <-]; by eapply IH|]. destruct (b =? 64); [|done]. by intros [= <- <-]. }
  by destruct d.
Qed.

(** A reply reads back with its mark, whatever it answers. *)
Lemma reply_is_marked when from to subject body inReplyTo : no_lf from = true -> no_lf to = true -> no_lf inReplyTo = true ->
  forall hdr, ReadMessage (reply_bytes L when from to subject body inReplyTo) = Some hdr -> Get hdr (lit "Auto-Submitted") = lit "auto-replied".
Proof.
  intros Hf Ht Hi hdr. unfold reply_bytes, buildAutoReply, ReadMessage. rewrite read_generated.
  - unfold autoReply_fields. destruct (beq inReplyTo []); cbn [app map]; intros [= <-]; vm_compute; reflexivity.
  - pose proof (domainOf_no_lf _ Hf) as Hd. destruct HL as [He Hda Hto]. unfold autoReply_fields.
    repeat apply Forall_app_2; repeat (constructor; [split; [by vm_compute|]|]); try done; cbn [snd]; try done.
    + by rewrite !no_lf_app, Hto, Hd.
    + destruct (beq inReplyTo []); [done|]. repeat (constructor; [split; [by vm_compute|done]|]). done.
Qed.

Lemma marked_suppressed hdr sender self : Get hdr (lit "Auto-Submitted") = lit "auto-replied" -> autoReplySuppressed L hdr sender self = true.
Proof.
  intros H. unfold autoReplySuppressed. destruct (beq _ _); [done|]. destruct (EqualFold _ _); [done|]. destruct (isRoleMailbox _ _); [done|].
  rewrite H. change (negb (beq (TrimSpace (lit "auto-replied")) []) && negb (EqualFold (autoSubmittedKeyword (TrimSpace (lit "auto-replied"))) (lit "no"))) with true. done.
Qed.

(** A message whose replies are suppressed is filed alike at any depth. *)
Lemma after_suppressed d1 d2 en w from rcpt path raw received id :
  (forall hdr, ReadMessage raw = Some hdr -> autoReplySuppressed L hdr from rcpt = true) ->
  after_inbox L d1 en w from rcpt path raw received id = after_inbox L d2 en w from rcpt path raw received id.
Proof.
  intros H. unfold after_inbox. destruct (mb_OnMeetingRequest _ _ _ _) as [st handled].
  assert (E : autoReply_of L en (set_stores st (applyInboxRules L en path id rcpt from raw received w)) path rcpt from raw received = None).
  { unfold autoReply_of. destruct (mb_GetOOFSettings _ _) as [cfg|]; [|done]. cbn. destruct (negb _); [done|].
    destruct (ReadMessage raw) as [hdr|]; [|done]. cbn. destruct (beq _ _); [done|]. destruct (senderIsKnown _ _ _ _ _) as [known|]; [|done]. cbn.
    unfold autoReplyDecision. by rewrite (H hdr eq_refl). }
  rewrite E. done.
Qed.
Lemma file_suppressed d1 d2 en w from rcpt path raw stored received folder :
  (forall hdr, ReadMessage raw = Some hdr -> autoReplySuppressed L hdr from rcpt = true) ->
  file_at L d1 en w from rcpt path raw stored received folder = file_at L d2 en w from rcpt path raw stored received folder.
Proof.
  intros H. rewrite !file_at_eq. destruct (mb_Open _ _) as [st []]; cbn [negb]; [|done]. destruct (mb_AppendMessage _ _ _ _ _ _ _) as [st2 [id|]]; [|done].
  by rewrite (after_suppressed d1 d2).
Qed.

(** C8. Automatic replies end: the delivery of a message, which may answer it automatically by
    delivering a reply, which may in turn be answered, is the same at every bound on that
    recursion but zero.  A reply is never answered, whatever the message, the mailbox's settings
    and the subjects and texts in it, as long as the two addresses hold no line end. *)
Theorem replies_end depth en w from rcpt path raw stored received folder :
  no_lf rcpt = true -> no_lf (bareAddress L from) = true ->
  file_at L (Datatypes.S depth) en w from rcpt path raw stored received folder = fileDelivery L en w from rcpt path raw stored received folder.
Proof.
  intros Hr Hf. unfold fileDelivery. rewrite !file_at_eq. destruct (mb_Open _ _) as [st []]; cbn [negb]; [|done].
  destruct (mb_AppendMessage _ _ _ _ _ _ _) as [st2 [id|]]; [|done]. destruct (_ =? _); [|done]. f_equal. unfold after_inbox.
  destruct (mb_OnMeetingRequest _ _ _ _) as [st3 handled]. set (w3 := set_stores st3 _). destruct handled; [done|].
  destruct (autoReply_of _ _ _ _ _ _ _ _) as [[to reply]|] eqn:E; [|done].
  assert (F : forall d w rcpt' path' stored' folder', file_at L d en w rcpt rcpt' path' reply stored' received folder'
                                                   = file_at L 0 en w rcpt rcpt' path' reply stored' received folder').
  { unfold autoReply_of in E. destruct (mb_GetOOFSettings _ _) as [cfg|]; [|done]. cbn in E. destruct (negb _); [done|].
    destruct (ReadMessage raw) as [hdr|] eqn:Eh; [|done]. cbn in E. destruct (beq _ _); [done|]. destruct (senderIsKnown _ _ _ _ _) as [known|]; [|done]. cbn in E.
    destruct (autoReplyDecision _ _ _ _ _ _ _) as [[subj body]|]; [|done]. cbn in E. injection E as <- <-. intros. apply file_suppressed.
    intros h2 H2. apply marked_suppressed. eapply reply_is_marked; [exact Hr|exact Hf| |exact H2]. by eapply Get_no_lf. }
  assert (G : send_reply (file_at L depth en) en rcpt to reply received w3 = send_reply (file_at L 0 en) en rcpt to reply received w3); [|by rewrite G].
  unfold send_reply. cbn [deliver_each]. destruct (ac_Resolve _ to) as [p|]; [|done]. by rewrite F.
Qed.
End replies.

(** * Distribution lists ([internal/mta]: mlist.go)

    The expansion of a list against a definition of whom a post reaches. *)

Section lists.
Context (ToLower : bytes -> bytes) (exp : MListExpander) (from : bytes).
Definition key (a : bytes) : bytes := ToLower (TrimSpace a).

(** An address that is a list, whether or not the sender may post to it *)
Definition is_list (a : bytes) : bool := match exp a from with Ok (_, r) => negb (bool_decide (r = MListNone)) | Err _ => false end.

(** Whom a post to these members reaches: those that are no list, and those the lists among them
    reach, if the sender may post there *)
Inductive reaches : list bytes -> bytes -> Prop :=
| reaches_member m addrs : m ∈ addrs -> key m <> [] -> is_list m = false -> reaches addrs (key m)
| reaches_list m sub addrs k : m ∈ addrs -> key m <> [] -> exp m from = Ok (sub, MListOK) -> reaches sub k -> reaches addrs k.

(** The directory looks an address up by its key, and the keys of its lists are few. *)
Context (lists : gset bytes).
Hypothesis same_key : forall a b, key a = key b -> exp a from = exp b from.
Hypothesis few : forall a, is_list a = true -> key a ∈ lists.

Lemma is_list_key a b : key a = key b -> is_list a = is_list b.
Proof. intros H. unfold is_list. by rewrite (same_key a b H). Qed.

(** What a collection has seen is settled: each key seen is a leaf, or a list whose members are
    seen too. *)
Definition settled (seen0 seen : gset bytes) (leaves : list bytes) : Prop :=
  forall a, key a ∈ seen -> key a ∉ seen0 ->
    (is_list a = false -> key a ∈ map key leaves)
    /\ (forall sub, exp a from = Ok (sub, MListOK) -> forall m, m ∈ sub -> key m = [] \/ key m ∈ seen).

Record collected (addrs : list bytes) (seen0 : gset bytes) (leaves0 : list bytes) (seen : gset bytes) (leaves : list bytes) : Prop := {
  co_seen : seen0 ⊆ seen;
  co_all : forall m, m ∈ addrs -> key m = [] \/ key m ∈ seen;
  co_settled : settled seen0 seen leaves;
  co_leaves : exists new, leaves = leaves0 ++ new /\ NoDup (map key new)
    /\ forall m, m ∈ new -> key m ∉ seen0 /\ key m ∈ seen /\ is_list m = false /\ reaches addrs (key m) }.

Lemma reaches_mono a addrs k : reaches addrs k -> reaches (a :: addrs) k.
Proof. intros H. destruct H as [m addrs Hm|m sub addrs k Hm]; [eapply reaches_member|eapply reaches_list]; eauto using list_elem_of_further. Qed.

(** Settling is kept when more is seen and more leaves are added. *)
Lemma settled_trans s0 s1 s2 l1 l2 : settled s0 s1 l1 -> settled s1 s2 l2 -> s1 ⊆ s2 -> (forall k, k ∈ map key l1 -> k ∈ map key l2) -> settled s0 s2 l2.
Proof.
  intros H1 H2 Hs Hl a Ha Hn. destruct (decide (key a ∈ s1)) as [Hi|Hi]; [|by apply H2].
  destruct (H1 a Hi Hn) as [A1 A2]. split; [auto|]. intros sub E m Hm. destruct (A2 sub E m Hm); [by left|right; by apply Hs].
Qed.

Lemma collected_skip m addrs s0 l0 s l : key m = [] \/ key m ∈ s0 -> collected addrs s0 l0 s l -> collected (m :: addrs) s0 l0 s l.
Proof.
  intros Hm [H1 H2 H3 (new & E & N & F)]. split; [done| |done|].
  - intros x [->|Hx]%elem_of_cons; [|by apply H2]. destruct Hm; [by left|right; by apply H1].
  - exists new. split_and!; [done|done|]. intros x Hx. destruct (F x Hx) as (? & ? & ? & ?). split_and!; [done..|by apply reaches_mono].
Qed.

(** One address visited: itself a leaf, or a list with what its members lead to; then the rest *)
Lemma collected_step m addrs s0 l0 s1 l1 s2 l2 :
  key m <> [] -> key m ∉ s0 ->
  collected [m] s0 l0 s1 l1 -> collected addrs s1 l1 s2 l2 -> collected (m :: addrs) s0 l0 s2 l2.
Proof.
  intros Hk Hn [A1 A2 A3 (n1 & E1 & N1 & F1)] [B1 B2 B3 (n2 & E2 & N2 & F2)]. subst l1 l2. split.
  - by etrans.
  - intros x [->|Hx]%elem_of_cons; [|by apply B2]. destruct (A2 m) as [?|?]; [left|by left|right; by apply B1].
  - eapply settled_trans; [exact A3|exact B3|done|]. intros k Hin. rewrite map_app. apply elem_of_app. by left.
  - exists (n1 ++ n2). split_and!; [by rewrite app_assoc|..].
    + rewrite map_app. apply NoDup_app. split_and!; [done| |done]. intros k Hk1 Hk2.
      apply list_elem_of_In, List.in_map_iff in Hk1 as (x & <- & Hx). apply list_elem_of_In, List.in_map_iff in Hk2 as (y & E & Hy).
      apply list_elem_of_In in Hx, Hy. destruct (F1 x Hx) as (_ & ? & _), (F2 y Hy) as (? & _). congruence.
    + intros x [Hx|Hx]%elem_of_app.
      * destruct (F1 x Hx) as (? & ? & ? & Hr). split_and!; [done|by apply B1|done|].
        inversion Hr as [x' ? Hin|x' sub ? k Hin]; apply list_elem_of_singleton in Hin; subst; [eapply reaches_member|eapply reaches_list]; eauto using list_elem_of_here.
      * destruct (F2 x Hx) as (? & ? & ? & ?). split_and!; [set_solver|done|done|by apply reaches_mono].
Qed.

Lemma collected_leaf m s0 l0 : key m <> [] -> key m ∉ s0 -> is_list m = false -> collected [m] s0 l0 ({[key m]} ∪ s0) (l0 ++ [m]).
Proof.
  intros Hk Hn Hl. split; [set_solver| | |].
  - intros x ->%list_elem_of_singleton. right. set_solver.
  - intros a Ha Hs. assert (key a = key m) as E by set_solver. split.
    + intros _. rewrite E, map_app. apply elem_of_app. right. left.
    + intros sub X. rewrite (same_key a m E) in X. unfold is_list in Hl. by rewrite X in Hl.
  - exists [m]. split_and!; [done|apply NoDup_singleton|]. intros x ->%list_elem_of_singleton. split_and!; [done|set_solver|done|].
    apply reaches_member; [left|done|done].
Qed.
Lemma collected_sub m sub s0 l0 s l : key m <> [] -> key m ∉ s0 -> exp m from = Ok (sub, MListOK) ->
  collected sub ({[key m]} ∪ s0) l0 s l -> collected [m] s0 l0 s l.
Proof.
  intros Hk Hn E [A1 A2 A3 (new & El & N & F)]. split; [set_solver| | |].
  - intros x ->%list_elem_of_singleton. right. set_solver.
  - intros a Ha Hs. destruct (decide (key a = key m)) as [Ek|Ek]; [|apply A3; set_solver]. rewrite (is_list_key a m Ek), (same_key a m Ek). split.
    + unfold is_list. by rewrite E.
    + intros sub' X. rewrite E in X. injection X as <-. exact A2.
  - exists new. split_and!; [done|done|]. intros x Hx. destruct (F x Hx) as (? & ? & ? & ?). split_and!; [set_solver|done|done|].
    eapply reaches_list; [left|done|done|done].
Qed.
Lemma collected_refused m s0 l0 : key m <> [] -> key m ∉ s0 -> is_list m = true -> (forall sub, exp m from <> Ok (sub, MListOK)) ->
  collected [m] s0 l0 ({[key m]} ∪ s0) l0.
Proof.
  intros Hk Hn Hl Hx. split; [set_solver| | |].
  - intros x ->%list_elem_of_singleton. right. set_solver.
  - intros a Ha Hs. assert (key a = key m) as E by set_solver. rewrite (is_list_key a m E), (same_key a m E). split; [by rewrite Hl|]. intros sub X. by apply Hx in X.
  - exists []. split_and!; [by rewrite app_nil_r|constructor|]. intros x Hx'. by apply elem_of_nil in Hx'.
Qed.
Lemma collected_nil s l : collected [] s l s l.
Proof.
  split; [done|by intros m ?%elem_of_nil|by intros a ? ?|]. exists []. split_and!; [by rewrite app_nil_r|constructor|by intros m ?%elem_of_nil].
Qed.

(** With room for the lists not seen yet, the collection is complete. *)
Lemma collect_spec room : forall addrs seen leaves, (size (lists ∖ seen) <= room)%nat ->
  let r := collectListMembers ToLower exp from room addrs seen leaves in collected addrs seen leaves r.1 r.2.
Proof.
  induction room as [|room IHr]; intros addrs; induction addrs as [|m addrs IH]; intros seen leaves Hsz; try apply collected_nil; cbn [collectListMembers];
    fold (key m); case_bool_decide as Hs; (destruct (beq (key m) []) eqn:Eb; cbn [orb]; [apply bool_decide_eq_true in Eb|apply bool_decide_eq_false in Eb]);
    try (apply collected_skip; [by auto|by apply IH]);
    (assert (Hle : (size (lists ∖ ({[key m]} ∪ seen)) <= size (lists ∖ seen))%nat) by (apply subseteq_size; set_solver)).
  - assert (Hl : is_list m = false).
    { destruct (is_list m) eqn:El; [|done]. apply few in El. assert (size (lists ∖ seen) <> 0)%nat; [|lia]. apply size_non_empty_iff. set_solver. }
    eapply collected_step; [done|done|by apply collected_leaf|]. apply IH. lia.
  - assert (Hlt : is_list m = true -> (size (lists ∖ ({[key m]} ∪ seen)) <= room)%nat).
    { intros El. apply few in El. assert ((size (lists ∖ ({[key m]} ∪ seen)) < size (lists ∖ seen))%nat); [|lia]. apply subset_size. set_solver. }
    assert (Hleaf : is_list m = false -> let r := collectListMembers ToLower exp from (Datatypes.S room) addrs ({[key m]} ∪ seen) (leaves ++ [m]) in
      collected (m :: addrs) seen leaves r.1 r.2).
    { intros Hl r. eapply collected_step; [done|done|by apply collected_leaf|]. apply IH. lia. }
    unfold is_list in Hleaf, Hlt. destruct (exp m from) as [[sub res]|e] eqn:Ex; [|by apply Hleaf].
    destruct res; try (by apply Hleaf); cbn in Hlt; specialize (Hlt eq_refl);
      try (eapply collected_step; [done|done|apply collected_refused; [done|done|by unfold is_list; rewrite Ex|by rewrite Ex]|apply IH; lia]).
    pose proof (IHr sub ({[key m]} ∪ seen) leaves Hlt) as Hsub. cbn zeta in Hsub. destruct (collectListMembers _ _ _ room _ _ _) as [seen1 leaves1].
    eapply collected_step; [done|done|by eapply collected_sub|]. apply IH. destruct Hsub as [Hsub _ _ _]. cbn [fst] in Hsub.
    assert (size (lists ∖ seen1) <= size (lists ∖ ({[key m]} ∪ seen)))%nat by (apply subseteq_size; set_solver). lia.
Qed.

Lemma reaches_settled addrs k : reaches addrs k -> forall seen0 seen leaves, settled seen0 seen leaves ->
  (forall a, is_list a = false -> key a ∉ seen0) -> (forall m, m ∈ addrs -> key m = [] \/ key m ∈ seen) ->
  (forall a sub, exp a from = Ok (sub, MListOK) -> key a ∈ seen0 -> forall m, m ∈ sub -> key m = [] \/ key m ∈ seen) -> k ∈ map key leaves.
Proof.
  intros H. induction H as [m addrs Hm Hk Hl|m sub addrs k Hm Hk E _ IH]; intros s0 s l Hst H0 Ha Hl0.
  - destruct (Ha m Hm) as [?|Hs]; [done|]. destruct (Hst m Hs (H0 _ Hl)) as [X _]. by apply X.
  - destruct (Ha m Hm) as [?|Hs]; [done|]. eapply IH; [done|done| |done]. intros x Hx.
    destruct (decide (key m ∈ s0)) as [Hi|Hi]; [by eapply Hl0|]. destruct (Hst m Hs Hi) as [_ X]. by eapply X.
Qed.

(** C6. A distribution list expands to its members: as long as the directory has fewer than
    twenty lists, in whatever way they contain each other, cycles included, a post the directory
    accepts goes to everyone the list leads to through lists open to the sender, to nobody else,
    and to nobody twice. *)
Theorem list_expansion_exact to members :
  (size lists < maxListDepth)%nat -> exp to from = Ok (members, MListOK) ->
  exists leaves, expandMailingList ToLower exp from to = Ok (leaves, true, MListOK)
    /\ NoDup (map key leaves) /\ (forall k, k ∈ map key leaves <-> reaches members k).
Proof.
  intros Hsz Hto. unfold expandMailingList. rewrite Hto. fold (key to). eexists. split; [done|].
  assert (Hl : is_list to = true) by (unfold is_list; by rewrite Hto).
  assert (Hroom : (size (lists ∖ {[key to]}) <= maxListDepth - 1)%nat).
  { assert (size (lists ∖ {[key to]}) < size lists)%nat; [|unfold maxListDepth in *; lia]. apply subset_size. pose proof (few to Hl). set_solver. }
  destruct (collect_spec _ members {[key to]} [] Hroom) as [A1 A2 A3 (new & E & N & F)]. rewrite E in *. cbn [app] in *. split; [done|]. intros k. split.
  - intros Hk. apply list_elem_of_In, List.in_map_iff in Hk as (x & <- & Hx). apply list_elem_of_In in Hx. by destruct (F x Hx) as (_ & _ & _ & ?).
  - intros Hr. eapply reaches_settled; [exact Hr|exact A3| |exact A2|].
    + intros a Ha Hin. apply elem_of_singleton in Hin. by rewrite (is_list_key a to Hin), Hl in Ha.
    + intros a sub Ea Hin m Hm. apply elem_of_singleton in Hin. rewrite (same_key a to Hin), Hto in Ea. injection Ea as <-. by apply A2.
Qed.
End lists.
