(* ===== verification/MtaKept.v ===== *)
(** * What an accepted message becomes ([internal/mta])

    The mailbox stores are logged, each successful append with its mailbox, folder and bytes; a
    message the server took responsibility for is then in the log, in the spool, or in
    quarantine. *)

From stdpp Require Import base list numbers gmap relations.
From Stdlib Require Import ZArith Lia.
From Stdlib Require String.
Import String.StringSyntax.
From S2P Require Import Prelude Limitbase Netline Gostr Smtp Mtalimit Mailhdr Relay RelayProofs SmtpInv Antispam Mta MtaProofs.
Open Scope Z_scope.
#[local] Arguments lit : simpl never.

Record filing := mkFiling { fg_path : bytes; fg_folder : Z; fg_bytes : bytes }.

#[export] Instance logged {S : Type} `{!Mailboxes S} : Mailboxes (S * list filing) := {|
  mb_Open st p := let '(s, ok) := mb_Open st.1 p in ((s, st.2), ok);
  mb_OpenExisting st p := mb_OpenExisting st.1 p;
  mb_GetQuota st p := mb_GetQuota st.1 p;
  mb_MailboxSize st p := mb_MailboxSize st.1 p;
  mb_GetSendAs st p := mb_GetSendAs st.1 p;
  mb_GetSendOnBehalf st p := mb_GetSendOnBehalf st.1 p;
  mb_AppendMessage st p z f raw t fl :=
    let '(s, info) := mb_AppendMessage st.1 p z f raw t fl in
    ((s, match info with Some _ => st.2 ++ [mkFiling p f raw] | None => st.2 end), info);
  mb_GetOOFSettings st p := mb_GetOOFSettings st.1 p;
  mb_ContactHasAddress st p a := mb_ContactHasAddress st.1 p a;
  mb_GetSentCopyConfig st p := mb_GetSentCopyConfig st.1 p;
  mb_ApplyInboxRules st p id t := let '(s, a) := mb_ApplyInboxRules st.1 p id t in ((s, st.2), a);
  mb_OnMeetingRequest st p r id := let '(s, h) := mb_OnMeetingRequest st.1 p r id in ((s, st.2), h);
  mb_OnMeetingReply st p r id := (mb_OnMeetingReply st.1 p r id, st.2);
  mb_OnMeetingCancel st p r id := (mb_OnMeetingCancel st.1 p r id, st.2) |}.

Section kept.
Context {S R : Type} `{!Mailboxes S} (L : libs R).
Implicit Types (w : mworld (S * list filing) R) (en : env (S * list filing) R).

Definition log w : list filing := (mw_stores w).2.

(** The log only grows. *)
Definition grows w w' : Prop := log w `prefix_of` log w'.
Lemma grows_respected : respected L everyone grows.
Proof.
  split; unfold grows, log; intros; cbn -[mb_Open mb_AppendMessage mb_ApplyInboxRules mb_OnMeetingRequest]; try done.
  - split; [intros w; done|intros w1 w2 w3; apply PreOrder_Transitive].
  - cbn. by destruct (mb_Open _ _).
  - cbn. destruct (mb_AppendMessage _ _ _ _ _ _ _) as [s [id|]]; [|done]. cbn. by eexists.
  - cbn. by destruct (mb_ApplyInboxRules _ _ _ _).
  - cbn. by destruct (mb_OnMeetingRequest _ _ _ _).
Qed.
Lemma grown w w' f : grows w w' -> f ∈ log w -> f ∈ log w'.
Proof. intros [k E] H. rewrite E. apply elem_of_app. by left. Qed.

Lemma file_logged depth en w from rcpt path raw stored received folder w' :
  file_at L depth en w from rcpt path raw stored received folder = (w', true) -> mkFiling path folder stored ∈ log w'.
Proof.
  rewrite file_at_eq. cbn [mb_Open logged]. destruct (mb_Open _ _) as [st []]; cbn [negb]; [|done].
  cbn [mb_AppendMessage logged]. destruct (mb_AppendMessage _ _ _ _ _ _ _) as [st2 [id|]]; [|done]. intros [= <-].
  set (w2 := set_stores _ w). assert (H : mkFiling path folder stored ∈ log w2) by (unfold log; cbn; apply elem_of_app; right; left).
  destruct (_ =? _); [|done]. eapply grown; [|exact H]. apply (q_after _ _ _ grows_respected); [auto|auto|done|]. intros d _. apply (q_file _ _ _ grows_respected). auto.
Qed.

(** *** A session's message *)

Definition filed_for en (s : session) (sc : scoring) (t : target) : filing :=
  let f := recipientFiling L en s t sc in
  mkFiling (tg_path t) f.2 (withReturnPath (markCatchAll (tg_catchAll t) (tg_addr t) f.1) (ss_from s)).

Lemma targets_logged en s sc received ts : forall w w',
  deliverTargets L en s sc received ts w = (w', true) -> forall t, t ∈ ts -> filed_for en s sc t ∈ log w'.
Proof.
  induction ts as [|t ts IH]; intros w w' H x Hx; [by apply elem_of_nil in Hx|]. cbn [deliverTargets] in H.
  destruct (recipientFiling _ _ _ t _) as [raw folder] eqn:Ef. unfold deliver, fileDelivery in H.
  destruct (file_at _ _ _ _ _ _ _ _ _ _ _) as [w1 [|]] eqn:E; [|done]. apply file_logged in E.
  apply elem_of_cons in Hx as [->|Hx]; [|by eapply IH]. unfold filed_for. rewrite Ef. cbn [fst snd].
  eapply grown; [|exact E]. pose proof (q_targets L _ _ grows_respected en (everyone_closed en) s sc received ts (everyone_from _) (everyone_targets _) w1) as G. by rewrite H in G.
Qed.

Lemma scan_handled en mode from rcpts raw when label w : (scanMessageLabelled L en mode from rcpts raw when label w).2 = avHandled ->
  exists av virus, en_av en = Some av /\ av_Scan av raw = Some (Some virus).
Proof.
  unfold scanMessageLabelled. destruct (en_av en) as [av|]; [|done]. destruct (gate _ _ _ _) as [[sc di]|]; [|done]. destruct (_ <? _); [done|].
  destruct (av_Scan av raw) as [[virus|]|] eqn:E; [eauto|done|]. by case_bool_decide.
Qed.

(** C4. A 250 is a promise kept: when the backend accepts a message, either the scanner found a
    virus in it, or every local recipient's mailbox has taken the copy filed for it, with the
    envelope's Return-Path, and every external recipient is in the outbound spool with the
    message, its envelope and its notification wishes. *)
Theorem accepted_is_kept en sign s w raw s' w' :
  Data L en sign s w raw EndEOF = (s', w', None) ->
  (exists av virus, en_av en = Some av /\ av_Scan av raw = Some (Some virus))
  \/ exists w1, let sc := (scoreInbound L en s raw (en_now en) w1).2 in
     (forall t, t ∈ ss_targets s -> filed_for en s sc t ∈ log w')
     /\ (ss_relayTargets s = [] \/ mw_spool w' = EnqueueDSN sign (mw_spool w) (mw_queued w) (ss_from s) (ss_ret s) (ss_envid s) (ss_relayTargets s) raw (Unix (en_now en))).
Proof.
  intros H. pose proof (calm_respected (S := S * list filing) L everyone) as HQ. pose proof (everyone_closed en) as HA. unfold Data, avVerdict, scanMessage in H.
  set (mode := if beq (ss_authUser s) [] then avInboundSMTP else avSubmission) in H. set (rs := avRecipients _ _) in H.
  pose proof (scan_handled en mode (ss_from s) rs raw (en_now en) [] w) as V. pose proof (q_scan L _ _ HQ en HA mode (ss_from s) rs raw (en_now en) [] w) as [C1 D1].
  destruct (scanMessageLabelled _ _ _ _ _ _ _ _ _) as [w1 []]; cbn [fst snd] in *; [|left; by apply V|done]. right. exists w1.
  pose proof (q_score L _ _ HQ en s raw (en_now en) w1) as [C2 D2]. destruct (scoreInbound _ _ _ _ _ w1) as [w2 sc]. cbn [fst snd] in *.
  pose proof (q_targets L _ _ HQ en HA s sc (en_now en) (ss_targets s) (everyone_from _) (everyone_targets _) w2) as [C3 D3].
  destruct (deliverTargets _ _ _ _ _ _ _) as [w3 []] eqn:E; cbn [negb fst] in *; [|done]. pose proof (targets_logged _ _ _ _ _ _ _ E) as T.
  unfold queueRelay, enqueue in H. destruct (ss_relayTargets s) as [|d ds] eqn:Ed.
  { cbn [negb] in H. injection H as _ <-. split; [|by left]. intros t Ht. eapply grown; [apply (q_ingest L _ _ grows_respected)|by apply T]. }
  destruct (en_spool_ok en); cbn [negb] in H; [|done]. injection H as _ <-. split.
  - intros t Ht. eapply grown; [apply (q_ingest L _ _ grows_respected)|]. by apply (T t).
  - right. set (w4 := set_queue _ _ w3). pose proof (q_ingest L _ _ HQ en s raw (en_now en) sc w4) as [C4 _]. rewrite C4. cbn [w4 mw_spool set_queue]. replace (mw_spool w3) with (mw_spool w) by congruence. replace (mw_queued w3) with (mw_queued w) by congruence. reflexivity.
Qed.

(** *** A message sent by another client *)

(** Where a recipient of a sent message is: left over for the caller, in a mailbox, or queued *)
Definition accounted en (envelope localRaw : bytes) (unresolved : list bytes) w (r : bytes) : Prop :=
  r ∈ unresolved
  \/ (exists path, ac_Resolve (en_accounts en) r = Some path /\ mkFiling path PrivateFIDInbox (withReturnPath localRaw envelope) ∈ log w)
  \/ (exists id row, sp_recipients (mw_spool w) !! id = Some row /\ rc_addr row = r).

Lemma each_accounted en from rcpts raw received : forall un w w' un',
  deliver_each (fileDelivery L en) (en_accounts en) from rcpts raw (withReturnPath raw from) received un w = (w', un', true) ->
  (forall r, r ∈ un -> r ∈ un')
  /\ forall r, r ∈ rcpts -> r ∈ un'
     \/ exists path, ac_Resolve (en_accounts en) r = Some path /\ mkFiling path PrivateFIDInbox (withReturnPath raw from) ∈ log w'.
Proof.
  induction rcpts as [|a rcpts IH]; intros un w w' un' H; cbn [deliver_each] in H.
  { injection H as <- <-. split; [done|]. by intros r ?%elem_of_nil. }
  destruct (ac_Resolve _ a) as [path|] eqn:Er.
  - unfold fileDelivery in H at 1. destruct (file_at _ _ _ _ _ _ _ _ _ _ _) as [w1 [|]] eqn:E; [|done]. apply file_logged in E.
    pose proof (q_each L _ _ grows_respected en (everyone_closed en) (fileDelivery L en) from rcpts raw (withReturnPath raw from) received (q_file L _ _ grows_respected en (everyone_closed en) 1) (everyone_from _) un w1) as G.
    rewrite H in G. destruct (IH _ _ _ _ H) as [A B]. split; [done|]. intros r [->|Hr]%elem_of_cons; [|by apply B].
    right. exists path. split; [done|]. by eapply grown.
  - destruct (IH _ _ _ _ H) as [A B]. split; [intros r Hr; apply A, elem_of_app; by left|]. intros r [->|Hr]%elem_of_cons; [|by apply B].
    left. apply A, elem_of_app. right. left.
Qed.

Lemma enqueued_present mid now rcpts : forall tag rows d, d ∈ rcpts ->
  exists id r, insert_recipients mid now tag rcpts rows !! id = Some r /\ rc_addr r = ds_Addr d.
Proof.
  induction rcpts as [|x rcpts IH]; intros tag rows d Hd; [by apply elem_of_nil in Hd|]. cbn [insert_recipients].
  apply elem_of_cons in Hd as [->|Hd]; [|by apply IH]. eexists (next_rowid rows), _. split; [apply insert_recipients_old; by rewrite lookup_insert, decide_True|done].
Qed.

Lemma in_filter {A} (f : A -> bool) l x : x ∈ List.filter f l <-> x ∈ l /\ f x = true.
Proof. rewrite !list_elem_of_In. apply List.filter_In. Qed.

Lemma relay_accounted en sign from un raw received w w' stuck :
  relayUnresolved en sign from un raw received w = (w', stuck, true) ->
  mw_stores w' = mw_stores w /\ forall r, r ∈ un -> r ∈ stuck \/ exists id row, sp_recipients (mw_spool w') !! id = Some row /\ rc_addr row = r.
Proof.
  unfold relayUnresolved. set (ext := List.filter (is_relayable _) un). set (rest := List.filter _ un). intros H.
  assert (Hs : forall r, r ∈ un -> r ∈ rest \/ r ∈ ext).
  { intros r Hr. unfold rest, ext. rewrite !in_filter. destruct (is_relayable _ r); [right|left]; done. }
  destruct ext as [|x xs].
  - injection H as <- <-. split; [done|]. intros r Hr. destruct (Hs r Hr) as [?|X]; [by left|by apply elem_of_nil in X].
  - unfold enqueue in H. destruct (en_spool_ok en); [|done]. set (rows := map _ (x :: xs)) in H.
    apply (f_equal fst) in H. cbn [fst] in H. apply pair_equal_spec in H as [<- <-]. split; [done|].
    intros r Hr. destruct (Hs r Hr) as [?|X]; [by left|right]. apply (enqueued_present _ _ rows _ _ (mkDSN r [] [])).
    apply list_elem_of_In, List.in_map_iff. exists r. split; [done|by apply list_elem_of_In].
Qed.

Lemma forwards_cover ToLower fwder rcpts : forall seen locals dests, (forall d, d ∈ seen -> d ∈ dests) ->
  let r := apply_forwards ToLower fwder rcpts seen locals dests in
  (forall x, x ∈ locals -> x ∈ r.1) /\ (forall x, x ∈ dests -> x ∈ r.2)
  /\ forall a, a ∈ rcpts -> a ∈ r.1 \/ exists fi, forward_of fwder a = Some fi /\ ToLower (TrimSpace (fw_Destination fi)) ∈ r.2.
Proof.
  induction rcpts as [|a rcpts IH]; intros seen locals dests Hs; cbn [apply_forwards]; [split_and!; [done|done|by intros ? ?%elem_of_nil]|].
  destruct (forward_of fwder a) as [fi|] eqn:Ef.
  - set (dest := ToLower _). set (locals1 := if _ =? _ then _ else _). assert (Hl : forall x, x ∈ locals -> x ∈ locals1).
    { intros x Hx. unfold locals1. destruct (_ =? _); [apply elem_of_app; by left|done]. }
    case_bool_decide as Hd.
    + destruct (IH seen locals1 dests Hs) as (A & B & C). split_and!; [auto|done|]. intros x [->|Hx]%elem_of_cons; [|by apply C]. right. exists fi. eauto.
    + destruct (IH ({[dest]} ∪ seen) locals1 (dests ++ [dest])) as (A & B & C).
      { intros d [->%elem_of_singleton|Hx]%elem_of_union; apply elem_of_app; [right; left|left; by apply Hs]. }
      split_and!; [auto| |].
      * intros x Hx. apply B, elem_of_app. by left.
      * intros x [->|Hx]%elem_of_cons; [|by apply C]. right. exists fi. split; [done|]. apply B, elem_of_app. right. left.
  - destruct (IH seen (locals ++ [a]) dests Hs) as (A & B & C). split_and!; [intros x Hx; apply A, elem_of_app; by left|done|].
    intros x [->|Hx]%elem_of_cons; [|by apply C]. left. apply A, elem_of_app. right. left.
Qed.

(** C7. Nothing sent vanishes: when a send succeeds, every recipient the lists expand to is filed
    in its mailbox, queued for relay or handed back to the caller, or has a forward whose
    destination is; and every list that refused the sender is handed back. *)
Theorem nothing_vanishes en spool from envelope rcpts raw received w w' unresolved localRaw :
  deliverAndRelay L en spool from envelope rcpts raw received w = (w', unresolved, inr localRaw) ->
  let expanded := expandRecipientList (lb_ToLower L) (en_accounts en) from rcpts in
  (forall r, r ∈ expanded.2 -> r ∈ unresolved)
  /\ forall r, r ∈ expanded.1 ->
     accounted en envelope localRaw unresolved w' r
     \/ exists fwder fi, ac_GetForward (en_accounts en) = Some fwder /\ forward_of fwder r = Some fi
          /\ accounted en envelope localRaw unresolved w' (lb_ToLower L (TrimSpace (fw_Destination fi))).
Proof.
  intros H. unfold deliverAndRelay in H. destruct (overMessageSize en raw); [done|]. destruct (scanMessage _ _ _ _ _ _ _ _) as [w1 d].
  destruct (bool_decide (d = avHandled)); [done|]. destruct (overSendQuota _ _ _) as [st [e|]]; [done|].
  destruct (match spool with Some _ => _ | None => _ end) as [w2 [|]]; [|done]. cbn [negb] in H.
  destruct (expandRecipientList _ _ _ _) as [leaves refused] eqn:Ex. destruct (applyForwards _ _ leaves) as [locals dests] eqn:Ef.
  destruct (outgoingCopies _ _ _ _) as [lraw rraw]. destruct (Deliver _ _ _ _ _ _ _) as [[w3 un] [|]] eqn:Ed; [|done]. cbn [negb] in H.
  apply each_accounted in Ed as [_ Hd]. cbn [fst snd].
  assert (K : (forall r, r ∈ refused -> r ∈ unresolved) /\ forall r, r ∈ locals ++ dests -> accounted en envelope localRaw unresolved w' r).
  { destruct spool as [sign|]; [destruct un as [|u un]|].
    1,3: injection H as <- <- <-; split; [set_solver|];
         intros r Hr; destruct (Hd r Hr) as [Hu|Hp]; [left; set_solver|right; by left].
    destruct (relayUnresolved _ _ _ _ _ _ _) as [[w4 stuck] ok] eqn:Er. destruct ok; [|done]. apply relay_accounted in Er as [Es Hk]. injection H as <- <- <-.
    split; [set_solver|]. intros r Hr. destruct (Hd r Hr) as [Hu|(p & Hp & Hf)].
    - destruct (Hk r Hu) as [?|?]; [left; set_solver|right; by right].
    - right. left. exists p. split; [done|]. unfold log. by rewrite Es. }
  destruct K as [K1 K2]. split; [done|]. intros r Hr. unfold applyForwards in Ef. destruct (ac_GetForward _) as [fwder|].
  - pose proof (forwards_cover (lb_ToLower L) fwder leaves ∅ [] []) as (_ & _ & C); [by intros ? ?%elem_of_empty|]. rewrite Ef in C. cbn [fst snd] in C.
    destruct (C r Hr) as [Hl|(fi & E & Hl)]; [left|right; exists fwder, fi; split_and!; [done|done|]]; apply K2, elem_of_app; [by left|by right].
  - injection Ef as <- <-. left. apply K2, elem_of_app. by left.
Qed.
End kept.

(** * Filing of scored mail, and runs of the mail session ([internal/mta], [internal/antispam])

    The verdict decides the folder and the tag alike; an authentication failure is not allowed
    away.  Then a concrete directory and store, on which the theorems are applied and the
    session is run. *)

(** ** The verdict *)

Section verdict.
Context (ToLower : bytes -> bytes) (tld : bytes -> option bytes).

Lemma access_after_signals s inp w cfg v valid :
  vd_AccessAction (scoreContent s inp w (scoreDNSBL s inp cfg (scoreDMARC ToLower tld s inp w valid v))) = vd_AccessAction v.
Proof.
  assert (H1 : forall v, vd_AccessAction (scoreContent s inp w v) = vd_AccessAction v).
  { intros x. unfold scoreContent. destruct (beq _ _); [done|]. by destruct (so_bayes s) as [f|]; [destruct (f _)|]; destruct (so_saRules s) as [g|]; try destruct (g _). }
  assert (H2 : forall zones v, vd_AccessAction (foldl (fun v z => if default (fun _ _ => false) (so_checkDNSBL s) (in_ClientIP inp) z
                 then add (wt_DNSBLHit (cf_Weights cfg)) (RDNSBL z) (set_dnsbl z v) else v) v zones) = vd_AccessAction v).
  { intros zones. induction zones as [|z zones IH]; intros x; [done|]. cbn [foldl]. rewrite IH. by destruct (default _ _ _ _). }
  rewrite H1. unfold scoreDNSBL. destruct (so_checkDNSBL s) as [check|] eqn:Ec.
  - destruct (beq _ _); [|cbn [default] in H2; rewrite H2]; unfold scoreDMARC; destruct (so_lookupDMARC s) as [lk|]; try done; destruct (beq _ _); try done;
      destruct (lk _) as [pol|]; try done; destruct (_ || _); try done; by destruct (_ || _).
  - unfold scoreDMARC; destruct (so_lookupDMARC s) as [lk|]; try done; destruct (beq _ _); try done; destruct (lk _) as [pol|]; try done; destruct (_ || _); try done; by destruct (_ || _).
Qed.

(** The verdict's last word: an operator block is spam, an operator allow is not unless DMARC
    failed under an enforcing policy, and the score decides the rest. *)
Lemma verdict_last_word s inp :
  let v := Score ToLower tld s inp in
  vd_Spam v = if beq (vd_AccessAction v) AccessBlock then true
              else if beq (vd_AccessAction v) AccessAllow && negb (vd_DMARCReject v) then false
              else cf_Threshold (scoringConfig s) <=? vd_Score v.
Proof.
  unfold Score. destruct (scoreDKIM s inp _ _) as [v1 valid] eqn:E1.
  assert (H1 : vd_AccessAction v1 = []).
  { assert (H0 : vd_AccessAction (scoreSPF s inp (cf_Weights (scoringConfig s)) emptyVerdict) = []).
    { unfold scoreSPF. destruct (so_checkSPF s) as [f|]; [|done]. destruct (_ || _); [done|]. by destruct (f _ _ _). }
    unfold scoreDKIM in E1. destruct (so_checkDKIM s) as [f|]; [|by injection E1 as <- <-]. destruct (beq _ _); [by injection E1 as <- <-|].
    destruct (map _ _); by injection E1 as <- <-. }
  pose proof (access_after_signals s inp (cf_Weights (scoringConfig s)) (scoringConfig s) v1 valid) as H2. rewrite H1 in H2.
  set (v2 := scoreContent _ _ _ _) in *. clearbody v2. unfold applyAccess. destruct (so_access s) as [acc|]; [|cbn [set_spam vd_Spam vd_AccessAction vd_Score]; by rewrite H2].
  destruct (beq (in_MailFrom inp) []); [cbn [set_spam vd_Spam vd_AccessAction vd_Score]; by rewrite H2|]. cbn [set_access vd_DMARCReject set_spam]. set (act := Action _ _ _ _).
  destruct (beq act AccessBlock) eqn:Eb, (beq act AccessAllow) eqn:Ea, (vd_DMARCReject v2) eqn:Ed;
    cbn [say_why set_spam set_access vd_Spam vd_AccessAction vd_DMARCReject vd_Score]; by rewrite ?Eb, ?Ea, ?Ed.
Qed.
End verdict.

Section filing.
Context {S R : Type} `{!Mailboxes S} (L : libs R).

Lemma tag_set_spam raw v : Tag raw (set_spam (vd_Spam v) v) = Tag raw v.
Proof. by destruct v. Qed.

(** C9. Filing follows the verdict: each recipient of a scored message gets a copy whose X-Spam
    fields agree with the folder it is filed in, Junk or the inbox.  A sender the operator blocks
    is in Junk for everyone, and mail that failed an enforcing DMARC policy reaches an inbox only
    when its score is below the threshold, the operator's or the recipient's own, whatever allow
    rules there are. *)
Theorem filing_follows_verdict (en : env S R) s raw received w scorer t :
  en_scorer en = Some scorer -> ss_authUser s = [] -> ss_targets s <> [] ->
  let sc := (scoreInbound L en s raw received w).2 in
  let v := sg_verdict sc in
  exists spam, recipientFiling L en s t sc = (Tag raw (set_spam spam v), if spam : bool then PrivateFIDJunk else PrivateFIDInbox)
    /\ (vd_AccessAction v = AccessBlock -> spam = true)
    /\ (vd_DMARCReject v = true -> spam = false ->
        exists th, vd_Score v < th
          /\ (th = cf_Threshold (scoringConfig scorer) \/ exists f, en_thresholds en = Some f /\ f (tg_path t) = Ok (Some th))).
Proof.
  intros Hs Hu Ht. unfold scoreInbound. rewrite Hs, Hu, bool_decide_eq_false_2 by done. change (beq [] []) with true. cbn [andb negb snd sg_verdict].
  set (inp := mkInput _ _ _ _ _). pose proof (verdict_last_word (lb_ToLower L) (lb_publicsuffix L) scorer inp) as W. cbv zeta in W.
  set (v := Score _ _ _ _) in *. clearbody v. set (sc := mkScoring _ _ _ _ _ _).
  assert (D : (sg_raw sc, sg_folder sc) = (Tag raw (set_spam (vd_Spam v) v), if vd_Spam v then PrivateFIDJunk else PrivateFIDInbox)) by by rewrite tag_set_spam.
  assert (T : vd_AccessAction v <> AccessBlock -> vd_DMARCReject v = true -> vd_Spam v = false -> vd_Score v < cf_Threshold (scoringConfig scorer)).
  { intros Hb Hr Hf. rewrite W in Hf. unfold beq in Hf. rewrite bool_decide_eq_false_2 in Hf by done. rewrite Hr, andb_false_r in Hf. by apply Z.leb_gt in Hf. }
  unfold recipientFiling. cbn [sc sg_scored sg_verdict negb]. fold sc.
  destruct (bool_decide_reflect (vd_AccessAction v = AccessBlock)) as [Eb|Eb].
  { unfold beq at 1. rewrite (bool_decide_eq_true_2 _ Eb). exists (vd_Spam v). unfold beq in W. rewrite (bool_decide_eq_true_2 _ Eb) in W. split_and!; [done|done|]. intros _. by rewrite W. }
  assert (Nb : beq (vd_AccessAction v) AccessBlock = false) by by apply bool_decide_eq_false_2. rewrite Nb.
  destruct (beq (recipientAction _ _ _ _ _) AccessBlock).
  { exists true. split_and!; done. }
  assert (K : exists spam, (sg_raw sc, sg_folder sc) = (Tag raw (set_spam spam v), if spam : bool then PrivateFIDJunk else PrivateFIDInbox)
    /\ (vd_AccessAction v = AccessBlock -> spam = true)
    /\ (vd_DMARCReject v = true -> spam = false -> exists th, vd_Score v < th
        /\ (th = cf_Threshold (scoringConfig scorer) \/ exists f, en_thresholds en = Some f /\ f (tg_path t) = Ok (Some th)))).
  { exists (vd_Spam v). split_and!; [done|done|]. intros Hr Hf. exists (cf_Threshold (scoringConfig scorer)). split; [by apply T|by left]. }
  destruct (beq (vd_AccessAction v) AccessAllow); [exact K|]. destruct (beq (recipientAction _ _ _ _ _) AccessAllow && negb (vd_DMARCReject v)) eqn:Ea.
  { exists false. split_and!; [done|done|]. intros Hr. rewrite Hr, andb_false_r in Ea. done. }
  unfold thresholdFiling. destruct (en_thresholds en) as [f|] eqn:Ef; [|exact K]. destruct (f (tg_path t)) as [[o|]|e] eqn:Eo; [|exact K..].
  exists (o <=? vd_Score v). split_and!; [done|done|]. intros _ Ho. apply Z.leb_gt in Ho. exists o. split; [done|right]. by exists f.
Qed.
End filing.
