(* ===== verification/MtaRuns.v ===== *)
(** * Runs of the mail session ([internal/mta] over [internal/smtp])

    A small directory and store, on which the theorems about delivery are applied and SMTP
    sessions are run to their end. *)

From stdpp Require Import base list numbers gmap.
From Stdlib Require Import ZArith Lia.
From Stdlib Require String.
Import String.StringSyntax.
From S2P Require Import Prelude Gostr Netline Limitbase Mtalimit Smtp SmtpBody SmtpProofs SmtpInv Mailhdr Relay Antispam Mta MtaProofs MtaKept.
Open Scope Z_scope.

(** Mailboxes that take everything and are out of office *)
Definition away : OOFSettings := mkOOF true (lit "away") (lit "later") (lit "away") (lit "later") true 0 0 0.
#[local] Instance takes_all : Mailboxes unit := {|
  mb_Open st p := (st, true); mb_OpenExisting st p := true; mb_GetQuota st p := None; mb_MailboxSize st p := None;
  mb_GetSendAs st p := Some [lit "friend@corp"]; mb_GetSendOnBehalf st p := None;
  mb_AppendMessage st p z f raw t fl := (st, Some 1); mb_GetOOFSettings st p := Some away; mb_ContactHasAddress st p a := Some true;
  mb_GetSentCopyConfig st p := None; mb_ApplyInboxRules st p id t := (st, mkRuleActions [] [] []);
  mb_OnMeetingRequest st p r id := (st, false); mb_OnMeetingReply st p r id := st; mb_OnMeetingCancel st p r id := st |}.

Definition ex_libs : libs unit :=
  mkLibs unit (map lower_byte) (fun _ => None) (fun _ => None) (fun n a => a) (fun _ => None) (fun s => lit "q") (fun s => s) (fun _ => lit "today") (lit "1")
    (lit "b") (fun _ => []) (fun r => r) (fun r => r) (fun _ => None) (fun _ => None) (fun _ => []).

Definition local_part_of (table : list (bytes * bytes)) (a : bytes) : option bytes :=
  match List.find (fun p => beq p.1 a) table with Some p => Some p.2 | None => None end.
Definition ex_boxes : bytes -> option bytes :=
  local_part_of [(lit "boss@corp", lit "/boss"); (lit "eve@corp", lit "/eve"); (lit "bob@corp", lit "/bob")].
(** Two lists that contain each other *)
Definition ex_lists (a from : bytes) : result unit (list bytes * MListResult) :=
  if beq (map lower_byte (TrimSpace a)) (lit "all@corp") then Ok ([lit "bob@corp"; lit "carol@out"; lit "team@corp"], MListOK)
  else if beq (map lower_byte (TrimSpace a)) (lit "team@corp") then Ok ([lit "all@corp"; lit "Bob@corp"; lit "dave@out"], MListOK)
  else Ok ([], MListNone).
Definition ex_accounts (passwords : bool) : Accounts :=
  mkAccounts ex_boxes None (Some ex_lists) (Some (fun d => Ok (beq d (lit "corp")))) None None
    (Some (fun u p => if passwords && beq u (lit "eve@corp") && beq p (lit "pw") then Some (lit "/eve") else None)) (fun _ => true) None None (fun _ => []).
Definition ex_env {S : Type} (passwords : bool) (now : Z) : env S unit :=
  mkEnv S unit (ex_accounts passwords) id now (now, now, now, now) true (true, true) false true [] None 0 None None None None None None.
Definition ex_world {S : Type} (st : S) : mworld S unit := mkMWorld st (mkSpool ∅ ∅) 0 None None None None [] [] [] [] [].

Definition ex_sv : Server := mkServer (lit "mx") true 0 0.
Definition ex_mo : moment := mkMoment (lit "ip") None (lit "today").
Definition ex_mail (passwords : bool) (input : bytes) :=
  handle (Session0 := mta_Session ex_libs (fun _ => ex_env passwords 1000000000) (Some id)) (fun _ => ex_sv) (fun _ => ex_sv) (fun _ => ex_mo) ex_sv
    (fun a => Some (mkBackend (NewSession a) (ex_world tt) 0)) (lit "9.9.9.9:1") input None true Pipelined.

(** The reply codes, and the envelope senders and recipients in the spool *)
Definition codes (rs : list resp) : list Z := map (fun r => match r with Reply c _ => c | Ehlo _ => 250 end) rs.
Definition outcome (passwords : bool) (input : bytes) : option (list Z * list bytes * list bytes) :=
  match ex_mail passwords input with
  | inr (Some (c, _)) =>
      let sp := mw_spool (bs_world (sc_sess c)) in
      Some (codes (ew_sent (sc_w c)), map (fun r => ms_from r.2) (map_to_list (sp_messages sp)), map (fun r => rc_addr r.2) (map_to_list (sp_recipients sp)))
  | _ => None
  end.

(** A stranger's session: a foreign recipient is refused, a list of ours relays to its foreign
    members *)
Definition stranger : bytes :=
  lines [lit "EHLO x"; lit "MAIL FROM:<a@b>"; lit "RCPT TO:<carol@out>"; lit "RCPT TO:<All@corp>"; lit "DATA"; lit "hi"; lit "."; lit "QUIT"].
Example stranger_run : outcome false stranger = Some ([220; 250; 250; 550; 250; 354; 250; 221], [lit "a@b"], [lit "dave@out"; lit "carol@out"]).
Proof. vm_compute. reflexivity. Qed.

(** The same session with a header and its calls recorded: the out-of-office answer of a list
    member goes back to the sender. *)
Definition visitor : bytes :=
  lines [lit "EHLO x"; lit "MAIL FROM:<a@b>"; lit "RCPT TO:<carol@out>"; lit "RCPT TO:<All@corp>"; lit "DATA"; lit "Subject: hi"; lit ""; lit "x"; lit "."; lit "QUIT"].
Definition ex_envs (k : nat) : env unit unit := ex_env false 1000000000.
Definition ex_recorded :=
  handle (Session0 := recorded (Session0 := mta_Session ex_libs ex_envs (Some id))) (fun _ => ex_sv) (fun _ => ex_sv) (fun _ => ex_mo) ex_sv
    (fun a => Some (mkBackend (NewSession a) (ex_world tt) 0, [])) (lit "9.9.9.9:1") visitor None true Pipelined.
Example visitor_hooks : match ex_recorded with
  | inr (Some (c, _)) => (senders (sc_sess c).2, map (fun h => (hk_owner h, hk_to h)) (mw_hooks (bs_world (sc_sess c).1)))
  | _ => ([], [])
  end = ([lit "a@b"], [(lit "bob@corp", [lit "a@b"])]).
Proof. vm_compute. reflexivity. Qed.

Lemma no_open_relay_witness : exists c' more hooks, ex_recorded = inr (Some (c', more))
  /\ mw_hooks (bs_world (sc_sess c').1) = mw_hooks (ex_world tt) ++ hooks
  /\ rows_from (fun sender addr => ((sender = [] \/ sender ∈ senders (sc_sess c').2) /\ listed ex_libs ex_envs sender addr)
                                   \/ ruled ex_libs ex_envs (senders (sc_sess c').2) sender addr)
       (mw_spool (ex_world tt)) (mw_spool (queue_hooks (Some id) (zip (ex_envs <$> seq 0 9) hooks) (bs_world (sc_sess c').1))).
Proof.
  destruct ex_recorded as [rs|[[c' more]|]] eqn:E; [by vm_compute in E| |by vm_compute in E].
  destruct (no_open_relay ex_libs ex_envs (Some id) (fun _ => ex_sv) (fun _ => ex_sv) (fun _ => ex_mo) ex_sv (lit "9.9.9.9:1") visitor None true Pipelined
    (ex_world tt) c' more) as (hooks & H1 & H2); [|exact E|].
  - intros k f u p [= <-]. reflexivity.
  - exists c', more, hooks. split; [reflexivity|]. split; [exact H1|apply H2].
Defined.

(** A post to either list reaches its members once. *)
Lemma list_expansion_exact_witness :
  exists leaves, expandMailingList (map lower_byte) ex_lists (lit "a@b") (lit "all@corp") = Ok (leaves, true, MListOK)
    /\ NoDup (map (key (map lower_byte)) leaves)
    /\ (forall k, k ∈ map (key (map lower_byte)) leaves
          <-> reaches (map lower_byte) ex_lists (lit "a@b") [lit "bob@corp"; lit "carol@out"; lit "team@corp"] k).
Proof.
  apply (list_expansion_exact (map lower_byte) ex_lists (lit "a@b") {[lit "all@corp"; lit "team@corp"]}).
  - intros a b H. unfold ex_lists, key in *. by rewrite H.
  - intros a. unfold is_list, ex_lists, key, beq. destruct (decide (map lower_byte (TrimSpace a) = lit "all@corp")) as [->|H1]; [set_solver|].
    rewrite (bool_decide_eq_false_2 _ H1). destruct (decide (map lower_byte (TrimSpace a) = lit "team@corp")) as [->|H2]; [set_solver|].
    by rewrite (bool_decide_eq_false_2 _ H2).
  - vm_compute. lia.
  - vm_compute. reflexivity.
Defined.

(** Two mailboxes out of office: one reply, and no reply to it *)
Definition ex_message : bytes := lines [lit "From: bob@corp"; lit "Subject: lunch"; lit "Message-ID: <7@corp>"; lit ""; lit "?"].
Lemma replies_end_witness :
  file_at ex_libs 8 (ex_env false 1000000000) (ex_world (tt, [])) (lit "bob@corp") (lit "eve@corp") (lit "/eve") ex_message ex_message 1000000000 PrivateFIDInbox
  = fileDelivery ex_libs (ex_env false 1000000000) (ex_world (tt, [])) (lit "bob@corp") (lit "eve@corp") (lit "/eve") ex_message ex_message 1000000000 PrivateFIDInbox
  /\ map fg_path (log (file_at ex_libs 8 (ex_env false 1000000000) (ex_world (tt, [])) (lit "bob@corp") (lit "eve@corp") (lit "/eve") ex_message ex_message
                         1000000000 PrivateFIDInbox).1) = [lit "/eve"; lit "/bob"].
Proof.
  split; [|vm_compute; reflexivity].
  apply (replies_end ex_libs (Build_one_line_libs ex_libs (fun _ => eq_refl) (fun _ => eq_refl) eq_refl) 7); vm_compute; reflexivity.
Defined.

(** A message for a local and a foreign recipient *)
Definition ex_session : session :=
  mkSession (lit "9.9.9.9:1") (lit "eve@corp") [mkTarget (lit "bob@corp") (lit "/bob") false] [mkDSN (lit "carol@out") [] []] [] [] (lit "eve@corp") (lit "/eve").
Definition ex_data := Data ex_libs (ex_env true 1000000000) id ex_session (ex_world (tt, [])) (lit "hi") EndEOF.
Lemma accepted_is_kept_witness :
  (exists av virus, en_av (ex_env (S := unit * list filing) true 1000000000) = Some av /\ av_Scan av (lit "hi") = Some (Some virus))
  \/ exists w1 : mworld (unit * list filing) unit, let sc := (scoreInbound ex_libs (ex_env true 1000000000) ex_session (lit "hi") (en_now (ex_env (S := unit * list filing) true 1000000000)) w1).2 in
     (forall t, t ∈ ss_targets ex_session -> filed_for (S := unit) ex_libs (ex_env true 1000000000) ex_session sc t ∈ log ex_data.1.2)
     /\ (ss_relayTargets ex_session = [] \/ mw_spool ex_data.1.2 = EnqueueDSN id (mw_spool (ex_world (tt, @nil filing))) (mw_queued (ex_world (tt, @nil filing)))
           (ss_from ex_session) (ss_ret ex_session) (ss_envid ex_session) (ss_relayTargets ex_session) (lit "hi") (Unix (en_now (ex_env (S := unit * list filing) true 1000000000)))).
Proof.
  apply (accepted_is_kept ex_libs (ex_env true 1000000000) id ex_session (ex_world (tt, [])) (lit "hi") ex_data.1.1 ex_data.1.2). vm_compute. reflexivity.
Defined.

(** A send to a mailbox, a list and a stranger's domain *)
Definition ex_send := deliverAndRelay ex_libs (ex_env true 1000000000) (Some id) (lit "eve@corp") (lit "eve@corp")
  [lit "bob@corp"; lit "team@corp"; lit "nobody@corp"] (lit "hi") 1000000000 (ex_world (tt, [])).
Lemma nothing_vanishes_witness :
  let expanded := expandRecipientList (lb_ToLower ex_libs) (en_accounts (ex_env (S := unit * list filing) true 1000000000)) (lit "eve@corp")
                    [lit "bob@corp"; lit "team@corp"; lit "nobody@corp"] in
  (forall r, r ∈ expanded.2 -> r ∈ ex_send.1.2)
  /\ forall r, r ∈ expanded.1 ->
     accounted (S := unit) (ex_env true 1000000000) (lit "eve@corp") (lit "hi") ex_send.1.2 ex_send.1.1 r
     \/ exists fwder fi, ac_GetForward (en_accounts (ex_env (S := unit * list filing) true 1000000000)) = Some fwder /\ forward_of fwder r = Some fi
          /\ accounted (S := unit) (ex_env true 1000000000) (lit "eve@corp") (lit "hi") ex_send.1.2 ex_send.1.1 (lb_ToLower ex_libs (TrimSpace (fw_Destination fi))).
Proof.
  apply (nothing_vanishes ex_libs (ex_env true 1000000000) (Some id) (lit "eve@corp") (lit "eve@corp") [lit "bob@corp"; lit "team@corp"; lit "nobody@corp"]
    (lit "hi") 1000000000 (ex_world (tt, [])) ex_send.1.1 ex_send.1.2 (lit "hi")). vm_compute. reflexivity.
Defined.
Example send_run : (ex_send.1.2, map fg_path (log ex_send.1.1)) = ([lit "nobody@corp"], [lit "/bob"; lit "/bob"]).
Proof. vm_compute. reflexivity. Qed.

(** ** The sender check *)

(** Once logged in, [eve] may not send as her boss. *)
Example forged_after_login :
  outcome true (lines [lit "EHLO x"; lit "AUTH PLAIN AGV2ZUBjb3JwAHB3"; lit "MAIL FROM:<boss@corp>"; lit "QUIT"]) = Some ([220; 250; 235; 550; 221], [], []).
Proof. vm_compute. reflexivity. Qed.

(** The sender check can be avoided: a client that gives the sender before it logs in sends,
    logged in, under an address it may not use: [Mail] checks the sender only of a session that
    is authenticated already, and AUTH is taken in the middle of a transaction and keeps it. *)
Theorem sender_check_avoided :
  Allows (lb_ToLower ex_libs) (ex_accounts true) tt (lit "eve@corp") (lit "boss@corp") = false
  /\ outcome true (lines [lit "EHLO x"; lit "MAIL FROM:<boss@corp>"; lit "AUTH PLAIN AGV2ZUBjb3JwAHB3"; lit "RCPT TO:<carol@out>"; lit "DATA"; lit "pay"; lit "."; lit "QUIT"])
     = Some ([220; 250; 250; 235; 250; 354; 250; 221], [lit "boss@corp"], [lit "carol@out"]).
Proof. split; vm_compute; reflexivity. Qed.

(** A body past the size limit is answered as a temporary failure, not as too large: the session
    reports every failed read as one. *)
Example oversized_deferred :
  (Data ex_libs (ex_env true 0) id ex_session (ex_world (tt, [])) (lit "hi") EndTooLarge).2 = Some (temp (lit "4.3.0 could not read the message, please retry later")).
Proof. reflexivity. Qed.

(** The filing of a scored message *)
Definition ex_scorer : Scorer := mkScorer (Some (mkConfig DefaultWeights 8 [])) None (Some (fun _ _ _ => AuthFail)) None None None None None.
Definition ex_scoring : env unit unit :=
  mkEnv unit unit (ex_accounts true) id 0 (0, 0, 0, 0) true (true, true) false true [] None 0 (Some ex_scorer) None None (Some (fun _ => Ok (Some 4))) None None.
Definition ex_inbound : session := mkSession (lit "9.9.9.9") (lit "a@b") [mkTarget (lit "bob@corp") (lit "/bob") false] [] [] [] [] [].
Lemma filing_follows_verdict_witness :
  let sc := (scoreInbound ex_libs ex_scoring ex_inbound (lit "hi") 0 (ex_world tt)).2 in
  let v := sg_verdict sc in
  let t := mkTarget (lit "bob@corp") (lit "/bob") false in
  exists spam, recipientFiling ex_libs ex_scoring ex_inbound t sc = (Tag (lit "hi") (set_spam spam v), if spam : bool then PrivateFIDJunk else PrivateFIDInbox)
    /\ (vd_AccessAction v = AccessBlock -> spam = true)
    /\ (vd_DMARCReject v = true -> spam = false ->
        exists th, vd_Score v < th
          /\ (th = cf_Threshold (scoringConfig ex_scorer) \/ exists f, en_thresholds ex_scoring = Some f /\ f (tg_path t) = Ok (Some th))).
Proof.
  apply (filing_follows_verdict ex_libs ex_scoring ex_inbound (lit "hi") 0 (ex_world tt) ex_scorer (mkTarget (lit "bob@corp") (lit "/bob") false));
    [reflexivity|reflexivity|discriminate].
Defined.
