(* ===== verification/RopTags.v ===== *)
(** * Constants of the ROP layer

    The property tags, folder ids and codes of [internal/mapi] that [internal/rop] names, and the
    opcodes of its dispatch table (each with the prefix [id_], its name being the handler's). *)

From Stdlib Require Import ZArith.
Open Scope Z_scope.

(** ** Property tags ([proptags.go]) *)
Definition PrMid : Z := 0x674A0014.
Definition PrFolderID : Z := 0x67480014.
Definition PrParentFolderID : Z := 0x67490014.
Definition PrAttachNum : Z := 0x0E210003.
Definition PrRecordKey : Z := 0x0FF90102.
Definition PrEntryID : Z := 0x0FFF0102.
Definition PrParentEntryID : Z := 0x0E090102.
Definition PrRights : Z := 0x66390003.
Definition PrAccess : Z := 0x0FF40003.
Definition PrContentCount : Z := 0x36020003.
Definition PrContentUnreadCount : Z := 0x36030003.
Definition PrMessageSizeExtended : Z := 0x0E080014.
Definition PrMessageSize : Z := 0x0E080003.
Definition PrSubfolders : Z := 0x360A000B.
Definition PrFolderType : Z := 0x36010003.
Definition PrFolderFlags : Z := 0x66A80003.
Definition PrLocalCommitTime : Z := 0x67090040.
Definition PrLocalCommitTimeMax : Z := 0x670A0040.
Definition PrHierRev : Z := 0x40820040.
Definition PrSubjectPrefix : Z := 0x003D001F.
Definition PrNormalizedSubject : Z := 0x0E1D001F.
Definition PrAssociated : Z := 0x67AA000B.
Definition PrRenderingPosition : Z := 0x370B0003.
Definition PrCreationTime : Z := 0x30070040.
Definition PrLastModificationTime : Z := 0x30080040.
Definition PrAttachDataBin : Z := 0x37010102.
Definition PrAttachMethod : Z := 0x37050003.
Definition PrAttachMimeTag : Z := 0x370E001F.
Definition PrAttachLongFilename : Z := 0x3707001F.
Definition PrEmbeddedContact : Z := 0x67800102.
Definition PrMessageClass : Z := 0x001A001F.
Definition PrMessageClassA : Z := 0x001A001E.
Definition PrMsgStatus : Z := 0x0E170003.
Definition PrComment : Z := 0x3004001F.
Definition PrRecipientType : Z := 0x0C150003.
Definition PrRowid : Z := 0x30000003.
Definition PrResponsibility : Z := 0x0E0F000B.
Definition PrSendRichInfo : Z := 0x3A40000B.
Definition PrTransmitableDisplayName : Z := 0x3A20001F.
Definition PrDisplayName : Z := 0x3001001F.
Definition PrEmailAddress : Z := 0x3003001F.
Definition PrAddrType : Z := 0x3002001F.
Definition PrSmtpAddress : Z := 0x39FE001F.
Definition PrInstanceKey : Z := 0x0FF60102.
Definition PrSearchKey : Z := 0x300B0102.
Definition PrChangeKey : Z := 0x65E20102.
Definition PrChangeNumber : Z := 0x67A40014.
Definition PrPredecessorChangeList : Z := 0x65E30102.
Definition PrMessageRecipients : Z := 0x0E12000D.
Definition PrMessageAttachments : Z := 0x0E13000D.
Definition PrSentRepresentingSmtpAddress : Z := 0x5D02001F.
Definition PrSentRepresentingEmailAddress : Z := 0x0065001F.
Definition PrSentRepresentingAddrType : Z := 0x0064001F.
Definition PrSenderSmtpAddress : Z := 0x5D01001F.
Definition PrSenderEmailAddress : Z := 0x0C1F001F.
Definition PrSenderAddrType : Z := 0x0C1E001F.
Definition PrClientSubmitTime : Z := 0x00390040.
Definition PrAttachmentFlags : Z := 0x7FFD0003.
Definition PrStoreState : Z := 0x340E0003.
Definition PrProhibitReceiveQuota : Z := 0x666A0003.
Definition PrProhibitSendQuota : Z := 0x666E0003.
Definition PrSerializedReplidGuidMap : Z := 0x66380102.
Definition PrAddressBookDisplayNamePrintable : Z := 0x39FF001F.
Definition PrLocaleID : Z := 0x66A10003.
Definition PrSortLocaleID : Z := 0x67050003.
Definition PrCodePageID : Z := 0x66C30003.
Definition PrMailboxOwnerEntryID : Z := 0x661B0102.
Definition PrUserEntryID : Z := 0x66190102.
Definition PrMailboxOwnerName : Z := 0x661C001F.
Definition PrRuleID : Z := 0x66740014.
Definition PrRuleSequence : Z := 0x66760003.
Definition PrRuleState : Z := 0x66770003.
Definition PrRuleName : Z := 0x6682001F.
Definition PrRuleProvider : Z := 0x6681001F.
Definition PrRuleCondition : Z := 0x667900FD.
Definition PrRuleActions : Z := 0x668000FE.
Definition PrMemberID : Z := 0x66710014.
Definition PrMemberName : Z := 0x6672001F.
Definition PrMemberRights : Z := 0x66730003.
Definition PrMessageFlags : Z := 0x0E070003.
Definition PrRead : Z := 0x0E69000B.
Definition PrHasAttachments : Z := 0x0E1B000B.

(** ** Built-in folders ([folderids.go]) *)
Definition PrivateFIDRoot : Z := 0x01.
Definition PrivateFIDDeferredAction : Z := 0x02.
Definition PrivateFIDSpoolerQueue : Z := 0x03.
Definition PrivateFIDShortcuts : Z := 0x04.
Definition PrivateFIDFinder : Z := 0x05.
Definition PrivateFIDViews : Z := 0x06.
Definition PrivateFIDCommonViews : Z := 0x07.
Definition PrivateFIDSchedule : Z := 0x08.
Definition PrivateFIDIPMSubtree : Z := 0x09.
Definition PrivateFIDSentItems : Z := 0x0a.
Definition PrivateFIDDeletedItems : Z := 0x0b.
Definition PrivateFIDOutbox : Z := 0x0c.
Definition PrivateFIDInbox : Z := 0x0d.

(** ** Restrictions, recipients, attachments *)
Definition ResAnd : Z := 0x00.
Definition ResOr : Z := 0x01.
Definition ResNot : Z := 0x02.
Definition ResContent : Z := 0x03.
Definition ResProperty : Z := 0x04.
Definition ResBitmask : Z := 0x06.
Definition ResExist : Z := 0x08.
Definition ResComment : Z := 0x0A.
Definition RelopLT : Z := 0.
Definition RelopLE : Z := 1.
Definition RelopGT : Z := 2.
Definition RelopGE : Z := 3.
Definition RelopEQ : Z := 4.
Definition RelopNE : Z := 5.
Definition BmrEqz : Z := 0.
Definition BmrNez : Z := 1.
Definition SearchRestart : Z := 0x00000002.
Definition RecipTo : Z := 1.
Definition RecipBcc : Z := 3.
Definition AttachEmbeddedMsg : Z := 5.
Definition AttachmentFlagException : Z := 0x2.

(** ** Opcodes *)
Definition id_ropRelease : Z := 0x01.
Definition id_ropOpenFolder : Z := 0x02.
Definition id_ropOpenMessage : Z := 0x03.
Definition id_ropGetHierarchyTable : Z := 0x04.
Definition id_ropGetContentsTable : Z := 0x05.
Definition id_ropCreateMessage : Z := 0x06.
Definition id_ropGetPropertiesSpecific : Z := 0x07.
Definition id_ropGetPropertiesAll : Z := 0x08.
Definition id_ropGetPropertiesList : Z := 0x09.
Definition id_ropSetProperties : Z := 0x0A.
Definition id_ropSaveChangesMessage : Z := 0x0C.
Definition id_ropModifyRecipients : Z := 0x0E.
Definition id_ropReloadCachedInfo : Z := 0x10.
Definition id_ropGetMessageStatus : Z := 0x1F.
Definition id_ropSetMessageStatus : Z := 0x20.
Definition id_ropSubmitMessage : Z := 0x32.
Definition id_ropSetMessageReadFlag : Z := 0x11.
Definition id_ropSetReadFlags : Z := 0x66.
Definition id_ropDeleteMessages : Z := 0x1E.
Definition id_ropMoveCopyMessages : Z := 0x33.
Definition id_ropSetColumns : Z := 0x12.
Definition id_ropSortTable : Z := 0x13.
Definition id_ropRestrict : Z := 0x14.
Definition id_ropQueryRows : Z := 0x15.
Definition id_ropSeekRow : Z := 0x18.
Definition id_ropSeekRowBookmark : Z := 0x19.
Definition id_ropCreateBookmark : Z := 0x1B.
Definition id_ropFindRow : Z := 0x4F.
Definition id_ropExpandRow : Z := 0x59.
Definition id_ropCollapseRow : Z := 0x5A.
Definition id_ropSetCollapseState : Z := 0x6C.
Definition id_ropGetCollapseState : Z := 0x6B.
Definition id_ropGetStatus : Z := 0x16.
Definition id_ropQueryPosition : Z := 0x17.
Definition id_ropSeekRowFractional : Z := 0x1A.
Definition id_ropQueryColumnsAll : Z := 0x37.
Definition id_ropAbort : Z := 0x38.
Definition id_ropFreeBookmark : Z := 0x89.
Definition id_ropResetTable : Z := 0x81.
Definition id_ropGetAttachmentTable : Z := 0x21.
Definition id_ropOpenAttachment : Z := 0x22.
Definition id_ropCreateAttachment : Z := 0x23.
Definition id_ropDeleteAttachment : Z := 0x24.
Definition id_ropSaveChangesAttachment : Z := 0x25.
Definition id_ropOpenEmbeddedMessage : Z := 0x46.
Definition id_ropOpenStream : Z := 0x2B.
Definition id_ropReadStream : Z := 0x2C.
Definition id_ropWriteStream : Z := 0x2D.
Definition id_ropSeekStream : Z := 0x2E.
Definition id_ropSetStreamSize : Z := 0x2F.
Definition id_ropCommitStream : Z := 0x5D.
Definition id_ropGetStreamSize : Z := 0x5E.
Definition id_ropLogon : Z := 0xFE.
Definition id_ropCreateFolder : Z := 0x1C.
Definition id_ropDeleteFolder : Z := 0x1D.
Definition id_ropMoveFolder : Z := 0x35.
Definition id_ropCopyFolder : Z := 0x36.
Definition id_ropEmptyFolder : Z := 0x58.
Definition id_ropHardDeleteMessages : Z := 0x91.
Definition id_ropHardDelMsgsAndSubfolders : Z := 0x92.
Definition id_ropSetSearchCriteria : Z := 0x30.
Definition id_ropGetSearchCriteria : Z := 0x31.
Definition id_ropDeleteProperties : Z := 0x0B.
Definition id_ropDeletePropertiesNoReplicate : Z := 0x7A.
Definition id_ropGetNamesFromPropertyIds : Z := 0x55.
Definition id_ropGetPropertyIdsFromNames : Z := 0x56.
Definition id_ropCopyTo : Z := 0x39.
Definition id_ropCopyProperties : Z := 0x67.
Definition id_ropSetReceiveFolder : Z := 0x26.
Definition id_ropGetReceiveFolder : Z := 0x27.
Definition id_ropGetReceiveFolderTable : Z := 0x68.
Definition id_ropGetStoreState : Z := 0x7B.
Definition id_ropLongTermIdFromId : Z := 0x43.
Definition id_ropIdFromLongTermId : Z := 0x44.
Definition id_ropRegisterNotification : Z := 0x29.
Definition id_ropNotify : Z := 0x2A.
Definition id_ropPending : Z := 0x6E.
Definition id_ropGetPermissionsTable : Z := 0x3E.
Definition id_ropModifyPermissions : Z := 0x40.
Definition id_ropGetRulesTable : Z := 0x3F.
Definition id_ropModifyRules : Z := 0x41.
Definition id_ropSetSpooler : Z := 0x47.
Definition id_ropTransportSend : Z := 0x4A.
Definition id_ropGetTransportFolder : Z := 0x6D.
Definition id_ropFastTransferDestConfigure : Z := 0x53.
Definition id_ropFastTransferDestPutBuffer : Z := 0x54.
Definition id_ropFastTransferSourceGetBuffer : Z := 0x4E.
Definition id_ropSynchronizationConfigure : Z := 0x70.
Definition id_ropSyncImportMessageChange : Z := 0x72.
Definition id_ropSyncImportHierarchyChange : Z := 0x73.
Definition id_ropSyncImportDeletes : Z := 0x74.
Definition id_ropSyncUploadStateStreamBegin : Z := 0x75.
Definition id_ropSyncUploadStateStreamContinue : Z := 0x76.
Definition id_ropSyncUploadStateStreamEnd : Z := 0x77.
Definition id_ropSyncOpenCollector : Z := 0x7E.
Definition id_ropGetLocalReplicaIds : Z := 0x7F.
Definition id_ropSyncImportReadStateChanges : Z := 0x80.
Definition id_ropSyncGetTransferState : Z := 0x82.
Definition id_ropSynchronizationImportMessageMove : Z := 0x78.
Definition id_ropFastTransferSourceCopyMessages : Z := 0x4B.
Definition id_ropFastTransferSourceCopyFolder : Z := 0x4C.
Definition id_ropFastTransferSourceCopyTo : Z := 0x4D.
Definition id_ropFastTransferSourceCopyProperties : Z := 0x69.
Definition id_ropProgress : Z := 0x50.
Definition id_ropGetPerUserLongTermIds : Z := 0x60.
Definition id_ropGetPerUserGuid : Z := 0x61.
Definition id_ropReadPerUserInformation : Z := 0x63.
Definition id_ropWritePerUserInformation : Z := 0x64.
Definition id_ropSetLocalReplicaMidsetDeleted : Z := 0x93.
Definition id_ropReadRecipients : Z := 0x0F.
