(* ===== verification/RopBase.v ===== *)
(** * The ROP layer: objects, session and effects ([internal/rop/session.go], [dispatch.go])

    A MAPI/HTTP session keeps a table of handles to server objects and answers batches of
    remote operations (ROPs).  This file has the data of that session and the monad its
    handlers run in: the store, the mail path and the clock behind a type of calls, a heap for
    the objects, the staged attachments and the byte slices that Go code shares by pointer, the
    request still to read and the response written so far.  A handler may return early with
    the batch to continue ([true]) or to end ([false]), and may panic. *)

From stdpp Require Import base list gmap numbers.
From Stdlib Require Import ZArith Lia.
From S2P Require Import Prelude Gostr Mapi Wire ExtVal Permission.
Open Scope Z_scope.

(** ** What the package calls *)

(** An open store: the identity of its [*objectstore.Store] and its directory *)
Record store := mkStore { st_id : Z; st_dir : bytes }.
#[export] Instance store_eq_dec : EqDecision store.
Proof. solve_decision. Defined.

(** The errors a handler tells apart *)
Inductive serr := SNotFound | SFolderCycle | SObjectDeleted | SSearchScope | SSearchNotInitialized | SOther.
#[export] Instance serr_eq_dec : EqDecision serr.
Proof. solve_decision. Defined.
Definition serrable (A : Type) : Type := result serr A.

Record FolderInfo := mkFolderInfo { fi_ID : Z; fi_ParentID : option Z }.
Record MessageInfo := mkMessageInfo { mi_ID : Z; mi_UID : Z; mi_InternalDate : Z; mi_Flags : Z }.
(** [oxcmail.Message] *)
Record Message := mkMessage { ms_Props : PropertyValues; ms_Recipients : list PropertyValues; ms_Attachments : list PropertyValues }.
Record SearchCriteria := mkSearchCriteria { sc_Restriction : option Restriction; sc_Scope : list Z; sc_Flags : Z }.
Record Rule := mkRule { ru_ID : Z; ru_Sequence : Z; ru_State : Z; ru_Name : bytes; ru_Provider : bytes; ru_Condition : Restriction; ru_Actions : RuleActions }.
Inductive RuleOp := RuleAdd | RuleModify | RuleRemove.
Record RulePatch := mkRulePatch {
  rp_Name : option bytes; rp_Provider : option bytes; rp_Sequence : option Z; rp_State : option Z;
  rp_Condition : option Restriction; rp_Actions : option RuleActions }.
Record RuleChange := mkRuleChange { rg_Op : RuleOp; rg_RuleID : Z; rg_Patch : RulePatch }.
Record ReceiveFolderEntry := mkReceiveFolder { rf_Class : bytes; rf_FolderID : Z; rf_ModifiedTime : Z }.
Record ReadStateChange := mkReadState { rsc_SourceKey : bytes; rsc_MarkRead : bool }.
(** The clock: the Unix time, the NT time and the calendar fields of [pushLogonTime] *)
Record instant := mkInstant { in_unix : Z; in_nt : Z; in_calendar : list Z; in_year : Z }.
(** [oxcmail.Options] as the package sets them *)
Record exportOptions := mkExportOptions { eo_Calendar : option (bytes * bytes); eo_TNEF : bool; eo_Submitted : bool }.

(** The calls of a handler outside the package.  Collectors and upload messages of the
    incremental synchronization are named by the identities the store gives them. *)
Inductive call :=
| CNow
| COpen (dir : bytes) | CClose (st : store)
| CStoreGUID (st : store) | CMappingSignature (st : store)
| CGetDelegates (st : store) | CIsStoreOwner (st : store) (user : bytes) | CHasFolderGrant (st : store) (user : bytes)
| CResolvePermission (st : store) (fid : Z) (user : bytes)
| CFolderExists (st : store) (fid : Z) | CListFolders (st : store) | CSearchFolderChildren (st : store) (fid : Z)
| CGetFolderProperties (st : store) (fid : Z) (tags : list Z) | CFolderComputedProps (st : store) (fid : Z)
| CFolderPropTags (st : store) (fids : list Z) | CIsSearchFolder (st : store) (fid : Z)
| CListMessageIDs (st : store) (fid : Z) | CListSoftDeletedIDs (st : store) (fid : Z) | CSearchFolderMessageIDs (st : store) (fid : Z)
| CListMessages (st : store) (fid : Z) | CMessageByUID (st : store) (fid uid : Z) | CGetMessageRaw (st : store) (fid uid : Z)
| CGetMessageProperties (st : store) (mid : Z) (tags : list Z) | CMessageComputedProps (st : store) (mid : Z) (tags : list Z)
| CMessagePropertiesBatch (st : store) (mids tags : list Z) | CMessageComputedPropsBatch (st : store) (mids tags : list Z)
| CMessagePropTags (st : store) (mids : list Z)
| CMessageFolder (st : store) (mid : Z) | COpenMessage (st : store) (mid : Z) | CGetMessageReadState (st : store) (mid : Z)
| CAttachmentIDByNumber (st : store) (mid num : Z) | CGetAttachmentProperties (st : store) (aid : Z) (tags : list Z)
| CFolderByName (st : store) (parent : Z) (name : bytes)
| CGetReceiveFolder (st : store) (class : bytes) | CReceiveFolderTable (st : store)
| CGetNamedPropIDs (st : store) (create : bool) (names : list PropertyName) | CNamedPropName (st : store) (id : Z)
| CGetStoreProperties (st : store) (tags : list Z) | CStoreComputedProps (st : store)
| CGetSearchCriteria (st : store) (fid : Z) | CListRules (st : store) (fid : Z) | CListPermissions (st : store) (fid : Z)
| CFolderMessageChangeNumbers (st : store) (fid : Z) | CCountMessages (st : store) (fid : Z)
| CFolderChildSignal (st : store) (fid : Z) | CFolderContentSignal (st : store) (fid : Z) (softDeleted : bool)
(* the writes *)
| CAppendMessage (st : store) (fid : Z) (raw : bytes) (date flags : Z) | CDeleteMessage (st : store) (fid uid : Z)
| CCreateMessage (st : store) (fid : Z) (msg : Message)
| CModifyMessageProperties (st : store) (mid : Z) (props : PropertyValues) (deletes : list Z)
| CSetMessageProperties (st : store) (mid : Z) (props : PropertyValues)
| CSetMessageReadState (st : store) (mid : Z) (read : bool)
| CDeleteObject (st : store) (mid : Z) | CSoftDeleteObject (st : store) (mid : Z)
| CCreateAttachment (st : store) (mid : Z) (props : PropertyValues)
| CSetAttachmentProperties (st : store) (aid : Z) (props : PropertyValues) (deletes : list Z)
| CDeleteAttachment (st : store) (mid num : Z)
| CCreateFolder (st : store) (parent : Z) (name : bytes) | CCreateSearchFolder (st : store) (parent : Z) (name : bytes)
| CSetFolderProperties (st : store) (fid : Z) (props : PropertyValues)
| CModifyPermissions (st : store) (fid : Z) (replace : bool) (changes : list PermissionChange)
| CModifyRules (st : store) (fid : Z) (replace : bool) (changes : list RuleChange)
| CDeleteFolder (st : store) (fid : Z) | CRenameFolder (st : store) (fid : Z) (parent : option Z) (name : bytes)
| CCopyFolder (st : store) (fid parent : Z) (name : bytes) (recursive : bool)
| CSetReceiveFolder (st : store) (class : bytes) (fid : Z) | CSetSearchCriteria (st : store) (fid : Z) (c : SearchCriteria)
| CAllocateLocalIDs (st : store) (count : Z)
(* incremental synchronization *)
| CNewContentDownload (st : store) (fid flags extra : Z) (tags : list Z) | CNewHierarchyDownload (st : store) (fid flags : Z) (tags : list Z)
| CNewCopyMessages (st : store) (fid : Z) (mids : list Z) | CNewCopyFolder (st : store) (fid : Z) (subfolders : bool)
| CNewCopyTo (st : store) (mid : Z) (excluded : list Z) | CNewCopyProperties (st : store) (mid : Z) (included : list Z)
| CNewContentUpload (st : store) (fid : Z) | CNewHierarchyUpload (st : store) (fid : Z)
| CSourceGetBuffer (src max : Z) | CSourceProgress (src : Z)
| CBeginStateStream (sink tag : Z) | CContinueStateStream (sink : Z) (data : bytes) | CEndStateStream (sink : Z)
| CImportHierarchyChange (up : Z) (hichy props : PropertyValues) | CImportDeletes (up : Z) (keys : list bytes)
| CImportReadStateChanges (up : Z) (changes : list ReadStateChange)
| CImportMessageMove (up : Z) (srcFolder srcMsg dstMsg : bytes)
| CImportMessageChange (up flags : Z) (header : PropertyValues)
| CGetTransferState (up : Z) | CNewMessageCollector (um : Z) | CPutBuffer (mc : Z) (data : bytes) | CCommitUpload (um : Z)
(* conversions and the mail path *)
| CEnsureMessageID (props : PropertyValues) | CExport (st : option store) (msg : Message) (opts : exportOptions)
| CICalExport (st : store) (msg : Message) | CEncodeEmbedded (st : store) (props : PropertyValues)
| CRestoreEmbedded (st : store) (raw : bytes) | CImport (raw : bytes)
| CSendRenderings (from : bytes) (plainTo : list bytes) (plain : bytes) (richTo : list bytes) (rich : bytes)
| CSendReceipt (st : store) (mid : Z) (reader : bytes) | CScanStored (owner label raw : bytes).

(** The results of the calls *)
Definition reply (c : call) : Type :=
  match c with
  | CNow => instant
  | COpen _ => serrable store
  | CStoreGUID _ | CMappingSignature _ => serrable GUID
  | CGetDelegates _ => serrable (list bytes)
  | CIsStoreOwner _ _ | CHasFolderGrant _ _ | CFolderExists _ _ | CIsSearchFolder _ _ | CGetMessageReadState _ _ => serrable bool
  | CResolvePermission _ _ _ | CMessageFolder _ _ | CAttachmentIDByNumber _ _ _ | CCreateMessage _ _ _
  | CCreateFolder _ _ _ | CCreateSearchFolder _ _ _ | CCopyFolder _ _ _ _ _ => serrable Z
  | CListFolders _ | CSearchFolderChildren _ _ => serrable (list FolderInfo)
  | CGetFolderProperties _ _ _ | CFolderComputedProps _ _ | CGetMessageProperties _ _ _ | CMessageComputedProps _ _ _
  | CGetAttachmentProperties _ _ _ | CGetStoreProperties _ _ | CStoreComputedProps _ | CRestoreEmbedded _ _ => serrable PropertyValues
  | CFolderPropTags _ _ | CMessagePropTags _ _ | CListMessageIDs _ _ | CListSoftDeletedIDs _ _ | CSearchFolderMessageIDs _ _
  | CGetNamedPropIDs _ _ _ => serrable (list Z)
  | CListMessages _ _ => serrable (list MessageInfo)
  | CMessageByUID _ _ _ => serrable MessageInfo
  | CGetMessageRaw _ _ _ | CExport _ _ _ | CICalExport _ _ | CEncodeEmbedded _ _ | CGetTransferState _ => serrable bytes
  | CMessagePropertiesBatch _ _ _ | CMessageComputedPropsBatch _ _ _ => serrable (Z -> PropertyValues)
  | COpenMessage _ _ | CImport _ => serrable Message
  | CFolderByName _ _ _ => serrable (option Z)
  | CGetReceiveFolder _ _ => serrable (Z * bytes)
  | CReceiveFolderTable _ => serrable (list ReceiveFolderEntry)
  | CNamedPropName _ _ => serrable (option PropertyName)
  | CGetSearchCriteria _ _ => serrable (SearchCriteria * Z)
  | CListRules _ _ => serrable (list Rule)
  | CListPermissions _ _ => serrable (list PermissionEntry)
  | CFolderMessageChangeNumbers _ _ => serrable (gmap Z Z)
  | CCountMessages _ _ | CFolderChildSignal _ _ | CFolderContentSignal _ _ _ | CCreateAttachment _ _ _ => serrable (Z * Z)
  | CAllocateLocalIDs _ _ => serrable (Z * GUID)
  | CNewContentDownload _ _ _ _ _ | CNewHierarchyDownload _ _ _ _ | CNewCopyMessages _ _ _ | CNewCopyFolder _ _ _ | CNewCopyTo _ _ _
  | CNewCopyProperties _ _ _ | CNewContentUpload _ _ | CNewHierarchyUpload _ _ | CImportHierarchyChange _ _ _ | CImportMessageChange _ _ _
  | CCommitUpload _ => serrable Z
  | CSourceGetBuffer _ _ => serrable (bytes * bool)
  | CSourceProgress _ => (Z * Z)%type
  | CSendRenderings _ _ _ _ _ => serrable bool
  | CScanStored _ _ _ => bool
  | CNewMessageCollector _ => Z
  | CEnsureMessageID _ => PropertyValues
  | CClose _ | CAppendMessage _ _ _ _ _ | CDeleteMessage _ _ _ | CModifyMessageProperties _ _ _ _ | CSetMessageProperties _ _ _ | CSetMessageReadState _ _ _
  | CDeleteObject _ _ | CSoftDeleteObject _ _ | CSetAttachmentProperties _ _ _ _ | CDeleteAttachment _ _ _
  | CSetFolderProperties _ _ _ | CModifyPermissions _ _ _ _ | CModifyRules _ _ _ _ | CDeleteFolder _ _ | CRenameFolder _ _ _ _
  | CSetReceiveFolder _ _ _ | CSetSearchCriteria _ _ _ | CBeginStateStream _ _ | CContinueStateStream _ _ | CEndStateStream _
  | CImportDeletes _ _ | CImportReadStateChanges _ _ | CImportMessageMove _ _ _ _ | CPutBuffer _ _ | CSendReceipt _ _ _ => serrable unit
  end.

(** What answers the calls *)
Class Backend (S : Type) := exec : forall c : call, S -> S * reply c.

(** The pure functions of the libraries a handler uses *)
Record libs := mkLibs {
  lb_ToLower : bytes -> bytes; (* [strings.ToLower] *)
  lb_sendas : bytes -> bytes -> bytes * bytes * bool; (* [sendas.Resolve]: representing, sender, whether there is a grant *)
  lb_MailUserEntryID : bytes -> bytes;
  lb_CheckSMIME : Message -> bool;
  lb_SendsRichInfo : PropertyValues -> bool;
  lb_IsContactClass : bytes -> bool;
  lb_Method : bytes -> bytes }.

(** The directory, as the session uses it *)
Record Accounts := mkAccounts {
  ac_Resolve : bytes -> option bytes;
  ac_SearchGAL : option (bytes -> bytes -> option (list (bytes * bytes))) }.

(** ** Objects *)

(** A value of a bag that lives in memory: a byte slice is a prefix of an array that others
    may hold, any other value is itself. *)
Inductive bval := BV (v : any) | BArr (arr n : N).
Abbreviation bag := (list (Z * bval)).

Fixpoint bag_Get (b : bag) (tag : Z) : option bval :=
  match b with [] => None | (t, v) :: b => if t =? tag then Some v else bag_Get b tag end.
Fixpoint bag_Set (b : bag) (tag : Z) (v : bval) : bag :=
  match b with [] => [(tag, v)] | (t, x) :: b => if t =? tag then (t, v) :: b else (t, x) :: bag_Set b tag v end.
Definition setAll (b : bag) (vals : bag) : bag := foldl (fun b p => bag_Set b p.1 p.2) b vals.
Definition removeTag (b : bag) (tag : Z) : bag := List.filter (fun p => negb (p.1 =? tag)) b.
Definition removeTags (b : bag) (tags : list Z) : bag := foldl removeTag b tags.
Definition dropDeleteTag (tags : list Z) (tag : Z) : list Z := List.filter (fun t => negb (t =? tag)) tags.

Record attachWrite := mkAttachWrite {
  aw_messageID : Z; aw_attachmentID : Z; aw_attachNum : Z; aw_pending : bag; aw_pendingDeletes : list Z; aw_inMem : option N }.
Record newAttachment := mkNewAttachment { na_attachNum : Z; na_props : bag }.
Record newMessageState := mkNewMessage {
  nm_folderID : Z; nm_props : bag; nm_recipients : list bag; nm_attachments : list N; nm_saved : bool; nm_savedID : Z }.
(** An imported or composed [oxcmail.Message] held in memory *)
Record memMessage := mkMemMessage { mm_Props : bag; mm_Recipients : list bag; mm_Attachments : list bag }.
(** [writeback] and [parent] name the attachment objects *)
Record embeddedMessage := mkEmbedded { em_msg : memMessage; em_writeback : option N; em_parent : option N }.
Definition writable (e : embeddedMessage) : bool :=
  match em_writeback e, em_parent e with None, None => false | _, _ => true end.

Record streamState := mkStream {
  sm_data : N; sm_len : Z; sm_pos : Z; sm_writable : bool; sm_dirty : bool; sm_parent : option N; sm_tag : Z }.

(** The base rows of a table, by its kind *)
Inductive tableRows :=
| TContents (ids : list Z) | THierarchy (folders : list FolderInfo) | TAttachment (bags : list bag)
| TPermission (bags : list PropertyValues) | TRules (bags : list PropertyValues).
Record sortKey := mkSortKey { sk_tag : Z; sk_descending : bool }.
Record tableState := mkTable {
  tb_rows : tableRows; tb_folderID : Z; tb_softDeleted : bool; tb_notify : bool; tb_signal : option (Z * Z);
  tb_columns : option (list Z); tb_sortKeys : list sortKey; tb_restriction : option Restriction;
  tb_view : option (list Z); tb_cursor : Z; tb_bookmarks : gmap Z Z; tb_nextBookmark : Z }.

Record Locale := mkLocale { lo_CodePage : Z; lo_LCIDString : Z; lo_LCIDSort : Z }.
Record logonIdentity := mkIdentity { id_owner : bytes; id_user : bytes }.
(** What [GetBuffer] drains: a collector of the store or a rendered state *)
Inductive fastTransferSource := SrcStore (src : Z) | SrcState (data : bytes) (off : Z).

Record subscription := mkSubscription {
  sub_handle : Z; sub_logonID : Z; sub_types : Z; sub_wholeStore : bool; sub_folderID : Z; sub_messageID : Z }.
Abbreviation folderSnapshot := (gmap Z Z).
Record folderMeta := mkFolderMeta { fm_parentID : Z; fm_total : Z; fm_unread : Z }.

(** A server object, by its kind *)
Inductive object :=
| OLogon (st : store) (id : logonIdentity)
| OFolder (st : store) (fid : Z)
| OTable (st : store) (t : tableState)
| OMessage (st : store) (mid fid : Z) (pendingProps : bag) (pendingDeletes : list Z) (touched : bool)
| OStream (s : streamState)
| OAttachment (st : store) (props : bag) (attachID pos : Z) (attachParent : option N)
| ONewMessage (st : store) (nm : newMessageState)
| OSync (st : store) (src : option fastTransferSource) (sink upload : option Z)
| OUploadMessage (st : store) (um : Z)
| OFastUpload (st : store) (mc : Z)
| OAttachWrite (st : store) (aw : attachWrite)
| OEmbedded (st : store) (e : embeddedMessage)
| OSubscription (st : store) (sub : subscription) (snapshot : folderSnapshot) (folders : gmap Z folderSnapshot) (meta : option (gmap Z folderMeta)).

Definition store_of (o : object) : option store :=
  match o with
  | OLogon st _ | OFolder st _ | OTable st _ | OMessage st _ _ _ _ _ | OAttachment st _ _ _ _ | ONewMessage st _ | OSync st _ _ _
  | OUploadMessage st _ | OFastUpload st _ | OAttachWrite st _ | OEmbedded st _ | OSubscription st _ _ _ _ => Some st
  | OStream _ => None
  end.

(** ** Notifications waiting in a session ([notify.go], [notify_drain.go]) *)
Record notification := mkNotification {
  nt_flags : Z; nt_tableEvent : Z;
  nt_rowFolderID : Z; nt_rowMessageID : Z; nt_rowInstance : Z; nt_afterFolderID : Z; nt_afterRowID : Z; nt_afterInstance : Z; nt_rowData : bytes;
  nt_folderID : Z; nt_messageID : Z; nt_parentID : Z; nt_oldFolderID : Z; nt_oldMessageID : Z; nt_oldParentID : Z;
  nt_proptags : list Z; nt_totalCount : Z; nt_unreadCount : Z; nt_msgFlags : Z; nt_msgClass : bytes }.
Record queuedNotify := mkQueued { qn_handle : Z; qn_logonID : Z; qn_n : notification }.

(** ** The session *)
Record Session := mkSession {
  s_handles : gmap Z N; s_next : Z; s_pending : list queuedNotify;
  s_delegateCallers : gmap Z bytes; s_delegateOwners : gmap Z bytes; s_logonID : Z }.
Record config := mkConfig {
  c_mailbox : bytes; c_accounts : option Accounts; c_owner : bytes; c_locale : Locale }.
Definition NewSession : Session := mkSession ∅ 1 [] ∅ ∅ 0.

(** The session, the heap, the backend, the request and the response *)
Record world (S : Type) := mkWorld {
  w_sess : Session;
  w_objs : gmap N object; w_nobj : N;
  w_natts : gmap N newAttachment; w_nnatt : N;
  w_arrs : gmap N bytes; w_narr : N;
  w_store : S; w_in : bytes; w_out : bytes; w_handles : list Z }.
Arguments mkWorld {S}. Arguments w_sess {S}. Arguments w_objs {S}. Arguments w_nobj {S}. Arguments w_natts {S}. Arguments w_nnatt {S}.
Arguments w_arrs {S}. Arguments w_narr {S}. Arguments w_store {S}. Arguments w_in {S}. Arguments w_out {S}. Arguments w_handles {S}.

Section setters.
Context {S : Type}.
Implicit Types w : world S.
Definition set_sess s w := mkWorld s (w_objs w) (w_nobj w) (w_natts w) (w_nnatt w) (w_arrs w) (w_narr w) (w_store w) (w_in w) (w_out w) (w_handles w).
Definition set_objs m n w := mkWorld (w_sess w) m n (w_natts w) (w_nnatt w) (w_arrs w) (w_narr w) (w_store w) (w_in w) (w_out w) (w_handles w).
Definition set_natts m n w := mkWorld (w_sess w) (w_objs w) (w_nobj w) m n (w_arrs w) (w_narr w) (w_store w) (w_in w) (w_out w) (w_handles w).
Definition set_arrs m n w := mkWorld (w_sess w) (w_objs w) (w_nobj w) (w_natts w) (w_nnatt w) m n (w_store w) (w_in w) (w_out w) (w_handles w).
Definition set_store (s : S) w : world S := mkWorld (w_sess w) (w_objs w) (w_nobj w) (w_natts w) (w_nnatt w) (w_arrs w) (w_narr w) s (w_in w) (w_out w) (w_handles w).
Definition set_in b w := mkWorld (w_sess w) (w_objs w) (w_nobj w) (w_natts w) (w_nnatt w) (w_arrs w) (w_narr w) (w_store w) b (w_out w) (w_handles w).
Definition set_out b w := mkWorld (w_sess w) (w_objs w) (w_nobj w) (w_natts w) (w_nnatt w) (w_arrs w) (w_narr w) (w_store w) (w_in w) b (w_handles w).
Definition set_handles h w := mkWorld (w_sess w) (w_objs w) (w_nobj w) (w_natts w) (w_nnatt w) (w_arrs w) (w_narr w) (w_store w) (w_in w) (w_out w) h.
End setters.

(** ** The monad of the handlers *)

Inductive outcome (S A : Type) := Val (a : A) (w : world S) | Ret (more : bool) (w : world S) | Panic.
Arguments Val {S A}. Arguments Ret {S A}. Arguments Panic {S A}.
Definition H (S A : Type) : Type := world S -> outcome S A.
#[export] Instance H_ret {S} : MRet (H S) := fun _ a w => Val a w.
#[export] Instance H_bind {S} : MBind (H S) := fun _ _ k m w =>
  match m w with Val a w => k a w | Ret b w => Ret b w | Panic => Panic end.

Section effects.
Context {S : Type} `{Backend S}.

Definition panic {A} : H S A := fun _ => Panic.
(** [return more] *)
Definition ret_now {A} (more : bool) : H S A := fun w => Ret more w.
Definition world_get : H S (world S) := fun w => Val w w.
Definition modify (f : world S -> world S) : H S unit := fun w => Val tt (f w).
Definition ask (c : call) : H S (reply c) := fun w => let '(s, r) := exec c (w_store w) in Val r (set_store s w).

(** A read of the request: a malformed one ends the batch *)
Definition pull_req {A} (p : pull A) : H S A := fun w =>
  match p (w_in w) with Ok (a, rest) => Val a (set_in rest w) | Err _ => Ret false w end.
(** A write of the response whose failure the code does not look at *)
Definition emit (p : push) : H S unit := fun w => Val tt (match p (w_out w) with Ok b => set_out b w | Err _ => w end).

Definition each {A B} (f : A -> H S B) : list A -> H S (list B) :=
  fix go l := match l with [] => mret [] | a :: l => b ← f a; bs ← go l; mret (b :: bs) end.
Definition each_ {A} (f : A -> H S unit) : list A -> H S unit :=
  fix go l := match l with [] => mret tt | a :: l => _ ← f a; go l end.

(** *** The heap *)
Definition sess : H S Session := fun w => Val (w_sess w) w.
Definition new_object (o : object) : H S N := fun w => Val (w_nobj w) (set_objs (<[w_nobj w := o]> (w_objs w)) (w_nobj w + 1)%N w).
Definition deref (p : N) : H S object := fun w => match w_objs w !! p with Some o => Val o w | None => Panic end.
Definition assign (p : N) (o : object) : H S unit := modify (fun w => set_objs (<[p := o]> (w_objs w)) (w_nobj w) w).
Definition new_natt (a : newAttachment) : H S N := fun w => Val (w_nnatt w) (set_natts (<[w_nnatt w := a]> (w_natts w)) (w_nnatt w + 1)%N w).
Definition deref_natt (p : N) : H S newAttachment := fun w => match w_natts w !! p with Some o => Val o w | None => Panic end.
Definition assign_natt (p : N) (a : newAttachment) : H S unit := modify (fun w => set_natts (<[p := a]> (w_natts w)) (w_nnatt w) w).
Definition new_arr (b : bytes) : H S N := fun w => Val (w_narr w) (set_arrs (<[w_narr w := b]> (w_arrs w)) (w_narr w + 1)%N w).
Definition assign_arr (p : N) (b : bytes) : H S unit := modify (fun w => set_arrs (<[p := b]> (w_arrs w)) (w_narr w) w).
Definition arr_of (w : world S) (p : N) : bytes := default [] (w_arrs w !! p).
Definition read_arr (p : N) (n : Z) : H S bytes := fun w => Val (take (Z.to_nat n) (arr_of w p)) w.

(** Values that come from outside are in arrays of their own; a value handed outside is read. *)
Definition intern (v : any) : H S bval :=
  match v with ABytes b => p ← new_arr b; mret (BArr p (N.of_nat (length b))) | v => mret (BV v) end.
Definition intern_bag (pv : PropertyValues) : H S bag := each (fun tp => v ← intern (tpValue tp); mret (tpTag tp, v)) pv.
Definition value_in (w : world S) (v : bval) : any :=
  match v with BV v => v | BArr p n => ABytes (take (N.to_nat n) (arr_of w p)) end.
Definition values_in (w : world S) (b : bag) : PropertyValues := map (fun p => mkTagged p.1 (value_in w p.2)) b.
Definition values (b : bag) : H S PropertyValues := fun w => Val (values_in w b) w.
Definition valuess (bs : list bag) : H S (list PropertyValues) := fun w => Val (map (values_in w) bs) w.

(** ** Handles and responses ([session.go], [dispatch.go]) *)

Definition ecSuccess : Z := 0x00000000.
Definition ecError : Z := 0x80004005.
Definition ecNotFound : Z := 0x8004010F.
Definition ecNotSupported : Z := 0x80040102.
Definition ecAccessDenied : Z := 0x80070005.
Definition ecInvalidParam : Z := 0x80070057.
Definition ecDstNullObject : Z := 0x00000503.
Definition ecDeclineCopy : Z := 0x80040306.
Definition ecFolderCycle : Z := 0x8004060B.
Definition ecDuplicateName : Z := 0x80040604.
Definition ecNotImplemented : Z := 0x80040FFF.
Definition ecUnableToAbort : Z := 0x80040114.
Definition ecInvalidBookmark : Z := 0x80040405.
Definition ecSyncObjectDel : Z := 0x80040800.
Definition ecNotSearchFolder : Z := 0x00000461.
Definition ecSearchFolderScopeViolation : Z := 0x00000490.
Definition ecNotInitialized : Z := 0x80040605.

Definition nullHandle : Z := 0xFFFFFFFF.
Definition handleAt (handles : list Z) (idx : Z) : Z := default nullHandle (handles !! Z.to_nat idx).
Definition setHandle (idx h : Z) : H S unit := modify (fun w => set_handles (<[Z.to_nat idx := h]> (w_handles w)) w).

Definition head (ropID hindex ec : Z) : push := push_Uint8 ropID >> push_Uint8 hindex >> push_Uint32 ec.
Definition writeErr (ropID hindex ec : Z) : H S unit := emit (head ropID hindex ec).
Definition writeStatusHead (ropID hindex : Z) : H S unit := emit (head ropID hindex ecSuccess).
(** [writeErr(...); return true] *)
Definition fail {A} (ropID hindex ec : Z) : H S A := _ ← writeErr ropID hindex ec; ret_now true.
(** A store call whose error is answered with [ec] *)
Definition or_fail {A} (ropID hindex ec : Z) (r : serrable A) : H S A :=
  match r with Ok a => mret a | Err _ => fail ropID hindex ec end.

Definition set_handles_map (m : gmap Z N) (next : Z) (s : Session) : Session :=
  mkSession m next (s_pending s) (s_delegateCallers s) (s_delegateOwners s) (s_logonID s).
Definition set_pending (q : list queuedNotify) (s : Session) : Session :=
  mkSession (s_handles s) (s_next s) q (s_delegateCallers s) (s_delegateOwners s) (s_logonID s).
Definition set_delegates (callers owners : gmap Z bytes) (s : Session) : Session :=
  mkSession (s_handles s) (s_next s) (s_pending s) callers owners (s_logonID s).
Definition set_logonID (l : Z) (s : Session) : Session :=
  mkSession (s_handles s) (s_next s) (s_pending s) (s_delegateCallers s) (s_delegateOwners s) l.

Definition alloc_ref (p : N) : H S Z := fun w =>
  let s := w_sess w in Val (s_next s) (set_sess (set_handles_map (<[s_next s := p]> (s_handles s)) (u32 (s_next s + 1)) s) w).
Definition alloc (o : object) : H S Z := p ← new_object o; alloc_ref p.
Definition get (h : Z) : H S (option N) := fun w => Val (s_handles (w_sess w) !! h) w.
(** The object at a handle slot, with the pointer to it *)
Definition at_slot (idx : Z) : H S (option (N * object)) := fun w =>
  match s_handles (w_sess w) !! handleAt (w_handles w) idx with
  | None => Val None w
  | Some p => match w_objs w !! p with Some o => Val (Some (p, o)) w | None => Panic end
  end.

Definition openFolder (ropID hindex errIndex : Z) : H S (store * Z) :=
  o ← at_slot hindex; match o with Some (_, OFolder st fid) => mret (st, fid) | _ => fail ropID errIndex ecError end.
Definition openLogon (ropID hindex errIndex : Z) : H S (store * logonIdentity) :=
  o ← at_slot hindex; match o with Some (_, OLogon st id) => mret (st, id) | _ => fail ropID errIndex ecError end.
Definition openMessage (ropID hindex errIndex : Z) : H S (store * Z * Z) :=
  o ← at_slot hindex; match o with Some (_, OMessage st mid fid _ _ _) => mret (st, mid, fid) | _ => fail ropID errIndex ecError end.
(** The store of whatever object is at a slot *)
Definition openAny (ropID hindex errIndex : Z) : H S store :=
  o ← at_slot hindex; match o with Some (_, o) => match store_of o with Some st => mret st | None => fail ropID errIndex ecError end | None => fail ropID errIndex ecError end.

Definition persistedMessageID (o : object) : option Z :=
  match o with
  | OMessage _ mid _ _ _ _ => Some mid
  | ONewMessage _ nm => if nm_saved nm then Some (nm_savedID nm) else None
  | _ => None
  end.

Definition release (h : Z) : H S unit :=
  r ← get h;
  match r with
  | None => mret tt
  | Some p =>
      o ← deref p;
      _ ← match o with
          | OLogon st _ =>
              _ ← modify (fun w => set_sess (set_delegates (delete (st_id st) (s_delegateCallers (w_sess w))) (delete (st_id st) (s_delegateOwners (w_sess w))) (w_sess w)) w);
              _ ← ask (CClose st); mret tt
          | _ => mret tt
          end;
      modify (fun w => set_sess (set_handles_map (delete h (s_handles (w_sess w))) (s_next (w_sess w)) (w_sess w)) w)
  end.
Definition ropRelease (hindex : Z) : H S unit := hs ← world_get; release (handleAt (w_handles hs) hindex).
Definition Close : H S unit := s ← sess; each_ release (map_to_list (s_handles s)).*1.

(** ** Authorization *)

(** Whether [rights] has every bit of [need] *)
Definition has_rights (rights need : Z) : bool := Z.land rights need =? need.
Definition authorize (st : store) (folderID need : Z) : H S (serrable bool) :=
  s ← sess;
  match s_delegateCallers s !! st_id st with
  | None => mret (Ok true)
  | Some caller =>
      r ← ask (CResolvePermission st folderID caller);
      mret (match r with Ok rights => Ok (has_rights rights need) | Err e => Err e end)
  end.
(** [denyWrite] and the gates written out like it *)
Definition denyWrite (ropID hindex : Z) (st : store) (folderID need : Z) : H S unit :=
  r ← authorize st folderID need;
  match r with
  | Err _ => fail ropID hindex ecError
  | Ok false => fail ropID hindex ecAccessDenied
  | Ok true => mret tt
  end.
Definition denyDelegate (ropID hindex : Z) (st : store) : H S unit :=
  s ← sess; match s_delegateCallers s !! st_id st with Some _ => fail ropID hindex ecAccessDenied | None => mret tt end.

Definition onDelegateList (st : store) (caller : bytes) : H S (serrable bool) :=
  r ← ask (CGetDelegates st); mret (match r with Ok ds => Ok (existsb (fun d => EqualFold d caller) ds) | Err e => Err e end).

(** The representing and the sender identity, when the caller may send *)
Definition delegateSendIdentity (cf : config) (st : store) : H S (serrable (option (bytes * bytes))) :=
  s ← sess;
  match s_delegateCallers s !! st_id st with
  | None => mret (Ok (Some (c_owner cf, [])))
  | Some _ =>
      r ← onDelegateList st (c_owner cf);
      mret (match r with
            | Err e => Err e
            | Ok false => Ok None
            | Ok true => Ok (Some (default [] (s_delegateOwners s !! st_id st), c_owner cf))
            end)
  end.

(** The caller's rights on a folder ([rightsFor]) *)
Definition rightsFor (st : store) (fid : Z) : H S (serrable Z) :=
  s ← sess;
  match s_delegateCallers s !! st_id st with
  | None => mret (Ok RightsAll)
  | Some caller => ask (CResolvePermission st fid caller)
  end.
End effects.
