(* ===== verification/RopProps.v ===== *)
(** * The ROP layer: reading properties

    The property bags a handler serves: of folders ([folder.go], [folderentry.go]), of the store
    ([storeprops.go], [longterm.go]), of messages and attachments in their working copy
    ([message.go]), the recipient table ([recipients.go], [readrecipients.go]) and the
    PROPERTY_ROW that carries them ([table.go], [write.go]). *)

From stdpp Require Import base list gmap numbers.
From Stdlib Require Import ZArith Lia.
From Stdlib Require String.
Import String.StringSyntax.
From S2P Require Import Prelude Utf Gostr Mapi Wire ExtVal Permission RopTags RopBase.
Open Scope Z_scope.
#[local] Arguments lit : simpl never.

(** The buffers of the package encode strings as UTF-16. *)
Definition fl : Z := FlagUTF16.

(** A write whose error the code drops ([_ = ...]).  The bytes such a write put out before its
    error are left out: they end in the middle of a value. *)
Definition push_try (p : push) : push := fun out => match p out with Ok b => Ok b | Err _ => Ok out end.

(** ** PROPERTY_ROW *)

Definition propertyRowNone : Z := 0x00.
Definition propertyRowFlagged : Z := 0x01.

Definition row_value (missing : FlaggedPropVal) (props : PropertyValues) (col : Z) : push :=
  match pv_Get props col with
  | Some v => push_FlaggedPropVal fl col (mkFlagged FlaggedAvailable 0 v)
  | None => push_FlaggedPropVal fl col missing
  end.
Definition bare_value (props : PropertyValues) (col : Z) : push :=
  push_PropValue fl (PropTag_Type col) (default ANil (pv_Get props col)).
Definition buildRow (columns : list Z) (props : PropertyValues) (missing : FlaggedPropVal) : push :=
  if forallb (pv_Has props) columns then push_Uint8 propertyRowNone >> push_each (bare_value props) columns
  else push_Uint8 propertyRowFlagged >> push_each (row_value missing props) columns.
Definition buildPropertyRow (columns : list Z) (props : PropertyValues) : push :=
  buildRow columns props (mkFlagged FlaggedUnavailable 0 ANil).
Definition buildGetPropsRow (columns : list Z) (props : PropertyValues) : push :=
  buildRow columns props (mkFlagged FlaggedError PtError (AUint32 ecNotFound)).

(** The inverse, over the columns a request names: the bag with the values of the row set *)
Definition pullBareRow (columns : list Z) (bag : PropertyValues) : pull PropertyValues :=
  foldr (fun col k => fun bag => v <- pull_PropValue fl (PropTag_Type col) ;; k (pv_Set bag col v)) (fun bag => pull_ret bag) columns bag.
Definition pullFlaggedValue (col marker : Z) (bag : PropertyValues) : pull PropertyValues :=
  if marker =? FlaggedAvailable then v <- pull_PropValue fl (PropTag_Type col) ;; pull_ret (pv_Set bag col v)
  else if marker =? FlaggedUnavailable then pull_ret bag
  else if marker =? FlaggedError then _ <- pull_Uint32 ;; pull_ret bag
  else pull_err ErrFormat.
Definition pullFlaggedRow (columns : list Z) (bag : PropertyValues) : pull PropertyValues :=
  foldr (fun col k => fun bag => m <- pull_Uint8 ;; bag <- pullFlaggedValue col m bag ;; k bag) (fun bag => pull_ret bag) columns bag.
Definition pullPropertyRow (columns : list Z) (bag : PropertyValues) : pull PropertyValues :=
  flag <- pull_Uint8 ;;
  if flag =? propertyRowNone then pullBareRow columns bag
  else if flag =? propertyRowFlagged then pullFlaggedRow columns bag
  else pull_err ErrFormat.

(** ** Bags *)

Definition pv_setAll (b vals : PropertyValues) : PropertyValues := foldl (fun b tv => pv_Set b (tpTag tv) (tpValue tv)) b vals.
Definition pv_removeTag (b : PropertyValues) (tag : Z) : PropertyValues := List.filter (fun tv => negb (tpTag tv =? tag)) b.
Definition tagInSet (tags : list Z) (tag : Z) : bool := existsb (Z.eqb tag) tags.
(** An empty request asks for everything. *)
Definition wants (tags : list Z) (tag : Z) : bool := match tags with [] => true | _ => tagInSet tags tag end.
Definition requestsAny (tags any_of : list Z) : bool := match tags with [] => true | _ => existsb (tagInSet tags) any_of end.
Definition selectProps (all : PropertyValues) (tags : list Z) : PropertyValues :=
  match tags with
  | [] => all
  | _ => foldl (fun out t => match pv_Get all t with Some v => pv_Set out t v | None => out end) [] tags
  end.
Definition stringProp (pv : PropertyValues) (tag : Z) : bytes := match pv_Get pv tag with Some (AString s) => s | _ => [] end.
Definition boolProp (pv : PropertyValues) (tag : Z) : bool := match pv_Get pv tag with Some (ABool b) => b | _ => false end.
Definition bagTags (rows : list PropertyValues) : list Z := concat (map (map tpTag) rows).

(** A call's error ends the computation. *)
Definition bind_ok {S A B} (m : H S (serrable A)) (k : A -> H S (serrable B)) : H S (serrable B) :=
  r ← m; match r with Ok a => k a | Err e => mret (Err e) end.
Notation "x '←?' m ; k" := (bind_ok m (fun x => k)) (at level 20, m at level 100, k at level 200, right associativity).
Definition ok {S A} (a : A) : H S (serrable A) := mret (Ok a).

Section props.
Context {S : Type} `{Backend S} (L : libs) (cf : config).

(** ** Folders *)

Definition eitLTPrivateFolder : Z := 0x0001.
Definition folderEntryID (st : store) (fid : Z) : H S (serrable bytes) :=
  guid ←? ask (CStoreGUID st);
  mret (match push_FolderEntryID (mkFolderEntryID 0 (GUID_Flat guid) eitLTPrivateFolder guid (ValueToGC (u64 fid)) [0; 0]) [] with
        | Ok b => Ok b | Err _ => Err SOther end).

Definition folderIdentityTags : list Z := [PrEntryID; PrParentEntryID; PrRights; PrAccess].
Definition accessModify : Z := 0x01.
Definition accessRead : Z := 0x02.
Definition accessDelete : Z := 0x04.
Definition accessCreateHierarchy : Z := 0x08.
Definition accessCreateContents : Z := 0x10.
Definition accessCreateAssoc : Z := 0x20.
Definition folderAccess (r : Z) : Z :=
  let bit f a := if has_right r f then a else 0 in
  Z.lor (bit FrightsVisible accessRead)
    (Z.lor (bit FrightsOwner (Z.lor accessModify (Z.lor accessDelete accessCreateAssoc)))
       (Z.lor (bit FrightsCreateSubfolder accessCreateHierarchy) (bit FrightsCreate accessCreateContents))).

(** The entry id of the parent: a computed parent that is not an [int64] would panic. *)
Definition addParentEntryID (props : PropertyValues) (st : store) (fid : Z) (wanted : bool) : H S (serrable PropertyValues) :=
  if negb wanted then ok props
  else
    computed ←? ask (CFolderComputedProps st fid);
    match pv_Get computed PrParentFolderID with
    | None => ok props
    | Some (AInt64 v) => eid ←? folderEntryID st (EID_GCValue (u64 v)); ok (pv_Set props PrParentEntryID (ABytes eid))
    | Some _ => panic
    end.
Definition addFolderIdentity (props : PropertyValues) (st : store) (fid : Z) (tags : list Z) : H S (serrable PropertyValues) :=
  props ←? (if wants tags PrEntryID then eid ←? folderEntryID st fid; ok (pv_Set props PrEntryID (ABytes eid)) else ok props);
  props ←? addParentEntryID props st fid (wants tags PrParentEntryID);
  if negb (wants tags PrRights) && negb (wants tags PrAccess) then ok props
  else
    r ←? rightsFor st fid;
    let r := Z.ldiff r (Z.lor FrightsFreeBusySimple FrightsFreeBusyDetailed) in
    ok (pv_Set (pv_Set props PrRights (AInt32 (i32 r))) PrAccess (AInt32 (folderAccess r))).

Definition computedFolderTags : list Z :=
  [PrContentCount; PrContentUnreadCount; PrMessageSizeExtended; PrMessageSize; PrSubfolders; PrFolderType; PrFolderFlags; PrFolderID;
   PrLocalCommitTime; PrLocalCommitTimeMax; PrHierRev].
Definition folderProps (st : store) (fid : Z) (tags : list Z) : H S (serrable PropertyValues) :=
  props ←? ask (CGetFolderProperties st fid tags);
  props ←? (if requestsAny tags folderIdentityTags then addFolderIdentity props st fid tags else ok props);
  if negb (requestsAny tags computedFolderTags) then ok props
  else
    computed ←? ask (CFolderComputedProps st fid);
    ok (pv_setAll props (List.filter (fun tv => wants tags (tpTag tv)) computed)).

(** ** Messages *)

Definition messageProps (st : store) (mid : Z) (tags : list Z) : H S (serrable PropertyValues) :=
  props ←? ask (CGetMessageProperties st mid tags);
  computed ←? ask (CMessageComputedProps st mid tags);
  ok (pv_setAll props computed).

Definition attachmentKeyLead : Z := 0xA2.
Definition attachmentRecordKey (pos : Z) : bytes := attachmentKeyLead :: be_bytes 8 (u64 pos).
Definition attachmentRowMid (pos : Z) : Z := i64 (Z.lor (Z.shiftl attachmentKeyLead 56) (u64 pos)).

(** The buffered edits of an opened message over a bag the store served *)
Definition applyPending (pendingProps : PropertyValues) (pendingDeletes : list Z) (props : PropertyValues) (tags : list Z) : PropertyValues :=
  pv_setAll (foldl pv_removeTag props pendingDeletes) (List.filter (fun tv => wants tags (tpTag tv)) pendingProps).

(** ** The store *)

Definition privateReplID : Z := 5.
Definition replidToGUID (st : store) (replid : Z) : H S (serrable GUID) :=
  if replid =? 1 then ask (CStoreGUID st)
  else if replid =? privateReplID then ask (CMappingSignature st)
  else mret (Err SOther).
Definition knownReplids : list Z := [1; privateReplID].
Fixpoint serialized_pairs (st : store) (ids : list Z) : H S (serrable bytes) :=
  match ids with
  | [] => ok []
  | id :: ids =>
      guid ←? replidToGUID st id;
      rest ←? serialized_pairs st ids;
      mret (match (push_Uint16 id >> push_GUID guid) [] with Ok b => Ok (b ++ rest) | Err _ => Err SOther end)
  end.
Definition serializedReplidGUIDMap (st : store) : H S (serrable bytes) := serialized_pairs st knownReplids.
Fixpoint guid_replid (st : store) (guid : GUID) (ids : list Z) : H S (option Z) :=
  match ids with
  | [] => mret None
  | id :: ids => g ← replidToGUID st id; match g with Ok g => if bool_decide (g = guid) then mret (Some id) else guid_replid st guid ids | Err _ => guid_replid st guid ids end
  end.
Definition guidToReplid (st : store) (guid : GUID) : H S (option Z) := guid_replid st guid knownReplids.

Definition computedStoreTags : list Z := [PrContentCount; PrMessageSizeExtended; PrMessageSize; PrStoreState].
Definition quotaTags : list Z := [PrProhibitReceiveQuota; PrProhibitSendQuota].
Definition hideUnlimitedQuotas (props : PropertyValues) : PropertyValues :=
  foldl (fun ps t => match pv_Get ps t with Some (AInt32 0) => pv_removeTag ps t | _ => ps end) props quotaTags.

(** The name the address book has for an address, as the logged-on user sees it *)
Definition displayName (addr : bytes) : bytes :=
  match c_accounts cf with
  | Some ac =>
      match ac_SearchGAL ac with
      | Some gal =>
          if beq addr [] then []
          else match gal (c_owner cf) addr with
               | Some entries => match List.find (fun e => EqualFold e.1 addr) entries with Some e => e.2 | None => [] end
               | None => []
               end
      | None => []
      end
  | None => []
  end.
Definition addLogonIdentity (props : PropertyValues) (tags : list Z) (id : logonIdentity) : PropertyValues :=
  if beq (id_owner id) [] then props
  else
    let props := if wants tags PrMailboxOwnerEntryID then pv_Set props PrMailboxOwnerEntryID (ABytes (lb_MailUserEntryID L (id_owner id))) else props in
    let props := if wants tags PrUserEntryID && negb (beq (id_user id) []) then pv_Set props PrUserEntryID (ABytes (lb_MailUserEntryID L (id_user id))) else props in
    if wants tags PrMailboxOwnerName then
      let name := displayName (id_owner id) in
      if beq name [] then props else pv_Set props PrMailboxOwnerName (AString name)
    else props.
Definition addPrintableName (props : PropertyValues) (tags : list Z) (id : logonIdentity) : PropertyValues :=
  if beq (id_owner id) [] || negb (wants tags PrAddressBookDisplayNamePrintable) then props
  else pv_Set props PrAddressBookDisplayNamePrintable (AString (Cut (id_owner id) 64).1).
Definition addLocale (props : PropertyValues) (tags : list Z) : PropertyValues :=
  let l := c_locale cf in
  foldl (fun ps p => if negb (p.2 =? 0) && wants tags p.1 then pv_Set ps p.1 (AInt32 (i32 p.2)) else ps) props
    [(PrLocaleID, lo_LCIDString l); (PrSortLocaleID, lo_LCIDSort l); (PrCodePageID, lo_CodePage l)].
Definition storeProps (st : store) (tags : list Z) (id : logonIdentity) : H S (serrable PropertyValues) :=
  props ←? ask (CGetStoreProperties st tags);
  let props := hideUnlimitedQuotas props in
  props ←? (if requestsAny tags [PrSerializedReplidGuidMap] then m ←? serializedReplidGUIDMap st; ok (pv_Set props PrSerializedReplidGuidMap (ABytes m)) else ok props);
  props ←? (if requestsAny tags computedStoreTags then
              computed ←? ask (CStoreComputedProps st); ok (pv_setAll props (List.filter (fun tv => wants tags (tpTag tv)) computed))
            else ok props);
  ok (addLocale (addPrintableName (addLogonIdentity props tags id) tags id) tags).

(** ** Any readable object ([readMessageProps]): [None] for a kind that has no properties *)

Definition withRecordKey (props : PropertyValues) (pos : Z) : PropertyValues := pv_Set props PrRecordKey (ABytes (attachmentRecordKey pos)).
Definition readAttachWriteProps (st : store) (aw : attachWrite) (tags : list Z) : H S (option (serrable PropertyValues)) :=
  base ← match aw_inMem aw with
         | Some p => na ← deref_natt p; pv ← values (na_props na); ok pv
         | None => ask (CGetAttachmentProperties st (aw_attachmentID aw) [])
         end;
  pending ← values (aw_pending aw);
  mret (Some (match base with
              | Err e => Err e
              | Ok base => Ok (selectProps (pv_setAll (foldl pv_removeTag base (aw_pendingDeletes aw)) pending) tags)
              end)).
Definition readMessageProps (o : object) (tags : list Z) : H S (option (serrable PropertyValues)) :=
  match o with
  | OMessage st mid _ pend dels _ =>
      props ← messageProps st mid tags;
      pend ← values pend;
      mret (Some (match props with Ok props => Ok (applyPending pend dels props tags) | Err e => Err e end))
  | OEmbedded _ e => pv ← values (mm_Props (em_msg e)); mret (Some (Ok (selectProps pv tags)))
  | ONewMessage _ nm => pv ← values (nm_props nm); mret (Some (Ok (selectProps pv tags)))
  | OAttachment _ props _ pos _ => pv ← values props; mret (Some (Ok (selectProps (withRecordKey pv pos) tags)))
  | OAttachWrite st aw => readAttachWriteProps st aw tags
  | OFolder st fid => props ← folderProps st fid tags; mret (Some props)
  | OLogon st id => props ← storeProps st tags id; mret (Some props)
  | _ => mret None
  end.

(** ** Recipients *)

Definition recipientRowEmail : Z := 0x0008.
Definition recipientRowDisplay : Z := 0x0010.
Definition recipientRowTransmittable : Z := 0x0020.
Definition recipientRowResponsible : Z := 0x0080.
Definition recipientRowNonRich : Z := 0x0100.
Definition recipientRowUnicode : Z := 0x0200.
Definition recipientRowSimple : Z := 0x0400.
Definition recipientRowOutOfStandard : Z := 0x8000.
Definition addrKindNoType : Z := 0x0.
Definition addrKindX500DN : Z := 0x1.
Definition addrKindSMTP : Z := 0x3.
Definition addrKindDList1 : Z := 0x6.
Definition addrKindDList2 : Z := 0x7.
Definition recipientRowFields : list Z :=
  [PrResponsibility; PrAddrType; PrDisplayName; PrEmailAddress; PrEntryID; PrInstanceKey; PrRecipientType; PrRowid; PrSearchKey; PrSendRichInfo;
   PrTransmitableDisplayName].

Definition recipientColumns (recipients : list PropertyValues) : list Z :=
  Compact (Sort (List.filter (fun t => negb (tagInSet recipientRowFields t)) (bagTags recipients))).
Definition recipientAddress (r : PropertyValues) : bytes * bytes * bytes :=
  let display := stringProp r PrDisplayName in
  let addrType := stringProp r PrAddrType in
  let smtp := stringProp r PrSmtpAddress in
  if negb (beq smtp []) && (beq addrType [] || EqualFold addrType (lit "SMTP")) then (display, lit "SMTP", smtp)
  else (display, addrType, stringProp r PrEmailAddress).
Definition recipientRowFlags (r : PropertyValues) (display addrType email : bytes) : Z :=
  let flags := Z.lor recipientRowUnicode
     (Z.lor (if beq display [] then 0 else recipientRowDisplay)
        (Z.lor (if boolProp r PrResponsibility then recipientRowResponsible else 0) (if boolProp r PrSendRichInfo then recipientRowNonRich else 0))) in
  if EqualFold addrType (lit "EX") then Z.lor flags addrKindX500DN
  else
    let flags := if beq addrType [] || EqualFold addrType (lit "SMTP") then Z.lor flags addrKindSMTP
                 else Z.lor flags (Z.lor addrKindNoType recipientRowOutOfStandard) in
    if beq email [] then flags else Z.lor flags recipientRowEmail.
Definition pushRecipientRow (cols : list Z) (r : PropertyValues) : push :=
  let '(display, addrType, email) := recipientAddress r in
  let flags := recipientRowFlags r display addrType email in
  push_Uint16 flags
  >> (if Z.land flags 0x0007 =? addrKindX500DN then push_Uint8 0 >> push_Uint8 0 >> push_String8 fl email
      else if (Z.land flags 0x0007 =? addrKindNoType) && negb (Z.land flags recipientRowOutOfStandard =? 0) then push_String8 fl addrType
      else push_nop)
  >> (if Z.land flags recipientRowEmail =? 0 then push_nop else push_Unicode fl email)
  >> (if Z.land flags recipientRowDisplay =? 0 then push_nop else push_Unicode fl display)
  >> push_Uint16 (u16 (len cols)) >> push_try (buildPropertyRow cols r).
Definition recipientTypeOf (r : PropertyValues) : Z := match pv_Get r PrRecipientType with Some (AInt32 n) => n | _ => RecipTo end.
Definition writeOpenRecipientRow (cols : list Z) (r : PropertyValues) : push :=
  let row := match pushRecipientRow cols r [] with Ok b => b | Err _ => [] end in
  push_Uint8 (u8 (recipientTypeOf r)) >> push_Uint16 0 >> push_Uint16 0 >> push_Uint16 (u16 (len row)) >> push_Raw row.
Definition writeRecipientTable (recipients : list PropertyValues) : push :=
  let cols := recipientColumns recipients in
  let n := Z.min (len recipients) 0xFF in
  push_Uint16 (Z.min (len recipients) 0xFFFF) >> push_try (push_PropTags cols) >> push_Uint8 n
  >> push_each (writeOpenRecipientRow cols) (take (Z.to_nat n) recipients).

(** [messageRecipientBags]: the recipients of a message in any of its forms *)
Definition messageRecipientBags (o : object) : H S (serrable (list PropertyValues)) :=
  match o with
  | OEmbedded _ e => rs ← valuess (mm_Recipients (em_msg e)); ok rs
  | ONewMessage _ nm => rs ← valuess (nm_recipients nm); ok rs
  | OMessage st mid _ _ _ _ => if mid =? 0 then ok [] else msg ←? ask (COpenMessage st mid); ok (ms_Recipients msg)
  | _ => ok []
  end.

Definition maxReadRecipientRows : Z := 0xFE.
Definition row_id (i : nat) (r : PropertyValues) : Z := match pv_Get r PrRowid with Some (AInt32 n) => u32 n | _ => u32 (Z.of_nat i) end.
(** The numbered recipients from a row id on, in row order *)
Definition recipientsFrom (recipients : list PropertyValues) (rowID : Z) : list (Z * PropertyValues) :=
  let rows := imap (fun i r => (row_id i r, r)) recipients in
  take (Z.to_nat maxReadRecipientRows) (SliceStable (fun a b => a.1 <? b.1) (List.filter (fun p => rowID <=? p.1) rows)).

(** TYPED_STRING *)
Definition stringTypeEmpty : Z := 0x1.
Definition stringTypeUnicode : Z := 0x4.
Definition pushTypedString (s : bytes) : push :=
  if beq s [] then push_Uint8 stringTypeEmpty else push_Uint8 stringTypeUnicode >> push_Unicode fl s.

(** *** The recipient rows a client writes ([write.go]) *)

Record recipientRow := mkRecipientRow {
  rr_x500dn : option bytes; rr_addrType : option bytes; rr_mailAddr : option bytes; rr_displayName : option bytes; rr_transmitName : option bytes }.

Definition rowReader_str (flags : Z) : pull bytes := if Z.land flags recipientRowUnicode =? 0 then pull_String8 else pull_Unicode fl.
Definition pull_if {A} (b : bool) (p : pull A) : pull (option A) := if b then a <- p ;; pull_ret (Some a) else pull_ret None.
Definition pullX500 : pull bytes := _ <- pull_Uint8 ;; _ <- pull_Uint8 ;; pull_String8.
Definition skipDistributionList : pull unit := _ <- pull_Bin fl ;; _ <- pull_Bin fl ;; pull_ret tt.
(** [pullAddress] and [pullNames] *)
Definition pull_row (flags : Z) : pull recipientRow :=
  let kind := Z.land flags 0x0007 in
  let has f := negb (Z.land flags f =? 0) in
  x500 <- pull_if (kind =? addrKindX500DN) pullX500 ;;
  _ <- pull_if ((kind =? addrKindDList1) || (kind =? addrKindDList2)) skipDistributionList ;;
  at_ <- pull_if ((kind =? addrKindNoType) && has recipientRowOutOfStandard) pull_String8 ;;
  mail <- pull_if (has recipientRowEmail) (rowReader_str flags) ;;
  display <- pull_if (has recipientRowDisplay) (rowReader_str flags) ;;
  _ <- pull_if (has recipientRowSimple) (rowReader_str flags) ;;
  transmit <- pull_if (has recipientRowTransmittable) (rowReader_str flags) ;;
  pull_ret (mkRecipientRow x500 at_ mail display transmit).
Definition set_opt (tag : Z) (s : option bytes) (b : PropertyValues) : PropertyValues := match s with Some s => pv_Set b tag (AString s) | None => b end.
(** [recipientRow.props] *)
Definition row_props (flags : Z) (r : recipientRow) : option PropertyValues :=
  let kind := Z.land flags 0x0007 in
  let bag := pv_Set [] PrResponsibility (ABool (negb (Z.land flags recipientRowResponsible =? 0))) in
  let bag := pv_Set bag PrSendRichInfo (ABool (negb (Z.land flags recipientRowNonRich =? 0))) in
  let bag := set_opt PrEmailAddress (rr_mailAddr r) (set_opt PrDisplayName (rr_displayName r) (set_opt PrTransmitableDisplayName (rr_transmitName r) bag)) in
  if kind =? addrKindNoType then Some (set_opt PrAddrType (rr_addrType r) bag)
  else if kind =? addrKindX500DN then
    match rr_x500dn r with Some dn => Some (pv_Set (pv_Set bag PrAddrType (AString (lit "EX"))) PrEmailAddress (AString dn)) | None => None end
  else if kind =? addrKindSMTP then Some (pv_Set bag PrAddrType (AString (lit "SMTP")))
  else None.
Definition pullRecipientColumns (columns : list Z) (bag : PropertyValues) : pull PropertyValues :=
  count <- pull_Uint16 ;;
  if len columns <? count then pull_err ErrFormat else pullPropertyRow (take (Z.to_nat count) columns) bag.
(** A row whose body cannot be read is left out. *)
Definition pullRecipientRow (rowBytes : bytes) (columns : list Z) : option PropertyValues :=
  match (flags <- pull_Uint16 ;; r <- pull_row flags ;;
         match row_props flags r with Some bag => pullRecipientColumns columns bag | None => pull_err ErrFormat end) rowBytes with
  | Ok (bag, _) => Some bag
  | Err _ => None
  end.
Definition pullModifyRecipientBag (columns : list Z) : pull (option PropertyValues) :=
  rowID <- pull_Uint32 ;; rcptType <- pull_Uint8 ;; rowSize <- pull_Uint16 ;;
  if rowSize =? 0 then pull_ret None
  else
    rowBytes <- pull_Raw rowSize ;;
    pull_ret ((fun bag => pv_Set (pv_Set bag PrRowid (AInt32 (i32 rowID))) PrRecipientType (AInt32 rcptType)) <$> pullRecipientRow rowBytes columns).
End props.
