(* ===== verification/RopMessage.v ===== *)
(** * The ROP layer: messages

    Opening, reading and composing messages ([message.go], [write.go], [delete.go]), the recipient
    table ([readrecipients.go]), the cached header ([msgstatus.go]) and the submission of a composed
    message ([write.go], [transport.go]).  Each handler reads its request, may answer an error and
    continue the batch, and ends with its success response. *)

From stdpp Require Import base list gmap numbers.
From Stdlib Require Import ZArith Lia.
From Stdlib Require String.
Import String.StringSyntax.
From S2P Require Import Prelude Utf Gostr Mapi Wire ExtVal Permission RopTags RopBase RopProps.
Open Scope Z_scope.
#[local] Arguments lit : simpl never.

Section message.
Context {S : Type} `{Backend S} (L : libs) (cf : config).

(** The store id a wire id names *)
Definition store_id (eid : Z) : Z := i64 (EID_GCValue eid).
Definition notFoundOrError (e : serr) : Z := if bool_decide (e = SNotFound) then ecNotFound else ecError.
(** A store call whose error is answered with [notFoundOrError] *)
Definition or_not_found {A} (ropID hindex : Z) (r : serrable A) : H S A :=
  match r with Ok a => mret a | Err e => fail ropID hindex (notFoundOrError e) end.
(** The object at a slot, an empty slot being answered with [ec] *)
Definition some_object (ropID hindex errIndex ec : Z) : H S (N * object) :=
  o ← at_slot hindex; match o with Some po => mret po | None => fail ropID errIndex ec end.
(** The same, of an object that has a store *)
Definition some_stored (ropID hindex errIndex ec : Z) : H S (N * object * store) :=
  o ← at_slot hindex;
  match o with
  | Some (p, o) => match store_of o with Some st => mret (p, o, st) | None => fail ropID errIndex ec end
  | None => fail ropID errIndex ec
  end.

(** ** Opening and reading *)

Definition pullOpenMessageRequest : pull (Z * Z) :=
  ohindex <- pull_Uint8 ;; _ <- pull_Uint16 ;; _ <- pull_Uint64 ;; _ <- pull_Uint8 ;; eid <- pull_Uint64 ;; pull_ret (ohindex, eid).

Definition authorizeOpenMessage (st : store) (ohindex msgID : Z) : H S Z :=
  r ← ask (CMessageFolder st msgID);
  fid ← or_fail id_ropOpenMessage ohindex ecNotFound r;
  _ ← denyWrite id_ropOpenMessage ohindex st fid FrightsReadAny;
  mret fid.

(** The tail the open and the reload responses share *)
Definition message_head (props : PropertyValues) (recipients : list PropertyValues) : push :=
  push_Uint8 0 >> pushTypedString (stringProp props PrSubjectPrefix) >> pushTypedString (stringProp props PrNormalizedSubject)
  >> writeRecipientTable recipients.

Definition ropOpenMessage (hindex : Z) : H S unit :=
  '(ohindex, eid) ← pull_req pullOpenMessageRequest;
  st ← openAny id_ropOpenMessage hindex ohindex;
  let msgID := store_id eid in
  fid ← authorizeOpenMessage st ohindex msgID;
  r ← ask (COpenMessage st msgID);
  msg ← or_fail id_ropOpenMessage ohindex ecNotFound r;
  h ← alloc (OMessage st msgID fid [] [] false);
  _ ← setHandle ohindex h;
  _ ← writeStatusHead id_ropOpenMessage ohindex;
  emit (message_head (ms_Props msg) (ms_Recipients msg)).

(** The properties of the object at a slot, or the error response *)
Definition read_props (ropID hindex : Z) (tags : list Z) : H S (object * PropertyValues) :=
  '(_, o) ← some_object ropID hindex hindex ecError;
  r ← readMessageProps L cf o tags;
  match r with
  | Some (Ok props) => mret (o, props)
  | Some (Err e) => fail ropID hindex (notFoundOrError e)
  | None => fail ropID hindex ecError
  end.
(** A body encoded before the header is written *)
Definition with_body (ropID hindex : Z) (p : push) : H S unit :=
  match p [] with
  | Err _ => fail ropID hindex ecError
  | Ok body => _ ← writeStatusHead ropID hindex; emit (push_Raw body)
  end.

Definition ropGetPropertiesSpecific (hindex : Z) : H S unit :=
  cols ← pull_req (_ <- pull_Uint16 ;; _ <- pull_Uint16 ;; pull_PropTags);
  '(_, props) ← read_props id_ropGetPropertiesSpecific hindex cols;
  with_body id_ropGetPropertiesSpecific hindex (buildGetPropsRow cols props).
Definition ropGetPropertiesAll (hindex : Z) : H S unit :=
  _ ← pull_req (_ <- pull_Uint16 ;; pull_Uint16);
  '(_, props) ← read_props id_ropGetPropertiesAll hindex [];
  with_body id_ropGetPropertiesAll hindex (push_PropertyValues fl props).
Definition ropGetPropertiesList (hindex : Z) : H S unit :=
  '(_, props) ← read_props id_ropGetPropertiesList hindex [];
  with_body id_ropGetPropertiesList hindex (push_PropTags (map tpTag props)).

Definition ropReloadCachedInformation (hindex : Z) : H S unit :=
  _ ← pull_req pull_Uint16;
  '(o, props) ← read_props id_ropReloadCachedInfo hindex [PrSubjectPrefix; PrNormalizedSubject];
  r ← messageRecipientBags o;
  recipients ← or_fail id_ropReloadCachedInfo hindex ecError r;
  _ ← writeStatusHead id_ropReloadCachedInfo hindex;
  emit (message_head props recipients).

Definition ropReadRecipients (hindex : Z) : H S unit :=
  rowID ← pull_req (id <- pull_Uint32 ;; _ <- pull_Uint16 ;; pull_ret id);
  '(_, o) ← some_object id_ropReadRecipients hindex hindex ecError;
  _ ← match o with OMessage _ _ _ _ _ _ | OEmbedded _ _ | ONewMessage _ _ => mret tt | _ => fail id_ropReadRecipients hindex ecNotSupported end;
  r ← messageRecipientBags o;
  recipients ← or_not_found id_ropReadRecipients hindex r;
  let rows := recipientsFrom recipients rowID in
  if bool_decide (rows = []) then fail id_ropReadRecipients hindex ecNotFound
  else
    let cols := recipientColumns recipients in
    _ ← writeStatusHead id_ropReadRecipients hindex;
    emit (push_Uint8 (u8 (len rows)) >> push_each (fun r => push_Uint32 r.1 >> writeOpenRecipientRow cols r.2) rows).

(** ** Composing *)

Definition pullCreateMessageRequest : pull (Z * Z * Z) :=
  ohindex <- pull_Uint8 ;; _ <- pull_Uint16 ;; eid <- pull_Uint64 ;; associated <- pull_Uint8 ;; pull_ret (ohindex, eid, associated).
Definition createMessageTarget (hindex ohindex folderEID : Z) : H S (store * Z) :=
  st ← openAny id_ropCreateMessage hindex ohindex;
  let fid := store_id folderEID in
  r ← ask (CFolderExists st fid);
  exists_ ← or_fail id_ropCreateMessage ohindex ecError r;
  _ ← (if exists_ : bool then mret tt else fail id_ropCreateMessage ohindex ecNotFound);
  _ ← denyWrite id_ropCreateMessage ohindex st fid FrightsCreate;
  mret (st, fid).
Definition ropCreateMessage (hindex : Z) : H S unit :=
  '(ohindex, folderEID, associated) ← pull_req pullCreateMessageRequest;
  '(st, fid) ← createMessageTarget hindex ohindex folderEID;
  let props := if associated =? 0 then [] else [(PrAssociated, BV (ABool true))] in
  h ← alloc (ONewMessage st (mkNewMessage fid props [] [] false 0));
  _ ← setHandle ohindex h;
  _ ← writeStatusHead id_ropCreateMessage ohindex;
  emit (push_Uint8 0).

Definition setAllOverridingDeletes (b : bag) (deletes : list Z) (vals : bag) : bag * list Z :=
  (setAll b vals, foldl dropDeleteTag deletes vals.*1).
Definition nm_with_props (nm : newMessageState) (b : bag) : newMessageState :=
  mkNewMessage (nm_folderID nm) b (nm_recipients nm) (nm_attachments nm) (nm_saved nm) (nm_savedID nm).
Definition aw_with (aw : attachWrite) (pending : bag) (dels : list Z) : attachWrite :=
  mkAttachWrite (aw_messageID aw) (aw_attachmentID aw) (aw_attachNum aw) pending dels (aw_inMem aw).
Definition em_with_props (e : embeddedMessage) (b : bag) : embeddedMessage :=
  mkEmbedded (mkMemMessage b (mm_Recipients (em_msg e)) (mm_Attachments (em_msg e))) (em_writeback e) (em_parent e).

Definition applySetProperties (p : N) (o : object) (hindex : Z) (vals : bag) : H S unit :=
  match o with
  | ONewMessage st nm => assign p (ONewMessage st (nm_with_props nm (setAll (nm_props nm) vals)))
  | OMessage st mid fid pend dels touched =>
      _ ← denyWrite id_ropSetProperties hindex st fid FrightsEditAny;
      let '(pend, dels) := setAllOverridingDeletes pend dels vals in
      assign p (OMessage st mid fid pend dels touched)
  | OAttachWrite st aw =>
      let '(pend, dels) := setAllOverridingDeletes (aw_pending aw) (aw_pendingDeletes aw) vals in
      assign p (OAttachWrite st (aw_with aw pend dels))
  | OEmbedded st e =>
      if writable e then assign p (OEmbedded st (em_with_props e (setAll (mm_Props (em_msg e)) vals)))
      else fail id_ropSetProperties hindex ecAccessDenied
  | _ => fail id_ropSetProperties hindex ecError
  end.
(** A region read by its own reader: what it leaves unread is dropped. *)
Definition pull_region {A} (size : Z) (p : pull A) : pull A :=
  body <- pull_Raw size ;; fun rest => match p body with Ok (a, _) => Ok (a, rest) | Err e => Err e end.
Definition pullSetPropertiesRequest : pull PropertyValues := size <- pull_Uint16 ;; pull_region size (pull_PropertyValues fl).
Definition ropSetProperties (hindex : Z) : H S unit :=
  propvals ← pull_req pullSetPropertiesRequest;
  '(p, o) ← some_object id_ropSetProperties hindex hindex ecError;
  vals ← intern_bag propvals;
  _ ← applySetProperties p o hindex vals;
  _ ← writeStatusHead id_ropSetProperties hindex;
  emit (push_Uint16 0).

Definition applyDeleteProperties (p : N) (o : object) (ropID hindex : Z) (tags : list Z) : H S unit :=
  match o with
  | OMessage st mid fid pend dels touched =>
      _ ← denyWrite ropID hindex st fid FrightsEditAny;
      assign p (OMessage st mid fid (removeTags pend tags) (dels ++ tags) touched)
  | ONewMessage st nm => assign p (ONewMessage st (nm_with_props nm (removeTags (nm_props nm) tags)))
  | OEmbedded st e => assign p (OEmbedded st (em_with_props e (removeTags (mm_Props (em_msg e)) tags)))
  | OAttachWrite st aw => assign p (OAttachWrite st (aw_with aw (removeTags (aw_pending aw) tags) (aw_pendingDeletes aw ++ tags)))
  | _ => fail ropID hindex ecNotSupported
  end.
Definition deleteProperties (ropID hindex : Z) : H S unit :=
  tags ← pull_req pull_PropTags;
  '(p, o) ← some_object ropID hindex hindex ecError;
  _ ← applyDeleteProperties p o ropID hindex tags;
  _ ← writeStatusHead ropID hindex;
  emit (push_Uint16 0).
Definition ropDeleteProperties : Z -> H S unit := deleteProperties id_ropDeleteProperties.
Definition ropDeletePropertiesNoReplicate : Z -> H S unit := deleteProperties id_ropDeletePropertiesNoReplicate.

Definition pullModifyRecipientsRequest : pull (list PropertyValues) :=
  columns <- pull_PropTags ;; count <- pull_Uint16 ;;
  rows <- pull_times (Z.to_nat count) (pullModifyRecipientBag columns) ;; pull_ret (omap id rows).
Definition ropModifyRecipients (hindex : Z) : H S unit :=
  rows ← pull_req pullModifyRecipientsRequest;
  o ← at_slot hindex;
  match o with
  | Some (p, ONewMessage st nm) =>
      recipients ← each intern_bag rows;
      _ ← assign p (ONewMessage st (mkNewMessage (nm_folderID nm) (nm_props nm) recipients (nm_attachments nm) (nm_saved nm) (nm_savedID nm)));
      writeStatusHead id_ropModifyRecipients hindex
  | _ => fail id_ropModifyRecipients hindex ecError
  end.

(** ** Saving *)

Definition pullSaveChangesRequest : pull Z := ihindex <- pull_Uint8 ;; _ <- pull_Uint8 ;; pull_ret ihindex.
Definition writeSaveChangesOK (hindex ihindex gcValue : Z) : H S unit :=
  _ ← writeStatusHead id_ropSaveChangesMessage hindex;
  emit (push_Uint8 ihindex >> push_Uint64 (MakeEIDEx 1 gcValue)).

Definition scanAttachmentContent (props : PropertyValues) : H S bool :=
  match pv_Get props PrAttachDataBin with
  | Some (ABytes (b :: blob)) => ask (CScanStored (c_owner cf) (stringProp props PrAttachLongFilename) (b :: blob))
  | _ => mret false
  end.
Fixpoint scan_attachments (st : store) (mid : Z) (atts : list PropertyValues) : H S bool :=
  match atts with
  | [] => mret false
  | a :: atts =>
      hit ← scanAttachmentContent a;
      if hit : bool then _ ← ask (CDeleteObject st mid); mret true else scan_attachments st mid atts
  end.
Definition scanUploadedMessage (st : store) (mid : Z) : H S bool :=
  r ← ask (COpenMessage st mid);
  match r with Err _ => mret false | Ok msg => scan_attachments st mid (ms_Attachments msg) end.
Definition saveUploadedMessage (st : store) (um hindex ihindex : Z) : H S unit :=
  r ← ask (CCommitUpload um);
  mid ← or_fail id_ropSaveChangesMessage hindex ecError r;
  hit ← scanUploadedMessage st (i64 mid);
  if hit : bool then fail id_ropSaveChangesMessage hindex ecAccessDenied else writeSaveChangesOK hindex ihindex mid.

Definition saveOpenedMessage (p : N) (st : store) (mid fid : Z) (pend : bag) (dels : list Z) (touched : bool) (hindex ihindex : Z) : H S unit :=
  _ ← denyWrite id_ropSaveChangesMessage hindex st fid FrightsEditAny;
  _ ← (if negb (bool_decide (pend.*1 = [])) || negb (bool_decide (dels = [])) || touched then
         props ← values pend;
         r ← ask (CModifyMessageProperties st mid props dels);
         _ ← or_fail id_ropSaveChangesMessage hindex ecError r;
         assign p (OMessage st mid fid [] [] false)
       else mret tt);
  writeSaveChangesOK hindex ihindex (u64 mid).

Definition setEmbeddedPayload (b : PropertyValues) (raw : bytes) : PropertyValues :=
  pv_Set (pv_Set (pv_Set b PrAttachMethod (AInt32 AttachEmbeddedMsg)) PrAttachMimeTag (AString (lit "message/rfc822"))) PrAttachDataBin (ABytes raw).
Definition mem_values (m : memMessage) : H S Message :=
  props ← values (mm_Props m); rs ← valuess (mm_Recipients m); atts ← valuess (mm_Attachments m); mret (mkMessage props rs atts).
Definition embeddedPayloadProps (st : store) (m : memMessage) : H S (serrable PropertyValues) :=
  msg ← mem_values m;
  raw ←? ask (CExport None msg (mkExportOptions None false false));
  let props := setEmbeddedPayload [] raw in
  if lb_IsContactClass L (stringProp (ms_Props msg) PrMessageClass) then
    blob ←? ask (CEncodeEmbedded st (ms_Props msg)); ok (pv_Set props PrEmbeddedContact (ABytes blob))
  else ok props.

(** The attachment of a stored message: its parent is an opened message, else the code reads a nil pointer. *)
Definition saveStoredEmbedded (att : N) (hindex ihindex : Z) (payload : PropertyValues) : H S unit :=
  o ← deref att;
  match o with
  | OAttachment st props aid pos (Some parent) =>
      po ← deref parent;
      match po with
      | OMessage pst mid fid pend dels _ =>
          _ ← denyWrite id_ropSaveChangesMessage hindex st fid FrightsEditAny;
          r ← ask (CSetAttachmentProperties st aid payload []);
          _ ← or_fail id_ropSaveChangesMessage hindex ecError r;
          vals ← intern_bag payload;
          _ ← assign att (OAttachment st (setAll props vals) aid pos (Some parent));
          _ ← assign parent (OMessage pst mid fid pend dels true);
          writeSaveChangesOK hindex ihindex (u64 mid)
      | _ => panic
      end
  | _ => panic
  end.
Definition saveEmbeddedMessage (st : store) (e : embeddedMessage) (hindex ihindex handle : Z) : H S unit :=
  if negb (writable e) then fail id_ropSaveChangesMessage hindex ecNotSupported
  else
    r ← embeddedPayloadProps st (em_msg e);
    payload ← or_fail id_ropSaveChangesMessage hindex ecError r;
    match em_parent e, em_writeback e with
    | Some att, _ => saveStoredEmbedded att hindex ihindex payload
    | None, Some w =>
        o ← deref w;
        match o with
        | OAttachWrite wst aw =>
            vals ← intern_bag payload;
            _ ← assign w (OAttachWrite wst (aw_with aw (setAll (aw_pending aw) vals) (aw_pendingDeletes aw)));
            writeSaveChangesOK hindex ihindex handle
        | _ => panic
        end
    | None, None => panic
    end.

Definition persistComposedMessage (st : store) (nm : newMessageState) : H S (serrable Z) :=
  props ← values (nm_props nm);
  if nm_saved nm then _ ←? ask (CModifyMessageProperties st (nm_savedID nm) props []); ok (nm_savedID nm)
  else
    rs ← valuess (nm_recipients nm);
    nas ← each deref_natt (nm_attachments nm);
    atts ← valuess (map na_props nas);
    ask (CCreateMessage st (nm_folderID nm) (mkMessage props rs atts)).
Definition saveComposedMessage (p : N) (st : store) (nm : newMessageState) (hindex ihindex : Z) : H S unit :=
  r ← persistComposedMessage st nm;
  mid ← or_fail id_ropSaveChangesMessage hindex ecError r;
  _ ← assign p (ONewMessage st (mkNewMessage (nm_folderID nm) (nm_props nm) (nm_recipients nm) (nm_attachments nm) true mid));
  writeSaveChangesOK hindex ihindex (u64 mid).

Definition ropSaveChangesMessage (hindex : Z) : H S unit :=
  ihindex ← pull_req pullSaveChangesRequest;
  o ← at_slot ihindex;
  w ← world_get;
  match o with
  | Some (_, OUploadMessage st um) => saveUploadedMessage st um hindex ihindex
  | Some (p, OMessage st mid fid pend dels touched) => saveOpenedMessage p st mid fid pend dels touched hindex ihindex
  | Some (_, OEmbedded st e) => saveEmbeddedMessage st e hindex ihindex (handleAt (w_handles w) ihindex)
  | Some (p, ONewMessage st nm) => saveComposedMessage p st nm hindex ihindex
  | _ => fail id_ropSaveChangesMessage hindex ecError
  end.

(** ** Submitting *)

Definition recipientSMTP (r : PropertyValues) : bytes :=
  let smtp := stringProp r PrSmtpAddress in
  if negb (beq smtp []) then smtp
  else if EqualFold (stringProp r PrAddrType) (lit "SMTP") then stringProp r PrEmailAddress else [].
Definition is_bcc (r : PropertyValues) : bool := match pv_Get r PrRecipientType with Some (AInt32 n) => n =? RecipBcc | _ => false end.
Definition splitRecipients (bags : list PropertyValues) : list bytes * list bytes * list PropertyValues :=
  let routable := List.filter (fun r => negb (beq (recipientSMTP r) [])) bags in
  (map recipientSMTP (List.filter (fun r => negb (lb_SendsRichInfo L r)) routable),
   map recipientSMTP (List.filter (lb_SendsRichInfo L) routable),
   List.filter (fun r => negb (is_bcc r)) bags).

Definition setRepresenting (props : PropertyValues) (addr : bytes) : PropertyValues :=
  pv_Set (pv_Set (pv_Set props PrSentRepresentingSmtpAddress (AString addr)) PrSentRepresentingEmailAddress (AString addr)) PrSentRepresentingAddrType (AString (lit "SMTP")).
Definition setSender (props : PropertyValues) (addr : bytes) : PropertyValues :=
  pv_Set (pv_Set (pv_Set props PrSenderSmtpAddress (AString addr)) PrSenderEmailAddress (AString addr)) PrSenderAddrType (AString (lit "SMTP")).
Definition stampSubmitIdentity (props : PropertyValues) (representing sender : bytes) : H S PropertyValues :=
  let props := setSender (setRepresenting props representing) sender in
  if pv_Has props PrClientSubmitTime then mret props
  else now ← ask CNow; mret (pv_Set props PrClientSubmitTime (AUint64 (in_nt now))).
Definition ownerSubmitIdentity (props : PropertyValues) : bytes * bytes :=
  let '(representing, sender, granted) := lb_sendas L (c_owner cf) (stringProp props PrSentRepresentingSmtpAddress) in
  if granted : bool then (representing, sender) else (c_owner cf, c_owner cf).

Definition mailAttachments (atts : list PropertyValues) : list PropertyValues :=
  List.filter (fun a => match pv_Get a PrAttachmentFlags with Some (AInt32 f) => Z.land f AttachmentFlagException =? 0 | _ => true end) atts.
Definition attendee (r : PropertyValues) : PropertyValues :=
  let addr := recipientSMTP r in if beq addr [] then r else pv_Set r PrSmtpAddress (AString addr).
(** The iCalendar and its method, for a meeting message *)
Definition meetingCalendar (st : store) (msg : Message) : H S (serrable (option (bytes * bytes))) :=
  if negb (HasPrefix (stringProp (ms_Props msg) PrMessageClass) (lit "IPM.Schedule.Meeting.")) then ok None
  else
    ical ←? ask (CICalExport st (mkMessage (ms_Props msg) (map attendee (ms_Recipients msg)) (ms_Attachments msg)));
    ok (Some (ical, lb_Method L ical)).
(** The mail and the message it leaves: its attachments are those of the mail. *)
Definition exportSubmitted (st : store) (msg : Message) (richInfo : bool) : H S (serrable (bytes * Message)) :=
  cal ←? meetingCalendar st msg;
  let msg := mkMessage (ms_Props msg) (ms_Recipients msg) (mailAttachments (ms_Attachments msg)) in
  if negb (lb_CheckSMIME L msg) then mret (Err SOther)
  else raw ←? ask (CExport (Some st) msg (mkExportOptions cal richInfo true)); ok (raw, msg).

(** [None]: no routable recipient *)
Definition deliverComposed (st : store) (nm : newMessageState) (representing sender : bytes) : H S (serrable (option (bytes * bool))) :=
  bags ← valuess (nm_recipients nm);
  let '(plainTo, richTo, wire) := splitRecipients bags in
  if bool_decide (plainTo ++ richTo = []) then ok None
  else
    props ← values (nm_props nm);
    let '(representing, sender) := if beq sender [] then ownerSubmitIdentity props else (representing, sender) in
    props ← stampSubmitIdentity props representing sender;
    props ← ask (CEnsureMessageID props);
    saved ←? ask (COpenMessage st (nm_savedID nm));
    out ←? exportSubmitted st (mkMessage props wire (ms_Attachments saved)) false;
    rich ←? (if bool_decide (richTo = []) then ok out else exportSubmitted st out.2 true);
    keep ←? ask (CSendRenderings (c_owner cf) plainTo out.1 richTo rich.1);
    ok (Some (out.1, keep)).

Definition authorizeSubmit (st : store) (nm : newMessageState) (ropID hindex : Z) : H S (bytes * bytes) :=
  r ← delegateSendIdentity cf st;
  match r with
  | Err _ => fail ropID hindex ecError
  | Ok None => fail ropID hindex ecAccessDenied
  | Ok (Some identity) =>
      if negb (nm_saved nm) || (nm_savedID nm =? 0) || bool_decide (c_accounts cf = None) then fail ropID hindex ecNotSupported
      else mret identity
  end.
(** [deliverComposed] with its errors answered *)
Definition deliver_or_fail (st : store) (nm : newMessageState) (ropID hindex : Z) : H S (bytes * bool) :=
  '(representing, sender) ← authorizeSubmit st nm ropID hindex;
  r ← deliverComposed st nm representing sender;
  match r with
  | Err _ => fail ropID hindex ecError
  | Ok None => fail ropID hindex ecNotFound
  | Ok (Some out) => mret out
  end.

Definition FlagSeen : Z := 1.
Definition ropSubmitMessage (hindex : Z) : H S unit :=
  _ ← pull_req pull_Uint8;
  o ← at_slot hindex;
  match o with
  | Some (p, ONewMessage st nm) =>
      '(raw, keepOwnCopy) ← deliver_or_fail st nm id_ropSubmitMessage hindex;
      _ ← (if keepOwnCopy : bool then
             now ← ask CNow; _ ← ask (CAppendMessage st PrivateFIDSentItems raw (in_unix now) FlagSeen); mret tt
           else mret tt);
      _ ← ask (CDeleteObject st (nm_savedID nm));
      _ ← assign p (ONewMessage st (mkNewMessage (nm_folderID nm) (nm_props nm) (nm_recipients nm) (nm_attachments nm) false (nm_savedID nm)));
      writeStatusHead id_ropSubmitMessage hindex
  | _ => fail id_ropSubmitMessage hindex ecNotFound
  end.
Definition ropTransportSend (hindex : Z) : H S unit :=
  o ← at_slot hindex;
  match o with
  | Some (_, ONewMessage st nm) =>
      _ ← deliver_or_fail st nm id_ropTransportSend hindex;
      _ ← writeStatusHead id_ropTransportSend hindex;
      emit (push_Uint8 1)
  | _ => fail id_ropTransportSend hindex ecNotFound
  end.
Definition ropSetSpooler (hindex : Z) : H S unit :=
  _ ← openLogon id_ropSetSpooler hindex hindex; writeStatusHead id_ropSetSpooler hindex.
Definition ropGetTransportFolder (hindex : Z) : H S unit :=
  _ ← openLogon id_ropGetTransportFolder hindex hindex;
  _ ← writeStatusHead id_ropGetTransportFolder hindex;
  emit (push_Uint64 (MakeEIDEx 1 PrivateFIDOutbox)).
End message.
