(* ===== verification/RopAttach.v ===== *)
(** * The ROP layer: attachments, embedded messages and copies

    The attachments of a message, stored or staged while it is composed ([attachment.go]), the
    message encapsulated in an attachment ([embedded.go]) and the property copies between two
    objects ([copy.go]).  Property bags are copied value by value, so a byte slice is shared by the
    source and the destination of a copy. *)

From stdpp Require Import base list gmap numbers.
From Stdlib Require Import ZArith Lia.
From S2P Require Import Prelude Gostr Mapi Wire ExtVal Permission RopTags RopBase RopProps RopMessage.
Open Scope Z_scope.

Section attach.
Context {S : Type} `{Backend S} (L : libs) (cf : config).

(** ** Reading attachments *)

(** The object at a slot when it is an opened or an embedded message ([readableMessage]) *)
Definition readableMessage (ropID hindex errIndex : Z) : H S (N * object * store) :=
  o ← at_slot hindex;
  match o with
  | Some (p, OMessage st _ _ _ _ _ as o) | Some (p, OEmbedded st _ as o) => mret (p, o, st)
  | _ => fail ropID errIndex ecError
  end.
Definition messageAttachmentBags (o : object) : H S (serrable (list bag)) :=
  match o with
  | OEmbedded _ e => ok (mm_Attachments (em_msg e))
  | OMessage st mid _ _ _ _ => msg ←? ask (COpenMessage st mid); bags ← each intern_bag (ms_Attachments msg); ok bags
  | _ => ok []
  end.
Definition attach_number (b : bag) : option bval := bag_Get b PrAttachNum.
Definition has_number (n : Z) (b : bag) : bool := match attach_number b with Some (BV (AInt32 m)) => u32 m =? n | _ => false end.
(** The attachment with a number and its position; without any number, the one at that position *)
Definition resolveAttachment (bags : list bag) (attachID : Z) : option (bag * Z) :=
  match list_find (fun b => has_number attachID b = true) bags with
  | Some (i, b) => Some (b, Z.of_nat i)
  | None =>
      if existsb (fun b => match attach_number b with Some _ => true | None => false end) bags then None
      else (fun b => (b, attachID)) <$> bags !! Z.to_nat attachID
  end.

Definition empty_table (rows : tableRows) : tableState := mkTable rows 0 false false None None [] None None 0 ∅ 0.
Definition ropGetAttachmentTable (hindex : Z) : H S unit :=
  ohindex ← pull_req (o <- pull_Uint8 ;; _ <- pull_Uint8 ;; pull_ret o);
  '(_, o, st) ← readableMessage id_ropGetAttachmentTable hindex ohindex;
  r ← messageAttachmentBags o;
  bags ← or_fail id_ropGetAttachmentTable ohindex ecError r;
  h ← alloc (OTable st (empty_table (TAttachment bags)));
  _ ← setHandle ohindex h;
  writeStatusHead id_ropGetAttachmentTable ohindex.

(** The row of an attachment of a stored message, and the message it belongs to *)
Definition bindStoredAttachment (p : N) (o : object) (attachNum : Z) : H S (Z * option N) :=
  match o with
  | OMessage st mid _ _ _ _ =>
      r ← ask (CAttachmentIDByNumber st mid attachNum);
      mret (match r with Ok aid => (aid, Some p) | Err _ => (0, None) end)
  | _ => mret (0, None)
  end.
Definition ropOpenAttachment (hindex : Z) : H S unit :=
  '(ohindex, attachID) ← pull_req (o <- pull_Uint8 ;; _ <- pull_Uint8 ;; i <- pull_Uint32 ;; pull_ret (o, i));
  '(p, o, st) ← readableMessage id_ropOpenAttachment hindex ohindex;
  r ← messageAttachmentBags o;
  bags ← or_fail id_ropOpenAttachment ohindex ecNotFound r;
  match resolveAttachment bags attachID with
  | None => fail id_ropOpenAttachment ohindex ecNotFound
  | Some (b, pos) =>
      '(aid, parent) ← bindStoredAttachment p o attachID;
      h ← alloc (OAttachment st b aid pos parent);
      _ ← setHandle ohindex h;
      writeStatusHead id_ropOpenAttachment ohindex
  end.

(** ** Writing attachments *)

Definition nextNewAttachNum (atts : list newAttachment) : Z :=
  u32 (foldl (fun highest a => Z.max highest (na_attachNum a)) (-1) atts + 1).
Definition opening_props (now : instant) : bag :=
  [(PrRenderingPosition, BV (AInt32 (-1))); (PrCreationTime, BV (AUint64 (in_nt now))); (PrLastModificationTime, BV (AUint64 (in_nt now)))].
Definition nm_with_attachments (nm : newMessageState) (atts : list N) : newMessageState :=
  mkNewMessage (nm_folderID nm) (nm_props nm) (nm_recipients nm) atts (nm_saved nm) (nm_savedID nm).
(** The response of a created attachment *)
Definition attachment_created (st : store) (aw : attachWrite) (ohindex : Z) : H S unit :=
  h ← alloc (OAttachWrite st aw);
  _ ← setHandle ohindex h;
  _ ← writeStatusHead id_ropCreateAttachment ohindex;
  emit (push_Uint32 (aw_attachNum aw)).
(** The message is not yet in the store: the attachment waits in memory. *)
Definition stage_attachment (p : N) (st : store) (nm : newMessageState) (now : instant) (ohindex : Z) : H S unit :=
  atts ← each deref_natt (nm_attachments nm);
  let num := nextNewAttachNum atts in
  na ← new_natt (mkNewAttachment num ((PrAttachNum, BV (AInt32 (i32 num))) :: opening_props now));
  _ ← assign p (ONewMessage st (nm_with_attachments nm (nm_attachments nm ++ [na])));
  attachment_created st (mkAttachWrite 0 0 num [] [] (Some na)) ohindex.
(** The write gate of an attachment, and the stored message it is on *)
Definition attachment_target (ropID hindex ec : Z) (o : object) : H S Z :=
  _ ← match o with OMessage st _ fid _ _ _ => denyWrite ropID hindex st fid FrightsEditAny | _ => mret tt end;
  match persistedMessageID o with Some mid => mret mid | None => fail ropID hindex ec end.
Definition ropCreateAttachment (hindex : Z) : H S unit :=
  ohindex ← pull_req pull_Uint8;
  '(p, o, st) ← some_stored id_ropCreateAttachment hindex ohindex ecNotSupported;
  now ← ask CNow;
  let stored :=
    mid ← attachment_target id_ropCreateAttachment ohindex ecNotSupported o;
    initial ← values (opening_props now);
    r ← ask (CCreateAttachment st mid initial);
    '(aid, num) ← or_fail id_ropCreateAttachment ohindex ecError r;
    attachment_created st (mkAttachWrite mid aid num [] [] None) ohindex in
  match o with
  | ONewMessage _ nm => if nm_saved nm then stored else stage_attachment p st nm now ohindex
  | _ => stored
  end.

Definition flushComposeAttachment (aw : attachWrite) (p : N) : H S unit :=
  na ← deref_natt p;
  assign_natt p (mkNewAttachment (na_attachNum na) (removeTags (setAll (na_props na) (aw_pending aw)) (aw_pendingDeletes aw))).
Definition flushStoredAttachment (st : store) (aw : attachWrite) : H S (serrable unit) :=
  if bool_decide ((aw_pending aw).*1 = []) && bool_decide (aw_pendingDeletes aw = []) then ok tt
  else pending ← values (aw_pending aw); ask (CSetAttachmentProperties st (aw_attachmentID aw) pending (aw_pendingDeletes aw)).
(** An attachment change is seen through its message. *)
Definition touch (hindex : Z) : H S unit :=
  o ← at_slot hindex;
  match o with Some (p, OMessage st mid fid pend dels _) => assign p (OMessage st mid fid pend dels true) | _ => mret tt end.
Definition openAttachWrite (ropID hindex errIndex : Z) : H S (N * store * attachWrite) :=
  o ← at_slot hindex; match o with Some (p, OAttachWrite st aw) => mret (p, st, aw) | _ => fail ropID errIndex ecError end.
Definition ropSaveChangesAttachment (hindex : Z) : H S unit :=
  ihindex ← pull_req pullSaveChangesRequest;
  '(p, st, aw) ← openAttachWrite id_ropSaveChangesAttachment ihindex hindex;
  pending ← values (aw_pending aw);
  hit ← scanAttachmentContent cf pending;
  if hit : bool then fail id_ropSaveChangesAttachment hindex ecAccessDenied
  else
    match aw_inMem aw with
    | Some na =>
        _ ← flushComposeAttachment aw na;
        _ ← assign p (OAttachWrite st (aw_with aw [] []));
        writeStatusHead id_ropSaveChangesAttachment hindex
    | None =>
        r ← flushStoredAttachment st aw;
        _ ← or_fail id_ropSaveChangesAttachment hindex ecError r;
        _ ← assign p (OAttachWrite st (aw_with aw [] []));
        _ ← touch hindex;
        writeStatusHead id_ropSaveChangesAttachment hindex
    end.

(** Remove the first staged attachment with a number *)
Fixpoint drop_numbered (atts : list (N * newAttachment)) (n : Z) : option (list N) :=
  match atts with
  | [] => None
  | (p, a) :: atts => if na_attachNum a =? n then Some atts.*1 else cons p <$> drop_numbered atts n
  end.
Definition dropStagedAttachment (p : N) (st : store) (nm : newMessageState) (hindex attachID : Z) : H S unit :=
  atts ← each (fun q => a ← deref_natt q; mret (q, a)) (nm_attachments nm);
  match drop_numbered atts attachID with
  | None => fail id_ropDeleteAttachment hindex ecNotFound
  | Some rest => assign p (ONewMessage st (nm_with_attachments nm rest))
  end.
Definition deleteStoredAttachment (p : N) (o : object) (st : store) (hindex attachID : Z) : H S unit :=
  mid ← attachment_target id_ropDeleteAttachment hindex ecError o;
  r ← ask (CDeleteAttachment st mid attachID);
  _ ← or_not_found id_ropDeleteAttachment hindex r;
  match o with OMessage st mid fid pend dels _ => assign p (OMessage st mid fid pend dels true) | _ => mret tt end.
Definition ropDeleteAttachment (hindex : Z) : H S unit :=
  attachID ← pull_req pull_Uint32;
  '(p, o, st) ← some_stored id_ropDeleteAttachment hindex hindex ecError;
  _ ← match o with
      | ONewMessage _ nm => if nm_saved nm then deleteStoredAttachment p o st hindex attachID else dropStagedAttachment p st nm hindex attachID
      | _ => deleteStoredAttachment p o st hindex attachID
      end;
  writeStatusHead id_ropDeleteAttachment hindex.

(** ** Embedded messages *)

Definition mapiModify : Z := 0x01.
Definition mapiCreate : Z := 0x02.
Definition embeddedPayload (props : PropertyValues) : bytes * Z :=
  (match pv_Get props PrAttachDataBin with Some (ABytes b) => b | _ => [] end,
   match pv_Get props PrAttachMethod with Some (AInt32 m) => m | _ => 0 end).
Definition restoreContact (props : PropertyValues) (blob : any) (st : store) : H S (serrable PropertyValues) :=
  match blob with
  | ABytes (b :: raw) => restored ←? ask (CRestoreEmbedded st (b :: raw)); ok (pv_setAll props restored)
  | _ => ok props
  end.
Definition intern_message (m : Message) : H S memMessage :=
  props ← intern_bag (ms_Props m); rs ← each intern_bag (ms_Recipients m); atts ← each intern_bag (ms_Attachments m);
  mret (mkMemMessage props rs atts).
Definition openEmbeddedResponse (ohindex : Z) (st : store) (e : embeddedMessage) : H S unit :=
  h ← alloc (OEmbedded st e);
  _ ← setHandle ohindex h;
  props ← values (mm_Props (em_msg e));
  _ ← writeStatusHead id_ropOpenEmbeddedMessage ohindex;
  emit (push_Uint8 0 >> push_Uint64 (MakeEIDEx 1 h) >> push_Uint8 0
        >> pushTypedString (stringProp props PrSubjectPrefix) >> pushTypedString (stringProp props PrNormalizedSubject)
        >> push_Uint16 0 >> push_PropTags [] >> push_Uint8 0).
Definition openStoredEmbedded (ohindex : Z) (p : N) (st : store) (props : bag) (attachID flags : Z) : H S unit :=
  props ← values props;
  let '(data, method) := embeddedPayload props in
  if negb (method =? AttachEmbeddedMsg) || beq data [] then
    fail id_ropOpenEmbeddedMessage ohindex (if Z.land flags mapiCreate =? 0 then ecNotFound else ecNotSupported)
  else
    r ← ask (CImport data);
    msg ← or_fail id_ropOpenEmbeddedMessage ohindex ecError r;
    r ← match pv_Get props PrEmbeddedContact with Some blob => restoreContact (ms_Props msg) blob st | None => ok (ms_Props msg) end;
    eprops ← or_fail id_ropOpenEmbeddedMessage ohindex ecError r;
    m ← intern_message (mkMessage eprops (ms_Recipients msg) (ms_Attachments msg));
    let parent := if negb (Z.land flags mapiModify =? 0) && negb (attachID =? 0) then Some p else None in
    openEmbeddedResponse ohindex st (mkEmbedded m None parent).
Definition ropOpenEmbeddedMessage (hindex : Z) : H S unit :=
  '(ohindex, flags) ← pull_req (o <- pull_Uint8 ;; _ <- pull_Uint16 ;; f <- pull_Uint8 ;; pull_ret (o, f));
  '(p, o) ← some_object id_ropOpenEmbeddedMessage hindex ohindex ecNotSupported;
  match o with
  | OAttachment st props aid _ _ => openStoredEmbedded ohindex p st props aid flags
  | OAttachWrite st _ =>
      if Z.land flags mapiCreate =? 0 then fail id_ropOpenEmbeddedMessage ohindex ecNotFound
      else openEmbeddedResponse ohindex st (mkEmbedded (mkMemMessage [] [] []) (Some p) None)
  | _ => fail id_ropOpenEmbeddedMessage ohindex ecNotSupported
  end.

(** ** Copies *)

Definition mapiMove : Z := 0x01.
Definition mapiNoReplace : Z := 0x02.
Inductive category := catNone | catMessage | catAttachment.
#[local] Instance category_eq_dec : EqDecision category.
Proof. solve_decision. Defined.
Definition objectCategory (o : object) : category :=
  match o with
  | OMessage _ _ _ _ _ _ | ONewMessage _ _ | OEmbedded _ _ => catMessage
  | OAttachment _ _ _ _ _ | OAttachWrite _ _ => catAttachment
  | _ => catNone
  end.
Definition copyMetaExcluded : list Z := [PrMid; PrChangeKey; PrChangeNumber; PrPredecessorChangeList; PrSearchKey; PrMessageSize].
Definition selectPropsToCopy (srcProps dstExisting : bag) (tags : list Z) (exclude noReplace : bool) : bag :=
  List.filter (fun pv => eqb (tagInSet tags pv.1) (negb exclude) && negb (tagInSet copyMetaExcluded pv.1)
                         && negb (noReplace && match bag_Get dstExisting pv.1 with Some _ => true | None => false end)) srcProps.
Definition subObjectsToCopy (exclude wantSub : bool) (tags : list Z) : bool * bool :=
  if exclude then (wantSub && negb (tagInSet tags PrMessageRecipients), wantSub && negb (tagInSet tags PrMessageAttachments))
  else (tagInSet tags PrMessageRecipients, tagInSet tags PrMessageAttachments).
Definition canWriteSubObjects (o : object) : bool := match o with ONewMessage _ _ | OEmbedded _ _ => true | _ => false end.
(** [None]: sub-objects are asked for that the destination cannot hold *)
Definition plannedSubObjects (src dst : object) (tags : list Z) (exclude wantSub : bool) : option (bool * bool) :=
  let '(recips, attachs) := if bool_decide (objectCategory src = catMessage) then subObjectsToCopy exclude wantSub tags else (false, false) in
  if (recips || attachs) && negb (canWriteSubObjects dst) then None else Some (recips, attachs).

Definition copyEndpoints (ropID hindex dhindex : Z) : H S (N * object * (N * object)) :=
  src ← some_object ropID hindex hindex ecError;
  d ← at_slot dhindex;
  match d with
  | None => _ ← writeErr ropID hindex ecDstNullObject; _ ← emit (push_Uint32 dhindex); ret_now true
  | Some dst =>
      if bool_decide (objectCategory src.2 = catNone) || negb (bool_decide (objectCategory src.2 = objectCategory dst.2)) then fail ropID hindex ecDeclineCopy
      else
        _ ← match dst.2 with OMessage st _ fid _ _ _ => denyWrite ropID hindex st fid FrightsEditAny | _ => mret tt end;
        mret (src, dst)
  end.

(** The pending edits over a bag, as [applyPending] with no filter *)
Definition bag_applyPending (pend : bag) (dels : list Z) (b : bag) : bag := setAll (removeTags b dels) pend.
Definition objectAllProps (o : object) : H S (option bag) :=
  match o with
  | OMessage st mid _ pend dels _ =>
      r ← ask (CGetMessageProperties st mid []);
      match r with Err _ => mret None | Ok props => b ← intern_bag props; mret (Some (bag_applyPending pend dels b)) end
  | ONewMessage _ nm => mret (Some (nm_props nm))
  | OEmbedded _ e => mret (Some (mm_Props (em_msg e)))
  | OAttachment _ b _ _ _ => mret (Some b)
  | OAttachWrite _ aw => mret (Some (aw_pending aw))
  | _ => mret None
  end.
(** The destination with the values set: [None] for a kind that is not written *)
Definition objectWriteProps (o : object) (vals : bag) : option object :=
  match o with
  | OMessage st mid fid pend dels t => Some (OMessage st mid fid (setAll pend vals) dels t)
  | ONewMessage st nm => Some (ONewMessage st (nm_with_props nm (setAll (nm_props nm) vals)))
  | OEmbedded st e => Some (OEmbedded st (em_with_props e (setAll (mm_Props (em_msg e)) vals)))
  | OAttachWrite st aw => Some (OAttachWrite st (aw_with aw (setAll (aw_pending aw) vals) (aw_pendingDeletes aw)))
  | _ => None
  end.
Definition copyPropertyBag (ropID hindex : Z) (src : object) (dp : N) (dst : object) (tags : list Z) (exclude : bool) (copyFlags : Z) : H S unit :=
  r ← objectAllProps src;
  match r with
  | None => fail ropID hindex ecError
  | Some srcProps =>
      let noReplace := negb (Z.land copyFlags mapiNoReplace =? 0) in
      existing ← (if noReplace then e ← objectAllProps dst; mret (default [] e) else mret []);
      match objectWriteProps dst (selectPropsToCopy srcProps existing tags exclude noReplace) with
      | None => fail ropID hindex ecAccessDenied
      | Some dst => assign dp dst
      end
  end.

Definition objectSubObjects (o : object) : H S (option (list bag * list bag)) :=
  match o with
  | OMessage st mid _ _ _ _ =>
      r ← ask (COpenMessage st mid);
      match r with
      | Err _ => mret None
      | Ok msg => rs ← each intern_bag (ms_Recipients msg); atts ← each intern_bag (ms_Attachments msg); mret (Some (rs, atts))
      end
  | ONewMessage _ nm => nas ← each deref_natt (nm_attachments nm); mret (Some (nm_recipients nm, map na_props nas))
  | OEmbedded _ e => mret (Some (mm_Recipients (em_msg e), mm_Attachments (em_msg e)))
  | _ => mret None
  end.
Definition cloneAttachProps (src : bag) (num : Z) : bag := bag_Set (removeTag src PrAttachNum) PrAttachNum (BV (AInt32 (i32 num))).
(** The staged copies, numbered from 0 as [nextNewAttachNum] does *)
Fixpoint stage_copies (done : list newAttachment) (bags : list bag) : H S (list N) :=
  match bags with
  | [] => mret []
  | b :: bags =>
      let num := nextNewAttachNum done in
      let a := mkNewAttachment num (cloneAttachProps b num) in
      p ← new_natt a; ps ← stage_copies (done ++ [a]) bags; mret (p :: ps)
  end.
Definition objectWriteSubObjects (p : N) (o : object) (copyRecips : bool) (recips : list bag) (copyAttachs : bool) (attachs : list bag) : H S bool :=
  match o with
  | ONewMessage st nm =>
      atts ← (if copyAttachs then stage_copies [] attachs else mret (nm_attachments nm));
      _ ← assign p (ONewMessage st (mkNewMessage (nm_folderID nm) (nm_props nm) (if copyRecips then recips else nm_recipients nm) atts (nm_saved nm) (nm_savedID nm)));
      mret true
  | OEmbedded st e =>
      let m := em_msg e in
      _ ← assign p (OEmbedded st (mkEmbedded (mkMemMessage (mm_Props m) (if copyRecips then recips else mm_Recipients m) (if copyAttachs then attachs else mm_Attachments m))
                                     (em_writeback e) (em_parent e)));
      mret true
  | _ => mret false
  end.
(** Both objects are read again: the destination may be the source. *)
Definition copySubObjects (ropID hindex : Z) (sp dp : N) (copyRecips copyAttachs : bool) : H S unit :=
  src ← deref sp; dst ← deref dp;
  r ← objectSubObjects src;
  match r with
  | None => fail ropID hindex ecError
  | Some (recips, attachs) =>
      done ← objectWriteSubObjects dp dst copyRecips recips copyAttachs attachs;
      if done : bool then mret tt else fail ropID hindex ecNotSupported
  end.

Definition copyProperties (ropID hindex dhindex copyFlags : Z) (tags : list Z) (exclude wantSub : bool) : H S unit :=
  if negb (Z.land copyFlags mapiMove =? 0) then fail ropID hindex ecNotSupported
  else
    '((sp, src), (dp, dst)) ← copyEndpoints ropID hindex dhindex;
    match plannedSubObjects src dst tags exclude wantSub with
    | None => fail ropID hindex ecNotSupported
    | Some (recips, attachs) =>
        _ ← copyPropertyBag ropID hindex src dp dst tags exclude copyFlags;
        _ ← (if recips || attachs then copySubObjects ropID hindex sp dp recips attachs else mret tt);
        _ ← writeStatusHead ropID hindex;
        emit (push_Uint16 0)
    end.
Definition ropCopyProperties (hindex : Z) : H S unit :=
  '(dhindex, copyFlags, tags) ← pull_req (d <- pull_Uint8 ;; _ <- pull_Uint8 ;; f <- pull_Uint8 ;; t <- pull_PropTags ;; pull_ret (d, f, t));
  copyProperties id_ropCopyProperties hindex dhindex copyFlags tags false false.
Definition ropCopyTo (hindex : Z) : H S unit :=
  '(dhindex, wantSub, copyFlags, excluded) ← pull_req (d <- pull_Uint8 ;; _ <- pull_Uint8 ;; s <- pull_Uint8 ;; f <- pull_Uint8 ;; t <- pull_PropTags ;; pull_ret (d, s, f, t));
  copyProperties id_ropCopyTo hindex dhindex copyFlags excluded true (negb (wantSub =? 0)).
End attach.
