(* ===== verification/RopStream.v ===== *)
(** * The ROP layer: property streams ([stream.go])

    A stream is a byte slice with a cursor, over a property of an opened object.  A binary value is
    streamed from its own slice: the array is shared with the bag the value came from, and a commit
    puts the stream's slice into the bag. *)

From stdpp Require Import base list gmap numbers.
From Stdlib Require Import ZArith Lia.
From S2P Require Import Prelude Utf Gostr Mapi Wire ExtVal Permission RopTags RopBase RopProps RopMessage.
Open Scope Z_scope.

Definition maxStreamSize : Z := 2 ^ 30.
Definition streamWriteMode : Z := 0x03.
Definition streamSeekSet : Z := 0.
Definition streamSeekCur : Z := 1.
Definition streamSeekEnd : Z := 2.

(** ** Values and their bytes *)

(** UTF-16LE *)
Definition utf16le (s : bytes) : bytes := concat (map (le_bytes 2) (utf16_Encode (runes s))).
Fixpoint units_le (b : bytes) : list Z := match b with x :: y :: b => le_value [x; y] :: units_le b | _ => [] end.

(** The bytes of a value that has none in an array of its own *)
Definition streamBytes (typ : Z) (v : any) : bytes :=
  if (typ =? PtBinary) || (typ =? PtObject) then match v with ABytes b => b | _ => [] end
  else if typ =? PtUnicode then match v with AString s => utf16le s | _ => [] end
  else if typ =? PtString8 then match v with AString s => s | _ => [] end
  else [].
Definition streamValue (typ : Z) (arr : N) (n : Z) (data : bytes) : bval :=
  if typ =? PtUnicode then BV (AString (string_of_runes (utf16_Decode (units_le data))))
  else if typ =? PtString8 then BV (AString data)
  else BArr arr (Z.to_N n).

Section stream.
Context {S : Type} `{Backend S}.

(** The slice of a value: that of the bag for a binary one, a new one for a string *)
Definition slice_of (typ : Z) (v : bval) : H S (N * Z) :=
  match v with
  | BArr p n => if (typ =? PtBinary) || (typ =? PtObject) then mret (p, Z.of_N n) else p ← new_arr []; mret (p, 0)
  | BV v => let b := streamBytes typ v in p ← new_arr b; mret (p, len b)
  end.
(** [streamFrom]: [None] when the bag does not have the property *)
Definition streamFrom (b : bag) (tag : Z) : H S (option (N * Z)) :=
  match bag_Get b tag with None => mret None | Some v => d ← slice_of (PropTag_Type tag) v; mret (Some d) end.
(** One property of a stored object *)
Definition stream_stored (r : serrable PropertyValues) (tag : Z) : H S (option (N * Z)) :=
  match r with Err _ => mret None | Ok props => b ← intern_bag props; streamFrom b tag end.

Definition streamAttachWrite (st : store) (aw : attachWrite) (tag : Z) : H S (option (N * Z)) :=
  r ← streamFrom (aw_pending aw) tag;
  match r with
  | Some d => mret (Some d)
  | None =>
      r ← match aw_inMem aw with Some p => na ← deref_natt p; streamFrom (na_props na) tag | None => mret None end;
      match r with
      | Some d => mret (Some d)
      | None => if aw_attachmentID aw =? 0 then mret None else r ← ask (CGetAttachmentProperties st (aw_attachmentID aw) [tag]); stream_stored r tag
      end
  end.
Definition streamData (o : object) (tag : Z) : H S (option (N * Z)) :=
  match o with
  | OMessage st mid _ _ _ _ => r ← ask (CGetMessageProperties st mid [tag]); stream_stored r tag
  | OEmbedded _ e => streamFrom (mm_Props (em_msg e)) tag
  | OAttachment _ b _ _ _ => streamFrom b tag
  | OAttachWrite st aw => streamAttachWrite st aw tag
  | _ => mret None
  end.

Definition isStreamWritable (o : object) : bool :=
  match o with OAttachWrite _ _ | OMessage _ _ _ _ _ _ | ONewMessage _ _ | OEmbedded _ _ => true | _ => false end.
Definition or_empty (r : option (N * Z)) : H S (N * Z) := match r with Some d => mret d | None => p ← new_arr []; mret (p, 0) end.
Definition writeStreamInitial (o : object) (tag : Z) : H S (N * Z) :=
  match o with
  | OAttachWrite _ aw => r ← streamFrom (aw_pending aw) tag; or_empty r
  | OMessage _ _ _ pend _ _ =>
      r ← streamFrom pend tag;
      match r with Some d => mret d | None => r ← streamData o tag; or_empty r end
  | ONewMessage _ nm => r ← streamFrom (nm_props nm) tag; or_empty r
  | OEmbedded _ e => r ← streamFrom (mm_Props (em_msg e)) tag; or_empty r
  | _ => or_empty None
  end.

(** ** Opening, reading and writing *)

Definition ropOpenStream (hindex : Z) : H S unit :=
  '(ohindex, tag, mode) ← pull_req (o <- pull_Uint8 ;; t <- pull_Uint32 ;; m <- pull_Uint8 ;; pull_ret (o, t, m));
  '(p, o) ← some_object id_ropOpenStream hindex ohindex ecError;
  st ← (if negb (Z.land mode streamWriteMode =? 0) && isStreamWritable o then
          _ ← match o with OMessage st _ fid _ _ _ => denyWrite id_ropOpenStream ohindex st fid FrightsEditAny | _ => mret tt end;
          '(arr, n) ← writeStreamInitial o tag;
          mret (mkStream arr n 0 true false (Some p) tag)
        else
          r ← streamData o tag;
          match r with
          | None => fail id_ropOpenStream ohindex ecNotFound
          | Some (arr, n) => mret (mkStream arr n 0 false false None 0)
          end);
  h ← alloc (OStream st);
  _ ← setHandle ohindex h;
  _ ← writeStatusHead id_ropOpenStream ohindex;
  emit (push_Uint32 (u32 (sm_len st))).

Definition openStream (ropID hindex : Z) : H S (N * streamState) :=
  o ← at_slot hindex; match o with Some (p, OStream s) => mret (p, s) | _ => fail ropID hindex ecError end.

(** A 16-bit count, or a 32-bit one behind the marker 0xBABE *)
Definition pullReadCount : pull Z := n <- pull_Uint16 ;; if n =? 0xBABE then pull_Uint32 else pull_ret n.
Definition st_at (s : streamState) (arr : N) (n pos : Z) (dirty : bool) : streamState :=
  mkStream arr n pos (sm_writable s) dirty (sm_parent s) (sm_tag s).
(** The cursor is never past the end; slicing there would panic. *)
Definition ropReadStream (hindex : Z) : H S unit :=
  want ← pull_req pullReadCount;
  '(p, s) ← openStream id_ropReadStream hindex;
  if sm_len s <? sm_pos s then panic
  else
    let n := Z.min want (Z.min (sm_len s - sm_pos s) 0xFFFF) in
    data ← read_arr (sm_data s) (sm_len s);
    _ ← assign p (OStream (st_at s (sm_data s) (sm_len s) (sm_pos s + n) (sm_dirty s)));
    _ ← writeStatusHead id_ropReadStream hindex;
    emit (push_BinShort (take (Z.to_nat n) (drop (Z.to_nat (sm_pos s)) data))).

(** [copy(b[pos:], data)] *)
Definition overwrite (b : bytes) (pos : Z) (data : bytes) : bytes :=
  take (Z.to_nat pos) b ++ data ++ drop (Z.to_nat (pos + len data)) b.
(** The slice in a new array of length [n], zero past its old end *)
Definition grow (s : streamState) (n : Z) : H S N :=
  data ← read_arr (sm_data s) (sm_len s);
  new_arr (data ++ replicate (Z.to_nat (n - sm_len s)) 0).
Definition ropWriteStream (hindex : Z) : H S unit :=
  data ← pull_req pull_BinShort;
  '(p, s) ← openStream id_ropWriteStream hindex;
  if negb (sm_writable s) then fail id_ropWriteStream hindex ecAccessDenied
  else
    let e := sm_pos s + len data in
    '(arr, n) ← (if sm_len s <? e then arr ← grow s e; mret (arr, e) else mret (sm_data s, sm_len s));
    w ← world_get;
    _ ← assign_arr arr (overwrite (arr_of w arr) (sm_pos s) data);
    _ ← assign p (OStream (st_at s arr n e true));
    _ ← writeStatusHead id_ropWriteStream hindex;
    emit (push_Uint16 (u16 (len data))).

(** The parent takes the bytes; its kind is one that is written. *)
Definition commitStream (s : streamState) : H S bool :=
  data ← read_arr (sm_data s) (sm_len s);
  let val := streamValue (PropTag_Type (sm_tag s)) (sm_data s) (sm_len s) data in
  match sm_parent s with
  | None => panic
  | Some p =>
      o ← deref p;
      match o with
      | OAttachWrite st aw => _ ← assign p (OAttachWrite st (aw_with aw (bag_Set (aw_pending aw) (sm_tag s) val) (aw_pendingDeletes aw))); mret true
      | OMessage st mid fid pend dels _ => _ ← assign p (OMessage st mid fid (bag_Set pend (sm_tag s) val) dels true); mret true
      | ONewMessage st nm => _ ← assign p (ONewMessage st (nm_with_props nm (bag_Set (nm_props nm) (sm_tag s) val))); mret true
      | OEmbedded st e => _ ← assign p (OEmbedded st (em_with_props e (bag_Set (mm_Props (em_msg e)) (sm_tag s) val))); mret true
      | _ => mret false
      end
  end.
Definition ropCommitStream (hindex : Z) : H S unit :=
  '(p, s) ← openStream id_ropCommitStream hindex;
  _ ← (if sm_writable s then
         done ← commitStream s;
         if done : bool then assign p (OStream (st_at s (sm_data s) (sm_len s) (sm_pos s) false)) else fail id_ropCommitStream hindex ecError
       else mret tt);
  writeStatusHead id_ropCommitStream hindex.

Definition seekBase (s : streamState) (origin : Z) : option Z :=
  if origin =? streamSeekSet then Some 0
  else if origin =? streamSeekCur then Some (sm_pos s)
  else if origin =? streamSeekEnd then Some (sm_len s)
  else None.
Definition seekTo (s : streamState) (newpos : Z) : H S streamState :=
  if sm_len s <? newpos then
    if sm_writable s then arr ← grow s newpos; mret (st_at s arr newpos newpos (sm_dirty s))
    else mret (st_at s (sm_data s) (sm_len s) (sm_len s) (sm_dirty s))
  else mret (st_at s (sm_data s) (sm_len s) newpos (sm_dirty s)).
Definition ropSeekStream (hindex : Z) : H S unit :=
  '(origin, off) ← pull_req (o <- pull_Uint8 ;; r <- pull_Uint64 ;; pull_ret (o, r));
  '(p, s) ← openStream id_ropSeekStream hindex;
  match seekBase s origin with
  | None => fail id_ropSeekStream hindex ecInvalidParam
  | Some base =>
      let newpos := i64 (base + i64 off) in
      if (newpos <? 0) || (maxStreamSize <? newpos) then fail id_ropSeekStream hindex ecInvalidParam
      else
        s ← seekTo s newpos;
        _ ← assign p (OStream s);
        _ ← writeStatusHead id_ropSeekStream hindex;
        emit (push_Uint64 (u64 (sm_pos s)))
  end.

Definition ropSetStreamSize (hindex : Z) : H S unit :=
  size ← pull_req pull_Uint64;
  '(p, s) ← openStream id_ropSetStreamSize hindex;
  if negb (sm_writable s) then fail id_ropSetStreamSize hindex ecAccessDenied
  else if maxStreamSize <? size then fail id_ropSetStreamSize hindex ecInvalidParam
  else
    arr ← (if sm_len s <? size then grow s size else mret (sm_data s));
    _ ← assign p (OStream (st_at s arr size (Z.min (sm_pos s) size) true));
    writeStatusHead id_ropSetStreamSize hindex.
Definition ropGetStreamSize (hindex : Z) : H S unit :=
  '(_, s) ← openStream id_ropGetStreamSize hindex;
  _ ← writeStatusHead id_ropGetStreamSize hindex;
  emit (push_Uint32 (u32 (sm_len s))).
End stream.
