(* ===== verification/RopMsgops.v ===== *)
(** * The ROP layer: operations on the messages of a folder

    Read state and receipts, deletion, move and copy ([msgops.go], [receipt.go]) and the status bits
    of a message ([msgstatus.go]). *)

From stdpp Require Import base list gmap numbers.
From Stdlib Require Import ZArith Lia.
From S2P Require Import Prelude Gostr Mapi Wire ExtVal Permission RopTags RopBase RopProps RopMessage.
Open Scope Z_scope.

Section msgops.
Context {S : Type} `{Backend S} (cf : config).

(** ** Read state *)

Definition rfDefault : Z := 0x00.
Definition rfSuppressReceipt : Z := 0x01.
Definition rfClearReadFlag : Z := 0x04.
Definition rfReserved : Z := 0x0A.
Definition rfGenerateReceiptOnly : Z := 0x10.

Record readFlagAction := mkReadFlagAction { ra_read : bool; ra_change : bool; ra_receipt : bool }.
Definition decodeReadFlags (flags : Z) : readFlagAction :=
  let f := Z.ldiff flags rfReserved in
  if f =? rfDefault then mkReadFlagAction true true true
  else if f =? rfSuppressReceipt then mkReadFlagAction true true false
  else if (f =? rfClearReadFlag) || (f =? Z.lor rfClearReadFlag rfSuppressReceipt) then mkReadFlagAction false true false
  else if f =? rfGenerateReceiptOnly then mkReadFlagAction false false true
  else mkReadFlagAction false false false.

(** Best effort: a session without the mail path sends nothing, and a failure is only logged. *)
Definition maybeReadReceipt (st : store) (mid : Z) : H S unit :=
  match c_accounts cf with None => mret tt | Some _ => _ ← ask (CSendReceipt st mid (c_owner cf)); mret tt end.

Definition ropSetMessageReadFlag (hindex : Z) : H S unit :=
  '(ihindex, flags) ← pull_req (i <- pull_Uint8 ;; f <- pull_Uint8 ;; pull_ret (i, f));
  '(st, mid, fid) ← openMessage id_ropSetMessageReadFlag ihindex hindex;
  _ ← denyWrite id_ropSetMessageReadFlag hindex st fid FrightsEditAny;
  r ← ask (CGetMessageReadState st mid);
  wasRead ← or_fail id_ropSetMessageReadFlag hindex ecError r;
  let action := decodeReadFlags flags in
  receipt ← (if ra_change action then
               r ← ask (CSetMessageReadState st mid (ra_read action));
               _ ← or_fail id_ropSetMessageReadFlag hindex ecError r;
               mret (ra_receipt action && negb wasRead)
             else mret (ra_receipt action));
  _ ← (if receipt : bool then maybeReadReceipt st mid else mret tt);
  _ ← writeStatusHead id_ropSetMessageReadFlag hindex;
  emit (push_Uint8 0).

Definition readFlagTargets (st : store) (fid : Z) (ids : list Z) : H S (serrable (list Z)) :=
  match ids with
  | [] => msgs ←? ask (CListMessages st fid); ok (map mi_ID msgs)
  | _ => ok (map store_id ids)
  end.
Definition applyReadFlag (st : store) (mid : Z) (action : readFlagAction) : H S bool :=
  if negb (ra_change action) then
    _ ← (if ra_receipt action then maybeReadReceipt st mid else mret tt); mret true
  else
    was ← (if ra_receipt action then ask (CGetMessageReadState st mid) else ok false);
    match was with
    | Err _ => mret false
    | Ok wasRead =>
        r ← ask (CSetMessageReadState st mid (ra_read action));
        match r with
        | Err _ => mret false
        | Ok _ =>
            _ ← (if ra_receipt action && ra_read action && negb wasRead then maybeReadReceipt st mid else mret tt);
            mret true
        end
    end.
(** 1 when some step failed *)
Definition partial_of (done : list bool) : Z := if forallb id done then 0 else 1.
Definition ropSetReadFlags (hindex : Z) : H S unit :=
  '(flags, ids) ← pull_req (_ <- pull_Uint8 ;; f <- pull_Uint8 ;; i <- pull_Uint64ArrayShort ;; pull_ret (f, i));
  '(st, fid) ← openFolder id_ropSetReadFlags hindex hindex;
  _ ← denyWrite id_ropSetReadFlags hindex st fid FrightsEditAny;
  r ← readFlagTargets st fid ids;
  targets ← or_fail id_ropSetReadFlags hindex ecError r;
  done ← each (fun mid => applyReadFlag st mid (decodeReadFlags flags)) targets;
  _ ← writeStatusHead id_ropSetReadFlags hindex;
  emit (push_Uint8 (partial_of done)).

(** ** Deletion, move and copy *)

Definition is_ok {A} (r : serrable A) : bool := match r with Ok _ => true | Err _ => false end.
Definition ropDeleteMessages (hindex : Z) : H S unit :=
  ids ← pull_req (_ <- pull_Uint8 ;; _ <- pull_Uint8 ;; pull_Uint64ArrayShort);
  '(st, fid) ← openFolder id_ropDeleteMessages hindex hindex;
  _ ← denyWrite id_ropDeleteMessages hindex st fid FrightsDeleteAny;
  done ← each (fun eid => r ← ask (CSoftDeleteObject st (store_id eid)); mret (is_ok r)) ids;
  _ ← writeStatusHead id_ropDeleteMessages hindex;
  emit (push_Uint8 (partial_of done)).

Definition moveCopyEndpoints (hindex dhindex : Z) (move : bool) : H S (store * Z * (store * Z)) :=
  '(st, fid) ← openFolder id_ropMoveCopyMessages hindex hindex;
  d ← at_slot dhindex;
  match d with
  | Some (_, OFolder dst dfid) =>
      if negb (beq (st_dir st) (st_dir dst)) then fail id_ropMoveCopyMessages hindex ecNotSupported
      else
        _ ← denyWrite id_ropMoveCopyMessages hindex st fid (if move then FrightsDeleteAny else FrightsReadAny);
        _ ← denyWrite id_ropMoveCopyMessages hindex dst dfid FrightsCreate;
        mret (st, fid, (dst, dfid))
  | _ => fail id_ropMoveCopyMessages hindex ecError
  end.
Definition copyStoredMessage (st : store) (srcFolder uid dstFolder : Z) : H S (serrable unit) :=
  info ←? ask (CMessageByUID st srcFolder uid);
  raw ←? ask (CGetMessageRaw st srcFolder uid);
  ask (CAppendMessage st dstFolder raw (mi_InternalDate info) (mi_Flags info)).
Definition moveCopyOne (st : store) (fid dfid uid : Z) (move : bool) : H S bool :=
  r ← copyStoredMessage st fid uid dfid;
  match r with
  | Err _ => mret false
  | Ok _ => if move then r ← ask (CDeleteMessage st fid uid); mret (is_ok r) else mret true
  end.
(** The uid of a message id: the last one listed wins, as in the map *)
Definition uidByID (msgs : list MessageInfo) (mid : Z) : option Z :=
  foldl (fun u m => if mi_ID m =? mid then Some (mi_UID m) else u) None msgs.
Definition moveCopyEach (st : store) (fid dfid : Z) (ids : list Z) (move : bool) : H S Z :=
  r ← ask (CListMessages st fid);
  let msgs := match r with Ok msgs => msgs | Err _ => [] end in
  done ← each (fun eid => match uidByID msgs (store_id eid) with Some uid => moveCopyOne st fid dfid uid move | None => mret false end) ids;
  mret (partial_of done).
Definition ropMoveCopyMessages (hindex : Z) : H S unit :=
  '(dhindex, ids, wantCopy) ← pull_req (d <- pull_Uint8 ;; i <- pull_Uint64ArrayShort ;; _ <- pull_Uint8 ;; c <- pull_Uint8 ;; pull_ret (d, i, c));
  let move := wantCopy =? 0 in
  '(st, fid, (_, dfid)) ← moveCopyEndpoints hindex dhindex move;
  partial ← moveCopyEach st fid dfid ids move;
  _ ← writeStatusHead id_ropMoveCopyMessages hindex;
  emit (push_Uint8 partial).

(** ** Status bits *)

Definition msgStatusInConflict : Z := 0x800.
Definition messageStatus (props : PropertyValues) : option Z := match pv_Get props PrMsgStatus with Some (AInt32 n) => Some (u32 n) | _ => None end.
Definition merge_status (original newStatus mask : Z) : Z :=
  let applied := Z.land newStatus mask in Z.lor applied (Z.ldiff original (Z.ldiff mask applied)).
(** The folder at a slot, another object being answered with [ecNotSupported] *)
Definition status_folder (ropID hindex : Z) : H S (store * Z) :=
  '(_, o, _) ← some_stored ropID hindex hindex ecError;
  match o with OFolder st fid => mret (st, fid) | _ => fail ropID hindex ecNotSupported end.
Definition stored_status (ropID hindex : Z) (st : store) (mid : Z) : H S Z :=
  r ← ask (CGetMessageProperties st mid [PrMsgStatus]);
  props ← or_not_found ropID hindex r;
  match messageStatus props with Some n => mret n | None => fail ropID hindex ecNotFound end.
Definition ropGetMessageStatus (hindex : Z) : H S unit :=
  eid ← pull_req pull_Uint64;
  '(st, _) ← status_folder id_ropGetMessageStatus hindex;
  status ← stored_status id_ropGetMessageStatus hindex st (store_id eid);
  _ ← writeStatusHead id_ropGetMessageStatus hindex;
  emit (push_Uint32 status).
Definition mergeMessageStatus (hindex : Z) (st : store) (mid newStatus mask : Z) : H S Z :=
  original ← stored_status id_ropSetMessageStatus hindex st mid;
  if negb (Z.land (Z.land newStatus mask) msgStatusInConflict =? 0) then fail id_ropSetMessageStatus hindex ecAccessDenied
  else
    let merged := merge_status original newStatus mask in
    r ← ask (CSetMessageProperties st mid [mkTagged PrMsgStatus (AInt32 (i32 merged))]);
    _ ← or_fail id_ropSetMessageStatus hindex ecError r;
    mret merged.
Definition ropSetMessageStatus (hindex : Z) : H S unit :=
  '(eid, newStatus, mask) ← pull_req (e <- pull_Uint64 ;; n <- pull_Uint32 ;; m <- pull_Uint32 ;; pull_ret (e, n, m));
  '(st, fid) ← status_folder id_ropSetMessageStatus hindex;
  _ ← denyWrite id_ropSetMessageStatus hindex st fid FrightsEditAny;
  merged ← mergeMessageStatus hindex st (store_id eid) newStatus mask;
  _ ← writeStatusHead id_ropSetMessageStatus hindex;
  emit (push_Uint32 merged).
End msgops.
