(* ===== verification/RopTable.v ===== *)
(** * The ROP layer: tables ([table.go], the tables of [folder.go])

    A table is a snapshot of rows with a view over them: the filter of RopRestrict and the order of
    RopSortTable, rebuilt whenever either changes, and a cursor in the view.  The rows' properties
    are read from the store when they are needed. *)

From stdpp Require Import base list gmap numbers.
From Stdlib Require Import ZArith Lia.
From S2P Require Import Prelude Gostr Mapi Wire ExtVal Permission RopTags RopBase RopProps RopMessage.
Open Scope Z_scope.

(** ** Comparing values *)

(** The order of IEEE-754 bit patterns of width [w] with [m] mantissa bits, as [cmp.Compare]: a NaN
    is equal to a NaN and less than any other value, the two zeros are equal. *)
Definition float_nan (w m bits : Z) : bool := Z.shiftl (2 ^ (w - 1 - m) - 1) m <? Z.land bits (2 ^ (w - 1) - 1).
Definition float_key (w m bits : Z) : Z :=
  if float_nan w m bits then - 2 ^ w
  else if Z.testbit bits (w - 1) then - Z.land bits (2 ^ (w - 1) - 1) else Z.land bits (2 ^ (w - 1) - 1).
Definition cmp_Compare (x y : Z) : Z := if x <? y then -1 else if y <? x then 1 else 0.

Definition compareNumbers (a b : any) : option Z :=
  match a, b with
  | AInt16 x, AInt16 y | AInt32 x, AInt32 y | AInt64 x, AInt64 y | AUint64 x, AUint64 y => Some (cmp_Compare x y)
  | AFloat32 x, AFloat32 y => Some (cmp_Compare (float_key 32 23 x) (float_key 32 23 y))
  | AFloat64 x, AFloat64 y => Some (cmp_Compare (float_key 64 52 x) (float_key 64 52 y))
  | _, _ => None
  end.
(** [strings.Compare], [bytes.Compare] *)
Fixpoint bytes_Compare (x y : bytes) : Z :=
  match x, y with
  | [], [] => 0
  | [], _ => -1
  | _, [] => 1
  | a :: x, b :: y => if a <? b then -1 else if b <? a then 1 else bytes_Compare x y
  end.
Definition compareBool (x y : bool) : Z := if eqb x y then 0 else if x then 1 else -1.
Definition compareTextual (a b : any) : option Z :=
  match a, b with
  | ABool x, ABool y => Some (compareBool x y)
  | AString x, AString y => Some (bytes_Compare x y)
  | ABytes x, ABytes y => Some (bytes_Compare x y)
  | _, _ => None
  end.
Definition compareSameKind (a b : any) : option Z :=
  match compareNumbers a b with Some r => Some r | None => compareTextual a b end.
Definition compareValues (a b : any) : Z := default 0 (compareSameKind a b).

(** A row with the key is before one without it; two without it go on to the next key. *)
Fixpoint compare_keys (keys : list sortKey) (a b : PropertyValues) : Z :=
  match keys with
  | [] => 0
  | k :: keys =>
      match pv_GetAnyCharset a (sk_tag k), pv_GetAnyCharset b (sk_tag k) with
      | None, None => compare_keys keys a b
      | None, Some _ => 1
      | Some _, None => -1
      | Some av, Some bv =>
          let c := if sk_descending k then - compareValues av bv else compareValues av bv in
          if c =? 0 then compare_keys keys a b else c
      end
  end.
Definition compareRows (t : tableState) : PropertyValues -> PropertyValues -> Z := compare_keys (tb_sortKeys t).

(** ** Restrictions *)

Definition fuzzyFullString : Z := 0x0000.
Definition fuzzySubString : Z := 0x0001.
Definition fuzzyPrefix : Z := 0x0002.
Definition fuzzyIgnoreCase : Z := 0x00010000.

Definition relopSupported (relop : Z) : bool := existsb (Z.eqb relop) [RelopLT; RelopLE; RelopGT; RelopGE; RelopEQ; RelopNE].
Definition propertyRestrictionSupported (relop tag : Z) : bool :=
  if IsMultivalue (PropTag_Type tag) then (relop =? RelopEQ) || (relop =? RelopNE) else relopSupported relop.
Definition contentRestrictionSupported (tag fuzzy : Z) : bool :=
  existsb (Z.eqb (PropTag_Type tag)) [PtUnicode; PtString8; PtMvUnicode; PtMvString8]
  && (Z.ldiff fuzzy (Z.lor 0xFFFF fuzzyIgnoreCase) =? 0)
  && existsb (Z.eqb (Z.land fuzzy 0xFFFF)) [fuzzyFullString; fuzzySubString; fuzzyPrefix].

(** The trees below take a node by its type and value; a value of another type is the zero value of
    the type the node asks for. *)
Fixpoint res_supported (ty : Z) (v : any) {struct v} : bool :=
  if (ty =? ResAnd) || (ty =? ResOr) then match v with ARess l => forallb (fun r => res_supported (resType r) (resValue r)) l | _ => true end
  else if ty =? ResNot then match v with ARes r => res_supported (resType r) (resValue r) | _ => true end
  else if ty =? ResComment then
    match v with AComment c => match cmRes c with Some r => res_supported (resType r) (resValue r) | None => true end | _ => true end
  else if ty =? ResExist then true
  else if ty =? ResProperty then match v with AProperty p => propertyRestrictionSupported (prRelop p) (prPropTag p) | _ => propertyRestrictionSupported 0 0 end
  else if ty =? ResContent then match v with AContent c => contentRestrictionSupported (crPropTag c) (crFuzzyLevel c) | _ => contentRestrictionSupported 0 0 end
  else if ty =? ResBitmask then match v with ABitmask b => PropTag_Type (bmPropTag b) =? PtLong | _ => false end
  else false.
Definition restrictionSupported (r : Restriction) : bool := res_supported (resType r) (resValue r).

Fixpoint res_tags (ty : Z) (v : any) {struct v} : list Z :=
  if (ty =? ResAnd) || (ty =? ResOr) then match v with ARess l => concat (map (fun r => res_tags (resType r) (resValue r)) l) | _ => [] end
  else if ty =? ResNot then match v with ARes r => res_tags (resType r) (resValue r) | _ => [] end
  else if ty =? ResComment then match v with AComment c => match cmRes c with Some r => res_tags (resType r) (resValue r) | None => [] end | _ => [] end
  else if ty =? ResExist then match v with AExist e => [exPropTag e] | _ => [0] end
  else if ty =? ResProperty then match v with AProperty p => [prPropTag p] | _ => [0] end
  else if ty =? ResContent then match v with AContent c => [crPropTag c] | _ => [0] end
  else if ty =? ResBitmask then match v with ABitmask b => [bmPropTag b] | _ => [0] end
  else [].
Definition restrictionTags (r : Restriction) : list Z := res_tags (resType r) (resValue r).

(** The elements of a slice value; those that compare with nothing are left out. *)
Definition slice_elements (v : any) : option (list any) :=
  match v with
  | AInt16s l => Some (map AInt16 l) | AInt32s l => Some (map AInt32 l) | AInt64s l => Some (map AInt64 l) | AUint64s l => Some (map AUint64 l)
  | AFloat32s l => Some (map AFloat32 l) | AFloat64s l => Some (map AFloat64 l) | AStrings l => Some (map AString l) | ABytess l => Some (map ABytes l)
  | AGUIDs _ | ABytes _ | ARess _ => Some []
  | _ => None
  end.
Definition evalMultivalueProperty (relop : Z) (v want : any) : bool :=
  if negb ((relop =? RelopEQ) || (relop =? RelopNE)) then false
  else match slice_elements v with
       | None => false
       | Some l => eqb (existsb (fun x => match compareSameKind x want with Some c => c =? 0 | None => false end) l) (relop =? RelopEQ)
       end.
Definition evalProperty (p : PropertyRestriction_ any) (props : PropertyValues) : bool :=
  match pv_GetAnyCharset props (prPropTag p) with
  | None => false
  | Some v =>
      let want := tpValue (prPropVal p) in
      let relop := prRelop p in
      if IsMultivalue (PropTag_Type (prPropTag p)) then evalMultivalueProperty relop v want
      else
        let c := compareValues v want in
        if relop =? RelopLT then c <? 0 else if relop =? RelopLE then c <=? 0
        else if relop =? RelopGT then 0 <? c else if relop =? RelopGE then 0 <=? c
        else if relop =? RelopEQ then c =? 0 else if relop =? RelopNE then negb (c =? 0) else false
  end.
Definition evalBitmask (b : BitmaskRestriction) (props : PropertyValues) : bool :=
  match pv_Get props (bmPropTag b) with
  | Some (AInt32 n) =>
      let masked := Z.land (u32 n) (bmMask b) in
      if bmRelop b =? BmrEqz then masked =? 0 else if bmRelop b =? BmrNez then negb (masked =? 0) else false
  | _ => false
  end.

Section eval.
Context (L : libs).

Definition contentMatches (row want : bytes) (fuzzy : Z) : bool :=
  let '(row, want) := if Z.land fuzzy fuzzyIgnoreCase =? 0 then (row, want) else (lb_ToLower L row, lb_ToLower L want) in
  if Z.land fuzzy 0xFFFF =? fuzzySubString then Contains row want
  else if Z.land fuzzy 0xFFFF =? fuzzyPrefix then HasPrefix row want
  else beq row want.
Definition evalContent (c : ContentRestriction_ any) (props : PropertyValues) : bool :=
  match pv_GetAnyCharset props (crPropTag c), tpValue (crPropVal c) with
  | Some (AString row), AString want => contentMatches row want (crFuzzyLevel c)
  | Some (AStrings rows), AString want => existsb (fun row => contentMatches row want (crFuzzyLevel c)) rows
  | _, _ => false
  end.

(** [None]: a leaf whose value is not the one of its type panics. *)
Fixpoint eval_res (props : PropertyValues) (ty : Z) (v : any) {struct v} : option bool :=
  if ty =? ResAnd then
    match v with
    | ARess l =>
        (fix all l := match l with [] => Some true | r :: l => match eval_res props (resType r) (resValue r) with Some true => all l | b => b end end) l
    | _ => Some true
    end
  else if ty =? ResOr then
    match v with
    | ARess l =>
        (fix any_ l := match l with [] => Some false | r :: l => match eval_res props (resType r) (resValue r) with Some false => any_ l | b => b end end) l
    | _ => Some false
    end
  else if ty =? ResNot then match v with ARes r => negb <$> eval_res props (resType r) (resValue r) | _ => Some false end
  else if ty =? ResComment then
    match v with AComment c => match cmRes c with Some r => eval_res props (resType r) (resValue r) | None => Some true end | _ => Some true end
  else if ty =? ResExist then
    Some (match pv_GetAnyCharset props (match v with AExist e => exPropTag e | _ => 0 end) with Some _ => true | None => false end)
  else if ty =? ResProperty then match v with AProperty p => Some (evalProperty p props) | _ => None end
  else if ty =? ResContent then match v with AContent c => Some (evalContent c props) | _ => None end
  else if ty =? ResBitmask then match v with ABitmask b => Some (evalBitmask b props) | _ => None end
  else Some false.
Definition evalRestriction (r : Restriction) (props : PropertyValues) : option bool := eval_res props (resType r) (resValue r).
End eval.

(** ** The state of a table *)

Definition tb_set_view (t : tableState) (keys : list sortKey) (res : option Restriction) (view : option (list Z)) (cursor : Z) : tableState :=
  mkTable (tb_rows t) (tb_folderID t) (tb_softDeleted t) (tb_notify t) (tb_signal t) (tb_columns t) keys res view cursor (tb_bookmarks t) (tb_nextBookmark t).
Definition tb_set_cursor (t : tableState) (cursor : Z) : tableState := tb_set_view t (tb_sortKeys t) (tb_restriction t) (tb_view t) cursor.
Definition tb_set_columns (t : tableState) (cols : option (list Z)) : tableState :=
  mkTable (tb_rows t) (tb_folderID t) (tb_softDeleted t) (tb_notify t) (tb_signal t) cols (tb_sortKeys t) (tb_restriction t) (tb_view t) (tb_cursor t) (tb_bookmarks t) (tb_nextBookmark t).
Definition tb_set_bookmarks (t : tableState) (m : gmap Z Z) (next : Z) : tableState :=
  mkTable (tb_rows t) (tb_folderID t) (tb_softDeleted t) (tb_notify t) (tb_signal t) (tb_columns t) (tb_sortKeys t) (tb_restriction t) (tb_view t) (tb_cursor t) m next.
Definition tb_set_signal (t : tableState) (s : option (Z * Z)) : tableState :=
  mkTable (tb_rows t) (tb_folderID t) (tb_softDeleted t) (tb_notify t) s (tb_columns t) (tb_sortKeys t) (tb_restriction t) (tb_view t) (tb_cursor t) (tb_bookmarks t) (tb_nextBookmark t).

Definition baseCount (t : tableState) : Z :=
  match tb_rows t with TContents l => len l | THierarchy l => len l | TAttachment l => len l | TPermission l => len l | TRules l => len l end.
Definition total (t : tableState) : Z := match tb_view t with Some v => len v | None => baseCount t end.
(** The columns, none having been set reading as the empty list *)
Definition columns (t : tableState) : list Z := default [] (tb_columns t).

Definition withCharsetSiblings (tags : list Z) : list Z :=
  tags ++ omap (fun t => let '(sibling, isString) := CharsetSiblingTag t in if isString : bool then Some sibling else None) tags.
Definition viewTags (t : tableState) : list Z :=
  withCharsetSiblings (map sk_tag (tb_sortKeys t) ++ match tb_restriction t with Some r => restrictionTags r | None => [] end).

Definition bookmarkBeginning : Z := 0.
Definition bookmarkCurrent : Z := 1.
Definition bookmarkEnd : Z := 2.
Definition queryRowsNoAdvance : Z := 0x01.
Definition tableStatusComplete : Z := 0x00.

(** The integers from [a] below [b], and from [b - 1] down to [a] *)
Definition upto (a b : Z) : list Z := map (fun i => a + Z.of_nat i) (seq 0 (Z.to_nat (b - a))).
Definition downto (a b : Z) : list Z := map (fun i => b - 1 - Z.of_nat i) (seq 0 (Z.to_nat (b - a))).
Definition pageIndices (t : tableState) (rowCount : Z) (forward : bool) : list Z * Z :=
  if forward then let e := Z.min (tb_cursor t + rowCount) (total t) in (upto (tb_cursor t) e, e)
  else let start := Z.max (tb_cursor t - rowCount) 0 in (downto start (tb_cursor t), start).
Definition seekPosition (t : tableState) (forward : bool) : Z :=
  if forward && (total t <=? tb_cursor t) then bookmarkEnd
  else if negb forward && (tb_cursor t =? 0) then bookmarkBeginning
  else bookmarkCurrent.
Definition seekOrigin (t : tableState) (seekPos : Z) : option Z :=
  if seekPos =? bookmarkBeginning then Some 0
  else if seekPos =? bookmarkCurrent then Some (tb_cursor t)
  else if seekPos =? bookmarkEnd then Some (total t)
  else None.
(** The clamped target of a seek: the cursor, whether it stopped short and how far it moved *)
Definition seek_target (t : tableState) (origin offset : Z) : tableState * Z * Z :=
  let target := Z.min (Z.max (origin + offset) 0) (total t) in
  let sought := i32 (target - origin) in
  (tb_set_cursor t target, if sought =? offset then 0 else 1, u32 sought).

(** *** Sort requests *)

Definition sortAscend : Z := 0x00.
Definition sortDescend : Z := 0x01.
Definition sortableType (t : Z) : bool :=
  existsb (Z.eqb t) [PtShort; PtLong; PtCurrency; PtI8; PtSysTime; PtFloat; PtDouble; PtAppTime; PtBoolean; PtString8; PtUnicode; PtBinary].
Definition sortOrderSupported (order ptype : Z) : bool := ((order =? sortAscend) || (order =? sortDescend)) && sortableType ptype.
Definition pull_sortKey : pull (sortKey * bool) :=
  ptype <- pull_Uint16 ;; pid <- pull_Uint16 ;; order <- pull_Uint8 ;;
  pull_ret (mkSortKey (MakeTag pid ptype) (order =? sortDescend), sortOrderSupported order ptype).
(** The keys, and whether the server can honour the order *)
Definition pullSortRequest : pull (list sortKey * bool) :=
  _ <- pull_Uint8 ;; count <- pull_Uint16 ;; catCount <- pull_Uint16 ;; expanded <- pull_Uint16 ;;
  keys <- pull_times (Z.to_nat count) pull_sortKey ;;
  pull_ret (keys.*1, (catCount =? 0) && (expanded =? 0) && forallb snd keys).

Section table.
Context {S : Type} `{Backend S} (L : libs).

Definition openTable (ropID hindex ec : Z) : H S (N * store * tableState) :=
  o ← at_slot hindex; match o with Some (p, OTable st t) => mret (p, st, t) | _ => fail ropID hindex ec end.
Definition openStoreTable (ropID hindex : Z) : H S (N * store * tableState) := openTable ropID hindex ecError.
Definition openProjectedTable (ropID hindex : Z) : H S (N * store * tableState) :=
  '(p, st, t) ← openStoreTable ropID hindex;
  match tb_columns t with None => fail ropID hindex ecError | Some _ => mret (p, st, t) end.
(** An element by its index, which panics outside the slice *)
Definition index {A} (l : list A) (i : Z) : H S A := match (if i <? 0 then None else l !! Z.to_nat i) with Some a => mret a | None => panic end.

(** ** Rows *)

(** The properties of a base row for the filter and the sort.  The rows of a permissions or rules
    table are looked for among the messages of a contents table, which such a table does not have. *)
Definition rowKeyProps (st : store) (t : tableState) (base : Z) (tags : list Z) : H S (serrable PropertyValues) :=
  match tb_rows t with
  | THierarchy l => f ← index l base; folderProps st (fi_ID f) tags
  | TAttachment l => b ← index l base; pv ← values b; ok pv
  | TContents l => mid ← index l base; messageProps st mid tags
  | TPermission _ | TRules _ => mid ← index [] base; messageProps st mid tags
  end.
Definition contentsKeyProps (st : store) (ids tags : list Z) : H S (serrable (list PropertyValues)) :=
  byID ←? ask (CMessagePropertiesBatch st ids tags);
  computed ←? ask (CMessageComputedPropsBatch st ids tags);
  ok (map (fun mid => pv_setAll (byID mid) (computed mid)) ids).
Fixpoint rows_key_props (st : store) (t : tableState) (tags idxs : list Z) : H S (serrable (list PropertyValues)) :=
  match idxs with
  | [] => ok []
  | i :: idxs => b ←? rowKeyProps st t i tags; bs ←? rows_key_props st t tags idxs; ok (b :: bs)
  end.
Definition keyProps (st : store) (t : tableState) : H S (serrable (list PropertyValues)) :=
  match tb_rows t with
  | TContents ids => contentsKeyProps st ids (viewTags t)
  | _ => rows_key_props st t (viewTags t) (upto 0 (baseCount t))
  end.
Definition eval_or_panic (r : option Restriction) (props : PropertyValues) : H S bool :=
  match r with
  | None => mret true
  | Some r => match evalRestriction L r props with Some b => mret b | None => panic end
  end.
(** The base rows that match, in the order of the sort keys *)
Definition view_of (t : tableState) (bags : list PropertyValues) : H S (list Z) :=
  let rows := imap (fun i b => (Z.of_nat i, b)) bags in
  keep ← each (fun ib => k ← eval_or_panic (tb_restriction t) ib.2; mret (ib, k)) rows;
  let rows := (List.filter snd keep).*1 in
  mret (SliceStable (fun a b => compareRows t a.2 b.2 <? 0) rows).*1.
(** The view of the filter and the sort keys the table has now.  On an error the table keeps them,
    and its old view, with the cursor at the beginning. *)
Definition rebuildView (p : N) (st : store) (t : tableState) : H S (serrable unit) :=
  let t := tb_set_cursor t 0 in
  _ ← assign p (OTable st t);
  match tb_restriction t, tb_sortKeys t with
  | None, [] => _ ← assign p (OTable st (tb_set_view t [] None None 0)); ok tt
  | _, _ =>
      bags ←? keyProps st t;
      view ← view_of t bags;
      _ ← assign p (OTable st (tb_set_view t (tb_sortKeys t) (tb_restriction t) (Some view) 0));
      ok tt
  end.

Definition baseIndex (t : tableState) (i : Z) : H S Z := match tb_view t with Some v => index v i | None => mret i end.
Definition attachmentRow (t : tableState) (b : PropertyValues) (base : Z) : PropertyValues :=
  let row := if tagInSet (columns t) PrAttachNum && negb (pv_Has b PrAttachNum) then pv_Set b PrAttachNum (AInt32 (i32 base)) else b in
  let row := if tagInSet (columns t) PrRecordKey then pv_Set row PrRecordKey (ABytes (attachmentRecordKey base)) else row in
  if tagInSet (columns t) PrMid then pv_Set row PrMid (AInt64 (attachmentRowMid base)) else row.
Definition messageRow (st : store) (t : tableState) (mid : Z) : H S (serrable PropertyValues) :=
  props ←? messageProps st mid (columns t);
  ok (if tagInSet (columns t) PrMid then pv_Set props PrMid (AInt64 (i64 (MakeEIDEx 1 (u64 mid)))) else props).
Definition rowProps (st : store) (t : tableState) (i : Z) : H S (serrable PropertyValues) :=
  base ← baseIndex t i;
  match tb_rows t with
  | THierarchy l => f ← index l base; folderProps st (fi_ID f) (columns t)
  | TPermission l | TRules l => row ← index l base; ok row
  | TAttachment l => b ← index l base; pv ← values b; ok (attachmentRow t pv base)
  | TContents l => mid ← index l base; messageRow st t mid
  end.
Definition encodeRow (st : store) (t : tableState) (i : Z) : H S (serrable bytes) :=
  props ←? rowProps st t i;
  mret (match buildPropertyRow (columns t) props [] with Ok b => Ok b | Err _ => Err SOther end).
Fixpoint encodeRows (st : store) (t : tableState) (idxs : list Z) : H S (serrable bytes) :=
  match idxs with
  | [] => ok []
  | i :: idxs => row ←? encodeRow st t i; rows ←? encodeRows st t idxs; ok (row ++ rows)
  end.

(** ** Opening tables *)

Definition tableFlagSoftDeletes : Z := 0x20.
Definition tableFlagNoNotifications : Z := 0x10.
Definition new_table (rows : tableRows) (fid tableFlags : Z) (softDeleted : bool) : tableState :=
  mkTable rows fid softDeleted (Z.land tableFlags tableFlagNoNotifications =? 0) None None [] None None 0 ∅ 0.
Definition pullTableRequest : pull (Z * Z) := ohindex <- pull_Uint8 ;; flags <- pull_Uint8 ;; pull_ret (ohindex, flags).
(** Register a table and answer with its row count *)
Definition table_opened (ropID ohindex : Z) (st : store) (t : tableState) : H S unit :=
  h ← alloc (OTable st t);
  _ ← setHandle ohindex h;
  _ ← writeStatusHead ropID ohindex;
  emit (push_Uint32 (u32 (baseCount t))).

Definition childFolders (st : store) (parentID : Z) : H S (serrable (list FolderInfo)) :=
  folders ←? ask (CListFolders st);
  let is_child f := match fi_ParentID f with None => parentID =? PrivateFIDIPMSubtree | Some p => p =? parentID end in
  searches ←? ask (CSearchFolderChildren st parentID);
  ok (List.filter is_child folders ++ searches).
Definition ropGetHierarchyTable (hindex : Z) : H S unit :=
  '(ohindex, flags) ← pull_req pullTableRequest;
  '(st, fid) ← openFolder id_ropGetHierarchyTable hindex ohindex;
  r ← childFolders st fid;
  children ← or_fail id_ropGetHierarchyTable ohindex ecError r;
  table_opened id_ropGetHierarchyTable ohindex st (new_table (THierarchy children) fid flags false).

Definition contentsTableIDs (st : store) (fid : Z) (softDeleted : bool) : H S (serrable (list Z)) :=
  if softDeleted then ask (CListSoftDeletedIDs st fid)
  else
    r ← ask (CIsSearchFolder st fid);
    match r with
    | Ok true => ask (CSearchFolderMessageIDs st fid)
    | Ok false | Err SNotFound => ask (CListMessageIDs st fid)
    | Err e => mret (Err e)
    end.
Definition ropGetContentsTable (hindex : Z) : H S unit :=
  '(ohindex, flags) ← pull_req pullTableRequest;
  '(st, fid) ← openFolder id_ropGetContentsTable hindex ohindex;
  _ ← denyWrite id_ropGetContentsTable ohindex st fid FrightsReadAny;
  let softDeleted := negb (Z.land flags tableFlagSoftDeletes =? 0) in
  r ← contentsTableIDs st fid softDeleted;
  ids ← or_fail id_ropGetContentsTable ohindex ecError r;
  table_opened id_ropGetContentsTable ohindex st (new_table (TContents ids) fid flags softDeleted).

(** ** Columns, sort and filter *)

Definition ropSetColumns (hindex : Z) : H S unit :=
  cols ← pull_req (_ <- pull_Uint8 ;; pull_PropTags);
  '(p, st, t) ← openTable id_ropSetColumns hindex ecError;
  _ ← assign p (OTable st (tb_set_columns t (Some cols)));
  _ ← writeStatusHead id_ropSetColumns hindex;
  emit (push_Uint8 tableStatusComplete).

Definition ropSortTable (hindex : Z) : H S unit :=
  '(keys, supported) ← pull_req pullSortRequest;
  '(p, st, t) ← openStoreTable id_ropSortTable hindex;
  if negb supported then fail id_ropSortTable hindex ecNotSupported
  else
    r ← rebuildView p st (tb_set_view t keys (tb_restriction t) (tb_view t) (tb_cursor t));
    _ ← or_fail id_ropSortTable hindex ecError r;
    _ ← writeStatusHead id_ropSortTable hindex;
    emit (push_Uint8 tableStatusComplete).

(** A restriction of a request, empty for none, answered when it cannot be read or evaluated *)
Definition parse_restriction (ropID hindex : Z) (raw : bytes) : H S (option Restriction) :=
  match raw with
  | [] => mret None
  | _ =>
      match pull_Restriction fl raw with
      | Err _ => fail ropID hindex ecError
      | Ok (r, _) => if restrictionSupported r then mret (Some r) else fail ropID hindex ecNotSupported
      end
  end.
Definition ropRestrict (hindex : Z) : H S unit :=
  raw ← pull_req (_ <- pull_Uint8 ;; size <- pull_Uint16 ;; pull_Raw size);
  '(p, st, t) ← openStoreTable id_ropRestrict hindex;
  res ← parse_restriction id_ropRestrict hindex raw;
  r ← rebuildView p st (tb_set_view t (tb_sortKeys t) res (tb_view t) (tb_cursor t));
  _ ← or_fail id_ropRestrict hindex ecError r;
  _ ← writeStatusHead id_ropRestrict hindex;
  emit (push_Uint8 tableStatusComplete).

(** ** Rows and cursor *)

Definition ropQueryRows (hindex : Z) : H S unit :=
  '(flags, forwardRead, rowCount) ← pull_req (f <- pull_Uint8 ;; d <- pull_Uint8 ;; n <- pull_Uint16 ;; pull_ret (f, d, n));
  '(p, st, t) ← openProjectedTable id_ropQueryRows hindex;
  let forward := negb (forwardRead =? 0) in
  let '(idxs, newCursor) := pageIndices t rowCount forward in
  r ← encodeRows st t idxs;
  rows ← or_fail id_ropQueryRows hindex ecError r;
  let t := if Z.land flags queryRowsNoAdvance =? 0 then tb_set_cursor t newCursor else t in
  _ ← assign p (OTable st t);
  _ ← writeStatusHead id_ropQueryRows hindex;
  emit (push_Uint8 (seekPosition t forward) >> push_Uint16 (u16 (len idxs)) >> push_Raw rows).

Definition pullSeekRowRequest : pull (Z * Z) := pos <- pull_Uint8 ;; off <- pull_Uint32 ;; _ <- pull_Uint8 ;; pull_ret (pos, off).
Definition ropSeekRow (hindex : Z) : H S unit :=
  '(seekPos, off) ← pull_req pullSeekRowRequest;
  '(p, st, t) ← openTable id_ropSeekRow hindex ecError;
  match seekOrigin t seekPos with
  | None => fail id_ropSeekRow hindex ecError
  | Some origin =>
      let '(t, less, sought) := seek_target t origin (i32 off) in
      _ ← assign p (OTable st t);
      _ ← writeStatusHead id_ropSeekRow hindex;
      emit (push_Uint8 less >> push_Uint32 sought)
  end.

Definition findRowBackward : Z := 0x01.
Definition matchRow (st : store) (t : tableState) (i : Z) (res : option Restriction) : H S (serrable bool) :=
  match res with
  | None => ok true
  | Some r =>
      base ← baseIndex t i;
      props ←? rowKeyProps st t base (restrictionTags r);
      b ← eval_or_panic res props; ok b
  end.
Fixpoint first_match (st : store) (t : tableState) (res : option Restriction) (idxs : list Z) : H S (serrable (option Z)) :=
  match idxs with
  | [] => ok None
  | i :: idxs => hit ←? matchRow st t i res; if hit : bool then ok (Some i) else first_match st t res idxs
  end.
Definition scanForRow (st : store) (t : tableState) (start : Z) (res : option Restriction) (backward : bool) : H S (serrable (option Z)) :=
  first_match st t res (if backward then downto 0 start else upto start (total t)).
Definition pullFindRowRequest : pull (Z * bytes * Z) :=
  flags <- pull_Uint8 ;; size <- pull_Uint16 ;; raw <- pull_Raw size ;; seekPos <- pull_Uint8 ;; _ <- pull_BinShort ;; pull_ret (flags, raw, seekPos).
Definition ropFindRow (hindex : Z) : H S unit :=
  '(flags, raw, seekPos) ← pull_req pullFindRowRequest;
  '(p, st, t) ← openProjectedTable id_ropFindRow hindex;
  res ← parse_restriction id_ropFindRow hindex raw;
  match seekOrigin t seekPos with
  | None => fail id_ropFindRow hindex ecNotSupported
  | Some start =>
      r ← scanForRow st t start res (negb (Z.land flags findRowBackward =? 0));
      found ← or_fail id_ropFindRow hindex ecError r;
      match found with
      | None => _ ← writeStatusHead id_ropFindRow hindex; emit (push_Uint8 0 >> push_Uint8 0)
      | Some i =>
          _ ← assign p (OTable st (tb_set_cursor t i));
          r ← encodeRow st t i;
          row ← or_fail id_ropFindRow hindex ecError r;
          _ ← writeStatusHead id_ropFindRow hindex;
          emit (push_Uint8 0 >> push_Uint8 1 >> push_Raw row)
      end
  end.

Definition ropGetStatus (hindex : Z) : H S unit :=
  _ ← openTable id_ropGetStatus hindex ecNotSupported;
  _ ← writeStatusHead id_ropGetStatus hindex; emit (push_Uint8 tableStatusComplete).
Definition ropQueryPosition (hindex : Z) : H S unit :=
  '(_, _, t) ← openTable id_ropQueryPosition hindex ecNotSupported;
  _ ← writeStatusHead id_ropQueryPosition hindex;
  emit (push_Uint32 (u32 (tb_cursor t)) >> push_Uint32 (u32 (total t))).
(** A 32-bit numerator and the length of a slice: the 64-bit product does not wrap. *)
Definition ropSeekRowFractional (hindex : Z) : H S unit :=
  '(num, den) ← pull_req (n <- pull_Uint32 ;; d <- pull_Uint32 ;; pull_ret (n, d));
  '(p, st, t) ← openTable id_ropSeekRowFractional hindex ecNotSupported;
  if den =? 0 then fail id_ropSeekRowFractional hindex ecInvalidBookmark
  else
    _ ← assign p (OTable st (tb_set_cursor t (Z.min (num * total t / den) (total t))));
    writeStatusHead id_ropSeekRowFractional hindex.

Definition computedMessageTags : list Z := [PrMessageFlags; PrRead; PrHasAttachments].
Definition allColumns (st : store) (t : tableState) : H S (serrable (list Z)) :=
  tags ←? match tb_rows t with
          | TContents ids => tags ←? ask (CMessagePropTags st ids); ok (tags ++ computedMessageTags ++ [PrMid])
          | THierarchy fs => tags ←? ask (CFolderPropTags st (map fi_ID fs)); ok (tags ++ computedFolderTags ++ folderIdentityTags)
          | TAttachment bags => ok (concat (map (map fst) bags) ++ [PrAttachNum; PrRecordKey; PrMid])
          | TPermission rows | TRules rows => ok (bagTags rows)
          end;
  ok (Compact (Sort tags)).
Definition ropQueryColumnsAll (hindex : Z) : H S unit :=
  '(_, st, t) ← openTable id_ropQueryColumnsAll hindex ecNotSupported;
  r ← allColumns st t;
  tags ← or_fail id_ropQueryColumnsAll hindex ecError r;
  _ ← writeStatusHead id_ropQueryColumnsAll hindex;
  emit (push_PropTags tags).

Definition ropAbort (hindex : Z) : H S unit := _ ← openTable id_ropAbort hindex ecNotSupported; writeErr id_ropAbort hindex ecUnableToAbort.
Definition ropGetCollapseState (hindex : Z) : H S unit :=
  _ ← pull_req (_ <- pull_Uint64 ;; pull_Uint32);
  _ ← openTable id_ropGetCollapseState hindex ecError; writeErr id_ropGetCollapseState hindex ecNotSupported.
Definition ropExpandRow (hindex : Z) : H S unit := _ ← openTable id_ropExpandRow hindex ecError; writeErr id_ropExpandRow hindex ecNotSupported.
Definition ropCollapseRow (hindex : Z) : H S unit := _ ← openTable id_ropCollapseRow hindex ecError; writeErr id_ropCollapseRow hindex ecNotSupported.
Definition ropSetCollapseState (hindex : Z) : H S unit := _ ← openTable id_ropSetCollapseState hindex ecError; writeErr id_ropSetCollapseState hindex ecNotSupported.

Definition ropResetTable (hindex : Z) : H S unit :=
  '(p, st, t) ← openTable id_ropResetTable hindex ecError;
  _ ← assign p (OTable st (tb_set_view (tb_set_columns t None) [] None None 0));
  writeStatusHead id_ropResetTable hindex.

(** *** Bookmarks: an index in two bytes *)
Definition bookmark_index (bk : bytes) : option Z := match bk with a :: b :: _ => Some (Z.lor (Z.shiftl a 8) b) | _ => None end.
Definition ropFreeBookmark (hindex : Z) : H S unit :=
  bk ← pull_req pull_BinShort;
  '(p, st, t) ← openTable id_ropFreeBookmark hindex ecError;
  _ ← match bookmark_index bk with
      | Some i => assign p (OTable st (tb_set_bookmarks t (delete i (tb_bookmarks t)) (tb_nextBookmark t)))
      | None => mret tt
      end;
  writeStatusHead id_ropFreeBookmark hindex.
Definition ropCreateBookmark (hindex : Z) : H S unit :=
  '(p, st, t) ← openTable id_ropCreateBookmark hindex ecError;
  let i := tb_nextBookmark t in
  _ ← assign p (OTable st (tb_set_bookmarks t (<[i := tb_cursor t]> (tb_bookmarks t)) (u16 (i + 1))));
  _ ← writeStatusHead id_ropCreateBookmark hindex;
  emit (push_BinShort [Z.shiftr i 8; Z.land i 0xFF]).
Definition ropSeekRowBookmark (hindex : Z) : H S unit :=
  '(bk, off) ← pull_req (b <- pull_BinShort ;; o <- pull_Uint32 ;; _ <- pull_Uint8 ;; pull_ret (b, o));
  '(p, st, t) ← openTable id_ropSeekRowBookmark hindex ecError;
  match bookmark_index bk with
  | None => fail id_ropSeekRowBookmark hindex ecError
  | Some i =>
      match tb_bookmarks t !! i with
      | None => fail id_ropSeekRowBookmark hindex ecNotFound
      | Some origin =>
          let '(t, less, sought) := seek_target t origin (i32 off) in
          _ ← assign p (OTable st t);
          _ ← writeStatusHead id_ropSeekRowBookmark hindex;
          emit (push_Uint8 0 >> push_Uint8 less >> push_Uint32 sought)
      end
  end.
End table.
