(* ===== verification/RopFolder.v ===== *)
(** * The ROP layer: folders

    Opening and changing folders ([folder.go], [folderops.go]), search folders ([searchfolder.go]),
    the permissions and rules of a folder ([permission.go], [rules.go]) and its receive folders
    ([storeops.go]). *)

From stdpp Require Import base list gmap numbers.
From Stdlib Require Import ZArith Lia.
From Stdlib Require String.
Import String.StringSyntax.
From S2P Require Import Prelude Gostr Mapi Wire ExtVal Permission RopTags RopBase RopProps RopMessage RopMsgops RopTable RopAttach.
Open Scope Z_scope.
#[local] Arguments lit : simpl never.

(** ** Requests *)

Definition pullFolderString (useUnicode : Z) : pull bytes := if useUnicode =? 0 then pull_String8 else pull_Unicode fl.

Definition folderTypeGeneric : Z := 1.
Definition folderTypeSearch : Z := 2.
Record createFolderRequest := mkCreateFolder { cr_ohindex : Z; cr_folderType : Z; cr_openExisting : bool; cr_name : bytes; cr_comment : bytes }.
Definition pullCreateFolderRequest : pull createFolderRequest :=
  ohindex <- pull_Uint8 ;; folderType <- pull_Uint8 ;; unicode <- pull_Uint8 ;; existing <- pull_Uint8 ;; _ <- pull_Uint8 ;;
  name <- pullFolderString unicode ;; comment <- pullFolderString unicode ;;
  pull_ret (mkCreateFolder ohindex folderType (negb (existing =? 0)) name comment).
Definition pullMoveFolderRequest : pull (Z * Z * bytes) :=
  d <- pull_Uint8 ;; _ <- pull_Uint8 ;; u <- pull_Uint8 ;; fid <- pull_Uint64 ;; name <- pullFolderString u ;; pull_ret (d, fid, name).
Definition pullCopyFolderRequest : pull (Z * bool * Z * bytes) :=
  d <- pull_Uint8 ;; _ <- pull_Uint8 ;; r <- pull_Uint8 ;; u <- pull_Uint8 ;; fid <- pull_Uint64 ;; name <- pullFolderString u ;;
  pull_ret (d, negb (r =? 0), fid, name).

Section folder.
Context {S : Type} `{Backend S} (cf : config).

(** ** Opening and creating *)

Definition ropOpenFolder (hindex : Z) : H S unit :=
  '(ohindex, eid) ← pull_req (o <- pull_Uint8 ;; e <- pull_Uint64 ;; _ <- pull_Uint8 ;; pull_ret (o, e));
  st ← openAny id_ropOpenFolder hindex ohindex;
  let fid := store_id eid in
  r ← ask (CFolderExists st fid);
  exists_ ← or_fail id_ropOpenFolder ohindex ecError r;
  _ ← (if exists_ : bool then mret tt else fail id_ropOpenFolder ohindex ecNotFound);
  _ ← denyWrite id_ropOpenFolder ohindex st fid FrightsVisible;
  h ← alloc (OFolder st fid);
  _ ← setHandle ohindex h;
  _ ← writeStatusHead id_ropOpenFolder ohindex;
  emit (push_Uint8 0 >> push_Uint8 0).

Definition createFolderParentError (st : store) (fid : Z) : H S Z :=
  r ← ask (CIsSearchFolder st fid);
  mret (match r with Err SNotFound => ecNotFound | Err _ => ecError | Ok true => ecNotSupported | Ok false => ecSuccess end).
Definition openExistingFolder (st : store) (fid : Z) (req : createFolderRequest) : H S (Z * Z) :=
  if negb (cr_openExisting req) then mret (0, ecDuplicateName)
  else
    r ← ask (CFolderComputedProps st fid);
    mret (match r with
          | Err _ => (0, ecError)
          | Ok props =>
              let t := match pv_Get props PrFolderType with Some (AInt32 t) => t | _ => 0 end in
              if t =? cr_folderType req then (fid, ecSuccess) else (0, ecDuplicateName)
          end).
Definition creatorRights : Z := NormalizeRights RightsAll false.
Definition initNewFolder (st : store) (fid : Z) (req : createFolderRequest) (delegate : bytes) : H S (serrable unit) :=
  _ ←? (if beq (cr_comment req) [] then ok tt else ask (CSetFolderProperties st fid [mkTagged PrComment (AString (cr_comment req))]));
  if beq delegate [] then ok tt else ask (CModifyPermissions st fid false [mkChange PermAdd 0 delegate creatorRights]).
(** The folder and the return code *)
Definition createOrOpenFolder (st : store) (parent : Z) (req : createFolderRequest) (delegate : bytes) : H S (Z * Z) :=
  r ← ask (CFolderByName st parent (cr_name req));
  match r with
  | Err _ => mret (0, ecError)
  | Ok (Some existing) => openExistingFolder st existing req
  | Ok None =>
      r ← (if cr_folderType req =? folderTypeSearch then ask (CCreateSearchFolder st parent (cr_name req)) else ask (CCreateFolder st parent (cr_name req)));
      match r with
      | Err _ => mret (0, ecError)
      | Ok fid => r ← initNewFolder st fid req delegate; mret (match r with Ok _ => (fid, ecSuccess) | Err _ => (0, ecError) end)
      end
  end.
Definition ropCreateFolder (hindex : Z) : H S unit :=
  req ← pull_req pullCreateFolderRequest;
  let ohindex := cr_ohindex req in
  if negb ((cr_folderType req =? folderTypeGeneric) || (cr_folderType req =? folderTypeSearch)) then fail id_ropCreateFolder ohindex ecInvalidParam
  else
    '(st, parent) ← openFolder id_ropCreateFolder hindex ohindex;
    ec ← createFolderParentError st parent;
    if negb (ec =? ecSuccess) then fail id_ropCreateFolder ohindex ec
    else
      _ ← denyWrite id_ropCreateFolder ohindex st parent FrightsCreateSubfolder;
      s ← sess;
      '(fid, ec) ← createOrOpenFolder st parent req (default [] (s_delegateCallers s !! st_id st));
      if negb (ec =? ecSuccess) then fail id_ropCreateFolder ohindex ec
      else
        h ← alloc (OFolder st fid);
        _ ← setHandle ohindex h;
        _ ← writeStatusHead id_ropCreateFolder ohindex;
        emit (push_Uint64 (MakeEIDEx 1 (u64 fid)) >> push_Uint8 0).

(** ** Deleting, moving and copying *)

(** The success response with PartialCompletion *)
Definition completed (ropID hindex partial : Z) : H S unit := _ ← writeStatusHead ropID hindex; emit (push_Uint8 partial).

Definition ropDeleteFolder (hindex : Z) : H S unit :=
  eid ← pull_req (_ <- pull_Uint8 ;; pull_Uint64);
  '(st, _) ← openFolder id_ropDeleteFolder hindex hindex;
  _ ← denyWrite id_ropDeleteFolder hindex st (store_id eid) FrightsOwner;
  r ← ask (CDeleteFolder st (store_id eid));
  _ ← or_fail id_ropDeleteFolder hindex ecError r;
  completed id_ropDeleteFolder hindex 0.

(** The new parent, none when the destination is not a folder: the move is a rename *)
Definition moveFolderParent (st : store) (hindex dhindex : Z) : H S (option Z) :=
  d ← at_slot dhindex;
  match d with
  | Some (_, OFolder dst dfid) =>
      if negb (beq (st_dir st) (st_dir dst)) then fail id_ropMoveFolder hindex ecNotSupported
      else _ ← denyWrite id_ropMoveFolder hindex dst dfid FrightsCreateSubfolder; mret (Some dfid)
  | _ => mret None
  end.
Definition ropMoveFolder (hindex : Z) : H S unit :=
  '(dhindex, eid, name) ← pull_req pullMoveFolderRequest;
  '(st, _) ← openFolder id_ropMoveFolder hindex hindex;
  _ ← denyWrite id_ropMoveFolder hindex st (store_id eid) FrightsOwner;
  parent ← moveFolderParent st hindex dhindex;
  r ← ask (CRenameFolder st (store_id eid) parent name);
  _ ← or_fail id_ropMoveFolder hindex ecError r;
  completed id_ropMoveFolder hindex 0.

Definition copyFolderDestination (st : store) (copied hindex dhindex : Z) : H S Z :=
  _ ← denyWrite id_ropCopyFolder hindex st copied FrightsReadAny;
  '(dst, dfid) ← openFolder id_ropCopyFolder dhindex hindex;
  if negb (beq (st_dir st) (st_dir dst)) then fail id_ropCopyFolder hindex ecNotSupported
  else _ ← denyWrite id_ropCopyFolder hindex dst dfid FrightsCreateSubfolder; mret dfid.
Definition folderCopyError (e : serr) : Z := match e with SFolderCycle => ecFolderCycle | SNotFound => ecNotFound | _ => ecError end.
Definition ropCopyFolder (hindex : Z) : H S unit :=
  '(dhindex, recursive, eid, name) ← pull_req pullCopyFolderRequest;
  '(st, _) ← openFolder id_ropCopyFolder hindex hindex;
  dfid ← copyFolderDestination st (store_id eid) hindex dhindex;
  r ← ask (CCopyFolder st (store_id eid) dfid name recursive);
  match r with
  | Err e => fail id_ropCopyFolder hindex (folderCopyError e)
  | Ok _ => completed id_ropCopyFolder hindex 0
  end.

(** Every message and every subfolder; [Err] when they cannot be listed *)
Definition emptyFolderContents (st : store) (fid : Z) : H S (serrable Z) :=
  msgs ←? ask (CListMessages st fid);
  done ← each (fun m => r ← ask (CSoftDeleteObject st (mi_ID m)); mret (is_ok r)) msgs;
  children ←? childFolders st fid;
  done' ← each (fun c => r ← ask (CDeleteFolder st (fi_ID c)); mret (is_ok r)) children;
  ok (partial_of (done ++ done')).
Definition empty_folder (ropID hindex : Z) : H S unit :=
  _ ← pull_req (_ <- pull_Uint8 ;; pull_Uint8);
  '(st, fid) ← openFolder ropID hindex hindex;
  _ ← denyWrite ropID hindex st fid FrightsDeleteAny;
  r ← emptyFolderContents st fid;
  partial ← or_fail ropID hindex ecError r;
  completed ropID hindex partial.
Definition ropEmptyFolder : Z -> H S unit := empty_folder id_ropEmptyFolder.
Definition ropHardDeleteMessagesAndSubfolders : Z -> H S unit := empty_folder id_ropHardDelMsgsAndSubfolders.

Definition ropHardDeleteMessages (hindex : Z) : H S unit :=
  ids ← pull_req (_ <- pull_Uint8 ;; _ <- pull_Uint8 ;; pull_Uint64ArrayShort);
  '(st, fid) ← openFolder id_ropHardDeleteMessages hindex hindex;
  _ ← denyWrite id_ropHardDeleteMessages hindex st fid FrightsDeleteAny;
  _ ← each_ (fun eid => r ← ask (CSoftDeleteObject st (store_id eid)); or_fail id_ropHardDeleteMessages hindex ecError r) ids;
  completed id_ropHardDeleteMessages hindex 0.

(** ** Search folders *)

Record searchCriteriaRequest := mkSearchRequest { sr_restriction : option Restriction; sr_scope : list Z; sr_flags : Z }.
(** The request and the code of its restriction *)
Definition pullSearchCriteriaRequest : pull (searchCriteriaRequest * Z) :=
  size <- pull_Uint16 ;; raw <- pull_Raw size ;; ids <- pull_Uint64ArrayShort ;; flags <- pull_Uint32 ;;
  pull_ret (match raw with
            | [] => (mkSearchRequest None ids flags, ecSuccess)
            | _ => match pull_Restriction fl raw with
                   | Ok (r, _) => (mkSearchRequest (Some r) ids flags, ecSuccess)
                   | Err _ => (mkSearchRequest None ids flags, ecError)
                   end
            end).
Definition searchFolderError (st : store) (fid : Z) : H S Z :=
  r ← ask (CIsSearchFolder st fid);
  mret (match r with Err SNotFound => ecNotFound | Err _ => ecError | Ok false => ecNotSearchFolder | Ok true => ecSuccess end).
(** [Some ec]: the request is answered without a change *)
Definition partialSearchChange (st : store) (fid : Z) (req : searchCriteriaRequest) : H S (option Z) :=
  match sr_restriction req, sr_scope req with
  | Some _, _ :: _ => mret None
  | _, _ =>
      r ← ask (CGetSearchCriteria st fid);
      mret (match r with
            | Err _ => Some ecError
            | Ok (c, _) =>
                match sc_Restriction c with
                | None => Some ecNotInitialized
                | Some _ =>
                    if (Z.land (sr_flags req) SearchRestart =? 0) && bool_decide (sr_restriction req = None) && bool_decide (sr_scope req = []) then Some ecSuccess
                    else None
                end
            end)
  end.
Fixpoint search_scope (st : store) (caller : option bytes) (eids : list Z) : H S (list Z * Z) :=
  match eids with
  | [] => mret ([], ecSuccess)
  | eid :: eids =>
      if negb (EID_ReplID eid =? 1) then mret ([], ecSearchFolderScopeViolation)
      else
        let fid := store_id eid in
        ec ← match caller with
             | None => mret ecSuccess
             | Some user =>
                 r ← ask (CResolvePermission st fid user);
                 mret (match r with
                       | Err _ => ecError
                       | Ok rights => if Z.land rights (Z.lor FrightsOwner FrightsReadAny) =? 0 then ecAccessDenied else ecSuccess
                       end)
             end;
        if negb (ec =? ecSuccess) then mret ([], ec)
        else '(scope, ec) ← search_scope st caller eids; mret (fid :: scope, ec)
  end.
Definition searchScope (st : store) (eids : list Z) : H S (list Z * Z) := s ← sess; search_scope st (s_delegateCallers s !! st_id st) eids.
Definition setSearchCriteria (st : store) (fid : Z) (req : searchCriteriaRequest) : H S Z :=
  done ← partialSearchChange st fid req;
  match done with
  | Some ec => mret ec
  | None =>
      '(scope, ec) ← searchScope st (sr_scope req);
      if negb (ec =? ecSuccess) then mret ec
      else
        r ← ask (CSetSearchCriteria st fid (mkSearchCriteria (sr_restriction req) scope (sr_flags req)));
        mret (match r with
              | Ok _ => ecSuccess
              | Err SSearchScope => ecSearchFolderScopeViolation
              | Err SSearchNotInitialized => ecNotInitialized
              | Err _ => ecError
              end)
  end.
Definition ropSetSearchCriteria (hindex : Z) : H S unit :=
  '(req, ec) ← pull_req pullSearchCriteriaRequest;
  '(st, fid) ← openFolder id_ropSetSearchCriteria hindex hindex;
  ec ← (if ec =? ecSuccess then searchFolderError st fid else mret ec);
  if negb (ec =? ecSuccess) then writeErr id_ropSetSearchCriteria hindex ec
  else
    _ ← denyWrite id_ropSetSearchCriteria hindex st fid FrightsOwner;
    ec ← setSearchCriteria st fid req;
    writeErr id_ropSetSearchCriteria hindex ec.

Definition string8Tag (t : Z) : Z :=
  if negb (Z.ldiff (PropTag_Type t) MviFlag =? PtUnicode) then t
  else PropTag_WithType t (Z.lor (Z.land (PropTag_Type t) MviFlag) PtString8).
Definition tagged_string8 (tv : TaggedPropVal) : TaggedPropVal := mkTagged (string8Tag (tpTag tv)) (tpValue tv).
Definition leafToString8 (v : any) : any :=
  match v with
  | AContent c => AContent (mkContent (crFuzzyLevel c) (string8Tag (crPropTag c)) (tagged_string8 (crPropVal c)))
  | AProperty p => AProperty (mkProperty (prRelop p) (string8Tag (prPropTag p)) (tagged_string8 (prPropVal p)))
  | ACompare c => ACompare (mkCompare (pcRelop c) (string8Tag (pcPropTag1 c)) (string8Tag (pcPropTag2 c)))
  | ASize s => ASize (mkSize (szRelop s) (string8Tag (szPropTag s)) (szSize s))
  | AExist e => AExist (mkExist (string8Tag (exPropTag e)))
  | v => v
  end.
Fixpoint node_to_string8 (v : any) : any :=
  let sub r := mkRes (resType r) (node_to_string8 (resValue r)) in
  match v with
  | ARess l => ARess (map sub l)
  | ARes r => ARes (sub r)
  | ASub s => ASub (mkSub (sbSubObject s) (sub (sbRes s)))
  | ACount c => ACount (mkCount (cnCount c) (sub (cnSubRes c)))
  | AComment c => AComment (mkComment (map tagged_string8 (cmPropVals c)) (match cmRes c with Some r => Some (sub r) | None => None end))
  | v => leafToString8 v
  end.
Definition restrictionToString8 (r : Restriction) : Restriction := mkRes (resType r) (node_to_string8 (resValue r)).
Definition restrictionBytes (r : Restriction) : serrable bytes :=
  match push_Restriction fl r [] with Ok b => if 0xFFFF <? len b then Err SOther else Ok b | Err _ => Err SOther end.
Definition searchCriteriaReply (c : SearchCriteria) (unicode withRestriction withFolders : bool) : serrable (bytes * list Z) :=
  match (match sc_Restriction c with
         | Some r => if withRestriction then restrictionBytes (if unicode then r else restrictionToString8 r) else Ok []
         | None => Ok []
         end) with
  | Err e => Err e
  | Ok res => Ok (res, if withFolders then map (fun fid => MakeEIDEx 1 (u64 fid)) (sc_Scope c) else [])
  end.
Definition ropGetSearchCriteria (hindex : Z) : H S unit :=
  '(u, r, f) ← pull_req (u <- pull_Uint8 ;; r <- pull_Uint8 ;; f <- pull_Uint8 ;; pull_ret (u, r, f));
  '(st, fid) ← openFolder id_ropGetSearchCriteria hindex hindex;
  ec ← searchFolderError st fid;
  if negb (ec =? ecSuccess) then fail id_ropGetSearchCriteria hindex ec
  else
    rc ← ask (CGetSearchCriteria st fid);
    '(c, state) ← or_fail id_ropGetSearchCriteria hindex ecError rc;
    '(res, scope) ← or_fail id_ropGetSearchCriteria hindex ecError (searchCriteriaReply c (negb (u =? 0)) (negb (r =? 0)) (negb (f =? 0)));
    _ ← writeStatusHead id_ropGetSearchCriteria hindex;
    s ← sess;
    _ ← emit (push_Uint16 (u16 (len res)) >> push_Raw res >> push_Uint8 (s_logonID s));
    match push_Uint64ArrayShort scope [] with
    | Err _ => ret_now false
    | Ok b => emit (push_Raw b >> push_Uint32 state)
    end.

(** ** Rules *)

Definition ruleBag (r : Rule) : PropertyValues :=
  [mkTagged PrRuleID (AInt64 (ru_ID r)); mkTagged PrRuleSequence (AInt32 (ru_Sequence r)); mkTagged PrRuleState (AInt32 (i32 (ru_State r)));
   mkTagged PrRuleName (AString (ru_Name r)); mkTagged PrRuleProvider (AString (ru_Provider r)); mkTagged PrRuleCondition (ARes (ru_Condition r));
   mkTagged PrRuleActions (AActions (ru_Actions r))].
Definition ruleBags (st : store) (fid : Z) : H S (serrable (list PropertyValues)) := rules ←? ask (CListRules st fid); ok (map ruleBag rules).
Definition ropGetRulesTable (hindex : Z) : H S unit :=
  '(ohindex, _) ← pull_req pullTableRequest;
  '(st, fid) ← openFolder id_ropGetRulesTable hindex ohindex;
  _ ← denyWrite id_ropGetRulesTable ohindex st fid FrightsReadAny;
  r ← ruleBags st fid;
  bags ← or_fail id_ropGetRulesTable ohindex ecError r;
  h ← alloc (OTable st (empty_table (TRules bags)));
  _ ← setHandle ohindex h;
  writeStatusHead id_ropGetRulesTable ohindex.

Definition modifyRulesReplace : Z := 0x01.
Definition ruleRowAdd : Z := 0x01.
Definition ruleRowModify : Z := 0x02.
Definition ruleRowRemove : Z := 0x04.
Definition pull_row_change : pull (Z * PropertyValues) := flags <- pull_Uint8 ;; propvals <- pull_PropertyValues fl ;; pull_ret (flags, propvals).
(** The flags of the request and its rows *)
Definition pullRowsRequest : pull (Z * list (Z * PropertyValues)) :=
  flags <- pull_Uint8 ;; count <- pull_Uint16 ;; rows <- pull_times (Z.to_nat count) pull_row_change ;; pull_ret (flags, rows).
Definition ruleID (pv : PropertyValues) : option Z := match pv_Get pv PrRuleID with Some (AInt64 i) => Some i | _ => None end.
Definition patch_string (pv : PropertyValues) (tag : Z) : option bytes := match pv_Get pv tag with Some (AString s) => Some s | _ => None end.
Definition patch_int32 (pv : PropertyValues) (tag : Z) : option Z := match pv_Get pv tag with Some (AInt32 n) => Some n | _ => None end.
Definition rulePatch (pv : PropertyValues) : RulePatch :=
  mkRulePatch (patch_string pv PrRuleName) (patch_string pv PrRuleProvider) (patch_int32 pv PrRuleSequence) (u32 <$> patch_int32 pv PrRuleState)
    (match pv_Get pv PrRuleCondition with Some (ARes r) => Some r | _ => None end)
    (match pv_Get pv PrRuleActions with Some (AActions a) => Some a | _ => None end).
Definition no_patch : RulePatch := mkRulePatch None None None None None None.
Definition ruleChange (row : Z * PropertyValues) : option RuleChange :=
  let '(flags, pv) := row in
  if flags =? ruleRowAdd then Some (mkRuleChange RuleAdd 0 (rulePatch pv))
  else if flags =? ruleRowModify then (fun id => mkRuleChange RuleModify id (rulePatch pv)) <$> ruleID pv
  else if flags =? ruleRowRemove then (fun id => mkRuleChange RuleRemove id no_patch) <$> ruleID pv
  else None.
Definition ropModifyRules (hindex : Z) : H S unit :=
  '(flags, rows) ← pull_req pullRowsRequest;
  '(st, fid) ← openFolder id_ropModifyRules hindex hindex;
  _ ← denyWrite id_ropModifyRules hindex st fid FrightsOwner;
  r ← ask (CModifyRules st fid (negb (Z.land flags modifyRulesReplace =? 0)) (omap ruleChange rows));
  _ ← or_fail id_ropModifyRules hindex ecError r;
  writeStatusHead id_ropModifyRules hindex.

(** ** Permissions *)

Definition permTableIncludeFreeBusy : Z := 0x02.
Definition permissionBag (includeFreeBusy : bool) (e : PermissionEntry) : PropertyValues :=
  [mkTagged PrMemberID (AInt64 (pe_MemberID e)); mkTagged PrMemberName (AString (pe_Name e));
   mkTagged PrMemberRights (AInt32 (i32 (served_rights includeFreeBusy e))); mkTagged PrEntryID (ABytes [])].
Definition permissionBags (st : store) (fid : Z) (includeFreeBusy : bool) : H S (serrable (list PropertyValues)) :=
  entries ←? ask (CListPermissions st fid); ok (map (permissionBag includeFreeBusy) (served_entries entries)).
Definition ropGetPermissionsTable (hindex : Z) : H S unit :=
  '(ohindex, flags) ← pull_req pullTableRequest;
  '(st, fid) ← openFolder id_ropGetPermissionsTable hindex ohindex;
  r ← permissionBags st fid (negb (Z.land flags permTableIncludeFreeBusy =? 0));
  bags ← or_fail id_ropGetPermissionsTable ohindex ecError r;
  h ← alloc (OTable st (empty_table (TPermission bags)));
  _ ← setHandle ohindex h;
  writeStatusHead id_ropGetPermissionsTable ohindex.

Definition modifyPermReplaceRows : Z := 0x01.
Definition modifyPermIncludeFreeBusy : Z := 0x02.
Definition permRowAdd : Z := 0x01.
Definition permRowModify : Z := 0x02.
Definition permRowRemove : Z := 0x04.
Definition abEntryIDHeaderLen : Z := 28.
(** The last index of a needle *)
Fixpoint last_index (s needle : bytes) : option nat :=
  match s with
  | [] => if HasPrefix s needle then Some 0%nat else None
  | _ :: t => match last_index t needle with Some i => Some (Datatypes.S i) | None => if HasPrefix s needle then Some 0%nat else None end
  end.
(** The name after the last [/cn=] of the DN in an address book entry id *)
Definition smtpFromABEntryID (eid : bytes) : bytes :=
  if len eid <=? abEntryIDHeaderLen then []
  else
    let dn := (Cut (drop (Z.to_nat abEntryIDHeaderLen) eid) 0).1 in
    match last_index dn (lit "/cn=") with Some i => drop (i + 4) dn | None => [] end.
Definition memberID (pv : PropertyValues) : option Z := match pv_Get pv PrMemberID with Some (AInt64 i) => Some i | _ => None end.
Definition row_rights (pv : PropertyValues) (includeFB : bool) : Z :=
  ingestRights (match pv_Get pv PrMemberRights with Some (AInt32 r) => u32 r | _ => 0 end) includeFB.
Definition resolvePermissionMember (pv : PropertyValues) : option bytes :=
  let smtp := match pv_Get pv PrEntryID with Some (ABytes b) => smtpFromABEntryID b | _ => [] end in
  let smtp := if beq smtp [] then stringProp pv PrSmtpAddress else smtp in
  if beq smtp [] then None
  else match c_accounts cf with
       | Some ac => match ac_Resolve ac smtp with Some _ => Some smtp | None => None end
       | None => Some smtp
       end.
Definition permissionChange (includeFB : bool) (row : Z * PropertyValues) : option PermissionChange :=
  let '(flags, pv) := row in
  if flags =? permRowAdd then (fun u => mkChange PermAdd 0 u (row_rights pv includeFB)) <$> resolvePermissionMember pv
  else if flags =? permRowModify then (fun i => mkChange PermModify i [] (row_rights pv includeFB)) <$> memberID pv
  else if flags =? permRowRemove then (fun i => mkChange PermRemove i [] 0) <$> memberID pv
  else None.
Definition ropModifyPermissions (hindex : Z) : H S unit :=
  '(flags, rows) ← pull_req pullRowsRequest;
  '(st, fid) ← openFolder id_ropModifyPermissions hindex hindex;
  _ ← denyWrite id_ropModifyPermissions hindex st fid FrightsOwner;
  let changes := omap (permissionChange (negb (Z.land flags modifyPermIncludeFreeBusy =? 0))) rows in
  r ← ask (CModifyPermissions st fid (negb (Z.land flags modifyPermReplaceRows =? 0)) changes);
  _ ← or_fail id_ropModifyPermissions hindex ecError r;
  writeStatusHead id_ropModifyPermissions hindex.

(** ** Receive folders *)

Definition ropGetReceiveFolder (hindex : Z) : H S unit :=
  class ← pull_req pull_String8;
  '(st, _) ← openLogon id_ropGetReceiveFolder hindex hindex;
  r ← ask (CGetReceiveFolder st class);
  '(fid, explicit) ← or_fail id_ropGetReceiveFolder hindex ecError r;
  _ ← writeStatusHead id_ropGetReceiveFolder hindex;
  emit (push_Uint64 (MakeEIDEx 1 (u64 fid)) >> push_String8 fl explicit).
(** The code of a class and folder that cannot be set *)
Definition receiveFolderSettable (class : bytes) (fid : Z) : option Z :=
  if beq class [] && (fid =? 0) then Some ecError
  else if EqualFold class (lit "IPM") || EqualFold class (lit "REPORT.IPM") then Some ecAccessDenied
  else None.
Definition ropSetReceiveFolder (hindex : Z) : H S unit :=
  '(eid, class) ← pull_req (e <- pull_Uint64 ;; c <- pull_String8 ;; pull_ret (e, c));
  '(st, _) ← openLogon id_ropSetReceiveFolder hindex hindex;
  _ ← denyDelegate id_ropSetReceiveFolder hindex st;
  match receiveFolderSettable class (store_id eid) with
  | Some ec => fail id_ropSetReceiveFolder hindex ec
  | None =>
      r ← ask (CSetReceiveFolder st class (store_id eid));
      _ ← or_not_found id_ropSetReceiveFolder hindex r;
      writeStatusHead id_ropSetReceiveFolder hindex
  end.
Definition receiveFolderColumns : list Z := [PrFolderID; PrMessageClassA; PrLastModificationTime].
Definition receive_row (e : ReceiveFolderEntry) : PropertyValues :=
  [mkTagged PrFolderID (AInt64 (i64 (MakeEIDEx 1 (u64 (rf_FolderID e))))); mkTagged PrMessageClassA (AString (rf_Class e));
   mkTagged PrLastModificationTime (AUint64 (rf_ModifiedTime e))].
Definition ropGetReceiveFolderTable (hindex : Z) : H S unit :=
  '(st, _) ← openLogon id_ropGetReceiveFolderTable hindex hindex;
  r ← ask (CReceiveFolderTable st);
  entries ← or_fail id_ropGetReceiveFolderTable hindex ecError r;
  with_body id_ropGetReceiveFolderTable hindex
    (push_Uint32 (u32 (len entries)) >> push_each (fun e => buildPropertyRow receiveFolderColumns (receive_row e)) entries).
Definition ropGetStoreState (hindex : Z) : H S unit := writeErr id_ropGetStoreState hindex ecNotImplemented.
End folder.
