(* ===== verification/RopLogon.v ===== *)
(** * The ROP layer: logon and the operations of the store

    RopLogon ([logon.go]), named properties ([namedprop.go]), long-term ids ([longterm.go]) and the
    per-user operations of a private mailbox ([peruser.go]). *)

From stdpp Require Import base list gmap numbers.
From Stdlib Require Import ZArith Lia.
From Stdlib Require String.
Import String.StringSyntax.
From S2P Require Import Prelude Gostr Mapi Wire ExtVal Permission RopTags RopBase RopProps RopMessage RopTable RopAttach RopFolder.
Open Scope Z_scope.
#[local] Arguments lit : simpl never.

Definition logonFolderFIDs : list Z :=
  [PrivateFIDRoot; PrivateFIDDeferredAction; PrivateFIDSpoolerQueue; PrivateFIDIPMSubtree; PrivateFIDInbox; PrivateFIDOutbox; PrivateFIDSentItems;
   PrivateFIDDeletedItems; PrivateFIDCommonViews; PrivateFIDSchedule; PrivateFIDFinder; PrivateFIDViews; PrivateFIDShortcuts].
Definition responseFlagReserved : Z := 0x01.
Definition responseFlagOwnerRight : Z := 0x02.
Definition responseFlagSendAsRight : Z := 0x04.
Definition ownerResponseFlags : Z := Z.lor responseFlagReserved (Z.lor responseFlagOwnerRight responseFlagSendAsRight).

Definition pullLogonRequest : pull (Z * bytes) :=
  flags <- pull_Uint8 ;; _ <- pull_Uint32 ;; _ <- pull_Uint32 ;; size <- pull_Uint16 ;; essdn <- pull_Raw size ;; pull_ret (flags, essdn).
(** [strings.TrimRight(s, "\x00")] *)
Fixpoint drop_nuls (s : bytes) : bytes := match s with 0 :: s => drop_nuls s | s => s end.
Definition trim_nuls (s : bytes) : bytes := rev (drop_nuls (rev s)).
(** The second, minute, hour, weekday, day and month, then the year *)
Definition pushLogonTime (t : instant) : push := push_each (fun v => push_Uint8 (u8 v)) (in_calendar t) >> push_Uint16 (u16 (in_year t)).

Section logon.
Context {S : Type} `{Backend S} (L : libs) (cf : config).

(** The address in a DN: the index of the name is taken in the lower-cased DN, whose bytes may be
    more than those of the DN that is sliced there. *)
Definition essdnToSMTP (essdn : bytes) : H S (option bytes) :=
  let dn := trim_nuls essdn in
  match last_index (lb_ToLower L dn) (lit "/cn=") with
  | None => mret None
  | Some i =>
      if (length dn <? i + 4)%nat then panic
      else let smtp := drop (i + 4) dn in mret (if beq smtp [] || negb (Contains smtp (lit "@")) then None else Some smtp)
  end.
(** The mailbox and, for one of another user, its address *)
Definition logonTarget (essdn : bytes) : H S (bytes * option bytes) :=
  match essdn, c_accounts cf with
  | [], _ | _, None => mret (c_mailbox cf, None)
  | _, Some ac =>
      smtp ← essdnToSMTP essdn;
      mret (match smtp with
            | None => (c_mailbox cf, None)
            | Some smtp =>
                match ac_Resolve ac smtp with
                | None => (c_mailbox cf, None)
                | Some md => if beq md (c_mailbox cf) then (c_mailbox cf, None) else (md, Some smtp)
                end
            end)
  end.
(** Whether the caller may open the store, and whether it is on the delegate list *)
Definition mayOpenDelegate (st : store) (caller : bytes) : H S (serrable (bool * bool)) :=
  onList ←? onDelegateList st caller;
  if onList : bool then ok (true, true)
  else
    owner ←? ask (CIsStoreOwner st caller);
    if owner : bool then ok (true, false) else grant ←? ask (CHasFolderGrant st caller); ok (grant, false).
Definition authorizeLogon (st : store) (hindex : Z) (delegate : bool) : H S bool :=
  if negb delegate then mret false
  else
    r ← mayOpenDelegate st (c_owner cf);
    match r with
    | Err _ => _ ← ask (CClose st); fail id_ropLogon hindex ecError
    | Ok (false, _) => _ ← ask (CClose st); fail id_ropLogon hindex ecAccessDenied
    | Ok (true, onList) => mret onList
    end.
Definition logonIdentityFor (owner : option bytes) : logonIdentity :=
  mkIdentity (match owner with Some (b :: o) => b :: o | _ => c_owner cf end) (c_owner cf).
Definition note_delegate (st : store) (owner : bytes) : H S unit :=
  modify (fun w => set_sess (set_delegates (<[st_id st := c_owner cf]> (s_delegateCallers (w_sess w))) (<[st_id st := owner]> (s_delegateOwners (w_sess w))) (w_sess w)) w).
Definition ropLogon (hindex : Z) : H S unit :=
  '(logonFlags, essdn) ← pull_req pullLogonRequest;
  '(maildir, owner) ← logonTarget essdn;
  let delegate := match owner with Some _ => true | None => false end in
  r ← ask (COpen maildir);
  st ← or_fail id_ropLogon hindex ecError r;
  onList ← authorizeLogon st hindex delegate;
  rm ← ask (CStoreGUID st);
  rr ← ask (CMappingSignature st);
  match rm, rr with
  | Ok mailboxGUID, Ok replGUID =>
      _ ← match owner with Some o => note_delegate st o | None => mret tt end;
      h ← alloc (OLogon st (logonIdentityFor owner));
      _ ← setHandle hindex h;
      let flags := if delegate : bool then if onList : bool then Z.lor responseFlagReserved responseFlagSendAsRight else responseFlagReserved else ownerResponseFlags in
      _ ← writeStatusHead id_ropLogon hindex;
      _ ← emit (push_Uint8 logonFlags >> push_each (fun fid => push_Uint64 (MakeEIDEx 1 fid)) logonFolderFIDs
                >> push_Uint8 flags >> push_GUID mailboxGUID >> push_Uint16 privateReplID >> push_GUID replGUID);
      now ← ask CNow;
      emit (pushLogonTime now >> push_Uint64 0 >> push_Uint32 0)
  | _, _ => _ ← ask (CClose st); fail id_ropLogon hindex ecError
  end.

(** ** Named properties *)

Definition ropGetPropertyIdsFromNames (hindex : Z) : H S unit :=
  '(flags, names) ← pull_req (f <- pull_Uint8 ;; n <- pull_PropertyNames fl ;; pull_ret (f, n));
  st ← openAny id_ropGetPropertyIdsFromNames hindex hindex;
  if negb ((flags =? mapiCreate) || (flags =? 0)) then fail id_ropGetPropertyIdsFromNames hindex ecInvalidParam
  else
    r ← ask (CGetNamedPropIDs st (flags =? mapiCreate) names);
    ids ← or_fail id_ropGetPropertyIdsFromNames hindex ecError r;
    _ ← writeStatusHead id_ropGetPropertyIdsFromNames hindex;
    emit (push_PropIDs ids).
Definition unnamed : PropertyName := mkPropertyName KindNone (mkGUID 0 0 0 [0; 0; 0; 0; 0; 0; 0; 0]) 0 [].
Definition ropGetNamesFromPropertyIds (hindex : Z) : H S unit :=
  ids ← pull_req pull_PropIDs;
  st ← openAny id_ropGetNamesFromPropertyIds hindex hindex;
  names ← each (fun i => r ← ask (CNamedPropName st i); n ← or_fail id_ropGetNamesFromPropertyIds hindex ecError r; mret (default unnamed n)) ids;
  _ ← writeStatusHead id_ropGetNamesFromPropertyIds hindex;
  emit (push_PropertyNames fl names).

(** ** Long-term ids *)

(** The logon at a slot, another object being answered with [ecNotSupported] *)
Definition long_term_logon (ropID hindex : Z) : H S store :=
  o ← at_slot hindex; match o with Some (_, OLogon st _) => mret st | _ => fail ropID hindex ecNotSupported end.
Definition ropLongTermIdFromId (hindex : Z) : H S unit :=
  eid ← pull_req pull_Uint64;
  st ← long_term_logon id_ropLongTermIdFromId hindex;
  r ← replidToGUID st (EID_ReplID eid);
  guid ← or_fail id_ropLongTermIdFromId hindex ecNotFound r;
  _ ← writeStatusHead id_ropLongTermIdFromId hindex;
  emit (push_GUID guid >> push_Raw (EID_GCArray eid) >> push_Uint16 0).
Definition ropIdFromLongTermId (hindex : Z) : H S unit :=
  '(guid, gc) ← pull_req (g <- pull_GUID ;; gc <- pull_Raw 6 ;; _ <- pull_Uint16 ;; pull_ret (g, gc));
  st ← long_term_logon id_ropIdFromLongTermId hindex;
  r ← guidToReplid st guid;
  match r with
  | None => fail id_ropIdFromLongTermId hindex ecInvalidParam
  | Some replid => _ ← writeStatusHead id_ropIdFromLongTermId hindex; emit (push_Uint64 (MakeEID replid gc))
  end.

(** ** Per-user information: a private mailbox keeps none *)

Definition ropGetPerUserLongTermIds (hindex : Z) : H S unit :=
  _ ← pull_req pull_GUID;
  _ ← openLogon id_ropGetPerUserLongTermIds hindex hindex;
  _ ← writeStatusHead id_ropGetPerUserLongTermIds hindex; emit (push_Uint16 0).
Definition ropGetPerUserGuid (hindex : Z) : H S unit :=
  _ ← pull_req pull_LongTermID;
  _ ← openLogon id_ropGetPerUserGuid hindex hindex;
  writeErr id_ropGetPerUserGuid hindex ecNotFound.
Definition ropReadPerUserInformation (hindex : Z) : H S unit :=
  _ ← pull_req (_ <- pull_LongTermID ;; _ <- pull_Uint8 ;; _ <- pull_Uint32 ;; pull_Uint16);
  _ ← openLogon id_ropReadPerUserInformation hindex hindex;
  _ ← writeStatusHead id_ropReadPerUserInformation hindex; emit (push_Uint8 1 >> push_Uint16 0).
Definition pullWritePerUserRequest : pull unit :=
  _ <- pull_LongTermID ;; _ <- pull_Uint8 ;; offset <- pull_Uint32 ;; _ <- pull_BinShort ;;
  if offset =? 0 then _ <- pull_GUID ;; pull_ret tt else pull_ret tt.
Definition ropWritePerUserInformation (hindex : Z) : H S unit :=
  _ ← pull_req pullWritePerUserRequest;
  _ ← openLogon id_ropWritePerUserInformation hindex hindex;
  writeStatusHead id_ropWritePerUserInformation hindex.
End logon.
