(* ===== verification/RopSync.v ===== *)
(** * The ROP layer: incremental synchronization

    The download and upload of changes ([ics.go], [icsmidset.go]) and the FastTransfer copies
    ([fastcopy.go]).  The collectors are the store's; the handlers gate, drive and answer them. *)

From stdpp Require Import base list gmap numbers.
From Stdlib Require Import ZArith Lia.
From S2P Require Import Prelude Gostr Mapi Wire ExtVal Permission RopTags RopBase RopProps RopMessage.
Open Scope Z_scope.

Definition SyncTypeContents : Z := 0x01.
Definition SyncTypeHierarchy : Z := 0x02.
Definition fastCopyTo : Z := 0x01.
Definition importDeletesTag : Z := 0x00001102.
Definition transferStatusError : Z := 0x0000.
Definition transferStatusPartial : Z := 0x0001.
Definition transferStatusDone : Z := 0x0003.
Definition fastChunkCap : Z := 0xF000.
Definition fastCopyFolderFlagMove : Z := 0x01.
Definition fastCopyFolderFlagCopySubfolder : Z := 0x10.

Record syncConfigureRequest := mkSyncConfigure { cq_ohindex : Z; cq_syncType : Z; cq_syncFlags : Z; cq_extraFlags : Z; cq_propTags : list Z }.
Definition pullSyncConfigureRequest : pull syncConfigureRequest :=
  ohindex <- pull_Uint8 ;; syncType <- pull_Uint8 ;; _ <- pull_Uint8 ;; syncFlags <- pull_Uint16 ;; size <- pull_Uint16 ;; _ <- pull_Raw size ;;
  extra <- pull_Uint32 ;; tags <- pull_PropTags ;; pull_ret (mkSyncConfigure ohindex syncType syncFlags extra tags).

(** Progress as two 16-bit counts *)
Definition stepCounts (d t : Z) (last : bool) : Z * Z :=
  let divisor := Z.max (u64 (t + 0xFFFE) / 0xFFFF) 1 in
  let total := u16 (Z.max (t / divisor) 1) in
  if last then (total, total) else (u16 (Z.min (d / divisor) total), total).

(** The (source key, mark) pairs of a read-state block; each takes at least three bytes. *)
Fixpoint pull_changes (fuel : nat) (b : bytes) : option (list ReadStateChange) :=
  match b, fuel with
  | [], _ => Some []
  | _, O => None
  | _, Datatypes.S fuel =>
      match (k <- pull_BinShort ;; m <- pull_Uint8 ;; pull_ret (mkReadState k (negb (m =? 0)))) b with
      | Err _ => None
      | Ok (c, rest) => cons c <$> pull_changes fuel rest
      end
  end.
Definition pullReadStateChanges (b : bytes) : option (list ReadStateChange) := pull_changes (length b) b.

Section sync.
Context {S : Type} `{Backend S}.

(** A new object under a handle, with the bare success response *)
Definition opened (ropID ohindex : Z) (o : object) : H S unit :=
  h ← alloc o; _ ← setHandle ohindex h; writeStatusHead ropID ohindex.

(** ** Download *)

Definition ropSynchronizationConfigure (hindex : Z) : H S unit :=
  req ← pull_req pullSyncConfigureRequest;
  let ohindex := cq_ohindex req in
  '(st, fid) ← openFolder id_ropSynchronizationConfigure hindex ohindex;
  _ ← (if cq_syncType req =? SyncTypeContents then denyWrite id_ropSynchronizationConfigure ohindex st fid FrightsReadAny else mret tt);
  r ← (if cq_syncType req =? SyncTypeContents then ask (CNewContentDownload st fid (cq_syncFlags req) (cq_extraFlags req) (cq_propTags req))
       else if cq_syncType req =? SyncTypeHierarchy then ask (CNewHierarchyDownload st fid (cq_syncFlags req) (cq_propTags req))
       else mret (Err SOther));
  col ← or_fail id_ropSynchronizationConfigure ohindex ecError r;
  opened id_ropSynchronizationConfigure ohindex (OSync st (Some (SrcStore col)) (Some col) None).

(** The state-stream sink at a slot *)
Definition stateSink (ropID hindex : Z) : H S Z :=
  o ← at_slot hindex; match o with Some (_, OSync _ _ (Some sink) _) => mret sink | _ => fail ropID hindex ecError end.
Definition ropSyncUploadStateStreamBegin (hindex : Z) : H S unit :=
  tag ← pull_req (t <- pull_Uint32 ;; _ <- pull_Uint32 ;; pull_ret t);
  sink ← stateSink id_ropSyncUploadStateStreamBegin hindex;
  r ← ask (CBeginStateStream sink tag);
  _ ← or_fail id_ropSyncUploadStateStreamBegin hindex ecError r;
  writeStatusHead id_ropSyncUploadStateStreamBegin hindex.
Definition ropSyncUploadStateStreamContinue (hindex : Z) : H S unit :=
  data ← pull_req pull_BinEx;
  sink ← stateSink id_ropSyncUploadStateStreamContinue hindex;
  r ← ask (CContinueStateStream sink data);
  _ ← or_fail id_ropSyncUploadStateStreamContinue hindex ecError r;
  writeStatusHead id_ropSyncUploadStateStreamContinue hindex.
Definition ropSyncUploadStateStreamEnd (hindex : Z) : H S unit :=
  sink ← stateSink id_ropSyncUploadStateStreamEnd hindex;
  r ← ask (CEndStateStream sink);
  _ ← or_fail id_ropSyncUploadStateStreamEnd hindex ecError r;
  writeStatusHead id_ropSyncUploadStateStreamEnd hindex.

(** The next chunk of a source with the progress after it: the chunk and whether it is the last *)
Definition get_buffer (p : N) (st : store) (src : fastTransferSource) (sink upload : option Z) (max : Z) : H S (serrable (bytes * bool) * (Z * Z)) :=
  match src with
  | SrcStore id => r ← ask (CSourceGetBuffer id max); pr ← ask (CSourceProgress id); mret (r, pr)
  | SrcState data off =>
      let e := Z.min (off + max) (len data) in
      _ ← assign p (OSync st (Some (SrcState data e)) sink upload);
      mret (Ok (take (Z.to_nat (e - off)) (drop (Z.to_nat off) data), len data <=? e), (e, len data))
  end.
Definition pullBufferSize : pull Z := n <- pull_Uint16 ;; if n =? 0xBABE then _ <- pull_Uint16 ;; pull_ret n else pull_ret n.
Definition ropFastTransferSourceGetBuffer (hindex : Z) : H S unit :=
  size ← pull_req pullBufferSize;
  o ← at_slot hindex;
  match o with
  | Some (p, OSync st (Some src) sink upload) =>
      let max := if (size =? 0xBABE) || (fastChunkCap <? size) then fastChunkCap else size in
      '(r, (d, t)) ← get_buffer p st src sink upload max;
      let '(chunk, last, status) :=
        match r with
        | Err _ => ([], false, transferStatusError)
        | Ok (chunk, true) => (chunk, true, transferStatusDone)
        | Ok (chunk, false) => (chunk, false, transferStatusPartial)
        end in
      let '(done, total) := stepCounts d t last in
      _ ← writeStatusHead id_ropFastTransferSourceGetBuffer hindex;
      _ ← emit (push_Uint16 status >> push_Uint16 done >> push_Uint16 total >> push_Uint8 0);
      emit (push_BinShort chunk)
  | _ => fail id_ropFastTransferSourceGetBuffer hindex ecError
  end.

(** ** Upload *)

Definition ropSyncOpenCollector (hindex : Z) : H S unit :=
  '(ohindex, isContent) ← pull_req (o <- pull_Uint8 ;; c <- pull_Uint8 ;; pull_ret (o, c));
  '(st, fid) ← openFolder id_ropSyncOpenCollector hindex ohindex;
  _ ← denyWrite id_ropSyncOpenCollector ohindex st fid FrightsEditAny;
  r ← (if isContent =? 0 then ask (CNewHierarchyUpload st fid) else ask (CNewContentUpload st fid));
  col ← or_fail id_ropSyncOpenCollector ohindex ecError r;
  opened id_ropSyncOpenCollector ohindex (OSync st None (Some col) (Some col)).
(** The upload collector at a slot *)
Definition openUpload (ropID hindex errIndex : Z) : H S (store * Z) :=
  o ← at_slot hindex; match o with Some (_, OSync st _ _ (Some up)) => mret (st, up) | _ => fail ropID errIndex ecError end.
Definition ropSyncImportHierarchyChange (hindex : Z) : H S unit :=
  '(hichy, props) ← pull_req (h <- pull_PropertyValues fl ;; p <- pull_PropertyValues fl ;; pull_ret (h, p));
  '(_, up) ← openUpload id_ropSyncImportHierarchyChange hindex hindex;
  r ← ask (CImportHierarchyChange up hichy props);
  fid ← or_fail id_ropSyncImportHierarchyChange hindex ecError r;
  _ ← writeStatusHead id_ropSyncImportHierarchyChange hindex;
  emit (push_Uint64 (MakeEIDEx 1 fid)).
Definition ropSyncImportDeletes (hindex : Z) : H S unit :=
  props ← pull_req (_ <- pull_Uint8 ;; pull_PropertyValues fl);
  '(_, up) ← openUpload id_ropSyncImportDeletes hindex hindex;
  match props with
  | [tv] =>
      match tpValue tv with
      | ABytess keys =>
          if negb (tpTag tv =? importDeletesTag) then fail id_ropSyncImportDeletes hindex ecError
          else
            r ← ask (CImportDeletes up keys);
            _ ← or_fail id_ropSyncImportDeletes hindex ecError r;
            writeStatusHead id_ropSyncImportDeletes hindex
      | _ => fail id_ropSyncImportDeletes hindex ecError
      end
  | _ => fail id_ropSyncImportDeletes hindex ecError
  end.
Definition ropSyncImportReadStateChanges (hindex : Z) : H S unit :=
  block ← pull_req (size <- pull_Uint16 ;; pull_Raw size);
  '(_, up) ← openUpload id_ropSyncImportReadStateChanges hindex hindex;
  match pullReadStateChanges block with
  | None => fail id_ropSyncImportReadStateChanges hindex ecError
  | Some changes =>
      r ← ask (CImportReadStateChanges up changes);
      _ ← or_fail id_ropSyncImportReadStateChanges hindex ecError r;
      writeStatusHead id_ropSyncImportReadStateChanges hindex
  end.
Definition ropSyncImportMessageMove (hindex : Z) : H S unit :=
  '(srcFolder, srcMsg, dstMsg) ← pull_req
     (f <- pull_BinEx ;; m <- pull_BinEx ;; _ <- pull_BinEx ;; d <- pull_BinEx ;; _ <- pull_BinEx ;; pull_ret (f, m, d));
  '(_, up) ← openUpload id_ropSynchronizationImportMessageMove hindex hindex;
  r ← ask (CImportMessageMove up srcFolder srcMsg dstMsg);
  match r with
  | Err SObjectDeleted => fail id_ropSynchronizationImportMessageMove hindex ecSyncObjectDel
  | Err _ => fail id_ropSynchronizationImportMessageMove hindex ecError
  | Ok _ => _ ← writeStatusHead id_ropSynchronizationImportMessageMove hindex; emit (push_Uint64 0)
  end.
Definition ropSyncGetTransferState (hindex : Z) : H S unit :=
  ohindex ← pull_req pull_Uint8;
  '(st, up) ← openUpload id_ropSyncGetTransferState hindex ohindex;
  r ← ask (CGetTransferState up);
  state ← or_fail id_ropSyncGetTransferState ohindex ecError r;
  opened id_ropSyncGetTransferState ohindex (OSync st (Some (SrcState state 0)) None None).
Definition ropSyncImportMessageChange (hindex : Z) : H S unit :=
  '(ohindex, flags, header) ← pull_req (o <- pull_Uint8 ;; f <- pull_Uint8 ;; h <- pull_PropertyValues fl ;; pull_ret (o, f, h));
  '(st, up) ← openUpload id_ropSyncImportMessageChange hindex ohindex;
  r ← ask (CImportMessageChange up flags header);
  um ← or_fail id_ropSyncImportMessageChange ohindex ecError r;
  _ ← opened id_ropSyncImportMessageChange ohindex (OUploadMessage st um);
  emit (push_Uint64 0).
Definition ropFastTransferDestConfigure (hindex : Z) : H S unit :=
  '(ohindex, sourceOp) ← pull_req (o <- pull_Uint8 ;; s <- pull_Uint8 ;; _ <- pull_Uint8 ;; pull_ret (o, s));
  o ← at_slot hindex;
  match o with
  | Some (_, OUploadMessage st um) =>
      if negb (sourceOp =? fastCopyTo) then fail id_ropFastTransferDestConfigure ohindex ecNotSupported
      else mc ← ask (CNewMessageCollector um); opened id_ropFastTransferDestConfigure ohindex (OFastUpload st mc)
  | _ => fail id_ropFastTransferDestConfigure ohindex ecError
  end.
Definition ropFastTransferDestPutBuffer (hindex : Z) : H S unit :=
  data ← pull_req pull_BinShort;
  o ← at_slot hindex;
  match o with
  | Some (_, OFastUpload _ mc) =>
      r ← ask (CPutBuffer mc data);
      _ ← or_fail id_ropFastTransferDestPutBuffer hindex ecError r;
      _ ← writeStatusHead id_ropFastTransferDestPutBuffer hindex;
      emit (push_Uint16 0 >> push_Uint16 0 >> push_Uint16 1 >> push_Uint8 0 >> push_Uint16 (u16 (len data)))
  | _ => fail id_ropFastTransferDestPutBuffer hindex ecError
  end.
Definition ropGetLocalReplicaIds (hindex : Z) : H S unit :=
  count ← pull_req pull_Uint32;
  st ← openAny id_ropGetLocalReplicaIds hindex hindex;
  r ← ask (CAllocateLocalIDs st count);
  '(begin, replica) ← or_fail id_ropGetLocalReplicaIds hindex ecError r;
  _ ← writeStatusHead id_ropGetLocalReplicaIds hindex;
  emit (push_GUID replica >> push_Raw (ValueToGC begin)).
Definition ropSetLocalReplicaMidsetDeleted (hindex : Z) : H S unit :=
  _ ← pull_req (size <- pull_Uint16 ;; pull_Raw size); writeStatusHead id_ropSetLocalReplicaMidsetDeleted hindex.

(** ** Copies *)

Definition ropProgress (hindex : Z) : H S unit := _ ← pull_req pull_Uint8; writeErr id_ropProgress hindex ecNotSupported.
(** A source over an opened message *)
Definition openCopySource (ropID hindex ohindex : Z) (build : store -> Z -> H S (serrable Z)) : H S unit :=
  '(st, mid, fid) ← openMessage ropID hindex ohindex;
  _ ← denyWrite ropID ohindex st fid FrightsReadAny;
  r ← build st mid;
  col ← or_fail ropID ohindex ecError r;
  opened ropID ohindex (OSync st (Some (SrcStore col)) None None).
Definition ropFastTransferSourceCopyMessages (hindex : Z) : H S unit :=
  '(ohindex, eids) ← pull_req (o <- pull_Uint8 ;; e <- pull_Uint64ArrayShort ;; _ <- pull_Uint8 ;; _ <- pull_Uint8 ;; pull_ret (o, e));
  '(st, fid) ← openFolder id_ropFastTransferSourceCopyMessages hindex ohindex;
  _ ← denyWrite id_ropFastTransferSourceCopyMessages ohindex st fid FrightsReadAny;
  r ← ask (CNewCopyMessages st fid (map store_id eids));
  col ← or_fail id_ropFastTransferSourceCopyMessages ohindex ecError r;
  opened id_ropFastTransferSourceCopyMessages ohindex (OSync st (Some (SrcStore col)) None None).
Definition ropFastTransferSourceCopyFolder (hindex : Z) : H S unit :=
  '(ohindex, flags) ← pull_req (o <- pull_Uint8 ;; f <- pull_Uint8 ;; _ <- pull_Uint8 ;; pull_ret (o, f));
  '(st, fid) ← openFolder id_ropFastTransferSourceCopyFolder hindex ohindex;
  _ ← denyWrite id_ropFastTransferSourceCopyFolder ohindex st fid FrightsReadAny;
  r ← ask (CNewCopyFolder st fid (negb (Z.land flags (Z.lor fastCopyFolderFlagMove fastCopyFolderFlagCopySubfolder) =? 0)));
  col ← or_fail id_ropFastTransferSourceCopyFolder ohindex ecError r;
  opened id_ropFastTransferSourceCopyFolder ohindex (OSync st (Some (SrcStore col)) None None).
Definition ropFastTransferSourceCopyTo (hindex : Z) : H S unit :=
  '(ohindex, excluded) ← pull_req (o <- pull_Uint8 ;; _ <- pull_Uint8 ;; _ <- pull_Uint32 ;; _ <- pull_Uint8 ;; t <- pull_PropTags ;; pull_ret (o, t));
  openCopySource id_ropFastTransferSourceCopyTo hindex ohindex (fun st mid => ask (CNewCopyTo st mid excluded)).
Definition ropFastTransferSourceCopyProperties (hindex : Z) : H S unit :=
  '(ohindex, included) ← pull_req (o <- pull_Uint8 ;; _ <- pull_Uint8 ;; _ <- pull_Uint8 ;; _ <- pull_Uint8 ;; t <- pull_PropTags ;; pull_ret (o, t));
  openCopySource id_ropFastTransferSourceCopyProperties hindex ohindex (fun st mid => ask (CNewCopyProperties st mid included)).
End sync.
