(* ===== verification/RopNotify.v ===== *)
(** * The ROP layer: notifications

    The subscriptions of a session ([notify_register.go], [notify_sub.go]), the changes a poll finds
    between two snapshots ([notify_poll.go], [notify_table.go]), their wire form ([notify.go]) and
    the queue drained into a response ([notify_drain.go]). *)

From stdpp Require Import base list gmap numbers.
From Stdlib Require Import ZArith Lia.
From S2P Require Import Prelude Gostr Mapi Wire ExtVal Permission RopTags RopBase RopProps RopMessage RopTable.
Open Scope Z_scope.

Definition fnevNewMail : Z := 0x0002.
Definition fnevObjectCreated : Z := 0x0004.
Definition fnevObjectDeleted : Z := 0x0008.
Definition fnevObjectModified : Z := 0x0010.
Definition fnevObjectMoved : Z := 0x0020.
Definition fnevObjectCopied : Z := 0x0040.
Definition fnevTableModified : Z := 0x0100.
Definition nfExtended : Z := 0x0400.
Definition nfHasTotal : Z := 0x1000.
Definition nfHasUnread : Z := 0x2000.
Definition nfBySearch : Z := 0x4000.
Definition nfByMessage : Z := 0x8000.
Definition tableChanged : Z := 0x0001.
Definition tableRowAdded : Z := 0x0003.
Definition tableRowDeleted : Z := 0x0004.
Definition tableRowModified : Z := 0x0005.

(** ** Wire form *)

Definition has (n : notification) (f : Z) : bool := negb (Z.land (nt_flags n) f =? 0).
Definition push_when (b : bool) (p : push) : push := if b then p else push_nop.
Definition pushTableNotify (n : notification) : push :=
  let am := (nt_tableEvent n =? tableRowAdded) || (nt_tableEvent n =? tableRowModified) in
  let amd := am || (nt_tableEvent n =? tableRowDeleted) in
  push_Uint16 (nt_tableEvent n)
  >> push_when amd (push_Uint64 (nt_rowFolderID n))
  >> push_when (amd && has n nfByMessage) (push_Uint64 (nt_rowMessageID n) >> push_Uint32 (nt_rowInstance n))
  >> push_when am (push_Uint64 (nt_afterFolderID n)
                   >> push_when (has n nfByMessage) (push_Uint64 (nt_afterRowID n) >> push_Uint32 (nt_afterInstance n))
                   >> push_BinShort (nt_rowData n)).
Definition pushObjectIDs (n : notification) : push :=
  push_when (negb (has n (Z.lor fnevTableModified nfExtended))) (push_Uint64 (nt_folderID n))
  >> push_when (Z.land (nt_flags n) (Z.lor fnevTableModified (Z.lor nfExtended nfByMessage)) =? nfByMessage) (push_Uint64 (nt_messageID n))
  >> push_when (has n (Z.lor fnevObjectCreated (Z.lor fnevObjectDeleted (Z.lor fnevObjectMoved fnevObjectCopied)))
                && eqb (has n nfBySearch) (has n nfByMessage)) (push_Uint64 (nt_parentID n)).
Definition pushMoveCopyIDs (n : notification) : push :=
  push_when (has n (Z.lor fnevObjectMoved fnevObjectCopied))
    (push_Uint64 (nt_oldFolderID n) >> (if has n nfByMessage then push_Uint64 (nt_oldMessageID n) else push_Uint64 (nt_oldParentID n))).
Definition pushCounts (n : notification) : push :=
  push_when (has n nfHasTotal) (push_Uint32 (nt_totalCount n)) >> push_when (has n nfHasUnread) (push_Uint32 (nt_unreadCount n)).
Definition pushNotify (handle logonID : Z) (n : notification) : push :=
  push_Uint8 id_ropNotify >> push_Uint32 handle >> push_Uint8 logonID >> push_Uint16 (nt_flags n)
  >> push_when (has n fnevTableModified) (pushTableNotify n)
  >> pushObjectIDs n >> pushMoveCopyIDs n
  >> push_when (has n (Z.lor fnevObjectCreated fnevObjectModified)) (push_PropTags (nt_proptags n))
  >> pushCounts n
  >> push_when (has n fnevNewMail) (push_Uint32 (nt_msgFlags n) >> push_Uint8 1 >> push_Unicode fl (nt_msgClass n)).

(** ** Changes between two snapshots *)

(** An event on an object; the fields it does not name are zero. *)
Definition event (flags tableEvent folderID messageID parentID total unread : Z) : notification :=
  mkNotification flags tableEvent 0 0 0 0 0 0 [] folderID messageID parentID 0 0 0 [] total unread 0 [].
Definition wire_id (id : Z) : Z := MakeEIDEx 1 (u64 id).
(** The keys of a map in ascending order, and those of [prev] that [cur] does not have *)
Definition sorted_keys {A} (m : gmap Z A) : list Z := Sort (map_to_list m).*1.
Definition gone {A B} (prev : gmap Z A) (cur : gmap Z B) : list Z :=
  Sort (List.filter (fun id => match cur !! id with Some _ => false | None => true end) (map_to_list prev).*1).

Definition content_change (folderID : Z) (prev cur : folderSnapshot) (id : Z) : option notification :=
  match prev !! id, cur !! id with
  | None, _ => Some (event (Z.lor fnevObjectCreated nfByMessage) 0 (wire_id folderID) (wire_id id) 0 0 0)
  | Some cn, Some cn' => if cn =? cn' then None else Some (event (Z.lor fnevObjectModified nfByMessage) 0 (wire_id folderID) (wire_id id) 0 0 0)
  | Some _, None => None
  end.
Definition content_changes (folderID : Z) (prev cur : folderSnapshot) : list notification :=
  omap (content_change folderID prev cur) (sorted_keys cur)
  ++ map (fun id => event (Z.lor fnevObjectDeleted nfByMessage) 0 (wire_id folderID) (wire_id id) 0 0 0) (gone prev cur).

Definition folder_change (prev cur : gmap Z folderMeta) (id : Z) : option notification :=
  match cur !! id, prev !! id with
  | Some c, None => Some (event fnevObjectCreated 0 (wire_id id) 0 (wire_id (fm_parentID c)) 0 0)
  | Some c, Some p =>
      if (fm_total p =? fm_total c) && (fm_unread p =? fm_unread c) then None
      else Some (event (Z.lor fnevObjectModified (Z.lor nfHasTotal nfHasUnread)) 0 (wire_id id) 0 0 (fm_total c) (fm_unread c))
  | None, _ => None
  end.
Definition folder_gone (prev : gmap Z folderMeta) (id : Z) : option notification :=
  (fun p => event fnevObjectDeleted 0 (wire_id id) 0 (wire_id (fm_parentID p)) 0 0) <$> prev !! id.
Definition detectFolderChanges (prev cur : gmap Z folderMeta) : list notification :=
  omap (folder_change prev cur) (sorted_keys cur) ++ omap (folder_gone prev) (gone prev cur).

(** ** Subscriptions *)

Definition matches (s : subscription) (folderID scopeMessageID typeBit : Z) : bool :=
  negb (Z.land (sub_types s) typeBit =? 0)
  && (sub_wholeStore s || ((sub_folderID s =? folderID) && (sub_messageID s =? scopeMessageID))).
(** A creation concerns the folder, another change the message. *)
Definition classifyScope (n : notification) : Z * Z :=
  let typeBit := u8 (nt_flags n) in
  if has n (Z.lor fnevObjectCreated fnevNewMail) then (0, typeBit) else (i64 (EID_GCValue (nt_messageID n)), typeBit).
Definition sub_matches (s : subscription) (folderID : Z) (n : notification) : bool :=
  let '(scope, typeBit) := classifyScope n in matches s folderID scope typeBit.

Record registerNotificationRequest := mkRegister { rn_ohindex : Z; rn_types : Z; rn_wholeStore : bool; rn_folderID : Z; rn_messageID : Z }.
Definition pullRegisterNotificationRequest : pull registerNotificationRequest :=
  ohindex <- pull_Uint8 ;; types <- pull_Uint8 ;; _ <- pull_Uint8 ;; whole <- pull_Uint8 ;;
  if negb (whole =? 0) then pull_ret (mkRegister ohindex types true 0 0)
  else f <- pull_Uint64 ;; m <- pull_Uint64 ;; pull_ret (mkRegister ohindex types false (store_id f) (store_id m)).

Definition notifyBufferCap : Z := 0x8000.
Definition pushPending (sessionIndex : Z) : push := push_Uint8 id_ropPending >> push_Uint16 sessionIndex.

Section notify.
Context {S : Type} `{Backend S}.

(** The (parent, total, unread) of each listed folder *)
Fixpoint folderMetaSnapshot (st : store) (folders : list FolderInfo) : H S (serrable (gmap Z folderMeta)) :=
  match folders with
  | [] => ok ∅
  | f :: folders =>
      c ←? ask (CCountMessages st (fi_ID f));
      rest ←? folderMetaSnapshot st folders;
      (* a folder listed twice keeps the later entry *)
      ok (match rest !! fi_ID f with
          | Some _ => rest
          | None => <[fi_ID f := mkFolderMeta (default PrivateFIDIPMSubtree (fi_ParentID f)) (u32 c.1) (u32 c.2)]> rest
          end)
  end.
Fixpoint folder_snapshots (st : store) (folders : list FolderInfo) (acc : gmap Z folderSnapshot) : H S (serrable (gmap Z folderSnapshot)) :=
  match folders with
  | [] => ok acc
  | f :: folders => snap ←? ask (CFolderMessageChangeNumbers st (fi_ID f)); folder_snapshots st folders (<[fi_ID f := snap]> acc)
  end.
Definition baselineSubscription (st : store) (req : registerNotificationRequest) : H S (serrable (folderSnapshot * gmap Z folderSnapshot * option (gmap Z folderMeta))) :=
  if negb (rn_wholeStore req) then snap ←? ask (CFolderMessageChangeNumbers st (rn_folderID req)); ok (snap, ∅, None)
  else
    folders ←? ask (CListFolders st);
    snaps ←? folder_snapshots st folders ∅;
    meta ←? folderMetaSnapshot st folders;
    ok (∅, snaps, Some meta).
Definition ropRegisterNotification (hindex : Z) : H S unit :=
  req ← pull_req pullRegisterNotificationRequest;
  let ohindex := rn_ohindex req in
  st ← openAny id_ropRegisterNotification hindex ohindex;
  r ← baselineSubscription st req;
  '(snap, folders, meta) ← or_fail id_ropRegisterNotification ohindex ecError r;
  s ← sess;
  (* the handle the object is about to get *)
  let sub := mkSubscription (s_next s) 0 (rn_types req) (rn_wholeStore req) (rn_folderID req) (rn_messageID req) in
  h ← alloc (OSubscription st sub snap folders meta);
  _ ← setHandle ohindex h;
  writeStatusHead id_ropRegisterNotification ohindex.

(** ** Polling *)

Definition enqueue (q : list queuedNotify) : H S unit := modify (fun w => set_sess (set_pending (s_pending (w_sess w) ++ q) (w_sess w)) w).
(** The handles whose objects satisfy a test, in ascending order *)
Definition handles_where (f : object -> bool) : H S (list (Z * N)) := fun w =>
  let hs := s_handles (w_sess w) in
  let test (h : Z) := match hs !! h with Some p => match w_objs w !! p with Some o => if f o then Some (h, p) else None | None => None end | None => None end in
  Val (omap test (sorted_keys hs)) w.

(** The new baseline of a folder, the old one when it cannot be read *)
Definition pollFolder (st : store) (sub : subscription) (folderID : Z) (prev : folderSnapshot) : H S folderSnapshot :=
  r ← ask (CFolderMessageChangeNumbers st folderID);
  match r with
  | Err _ => mret prev
  | Ok cur =>
      let events := List.filter (sub_matches sub folderID) (content_changes folderID prev cur) in
      _ ← enqueue (map (mkQueued (sub_handle sub) (sub_logonID sub)) events);
      mret cur
  end.
Definition enqueueFolderHierarchy (st : store) (sub : subscription) (meta : option (gmap Z folderMeta)) (folders : list FolderInfo) : H S (option (gmap Z folderMeta)) :=
  r ← folderMetaSnapshot st folders;
  match r, meta with
  | Err _, _ => mret meta
  | Ok cur, None => mret (Some cur)
  | Ok cur, Some prev =>
      let events := List.filter (fun n => matches sub 0 0 (u8 (nt_flags n))) (detectFolderChanges prev cur) in
      _ ← enqueue (map (mkQueued (sub_handle sub) (sub_logonID sub)) events);
      mret (Some cur)
  end.
Fixpoint poll_folders (st : store) (sub : subscription) (folders : list FolderInfo) (snaps : gmap Z folderSnapshot) : H S (gmap Z folderSnapshot) :=
  match folders with
  | [] => mret snaps
  | f :: folders =>
      snap ← pollFolder st sub (fi_ID f) (default ∅ (snaps !! fi_ID f));
      poll_folders st sub folders (<[fi_ID f := snap]> snaps)
  end.
Definition enqueueWholeStore (p : N) (st : store) (sub : subscription) (snap : folderSnapshot) (snaps : gmap Z folderSnapshot) (meta : option (gmap Z folderMeta)) : H S unit :=
  r ← ask (CListFolders st);
  match r with
  | Err _ => mret tt
  | Ok folders =>
      meta ← enqueueFolderHierarchy st sub meta folders;
      snaps ← poll_folders st sub folders snaps;
      let live := filter (fun kv => kv.1 ∈ map fi_ID folders) snaps in
      assign p (OSubscription st sub snap live meta)
  end.
Definition poll_subscription (p : N) : H S unit :=
  o ← deref p;
  match o with
  | OSubscription st sub snap snaps meta =>
      if sub_wholeStore sub then enqueueWholeStore p st sub snap snaps meta
      else if negb (sub_folderID sub =? 0) then
        snap ← pollFolder st sub (sub_folderID sub) snap;
        assign p (OSubscription st sub snap snaps meta)
      else mret tt
  | _ => mret tt
  end.
Definition enqueueSubscriptionChanges : H S unit :=
  subs ← handles_where (fun o => match o with OSubscription _ _ _ _ _ => true | _ => false end);
  each_ (fun hp => poll_subscription hp.2) subs.

(** The count and the marker of a table's folder *)
Definition readTableSignal (st : store) (t : tableState) : H S (serrable (Z * Z)) :=
  match tb_rows t with
  | THierarchy _ => ask (CFolderChildSignal st (tb_folderID t))
  | _ => ask (CFolderContentSignal st (tb_folderID t) (tb_softDeleted t))
  end.
Definition pollTable (h : Z) (p : N) : H S unit :=
  o ← deref p;
  match o with
  | OTable st t =>
      r ← readTableSignal st t;
      match r with
      | Err _ => mret tt
      | Ok cur =>
          _ ← assign p (OTable st (tb_set_signal t (Some cur)));
          match tb_signal t with
          | None => mret tt
          | Some prev => if bool_decide (prev = cur) then mret tt else enqueue [mkQueued h 0 (event fnevTableModified tableChanged 0 0 0 0 0)]
          end
      end
  | _ => mret tt
  end.
Definition enqueueTableChanges : H S unit :=
  tables ← handles_where (fun o => match o with OTable _ t => tb_notify t | _ => false end);
  each_ (fun hp => pollTable hp.1 hp.2) tables.
Definition enqueueChanges : H S unit := _ ← enqueueSubscriptionChanges; enqueueTableChanges.

(** ** Draining *)

(** What stays queued and the response with the notifications that fit in it *)
Fixpoint drain (live : Z -> bool) (q : list queuedNotify) (out : bytes) : list queuedNotify * bytes :=
  match q with
  | [] => ([], out)
  | qn :: q' =>
      if negb (live (qn_handle qn)) then drain live q' out
      else
        match pushNotify (qn_handle qn) (qn_logonID qn) (qn_n qn) [] with
        | Err _ => drain live q' out
        | Ok scratch =>
            if notifyBufferCap <? len out + len scratch then (q, match pushPending 0 out with Ok b => b | Err _ => out end)
            else drain live q' (out ++ scratch)
        end
  end.
Definition drainNotifications : H S unit := modify (fun w =>
  let s := w_sess w in
  let '(q, out) := drain (fun h => match s_handles s !! h with Some _ => true | None => false end) (s_pending s) (w_out w) in
  set_out out (set_sess (set_pending q s) w)).
Definition poll : H S unit := _ ← enqueueChanges; drainNotifications.
Definition PollForChange : H S bool := _ ← enqueueChanges; s ← sess; mret (negb (bool_decide (s_pending s = []))).
End notify.
