(* ===== verification/Rop.v ===== *)
(** * The ROP layer: dispatch ([dispatch.go])

    A request is a list of operations and a list of handles.  Each operation is read from the
    request by its handler, which answers it in the response and says whether the rest of the batch
    can be read; the notifications that wait are added at the end. *)

From stdpp Require Import base list gmap numbers.
From Stdlib Require Import ZArith Lia.
From S2P Require Import Prelude Gostr Mapi Wire ExtVal Permission RopTags RopBase RopProps RopMessage RopAttach RopStream RopMsgops RopTable RopFolder RopLogon RopSync RopNotify.
Open Scope Z_scope.

Section dispatch.
Context {S : Type} `{Backend S} (L : libs) (cf : config).

Definition handler : Type := Z -> H S unit.
Definition releaseHandler : handler := ropRelease.
Definition ropTable : list (Z * handler) :=
  [(id_ropRelease, releaseHandler); (id_ropLogon, ropLogon L cf);
   (id_ropOpenFolder, ropOpenFolder); (id_ropOpenMessage, ropOpenMessage);
   (id_ropGetPropertiesSpecific, ropGetPropertiesSpecific L cf); (id_ropGetPropertiesAll, ropGetPropertiesAll L cf);
   (id_ropGetPropertiesList, ropGetPropertiesList L cf); (id_ropCreateMessage, ropCreateMessage);
   (id_ropSetProperties, ropSetProperties); (id_ropDeleteProperties, ropDeleteProperties);
   (id_ropDeletePropertiesNoReplicate, ropDeletePropertiesNoReplicate); (id_ropGetPropertyIdsFromNames, ropGetPropertyIdsFromNames);
   (id_ropGetNamesFromPropertyIds, ropGetNamesFromPropertyIds); (id_ropCopyProperties, ropCopyProperties);
   (id_ropCopyTo, ropCopyTo); (id_ropGetReceiveFolder, ropGetReceiveFolder);
   (id_ropLongTermIdFromId, ropLongTermIdFromId); (id_ropIdFromLongTermId, ropIdFromLongTermId);
   (id_ropSetReceiveFolder, ropSetReceiveFolder); (id_ropGetReceiveFolderTable, ropGetReceiveFolderTable);
   (id_ropGetStoreState, ropGetStoreState); (id_ropRegisterNotification, ropRegisterNotification);
   (id_ropModifyRecipients, ropModifyRecipients); (id_ropReloadCachedInfo, ropReloadCachedInformation L cf);
   (id_ropReadRecipients, ropReadRecipients); (id_ropGetMessageStatus, ropGetMessageStatus);
   (id_ropSetMessageStatus, ropSetMessageStatus); (id_ropSubmitMessage, ropSubmitMessage L cf);
   (id_ropSetMessageReadFlag, ropSetMessageReadFlag cf); (id_ropSetReadFlags, ropSetReadFlags cf);
   (id_ropDeleteMessages, ropDeleteMessages); (id_ropMoveCopyMessages, ropMoveCopyMessages);
   (id_ropCreateFolder, ropCreateFolder); (id_ropDeleteFolder, ropDeleteFolder);
   (id_ropMoveFolder, ropMoveFolder); (id_ropCopyFolder, ropCopyFolder);
   (id_ropEmptyFolder, ropEmptyFolder); (id_ropHardDeleteMessages, ropHardDeleteMessages);
   (id_ropHardDelMsgsAndSubfolders, ropHardDeleteMessagesAndSubfolders); (id_ropSetSearchCriteria, ropSetSearchCriteria);
   (id_ropGetSearchCriteria, ropGetSearchCriteria); (id_ropSaveChangesMessage, ropSaveChangesMessage L cf);
   (id_ropGetAttachmentTable, ropGetAttachmentTable); (id_ropOpenAttachment, ropOpenAttachment);
   (id_ropOpenEmbeddedMessage, ropOpenEmbeddedMessage); (id_ropCreateAttachment, ropCreateAttachment);
   (id_ropSaveChangesAttachment, ropSaveChangesAttachment cf); (id_ropDeleteAttachment, ropDeleteAttachment);
   (id_ropGetContentsTable, ropGetContentsTable); (id_ropGetPermissionsTable, ropGetPermissionsTable);
   (id_ropModifyPermissions, ropModifyPermissions cf); (id_ropGetRulesTable, ropGetRulesTable);
   (id_ropModifyRules, ropModifyRules); (id_ropSetSpooler, ropSetSpooler);
   (id_ropGetTransportFolder, ropGetTransportFolder); (id_ropTransportSend, ropTransportSend L cf);
   (id_ropSetColumns, ropSetColumns); (id_ropGetHierarchyTable, ropGetHierarchyTable);
   (id_ropSortTable, ropSortTable L); (id_ropRestrict, ropRestrict L);
   (id_ropQueryRows, ropQueryRows); (id_ropSeekRow, ropSeekRow);
   (id_ropGetStatus, ropGetStatus); (id_ropQueryPosition, ropQueryPosition);
   (id_ropSeekRowFractional, ropSeekRowFractional); (id_ropQueryColumnsAll, ropQueryColumnsAll);
   (id_ropAbort, ropAbort); (id_ropGetCollapseState, ropGetCollapseState);
   (id_ropFreeBookmark, ropFreeBookmark); (id_ropSeekRowBookmark, ropSeekRowBookmark);
   (id_ropCreateBookmark, ropCreateBookmark); (id_ropFindRow, ropFindRow L);
   (id_ropExpandRow, ropExpandRow); (id_ropCollapseRow, ropCollapseRow);
   (id_ropSetCollapseState, ropSetCollapseState); (id_ropResetTable, ropResetTable);
   (id_ropOpenStream, ropOpenStream); (id_ropReadStream, ropReadStream);
   (id_ropWriteStream, ropWriteStream); (id_ropCommitStream, ropCommitStream);
   (id_ropSeekStream, ropSeekStream); (id_ropSetStreamSize, ropSetStreamSize);
   (id_ropGetStreamSize, ropGetStreamSize); (id_ropSynchronizationConfigure, ropSynchronizationConfigure);
   (id_ropSyncUploadStateStreamBegin, ropSyncUploadStateStreamBegin); (id_ropSyncUploadStateStreamContinue, ropSyncUploadStateStreamContinue);
   (id_ropSyncUploadStateStreamEnd, ropSyncUploadStateStreamEnd); (id_ropFastTransferSourceGetBuffer, ropFastTransferSourceGetBuffer);
   (id_ropSyncOpenCollector, ropSyncOpenCollector); (id_ropSyncImportMessageChange, ropSyncImportMessageChange);
   (id_ropFastTransferDestConfigure, ropFastTransferDestConfigure); (id_ropFastTransferDestPutBuffer, ropFastTransferDestPutBuffer);
   (id_ropSyncImportHierarchyChange, ropSyncImportHierarchyChange); (id_ropSyncImportDeletes, ropSyncImportDeletes);
   (id_ropSyncImportReadStateChanges, ropSyncImportReadStateChanges); (id_ropSyncGetTransferState, ropSyncGetTransferState);
   (id_ropGetLocalReplicaIds, ropGetLocalReplicaIds); (id_ropSetLocalReplicaMidsetDeleted, ropSetLocalReplicaMidsetDeleted);
   (id_ropSynchronizationImportMessageMove, ropSyncImportMessageMove); (id_ropGetPerUserLongTermIds, ropGetPerUserLongTermIds);
   (id_ropGetPerUserGuid, ropGetPerUserGuid); (id_ropReadPerUserInformation, ropReadPerUserInformation);
   (id_ropWritePerUserInformation, ropWritePerUserInformation); (id_ropFastTransferSourceCopyMessages, ropFastTransferSourceCopyMessages);
   (id_ropFastTransferSourceCopyFolder, ropFastTransferSourceCopyFolder); (id_ropFastTransferSourceCopyTo, ropFastTransferSourceCopyTo);
   (id_ropFastTransferSourceCopyProperties, ropFastTransferSourceCopyProperties); (id_ropProgress, ropProgress)].
Definition handler_of (tab : list (Z * handler)) (ropID : Z) : option handler := snd <$> List.find (fun e => e.1 =? ropID) tab.

Definition pullRopHeader : pull (Z * Z * Z) := ropID <- pull_Uint8 ;; logonID <- pull_Uint8 ;; hindex <- pull_Uint8 ;; pull_ret (ropID, logonID, hindex).
(** One operation: [Ret false] ends the batch *)
Definition run_one (tab : list (Z * handler)) : H S unit :=
  '(ropID, logonID, hindex) ← pull_req pullRopHeader;
  _ ← modify (fun w => set_sess (set_logonID logonID (w_sess w)) w);
  match handler_of tab ropID with
  | None => _ ← writeErr ropID hindex ecError; ret_now false
  | Some run => run hindex
  end.
(** Every operation takes at least the three bytes of its header. *)
Fixpoint run_batch (tab : list (Z * handler)) (fuel : nat) (w : world S) : outcome S unit :=
  match fuel, w_in w with
  | O, _ | _, [] => Val tt w
  | Datatypes.S fuel, _ =>
      match run_one tab w with
      | Val _ w | Ret true w => run_batch tab fuel w
      | Ret false w => Val tt w
      | Panic => Panic
      end
  end.
Definition Dispatch_with (tab : list (Z * handler)) (ropList : bytes) (reqHandles : list Z) : H S (bytes * list Z) :=
  _ ← modify (fun w => set_handles reqHandles (set_out [] (set_in ropList w)));
  _ ← run_batch tab (length ropList);
  _ ← poll;
  w ← world_get;
  mret (w_out w, w_handles w).
Definition Dispatch : bytes -> list Z -> H S (bytes * list Z) := Dispatch_with ropTable.
End dispatch.
