(* ===== verification/RopInv.v ===== *)
(** * The ROP layer: the invariant of a session and the rules of its handlers

    The objects of a session point to each other (a stream to the object it is opened over, an
    embedded message to its attachment, an attachment to its message) and carry the rights that were
    checked when they were made.  The invariant [WF] states both, over a history of the calls made so
    far; [safe] is the triple of a handler: it keeps the invariant, the kinds of the objects and the
    history, makes only calls the history authorises, and panics only where [may_panic] allows it.

    [strict] switches the authorization part on: a store that is not the session's own mailbox is
    then always guarded by the caller's rights. *)

From stdpp Require Import base list gmap numbers.
From Stdlib Require Import ZArith Lia.
From S2P Require Import Prelude Gostr Mapi Wire ExtVal Permission RopTags RopBase RopProps RopMessage RopTable.
Open Scope Z_scope.

(** ** What an object is, as far as other objects rely on it *)
Inductive kind :=
| KMessage (st : store) (mid fid : Z) | KAttachment (st : store) (aid : Z) (parent : option N)
| KAttachWrite | KNewMessage | KEmbedded | KTable | KStream | KSync | KSubscription | KOther.
Definition kind_of (o : object) : kind :=
  match o with
  | OMessage st mid fid _ _ _ => KMessage st mid fid
  | OAttachment st _ aid _ parent => KAttachment st aid parent
  | OAttachWrite _ _ => KAttachWrite
  | ONewMessage _ _ => KNewMessage
  | OEmbedded _ _ => KEmbedded
  | OTable _ _ => KTable
  | OStream _ => KStream
  | OSync _ _ _ _ => KSync
  | OSubscription _ _ _ _ _ => KSubscription
  | _ => KOther
  end.

(** A restriction whose leaves have the values of their types: evaluating it does not panic. *)
Fixpoint res_typed (ty : Z) (v : any) {struct v} : bool :=
  if (ty =? ResAnd) || (ty =? ResOr) then match v with ARess l => forallb (fun r => res_typed (resType r) (resValue r)) l | _ => true end
  else if ty =? ResNot then match v with ARes r => res_typed (resType r) (resValue r) | _ => true end
  else if ty =? ResComment then match v with AComment c => match cmRes c with Some r => res_typed (resType r) (resValue r) | None => true end | _ => true end
  else if ty =? ResProperty then match v with AProperty _ => true | _ => false end
  else if ty =? ResContent then match v with AContent _ => true | _ => false end
  else if ty =? ResBitmask then match v with ABitmask _ => true | _ => false end
  else true.

(** What is asked of a session: whether the rights are checked, whether a right on the folder a
    request names is enough for the messages and subfolders it names, and whether a panic is allowed,
    with the lower-casing of names, the history of a state of the backend and that every call in it was
    authorised *)
Class Policy (S : Type) (cf : config) := mkPolicy {
  strict : Prop; by_folder : Prop; may_panic : Prop; lower : bytes -> bytes; happened : S -> forall c : call, reply c -> Prop; log_ok : S -> Prop }.

(** No slice of a request grows when it is lower-cased. *)
Definition no_growth (low : bytes -> bytes) (b : bytes) : Prop := forall p s q, b = p ++ s ++ q -> (length (low s) <= length s)%nat.
Lemma no_growth_suffix low p b : no_growth low (p ++ b) -> no_growth low b.
Proof. intros Hg p' s q ->. apply (Hg (p ++ p') s q). by rewrite <- app_assoc. Qed.

Section inv.
Context {S : Type} {cf : config} {P : Policy S cf}.

(** ** Rights *)

(** The caller of the session holds a right on a folder, or the store is the session's own. *)
Definition gate (s : S) (st : store) (fid need : Z) : Prop :=
  strict -> st_dir st = c_mailbox cf \/ exists rights, happened s (CResolvePermission st fid (c_owner cf)) (Ok rights) /\ has_rights rights need = true.
Definition may_send (s : S) (st : store) : Prop :=
  strict -> st_dir st = c_mailbox cf \/ exists ds, happened s (CGetDelegates st) (Ok ds) /\ existsb (fun d => EqualFold d (c_owner cf)) ds = true.
(** A message made in the session in a folder with the right to create, or one in a folder with the right to edit *)
Definition created_message (s : S) (st : store) (mid : Z) : Prop :=
  exists fid msg, gate s st fid FrightsCreate /\ happened s (CCreateMessage st fid msg) (Ok mid).
Definition opened_message (s : S) (st : store) (mid fid : Z) : Prop := happened s (CMessageFolder st mid) (Ok fid).
Definition msg_writable (s : S) (st : store) (mid : Z) : Prop :=
  (exists fid, opened_message s st mid fid /\ gate s st fid FrightsEditAny) \/ created_message s st mid.
Definition created_folder (s : S) (st : store) (fid : Z) : Prop :=
  exists parent name, gate s st parent FrightsCreateSubfolder
    /\ (happened s (CCreateFolder st parent name) (Ok fid) \/ happened s (CCreateSearchFolder st parent name) (Ok fid)).
(** A collector over a folder with the right to edit, and what it imports *)
Definition collector (s : S) (st : store) (up : Z) : Prop :=
  exists fid, gate s st fid FrightsEditAny /\ (happened s (CNewContentUpload st fid) (Ok up) \/ happened s (CNewHierarchyUpload st fid) (Ok up)).
Definition imported (s : S) (st : store) (um : Z) : Prop :=
  exists up flags header, collector s st up /\ happened s (CImportMessageChange up flags header) (Ok um).
Definition new_attachment (s : S) (st : store) (mid aid : Z) : Prop :=
  exists props num, happened s (CCreateAttachment st mid props) (Ok (aid, num)) /\ msg_writable s st mid.
(** A right on a folder, held through any open store of the same mailbox *)
Definition gate_dir (s : S) (st : store) (fid need : Z) : Prop := exists st', st_dir st' = st_dir st /\ gate s st' fid need.
(** Readable scope of a search *)
Definition readable (s : S) (st : store) (fid : Z) : Prop :=
  strict -> st_dir st = c_mailbox cf
  \/ exists rights, happened s (CResolvePermission st fid (c_owner cf)) (Ok rights) /\ Z.land rights (Z.lor FrightsOwner FrightsReadAny) <> 0.

(** A copy of a message for the wire names no blind-copy recipient. *)
Definition no_bcc (msg : Message) : Prop := Forall (fun r => is_bcc r = false) (ms_Recipients msg).

(** A right on some folder of the store *)
Definition somewhere (s : S) (st : store) (need : Z) : Prop := by_folder /\ exists fid, gate s st fid need.
(** Bytes rendered from a message without blind-copy recipients for the store it is in *)
Definition rendered (s : S) (st : store) (raw : bytes) : Prop :=
  exists msg o, no_bcc msg /\ happened s (CExport (Some st) msg o) (Ok raw).

(** When a call that changes the store or sends mail may be made, and what may be rendered for
    sending.  Reading is gated by the handlers themselves; taking ids and named-property ids of a
    store is open to whoever opened it. *)
Definition authorised (s : S) (c : call) : Prop :=
  match c with
  | CAppendMessage st fid _ _ _ => gate_dir s st fid FrightsCreate \/ (fid = PrivateFIDSentItems /\ may_send s st)
  | CDeleteMessage st fid _ => gate s st fid FrightsDeleteAny
  | CCreateMessage st fid _ => gate s st fid FrightsCreate
  | CModifyMessageProperties st mid _ _ => msg_writable s st mid
  | CSetMessageProperties st _ _ => somewhere s st FrightsEditAny
  | CSetMessageReadState st mid _ | CSendReceipt st mid _ =>
      (exists fid, opened_message s st mid fid /\ gate s st fid FrightsEditAny) \/ somewhere s st FrightsEditAny
  | CDeleteObject st mid =>
      created_message s st mid \/ exists um mid', imported s st um /\ happened s (CCommitUpload um) (Ok mid') /\ mid = i64 mid'
  | CSoftDeleteObject st _ => somewhere s st FrightsDeleteAny
  | CCreateAttachment st mid _ | CDeleteAttachment st mid _ => msg_writable s st mid
  | CSetAttachmentProperties st aid _ _ =>
      (exists mid, new_attachment s st mid aid)
      \/ exists mid fid num, opened_message s st mid fid /\ gate s st fid FrightsEditAny /\ happened s (CAttachmentIDByNumber st mid num) (Ok aid)
  | CCreateFolder st parent _ | CCreateSearchFolder st parent _ => gate s st parent FrightsCreateSubfolder
  | CSetFolderProperties st fid _ => created_folder s st fid
  | CModifyPermissions st fid _ _ => gate s st fid FrightsOwner \/ created_folder s st fid
  | CModifyRules st fid _ _ => gate s st fid FrightsOwner
  | CDeleteFolder st fid => gate s st fid FrightsOwner \/ somewhere s st FrightsDeleteAny
  | CRenameFolder st fid parent _ =>
      gate s st fid FrightsOwner /\ match parent with Some p => gate_dir s st p FrightsCreateSubfolder | None => True end
  | CCopyFolder st fid parent _ _ => gate s st fid FrightsReadAny /\ gate_dir s st parent FrightsCreateSubfolder
  | CSetReceiveFolder st _ _ => strict -> st_dir st = c_mailbox cf
  | CSetSearchCriteria st fid c => gate s st fid FrightsOwner /\ Forall (readable s st) (sc_Scope c)
  | CImportHierarchyChange up _ _ | CImportDeletes up _ | CImportReadStateChanges up _ | CImportMessageMove up _ _ _ | CImportMessageChange up _ _ =>
      exists st, collector s st up
  | CCommitUpload um => exists st, imported s st um
  | CPutBuffer mc _ => exists st um, imported s st um /\ happened s (CNewMessageCollector um) mc
  | CSendRenderings from _ plain _ rich => from = c_owner cf /\ exists st, may_send s st /\ rendered s st plain /\ rendered s st rich
  | CExport (Some _) msg _ | CICalExport _ msg => no_bcc msg
  | _ => True
  end.

(** ** The invariant *)

Definition kind_at (w : world S) (p : N) : option kind := kind_of <$> w_objs w !! p.
Definition natt_live (w : world S) (p : N) : Prop := is_Some (w_natts w !! p).
(** A store of another mailbox is guarded. *)
Definition store_ok (w : world S) (st : store) : Prop :=
  strict -> st_dir st <> c_mailbox cf -> s_delegateCallers (w_sess w) !! st_id st = Some (c_owner cf).

Definition table_ok (t : tableState) : Prop :=
  0 <= tb_cursor t <= total t
  /\ (match tb_view t with Some v => Forall (fun i => 0 <= i < baseCount t) v | None => True end)
  /\ (may_panic
      \/ (match tb_rows t with TPermission _ | TRules _ => False | _ => True end
          /\ match tb_restriction t with Some r => res_typed (resType r) (resValue r) = true | None => True end)).
Definition source_ok (src : option fastTransferSource) : Prop :=
  match src with Some (SrcState data off) => 0 <= off <= len data | _ => True end.

Definition obj_ok (w : world S) (o : object) : Prop :=
  let s := w_store w in
  match o with
  | OLogon st _ | OFolder st _ => store_ok w st
  | OTable st t => store_ok w st /\ table_ok t
  | OMessage st mid fid _ _ _ => store_ok w st /\ opened_message s st mid fid
  | OStream sm => 0 <= sm_pos sm <= sm_len sm /\ (sm_writable sm = true -> exists q, sm_parent sm = Some q /\ is_Some (kind_at w q))
  | OAttachment st _ aid _ parent =>
      store_ok w st
      /\ match parent with
         | Some q => exists mid fid num, kind_at w q = Some (KMessage st mid fid) /\ opened_message s st mid fid /\ happened s (CAttachmentIDByNumber st mid num) (Ok aid)
         | None => aid = 0
         end
  | ONewMessage st nm =>
      store_ok w st /\ gate s st (nm_folderID nm) FrightsCreate /\ Forall (natt_live w) (nm_attachments nm)
      /\ (nm_saved nm = true -> created_message s st (nm_savedID nm))
  | OSync st src _ up => store_ok w st /\ source_ok src /\ match up with Some up => collector s st up | None => True end
  | OUploadMessage st um => store_ok w st /\ imported s st um
  | OFastUpload st mc => store_ok w st /\ exists um, imported s st um /\ happened s (CNewMessageCollector um) mc
  | OAttachWrite st aw =>
      store_ok w st /\ match aw_inMem aw with Some q => natt_live w q | None => new_attachment s st (aw_messageID aw) (aw_attachmentID aw) end
  | OEmbedded st e =>
      store_ok w st
      /\ match em_writeback e with Some q => kind_at w q = Some KAttachWrite | None => True end
      /\ match em_parent e with Some q => exists st' aid r, kind_at w q = Some (KAttachment st' aid (Some r)) | None => True end
  | OSubscription st _ _ _ _ => store_ok w st
  end.

Record WF (w : world S) : Prop := {
  wf_handles : forall h p, s_handles (w_sess w) !! h = Some p -> is_Some (w_objs w !! p);
  wf_objs : forall p o, w_objs w !! p = Some o -> obj_ok w o;
  wf_fresh : forall p, (w_nobj w <= p)%N -> w_objs w !! p = None;
  wf_nfresh : forall p, (w_nnatt w <= p)%N -> w_natts w !! p = None;
  wf_in : bytes_ok (w_in w) = true;
  wf_low : may_panic \/ no_growth lower (w_in w);
  wf_log : log_ok (w_store w) }.

(** What a handler keeps of the world it started in *)
Record ext (w w' : world S) : Prop := {
  ext_kind : forall p k, kind_at w p = Some k -> kind_at w' p = Some k;
  ext_natt : forall p, natt_live w p -> natt_live w' p;
  ext_guard : strict -> forall i, s_delegateCallers (w_sess w) !! i = Some (c_owner cf) -> s_delegateCallers (w_sess w') !! i = Some (c_owner cf);
  ext_hist : forall c r, happened (w_store w) c r -> happened (w_store w') c r;
  ext_in : (length (w_in w') <= length (w_in w))%nat }.
#[export] Instance ext_refl : Reflexive ext.
Proof. intros w. by split. Qed.
#[export] Instance ext_trans : Transitive ext.
Proof. intros w1 w2 w3 E F. split; intros; [eapply F, E; done|by apply F, E|apply (ext_guard _ _ F); [done|]; by apply E|by apply F, E|]. pose proof (ext_in _ _ E). pose proof (ext_in _ _ F). lia. Qed.

Definition safe {A} (w : world S) (m : H S A) (Q : A -> world S -> Prop) : Prop :=
  match m w with
  | Val a w' => WF w' /\ ext w w' /\ Q a w'
  | Ret _ w' => WF w' /\ ext w w'
  | Panic => may_panic
  end.

(** ** Facts that survive *)

Section mono.
Context (w w' : world S) (E : ext w w').
Lemma gate_mono st fid need : gate (w_store w) st fid need -> gate (w_store w') st fid need.
Proof. intros G Hs. destruct (G Hs) as [|(r & Hr & Hh)]; [by left|right]. exists r. split; [by apply E|done]. Qed.
Lemma readable_mono st fid : readable (w_store w) st fid -> readable (w_store w') st fid.
Proof. intros G Hs. destruct (G Hs) as [|(r & Hr & Hh)]; [by left|right]. exists r. split; [by apply E|done]. Qed.
Lemma gate_dir_mono st fid need : gate_dir (w_store w) st fid need -> gate_dir (w_store w') st fid need.
Proof. intros (st' & Hd & G). exists st'. split; [done|by apply gate_mono]. Qed.
Lemma may_send_mono st : may_send (w_store w) st -> may_send (w_store w') st.
Proof. intros G Hs. destruct (G Hs) as [|(r & Hr & Hh)]; [by left|right]. exists r. split; [by apply E|done]. Qed.
Lemma rendered_mono st raw : rendered (w_store w) st raw -> rendered (w_store w') st raw.
Proof. intros (msg & o & Hn & Hh). exists msg, o. split; [done|by apply E]. Qed.
Lemma opened_mono st mid fid : opened_message (w_store w) st mid fid -> opened_message (w_store w') st mid fid.
Proof. apply E. Qed.
Lemma created_mono st mid : created_message (w_store w) st mid -> created_message (w_store w') st mid.
Proof. intros (fid & msg & G & Hh). exists fid, msg. split; [by apply gate_mono|by apply E]. Qed.
Lemma writable_mono st mid : msg_writable (w_store w) st mid -> msg_writable (w_store w') st mid.
Proof. intros [(fid & Ho & G)|C]; [left; exists fid; split; [by apply E|by apply gate_mono]|right; by apply created_mono]. Qed.
Lemma created_folder_mono st fid : created_folder (w_store w) st fid -> created_folder (w_store w') st fid.
Proof. intros (q & n & G & [Hh|Hh]); exists q, n; (split; [by apply gate_mono|]); [left|right]; by apply E. Qed.
Lemma collector_mono st up : collector (w_store w) st up -> collector (w_store w') st up.
Proof. intros (fid & G & [Hh|Hh]); exists fid; (split; [by apply gate_mono|]); [left|right]; by apply E. Qed.
Lemma imported_mono st um : imported (w_store w) st um -> imported (w_store w') st um.
Proof. intros (up & f & h & C & Hh). exists up, f, h. split; [by apply collector_mono|by apply E]. Qed.
Lemma new_attachment_mono st mid aid : new_attachment (w_store w) st mid aid -> new_attachment (w_store w') st mid aid.
Proof. intros (p & n & Hh & W). exists p, n. split; [by apply E|by apply writable_mono]. Qed.
Lemma store_ok_mono st : store_ok w st -> store_ok w' st.
Proof. intros G Hs Hd. apply (ext_guard _ _ E Hs). by apply G. Qed.
Lemma kind_live_mono p : is_Some (kind_at w p) -> is_Some (kind_at w' p).
Proof. intros [k Hk]. exists k. by apply E. Qed.
Lemma natts_mono l : Forall (natt_live w) l -> Forall (natt_live w') l.
Proof. apply Forall_impl, E. Qed.
Lemma obj_ok_mono o : obj_ok w o -> obj_ok w' o.
Proof.
  destruct o as [| |? t| |s|? ? ? ? [q|]|? nm|? ? ? [up|]| | |? aw|? e|]; unfold obj_ok; try by apply store_ok_mono.
  - intros [? ?]. split; [by apply store_ok_mono|done].
  - intros [? ?]. split; [by apply store_ok_mono|by apply E].
  - intros [? Hw]. split; [done|]. intros Ht. destruct (Hw Ht) as (q & ? & ?). exists q. split; [done|by apply kind_live_mono].
  - intros [? (mid & fid & num & ? & ? & ?)]. split; [by apply store_ok_mono|]. exists mid, fid, num. repeat split; by apply E.
  - intros [? ?]. split; [by apply store_ok_mono|done].
  - intros (? & ? & ? & Hs). repeat split; [by apply store_ok_mono|by apply gate_mono|by apply natts_mono|]. intros Ht. by apply created_mono, Hs.
  - intros (? & ? & ?). repeat split; [by apply store_ok_mono|done|by apply collector_mono].
  - intros (? & ? & ?). repeat split; [by apply store_ok_mono|done].
  - intros [? ?]. split; [by apply store_ok_mono|by apply imported_mono].
  - intros [? (um & ? & ?)]. split; [by apply store_ok_mono|]. exists um. split; [by apply imported_mono|by apply E].
  - intros [? Ha]. split; [by apply store_ok_mono|]. destruct (aw_inMem aw); [by apply E|by apply new_attachment_mono].
  - intros (? & Hw & Hp). repeat split; [by apply store_ok_mono| |].
    + destruct (em_writeback e); [by apply E|done].
    + destruct (em_parent e); [|done]. destruct Hp as (st' & aid & r & Hk). exists st', aid, r. by apply E.
Qed.
End mono.
End inv.
