(* ===== verification/RopRules.v ===== *)
(** * The ROP layer: the rules of a handler

    The laws that tie the history of [Policy] to the backend, the rule of each effect of the monad
    against the invariant [WF], and the tactic that runs through a handler. *)

From stdpp Require Import base list gmap numbers.
From Stdlib Require Import ZArith Lia.
From S2P Require Import Prelude Gostr Mapi Wire ExtVal ExtValTotal Permission RopTags RopBase RopProps RopMessage RopTable RopAttach RopStream RopMsgops RopFolder RopLogon RopSync RopNotify RopInv.
Open Scope Z_scope.
Open Scope wire_scope.

(** ** Reads take bytes from the front *)

Definition shrinks {A} (p : pull A) : Prop := forall b a rest, p b = Ok (a, rest) -> exists q, b = q ++ rest.
Create HintDb shrinks.

Lemma safe_shrinks {A} (Q : A -> Prop) (p : pull A) : (forall m, ExtValTotal.safe 0 m Q p) -> shrinks p.
Proof. intros Hs b a rest E. specialize (Hs (length b) b ltac:(lia)). rewrite E in Hs. destruct Hs as (_ & q & -> & _). by exists q. Qed.
Lemma shrinks_ret {A} (a : A) : shrinks (pull_ret a).
Proof. intros b x rest [= _ <-]. by exists []. Qed.
Lemma shrinks_err {A} e : shrinks (pull_err (A := A) e).
Proof. by intros b x rest E. Qed.
Lemma shrinks_bind {A B} (p : pull A) (k : A -> pull B) : shrinks p -> (forall a, shrinks (k a)) -> shrinks (x <- p ;; k x).
Proof. intros Hp Hk b y rest E. unfold pull_bind in E. destruct (p b) as [[a b']|] eqn:Ep; [|done]. apply Hp in Ep as [q ->]. apply Hk in E as [q' ->]. exists (q ++ q'). by rewrite app_assoc. Qed.
Lemma shrinks_Raw n : shrinks (pull_Raw n).
Proof. apply (safe_shrinks any_result). intros m. apply safe_raw0. Qed.
Lemma shrinks_times {A} n (p : pull A) : shrinks p -> shrinks (pull_times n p).
Proof. intros Hp. induction n as [|n IH]; simpl; [apply shrinks_ret|]. apply shrinks_bind; [done|]. intros a. apply shrinks_bind; [done|]. intros. apply shrinks_ret. Qed.
Lemma shrinks_elems {A} n (p : pull A) : shrinks p -> shrinks (pull_elems n p).
Proof. intros Hp. apply shrinks_bind; [apply (safe_shrinks any_result); intros; apply safe_check|]. intros _. by apply shrinks_times. Qed.
Lemma shrinks_elems_nil {A} n (p : pull A) : shrinks p -> shrinks (pull_elems_nil n p).
Proof. intros Hp. unfold pull_elems_nil. destruct (n =? 0); [apply shrinks_ret|by apply shrinks_elems]. Qed.
Lemma shrinks_string8 : shrinks pull_String8.
Proof. apply (safe_shrinks any_result). intros m. apply safe_string8. Qed.
Lemma shrinks_unicode f : shrinks (pull_Unicode f).
Proof. apply (safe_shrinks any_result). intros m. apply safe_unicode. Qed.
Lemma shrinks_guid : shrinks pull_GUID.
Proof. apply (safe_shrinks any_result). intros m. apply safe_guid. Qed.
Lemma shrinks_name f : shrinks (pull_PropertyName f).
Proof.
  unfold pull_PropertyName. apply shrinks_bind; [apply shrinks_bind; [apply shrinks_Raw|intros; apply shrinks_ret]|]. intros kd.
  apply shrinks_bind; [apply shrinks_guid|]. intros g. destruct (kd =? MnidID).
  { apply shrinks_bind; [apply shrinks_bind; [apply shrinks_Raw|intros; apply shrinks_ret]|]. intros. apply shrinks_ret. }
  destruct (kd =? MnidString); [|apply shrinks_ret].
  apply shrinks_bind; [apply shrinks_bind; [apply shrinks_Raw|intros; apply shrinks_ret]|]. intros n. destruct (n <? 1); [apply shrinks_err|].
  apply shrinks_bind; [|intros; apply shrinks_ret]. intros b a rest. unfold pull_bracketed_name.
  destruct (len b <? n); [done|]. destruct (pull_Unicode f b) as [[s r]|]; [|done]. destruct (n <? len b - len r); [done|].
  intros [= _ <-]. exists (take (Z.to_nat n) b). by rewrite take_drop.
Qed.
Lemma safe_fuel_shrinks {A} d (Q : A -> Prop) (r : nat -> pull A) : (forall n, ExtValTotal.safe d n Q (r (S n))) -> shrinks (with_fuel r).
Proof. intros Hs b a rest E. specialize (Hs (length b) b ltac:(lia)). unfold with_fuel in E. rewrite E in Hs. destruct Hs as (_ & q & -> & _). by exists q. Qed.
Lemma shrinks_values f : shrinks (pull_PropertyValues f).
Proof.
  apply (safe_fuel_shrinks 2 (Forall (fun tp => within 0 0 (tpValue tp)))). intros n. eapply safe_bind0; [apply safe_u16|]. intros c _ _.
  apply safe_elems. eapply safe_mono; [eapply safe_zero, safe_tagged_entry|lia].
Qed.
Lemma shrinks_value f t : shrinks (pull_PropValue f t).
Proof. apply (safe_fuel_shrinks 0 (within 0 0)). intros n. apply safe_value_entry. Qed.
Lemma shrinks_region {A} n (p : pull A) : shrinks (pull_region n p).
Proof.
  apply shrinks_bind; [apply shrinks_Raw|]. intros body b a rest. destruct (p body) as [[x y]|]; [|done]. intros [= _ <-]. by exists [].
Qed.
#[export] Hint Resolve shrinks_ret shrinks_err shrinks_Raw shrinks_times shrinks_elems shrinks_elems_nil shrinks_string8 shrinks_unicode
  shrinks_guid shrinks_name shrinks_values shrinks_value shrinks_region : shrinks.
(** Through the binds and the conditions of a reader *)
Ltac shrink :=
  repeat lazymatch goal with
    | |- shrinks (pull_bind _ _) => apply shrinks_bind; [|intros]
    | |- shrinks (pull_times _ _) => apply shrinks_times
    | |- shrinks (pull_elems _ _) => apply shrinks_elems
    | |- shrinks (pull_elems_nil _ _) => apply shrinks_elems_nil
    | |- shrinks (if ?b then _ else _) => destruct b
    | |- shrinks (match ?x with _ => _ end) => destruct x
    | |- shrinks ?p => first [ solve [auto with shrinks] | let h := get_head p in unfold h ]
    end.

(** ** The backend and the history *)

(** What the handlers rely on in a reply *)
Definition answers {S cf} {P : Policy S cf} (c : call) : reply c -> Prop :=
  match c return reply c -> Prop with
  | COpen dir => fun r => match r with Ok st => strict -> st_dir st = dir | Err _ => True end
  | CFolderComputedProps _ _ => fun r =>
      match r with Ok pv => may_panic \/ match pv_Get pv PrParentFolderID with None | Some (AInt64 _) => True | Some _ => False end | Err _ => True end
  | _ => fun _ => True
  end.
Class Lawful {S cf} (P : Policy S cf) `{Backend S} (L : libs) : Prop := {
  happened_exec : forall c s s' r, exec c s = (s', r) -> happened s' c r;
  happened_mono : forall c s s' r c' r', exec c s = (s', r) -> happened s c' r' -> happened s' c' r';
  log_ok_exec : forall c s s' r, log_ok s -> authorised s c -> exec c s = (s', r) -> log_ok s';
  answers_exec : forall c s s' r, exec c s = (s', r) -> answers c r;
  lower_lib : lb_ToLower L = lower;
  lower_nil : lower [] = [] }.

Section rules.
Context {S : Type} {cf : config} {P : Policy S cf} `{B : Backend S} {L : libs} {Law : Lawful P L}.
Implicit Types w : world S.

(** ** The structure of a handler *)

Lemma safe_ret {A} w (a : A) (Q : A -> world S -> Prop) : WF w -> Q a w -> safe w (mret a) Q.
Proof. done. Qed.
Lemma safe_bind {A C} w (m : H S A) (k : A -> H S C) Q R :
  safe w m Q -> (forall a w', WF w' -> ext w w' -> Q a w' -> safe w' (k a) R) -> safe w (m ≫= k) R.
Proof.
  unfold safe, mbind, H_bind. intros Hm Hk. destruct (m w) as [a w'|b w'|]; [|done|done].
  destruct Hm as (W & E & HQ). specialize (Hk a w' W E HQ). destruct (k a w') as [c w''|b w''|]; [|destruct Hk..|done].
  - destruct Hk as (W' & E' & HR). split_and!; [done|by etrans|done].
  - split; [done|by etrans].
Qed.
Lemma safe_weaken {A} w (m : H S A) (Q R : A -> world S -> Prop) : safe w m Q -> (forall a w', WF w' -> ext w w' -> Q a w' -> R a w') -> safe w m R.
Proof. unfold safe. intros Hm HQ. destruct (m w); [|done|done]. destruct Hm as (W & E & HA). split_and!; [done|done|by apply HQ]. Qed.
Lemma safe_bind_ok {A C} w (m : H S (serrable A)) (k : A -> H S (serrable C)) (Q : serrable A -> world S -> Prop) (R : serrable C -> world S -> Prop) :
  safe w m Q -> (forall a w', WF w' -> ext w w' -> Q (Ok a) w' -> safe w' (k a) R) -> (forall e w', R (Err e) w') -> safe w (bind_ok m k) R.
Proof. intros Hm Hk He. eapply safe_bind; [done|]. intros [a|e] w' W E HQ; [by apply Hk|]. by apply safe_ret. Qed.
Lemma safe_panic {A} w Q : may_panic -> safe w (panic (A := A)) Q.
Proof. done. Qed.
Lemma safe_ret_now {A} w b Q : WF w -> safe w (ret_now (A := A) b) Q.
Proof. intros W. split; [done|reflexivity]. Qed.

(** *** Changes that leave the objects and the rights alone *)
Lemma inert_safe {A} (m : H S A) w (a : A) w' (Q : A -> world S -> Prop) :
  m w = Val a w' -> WF w -> w_sess w' = w_sess w -> w_objs w' = w_objs w -> w_nobj w' = w_nobj w -> w_natts w' = w_natts w -> w_nnatt w' = w_nnatt w ->
  w_store w' = w_store w -> (exists q, w_in w = q ++ w_in w') -> (WF w' -> Q a w') -> safe w m Q.
Proof.
  intros Ev W Es Eo En Ea Em Et Hi HQ.
  assert (E : ext w w') by (split; unfold kind_at, natt_live; rewrite ?Es, ?Eo, ?Ea, ?Et; try done; destruct Hi as [q ->]; rewrite length_app; lia).
  assert (W' : WF w').
  { destruct W. split; rewrite ?Es, ?Eo, ?En, ?Ea, ?Em, ?Et; try done;
      [|destruct Hi as [q Hq]; rewrite Hq, bytes_ok_app in wf_in; by apply andb_true_iff in wf_in as []
       |destruct Hi as [q Hq], wf_low as [|Hg]; [by left|right]; rewrite Hq in Hg; by apply no_growth_suffix in Hg]. intros p o Ho. eapply obj_ok_mono; [done|by eapply wf_objs]. }
  unfold safe. rewrite Ev. split_and!; [done|done|by apply HQ].
Qed.
Lemma safe_emit w p (Q : unit -> world S -> Prop) : WF w -> (forall w', Q tt w') -> safe w (emit p) Q.
Proof. intros W HQ. eapply inert_safe; [reflexivity|done|destruct (p (w_out w)); by try (exists [])..|by intros]. Qed.
Lemma safe_fail {A} w r i ec (Q : A -> world S -> Prop) : WF w -> safe w (fail r i ec) Q.
Proof. intros W. eapply (safe_bind _ _ _ (fun _ _ => True)); [by apply safe_emit|]. intros. by apply safe_ret_now. Qed.
Lemma safe_or_fail {A} w r i ec (x : serrable A) (Q : A -> world S -> Prop) : WF w -> (forall a, x = Ok a -> Q a w) -> safe w (or_fail r i ec x) Q.
Proof. intros W HQ. destruct x; [by apply safe_ret, HQ|by apply safe_fail]. Qed.
Lemma safe_or_not_found {A} w r i (x : serrable A) (Q : A -> world S -> Prop) : WF w -> (forall a, x = Ok a -> Q a w) -> safe w (or_not_found r i x) Q.
Proof. intros W HQ. destruct x; [by apply safe_ret, HQ|by apply safe_fail]. Qed.
(** A value the reader gives on some bytes *)
Definition read_by {A} (p : pull A) (a : A) : Prop := exists b rest, bytes_ok b = true /\ (may_panic \/ no_growth lower b) /\ p b = Ok (a, rest).
Lemma read_bind {A C} (p : pull A) (k : A -> pull C) c : shrinks p -> read_by (x <- p ;; k x) c -> exists x, read_by p x /\ read_by (k x) c.
Proof.
  intros Hp (b & rest & Hb & Hg & E). unfold pull_bind in E. destruct (p b) as [[x b']|] eqn:Ep; [|done]. exists x. split; [by exists b, b'|].
  exists b', rest. destruct (Hp _ _ _ Ep) as [q ->]. rewrite bytes_ok_app in Hb. apply andb_true_iff in Hb as [_ Hb].
  split_and!; [done| |done]. destruct Hg as [|Hg]; [by left|right]. by apply no_growth_suffix in Hg.
Qed.
Lemma read_ret {A} (x a : A) : read_by (pull_ret x) a -> a = x.
Proof. intros (b & rest & _ & _ & [= -> _]). done. Qed.
Lemma read_uint n a : read_by (b <- pull_Raw n ;; pull_ret (le_value b)) a -> 0 <= a < 2 ^ (8 * n) \/ n < 0.
Proof.
  intros Hr. apply read_bind in Hr as (x & (b & rest & Hb & _ & E) & ->%read_ret); [|apply shrinks_Raw].
  unfold pull_Raw in E. destruct (n <? 0) eqn:En; [right; lia|left]. destruct (len b <? n) eqn:El; [done|]. cbn in E. injection E as <- _.
  assert (Ht : bytes_ok (take (Z.to_nat n) b) = true) by (rewrite bytes_ok_Forall in *; by apply Forall_take).
  apply le_value_bound in Ht. replace (len (take (Z.to_nat n) b)) with n in Ht; [done|]. unfold len in *. rewrite length_take. lia.
Qed.
Lemma read_Uint16 a : read_by pull_Uint16 a -> 0 <= a < 2 ^ 16.
Proof. intros Hr. apply (read_uint 2) in Hr. lia. Qed.
Lemma read_Uint32 a : read_by pull_Uint32 a -> 0 <= a < 2 ^ 32.
Proof. intros Hr. apply (read_uint 4) in Hr. lia. Qed.
Lemma read_Uint64 a : read_by pull_Uint64 a -> 0 <= a < 2 ^ 64.
Proof. intros Hr. apply (read_uint 8) in Hr. lia. Qed.
Lemma safe_pull {A} w (p : pull A) (Q : A -> world S -> Prop) : WF w -> shrinks p -> (forall a w', read_by p a -> Q a w') -> safe w (pull_req p) Q.
Proof.
  intros W Hp HQ. unfold safe, pull_req. destruct (p (w_in w)) as [[a rest]|] eqn:E; [|split; [done|reflexivity]].
  apply (inert_safe (fun _ => Val a (set_in rest w)) w a (set_in rest w) Q); try done; [by apply (Hp _ _ _ E)|]. intros _. apply HQ. exists (w_in w), rest. by destruct W.
Qed.
Lemma safe_setHandle w i h (Q : unit -> world S -> Prop) : WF w -> (forall w', Q tt w') -> safe w (setHandle i h) Q.
Proof. intros W HQ. eapply inert_safe; by try (exists []). Qed.
Lemma safe_new_arr w b (Q : N -> world S -> Prop) : WF w -> (forall a w', Q a w') -> safe w (new_arr b) Q.
Proof. intros W HQ. eapply inert_safe; by try (exists []). Qed.
Lemma safe_assign_arr w p b (Q : unit -> world S -> Prop) : WF w -> (forall w', Q tt w') -> safe w (assign_arr p b) Q.
Proof. intros W HQ. eapply inert_safe; by try (exists []). Qed.
Lemma safe_read_arr w p n (Q : bytes -> world S -> Prop) : WF w -> (forall a, Q a w) -> safe w (read_arr p n) Q.
Proof. intros W HQ. eapply inert_safe; by try (exists []). Qed.
Lemma safe_world w (Q : world S -> world S -> Prop) : WF w -> Q w w -> safe w world_get Q.
Proof. intros W HQ. eapply inert_safe; by try (exists []). Qed.
Lemma safe_sess w (Q : Session -> world S -> Prop) : WF w -> Q (w_sess w) w -> safe w sess Q.
Proof. intros W HQ. eapply inert_safe; by try (exists []). Qed.
Lemma safe_values w b (Q : PropertyValues -> world S -> Prop) : WF w -> (forall a, Q a w) -> safe w (values b) Q.
Proof. intros W HQ. eapply inert_safe; by try (exists []). Qed.
Lemma safe_valuess w b (Q : list PropertyValues -> world S -> Prop) : WF w -> (forall a, Q a w) -> safe w (valuess b) Q.
Proof. intros W HQ. eapply inert_safe; by try (exists []). Qed.

(** *** Loops *)
Lemma safe_each {A C} w (f : A -> H S C) (R : C -> Prop) l :
  WF w -> (forall a w', a ∈ l -> WF w' -> ext w w' -> safe w' (f a) (fun c _ => R c)) -> safe w (each f l) (fun cs _ => Forall R cs).
Proof.
  revert w. induction l as [|a l IH]; intros w W Hf; cbn [each]; [by apply safe_ret|].
  eapply safe_bind; [apply Hf; [left|done|reflexivity]|]. intros c w1 W1 E1 Hc.
  eapply safe_bind; [apply IH; [done|]|].
  - intros b w2 Hb W2 E2. apply Hf; [by right|done|by etrans].
  - intros cs w3 W3 E3 Hcs. apply safe_ret; [done|by constructor].
Qed.
Lemma safe_each_ {A} w (f : A -> H S unit) l :
  WF w -> (forall a w', a ∈ l -> WF w' -> ext w w' -> safe w' (f a) (fun _ _ => True)) -> safe w (each_ f l) (fun _ _ => True).
Proof.
  revert w. induction l as [|a l IH]; intros w W Hf; cbn [each_]; [by apply safe_ret|].
  eapply safe_bind; [apply Hf; [left|done|reflexivity]|]. intros c w1 W1 E1 Hc.
  apply IH; [done|]. intros b w2 Hb W2 E2. apply Hf; [by right|done|by etrans].
Qed.

(** ** Calls *)

Lemma safe_ask w c (Q : reply c -> world S -> Prop) :
  WF w -> authorised (w_store w) c -> (forall r w', happened (w_store w') c r -> answers c r -> Q r w') -> safe w (ask c) Q.
Proof.
  intros W Ha HQ. unfold safe, ask. destruct (exec c (w_store w)) as [s r] eqn:Ex.
  assert (E : ext w (set_store s w)) by (split; cbn; try done; intros; by eapply happened_mono).
  split_and!; [|done|].
  - destruct W. split; cbn; try done; [|by eapply log_ok_exec]. intros p o Ho. eapply obj_ok_mono; [done|by eapply wf_objs].
  - apply HQ; [by eapply happened_exec|by eapply answers_exec].
Qed.

(** ** The heap *)

Lemma kind_at_lookup w p o : w_objs w !! p = Some o -> kind_at w p = Some (kind_of o).
Proof. unfold kind_at. by intros ->. Qed.
(** What is known of an object that was reached *)
Definition known w (p : N) (o : object) : Prop := kind_at w p = Some (kind_of o) /\ obj_ok w o.
Lemma known_mono w w' p o : ext w w' -> known w p o -> known w' p o.
Proof. intros E [Hk Ho]. split; [by apply E|by eapply obj_ok_mono]. Qed.

Lemma safe_deref w p (Q : object -> world S -> Prop) : WF w -> is_Some (kind_at w p) -> (forall o, known w p o -> Q o w) -> safe w (deref p) Q.
Proof.
  intros W [k Hk] HQ. unfold safe, deref. unfold kind_at in Hk. destruct (w_objs w !! p) as [o|] eqn:Eo; [|done].
  split_and!; [done|reflexivity|]. apply HQ. split; [by apply kind_at_lookup|by eapply wf_objs].
Qed.
Lemma safe_at_slot w i (Q : option (N * object) -> world S -> Prop) :
  WF w -> (forall p o, known w p o -> Q (Some (p, o)) w) -> Q None w -> safe w (at_slot i) Q.
Proof.
  intros W HQ HN. unfold safe, at_slot. destruct (s_handles (w_sess w) !! _) as [p|] eqn:Eh; [|split_and!; [done|reflexivity|done]].
  destruct (wf_handles _ W _ _ Eh) as [o Eo]. rewrite Eo. split_and!; [done|reflexivity|]. apply HQ. split; [by apply kind_at_lookup|by eapply wf_objs].
Qed.
Lemma safe_get w h (Q : option N -> world S -> Prop) : WF w -> (forall p, is_Some (kind_at w p) -> Q (Some p) w) -> Q None w -> safe w (get h) Q.
Proof.
  intros W HQ HN. unfold safe, get. split_and!; [done|reflexivity|]. destruct (s_handles (w_sess w) !! h) as [p|] eqn:Eh; [|done].
  apply HQ. destruct (wf_handles _ W _ _ Eh) as [o Eo]. exists (kind_of o). by apply kind_at_lookup.
Qed.

Lemma objs_safe w p o n :
  WF w -> obj_ok w o -> (n = w_nobj w /\ kind_at w p = Some (kind_of o) \/ p = w_nobj w /\ n = (w_nobj w + 1)%N) ->
  let w' := set_objs (<[p := o]> (w_objs w)) n w in WF w' /\ ext w w' /\ kind_at w' p = Some (kind_of o).
Proof.
  intros W Ho Hp w'.
  assert (Hlow : forall q, (w_nobj w <= q)%N -> w_objs w !! q = None) by apply W.
  assert (Hk : kind_at w' p = Some (kind_of o)) by (unfold kind_at; cbn; by rewrite lookup_insert_eq).
  assert (E : ext w w').
  { split; try done. intros q k Hq. destruct (decide (q = p)) as [->|Hne]; [|unfold kind_at in *; cbn; by rewrite lookup_insert_ne].
    rewrite Hk. destruct Hp as [[_ Hp]|[-> _]]; [congruence|]. unfold kind_at in Hq. by rewrite Hlow in Hq. }
  split_and!; [|done|done]. destruct W. split; cbn; try done.
  - intros h q Hq. rewrite lookup_insert. case_decide; [done|by eapply wf_handles].
  - intros q o' Hq. eapply obj_ok_mono; [done|]. rewrite lookup_insert in Hq. case_decide; [by simplify_eq|by eapply wf_objs].
  - intros q Hq. rewrite lookup_insert_ne; [apply Hlow; destruct Hp as [[-> _]|[_ ->]]; lia|]. intros ->.
    destruct Hp as [[-> Hp]|[-> ->]]; [|lia]. unfold kind_at in Hp. by rewrite Hlow in Hp.
Qed.
Lemma safe_assign w p o (Q : unit -> world S -> Prop) :
  WF w -> kind_at w p = Some (kind_of o) -> obj_ok w o -> (forall w', Q tt w') -> safe w (assign p o) Q.
Proof. intros W Hk Ho HQ. destruct (objs_safe w p o (w_nobj w) W Ho) as (W' & E & _); [by left|]. by split_and!. Qed.
Lemma safe_new_object w o (Q : N -> world S -> Prop) : WF w -> obj_ok w o -> (forall p w', is_Some (kind_at w' p) -> Q p w') -> safe w (new_object o) Q.
Proof.
  intros W Ho HQ. destruct (objs_safe w (w_nobj w) o (w_nobj w + 1)%N W Ho) as (W' & E & Hk); [by right|]. split_and!; [done|done|].
  apply HQ. by eexists.
Qed.
Lemma safe_alloc w o (Q : Z -> world S -> Prop) : WF w -> obj_ok w o -> (forall h w', Q h w') -> safe w (alloc o) Q.
Proof.
  intros W Ho HQ. eapply safe_bind; [by apply safe_new_object with (Q := fun p w' => is_Some (kind_at w' p))|].
  intros p w' W' E [k Hk]. unfold safe, alloc_ref. cbn.
  set (w'' := set_sess _ w'). assert (E' : ext w' w'') by by split. split_and!; [|done|done].
  destruct W'. split; cbn; try done.
  intros h q. rewrite lookup_insert. case_decide; [|apply wf_handles]. intros [= <-]. unfold kind_at in Hk. destruct (w_objs w' !! p); [by eexists|done].
Qed.

Lemma natts_safe w p a n :
  WF w -> (n = w_nnatt w /\ natt_live w p \/ p = w_nnatt w /\ n = (w_nnatt w + 1)%N) ->
  let w' := set_natts (<[p := a]> (w_natts w)) n w in WF w' /\ ext w w' /\ natt_live w' p.
Proof.
  intros W Hp w'. assert (Hlow : forall q, (w_nnatt w <= q)%N -> w_natts w !! q = None) by apply W.
  assert (Hl : natt_live w' p) by (unfold natt_live; cbn; by rewrite lookup_insert_eq).
  assert (E : ext w w').
  { split; try done. intros q Hq. destruct (decide (q = p)) as [->|Hne]; [done|]. unfold natt_live in *; cbn. by rewrite lookup_insert_ne. }
  split_and!; [|done|done]. destruct W. split; cbn; try done; [by intros; eapply obj_ok_mono, wf_objs|].
  intros q Hq. rewrite lookup_insert_ne; [apply Hlow; destruct Hp as [[-> _]|[_ ->]]; lia|]. intros ->.
  destruct Hp as [[-> [x Hp]]|[-> ->]]; [|lia]. by rewrite Hlow in Hp.
Qed.
Lemma safe_new_natt w a (Q : N -> world S -> Prop) : WF w -> (forall p w', natt_live w' p -> Q p w') -> safe w (new_natt a) Q.
Proof. intros W HQ. destruct (natts_safe w (w_nnatt w) a (w_nnatt w + 1)%N W) as (W' & E & Hl); [by right|]. split_and!; [done|done|by apply HQ]. Qed.
Lemma safe_assign_natt w p a (Q : unit -> world S -> Prop) : WF w -> natt_live w p -> (forall w', Q tt w') -> safe w (assign_natt p a) Q.
Proof. intros W Hl HQ. destruct (natts_safe w p a (w_nnatt w) W) as (W' & E & _); [by left|]. by split_and!. Qed.
Lemma safe_deref_natt w p (Q : newAttachment -> world S -> Prop) : WF w -> natt_live w p -> (forall a, Q a w) -> safe w (deref_natt p) Q.
Proof. intros W [a Ha] HQ. unfold safe, deref_natt. rewrite Ha. split_and!; [done|reflexivity|done]. Qed.

(** ** The session *)

Lemma sess_safe {A} (m : H S A) w (a : A) s (Q : A -> world S -> Prop) :
  m w = Val a (set_sess s w) -> WF w -> (forall h p, s_handles s !! h = Some p -> is_Some (w_objs w !! p)) ->
  (strict -> forall i, s_delegateCallers (w_sess w) !! i = Some (c_owner cf) -> s_delegateCallers s !! i = Some (c_owner cf)) ->
  (WF (set_sess s w) -> Q a (set_sess s w)) -> safe w m Q.
Proof.
  intros Ev W Hh Hd HQ. assert (E : ext w (set_sess s w)) by by split.
  assert (W' : WF (set_sess s w)). { destruct W. split; cbn; try done. intros. by eapply obj_ok_mono, wf_objs. }
  unfold safe. rewrite Ev. split_and!; [done|done|by apply HQ].
Qed.

(** ** Rights *)

Lemma dir_cases st w : store_ok w st -> strict -> st_dir st = c_mailbox cf \/ s_delegateCallers (w_sess w) !! st_id st = Some (c_owner cf).
Proof. intros Hs Ht. destruct (decide (st_dir st = c_mailbox cf)); [by left|right; by apply Hs]. Qed.
Lemma gate_own (s : S) st fid need : (strict -> st_dir st = c_mailbox cf) -> gate s st fid need.
Proof. intros Hd Hs. left. by apply Hd. Qed.

Lemma safe_authorize w st fid need :
  WF w -> store_ok w st -> safe w (authorize st fid need) (fun r w' => r = Ok true -> gate (w_store w') st fid need).
Proof.
  intros W Hs. eapply (safe_bind _ _ _ (fun s w' => s = w_sess w' /\ store_ok w' st)); [by apply safe_sess|].
  intros s w1 W1 E1 [-> Hs1]. destruct (s_delegateCallers (w_sess w1) !! st_id st) as [u|] eqn:Eu.
  - eapply (safe_bind _ _ _ (fun r w' => happened (w_store w') (CResolvePermission st fid u) r)); [by apply safe_ask|].
    intros [rights|] w2 W2 E2 Hh; apply safe_ret; try done. intros [= Hr] Ht.
    destruct (dir_cases _ _ Hs1 Ht) as [|Hu]; [by left|right]. simplify_eq. by exists rights.
  - apply safe_ret; [done|]. intros _ Ht. destruct (dir_cases _ _ Hs1 Ht); [by left|congruence].
Qed.
Lemma safe_denyWrite w r i st fid need (Q : unit -> world S -> Prop) :
  WF w -> store_ok w st -> (forall w', gate (w_store w') st fid need -> Q tt w') -> safe w (denyWrite r i st fid need) Q.
Proof.
  intros W Hs HQ. eapply safe_bind; [by apply safe_authorize|]. intros [[]|] w' W' E Hg; [apply safe_ret; [done|by apply HQ, Hg]|by apply safe_fail..].
Qed.
Lemma safe_denyDelegate w r i st (Q : unit -> world S -> Prop) :
  WF w -> store_ok w st -> (forall w', (strict -> st_dir st = c_mailbox cf) -> Q tt w') -> safe w (denyDelegate r i st) Q.
Proof.
  intros W Hs HQ. eapply (safe_bind _ _ _ (fun s w' => s = w_sess w' /\ store_ok w' st)); [by apply safe_sess|].
  intros s w1 W1 E1 [-> Hs1]. destruct (s_delegateCallers (w_sess w1) !! st_id st) as [u|] eqn:Eu; [by apply safe_fail|].
  apply safe_ret; [done|]. apply HQ. intros Ht. destruct (dir_cases _ _ Hs1 Ht); [done|congruence].
Qed.
Lemma safe_sendIdentity w st :
  WF w -> store_ok w st -> safe w (delegateSendIdentity cf st) (fun r w' => forall i, r = Ok (Some i) -> may_send (w_store w') st).
Proof.
  intros W Hs. eapply (safe_bind _ _ _ (fun s w' => s = w_sess w' /\ store_ok w' st)); [by apply safe_sess|].
  intros s w1 W1 E1 [-> Hs1]. destruct (s_delegateCallers (w_sess w1) !! st_id st) as [u|] eqn:Eu.
  - eapply (safe_bind _ _ _ (fun r w' => r = Ok true -> may_send (w_store w') st)).
    + eapply (safe_bind _ _ _ (fun r w' => happened (w_store w') (CGetDelegates st) r)); [by apply safe_ask|].
      intros [ds|] w2 W2 E2 Hh; apply safe_ret; try done. intros [= Hr] Ht. right. by exists ds.
    + intros [[]|] w2 W2 E2 Hm; apply safe_ret; try done. intros i _. by apply Hm.
  - apply safe_ret; [done|]. intros _ _ Ht. destruct (dir_cases _ _ Hs1 Ht); [by left|congruence].
Qed.
End rules.

(** ** The rules as steps of a proof *)

Section steps.
Context {S : Type} {cf : config} {P : Policy S cf} `{B : Backend S} {L : libs} {Law : Lawful P L}.
Implicit Types w : world S.

(** A computation that reads and keeps everything, whatever the world *)
Class Quiet {A} (m : H S A) : Prop := quiet : forall w, WF w -> safe w m (fun _ _ => True).
Lemma step_quiet {A C} w (m : H S A) (k : A -> H S C) R :
  Quiet m -> WF w -> (forall a w', WF w' -> ext w w' -> safe w' (k a) R) -> safe w (m ≫= k) R.
Proof. intros Hm W Hk. eapply safe_bind; [by apply Hm|]. intros. by apply Hk. Qed.
Lemma step_true {C} w (m : H S unit) (k : unit -> H S C) R :
  safe w m (fun _ _ => True) -> (forall a w', WF w' -> ext w w' -> safe w' (k a) R) -> safe w (m ≫= k) R.
Proof. intros Hm Hk. eapply safe_bind; [done|]. intros. by apply Hk. Qed.
Lemma step_ret {A C} w (a : A) (k : A -> H S C) R : safe w (k a) R -> safe w (mret a ≫= k) R.
Proof. done. Qed.
Lemma step_assoc {A C D} w (m : H S A) (k : A -> H S C) (k' : C -> H S D) R :
  safe w (m ≫= (fun a => k a ≫= k')) R -> safe w ((m ≫= k) ≫= k') R.
Proof. unfold safe, mbind, H_bind. by destruct (m w). Qed.
Lemma step_tail {A} w (m : H S A) R : safe w (m ≫= mret) R -> safe w m R.
Proof. unfold safe, mbind, H_bind. by destruct (m w). Qed.
Lemma step_fail {A C} w r i ec (k : A -> H S C) R : WF w -> safe w (fail r i ec ≫= k) R.
Proof. intros W. eapply (safe_bind _ _ _ (fun _ _ => False)); [by apply safe_fail|done]. Qed.
Lemma step_ret_now {A C} w b (k : A -> H S C) R : WF w -> safe w (ret_now b ≫= k) R.
Proof. intros W. eapply (safe_bind _ _ _ (fun _ _ => False)); [by apply safe_ret_now|done]. Qed.
Lemma step_panic {A C} w (k : A -> H S C) R : may_panic -> safe w (panic ≫= k) R.
Proof. done. Qed.
Lemma step_ask {C} w c (k : reply c -> H S C) R :
  WF w -> authorised (w_store w) c ->
  (forall r w', WF w' -> ext w w' -> happened (w_store w') c r -> answers c r -> safe w' (k r) R) -> safe w (ask c ≫= k) R.
Proof.
  intros W Ha Hk. eapply (safe_bind _ _ _ (fun r w' => happened (w_store w') c r /\ answers c r)); [by apply safe_ask|].
  intros r w' W' E [Hh Hr]. by apply Hk.
Qed.
Lemma step_pull {A C} w (p : pull A) (k : A -> H S C) R :
  WF w -> shrinks p -> (forall a w', WF w' -> ext w w' -> read_by p a -> safe w' (k a) R) -> safe w (pull_req p ≫= k) R.
Proof. intros W Hp Hk. eapply (safe_bind _ _ _ (fun a _ => read_by p a)); [by apply safe_pull|]. intros. by apply Hk. Qed.
Lemma step_slot {C} w i (k : option (N * object) -> H S C) R :
  WF w -> (forall r w', WF w' -> ext w w' -> match r with Some (p, o) => known w' p o | None => True end -> safe w' (k r) R) -> safe w (at_slot i ≫= k) R.
Proof. intros W Hk. eapply safe_bind; [by apply (safe_at_slot w i (fun r w' => match r with Some (p, o) => known w' p o | None => True end))|]. intros. by apply Hk. Qed.
Lemma step_deref {C} w p (k : object -> H S C) R :
  WF w -> is_Some (kind_at w p) -> (forall o w', WF w' -> ext w w' -> known w' p o -> safe w' (k o) R) -> safe w (deref p ≫= k) R.
Proof. intros W Hp Hk. eapply safe_bind; [by apply (safe_deref w p (fun o w' => known w' p o))|]. intros. by apply Hk. Qed.
Lemma step_denyWrite {C} w r i st fid need (k : unit -> H S C) R :
  WF w -> store_ok w st -> (forall u w', WF w' -> ext w w' -> gate (w_store w') st fid need -> safe w' (k u) R) -> safe w (denyWrite r i st fid need ≫= k) R.
Proof. intros W Hs Hk. eapply safe_bind; [by apply (safe_denyWrite w r i st fid need (fun _ w' => gate (w_store w') st fid need))|]. intros. by apply Hk. Qed.
Lemma step_assign {C} w p o (k : unit -> H S C) R :
  WF w -> kind_at w p = Some (kind_of o) -> obj_ok w o -> (forall u w', WF w' -> ext w w' -> safe w' (k u) R) -> safe w (assign p o ≫= k) R.
Proof. intros W Hk Ho Hc. eapply safe_bind; [by apply (safe_assign w p o (fun _ _ => True))|]. intros. by apply Hc. Qed.
Lemma step_alloc {C} w o (k : Z -> H S C) R :
  WF w -> obj_ok w o -> (forall h w', WF w' -> ext w w' -> safe w' (k h) R) -> safe w (alloc o ≫= k) R.
Proof. intros W Ho Hc. eapply safe_bind; [by apply (safe_alloc w o (fun _ _ => True))|]. intros. by apply Hc. Qed.
Lemma step_new_natt {C} w a (k : N -> H S C) R :
  WF w -> (forall p w', WF w' -> ext w w' -> natt_live w' p -> safe w' (k p) R) -> safe w (new_natt a ≫= k) R.
Proof. intros W Hc. eapply safe_bind; [by apply (safe_new_natt w a (fun p w' => natt_live w' p))|]. intros. by apply Hc. Qed.
Lemma step_assign_natt {C} w p a (k : unit -> H S C) R :
  WF w -> natt_live w p -> (forall u w', WF w' -> ext w w' -> safe w' (k u) R) -> safe w (assign_natt p a ≫= k) R.
Proof. intros W Hl Hc. eapply safe_bind; [by apply (safe_assign_natt w p a (fun _ _ => True))|]. intros. by apply Hc. Qed.
Lemma step_deref_natt {C} w p (k : newAttachment -> H S C) R :
  WF w -> natt_live w p -> (forall a w', WF w' -> ext w w' -> safe w' (k a) R) -> safe w (deref_natt p ≫= k) R.
Proof. intros W Hl Hc. eapply safe_bind; [by apply (safe_deref_natt w p (fun _ _ => True))|]. intros. by apply Hc. Qed.
Lemma step_sess {C} w (k : Session -> H S C) R : WF w -> safe w (k (w_sess w)) R -> safe w (sess ≫= k) R.
Proof. done. Qed.
Lemma step_each {A D C} w (f : A -> H S D) (I : D -> Prop) l (k : list D -> H S C) R :
  WF w -> (forall a w', a ∈ l -> WF w' -> ext w w' -> safe w' (f a) (fun c _ => I c)) ->
  (forall cs w', WF w' -> ext w w' -> Forall I cs -> safe w' (k cs) R) -> safe w (each f l ≫= k) R.
Proof. intros W Hf Hc. eapply safe_bind; [by apply safe_each|]. intros. by apply Hc. Qed.
Lemma step_each_ {A C} w (f : A -> H S unit) l (k : unit -> H S C) R :
  WF w -> (forall a w', a ∈ l -> WF w' -> ext w w' -> safe w' (f a) (fun _ _ => True)) ->
  (forall u w', WF w' -> ext w w' -> safe w' (k u) R) -> safe w (each_ f l ≫= k) R.
Proof. intros W Hf Hc. eapply safe_bind; [by apply safe_each_|]. intros. by apply Hc. Qed.

(** *** Facts as the side conditions ask for them *)
Lemma somewhere_intro (s : S) st fid need : by_folder -> gate s st fid need -> somewhere s st need.
Proof. intros. split; [done|by exists fid]. Qed.
Lemma obj_store w o st : obj_ok w o -> store_of o = Some st -> store_ok w st.
Proof. destruct o; cbn; intros; simplify_eq; naive_solver. Qed.
Lemma known_attachment w p o st aid q : known w p o -> kind_at w p = Some (KAttachment st aid q) -> exists props pos, o = OAttachment st props aid pos q.
Proof. intros [Hk _] Hk'. rewrite Hk in Hk'. destruct o; cbn in Hk'; simplify_eq; eauto. Qed.
Lemma known_message w p o st mid fid : known w p o -> kind_at w p = Some (KMessage st mid fid) -> exists pend dels t, o = OMessage st mid fid pend dels t.
Proof. intros [Hk _] Hk'. rewrite Hk in Hk'. destruct o; cbn in Hk'; simplify_eq; eauto. Qed.
Lemma known_attachWrite w p o : known w p o -> kind_at w p = Some KAttachWrite -> exists st aw, o = OAttachWrite st aw.
Proof. intros [Hk _] Hk'. rewrite Hk in Hk'. destruct o; cbn in Hk'; simplify_eq; eauto. Qed.
Lemma table_ok_new t :
  tb_cursor t = 0 -> tb_view t = None -> tb_restriction t = None -> (may_panic \/ match tb_rows t with TPermission _ | TRules _ => False | _ => True end) -> table_ok t.
Proof.
  intros Ec Ev Er Hp. unfold table_ok, total. rewrite Ec, Ev, Er. split_and!; [lia| |done|by destruct Hp; [left|right]].
  unfold baseCount. destruct (tb_rows t); apply len_nonneg.
Qed.
Lemma table_ok_attachment l : table_ok (empty_table (TAttachment l)).
Proof. apply table_ok_new; [done..|by right]. Qed.
Lemma table_ok_hierarchy l fid f b : table_ok (new_table (THierarchy l) fid f b).
Proof. apply table_ok_new; [done..|by right]. Qed.
Lemma table_ok_contents l fid f b : table_ok (new_table (TContents l) fid f b).
Proof. apply table_ok_new; [done..|by right]. Qed.
Lemma table_ok_panic rows : may_panic -> table_ok (empty_table rows).
Proof. intros. apply table_ok_new; [done..|by left]. Qed.
Lemma new_attachment_intro (s : S) st mid props aid num :
  happened s (CCreateAttachment st mid props) (Ok (aid, num)) -> msg_writable s st mid -> new_attachment s st mid aid.
Proof. intros. by exists props, num. Qed.
Lemma natts_snoc w l p : Forall (natt_live w) l -> natt_live w p -> Forall (natt_live w) (l ++ [p]).
Proof. intros. apply Forall_app_2; [done|by constructor]. Qed.
Lemma opened_intro (s : S) st mid fid : happened s (CMessageFolder st mid) (Ok fid) -> opened_message s st mid fid.
Proof. done. Qed.
Lemma writable_opened (s : S) st mid fid : opened_message s st mid fid -> gate s st fid FrightsEditAny -> msg_writable s st mid.
Proof. intros. left. by exists fid. Qed.
Lemma writable_created (s : S) st mid : created_message s st mid -> msg_writable s st mid.
Proof. by right. Qed.
Lemma created_intro (s : S) st fid msg mid : gate s st fid FrightsCreate -> happened s (CCreateMessage st fid msg) (Ok mid) -> created_message s st mid.
Proof. intros. by exists fid, msg. Qed.
Lemma kind_live w p k : kind_at w p = Some k -> is_Some (kind_at w p).
Proof. intros ->. by eexists. Qed.
Lemma gate_dir_same (s : S) st fid need : gate s st fid need -> gate_dir s st fid need.
Proof. by exists st. Qed.
Lemma gate_dir_other (s : S) st st' fid need : gate s st' fid need -> negb (beq (st_dir st) (st_dir st')) = false -> gate_dir s st fid need.
Proof. intros Hg Hb. exists st'. split; [|done]. unfold beq in Hb. apply negb_false_iff, bool_decide_eq_true in Hb. done. Qed.

#[export] Instance quiet_emit p : Quiet (emit p).
Proof. intros w W. by apply safe_emit. Qed.
#[export] Instance quiet_setHandle i h : Quiet (setHandle i h).
Proof. intros w W. by apply safe_setHandle. Qed.
#[export] Instance quiet_new_arr b : Quiet (new_arr b).
Proof. intros w W. by apply safe_new_arr. Qed.
#[export] Instance quiet_assign_arr p b : Quiet (assign_arr p b).
Proof. intros w W. by apply safe_assign_arr. Qed.
#[export] Instance quiet_read_arr p n : Quiet (read_arr p n).
Proof. intros w W. by apply safe_read_arr. Qed.
#[export] Instance quiet_world : Quiet world_get.
Proof. intros w W. by apply safe_world. Qed.
#[export] Instance quiet_values b : Quiet (values b).
Proof. intros w W. by apply safe_values. Qed.
#[export] Instance quiet_valuess b : Quiet (valuess b).
Proof. intros w W. by apply safe_valuess. Qed.
#[export] Instance quiet_each {A C} (f : A -> H S C) l : (forall a, Quiet (f a)) -> Quiet (each f l).
Proof. intros Hf w W. eapply safe_weaken; [apply (safe_each w f (fun _ => True)); [done|]|done]. intros. by apply Hf. Qed.
End steps.

(** The computations of the handlers are found by their names. *)
#[export] Hint Opaque
  ret_now world_get modify ask pull_req emit each each_ sess new_object deref assign new_natt deref_natt assign_natt new_arr assign_arr read_arr intern
  intern_bag values valuess setHandle writeErr writeStatusHead fail or_fail alloc_ref alloc get at_slot openFolder openLogon openMessage openAny
  release ropRelease Close authorize denyWrite denyDelegate onDelegateList delegateSendIdentity rightsFor bind_ok ok folderEntryID addParentEntryID
  addFolderIdentity folderProps messageProps replidToGUID serialized_pairs serializedReplidGUIDMap guid_replid guidToReplid storeProps
  readAttachWriteProps readMessageProps messageRecipientBags or_not_found some_object some_stored authorizeOpenMessage ropOpenMessage read_props
  with_body ropGetPropertiesSpecific ropGetPropertiesAll ropGetPropertiesList ropReloadCachedInformation ropReadRecipients createMessageTarget
  ropCreateMessage applySetProperties ropSetProperties applyDeleteProperties deleteProperties ropDeleteProperties ropDeletePropertiesNoReplicate
  ropModifyRecipients writeSaveChangesOK scanAttachmentContent scan_attachments scanUploadedMessage saveUploadedMessage saveOpenedMessage mem_values
  embeddedPayloadProps saveStoredEmbedded saveEmbeddedMessage persistComposedMessage saveComposedMessage ropSaveChangesMessage stampSubmitIdentity
  meetingCalendar exportSubmitted deliverComposed authorizeSubmit deliver_or_fail ropSubmitMessage ropTransportSend ropSetSpooler ropGetTransportFolder
  readableMessage messageAttachmentBags ropGetAttachmentTable bindStoredAttachment ropOpenAttachment attachment_created stage_attachment
  attachment_target ropCreateAttachment flushComposeAttachment flushStoredAttachment touch openAttachWrite ropSaveChangesAttachment
  dropStagedAttachment deleteStoredAttachment ropDeleteAttachment restoreContact intern_message openEmbeddedResponse openStoredEmbedded
  ropOpenEmbeddedMessage copyEndpoints objectAllProps copyPropertyBag objectSubObjects stage_copies objectWriteSubObjects copySubObjects copyProperties
  ropCopyProperties ropCopyTo slice_of streamFrom stream_stored streamAttachWrite streamData or_empty writeStreamInitial ropOpenStream openStream
  ropReadStream grow ropWriteStream commitStream ropCommitStream seekTo ropSeekStream ropSetStreamSize ropGetStreamSize maybeReadReceipt
  ropSetMessageReadFlag readFlagTargets applyReadFlag ropSetReadFlags ropDeleteMessages moveCopyEndpoints copyStoredMessage moveCopyOne moveCopyEach
  ropMoveCopyMessages status_folder stored_status ropGetMessageStatus mergeMessageStatus ropSetMessageStatus openTable openStoreTable
  openProjectedTable index rowKeyProps contentsKeyProps rows_key_props keyProps eval_or_panic view_of rebuildView baseIndex messageRow rowProps
  encodeRow encodeRows table_opened childFolders ropGetHierarchyTable contentsTableIDs ropGetContentsTable ropSetColumns ropSortTable parse_restriction
  ropRestrict ropQueryRows ropSeekRow matchRow first_match scanForRow ropFindRow ropGetStatus ropQueryPosition ropSeekRowFractional allColumns
  ropQueryColumnsAll ropAbort ropGetCollapseState ropExpandRow ropCollapseRow ropSetCollapseState ropResetTable ropFreeBookmark ropCreateBookmark
  ropSeekRowBookmark ropOpenFolder createFolderParentError openExistingFolder initNewFolder createOrOpenFolder ropCreateFolder completed
  ropDeleteFolder moveFolderParent ropMoveFolder copyFolderDestination ropCopyFolder emptyFolderContents empty_folder ropEmptyFolder
  ropHardDeleteMessagesAndSubfolders ropHardDeleteMessages searchFolderError partialSearchChange search_scope searchScope setSearchCriteria
  ropSetSearchCriteria ropGetSearchCriteria ruleBags ropGetRulesTable ropModifyRules permissionBags ropGetPermissionsTable ropModifyPermissions
  ropGetReceiveFolder ropSetReceiveFolder ropGetReceiveFolderTable ropGetStoreState essdnToSMTP logonTarget mayOpenDelegate authorizeLogon
  note_delegate ropLogon ropGetPropertyIdsFromNames ropGetNamesFromPropertyIds long_term_logon ropLongTermIdFromId ropIdFromLongTermId
  ropGetPerUserLongTermIds ropGetPerUserGuid ropReadPerUserInformation ropWritePerUserInformation opened ropSynchronizationConfigure stateSink
  ropSyncUploadStateStreamBegin ropSyncUploadStateStreamContinue ropSyncUploadStateStreamEnd get_buffer ropFastTransferSourceGetBuffer
  ropSyncOpenCollector openUpload ropSyncImportHierarchyChange ropSyncImportDeletes ropSyncImportReadStateChanges ropSyncImportMessageMove
  ropSyncGetTransferState ropSyncImportMessageChange ropFastTransferDestConfigure ropFastTransferDestPutBuffer ropGetLocalReplicaIds
  ropSetLocalReplicaMidsetDeleted ropProgress openCopySource ropFastTransferSourceCopyMessages ropFastTransferSourceCopyFolder
  ropFastTransferSourceCopyTo ropFastTransferSourceCopyProperties folderMetaSnapshot folder_snapshots baselineSubscription ropRegisterNotification
  enqueue handles_where pollFolder enqueueFolderHierarchy poll_folders enqueueWholeStore poll_subscription enqueueSubscriptionChanges readTableSignal
  pollTable enqueueTableChanges enqueueChanges drainNotifications poll PollForChange : typeclass_instances.

(** Carry what is known of a world to the next one. *)
Ltac transport E :=
  lazymatch type of E with
  | ext ?w ?w' =>
      repeat match goal with
        | H : known w _ _ |- _ => apply (known_mono _ _ _ _ E) in H
        | H : obj_ok w _ |- _ => apply (obj_ok_mono _ _ E) in H
        | H : store_ok w _ |- _ => apply (store_ok_mono _ _ E) in H
        | H : kind_at w _ = Some _ |- _ => apply (ext_kind _ _ E) in H
        | H : is_Some (kind_at w _) |- _ => apply (kind_live_mono _ _ E) in H
        | H : natt_live w _ |- _ => apply (ext_natt _ _ E) in H
        | H : Forall (natt_live w) _ |- _ => apply (natts_mono _ _ E) in H
        | H : happened (w_store w) _ _ |- _ => apply (ext_hist _ _ E) in H
        | H : gate (w_store w) _ _ _ |- _ => apply (gate_mono _ _ E) in H
        | H : may_send (w_store w) _ |- _ => apply (may_send_mono _ _ E) in H
        | H : no_bcc _ /\ rendered (w_store w) _ _ |- _ => destruct H
        | H : rendered (w_store w) _ _ |- _ => apply (rendered_mono _ _ E) in H
        | H : readable (w_store w) _ _ |- _ => apply (readable_mono _ _ E) in H
        | H : Forall (readable (w_store w) _) _ |- _ => apply (Forall_impl _ _ _ H (readable_mono _ _ E _)) in H
        | H : opened_message (w_store w) _ _ _ |- _ => apply (opened_mono _ _ E) in H
        | H : created_message (w_store w) _ _ |- _ => apply (created_mono _ _ E) in H
        | H : msg_writable (w_store w) _ _ |- _ => apply (writable_mono _ _ E) in H
        | H : created_folder (w_store w) _ _ |- _ => apply (created_folder_mono _ _ E) in H
        | H : collector (w_store w) _ _ |- _ => apply (collector_mono _ _ E) in H
        | H : imported (w_store w) _ _ |- _ => apply (imported_mono _ _ E) in H
        | H : new_attachment (w_store w) _ _ _ |- _ => apply (new_attachment_mono _ _ E) in H
        | H : WF w |- _ => clear H
        end; clear E; try clear w
  end.

(** The side conditions: what is known of the objects, taken apart *)
Create HintDb rop discriminated.
#[export] Hint Constants Opaque : rop.
(** The specifications of the helpers that need something of their arguments *)
Create HintDb ropspec discriminated.
#[export] Hint Constants Opaque : ropspec.
#[export] Hint Transparent serrable reply : ropspec.
#[export] Hint Resolve len_nonneg Z.le_refl new_attachment_intro natts_snoc table_ok_attachment table_ok_hierarchy table_ok_contents table_ok_panic obj_store opened_intro writable_opened writable_created created_intro kind_live gate_dir_same gate_dir_other somewhere_intro : rop.
Ltac facts :=
  repeat match goal with
    | H : known _ _ _ |- _ => destruct H
    | H : obj_ok _ _ |- _ => progress cbn [obj_ok] in H
    | H : _ /\ _ |- _ => destruct H
    | H : match ?x with _ => _ end, E : ?x = _ |- _ => rewrite E in H
    | H : store_of _ = Some _ |- _ => progress cbn [store_of] in H
    | H : persistedMessageID _ = Some _ |- _ => progress cbn [persistedMessageID] in H
    | H : match ?x with _ => _ end = Some _, E : ?x = _ |- _ => rewrite E in H
    | H : Some _ = Some _ |- _ => injection H as H; subst
    | H : None = Some _ |- _ => discriminate H
    end.
Ltac reduce :=
  cbn [obj_ok kind_of nm_folderID nm_saved nm_savedID nm_attachments nm_with_props nm_with_attachments aw_with em_with_props aw_inMem aw_messageID aw_attachmentID
       em_writeback em_parent st_at sm_len sm_pos sm_writable sm_parent source_ok].
Ltac solve_facts := facts; first [ eassumption | solve [reduce; split_and?; first [done | eauto 8 with rop]] ].
Ltac side :=
  cbn [authorised]; try exact I;
  first [ match goal with H : known ?w _ _ |- obj_ok ?w _ => exact (proj2 H) | H : known ?w ?p _ |- kind_at ?w ?p = _ => exact (proj1 H) end | solve_facts ].

#[export] Hint Extern 2 (imported _ _ _) => side : ropspec.
#[export] Hint Extern 2 (no_bcc _) => side : ropspec.
#[export] Hint Extern 2 (store_ok _ _) => side : ropspec.
#[export] Hint Extern 2 (obj_ok _ _) => side : ropspec.
#[export] Hint Extern 2 (kind_at _ _ = _) => side : ropspec.
#[export] Hint Extern 2 (Forall (natt_live _) _) => side : ropspec.
Ltac next := let a := fresh "a" in let w' := fresh "w" in let W := fresh "W" in let E := fresh "E" in intros a w' W E; transport E.
Ltac body := let a := fresh "a" in let w' := fresh "w" in let W := fresh "W" in let E := fresh "E" in intros a w' _ W E; transport E.
Ltac step_match x :=
  first [ is_var x; destruct x | let E := fresh "Eq" in destruct x eqn:E; try discriminate E ].
Ltac step_bind m :=
  lazymatch m with
  | mret _ => apply step_ret; cbn beta iota zeta
  | _ ≫= _ => apply step_assoc
  | bind_ok _ _ => unfold bind_ok at 1; apply step_assoc
  | ask ?c => apply (step_ask _ c); [assumption|try solve [side]|next; intros ? ?; cbn beta iota zeta]
  | pull_req _ => apply step_pull; [assumption|shrink|next; let K := fresh "Hread" in intros K; cbn beta iota zeta]
  | at_slot _ => apply step_slot; [assumption|next; let K := fresh "H" in intros K; match type of K with match ?a with _ => _ end => destruct a as [[? ?]|] end; cbn beta iota zeta]
  | each _ _ => first
      [ apply step_quiet; [apply _|assumption|next; cbn beta iota zeta]
      | eapply safe_bind; [solve [eauto 4 with ropspec]|next; let H := fresh "Q" in intros H; cbn beta iota in H; cbn beta iota zeta]
      | apply (step_each _ _ (fun _ => True)); [assumption|body; cbn beta|next; intros _; cbn beta iota zeta] ]
  | each_ _ _ => apply step_each_; [assumption|body; cbn beta|next; cbn beta iota zeta]
  | deref _ => apply step_deref; [assumption|try solve [side]|next; intros ?; cbn beta iota zeta]
  | denyWrite _ _ _ _ _ => apply step_denyWrite; [assumption|try solve [side]|next; intros ?; cbn beta iota zeta]
  | assign _ _ => apply step_assign; [assumption|try solve [side]|try solve [side]|next; cbn beta iota zeta]
  | alloc _ => apply step_alloc; [assumption|try solve [side]|next; cbn beta iota zeta]
  | new_natt _ => apply step_new_natt; [assumption|next; intros ?; cbn beta iota zeta]
  | assign_natt _ _ => apply step_assign_natt; [assumption|try solve [side]|next; cbn beta iota zeta]
  | deref_natt _ => apply step_deref_natt; [assumption|try solve [side]|next; cbn beta iota zeta]
  | sess => apply step_sess; [assumption|cbn beta iota zeta]
  | fail _ _ _ => by apply step_fail
  | ret_now _ => by apply step_ret_now
  | panic => apply step_panic
  | match ?x with _ => _ end => step_match x; cbn beta iota zeta
  | _ => first
      [ apply step_quiet; [apply _|assumption|next; cbn beta iota zeta]
      | eapply safe_bind; [solve [eauto 4 with ropspec]|next; let H := fresh "Q" in intros H; cbn beta iota in H; destruct_and? H; cbn beta iota zeta]
      | let h := get_head m in unfold h; cbn beta iota zeta ]
  end.
Ltac step :=
  lazymatch goal with
  | |- safe _ (?m ≫= ?k) _ => step_bind m
  | |- safe _ (mret _) _ => apply safe_ret; [assumption|try done]
  | |- safe _ (fail _ _ _) _ => by apply safe_fail
  | |- safe _ (ret_now _) _ => by apply safe_ret_now
  | |- safe _ panic _ => apply safe_panic
  | |- safe _ ?m (fun _ _ => True) => first [ solve [apply quiet; assumption] | solve [eauto 4 with ropspec] | apply step_tail ]
  | |- safe _ _ _ => apply step_tail
  end.
Ltac steps := repeat step.
