(* ===== verification/RopSafe.v ===== *)
(** * The ROP layer: every handler keeps the invariant

    One lemma per handler, by the rules of [RopRules]: the handler keeps [WF], and so makes only
    calls that are authorised and does not panic where the policy does not allow it. *)

From stdpp Require Import base list gmap numbers.
From Stdlib Require Import ZArith Lia.
From S2P Require Import Prelude Mapi Wire ExtVal Gostr Permission RopTags RopBase RopProps RopMessage RopAttach RopStream RopMsgops RopTable RopFolder RopLogon RopSync RopNotify RopInv RopRules.
Open Scope Z_scope.

Section handlers.
Context {S : Type} {cf : config} {P : Policy S cf} `{B : Backend S} {L : libs} {Law : Lawful P L}.
Implicit Types w : world S.

(** ** Reading properties *)

#[export] Instance quiet_intern v : Quiet (intern v).
Proof. intros w W. unfold intern. steps. Qed.
#[export] Instance quiet_intern_bag pv : Quiet (intern_bag pv).
Proof. apply quiet_each. intros a w W. steps. Qed.
#[export] Instance quiet_folderEntryID st fid : Quiet (folderEntryID st fid).
Proof. intros w W. steps. Qed.
#[export] Instance quiet_addParentEntryID props st fid b : Quiet (addParentEntryID props st fid b).
Proof. intros w W. steps.
  all: match goal with Ha : answers _ _, Eq : pv_Get _ _ = _ |- _ => cbn in Ha; rewrite Eq in Ha; by destruct Ha end.
Qed.
#[export] Instance quiet_rightsFor st fid : Quiet (rightsFor st fid).
Proof. intros w W. steps. Qed.
#[export] Instance quiet_addFolderIdentity props st fid tags : Quiet (addFolderIdentity props st fid tags).
Proof. intros w W. steps. Qed.
#[export] Instance quiet_folderProps st fid tags : Quiet (folderProps st fid tags).
Proof. intros w W. steps. Qed.
#[export] Instance quiet_messageProps st mid tags : Quiet (messageProps st mid tags).
Proof. intros w W. steps. Qed.
#[export] Instance quiet_replidToGUID st id : Quiet (replidToGUID st id).
Proof. intros w W. steps. Qed.
#[export] Instance quiet_serialized_pairs st ids : Quiet (serialized_pairs st ids).
Proof. induction ids as [|id ids IH]; intros w W; cbn [serialized_pairs]; steps. Qed.
#[export] Instance quiet_guid_replid st g ids : Quiet (guid_replid st g ids).
Proof. induction ids as [|id ids IH]; intros w W; cbn [guid_replid]; steps. Qed.
#[export] Instance quiet_storeProps st tags id : Quiet (storeProps L cf st tags id).
Proof. intros w W. unfold storeProps, serializedReplidGUIDMap. steps. Qed.
#[export] Instance quiet_messageRecipientBags o : Quiet (messageRecipientBags o).
Proof. intros w W. steps. Qed.

(** ** Messages *)

#[export] Instance quiet_with_body r i p : Quiet (with_body r i p).
Proof. intros w W. steps. Qed.
Lemma safe_read_props w r i tags : WF w -> safe w (read_props L cf r i tags) (fun _ _ => True).
Proof. intros W. unfold read_props. steps. Qed.
#[export] Instance quiet_read_props r i tags : Quiet (read_props L cf r i tags).
Proof. intros w W. by apply safe_read_props. Qed.
#[export] Instance quiet_ropOpenMessage i : Quiet (ropOpenMessage i).
Proof. intros w W. steps. Qed.
#[export] Instance quiet_ropGetPropertiesSpecific i : Quiet (ropGetPropertiesSpecific L cf i).
Proof. intros w W. steps.
Qed.
#[export] Instance quiet_ropGetPropertiesAll i : Quiet (ropGetPropertiesAll L cf i).
Proof. intros w W. steps. Qed.
#[export] Instance quiet_ropGetPropertiesList i : Quiet (ropGetPropertiesList L cf i).
Proof. intros w W. steps. Qed.
#[export] Instance quiet_ropReloadCachedInformation i : Quiet (ropReloadCachedInformation L cf i).
Proof. intros w W. steps. Qed.
#[export] Instance quiet_ropReadRecipients i : Quiet (ropReadRecipients i).
Proof. intros w W. steps. Qed.
#[export] Instance quiet_ropCreateMessage i : Quiet (ropCreateMessage i).
Proof. intros w W. steps.
Qed.
#[export] Instance quiet_ropSetProperties i : Quiet (ropSetProperties i).
Proof. intros w W. steps. Qed.
#[export] Instance quiet_deleteProperties r i : Quiet (deleteProperties r i).
Proof. intros w W. steps. Qed.
#[export] Instance quiet_ropDeleteProperties i : Quiet (ropDeleteProperties i).
Proof. apply quiet_deleteProperties. Qed.
#[export] Instance quiet_ropDeletePropertiesNoReplicate i : Quiet (ropDeletePropertiesNoReplicate i).
Proof. apply quiet_deleteProperties. Qed.
#[export] Instance quiet_ropModifyRecipients i : Quiet (ropModifyRecipients i).
Proof. intros w W. steps. Qed.
#[export] Instance quiet_scanAttachmentContent pv : Quiet (scanAttachmentContent cf pv).
Proof. intros w W. steps. Qed.
Lemma safe_scan w st um mid atts :
  WF w -> imported (w_store w) st um -> happened (w_store w) (CCommitUpload um) (Ok mid) -> safe w (scan_attachments cf st (i64 mid) atts) (fun _ _ => True).
Proof. revert w. induction atts as [|a atts IH]; intros w W Hi Hc; cbn [scan_attachments]; steps. Qed.
#[local] Hint Resolve safe_scan : ropspec.
Lemma safe_scanUploaded w st um mid :
  WF w -> imported (w_store w) st um -> happened (w_store w) (CCommitUpload um) (Ok mid) -> safe w (scanUploadedMessage cf st (i64 mid)) (fun _ _ => True).
Proof. intros W Hi Hc. steps. Qed.
#[local] Hint Resolve safe_scanUploaded : ropspec.
#[export] Instance quiet_writeSaveChangesOK i j v : Quiet (writeSaveChangesOK i j v).
Proof. intros w W. steps. Qed.
Lemma imported_commit (s : S) st um mid : imported s st um -> happened s (CCommitUpload um) (Ok mid) -> exists um mid', imported s st um /\ happened s (CCommitUpload um) (Ok mid') /\ i64 mid = i64 mid'.
Proof. intros. by exists um, mid. Qed.
#[export] Instance quiet_mem_values m : Quiet (mem_values m).
Proof. intros w W. steps. Qed.
#[export] Instance quiet_embeddedPayloadProps st m : Quiet (embeddedPayloadProps L st m).
Proof. intros w W. steps. Qed.
Lemma safe_saveStoredEmbedded w p i j pl st aid q :
  WF w -> kind_at w p = Some (KAttachment st aid (Some q)) -> safe w (saveStoredEmbedded p i j pl) (fun _ _ => True).
Proof.
  intros W Hp. unfold saveStoredEmbedded. step. destruct (known_attachment _ _ _ _ _ _ H Hp) as (props & pos & ->).
  destruct H as [_ Ho]. cbn [obj_ok] in Ho. destruct Ho as (Hs & mid & fid & num & Hk & Hm & Ha). cbn beta iota.
  step.
  destruct (known_message _ _ _ _ _ _ H Hk) as (pend & dels & t & ->). cbn beta iota. steps.
Qed.
Lemma safe_saveEmbeddedMessage w st e i j h : WF w -> obj_ok w (OEmbedded st e) -> safe w (saveEmbeddedMessage L st e i j h) (fun _ _ => True).
Proof.
  intros W Ho. unfold saveEmbeddedMessage. destruct (negb (writable e)) eqn:Ew; [by apply safe_fail|]. step. step. step; [|by apply step_fail]. step.
  cbn [obj_ok] in Ho. destruct Ho as (Hs & Hw & Hp). destruct (em_parent e) as [q|] eqn:Ep.
  - destruct Hp as (st' & aid & r & Hk). by eapply safe_saveStoredEmbedded.
  - destruct (em_writeback e) as [q|] eqn:Eq; [|unfold writable in Ew; by rewrite Ep, Eq in Ew].
    step. destruct (known_attachWrite _ _ _ H Hw) as (wst & aw & ->). steps.
Qed.
Lemma safe_each_natt w l : WF w -> Forall (natt_live w) l -> safe w (each deref_natt l) (fun _ _ => True).
Proof.
  intros W Hl. eapply safe_weaken; [apply (safe_each w deref_natt (fun _ => True)); [done|]|done]. intros p w' Hp W' E.
  apply safe_deref_natt; [done| |done]. apply E. rewrite List.Forall_forall in Hl. by apply Hl, list_elem_of_In.
Qed.
#[local] Hint Resolve safe_saveEmbeddedMessage safe_each_natt : ropspec.
#[export] Instance quiet_ropSaveChangesMessage i : Quiet (ropSaveChangesMessage L cf i).
Proof. intros w W. steps. Qed.

(** ** Submission *)

Lemma attendee_bcc r : is_bcc (attendee r) = is_bcc r.
Proof. unfold attendee. destruct (beq _ _); [done|]. unfold is_bcc. by rewrite pv_Get_Set. Qed.
Lemma attendees_no_bcc msg : no_bcc msg -> no_bcc (mkMessage (ms_Props msg) (map attendee (ms_Recipients msg)) (ms_Attachments msg)).
Proof. unfold no_bcc. cbn. intros Hn. apply List.Forall_map. eapply List.Forall_impl; [|exact Hn]. intros r Hr. cbn. by rewrite attendee_bcc. Qed.
#[local] Hint Resolve attendees_no_bcc : rop.
Lemma rendered_intro (s : S) st msg o raw : no_bcc msg -> happened s (CExport (Some st) msg o) (Ok raw) -> rendered s st raw.
Proof. intros. by exists msg, o. Qed.
#[local] Hint Resolve rendered_intro : rop.
Lemma safe_exportSubmitted w st msg rich :
  WF w -> no_bcc msg -> safe w (exportSubmitted L st msg rich) (fun r w' => match r with Ok x => no_bcc x.2 /\ rendered (w_store w') st x.1 | Err _ => True end).
Proof. intros W Hn. unfold exportSubmitted, meetingCalendar. steps.
  all: split; [exact Hn|eapply rendered_intro; [|eassumption]; exact Hn].
Qed.
#[local] Hint Resolve safe_exportSubmitted : ropspec.
#[export] Instance quiet_stampSubmitIdentity props a b : Quiet (stampSubmitIdentity props a b).
Proof. intros w W. steps. Qed.
Lemma split_no_bcc bags to rich wire props atts : splitRecipients L bags = (to, rich, wire) -> no_bcc (mkMessage props wire atts).
Proof. intros [= _ _ <-]. apply List.Forall_forall. intros r Hr. apply filter_In in Hr as [_ Hr]. by apply negb_true_iff. Qed.
#[local] Hint Resolve split_no_bcc : rop.
Lemma safe_deliverComposed w st nm a b : WF w -> may_send (w_store w) st -> safe w (deliverComposed L cf st nm a b) (fun _ _ => True).
Proof. intros W Hm. unfold deliverComposed. steps.
Qed.
Lemma safe_deliver w st nm r i :
  WF w -> store_ok w st -> safe w (deliver_or_fail L cf st nm r i) (fun _ w' => may_send (w_store w') st /\ nm_saved nm = true).
Proof.
  intros W Hs. unfold deliver_or_fail, authorizeSubmit. apply step_assoc. eapply safe_bind; [by apply safe_sendIdentity|].
  intros [[[a b]|]|] w1 W1 E1 Hm; [|by apply step_fail..]. specialize (Hm _ eq_refl).
  destruct (_ || bool_decide _) eqn:Eq; [by apply step_fail|]. apply step_ret. eapply safe_bind; [by apply safe_deliverComposed|].
  intros [[o|]|] w2 W2 E2 _; [|by apply safe_fail..]. apply safe_ret; [done|]. split; [by eapply may_send_mono|].
  apply orb_false_iff in Eq as [Eq _]. apply orb_false_iff in Eq as [Eq _]. by apply negb_false_iff.
Qed.
#[local] Hint Resolve safe_deliver : ropspec.
#[export] Instance quiet_ropSubmitMessage i : Quiet (ropSubmitMessage L cf i).
Proof. intros w W. steps. Qed.
#[export] Instance quiet_ropTransportSend i : Quiet (ropTransportSend L cf i).
Proof. intros w W. steps. Qed.
#[export] Instance quiet_ropSetSpooler i : Quiet (ropSetSpooler i).
Proof. intros w W. steps. Qed.
#[export] Instance quiet_ropGetTransportFolder i : Quiet (ropGetTransportFolder i).
Proof. intros w W. steps. Qed.

(** ** Attachments *)

Lemma safe_intern_each w l : WF w -> safe w (each intern_bag l) (fun _ _ => True).
Proof. intros W. by apply quiet. Qed.
#[export] Instance quiet_messageAttachmentBags o : Quiet (messageAttachmentBags o).
Proof. intros w W. steps. Qed.
#[export] Instance quiet_ropGetAttachmentTable i : Quiet (ropGetAttachmentTable i).
Proof. intros w W. steps. Qed.
#[export] Instance quiet_ropOpenAttachment i : Quiet (ropOpenAttachment i).
Proof. intros w W. steps. match goal with E : match ?r with _ => _ end = _ |- _ => destruct r; simplify_eq; side end. Qed.
#[export] Instance quiet_ropCreateAttachment i : Quiet (ropCreateAttachment i).
Proof. intros w W. steps. Qed.
#[export] Instance quiet_ropSaveChangesAttachment i : Quiet (ropSaveChangesAttachment cf i).
Proof. intros w W. steps. Qed.
Lemma drop_numbered_incl atts n rest : drop_numbered atts n = Some rest -> incl rest atts.*1.
Proof.
  revert rest. induction atts as [|[p a] atts IH]; intros rest; cbn; [done|]. destruct (na_attachNum a =? n).
  - intros [= <-] q Hq. by right.
  - destruct (drop_numbered atts n) as [r|] eqn:E; [|done]. intros [= <-] q [->|Hq]; [by left|right; by apply (IH r)].
Qed.
Lemma safe_dropStaged w p st nm i n :
  WF w -> kind_at w p = Some KNewMessage -> obj_ok w (ONewMessage st nm) -> safe w (dropStagedAttachment p st nm i n) (fun _ _ => True).
Proof.
  intros W Hk Ho. destruct Ho as (Hs & Hg & Hl & Hc). unfold dropStagedAttachment.
  eapply safe_bind; [apply (safe_each w _ (fun qa => qa.1 ∈ nm_attachments nm)); [done|]|].
  { intros q w1 Hq W1 E1. eapply safe_bind; [apply (safe_deref_natt w1 q (fun _ _ => True)); [done| |done]|].
    - apply E1. rewrite List.Forall_forall in Hl. by apply Hl, list_elem_of_In.
    - intros. by apply safe_ret. }
  intros atts w1 W1 E1 Ha. destruct (drop_numbered atts n) as [rest|] eqn:Ed; [|by apply safe_fail].
  apply safe_assign; [done|by apply E1| |done]. cbn. split_and!; [by eapply store_ok_mono|by eapply gate_mono| |].
  - apply List.Forall_forall. intros q Hq. apply (drop_numbered_incl _ _ _ Ed), in_map_iff in Hq as ([q' a] & <- & Hin).
    apply E1. rewrite List.Forall_forall in Hl, Ha. apply Hl, list_elem_of_In. apply (Ha _ Hin).
  - intros Ht. by eapply created_mono, Hc.
Qed.
#[local] Hint Resolve safe_dropStaged : ropspec.
#[export] Instance quiet_ropDeleteAttachment i : Quiet (ropDeleteAttachment i).
Proof. intros w W. steps. Qed.
#[export] Instance quiet_intern_message m : Quiet (intern_message m).
Proof. intros w W. steps. Qed.
#[export] Instance quiet_restoreContact a b c : Quiet (restoreContact a b c).
Proof. intros w W. steps. Qed.
Lemma embedded_opened w p st props aid pos q m (c : bool) :
  known w p (OAttachment st props aid pos q) -> obj_ok w (OEmbedded st (mkEmbedded m None (if c && negb (aid =? 0) then Some p else None))).
Proof.
  intros [Hk [Hs Hq]]. cbn. split_and!; [done|done|]. destruct (c && negb (aid =? 0)) eqn:E; [|done].
  apply andb_true_iff in E as [_ E]. apply negb_true_iff, Z.eqb_neq in E. destruct q as [q|]; [|done]. by exists st, aid, q.
Qed.
#[export] Instance quiet_ropOpenEmbeddedMessage i : Quiet (ropOpenEmbeddedMessage i).
Proof. intros w W. steps. all: by eapply embedded_opened. Qed.

(** ** Copies *)

#[export] Instance quiet_objectAllProps o : Quiet (objectAllProps o).
Proof. intros w W. steps. Qed.
Lemma written_kind o vals o' : objectWriteProps o vals = Some o' -> kind_of o' = kind_of o.
Proof. destruct o; cbn; intros; by simplify_eq. Qed.
Lemma written_ok w o vals o' : objectWriteProps o vals = Some o' -> obj_ok w o -> obj_ok w o'.
Proof. destruct o; cbn; intros; by simplify_eq. Qed.
Lemma safe_copyPropertyBag w r i src dp dst tags e f : WF w -> known w dp dst -> safe w (copyPropertyBag r i src dp dst tags e f) (fun _ _ => True).
Proof.
  intros W Hd. unfold copyPropertyBag. steps.
  all: match goal with E : objectWriteProps _ _ = Some _ |- _ => destruct Hd as [Hk Ho]; first [by rewrite (written_kind _ _ _ E)|by eapply written_ok] end.
Qed.
Lemma safe_objectSubObjects w o : WF w -> obj_ok w o -> safe w (objectSubObjects o) (fun _ _ => True).
Proof. intros W Ho. unfold objectSubObjects. steps. Qed.
Lemma safe_stage_copies w d l : WF w -> safe w (stage_copies d l) (fun ps w' => Forall (natt_live w') ps).
Proof.
  revert w d. induction l as [|b l IH]; intros w d W; cbn [stage_copies]; [by apply safe_ret|]. step.
  eapply safe_bind; [by apply IH|]. intros ps w1 W1 E1 Hps. transport E1. apply safe_ret; [done|by constructor].
Qed.
#[local] Hint Resolve safe_copyPropertyBag safe_objectSubObjects safe_stage_copies : ropspec.
Lemma safe_writeSubObjects w p o a rs b atts : WF w -> known w p o -> safe w (objectWriteSubObjects p o a rs b atts) (fun _ _ => True).
Proof. intros W Ho. unfold objectWriteSubObjects. steps. Qed.

#[local] Hint Resolve safe_writeSubObjects : ropspec.
Lemma safe_copySubObjects w r i sp dp a b : WF w -> is_Some (kind_at w sp) -> is_Some (kind_at w dp) -> safe w (copySubObjects r i sp dp a b) (fun _ _ => True).
Proof. intros W Hs Hd. unfold copySubObjects. steps. Qed.
Lemma safe_copyEndpoints w r i d : WF w -> safe w (copyEndpoints r i d) (fun x w' => known w' x.1.1 x.1.2 /\ known w' x.2.1 x.2.2).
Proof. intros W. unfold copyEndpoints. steps. cbn in Eq0. subst. side. Qed.
#[local] Hint Resolve safe_copySubObjects : ropspec.
#[export] Instance quiet_copyProperties r i d f tags e s : Quiet (copyProperties r i d f tags e s).
Proof.
  intros w W. unfold copyProperties. destruct (negb _); [by apply safe_fail|].
  eapply safe_bind; [by apply safe_copyEndpoints|]. intros [[sp src] [dp dst]] w1 W1 E1 [Hs Hd]. cbn in Hs, Hd. steps.
Qed.
#[export] Instance quiet_ropCopyProperties i : Quiet (ropCopyProperties i).
Proof. intros w W. steps. Qed.
#[export] Instance quiet_ropCopyTo i : Quiet (ropCopyTo i).
Proof. intros w W. steps. Qed.

(** ** Streams *)

Definition slice_ok (r : option (N * Z)) : Prop := match r with Some d => 0 <= d.2 | None => True end.
Lemma safe_slice_of w t v : WF w -> safe w (slice_of t v) (fun d _ => 0 <= d.2).
Proof. intros W. steps; cbn; try apply len_nonneg; lia. Qed.
#[local] Hint Resolve safe_slice_of : ropspec.
Lemma safe_streamFrom w b t : WF w -> safe w (streamFrom b t) (fun r _ => slice_ok r).
Proof. intros W. unfold streamFrom. steps. Qed.
#[local] Hint Resolve safe_streamFrom : ropspec.
Lemma safe_stream_stored w r t : WF w -> safe w (stream_stored r t) (fun r _ => slice_ok r).
Proof. intros W. unfold stream_stored. steps. Qed.
#[local] Hint Resolve safe_stream_stored : ropspec.
Lemma safe_or_empty w r : WF w -> slice_ok r -> safe w (or_empty r) (fun d _ => 0 <= d.2).
Proof. intros W Hr. unfold or_empty. steps. Qed.
Lemma safe_streamData w o t : WF w -> obj_ok w o -> safe w (streamData o t) (fun r _ => slice_ok r).
Proof. intros W Ho. unfold streamData. steps. Qed.
#[local] Hint Resolve safe_streamData safe_or_empty : ropspec.
Lemma safe_streamInitial w o t : WF w -> obj_ok w o -> safe w (writeStreamInitial o t) (fun d _ => 0 <= d.2).
Proof. intros W Ho. unfold writeStreamInitial. steps. Qed.
#[local] Hint Resolve safe_streamInitial : ropspec.
#[export] Instance quiet_ropOpenStream i : Quiet (ropOpenStream i).
Proof. intros w W. steps. Qed.
Lemma read_count a : read_by pullReadCount a -> 0 <= a.
Proof.
  intros Hr. apply read_bind in Hr as (n & Hn%read_Uint16 & Hr); [|by shrink]. destruct (n =? 0xBABE); [apply read_Uint32 in Hr|apply read_ret in Hr]; lia.
Qed.
(** The cursor of a stream and its parent *)
Ltac stream_side := facts; reduce; split; [lia|assumption].
#[export] Instance quiet_ropReadStream i : Quiet (ropReadStream i).
Proof. intros w W. steps; [facts; lia|]. apply read_count in Hread. stream_side. Qed.
#[export] Instance quiet_ropWriteStream i : Quiet (ropWriteStream i).
Proof. intros w W. steps; pose proof (len_nonneg a); stream_side. Qed.
Lemma stream_parent w p s : known w p (OStream s) -> sm_writable s = true -> exists q, sm_parent s = Some q /\ is_Some (kind_at w q).
Proof. intros [_ [_ Hp]] Hs. by apply Hp. Qed.
Lemma safe_commitStream w p s : WF w -> known w p (OStream s) -> sm_writable s = true -> safe w (commitStream s) (fun _ _ => True).
Proof. intros W Hk Hw. destruct (stream_parent _ _ _ Hk Hw) as (q & Hq & Hl). unfold commitStream. rewrite Hq. steps. Qed.
#[local] Hint Resolve safe_commitStream : ropspec.
#[export] Instance quiet_ropCommitStream i : Quiet (ropCommitStream i).
Proof. intros w W. steps. Qed.
#[export] Instance quiet_ropSeekStream i : Quiet (ropSeekStream i).
Proof. intros w W. steps. all: stream_side. Qed.
#[export] Instance quiet_ropSetStreamSize i : Quiet (ropSetStreamSize i).
Proof. intros w W. steps; apply read_Uint64 in Hread; stream_side. Qed.
#[export] Instance quiet_ropGetStreamSize i : Quiet (ropGetStreamSize i).
Proof. intros w W. steps. Qed.

(** ** The messages of a folder *)

#[export] Instance quiet_ropSetMessageReadFlag i : Quiet (ropSetMessageReadFlag cf i).
Proof. intros w W. steps. Qed.
#[export] Instance quiet_readFlagTargets st fid ids : Quiet (readFlagTargets st fid ids).
Proof. intros w W. steps. Qed.
(** The operations on the ids in a request check the folder of the request alone. *)
Lemma quiet_ropSetReadFlags : by_folder -> forall i, Quiet (ropSetReadFlags cf i).
Proof. intros Hf i w W. steps. Qed.
Lemma quiet_ropDeleteMessages : by_folder -> forall i, Quiet (ropDeleteMessages i).
Proof. intros Hf i w W. steps. Qed.
#[export] Instance quiet_ropMoveCopyMessages i : Quiet (ropMoveCopyMessages i).
Proof. intros w W. steps. Qed.
#[export] Instance quiet_ropGetMessageStatus i : Quiet (ropGetMessageStatus i).
Proof. intros w W. steps. Qed.
Lemma quiet_ropSetMessageStatus : by_folder -> forall i, Quiet (ropSetMessageStatus i).
Proof. intros Hf i w W. steps. Qed.
End handlers.

(** * The ROP layer: tables, folders, logons, synchronization and notifications keep the invariant *)
Open Scope wire_scope.

(** ** Restrictions read from a request have the values of their types *)

Definition yields {A} (Q : A -> Prop) (p : pull A) : Prop := forall b a rest, p b = Ok (a, rest) -> Q a.
Lemma yields_bind {A C} (Q : A -> Prop) (R : C -> Prop) (p : pull A) (k : A -> pull C) : yields Q p -> (forall a, Q a -> yields R (k a)) -> yields R (x <- p ;; k x).
Proof. intros Hp Hk b c rest E. unfold pull_bind in E. destruct (p b) as [[a b']|] eqn:Ep; [|done]. eapply Hk; [by eapply Hp|done]. Qed.
Lemma yields_any {A} (p : pull A) : yields (fun _ => True) p.
Proof. done. Qed.
Lemma yields_ret {A} (Q : A -> Prop) a : Q a -> yields Q (pull_ret a).
Proof. intros Ha b x rest [= <- _]. done. Qed.
Lemma yields_err {A} (Q : A -> Prop) e : yields Q (pull_err e).
Proof. done. Qed.
Lemma yields_times {A} (Q : A -> Prop) n p : yields Q p -> yields (Forall Q) (pull_times n p).
Proof.
  intros Hp. induction n as [|n IH]; simpl; [by apply yields_ret|]. eapply yields_bind; [done|]. intros a Ha.
  eapply yields_bind; [done|]. intros l Hl. apply yields_ret. by constructor.
Qed.

Definition typed (r : Restriction) : Prop := res_typed (resType r) (resValue r) = true.
Section typed.
Context (fl : Z) (rv : Z -> Z -> Z -> pull any) (rr : Z -> Z -> pull Restriction) (Hrr : forall vd rd, yields typed (rr vd rd)).
Lemma elems_typed vd rd n : yields (Forall typed) (pull_elems n (rr vd rd)).
Proof. eapply yields_bind; [apply yields_any|]. intros _ _. by apply yields_times. Qed.
Lemma payload_typed vd rd rt : yields (fun v => res_typed rt v = true) (pull_resPayload fl rv rr vd rd rt).
Proof.
  unfold pull_resPayload. destruct (table_get res_table rt) as [k|] eqn:Ek; [|apply yields_err].
  unfold res_table in Ek. cbn [table_get] in Ek.
  repeat match type of Ek with (if ?b then _ else _) = _ => let E := fresh in destruct b eqn:E; [apply Z.eqb_eq in E; subst rt; injection Ek as <-|clear E] end; try done.
  all: repeat first
    [ apply yields_ret; try done; try (cbn [res_typed]; by apply forallb_forall, List.Forall_forall)
    | apply yields_err
    | eapply yields_bind; [first [apply Hrr|apply elems_typed|apply yields_any]|]; intros ? ?
    | match goal with |- yields _ (if ?b then _ else _) => destruct b | |- yields _ (let '(_, _) := ?x in _) => destruct x end ].
Qed.
Lemma node_typed vd rd : yields typed (pull_resNode fl rv rr vd rd).
Proof.
  unfold pull_resNode. destruct (_ <? _); [apply yields_err|]. eapply yields_bind; [apply yields_any|]. intros rt _.
  eapply yields_bind; [apply payload_typed|]. intros v Hv. by apply yields_ret.
Qed.
End typed.
Lemma restriction_typed n fl vd rd : yields typed (pull_restriction n fl vd rd).
Proof. revert vd rd. induction n as [|n IH]; intros vd rd; cbn [pull_restriction]; [apply yields_err|]. by apply node_typed. Qed.
Lemma Restriction_typed fl b r rest : pull_Restriction fl b = Ok (r, rest) -> typed r.
Proof. apply restriction_typed. Qed.

(** Such a restriction is evaluated. *)
Definition evaluates L props (v : any) : Prop := forall ty, res_typed ty v = true -> exists b, eval_res L props ty v = Some b.
Lemma eval_children L props l :
  Forall (evaluates L props) (map resValue l) -> forallb (fun r => res_typed (resType r) (resValue r)) l = true ->
  Forall (fun r => exists b, eval_res L props (resType r) (resValue r) = Some b) l.
Proof.
  induction l as [|r l IH]; cbn; [done|]. intros Hl Ht. apply andb_true_iff in Ht as [Hr Ht]. inversion Hl as [|? ? Hv Hl']; subst.
  constructor; [by apply Hv|by apply IH].
Qed.
Lemma eval_typed L props v : evaluates L props v.
Proof.
  induction v as [v IH] using any_ind'. intros ty.
  destruct v; cbn [eval_res res_typed children] in *;
    repeat (match goal with |- context [ty =? ?c] => destruct (ty =? c) end; cbn [orb]; try done; try (intros; by eexists)).
  - intros Ht. inversion IH as [|? ? Hv _]; subst. destruct (Hv _ Ht) as [b ->]. by eexists.
  - intros Ht. apply (eval_children _ _ _ IH) in Ht. clear IH. induction Ht as [|r l [b ->] _ IHl]; [by eexists|]. destruct b; [done|by eexists].
  - intros Ht. apply (eval_children _ _ _ IH) in Ht. clear IH. induction Ht as [|r l [b ->] _ IHl]; [by eexists|]. destruct b; [by eexists|done].
  - intros Ht. destruct (cmRes c) as [r|]; [|by eexists]. apply List.Forall_app in IH as [_ IH]. inversion IH as [|? ? Hv _]; subst. by apply Hv.
Qed.

(** ** Tables *)

Lemma len_upto a b : 0 <= b - a -> len (upto a b) = b - a.
Proof. intros. unfold upto, len. rewrite length_map, length_seq. lia. Qed.
Lemma upto_range a b : Forall (fun i => a <= i < b) (upto a b).
Proof. apply List.Forall_forall. intros i. unfold upto. rewrite in_map_iff. intros (n & <- & Hn%in_seq). lia. Qed.
Lemma downto_range a b : Forall (fun i => a <= i < b) (downto a b).
Proof. apply List.Forall_forall. intros i. unfold downto. rewrite in_map_iff. intros (n & <- & Hn%in_seq). lia. Qed.
Lemma baseCount_nonneg t : 0 <= baseCount t.
Proof. unfold baseCount. destruct (tb_rows t); apply len_nonneg. Qed.
Lemma total_nonneg t : 0 <= total t.
Proof. unfold total. destruct (tb_view t); [apply len_nonneg|apply baseCount_nonneg]. Qed.

Section tables.
Context {S : Type} {cf : config} {P : Policy S cf} `{B : Backend S} {L : libs} {Law : Lawful P L}.
Implicit Types (w : world S) (t : tableState).

Definition plain (t : tableState) : Prop := may_panic \/ match tb_rows t with TPermission _ | TRules _ => False | _ => True end.
Definition typed_filter (r : option Restriction) : Prop := may_panic \/ match r with Some r => typed r | None => True end.
Definition view_ok (t : tableState) : Prop := match tb_view t with Some v => Forall (fun i => 0 <= i < baseCount t) v | None => True end.
Lemma table_ok_parts t : table_ok t <-> 0 <= tb_cursor t <= total t /\ view_ok t /\ plain t /\ typed_filter (tb_restriction t).
Proof. unfold table_ok, plain, typed_filter, view_ok, typed. destruct (tb_restriction t); tauto. Qed.

Lemma safe_index {A} w (l : list A) i : WF w -> 0 <= i < len l -> safe w (index l i) (fun _ _ => True).
Proof.
  intros W Hi. unfold index. rewrite (proj2 (Z.ltb_ge _ _)) by lia. destruct (lookup_lt_is_Some_2 l (Z.to_nat i)) as [a ->]; [unfold len in Hi; lia|].
  by apply safe_ret.
Qed.
Lemma safe_index_or {A} w (l : list A) i : WF w -> may_panic \/ 0 <= i < len l -> safe w (index l i) (fun _ _ => True).
Proof.
  intros W [Hp|Hi]; [|by apply safe_index]. unfold index. destruct (if i <? 0 then _ else _); [by apply safe_ret|by apply safe_panic].
Qed.
#[local] Hint Resolve safe_index safe_index_or : ropspec.

Lemma safe_rowKeyProps w st t base tags : WF w -> plain t -> 0 <= base < baseCount t -> safe w (rowKeyProps st t base tags) (fun _ _ => True).
Proof.
  intros W Hp Hb. unfold rowKeyProps. unfold plain, baseCount in *. destruct (tb_rows t); steps.
  all: by destruct Hp as [Hp|[]].
Qed.
Lemma safe_rows_key_props w st t tags idxs :
  WF w -> plain t -> Forall (fun i => 0 <= i < baseCount t) idxs -> safe w (rows_key_props st t tags idxs) (fun r _ => forall bags, r = Ok bags -> length bags = length idxs).
Proof.
  intros W Hp Hi. revert w W. induction Hi as [|i idxs Hi _ IH]; intros w W; cbn [rows_key_props]; [apply safe_ret; [done|by intros ? [= <-]]|].
  eapply safe_bind_ok; [by apply safe_rowKeyProps| |done]. intros b w1 W1 E1 _.
  eapply safe_bind_ok; [by apply IH| |done]. intros bs w2 W2 E2 Hbs. apply safe_ret; [done|]. intros ? [= <-]. cbn. f_equal. by apply Hbs.
Qed.
Lemma safe_keyProps w st t : WF w -> plain t -> safe w (keyProps st t) (fun r _ => forall bags, r = Ok bags -> len bags = baseCount t).
Proof.
  intros W Hp. unfold keyProps.
  assert (Hrest : safe w (rows_key_props st t (viewTags t) (upto 0 (baseCount t))) (fun r _ => forall bags, r = Ok bags -> len bags = baseCount t)).
  { eapply safe_weaken; [apply safe_rows_key_props; [done|done|apply upto_range]|]. intros r w' _ _ Hr bags Eb. unfold len. rewrite (Hr _ Eb).
    pose proof (baseCount_nonneg t). change (len (upto 0 (baseCount t)) = baseCount t). rewrite len_upto by lia. lia. }
  destruct (tb_rows t) as [ids|?|?|?|?] eqn:Er; [|exact Hrest..]. unfold contentsKeyProps. clear Hrest.
  eapply safe_bind_ok; [by apply (safe_ask w (CMessagePropertiesBatch st ids _) (fun _ _ => True))| |done]. intros by_ w1 W1 E1 _.
  eapply safe_bind_ok; [by apply (safe_ask w1 (CMessageComputedPropsBatch st ids _) (fun _ _ => True))| |done]. intros cm w2 W2 E2 _.
  apply safe_ret; [done|]. intros ? [= <-]. unfold baseCount. rewrite Er. unfold len. by rewrite length_map.
Qed.
Lemma safe_eval w r props : WF w -> typed_filter r -> safe w (eval_or_panic L r props) (fun _ _ => True).
Proof.
  intros W Hr. unfold eval_or_panic. destruct r as [r|]; [|by apply safe_ret]. unfold evalRestriction.
  destruct (eval_res L props (resType r) (resValue r)) eqn:E; [by apply safe_ret|]. apply safe_panic. destruct Hr as [|Hr]; [done|].
  destruct (eval_typed L props _ _ Hr). congruence.
Qed.
Lemma safe_view_of w t bags :
  WF w -> typed_filter (tb_restriction t) -> safe w (view_of L t bags) (fun v _ => Forall (fun i => 0 <= i < len bags) v).
Proof.
  intros W Hr. unfold view_of.
  eapply safe_bind; [apply (safe_each w _ (fun x => 0 <= x.1.1 < len bags)); [done|]|].
  { intros [i b] w' Hib W' E. apply list_elem_of_lookup in Hib as [k Hk]. rewrite list_lookup_imap_Some in Hk. destruct Hk as (b' & Hk & [= -> ->]).
    eapply safe_bind; [by apply safe_eval|]. intros. apply safe_ret; [done|]. cbn. apply lookup_lt_Some in Hk. unfold len. lia. }
  intros keep w1 W1 E1 Hk. apply safe_ret; [done|]. apply List.Forall_forall. intros i Hi. apply in_map_iff in Hi as ([j b] & <- & Hj).
  apply (Permutation_in _ (SliceStable_perm _ _)), in_map_iff in Hj as ([x k] & <- & Hin). apply filter_In in Hin as [Hin _].
  rewrite List.Forall_forall in Hk. by apply (Hk _ Hin).
Qed.

Lemma safe_rebuildView w p st t :
  WF w -> kind_at w p = Some KTable -> store_ok w st -> view_ok t -> plain t -> typed_filter (tb_restriction t) -> safe w (rebuildView L p st t) (fun _ _ => True).
Proof.
  intros W Hk Hs Hv Hp Hr. unfold rebuildView.
  assert (H0 : forall keys res view, typed_filter res -> match view with Some v => Forall (fun i => 0 <= i < baseCount t) v | None => True end -> table_ok (tb_set_view t keys res view 0)).
  { intros keys res view Hres Hview. apply table_ok_parts. split_and!; [done|apply total_nonneg|exact Hview|exact Hp|exact Hres]. }
  apply step_assign; [done|done|split; [done|by apply H0]|]. next.
  set (t0 := tb_set_cursor t 0) in *.
  assert (Hrest : safe w0 (bags ←? keyProps st t0;
      view ← view_of L t0 bags;
      _ ← assign p (OTable st (tb_set_view t0 (tb_sortKeys t0) (tb_restriction t0) (Some view) 0));
      ok tt) (fun _ _ => True)).
  { eapply safe_bind_ok; [by apply safe_keyProps| |done]. intros bags w1 W1 E1 Hb. specialize (Hb _ eq_refl). transport E1.
    eapply safe_bind; [by apply safe_view_of|]. intros view w2 W2 E2 Hview. transport E2.
    apply step_assign; [done|done|split; [done|]|intros; by apply safe_ret]. apply (H0 _ _ (Some view)); [done|]. by rewrite Hb in Hview. }
  destruct (tb_restriction t0) as [r|] eqn:Er; [exact Hrest|]. destruct (tb_sortKeys t0) as [|k keys] eqn:Ek; [|exact Hrest].
  apply step_assign; [done|done|split; [done|by apply (H0 [] None None); [right|]]|]. intros. by apply safe_ret.
Qed.

Lemma table_ok_cursor t c : table_ok t -> 0 <= c <= total t -> table_ok (tb_set_cursor t c).
Proof. rewrite !table_ok_parts. intros (_ & Hv & Hp & Hr) Hc. split; [exact Hc|]. split; [exact Hv|]. split; [exact Hp|exact Hr]. Qed.
Lemma seek_target_ok t o f t' l n : seek_target t o f = (t', l, n) -> table_ok t -> table_ok t'.
Proof. intros [= <- _ _] Ht. apply table_ok_cursor; [done|]. pose proof (total_nonneg t). lia. Qed.
Lemma seekOrigin_range t pos o : table_ok t -> seekOrigin t pos = Some o -> 0 <= o <= total t.
Proof. intros (Hc & _) Hs. unfold seekOrigin in Hs. pose proof (total_nonneg t). repeat case_match; simplify_eq; lia. Qed.
Lemma safe_baseIndex w t i : WF w -> table_ok t -> 0 <= i < total t -> safe w (baseIndex t i) (fun b _ => 0 <= b < baseCount t).
Proof.
  intros W (_ & Hv & _) Hi. unfold baseIndex. unfold total in Hi. destruct (tb_view t) as [v|]; [|by apply safe_ret].
  unfold index. rewrite (proj2 (Z.ltb_ge _ _)) by lia. destruct (lookup_lt_is_Some_2 v (Z.to_nat i)) as [b Hb]; [unfold len in Hi; lia|]. rewrite Hb.
  apply safe_ret; [done|]. rewrite List.Forall_forall in Hv. apply Hv, list_elem_of_In. by eapply list_elem_of_lookup_2.
Qed.
Lemma safe_rowProps w st t i : WF w -> table_ok t -> 0 <= i < total t -> safe w (rowProps st t i) (fun _ _ => True).
Proof.
  intros W Ht Hi. unfold rowProps. eapply safe_bind; [by apply safe_baseIndex|]. intros b w1 W1 _ Hb. unfold baseCount in Hb. destruct (tb_rows t); steps.
Qed.
#[local] Hint Resolve safe_rowProps : ropspec.
Lemma safe_encodeRow w st t i : WF w -> table_ok t -> 0 <= i < total t -> safe w (encodeRow st t i) (fun _ _ => True).
Proof. intros W Ht Hi. unfold encodeRow. steps. Qed.
Lemma safe_encodeRows w st t idxs : WF w -> table_ok t -> Forall (fun i => 0 <= i < total t) idxs -> safe w (encodeRows st t idxs) (fun _ _ => True).
Proof.
  intros W Ht Hi. revert w W. induction Hi as [|i idxs Hi _ IH]; intros w W; cbn [encodeRows]; [by apply safe_ret|].
  eapply safe_bind_ok; [by apply safe_encodeRow| |done]. intros b w1 W1 E1 _.
  eapply safe_bind_ok; [by apply IH| |done]. intros. by apply safe_ret.
Qed.
Lemma safe_matchRow w st t i r : WF w -> table_ok t -> 0 <= i < total t -> typed_filter r -> safe w (matchRow L st t i r) (fun _ _ => True).
Proof.
  intros W Ht Hi Hr. unfold matchRow. destruct r as [r|]; [|by apply safe_ret]. eapply safe_bind; [by apply safe_baseIndex|]. intros b w1 W1 _ Hb.
  apply table_ok_parts in Ht as (_ & _ & Hp & _).
  eapply safe_bind_ok; [by apply safe_rowKeyProps| |done]. intros pv w2 W2 _ _.
  eapply safe_bind; [by apply safe_eval|]. intros. by apply safe_ret.
Qed.
Lemma safe_first_match w st t r idxs :
  WF w -> table_ok t -> typed_filter r -> Forall (fun i => 0 <= i < total t) idxs -> safe w (first_match L st t r idxs) (fun x _ => forall i, x = Ok (Some i) -> 0 <= i < total t).
Proof.
  intros W Ht Hr Hi. revert w W. induction Hi as [|i idxs Hi _ IH]; intros w W; cbn [first_match]; [by apply safe_ret|].
  eapply safe_bind_ok; [by apply safe_matchRow| |done]. intros [] w1 W1 E1 _; [|by apply IH]. apply safe_ret; [done|]. by intros ? [= <-].
Qed.
Lemma safe_scanForRow w st t start r b :
  WF w -> table_ok t -> typed_filter r -> 0 <= start <= total t -> safe w (scanForRow L st t start r b) (fun x _ => forall i, x = Ok (Some i) -> 0 <= i < total t).
Proof.
  intros W Ht Hr Hs. apply safe_first_match; [done..|]. destruct b; (eapply List.Forall_impl; [|first [apply downto_range|apply upto_range]]); cbn; intros; lia.
Qed.
Lemma safe_parse_restriction w r i raw : WF w -> safe w (parse_restriction r i raw) (fun x _ => typed_filter x).
Proof.
  intros W. unfold parse_restriction. destruct raw as [|b raw]; [apply safe_ret; [done|by right]|].
  destruct (pull_Restriction fl (b :: raw)) as [[x rest]|] eqn:E; [|by apply safe_fail].
  destruct (restrictionSupported x); [|by apply safe_fail]. apply safe_ret; [done|]. right. by eapply Restriction_typed.
Qed.

#[export] Instance quiet_childFolders st fid : Quiet (childFolders st fid).
Proof. intros w W. steps. Qed.
#[export] Instance quiet_contentsTableIDs st fid b : Quiet (contentsTableIDs st fid b).
Proof. intros w W. steps. Qed.
#[export] Instance quiet_ropGetHierarchyTable i : Quiet (ropGetHierarchyTable i).
Proof. intros w W. steps. Qed.
#[export] Instance quiet_ropGetContentsTable i : Quiet (ropGetContentsTable i).
Proof. intros w W. steps. Qed.
#[export] Instance quiet_ropSetColumns i : Quiet (ropSetColumns i).
Proof. intros w W. steps. Qed.

Lemma known_table w p st t : known w p (OTable st t) -> kind_at w p = Some KTable /\ store_ok w st /\ table_ok t.
Proof. intros [Hk [Hs Ht]]. done. Qed.
Lemma safe_rebuild w p st t t' :
  WF w -> known w p (OTable st t) -> tb_rows t' = tb_rows t -> tb_view t' = tb_view t -> typed_filter (tb_restriction t') -> safe w (rebuildView L p st t') (fun _ _ => True).
Proof.
  intros W (Hk & Hs & Ht)%known_table Er Ev Hr. apply table_ok_parts in Ht as (_ & Hv & Hp & _).
  apply safe_rebuildView; [done..| | |done].
  - unfold view_ok in *. rewrite Ev. unfold baseCount in *. by rewrite Er.
  - unfold plain in *. by rewrite Er.
Qed.
Lemma safe_resort w p st t keys : WF w -> known w p (OTable st t) -> safe w (rebuildView L p st (tb_set_view t keys (tb_restriction t) (tb_view t) (tb_cursor t))) (fun _ _ => True).
Proof. intros W Hk. eapply safe_rebuild; [done|done|done|done|]. apply known_table in Hk as (_ & _ & Ht). by apply table_ok_parts in Ht as (_ & _ & _ & Hr). Qed.
Lemma safe_refilter w p st t res :
  WF w -> known w p (OTable st t) -> typed_filter res -> safe w (rebuildView L p st (tb_set_view t (tb_sortKeys t) res (tb_view t) (tb_cursor t))) (fun _ _ => True).
Proof. intros W Hk Hr. by eapply safe_rebuild. Qed.
#[local] Hint Resolve safe_resort safe_refilter safe_parse_restriction : ropspec.
#[export] Instance quiet_ropSortTable i : Quiet (ropSortTable L i).
Proof. intros w W. steps. Qed.
#[export] Instance quiet_ropRestrict i : Quiet (ropRestrict L i).
Proof. intros w W. steps. Qed.

Lemma page_range t n f idxs c :
  0 <= n -> table_ok t -> pageIndices t n f = (idxs, c) -> Forall (fun i => 0 <= i < total t) idxs /\ 0 <= c <= total t.
Proof.
  intros Hn (Hc & _) Hp. unfold pageIndices in Hp. destruct f; injection Hp as <- <-.
  - split; [|lia]. eapply List.Forall_impl; [|apply upto_range]. cbn. intros. lia.
  - split; [|lia]. eapply List.Forall_impl; [|apply downto_range]. cbn. intros. lia.
Qed.
Lemma safe_openTable w r i ec : WF w -> safe w (openTable r i ec) (fun x w' => known w' x.1.1 (OTable x.1.2 x.2)).
Proof. intros W. unfold openTable. steps. Qed.
Lemma safe_openProjected w r i : WF w -> safe w (openProjectedTable r i) (fun x w' => known w' x.1.1 (OTable x.1.2 x.2)).
Proof. intros W. unfold openProjectedTable, openStoreTable. steps. Qed.
#[export] Instance quiet_ropQueryRows i : Quiet (ropQueryRows i).
Proof.
  intros w W. unfold ropQueryRows. step. destruct a as [[f d] n]. cbn beta iota.
  assert (Hn : 0 <= n).
  { do 3 (apply read_bind in Hread as (? & ? & Hread); [|by shrink]). apply read_ret in Hread. simplify_eq. by destruct (read_Uint16 _ H1). }
  eapply safe_bind; [by apply safe_openProjected|]. intros [[p st] t] w1 W1 E1 Hk. cbn in Hk. destruct (pageIndices t n _) as [idxs c] eqn:Ep.
  pose proof (known_table _ _ _ _ Hk) as (_ & _ & Ht). destruct (page_range _ _ _ _ _ Hn Ht Ep) as [Hi Hc].
  eapply safe_bind; [by apply safe_encodeRows|]. intros r w2 W2 E2 _. transport E2. steps.
  destruct (known_table _ _ _ _ Hk) as (_ & Hs & _). split; [done|].
  destruct (Z.land f _ =? 0); [by apply table_ok_cursor|done].
Qed.
Lemma table_moved w p st t t' : known w p (OTable st t) -> table_ok t' -> obj_ok w (OTable st t').
Proof. intros (_ & Hs & _)%known_table Ht. by split. Qed.
#[export] Instance quiet_ropSeekRow i : Quiet (ropSeekRow i).
Proof. intros w W. steps. all: eapply table_moved; [done|]. all: eapply seek_target_ok; [done|]. all: by destruct (known_table _ _ _ _ H) as (_ & _ & ?). Qed.
#[export] Instance quiet_ropFindRow i : Quiet (ropFindRow L i).
Proof.
  intros w W. unfold ropFindRow. step. destruct a as [[f raw] pos]. cbn beta iota.
  eapply safe_bind; [by apply safe_openProjected|]. intros [[p st] t] w1 W1 E1 Hk. cbn in Hk.
  eapply safe_bind; [by apply safe_parse_restriction|]. intros res w2 W2 E2 Hr. transport E2.
  pose proof (known_table _ _ _ _ Hk) as (_ & _ & Ht). destruct (seekOrigin t pos) as [start|] eqn:Es; [|by apply safe_fail].
  eapply safe_bind; [apply safe_scanForRow; [done..|by eapply seekOrigin_range]|]. intros [found|] w3 W3 E3 Hf; [|by apply step_fail].
  transport E3. apply step_ret. destruct found as [j|]; [|steps]. specialize (Hf _ eq_refl).
  apply step_assign; [done|by destruct (known_table _ _ _ _ Hk)|eapply table_moved; [done|]; apply table_ok_cursor; [done|lia]|]. next.
  eapply safe_bind; [by apply safe_encodeRow|]. intros. steps.
Qed.
#[export] Instance quiet_ropGetStatus i : Quiet (ropGetStatus i).
Proof. intros w W. steps. Qed.
#[export] Instance quiet_ropQueryPosition i : Quiet (ropQueryPosition i).
Proof. intros w W. steps. Qed.
#[export] Instance quiet_ropSeekRowFractional i : Quiet (ropSeekRowFractional i).
Proof.
  intros w W. steps. eapply table_moved; [done|]. destruct (known_table _ _ _ _ H) as (_ & _ & Ht). apply table_ok_cursor; [done|].
  do 2 (apply read_bind in Hread as (? & ?%read_Uint32 & Hread); [|by shrink]). apply read_ret in Hread. simplify_eq.
  pose proof (total_nonneg t). assert (0 <= x * total t / x0) by (apply Z.div_pos; nia). lia.
Qed.
#[export] Instance quiet_ropQueryColumnsAll i : Quiet (ropQueryColumnsAll i).
Proof. intros w W. steps. Qed.
#[export] Instance quiet_ropAbort i : Quiet (ropAbort i).
Proof. intros w W. steps. Qed.
#[export] Instance quiet_ropGetCollapseState i : Quiet (ropGetCollapseState i).
Proof. intros w W. steps. Qed.
#[export] Instance quiet_ropExpandRow i : Quiet (ropExpandRow i).
Proof. intros w W. steps. Qed.
#[export] Instance quiet_ropCollapseRow i : Quiet (ropCollapseRow i).
Proof. intros w W. steps. Qed.
#[export] Instance quiet_ropSetCollapseState i : Quiet (ropSetCollapseState i).
Proof. intros w W. steps. Qed.
#[export] Instance quiet_ropResetTable i : Quiet (ropResetTable i).
Proof.
  intros w W. steps. eapply table_moved; [done|]. destruct (known_table _ _ _ _ H) as (_ & _ & (_ & _ & Hp & _)%table_ok_parts). by apply table_ok_new.
Qed.
#[export] Instance quiet_ropFreeBookmark i : Quiet (ropFreeBookmark i).
Proof. intros w W. steps. Qed.
#[export] Instance quiet_ropCreateBookmark i : Quiet (ropCreateBookmark i).
Proof. intros w W. steps. Qed.
#[export] Instance quiet_ropSeekRowBookmark i : Quiet (ropSeekRowBookmark i).
Proof. intros w W. steps. all: eapply table_moved; [done|]. all: eapply seek_target_ok; [done|]. all: by destruct (known_table _ _ _ _ H) as (_ & _ & ?). Qed.
End tables.
