(* ===== verification/RopSafeFolder.v ===== *)
(** * The ROP layer: folders, logons, synchronization and notifications keep the invariant *)

From stdpp Require Import base list gmap numbers.
From Stdlib Require Import ZArith Lia.
From S2P Require Import Prelude Mapi Wire ExtVal Gostr Permission RopTags RopBase RopProps RopMessage RopAttach RopMsgops RopTable RopFolder RopLogon RopSync RopNotify RopInv RopRules RopSafe.
Open Scope Z_scope.

Section folders.
Context {S : Type} {cf : config} {P : Policy S cf} `{B : Backend S} {L : libs} {Law : Lawful P L}.
Implicit Types w : world S.

(** ** Folders *)

#[export] Instance quiet_ropOpenFolder i : Quiet (ropOpenFolder i).
Proof. intros w W. steps. Qed.
#[export] Instance quiet_createFolderParentError st fid : Quiet (createFolderParentError st fid).
Proof. intros w W. steps. Qed.
#[export] Instance quiet_openExistingFolder st fid req : Quiet (openExistingFolder st fid req).
Proof. intros w W. steps. Qed.
Lemma created_folder_intro (s : S) st parent name fid : gate s st parent FrightsCreateSubfolder -> happened s (CCreateFolder st parent name) (Ok fid) -> created_folder s st fid.
Proof. intros. exists parent, name. split; [done|by left]. Qed.
Lemma created_search_intro (s : S) st parent name fid : gate s st parent FrightsCreateSubfolder -> happened s (CCreateSearchFolder st parent name) (Ok fid) -> created_folder s st fid.
Proof. intros. exists parent, name. split; [done|by right]. Qed.
#[local] Hint Resolve created_folder_intro created_search_intro : rop.
#[export] Instance quiet_ropCreateFolder i : Quiet (ropCreateFolder i).
Proof. intros w W. steps. Qed.
#[export] Instance quiet_ropDeleteFolder i : Quiet (ropDeleteFolder i).
Proof. intros w W. steps. Qed.
#[export] Instance quiet_ropMoveFolder i : Quiet (ropMoveFolder i).
Proof. intros w W. steps. Qed.
#[export] Instance quiet_ropCopyFolder i : Quiet (ropCopyFolder i).
Proof. intros w W. steps. Qed.
Lemma quiet_empty_folder : by_folder -> forall r i, Quiet (empty_folder r i).
Proof. intros Hf r i w W. steps. Qed.
Lemma quiet_ropHardDeleteMessages : by_folder -> forall i, Quiet (ropHardDeleteMessages i).
Proof. intros Hf i w W. steps. Qed.

(** ** Search folders *)

#[export] Instance quiet_searchFolderError st fid : Quiet (searchFolderError st fid).
Proof. intros w W. steps. Qed.
#[export] Instance quiet_partialSearchChange st fid req : Quiet (partialSearchChange st fid req).
Proof. intros w W. steps. Qed.
Lemma readable_own (s : S) st fid : (strict -> st_dir st = c_mailbox cf) -> readable s st fid.
Proof. intros Hd Hs. left. by apply Hd. Qed.
Lemma safe_search_scope w st caller eids :
  WF w -> (strict -> st_dir st = c_mailbox cf \/ caller = Some (c_owner cf)) -> safe w (search_scope st caller eids) (fun r w' => Forall (readable (w_store w') st) r.1).
Proof.
  intros W Hc. revert w W. induction eids as [|eid eids IH]; intros w W; cbn [search_scope]; [by apply safe_ret|].
  destruct (negb _); [by apply safe_ret|].
  eapply (safe_bind _ _ _ (fun ec w' => ec = ecSuccess -> readable (w_store w') st (store_id eid))).
  { destruct caller as [u|]; [|apply safe_ret; [done|]; intros _ Hs; destruct (Hc Hs); [by left|done]].
    eapply (safe_bind _ _ _ (fun r w' => happened (w_store w') (CResolvePermission st (store_id eid) u) r)); [by apply safe_ask|].
    intros [rights|] w1 W1 E1 Hh; (apply safe_ret; [done|]); [|done]. destruct (Z.land rights _ =? 0) eqn:Er; [done|]. intros _ Hs.
    destruct (Hc Hs) as [|[= ->]]; [by left|right]. exists rights. split; [done|]. by apply Z.eqb_neq. }
  intros ec w1 W1 E1 Hec. destruct (negb (ec =? ecSuccess)) eqn:Eec; [by apply safe_ret|].
  apply negb_false_iff, Z.eqb_eq in Eec. specialize (Hec Eec). eapply safe_bind; [by apply IH|].
  intros [scope ec'] w2 W2 E2 Hsc. transport E2. apply safe_ret; [done|]. by constructor.
Qed.
Lemma safe_searchScope w st eids : WF w -> store_ok w st -> safe w (searchScope st eids) (fun r w' => Forall (readable (w_store w') st) r.1).
Proof.
  intros W Hs. unfold searchScope. apply step_sess; [done|]. apply safe_search_scope; [done|]. intros Ht. by apply dir_cases.
Qed.
#[local] Hint Resolve safe_searchScope : ropspec.
#[export] Instance quiet_ropSetSearchCriteria i : Quiet (ropSetSearchCriteria i).
Proof. intros w W. steps. Qed.
#[export] Instance quiet_ropGetSearchCriteria i : Quiet (ropGetSearchCriteria i).
Proof. intros w W. steps. Qed.

(** ** Rules, permissions and receive folders *)

#[export] Instance quiet_ropModifyRules i : Quiet (ropModifyRules i).
Proof. intros w W. steps. Qed.
#[export] Instance quiet_ropModifyPermissions i : Quiet (ropModifyPermissions cf i).
Proof. intros w W. steps. Qed.
Lemma quiet_ropGetRulesTable i : may_panic -> Quiet (ropGetRulesTable i).
Proof. intros Hp w W. steps. Qed.
Lemma quiet_ropGetPermissionsTable i : may_panic -> Quiet (ropGetPermissionsTable i).
Proof. intros Hp w W. steps. Qed.
#[export] Instance quiet_ropGetReceiveFolder i : Quiet (ropGetReceiveFolder i).
Proof. intros w W. steps. Qed.
Lemma safe_denyDelegate_own w r i st : WF w -> store_ok w st -> safe w (denyDelegate r i st) (fun _ _ => strict -> st_dir st = c_mailbox cf).
Proof. intros W Hs. by apply safe_denyDelegate. Qed.
#[local] Hint Resolve safe_denyDelegate_own : ropspec.
#[export] Instance quiet_ropSetReceiveFolder i : Quiet (ropSetReceiveFolder i).
Proof. intros w W. steps. Qed.
#[export] Instance quiet_ropGetReceiveFolderTable i : Quiet (ropGetReceiveFolderTable i).
Proof. intros w W. steps. Qed.
#[export] Instance quiet_ropGetStoreState i : Quiet (ropGetStoreState i).
Proof. intros w W. steps. Qed.

(** ** Logon and the operations of the store *)

Lemma HasPrefix_length s p : HasPrefix s p = true -> (length p <= length s)%nat.
Proof.
  revert p. induction s as [|b s IH]; intros [|x p]; cbn; intros E; try lia. apply andb_true_iff in E as [_ E]. apply IH in E. lia.
Qed.
Lemma last_index_le s needle i : last_index s needle = Some i -> (i + length needle <= length s)%nat.
Proof.
  revert i. induction s as [|a s IH]; intros i; cbn [last_index].
  - destruct (HasPrefix [] needle) eqn:E; [|done]. intros [= <-]. apply HasPrefix_length in E. cbn in *. lia.
  - destruct (last_index s needle) as [j|]; [intros [= <-]; specialize (IH _ eq_refl); cbn; lia|].
    destruct (HasPrefix (a :: s) needle) eqn:E; [|done]. intros [= <-]. apply HasPrefix_length in E. lia.
Qed.
Lemma drop_nuls_suffix s : exists p, s = p ++ drop_nuls s.
Proof. induction s as [|[] s [p IH]]; cbn; [by exists []|exists (0 :: p); cbn; by f_equal|by exists []..]. Qed.
Lemma trim_nuls_prefix s : exists q, s = trim_nuls s ++ q.
Proof. destruct (drop_nuls_suffix (rev s)) as [p Hp]. exists (rev p). unfold trim_nuls. by rewrite <- rev_app_distr, <- Hp, rev_involutive. Qed.
(** The DN of a logon request is a slice of the request. *)
Lemma read_dn flags dn : read_by pullLogonRequest (flags, dn) -> may_panic \/ (length (lower (trim_nuls dn)) <= length (trim_nuls dn))%nat.
Proof.
  intros Hr. do 4 (apply read_bind in Hr as (? & _ & Hr); [|by shrink]).
  apply read_bind in Hr as (d & (b & rest & _ & Hg & E) & Hr%read_ret); [|apply shrinks_Raw]. simplify_eq.
  destruct Hg as [|Hg]; [by left|right]. unfold pull_Raw in E. destruct (_ || _); [done|]. injection E as E _.
  destruct (trim_nuls_prefix d) as [q Hq]. apply (Hg [] (trim_nuls d) (q ++ drop (Z.to_nat x2) b)). cbn. rewrite app_assoc, <- Hq, <- E. by rewrite take_drop.
Qed.
Lemma safe_essdnToSMTP w dn : WF w -> may_panic \/ (length (lower (trim_nuls dn)) <= length (trim_nuls dn))%nat -> safe w (essdnToSMTP L dn) (fun _ _ => True).
Proof.
  intros W Hg. unfold essdnToSMTP. rewrite lower_lib. steps. destruct Hg as [|Hl]; [done|]. exfalso.
  match goal with E : last_index _ _ = Some _, F : (_ <? _)%nat = true |- _ => apply last_index_le in E; apply Nat.ltb_lt in F; cbn in E end. lia.
Qed.
#[local] Hint Resolve safe_essdnToSMTP : ropspec.
Lemma safe_logonTarget w dn :
  WF w -> may_panic \/ (length (lower (trim_nuls dn)) <= length (trim_nuls dn))%nat -> safe w (logonTarget L cf dn) (fun r _ => r.2 = None -> r.1 = c_mailbox cf).
Proof. intros W Hg. unfold logonTarget. steps. repeat case_match; done. Qed.
#[export] Instance quiet_authorizeLogon st i b : Quiet (authorizeLogon cf st i b).
Proof. intros w W. steps. Qed.
Lemma safe_note_delegate w st o : WF w -> safe w (note_delegate cf st o) (fun _ w' => s_delegateCallers (w_sess w') !! st_id st = Some (c_owner cf)).
Proof.
  intros W. eapply sess_safe; [reflexivity|done|apply W| |].
  - intros _ j Hj. cbn. rewrite lookup_insert. by case_decide.
  - intros _. cbn. by rewrite lookup_insert_eq.
Qed.
Lemma safe_logon_noted w st owner :
  WF w -> (strict -> owner = None -> st_dir st = c_mailbox cf) ->
  safe w (match owner with Some o => note_delegate cf st o | None => mret tt end) (fun _ w' => store_ok w' st).
Proof.
  intros W Hd. destruct owner as [o|]; [eapply safe_weaken; [by apply safe_note_delegate|]; by intros ? w' ? ? Hn ? ?|].
  apply safe_ret; [done|]. intros Hs Hne. by destruct Hne, Hd.
Qed.
#[export] Instance quiet_ropLogon i : Quiet (ropLogon L cf i).
Proof.
  intros w W. unfold ropLogon. step. destruct a as [flags dn]. cbn beta iota. eapply safe_bind; [apply safe_logonTarget; [done|by eapply read_dn]|].
  intros [maildir owner] w1 W1 E1 Ht. cbn in Ht. step. step. step; [step|by apply step_fail].
  assert (Hd : strict -> owner = None -> st_dir a = c_mailbox cf).
  { intros Hs Ho. rewrite <- (Ht Ho). match goal with Ha : answers (COpen _) _ |- _ => by apply Ha end. }
  step. step. step. destruct a1 as [g|]; [destruct a2 as [g'|]|]; [|steps..]. cbn beta iota.
  eapply safe_bind; [by apply safe_logon_noted|]. intros ? w9 W9 E9 Hs. steps.
Qed.
#[export] Instance quiet_ropGetPropertyIdsFromNames i : Quiet (ropGetPropertyIdsFromNames i).
Proof. intros w W. steps. Qed.
#[export] Instance quiet_ropGetNamesFromPropertyIds i : Quiet (ropGetNamesFromPropertyIds i).
Proof. intros w W. steps. Qed.
#[export] Instance quiet_ropLongTermIdFromId i : Quiet (ropLongTermIdFromId i).
Proof. intros w W. steps. Qed.
#[export] Instance quiet_ropIdFromLongTermId i : Quiet (ropIdFromLongTermId i).
Proof. intros w W. steps. Qed.
#[export] Instance quiet_ropGetPerUserLongTermIds i : Quiet (ropGetPerUserLongTermIds i).
Proof. intros w W. steps. Qed.
#[export] Instance quiet_ropGetPerUserGuid i : Quiet (ropGetPerUserGuid i).
Proof. intros w W. steps. Qed.
#[export] Instance quiet_ropReadPerUserInformation i : Quiet (ropReadPerUserInformation i).
Proof. intros w W. steps. Qed.
#[export] Instance quiet_ropWritePerUserInformation i : Quiet (ropWritePerUserInformation i).
Proof. intros w W. steps. Qed.
End folders.

(** * The ROP layer: synchronization and notifications keep the invariant *)

Section sync.
Context {S : Type} {cf : config} {P : Policy S cf} `{B : Backend S} {L : libs} {Law : Lawful P L}.
Implicit Types w : world S.

(** ** Synchronization *)

Lemma collector_content (s : S) st fid up : gate s st fid FrightsEditAny -> happened s (CNewContentUpload st fid) (Ok up) -> collector s st up.
Proof. intros. exists fid. split; [done|by left]. Qed.
Lemma collector_hierarchy (s : S) st fid up : gate s st fid FrightsEditAny -> happened s (CNewHierarchyUpload st fid) (Ok up) -> collector s st up.
Proof. intros. exists fid. split; [done|by right]. Qed.
Lemma imported_intro (s : S) st up flags header um : collector s st up -> happened s (CImportMessageChange up flags header) (Ok um) -> imported s st um.
Proof. intros. by exists up, flags, header. Qed.
#[local] Hint Resolve collector_content collector_hierarchy imported_intro : rop.
#[export] Instance quiet_ropSynchronizationConfigure i : Quiet (ropSynchronizationConfigure i).
Proof. intros w W. steps. Qed.
#[export] Instance quiet_stateSink r i : Quiet (stateSink r i).
Proof. intros w W. steps. Qed.
#[export] Instance quiet_ropSyncUploadStateStreamBegin i : Quiet (ropSyncUploadStateStreamBegin i).
Proof. intros w W. steps. Qed.
#[export] Instance quiet_ropSyncUploadStateStreamContinue i : Quiet (ropSyncUploadStateStreamContinue i).
Proof. intros w W. steps. Qed.
#[export] Instance quiet_ropSyncUploadStateStreamEnd i : Quiet (ropSyncUploadStateStreamEnd i).
Proof. intros w W. steps. Qed.
#[export] Instance quiet_ropFastTransferSourceGetBuffer i : Quiet (ropFastTransferSourceGetBuffer i).
Proof.
  intros w W. steps. assert (Ha : 0 <= a).
  { apply read_bind in Hread as (n' & Hn%read_Uint16 & Hread); [|by shrink]. destruct (n' =? 0xBABE); [apply read_bind in Hread as (? & _ & Hread); [|by shrink]|];
    apply read_ret in Hread; lia. }
  destruct H as [_ (Hs & Ho & Hu)]. cbn in Ho. split_and!; [done| |done]. cbn. destruct (_ || _); unfold fastChunkCap; lia.
Qed.
#[export] Instance quiet_ropSyncOpenCollector i : Quiet (ropSyncOpenCollector i).
Proof. intros w W. steps. Qed.
#[export] Instance quiet_ropSyncImportHierarchyChange i : Quiet (ropSyncImportHierarchyChange i).
Proof. intros w W. steps. Qed.
#[export] Instance quiet_ropSyncImportDeletes i : Quiet (ropSyncImportDeletes i).
Proof. intros w W. steps. Qed.
#[export] Instance quiet_ropSyncImportReadStateChanges i : Quiet (ropSyncImportReadStateChanges i).
Proof. intros w W. steps. Qed.
#[export] Instance quiet_ropSyncImportMessageMove i : Quiet (ropSyncImportMessageMove i).
Proof. intros w W. steps. Qed.
#[export] Instance quiet_ropSyncGetTransferState i : Quiet (ropSyncGetTransferState i).
Proof. intros w W. steps. Qed.
#[export] Instance quiet_ropSyncImportMessageChange i : Quiet (ropSyncImportMessageChange i).
Proof. intros w W. steps. Qed.
#[export] Instance quiet_ropFastTransferDestConfigure i : Quiet (ropFastTransferDestConfigure i).
Proof. intros w W. steps. Qed.
#[export] Instance quiet_ropFastTransferDestPutBuffer i : Quiet (ropFastTransferDestPutBuffer i).
Proof. intros w W. steps. Qed.
#[export] Instance quiet_ropGetLocalReplicaIds i : Quiet (ropGetLocalReplicaIds i).
Proof. intros w W. steps. Qed.
#[export] Instance quiet_ropSetLocalReplicaMidsetDeleted i : Quiet (ropSetLocalReplicaMidsetDeleted i).
Proof. intros w W. steps. Qed.
#[export] Instance quiet_ropProgress i : Quiet (ropProgress i).
Proof. intros w W. steps. Qed.
#[export] Instance quiet_ropFastTransferSourceCopyMessages i : Quiet (ropFastTransferSourceCopyMessages i).
Proof. intros w W. steps. Qed.
#[export] Instance quiet_ropFastTransferSourceCopyFolder i : Quiet (ropFastTransferSourceCopyFolder i).
Proof. intros w W. steps. Qed.
#[export] Instance quiet_ropFastTransferSourceCopyTo i : Quiet (ropFastTransferSourceCopyTo i).
Proof. intros w W. steps. Qed.
#[export] Instance quiet_ropFastTransferSourceCopyProperties i : Quiet (ropFastTransferSourceCopyProperties i).
Proof. intros w W. steps. Qed.

(** ** Notifications *)

#[export] Instance quiet_folderMetaSnapshot st l : Quiet (folderMetaSnapshot st l).
Proof. induction l as [|f l IH]; intros w W; cbn [folderMetaSnapshot]; steps. Qed.
#[export] Instance quiet_folder_snapshots st l acc : Quiet (folder_snapshots st l acc).
Proof. revert acc. induction l as [|f l IH]; intros acc w W; cbn [folder_snapshots]; steps. Qed.
#[export] Instance quiet_baselineSubscription st req : Quiet (baselineSubscription st req).
Proof. intros w W. steps. Qed.
#[export] Instance quiet_ropRegisterNotification i : Quiet (ropRegisterNotification i).
Proof. intros w W. steps. Qed.
#[export] Instance quiet_enqueue q : Quiet (enqueue q).
Proof. intros w W. eapply sess_safe; [reflexivity|done|apply W|done|done]. Qed.
#[export] Instance quiet_pollFolder st sub fid prev : Quiet (pollFolder st sub fid prev).
Proof. intros w W. steps. Qed.
#[export] Instance quiet_enqueueFolderHierarchy st sub meta l : Quiet (enqueueFolderHierarchy st sub meta l).
Proof. intros w W. steps. Qed.
#[export] Instance quiet_poll_folders st sub l snaps : Quiet (poll_folders st sub l snaps).
Proof. revert snaps. induction l as [|f l IH]; intros snaps w W; cbn [poll_folders]; steps. Qed.
Lemma safe_poll_subscription w p : WF w -> is_Some (kind_at w p) -> safe w (poll_subscription p) (fun _ _ => True).
Proof. intros W Hp. unfold poll_subscription. steps. Qed.
Lemma safe_pollTable w h p : WF w -> is_Some (kind_at w p) -> safe w (pollTable h p) (fun _ _ => True).
Proof. intros W Hp. unfold pollTable. steps. Qed.
Lemma safe_handles_where w f : WF w -> safe w (handles_where f) (fun l w' => Forall (fun hp => is_Some (kind_at w' hp.2)) l).
Proof.
  intros W. split_and!; [done|reflexivity|]. apply List.Forall_forall. intros [h p] Hin%list_elem_of_In.
  apply list_elem_of_omap in Hin as (h' & _ & Ht). destruct (s_handles (w_sess w) !! h') as [q|]; [|done].
  destruct (w_objs w !! q) as [o|] eqn:Eo; [|done]. destruct (f o); [|done]. simplify_eq. cbn. exists (kind_of o). by apply kind_at_lookup.
Qed.
Lemma safe_poll_each w (f : Z * N -> H S unit) l :
  WF w -> Forall (fun hp => is_Some (kind_at w hp.2)) l -> (forall h p w', WF w' -> is_Some (kind_at w' p) -> safe w' (f (h, p)) (fun _ _ => True)) ->
  safe w (each_ f l) (fun _ _ => True).
Proof.
  intros W Hl Hf. apply safe_each_; [done|]. intros [h p] w' Hin W' E. apply Hf; [done|]. eapply kind_live_mono; [done|].
  rewrite List.Forall_forall in Hl. apply list_elem_of_In in Hin. by apply (Hl _ Hin).
Qed.
#[export] Instance quiet_enqueueSubscriptionChanges : Quiet enqueueSubscriptionChanges.
Proof.
  intros w W. eapply safe_bind; [by apply safe_handles_where|]. intros l w1 W1 E1 Hl. apply safe_poll_each; [done..|]. intros. by apply safe_poll_subscription.
Qed.
#[export] Instance quiet_enqueueTableChanges : Quiet enqueueTableChanges.
Proof.
  intros w W. eapply safe_bind; [by apply safe_handles_where|]. intros l w1 W1 E1 Hl. apply safe_poll_each; [done..|]. intros. by apply safe_pollTable.
Qed.
#[export] Instance quiet_enqueueChanges : Quiet enqueueChanges.
Proof. intros w W. steps. Qed.
#[export] Instance quiet_drainNotifications : Quiet drainNotifications.
Proof.
  intros w W. unfold drainNotifications, safe, modify. destruct (drain _ _ _) as [q out].
  set (w1 := set_sess (set_pending q (w_sess w)) w). assert (E : ext w w1) by by split. assert (W1 : WF w1) by (destruct W; by split).
  assert (Hs : safe w1 (fun w => Val tt (set_out out w)) (fun _ _ => True)) by (eapply inert_safe; by try (exists [])).
  destruct Hs as (W2 & E2 & _). split_and!; [done|by etrans|done].
Qed.
#[export] Instance quiet_poll : Quiet poll.
Proof. intros w W. steps. Qed.
#[export] Instance quiet_PollForChange : Quiet PollForChange.
Proof. intros w W. steps. Qed.
End sync.
