(* ===== verification/RopDispatch.v ===== *)
(** * The ROP layer: what holds of a session

    The states a session reaches from a new one, under any requests and any changes other sessions
    make to the store between them, and what the invariant gives for them: no request panics, every
    call that changes a store of another mailbox or sends mail is authorised by rights the session
    has been given before it, and a batch is read to its end. *)

From stdpp Require Import base list gmap numbers.
From Stdlib Require Import ZArith Lia.
From S2P Require Import Prelude Gostr Mapi Wire ExtVal Permission RopTags RopBase RopProps RopMessage RopAttach RopStream RopMsgops RopTable RopFolder RopLogon RopSync RopNotify Rop RopInv RopRules RopSafe RopSafeFolder.
Open Scope Z_scope.

(** The operation table without some operations *)
Definition without {S} (ids : list Z) (tab : list (Z * @handler S)) : list (Z * @handler S) := List.filter (fun e => negb (existsb (Z.eqb e.1) ids)) tab.
(** A session before its first request *)
Definition new_world {S} (s : S) : world S := mkWorld NewSession ∅ 0 ∅ 0 ∅ 0 s [] [] [].

Section reach.
Context {S : Type} `{B : Backend S}.
Context (tab : list (Z * @handler S)) (init : S -> Prop) (good : bytes -> Prop) (env : S -> S -> Prop).
(** The states after requests, polls and steps of the environment *)
Inductive reached : world S -> Prop :=
| reached_new s : init s -> reached (new_world s)
| reached_dispatch w req hs out w' : reached w -> bytes_ok req = true -> good req -> Dispatch_with tab req hs w = Val out w' -> reached w'
| reached_poll w b w' : reached w -> PollForChange w = Val b w' -> reached w'
| reached_env w s : reached w -> env (w_store w) s -> reached (set_store s w).
End reach.

(** ** Computations that do not return early *)

Section straight.
Context {S : Type} `{B : Backend S}.
Class Straight {A} (m : H S A) : Prop := straight : forall w b w', m w <> Ret b w'.
#[export] Instance straight_ret {A} (a : A) : Straight (mret a).
Proof. done. Qed.
#[export] Instance straight_bind {A C} (m : H S A) (k : A -> H S C) : Straight m -> (forall a, Straight (k a)) -> Straight (m ≫= k).
Proof.
  intros Hm Hk w b w'. unfold mbind, H_bind. destruct (m w) eqn:E; [by apply Hk|intros [= -> ->]; by apply Hm in E|done].
Qed.
#[export] Instance straight_ok {A C} (m : H S (serrable A)) (k : A -> H S (serrable C)) : Straight m -> (forall a, Straight (k a)) -> Straight (bind_ok m k).
Proof. intros Hm Hk. apply straight_bind; [done|]. intros [a|e]; [apply Hk|apply straight_ret]. Qed.
#[export] Instance straight_ask c : Straight (ask c).
Proof. intros w b w'. unfold ask. by destruct (exec c (w_store w)). Qed.
#[export] Instance straight_modify f : Straight (modify f).
Proof. done. Qed.
#[export] Instance straight_sess : Straight sess.
Proof. done. Qed.
#[export] Instance straight_deref p : Straight (deref p).
Proof. intros w b w'. unfold deref. by destruct (w_objs w !! p). Qed.
#[export] Instance straight_each_ {A} (f : A -> H S unit) l : (forall a, Straight (f a)) -> Straight (each_ f l).
Proof. intros Hf. induction l as [|a l IH]; cbn [each_]; [apply straight_ret|]. apply straight_bind; [done|]. done. Qed.
#[export] Instance straight_handles f : Straight (handles_where f).
Proof. done. Qed.
Ltac straight_go := repeat first [ match goal with |- Straight (ask ?c) => exact (straight_ask c) end | apply _ | apply straight_bind | apply straight_ok | apply straight_each_ | progress intros | progress cbv zeta
  | match goal with |- Straight (match ?x with _ => _ end) => destruct x | |- Straight ?m => let h := get_head m in unfold h end ].
#[export] Instance straight_folderMeta st l : Straight (folderMetaSnapshot st l).
Proof. induction l as [|f l IH]; cbn [folderMetaSnapshot]; straight_go.
Qed.
#[export] Instance straight_pollFolder st sub fid prev : Straight (pollFolder st sub fid prev).
Proof. straight_go. Qed.
#[export] Instance straight_poll_folders st sub l snaps : Straight (poll_folders st sub l snaps).
Proof. revert snaps. induction l as [|f l IH]; intros snaps; cbn [poll_folders]; straight_go. Qed.
#[export] Instance straight_enqueueChanges : Straight enqueueChanges.
Proof. straight_go.
Qed.
#[export] Instance straight_poll : Straight poll.
Proof. straight_go. Qed.
#[export] Instance straight_PollForChange : Straight PollForChange.
Proof. straight_go. Qed.
End straight.

Section dispatch.
Context {S : Type} {cf : config} {P : Policy S cf} `{B : Backend S} {L : libs} {Law : Lawful P L}.
Implicit Types w : world S.

(** ** The operations *)

Lemma quiet_release : ~ strict -> forall i, Quiet (ropRelease i).
Proof.
  intros Hns i w W. unfold ropRelease. step. unfold release. eapply safe_bind; [apply (safe_get _ _ (fun r w' => match r with Some p => is_Some (kind_at w' p) | None => True end)); done|].
  intros r w1 W1 E1 Hr. destruct r as [p|]; [|by apply safe_ret]. step.
  eapply (safe_bind _ _ _ (fun _ _ => True)).
  - destruct a0; try (by apply safe_ret).
    eapply (safe_bind _ _ _ (fun _ _ => True)); [|intros; steps].
    eapply sess_safe; [reflexivity|done|intros h q Hq; by eapply wf_handles|done|done].
  - intros [] w2 W2 E2 _. eapply sess_safe; [reflexivity|done| |done|done]. intros h q. cbn. rewrite lookup_delete. case_decide; [done|]. by apply wf_handles.
Qed.
Definition keeps (tab : list (Z * @handler S)) : Prop := Forall (fun e => forall i, Quiet (e.2 i)) tab.
(** The operations on the messages and subfolders whose ids a request names *)
Definition by_id : list Z :=
  [id_ropSetReadFlags; id_ropDeleteMessages; id_ropSetMessageStatus; id_ropEmptyFolder; id_ropHardDeleteMessages; id_ropHardDelMsgsAndSubfolders].
(** Releasing a delegate's logon drops its guard, the permissions and rules tables cannot be sorted
    or filtered, and the operations on ids check the folder of the request alone. *)
Definition needs (id : Z) : Prop :=
  if id =? id_ropRelease then ~ strict
  else if (id =? id_ropGetPermissionsTable) || (id =? id_ropGetRulesTable) then may_panic
  else if existsb (Z.eqb id) by_id then by_folder else True.
Lemma table_entries : Forall (fun e => needs e.1 -> forall i, Quiet (e.2 i)) (ropTable L cf).
Proof.
  unfold ropTable. repeat (apply List.Forall_cons; [intros Hn i; cbn [fst snd] in *; lazymatch goal with
    | |- Quiet (releaseHandler _) => by apply quiet_release
    | |- Quiet (ropGetPermissionsTable _) => by apply quiet_ropGetPermissionsTable
    | |- Quiet (ropGetRulesTable _) => by apply quiet_ropGetRulesTable
    | |- Quiet (ropSetReadFlags _ _) => by apply quiet_ropSetReadFlags
    | |- Quiet (ropDeleteMessages _) => by apply quiet_ropDeleteMessages
    | |- Quiet (ropSetMessageStatus _) => by apply quiet_ropSetMessageStatus
    | |- Quiet (ropEmptyFolder _) => by apply quiet_empty_folder
    | |- Quiet (ropHardDeleteMessagesAndSubfolders _) => by apply quiet_empty_folder
    | |- Quiet (ropHardDeleteMessages _) => by apply quiet_ropHardDeleteMessages
    | |- _ => apply _
    end|]). constructor.
Qed.
Lemma without_keeps (T : list (Z * @handler S)) ids :
  Forall (fun e => needs e.1 -> forall i, Quiet (e.2 i)) T ->
  (existsb (Z.eqb id_ropRelease) ids = true \/ ~ strict) ->
  (may_panic \/ existsb (Z.eqb id_ropGetPermissionsTable) ids = true /\ existsb (Z.eqb id_ropGetRulesTable) ids = true) ->
  (by_folder \/ forallb (fun id => existsb (Z.eqb id) ids) by_id = true) -> keeps (without ids T).
Proof.
  intros Ht Hs Hp Hf. apply List.Forall_forall. intros e He. apply filter_In in He as [He Hn]. apply negb_true_iff in Hn.
  rewrite List.Forall_forall in Ht. apply (Ht e He). destruct e as [id h]. cbn [fst] in *. unfold needs. destruct (Z.eqb_spec id id_ropRelease) as [E|_].
  { rewrite E in Hn. destruct Hs as [Hs|]; [|done]. by rewrite Hs in Hn. }
  destruct (_ || _) eqn:Eo.
  { apply orb_true_iff in Eo as [Eo|Eo]; apply Z.eqb_eq in Eo; rewrite Eo in Hn; destruct Hp as [|[H1 H2]]; (done || by rewrite ?H1, ?H2 in Hn). }
  destruct (existsb _ by_id) eqn:Eb; [|done]. destruct Hf as [|Hf]; [done|]. apply existsb_exists in Eb as (x & Hx & Ex). apply Z.eqb_eq in Ex as <-.
  rewrite forallb_forall in Hf. apply Hf in Hx. congruence.
Qed.
Lemma table_keeps ids :
  (existsb (Z.eqb id_ropRelease) ids = true \/ ~ strict) ->
  (may_panic \/ existsb (Z.eqb id_ropGetPermissionsTable) ids = true /\ existsb (Z.eqb id_ropGetRulesTable) ids = true) ->
  (by_folder \/ forallb (fun id => existsb (Z.eqb id) ids) by_id = true) -> keeps (without ids (ropTable L cf)).
Proof. exact (without_keeps _ _ table_entries). Qed.

(** ** A batch *)

Context (tab : list (Z * @handler S)) (Htab : keeps tab).
Lemma handler_quiet id h i : handler_of tab id = Some h -> Quiet (h i).
Proof.
  unfold handler_of. destruct (List.find _ tab) as [e|] eqn:E; [|done]. intros [= <-]. apply find_some in E as [Hin _].
  exact (proj1 (List.Forall_forall _ _) Htab _ Hin i).
Qed.
Lemma uint8_takes b x rest : pull_Uint8 b = Ok (x, rest) -> length b = Datatypes.S (length rest).
Proof.
  unfold pull_Uint8, pull_bind, pull_Raw, pull_ret. destruct (_ || _) eqn:E; [done|]. intros [= _ <-]. rewrite length_drop. unfold len in E. lia.
Qed.
Lemma header_takes b x rest : pullRopHeader b = Ok (x, rest) -> length b = (3 + length rest)%nat.
Proof.
  unfold pullRopHeader, pull_bind. destruct (pull_Uint8 b) as [[x1 b1]|] eqn:E1; [|done]. destruct (pull_Uint8 b1) as [[x2 b2]|] eqn:E2; [|done].
  destruct (pull_Uint8 b2) as [[x3 b3]|] eqn:E3; [|done]. intros [= _ <-]. apply uint8_takes in E1, E2, E3. lia.
Qed.
(** What one operation does: it keeps the invariant and, unless it ends the batch, takes its header. *)
Lemma run_one_safe w :
  WF w ->
  match run_one tab w with
  | Val _ w' | Ret true w' => WF w' /\ ext w w' /\ (length (w_in w') + 3 <= length (w_in w))%nat
  | Ret false w' => WF w' /\ ext w w'
  | Panic => may_panic
  end.
Proof.
  intros W. unfold run_one, mbind at 1, H_bind at 1, pull_req. destruct (pullRopHeader (w_in w)) as [[[[id lg] hi] rest]|] eqn:Ep; [|split; [done|reflexivity]].
  assert (Hs : safe w (pull_req pullRopHeader) (fun _ _ => True)) by (apply safe_pull; [done|by shrink|done]).
  unfold safe, pull_req in Hs. rewrite Ep in Hs. destruct Hs as (W0 & E0 & _). apply header_takes in Ep.
  set (w0 := set_in rest w) in *. set (w1 := set_sess (set_logonID lg (w_sess w0)) w0).
  assert (E1 : ext w0 w1) by by split. assert (W1 : WF w1) by (destruct W0; by split).
  change (match (match handler_of tab id with None => _ ← writeErr id hi ecError; ret_now false | Some run => run hi end) w1 with
    | Val _ w' | Ret true w' => WF w' /\ ext w w' /\ (length (w_in w') + 3 <= length (w_in w))%nat
    | Ret false w' => WF w' /\ ext w w' | Panic => may_panic end).
  assert (Hall : safe w1 (match handler_of tab id with None => _ ← writeErr id hi ecError; ret_now false | Some run => run hi end) (fun _ _ => True)).
  { destruct (handler_of tab id) as [h|] eqn:Eh; [by apply (handler_quiet _ _ hi Eh)|steps]. }
  unfold safe in Hall. destruct (_ w1) as [u w2|b w2|]; [destruct Hall as (W2 & E2 & _)|destruct Hall as (W2 & E2)|done].
  - assert (E3 : ext w w2) by (etrans; [done|]; by etrans). pose proof (ext_in _ _ E2). cbn in *. split_and!; [done|done|lia].
  - assert (E3 : ext w w2) by (etrans; [done|]; by etrans). pose proof (ext_in _ _ E2). cbn in *. destruct b; [|done]. split_and!; [done|done|lia].
Qed.
Lemma run_batch_safe n w : WF w -> match run_batch tab n w with Val _ w' => WF w' | Ret _ _ => False | Panic => may_panic end.
Proof.
  revert w. induction n as [|n IH]; intros w W; [done|]. cbn [run_batch]. destruct (w_in w) eqn:Ei; [done|].
  pose proof (run_one_safe w W) as Hr. destruct (run_one tab w) as [u w1|[] w1|]; [by apply IH, Hr|by apply IH, Hr|apply Hr|done].
Qed.
(** The fuel of a batch is enough: it does not matter how much of it there is beyond the bytes. *)
Lemma run_batch_fuel n m w : WF w -> (length (w_in w) <= n)%nat -> (length (w_in w) <= m)%nat -> run_batch tab n w = run_batch tab m w.
Proof.
  revert m w. induction n as [|n IH]; intros m w W Hn Hm.
  - destruct m as [|m]; [done|]. cbn [run_batch]. destruct (w_in w); [done|cbn in Hn; lia].
  - cbn [run_batch]. destruct m as [|m]; cbn [run_batch]; destruct (w_in w) as [|b l] eqn:Ei; [done|cbn in Hm; lia|done|].
    pose proof (run_one_safe w W) as Hr. destruct (run_one tab w) as [u w1|[] w1|]; [| |done|done].
    all: destruct Hr as (W1 & _ & Hl); apply IH; [done| |]; rewrite Ei in Hl; cbn in *; lia.
Qed.

(** ** Requests *)

Definition request_world w (req : bytes) (hs : list Z) : world S := set_handles hs (set_out [] (set_in req w)).
Lemma request_WF w req hs : WF w -> bytes_ok req = true -> may_panic \/ no_growth lower req -> WF (request_world w req hs).
Proof. intros W Hb Hg. destruct W. by split. Qed.
Lemma dispatch_safe w req hs :
  WF w -> bytes_ok req = true -> may_panic \/ no_growth lower req ->
  match Dispatch_with tab req hs w with Val _ w' => WF w' | Ret _ _ => False | Panic => may_panic end.
Proof.
  intros W Hb Hg. pose proof (request_WF w req hs W Hb Hg) as W1.
  change (Dispatch_with tab req hs w) with ((_ ← run_batch tab (length req); _ ← poll; w' ← world_get; mret (w_out w', w_handles w')) (request_world w req hs)).
  unfold mbind at 1, H_bind at 1. pose proof (run_batch_safe (length req) _ W1) as Hr.
  destruct (run_batch tab (length req) (request_world w req hs)) as [u w2|b w2|]; [|done|done].
  pose proof (quiet (m := poll) w2 Hr) as Hp. unfold mbind at 1, H_bind at 1. unfold safe in Hp. pose proof (straight (m := poll) w2) as Hs.
  destruct (poll w2) as [v w3|b w3|]; [by destruct Hp|by destruct (Hs b w3)|done].
Qed.
Lemma poll_safe w : WF w -> match PollForChange w with Val _ w' => WF w' | Ret _ _ => False | Panic => may_panic end.
Proof.
  intros W. pose proof (quiet (m := PollForChange) w W) as Hp. pose proof (straight (m := PollForChange) w) as Hs. unfold safe in Hp.
  destruct (PollForChange w) as [v w3|b w3|]; [by destruct Hp|by destruct (Hs b w3)|done].
Qed.

Context (init : S -> Prop) (good : bytes -> Prop) (env : S -> S -> Prop).
Context (Hgood : forall b, good b -> may_panic \/ no_growth lower b) (Hinit : forall s, init s -> log_ok s).
Context (Henv : forall s s', env s s' -> (forall c r, happened s c r -> happened s' c r) /\ (log_ok s -> log_ok s')).
Lemma reached_WF w : reached tab init good env w -> WF w.
Proof.
  induction 1 as [s Hs|w req hs out w' _ IH Hb Hg E|w b w' _ IH E|w s _ IH He].
  - split; cbn; try done; [right|by apply Hinit]. intros p x q Hx. symmetry in Hx. apply app_eq_nil in Hx as [_ [-> _]%app_eq_nil]. by rewrite lower_nil.
  - pose proof (dispatch_safe w req hs IH Hb (Hgood _ Hg)) as Hd. by rewrite E in Hd.
  - pose proof (poll_safe w IH) as Hp. by rewrite E in Hp.
  - destruct (Henv _ _ He) as [Hh Hl]. assert (E : ext w (set_store s w)) by (split; try done; cbn; auto).
    destruct IH. split; cbn; try done; [|by apply Hl]. intros. by eapply obj_ok_mono, wf_objs.
Qed.
End dispatch.
