(* ===== verification/RopTheorems.v ===== *)
(** * The ROP layer: safety of a session

    The theorems of [RopDispatch]'s invariant, for any backend: with the history dropped, that no
    request panics; with the history kept as a log, that the log is authorised. *)

From stdpp Require Import base list gmap numbers.
From Stdlib Require Import ZArith Lia Permutation.
From S2P Require Import Prelude Mapi Wire ExtVal Gostr Permission RopTags RopBase RopProps RopMessage RopTable RopNotify Rop RopInv RopRules RopSafe RopSafeFolder RopDispatch.
Open Scope Z_scope.

(** ** Panics *)

(** What the code relies on in the store: the parent a folder's computed properties name is an [int64]. *)
Definition parent_typed {S} (B : Backend S) : Prop := forall st fid s s' pv,
  exec (CFolderComputedProps st fid) s = (s', Ok pv) -> match pv_Get pv PrParentFolderID with None | Some (AInt64 _) => True | Some _ => False end.

(** Every operation but those that open a permissions or a rules table *)
Definition calm_table {S} {B : Backend S} (L : libs) (cf : config) : list (Z * @handler S) :=
  without [id_ropGetPermissionsTable; id_ropGetRulesTable] (ropTable L cf).

Section panics.
Context {S : Type} {B : Backend S} (L : libs) (cf : config) (Hparent : parent_typed B) (Hnil : lb_ToLower L [] = []).
#[local] Instance calm : Policy S cf := mkPolicy S cf False True False (lb_ToLower L) (fun _ _ _ => True) (fun _ => True).
#[local] Instance calm_lawful : Lawful calm L.
Proof.
  split; try done. intros c s s' r Ex. destruct c; try exact I; destruct r as [x|]; try exact I; [by intros []|]. right. by eapply Hparent.
Qed.
Lemma calm_keeps : keeps (calm_table L cf).
Proof. apply table_keeps; [right; by intros []|right; by split|by left]. Qed.
Lemma calm_WF env w : reached (calm_table L cf) (fun _ => True) (no_growth (lb_ToLower L)) env w -> WF w.
Proof. apply reached_WF; [apply calm_keeps|by right|done|done]. Qed.
Lemma calm_dispatch w req hs : WF w -> bytes_ok req = true -> no_growth (lb_ToLower L) req -> exists out w', Dispatch_with (calm_table L cf) req hs w = Val out w'.
Proof.
  intros W Hb Hg. pose proof (dispatch_safe (calm_table L cf) calm_keeps w req hs W Hb (or_intror Hg)) as Hd.
  destruct (Dispatch_with (calm_table L cf) req hs w) as [out w'|b w'|]; [by exists out, w'|done|done].
Qed.
End panics.

(** C11. No request panics.  In every state a session reaches, whatever requests came before and
    whatever other sessions did to the store, a batch of operations runs to its end and is answered,
    for every operation but the permissions and the rules table.  A name in a request does not grow
    when it is lower-cased. *)
Theorem requests_never_panic {S} {B : Backend S} (L : libs) (cf : config) env (w : world S) req hs :
  parent_typed B -> lb_ToLower L [] = [] ->
  reached (calm_table L cf) (fun _ => True) (no_growth (lb_ToLower L)) env w ->
  bytes_ok req = true -> no_growth (lb_ToLower L) req ->
  exists out w', Dispatch_with (calm_table L cf) req hs w = Val out w'.
Proof. intros Hp Hn Hr Hb Hg. exact (calm_dispatch L cf Hp Hn w req hs (calm_WF L cf Hp Hn env w Hr) Hb Hg). Qed.

(** ** Authorization *)

(** A call and its reply, and a backend that keeps them *)
Record logged_call := mkLogged { lg_call : call; lg_reply : reply lg_call }.
#[export] Instance logged {S} {B : Backend S} : Backend (S * list logged_call) :=
  fun c sl => let '(s, r) := exec c sl.1 in ((s, sl.2 ++ [mkLogged c r]), r).
(** A store opened at a directory is the store of that directory. *)
Definition opens_dir {S} (B : Backend S) : Prop := forall dir s s' st, exec (COpen dir) s = (s', Ok st) -> st_dir st = dir.

Section authorised.
Context {S : Type} {B : Backend S} (L : libs) (cf : config) (loose : bool).
(** The rights a log shows; [loose] when a right on the folder of the request is enough *)
Definition by_log : Policy (S * list logged_call) cf :=
  mkPolicy _ cf True (loose = true) True (lb_ToLower L) (fun sl c r => In (mkLogged c r) sl.2) (fun _ => True).
(** A log whose calls are authorised by those before them *)
Definition log_authorised (sl : S * list logged_call) : Prop :=
  forall pre e post, sl.2 = pre ++ e :: post -> authorised (P := by_log) (sl.1, pre) (lg_call e).
End authorised.
Arguments by_log {S} L cf loose. Arguments log_authorised {S} L cf loose sl.

(** Every operation but RopRelease, whose logons lose their guard, and, when not [loose], the
    operations on the ids in a request *)
Definition careful_table {S} {B : Backend S} (L : libs) (cf : config) (loose : bool) : list (Z * @handler S) :=
  without (id_ropRelease :: if loose then [] else by_id) (ropTable L cf).

Section log.
Context {S : Type} {B : Backend S} (L : libs) (cf : config) (loose : bool) (Hopen : opens_dir B) (Hnil : lb_ToLower L [] = []).
#[local] Instance careful : Policy (S * list logged_call) cf :=
  mkPolicy _ cf True (loose = true) True (lb_ToLower L) (fun sl c r => In (mkLogged c r) sl.2) (log_authorised L cf loose).
Lemma exec_logged c (sl sl' : S * list logged_call) r : exec c sl = (sl', r) -> exec c sl.1 = (sl'.1, r) /\ sl'.2 = sl.2 ++ [mkLogged c r].
Proof.
  change (exec c sl) with (let '(s, r0) := B c sl.1 in ((s, sl.2 ++ [mkLogged c r0]), r0)). change (exec c sl.1) with (B c sl.1).
  destruct (B c sl.1) as [s1 r1]. intros E. apply pair_equal_spec in E as [<- <-]. done.
Qed.
#[local] Instance careful_lawful : Lawful careful L.
Proof.
  split; cbn -[authorised exec]; [..|done|done].
  - intros c sl sl' r [_ ->]%exec_logged. apply in_app_iff. right. by left.
  - intros c sl sl' r c' r' [_ ->]%exec_logged Hin. apply in_app_iff. by left.
  - intros c sl sl' r Hl Ha [_ El]%exec_logged pre e post E. rewrite El in E.
    destruct post as [|e' post _] using rev_ind.
    + apply app_inj_tail in E as [<- <-]. exact Ha.
    + rewrite app_comm_cons, app_assoc in E. apply app_inj_tail in E as [E _]. exact (Hl pre e post E).
  - intros c sl sl' r [Ex _]%exec_logged. destruct c; try exact I; destruct r as [x|]; try exact I; [intros _; by eapply Hopen|by left].
Qed.
Lemma loose_or_listed : loose = true \/ forallb (fun id => existsb (Z.eqb id) (id_ropRelease :: if loose then [] else by_id)) by_id = true.
Proof. destruct loose; [by left|by right]. Qed.
Lemma careful_WF env w :
  (forall sl sl', env sl sl' -> sl'.2 = sl.2) -> reached (careful_table L cf loose) (fun sl => sl.2 = []) (fun _ => True) env w -> WF w.
Proof.
  intros He. apply reached_WF; [apply table_keeps; [by left|by left|exact loose_or_listed]|by left| |].
  - intros sl Hs pre e post E. rewrite Hs in E. by destruct pre.
  - intros sl sl' Hsl. apply He in Hsl. split; [intros c r; cbn; by rewrite Hsl|]. intros Hl pre e post E. rewrite Hsl in E. exact (Hl pre e post E).
Qed.
End log.


(** ** Batches *)

(** The loop of [Dispatch], step by step *)
Inductive batch {S} (tab : list (Z * @handler S)) : world S -> outcome S unit -> Prop :=
| batch_read w : w_in w = [] -> batch tab w (Val tt w)
| batch_more w w1 o : w_in w <> [] -> (run_one tab w = Val tt w1 \/ run_one tab w = Ret true w1) -> batch tab w1 o -> batch tab w o
| batch_ended w w1 : w_in w <> [] -> run_one tab w = Ret false w1 -> batch tab w (Val tt w1)
| batch_panic w : w_in w <> [] -> run_one tab w = Panic -> batch tab w Panic.
Lemma batch_det {S} tab (w : world S) o o' : batch tab w o -> batch tab w o' -> o = o'.
Proof.
  intros Hb. revert o'. induction Hb as [w Hi|w w1 o Hi Hr _ IH|w w1 Hi Hr|w Hi Hr]; intros o' Hb'; inversion Hb'; subst; try done; try congruence.
  - apply IH. destruct Hr as [Hr|Hr]; match goal with H : _ \/ _ |- _ => destruct H as [Hr'|Hr'] end; rewrite Hr in Hr'; by simplify_eq.
  - destruct Hr as [Hr|Hr]; congruence.
  - destruct Hr as [Hr|Hr]; congruence.
  - match goal with H : _ \/ _ |- _ => destruct H; congruence end.
  - match goal with H : _ \/ _ |- _ => destruct H; congruence end.
Qed.

Section batches.
Context {S : Type} {B : Backend S} (L : libs) (cf : config) (Hnil : lb_ToLower L [] = []).
#[local] Instance lax : Policy S cf := mkPolicy S cf False True True (lb_ToLower L) (fun _ _ _ => True) (fun _ => True).
#[local] Instance lax_lawful : Lawful lax L.
Proof.
  split; try done. intros c s s' r Ex. destruct c; try exact I; destruct r as [x|]; try exact I; [by intros []|]. by left.
Qed.
Lemma lax_keeps : keeps (ropTable L cf).
Proof.
  assert (E : without [] (ropTable L cf) = ropTable L cf).
  { unfold without. generalize (ropTable L cf). intros l. induction l as [|e l IH]; [done|]. cbn. f_equal. exact IH. }
  rewrite <- E. apply table_keeps; [right; by intros []|by left|by left].
Qed.
Lemma lax_WF env w : reached (ropTable L cf) (fun _ => True) (fun _ => True) env w -> WF w.
Proof. apply reached_WF; [apply lax_keeps|by left|done|done]. Qed.
Lemma run_batch_batch n (w : world S) : WF w -> (length (w_in w) <= n)%nat -> batch (ropTable L cf) w (run_batch (ropTable L cf) n w).
Proof.
  revert w. induction n as [|n IH]; intros w W Hn; cbn [run_batch]; destruct (w_in w) as [|b l] eqn:Ei; [by apply batch_read|cbn in Hn; lia|by apply batch_read|].
  assert (Hne : w_in w <> []) by (by rewrite Ei). pose proof (run_one_safe _ lax_keeps w W) as Hr.
  destruct (run_one (ropTable L cf) w) as [[] w1|[] w1|] eqn:Er.
  - eapply batch_more; [done|by left|]. destruct Hr as (W1 & _ & Hl). apply IH; [done|]. rewrite Ei in Hl. cbn in *. lia.
  - eapply batch_more; [done|by right|]. destruct Hr as (W1 & _ & Hl). apply IH; [done|]. rewrite Ei in Hl. cbn in *. lia.
  - by apply batch_ended.
  - by apply batch_panic.
Qed.
End batches.

(** The loop over a batch terminates.  In every state a session reaches, the operations of any
    request are run one after the other until the request is read, an operation ends the batch or
    one panics, and the run bounded by the length of the request is that run. *)
Theorem batches_terminate {S} {B : Backend S} (L : libs) (cf : config) env (w : world S) req hs :
  lb_ToLower L [] = [] -> reached (ropTable L cf) (fun _ => True) (fun _ => True) env w -> bytes_ok req = true ->
  forall o, batch (ropTable L cf) (request_world w req hs) o <-> o = run_batch (ropTable L cf) (length req) (request_world w req hs).
Proof.
  intros Hn Hr Hb. assert (W : WF (P := lax L cf) (request_world w req hs)) by (apply request_WF; [exact (lax_WF L cf Hn env w Hr)|done|by left]).
  pose proof (run_batch_batch L cf Hn (length req) _ W ltac:(done)) as Hrun. intros o. split; [intros Ho; by eapply batch_det|by intros ->].
Qed.

(** * The ROP layer: notifications

    What a poll reports of a folder, and what a response takes from the queue. *)

(** ** What a poll reports *)

Lemma sorted_keys_spec {A} (m : gmap Z A) id : In id (sorted_keys m) <-> is_Some (m !! id).
Proof.
  unfold sorted_keys, Sort. split.
  - intros Hin%(Permutation_in _ (SliceStable_perm _ _)). apply in_map_iff in Hin as ([k v] & <- & Hin%list_elem_of_In).
    apply elem_of_map_to_list in Hin. by exists v.
  - intros [v Hv]. eapply Permutation_in; [symmetry; apply SliceStable_perm|]. apply in_map_iff. exists (id, v). split; [done|].
    by apply list_elem_of_In, elem_of_map_to_list.
Qed.
Lemma gone_spec {A C} (prev : gmap Z A) (cur : gmap Z C) id : In id (gone prev cur) <-> is_Some (prev !! id) /\ cur !! id = None.
Proof.
  unfold gone, Sort. split.
  - intros Hin%(Permutation_in _ (SliceStable_perm _ _)). apply filter_In in Hin as [Hin Hc]. apply in_map_iff in Hin as ([k v] & <- & Hin%list_elem_of_In).
    apply elem_of_map_to_list in Hin. cbn in *. split; [by exists v|]. by destruct (cur !! k).
  - intros [[v Hv] Hc]. eapply Permutation_in; [symmetry; apply SliceStable_perm|]. apply filter_In. rewrite Hc. split; [|done].
    apply in_map_iff. exists (id, v). split; [done|]. by apply list_elem_of_In, elem_of_map_to_list.
Qed.
Lemma omap_In {A C} (f : A -> option C) l c : In c (omap f l) <-> exists a, In a l /\ f a = Some c.
Proof. rewrite <- list_elem_of_In, list_elem_of_omap. setoid_rewrite list_elem_of_In. done. Qed.

(** A message of a folder between two snapshots *)
Inductive change := Created | Modified | Deleted | Unchanged.
Definition change_of (prev cur : folderSnapshot) (id : Z) : change :=
  match prev !! id, cur !! id with
  | None, Some _ => Created
  | Some cn, Some cn' => if cn =? cn' then Unchanged else Modified
  | Some _, None => Deleted
  | None, None => Unchanged
  end.
Definition change_event (c : change) (fid id : Z) : option notification :=
  let ev f := Some (event (Z.lor f nfByMessage) 0 (wire_id fid) (wire_id id) 0 0 0) in
  match c with Created => ev fnevObjectCreated | Modified => ev fnevObjectModified | Deleted => ev fnevObjectDeleted | Unchanged => None end.

(** A poll reports exactly the changes.  The notifications between two snapshots of a folder are
    the events of the messages that were created, modified and deleted, and no others. *)
Theorem poll_reports_changes (fid : Z) (prev cur : folderSnapshot) (n : notification) :
  In n (content_changes fid prev cur) <-> exists id, change_event (change_of prev cur id) fid id = Some n.
Proof.
  unfold content_changes. rewrite in_app_iff, omap_In, in_map_iff. split.
  - intros [(id & Hin & Hc)|(id & <- & Hg)].
    + exists id. apply sorted_keys_spec in Hin as [cn Hcn]. unfold content_change, change_of in *. rewrite Hcn in *.
      destruct (prev !! id) as [cn'|]; [|done]. by destruct (cn' =? cn).
    + exists id. apply gone_spec in Hg as [[cn Hp] Hc]. unfold change_of. by rewrite Hp, Hc.
  - intros (id & Hid). unfold change_of in Hid. destruct (prev !! id) as [cn|] eqn:Ep, (cur !! id) as [cn'|] eqn:Ec; [| | |done].
    + destruct (cn =? cn') eqn:E; [done|]. left. exists id. split; [apply sorted_keys_spec; by exists cn'|]. unfold content_change. by rewrite Ep, Ec, E.
    + right. exists id. injection Hid as <-. split; [done|]. apply gone_spec. by split; [exists cn|].
    + left. exists id. split; [apply sorted_keys_spec; by exists cn'|]. unfold content_change. by rewrite Ep.
Qed.

(** ** What a response takes *)

(** The bytes a queued notification has in a response: none for a released handle or one that cannot be written *)
Definition frame (live : Z -> bool) (qn : queuedNotify) : bytes :=
  if live (qn_handle qn) then match pushNotify (qn_handle qn) (qn_logonID qn) (qn_n qn) [] with Ok b => b | Err _ => [] end else [].
Definition pending_mark : bytes := [id_ropPending; 0; 0].
Lemma pushPending_bytes out : pushPending 0 out = Ok (out ++ pending_mark).
Proof. unfold pushPending, push_Uint8, push_Uint16, push_seq, push_Raw. cbn. by rewrite <- app_assoc. Qed.
Lemma drain_spec live q out :
  let '(kept, out') := drain live q out in
  exists sent, q = sent ++ kept
    /\ out' = out ++ concat (map (frame live) sent) ++ (if bool_decide (kept = []) then [] else pending_mark)
    /\ len (out ++ concat (map (frame live) sent)) <= Z.max (len out) notifyBufferCap
    /\ match kept with [] => True | qn :: _ => notifyBufferCap < len (out ++ concat (map (frame live) sent)) + len (frame live qn) end.
Proof.
  revert out. induction q as [|qn q IH]; intros out; cbn [drain].
  { exists []. cbn. rewrite !app_nil_r. split_and!; [done|done|lia|done]. }
  assert (Hskip : frame live qn = [] -> let '(kept, out') := drain live q out in
    exists sent, qn :: q = sent ++ kept
      /\ out' = out ++ concat (map (frame live) sent) ++ (if bool_decide (kept = []) then [] else pending_mark)
      /\ len (out ++ concat (map (frame live) sent)) <= Z.max (len out) notifyBufferCap
      /\ match kept with [] => True | qn :: _ => notifyBufferCap < len (out ++ concat (map (frame live) sent)) + len (frame live qn) end).
  { intros Hf. specialize (IH out). destruct (drain live q out) as [kept out']. destruct IH as (sent & -> & Ho & Hl & Hk).
    exists (qn :: sent). cbn. rewrite Hf. by split_and!. }
  unfold frame at 1 in Hskip. destruct (live (qn_handle qn)) eqn:El; cbn [negb]; [|by apply Hskip].
  destruct (pushNotify (qn_handle qn) (qn_logonID qn) (qn_n qn) []) as [scratch|] eqn:Ep; [|by apply Hskip]. clear Hskip.
  assert (Hf : frame live qn = scratch) by (unfold frame; by rewrite El, Ep).
  destruct (notifyBufferCap <? len out + len scratch) eqn:Ec.
  { rewrite pushPending_bytes. exists []. cbn. rewrite app_nil_r, Hf. split_and!; [done|done|lia|lia]. }
  specialize (IH (out ++ scratch)). destruct (drain live q (out ++ scratch)) as [kept out']. destruct IH as (sent & -> & Ho & Hl & Hk).
  exists (qn :: sent). cbn [map concat]. rewrite Hf. rewrite <- ?app_assoc in *. split_and!; [done|done| |done].
  unfold len in *. rewrite !length_app in *. lia.
Qed.

(** C23. A response takes the notifications of the queue in order, each once.  What was queued is
    what was sent followed by what stays; the response grows by the sent ones, of released handles
    none, and by the pending mark when some stay.  What is sent stays within the cap; the mark goes
    past it, so the response is at most the longer of what it was and the cap, and the mark's bytes;
    and what stays did not fit. *)
Theorem notifications_sent_in_order {S} (w : world S) :
  let live h := match s_handles (w_sess w) !! h with Some _ => true | None => false end in
  exists w' sent kept, drainNotifications w = Val tt w'
    /\ s_pending (w_sess w) = sent ++ kept /\ s_pending (w_sess w') = kept
    /\ w_out w' = w_out w ++ concat (map (frame live) sent) ++ (if bool_decide (kept = []) then [] else pending_mark)
    /\ len (w_out w ++ concat (map (frame live) sent)) <= Z.max (len (w_out w)) notifyBufferCap
    /\ match kept with [] => True | qn :: _ => notifyBufferCap < len (w_out w ++ concat (map (frame live) sent)) + len (frame live qn) end.
Proof.
  intros live. pose proof (drain_spec live (s_pending (w_sess w)) (w_out w)) as Hd. unfold drainNotifications, modify. fold live.
  destruct (drain live (s_pending (w_sess w)) (w_out w)) as [kept out]. destruct Hd as (sent & Hq & Ho & Hl & Hk).
  eexists _, sent, kept. split; [reflexivity|]. cbn. split_and!; [done|done|done|done|done].
Qed.

(** The mark of a full response is past the cap. *)
Example mark_past_cap : len (drain (fun _ => true) [mkQueued 1 0 (event fnevTableModified tableChanged 0 0 0 0 0)] (repeat 0 (Z.to_nat notifyBufferCap))).2 = notifyBufferCap + 3.
Proof. vm_compute. reflexivity. Qed.
