(* ===== verification/RopTableProofs.v ===== *)
(** * The ROP layer: tables and streams

    The comparison of rows is a total preorder where each sort key has values of one kind, so the
    view of a table is the matching rows in the order of the keys; a stream is a file; and the
    handlers of a table are a cursor over its view. *)

From stdpp Require Import base list gmap numbers.
From Stdlib Require Import ZArith Lia Sorted Permutation.
From S2P Require Import Prelude Utf Mapi Wire ExtVal Gostr RopTags RopBase RopProps RopMessage RopStream RopTable RopInv RopSafe.
Open Scope Z_scope.

(** ** Comparisons *)

(** A three-way comparison that is a total preorder on some values *)
Record preorder {A} (Q : A -> Prop) (f : A -> A -> Z) : Prop := {
  pre_sign : forall a b, Q a -> Q b -> (f a b < 0 <-> 0 < f b a);
  pre_trans : forall a b c, Q a -> Q b -> Q c -> f a b <= 0 -> f b c <= 0 -> f a c <= 0 }.

Section lex.
Context {A : Type} (Q : A -> Prop) (f g : A -> A -> Z) (Hf : preorder Q f) (Hg : preorder Q g).
Definition lex (a b : A) : Z := if f a b =? 0 then g a b else f a b.
Lemma lex_preorder : preorder Q lex.
Proof.
  destruct Hf as [Sf Tf], Hg as [Sg Tg]. split; unfold lex.
  - intros a b Ha Hb. pose proof (Sf a b Ha Hb). pose proof (Sf b a Hb Ha). pose proof (Sg a b Ha Hb).
    destruct (f a b =? 0) eqn:E1, (f b a =? 0) eqn:E2; lia.
  - intros a b c Ha Hb Hc. pose proof (Sf a b Ha Hb). pose proof (Sf b a Hb Ha). pose proof (Sf b c Hb Hc). pose proof (Sf c b Hc Hb).
    pose proof (Sf a c Ha Hc). pose proof (Sf c a Hc Ha).
    pose proof (Tf a b c Ha Hb Hc). pose proof (Tf b c a Hb Hc Ha). pose proof (Tf c a b Hc Ha Hb).
    pose proof (Tf c b a Hc Hb Ha). pose proof (Tf b a c Hb Ha Hc). pose proof (Tf a c b Ha Hc Hb). pose proof (Tg a b c Ha Hb Hc).
    destruct (f a b =? 0) eqn:E1, (f b c =? 0) eqn:E2, (f a c =? 0) eqn:E3; lia.
Qed.
End lex.
Lemma preorder_flip {A} (Q : A -> Prop) f : preorder Q f -> preorder Q (fun a b => - f a b).
Proof.
  intros [Sf Tf]. split.
  - intros a b Ha Hb. pose proof (Sf b a Hb Ha). lia.
  - intros a b c Ha Hb Hc. pose proof (Tf c b a Hc Hb Ha). pose proof (Sf a b Ha Hb). pose proof (Sf b a Hb Ha).
    pose proof (Sf b c Hb Hc). pose proof (Sf c b Hc Hb). pose proof (Sf a c Ha Hc). pose proof (Sf c a Hc Ha). lia.
Qed.
Lemma preorder_const {A} (Q : A -> Prop) : preorder Q (fun _ _ => 0).
Proof. split; intros; lia. Qed.

(** ** Values of one kind *)

Inductive vkind := VInt16 | VInt32 | VInt64 | VUint64 | VFloat32 | VFloat64 | VBool | VString | VBytes.
Definition kind_of_value (v : any) : option vkind :=
  match v with
  | AInt16 _ => Some VInt16 | AInt32 _ => Some VInt32 | AInt64 _ => Some VInt64 | AUint64 _ => Some VUint64
  | AFloat32 _ => Some VFloat32 | AFloat64 _ => Some VFloat64 | ABool _ => Some VBool | AString _ => Some VString | ABytes _ => Some VBytes
  | _ => None
  end.
Lemma bytes_Compare_sign x y : bytes_Compare x y < 0 <-> 0 < bytes_Compare y x.
Proof.
  revert y. induction x as [|a x IH]; intros [|b y]; cbn; try lia. destruct (a <? b) eqn:E1, (b <? a) eqn:E2; try lia. apply IH.
Qed.
Lemma bytes_Compare_trans x y z : bytes_Compare x y <= 0 -> bytes_Compare y z <= 0 -> bytes_Compare x z <= 0.
Proof.
  revert y z. induction x as [|a x IH]; intros [|b y] [|c z]; cbn; try lia.
  destruct (a <? b) eqn:E1, (b <? a) eqn:E2, (b <? c) eqn:E3, (c <? b) eqn:E4, (a <? c) eqn:E5, (c <? a) eqn:E6; try lia. apply IH.
Qed.
Lemma compareValues_preorder (k : vkind) : preorder (fun v => kind_of_value v = Some k) compareValues.
Proof.
  split.
  - intros a b Ha Hb. destruct k, a; try discriminate Ha; destruct b; try discriminate Hb; cbn; unfold cmp_Compare, compareBool.
    all: try (repeat match goal with b : bool |- _ => destruct b end; repeat case_match; cbn; lia). all: apply bytes_Compare_sign.
  - intros a b c Ha Hb Hc. destruct k, a; try discriminate Ha; destruct b; try discriminate Hb; destruct c; try discriminate Hc; cbn; unfold cmp_Compare, compareBool.
    all: try (repeat match goal with b : bool |- _ => destruct b end; repeat case_match; cbn; lia). all: apply bytes_Compare_trans.
Qed.

(** ** Rows *)

(** One sort key: a row with a value is before one without, a descending key turns the values round. *)
Definition key_cmp (k : sortKey) (a b : PropertyValues) : Z :=
  match pv_GetAnyCharset a (sk_tag k), pv_GetAnyCharset b (sk_tag k) with
  | None, None => 0
  | None, Some _ => 1
  | Some _, None => -1
  | Some av, Some bv => if sk_descending k then - compareValues av bv else compareValues av bv
  end.
Lemma compare_keys_lex k keys a b : compare_keys (k :: keys) a b = lex (key_cmp k) (compare_keys keys) a b.
Proof. unfold lex, key_cmp. cbn [compare_keys]. by repeat case_match. Qed.

(** The values a row has of the sort keys are of the keys' kinds. *)
Definition keyed (κ : Z -> vkind) (keys : list sortKey) (row : PropertyValues) : Prop :=
  Forall (fun k => forall v, pv_GetAnyCharset row (sk_tag k) = Some v -> kind_of_value v = Some (κ (sk_tag k))) keys.
Lemma preorder_weaken {A} (Q R : A -> Prop) f : (forall a, Q a -> R a) -> preorder R f -> preorder Q f.
Proof. intros HQ [S T]. split; [intros a b; auto|intros a b c ? ? ?; apply (T a b c); auto]. Qed.
Lemma preorder_missing {A C} (get : A -> option C) (Q : C -> Prop) f :
  preorder Q f -> preorder (fun a => forall v, get a = Some v -> Q v)
    (fun a b => match get a, get b with None, None => 0 | None, Some _ => 1 | Some _, None => -1 | Some x, Some y => f x y end).
Proof.
  intros [S T]. split.
  - intros a b Ha Hb. destruct (get a), (get b); try lia. apply S; auto.
  - intros a b c Ha Hb Hc. destruct (get a), (get b), (get c); try lia. apply T; auto.
Qed.
Lemma key_cmp_preorder κ k : preorder (fun row => forall v, pv_GetAnyCharset row (sk_tag k) = Some v -> kind_of_value v = Some (κ (sk_tag k))) (key_cmp k).
Proof.
  apply (preorder_missing (fun row => pv_GetAnyCharset row (sk_tag k)) _ (fun x y => if sk_descending k then - compareValues x y else compareValues x y)).
  destruct (sk_descending k); [apply preorder_flip|]; apply compareValues_preorder.
Qed.
Lemma preorder_ext {A} (Q : A -> Prop) f g : (forall a b, f a b = g a b) -> preorder Q f -> preorder Q g.
Proof. intros E [S T]. split; [intros a b|intros a b c]; rewrite <- !E; [apply S|apply T]. Qed.
Lemma compare_keys_preorder κ keys : preorder (keyed κ keys) (compare_keys keys).
Proof.
  induction keys as [|k keys IH]; [apply preorder_const|].
  apply (preorder_ext _ (lex (key_cmp k) (compare_keys keys))); [intros; symmetry; apply compare_keys_lex|].
  apply lex_preorder; eapply preorder_weaken; [|apply (key_cmp_preorder κ)| |exact IH]; intros row Hr; by inversion Hr.
Qed.

(** ** The view *)

(** A sort that keeps the order of equal elements of an ordered list sorts by the order too. *)
Lemma SliceStable_ext {A} (less less' : A -> A -> bool) (R : A -> A -> Prop) l :
  (forall x y, R x y -> less y x = less' y x) -> StronglySorted R l -> SliceStable less l = SliceStable less' l.
Proof.
  intros Hl. induction 1 as [|x l _ IH Hx]; [done|]. cbn [SliceStable foldr]. fold (SliceStable less l) (SliceStable less' l). rewrite IH.
  assert (HP : Forall (R x) (SliceStable less' l)) by (eapply Permutation_Forall; [symmetry; apply SliceStable_perm|done]).
  clear -Hl HP. induction HP as [|y m Hy _ IH]; [done|]. cbn [insert_stable]. rewrite (Hl _ _ Hy). destruct (less' y x); [by rewrite IH|done].
Qed.
Lemma SliceStable_preorder {A} (Q : A -> Prop) f l :
  preorder Q f -> Forall Q l -> StronglySorted (fun a b => f a b <= 0) (SliceStable (fun a b => f a b <? 0) l).
Proof.
  intros [S T] HQ.
  assert (Hs : StronglySorted (fun a b => (f b a <? 0) = false) (SliceStable (fun a b => f a b <? 0) l)).
  { apply (SliceStable_sorted _ Q); [| |done].
    - intros a b Ha Hb Hab. pose proof (S a b Ha Hb). lia.
    - intros a b c Ha Hb Hc Hab Hbc. pose proof (T a b c Ha Hb Hc). pose proof (S a b Ha Hb). pose proof (S b a Hb Ha).
      pose proof (S b c Hb Hc). pose proof (S c b Hc Hb). pose proof (S a c Ha Hc). pose proof (S c a Hc Ha). lia. }
  assert (HQ' : Forall Q (SliceStable (fun a b => f a b <? 0) l)) by (eapply Permutation_Forall; [symmetry; apply SliceStable_perm|done]).
  induction Hs as [|x m _ IH Hx]; [constructor|]. inversion HQ' as [|? ? HQx HQm]; subst. constructor; [by apply IH|].
  rewrite List.Forall_forall in Hx |- *. rewrite List.Forall_forall in HQm. intros y Hy. specialize (Hx _ Hy). pose proof (S y x (HQm _ Hy) HQx). lia.
Qed.

Definition row_of (bags : list PropertyValues) (i : Z) : PropertyValues := default [] (bags !! Z.to_nat i).
(** A base row the table's filter keeps *)
Definition kept (L : libs) (t : tableState) (row : PropertyValues) : bool :=
  match tb_restriction t with Some r => default false (evalRestriction L r row) | None => true end.
(** The order of a table: by the sort keys, then as the rows came *)
Definition row_order (t : tableState) (bags : list PropertyValues) (i j : Z) : Prop :=
  compareRows t (row_of bags i) (row_of bags j) < 0 \/ compareRows t (row_of bags i) (row_of bags j) = 0 /\ i <= j.

Section view.
Context {S : Type} (L : libs).
Implicit Types (w : world S) (t : tableState).

Lemma eval_or_panic_typed t row w :
  (forall r, tb_restriction t = Some r -> typed r) -> eval_or_panic L (tb_restriction t) row w = Val (kept L t row) w.
Proof.
  intros Ht. unfold eval_or_panic, kept. destruct (tb_restriction t) as [r|]; [|done]. unfold evalRestriction.
  by destruct (eval_typed L row _ _ (Ht r eq_refl)) as [b ->].
Qed.
Lemma each_pure {A C} (f : A -> H S C) (g : A -> C) l w : (forall a, f a w = Val (g a) w) -> each f l w = Val (map g l) w.
Proof. intros Hf. induction l as [|a l IH]; [done|].
  change (H_bind _ _ (fun b => H_bind _ _ (fun bs => mret (b :: bs)) (each f l)) (f a) w = Val (g a :: map g l) w).
  unfold H_bind. by rewrite Hf, IH.
Qed.
Lemma view_of_eq t bags w :
  (forall r, tb_restriction t = Some r -> typed r) ->
  view_of L t bags w
  = Val (SliceStable (fun a b => compareRows t a.2 b.2 <? 0) (List.filter (fun ib => kept L t ib.2) (imap (fun i b => (Z.of_nat i, b)) bags))).*1 w.
Proof.
  intros Ht. unfold view_of, mbind, H_bind.
  rewrite (each_pure _ (fun ib => (ib, kept L t ib.2))) by (intros [i b]; cbn; by rewrite eval_or_panic_typed).
  do 3 f_equal. generalize (imap (fun i b => (Z.of_nat i, b)) bags). intros l.
  induction l as [|x l IH]; [done|]. cbn [map List.filter snd]. destruct (kept L t x.2); [by cbn; f_equal|done].
Qed.
Lemma upto_S a b : a < b -> upto a b = a :: upto (a + 1) b.
Proof.
  intros Hab. unfold upto. replace (Z.to_nat (b - a)) with (Datatypes.S (Z.to_nat (b - (a + 1)))) by lia.
  cbn [seq map]. f_equal; [lia|]. rewrite <- seq_shift, map_map. apply map_ext. lia.
Qed.
Lemma imap_rows bags : imap (fun i b => (Z.of_nat i, b)) bags = map (fun i => (i, row_of bags i)) (upto 0 (len bags)).
Proof.
  apply list_eq. intros k. rewrite list_lookup_imap, list_lookup_fmap. unfold upto, len. rewrite list_lookup_fmap, Z.sub_0_r, Nat2Z.id.
  destruct (bags !! k) as [b|] eqn:E; cbn.
  - rewrite lookup_seq_lt by (by eapply lookup_lt_Some). cbn [fmap option_fmap option_map]. rewrite Z.add_0_l. unfold row_of. by rewrite Nat2Z.id, Nat.add_0_l, E.
  - rewrite lookup_seq_ge by (by apply lookup_ge_None). done.
Qed.
Lemma upto_sorted a b : StronglySorted Z.lt (upto a b).
Proof.
  remember (Z.to_nat (b - a)) as n eqn:En. revert a En. induction n as [|n IH]; intros a En.
  - unfold upto. rewrite <- En. constructor.
  - rewrite upto_S by lia. constructor; [apply IH; lia|]. eapply List.Forall_impl; [|apply upto_range]. cbn. lia.
Qed.
Lemma StronglySorted_filter {A} (R : A -> A -> Prop) p l : StronglySorted R l -> StronglySorted R (List.filter p l).
Proof.
  induction 1 as [|x l _ IH Hx]; cbn; [constructor|]. destruct (p x); [|done]. constructor; [done|].
  rewrite List.Forall_forall in Hx |- *. intros y [Hy _]%filter_In. auto.
Qed.
Lemma filter_map_comm {A C} (f : A -> C) (p : C -> bool) l : List.filter p (map f l) = map f (List.filter (fun a => p (f a)) l).
Proof. induction l as [|x l IH]; cbn; [done|]. destruct (p (f x)); cbn; by rewrite IH. Qed.
Lemma SliceStable_map {A C} (f : A -> C) (less : C -> C -> bool) l : SliceStable less (map f l) = map f (SliceStable (fun a b => less (f a) (f b)) l).
Proof.
  assert (Hi : forall x l, insert_stable less (f x) (map f l) = map f (insert_stable (fun a b => less (f a) (f b)) x l)).
  { intros x m. induction m as [|y m IH]; cbn; [done|]. destruct (less (f y) (f x)); cbn; by rewrite ?IH. }
  induction l as [|x l IH]; [done|]. cbn [SliceStable foldr map]. fold (SliceStable less (map f l)). by rewrite IH, Hi.
Qed.
Definition matching t bags : list Z := List.filter (fun i => kept L t (row_of bags i)) (upto 0 (len bags)).
Lemma view_of_matching t bags w :
  (forall r, tb_restriction t = Some r -> typed r) ->
  view_of L t bags w = Val (SliceStable (fun i j => compareRows t (row_of bags i) (row_of bags j) <? 0) (matching t bags)) w.
Proof.
  intros Ht. rewrite view_of_eq by done. rewrite imap_rows, filter_map_comm, SliceStable_map. cbn. f_equal.
  rewrite <- list_fmap_compose. etransitivity; [|apply list_fmap_id]. done.
Qed.
Lemma view_sorted κ t bags :
  Forall (keyed κ (tb_sortKeys t)) bags ->
  StronglySorted (row_order t bags) (SliceStable (fun i j => compareRows t (row_of bags i) (row_of bags j) <? 0) (matching t bags)).
Proof.
  intros Hk. set (c := fun i j => compareRows t (row_of bags i) (row_of bags j)).
  assert (HQ : forall i, keyed κ (tb_sortKeys t) (row_of bags i)).
  { intros i. unfold row_of. destruct (bags !! Z.to_nat i) eqn:E; [by eapply Forall_lookup_1|]. apply List.Forall_forall. intros k _ v. unfold pv_GetAnyCharset. cbn. by repeat case_match. }
  assert (Hc : preorder (fun _ => True) c).
  { destruct (compare_keys_preorder κ (tb_sortKeys t)) as [Sg T]. split; intros; [apply Sg; auto|eapply T; eauto]. }
  assert (Hl : preorder (fun _ => True) (lex c Z.sub)) by (apply lex_preorder; [done|split; lia]).
  rewrite (SliceStable_ext _ (fun i j => lex c Z.sub i j <? 0) Z.lt).
  - eapply StronglySorted_ind with (P := StronglySorted (row_order t bags)); [constructor| |apply (SliceStable_preorder _ _ _ Hl), List.Forall_forall; done].
    intros i m _ IH Hi. constructor; [done|]. eapply List.Forall_impl; [|exact Hi]. intros j Hj. unfold row_order. fold (c i j). unfold lex in Hj.
    destruct (c i j =? 0) eqn:E; lia.
  - intros i j Hij. unfold lex, c. destruct (compareRows _ _ _ =? 0) eqn:E; [|done]. apply Z.eqb_eq in E. rewrite E. symmetry. rewrite Z.ltb_irrefl. apply Z.ltb_ge. lia.
  - apply StronglySorted_filter, upto_sorted.
Qed.

End view.

(** * The ROP layer: a stream is a file

    The operations on a stream handle, on slices of arrays the stream shares with the bag its value
    came from, are those of a file of bytes with a cursor; and a commit gives the bytes to the
    property of the object the stream was opened on. *)
Open Scope wire_scope.

(** ** Files *)

Record file := mkFile { f_bytes : bytes; f_pos : Z; f_writable : bool }.
Definition f_at (f : file) (b : bytes) (pos : Z) : file := mkFile b pos (f_writable f).
Inductive stream_op :=
| SRead (want : Z) | SWrite (data : bytes) | SSeek (origin off : Z) | SResize (size : Z) | SSize | SCommit.

(** Zeros up to a length *)
Definition extend_to (b : bytes) (k : Z) : bytes := b ++ replicate (Z.to_nat k) 0.
Definition extend (b : bytes) (n : Z) : bytes := extend_to b (n - len b).
Definition seek_base (f : file) (origin : Z) : option Z :=
  if origin =? streamSeekSet then Some 0 else if origin =? streamSeekCur then Some (f_pos f) else if origin =? streamSeekEnd then Some (len (f_bytes f)) else None.
(** The file, the error code and what follows it in the response *)
Definition file_step (f : file) (op : stream_op) : file * Z * bytes :=
  let b := f_bytes f in let pos := f_pos f in
  match op with
  | SRead want =>
      let d := take (Z.to_nat (Z.min want 0xFFFF)) (drop (Z.to_nat pos) b) in (f_at f b (pos + len d), ecSuccess, le_bytes 2 (len d) ++ d)
  | SWrite d =>
      if f_writable f then (f_at f (overwrite (extend b (pos + len d)) pos d) (pos + len d), ecSuccess, le_bytes 2 (u16 (len d))) else (f, ecAccessDenied, [])
  | SSeek origin off =>
      match seek_base f origin with
      | None => (f, ecInvalidParam, [])
      | Some base =>
          let newpos := i64 (base + i64 off) in
          if (newpos <? 0) || (maxStreamSize <? newpos) then (f, ecInvalidParam, [])
          else
            let f := if f_writable f then f_at f (extend b newpos) newpos else f_at f b (Z.min newpos (len b)) in
            (f, ecSuccess, le_bytes 8 (u64 (f_pos f)))
      end
  | SResize n =>
      if negb (f_writable f) then (f, ecAccessDenied, [])
      else if maxStreamSize <? n then (f, ecInvalidParam, [])
      else (f_at f (take (Z.to_nat n) (extend b n)) (Z.min pos n), ecSuccess, [])
  | SSize => (f, ecSuccess, le_bytes 4 (u32 (len b)))
  | SCommit => (f, ecSuccess, [])
  end.

(** ** The handlers *)

Definition op_rop (op : stream_op) : Z :=
  match op with
  | SRead _ => id_ropReadStream | SWrite _ => id_ropWriteStream | SSeek _ _ => id_ropSeekStream
  | SResize _ => id_ropSetStreamSize | SSize => id_ropGetStreamSize | SCommit => id_ropCommitStream
  end.
(** What the handler reads of the request *)
Definition op_request (op : stream_op) (inp rest : bytes) : Prop :=
  match op with
  | SRead want => pullReadCount inp = Ok (want, rest) /\ 0 <= want
  | SWrite d => pull_BinShort inp = Ok (d, rest)
  | SSeek origin off => (o <- pull_Uint8 ;; r <- pull_Uint64 ;; pull_ret (o, r)) inp = Ok (origin, off, rest)
  | SResize n => pull_Uint64 inp = Ok (n, rest) /\ 0 <= n
  | SSize | SCommit => inp = rest
  end.

Section streams.
Context {S : Type} `{Backend S}.
Implicit Types w : world S.

Definition op_handler (op : stream_op) : Z -> H S unit :=
  match op with
  | SRead _ => ropReadStream | SWrite _ => ropWriteStream | SSeek _ _ => ropSeekStream
  | SResize _ => ropSetStreamSize | SSize => ropGetStreamSize | SCommit => ropCommitStream
  end.

(** The stream at a handle slot *)
Definition stream_at w (hindex : Z) (p : N) (s : streamState) : Prop :=
  s_handles (w_sess w) !! handleAt (w_handles w) hindex = Some p /\ w_objs w !! p = Some (OStream s).
(** A slice is within its array, the cursor within the slice, and the object written is one that can be. *)
Definition stream_ok w (s : streamState) : Prop :=
  0 <= sm_pos s <= sm_len s /\ sm_len s <= len (arr_of w (sm_data s))
  /\ (sm_writable s = true -> exists q o, sm_parent s = Some q /\ w_objs w !! q = Some o /\ isStreamWritable o = true).
Definition file_of w (s : streamState) : file := mkFile (take (Z.to_nat (sm_len s)) (arr_of w (sm_data s))) (sm_pos s) (sm_writable s).
Lemma file_len w s : stream_ok w s -> len (f_bytes (file_of w s)) = sm_len s.
Proof. intros (Hp & Hl & _). unfold file_of, len in *. cbn. rewrite length_take. lia. Qed.

(** *** Running a handler *)
Lemma run_bind {A C} (m : H S A) (k : A -> H S C) w a w1 : m w = Val a w1 -> (m ≫= k) w = k a w1.
Proof. intros E. unfold mbind, H_bind. by rewrite E. Qed.
Lemma run_pull {A} (p : pull A) w a rest : p (w_in w) = Ok (a, rest) -> pull_req p w = Val a (set_in rest w).
Proof. intros E. unfold pull_req. by rewrite E. Qed.
Lemma run_open rop hindex w p s : stream_at w hindex p s -> openStream rop hindex w = Val (p, s) w.
Proof. intros [Hh Ho]. unfold openStream, at_slot, mbind, H_bind. by rewrite Hh, Ho. Qed.
Lemma run_status rop hindex w : writeStatusHead rop hindex w = Val tt (set_out (w_out w ++ le_bytes 1 rop ++ le_bytes 1 hindex ++ le_bytes 4 ecSuccess) w).
Proof. unfold writeStatusHead, emit, head, push_seq, push_Uint8, push_Uint32, push_Raw. cbn [rbind]. by rewrite !app_assoc_reverse. Qed.
Lemma run_fail {A} rop hindex ec w : fail (A := A) rop hindex ec w = Ret true (set_out (w_out w ++ le_bytes 1 rop ++ le_bytes 1 hindex ++ le_bytes 4 ec) w).
Proof. unfold fail, writeErr, emit, head, push_seq, push_Uint8, push_Uint32, push_Raw, mbind, H_bind. cbn [rbind]. by rewrite !app_assoc_reverse. Qed.

(** What an operation leaves: the stream as the file, the rest of the request, its response *)
Definition answered w hindex p s op rest (f : file) (ec : Z) (tail : bytes) (o : outcome S unit) : Prop :=
  exists w' s', (o = Val tt w' \/ o = Ret true w') /\ stream_at w' hindex p s' /\ stream_ok w' s' /\ file_of w' s' = f
    /\ sm_tag s' = sm_tag s /\ sm_writable s' = sm_writable s
    /\ w_in w' = rest /\ w_out w' = w_out w ++ le_bytes 1 (op_rop op) ++ le_bytes 1 hindex ++ le_bytes 4 ec ++ tail.
Lemma answered_fail w hindex p s op rest ec :
  stream_at w hindex p s -> stream_ok w s ->
  answered w hindex p s op rest (file_of w s) ec [] (fail (op_rop op) hindex ec (set_in rest w)).
Proof. intros Ha Hs. rewrite run_fail. eexists _, s. split; [by right|]. rewrite app_nil_r. done. Qed.
Lemma at_pulled w rest hindex p s : stream_at w hindex p s -> stream_at (set_in rest w) hindex p s.
Proof. done. Qed.

(** The world with the stream and its array as they become *)
Definition moved w rest p s' out : world S := set_out out (set_objs (<[p := OStream s']> (w_objs w)) (w_nobj w) (set_in rest w)).
Definition kept_writable w w0 : Prop :=
  forall q o, w_objs w !! q = Some o -> isStreamWritable o = true -> exists o', w_objs w0 !! q = Some o' /\ isStreamWritable o' = true.
Lemma kept_same w w0 : w_objs w0 = w_objs w -> kept_writable w w0.
Proof. intros E q o Hq Ho. exists o. by rewrite E. Qed.
Lemma moved_ok w w0 rest hindex p s s' out :
  stream_at w hindex p s -> stream_ok w s -> sm_parent s' = sm_parent s -> sm_writable s' = sm_writable s ->
  w_sess w0 = w_sess w -> w_handles w0 = w_handles w -> kept_writable w w0 -> 0 <= sm_pos s' <= sm_len s' -> sm_len s' <= len (arr_of w0 (sm_data s')) ->
  stream_at (moved w0 rest p s' out) hindex p s' /\ stream_ok (moved w0 rest p s' out) s'.
Proof.
  intros [Hh Ho] (_ & _ & Hpar) Ep Ew E1 E2 E3 Hpos Hlen. split.
  - split; cbn; [by rewrite E1, E2|apply lookup_insert_eq].
  - split; [done|]. split; [done|]. rewrite Ep, Ew. intros Hw. destruct (Hpar Hw) as (q & o & Hq & Hqo & Hwr).
    destruct (E3 q o Hqo Hwr) as (o' & Hqo' & Hwr'). exists q, o'. split; [done|]. split; [|done].
    cbn. rewrite lookup_insert_ne; [done|]. intros ->. rewrite Ho in Hqo. injection Hqo as <-. done.
Qed.

Lemma answered_moved w w0 hindex p s s' op rest f tail :
  stream_at w hindex p s -> stream_ok w s -> sm_parent s' = sm_parent s -> sm_writable s' = sm_writable s -> sm_tag s' = sm_tag s ->
  w_sess w0 = w_sess w -> w_handles w0 = w_handles w -> kept_writable w w0 ->
  0 <= sm_pos s' <= sm_len s' -> sm_len s' <= len (arr_of w0 (sm_data s')) -> file_of w0 s' = f ->
  answered w hindex p s op rest f ecSuccess tail
    (Val tt (moved w0 rest p s' (w_out w ++ le_bytes 1 (op_rop op) ++ le_bytes 1 hindex ++ le_bytes 4 ecSuccess ++ tail))).
Proof.
  intros Ha Hs Ep Ew Et E1 E2 E3 Hpos Hlen Hf. eexists _, s'. split; [by left|].
  destruct (moved_ok w w0 rest hindex p s s' (w_out w ++ le_bytes 1 (op_rop op) ++ le_bytes 1 hindex ++ le_bytes 4 ecSuccess ++ tail)) as [H1 H2]; [done..|].
  split; [exact H1|]. split; [exact H2|]. split; [exact Hf|]. split; [done|]. split; [done|]. split; done.
Qed.
Lemma run_emit (q : push) w tail : q (w_out w) = Ok (w_out w ++ tail) -> emit q w = Val tt (set_out (w_out w ++ tail) w).
Proof. intros E. unfold emit. by rewrite E. Qed.
Lemma emit_le n v w : emit (push_Raw (le_bytes n v)) w = Val tt (set_out (w_out w ++ le_bytes n v) w).
Proof. by apply run_emit. Qed.
Lemma emit_BinShort d w : len d <= 0xFFFF -> emit (push_BinShort d) w = Val tt (set_out (w_out w ++ le_bytes 2 (len d) ++ d) w).
Proof.
  intros Hd. apply run_emit. unfold push_BinShort, push_seq, push_Uint16, push_Raw. rewrite (proj2 (Z.ltb_ge _ _)) by lia. cbn [rbind]. by rewrite app_assoc.
Qed.

(** *** The operations *)
Ltac run := repeat (erewrite run_bind by first [exact (run_pull _ _ _ _ ltac:(eassumption)) | apply run_status | apply run_open; eassumption | reflexivity]; cbv beta iota).
Lemma read_step w hindex p s want rest :
  stream_at w hindex p s -> stream_ok w s -> op_request (SRead want) (w_in w) rest ->
  let '(f, ec, tail) := file_step (file_of w s) (SRead want) in answered w hindex p s (SRead want) rest f ec tail (ropReadStream hindex w).
Proof.
  intros Ha Hs [Hq Hw]. unfold ropReadStream. run. pose proof (file_len _ _ Hs) as Hfl. pose proof Hs as (Hpos & Hlen & Hpar).
  rewrite (proj2 (Z.ltb_ge _ _)) by lia. run.
  set (b := f_bytes (file_of w s)) in *. change (take (Z.to_nat (sm_len s)) (arr_of (set_in rest w) (sm_data s))) with b.
  set (d := take (Z.to_nat (Z.min want 0xFFFF)) (drop (Z.to_nat (sm_pos s)) b)).
  assert (Hd : len d = want `min` ((sm_len s - sm_pos s) `min` 65535)) by (unfold len, d in *; rewrite length_take, length_drop; lia).
  replace (take (Z.to_nat (want `min` ((sm_len s - sm_pos s) `min` 65535))) (drop (Z.to_nat (sm_pos s)) b)) with d.
  2:{ unfold d. apply list_eq. intros i. rewrite !lookup_take, !lookup_drop. repeat case_decide; try done; [|lia]. apply lookup_ge_None. unfold len in *. lia. }
  rewrite <- Hd, emit_BinShort by lia. cbn [file_step]. fold b. fold d.
  change (set_out ?o (set_out _ (set_objs ?m ?n (set_in rest w)))) with (set_out o (set_objs m n (set_in rest w))). cbn [set_out w_out set_objs set_in]. rewrite <- !app_assoc.
  apply (answered_moved w w hindex p s); try done; cbn; try lia. by apply kept_same.
Qed.

(** The world with an array *)
Definition with_arr w a (b : bytes) n : world S := set_arrs (<[a := b]> (w_arrs w)) n w.
Lemma arr_of_with w a b n : arr_of (with_arr w a b n) a = b.
Proof. unfold arr_of, with_arr. cbn. by rewrite lookup_insert_eq. Qed.
Lemma run_grow w s n : grow s n w = Val (w_narr w) (with_arr w (w_narr w) (extend_to (f_bytes (file_of w s)) (n - sm_len s)) (w_narr w + 1)%N).
Proof. done. Qed.
Lemma len_overwrite b pos d : 0 <= pos -> pos + len d <= len b -> len (overwrite b pos d) = len b.
Proof. intros Hp Hd. unfold overwrite, len in *. rewrite !length_app, length_take, length_drop. lia. Qed.
Lemma take_overwrite b pos d n : 0 <= pos -> pos + len d <= n <= len b -> take (Z.to_nat n) (overwrite b pos d) = overwrite (take (Z.to_nat n) b) pos d.
Proof.
  intros Hp Hd. unfold overwrite, len in *. rewrite take_app_ge by (rewrite length_take; lia). rewrite take_app_ge by (rewrite length_take; lia).
  rewrite take_take, take_drop_commute. f_equal; [f_equal; lia|]. f_equal. f_equal. f_equal. rewrite length_take. lia.
Qed.
Lemma extend_fits b n : n <= len b -> extend b n = b.
Proof. intros Hn. unfold extend, extend_to. replace (Z.to_nat (n - len b)) with 0%nat by lia. apply app_nil_r. Qed.
Lemma len_extend b n : len b <= n -> len (extend b n) = n.
Proof. intros Hn. unfold extend, extend_to, len in *. rewrite length_app, length_replicate. lia. Qed.
Lemma file_bytes w s : f_bytes (file_of w s) = take (Z.to_nat (sm_len s)) (arr_of w (sm_data s)).
Proof. done. Qed.

(** The last world of a run is the one with the stream moved. *)
Ltac as_moved w0 s' := match goal with |- answered ?w ?h ?p ?s ?op ?rest _ _ ?tail (Val tt ?w') =>
  replace w' with (moved w0 rest p s' (w_out w ++ le_bytes 1 (op_rop op) ++ le_bytes 1 h ++ le_bytes 4 ecSuccess ++ tail));
    [apply answered_moved; try done; try (by apply kept_same); cbn [st_at sm_data sm_len sm_pos] | unfold moved; cbn; by rewrite <- ?app_assoc, ?app_nil_r] end.
Lemma step_write w hindex p s d rest :
  stream_at w hindex p s -> stream_ok w s -> op_request (SWrite d) (w_in w) rest ->
  let '(f, ec, tail) := file_step (file_of w s) (SWrite d) in answered w hindex p s (SWrite d) rest f ec tail (ropWriteStream hindex w).
Proof.
  intros Ha Hs Hq. cbn in Hq. unfold ropWriteStream. run. pose proof (file_len _ _ Hs) as Hfl. pose proof Hs as (Hpos & Hlen & Hpar).
  cbn [file_step]. change (f_writable (file_of w s)) with (sm_writable s). destruct (sm_writable s) eqn:Ew; cbn [negb]; [|by apply answered_fail].
  pose proof (len_nonneg d). change (f_pos (file_of w s)) with (sm_pos s). set (b := f_bytes (file_of w s)) in *. set (e := sm_pos s + len d).
  destruct (sm_len s <? e) eqn:El.
  - rewrite (run_bind _ _ _ (w_narr w, e) (with_arr (set_in rest w) (w_narr w) (extend b e) (w_narr w + 1)%N))
      by (unfold extend; rewrite Hfl; done).
    cbv beta iota. run. rewrite arr_of_with. unfold push_Uint16. rewrite emit_le.
    assert (Hl : len (overwrite (extend b e) (sm_pos s) d) = e) by (rewrite len_overwrite; rewrite ?len_extend; lia).
    as_moved (with_arr (with_arr w (w_narr w) (extend b e) (w_narr w + 1)%N) (w_narr w) (overwrite (extend b e) (sm_pos s) d) (w_narr w + 1)%N) (st_at s (w_narr w) e e true).
    { lia. } { rewrite arr_of_with. lia. }
    unfold file_of. cbn [st_at sm_data sm_len sm_pos sm_writable]. rewrite arr_of_with, take_ge by (unfold len in *; lia). by rewrite Ew.
  - rewrite (run_bind _ _ _ (sm_data s, sm_len s) (set_in rest w)) by done. cbv beta iota. run. unfold push_Uint16. rewrite emit_le.
    rewrite extend_fits by lia.
    as_moved (with_arr w (sm_data s) (overwrite (arr_of w (sm_data s)) (sm_pos s) d) (w_narr w)) (st_at s (sm_data s) (sm_len s) e true).
    { lia. } { rewrite arr_of_with, len_overwrite; lia. }
    unfold file_of. cbn [st_at sm_data sm_len sm_pos sm_writable]. rewrite arr_of_with, take_overwrite by lia. by rewrite Ew.
Qed.
Lemma step_size w hindex p s rest :
  stream_at w hindex p s -> stream_ok w s -> op_request SSize (w_in w) rest ->
  let '(f, ec, tail) := file_step (file_of w s) SSize in answered w hindex p s SSize rest f ec tail (ropGetStreamSize hindex w).
Proof.
  intros Ha Hs Hq. cbn in Hq. unfold ropGetStreamSize. run. unfold push_Uint32. rewrite emit_le. cbn [file_step]. rewrite (file_len _ _ Hs).
  eexists _, s. split; [by left|]. split; [done|]. split; [done|]. split; [done|]. split; [done|]. split; [done|]. split; [done|]. cbn. by rewrite <- !app_assoc.
Qed.
Lemma take_extend b n : 0 <= n -> len (take (Z.to_nat n) (extend b n)) = n.
Proof. intros Hn. unfold extend, extend_to, len. rewrite length_take, length_app, length_replicate. lia. Qed.
Lemma step_resize w hindex p s n rest :
  stream_at w hindex p s -> stream_ok w s -> op_request (SResize n) (w_in w) rest ->
  let '(f, ec, tail) := file_step (file_of w s) (SResize n) in answered w hindex p s (SResize n) rest f ec tail (ropSetStreamSize hindex w).
Proof.
  intros Ha Hs [Hq Hn]. unfold ropSetStreamSize. run. pose proof (file_len _ _ Hs) as Hfl. pose proof Hs as (Hpos & Hlen & Hpar).
  cbn [file_step]. change (f_writable (file_of w s)) with (sm_writable s). destruct (sm_writable s) eqn:Ew; cbn [negb]; [|by apply answered_fail].
  destruct (maxStreamSize <? n); [by apply answered_fail|]. set (b := f_bytes (file_of w s)) in *. change (f_pos (file_of w s)) with (sm_pos s).
  destruct (sm_len s <? n) eqn:El.
  - rewrite (run_bind _ _ _ (w_narr w) (with_arr (set_in rest w) (w_narr w) (extend b n) (w_narr w + 1)%N)) by (unfold extend; rewrite Hfl; done).
    cbv beta iota. run. rewrite run_status. as_moved (with_arr w (w_narr w) (extend b n) (w_narr w + 1)%N) (st_at s (w_narr w) n (Z.min (sm_pos s) n) true).
    { lia. } { rewrite arr_of_with, len_extend; lia. }
    unfold file_of. cbn [st_at sm_data sm_len sm_pos sm_writable]. rewrite arr_of_with. by rewrite Ew.
  - rewrite (run_bind _ _ _ (sm_data s) (set_in rest w)) by done. cbv beta iota. run. rewrite run_status, extend_fits by lia.
    as_moved w (st_at s (sm_data s) n (Z.min (sm_pos s) n) true); [lia|lia|].
    unfold file_of. cbn [st_at sm_data sm_len sm_pos sm_writable]. rewrite Ew. unfold f_at. f_equal. unfold b. rewrite file_bytes, take_take. f_equal. lia.
Qed.
Lemma step_seek w hindex p s origin off rest :
  stream_at w hindex p s -> stream_ok w s -> op_request (SSeek origin off) (w_in w) rest ->
  let '(f, ec, tail) := file_step (file_of w s) (SSeek origin off) in answered w hindex p s (SSeek origin off) rest f ec tail (ropSeekStream hindex w).
Proof.
  intros Ha Hs Hq. cbn in Hq. unfold ropSeekStream. run. pose proof (file_len _ _ Hs) as Hfl. pose proof Hs as (Hpos & Hlen & Hpar).
  cbn [file_step]. change (seek_base (file_of w s) origin) with (if origin =? streamSeekSet then Some 0 else if origin =? streamSeekCur then Some (sm_pos s)
    else if origin =? streamSeekEnd then Some (len (f_bytes (file_of w s))) else None). rewrite Hfl. fold (seekBase s origin).
  destruct (seekBase s origin) as [base|]; [|by apply answered_fail]. set (newpos := i64 (base + i64 off)).
  destruct (newpos <? 0) eqn:E0; cbn [orb]; [by apply answered_fail|]. destruct (maxStreamSize <? newpos); [by apply answered_fail|].
  change (f_writable (file_of w s)) with (sm_writable s). set (b := f_bytes (file_of w s)) in *. unfold seekTo.
  destruct (sm_len s <? newpos) eqn:El; [destruct (sm_writable s) eqn:Ew|].
  - rewrite (run_bind _ _ _ (st_at s (w_narr w) newpos newpos (sm_dirty s)) (with_arr (set_in rest w) (w_narr w) (extend b newpos) (w_narr w + 1)%N))
      by (unfold extend; rewrite Hfl; done).
    run. unfold push_Uint64. rewrite emit_le. as_moved (with_arr w (w_narr w) (extend b newpos) (w_narr w + 1)%N) (st_at s (w_narr w) newpos newpos (sm_dirty s)).
    { lia. } { rewrite arr_of_with, len_extend; lia. }
    unfold file_of. cbn [st_at sm_data sm_len sm_pos sm_writable]. rewrite arr_of_with, take_ge by (pose proof (len_extend b newpos); unfold len in *; lia). by rewrite Ew.
  - rewrite (run_bind _ _ _ (st_at s (sm_data s) (sm_len s) (sm_len s) (sm_dirty s)) (set_in rest w)) by done.
    run. unfold push_Uint64. rewrite emit_le. cbn [f_at f_pos st_at sm_pos]. rewrite Z.min_r by lia.
    as_moved w (st_at s (sm_data s) (sm_len s) (sm_len s) (sm_dirty s)); lia.
  - rewrite (run_bind _ _ _ (st_at s (sm_data s) (sm_len s) newpos (sm_dirty s)) (set_in rest w)) by done.
    run. unfold push_Uint64. rewrite emit_le.
    replace (if sm_writable s then f_at (file_of w s) (extend b newpos) newpos else f_at (file_of w s) b (newpos `min` sm_len s)) with (f_at (file_of w s) b newpos)
      by (destruct (sm_writable s); [by rewrite extend_fits by lia|by rewrite Z.min_l by lia]).
    as_moved w (st_at s (sm_data s) (sm_len s) newpos (sm_dirty s)); lia.
Qed.

(** *** A commit *)
(** The bag a stream's bytes go to *)
Definition written_bag (o : object) : option bag :=
  match o with
  | OAttachWrite _ aw => Some (aw_pending aw) | OMessage _ _ _ pend _ _ => Some pend
  | ONewMessage _ nm => Some (nm_props nm) | OEmbedded _ e => Some (mm_Props (em_msg e)) | _ => None
  end.
Definition value_of_bytes (typ : Z) (b : bytes) : any :=
  if typ =? PtUnicode then AString (string_of_runes (utf16_Decode (units_le b))) else if typ =? PtString8 then AString b else ABytes b.
(** The property the stream was opened on reads as the stream's bytes. *)
Definition committed w (s : streamState) : Prop :=
  exists q o bg v, sm_parent s = Some q /\ w_objs w !! q = Some o /\ written_bag o = Some bg /\ bag_Get bg (sm_tag s) = Some v
    /\ value_in w v = value_of_bytes (PropTag_Type (sm_tag s)) (f_bytes (file_of w s)).
Lemma bag_Get_Set b tag v : bag_Get (bag_Set b tag v) tag = Some v.
Proof. induction b as [|[t x] b IH]; cbn; [by rewrite Z.eqb_refl|]. destruct (t =? tag) eqn:E; cbn; by rewrite E. Qed.
Lemma run_commit w p s : stream_ok w s -> sm_writable s = true -> w_objs w !! p = Some (OStream s) ->
  exists q o o', sm_parent s = Some q /\ q <> p /\ w_objs w !! q = Some o /\ isStreamWritable o' = true
    /\ (exists bg, written_bag o' = Some (bag_Set bg (sm_tag s) (streamValue (PropTag_Type (sm_tag s)) (sm_data s) (sm_len s) (f_bytes (file_of w s)))))
    /\ commitStream s w = Val true (set_objs (<[q := o']> (w_objs w)) (w_nobj w) w).
Proof.
  intros (_ & _ & Hpar) Hw Hp. destruct (Hpar Hw) as (q & o & Hq & Ho & Hwr).
  assert (Hqp : q <> p) by (intros ->; rewrite Hp in Ho; by injection Ho as <-).
  unfold commitStream. erewrite (run_bind _ _ w) by reflexivity. cbv beta iota. rewrite <- file_bytes, Hq.
  erewrite (run_bind (deref q)) by (unfold deref; by rewrite Ho).
  exists q, o. destruct o; try discriminate Hwr; eexists; (split; [done|]); (split; [done|]); (split; [done|]);
    (split; [|split; [|reflexivity]]); [reflexivity|eexists; reflexivity|..]; try reflexivity; eexists; reflexivity.
Qed.
Lemma step_commit w hindex p s rest :
  stream_at w hindex p s -> stream_ok w s -> op_request SCommit (w_in w) rest ->
  (let '(f, ec, tail) := file_step (file_of w s) SCommit in answered w hindex p s SCommit rest f ec tail (ropCommitStream hindex w))
  /\ (sm_writable s = true -> exists w', ropCommitStream hindex w = Val tt w' /\ forall s', w_objs w' !! p = Some (OStream s') -> committed w' s').
Proof.
  intros Ha Hs Hq. cbn in Hq. unfold ropCommitStream. run. pose proof Hs as (Hpos & Hlen & Hpar). cbn [file_step]. destruct (sm_writable s) eqn:Ew.
  - destruct (run_commit w p s Hs Ew (proj2 Ha)) as (q & o & o' & Hsq & Hqp & Ho & Hwr & [bg Hbg] & Hrun).
    set (w0 := set_objs (<[q := o']> (w_objs w)) (w_nobj w) w) in *. set (s' := st_at s (sm_data s) (sm_len s) (sm_pos s) false).
    rewrite (run_bind _ _ w tt (set_objs (<[p := OStream s']> (w_objs w0)) (w_nobj w0) w0)) by (erewrite run_bind by exact Hrun; reflexivity).
    rewrite run_status. split.
    + subst rest. as_moved w0 s'. intros x ox Hx Hox. unfold w0. cbn. destruct (decide (x = q)) as [->|Hne].
      * exists o'. by rewrite lookup_insert_eq.
      * exists ox. by rewrite lookup_insert_ne.
    + intros _. eexists. split; [reflexivity|]. intros s1 Hs1. cbn in Hs1. rewrite lookup_insert_eq in Hs1. injection Hs1 as <-.
      exists q, o'. eexists _, _. split; [done|]. split; [|split; [exact Hbg|split; [apply bag_Get_Set|]]].
      * cbn. rewrite lookup_insert_ne by done. apply lookup_insert_eq.
      * unfold streamValue, value_of_bytes. destruct (_ =? PtUnicode); [done|]. destruct (_ =? PtString8); [done|].
        unfold value_in, file_of. cbn [f_bytes s' st_at sm_len sm_data]. f_equal. by rewrite Z_N_nat.
  - rewrite (run_bind _ _ w tt w) by done. rewrite run_status. split; [|done].
    eexists _, s. split; [by left|]. split; [done|]. split; [done|]. split; [done|]. split; [done|]. split; [done|]. split; [done|]. by rewrite app_nil_r.
Qed.
Lemma stream_step w hindex p s op rest :
  stream_at w hindex p s -> stream_ok w s -> op_request op (w_in w) rest ->
  let '(f, ec, tail) := file_step (file_of w s) op in answered w hindex p s op rest f ec tail (op_handler op hindex w).
Proof. destruct op; [apply read_step|apply step_write|apply step_seek|apply step_resize|apply step_size|apply step_commit]. Qed.

(** ** Sequences of operations *)

Fixpoint run_ops (ops : list stream_op) (hindex : Z) w : outcome S unit :=
  match ops with
  | [] => Val tt w
  | op :: ops => match op_handler op hindex w with Val _ w | Ret true w => run_ops ops hindex w | o => o end
  end.
End streams.
Fixpoint op_requests (ops : list stream_op) (inp rest : bytes) : Prop :=
  match ops with [] => inp = rest | op :: ops => exists mid, op_request op inp mid /\ op_requests ops mid rest end.
(** The file after some operations, and their responses *)
Fixpoint file_run (hindex : Z) (f : file) (ops : list stream_op) : file * bytes :=
  match ops with
  | [] => (f, [])
  | op :: ops =>
      let '(f, ec, tail) := file_step f op in
      let '(f, out) := file_run hindex f ops in
      (f, le_bytes 1 (op_rop op) ++ le_bytes 1 hindex ++ le_bytes 4 ec ++ tail ++ out)
  end.

(** C12. A stream is a file.  Any operations on a stream handle, one after the other (reads, writes,
    seeks, changes of size, commits), answer and leave what a file of bytes with a cursor does; and when
    the last of them commits a writable stream, the property it was opened on has the file's bytes. *)
Theorem streams_are_files {S} `{Backend S} (w : world S) hindex p s ops rest :
  stream_at w hindex p s -> stream_ok w s -> op_requests ops (w_in w) rest ->
  exists w' s', run_ops ops hindex w = Val tt w' /\ stream_at w' hindex p s' /\ w_in w' = rest
    /\ file_of w' s' = (file_run hindex (file_of w s) ops).1 /\ w_out w' = w_out w ++ (file_run hindex (file_of w s) ops).2
    /\ ((exists pre, ops = pre ++ [SCommit]) -> sm_writable s = true -> committed w' s').
Proof.
  revert w s. induction ops as [|op ops IH]; intros w s Ha Hs Hreq.
  - exists w, s. cbn in *. rewrite app_nil_r. split_and!; try done; try apply Ha. by intros [[|? ?] ?].
  - destruct Hreq as (mid & Hop & Hrest). cbn [run_ops file_run]. pose proof (stream_step w hindex p s op mid Ha Hs Hop) as Hst.
    destruct (file_step (file_of w s) op) as [[f ec] tail] eqn:Ef. destruct Hst as (w1 & s1 & Ho & Ha1 & Hs1 & Hf1 & Ht1 & Hp1 & Hi1 & Hout1).
    subst mid. destruct (IH w1 s1 Ha1 Hs1 Hrest) as (w' & s' & Hrun & Ha' & Hi' & Hf' & Hout' & Hc'). rewrite Hf1 in *. rewrite Hout1 in Hout'.
    destruct (file_run hindex f ops) as [f2 out2]. exists w', s'. split; [by destruct Ho as [-> | ->]|]. split; [done|]. split; [done|]. split; [done|].
    split; [rewrite Hout'; cbn; by rewrite <- !app_assoc|]. intros [[|op0 pre] E] Hw; injection E as -> ->.
    + injection Hrun as <-. destruct (proj2 (step_commit w hindex p s (w_in w1) Ha Hs Hop) Hw) as (w2 & Hr2 & Hc). cbn [op_handler] in Ho. rewrite Hr2 in Ho.
      destruct Ho as [[= <-]|Ho]; [apply Hc, Ha'|done].
    + apply Hc'; [by eexists|by rewrite Hp1].
Qed.

(** * The ROP layer: a table is a cursor over its sorted rows

    RopSortTable and RopRestrict, run on a table handle, leave the table with its view, and
    RopQueryRows, run on the handle after them, reads it with the cursor the table keeps. *)

(** ** Programs that only ask the store *)

Create HintDb asks.
Section asking.
Context {S : Type} `{Backend S}.
Implicit Types w : world S.

Definition asks {A} (m : H S A) : Prop := forall w,
  match m w with Val _ w' => exists s, w' = set_store s w | Ret _ _ => False | Panic => True end.
Lemma asks_ret {A} (a : A) : asks (mret a).
Proof. intros w. exists (w_store w). by destruct w. Qed.
Lemma asks_panic {A} : asks (panic (A := A)).
Proof. by intros w. Qed.
Lemma asks_ask c : asks (ask c).
Proof. intros w. unfold ask. destruct (exec c (w_store w)) as [s r]. by exists s. Qed.
Lemma asks_sess : asks sess.
Proof. intros w. exists (w_store w). by destruct w. Qed.
Lemma asks_values b : asks (values b).
Proof. intros w. exists (w_store w). by destruct w. Qed.
Lemma asks_bind {A C} (m : H S A) (k : A -> H S C) : asks m -> (forall a, asks (k a)) -> asks (m ≫= k).
Proof.
  intros Hm Hk w. unfold mbind, H_bind. specialize (Hm w). destruct (m w) as [a w1|b w1|]; [|done..]. destruct Hm as [s ->].
  specialize (Hk a (set_store s w)). destruct (k a _) as [x w2|b w2|]; [|done..]. destruct Hk as [s' ->]. by exists s'.
Qed.
#[local] Hint Resolve asks_ret asks_panic asks_sess asks_values : asks.
#[local] Hint Extern 0 (asks (ask ?c)) => exact (asks_ask c) : asks.
Ltac asks_go :=
  repeat first
    [ solve [eauto with asks]
    | progress unfold bind_ok, ok
    | apply asks_bind; [|intros]
    | progress case_match ].
Lemma asks_index {A} (l : list A) i : asks (index l i).
Proof. unfold index. asks_go. Qed.
Lemma asks_folderProps st fid tags : asks (folderProps st fid tags).
Proof. unfold folderProps, addFolderIdentity, addParentEntryID, folderEntryID, rightsFor. asks_go. Qed.
Lemma asks_messageProps st mid tags : asks (messageProps st mid tags).
Proof. unfold messageProps. asks_go. Qed.
#[local] Hint Resolve asks_index asks_folderProps asks_messageProps : asks.
Lemma asks_keyProps st t : asks (keyProps st t).
Proof.
  unfold keyProps, contentsKeyProps.
  assert (Hr : forall tags idxs, asks (rows_key_props st t tags idxs)).
  { intros tags idxs. induction idxs as [|i idxs IH]; cbn [rows_key_props]; [asks_go|]. unfold rowKeyProps. asks_go. }
  case_match; [asks_go|apply Hr..].
Qed.
Lemma asks_encodeRows st t idxs : asks (encodeRows st t idxs).
Proof.
  induction idxs as [|i idxs IH]; cbn [encodeRows]; [asks_go|]. unfold encodeRow, rowProps, baseIndex, messageRow.
  asks_go.
Qed.
End asking.

(** ** The handlers of a view *)

(** A change of the view: other sort keys or another filter *)
Inductive view_op := VSort (keys : list sortKey) | VRestrict (res : option Restriction).
Definition view_table (t : tableState) (op : view_op) : tableState :=
  match op with
  | VSort keys => tb_set_view t keys (tb_restriction t) (tb_view t) (tb_cursor t)
  | VRestrict res => tb_set_view t (tb_sortKeys t) res (tb_view t) (tb_cursor t)
  end.
Definition view_rop (op : view_op) : Z := match op with VSort _ => id_ropSortTable | VRestrict _ => id_ropRestrict end.
(** What the handler reads of the request: keys it can sort by, or a filter it can evaluate *)
Definition view_request (op : view_op) (inp rest : bytes) : Prop :=
  match op with
  | VSort keys => pullSortRequest inp = Ok ((keys, true), rest)
  | VRestrict res => exists raw, (_ <- pull_Uint8 ;; size <- pull_Uint16 ;; pull_Raw size) inp = Ok (raw, rest)
      /\ match res with
         | None => raw = []
         | Some r => raw <> [] /\ restrictionSupported r = true /\ exists more, pull_Restriction fl raw = Ok (r, more)
         end
  end.
(** A request for rows: the flags, the direction and the number *)
Record query := mkQuery { q_flags : Z; q_forward : Z; q_count : Z }.
(** Requests one after the other, each with the bytes that follow it *)
Fixpoint query_requests (qs : list (query * bytes)) (inp : bytes) : Prop :=
  match qs with
  | [] => True
  | (q, rest) :: qs => (f <- pull_Uint8 ;; d <- pull_Uint8 ;; n <- pull_Uint16 ;; pull_ret (f, d, n)) inp = Ok (q_flags q, q_forward q, q_count q, rest)
      /\ 0 <= q_count q /\ query_requests qs rest
  end.
(** The page of a cursor at [c] in a list: forward what follows it, backward what is before it, the nearest first; and where it stands then *)
Definition page {A} (l : list A) (c : Z) (q : query) : list A :=
  if q_forward q =? 0 then take (Z.to_nat (q_count q)) (reverse (take (Z.to_nat c) l)) else take (Z.to_nat (q_count q)) (drop (Z.to_nat c) l).
Definition page_end {A} (l : list A) (c : Z) (q : query) : Z :=
  if negb (Z.land (q_flags q) queryRowsNoAdvance =? 0) then c
  else if q_forward q =? 0 then Z.max (c - q_count q) 0 else Z.min (c + q_count q) (len l).
Definition bookmark_at {A} (l : list A) (c : Z) (q : query) : Z :=
  if q_forward q =? 0 then if c =? 0 then bookmarkBeginning else bookmarkCurrent else if c =? len l then bookmarkEnd else bookmarkCurrent.

Section tables.
Context {S : Type} `{Backend S} (L : libs).
Implicit Types w : world S.

Definition view_handler (op : view_op) : Z -> H S unit := match op with VSort _ => ropSortTable L | VRestrict _ => ropRestrict L end.
(** The table at a handle slot *)
Definition table_at w (hindex : Z) (p : N) (st : store) (t : tableState) : Prop :=
  s_handles (w_sess w) !! handleAt (w_handles w) hindex = Some p /\ w_objs w !! p = Some (OTable st t).
(** A row of the table's own, whatever its view *)
Definition own_rows (st : store) (t : tableState) (bases : list Z) : H S (serrable bytes) :=
  encodeRows st (tb_set_view t (tb_sortKeys t) (tb_restriction t) None 0) bases.
(** Requests for rows, one after the other *)
Fixpoint run_queries (n : nat) (hindex : Z) w : outcome S unit :=
  match n with
  | O => Val tt w
  | Datatypes.S n => match ropQueryRows hindex w with Val _ w | Ret true w => run_queries n hindex w | o => o end
  end.
(** What they are to do: with a cursor of their own in the list of the base rows, read the rows of the page and answer with
    them, or with an error that leaves the cursor where it is *)
Fixpoint read_pages (hindex : Z) (p : N) (st : store) (t : tableState) (rows : list Z) (c : Z) (qs : list (query * bytes)) w : outcome S unit :=
  match qs with
  | [] => Val tt w
  | (q, rest) :: qs =>
      let answer ec tail w := set_out (w_out w ++ le_bytes 1 id_ropQueryRows ++ le_bytes 1 hindex ++ le_bytes 4 ec ++ tail) w in
      match own_rows st t (page rows c q) (set_in rest w) with
      | Val (Ok data) w =>
          let c' := page_end rows c q in
          read_pages hindex p st t rows c' qs
            (answer ecSuccess (le_bytes 1 (bookmark_at rows c' q) ++ le_bytes 2 (u16 (len (page rows c q))) ++ data)
               (set_objs (<[p := OTable st (tb_set_cursor t c')]> (w_objs w)) (w_nobj w) w))
      | Val (Err _) w => read_pages hindex p st t rows c qs (answer ecError [] w)
      | Ret b w => Ret b w
      | Panic => Panic
      end
  end.

Lemma run_openTable rop hindex ec w p st t : table_at w hindex p st t -> openTable rop hindex ec w = Val (p, st, t) w.
Proof. intros [Hh Ho]. unfold openTable, at_slot, mbind, H_bind. by rewrite Hh, Ho. Qed.
Lemma upto_lookup a b k : upto a b !! k = if (k <? Z.to_nat (b - a))%nat then Some (a + Z.of_nat k) else None.
Proof.
  unfold upto. rewrite list_lookup_fmap. destruct (Nat.ltb_spec k (Z.to_nat (b - a))); [by rewrite lookup_seq_lt|by rewrite lookup_seq_ge].
Qed.
Lemma downto_lookup a b k : downto a b !! k = if (k <? Z.to_nat (b - a))%nat then Some (b - 1 - Z.of_nat k) else None.
Proof.
  unfold downto. rewrite list_lookup_fmap. destruct (Nat.ltb_spec k (Z.to_nat (b - a))); [by rewrite lookup_seq_lt|by rewrite lookup_seq_ge].
Qed.
(** The positions of a page are those of the cursor's page in the view. *)
Lemma page_indices t view q : tb_view t = Some view -> 0 <= tb_cursor t <= len view -> 0 <= q_count q ->
  Forall2 (fun i b => 0 <= i /\ view !! Z.to_nat i = Some b) (pageIndices t (q_count q) (negb (q_forward q =? 0))).1 (page view (tb_cursor t) q)
  /\ (pageIndices t (q_count q) (negb (q_forward q =? 0))).2
     = if q_forward q =? 0 then Z.max (tb_cursor t - q_count q) 0 else Z.min (tb_cursor t + q_count q) (len view).
Proof.
  intros Hv Hc Hn. unfold pageIndices, page, total. rewrite Hv. unfold len in *. destruct (q_forward q =? 0); cbn [negb fst snd]; (split; [|done]); apply Forall2_lookup; intros k.
  - rewrite downto_lookup, lookup_take. destruct (Nat.ltb_spec k (Z.to_nat (tb_cursor t - Z.max (tb_cursor t - q_count q) 0))) as [Hk|Hk]; case_decide as Hd; try lia.
    + rewrite reverse_lookup by (rewrite length_take; lia). rewrite length_take, lookup_take_lt by lia.
      destruct (lookup_lt_is_Some_2 view (Z.to_nat (tb_cursor t - 1 - Z.of_nat k))) as [b Hb]; [lia|].
      replace (Z.to_nat (tb_cursor t) `min` length view - Datatypes.S k)%nat with (Z.to_nat (tb_cursor t - 1 - Z.of_nat k)) by lia. rewrite Hb. constructor. split; [lia|done].
    + rewrite (proj2 (lookup_ge_None _ _)) by (rewrite length_reverse, length_take; lia). constructor.
    + constructor.
  - rewrite upto_lookup, lookup_take. destruct (Nat.ltb_spec k (Z.to_nat (Z.min (tb_cursor t + q_count q) (Z.of_nat (length view)) - tb_cursor t))) as [Hk|Hk]; case_decide as Hd; try lia.
    + rewrite lookup_drop. destruct (lookup_lt_is_Some_2 view (Z.to_nat (tb_cursor t + Z.of_nat k))) as [b Hb]; [lia|].
      replace (Z.to_nat (tb_cursor t) + k)%nat with (Z.to_nat (tb_cursor t + Z.of_nat k)) by lia. rewrite Hb. constructor. split; [lia|done].
    + rewrite lookup_drop, (proj2 (lookup_ge_None _ _)) by lia. constructor.
    + constructor.
Qed.
Lemma own_rows_at st t view idxs bases w : tb_view t = Some view -> Forall2 (fun i b => 0 <= i /\ view !! Z.to_nat i = Some b) idxs bases ->
  encodeRows st t idxs w = own_rows st t bases w.
Proof.
  intros Hv H2. revert w. unfold own_rows. induction H2 as [|i b idxs bases [Hi Hb] _ IH]; intros w; [done|]. cbn [encodeRows].
  assert (E : forall w, encodeRow st t i w = encodeRow st (tb_set_view t (tb_sortKeys t) (tb_restriction t) None 0) b w).
  { intros w0. unfold encodeRow, rowProps, bind_ok, mbind, H_bind, baseIndex, index. rewrite Hv. cbn [tb_view tb_set_view]. rewrite (proj2 (Z.ltb_ge _ _)) by done. by rewrite Hb. }
  unfold bind_ok, mbind, H_bind. rewrite E. destruct (encodeRow _ _ b w) as [[r|e] w1| |]; [|done..]. by rewrite IH.
Qed.
(** One request *)
Lemma query_step w hindex p st t view q rest :
  table_at w hindex p st t -> tb_view t = Some view -> tb_columns t <> None -> 0 <= tb_cursor t <= len view -> query_requests [(q, rest)] (w_in w) ->
  ropQueryRows hindex w
  = match own_rows st t (page view (tb_cursor t) q) (set_in rest w) with
    | Val (Ok data) w =>
        let c := page_end view (tb_cursor t) q in
        Val tt (set_out (w_out w ++ le_bytes 1 id_ropQueryRows ++ le_bytes 1 hindex ++ le_bytes 4 ecSuccess
                  ++ le_bytes 1 (bookmark_at view c q) ++ le_bytes 2 (u16 (len (page view (tb_cursor t) q))) ++ data)
                 (set_objs (<[p := OTable st (tb_set_cursor t c)]> (w_objs w)) (w_nobj w) w))
    | Val (Err _) w => Ret true (set_out (w_out w ++ le_bytes 1 id_ropQueryRows ++ le_bytes 1 hindex ++ le_bytes 4 ecError) w)
    | Ret b w => Ret b w
    | Panic => Panic
    end.
Proof.
  intros Ha Hv Hcol Hc (Hq & Hn & _). unfold ropQueryRows. erewrite run_bind by (by apply run_pull). cbv iota beta.
  erewrite run_bind; [|unfold openProjectedTable, openStoreTable; erewrite run_bind by (by apply run_openTable); cbv iota beta; destruct (tb_columns t); [reflexivity|done]].
  cbv iota beta. destruct (page_indices t view q Hv Hc Hn) as [Hi Hend]. destruct (pageIndices t (q_count q) _) as [idxs c'] eqn:Ep. cbn [fst snd] in Hi, Hend.
  unfold mbind at 1, H_bind at 1. rewrite (own_rows_at st t view idxs _ (set_in rest w) Hv Hi). destruct (own_rows _ _ _ _) as [[data|e] w1|b w1|]; [| |done..].
  - cbn [or_fail]. assert (Et : (if Z.land (q_flags q) queryRowsNoAdvance =? 0 then tb_set_cursor t c' else t) = tb_set_cursor t (page_end view (tb_cursor t) q)).
    { unfold page_end. destruct (Z.land _ _ =? 0); cbn [negb]; [by rewrite Hend|by destruct t]. }
    rewrite Et. set (c := page_end view (tb_cursor t) q).
    assert (Eb : seekPosition (tb_set_cursor t c) (negb (q_forward q =? 0)) = bookmark_at view c q).
    { assert (0 <= c <= len view) by (unfold c, page_end; repeat case_match; lia).
      unfold seekPosition, bookmark_at, total. cbn [tb_set_cursor tb_set_view tb_view tb_cursor]. rewrite Hv. destruct (q_forward q =? 0); cbn [negb andb].
      - by destruct (c =? 0).
      - replace (len view <=? c) with (c =? len view) by (destruct (Z.eqb_spec c (len view)), (Z.leb_spec (len view) c); lia). by destruct (c =? len view). }
    rewrite Eb. replace (len idxs) with (len (page view (tb_cursor t) q)) by (unfold len; f_equal; symmetry; by eapply Forall2_length).
    erewrite run_bind by done. erewrite run_bind by done. erewrite run_bind by apply run_status.
    unfold emit, push_seq, push_Uint8, push_Uint16, push_Raw. cbn [rbind w_out set_out]. by rewrite !app_assoc_reverse.
  - cbn [or_fail]. unfold mbind, H_bind. by rewrite run_fail.
Qed.
(** Requests one after the other *)
Lemma queries_run hindex p st t view qs w c :
  table_at w hindex p st (tb_set_cursor t c) -> tb_view t = Some view -> tb_columns t <> None -> 0 <= c <= len view -> query_requests qs (w_in w) ->
  run_queries (length qs) hindex w = read_pages hindex p st t view c qs w.
Proof.
  revert w c. induction qs as [|[q rest] qs IH]; intros w c Ha Hv Hcol Hc Hq; [done|]. cbn [length run_queries read_pages]. destruct Hq as (Hq & Hn & Hrest).
  rewrite (query_step w hindex p st (tb_set_cursor t c) view q rest Ha Hv Hcol Hc) by done. cbn [tb_cursor tb_set_cursor tb_set_view].
  change (own_rows st (tb_set_cursor t c)) with (own_rows st t). pose proof (asks_encodeRows st (tb_set_view t (tb_sortKeys t) (tb_restriction t) None 0) (page view c q) (set_in rest w)) as Hs.
  unfold own_rows in *. destruct (encodeRows _ _ _ _) as [[data|e] w1|b w1|]; [| |done..]; destruct Hs as [s ->].
  - cbv zeta. change (tb_set_cursor (tb_set_cursor t c)) with (tb_set_cursor t). apply IH; [|done|done| |done].
    + destruct Ha as [Hh _]. split; [done|]. cbn. apply lookup_insert_eq.
    + unfold page_end. repeat case_match; lia.
  - by apply IH.
Qed.
(** The view that is rebuilt *)
Definition view_rows (t : tableState) (bags : list PropertyValues) : list Z :=
  SliceStable (fun i j => compareRows t (row_of bags i) (row_of bags j) <? 0) (matching L t bags).
Lemma rebuild_view p st t w bags w1 :
  tb_restriction t <> None \/ tb_sortKeys t <> [] -> (forall r, tb_restriction t = Some r -> typed r) ->
  (_ ← assign p (OTable st (tb_set_cursor t 0)); keyProps st (tb_set_cursor t 0)) w = Val (Ok bags) w1 ->
  rebuildView L p st t w
  = Val (Ok tt) (set_objs (<[p := OTable st (tb_set_view t (tb_sortKeys t) (tb_restriction t) (Some (view_rows t bags)) 0)]> (w_objs w1)) (w_nobj w1) w1).
Proof.
  intros Hne Ht Hk. set (t0 := tb_set_cursor t 0) in *. set (w' := set_objs _ _ _).
  assert (Hr : (_ ← assign p (OTable st t0); bags ←? keyProps st t0; view ← view_of L t0 bags;
                _ ← assign p (OTable st (tb_set_view t0 (tb_sortKeys t0) (tb_restriction t0) (Some view) 0)); ok tt) w = Val (Ok tt) w').
  { change (H_bind _ _ (fun _ => keyProps st t0) (assign p (OTable st t0)) w = Val (Ok bags) w1) in Hk. unfold H_bind in Hk.
    unfold mbind, H_bind, bind_ok. destruct (assign p (OTable st t0) w) as [a w0| |]; [|done..]. unfold mbind, H_bind. rewrite Hk.
    pose proof (view_of_matching L t0 bags w1 Ht) as Hv. rewrite Hv. done. }
  rewrite <- Hr. unfold rebuildView. fold t0. change (tb_restriction t0) with (tb_restriction t). change (tb_sortKeys t0) with (tb_sortKeys t).
  destruct (tb_restriction t); [done|]. destruct (tb_sortKeys t); [|done]. by destruct Hne.
Qed.
(** The handler up to the view: it opens the table and rebuilds the view of the table with the new keys or filter. *)
Lemma view_handled op w hindex p st t rest w' :
  table_at w hindex p st t -> view_request op (w_in w) rest -> rebuildView L p st (view_table t op) (set_in rest w) = Val (Ok tt) w' ->
  view_handler op hindex w = Val tt (set_out (w_out w' ++ le_bytes 1 (view_rop op) ++ le_bytes 1 hindex ++ le_bytes 4 ecSuccess ++ le_bytes 1 tableStatusComplete) w').
Proof.
  intros Ha Hq Hr. assert (Hfin : forall rop, (r ← rebuildView L p st (view_table t op); _ ← or_fail rop hindex ecError r; _ ← writeStatusHead rop hindex; emit (push_Uint8 tableStatusComplete)) (set_in rest w)
    = Val tt (set_out (w_out w' ++ le_bytes 1 rop ++ le_bytes 1 hindex ++ le_bytes 4 ecSuccess ++ le_bytes 1 tableStatusComplete) w')).
  { intros rop. erewrite run_bind by exact Hr. cbn [or_fail]. erewrite run_bind by done. erewrite run_bind by apply run_status.
    unfold emit, push_Uint8, push_Raw. cbn [w_out set_out]. by rewrite !app_assoc_reverse. }
  destruct op as [keys|res]; cbn [view_handler view_rop].
  - unfold ropSortTable. erewrite run_bind by (by apply run_pull). cbv iota beta. unfold openStoreTable. erewrite run_bind by (by apply run_openTable). cbn [negb]. apply Hfin.
  - destruct Hq as (raw & Hp & Hres). unfold ropRestrict. erewrite run_bind by (by apply run_pull). unfold openStoreTable. erewrite run_bind by (by apply run_openTable). cbv iota beta.
    erewrite (run_bind _ _ _ res); [apply Hfin|]. destruct res as [r|]; [|by rewrite Hres]. destruct Hres as (Hne & Hsup & more & Hpull). unfold parse_restriction.
    destruct raw; [done|]. rewrite Hpull, Hsup. done.
Qed.
End tables.

(** C13. A table is a cursor over its sorted rows.  RopSortTable and RopRestrict, run on the handle of a
    table, answer with success and leave it with the view of exactly the rows the filter keeps, ordered
    by the sort keys with rows of equal keys in the order they came, and with its cursor at the
    beginning; and any RopQueryRows on the handle after them, forward or backward, advancing or not,
    read the rows of the pages of a cursor of their own in that view, answer with them and with where
    the cursor then is, and leave it where it was when a row cannot be read.  The store is to answer
    for the properties the filter and the keys name, each key with values of one kind. *)
Theorem table_view_sorted {S} `{Backend S} (L : libs) (w : world S) hindex p st t op rest κ bags w1 :
  table_at w hindex p st t -> view_request op (w_in w) rest ->
  tb_restriction (view_table t op) <> None \/ tb_sortKeys (view_table t op) <> [] ->
  (forall r, tb_restriction t = Some r -> typed r) ->
  (_ ← assign p (OTable st (tb_set_cursor (view_table t op) 0)); keyProps st (tb_set_cursor (view_table t op) 0)) (set_in rest w) = Val (Ok bags) w1 ->
  Forall (keyed κ (tb_sortKeys (view_table t op))) bags ->
  exists w' view, view_handler L op hindex w = Val tt w'
    /\ w_in w' = rest /\ w_out w' = w_out w ++ le_bytes 1 (view_rop op) ++ le_bytes 1 hindex ++ le_bytes 4 ecSuccess ++ le_bytes 1 tableStatusComplete
    /\ view ≡ₚ matching L (view_table t op) bags /\ StronglySorted (row_order (view_table t op) bags) view
    /\ let t' := tb_set_view (view_table t op) (tb_sortKeys (view_table t op)) (tb_restriction (view_table t op)) (Some view) 0 in
       table_at w' hindex p st t'
       /\ (tb_columns t <> None -> forall qs, query_requests qs rest -> run_queries (length qs) hindex w' = read_pages hindex p st t' view 0 qs w').
Proof.
  intros Ha Hq Hne Ht Hk Hb. set (t1 := view_table t op) in *.
  assert (Ht1 : forall r, tb_restriction t1 = Some r -> typed r).
  { destruct op as [keys|[r|]]; cbn; [done| |done]. intros r' [= <-]. destruct Hq as (raw & _ & _ & _ & more & Hp). by eapply Restriction_typed. }
  pose proof (rebuild_view L p st t1 (set_in rest w) bags w1 Hne Ht1 Hk) as Hr. pose proof (view_handled L op w hindex p st t rest _ Ha Hq Hr) as Hh.
  destruct Ha as [Hs Ho]. erewrite run_bind in Hk by done. pose proof (asks_keyProps st (tb_set_cursor t1 0) (set_objs (<[p := OTable st (tb_set_cursor t1 0)]> (w_objs w)) (w_nobj w) (set_in rest w))) as Hq1.
  change (set_objs (<[p := OTable st (tb_set_cursor t1 0)]> (w_objs (set_in rest w))) (w_nobj (set_in rest w)) (set_in rest w)) with (set_objs (<[p := OTable st (tb_set_cursor t1 0)]> (w_objs w)) (w_nobj w) (set_in rest w)) in Hk.
  rewrite Hk in Hq1. destruct Hq1 as [s ->]. eexists _, (view_rows L t1 bags). split; [exact Hh|]. split; [done|]. split; [done|].
  split; [apply SliceStable_perm|]. split; [by apply (view_sorted L κ)|]. intros t'.
  assert (Hat : table_at (set_out (w_out w ++ le_bytes 1 (view_rop op) ++ le_bytes 1 hindex ++ le_bytes 4 ecSuccess ++ le_bytes 1 tableStatusComplete)
     (set_objs (<[p := OTable st t']> (<[p := OTable st (tb_set_cursor t1 0)]> (w_objs w))) (w_nobj w) (set_store s (set_in rest w)))) hindex p st t')
    by (split; [exact Hs|cbn; apply lookup_insert_eq]).
  split; [exact Hat|]. intros Hcol qs Hqs. apply queries_run; [exact Hat|done|by destruct op|split; [lia|apply len_nonneg]|exact Hqs].
Qed.
