(* ===== verification/RopRuns.v ===== *)
(** * The ROP layer: runs

    A small store of two mailboxes, on which the theorems of the ROP layer are applied and some
    sessions are run. *)

From stdpp Require Import base list gmap numbers.
From Stdlib Require Import ZArith Lia Sorted Permutation.
From Stdlib Require String.
Import String.StringSyntax.
From S2P Require Import Prelude Gostr Mapi Wire ExtVal Permission RopTags RopBase RopProps RopMessage RopStream RopTable RopNotify Rop RopInv RopRules RopSafe RopDispatch RopTheorems RopTableProofs.
Open Scope Z_scope.

(** ** The store *)

Definition PrSubject : Z := 0x0037001F.

Definition no_guid : GUID := mkGUID 0 0 0 [0; 0; 0; 0; 0; 0; 0; 0].
(** The reply to a call the store has no answer to *)
Definition null_reply (c : call) : reply c.
Proof. destruct c; try exact (Err SOther); first [exact 0|exact false|exact []|exact (0, 0)|exact (mkInstant 0 0 [] 0)]. Defined.
(** The store of the user's own mailbox, [/m/ann], and of another, [/m/bob], whose inbox lets her
    see it and create in it and whose calendar only see it.  Messages 1 and 2 are in every folder. *)
Definition demo (c : call) (next : Z) : Z * reply c :=
  match c with
  | COpen dir => (next + 1, Ok (mkStore next dir))
  | CStoreGUID _ | CMappingSignature _ => (next, Ok no_guid)
  | CGetDelegates _ => (next, Ok [])
  | CIsStoreOwner _ _ => (next, Ok false)
  | CHasFolderGrant _ _ => (next, Ok true)
  | CFolderExists _ _ => (next, Ok true)
  | CIsSearchFolder _ _ => (next, Ok false)
  | CFolderContentSignal _ _ _ => (next, Ok (0, 0))
  | CResolvePermission _ fid _ =>
      (next, Ok (if fid =? PrivateFIDInbox then Z.lor FrightsVisible (Z.lor FrightsReadAny FrightsCreate) else FrightsVisible))
  | CCreateMessage _ _ _ => (next, Ok 77)
  | CListPermissions _ _ => (next, Ok [mkEntry 1 (lit "bob@example.org") FrightsVisible])
  | CListMessageIDs _ _ => (next, Ok [1; 2])
  | CGetMessageProperties _ mid _ => (next, Ok [mkTagged PrSubject (AString (if mid =? 1 then lit "b" else lit "a"))])
  | CMessageComputedProps _ _ _ => (next, Ok [])
  | CMessagePropertiesBatch _ _ _ => (next, Ok (fun mid => [mkTagged PrSubject (AString (if mid =? 1 then lit "b" else lit "a"))]))
  | CMessageComputedPropsBatch _ _ _ => (next, Ok (fun _ => []))
  | CListMessages _ _ => (next, Ok [mkMessageInfo 1 1 0 0])
  | CMessageByUID _ _ uid => (next, Ok (mkMessageInfo uid uid 0 0))
  | CGetMessageRaw _ _ _ => (next, Ok (lit "raw"))
  | CAppendMessage _ _ _ _ _ | CClose _ => (next, Ok tt)
  | c => (next, null_reply c)
  end.
#[export] Instance demo_backend : Backend Z := demo.

Definition lower (s : bytes) : bytes := map (fun b => if (65 <=? b) && (b <=? 90) then b + 32 else b) s.
Definition demo_libs : libs := mkLibs lower (fun a b => (a, b, false)) (fun s => s) (fun _ => true) (fun _ => false) (fun _ => false) (fun _ => []).
Definition accounts : Accounts := mkAccounts (fun a => if beq a (lit "bob@example.org") then Some (lit "/m/bob") else None) None.
Definition ann : config := mkConfig (lit "/m/ann") (Some accounts) (lit "ann@example.org") (mkLocale 1252 1033 1033).

(** ** Requests *)

Definition logon_req (slot : Z) (dn : bytes) : bytes := [id_ropLogon; 0; slot; 0] ++ le_bytes 4 0 ++ le_bytes 4 0 ++ le_bytes 2 (len dn) ++ dn.
Definition bob_dn : bytes := lit "/o=x/cn=Recipients/cn=bob@example.org".
Definition open_req (slot oslot fid : Z) : bytes := [id_ropOpenFolder; 0; slot; oslot] ++ le_bytes 8 (MakeEIDEx 1 fid) ++ [0].
Definition create_req (slot oslot fid : Z) : bytes := [id_ropCreateMessage; 0; slot; oslot] ++ le_bytes 2 0 ++ le_bytes 8 (MakeEIDEx 1 fid) ++ [0].
Definition save_req (slot : Z) : bytes := [id_ropSaveChangesMessage; 0; slot; slot; 0].
Definition slots (n : nat) : list Z := replicate n nullHandle.
(** A message made in the inbox of the other mailbox *)
Definition compose_req : bytes := logon_req 0 bob_dn ++ open_req 0 1 PrivateFIDInbox ++ create_req 1 2 PrivateFIDInbox ++ save_req 2.

Definition is_val {S A} (o : outcome S A) : bool := match o with Val _ _ => true | _ => false end.
Lemma is_val_Val {S A} (o : outcome S A) : is_val o = true -> exists a w, o = Val a w.
Proof. destruct o; [by eexists _, _|done..]. Qed.

Lemma demo_parent : parent_typed demo_backend.
Proof. by intros st fid s s' pv [=]. Qed.
Lemma demo_opens : opens_dir demo_backend.
Proof. by intros dir s s' st [= _ <-]. Qed.
Lemma lower_length s : length (lower s) = length s.
Proof. apply length_map. Qed.
Lemma demo_no_growth req : no_growth (lb_ToLower demo_libs) req.
Proof. intros p s q _. cbn. by rewrite lower_length. Qed.

(** The session that composes the message, and another request of it: a table of the inbox is sorted. *)
Definition table_req : bytes :=
  [id_ropGetContentsTable; 0; 1; 3; 0] ++ [id_ropSortTable; 0; 3; 0] ++ le_bytes 2 1 ++ le_bytes 2 0 ++ le_bytes 2 0 ++ le_bytes 4 PrSubject ++ [0].

(** ** The theorems of the sessions at these *)

Lemma first_reached {S} `{Backend S} tab (init : S -> Prop) good env s req hs :
  is_val (Dispatch_with tab req hs (new_world s)) = true -> init s -> bytes_ok req = true -> good req ->
  exists out w, Dispatch_with tab req hs (new_world s) = Val out w /\ reached tab init good env w.
Proof.
  intros Hv Hi Hb Hg. destruct (is_val_Val _ Hv) as (out & w & E). exists out, w. split; [done|].
  eapply reached_dispatch; [by apply reached_new|done|done|exact E].
Qed.
Lemma compose_ok : bytes_ok compose_req = true.
Proof. by vm_compute. Qed.
Lemma table_ok : bytes_ok table_req = true.
Proof. by vm_compute. Qed.
Lemma composed_val : is_val (Dispatch_with (calm_table demo_libs ann) compose_req (slots 4) (new_world 1)) = true.
Proof. vm_cast_no_check (eq_refl true). Qed.
Lemma requests_never_panic_witness :
  exists out w, Dispatch_with (calm_table demo_libs ann) compose_req (slots 4) (new_world 1) = Val out w
    /\ exists out' w', Dispatch_with (calm_table demo_libs ann) table_req out.2 w = Val out' w'.
Proof.
  destruct (first_reached (calm_table demo_libs ann) (fun _ => True) (no_growth (lb_ToLower demo_libs)) (fun _ _ => False) 1 compose_req (slots 4)
              composed_val I compose_ok (demo_no_growth _)) as (out & w & E & Hr).
  exists out, w. split; [exact E|].
  exact (requests_never_panic demo_libs ann (fun _ _ => False) w table_req out.2 demo_parent eq_refl Hr table_ok (demo_no_growth _)).
Defined.

Definition created (e : logged_call) : bool := match lg_call e with CCreateMessage st _ _ => beq (st_dir st) (lit "/m/bob") | _ => false end.
Definition logs_creation (o : outcome (Z * list logged_call) (bytes * list Z)) : bool :=
  match o with Val _ w => existsb created (w_store w).2 | _ => false end.
Lemma composed_log : logs_creation (Dispatch_with (careful_table demo_libs ann false) compose_req (slots 4) (new_world (1, []))) = true.
Proof. vm_cast_no_check (eq_refl true). Qed.
Lemma creation_val o : logs_creation o = true -> is_val o = true.
Proof. by destruct o. Qed.

Lemma composed_batch : is_val (run_batch (ropTable demo_libs ann) (length compose_req) (request_world (new_world 1) compose_req (slots 4))) = true.
Proof. vm_cast_no_check (eq_refl true). Qed.
Lemma batches_terminate_witness :
  exists o, batch (ropTable demo_libs ann) (request_world (new_world 1) compose_req (slots 4)) o /\ is_val o = true.
Proof.
  pose proof (batches_terminate demo_libs ann (fun _ _ => False) (new_world 1) compose_req (slots 4) eq_refl (reached_new _ _ _ _ 1 I) compose_ok) as Hb.
  pose proof composed_batch as Hv.
  revert Hb Hv. generalize (run_batch (ropTable demo_libs ann) (length compose_req) (request_world (new_world 1) compose_req (slots 4))). intros o Hb Hv.
  exists o. split; [by apply Hb|exact Hv].
Defined.

(** ** A table and a stream *)

Definition bob : store := mkStore 1 (lit "/m/bob").
(** A contents table of two messages, sorted by subject and then read: a row forward, and what is before the cursor *)
Definition subject_table : tableState := tb_set_columns (new_table (TContents [1; 2]) PrivateFIDInbox 0 false) (Some [PrSubject]).
Definition table_queries : list (query * bytes) :=
  [(mkQuery 0 1 1, [0; 0] ++ le_bytes 2 5); (mkQuery 0 0 5, [])].
Definition query_bytes : bytes := [0; 1] ++ le_bytes 2 1 ++ [0; 0] ++ le_bytes 2 5.
Definition table_world : world Z :=
  mkWorld (mkSession {[5 := 0%N]} 6 [] ∅ ∅ 0) {[0%N := OTable bob subject_table]} 1 ∅ 0 ∅ 0 1
    ([0] ++ le_bytes 2 1 ++ le_bytes 2 0 ++ le_bytes 2 0 ++ le_bytes 4 PrSubject ++ [0] ++ query_bytes) [] [5].
Definition by_subject : view_op := VSort [mkSortKey PrSubject false].
Definition subjects : list PropertyValues := map (fun s => [mkTagged PrSubject (AString s)]) [lit "b"; lit "a"].
Definition keys_read : outcome Z (serrable (list PropertyValues)) :=
  (_ ← assign 0 (OTable bob (tb_set_cursor (view_table subject_table by_subject) 0)); keyProps bob (tb_set_cursor (view_table subject_table by_subject) 0))
    (set_in query_bytes table_world).
Lemma table_view_sorted_witness :
  exists w' view t', ropSortTable demo_libs 0 table_world = Val tt w' /\ table_at w' 0 0 bob t' /\ tb_view t' = Some view
    /\ StronglySorted (row_order (view_table subject_table by_subject) subjects) view
    /\ run_queries 2 0 w' = read_pages 0 0 bob t' view 0 table_queries w'.
Proof.
  assert (Hk : exists w1, keys_read = Val (Ok subjects) w1) by (eexists; vm_compute; reflexivity). destruct Hk as [w1 Hk].
  destruct (table_view_sorted demo_libs table_world 0 0 bob subject_table by_subject query_bytes (fun _ => VString) subjects w1)
    as (w' & view & H1 & _ & _ & _ & H5 & H6 & H7).
  - split; by vm_compute.
  - vm_compute. reflexivity.
  - by right.
  - done.
  - exact Hk.
  - repeat constructor; intros v Hv; vm_compute in Hv; injection Hv as <-; reflexivity.
  - eexists w', view, _. split; [exact H1|]. split; [exact H6|]. split; [done|]. split; [exact H5|]. apply (H7 ltac:(done) table_queries). repeat split; vm_compute; done.
Defined.
(** The view has the second message first.  The row read forward is its, and the backward read gives it again and ends at the beginning. *)
Example sorts_by_subject :
  match ropSortTable demo_libs 0 table_world with
  | Val _ w => (match w_objs w !! 0%N with Some (OTable _ t) => tb_view t | _ => None end,
      match run_queries 2 0 w with Val _ w => Some (drop 7 (w_out w)) | _ => None end)
  | _ => (None, None)
  end = (Some [1; 0],
    Some (le_bytes 1 id_ropQueryRows ++ [0] ++ le_bytes 4 0 ++ [1] ++ le_bytes 2 1 ++ [0; 97; 0; 0; 0]
          ++ le_bytes 1 id_ropQueryRows ++ [0] ++ le_bytes 4 0 ++ [0] ++ le_bytes 2 1 ++ [0; 97; 0; 0; 0])).
Proof. by vm_compute. Qed.

(** A message with a body stream: the stream is written, read from its second byte and committed. *)
Definition PrRtfBin : Z := 0x10090102.
Definition stream_ops : list stream_op := [SWrite (lit "abc"); SSeek 0 1; SRead 10; SCommit].
Definition stream_world : world Z :=
  mkWorld (mkSession {[5 := 1%N]} 6 [] ∅ ∅ 0)
    (<[0%N := ONewMessage bob (mkNewMessage PrivateFIDInbox [] [] [] false 0)]> {[1%N := OStream (mkStream 0 0 0 true false (Some 0%N) PrRtfBin)]}) 2
    ∅ 0 {[0%N := []]} 1 1 (le_bytes 2 3 ++ lit "abc" ++ [0] ++ le_bytes 8 1 ++ le_bytes 2 10) [] [5].
Lemma streams_are_files_witness :
  exists w' s', run_ops stream_ops 0 stream_world = Val tt w' /\ committed w' s' /\ f_bytes (file_of w' s') = lit "abc".
Proof.
  destruct (streams_are_files stream_world 0 1 (mkStream 0 0 0 true false (Some 0%N) PrRtfBin) stream_ops []) as (w' & s' & Hr & _ & _ & Hf & _ & Hc).
  - split; by vm_compute.
  - split; [by cbn|]. split; [by vm_compute|]. intros _. eexists 0%N, _. split; [reflexivity|]. split; [vm_compute; reflexivity|reflexivity].
  - eexists. split; [vm_compute; reflexivity|]. eexists. split; [vm_compute; reflexivity|]. eexists. split; [split; [vm_compute; reflexivity|lia]|]. eexists. split; [reflexivity|reflexivity].
  - exists w', s'. split; [exact Hr|]. split; [|rewrite Hf; by vm_compute]. apply Hc; [|reflexivity]. by exists [SWrite (lit "abc"); SSeek 0 1; SRead 10].
Defined.

(** ** What a session can do to the server and to another mailbox *)

Definition panics {S A} (o : outcome S A) : bool := match o with Panic => true | _ => false end.
(** Sorting a permissions table that has a row looks the row up among the messages of a contents table. *)
Definition permissions_req : bytes :=
  logon_req 0 [] ++ open_req 0 1 PrivateFIDInbox ++ [id_ropGetPermissionsTable; 0; 1; 2; 0]
  ++ [id_ropSortTable; 0; 2; 0] ++ le_bytes 2 1 ++ le_bytes 2 0 ++ le_bytes 2 0 ++ le_bytes 4 PrSubject ++ [0].
Example sorted_permissions_panic : panics (Dispatch demo_libs ann permissions_req (slots 3) (new_world 1)) = true.
Proof. vm_cast_no_check (eq_refl true). Qed.
(** A DN whose lower-cased form is longer is sliced past its end. *)
Fixpoint lower_stroke (s : bytes) : bytes :=
  match s with
  | 0xC8 :: 0xBA :: s => 0xE2 :: 0xB1 :: 0xA5 :: lower_stroke s
  | b :: s => (if (65 <=? b) && (b <=? 90) then b + 32 else b) :: lower_stroke s
  | [] => []
  end.
Definition stroke_libs : libs := mkLibs lower_stroke (fun a b => (a, b, false)) (fun s => s) (fun _ => true) (fun _ => false) (fun _ => false) (fun _ => []).
Definition stroke_dn : bytes := [0xC8; 0xBA; 0xC8; 0xBA] ++ lit "/cn=x".
Example lengthened_dn_panics : panics (Dispatch stroke_libs ann (logon_req 0 stroke_dn) (slots 1) (new_world 1)) = true.
Proof. vm_cast_no_check (eq_refl true). Qed.

(** A delegate with two logons of one mailbox copies into a folder she may not write, when the logon
    that folder was opened under is released first; it is refused while the logon is there. *)
Definition opens_req : bytes := logon_req 0 bob_dn ++ logon_req 1 bob_dn ++ open_req 0 2 PrivateFIDOutbox ++ open_req 1 3 PrivateFIDInbox.
Definition copy_req : bytes := [id_ropMoveCopyMessages; 0; 3; 2] ++ le_bytes 2 1 ++ le_bytes 8 (MakeEIDEx 1 1) ++ [0; 1].
Definition appended (e : logged_call) : bool := match lg_call e with CAppendMessage _ fid _ _ _ => fid =? PrivateFIDOutbox | _ => false end.
Definition appends (req : bytes) : bool :=
  match Dispatch demo_libs ann req (slots 4) (new_world (1, [])) with Val _ w => existsb appended (w_store w).2 | _ => false end.
Example release_drops_the_guard : appends (opens_req ++ [id_ropRelease; 0; 0] ++ copy_req) = true /\ appends (opens_req ++ copy_req) = false.
Proof. split; [vm_cast_no_check (eq_refl true)|vm_cast_no_check (eq_refl false)]. Qed.
