(* ===== verification/Rules.v ===== *)
(** * Mailbox rules ([internal/objectstore]: rules.go, rules_eval.go)

    The table of rules, the conditions evaluated against a message's properties, and their
    application to delivered mail or to a folder.  The table holds a condition and its actions in
    their wire form; the folder of a rule is taken to exist (the table's foreign key).  Applying a
    rule is a program of calls to the store that may answer anything, so that what it does with a message can be said for every store. *)

From stdpp Require Import base list numbers.
From Stdlib Require Import ZArith Lia.
From S2P Require Import Prelude Utf Gostr Mapi Wire ExtVal RopTags RopTable.
Open Scope Z_scope.

(** ** Values *)

Definition flFullString : Z := 0x0000.
Definition flSubstring : Z := 0x0001.
Definition flPrefix : Z := 0x0002.
Definition flPrefixOnAnyWord : Z := 0x0010.
Definition flPhraseMatch : Z := 0x0020.
Definition flIgnoreCase : Z := 0x00010000.
Definition flIgnoreNonSpace : Z := 0x00020000.
Definition flLoose : Z := 0x00040000.
Definition ruleFuzzyContains : Z := Z.lor flSubstring flIgnoreCase.
Definition ResSize : Z := 0x07.
Definition ResNull : Z := 0xFF.
Definition OpMove : Z := 0x01.
Definition OpCopy : Z := 0x02.
Definition OpDeferAction : Z := 0x05.
Definition OpForward : Z := 0x07.
Definition OpTag : Z := 0x09.
Definition OpDelete : Z := 0x0A.
Definition OpMarkAsRead : Z := 0x0B.
Definition RuleStateEnabled : Z := 0x00000001.
Definition RuleStateError : Z := 0x00000002.
Definition RuleStateOnlyWhenOOF : Z := 0x00000004.
Definition RuleStateExitLevel : Z := 0x00000010.
Definition FlagSeen : Z := 1.
Definition PrMessageSize : Z := 0x0E080003.
Definition PrOOFState : Z := 0x661D000B.
Definition PrSmtpAddress : Z := 0x39FE001F.
Definition ruleExtFlags : Z := 0.
(** "RuleOrganizer" *)
Definition ruleProviderDefault : bytes := [82; 117; 108; 101; 79; 114; 103; 97; 110; 105; 122; 101; 114].

Record Rule := mkRule {
  r_ID : Z; r_FolderID : Z; r_Name : bytes; r_Provider : bytes; r_Sequence : Z; r_State : Z; r_Condition : Restriction; r_Actions : RuleActions }.
Definition has_bit (state bit : Z) : bool := negb (Z.land state bit =? 0).
Definition Enabled (r : Rule) : bool := has_bit (r_State r) RuleStateEnabled.

(** ** Conditions *)

(** What the evaluation uses of Unicode: [strings.ToLower], [withoutMarks] (golang.org/x/text) and
    whether a rune is a letter or a digit *)
Record texts := mkTexts { tx_ToLower : bytes -> bytes; tx_withoutMarks : bytes -> bytes; tx_isWord : Z -> bool }.

Section eval.
Context (tx : texts).

Definition notWordRune (r : Z) : bool := negb (tx_isWord tx r).
(** [strings.FieldsFunc(s, notWordRune)], with the word so far *)
Fixpoint fields_func (fuel : nat) (word s : bytes) : list bytes :=
  let flush := match word with [] => [] | _ => [word] end in
  match fuel, s with
  | S fuel, b :: tl =>
      let '(r, t) := decode_rune b tl in
      let used := take (length s - length t) s in
      if notWordRune r then flush ++ fields_func fuel [] t else fields_func fuel (word ++ used) t
  | _, _ => flush
  end.
Definition contentMatches (hay needle : bytes) (fuzzyLevel : Z) : bool :=
  let '(hay, needle) := if has_bit fuzzyLevel (Z.lor flIgnoreCase flLoose) then (tx_ToLower tx hay, tx_ToLower tx needle) else (hay, needle) in
  let '(hay, needle) := if has_bit fuzzyLevel (Z.lor flIgnoreNonSpace flLoose) then (tx_withoutMarks tx hay, tx_withoutMarks tx needle) else (hay, needle) in
  let kind := Z.land fuzzyLevel 0x0000FFFF in
  if kind =? flFullString then beq hay needle
  else if kind =? flPrefix then HasPrefix hay needle
  else if kind =? flPrefixOnAnyWord then existsb (fun w => HasPrefix w needle) (fields_func (length hay) [] hay)
  else Contains hay needle.
Definition evalContent (c : ContentRestriction_ any) (props : PropertyValues) : bool :=
  match pv_GetAnyCharset props (crPropTag c) with
  | None => false
  | Some v =>
      match tpValue (crPropVal c) with
      | AString needle =>
          match v with
          | AString hay => contentMatches hay needle (crFuzzyLevel c)
          | AStrings hays => existsb (fun one => contentMatches one needle (crFuzzyLevel c)) hays
          | _ => false
          end
      | _ => false
      end
  end.

Definition toInt64 (v : any) : option Z :=
  match v with
  | AInt32 n | AInt64 n | AInt16 n | AUint32 n => Some n
  | AUint64 n => Some (i64 n)
  | _ => None
  end.
Definition cmpInt64 (a b : Z) : Z := if a <? b then -1 else if b <? a then 1 else 0.
Definition boolInt (b : bool) : Z := if b then 1 else 0.
Definition compareValues (have want : any) : option Z :=
  match toInt64 have with
  | Some hn => cmpInt64 hn <$> toInt64 want
  | None =>
      match have, want with
      | AString h, AString w => Some (bytes_Compare h w)
      | ABytes h, ABytes w => Some (bytes_Compare h w)
      | ABool h, ABool w => Some (cmpInt64 (boolInt h) (boolInt w))
      | AFloat64 h, AFloat64 w => Some (cmp_Compare (float_key 64 52 h) (float_key 64 52 w))
      | AFloat32 h, AFloat32 w => Some (cmp_Compare (float_key 32 23 h) (float_key 32 23 w))
      | _, _ => None
      end
  end.
Definition applyRelop (cmp op : Z) : bool :=
  if op =? RelopLT then cmp <? 0 else if op =? RelopLE then cmp <=? 0 else if op =? RelopGT then 0 <? cmp
  else if op =? RelopGE then 0 <=? cmp else if op =? RelopEQ then cmp =? 0 else if op =? RelopNE then negb (cmp =? 0) else false.
Definition compareProperty (have : any) (relop : Z) (want : any) : bool :=
  match compareValues have want with Some sign => applyRelop sign relop | None => false end.
(** The elements of a slice.  Those of a byte slice, a GUID slice and a slice of restrictions are no
    values that compare. *)
Definition slice_elements (v : any) : option (list any) :=
  match v with
  | AInt16s l => Some (map AInt16 l) | AInt32s l => Some (map AInt32 l) | AInt64s l => Some (map AInt64 l) | AUint64s l => Some (map AUint64 l)
  | AFloat32s l => Some (map AFloat32 l) | AFloat64s l => Some (map AFloat64 l) | AStrings l => Some (map AString l) | ABytess l => Some (map ABytes l)
  | ABytes _ | AGUIDs _ | ARess _ => Some []
  | _ => None
  end.
Definition evalMultivalueProperty (pr : PropertyRestriction_ any) (have : any) : bool :=
  if negb (prRelop pr =? RelopEQ) && negb (prRelop pr =? RelopNE) then false
  else match slice_elements have with
       | None => false
       | Some l => eqb (existsb (fun v => compareProperty v RelopEQ (tpValue (prPropVal pr))) l) (prRelop pr =? RelopEQ)
       end.
Definition evalProperty (pr : PropertyRestriction_ any) (props : PropertyValues) : bool :=
  match pv_GetAnyCharset props (prPropTag pr) with
  | None => false
  | Some have => if IsMultivalue (PropTag_Type (prPropTag pr)) then evalMultivalueProperty pr have else compareProperty have (prRelop pr) (tpValue (prPropVal pr))
  end.
Definition evalBitmask (b : BitmaskRestriction) (props : PropertyValues) : bool :=
  match pv_Get props (bmPropTag b) with
  | None => false
  | Some v =>
      match toInt64 v with
      | None => false
      | Some n => let masked := Z.land (u32 n) (bmMask b) in if bmRelop b =? BmrEqz then masked =? 0 else negb (masked =? 0)
      end
  end.
Definition valueByteSize (v : any) : Z :=
  match v with
  | AString s => len s | ABytes b => len b | AInt16 _ => 2 | AInt32 _ | AUint32 _ => 4 | AInt64 _ | AUint64 _ => 8
  | _ => 0
  end.
Definition evalSize (sz : SizeRestriction) (props : PropertyValues) : bool :=
  match pv_Get props (szPropTag sz) with
  | None => false
  | Some v => applyRelop (cmpInt64 (valueByteSize v) (szSize sz)) (szRelop sz)
  end.
Definition evalExist (e : ExistRestriction) (props : PropertyValues) : bool := match pv_GetAnyCharset props (exPropTag e) with Some _ => true | None => false end.
Definition evalPropertyTest (ty : Z) (v : any) (props : PropertyValues) : bool :=
  if ty =? ResContent then match v with AContent c => evalContent c props | _ => false end
  else if ty =? ResProperty then match v with AProperty p => evalProperty p props | _ => false end
  else if ty =? ResBitmask then match v with ABitmask b => evalBitmask b props | _ => false end
  else if ty =? ResSize then match v with ASize s => evalSize s props | _ => false end
  else if ty =? ResExist then match v with AExist e => evalExist e props | _ => false end
  else false.
(** [evalRestriction] and [evalLogical]; the loops are [evalAll] and [evalAny]. *)
Fixpoint eval_res (props : PropertyValues) (ty : Z) (v : any) {struct v} : bool :=
  if ty =? ResAnd then
    match v with ARess kids => (fix all l := match l with [] => true | k :: l => if negb (eval_res props (resType k) (resValue k)) then false else all l end) kids | _ => true end
  else if ty =? ResOr then
    match v with ARess kids => (fix some l := match l with [] => false | k :: l => if eval_res props (resType k) (resValue k) then true else some l end) kids | _ => false end
  else if ty =? ResNot then match v with ARes inner => negb (eval_res props (resType inner) (resValue inner)) | _ => false end
  else if ty =? ResComment then
    match v with AComment c => match cmRes c with None => true | Some r => eval_res props (resType r) (resValue r) end | _ => false end
  else if ty =? ResNull then true
  else evalPropertyTest ty v props.
Definition evalRestriction (r : Restriction) (props : PropertyValues) : bool := eval_res props (resType r) (resValue r).
End eval.

(** ** The table of rules *)

Record row := mkRow { w_id : Z; w_name : bytes; w_provider : bytes; w_sequence : Z; w_state : Z; w_condition : bytes; w_actions : bytes; w_folder : Z }.
(** The rows in the order of their ids, and the last id given out ([AUTOINCREMENT] gives none twice) *)
Record rules_db := mkDB { db_rows : list row; db_last : Z }.
Inductive rules_error := ErrCodec (e : Wire.error) | ErrNotFound | ErrRuleOp.
Definition written_blob (p : push) : result rules_error bytes := match p [] with Ok b => Ok b | Err e => Err (ErrCodec e) end.
Definition read_blob {A} (p : pull A) (b : bytes) : result rules_error A := match p b with Ok (a, _) => Ok a | Err e => Err (ErrCodec e) end.

(** [SELECT MAX(sequence)], 0 for no row *)
Definition max_sequence (db : rules_db) (folder : Z) : Z :=
  match List.filter (fun w => w_folder w =? folder) (db_rows db) with
  | [] => 0
  | w :: l => foldl (fun m w => Z.max m (w_sequence w)) (w_sequence w) l
  end.
Definition next_sequence (db : rules_db) (folder seq : Z) : Z := if seq <=? 0 then i32 (i32 (max_sequence db folder) + 1) else seq.
Definition insert_row (db : rules_db) (f : Z -> row) : rules_db := mkDB (db_rows db ++ [f (db_last db + 1)]) (db_last db + 1).
Definition AddRule (db : rules_db) (r : Rule) : result rules_error (Z * rules_db) :=
  match written_blob (push_Restriction ruleExtFlags (r_Condition r)) with
  | Err e => Err e
  | Ok cond =>
      match written_blob (push_RuleActions ruleExtFlags (r_Actions r)) with
      | Err e => Err e
      | Ok acts =>
          let provider := if beq (r_Provider r) [] then ruleProviderDefault else r_Provider r in
          let seq := next_sequence db (r_FolderID r) (r_Sequence r) in
          Ok (db_last db + 1, insert_row db (fun id => mkRow id (r_Name r) provider seq (r_State r) cond acts (r_FolderID r)))
      end
  end.

(** [ORDER BY sequence, rule_id] *)
Definition row_less (a b : row) : bool := (w_sequence a <? w_sequence b) || ((w_sequence a =? w_sequence b) && (w_id a <? w_id b)).
Definition rule_of (folder : Z) (w : row) : result rules_error Rule :=
  match read_blob (pull_Restriction ruleExtFlags) (w_condition w) with
  | Err e => Err e
  | Ok cond =>
      match read_blob (pull_RuleActions ruleExtFlags) (w_actions w) with
      | Err e => Err e
      | Ok acts => Ok (mkRule (w_id w) folder (w_name w) (w_provider w) (w_sequence w) (u32 (w_state w)) cond acts)
      end
  end.
Fixpoint rules_of (folder : Z) (ws : list row) : result rules_error (list Rule) :=
  match ws with
  | [] => Ok []
  | w :: ws => match rule_of folder w with Err e => Err e | Ok r => match rules_of folder ws with Err e => Err e | Ok l => Ok (r :: l) end end
  end.
Definition ListRules (db : rules_db) (folder : Z) : result rules_error (list Rule) :=
  rules_of folder (SliceStable row_less (List.filter (fun w => w_folder w =? folder) (db_rows db))).

(** [UPDATE rules SET ... WHERE rule_id=?] *)
Definition update_row (db : rules_db) (id : Z) (f : row -> row) : rules_db := mkDB (map (fun w => if w_id w =? id then f w else w) (db_rows db)) (db_last db).
Definition find_row (db : rules_db) (id : Z) : option row := List.find (fun w => w_id w =? id) (db_rows db).
Definition delete_rows (db : rules_db) (p : row -> bool) : rules_db := mkDB (List.filter (fun w => negb (p w)) (db_rows db)) (db_last db).
Definition set_name (v : bytes) (w : row) : row := mkRow (w_id w) v (w_provider w) (w_sequence w) (w_state w) (w_condition w) (w_actions w) (w_folder w).
Definition set_provider (v : bytes) (w : row) : row := mkRow (w_id w) (w_name w) v (w_sequence w) (w_state w) (w_condition w) (w_actions w) (w_folder w).
Definition set_sequence (v : Z) (w : row) : row := mkRow (w_id w) (w_name w) (w_provider w) v (w_state w) (w_condition w) (w_actions w) (w_folder w).
Definition set_state (v : Z) (w : row) : row := mkRow (w_id w) (w_name w) (w_provider w) (w_sequence w) v (w_condition w) (w_actions w) (w_folder w).
Definition set_condition (v : bytes) (w : row) : row := mkRow (w_id w) (w_name w) (w_provider w) (w_sequence w) (w_state w) v (w_actions w) (w_folder w).
Definition set_actions (v : bytes) (w : row) : row := mkRow (w_id w) (w_name w) (w_provider w) (w_sequence w) (w_state w) (w_condition w) v (w_folder w).
Definition SetRuleEnabled (db : rules_db) (id : Z) (enabled : bool) : result rules_error rules_db :=
  match find_row db id with
  | None => Err ErrNotFound
  | Some w => Ok (update_row db id (set_state (if enabled then Z.lor (w_state w) RuleStateEnabled else Z.ldiff (w_state w) RuleStateEnabled)))
  end.
Definition SetRuleSequence (db : rules_db) (id sequence : Z) : result rules_error rules_db :=
  match find_row db id with None => Err ErrNotFound | Some _ => Ok (update_row db id (set_sequence sequence)) end.
Definition DeleteRule (db : rules_db) (id : Z) : result rules_error rules_db :=
  match find_row db id with None => Err ErrNotFound | Some _ => Ok (delete_rows db (fun w => w_id w =? id)) end.

Definition RuleAdd : Z := 1.
Definition RuleModify : Z := 2.
Definition RuleRemove : Z := 3.
Record RulePatch := mkPatch {
  rp_Name : option bytes; rp_Provider : option bytes; rp_Sequence : option Z; rp_State : option Z; rp_Condition : option Restriction; rp_Actions : option RuleActions }.
Record RuleChange := mkChange { rc_Op : Z; rc_RuleID : Z; rc_Patch : RulePatch }.
(** A nil pointer is written as the zero value: a condition of type [ResAnd] without a value, and no actions *)
Definition marshalRestriction (r : option Restriction) : result rules_error bytes := written_blob (push_Restriction ruleExtFlags (default (mkRes 0 ANil) r)).
Definition marshalRuleActions (a : option RuleActions) : result rules_error bytes := written_blob (push_RuleActions ruleExtFlags (default (mkRuleActions []) a)).
Definition insertRulePatch (db : rules_db) (folder : Z) (p : RulePatch) : result rules_error rules_db :=
  match marshalRestriction (rp_Condition p) with
  | Err e => Err e
  | Ok cond =>
      match marshalRuleActions (rp_Actions p) with
      | Err e => Err e
      | Ok acts =>
          let provider := match rp_Provider p with Some v => if beq v [] then ruleProviderDefault else v | None => ruleProviderDefault end in
          let seq := next_sequence db folder (default 0 (rp_Sequence p)) in
          Ok (insert_row db (fun id => mkRow id (default [] (rp_Name p)) provider seq (default 0 (rp_State p)) cond acts folder))
      end
  end.
Definition setRuleColumn {T} (set : T -> row -> row) (v : option T) (w : row) : row := match v with Some v => set v w | None => w end.
Definition updateRuleColumns (p : RulePatch) (w : row) : row :=
  setRuleColumn set_state (rp_State p) (setRuleColumn set_sequence (rp_Sequence p) (setRuleColumn set_provider (rp_Provider p) (setRuleColumn set_name (rp_Name p) w))).
(** A blob that is written when the patch has the value *)
Definition patch_blob {T} (marshal : option T -> result rules_error bytes) (v : option T) : result rules_error (option bytes) :=
  match v with None => Ok None | Some _ => match marshal v with Ok b => Ok (Some b) | Err e => Err e end end.
Definition updateRuleBlobs (p : RulePatch) : result rules_error (row -> row) :=
  match patch_blob marshalRestriction (rp_Condition p) with
  | Err e => Err e
  | Ok cond =>
      match patch_blob marshalRuleActions (rp_Actions p) with
      | Err e => Err e
      | Ok acts => Ok (fun w => setRuleColumn set_actions acts (setRuleColumn set_condition cond w))
      end
  end.
Definition updateRulePatch (db : rules_db) (folder id : Z) (p : RulePatch) : result rules_error rules_db :=
  match find_row db id with
  | None => Ok db
  | Some w =>
      if negb (w_folder w =? folder) then Ok db
      else match updateRuleBlobs p with
           | Err e => Err e
           | Ok blobs => Ok (update_row db id (fun w => blobs (updateRuleColumns p w)))
           end
  end.
Definition apply_rule_change (folder : Z) (db : rules_db) (c : RuleChange) : result rules_error rules_db :=
  if rc_Op c =? RuleAdd then insertRulePatch db folder (rc_Patch c)
  else if rc_Op c =? RuleModify then updateRulePatch db folder (rc_RuleID c) (rc_Patch c)
  else if rc_Op c =? RuleRemove then Ok (delete_rows db (fun w => (w_folder w =? folder) && (w_id w =? rc_RuleID c)))
  else Err ErrRuleOp.
Fixpoint apply_rule_changes (folder : Z) (db : rules_db) (cs : list RuleChange) : result rules_error rules_db :=
  match cs with [] => Ok db | c :: cs => match apply_rule_change folder db c with Err e => Err e | Ok db => apply_rule_changes folder db cs end end.
(** One transaction: an error leaves the table as it was *)
Definition ModifyRules (db : rules_db) (folder : Z) (replace : bool) (changes : list RuleChange) : rules_db * option rules_error :=
  let cleared := if replace then delete_rows db (fun w => w_folder w =? folder) else db in
  match apply_rule_changes folder cleared changes with Ok db' => (db', None) | Err e => (db, Some e) end.

(** ** What a rule asks of the store *)

Record MessageInfo := mkInfo { mi_ID : Z; mi_UID : Z; mi_Size : Z; mi_InternalDate : Z; mi_Flags : Z }.
Inductive call : Type -> Type :=
| CListRules (folder : Z) : call (option (list Rule))
| CListMessages (folder : Z) : call (option (list MessageInfo))
| COOFActive (now : Z) : call (option bool)
| CGetMessageProperties (id : Z) : call (option PropertyValues)
| CSetMessageProperties (id : Z) (pv : PropertyValues) : call bool
| CMessageFlags (folder uid : Z) : call (option Z)
| CSetMessageFlags (folder uid flags : Z) : call bool
| CMessageByUID (folder uid : Z) : call (option MessageInfo)
| CGetMessageRaw (folder uid : Z) : call (option bytes)
| CAppendMessage (folder : Z) (raw : bytes) (date flags : Z) : call (option MessageInfo)
| CDeleteMessage (folder uid : Z) : call bool.
(** A program of calls of some kind; [None] and [false] are an error. *)
Inductive free (C : Type -> Type) (A : Type) : Type :=
| Ret (a : A)
| Call {X : Type} (c : C X) (k : X -> free C A).
Arguments Ret {C A} a.
Arguments Call {C A X} c k.
Notation prog := (free call).
Fixpoint bind {C A B} (p : free C A) (f : A -> free C B) : free C B :=
  match p with
  | Ret a => f a
  | Call c k => Call c (fun x => bind (k x) f)
  end.
(** The same program over a larger set of calls *)
Fixpoint lift {C D : Type -> Type} (inj : forall X, C X -> D X) {A} (p : free C A) : free D A :=
  match p with
  | Ret a => Ret a
  | Call c k => Call (inj _ c) (fun x => lift inj (k x))
  end.
Notation "'ask' x := c 'in' p" := (Call c (fun x => p)) (at level 200, x name, right associativity).
Notation "'run' x := p 'in' q" := (bind p (fun x => q)) (at level 200, x pattern, right associativity).

Record InboxRuleActions := mkActions { ia_Forwards : list (list bytes); ia_Bounces : list bytes; ia_AutoReplies : list bytes }.
Definition no_actions : InboxRuleActions := mkActions [] [] [].
Definition merge (a o : InboxRuleActions) : InboxRuleActions :=
  mkActions (ia_Forwards a ++ ia_Forwards o) (ia_Bounces a ++ ia_Bounces o) (ia_AutoReplies a ++ ia_AutoReplies o).

Definition copyMessage (src uid dst : Z) : prog bool :=
  ask m := CMessageByUID src uid in
  match m with
  | None => Ret false
  | Some m =>
      ask raw := CGetMessageRaw src uid in
      match raw with
      | None => Ret false
      | Some raw => ask info := CAppendMessage dst raw (mi_InternalDate m) (mi_Flags m) in Ret (match info with Some _ => true | None => false end)
      end
  end.
Definition MoveMessage (src uid dst : Z) : prog (option MessageInfo) :=
  ask m := CMessageByUID src uid in
  match m with
  | None => Ret None
  | Some m =>
      ask raw := CGetMessageRaw src uid in
      match raw with
      | None => Ret None
      | Some raw =>
          ask info := CAppendMessage dst raw (mi_InternalDate m) (mi_Flags m) in
          match info with
          | None => Ret None
          | Some info => ask ok := CDeleteMessage src uid in Ret (if ok : bool then Some info else None)
          end
      end
  end.
Definition moveMessage (src uid dst : Z) : prog bool := run info := MoveMessage src uid dst in Ret (match info with Some _ => true | None => false end).
Definition moveTargetFolder (data : any) : option Z :=
  match data with AMoveCopy mc => match mcFolderEID mc with ASVREID svr => Some (i64 (svFolderID svr)) | _ => None end | _ => None end.
Definition markRuleMessageRead (src uid : Z) : prog bool :=
  ask cur := CMessageFlags src uid in
  match cur with
  | None => Ret false
  | Some cur => if has_bit cur FlagSeen then Ret true else ask ok := CSetMessageFlags src uid (Z.lor cur FlagSeen) in Ret ok
  end.
Definition tagRuleMessage (src uid : Z) (data : any) : prog bool :=
  match data with
  | ATagged tv =>
      ask mi := CMessageByUID src uid in
      match mi with None => Ret false | Some mi => ask ok := CSetMessageProperties (mi_ID mi) [mkTagged (tpTag tv) (tpValue tv)] in Ret ok end
  | _ => Ret true
  end.
Definition deferKindReject : Z := 82.
Definition deferKindVacation : Z := 86.
Definition collectDeferredAction (data : any) (eff : InboxRuleActions) : InboxRuleActions :=
  match data with
  | ABytes (kind :: text) =>
      if kind =? deferKindReject then mkActions (ia_Forwards eff) (ia_Bounces eff ++ [text]) (ia_AutoReplies eff)
      else if kind =? deferKindVacation then mkActions (ia_Forwards eff) (ia_Bounces eff) (ia_AutoReplies eff ++ [text])
      else eff
  | _ => eff
  end.
Definition forwardAddresses (data : any) : list bytes :=
  match data with
  | AForward fd =>
      concat (map (fun rb => omap (fun pv => if tpTag pv =? PrSmtpAddress then match tpValue pv with AString s => if beq s [] then None else Some s | _ => None end else None)
                               (rbPropVals rb)) (fdRecipients fd))
  | _ => []
  end.
Definition copyRuleMessage (src uid : Z) (data : any) : prog bool :=
  match moveTargetFolder data with None => Ret true | Some dst => if dst =? src then Ret true else copyMessage src uid dst end.
(** Whether the message has left the folder, and whether there was no error *)
Definition moveRuleMessage (src uid : Z) (data : any) : prog (bool * bool) :=
  match moveTargetFolder data with
  | None => Ret (false, true)
  | Some dst => if dst =? src then Ret (false, true) else run ok := moveMessage src uid dst in Ret (if ok : bool then (true, true) else (false, false))
  end.
Definition deleteRuleMessage (src uid : Z) : prog bool :=
  if src =? PrivateFIDDeletedItems then ask ok := CDeleteMessage src uid in Ret ok else moveMessage src uid PrivateFIDDeletedItems.
Definition applyRuleBlock (src uid : Z) (b : ActionBlock) (eff : InboxRuleActions) : prog (bool * bool * InboxRuleActions) :=
  let keep (p : prog bool) := run ok := p in Ret (false, ok, eff) in
  let ty := abType b in
  if ty =? OpMarkAsRead then keep (markRuleMessageRead src uid)
  else if ty =? OpTag then keep (tagRuleMessage src uid (abData b))
  else if ty =? OpForward then
    Ret (false, true, match forwardAddresses (abData b) with [] => eff | addrs => mkActions (ia_Forwards eff ++ [addrs]) (ia_Bounces eff) (ia_AutoReplies eff) end)
  else if ty =? OpDeferAction then Ret (false, true, collectDeferredAction (abData b) eff)
  else if ty =? OpCopy then keep (copyRuleMessage src uid (abData b))
  else if ty =? OpMove then run r := moveRuleMessage src uid (abData b) in Ret (r.1, r.2, eff)
  else if ty =? OpDelete then run ok := deleteRuleMessage src uid in Ret (true, ok, eff)
  else Ret (false, true, eff).
(** Whether the message has left the folder, what is to be sent, and whether there was no error *)
Fixpoint apply_blocks (src uid : Z) (blocks : list ActionBlock) (eff : InboxRuleActions) : prog (bool * InboxRuleActions * bool) :=
  match blocks with
  | [] => Ret (false, eff, true)
  | b :: blocks =>
      run r := applyRuleBlock src uid b eff in
      let '(terminal, ok, eff) := r in
      if negb ok then Ret (false, eff, false) else if terminal : bool then Ret (true, eff, true) else apply_blocks src uid blocks eff
  end.
Definition applyRuleActions (src uid : Z) (acts : RuleActions) : prog (bool * InboxRuleActions * bool) := apply_blocks src uid (raBlocks acts) no_actions.

(** ** Applying rules *)

Definition runnableRule (r : Rule) (oofActive : bool) : bool :=
  if negb (Enabled r) || has_bit (r_State r) RuleStateError then false else oofActive || negb (has_bit (r_State r) RuleStateOnlyWhenOOF).

Section apply.
Context (tx : texts).

Fixpoint rules_loop (folder uid : Z) (props : PropertyValues) (oofActive : bool) (rules : list Rule) (acted : bool) (eff : InboxRuleActions) : prog (bool * InboxRuleActions * bool) :=
  match rules with
  | [] => Ret (acted, eff, true)
  | r :: rules =>
      if negb (runnableRule r oofActive) then rules_loop folder uid props oofActive rules acted eff
      else if negb (evalRestriction tx (r_Condition r) props) then rules_loop folder uid props oofActive rules acted eff
      else
        run x := applyRuleActions folder uid (r_Actions r) in
        let '(terminal, sub, ok) := x in
        let eff := merge eff sub in
        if negb ok then Ret (acted, eff, false)
        else if terminal || has_bit (r_State r) RuleStateExitLevel then Ret (true, eff, true)
        else rules_loop folder uid props oofActive rules true eff
  end.
(** The properties a condition is tested against *)
Definition rule_props (props : PropertyValues) (m : MessageInfo) (oofActive : bool) : PropertyValues :=
  let props := pv_Set props PrMessageSize (AInt32 (i32 (mi_Size m))) in
  if oofActive then pv_Set props PrOOFState (ABool true) else props.
Definition applyRulesToMessage (folder : Z) (m : MessageInfo) (rules : list Rule) (oofActive : bool) : prog (bool * InboxRuleActions * bool) :=
  ask props := CGetMessageProperties (mi_ID m) in
  match props with
  | None => Ret (false, no_actions, false)
  | Some props => rules_loop folder (mi_UID m) (rule_props props m oofActive) oofActive rules false no_actions
  end.
Definition oofActive (now : Z) : prog bool := ask oof := COOFActive now in Ret (default false oof).

Record RuleRunResult := mkRun { rr_Evaluated : Z; rr_Affected : Z }.
Record RunRulesOptions := mkOptions { ro_RuleFolderID : Z; ro_TargetFolderID : Z; ro_RuleID : Z }.
Definition onlyRule (rules : list Rule) (id : Z) : list Rule := match List.find (fun r => r_ID r =? id) rules with Some r => [r] | None => [] end.
Fixpoint run_messages (target : Z) (rules : list Rule) (oof : bool) (msgs : list MessageInfo) (res : RuleRunResult) : prog (RuleRunResult * bool) :=
  match msgs with
  | [] => Ret (res, true)
  | m :: msgs =>
      let res := mkRun (rr_Evaluated res + 1) (rr_Affected res) in
      run x := applyRulesToMessage target m rules oof in
      let '(acted, _, ok) := x in
      if negb ok then Ret (res, false)
      else run_messages target rules oof msgs (if acted : bool then mkRun (rr_Evaluated res) (rr_Affected res + 1) else res)
  end.
Definition RunRulesIn (opt : RunRulesOptions) (now : Z) : prog (RuleRunResult * bool) :=
  ask rules := CListRules (ro_RuleFolderID opt) in
  match rules with
  | None => Ret (mkRun 0 0, false)
  | Some rules =>
      let rules := if negb (ro_RuleID opt =? 0) then onlyRule rules (ro_RuleID opt) else rules in
      match rules with
      | [] => Ret (mkRun 0 0, true)
      | _ =>
          ask msgs := CListMessages (ro_TargetFolderID opt) in
          match msgs with
          | None => Ret (mkRun 0 0, false)
          | Some msgs => run oof := oofActive now in run_messages (ro_TargetFolderID opt) rules oof msgs (mkRun 0 0)
          end
      end
  end.
Definition RunRules (folder now : Z) : prog (RuleRunResult * bool) := RunRulesIn (mkOptions folder folder 0) now.
Definition ApplyInboxRules (m : MessageInfo) (now : Z) : prog (InboxRuleActions * bool) :=
  ask rules := CListRules PrivateFIDInbox in
  match rules with
  | None => Ret (no_actions, false)
  | Some [] => Ret (no_actions, true)
  | Some rules =>
      run oof := oofActive now in
      run x := applyRulesToMessage PrivateFIDInbox m rules oof in
      let '(_, acts, ok) := x in Ret (acts, ok)
  end.
End apply.

(** ** What the rule editor builds *)

Definition PrSubject : Z := 0x0037001F.
Definition PrSenderSmtpAddress : Z := 0x5D01001F.
Definition PrBody : Z := 0x1000001F.
Definition PrDisplayTo : Z := 0x0E04001F.
Definition PrDisplayCc : Z := 0x0E03001F.
Definition PrTransportMessageHeaders : Z := 0x007D001F.
Definition PrFlagStatus : Z := 0x10900003.
Definition PrImportance : Z := 0x00170003.
Definition PrSensitivity : Z := 0x00360003.
Definition contentContains (tag : Z) (text : bytes) : Restriction := mkRes ResContent (AContent (mkContent ruleFuzzyContains tag (mkTagged tag (AString text)))).
Definition RuleSubjectContains (text : bytes) : Restriction := contentContains PrSubject text.
Definition RuleFromContains (text : bytes) : Restriction := contentContains PrSenderSmtpAddress text.
Definition RuleBodyContains (text : bytes) : Restriction := contentContains PrBody text.
Definition RuleToContains (text : bytes) : Restriction := contentContains PrDisplayTo text.
Definition RuleCcContains (text : bytes) : Restriction := contentContains PrDisplayCc text.
Definition RuleHeaderContains (text : bytes) : Restriction := contentContains PrTransportMessageHeaders text.
Definition property_is (relop tag n : Z) : Restriction := mkRes ResProperty (AProperty (mkProperty relop tag (mkTagged tag (AInt32 n)))).
Definition RuleFlagged : Restriction := property_is RelopEQ PrFlagStatus 2.
Definition RuleImportanceIs (level : Z) : Restriction := property_is RelopEQ PrImportance (i32 level).
Definition RuleSensitivityIs (level : Z) : Restriction := property_is RelopEQ PrSensitivity (i32 level).
Definition RuleSizeAtLeast (n : Z) : Restriction := property_is RelopGE PrMessageSize (i32 n).
Definition RuleOOFActive : Restriction := mkRes ResExist (AExist (mkExist PrOOFState)).
Definition RuleAll (conds : list Restriction) : Restriction := mkRes ResAnd (ARess conds).
Definition RuleAny (conds : list Restriction) : Restriction := mkRes ResOr (ARess conds).
Definition RuleNot (cond : Restriction) : Restriction := mkRes ResNot (ARes cond).
Definition RuleMarkReadAction : ActionBlock := mkAction OpMarkAsRead 0 0 ANil.
Definition RuleDeleteAction : ActionBlock := mkAction OpDelete 0 0 ANil.
Definition folder_action (op target : Z) : ActionBlock := mkAction op 0 0 (AMoveCopy (mkMoveCopy true None (ASVREID (mkSVREID None (u64 target) 0 0)))).
Definition RuleMoveAction (target : Z) : ActionBlock := folder_action OpMove target.
Definition RuleCopyAction (target : Z) : ActionBlock := folder_action OpCopy target.
Definition RuleForwardAction (addresses : list bytes) : ActionBlock :=
  mkAction OpForward 0 0 (AForward (mkForward (map (fun a => mkRecipient [mkTagged PrSmtpAddress (AString a)]) addresses))).
Definition RuleRejectAction (reason : bytes) : ActionBlock := mkAction OpDeferAction 0 0 (ABytes (deferKindReject :: reason)).
Definition RuleVacationAction (message : bytes) : ActionBlock := mkAction OpDeferAction 0 0 (ABytes (deferKindVacation :: message)).
Definition RuleSetPropAction (tag : Z) (value : any) : ActionBlock := mkAction OpTag 0 0 (ATagged (mkTagged tag value)).
Definition RuleTagAction (tag : Z) (values : list bytes) : ActionBlock := mkAction OpTag 0 0 (ATagged (mkTagged tag (AStrings values))).
