(* ===== verification/RulesProofs.v ===== *)
(** * Mailbox rules: the table, the conditions, and what becomes of a message

    The table of rules is a map from ids to rules that a listing shows in evaluation order; a rule
    never takes a message out of a folder before a copy of it is in another one, whatever the store
    answers; and the first rule that stops the evaluation hides the ones behind it. *)

From stdpp Require Import base list gmap numbers.
From Stdlib Require Import ZArith Lia Sorted.
From S2P Require Import Prelude Utf Gostr Mapi Wire ExtVal ExtValProofs RopTags RopTable Rules.
Open Scope Z_scope.

(** ** Histories of calls *)

Inductive event : Type :=
| Ev {X : Type} (c : call X) (x : X).
(** The calls a program has made and their answers, at any moment of a run *)
Fixpoint reach {A} (p : prog A) (h : list event) : Prop :=
  match p with
  | Ret _ => h = []
  | Call c k => h = [] \/ exists x h', h = Ev c x :: h' /\ reach (k x) h'
  end.
(** A whole run and its result *)
Fixpoint exec {A} (p : prog A) (h : list event) (a : A) : Prop :=
  match p with
  | Ret b => h = [] /\ a = b
  | Call c k => exists x h', h = Ev c x :: h' /\ exec (k x) h' a
  end.
Lemma reach_nil {A} (p : prog A) : reach p [].
Proof. destruct p; [done|by left]. Qed.
Lemma exec_reach {A} (p : prog A) h a : exec p h a -> reach p h.
Proof. revert h. induction p as [b|X c k IH]; intros h; cbn; [by intros [-> _]|]. intros (x & h' & -> & He). right. exists x, h'. split; [done|by apply IH]. Qed.
Lemma reach_bind {A B} (p : prog A) (f : A -> prog B) h :
  reach (bind p f) h -> reach p h \/ exists h1 h2 a, h = h1 ++ h2 /\ exec p h1 a /\ reach (f a) h2.
Proof.
  revert h. induction p as [a|X c k IH]; intros h Hr; cbn [bind reach exec] in *; [right; by exists [], h, a|].
  destruct Hr as [->|(x & h' & -> & Hr)]; [left; by left|]. destruct (IH x h' Hr) as [Hk|(h1 & h2 & a & -> & He & Hf)]; [left; right; by exists x, h'|].
  right. exists (Ev c x :: h1), h2, a. split; [done|]. split; [by exists x, h1|done].
Qed.

(** ** What becomes of a message *)

(** The calls that move a message: it is read, with its date and flags, and a copy was accepted by another folder. *)
Definition copied (src uid : Z) (before : list event) : Prop :=
  exists earlier info raw dst made, dst <> src
    /\ before = earlier ++ [Ev (CMessageByUID src uid) (Some info); Ev (CGetMessageRaw src uid) (Some raw);
                            Ev (CAppendMessage dst raw (mi_InternalDate info) (mi_Flags info)) (Some made)].
(** Nothing is deleted but from the folder the rules run on, and outside Deleted Items only what was copied just before. *)
Definition deletes_copied (src : Z) (h : list event) : Prop :=
  forall before folder uid ok after, h = before ++ Ev (CDeleteMessage folder uid) ok :: after ->
    folder = src /\ (src = PrivateFIDDeletedItems \/ copied src uid before).
Definition careful {A} (src : Z) (p : prog A) : Prop := forall h, reach p h -> deletes_copied src h.

Lemma deletes_nil src : deletes_copied src [].
Proof. intros before f u ok after E. by destruct before. Qed.
Lemma copied_app src uid h before : copied src uid before -> copied src uid (h ++ before).
Proof. intros (e & info & raw & dst & made & Hd & ->). exists (h ++ e), info, raw, dst, made. split; [done|]. by rewrite <- app_assoc. Qed.
Lemma app_split {A} (l1 l2 b a : list A) x : l1 ++ l2 = b ++ x :: a -> (exists a', l1 = b ++ x :: a' /\ a = a' ++ l2) \/ exists b', b = l1 ++ b' /\ l2 = b' ++ x :: a.
Proof.
  revert b. induction l1 as [|y l1 IH]; intros b E; [right; by exists b|]. destruct b as [|z b]; cbn [app] in E; injection E as -> E; [left; subst; by exists l1|].
  destruct (IH b E) as [(a' & -> & ->)|(b' & -> & ->)]; [left; by exists a'|right; by exists b'].
Qed.
Lemma deletes_app src h1 h2 : deletes_copied src h1 -> deletes_copied src h2 -> deletes_copied src (h1 ++ h2).
Proof.
  intros H1 H2 before f u ok after E. destruct (app_split _ _ _ _ _ E) as [(a' & E1 & _)|(b' & -> & E2)]; [by eapply H1|].
  destruct (H2 _ _ _ _ _ E2) as [Hf [Ht|Hc]]; (split; [done|]); [by left|right; by apply copied_app].
Qed.
Lemma careful_Ret {A} src (a : A) : careful src (Ret a).
Proof. intros h ->. apply deletes_nil. Qed.
Lemma careful_bind {A B} src (p : prog A) (f : A -> prog B) : careful src p -> (forall a, careful src (f a)) -> careful src (bind p f).
Proof.
  intros Hp Hf h [Hr|(h1 & h2 & a & -> & He & Hr)]%reach_bind; [by apply Hp|]. apply deletes_app; [by eapply Hp, exec_reach|by apply (Hf a)].
Qed.
(** A call that deletes nothing *)
Definition no_delete {X} (c : call X) : bool := match c with CDeleteMessage _ _ => false | _ => true end.
Lemma careful_Call {A X} src (c : call X) (k : X -> prog A) : no_delete c = true -> (forall x, careful src (k x)) -> careful src (Call c k).
Proof.
  intros Hc Hk h [->|(x & h' & -> & Hr)]; [apply deletes_nil|]. apply (deletes_app src [Ev c x] h'); [|by apply (Hk x)].
  intros before f u ok after E. destruct before as [|e before]; cbn [app] in E; [|apply (f_equal length) in E; cbn in E; rewrite length_app in E; cbn in E; lia].
  apply (f_equal (fun l => match l with Ev c _ :: _ => no_delete c | [] => true end)) in E. by rewrite Hc in E.
Qed.
(** A history of four calls of which the last may delete *)
Lemma careful_move src uid dst : dst <> src -> careful src (MoveMessage src uid dst).
Proof.
  intros Hd h Hr. unfold MoveMessage in Hr. cbn [reach] in Hr. destruct Hr as [->|(m & h1 & -> & Hr)]; [apply deletes_nil|].
  assert (Hnil : forall {X} (c : call X) (x : X), no_delete c = true -> deletes_copied src [Ev c x]).
  { intros X c x Hc. apply (careful_Call src c (fun _ => Ret tt)); [done|intros; apply careful_Ret|]. right. by exists x, []. }
  assert (Hcons : forall {X} (c : call X) (x : X) l, no_delete c = true -> deletes_copied src l -> deletes_copied src (Ev c x :: l)).
  { intros X c x l Hc Hl. apply (deletes_app src [Ev c x] l); [by apply Hnil|done]. }
  destruct m as [m|]; cbn [reach] in Hr; [|subst; by apply Hnil]. destruct Hr as [->|(raw & h2 & -> & Hr)]; [by apply Hnil|].
  destruct raw as [raw|]; cbn [reach] in Hr; [|subst; by apply Hcons, Hnil]. destruct Hr as [->|(made & h3 & -> & Hr)]; [by apply Hcons, Hnil|].
  destruct made as [made|]; cbn [reach] in Hr; [|subst; by apply Hcons, Hcons, Hnil]. destruct Hr as [->|(ok & h4 & -> & ->)]; [by apply Hcons, Hcons, Hnil|].
  set (b3 := [Ev (CMessageByUID src uid) (Some m); Ev (CGetMessageRaw src uid) (Some raw); Ev (CAppendMessage dst raw (mi_InternalDate m) (mi_Flags m)) (Some made)]).
  intros before f u ok' after E. change (b3 ++ [Ev (CDeleteMessage src uid) ok] = before ++ Ev (CDeleteMessage f u) ok' :: after) in E.
  destruct (app_split _ _ _ _ _ E) as [(a' & E1 & _)|(b' & -> & E2)].
  - exfalso. apply (f_equal (fun l => forallb (fun e => match e with Ev c _ => no_delete c end) l)) in E1. rewrite forallb_app in E1. cbn in E1. by rewrite andb_false_r in E1.
  - destruct b' as [|e b']; [|apply (f_equal length) in E2; cbn in E2; rewrite length_app in E2; cbn in E2; lia].
    cbn [app] in E2. apply (f_equal (fun l => match l with Ev (CDeleteMessage f u) _ :: _ => (f, u) | _ => (0, 0) end)) in E2. injection E2 as <- <-.
    split; [done|]. right. rewrite app_nil_r. exists [], m, raw, dst, made. done.
Qed.
Create HintDb careful.
#[local] Hint Resolve careful_Ret : careful.
(** The steps of a program that is careful: its calls, its branches, the parts it is made of *)
Ltac careful := repeat first
  [ apply careful_Ret
  | apply careful_Call; [reflexivity|intros ?]
  | apply careful_bind; [|intros ?]
  | solve [eauto with careful]
  | match goal with |- careful _ (match ?x with _ => _ end) => destruct x end ].
Lemma careful_moveMessage src uid dst : dst <> src -> careful src (moveMessage src uid dst).
Proof. intros Hd. unfold moveMessage. apply careful_bind; [by apply careful_move|intros]. careful. Qed.
#[local] Hint Resolve careful_moveMessage : careful.
Lemma careful_block src uid b eff : careful src (applyRuleBlock src uid b eff).
Proof.
  unfold applyRuleBlock, markRuleMessageRead, tagRuleMessage, copyRuleMessage, copyMessage, moveRuleMessage, deleteRuleMessage. cbv zeta.
  repeat match goal with |- careful _ (if ?c then _ else _) => destruct c end; try solve [careful].
  - apply careful_bind; [|intros; careful]. destruct (moveTargetFolder (abData b)) as [dst|]; [|careful]. destruct (Z.eqb_spec dst src); [careful|]. apply careful_bind; [by apply careful_moveMessage|]. intros. careful.
  - apply careful_bind; [|intros; careful]. destruct (Z.eqb_spec src PrivateFIDDeletedItems) as [->|Hn]; [|apply careful_moveMessage; congruence].
    intros h [->|(ok & h' & -> & ->)]; [apply deletes_nil|]. intros before f u ok' after E.
    destruct before as [|e before]; [|apply (f_equal length) in E; cbn in E; rewrite length_app in E; cbn in E; lia].
    cbn [app] in E. apply (f_equal (fun l => match l with Ev (CDeleteMessage f u) _ :: _ => f | _ => 0 end)) in E. subst. split; [done|by left].
Qed.
#[local] Hint Resolve careful_block : careful.
Lemma careful_blocks src uid blocks eff : careful src (apply_blocks src uid blocks eff).
Proof. revert eff. induction blocks as [|b blocks IH]; intros eff; cbn [apply_blocks]; careful. Qed.
#[local] Hint Resolve careful_blocks : careful.
Lemma careful_rules tx src uid props oof rules acted eff : careful src (rules_loop tx src uid props oof rules acted eff).
Proof. revert acted eff. induction rules as [|r rules IH]; intros acted eff; cbn [rules_loop]; unfold applyRuleActions; careful. Qed.
#[local] Hint Resolve careful_rules : careful.
Lemma careful_message tx src m rules oof : careful src (applyRulesToMessage tx src m rules oof).
Proof. unfold applyRulesToMessage. careful. Qed.
#[local] Hint Resolve careful_message : careful.
Lemma careful_messages tx src rules oof msgs res : careful src (run_messages tx src rules oof msgs res).
Proof. revert res. induction msgs as [|m msgs IH]; intros res; cbn [run_messages]; careful. Qed.
#[local] Hint Resolve careful_messages : careful.

(** C27. Rules lose no mail: whatever the store answers and wherever the run is cut off, on delivery and in
    a sweep of a folder, a message is deleted only from the folder the rules run on, and unless that
    is Deleted Items only right after its content, date and flags were read and a copy with them was
    accepted by another folder. *)
Theorem rules_lose_nothing tx opt m now sweep delivery :
  reach (RunRulesIn tx opt now) sweep -> reach (ApplyInboxRules tx m now) delivery ->
  deletes_copied (ro_TargetFolderID opt) sweep /\ deletes_copied PrivateFIDInbox delivery.
Proof.
  intros Hs Hd. split.
  - enough (Hc : careful (ro_TargetFolderID opt) (RunRulesIn tx opt now)) by (exact (Hc _ Hs)). unfold RunRulesIn, oofActive. careful.
  - enough (Hc : careful PrivateFIDInbox (ApplyInboxRules tx m now)) by (exact (Hc _ Hd)). unfold ApplyInboxRules, oofActive. careful.
Qed.

(** ** Which rules run *)

(** The rules that match, up to and with the first that ends the evaluation *)
Fixpoint until_exit (rules : list Rule) : list Rule :=
  match rules with [] => [] | r :: rules => r :: (if has_bit (r_State r) RuleStateExitLevel then [] else until_exit rules) end.
Definition matching (tx : texts) (props : PropertyValues) (oof : bool) (rules : list Rule) : list Rule :=
  List.filter (fun r => runnableRule r oof && evalRestriction tx (r_Condition r) props) rules.
Definition effective (tx : texts) (props : PropertyValues) (oof : bool) (rules : list Rule) : list Rule := until_exit (matching tx props oof rules).
Lemma exec_bind {A B} (p : prog A) (f g : A -> prog B) h b :
  (forall a h, exec (f a) h b <-> exec (g a) h b) -> exec (bind p f) h b <-> exec (bind p g) h b.
Proof.
  intros Hfg. revert h. induction p as [a|X c k IH]; intros h; cbn [bind exec]; [apply Hfg|]. split; intros (x & h' & -> & He); exists x, h'; (split; [done|]); by apply IH.
Qed.
Lemma rules_loop_effective tx folder uid props oof rules acted eff h res :
  exec (rules_loop tx folder uid props oof rules acted eff) h res <-> exec (rules_loop tx folder uid props oof (effective tx props oof rules) acted eff) h res.
Proof.
  unfold effective. revert acted eff h. induction rules as [|r rules IH]; intros acted eff h; [done|]. unfold matching. cbn [List.filter].
  fold (matching tx props oof rules). destruct (runnableRule r oof) eqn:Er; cbn [andb]; [|cbn [rules_loop]; rewrite Er; cbn [negb]; apply IH].
  destruct (evalRestriction tx (r_Condition r) props) eqn:Ee; [|cbn [rules_loop]; rewrite Er, Ee; cbn [negb]; apply IH].
  cbn [until_exit rules_loop]. rewrite Er, Ee. cbn [negb]. apply exec_bind. intros [[terminal sub] ok] h'. destruct ok; cbn [negb]; [|done].
  destruct (has_bit (r_State r) RuleStateExitLevel); [by rewrite orb_true_r|]. destruct terminal; [done|]. cbn [orb]. apply IH.
Qed.

(** A message meets exactly the rules that are switched on, may run at the time and match it, in their
    order, up to the first with the exit flag: the run of a folder's rules over a message is the run of
    those, with the same calls and the same result. *)
Theorem matching_rules_run tx folder m rules oof h res :
  exec (applyRulesToMessage tx folder m rules oof) h res
  <-> exec (Call (CGetMessageProperties (mi_ID m)) (fun props =>
        match props with
        | None => Ret (false, no_actions, false)
        | Some props => let props := rule_props props m oof in rules_loop tx folder (mi_UID m) props oof (effective tx props oof rules) false no_actions
        end)) h res.
Proof.
  unfold applyRulesToMessage. cbn [exec]. split; intros (props & h' & -> & He); exists props, h'; (split; [done|]); (destruct props as [props|]; [|done]); cbv zeta in *; [exact (proj1 (rules_loop_effective _ _ _ _ _ _ _ _ _ _) He)|exact (proj2 (rules_loop_effective _ _ _ _ _ _ _ _ _ _) He)].
Qed.

(** ** The editor's vocabulary *)

(** The conditions of the editor mean what they say, and its actions reach the store and the delivery
    path as they were written: the folder of a move, the addresses of a forward, the text of a reject
    and of a reply. *)
Theorem editor_means tx props conds cond target addresses reason message eff :
  evalRestriction tx (RuleAll conds) props = forallb (fun c => evalRestriction tx c props) conds
  /\ evalRestriction tx (RuleAny conds) props = existsb (fun c => evalRestriction tx c props) conds
  /\ evalRestriction tx (RuleNot cond) props = negb (evalRestriction tx cond props)
  /\ (inS 64 target = true -> moveTargetFolder (abData (RuleMoveAction target)) = Some target /\ moveTargetFolder (abData (RuleCopyAction target)) = Some target)
  /\ forwardAddresses (abData (RuleForwardAction addresses)) = List.filter (fun a => negb (beq a [])) addresses
  /\ collectDeferredAction (abData (RuleRejectAction reason)) eff = mkActions (ia_Forwards eff) (ia_Bounces eff ++ [reason]) (ia_AutoReplies eff)
  /\ collectDeferredAction (abData (RuleVacationAction message)) eff = mkActions (ia_Forwards eff) (ia_Bounces eff) (ia_AutoReplies eff ++ [message]).
Proof.
  split_and!; try done.
  - unfold evalRestriction, RuleAll. cbn [resType resValue eval_res]. change (ResAnd =? ResAnd) with true. cbv iota. induction conds as [|c conds IH]; [done|]. cbn [forallb]. rewrite IH. by destruct (eval_res _ _ _ _).
  - intros Ht. enough (E : i64 (u64 target) = target) by (cbn; by rewrite E). unfold i64, u64. rewrite Zmod_mod. by apply signed_mod.
  - cbn. induction addresses as [|a l IH]; [done|]. cbn. by destruct (beq a []); cbn; rewrite IH.
Qed.

(** ** Blobs *)

Definition actions_ok (a : RuleActions) : bool := bare_ok ruleExtFlags 0 0 PtActions (AActions a).
Definition condition_ok (r : Restriction) : bool := restriction_ok ruleExtFlags r.
Lemma round_blob {A} (w : push) (r : pull A) x : round_trip w r x -> exists b, written_blob w = Ok b /\ read_blob r b = Ok x.
Proof.
  intros (bs & Hw & Hr). exists bs. unfold written_blob, read_blob. rewrite (Hw []). cbn [app]. split; [done|]. specialize (Hr []). rewrite app_nil_r in Hr. by rewrite Hr.
Qed.
Lemma condition_blob r : condition_ok r = true -> exists b, written_blob (push_Restriction ruleExtFlags r) = Ok b /\ read_blob (pull_Restriction ruleExtFlags) b = Ok r.
Proof.
  intros H. apply round_blob. destruct r as [t x]. eapply codec_round_trip. apply child_codec; [apply all_codecs_hold|]. unfold condition_ok, restriction_ok in H. cbn [resType resValue] in H.
  apply andb_true_iff in H as [H1 H2]. change (0 <? maxRestrictionDepth) with true. change (0 + 1) with 1. rewrite H1. exact H2.
Qed.
Lemma actions_blob a : actions_ok a = true -> exists b, written_blob (push_RuleActions ruleExtFlags a) = Ok b /\ read_blob (pull_RuleActions ruleExtFlags) b = Ok a.
Proof.
  intros H. apply round_blob. destruct a as [blocks]. unfold actions_ok in H. cbn [bare_ok] in H. change (table_get prop_table PtActions) with (Some KActions) in H. cbv iota in H.
  apply andb_true_iff in H as [Hne Hok]. unfold push_RuleActions. cbn [push_bare]. change (table_get prop_table PtActions) with (Some KActions). cbv iota. rewrite Hne. cbn [negb].
  destruct (actions_codec ruleExtFlags 0 0 blocks ltac:(apply List.Forall_forall; intros v _; apply all_codecs_hold) Hne Hok) as (bs & _ & W & R).
  exists bs. split; [exact W|]. intros rest. unfold pull_RuleActions, with_fuel. apply (R (S (S (length (bs ++ rest)))) rest). rewrite length_app. lia.
Qed.

(** ** The table as a map *)

Definition dec (w : row) : result rules_error Rule := rule_of (w_folder w) w.
(** The table holds the rules of the map, each under its id. *)
Record represents (db : rules_db) (A : gmap Z Rule) : Prop := {
  rep_ids : List.NoDup (map w_id (db_rows db));
  rep_last : forall w, In w (db_rows db) -> w_id w <= db_last db;
  rep_seq : forall w, In w (db_rows db) -> inS 32 (w_sequence w) = true;
  rep_rows : forall w, In w (db_rows db) -> exists r, dec w = Ok r;
  rep_map : forall id r, A !! id = Some r <-> exists w, In w (db_rows db) /\ w_id w = id /\ dec w = Ok r }.

Lemma dec_fields w r : dec w = Ok r -> r_ID r = w_id w /\ r_FolderID r = w_folder w /\ r_Name r = w_name w /\ r_Provider r = w_provider w
  /\ r_Sequence r = w_sequence w /\ r_State r = u32 (w_state w).
Proof. unfold dec, rule_of. intros H. repeat case_match; simplify_eq; done. Qed.
Lemma same_row db A w w' : represents db A -> In w (db_rows db) -> In w' (db_rows db) -> w_id w = w_id w' -> w = w'.
Proof.
  intros [Hn _ _ _ _] Hw Hw' E. clear A. revert Hn Hw Hw'. generalize (db_rows db). intros l. induction l as [|x l IH]; [done|]. cbn. intros Hn [->|Hw] [->|Hw']; inversion Hn; subst; [done| | |by apply IH].
  - exfalso. rewrite E in *. by apply (in_map w_id) in Hw'.
  - exfalso. rewrite <- E in *. by apply (in_map w_id) in Hw.
Qed.
Lemma in_table db A r : represents db A -> A !! r_ID r = Some r <-> exists w, In w (db_rows db) /\ dec w = Ok r.
Proof.
  intros HA. rewrite (rep_map _ _ HA). split; intros (w & Hw & H); [exists w; tauto|]. exists w. split; [done|]. by destruct (dec_fields w r H) as [-> _].
Qed.

(** *** Listing *)

Definition in_order (a b : Rule) : Prop := r_Sequence a < r_Sequence b \/ (r_Sequence a = r_Sequence b /\ r_ID a < r_ID b).
Definition listing (A : gmap Z Rule) (folder : Z) (l : list Rule) : Prop :=
  (forall r, In r l <-> A !! r_ID r = Some r /\ r_FolderID r = folder) /\ StronglySorted in_order l.
Lemma row_less_asym a b : row_less a b = true -> row_less b a = false.
Proof. unfold row_less. lia. Qed.
Lemma row_less_weak a b c : row_less b a = false -> row_less c b = false -> row_less c a = false.
Proof. unfold row_less. lia. Qed.
Lemma rules_of_Forall2 folder ws : (forall w, In w ws -> exists r, rule_of folder w = Ok r) -> exists l, rules_of folder ws = Ok l /\ Forall2 (fun w r => rule_of folder w = Ok r) ws l.
Proof.
  induction ws as [|w ws IH]; intros H; [by exists []|]. cbn [rules_of]. destruct (H w (or_introl eq_refl)) as [r Hr]. rewrite Hr.
  destruct IH as (l & -> & Hl); [intros; apply H; by right|]. exists (r :: l). split; [done|by constructor].
Qed.
Lemma Forall2_In_l {A B} (P : A -> B -> Prop) l k a : Forall2 P l k -> In a l -> exists b, In b k /\ P a b.
Proof. induction 1 as [|x y l k Hxy _ IH]; [done|]. intros [->|Hin]; [exists y; split; [by left|done]|]. destruct (IH Hin) as (b & Hb & Hp). exists b. split; [by right|done]. Qed.
Lemma Forall2_In_r {A B} (P : A -> B -> Prop) l k b : Forall2 P l k -> In b k -> exists a, In a l /\ P a b.
Proof. induction 1 as [|x y l k Hxy _ IH]; [done|]. intros [->|Hin]; [exists x; split; [by left|done]|]. destruct (IH Hin) as (a & Ha & Hp). exists a. split; [by right|done]. Qed.
Lemma sorted_rows ws : StronglySorted (fun a b => row_less b a = false) ws -> List.NoDup (map w_id ws) ->
  StronglySorted (fun a b => row_less a b = true) ws.
Proof.
  induction 1 as [|w ws Hs IH Hw]; intros Hn; [constructor|]. cbn in Hn. inversion Hn as [|? ? Hni Hn']; subst. constructor; [by apply IH|].
  rewrite List.Forall_forall in *. intros x Hx. specialize (Hw x Hx). assert (w_id x <> w_id w) by (intros E; apply Hni; rewrite <- E; by apply in_map).
  unfold row_less in *. lia.
Qed.
Lemma sorted_rules folder ws l :
  StronglySorted (fun a b => row_less a b = true) ws -> Forall2 (fun w r => rule_of folder w = Ok r) ws l -> StronglySorted in_order l.
Proof.
  intros Hs. revert l. induction Hs as [|w ws Hs IH Hw]; intros l Hl; inversion Hl as [|? r ? l' Hr Hl']; subst; [constructor|]. constructor; [by apply IH|].
  apply List.Forall_forall. intros r' Hr'. destruct (Forall2_In_r _ _ _ _ Hl' Hr') as (w' & Hin & Hd). rewrite List.Forall_forall in Hw. specialize (Hw w' Hin).
  unfold rule_of in Hr, Hd. repeat case_match; simplify_eq. unfold row_less in Hw. unfold in_order. cbn. lia.
Qed.
Lemma list_rules db A folder : represents db A -> exists l, ListRules db folder = Ok l /\ listing A folder l.
Proof.
  intros HA. unfold ListRules. set (ws := List.filter (fun w => w_folder w =? folder) (db_rows db)).
  assert (Hin : forall w, In w (SliceStable row_less ws) <-> In w (db_rows db) /\ w_folder w = folder).
  { intros w. rewrite <- !list_elem_of_In, SliceStable_perm, list_elem_of_In. unfold ws. rewrite filter_In, Z.eqb_eq. by rewrite list_elem_of_In. }
  assert (Hdec : forall w, In w (SliceStable row_less ws) -> rule_of folder w = dec w) by (intros w [_ <-]%Hin; done).
  destruct (rules_of_Forall2 folder (SliceStable row_less ws)) as (l & -> & Hl).
  { intros w Hw. rewrite Hdec by done. apply Hin in Hw as [Hw _]. by apply (rep_rows _ _ HA). }
  exists l. split; [done|]. split.
  - intros r. rewrite (in_table _ _ _ HA). split.
    + intros Hr. destruct (Forall2_In_r _ _ _ _ Hl Hr) as (w & Hw & Hd). rewrite Hdec in Hd by done. apply Hin in Hw as [Hw Hf]. split; [by exists w|]. by destruct (dec_fields _ _ Hd) as (_ & -> & _).
    + intros [(w & Hw & Hd) Hf]. destruct (dec_fields _ _ Hd) as (_ & Ef & _). assert (Hs : In w (SliceStable row_less ws)) by (apply Hin; split; [done|congruence]).
      destruct (Forall2_In_l _ _ _ _ Hl Hs) as (r' & Hr' & Hd'). rewrite Hdec, Hd in Hd' by done. by simplify_eq.
  - eapply sorted_rules; [|exact Hl]. apply sorted_rows.
    + apply (SliceStable_sorted row_less (fun _ => True)); [intros; by apply row_less_asym|intros a b c _ _ _; apply row_less_weak|by apply List.Forall_forall].
    + eapply Permutation_NoDup; [apply Permutation_map; symmetry; apply SliceStable_perm|]. unfold ws. pose proof (rep_ids _ _ HA) as Hn. revert Hn. generalize (db_rows db).
      intros rows. induction rows as [|w rows IH]; [done|]. cbn. intros Hn. inversion Hn as [|? ? Hni Hn']; subst. destruct (w_folder w =? folder); [|by apply IH]. cbn. constructor; [|by apply IH].
      intros (x & E & [Hx _]%filter_In)%in_map_iff. apply Hni. rewrite <- E. by apply in_map.
Qed.

(** *** Changes *)

Lemma inS_i32 x : inS 32 (i32 x) = true.
Proof. apply inS_spec. unfold i32, signed. pose proof (Z.mod_pos_bound x (2 ^ 32) ltac:(lia)). destruct (_ <? _) eqn:E; lia. Qed.
Lemma rep_insert db A g r :
  represents db A -> w_id (g (db_last db + 1)) = db_last db + 1 -> inS 32 (w_sequence (g (db_last db + 1))) = true -> dec (g (db_last db + 1)) = Ok r ->
  A !! (db_last db + 1) = None /\ represents (insert_row db g) (<[db_last db + 1 := r]> A).
Proof.
  intros HA Hid Hs Hd. set (id := db_last db + 1) in *.
  assert (Hnew : forall w, In w (db_rows db) -> w_id w <> id) by (intros w Hw; pose proof (rep_last _ _ HA w Hw); unfold id; lia).
  assert (HN : A !! id = None).
  { destruct (A !! id) as [r'|] eqn:E; [|done]. apply (rep_map _ _ HA) in E as (w & Hw & E & _). by destruct (Hnew w Hw). }
  split; [done|]. constructor; cbn [insert_row db_rows db_last]; fold id; try (intros w [Hw|[<-|[]]]%in_app_iff).
  - rewrite map_app. apply List.NoDup_app; [exact (rep_ids _ _ HA)|cbn; constructor; [by intros []|constructor]|].
    intros x (w & <- & Hw)%in_map_iff [E|[]]. rewrite Hid in E. by apply (Hnew w Hw).
  - pose proof (rep_last _ _ HA w Hw). unfold id. lia.
  - by rewrite Hid.
  - by apply (rep_seq _ _ HA).
  - done.
  - by apply (rep_rows _ _ HA).
  - by exists r.
  - intros k r'. destruct (decide (k = id)) as [->|Hk].
    + rewrite lookup_insert_eq. split.
      * intros [= <-]. exists (g id). split; [apply in_app_iff; right; by left|done].
      * intros (w & [Hw|[<-|[]]]%in_app_iff & E & Hd'); [by destruct (Hnew w Hw)|]. rewrite Hd in Hd'. by injection Hd' as ->.
    + rewrite lookup_insert_ne by done. rewrite (rep_map _ _ HA). split; intros (w & Hw & E & Hd').
      * exists w. split; [apply in_app_iff; by left|done].
      * apply in_app_iff in Hw as [Hw|[<-|[]]]; [by exists w|]. congruence.
Qed.
Lemma find_row_in db id w : find_row db id = Some w -> In w (db_rows db) /\ w_id w = id.
Proof. unfold find_row. intros [Hi E%Z.eqb_eq]%find_some. done. Qed.
Lemma find_row_none db id w : find_row db id = None -> In w (db_rows db) -> w_id w <> id.
Proof. unfold find_row. intros Hf Hw E. pose proof (find_none _ _ Hf w Hw) as H. cbn in H. lia. Qed.
Lemma rep_update db A id w g r :
  represents db A -> find_row db id = Some w -> (forall v, w_id (g v) = w_id v) -> (forall v, inS 32 (w_sequence v) = true -> inS 32 (w_sequence (g v)) = true) -> dec (g w) = Ok r ->
  represents (update_row db id g) (<[id := r]> A).
Proof.
  intros HA Hf Hg Hs Hd. destruct (find_row_in _ _ _ Hf) as [Hw Eid].
  assert (Hin : forall v, In v (db_rows (update_row db id g)) <-> exists u, In u (db_rows db) /\ v = if w_id u =? id then g w else u).
  { intros v. cbn. rewrite in_map_iff. split; intros (u & H1 & H2); exists u; [destruct (Z.eqb_spec (w_id u) id) as [E|]; (split; [done|])|].
    - assert (u = w) as -> by (eapply same_row; [exact HA|done|done|congruence]). done.
    - done.
    - split; [|done]. rewrite H2. destruct (Z.eqb_spec (w_id u) id) as [E|]; [|done]. assert (u = w) as -> by (eapply same_row; [exact HA|done|done|congruence]). done. }
  constructor.
  - cbn. replace (map w_id (map _ (db_rows db))) with (map w_id (db_rows db)); [exact (rep_ids _ _ HA)|]. rewrite map_map. apply map_ext. intros v. case_match; [by rewrite Hg|done].
  - intros v (u & Hu & ->)%Hin. pose proof (rep_last _ _ HA u Hu). pose proof (rep_last _ _ HA w Hw). case_match; [rewrite Hg|]; done.
  - intros v (u & Hu & ->)%Hin. case_match; [apply Hs|]; by apply (rep_seq _ _ HA).
  - intros v (u & Hu & ->)%Hin. case_match; [by exists r|by apply (rep_rows _ _ HA)].
  - intros k r'. destruct (decide (k = id)) as [->|Hk].
    + rewrite lookup_insert_eq. split.
      * intros [= <-]. exists (g w). split; [|split; [by rewrite Hg|done]]. apply Hin. exists w. split; [done|]. by rewrite Eid, Z.eqb_refl.
      * intros (v & (u & Hu & ->)%Hin & E & Hd'). destruct (Z.eqb_spec (w_id u) id); [|done]. rewrite Hd in Hd'. by injection Hd' as ->.
    + rewrite lookup_insert_ne by done. rewrite (rep_map _ _ HA). split; intros (v & Hv & E & Hd').
      * exists v. split; [|done]. apply Hin. exists v. split; [done|]. by rewrite (proj2 (Z.eqb_neq _ _)) by congruence.
      * apply Hin in Hv as (u & Hu & ->). destruct (Z.eqb_spec (w_id u) id); [rewrite Hg, Eid in E; congruence|by exists u].
Qed.
(** Deleting by folder and id *)
Lemma rep_delete db A (q : Z -> Z -> bool) :
  represents db A -> represents (delete_rows db (fun w => q (w_folder w) (w_id w))) (filter (fun kr => q (r_FolderID kr.2) kr.1 = false) A).
Proof.
  intros HA. assert (Hin : forall w, In w (db_rows (delete_rows db (fun w => q (w_folder w) (w_id w)))) <-> In w (db_rows db) /\ q (w_folder w) (w_id w) = false).
  { intros w. cbn. by rewrite filter_In, negb_true_iff. }
  constructor.
  - cbn. pose proof (rep_ids _ _ HA) as Hn. revert Hn. generalize (db_rows db). intros rows. induction rows as [|w rows IH]; [done|]. cbn. intros Hn. inversion Hn as [|? ? Hni Hn']; subst.
    destruct (negb _); [|by apply IH]. cbn. constructor; [|by apply IH]. intros (x & E & [Hx _]%filter_In)%in_map_iff. apply Hni. rewrite <- E. by apply in_map.
  - intros w [Hw _]%Hin. by apply (rep_last _ _ HA).
  - intros w [Hw _]%Hin. by apply (rep_seq _ _ HA).
  - intros w [Hw _]%Hin. by apply (rep_rows _ _ HA).
  - intros k r. rewrite map_lookup_filter_Some, (rep_map _ _ HA). cbn [fst snd]. split.
    + intros [(w & Hw & <- & Hd) Hq]. exists w. split; [|done]. apply Hin. destruct (dec_fields _ _ Hd) as (_ & Ef & _). by rewrite <- Ef.
    + intros (w & [Hw Hq]%Hin & <- & Hd). split; [by exists w|]. destruct (dec_fields _ _ Hd) as (_ & -> & _). done.
Qed.

(** *** What a batch of changes does to the map *)

Definition patched (p : RulePatch) (r : Rule) : Rule :=
  mkRule (r_ID r) (r_FolderID r) (default (r_Name r) (rp_Name p)) (default (r_Provider r) (rp_Provider p)) (default (r_Sequence r) (rp_Sequence p))
    (default (r_State r) (rp_State p)) (default (r_Condition r) (rp_Condition p)) (default (r_Actions r) (rp_Actions p)).
(** The highest place taken in a folder, 0 in a folder without rules *)
Definition highest (A : gmap Z Rule) (folder m : Z) : Prop :=
  (forall id r, A !! id = Some r -> r_FolderID r = folder -> r_Sequence r <= m)
  /\ ((exists id r, A !! id = Some r /\ r_FolderID r = folder /\ r_Sequence r = m) \/ (m = 0 /\ forall id r, A !! id = Some r -> r_FolderID r <> folder)).
(** The place of a new rule: the one asked for when it is positive, or the next behind the highest of the folder; behind the highest place there is,
    2^31 - 1, the number is -2^31, before every other *)
Definition placed (A : gmap Z Rule) (folder asked seq : Z) : Prop :=
  if 0 <? asked then seq = asked
  else exists m, highest A folder m /\ seq = if m =? 2 ^ 31 - 1 then - 2 ^ 31 else m + 1.
Definition provider_of (p : RulePatch) : bytes := match rp_Provider p with Some (b :: v) => b :: v | _ => ruleProviderDefault end.
Definition owned (A : gmap Z Rule) (folder id : Z) : option Rule := match A !! id with Some r => if r_FolderID r =? folder then Some r else None | None => None end.
Inductive spec_change (folder : Z) (A : gmap Z Rule) : RuleChange -> gmap Z Rule -> Prop :=
| spec_add rid p id seq cond acts :
    A !! id = None -> rp_Condition p = Some cond -> rp_Actions p = Some acts -> placed A folder (default 0 (rp_Sequence p)) seq ->
    spec_change folder A (mkChange RuleAdd rid p) (<[id := mkRule id folder (default [] (rp_Name p)) (provider_of p) seq (default 0 (rp_State p)) cond acts]> A)
| spec_modify id p :
    spec_change folder A (mkChange RuleModify id p) (match owned A folder id with Some r => <[id := patched p r]> A | None => A end)
| spec_remove id p :
    spec_change folder A (mkChange RuleRemove id p) (match owned A folder id with Some _ => delete id A | None => A end).
Inductive spec_changes (folder : Z) (A : gmap Z Rule) : list RuleChange -> gmap Z Rule -> Prop :=
| spec_done : spec_changes folder A [] A
| spec_step c cs A1 A2 : spec_change folder A c A1 -> spec_changes folder A1 cs A2 -> spec_changes folder A (c :: cs) A2.

(** A change that can be stored: values of their width, a condition and actions that have a wire form, and both in a rule that is added *)
Definition patch_ok (p : RulePatch) : bool :=
  from_option (inS 32) true (rp_Sequence p) && from_option (inU 32) true (rp_State p)
  && from_option condition_ok true (rp_Condition p) && from_option actions_ok true (rp_Actions p).
Definition change_ok (c : RuleChange) : bool :=
  patch_ok (rc_Patch c)
  && (if rc_Op c =? RuleAdd then match rp_Condition (rc_Patch c), rp_Actions (rc_Patch c) with Some _, Some _ => true | _, _ => false end
      else (rc_Op c =? RuleModify) || (rc_Op c =? RuleRemove)).

Lemma max_fold l m : m <= foldl (fun m w => Z.max m (w_sequence w)) m l /\ (forall w, In w l -> w_sequence w <= foldl (fun m w => Z.max m (w_sequence w)) m l)
  /\ (foldl (fun m w => Z.max m (w_sequence w)) m l = m \/ exists w, In w l /\ w_sequence w = foldl (fun m w => Z.max m (w_sequence w)) m l).
Proof.
  revert m. induction l as [|x l IH]; intros m; cbn [foldl]; [split; [lia|]; split; [intros w []|by left]|].
  destruct (IH (Z.max m (w_sequence x))) as (H1 & H2 & H3). split; [lia|]. split; [intros w [->|Hw]; [lia|by apply H2]|].
  destruct H3 as [->|(w & Hw & E)]; [|right; exists w; split; [by right|done]]. destruct (Z.max_spec m (w_sequence x)) as [[_ ->]|[_ ->]]; [right; exists x; split; [by left|done]|by left].
Qed.
Lemma max_sequence_spec db folder :
  (forall w, In w (db_rows db) -> w_folder w = folder -> w_sequence w <= max_sequence db folder)
  /\ ((max_sequence db folder = 0 /\ forall w, In w (db_rows db) -> w_folder w <> folder)
      \/ exists w, In w (db_rows db) /\ w_folder w = folder /\ w_sequence w = max_sequence db folder).
Proof.
  unfold max_sequence. assert (Hin : forall w, In w (List.filter (fun w => w_folder w =? folder) (db_rows db)) <-> In w (db_rows db) /\ w_folder w = folder).
  { intros w. by rewrite filter_In, Z.eqb_eq. }
  destruct (List.filter _ _) as [|x l]; [split; [intros w Hw Hf; by destruct (proj2 (Hin w) (conj Hw Hf))|left; split; [done|]; intros w Hw Hf; by destruct (proj2 (Hin w) (conj Hw Hf))]|]. destruct (max_fold l (w_sequence x)) as (H1 & H2 & H3). split.
  - intros w Hw Hf. destruct (proj2 (Hin w) (conj Hw Hf)) as [->|Hl]; [done|by apply H2].
  - right. destruct H3 as [->|(w & Hw & E)].
    + destruct (proj1 (Hin x) (or_introl eq_refl)) as [? ?]. by exists x.
    + destruct (proj1 (Hin w) (or_intror Hw)) as [? ?]. by exists w.
Qed.
Lemma next_placed db A folder asked :
  represents db A -> inS 32 asked = true -> inS 32 (next_sequence db folder asked) = true /\ placed A folder asked (next_sequence db folder asked).
Proof.
  intros HA Ha. unfold next_sequence, placed. destruct (Z.leb_spec asked 0) as [Hle|Hgt]; [|by rewrite (proj2 (Z.ltb_lt _ _))].
  rewrite (proj2 (Z.ltb_ge _ _)) by done. split; [apply inS_i32|]. destruct (max_sequence_spec db folder) as [Hmax Hex].
  assert (Hm : inS 32 (max_sequence db folder) = true) by (destruct Hex as [[-> _]|(w & Hw & _ & <-)]; [done|by apply (rep_seq _ _ HA)]).
  assert (Hi : forall x, inS 32 x = true -> i32 x = x) by (intros x Hx; by apply signed_mod). rewrite (Hi _ Hm). apply inS_spec in Hm.
  exists (max_sequence db folder). split; [split|].
  - intros id r (w & Hw & _ & Hd)%(rep_map _ _ HA) Hf. destruct (dec_fields _ _ Hd) as (_ & Ef & _ & _ & -> & _). apply Hmax; congruence.
  - destruct Hex as [[E0 Hno]|(w & Hw & Hf & Es)]; [right|left].
    + split; [done|]. intros id r (w & Hw & _ & Hd)%(rep_map _ _ HA). destruct (dec_fields _ _ Hd) as (_ & -> & _). by apply Hno.
    + destruct (rep_rows _ _ HA w Hw) as [r Hr]. destruct (dec_fields _ _ Hr) as (Ei & Ef & _ & _ & Eq & _).
      exists (w_id w), r. split; [apply (rep_map _ _ HA); by exists w|]. split; congruence.
  - destruct (Z.eqb_spec (max_sequence db folder) (2 ^ 31 - 1)) as [->|Hn]; [done|]. apply Hi, inS_spec. lia.
Qed.
Lemma owned_row db A folder id : represents db A ->
  match find_row db id with
  | Some w => exists r, dec w = Ok r /\ owned A folder id = if w_folder w =? folder then Some r else None
  | None => owned A folder id = None
  end.
Proof.
  intros HA. unfold owned. destruct (find_row db id) as [w|] eqn:Hf.
  - destruct (find_row_in _ _ _ Hf) as [Hw Ei]. destruct (rep_rows _ _ HA w Hw) as [r Hr]. exists r. split; [done|].
    rewrite (proj2 (rep_map _ _ HA id r)) by (by exists w). destruct (dec_fields _ _ Hr) as (_ & -> & _). done.
  - destruct (A !! id) as [r|] eqn:E; [|done]. apply (rep_map _ _ HA) in E as (w & Hw & Ei & _). by destruct (find_row_none _ _ _ Hf Hw).
Qed.
Lemma patch_condition c : from_option condition_ok true c = true ->
  exists b, patch_blob marshalRestriction c = Ok b /\ forall blob r, read_blob (pull_Restriction ruleExtFlags) blob = Ok r -> read_blob (pull_Restriction ruleExtFlags) (default blob b) = Ok (default r c).
Proof. destruct c as [c|]; cbn [from_option]; intros H; [|by exists None]. destruct (condition_blob c H) as (b & Hw & Hr). exists (Some b). cbn. unfold marshalRestriction. change (default (mkRes 0 ANil) (Some c)) with c. rewrite Hw. split; [done|]. intros. done. Qed.
Lemma patch_actions a : from_option actions_ok true a = true ->
  exists b, patch_blob marshalRuleActions a = Ok b /\ forall blob r, read_blob (pull_RuleActions ruleExtFlags) blob = Ok r -> read_blob (pull_RuleActions ruleExtFlags) (default blob b) = Ok (default r a).
Proof. destruct a as [a|]; cbn [from_option]; intros H; [|by exists None]. destruct (actions_blob a H) as (b & Hw & Hr). exists (Some b). cbn. unfold marshalRuleActions. change (default (mkRuleActions []) (Some a)) with a. rewrite Hw. split; [done|]. intros. done. Qed.
Lemma dec_row w r : dec w = Ok r <-> exists c a, read_blob (pull_Restriction ruleExtFlags) (w_condition w) = Ok c /\ read_blob (pull_RuleActions ruleExtFlags) (w_actions w) = Ok a
  /\ r = mkRule (w_id w) (w_folder w) (w_name w) (w_provider w) (w_sequence w) (u32 (w_state w)) c a.
Proof.
  unfold dec, rule_of. destruct (read_blob (pull_Restriction _) _) as [c|e]; [|split; [done|by intros (? & ? & ? & _)]].
  destruct (read_blob (pull_RuleActions _) _) as [a|e]; [|split; [done|by intros (? & ? & _ & ? & _)]]. split; [intros [= <-]; by exists c, a|]. by intros (? & ? & [= <-] & [= <-] & ->).
Qed.
(** The columns a patch leaves behind *)
Lemma columns_of p w ob oa :
  setRuleColumn set_actions oa (setRuleColumn set_condition ob (updateRuleColumns p w))
  = mkRow (w_id w) (default (w_name w) (rp_Name p)) (default (w_provider w) (rp_Provider p)) (default (w_sequence w) (rp_Sequence p)) (default (w_state w) (rp_State p))
      (default (w_condition w) ob) (default (w_actions w) oa) (w_folder w).
Proof. destruct w, p as [[?|] [?|] [?|] [?|] ? ?], ob, oa; done. Qed.
Lemma add_refines db A folder rid p : represents db A -> change_ok (mkChange RuleAdd rid p) = true ->
  exists db' A', insertRulePatch db folder p = Ok db' /\ represents db' A' /\ spec_change folder A (mkChange RuleAdd rid p) A'.
Proof.
  intros HA. unfold change_ok, patch_ok. cbn [rc_Patch rc_Op]. change (RuleAdd =? RuleAdd) with true. cbv iota. rewrite !andb_true_iff. intros [[[[Hs Hst] Hc] Ha] Hboth].
  destruct (rp_Condition p) as [c|] eqn:Ec; [|done]. destruct (rp_Actions p) as [a|] eqn:Ea; [|done]. cbn [from_option] in Hc, Ha.
  destruct (condition_blob c Hc) as (bc & Wc & Rc). destruct (actions_blob a Ha) as (ba & Wa & Ra).
  destruct (next_placed db A folder (default 0 (rp_Sequence p)) HA) as [Hq Hp]; [by destruct (rp_Sequence p)|].
  unfold insertRulePatch, marshalRestriction, marshalRuleActions. rewrite Ec, Ea. change (default (mkRes 0 ANil) (Some c)) with c. change (default (mkRuleActions []) (Some a)) with a. rewrite Wc, Wa.
  assert (Epr : match rp_Provider p with Some v => if beq v [] then ruleProviderDefault else v | None => ruleProviderDefault end = provider_of p).
  { unfold provider_of. by destruct (rp_Provider p) as [[|b v]|]. }
  rewrite Epr. set (g := fun id => mkRow id _ _ _ _ _ _ _).
  destruct (rep_insert db A g (mkRule (db_last db + 1) folder (default [] (rp_Name p)) (provider_of p) (next_sequence db folder (default 0 (rp_Sequence p))) (default 0 (rp_State p)) c a) HA eq_refl Hq) as [HN HR].
  { apply dec_row. exists c, a. cbn. split; [done|]. split; [done|]. f_equal. destruct (rp_State p) as [st|]; [|done]. symmetry. apply Z.mod_small. by apply inU_spec. }
  eexists _, _. split; [reflexivity|]. split; [exact HR|]. by apply spec_add.
Qed.
Lemma modify_refines db A folder id p : represents db A -> patch_ok p = true ->
  exists db' A', updateRulePatch db folder id p = Ok db' /\ represents db' A' /\ spec_change folder A (mkChange RuleModify id p) A'.
Proof.
  intros HA. unfold patch_ok. rewrite !andb_true_iff. intros [[[Hs Hst] Hc] Ha]. unfold updateRulePatch. pose proof (owned_row db A folder id HA) as Ho.
  destruct (find_row db id) as [w|] eqn:Hf; [|exists db, A; split; [done|]; split; [done|]; pose proof (spec_modify folder A id p) as Hm; by rewrite Ho in Hm].
  destruct Ho as (r & Hr & Ho). destruct (w_folder w =? folder); cbn [negb]; [|exists db, A; split; [done|]; split; [done|]; pose proof (spec_modify folder A id p) as Hm; by rewrite Ho in Hm].
  unfold updateRuleBlobs. destruct (patch_condition _ Hc) as (bc & -> & Rc). destruct (patch_actions _ Ha) as (ba & -> & Ra).
  exists (update_row db id (fun w => setRuleColumn set_actions ba (setRuleColumn set_condition bc (updateRuleColumns p w)))), (<[id := patched p r]> A).
  split; [done|]. split; [|pose proof (spec_modify folder A id p) as Hm; by rewrite Ho in Hm].
  apply (rep_update db A id w); [done|done|intros v; by rewrite columns_of|intros v Hv; rewrite columns_of; by destruct (rp_Sequence p)|].
  rewrite columns_of. apply dec_row in Hr as (c & a & Hrc & Hra & ->). apply dec_row. cbn [w_id w_folder w_name w_provider w_sequence w_state w_condition w_actions].
  exists (default c (rp_Condition p)), (default a (rp_Actions p)). split; [by apply Rc|]. split; [by apply Ra|]. unfold patched. cbn. f_equal. destruct (rp_State p) as [st|]; [|done]. symmetry. apply Z.mod_small. by apply inU_spec.
Qed.
Lemma remove_refines db A folder id p : represents db A ->
  exists A', represents (delete_rows db (fun w => (w_folder w =? folder) && (w_id w =? id))) A' /\ spec_change folder A (mkChange RuleRemove id p) A'.
Proof.
  intros HA. pose proof (rep_delete db A (fun f i => (f =? folder) && (i =? id)) HA) as HR. cbn beta in HR. eexists. split; [exact HR|].
  match goal with |- spec_change _ _ _ ?B => assert (E : B = match owned A folder id with Some _ => delete id A | None => A end) end; [|rewrite E; apply spec_remove].
  apply map_eq. intros k. apply option_eq. intros r. rewrite map_lookup_filter_Some. cbn [fst snd]. unfold owned. rewrite andb_false_iff, !Z.eqb_neq.
  destruct (A !! id) as [r0|] eqn:E0; [destruct (Z.eqb_spec (r_FolderID r0) folder)|].
  - rewrite lookup_delete_Some. split; [intros [Hk Hor]; split; [|done]; intros <-; simplify_eq; tauto|]. intros [? ?]. split; [done|right; congruence].
  - split; [tauto|]. intros Hk. split; [done|]. destruct (decide (k = id)) as [->|]; [left; congruence|by right].
  - split; [tauto|]. intros Hk. split; [done|]. right. congruence.
Qed.
Lemma rule_change_refines db A folder c : represents db A -> change_ok c = true ->
  exists db' A', apply_rule_change folder db c = Ok db' /\ represents db' A' /\ spec_change folder A c A'.
Proof.
  intros HA Hok. destruct c as [op id p]. unfold apply_rule_change. cbn [rc_Op rc_RuleID rc_Patch]. destruct (Z.eqb_spec op RuleAdd) as [->|Hna]; [by apply add_refines|].
  unfold change_ok in Hok. cbn [rc_Op rc_Patch] in Hok. rewrite (proj2 (Z.eqb_neq _ _)) in Hok by done. apply andb_true_iff in Hok as [Hp Hop].
  destruct (Z.eqb_spec op RuleModify) as [->|Hnm]; [by apply modify_refines|]. cbn [orb] in Hop. rewrite Hop. apply Z.eqb_eq in Hop as ->.
  destruct (remove_refines db A folder id p HA) as (A' & HR & Hs). eexists _, A'. done.
Qed.
Lemma rule_changes_refine folder cs db A : represents db A -> forallb change_ok cs = true ->
  exists db' A', apply_rule_changes folder db cs = Ok db' /\ represents db' A' /\ spec_changes folder A cs A'.
Proof.
  revert db A. induction cs as [|c cs IH]; intros db A HA Hok; [exists db, A; split; [done|]; split; [done|constructor]|].
  cbn [forallb] in Hok. apply andb_true_iff in Hok as [Hc Hcs]. cbn [apply_rule_changes]. destruct (rule_change_refines db A folder c HA Hc) as (db1 & A1 & -> & H1 & S1).
  destruct (IH db1 A1 H1 Hcs) as (db2 & A2 & E & H2 & S2). exists db2, A2. split; [done|]. split; [done|]. by eapply spec_step.
Qed.
(** The rules of other folders *)
Lemma spec_change_other folder A c A' id r : spec_change folder A c A' -> A !! id = Some r -> r_FolderID r <> folder -> A' !! id = Some r.
Proof.
  intros Hs Hr Hf. unfold owned in *. destruct Hs as [rid p k seq cond acts HN _ _ _|k p|k p]; [by rewrite lookup_insert_ne by congruence| |];
    unfold owned; (destruct (A !! k) as [r0|] eqn:E; [|done]); (destruct (Z.eqb_spec (r_FolderID r0) folder); [|done]); [rewrite lookup_insert_ne|rewrite lookup_delete_ne]; congruence.
Qed.
Lemma spec_changes_other folder A cs A' id r : spec_changes folder A cs A' -> A !! id = Some r -> r_FolderID r <> folder -> A' !! id = Some r.
Proof. induction 1 as [|A c cs A1 A2 H1 _ IH]; [done|]. intros Hr Hf. apply IH; [by eapply spec_change_other|done]. Qed.

(** C28. A batch of changes to a folder's rules does to the stored table what it does to the map of rules
    it stands for: an added rule gets a fresh id and its place (the one it asks for, else the number
    behind the folder's highest, which behind 2^31 - 1 is -2^31, the first place), a changed one keeps
    what the change leaves out, a removed one is gone, a rule that is not in the folder is left alone,
    and a batch that replaces starts from none.  The listing of the folder then shows its rules in
    evaluation order. *)
Theorem rules_table_refines db A folder (replace : bool) cs :
  represents db A -> forallb change_ok cs = true ->
  exists db' A' l, ModifyRules db folder replace cs = (db', None) /\ represents db' A'
    /\ spec_changes folder (if replace then filter (fun kr => (r_FolderID kr.2 =? folder) = false) A else A) cs A'
    /\ (forall id r, A !! id = Some r -> r_FolderID r <> folder -> A' !! id = Some r)
    /\ ListRules db' folder = Ok l /\ listing A' folder l.
Proof.
  intros HA Hok. unfold ModifyRules. set (A0 := if replace then _ else A). set (db0 := if replace then _ else db).
  assert (H0 : represents db0 A0) by (unfold db0, A0; destruct replace; [exact (rep_delete db A (fun f _ => f =? folder) HA)|done]).
  destruct (rule_changes_refine folder cs db0 A0 H0 Hok) as (db' & A' & -> & H' & S'). destruct (list_rules db' A' folder H') as (l & El & Hl).
  exists db', A', l. split; [done|]. split; [done|]. split; [done|]. split; [|done]. intros id r Hr Hf. eapply spec_changes_other; [exact S'| |done].
  unfold A0. destruct replace; [|done]. apply map_lookup_filter_Some. split; [done|]. by apply Z.eqb_neq.
Qed.

(** A rule without a condition or without actions has no stored form: a batch that adds one is refused as a whole. *)
Lemma incomplete_rule_refused folder p : rp_Condition p = None \/ rp_Actions p = None -> forall db, exists e, insertRulePatch db folder p = Err e.
Proof.
  intros H db. unfold insertRulePatch. destruct (marshalRestriction (rp_Condition p)) as [b|e] eqn:Ec; [|by exists e]. destruct H as [H|H]; rewrite H in *.
  - vm_compute in Ec. done.
  - destruct (marshalRuleActions None) as [b'|e] eqn:Ea; [vm_compute in Ea; done|by exists e].
Qed.

(** A change that cannot be stored: an operation of no known kind, or a new rule that lacks its condition or its actions *)
Definition change_refused (c : RuleChange) : bool :=
  if rc_Op c =? RuleAdd then match rp_Condition (rc_Patch c), rp_Actions (rc_Patch c) with Some _, Some _ => false | _, _ => true end
  else negb ((rc_Op c =? RuleModify) || (rc_Op c =? RuleRemove)).
Lemma refused_fails folder db c : change_refused c = true -> exists e, apply_rule_change folder db c = Err e.
Proof.
  unfold change_refused, apply_rule_change. destruct (rc_Op c =? RuleAdd).
  - intros H. apply incomplete_rule_refused. destruct (rp_Condition _); [|by left]. destruct (rp_Actions _); [done|by right].
  - intros [-> ->]%negb_true_iff%orb_false_iff. by eexists.
Qed.

(** A batch with a change that cannot be stored changes nothing, whatever stands before it and whether
    or not it replaces: the table is the one it was. *)
Theorem batch_all_or_nothing db folder replace cs : existsb change_refused cs = true -> exists e, ModifyRules db folder replace cs = (db, Some e).
Proof.
  intros H. unfold ModifyRules. set (db0 := if replace then _ else db). enough (He : exists e, apply_rule_changes folder db0 cs = Err e) by (destruct He as [e ->]; by exists e).
  generalize db0. clear db0. induction cs as [|c cs IH]; [done|]. intros db0. cbn [existsb] in H. cbn [apply_rule_changes].
  apply orb_true_iff in H as [Hc|Hcs]; [destruct (refused_fails folder db0 c Hc) as [e ->]; by exists e|]. destruct (apply_rule_change folder db0 c) as [db1|e]; [by apply IH|by exists e].
Qed.

(** *** The editor's calls *)

Lemma u32_bits x n : 0 <= n -> Z.testbit (u32 x) n = (n <? 32) && Z.testbit x n.
Proof. intros Hn. unfold u32. destruct (Z.ltb_spec n 32) as [H|H]; cbn [andb]; [by rewrite Z.mod_pow2_bits_low|by rewrite Z.mod_pow2_bits_high by lia]. Qed.
Lemma u32_enable x : u32 (Z.lor x RuleStateEnabled) = Z.lor (u32 x) RuleStateEnabled.
Proof.
  apply Z.bits_inj'. intros n Hn. rewrite u32_bits, !Z.lor_spec, u32_bits by done. destruct (Z.ltb_spec n 32); cbn [andb]; [done|].
  symmetry. apply (Z.bits_above_log2 RuleStateEnabled); [done|]. change (Z.log2 RuleStateEnabled) with 0. lia.
Qed.
Lemma u32_disable x : u32 (Z.ldiff x RuleStateEnabled) = Z.ldiff (u32 x) RuleStateEnabled.
Proof. apply Z.bits_inj'. intros n Hn. rewrite u32_bits, !Z.ldiff_spec, u32_bits by done. by rewrite andb_assoc. Qed.
Definition set_rule_state (st : Z) (r : Rule) : Rule := mkRule (r_ID r) (r_FolderID r) (r_Name r) (r_Provider r) (r_Sequence r) st (r_Condition r) (r_Actions r).
Definition set_rule_sequence (n : Z) (r : Rule) : Rule := mkRule (r_ID r) (r_FolderID r) (r_Name r) (r_Provider r) n (r_State r) (r_Condition r) (r_Actions r).
Definition enabled_state (enabled : bool) (st : Z) : Z := if enabled then Z.lor st RuleStateEnabled else Z.ldiff st RuleStateEnabled.
(** The outcome of a call on one rule: an error for a rule that is not there, else the rule as changed, or gone *)
Definition changes_rule (A : gmap Z Rule) (id : Z) (f : Rule -> option Rule) (res : result rules_error rules_db) : Prop :=
  match A !! id with
  | None => res = Err ErrNotFound
  | Some r => exists db', res = Ok db' /\ represents db' (partial_alter (fun _ => f r) id A)
  end.
Lemma found_rule db A id : represents db A ->
  match find_row db id with Some w => exists r, dec w = Ok r /\ A !! id = Some r | None => A !! id = None end.
Proof.
  intros HA. destruct (find_row db id) as [w|] eqn:Hf.
  - destruct (find_row_in _ _ _ Hf) as [Hw Ei]. destruct (rep_rows _ _ HA w Hw) as [r Hr]. exists r. split; [done|]. apply (rep_map _ _ HA). by exists w.
  - destruct (A !! id) as [r|] eqn:E; [|done]. apply (rep_map _ _ HA) in E as (w & Hw & Ei & _). by destruct (find_row_none _ _ _ Hf Hw).
Qed.
Lemma enabled_refines db A id enabled : represents db A ->
  changes_rule A id (fun r => Some (set_rule_state (enabled_state enabled (r_State r)) r)) (SetRuleEnabled db id enabled).
Proof.
  intros HA. unfold changes_rule, SetRuleEnabled. pose proof (found_rule db A id HA) as Hf. destruct (find_row db id) as [w|] eqn:Ef; [|by rewrite Hf].
  destruct Hf as (r & Hd & ->). eexists. split; [reflexivity|]. apply (rep_update db A id w); [done|done|done|done|].
  apply dec_row in Hd as (c & a & Hc & Ha & ->). apply dec_row. exists c, a. split; [done|]. split; [done|]. unfold set_rule_state, enabled_state. cbn. f_equal. destruct enabled; [by rewrite u32_enable|by rewrite u32_disable].
Qed.
Lemma sequence_refines db A id n : represents db A -> inS 32 n = true -> changes_rule A id (fun r => Some (set_rule_sequence n r)) (SetRuleSequence db id n).
Proof.
  intros HA Hn. unfold changes_rule, SetRuleSequence. pose proof (found_rule db A id HA) as Hf. destruct (find_row db id) as [w|] eqn:Ef; [|by rewrite Hf].
  destruct Hf as (r & Hd & ->). eexists. split; [reflexivity|]. apply (rep_update db A id w); [done|done|done|done|].
  apply dec_row in Hd as (c & a & Hc & Ha & ->). apply dec_row. by exists c, a.
Qed.
Lemma delete_refines db A id : represents db A -> changes_rule A id (fun _ => None) (DeleteRule db id).
Proof.
  intros HA. unfold changes_rule, DeleteRule. pose proof (found_rule db A id HA) as Hf. destruct (find_row db id) as [w|] eqn:Ef; [|by rewrite Hf].
  destruct Hf as (r & Hd & ->). eexists. split; [reflexivity|]. pose proof (rep_delete db A (fun _ i => i =? id) HA) as HR. cbn beta in HR.
  assert (E : filter (fun kr : Z * Rule => (kr.1 =? id) = false) A = partial_alter (fun _ => None) id A); [|by rewrite <- E].
  apply map_eq. intros k. change (partial_alter _ id A) with (delete id A). apply option_eq. intros r'. rewrite map_lookup_filter_Some, lookup_delete_Some, Z.eqb_neq. cbn. split; intros []; split; congruence.
Qed.
Lemma add_rule_refines db A r : represents db A -> inS 32 (r_Sequence r) = true -> inU 32 (r_State r) = true -> condition_ok (r_Condition r) = true -> actions_ok (r_Actions r) = true ->
  exists id db' seq, AddRule db r = Ok (id, db') /\ A !! id = None /\ placed A (r_FolderID r) (r_Sequence r) seq
    /\ represents db' (<[id := mkRule id (r_FolderID r) (r_Name r) (if beq (r_Provider r) [] then ruleProviderDefault else r_Provider r) seq (r_State r) (r_Condition r) (r_Actions r)]> A).
Proof.
  intros HA Hs Hst Hc Ha. unfold AddRule. destruct (condition_blob _ Hc) as (bc & -> & Rc). destruct (actions_blob _ Ha) as (ba & -> & Ra).
  destruct (next_placed db A (r_FolderID r) (r_Sequence r) HA Hs) as [Hq Hp]. cbv zeta. set (g := fun id => mkRow id _ _ _ _ _ _ _).
  eexists _, _, _. split; [reflexivity|].
  edestruct (rep_insert db A g) as [HN HR]; [exact HA|done|exact Hq| |split; [exact HN|]; split; [exact Hp|exact HR]].
  apply dec_row. exists (r_Condition r), (r_Actions r). split; [done|]. split; [done|]. cbn. f_equal. symmetry. apply Z.mod_small. by apply inU_spec.
Qed.

(** The rule editor's calls do to the stored table what they do to the map of rules: adding gives a
    fresh id and a place behind the folder's rules unless one is asked for, switching changes the one
    bit of the state, renumbering the sequence, deleting removes; a call for a rule that is not there
    is an error. *)
Theorem rule_calls_refine db A r id enabled n :
  represents db A -> inS 32 (r_Sequence r) = true -> inU 32 (r_State r) = true -> condition_ok (r_Condition r) = true -> actions_ok (r_Actions r) = true -> inS 32 n = true ->
  (exists new db' seq, AddRule db r = Ok (new, db') /\ A !! new = None /\ placed A (r_FolderID r) (r_Sequence r) seq
    /\ represents db' (<[new := mkRule new (r_FolderID r) (r_Name r) (if beq (r_Provider r) [] then ruleProviderDefault else r_Provider r) seq (r_State r) (r_Condition r) (r_Actions r)]> A))
  /\ changes_rule A id (fun r => Some (set_rule_state (enabled_state enabled (r_State r)) r)) (SetRuleEnabled db id enabled)
  /\ changes_rule A id (fun r => Some (set_rule_sequence n r)) (SetRuleSequence db id n)
  /\ changes_rule A id (fun _ => None) (DeleteRule db id).
Proof. intros. split; [by apply add_rule_refines|]. split; [by apply enabled_refines|]. split; [by apply sequence_refines|by apply delete_refines]. Qed.

(** ** Examples *)

(** A run against a store that answers by a function *)
Fixpoint run_with {A} (store : forall X, call X -> X) (p : prog A) : list event * A :=
  match p with
  | Ret a => ([], a)
  | Call c k => let x := store _ c in let r := run_with store (k x) in (Ev c x :: r.1, r.2)
  end.
Lemma run_with_exec {A} store (p : prog A) : exec p (run_with store p).1 (run_with store p).2.
Proof. induction p as [a|X c k IH]; cbn; [done|]. eexists _, _. split; [reflexivity|apply IH]. Qed.
Definition sample_texts : texts := mkTexts (fun s => s) (fun s => s) (fun r => negb (r =? 32)).
(** Move to folder 7 what has an X in its subject; then mark as read what is left. *)
Definition sample_move : Rule := mkRule 1 PrivateFIDInbox [77] [82] 1 RuleStateEnabled (RuleSubjectContains [88]) (mkRuleActions [RuleMoveAction 7]).
Definition sample_read : Rule := mkRule 2 PrivateFIDInbox [78] [82] 2 RuleStateEnabled (RuleAll [RuleSubjectContains [88]]) (mkRuleActions [RuleMarkReadAction]).
Definition sample_info : MessageInfo := mkInfo 100 4 2048 1700000000 0.
Definition sample_store (X : Type) (c : call X) : X :=
  match c with
  | CListRules _ => Some [sample_move; sample_read]
  | CListMessages _ => Some [sample_info]
  | COOFActive _ => Some false
  | CGetMessageProperties _ => Some [mkTagged PrSubject (AString [65; 88])]
  | CSetMessageProperties _ _ => true
  | CMessageFlags _ _ => Some 0
  | CSetMessageFlags _ _ _ => true
  | CMessageByUID _ _ => Some sample_info
  | CGetMessageRaw _ _ => Some [72; 105]
  | CAppendMessage _ _ _ _ => Some (mkInfo 101 1 2048 1700000000 0)
  | CDeleteMessage _ _ => true
  end.
Definition sample_sweep : list event := (run_with sample_store (RunRules sample_texts PrivateFIDInbox 0)).1.
Definition sample_delivery : list event := (run_with sample_store (ApplyInboxRules sample_texts sample_info 0)).1.
Definition is_delete (e : event) : bool := match e with Ev c _ => negb (no_delete c) end.
(** A sweep and a delivery in which the message is moved *)
Example rules_lose_nothing_witness :
  existsb is_delete sample_sweep = true /\ existsb is_delete sample_delivery = true
  /\ deletes_copied PrivateFIDInbox sample_sweep /\ deletes_copied PrivateFIDInbox sample_delivery.
Proof.
  split; [vm_compute; reflexivity|]. split; [vm_compute; reflexivity|].
  apply (rules_lose_nothing sample_texts (mkOptions PrivateFIDInbox PrivateFIDInbox 0) sample_info 0);
    (eapply exec_reach; apply run_with_exec).
Defined.

Lemma empty_table : represents (mkDB [] 0) ∅.
Proof. constructor; cbn [db_rows map]; [constructor|intros w []|intros w []|intros w []|]. intros id r. rewrite lookup_empty. split; [done|by intros (w & [] & _)]. Qed.
Definition no_patch : RulePatch := mkPatch None None None None None None.
Definition sample_add (r : Rule) : RuleChange := mkChange RuleAdd 0 (mkPatch (Some (r_Name r)) None None (Some (r_State r)) (Some (r_Condition r)) (Some (r_Actions r))).
(** Two rules are added, the first is moved behind the second and switched off, one that does not exist is removed. *)
Definition sample_batch : list RuleChange :=
  [sample_add sample_move; sample_add sample_read; mkChange RuleModify 1 (mkPatch None None (Some 9) (Some 0) None None); mkChange RuleRemove 5 no_patch].
Example rules_table_refines_witness :
  map r_ID <$> match ListRules (ModifyRules (mkDB [] 0) 13 true sample_batch).1 13 with Ok l => Some l | Err _ => None end = Some [2; 1]
  /\ exists db' A' l, ModifyRules (mkDB [] 0) 13 true sample_batch = (db', None) /\ represents db' A'
    /\ spec_changes 13 (filter (fun kr => (r_FolderID kr.2 =? 13) = false) (∅ : gmap Z Rule)) sample_batch A'
    /\ (forall id r, (∅ : gmap Z Rule) !! id = Some r -> r_FolderID r <> 13 -> A' !! id = Some r)
    /\ ListRules db' 13 = Ok l /\ listing A' 13 l.
Proof. split; [vm_compute; reflexivity|]. apply (rules_table_refines (mkDB [] 0) ∅ 13 true sample_batch empty_table). vm_compute. reflexivity. Defined.
(** Behind the last place: a rule that is added without a place of its own after one at 2^31 - 1 is evaluated before it. *)
Example last_place_wraps :
  map r_Sequence <$> match ListRules (ModifyRules (mkDB [] 0) 13 false
      [mkChange RuleAdd 0 (mkPatch (Some [65]) None (Some (2 ^ 31 - 1)) None (Some (r_Condition sample_move)) (Some (r_Actions sample_move))); sample_add sample_read]).1 13
    with Ok l => Some l | Err _ => None end = Some [- 2 ^ 31; 2 ^ 31 - 1].
Proof. vm_compute. reflexivity. Qed.
Example rule_calls_refine_witness :
  (exists new db' seq, AddRule (mkDB [] 0) sample_move = Ok (new, db') /\ (∅ : gmap Z Rule) !! new = None /\ placed ∅ (r_FolderID sample_move) (r_Sequence sample_move) seq
    /\ represents db' (<[new := mkRule new (r_FolderID sample_move) (r_Name sample_move) (if beq (r_Provider sample_move) [] then ruleProviderDefault else r_Provider sample_move) seq
        (r_State sample_move) (r_Condition sample_move) (r_Actions sample_move)]> ∅))
  /\ changes_rule ∅ 1 (fun r => Some (set_rule_state (enabled_state false (r_State r)) r)) (SetRuleEnabled (mkDB [] 0) 1 false)
  /\ changes_rule ∅ 1 (fun r => Some (set_rule_sequence 3 r)) (SetRuleSequence (mkDB [] 0) 1 3)
  /\ changes_rule ∅ 1 (fun _ => None) (DeleteRule (mkDB [] 0) 1).
Proof. apply (rule_calls_refine (mkDB [] 0) ∅ sample_move 1 false 3 empty_table); vm_compute; reflexivity. Defined.
