(* ===== verification/Spooler.v ===== *)
(** * Scheduled mail ([internal/spooler])

    A message whose sending was put off waits in the Outbox.  A sweep hands those that are due to
    delivery, files a copy and takes them out; a stamp written before the delivery tells a sweep
    that the one before it was cut off.  The sweep is a program of calls to the store, to delivery
    and to the reporter of failures, which may be cut off between any two. *)

From stdpp Require Import base list numbers.
From Stdlib Require Import ZArith Lia.
From Stdlib Require String.
Import String.StringSyntax.
From S2P Require Import Prelude Utf Gostr Mapi Wire ExtVal RopTags RopProps RopTable Rules.
Open Scope Z_scope.
#[local] Arguments lit : simpl never.

Definition PrDeferredSendTime : Z := 0x3FEF0040.
Definition PrivateFIDDraft : Z := 0x0e.
Definition maxReleaseAttempts : Z := 10.
Definition releaseGUID : GUID := mkGUID 0x6d8c1f2a 0x4b73 0x4d31 [0x9e; 0x55; 0x0a; 0x1c; 0x77; 0xb4; 0xe2; 0x30].
Definition nameReleaseAttempts : PropertyName := mkPropertyName MnidString releaseGUID 0 (lit "SendLaterReleaseAttempts").
Definition nameReleaseStarted : PropertyName := mkPropertyName MnidString releaseGUID 0 (lit "SendLaterReleaseStarted").

(** ** The wire copy *)

(** A byte before the first line *)
Definition attach (b : Z) (lines : list bytes) : list bytes := match lines with line :: rest => (b :: line) :: rest | [] => [[b]] end.
(** [bytes.SplitSeq(s, "\r\n")] *)
Fixpoint split_crlf (s : bytes) : list bytes :=
  match s with
  | [] => [[]]
  | b :: s1 => match s1 with c :: s2 => if (b =? 13) && (c =? 10) then [] :: split_crlf s2 else attach b (split_crlf s1) | [] => [[b]] end
  end.
Definition isBccField (line : bytes) : bool :=
  if existsb (Z.eqb 58) line then EqualFold (TrimSpace (Cut line 58).1) (lit "Bcc") else false.
(** The lines that stay, and whether the field before is being dropped *)
Fixpoint kept_lines (dropping : bool) (lines : list bytes) : list bytes :=
  match lines with
  | [] => []
  | line :: lines =>
      if dropping && match line with b :: _ => (b =? 32) || (b =? 9) | [] => false end then kept_lines true lines
      else if isBccField line then kept_lines true lines
      else line :: kept_lines false lines
  end.
Definition stripBcc (raw : bytes) : bytes :=
  match Index raw (crlf ++ crlf) with
  | None => raw
  | Some i => Join (kept_lines false (split_crlf (take i raw))) crlf ++ drop i raw
  end.

(** ** Calls *)

(** Why a delivery failed: whether it never can succeed *)
Record delivery_failure := mkFailure { df_terminal : bool }.
Inductive scall : Type -> Type :=
| SStore {X} (c : call X) : scall X
| SGetNamedPropIDs (create : bool) (names : list PropertyName) : scall (option (list Z))
| SGetProps (id : Z) (tag : Z) : scall (option PropertyValues)
| SModifyProps (id : Z) (props : PropertyValues) (deletes : list Z) : scall bool
| SOpenMessage (id : Z) : scall (option (list PropertyValues))
| SCancelled : scall bool
(** Of which message the bytes are is not told to delivery; it is here for the record. *)
| SDeliver (id : Z) (recipients : list bytes) (raw : bytes) (when : Z) : scall (result delivery_failure bool)
| SReport (id : Z) (raw : bytes) (recipients : list bytes) : scall unit.
Notation sprog := (free scall).
(** The causes of an error; none is no error. *)
Inductive cause := EStore | EDelivery | EName | EGaveUp | EAmbiguous | ENotFiled | EReport.
Notation serror := (list cause).
Definition store_MoveMessage (src uid dst : Z) : sprog (option MessageInfo) := lift (fun X (c : call X) => SStore c) (MoveMessage src uid dst).

Definition recipientAddrs (recipients : list PropertyValues) : list bytes :=
  omap (fun r => match pv_Get r PrSmtpAddress with Some (AString a) => if beq a [] then None else Some a | _ => None end) recipients.
(** An instant in nanoseconds *)
Definition unix_nano (t : gotime) : Z := tUnix t * 1000000000 + tNanosecond t.
(** Whether it is due and whether it is scheduled *)
Definition deferredSendDue (id now : Z) : sprog (result serror (bool * bool)) :=
  ask props := SGetProps id PrDeferredSendTime in
  Ret match props with
      | None => Err [EStore]
      | Some props =>
          match pv_Get props PrDeferredSendTime with
          | Some (AUint64 nt) => Ok (unix_nano (NTTimeToUnix nt) <=? now, true)
          | _ => Ok (false, false)
          end
      end.

(** The tag of a named property, allocated if need be *)
Definition named_tag (name : PropertyName) (ty : Z) : sprog (result serror Z) :=
  ask ids := SGetNamedPropIDs true [name] in
  Ret match ids with
      | None => Err [EStore]
      | Some [] => Err [EName]
      | Some (id :: _) => if id =? 0 then Err [EName] else Ok (Z.lor (u32 (Z.shiftl id 16)) ty)
      end.
Definition releaseStartedTag : sprog (result serror Z) := named_tag nameReleaseStarted PtI8.
Definition markReleaseStarted (id now : Z) : sprog serror :=
  run tag := releaseStartedTag in
  match tag with
  | Err e => Ret e
  | Ok tag => ask ok := SStore (CSetMessageProperties id [mkTagged tag (AInt64 (now / 1000000000))]) in Ret (if ok : bool then [] else [EStore])
  end.
Definition releaseStarted (id : Z) : sprog (result serror bool) :=
  run tag := releaseStartedTag in
  match tag with
  | Err e => Ret (Err e)
  | Ok tag =>
      ask props := SGetProps id tag in
      Ret match props with None => Err [EStore] | Some props => Ok (match pv_Get props tag with Some _ => true | None => false end) end
  end.
Definition clearReleaseStarted (id : Z) : sprog serror :=
  run tag := releaseStartedTag in
  match tag with Err e => Ret e | Ok tag => ask ok := SModifyProps id [] [tag] in Ret (if ok : bool then [] else [EStore]) end.

Definition attempts_of (props : PropertyValues) (tag : Z) : Z := match pv_Get props tag with Some (AInt32 n) => n | _ => 0 end.
Definition releaseAttempts (id : Z) : sprog (result serror Z) :=
  run tag := named_tag nameReleaseAttempts PtLong in
  match tag with
  | Err e => Ret (Err e)
  | Ok tag => ask props := SGetProps id tag in Ret match props with None => Err [EStore] | Some props => Ok (attempts_of props tag) end
  end.
Definition bumpReleaseAttempts (id : Z) : sprog (result serror Z) :=
  run tag := named_tag nameReleaseAttempts PtLong in
  match tag with
  | Err e => Ret (Err e)
  | Ok tag =>
      ask props := SGetProps id tag in
      match props with
      | None => Ret (Err [EStore])
      | Some props =>
          let attempts := i32 (attempts_of props tag + 1) in
          ask ok := SStore (CSetMessageProperties id [mkTagged tag (AInt32 attempts)]) in
          Ret (if ok : bool then Ok attempts else Err [EStore])
      end
  end.

(** ** A message *)

Definition fileToSent (raw : bytes) (now : Z) : sprog serror :=
  ask info := SStore (CAppendMessage PrivateFIDSentItems raw now FlagSeen) in Ret (match info with Some _ => [] | None => [EStore] end).
(** Whether the message has left the Outbox, and the error *)
Definition releaseFailed (outbox : Z) (m : MessageInfo) (f : delivery_failure) : sprog (bool * serror) :=
  run e := clearReleaseStarted (mi_ID m) in
  match e with
  | _ :: _ => Ret (false, EDelivery :: e)
  | [] =>
      if negb (df_terminal f) then Ret (false, [EDelivery])
      else ask ok := SStore (CDeleteMessage outbox (mi_UID m)) in Ret (if ok : bool then (true, []) else (false, [EStore]))
  end.
Definition releaseMessage (outbox : Z) (m : MessageInfo) (now : Z) : sprog (bool * serror) :=
  ask full := SOpenMessage (mi_ID m) in
  match full with
  | None => Ret (false, [EStore])
  | Some full =>
      let recipients := recipientAddrs full in
      ask raw := SStore (CGetMessageRaw outbox (mi_UID m)) in
      match raw with
      | None => Ret (false, [EStore])
      | Some raw =>
          run e := markReleaseStarted (mi_ID m) now in
          match e with
          | _ :: _ => Ret (false, e)
          | [] =>
              ask d := SDeliver (mi_ID m) recipients (stripBcc raw) now in
              match d with
              | Err f => releaseFailed outbox m f
              | Ok keepOwnCopy =>
                  run fileErr := (if keepOwnCopy : bool then fileToSent raw now else Ret []) in
                  ask ok := SStore (CDeleteMessage outbox (mi_UID m)) in
                  if negb ok then Ret (false, fileErr ++ [EStore])
                  else Ret (true, match fileErr with [] => [] | _ => ENotFiled :: fileErr end)
              end
          end
      end
  end.
Definition collectReport (outbox : Z) (m : MessageInfo) : sprog (option bytes * list bytes * serror) :=
  ask full := SOpenMessage (mi_ID m) in
  ask raw := SStore (CGetMessageRaw outbox (mi_UID m)) in
  Ret (raw, match full with Some full => recipientAddrs full | None => [] end,
       (match full with Some _ => [] | None => [EReport] end) ++ (match raw with Some _ => [] | None => [EReport] end)).
(** The message goes back to the Drafts folder and its sender is told; [report] says whether there is a reporter. *)
Definition hand_back (report : bool) (outbox : Z) (m : MessageInfo) (why : cause) : sprog serror :=
  run r := collectReport outbox m in
  let '(raw, recipients, reportErr) := r in
  run moved := store_MoveMessage outbox (mi_UID m) PrivateFIDDraft in
  match moved with
  | None => Ret (reportErr ++ [EStore])
  | Some _ =>
      match raw with
      | Some raw => if report then ask u := SReport (mi_ID m) raw recipients in Ret (reportErr ++ [why]) else Ret (reportErr ++ [why])
      | None => Ret (reportErr ++ [why])
      end
  end.
Definition recordFailure (report : bool) (outbox : Z) (m : MessageInfo) : sprog serror :=
  run attempts := bumpReleaseAttempts (mi_ID m) in
  match attempts with
  | Err e => Ret e
  | Ok attempts => if attempts <? maxReleaseAttempts then Ret [] else hand_back report outbox m EGaveUp
  end.
Definition returnAmbiguous (report : bool) (outbox : Z) (m : MessageInfo) : sprog serror := hand_back report outbox m EAmbiguous.

(** ** A sweep *)

Record Stats := mkStats { sx_Scanned : Z; sx_Released : Z; sx_Failed : Z; sx_Waiting : Z; sx_Retrying : Z }.
Definition countWaiting (stats : Stats) (id : Z) : sprog Stats :=
  let stats := mkStats (sx_Scanned stats) (sx_Released stats) (sx_Failed stats) (sx_Waiting stats + 1) (sx_Retrying stats) in
  run attempts := releaseAttempts id in
  Ret match attempts with
      | Ok n => if 0 <? n then mkStats (sx_Scanned stats) (sx_Released stats) (sx_Failed stats) (sx_Waiting stats) (sx_Retrying stats + 1) else stats
      | Err _ => stats
      end.
Definition processDueMessage (report : bool) (outbox : Z) (m : MessageInfo) (now : Z) (stats : Stats) : sprog (Stats * serror) :=
  run started := releaseStarted (mi_ID m) in
  match started with
  | Err e => Ret (stats, e)
  | Ok true => run e := returnAmbiguous report outbox m in Ret (stats, e)
  | Ok false =>
      run r := releaseMessage outbox m now in
      let '(done, errs) := r in
      if done : bool then Ret (mkStats (sx_Scanned stats) (sx_Released stats + 1) (sx_Failed stats) (sx_Waiting stats) (sx_Retrying stats), errs)
      else
        let stats := mkStats (sx_Scanned stats) (sx_Released stats) (sx_Failed stats + 1) (sx_Waiting stats + 1) (sx_Retrying stats + 1) in
        run e := recordFailure report outbox m in Ret (stats, errs ++ e)
  end.
Fixpoint sweep (report : bool) (outbox : Z) (msgs : list MessageInfo) (now : Z) (stats : Stats) (errs : serror) : sprog (Stats * serror) :=
  match msgs with
  | [] => Ret (stats, errs)
  | m :: msgs =>
      ask cancelled := SCancelled in
      if cancelled : bool then Ret (stats, errs)
      else
        run due := deferredSendDue (mi_ID m) now in
        match due with
        | Err e => sweep report outbox msgs now stats (errs ++ e)
        | Ok (due, scheduled) =>
            if negb scheduled then sweep report outbox msgs now stats errs
            else
              let stats := mkStats (sx_Scanned stats + 1) (sx_Released stats) (sx_Failed stats) (sx_Waiting stats) (sx_Retrying stats) in
              if negb due then run stats := countWaiting stats (mi_ID m) in sweep report outbox msgs now stats errs
              else run r := processDueMessage report outbox m now stats in let '(stats, e) := r in sweep report outbox msgs now stats (errs ++ e)
        end
  end.
Definition ProcessDueOutboxStats (report : bool) (now : Z) : sprog (Stats * serror) :=
  let outbox := PrivateFIDOutbox in
  ask msgs := SStore (CListMessages outbox) in
  match msgs with
  | None => Ret (mkStats 0 0 0 0 0, [EStore])
  | Some msgs => sweep report outbox msgs now (mkStats 0 0 0 0 0) []
  end.
