(* ===== verification/SpoolerProofs.v ===== *)
(** * Scheduled mail: not again once accepted, and never lost

    Sweeps of the Outbox are cut off anywhere, calls fail with or without their effect, and other
    processes work on the Outbox all the while.  A scheduled message is not handed to delivery
    again once delivery has answered that it accepted it, and every scheduled message is still
    there, accepted, refused for good, back in the Drafts folder or taken away by somebody else.
    The Bcc field does not reach the wire. *)

From stdpp Require Import base list numbers relations.
From Stdlib Require Import ZArith Lia.
From Stdlib Require String.
Import String.StringSyntax.
From S2P Require Import Prelude Utf Gostr Mapi Wire ExtVal RopTags RopProps RopTable Rules Spooler.
Open Scope Z_scope.
#[local] Arguments lit : simpl never.

(** ** The store *)

Record omsg := mkO { o_id : Z; o_uid : Z; o_raw : bytes; o_recipients : list PropertyValues; o_props : PropertyValues }.
(** A message handed to delivery: which, to whom and as what bytes; the recipients that got it; and
    whether delivery answered an error, which does not tell that none of them did *)
Record handover := mkHandover { ho_id : Z; ho_to : list bytes; ho_raw : bytes; ho_reached : list bytes; ho_error : bool }.
(** The Outbox; the copies filed in other folders; what was handed to delivery, in order, and what it
    refused for good; and, for the record, the ids and uids given out, the contents messages have
    had and the messages somebody else took away. *)
Record state := mkS {
  s_outbox : list omsg; s_filed : list (Z * bytes); s_handed : list handover; s_refused : list Z;
  s_born : list (Z * Z); s_contents : list (Z * bytes); s_removed : list Z }.
Definition set_outbox (l : list omsg) (s : state) : state := mkS l (s_filed s) (s_handed s) (s_refused s) (s_born s) (s_contents s) (s_removed s).
Definition set_props (pv : PropertyValues) (m : omsg) : omsg := mkO (o_id m) (o_uid m) (o_raw m) (o_recipients m) pv.
Definition modify (id : Z) (f : omsg -> omsg) (s : state) : state := set_outbox (map (fun m => if o_id m =? id then f m else m) (s_outbox s)) s.
Definition modify_props (props : PropertyValues) (deletes : list Z) (m : omsg) : omsg :=
  set_props (List.filter (fun tv => negb (existsb (Z.eqb (tpTag tv)) deletes)) (foldl (fun pv tv => pv_Set pv (tpTag tv) (tpValue tv)) (o_props m) props)) m.
Definition remove_uid (uid : Z) (s : state) : state := set_outbox (List.filter (fun m => negb (o_uid m =? uid)) (s_outbox s)) s.
Definition file (folder : Z) (raw : bytes) (s : state) : state :=
  mkS (s_outbox s) (s_filed s ++ [(folder, raw)]) (s_handed s) (s_refused s) (s_born s) (s_contents s) (s_removed s).
Definition hand (h : handover) (s : state) : state :=
  mkS (s_outbox s) (s_filed s) (s_handed s ++ [h]) (s_refused s) (s_born s) (s_contents s) (s_removed s).
Definition refuse (id : Z) (s : state) : state :=
  mkS (s_outbox s) (s_filed s) (s_handed s) (id :: s_refused s) (s_born s) (s_contents s) (s_removed s).

(** A write that answers ok has happened; one that fails may have. *)
Definition written (eff : state -> state) (s : state) (ok : bool) (s' : state) : Prop := s' = eff s \/ (ok = false /\ s' = s).
(** A read that answers tells what there is. *)
Definition is_some {A} (o : option A) : bool := match o with Some _ => true | None => false end.
Definition read {A} (s : state) (what : A -> Prop) (x : option A) (s' : state) : Prop := s' = s /\ match x with Some a => what a | None => True end.

Section semantics.
(** The ids of named properties, which the store keeps *)
Context (named : PropertyName -> Z).

Definition tag_of (name : PropertyName) (ty : Z) : Z := Z.lor (u32 (Z.shiftl (named name) 16)) ty.
Definition started_tag : Z := tag_of nameReleaseStarted PtI8.
Definition stamped (m : omsg) : Prop := pv_Get (o_props m) started_tag <> None.
(** What other processes do with the Outbox: they put messages in, take them out and edit them, but for the stamp. *)
Inductive others : state -> state -> Prop :=
| others_add s m :
    ~ In (o_id m) (map fst (s_born s)) -> ~ In (o_uid m) (map snd (s_born s)) ->
    others s (mkS (s_outbox s ++ [m]) (s_filed s) (s_handed s) (s_refused s) ((o_id m, o_uid m) :: s_born s) ((o_id m, o_raw m) :: s_contents s) (s_removed s))
| others_remove s m :
    In m (s_outbox s) ->
    others s (mkS (List.filter (fun x => negb (o_id x =? o_id m)) (s_outbox s)) (s_filed s) (s_handed s) (s_refused s) (s_born s) (s_contents s) (o_id m :: s_removed s))
| others_edit s m m' :
    In m (s_outbox s) -> o_id m' = o_id m -> o_uid m' = o_uid m -> (stamped m -> stamped m') ->
    others s (mkS (map (fun x => if o_id x =? o_id m then m' else x) (s_outbox s)) (s_filed s) (s_handed s) (s_refused s) (s_born s) ((o_id m, o_raw m') :: s_contents s) (s_removed s)).

Definition store_answers (s : state) {X} (c : call X) : X -> state -> Prop :=
  match c in call X return X -> state -> Prop with
  | CListMessages folder => read s (fun l => folder = PrivateFIDOutbox -> map (fun i => (mi_ID i, mi_UID i)) l = map (fun m => (o_id m, o_uid m)) (s_outbox s))
  | CMessageByUID folder uid => read s (fun i => folder = PrivateFIDOutbox -> exists m, In m (s_outbox s) /\ o_uid m = uid /\ mi_ID i = o_id m /\ mi_UID i = uid)
  | CGetMessageRaw folder uid => read s (fun raw => folder = PrivateFIDOutbox -> exists m, In m (s_outbox s) /\ o_uid m = uid /\ raw = o_raw m)
  | CAppendMessage folder raw date flags => fun i s' => if folder =? PrivateFIDOutbox then others s s' else written (file folder raw) s (is_some i) s'
  | CDeleteMessage folder uid => fun ok s' => if folder =? PrivateFIDOutbox then written (remove_uid uid) s ok s' else s' = s
  | CSetMessageProperties id pv => written (modify id (modify_props pv [])) s
  | _ => fun _ s' => s' = s
  end.
(** A delivery that answers with an error may have reached some of the recipients. *)
Definition answers (s : state) {X} (c : scall X) : X -> state -> Prop :=
  match c in scall X return X -> state -> Prop with
  | SStore c => store_answers s c
  | SGetNamedPropIDs create names => read s (fun l => l = [] \/ l = map (fun _ => 0) names \/ l = map named names)
  | SGetProps id tag => read s (fun pv => exists m, In m (s_outbox s) /\ o_id m = id /\ pv = List.filter (fun tv => tpTag tv =? tag) (o_props m))
  | SModifyProps id props deletes => written (modify id (modify_props props deletes)) s
  | SOpenMessage id => read s (fun r => exists m, In m (s_outbox s) /\ o_id m = id /\ r = o_recipients m)
  | SCancelled => fun _ s' => s' = s
  | SDeliver id rcpts raw when => fun d s' =>
      match d with
      | Ok _ => s' = hand (mkHandover id rcpts raw rcpts false) s
      | Err f => exists reached, incl reached rcpts
                   /\ s' = let s1 := hand (mkHandover id rcpts raw reached true) s in if df_terminal f then refuse id s1 else s1
      end
  | SReport id raw rcpts => fun _ s' => s' = s
  end.

(** A program cut off somewhere, and one that ran to its end *)
Fixpoint cuts {A} (p : sprog A) (s s' : state) : Prop :=
  rtc others s s' \/ match p with Ret _ => False | Call c k => exists s1 x s2, rtc others s s1 /\ answers s1 c x s2 /\ cuts (k x) s2 s' end.
(** Sweeps one after the other, from an empty Outbox *)
Inductive reachable : state -> Prop :=
| reach_start : reachable (mkS [] [] [] [] [] [] [])
| reach_sweep s s' report now : reachable s -> cuts (ProcessDueOutboxStats report now) s s' -> reachable s'.

(** ** The invariant *)

(** The messages whose acceptance was answered *)
Definition accepted_ids (s : state) : list Z := map ho_id (List.filter (fun h => negb (ho_error h)) (s_handed s)).
(** Of two hand-overs of one message, the earlier ended in an error. *)
Definition no_resend (l : list handover) : Prop := forall l1 h l2 h' l3, l = l1 ++ h :: l2 ++ h' :: l3 -> ho_id h = ho_id h' -> ho_error h = true.
Definition accounted (s : state) (id : Z) : Prop :=
  In id (accepted_ids s) \/ In id (s_refused s) \/ In id (s_removed s) \/ exists raw, In (id, raw) (s_contents s) /\ In (PrivateFIDDraft, raw) (s_filed s).
Record inv (s : state) : Prop := {
  inv_born_ids : List.NoDup (map fst (s_born s));
  inv_born_uids : List.NoDup (map snd (s_born s));
  inv_outbox : forall m, In m (s_outbox s) -> In (o_id m, o_uid m) (s_born s);
  inv_contents : forall m, In m (s_outbox s) -> In (o_id m, o_raw m) (s_contents s);
  inv_accepted : forall id, In id (accepted_ids s) -> In id (map fst (s_born s));
  inv_wire : forall h, In h (s_handed s) -> exists raw, In (ho_id h, raw) (s_contents s) /\ ho_raw h = stripBcc raw;
  inv_once : no_resend (s_handed s);
  inv_stamped : forall m, In m (s_outbox s) -> In (o_id m) (accepted_ids s) -> stamped m;
  inv_kept : forall id, In id (map fst (s_born s)) -> In id (map o_id (s_outbox s)) \/ accounted s id }.

Definition all_stamped (s : state) (id : Z) : Prop := forall m, In m (s_outbox s) -> o_id m = id -> stamped m.
(** What a step keeps that delivers nothing and clears no stamp *)
Record evolve (s s' : state) : Prop := {
  ev_inv : inv s -> inv s';
  ev_handed : s_handed s' = s_handed s;
  ev_born : incl (s_born s) (s_born s');
  ev_refused : incl (s_refused s) (s_refused s');
  ev_removed : incl (s_removed s) (s_removed s');
  ev_contents : incl (s_contents s) (s_contents s');
  ev_filed : incl (s_filed s) (s_filed s');
  ev_stamped : forall id, In id (map fst (s_born s)) -> all_stamped s id -> all_stamped s' id }.
#[global] Instance evolve_refl : Reflexive evolve.
Proof. intros s. constructor; try apply incl_refl; done. Qed.
Lemma in_born_mono (b b' : list (Z * Z)) id : incl b b' -> In id (map fst b) -> In id (map fst b').
Proof. intros Hi (x & E & Hx)%in_map_iff. apply in_map_iff. exists x. split; [done|by apply Hi]. Qed.
#[global] Instance evolve_trans : Transitive evolve.
Proof.
  intros s1 s2 s3 H1 H2. constructor; try (by eapply incl_tran; [apply H1|apply H2]).
  - intros H. by apply (ev_inv _ _ H2), (ev_inv _ _ H1).
  - rewrite (ev_handed _ _ H2). apply (ev_handed _ _ H1).
  - intros id Hb Ha. apply (ev_stamped _ _ H2); [eapply in_born_mono; [apply H1|done]|]. by apply (ev_stamped _ _ H1).
Qed.
Lemma accounted_mono s s' id : evolve s s' -> accounted s id -> accounted s' id.
Proof.
  intros H. unfold accounted, accepted_ids. rewrite (ev_handed _ _ H). intros [Ha|[Hr|[Hm|(raw & Hc & Hf)]]]; [by left| | |].
  - right. left. by apply (ev_refused _ _ H).
  - right. right. left. by apply (ev_removed _ _ H).
  - right. right. right. exists raw. split; [by apply (ev_contents _ _ H)|by apply (ev_filed _ _ H)].
Qed.

(** *** Steps that evolve *)

Lemma uid_id (b : list (Z * Z)) i i' u : List.NoDup (map snd b) -> In (i, u) b -> In (i', u) b -> i = i'.
Proof.
  induction b as [|[j v] b IH]; cbn; [done|]. intros Hn [[= <- <-]|H1] [[= <-]|H2]; inversion Hn; subst; [done| | |by apply IH].
  - by apply (in_map snd) in H2.
  - subst. by apply (in_map snd) in H1.
Qed.

(** The general case: an Outbox whose messages come from those of before, or are new *)
Lemma evolve_outbox s s' :
  s_handed s' = s_handed s -> incl (s_refused s) (s_refused s') -> s_born s' = s_born s -> incl (s_filed s) (s_filed s') -> incl (s_contents s) (s_contents s') -> incl (s_removed s) (s_removed s') ->
  (forall m', inv s -> In m' (s_outbox s') -> In (o_id m', o_raw m') (s_contents s')) ->
  (forall m', In m' (s_outbox s') -> exists m, In m (s_outbox s) /\ o_id m' = o_id m /\ o_uid m' = o_uid m /\ (stamped m -> stamped m')) ->
  (forall m, inv s -> In m (s_outbox s) -> In (o_id m) (map o_id (s_outbox s')) \/ accounted s' (o_id m)) ->
  evolve s s'.
Proof.
  intros Ea Er Eb Hf Hc Hm Hraw Hfrom Hto. assert (Hids : accepted_ids s' = accepted_ids s) by (unfold accepted_ids; by rewrite Ea).
  constructor; rewrite ?Eb; try done; try apply incl_refl.
  - intros HI. constructor; rewrite ?Eb, ?Hids; try apply HI.
    + intros m' Hm'. destruct (Hfrom m' Hm') as (m & Hi & -> & -> & _). by apply (inv_outbox _ HI).
    + intros m' Hm'. by apply Hraw.
    + rewrite Ea. intros h Hin. destruct (inv_wire _ HI h Hin) as (raw0 & H & E). exists raw0. split; [by apply Hc|done].
    + rewrite Ea. apply HI.
    + intros m' Hm' Hin. destruct (Hfrom m' Hm') as (m & Hi & E & _ & Hst). apply Hst, (inv_stamped _ HI); [done|]. by rewrite <- E.
    + intros id Hid. destruct (inv_kept _ HI id Hid) as [(m & <- & Hi)%in_map_iff|Hacc]; [by apply Hto|]. right.
      unfold accounted in *. rewrite Hids. destruct Hacc as [H|[H|[H|(raw & H1 & H2)]]]; [by left|right; left; by apply Er|right; right; left; by apply Hm|].
      right. right. right. exists raw. split; [by apply Hc|by apply Hf].
  - intros id _ Hst m' Hm' E. destruct (Hfrom m' Hm') as (m & Hi & E' & _ & H). apply H, Hst; [done|congruence].
Qed.
Lemma modify_evolves id f s :
  (forall m, o_id (f m) = o_id m /\ o_uid (f m) = o_uid m /\ o_raw (f m) = o_raw m) -> (forall m, stamped m -> stamped (f m)) -> evolve s (modify id f s).
Proof.
  intros Hf Hst. apply evolve_outbox; try done; try apply incl_refl; cbn [s_outbox modify set_outbox s_contents].
  - intros m' HI (m & <- & Hm)%in_map_iff. destruct (Hf m) as (E1 & _ & E3). case_match; [rewrite E1, E3|]; by apply (inv_contents _ HI).
  - intros m' (m & <- & Hm)%in_map_iff. exists m. destruct (Hf m) as (E1 & E2 & _). split; [done|]. case_match; [|done]. split; [done|]. split; [done|apply Hst].
  - intros m _ Hm. left. apply in_map_iff. exists (if o_id m =? id then f m else m). split; [case_match; [apply Hf|done]|]. by apply (in_map (fun m => if o_id m =? id then f m else m)).
Qed.
Lemma written_evolves eff s ok s' : written eff s ok s' -> evolve s (eff s) -> evolve s s'.
Proof. by intros [->|[_ ->]]. Qed.
Lemma file_evolves folder raw s : evolve s (file folder raw s).
Proof.
  apply evolve_outbox; try done; try apply incl_refl; cbn [s_outbox file s_contents s_filed].
  - apply incl_appl, incl_refl.
  - intros m' HI Hm. by apply (inv_contents _ HI).
  - intros m' Hm. by exists m'.
  - intros m _ Hm. left. by apply in_map.
Qed.
(** Somebody accounts for the message with that uid *)
Lemma remove_evolves id uid s : In (id, uid) (s_born s) -> accounted s id -> evolve s (remove_uid uid s).
Proof.
  intros Hb Hacc. apply evolve_outbox; try done; try apply incl_refl; cbn [s_outbox remove_uid set_outbox s_contents].
  - intros m' HI [Hm _]%filter_In. by apply (inv_contents _ HI).
  - intros m' [Hm _]%filter_In. by exists m'.
  - intros m HI Hm. destruct (Z.eqb_spec (o_uid m) uid) as [E|Hn].
    + right. enough (o_id m = id) as -> by done. pose proof (inv_outbox _ HI m Hm) as Hbm. rewrite E in Hbm. eapply uid_id; [apply HI|done|done].
    + left. apply in_map, filter_In. split; [done|]. by apply negb_true_iff, Z.eqb_neq.
Qed.
Lemma add_evolves s m : ~ In (o_id m) (map fst (s_born s)) -> ~ In (o_uid m) (map snd (s_born s)) ->
  evolve s (mkS (s_outbox s ++ [m]) (s_filed s) (s_handed s) (s_refused s) ((o_id m, o_uid m) :: s_born s) ((o_id m, o_raw m) :: s_contents s) (s_removed s)).
Proof.
  intros Hi Hu. constructor; cbn [s_handed s_born s_refused s_removed s_contents s_filed]; try done; try apply incl_refl; try apply incl_tl, incl_refl.
  - intros HI. constructor; cbn [s_outbox s_born s_contents map fst snd]; try apply HI.
    + constructor; [done|apply HI].
    + constructor; [done|apply HI].
    + intros x [Hx|[<-|[]]]%in_app_iff; [right; by apply (inv_outbox _ HI)|by left].
    + intros x [Hx|[<-|[]]]%in_app_iff; [right; by apply (inv_contents _ HI)|by left].
    + intros id Hid. right. by apply (inv_accepted _ HI).
    + intros h Hin. destruct (inv_wire _ HI h Hin) as (raw0 & H & E). exists raw0. split; [by right|done].
    + intros x [Hx|[<-|[]]]%in_app_iff Hacc; [by apply (inv_stamped _ HI)|]. destruct Hi. by apply (inv_accepted _ HI).
    + intros id [<-|Hid]; [left; rewrite map_app; apply in_app_iff; right; by left|]. destruct (inv_kept _ HI id Hid) as [H|H]; [left; rewrite map_app; apply in_app_iff; by left|right].
      destruct H as [H|[H|[H|(raw & H1 & H2)]]]; [by left|right; by left|right; right; by left|]. right. right. right. exists raw. split; [by right|done].
  - intros id Hid Hst x [Hx|[<-|[]]]%in_app_iff E; [by apply Hst|]. destruct Hi. by rewrite E.
Qed.
Lemma others_evolve s s' : others s s' -> evolve s s'.
Proof.
  intros [s0 m Hi Hu|s0 m Hm|s0 m m' Hm Ei Eu Hst]; [by apply add_evolves| |]; apply evolve_outbox; cbn [s_handed s_born s_refused s_removed s_contents s_filed s_outbox]; try done; try apply incl_refl; try apply incl_tl, incl_refl.
  - intros x HI [Hx _]%filter_In. by apply (inv_contents _ HI).
  - intros x [Hx _]%filter_In. by exists x.
  - intros x HI Hx. destruct (Z.eqb_spec (o_id x) (o_id m)) as [E|Hn]; [right; right; right; left; cbn; by left|left].
    apply in_map, filter_In. split; [done|]. by apply negb_true_iff, Z.eqb_neq.
  - intros x HI (y & <- & Hy)%in_map_iff. destruct (o_id y =? o_id m); [left; by rewrite Ei|right; by apply (inv_contents _ HI)].
  - intros x (y & <- & Hy)%in_map_iff. destruct (o_id y =? o_id m); [by exists m|by exists y].
  - intros x _ Hx. left. apply in_map_iff. exists (if o_id x =? o_id m then m' else x). split; [|by apply (in_map (fun x => if o_id x =? o_id m then m' else x))].
    destruct (Z.eqb_spec (o_id x) (o_id m)) as [->|]; done.
Qed.
Lemma all_others_evolve s s' : rtc others s s' -> evolve s s'.
Proof. induction 1 as [|s s1 s2 H1 _ IH]; [done|]. etrans; [by apply others_evolve|done]. Qed.
Lemma set_keeps_stamp props m : stamped m -> stamped (modify_props props [] m).
Proof.
  unfold stamped. cbn [modify_props set_props o_props]. intros Hst. generalize (o_props m), Hst. clear Hst. induction props as [|tv props IH]; intros pv Hst; cbn [foldl].
  - by rewrite (List.filter_ext _ (fun _ => true)), filter_true.
  - apply IH. rewrite pv_Get_Set. by destruct (_ =? _).
Qed.
Lemma set_evolves id props s : evolve s (modify id (modify_props props []) s).
Proof. apply modify_evolves; [done|]. intros m. apply set_keeps_stamp. Qed.

(** ** Programs *)

(** At every call the invariant holds, and at the end the postcondition *)
Fixpoint spec {A} (p : sprog A) (Q : A -> state -> Prop) (s : state) : Prop :=
  match p with
  | Ret a => Q a s
  | Call c k => forall s1 x s2, rtc others s s1 -> answers s1 c x s2 -> inv s2 /\ spec (k x) Q s2
  end.
Lemma spec_mono {A} (p : sprog A) (Q Q' : A -> state -> Prop) s : (forall a s, inv s -> Q a s -> Q' a s) -> inv s -> spec p Q s -> spec p Q' s.
Proof.
  intros HQ. revert s. induction p as [a|X c k IH]; intros s HI Hp; cbn [spec] in *; [by apply HQ|]. intros s1 x s2 Ho Ha. destruct (Hp s1 x s2 Ho Ha) as [H2 H3]. split; [done|by apply IH].
Qed.
Lemma spec_bind {A B} (p : sprog A) (f : A -> sprog B) Q s : spec p (fun a s => spec (f a) Q s) s -> spec (bind p f) Q s.
Proof. revert s. induction p as [a|X c k IH]; intros s Hp; cbn [spec bind] in *; [done|]. intros s1 x s2 Ho Ha. destruct (Hp s1 x s2 Ho Ha) as [H2 H3]. split; [done|by apply IH]. Qed.
Lemma cuts_inv {A} (p : sprog A) Q s s' : inv s -> spec p Q s -> cuts p s s' -> inv s'.
Proof.
  revert s. induction p as [a|X c k IH]; intros s HI Hp.
  - intros [Ho|[]]. by apply (ev_inv _ _ (all_others_evolve _ _ Ho)).
  - intros [Ho|(s1 & x & s2 & Ho & Ha & Hk)]; [by apply (ev_inv _ _ (all_others_evolve _ _ Ho))|]. destruct (Hp s1 x s2 Ho Ha) as [H2 H3]. by eapply IH.
Qed.
Lemma refuse_evolves id s : evolve s (refuse id s).
Proof.
  apply evolve_outbox; cbn [s_outbox refuse s_contents s_refused]; try done; try apply incl_refl; try apply incl_tl, incl_refl.
  - intros m' HI Hm. by apply (inv_contents _ HI).
  - intros m' Hm. by exists m'.
  - intros m _ Hm. left. by apply in_map.
Qed.
Lemma spec_call {A X} (c : scall X) (k : X -> sprog A) Q s :
  inv s -> (forall s1 x s2, evolve s s1 -> inv s1 -> answers s1 c x s2 -> evolve s1 s2) ->
  (forall s1 x s2, evolve s s1 -> inv s1 -> answers s1 c x s2 -> evolve s s2 -> inv s2 -> spec (k x) Q s2) -> spec (Call c k) Q s.
Proof.
  intros HI Hev Hk s1 x s2 Ho%all_others_evolve Ha. assert (H1 : inv s1) by (by apply (ev_inv _ _ Ho)). assert (E12 : evolve s1 s2) by (by eapply Hev).
  assert (H2 : inv s2) by (by apply (ev_inv _ _ E12)). split; [done|]. apply (Hk s1 x s2); try done. by etrans.
Qed.
(** Calls that change no message but by adding properties to it *)
Definition kind {X} (c : scall X) : bool :=
  match c with
  | SStore (CAppendMessage folder _ _ _) => negb (folder =? PrivateFIDOutbox)
  | SStore (CDeleteMessage _ _) | SModifyProps _ _ _ | SDeliver _ _ _ _ => false
  | _ => true
  end.
Lemma kind_evolves {X} (c : scall X) s x s' : kind c = true -> answers s c x s' -> evolve s s'.
Proof.
  destruct c as [X c| | | | | | |]; cbn [kind answers]; intros Hk Ha; try done; try (by destruct Ha as [-> _]); try by subst.
  destruct c; cbn [store_answers] in Ha; try done; try (by destruct Ha as [-> _]); try by subst.
  - eapply written_evolves; [exact Ha|apply set_evolves].
  - apply negb_true_iff in Hk. rewrite Hk in Ha. eapply written_evolves; [exact Ha|apply file_evolves].
Qed.
Lemma spec_kind {A X} (c : scall X) (k : X -> sprog A) Q s :
  kind c = true -> inv s -> (forall s1 x s2, evolve s s1 -> inv s1 -> answers s1 c x s2 -> evolve s s2 -> inv s2 -> spec (k x) Q s2) -> spec (Call c k) Q s.
Proof. intros Hk HI. apply spec_call; [done|]. intros s1 x s2 _ _. by apply kind_evolves. Qed.
(** Programs of such calls *)
Definition gentle {A} (p : sprog A) : Prop := forall s, inv s -> spec p (fun _ s' => evolve s s') s.
Lemma gentle_Ret {A} (a : A) : gentle (Ret a).
Proof. intros s _. cbn [spec]. reflexivity. Qed.
Lemma gentle_Call {A X} (c : scall X) (k : X -> sprog A) : kind c = true -> (forall x, gentle (k x)) -> gentle (Call c k).
Proof.
  intros Hc Hk s HI. apply spec_kind; [done|done|]. intros s1 x s2 _ _ _ E2 H2. eapply spec_mono; [|done|by apply (Hk x)]. intros a s3 _ E3. exact (evolve_trans _ _ _ E2 E3).
Qed.
Lemma gentle_bind {A B} (p : sprog A) (f : A -> sprog B) : gentle p -> (forall a, gentle (f a)) -> gentle (bind p f).
Proof.
  intros Hp Hf s HI. apply spec_bind. eapply spec_mono; [|done|by apply Hp]. intros a s1 H1 E1. eapply spec_mono; [|done|by apply Hf]. intros b s2 _ E2. exact (evolve_trans _ _ _ E1 E2).
Qed.
Ltac gentle := repeat first
  [ apply gentle_Ret
  | apply gentle_Call; [reflexivity|intros ?]
  | apply gentle_bind; [|intros ?]
  | match goal with |- gentle (match ?x with _ => _ end) => destruct x end ].
Lemma named_tag_spec name ty s : inv s -> spec (named_tag name ty) (fun r s' => evolve s s' /\ (forall t, r = Ok t -> t = tag_of name ty) /\ r <> Err []) s.
Proof.
  intros HI. apply spec_kind; [done|done|]. intros s1 x s2 _ _ [_ Ha] E2 _. cbn [spec]. split; [done|]. destruct x as [[|i l]|]; try done.
  destruct (Z.eqb_spec i 0) as [|Hn]; [done|]. split; [|done]. intros t [= <-]. destruct Ha as [Ha|[Ha|Ha]]; [done|by injection Ha|]. injection Ha as -> _. reflexivity.
Qed.
(** The stamp read: a message without it was not accepted *)
Lemma get_filter pv tag : pv_Get (List.filter (fun tv => tpTag tv =? tag) pv) tag = pv_Get pv tag.
Proof. induction pv as [|[t v] pv IH]; [done|]. cbn. destruct (Z.eqb_spec t tag) as [->|Hn]; cbn; [by rewrite Z.eqb_refl|done]. Qed.
Lemma started_spec id s : inv s -> spec (releaseStarted id) (fun r s' => evolve s s' /\ (r = Ok false -> ~ In id (accepted_ids s'))) s.
Proof.
  intros HI. apply spec_bind. eapply spec_mono; [|done|by apply named_tag_spec]. intros r s1 H1 (E1 & Ht & Hne). destruct r as [t|e]; [|by split].
  specialize (Ht t eq_refl) as ->. apply spec_kind; [done|done|]. intros s2 x s3 E2 H2 [-> Ha] E3 _. cbn [spec]. split; [by etrans|]. destruct x as [pv|]; [|done].
  destruct Ha as (m & Hm & <- & ->). rewrite get_filter. destruct (pv_Get (o_props m) _) eqn:Eg; [done|]. intros _ Hacc. by destruct (inv_stamped _ H2 m Hm Hacc).
Qed.
Lemma mark_spec id now s : inv s -> spec (markReleaseStarted id now) (fun e s' => evolve s s' /\ (e = [] -> all_stamped s' id)) s.
Proof.
  intros HI. apply spec_bind. eapply spec_mono; [|done|by apply named_tag_spec]. intros r s1 H1 (E1 & Ht & Hne). destruct r as [t|e]; [|split; [done|by intros ->]].
  specialize (Ht t eq_refl) as ->. apply spec_kind; [done|done|]. intros s2 ok s3 E2 H2 Ha E3 _. cbn [spec]. split; [by etrans|]. destruct ok; [|done]. intros _.
    destruct Ha as [->|[? _]]; [|done]. intros m' (m & <- & Hm)%in_map_iff E. assert (Em : o_id m = id) by (by destruct (o_id m =? id)). rewrite (proj2 (Z.eqb_eq _ _) Em).
    unfold stamped. cbn [modify_props set_props o_props foldl tpTag tpValue]. rewrite (List.filter_ext _ (fun _ => true)), filter_true by done. by rewrite pv_Get_Set, Z.eqb_refl.
Qed.
Lemma delete_evolves id uid s ok s' : In (id, uid) (s_born s) -> accounted s id -> answers s (SStore (CDeleteMessage PrivateFIDOutbox uid)) ok s' -> evolve s s'.
Proof. intros Hb Hacc Ha. eapply written_evolves; [exact Ha|by eapply remove_evolves]. Qed.
Lemma move_spec m s : inv s -> In (mi_ID m, mi_UID m) (s_born s) ->
  spec (store_MoveMessage PrivateFIDOutbox (mi_UID m) PrivateFIDDraft) (fun _ s' => evolve s s') s.
Proof.
  intros HI Hb. unfold store_MoveMessage, MoveMessage. cbn [lift]. apply spec_kind; [done|done|]. intros _ info s1 _ _ _ E1 H1. destruct info as [info|]; cbn [lift]; [|done].
  apply spec_kind; [done|done|]. intros s2 raw s3 E2 H2 [-> Ha] E3 H3. destruct raw as [raw|]; cbn [lift]; [|exact (evolve_trans _ _ _ E1 E3)].
  destruct (Ha eq_refl) as (m0 & Hm0 & Eu & ->). assert (E02 : evolve s s2) by (exact (evolve_trans _ _ _ E1 E3)).
  assert (Eid : o_id m0 = mi_ID m).
  { apply (uid_id (s_born s2) _ _ (mi_UID m)); [apply H3|rewrite <- Eu; by apply (inv_outbox _ H3)|by apply (ev_born _ _ E02)]. }
  apply spec_kind; [done|done|]. intros s4 made s5 E4 H4 Hw E5 H5. assert (E05 : evolve s s5) by (exact (evolve_trans _ _ _ E02 E5)). destruct made as [made|]; cbn [lift]; [|done].
  assert (Hf : In (PrivateFIDDraft, o_raw m0) (s_filed s5)) by (destruct Hw as [->|[? _]]; [apply in_app_iff; right; by left|done]).
  assert (Hc : In (mi_ID m, o_raw m0) (s_contents s5)) by (apply (ev_contents _ _ E5); rewrite <- Eid; by apply (inv_contents _ H3)).
  apply spec_call; [done| |].
  - intros s6 ok s7 E6 _ Hd. eapply delete_evolves; [apply (ev_born _ _ E6), (ev_born _ _ E05), Hb| |exact Hd]. right. right. right. exists (o_raw m0). split; [by apply (ev_contents _ _ E6)|by apply (ev_filed _ _ E6)].
  - intros s6 ok s7 _ _ _ E7 _. destruct ok; exact (evolve_trans _ _ _ E05 E7).
Qed.
Lemma collect_gentle outbox m : gentle (collectReport outbox m).
Proof. unfold collectReport. gentle. Qed.
Lemma hand_back_spec report m why s : inv s -> In (mi_ID m, mi_UID m) (s_born s) -> spec (hand_back report PrivateFIDOutbox m why) (fun _ s' => evolve s s') s.
Proof.
  intros HI Hb. apply spec_bind. eapply spec_mono; [|done|by apply collect_gentle]. intros [[raw rcpts] e] s1 H1 E1. apply spec_bind.
  eapply spec_mono; [|done|apply move_spec; [done|by apply (ev_born _ _ E1)]]. intros moved s2 H2 E2. assert (E02 : evolve s s2) by (exact (evolve_trans _ _ _ E1 E2)).
  destruct moved; [|done]. destruct raw; [|done]. destruct report; [|done]. apply spec_kind; [done|done|]. intros _ _ s3 _ _ _ E3 _. exact (evolve_trans _ _ _ E02 E3).
Qed.
Lemma named_gentle name ty : gentle (named_tag name ty).
Proof. unfold named_tag. gentle. Qed.
Lemma bump_gentle id : gentle (bumpReleaseAttempts id).
Proof. unfold bumpReleaseAttempts. apply gentle_bind; [apply named_gentle|intros]. gentle. Qed.
Lemma record_spec report m s : inv s -> In (mi_ID m, mi_UID m) (s_born s) -> spec (recordFailure report PrivateFIDOutbox m) (fun _ s' => evolve s s') s.
Proof.
  intros HI Hb. apply spec_bind. eapply spec_mono; [|done|by apply bump_gentle]. intros [n|e] s1 H1 E1; [|done]. destruct (n <? maxReleaseAttempts); [done|].
  eapply spec_mono; [|done|apply hand_back_spec; [done|by apply (ev_born _ _ E1)]]. intros a s2 _ E2. exact (evolve_trans _ _ _ E1 E2).
Qed.

(** *** Delivery *)

Lemma no_resend_add l h0 : no_resend l -> (forall h, In h l -> ho_id h = ho_id h0 -> ho_error h = true) -> no_resend (l ++ [h0]).
Proof.
  intros Hl H0 l1 h l2 h' l3 E Eid. destruct l3 as [|x l3 _] using rev_ind.
  - rewrite app_comm_cons, app_assoc in E. apply app_inj_tail in E as [-> ->]. apply H0; [|done]. apply in_app_iff. right. by left.
  - replace (l1 ++ h :: l2 ++ h' :: l3 ++ [x]) with ((l1 ++ h :: l2 ++ h' :: l3) ++ [x]) in E by (by rewrite <- !app_assoc; cbn; rewrite <- !app_assoc).
    apply app_inj_tail in E as [E _]. by apply (Hl _ _ _ _ _ E).
Qed.
Lemma hand_accepted h s x : In x (accepted_ids (hand h s)) <-> In x (accepted_ids s) \/ x = ho_id h /\ ho_error h = false.
Proof.
  unfold accepted_ids. cbn [hand s_handed]. rewrite List.filter_app, map_app, in_app_iff. cbn. destruct (ho_error h); cbn; intuition congruence.
Qed.
Lemma accepted_in h s : In h (s_handed s) -> ho_error h = false -> In (ho_id h) (accepted_ids s).
Proof. intros Hin E. unfold accepted_ids. apply in_map, filter_In. by rewrite E. Qed.
(** Handing over a stamped message whose acceptance was not answered before *)
Lemma hand_inv h raw s : inv s -> ~ In (ho_id h) (accepted_ids s) -> all_stamped s (ho_id h) -> In (ho_id h) (map fst (s_born s)) ->
  In (ho_id h, raw) (s_contents s) -> ho_raw h = stripBcc raw -> inv (hand h s).
Proof.
  intros HI Hn Hst Hb Hc Hr. constructor; cbn [hand s_born s_outbox s_contents]; try apply HI.
  - intros x [Hx|[-> _]]%hand_accepted; [by apply (inv_accepted _ HI)|done].
  - intros h' [Hx|[<-|[]]]%in_app_iff; [by apply (inv_wire _ HI) in Hx|by exists raw].
  - apply no_resend_add; [apply HI|]. intros h' Hh' E. destruct (ho_error h') eqn:Ee; [done|]. destruct Hn. rewrite <- E. by apply accepted_in.
  - intros m Hm [Hx|[E _]]%hand_accepted; [by apply (inv_stamped _ HI)|by apply Hst].
  - intros x Hx. destruct (inv_kept _ HI x Hx) as [H|[H|H]]; [by left|right; left; apply hand_accepted; by left|right; by right].
Qed.
Lemma clear_inv id tag s : inv s -> ~ In id (accepted_ids s) -> inv (modify id (modify_props [] [tag]) s).
Proof.
  intros HI Hn. assert (Hin : forall m', In m' (s_outbox (modify id (modify_props [] [tag]) s)) -> exists m, In m (s_outbox s) /\ o_id m' = o_id m /\ o_uid m' = o_uid m /\ o_raw m' = o_raw m /\ (m' = m \/ o_id m = id)).
  { intros m' (m & <- & Hm)%in_map_iff. exists m. destruct (Z.eqb_spec (o_id m) id); by auto 6. }
  constructor; cbn [modify set_outbox s_born s_contents]; try apply HI.
  - intros m' (m & Hm & -> & -> & _)%Hin. by apply (inv_outbox _ HI).
  - intros m' (m & Hm & -> & _ & -> & _)%Hin. by apply (inv_contents _ HI).
  - intros m' (m & Hm & E & _ & _ & [->|Ei])%Hin Hacc; [by apply (inv_stamped _ HI)|]. destruct Hn. by rewrite <- Ei, <- E.
  - intros x Hx. destruct (inv_kept _ HI x Hx) as [(m & <- & Hm)%in_map_iff|H]; [left|by right]. apply in_map_iff. exists (if o_id m =? id then modify_props [] [tag] m else m).
    split; [by destruct (o_id m =? id)|]. by apply (in_map (fun m => if o_id m =? id then modify_props [] [tag] m else m)).
Qed.
(** What is known of a message after its release: the invariant and who it is *)
Definition settled (m : MessageInfo) (s : state) : Prop := inv s /\ In (mi_ID m, mi_UID m) (s_born s).
Lemma evolve_settled m s s' : settled m s -> evolve s s' -> settled m s'.
Proof. intros [HI Hb] E. split; [by apply (ev_inv _ _ E)|by apply (ev_born _ _ E)]. Qed.
Lemma clear_spec id s : inv s -> ~ In id (accepted_ids s) ->
  spec (clearReleaseStarted id) (fun _ s' => inv s' /\ incl (s_born s) (s_born s') /\ incl (s_refused s) (s_refused s')) s.
Proof.
  intros HI Hn. apply spec_bind. eapply spec_mono; [|done|by apply named_gentle]. intros [t|e] s1 H1 E1; [|split; [done|]; split; [apply E1|apply E1]].
  intros s2 ok s3 Ho%all_others_evolve Ha. assert (E02 : evolve s s2) by (exact (evolve_trans _ _ _ E1 Ho)). assert (H2 : inv s2) by (by apply (ev_inv _ _ E02)).
  assert (Hn2 : ~ In id (accepted_ids s2)) by (unfold accepted_ids; by rewrite (ev_handed _ _ E02)).
  assert (H3 : inv s3 /\ s_born s3 = s_born s2 /\ s_refused s3 = s_refused s2) by (destruct Ha as [->|[_ ->]]; [split; [by apply clear_inv|done]|done]).
  destruct H3 as (H3 & Eb & Er). split; [done|]. cbn [spec]. split; [done|]. rewrite Eb, Er. split; [apply E02|apply E02].
Qed.
Lemma failed_spec m f s : settled m s -> ~ In (mi_ID m) (accepted_ids s) -> (df_terminal f = true -> In (mi_ID m) (s_refused s)) ->
  spec (releaseFailed PrivateFIDOutbox m f) (fun _ s' => settled m s') s.
Proof.
  intros [HI Hb] Hn Ht. apply spec_bind. eapply spec_mono; [|done|by apply clear_spec]. intros e s1 H1 (_ & Eb & Er). assert (Hb1 : In (mi_ID m, mi_UID m) (s_born s1)) by (by apply Eb).
  destruct e; [|done]. destruct (df_terminal f) eqn:Ef; [|done]. cbn [negb]. apply spec_call; [done| |].
  - intros s2 ok s3 E2 _ Hd. eapply delete_evolves; [by apply (ev_born _ _ E2)| |exact Hd]. right. left. apply (ev_refused _ _ E2), Er. by apply Ht.
  - intros s2 ok s3 _ _ _ E3 H3. destruct ok; (split; [done|by apply (ev_born _ _ E3)]).
Qed.
Lemma fileToSent_gentle raw now : gentle (fileToSent raw now).
Proof. unfold fileToSent. gentle. Qed.
Lemma accepted_spec m (keepOwnCopy : bool) raw now s : settled m s -> In (mi_ID m) (accepted_ids s) ->
  spec (bind (if keepOwnCopy then fileToSent raw now else Ret []) (fun fileErr =>
    Call (SStore (CDeleteMessage PrivateFIDOutbox (mi_UID m))) (fun ok : bool =>
      if negb ok then Ret (false, fileErr ++ [EStore]) else Ret (true, match fileErr with [] => [] | _ => ENotFiled :: fileErr end)))) (fun _ s' => settled m s') s.
Proof.
  intros [HI Hb] Hacc. assert (Hg : gentle (if keepOwnCopy then fileToSent raw now else Ret [])) by (destruct keepOwnCopy; [apply fileToSent_gentle|apply gentle_Ret]).
  apply spec_bind. eapply spec_mono; [|done|by apply Hg]. intros e s1 H1 E1. apply spec_call; [done| |].
  - intros s2 ok s3 E2 _ Hd. eapply delete_evolves; [by apply (ev_born _ _ E2), (ev_born _ _ E1)| |exact Hd]. left. unfold accepted_ids. by rewrite (ev_handed _ _ E2), (ev_handed _ _ E1).
  - intros s2 ok s3 _ _ _ E3 H3. destruct ok; (split; [done|by apply (ev_born _ _ E3), (ev_born _ _ E1)]).
Qed.
Lemma release_spec m now s : settled m s -> ~ In (mi_ID m) (accepted_ids s) -> spec (releaseMessage PrivateFIDOutbox m now) (fun _ s' => settled m s') s.
Proof.
  intros Hs Hn. pose proof Hs as [HI _]. apply spec_kind; [done|done|]. intros _ full s1 _ _ _ E1 H1. pose proof (evolve_settled _ _ _ Hs E1) as Hs1. destruct full as [full|]; [|done].
  apply spec_kind; [done|done|]. intros s1' raw s2 _ _ [-> Hraw] E2 H2. pose proof (evolve_settled _ _ _ Hs1 E2) as Hs2. destruct raw as [raw|]; [|done].
  assert (Hc2 : In (mi_ID m, raw) (s_contents s1')).
  { destruct (Hraw eq_refl) as (m0 & Hm0 & Eu & ->). assert (o_id m0 = mi_ID m) as <-; [|by apply (inv_contents _ H2)].
    apply (uid_id (s_born s1') _ _ (mi_UID m)); [apply H2|rewrite <- Eu; by apply (inv_outbox _ H2)|apply Hs2]. }
  apply spec_bind. eapply spec_mono; [|done|by apply mark_spec]. intros e s3 H3 [E3 Hst]. pose proof (evolve_settled _ _ _ Hs2 E3) as Hs3. destruct e; [|done]. specialize (Hst eq_refl).
  intros s4 d s5 Ho%all_others_evolve Hd. pose proof (evolve_settled _ _ _ Hs3 Ho) as Hs4. destruct Hs4 as [H4 Hb4].
  assert (Hn4 : ~ In (mi_ID m) (accepted_ids s4)) by (unfold accepted_ids; by rewrite (ev_handed _ _ Ho), (ev_handed _ _ E3), (ev_handed _ _ E2), (ev_handed _ _ E1)).
  assert (Hhand : forall reached error, inv (hand (mkHandover (mi_ID m) (recipientAddrs full) (stripBcc raw) reached error) s4)).
  { intros reached error. eapply hand_inv; [done|done| |by apply (in_map fst) in Hb4|apply (ev_contents _ _ Ho), (ev_contents _ _ E3), Hc2|done].
    apply (ev_stamped _ _ Ho); [|done]. exact (in_map fst _ _ (proj2 Hs3)). }
  cbn [answers] in Hd. destruct d as [keep|f].
  - subst s5. split; [apply Hhand|]. apply accepted_spec; [by split|]. apply hand_accepted. by right.
  - destruct Hd as (reached & _ & ->). cbv zeta. set (s5 := hand _ s4). assert (H5 : inv s5) by apply Hhand.
    assert (Hn5 : ~ In (mi_ID m) (accepted_ids s5)) by (intros [?|[_ ?]]%hand_accepted; done).
    assert (E5 : evolve s5 (if df_terminal f then refuse (mi_ID m) s5 else s5)) by (destruct (df_terminal f); [apply refuse_evolves|done]).
    split; [by apply (ev_inv _ _ E5)|]. apply failed_spec; [apply (evolve_settled m s5); [by split|done]|by destruct (df_terminal f)|]. intros ->. by left.
Qed.
Lemma process_spec report m now stats s : settled m s -> spec (processDueMessage report PrivateFIDOutbox m now stats) (fun _ s' => inv s') s.
Proof.
  intros Hs. pose proof Hs as [HI _]. apply spec_bind. eapply spec_mono; [|done|by apply started_spec]. intros r s1 H1 [E1 Hr]. pose proof (evolve_settled _ _ _ Hs E1) as Hs1. destruct r as [[|]|e]; [| |done].
  - apply spec_bind. eapply spec_mono; [|done|apply hand_back_spec; [done|apply Hs1]]. by intros e s2 H2 _.
  - apply spec_bind. eapply spec_mono; [|done|apply release_spec; [done|by apply Hr]]. intros [done errs] s2 H2 Hs2. destruct done; [exact H2|].
    apply spec_bind. eapply spec_mono; [|exact H2|apply record_spec; [exact H2|apply Hs2]]. by intros e s3 H3 _.
Qed.
Lemma countWaiting_gentle stats id : gentle (countWaiting stats id).
Proof. unfold countWaiting, releaseAttempts. apply gentle_bind; [|intros; apply gentle_Ret]. apply gentle_bind; [apply named_gentle|intros]. gentle. Qed.
Lemma due_gentle id now : gentle (deferredSendDue id now).
Proof. unfold deferredSendDue. gentle. Qed.
Lemma born_grows {X} (c : scall X) s x s' : answers s c x s' -> incl (s_born s) (s_born s').
Proof.
  assert (Hw : forall eff ok t t', (s_born (eff t) = s_born t) -> written eff t ok t' -> incl (s_born t) (s_born t')) by (intros eff ok t t' E [->|[_ ->]]; rewrite ?E; apply incl_refl).
  destruct c as [X c| | | |? ?| | |]; cbn [answers]; intros Ha; try (destruct Ha as [-> _]; apply incl_refl); try (subst; apply incl_refl); try (by eapply Hw; [|exact Ha]).
  - destruct c; cbn [store_answers] in Ha; try (destruct Ha as [-> _]; apply incl_refl); try (subst; apply incl_refl); try (by eapply Hw; [|exact Ha]).
    + case_match; [apply (ev_born _ _ (others_evolve _ _ Ha))|by eapply Hw; [|exact Ha]].
    + case_match; [by eapply Hw; [|exact Ha]|subst; apply incl_refl].
  - destruct x as [|f]; [subst; apply incl_refl|]. destruct Ha as (reached & _ & ->). cbv zeta. destruct (df_terminal f); apply incl_refl.
Qed.
Lemma spec_born {A} (p : sprog A) Q s : spec p Q s -> spec p (fun a s' => Q a s' /\ incl (s_born s) (s_born s')) s.
Proof.
  intros Hp. assert (Hb : incl (s_born s) (s_born s)) by apply incl_refl. revert Hb Hp. generalize (s_born s) at 1 3. revert s. induction p as [a|X c k IH]; intros s b Hb Hp; cbn [spec] in *; [done|].
  intros s1 x s2 Ho Ha. destruct (Hp s1 x s2 Ho Ha) as [H2 Hk]. split; [done|]. apply IH; [|done]. eapply incl_tran; [exact Hb|]. eapply incl_tran; [apply (ev_born _ _ (all_others_evolve _ _ Ho))|by eapply born_grows].
Qed.
Lemma sweep_spec report msgs now stats errs s : inv s -> (forall m, In m msgs -> settled m s) -> spec (sweep report PrivateFIDOutbox msgs now stats errs) (fun _ s' => inv s') s.
Proof.
  revert stats errs s. induction msgs as [|m msgs IH]; intros stats errs s HI Hms; [done|]. cbn [sweep].
  apply spec_kind; [done|done|]. intros _ cancelled s1 _ _ _ E1 H1. destruct cancelled; [done|].
  apply spec_bind. eapply spec_mono; [|done|by apply due_gentle]. intros r s2 H2 E2. assert (E02 : evolve s s2) by (exact (evolve_trans _ _ _ E1 E2)).
  assert (Hrest : forall x s3, incl (s_born s2) (s_born s3) -> inv s3 -> In x msgs -> settled x s3).
  { intros x s3 Hi H3 Hx. split; [done|]. apply Hi, (ev_born _ _ E02), (Hms x (or_intror Hx)). }
  destruct r as [[due scheduled]|e]; [|apply IH; [done|intros x; apply Hrest; [apply incl_refl|done]]].
  destruct scheduled; cbn [negb]; [|apply IH; [done|intros x; apply Hrest; [apply incl_refl|done]]].
  destruct due; cbn [negb]; apply spec_bind.
  - eapply spec_mono; [|done|apply spec_born, process_spec; split; [done|]; apply (ev_born _ _ E02), (Hms m (or_introl eq_refl))].
    intros [st e] s3 H3 [_ Hb]. apply IH; [done|]. intros x. by apply Hrest.
  - eapply spec_mono; [|done|by apply countWaiting_gentle]. intros st s3 H3 E3. apply IH; [done|]. intros x. apply Hrest; [apply E3|done].
Qed.
Lemma start_inv : inv (mkS [] [] [] [] [] [] []).
Proof. constructor; cbn; try done; [constructor|constructor|]. by intros [] ? ? ? ? [=]. Qed.
Lemma reachable_inv s : reachable s -> inv s.
Proof.
  induction 1 as [|s s' report now _ HI Hc]; [apply start_inv|]. apply (cuts_inv _ (fun _ s' => inv s') _ _ HI) in Hc; [done|]. unfold ProcessDueOutboxStats. cbv zeta.
  apply spec_kind; [done|done|]. intros s1 msgs s2 _ _ [-> Ha] E2 H2. destruct msgs as [msgs|]; [|exact H2]. apply sweep_spec; [done|]. intros m Hm. split; [done|].
  specialize (Ha eq_refl). apply (in_map (fun i => (mi_ID i, mi_UID i))) in Hm. rewrite Ha in Hm. apply in_map_iff in Hm as (m0 & <- & Hm0). by apply (inv_outbox _ H2).
Qed.

(** C24. Scheduled mail is not sent again once it was accepted, and never lost: whatever calls fail,
    with or without their effect, wherever sweeps are cut off and whatever other processes do with
    the Outbox, of two hand-overs of one message to delivery the earlier ended in an error (which
    does not exclude that some recipients got it, see [failed_delivery_repeated]); and each message
    ever put in the Outbox is still there, or was accepted, refused for good, taken out by somebody
    else, or its bytes are in the Drafts folder. *)
Theorem scheduled_mail_safe s : reachable s ->
  no_resend (s_handed s) /\ forall id, In id (map fst (s_born s)) -> In id (map o_id (s_outbox s)) \/ accounted s id.
Proof. intros HI%reachable_inv. split; [apply (inv_once _ HI)|apply (inv_kept _ HI)]. Qed.
End semantics.

(** ** The Bcc field *)

(** *** Header fields

    A line that begins with a blank belongs to the field of the line before it. *)
Definition folded (line : bytes) : bool := match line with b :: _ => (b =? 32) || (b =? 9) | [] => false end.
Fixpoint fields (lines : list bytes) : list (list bytes) :=
  match lines with
  | [] => []
  | l :: lines => match fields lines with (m :: f) :: fs => if folded m then (l :: m :: f) :: fs else [l] :: (m :: f) :: fs | _ => [[l]] end
  end.
(** A line that names the Bcc field before its first colon *)
Definition bcc_named (line : bytes) : Prop :=
  exists name rest, line = name ++ 58 :: rest /\ ~ In 58 name /\ EqualFold (TrimSpace name) (lit "Bcc") = true.
(** What stays of a field: of a Bcc field nothing, its folded lines included; of another one all of
    it, or, when a folded line reads like a Bcc field, what is before that line *)
Inductive field_kept : list bytes -> list bytes -> Prop :=
| kept_bcc l folds : bcc_named l -> field_kept (l :: folds) []
| kept_whole l folds : ~ bcc_named l -> List.Forall (fun x => ~ bcc_named x) folds -> field_kept (l :: folds) (l :: folds)
| kept_cut l folds x folds' : ~ bcc_named l -> List.Forall (fun x => ~ bcc_named x) folds -> bcc_named x -> field_kept (l :: folds ++ x :: folds') (l :: folds).

Lemma cut_colon line : existsb (Z.eqb 58) line = true -> exists rest, line = (Cut line 58).1 ++ 58 :: rest /\ ~ In 58 (Cut line 58).1.
Proof.
  induction line as [|b line IH]; [done|]. cbn [existsb Cut]. destruct (Z.eqb_spec b 58) as [->|Hn]; [intros _; exists line; split; [done|by intros []]|].
  rewrite (proj2 (Z.eqb_neq 58 b)) by congruence. cbn [orb]. intros H. destruct (IH H) as (rest & E & Hi). destruct (Cut line 58) as [u v]. cbn [fst] in *. exists rest.
  split; [by rewrite E at 1|]. by intros [?|?].
Qed.
Lemma cut_name name rest : ~ In 58 name -> (Cut (name ++ 58 :: rest) 58).1 = name.
Proof.
  induction name as [|b name IH]; intros Hi; [done|]. cbn [app Cut]. destruct (Z.eqb_spec b 58) as [->|Hn]; [destruct Hi; by left|].
  destruct (Cut (name ++ 58 :: rest) 58) as [u v]. cbn [fst] in *. f_equal. apply IH. intros H. apply Hi. by right.
Qed.
Lemma isBccField_spec line : isBccField line = true <-> bcc_named line.
Proof.
  unfold isBccField. split.
  - destruct (existsb _ line) eqn:E; [|done]. intros H. destruct (cut_colon line E) as (rest & El & Hi). by exists (Cut line 58).1, rest.
  - intros (name & rest & -> & Hi & H). replace (existsb (Z.eqb 58) (name ++ 58 :: rest)) with true; [by rewrite cut_name|].
    symmetry. rewrite existsb_app. cbn. apply orb_true_r.
Qed.
Lemma isBccField_not line : isBccField line = false <-> ~ bcc_named line.
Proof. rewrite <- isBccField_spec. by destruct (isBccField line). Qed.

Lemma fields_split lines : lines <> [] -> exists l folds rest, lines = l :: folds ++ rest /\ List.Forall (fun x => folded x = true) folds
  /\ (match rest with x :: _ => folded x = false | [] => True end) /\ fields lines = (l :: folds) :: fields rest.
Proof.
  induction lines as [|l lines IH]; [done|]. intros _. destruct lines as [|m lines]; [by exists l, [], []|].
  destruct IH as (m' & folds & rest & E & Hf & Hr & Ef); [done|]. injection E as <- ->. change (fields (l :: m :: folds ++ rest)) with
    (match fields (m :: folds ++ rest) with (m :: f) :: fs => if folded m then (l :: m :: f) :: fs else [l] :: (m :: f) :: fs | _ => [[l]] end).
  rewrite Ef. destruct (folded m) eqn:Em; [by exists l, (m :: folds), rest; split_and!; [|constructor|..]|].
  exists l, [], (m :: folds ++ rest). split_and!; [done|constructor|done|]. by rewrite Ef.
Qed.
Lemma dropped_folds folds rest : List.Forall (fun x => folded x = true) folds -> match rest with x :: _ => folded x = false | [] => True end ->
  kept_lines true (folds ++ rest) = kept_lines false rest.
Proof.
  induction 1 as [|x folds Hx _ IH]; intros Hr; cbn [app].
  - destruct rest as [|y rest]; [done|]. cbn [kept_lines]. change (match y with b :: _ => (b =? 32) || (b =? 9) | [] => false end) with (folded y). by rewrite Hr.
  - cbn [kept_lines]. change (match x with b :: _ => (b =? 32) || (b =? 9) | [] => false end) with (folded x). rewrite Hx. by apply IH.
Qed.
Lemma kept_folds folds rest : List.Forall (fun x => folded x = true) folds -> match rest with x :: _ => folded x = false | [] => True end ->
  (List.Forall (fun x => ~ bcc_named x) folds /\ kept_lines false (folds ++ rest) = folds ++ kept_lines false rest)
  \/ exists a x b, folds = a ++ x :: b /\ List.Forall (fun x => ~ bcc_named x) a /\ bcc_named x /\ kept_lines false (folds ++ rest) = a ++ kept_lines false rest.
Proof.
  induction 1 as [|x folds Hx Hf IH]; intros Hr; [by left|]. cbn [app kept_lines andb]. destruct (isBccField x) eqn:Eb.
  - right. exists [], x, folds. rewrite dropped_folds by done. split_and!; [done|constructor|by apply isBccField_spec|done].
  - apply isBccField_not in Eb. destruct (IH Hr) as [[H ->]|(a & y & b & -> & Ha & Hy & ->)]; [left; split; [by constructor|done]|right].
    exists (x :: a), y, b. split_and!; [done|by constructor|done|done].
Qed.
Lemma kept_fields lines : exists parts, List.Forall2 field_kept (fields lines) parts /\ kept_lines false lines = concat parts.
Proof.
  induction lines as [lines IH] using (induction_ltof1 _ (@length bytes)). unfold ltof in IH. destruct (decide (lines = [])) as [->|Hne]; [by exists []|].
  destruct (fields_split lines Hne) as (l & folds & rest & -> & Hf & Hr & ->). destruct (IH rest) as (parts & Hp & Ep); [cbn; rewrite length_app; lia|].
  assert (K : exists part, field_kept (l :: folds) part /\ kept_lines false (l :: folds ++ rest) = part ++ kept_lines false rest).
  { cbn [kept_lines andb]. destruct (isBccField l) eqn:El; [exists []; rewrite dropped_folds by done; split; [by constructor; apply isBccField_spec|done]|]. apply isBccField_not in El.
    destruct (kept_folds folds rest Hf Hr) as [[H ->]|(a & y & b & -> & Ha & Hy & ->)]; [exists (l :: folds)|exists (l :: a)]; (split; [by constructor|done]). }
  destruct K as (part & Hk & ->). exists (part :: parts). split; [by constructor|]. cbn [concat]. by rewrite Ep.
Qed.

(** The header and the body of a message: the first empty line is between them. *)
Definition splits (raw header body : bytes) : Prop := raw = header ++ crlf ++ crlf ++ body /\ Index raw (crlf ++ crlf) = Some (length header).
(** The delivered form of a message: without its Bcc fields, field by field *)
Definition blinded (raw wire : bytes) : Prop :=
  (Index raw (crlf ++ crlf) = None -> wire = raw)
  /\ forall header body, splits raw header body ->
     exists parts, List.Forall2 field_kept (fields (split_crlf header)) parts /\ wire = Join (concat parts) crlf ++ crlf ++ crlf ++ body.
Lemma stripBcc_blinded raw : blinded raw (stripBcc raw).
Proof.
  unfold stripBcc. split; [by intros ->|]. intros header body [E ->]. destruct (kept_fields (split_crlf header)) as (parts & Hp & Ek). exists parts. split; [done|].
  rewrite E, take_app_length, drop_app_length, Ek. done.
Qed.

(** C26. A blind copy stays blind: whatever is handed to delivery of a scheduled message is the message
    without its Bcc fields.  Every field of the header named Bcc (in any case, with blanks around
    the name) is gone with all its folded lines; every other field is there whole, in order, unless
    one of its folded lines reads like a Bcc field, which cuts the field there; and the body is the
    message's own.  A message without the empty line that ends a header is handed over as it is. *)
Theorem bcc_never_sent named s h : reachable named s -> In h (s_handed s) ->
  exists raw, In (ho_id h, raw) (s_contents s) /\ blinded raw (ho_raw h).
Proof. intros HI%reachable_inv Hin. destruct (inv_wire _ _ HI h Hin) as (raw & Hc & ->). exists raw. split; [done|apply stripBcc_blinded]. Qed.

(** ** A store that works *)

Section serve.
(** [keep] tells for which messages delivery lets the sender keep a copy. *)
Context (named : PropertyName -> Z) (keep : Z -> bool).

Definition fresh (l : list Z) : Z := 1 + foldr Z.max 0 l.
Definition find_id (s : state) (id : Z) : option omsg := List.find (fun m => o_id m =? id) (s_outbox s).
Definition find_uid (s : state) (uid : Z) : option omsg := List.find (fun m => o_uid m =? uid) (s_outbox s).
Definition info_of (m : omsg) : MessageInfo := mkInfo (o_id m) (o_uid m) (len (o_raw m)) 0 0.
Definition add_message (m : omsg) (s : state) : state :=
  mkS (s_outbox s ++ [m]) (s_filed s) (s_handed s) (s_refused s) ((o_id m, o_uid m) :: s_born s) ((o_id m, o_raw m) :: s_contents s) (s_removed s).
Definition serve_store (s : state) {X} (c : call X) : X * state :=
  match c in call X return X * state with
  | CListRules _ | COOFActive _ | CGetMessageProperties _ | CMessageFlags _ _ => (None, s)
  | CSetMessageFlags _ _ _ => (false, s)
  | CListMessages folder => (Some (if folder =? PrivateFIDOutbox then map info_of (s_outbox s) else []), s)
  | CSetMessageProperties id pv => (true, modify id (modify_props pv []) s)
  | CMessageByUID folder uid => (if folder =? PrivateFIDOutbox then info_of <$> find_uid s uid else None, s)
  | CGetMessageRaw folder uid => (if folder =? PrivateFIDOutbox then o_raw <$> find_uid s uid else None, s)
  | CAppendMessage folder raw date flags =>
      let m := mkO (fresh (map fst (s_born s))) (fresh (map snd (s_born s))) raw [] [] in
      (Some (info_of m), if folder =? PrivateFIDOutbox then add_message m s else file folder raw s)
  | CDeleteMessage folder uid => (true, if folder =? PrivateFIDOutbox then remove_uid uid s else s)
  end.
(** Delivery accepts, and nothing is cancelled *)
Definition serve (s : state) {X} (c : scall X) : X * state :=
  match c in scall X return X * state with
  | SStore c => serve_store s c
  | SGetNamedPropIDs create names => (Some (map named names), s)
  | SGetProps id tag => ((fun m => List.filter (fun tv => tpTag tv =? tag) (o_props m)) <$> find_id s id, s)
  | SModifyProps id props deletes => (true, modify id (modify_props props deletes) s)
  | SOpenMessage id => (o_recipients <$> find_id s id, s)
  | SCancelled => (false, s)
  | SDeliver id rcpts raw when => (Ok (keep id), hand (mkHandover id rcpts raw rcpts false) s)
  | SReport id raw rcpts => (tt, s)
  end.
Fixpoint run_prog {A} (p : sprog A) (s : state) : A * state :=
  match p with Ret a => (a, s) | Call c k => let r := serve s c in run_prog (k r.1) r.2 end.
Lemma fresh_new l : ~ In (fresh l) l.
Proof. enough (H : forall x, In x l -> x < fresh l) by (intros Hi; specialize (H _ Hi); lia). intros x. unfold fresh. induction l as [|y l IH]; [done|]. cbn. intros [->|Hx]; [lia|]. specialize (IH Hx). lia. Qed.
Lemma serve_answers s {X} (c : scall X) : answers named s c (serve s c).1 (serve s c).2.
Proof.
  assert (Hfind : forall f m, List.find f (s_outbox s) = Some m -> In m (s_outbox s) /\ f m = true) by (intros; by apply find_some).
  destruct c as [X c| | | | | | |]; cbn [serve answers fst snd]; try done; try (by left); try (split; [done|]).
  - destruct c; cbn [serve_store store_answers fst snd]; try done; try (by left); try (split; [done|]).
    + intros ->. rewrite Z.eqb_refl, map_map. done.
    + destruct (folder =? PrivateFIDOutbox); [|done]. unfold find_uid. destruct (List.find _ _) as [m|] eqn:E; [|done]. intros _. apply Hfind in E as [Hi E%Z.eqb_eq]. by exists m.
    + destruct (folder =? PrivateFIDOutbox); [|done]. unfold find_uid. destruct (List.find _ _) as [m|] eqn:E; [|done]. intros _. apply Hfind in E as [Hi E%Z.eqb_eq]. by exists m.
    + case_match; [|by left]. apply others_add; apply fresh_new.
    + case_match; [by left|done].
  - right. by right.
  - unfold find_id. destruct (List.find _ _) as [m|] eqn:E; [|done]. apply Hfind in E as [Hi E%Z.eqb_eq]. by exists m.
  - unfold find_id. destruct (List.find _ _) as [m|] eqn:E; [|done]. apply Hfind in E as [Hi E%Z.eqb_eq]. by exists m.
Qed.
Lemma run_cuts {A} (p : sprog A) s : cuts named p s (run_prog p s).2.
Proof. revert s. induction p as [a|X c k IH]; intros s; cbn [run_prog cuts]; [by left|]. right. exists s, (serve s c).1, (serve s c).2. split; [done|]. split; [apply serve_answers|apply IH]. Qed.
Lemma run_prog_bind {A B} (p : sprog A) (f : A -> sprog B) s : run_prog (bind p f) s = run_prog (f (run_prog p s).1) (run_prog p s).2.
Proof. revert s. induction p as [a|X c k IH]; intros s; cbn [run_prog bind]; [done|]. apply IH. Qed.

(** *** A message that is due *)

Definition due_at (now : Z) (m : omsg) : bool := match pv_Get (o_props m) PrDeferredSendTime with Some (AUint64 nt) => unix_nano (NTTimeToUnix nt) <=? now | _ => false end.
(** Whether a release of the message was begun before *)
Definition begun (m : omsg) : bool := match pv_Get (o_props m) (started_tag named) with Some _ => true | None => false end.
Definition handed (m : omsg) : list handover :=
  if begun m then [] else [mkHandover (o_id m) (recipientAddrs (o_recipients m)) (stripBcc (o_raw m)) (recipientAddrs (o_recipients m)) false].
Definition filed (m : omsg) : list (Z * bytes) :=
  if begun m then [(PrivateFIDDraft, o_raw m)] else if keep (o_id m) then [(PrivateFIDSentItems, o_raw m)] else [].
(** The Outbox and the messages that have left it *)
Definition released (s : state) (left gone : list omsg) : state :=
  mkS left (s_filed s ++ flat_map filed gone) (s_handed s ++ flat_map handed gone) (s_refused s) (s_born s) (s_contents s) (s_removed s).
Definition distinct (l : list omsg) : Prop := List.NoDup (map o_id l) /\ List.NoDup (map o_uid l).
Lemma find_middle {A} (f : A -> Z) l m k : List.NoDup (map f (l ++ m :: k)) -> List.find (fun x => f x =? f m) (l ++ m :: k) = Some m.
Proof.
  induction l as [|x l IH]; intros Hn; cbn; [by rewrite Z.eqb_refl|]. inversion Hn as [|? ? Hx Hn']; subst. destruct (Z.eqb_spec (f x) (f m)) as [E|_]; [|by apply IH].
  destruct Hx. rewrite E. apply in_map, in_app_iff. right. by left.
Qed.
Lemma map_middle {A} (f : A -> Z) (g : A -> A) l m k : List.NoDup (map f (l ++ m :: k)) -> map (fun x => if f x =? f m then g x else x) (l ++ m :: k) = l ++ g m :: k.
Proof.
  intros Hn. rewrite map_app in *. cbn [map] in *. rewrite Z.eqb_refl. assert (Hid : forall r, (forall x, In x r -> f x <> f m) -> map (fun x => if f x =? f m then g x else x) r = r).
  { intros r Hr. rewrite <- (map_id r) at 2. apply map_ext_in. intros x Hx. by rewrite (proj2 (Z.eqb_neq _ _) (Hr x Hx)). }
  apply NoDup_remove_2 in Hn. f_equal; [|f_equal]; apply Hid; intros x Hx E; apply Hn; apply in_app_iff; [left|right]; rewrite <- E; by apply in_map.
Qed.
Lemma filter_middle {A} (f : A -> Z) l m m' k : f m' = f m -> List.NoDup (map f (l ++ m :: k)) -> List.filter (fun x => negb (f x =? f m)) (l ++ m' :: k) = l ++ k.
Proof.
  intros Em Hn. rewrite map_app in Hn. cbn [map] in Hn. apply NoDup_remove_2 in Hn. rewrite List.filter_app. cbn [List.filter]. rewrite Em, Z.eqb_refl. cbn [negb].
  assert (Hid : forall r, (forall x, In x r -> f x <> f m) -> List.filter (fun x => negb (f x =? f m)) r = r).
  { intros r Hr. induction r as [|x r IH]; [done|]. cbn. rewrite (proj2 (Z.eqb_neq _ _) (Hr x (or_introl eq_refl))). cbn. rewrite IH; [done|]. intros y Hy. apply Hr. by right. }
  rewrite !Hid; [done| |]; intros x Hx E; apply Hn; apply in_app_iff; [right|left]; rewrite <- E; by apply in_map.
Qed.
Lemma run_named name ty s : named name <> 0 -> run_prog (named_tag name ty) s = (Ok (tag_of named name ty), s).
Proof. intros Hn. unfold named_tag. cbn [run_prog serve fst snd map]. by rewrite (proj2 (Z.eqb_neq _ _) Hn). Qed.
Lemma run_back report m why s l k : distinct (l ++ m :: k) -> s_outbox s = l ++ m :: k -> begun m = true ->
  (run_prog (hand_back report PrivateFIDOutbox (info_of m) why) s).2 = released s (l ++ k) [m].
Proof.
  intros [Hi Hu] Eo Hb. assert (Efi : find_id s (o_id m) = Some m) by (unfold find_id; rewrite Eo; by apply (find_middle o_id)).
  assert (Efu : find_uid s (o_uid m) = Some m) by (unfold find_uid; rewrite Eo; by apply (find_middle o_uid)).
  unfold hand_back, collectReport. rewrite run_prog_bind. cbn [fst snd run_prog serve serve_store mi_ID mi_UID info_of]. rewrite Efi. change (PrivateFIDOutbox =? PrivateFIDOutbox) with true. cbv iota. rewrite Efu.
  cbn [fmap option_fmap option_map]. rewrite run_prog_bind. unfold store_MoveMessage, MoveMessage. cbn [lift run_prog serve serve_store fst snd]. change (PrivateFIDOutbox =? PrivateFIDOutbox) with true. cbv iota. rewrite Efu.
  cbn [fmap option_fmap option_map lift run_prog serve serve_store fst snd]. change (PrivateFIDOutbox =? PrivateFIDOutbox) with true. cbv iota. rewrite Efu.
  cbn [fmap option_fmap option_map lift run_prog serve serve_store fst snd]. change (PrivateFIDDraft =? PrivateFIDOutbox) with false. change (PrivateFIDOutbox =? PrivateFIDOutbox) with true. cbv iota. cbn [lift run_prog fst snd].
  assert (E : remove_uid (o_uid m) (file PrivateFIDDraft (o_raw m) s) = released s (l ++ k) [m]).
  { unfold released, filed, handed, remove_uid, file, set_outbox. cbn [flat_map s_outbox s_filed s_handed s_refused s_born s_contents s_removed]. rewrite Hb, Eo, !app_nil_r. f_equal. by apply (filter_middle o_uid). }
  destruct report; cbn [run_prog serve fst snd]; exact E.
Qed.
Lemma run_release report m now stats s l k :
  named nameReleaseStarted <> 0 -> distinct (l ++ m :: k) -> s_outbox s = l ++ m :: k ->
  (run_prog (processDueMessage report PrivateFIDOutbox (info_of m) now stats) s).2 = released s (l ++ k) [m].
Proof.
  intros Hn Hd Eo. pose proof Hd as [Hi Hu]. assert (Efi : find_id s (o_id m) = Some m) by (unfold find_id; rewrite Eo; by apply (find_middle o_id)).
  assert (Efu : find_uid s (o_uid m) = Some m) by (unfold find_uid; rewrite Eo; by apply (find_middle o_uid)).
  unfold processDueMessage, releaseStarted, releaseStartedTag. rewrite !run_prog_bind, run_named by done. cbn [fst snd run_prog serve mi_ID info_of]. rewrite Efi. cbn [fmap option_fmap option_map].
  rewrite get_filter. destruct (pv_Get (o_props m) (tag_of named nameReleaseStarted PtI8)) as [v|] eqn:Hst.
  { unfold returnAmbiguous. rewrite run_prog_bind. cbn [run_prog snd]. apply run_back; [done|done|]. unfold begun, started_tag. by rewrite Hst. }
  assert (Hb : begun m = false) by (unfold begun, started_tag; by rewrite Hst).
  unfold releaseMessage, markReleaseStarted, releaseStartedTag. rewrite run_prog_bind. cbn [fst snd run_prog serve mi_ID mi_UID info_of]. rewrite Efi.
  cbn [fst snd run_prog serve serve_store fmap option_fmap option_map]. change (PrivateFIDOutbox =? PrivateFIDOutbox) with true. cbv iota. rewrite Efu. cbn [fmap option_fmap option_map].
  rewrite !run_prog_bind, run_named by done. cbn [fst snd run_prog serve serve_store bind]. rewrite run_prog_bind.
  assert (Ek : (run_prog (if keep (o_id m) then fileToSent (o_raw m) now else Ret [])
      (hand (mkHandover (o_id m) (recipientAddrs (o_recipients m)) (stripBcc (o_raw m)) (recipientAddrs (o_recipients m)) false)
        (modify (o_id m) (modify_props [mkTagged (tag_of named nameReleaseStarted PtI8) (AInt64 (now / 1000000000))] []) s)))
    = ([], mkS (l ++ modify_props [mkTagged (tag_of named nameReleaseStarted PtI8) (AInt64 (now / 1000000000))] [] m :: k) (s_filed s ++ filed m) (s_handed s ++ handed m) (s_refused s) (s_born s) (s_contents s) (s_removed s))).
  { unfold filed, handed. rewrite Hb. unfold fileToSent, modify, set_outbox, hand. rewrite Eo, (map_middle o_id) by done.
    destruct (keep (o_id m)); cbn [run_prog serve serve_store fst snd]; change (PrivateFIDSentItems =? PrivateFIDOutbox) with false; cbv iota; unfold file;
      cbn [s_outbox s_filed s_handed s_refused s_born s_contents s_removed fst snd]; rewrite ?app_nil_r; done. }
  rewrite Ek. cbn [fst snd run_prog serve serve_store]. change (PrivateFIDOutbox =? PrivateFIDOutbox) with true. cbv iota. cbn [negb run_prog fst snd].
  unfold released, remove_uid, set_outbox. cbn [flat_map s_outbox s_filed s_handed s_refused s_born s_contents s_removed]. rewrite !app_nil_r. f_equal. by apply (filter_middle o_uid).
Qed.
Lemma released_trans s l1 l2 a b : released (released s l1 a) l2 b = released s l2 (a ++ b).
Proof. unfold released. cbn. by rewrite !flat_map_app, !app_assoc. Qed.
Lemma run_waiting stats id s : (run_prog (countWaiting stats id) s).2 = s.
Proof.
  unfold countWaiting, releaseAttempts, named_tag. cbv zeta. rewrite !run_prog_bind. cbn [run_prog serve fst snd map]. destruct (_ =? 0); [done|]. cbn [run_prog serve fst snd]. done.
Qed.
Lemma distinct_drop l m k : distinct (l ++ m :: k) -> distinct (l ++ k).
Proof. intros [H1 H2]. split; rewrite map_app in *; by eapply NoDup_remove_1. Qed.
Lemma run_sweep report now todo : forall l stats errs s,
  named nameReleaseStarted <> 0 -> distinct (l ++ todo) -> s_outbox s = l ++ todo ->
  (run_prog (sweep report PrivateFIDOutbox (map info_of todo) now stats errs) s).2
  = released s (l ++ List.filter (fun m => negb (due_at now m)) todo) (List.filter (due_at now) todo).
Proof.
  induction todo as [|m todo IH]; intros l stats errs s Hn Hd Eo.
  - cbn. rewrite app_nil_r in *. unfold released. cbn. rewrite !app_nil_r, <- Eo. by destruct s.
  - assert (Hnext : forall stats errs, due_at now m = false ->
      (run_prog (sweep report PrivateFIDOutbox (map info_of todo) now stats errs) s).2 = released s (l ++ List.filter (fun m => negb (due_at now m)) (m :: todo)) (List.filter (due_at now) (m :: todo))).
    { intros st er Hdue. cbn [List.filter]. rewrite Hdue. cbn [negb]. rewrite (IH (l ++ [m])); [by rewrite <- app_assoc|done|by rewrite <- app_assoc|by rewrite <- app_assoc]. }
    cbn [map sweep]. cbn [run_prog serve fst snd]. rewrite run_prog_bind. unfold deferredSendDue. cbn [run_prog serve fst snd mi_ID info_of].
    assert (Efi : find_id s (o_id m) = Some m) by (unfold find_id; rewrite Eo; by apply (find_middle o_id), (proj1 Hd)). rewrite Efi. cbn [fmap option_fmap option_map]. rewrite get_filter.
    destruct (pv_Get (o_props m) PrDeferredSendTime) as [v|] eqn:Ev; [|cbn [negb]; apply Hnext; unfold due_at; by rewrite Ev].
    destruct v; try (cbn [negb]; apply Hnext; unfold due_at; by rewrite Ev). cbn [negb]. cbv zeta.
    destruct (unix_nano (NTTimeToUnix _) <=? now) eqn:Et; cbn [negb].
    + assert (Hdue : due_at now m = true) by (unfold due_at; by rewrite Ev). rewrite run_prog_bind.
      match goal with |- context [run_prog (processDueMessage ?r ?o ?i ?n ?st) s] => pose proof (run_release r m n st s l todo Hn Hd Eo) as Hr; destruct (run_prog (processDueMessage r o i n st) s) as [[st' e'] s'] end.
      cbn [fst snd] in *. subst s'. rewrite (IH l); [|done|by eapply distinct_drop|done]. rewrite released_trans. cbn [List.filter]. by rewrite Hdue.
    + rewrite run_prog_bind, run_waiting. apply Hnext. unfold due_at. by rewrite Ev.
Qed.

(** C25. A sweep settles what is due: when the store works and delivery accepts, every message of the
    Outbox whose time has come leaves it.  One whose release was not begun before is handed over
    once, to all its recipients and without its Bcc field, and a copy is filed among the sent ones
    when delivery says that the sender is to keep one; one that carries the mark of a release begun
    before is not handed over again but moved to the Drafts folder.  The others are as they were. *)
Theorem sweep_releases report now s :
  named nameReleaseStarted <> 0 -> distinct (s_outbox s) ->
  (run_prog (ProcessDueOutboxStats report now) s).2
  = released s (List.filter (fun m => negb (due_at now m)) (s_outbox s)) (List.filter (due_at now) (s_outbox s)).
Proof. intros Hn Hd. unfold ProcessDueOutboxStats. cbn [run_prog serve serve_store fst snd]. change (PrivateFIDOutbox =? PrivateFIDOutbox) with true. cbv iota. by apply (run_sweep report now (s_outbox s) []). Qed.
End serve.

(** ** Examples *)

Lemma cuts_others named {A} (p : sprog A) s s1 s' : rtc (others named) s s1 -> cuts named p s1 s' -> cuts named p s s'.
Proof.
  intros Ho. destruct p as [a|X c k]; cbn [cuts]; [intros [H|[]]; left; by etrans|]. intros [H|(s2 & x & s3 & H2 & Ha & Hc)]; [left; by etrans|]. right. exists s2, x, s3. split; [by etrans|done].
Qed.
Definition sample_named (n : PropertyName) : Z := if beq (pnName n) (pnName nameReleaseStarted) then 0x8001 else 0x8002.
Definition sample_raw : bytes := lit "From: a@x" ++ crlf ++ lit "bCC: c@x," ++ crlf ++ lit " d@x" ++ crlf ++ lit "To: b@x" ++ crlf ++ crlf ++ lit "Hi".
Definition sample_message : omsg :=
  mkO 5 9 sample_raw [[mkTagged PrSmtpAddress (AString (lit "b@x"))]; [mkTagged PrSmtpAddress (AString (lit "c@x"))]] [mkTagged PrDeferredSendTime (AUint64 (UnixToNTTime (mkTime 1700000000 0)))].
Definition sample_start : state := add_message sample_message (mkS [] [] [] [] [] [] []).
Definition sample_now : Z := 1700000030 * 1000000000.
Definition sample_end : state := (run_prog sample_named (fun _ => true) (ProcessDueOutboxStats true sample_now) sample_start).2.
Lemma sample_reachable : reachable sample_named sample_end.
Proof.
  apply (reach_sweep _ (mkS [] [] [] [] [] [] []) _ true sample_now); [constructor|]. eapply cuts_others; [|apply run_cuts]. apply rtc_once. apply others_add; by intros [].
Qed.
Example scheduled_mail_safe_witness :
  accepted_ids sample_end = [5] /\ s_outbox sample_end = [] /\ no_resend (s_handed sample_end)
  /\ forall id, In id (map fst (s_born sample_end)) -> In id (map o_id (s_outbox sample_end)) \/ accounted sample_end id.
Proof. split; [vm_compute; reflexivity|]. split; [vm_compute; reflexivity|]. apply (scheduled_mail_safe sample_named). apply sample_reachable. Defined.
Definition sample_wire : bytes := lit "From: a@x" ++ crlf ++ lit "To: b@x" ++ crlf ++ crlf ++ lit "Hi".
Definition sample_handover : handover := mkHandover 5 [lit "b@x"; lit "c@x"] sample_wire [lit "b@x"; lit "c@x"] false.
Example bcc_never_sent_witness : exists raw, In (5, raw) (s_contents sample_end) /\ blinded raw sample_wire.
Proof. apply (bcc_never_sent sample_named sample_end sample_handover); [apply sample_reachable|]. left. vm_compute. reflexivity. Defined.
(** A second message, with the mark of a release that was cut off, and one that is not due *)
Definition sample_stamped : omsg := modify_props [mkTagged (started_tag sample_named) (AInt64 1)] [] (mkO 6 10 sample_raw [] (o_props sample_message)).
Definition sample_early : omsg := mkO 7 11 sample_raw [] [mkTagged PrDeferredSendTime (AUint64 (UnixToNTTime (mkTime 1800000000 0)))].
Definition sample_three : state := add_message sample_early (add_message sample_stamped sample_start).
Example sweep_releases_witness :
  let s := (run_prog sample_named (fun _ => false) (ProcessDueOutboxStats true sample_now) sample_three).2 in
  s = released sample_named (fun _ => false) sample_three
        (List.filter (fun m => negb (due_at sample_now m)) (s_outbox sample_three)) (List.filter (due_at sample_now) (s_outbox sample_three))
  /\ (map o_id (s_outbox s), s_filed s, s_handed s) = ([7], [(PrivateFIDDraft, sample_raw)], [sample_handover]).
Proof.
  split; [|vm_compute; reflexivity]. apply (sweep_releases sample_named (fun _ => false) true sample_now sample_three); [vm_compute; discriminate|].
  split; vm_compute; repeat (apply List.NoDup_cons; [cbn; intuition discriminate|]); apply List.NoDup_nil.
Defined.
(** The first calls of a program *)
Fixpoint run_calls {A} (n : nat) (p : sprog A) (s : state) : state :=
  match n, p with S n, Call c k => let r := serve sample_named (fun _ => true) s c in run_calls n (k r.1) r.2 | _, _ => s end.
(** A sweep that is cut off right after the delivery; the next one hands the message back. *)
Example interrupted_is_handed_back :
  let cut := run_calls 10 (ProcessDueOutboxStats true sample_now) sample_start in
  let next := (run_prog sample_named (fun _ => true) (ProcessDueOutboxStats true sample_now) cut).2 in
  (map o_id (s_outbox cut), accepted_ids cut) = ([5], [5]) /\ (s_outbox next, accepted_ids next, s_filed next) = ([], [5], [(PrivateFIDDraft, sample_raw)]).
Proof. vm_compute. done. Qed.
(** A folded line of another field that begins like a Bcc field is dropped. *)
Example folded_text_lost : stripBcc (lit "Subject: to all," ++ crlf ++ lit " bcc: nobody" ++ crlf ++ crlf) = lit "Subject: to all," ++ crlf ++ crlf.
Proof. vm_compute. reflexivity. Qed.

(** A delivery that reaches the first recipient and answers an error *)
Definition serve_failing (s : state) {X} (c : scall X) : X * state :=
  match c in scall X return X * state with
  | SDeliver id rcpts raw when => (Err (mkFailure false), hand (mkHandover id rcpts raw (take 1 rcpts) true) s)
  | c => serve sample_named (fun _ => true) s c
  end.
Fixpoint run_failing {A} (p : sprog A) (s : state) : state :=
  match p with Ret a => s | Call c k => let r := serve_failing s c in run_failing (k r.1) r.2 end.
Lemma failing_cuts {A} (p : sprog A) s : cuts sample_named p s (run_failing p s).
Proof.
  revert s. induction p as [a|X c k IH]; intros s; cbn [run_failing cuts]; [by left|]. right. exists s, (serve_failing s c).1, (serve_failing s c).2. split; [done|]. split; [|apply IH].
  destruct c; try (apply (serve_answers sample_named (fun _ => true))). exists (take 1 recipients). split; [|done]. intros x Hx. rewrite <- (take_drop 1 recipients). apply in_app_iff. by left.
Qed.
Definition sample_failed : state := run_failing (ProcessDueOutboxStats true sample_now) sample_start.
Definition sample_repeated : state := (run_prog sample_named (fun _ => true) (ProcessDueOutboxStats true sample_now) sample_failed).2.
(** A delivery that ended in an error after it reached a recipient is made again to all of them. *)
Theorem failed_delivery_repeated : exists s, reachable sample_named s
  /\ map (fun h => (ho_id h, ho_reached h, ho_error h)) (s_handed s) = [(5, [lit "b@x"], true); (5, [lit "b@x"; lit "c@x"], false)].
Proof.
  exists sample_repeated. split; [|vm_compute; reflexivity]. apply (reach_sweep _ sample_failed _ true sample_now); [|apply run_cuts].
  apply (reach_sweep _ (mkS [] [] [] [] [] [] []) _ true sample_now); [constructor|]. eapply cuts_others; [|apply failing_cuts]. apply rtc_once. apply others_add; by intros [].
Qed.
