(* ===== verification/Mtasts.v ===== *)
(** * Strict transport security for mail ([internal/mtasts])

    A domain publishes a policy that says which hosts take its mail and that they speak TLS.  The
    policy's text is parsed and written, a host is matched against its patterns, and a resolver
    keeps policies, and the absence of one, for the time they are good for.  The lookups over DNS and
    HTTPS and the clock are arguments; a cached answer is one that was looked up in its lifetime. *)

From stdpp Require Import base list numbers gmap.
From Stdlib Require Import ZArith Lia.
From Stdlib Require String.
Import String.StringSyntax.
From S2P Require Import Prelude Utf Gostr ImaplexProofs.
Open Scope Z_scope.
#[local] Arguments lit : simpl never.

(** ** Policies *)

Definition ModeEnforce : bytes := lit "enforce".
Definition ModeTesting : bytes := lit "testing".
Definition ModeNone : bytes := lit "none".
Record Policy := mkPolicy { po_Mode : bytes; po_MX : list bytes; po_MaxAge : Z }.
#[export] Instance Policy_eq_dec : EqDecision Policy.
Proof. solve_decision. Defined.
Inductive policy_error := ErrVersion | ErrMode | ErrNoMX | ErrMaxAge.

Section policy.
(** [strings.ToLower] *)
Context (ToLower : bytes -> bytes).

(** [strings.TrimRight(line, "\r")] *)
Fixpoint drop_cr (s : bytes) : bytes := match s with b :: t => if b =? 13 then drop_cr t else s | [] => [] end.
Definition TrimRightCR (s : bytes) : bytes := rev (drop_cr (rev s)).
(** The first result of [strconv.Atoi], whatever the error: 0 for what is no number, the nearest [int] for one out of range *)
Fixpoint uint_value (acc : Z) (s : bytes) : option Z :=
  match s with
  | [] => Some acc
  | b :: s => if is_digit b then let n := 10 * acc + (b - 48) in if 2 ^ 64 <=? n then Some (2 ^ 64 - 1) else uint_value n s else None
  end.
Definition Atoi_value (s : bytes) : Z :=
  let '(neg, ds) := match s with b :: t => if b =? 45 then (true, t) else if b =? 43 then (false, t) else (false, s) | [] => (false, s) end in
  match ds with
  | [] => 0
  | _ => match uint_value 0 ds with
         | None => 0
         | Some un => if neg : bool then - Z.min un (2 ^ 63) else Z.min un (2 ^ 63 - 1)
         end
  end.
(** One line; a line without a colon is skipped. *)
Definition parse_line (pv : Policy * bytes) (line : bytes) : Policy * bytes :=
  let '(p, version) := pv in
  let line := TrimRightCR line in
  if negb (existsb (Z.eqb 58) line) then (p, version)
  else
    let '(key, val) := Cut line 58 in
    let key := TrimSpace key in
    let val := TrimSpace val in
    if beq key (lit "version") then (p, val)
    else if beq key (lit "mode") then (mkPolicy val (po_MX p) (po_MaxAge p), version)
    else if beq key (lit "mx") then (if beq val [] then p else mkPolicy (po_Mode p) (po_MX p ++ [ToLower val]) (po_MaxAge p), version)
    else if beq key (lit "max_age") then (mkPolicy (po_Mode p) (po_MX p) (Atoi_value val), version)
    else (p, version).
Definition parseLines (text : bytes) : Policy * bytes := foldl parse_line (mkPolicy [] [] 0, []) (Split text 10).
Definition validate (p : Policy) (version : bytes) : option policy_error :=
  if negb (beq version (lit "STSv1")) then Some ErrVersion
  else if negb (beq (po_Mode p) ModeEnforce || beq (po_Mode p) ModeTesting || beq (po_Mode p) ModeNone) then Some ErrMode
  else if negb (beq (po_Mode p) ModeNone) && (len (po_MX p) =? 0) then Some ErrNoMX
  else if po_MaxAge p <=? 0 then Some ErrMaxAge
  else None.
Definition Parse (text : bytes) : result policy_error Policy :=
  let '(p, version) := parseLines text in match validate p version with Some e => Err e | None => Ok p end.
Definition Build (p : Policy) : bytes :=
  lit "version: STSv1" ++ crlf ++ lit "mode: " ++ po_Mode p ++ crlf
  ++ concat (map (fun mx => lit "mx: " ++ mx ++ crlf) (po_MX p)) ++ lit "max_age: " ++ dec (po_MaxAge p) ++ crlf.

(** [hex.EncodeToString] *)
Definition hex_digit (n : Z) : Z := if n <? 10 then 48 + n else 87 + n.
Definition EncodeToString (s : bytes) : bytes := concat (map (fun b => [hex_digit (b / 16); hex_digit (b mod 16)]) s).
Definition PolicyID (Sum256 : bytes -> bytes) (policyText : bytes) : bytes := EncodeToString (take 16 (Sum256 policyText)).

Definition matchMX (pattern host : bytes) : bool :=
  if HasPrefix pattern (lit "*.") then existsb (Z.eqb 46) host && beq (Cut host 46).2 (drop 2 pattern) else beq pattern host.
Definition MatchesMX (p : Policy) (host : bytes) : bool := existsb (fun pat => matchMX pat (ToLower (TrimSuffix host [46]))) (po_MX p).

(** ** The resolver *)

(** Times in nanoseconds *)
Definition second : Z := 1000000000.
Definition negativeTTL : Z := 5 * 60 * second.
Record cacheEntry := mkEntry { ce_policy : option Policy; ce_expires : Z }.
Notation cache := (gmap bytes cacheEntry).
Definition cached (c : cache) (domain : bytes) (now : Z) : option cacheEntry :=
  match c !! domain with Some e => if ce_expires e <? now then None else Some e | None => None end.
Definition store (c : cache) (domain : bytes) (p : option Policy) (expires now : Z) : cache :=
  <[domain := mkEntry p expires]> (filter (fun de : bytes * cacheEntry => (ce_expires de.2 <? now) = false) c).
(** What DNS answers: the records, that there are none, or a failure *)
Inductive txt_answer := TXT (records : list bytes) | TXTNotFound | TXTFailed.
Definition txtPresent (ans : txt_answer) : option bool :=
  match ans with
  | TXTFailed => None
  | TXTNotFound => Some false
  | TXT records => Some (existsb (fun rec => HasPrefix (TrimSpace rec) (lit "v=STSv1")) records)
  end.
Inductive lookup_error := ErrTXT | ErrFetch | ErrParse (e : policy_error).
(** The readings of the clock, in the order in which they are taken *)
Record clock := mkClock { ck_cached : Z; ck_expires : Z; ck_store : Z }.
(** [Lookup], with the answers of DNS and of the policy's host and the clock *)
Definition Lookup (LookupTXT : bytes -> txt_answer) (FetchPolicy : bytes -> option bytes) (ck : clock) (c : cache) (domain : bytes)
    : result lookup_error (option Policy) * cache :=
  let domain := ToLower (TrimSuffix domain [46]) in
  match cached c domain (ck_cached ck) with
  | Some e => (Ok (ce_policy e), c)
  | None =>
      match txtPresent (LookupTXT (lit "_mta-sts." ++ domain)) with
      | None => (Err ErrTXT, c)
      | Some false => (Ok None, store c domain None (ck_expires ck + negativeTTL) (ck_store ck))
      | Some true =>
          match FetchPolicy domain with
          | None => (Err ErrFetch, c)
          | Some body =>
              match Parse body with
              | Err e => (Err (ErrParse e), c)
              | Ok p => (Ok (Some p), store c domain (Some p) (ck_expires ck + i64 (po_MaxAge p * second)) (ck_store ck))
              end
          end
      end
  end.
End policy.

(** ** The text of a policy *)

(** A printable byte other than the space *)
Definition visible (b : Z) : bool := (33 <=? b) && (b <=? 126).
Definition policy_ok (ToLower : bytes -> bytes) (p : Policy) : bool :=
  (beq (po_Mode p) ModeEnforce || beq (po_Mode p) ModeTesting || beq (po_Mode p) ModeNone)
  && (beq (po_Mode p) ModeNone || negb (len (po_MX p) =? 0))
  && forallb (fun mx => negb (beq mx []) && forallb visible mx && beq (ToLower mx) mx) (po_MX p)
  && (0 <? po_MaxAge p) && (po_MaxAge p <? 2 ^ 63).
Lemma visible_trim s : forallb visible s = true -> TrimSpace s = s.
Proof. intros H. apply TrimSpace_id. eapply forallb_impl, H. intros b. unfold visible, IsSpace, in_range. lia. Qed.
Lemma TrimSpace_sp s : TrimSpace (32 :: s) = TrimSpace s.
Proof.
  enough (E : chunks (32 :: s) = (32, [32]) :: chunks s) by (unfold TrimSpace; by rewrite E). unfold chunks. cbn [length chunks_fuel].
  change (decode_rune 32 s) with (32, s). cbv iota beta. cbn [length]. replace (S (length s) - length s)%nat with 1%nat by lia. done.
Qed.
Lemma free_of_visible c s : visible c = false -> forallb visible s = true -> existsb (Z.eqb c) s = false.
Proof. intros Hc. induction s as [|b s IH]; [done|]. cbn. intros [Hb Hs]%andb_true_iff. rewrite IH by done. destruct (Z.eqb_spec c b) as [->|]; [congruence|done]. Qed.
Lemma TrimRight_one s : forallb visible s = true -> TrimRightCR (s ++ [13]) = s.
Proof.
  intros H. unfold TrimRightCR. rewrite rev_app_distr. cbn [rev app drop_cr]. change (13 =? 13) with true. cbv iota. assert (Hr : drop_cr (rev s) = rev s); [|by rewrite Hr, rev_involutive].
  destruct (rev s) as [|b t] eqn:E; [done|]. cbn. destruct (Z.eqb_spec b 13) as [->|]; [|done]. exfalso.
  assert (Hin : In 13 s) by (apply in_rev; rewrite E; by left). rewrite forallb_forall in H. by specialize (H 13 Hin).
Qed.
(** A field of the text, as a line without its LF *)
Definition field (key val : bytes) : bytes := key ++ 58 :: 32 :: val ++ [13].
Lemma field_free key val : forallb visible key = true -> forallb visible val = true -> existsb (Z.eqb 10) (field key val) = false.
Proof. intros Hk Hv. unfold field. rewrite existsb_app. cbn. rewrite existsb_app, !free_of_visible by done. done. Qed.
Lemma TrimRight_field key val : forallb visible key = true -> forallb visible val = true -> val <> [] -> TrimRightCR (field key val) = key ++ 58 :: 32 :: val.
Proof.
  intros Hk Hv Hne. unfold field. replace (key ++ 58 :: 32 :: val ++ [13]) with ((key ++ 58 :: 32 :: val) ++ [13]) by (by rewrite <- app_assoc).
  unfold TrimRightCR. rewrite rev_app_distr. cbn [rev app drop_cr]. change (13 =? 13) with true. cbv iota.
  destruct (exists_last Hne) as (v & b & ->). replace (key ++ 58 :: 32 :: v ++ [b]) with ((key ++ 58 :: 32 :: v) ++ [b]) by (by rewrite <- app_assoc).
  rewrite rev_app_distr. cbn [rev app drop_cr]. rewrite forallb_app in Hv. apply andb_true_iff in Hv as [_ Hb]. cbn in Hb. destruct (Z.eqb_spec b 13) as [->|_]; [done|].
  change (b :: rev (key ++ 58 :: 32 :: v)) with ([b] ++ rev (key ++ 58 :: 32 :: v)). by rewrite rev_app_distr, rev_involutive.
Qed.
Lemma field_cut key val : forallb visible key = true -> existsb (Z.eqb 58) key = false -> forallb visible val = true -> val <> [] ->
  negb (existsb (Z.eqb 58) (TrimRightCR (field key val))) = false /\ TrimSpace (Cut (TrimRightCR (field key val)) 58).1 = key /\ TrimSpace (Cut (TrimRightCR (field key val)) 58).2 = val.
Proof.
  intros Hk Hc Hv Hne. rewrite TrimRight_field by done. rewrite existsb_app. cbn [existsb]. change (58 =? 58) with true. rewrite orb_true_l, orb_true_r. split; [done|].
  rewrite Cut_app by done. cbn [fst snd]. rewrite TrimSpace_sp. split; by apply visible_trim.
Qed.
Definition policy_fields (p : Policy) : list (bytes * bytes) :=
  (lit "version", lit "STSv1") :: (lit "mode", po_Mode p) :: map (fun mx => (lit "mx", mx)) (po_MX p) ++ [(lit "max_age", dec (po_MaxAge p))].
Lemma Build_fields p : Build p = concat (map (fun f => field f.1 f.2 ++ [10]) (policy_fields p)).
Proof.
  unfold Build, policy_fields, field, crlf. cbn [map concat fst snd]. rewrite map_app, concat_app, map_map. cbn [map concat fst snd]. rewrite app_nil_r.
  change (lit "version: STSv1") with (lit "version" ++ 58 :: 32 :: lit "STSv1"). change (lit "mode: ") with (lit "mode" ++ [58; 32]). change (lit "max_age: ") with (lit "max_age" ++ [58; 32]).
  assert (E : map (fun mx => lit "mx: " ++ mx ++ [13; 10]) (po_MX p) = map (fun x => (lit "mx" ++ 58 :: 32 :: x ++ [13]) ++ [10]) (po_MX p)).
  { apply map_ext. intros mx. change (lit "mx: ") with (lit "mx" ++ [58; 32]). rewrite <- !app_assoc. cbn [app]. by rewrite <- !app_assoc. }
  rewrite E. cbn [app]. rewrite <- !app_assoc. cbn [app]. rewrite <- !app_assoc. done.
Qed.
Lemma digits_ge s : forall acc v, 0 <= acc -> digits acc s = Some v -> acc <= v.
Proof. induction s as [|b s IH]; intros acc v Ha H; cbn in H; [injection H as ->; lia|]. unfold is_digit in H. destruct (_ && _) eqn:E; [|done]. apply IH in H; lia. Qed.
Lemma uint_digits s : forall acc v, 0 <= acc -> v < 2 ^ 64 -> digits acc s = Some v -> uint_value acc s = Some v.
Proof.
  induction s as [|b s IH]; intros acc v Ha Hv H; cbn [digits uint_value] in *; [done|]. destruct (is_digit b) eqn:E; [|done]. unfold is_digit in E.
  assert (Hge : 10 * acc + (b - 48) <= v) by (eapply digits_ge; [|exact H]; lia). cbv zeta. rewrite (proj2 (Z.leb_gt _ _)) by lia. apply IH; [lia|done|done].
Qed.
Lemma Atoi_value_dec n : 0 < n < 2 ^ 63 -> Atoi_value (dec n) = n.
Proof.
  intros Hn. rewrite dec_pos by lia. destruct (dec_nat_digits n ltac:(lia)) as (Hd & Hf & Hne). unfold Atoi_value. destruct (dec_nat n) as [|b t] eqn:E; [done|].
  cbn [forallb] in Hf. apply andb_true_iff in Hf as [Hb _]. unfold is_digit in Hb. rewrite !(proj2 (Z.eqb_neq b _)) by lia. rewrite (uint_digits _ 0 n) by (done || lia). lia.
Qed.
Lemma dec_visible n : 0 < n -> forallb visible (dec n) = true /\ dec n <> [].
Proof.
  intros Hn. rewrite dec_pos by lia. destruct (dec_nat_digits n ltac:(lia)) as (_ & Hf & Hne). split; [|done]. eapply forallb_impl, Hf. intros b. unfold is_digit, visible. lia.
Qed.

Section round_trip.
Context (ToLower : bytes -> bytes).

Definition field_ok (f : bytes * bytes) : bool := forallb visible f.1 && negb (existsb (Z.eqb 58) f.1) && forallb visible f.2 && negb (beq f.2 []).
(** What a field does to what was read *)
Definition read_field (pv : Policy * bytes) (f : bytes * bytes) : Policy * bytes :=
  let '(p, version) := pv in
  if beq f.1 (lit "version") then (p, f.2)
  else if beq f.1 (lit "mode") then (mkPolicy f.2 (po_MX p) (po_MaxAge p), version)
  else if beq f.1 (lit "mx") then (mkPolicy (po_Mode p) (po_MX p ++ [ToLower f.2]) (po_MaxAge p), version)
  else if beq f.1 (lit "max_age") then (mkPolicy (po_Mode p) (po_MX p) (Atoi_value f.2), version)
  else (p, version).
Lemma parse_field pv f : field_ok f = true -> parse_line ToLower pv (field f.1 f.2) = read_field pv f.
Proof.
  unfold field_ok. rewrite !andb_true_iff, !negb_true_iff. intros [[[Hk Hc] Hv] Hne]. assert (Hn : f.2 <> []) by (intros E; by rewrite E in Hne).
  destruct pv as [p version]. unfold parse_line, read_field. destruct (field_cut f.1 f.2 Hk Hc Hv Hn) as (-> & E1 & E2). destruct (Cut _ 58) as [a b]. cbn [fst snd] in E1, E2. rewrite E1, E2, Hne. done.
Qed.
Lemma Split_fields fs : forallb field_ok fs = true -> Split (concat (map (fun f => field f.1 f.2 ++ [10]) fs)) 10 = map (fun f => field f.1 f.2) fs ++ [[]].
Proof.
  induction fs as [|f fs IH]; [done|]. cbn [forallb map concat]. intros [Hf Hfs]%andb_true_iff. unfold field_ok in Hf. rewrite !andb_true_iff in Hf. destruct Hf as [[[Hk _] Hv] _].
  rewrite <- app_assoc. cbn [app]. rewrite Split_app by (by apply field_free). by rewrite IH.
Qed.
Lemma parse_fields fs : forallb field_ok fs = true -> parseLines ToLower (concat (map (fun f => field f.1 f.2 ++ [10]) fs)) = foldl read_field (mkPolicy [] [] 0, []) fs.
Proof.
  intros H. unfold parseLines. rewrite Split_fields by done. rewrite foldl_app. cbn [foldl]. assert (Hnil : forall pv, parse_line ToLower pv [] = pv) by (by intros []). rewrite Hnil.
  generalize (mkPolicy [] [] 0, @nil Z). induction fs as [|f fs IH]; intros pv; [done|]. cbn [map foldl forallb] in *. apply andb_true_iff in H as [Hf Hfs]. rewrite parse_field by done. by apply IH.
Qed.
Lemma read_mx mxs : forall p version, foldl read_field (p, version) (map (fun mx => (lit "mx", mx)) mxs) = (mkPolicy (po_Mode p) (po_MX p ++ map ToLower mxs) (po_MaxAge p), version).
Proof.
  induction mxs as [|mx mxs IH]; intros p version; cbn [map foldl]; [rewrite app_nil_r; by destruct p|]. unfold read_field at 2. cbn [fst snd].
  change (beq (lit "mx") (lit "version")) with false. change (beq (lit "mx") (lit "mode")) with false. change (beq (lit "mx") (lit "mx")) with true. cbv iota. rewrite IH. cbn. by rewrite <- app_assoc.
Qed.

(** A policy that is published is read back: what [Build] writes of a policy with lower-case patterns
    is parsed to the same policy. *)
Theorem policy_round_trip p : policy_ok ToLower p = true -> Parse ToLower (Build p) = Ok p.
Proof.
  unfold policy_ok. rewrite !andb_true_iff. intros [[[[Hm Hmx] Hpats] Hage] Hmax]. apply Z.ltb_lt in Hage, Hmax. destruct (dec_visible _ Hage) as [Hdv Hdn].
  assert (Hmode : forallb visible (po_Mode p) = true /\ po_Mode p <> []).
  { rewrite !orb_true_iff in Hm. unfold beq in Hm. rewrite !bool_decide_eq_true in Hm. destruct Hm as [[->| ->]| ->]; by vm_compute. }
  assert (Hok : forallb field_ok (policy_fields p) = true).
  { unfold policy_fields. cbn [forallb]. change (field_ok (lit "version", lit "STSv1")) with true. rewrite forallb_app. cbn [forallb andb]. rewrite !andb_true_iff. split_and!; try done.
    - unfold field_ok. cbn [fst snd]. rewrite (proj1 Hmode). unfold beq. rewrite bool_decide_eq_false_2 by apply Hmode. done.
    - rewrite forallb_forall. intros f (mx & <- & Hin)%in_map_iff. rewrite forallb_forall in Hpats. specialize (Hpats mx Hin). rewrite !andb_true_iff in Hpats. destruct Hpats as [[Hne Hv] _]. unfold field_ok. cbn [fst snd]. by rewrite Hv, Hne.
    - unfold field_ok. cbn [fst snd]. rewrite Hdv. unfold beq. by rewrite bool_decide_eq_false_2. }
  unfold Parse. rewrite Build_fields, parse_fields by done. unfold policy_fields. cbn [foldl]. rewrite foldl_app. change (read_field (mkPolicy [] [] 0, []) (lit "version", lit "STSv1")) with (mkPolicy [] [] 0, lit "STSv1").
  change (read_field (mkPolicy [] [] 0, lit "STSv1") (lit "mode", po_Mode p)) with (mkPolicy (po_Mode p) [] 0, lit "STSv1"). rewrite read_mx. cbn [foldl po_Mode po_MX po_MaxAge app].
  assert (Elow : map ToLower (po_MX p) = po_MX p).
  { rewrite <- (map_id (po_MX p)) at 2. apply map_ext_in. intros mx Hin. rewrite forallb_forall in Hpats. specialize (Hpats mx Hin). rewrite !andb_true_iff in Hpats. destruct Hpats as [_ E]. unfold beq in E. by apply bool_decide_eq_true in E. }
  rewrite Elow. match goal with |- context [read_field ?pv ?f] => change (read_field pv f) with (mkPolicy (po_Mode p) (po_MX p) (Atoi_value (dec (po_MaxAge p))), lit "STSv1") end.
  rewrite Atoi_value_dec by lia. unfold validate. cbn [po_Mode po_MX po_MaxAge]. change (beq (lit "STSv1") (lit "STSv1")) with true. cbn [negb]. rewrite Hm. cbn [negb].
  rewrite (proj2 (Z.leb_gt _ _)) by lia. destruct (beq (po_Mode p) ModeNone); cbn [negb andb orb] in *; [by destruct p|]. apply negb_true_iff in Hmx. rewrite Hmx. by destruct p.
Qed.
End round_trip.

(** ** Hosts *)

(** A pattern allows a host that it equals, or, with a star, one with any label in its place. *)
Lemma matchMX_means pattern host :
  matchMX pattern host = true <->
  (exists label suffix, pattern = lit "*." ++ suffix /\ host = label ++ 46 :: suffix /\ existsb (Z.eqb 46) label = false) \/ (HasPrefix pattern (lit "*.") = false /\ pattern = host).
Proof.
  unfold matchMX. change (lit "*.") with [42; 46]. destruct (HasPrefix pattern [42; 46]) eqn:Ep.
  - assert (Hsplit : pattern = [42; 46] ++ drop 2 pattern).
    { destruct pattern as [|a [|b t]]; cbn [HasPrefix] in Ep; rewrite ?andb_true_iff, ?Z.eqb_eq in Ep; [done|by destruct Ep|]. by destruct Ep as (<- & <- & _). }
    rewrite andb_true_iff. unfold beq. rewrite bool_decide_eq_true. split.
    + intros [Hd E]. left. exists (Cut host 46).1, (drop 2 pattern). split; [done|]. rewrite <- E. clear -Hd.
      induction host as [|b host IH]; [done|]. cbn [Cut existsb] in *. destruct (Z.eqb_spec b 46) as [->|Hn]; [done|]. rewrite (proj2 (Z.eqb_neq 46 b)) in Hd by congruence. cbn [orb] in Hd.
      destruct (IH Hd) as [E1 E2]. destruct (Cut host 46) as [x y]. cbn [fst snd app existsb] in *. rewrite <- E1, (proj2 (Z.eqb_neq 46 b)) by congruence. done.
    + intros [(label & suffix & -> & -> & Hl)|[? _]]; [|done]. split; [|by rewrite Cut_app].
      rewrite existsb_app. cbn [existsb]. change (46 =? 46) with true. by rewrite orb_true_l, orb_true_r.
  - unfold beq. rewrite bool_decide_eq_true. split; [intros ->; by right|]. intros [(label & suffix & -> & _)|[_ ->]]; [|done]. by destruct suffix.
Qed.

(** ** The cache *)

Section lookups.
Context (ToLower : bytes -> bytes).

(** A lookup: what DNS and the policy's host would answer, the clock and the domain *)
Record event := mkLookup { lk_txt : bytes -> txt_answer; lk_fetch : bytes -> option bytes; lk_clock : clock; lk_domain : bytes }.
Definition do_lookup (c : gmap bytes cacheEntry) (ev : event) : result lookup_error (option Policy) * gmap bytes cacheEntry :=
  Lookup ToLower (lk_txt ev) (lk_fetch ev) (lk_clock ev) c (lk_domain ev).
Definition after_lookups (evs : list event) : gmap bytes cacheEntry := foldl (fun c ev => (do_lookup c ev).2) ∅ evs.
(** The answer without a cache, the name it is kept under, and for how long *)
Definition resolved (ev : event) : result lookup_error (option Policy) := (do_lookup ∅ ev).1.
Definition name_of (ev : event) : bytes := ToLower (TrimSuffix (lk_domain ev) [46]).
Definition lifetime (a : option Policy) : Z := match a with None => negativeTTL | Some p => i64 (po_MaxAge p * second) end.
Definition looked_up (past : list event) (d : bytes) (e : cacheEntry) : Prop :=
  exists ev, In ev past /\ name_of ev = d /\ resolved ev = Ok (ce_policy e) /\ ce_expires e = ck_expires (lk_clock ev) + lifetime (ce_policy e).
Lemma do_lookup_cases c ev :
  (exists e, c !! name_of ev = Some e /\ ck_cached (lk_clock ev) <= ce_expires e /\ do_lookup c ev = (Ok (ce_policy e), c))
  \/ (do_lookup c ev).1 = resolved ev
     /\ (do_lookup c ev).2 = match resolved ev with Ok a => store c (name_of ev) a (ck_expires (lk_clock ev) + lifetime a) (ck_store (lk_clock ev)) | Err _ => c end.
Proof.
  unfold do_lookup, resolved, name_of, do_lookup, Lookup, cached. rewrite lookup_empty. destruct (c !! _) as [e|] eqn:Ec.
  - destruct (Z.ltb_spec (ce_expires e) (ck_cached (lk_clock ev))); [|left; by exists e]. right.
    destruct (txtPresent _) as [[|]|]; try done. destruct (lk_fetch ev _) as [body|]; [|done]. by destruct (Parse ToLower body).
  - right. destruct (txtPresent _) as [[|]|]; try done. destruct (lk_fetch ev _) as [body|]; [|done]. by destruct (Parse ToLower body).
Qed.
Lemma cache_looked_up evs d e : after_lookups evs !! d = Some e -> looked_up evs d e.
Proof.
  unfold after_lookups. revert d e. induction evs as [|ev evs IH] using rev_ind; intros d e; [cbn; by rewrite lookup_empty|]. rewrite foldl_app. cbn [foldl]. set (c := foldl _ ∅ evs) in *.
  assert (Hold : c !! d = Some e -> looked_up (evs ++ [ev]) d e).
  { intros (ev' & Hin & H)%IH. exists ev'. split; [apply in_app_iff; by left|done]. }
  destruct (do_lookup_cases c ev) as [(e' & _ & _ & ->)|[_ ->]]; [done|]. destruct (resolved ev) as [a|er] eqn:Er; [|done].
  unfold store. destruct (decide (d = name_of ev)) as [->|Hn].
  - rewrite lookup_insert_eq. intros [= <-]. exists ev. split; [apply in_app_iff; right; by left|done].
  - rewrite lookup_insert_ne by done. intros [H _]%map_lookup_filter_Some. by apply Hold.
Qed.

(** C39. No policy outlives its time: after any lookups, with whatever DNS and the policies' hosts answered
    and whatever the clock did, an answer is what DNS and the host give now, or what they gave in an
    earlier lookup of the same domain whose lifetime has not passed; failures are never remembered. *)
Theorem lookups_fresh evs ev :
  (do_lookup (after_lookups evs) ev).1 = resolved ev
  \/ exists ev' a, In ev' evs /\ name_of ev' = name_of ev /\ resolved ev' = Ok a /\ (do_lookup (after_lookups evs) ev).1 = Ok a
       /\ ck_cached (lk_clock ev) <= ck_expires (lk_clock ev') + lifetime a.
Proof.
  destruct (do_lookup_cases (after_lookups evs) ev) as [(e & He & Ht & ->)|[H _]]; [|by left]. right. destruct (cache_looked_up _ _ _ He) as (ev' & Hin & Hn & Hr & Hx).
  exists ev', (ce_policy e). rewrite <- Hx. done.
Qed.

(** *** Eviction *)

(** A cache that forgets nothing *)
Definition keep_lookup (c : gmap bytes cacheEntry) (ev : event) : result lookup_error (option Policy) * gmap bytes cacheEntry :=
  match cached c (name_of ev) (ck_cached (lk_clock ev)) with
  | Some e => (Ok (ce_policy e), c)
  | None => (resolved ev, match resolved ev with Ok a => <[name_of ev := mkEntry a (ck_expires (lk_clock ev) + lifetime a)]> c | Err _ => c end)
  end.
Fixpoint answers_of (step : gmap bytes cacheEntry -> event -> result lookup_error (option Policy) * gmap bytes cacheEntry) (c : gmap bytes cacheEntry) (evs : list event)
    : list (result lookup_error (option Policy)) :=
  match evs with [] => [] | ev :: evs => (step c ev).1 :: answers_of step (step c ev).2 evs end.
(** The clock does not go back *)
Fixpoint clocks_ok (t : Z) (evs : list event) : bool :=
  match evs with
  | [] => true
  | ev :: evs => let ck := lk_clock ev in (t <=? ck_cached ck) && (ck_cached ck <=? ck_expires ck) && (ck_expires ck <=? ck_store ck) && clocks_ok (ck_store ck) evs
  end.
(** The same but for what had run out by a time *)
Definition alike (t : Z) (c k : gmap bytes cacheEntry) : Prop := forall d, c !! d = k !! d \/ (c !! d = None /\ exists e, k !! d = Some e /\ ce_expires e < t).
Lemma alike_later t t' c k : t <= t' -> alike t c k -> alike t' c k.
Proof. intros Ht H d. destruct (H d) as [E|(E & e & Hk & He)]; [by left|right]. split; [done|]. exists e. split; [done|lia]. Qed.
Lemma alike_cached t c k d now : alike t c k -> t <= now -> cached c d now = cached k d now.
Proof. intros H Ht. unfold cached. destruct (H d) as [->|(-> & e & -> & He)]; [done|]. by rewrite (proj2 (Z.ltb_lt _ _)) by lia. Qed.
Lemma alike_store t c k d a x now : alike t c k -> t <= now -> alike now (store c d a x now) (<[d := mkEntry a x]> k).
Proof.
  intros H Ht d'. unfold store. destruct (decide (d' = d)) as [->|Hn]; [left; by rewrite !lookup_insert_eq|]. rewrite !lookup_insert_ne by done.
  destruct (filter _ c !! d') as [e|] eqn:Ef.
  - apply map_lookup_filter_Some in Ef as [Hc _]. left. destruct (H d') as [E|(E & _)]; congruence.
  - destruct (H d') as [E|(E & e & Hk & He)]; [|right; split; [done|]; exists e; split; [done|lia]].
    destruct (c !! d') as [e|] eqn:Ec; [|left; congruence]. right. split; [done|]. exists e. split; [done|]. apply map_lookup_filter_None in Ef as [Ef|Ef]; [congruence|].
    specialize (Ef e Ec). cbn in Ef. destruct (Z.ltb_spec (ce_expires e) now); [done|congruence].
Qed.

(** The clean-up is invisible: while the clock does not go back, a resolver that drops what has run
    out whenever it stores something answers as one that forgets nothing. *)
Theorem eviction_invisible evs t : clocks_ok t evs = true -> answers_of do_lookup ∅ evs = answers_of keep_lookup ∅ evs.
Proof.
  assert (H0 : alike t ∅ ∅) by (intros d; by left). revert H0. generalize (∅ : gmap bytes cacheEntry) at 1 3. generalize (∅ : gmap bytes cacheEntry). intros k c. revert c k t.
  induction evs as [|ev evs IH]; intros c k t Ha Hc; [done|]. cbn [clocks_ok] in Hc. cbv zeta in Hc. rewrite !andb_true_iff, !Z.leb_le in Hc. destruct Hc as [[[H1 H2] H3] Hc]. cbn [answers_of].
  pose proof (alike_cached t c k (name_of ev) (ck_cached (lk_clock ev)) Ha H1) as Ecached. unfold keep_lookup. rewrite <- Ecached.
  destruct (do_lookup_cases c ev) as [(e & He & Ht & Ed)|[E1 E2]].
  - unfold cached. rewrite He, (proj2 (Z.ltb_ge _ _)) by done. rewrite Ed. cbn [fst snd]. f_equal. apply (IH c k (ck_store (lk_clock ev))); [|done]. eapply alike_later; [|done]. lia.
  - destruct (cached c (name_of ev) (ck_cached (lk_clock ev))) as [e|] eqn:Ec.
    + assert (Ed : do_lookup c ev = (Ok (ce_policy e), c)) by (unfold do_lookup, Lookup; fold (name_of ev); by rewrite Ec). rewrite Ed. cbn [fst snd]. f_equal.
      apply (IH c k (ck_store (lk_clock ev))); [|done]. eapply alike_later; [|done]. lia.
    + cbn [fst snd]. rewrite E1. f_equal. rewrite E2. apply (IH _ _ (ck_store (lk_clock ev))); [|done]. destruct (resolved ev); [apply (alike_store t); [done|lia]|]. eapply alike_later; [|done]. lia.
Qed.
End lookups.

(** ** Examples *)

Definition sample_policy : Policy := mkPolicy ModeEnforce [lit "mail.example.com"; lit "*.example.net"] 604800.
Example policy_round_trip_witness :
  Parse (fun s => s) (lit "version: STSv1" ++ crlf ++ lit "mode: enforce" ++ crlf ++ lit "mx: mail.example.com" ++ crlf ++ lit "mx: *.example.net" ++ crlf ++ lit "max_age: 604800" ++ crlf) = Ok sample_policy.
Proof. exact (policy_round_trip (fun s => s) sample_policy ltac:(vm_compute; reflexivity)). Defined.
Example patterns :
  map (MatchesMX (fun s => s) sample_policy) [lit "mail.example.com."; lit "a.example.net"; lit "a.b.example.net"; lit "example.net"] = [true; true; false; false].
Proof. vm_compute. reflexivity. Qed.
(** A domain with a policy is looked up twice in its lifetime: the second time DNS fails. *)
Definition sample_events : list event :=
  [mkLookup (fun _ => TXT [lit "v=STSv1; id=1"]) (fun _ => Some (Build sample_policy)) (mkClock 0 1 2) (lit "example.com");
   mkLookup (fun _ => TXTFailed) (fun _ => None) (mkClock (604800 * second) (604800 * second) (604800 * second)) (lit "example.com.");
   mkLookup (fun _ => TXTFailed) (fun _ => None) (mkClock (604801 * second) (604801 * second) (604801 * second)) (lit "example.com")].
Example eviction_invisible_witness :
  answers_of (do_lookup (fun s => s)) ∅ sample_events = [Ok (Some sample_policy); Ok (Some sample_policy); Err ErrTXT]
  /\ answers_of (do_lookup (fun s => s)) ∅ sample_events = answers_of (keep_lookup (fun s => s)) ∅ sample_events.
Proof. split; [vm_compute; reflexivity|]. apply (eviction_invisible (fun s => s) sample_events 0). vm_compute. reflexivity. Defined.
(** The lifetime of a policy with a large [max_age] wraps: it has run out when it is stored. *)
Example large_max_age_not_kept : po_MaxAge <$> match Parse (fun s => s) (Build (mkPolicy ModeEnforce [lit "a"] 10000000000)) with Ok p => Some p | Err _ => None end = Some 10000000000
  /\ lifetime (Some (mkPolicy ModeEnforce [lit "a"] 10000000000)) = -8446744073709551616.
Proof. vm_compute. done. Qed.
